(* ===== verification/_CoqProject ===== *)
-Q . S2P
Prelude.v
Order.v
Errors.v
Format.v
Cbor.v
CborFacts.v
Model.v
Digest.v
Schema.v
Machine.v
Writer.v
Frame.v
Image.v
Reader.v
ReaderFacts.v
WriterFacts.v
Source.v
SourceFacts.v
SourceValidate.v
ValidateFacts.v
Stream.v
StreamFacts.v
StreamWriter.v
StreamWriterFacts.v
Unique.v
CoreTheorems.v
Diagnostic.v
DiagnosticFacts.v
AccessTheorems.v
OutputTheorems.v
Compaction.v
Snapshots.v
SnapshotsFacts.v
Publication.v
Recovery.v
Enumeration.v
EnumerationFacts.v
Directory.v
DirectoryBuild.v
Repair.v
MixedUpdate.v
MixedUpdateFacts.v
MixedUpdatePlan.v
MixedTree.v
MixedTreeFacts.v
MixedReference.v
MixedReferenceFacts.v
CowReuse.v
CowReuseFacts.v
CowReuseBuild.v
Exp0002.v
Exp0002File.v
Exp0002Pages.v
Exp0002Strict.v
Exp0002Levels.v
Exp0002RoundTrip.v
Exp0002Theorems.v
Exp0002Lookup.v
Exp0002Recovery.v
Exp0002Rewrite.v
Exp0002Readers.v
Exp0002Source.v
Exp0002SourceStrict.v
Exp0002SourceFacts.v
Exp0002SourceStrictFacts.v
Exp0002SourceBounds.v
Exp0002SourceLookupFacts.v
Exp0002SourceRecovery.v
Exp0002SourceRecoveryFacts.v
Exp0002SourceScan.v
Exp0002SourceChain.v
Exp0002SourceVersion.v
Exp0002SourceTheorems.v
Immutable.v
ImmutableFacts.v
ImmutableStrict.v
ImmutableBuild.v
ImmutableBatch.v
ImmutableHistory.v
ImmutableTheorems.v
