(* ===== verification/Prelude.v ===== *)
(** * UCOF: a verification development (root file)

    The repository holds an experimental object container format. Its core
    crate [crates/ucof-core] writes, reads, validates and salvages EXP-0001
    files; [crates/ucof-experiments] models the decisions around such files
    (which snapshot is active, what a compaction keeps, how an append is
    published, how objects are found) and tries two more formats with an
    append-only paged directory, EXP-0002 and an immutable-page successor. This
    library translates them into Rocq functions and proves what they guarantee.

    ** The program and its parts

    An EXP-0001 file is a 64-byte bootstrap header, a sequence of framed
    records (a 40-byte header, a payload, zero padding), a canonical CBOR
    directory that lists them, and a footer that locates the directory and
    carries the SHA-256 of everything before it. Two writers produce such
    files ([writer.rs] in memory, [stream_writer.rs] into any sink) and four
    readers consume them: [reader.rs] over a whole buffer, [stream.rs]
    sequentially from any [Read], [source.rs] by bounded random access to the
    metadata alone, [source_validate.rs] by random access to everything.
    [diagnostic.rs] wraps the last two and adds prefix salvage. All of them use
    the codec of [cbor.rs], the limits of [limits.rs] and the errors of
    [error.rs].

    An EXP-0002 file is a header and a sequence of commits. A commit appends
    object records, the pages of a directory over all live objects, a snapshot
    that names the root page, and a footer that seals them and points back to
    the footer before. [exp0002.rs] builds, extends and strictly validates such
    files in memory; [exp0002_lookup.rs], [exp0002_recovery.rs] and
    [exp0002_rewrite.rs] look an object up, recover the commits of a damaged
    file and copy a selection. The [exp0002_source*.rs] files do the same
    through a random-access source under a budget of reads.

    The immutable-page successor format is close to EXP-0002: commits of
    records, pages, a snapshot and a footer, every part under a digest, with a
    directory whose pages are at least half full. [immutable_successor.rs]
    includes its readers and its writers in memory, and many drivers that run
    them over files and storage services.

    ** Files

    Foundations:
    - [Prelude]: results and their notations, machine integers with their
      checked operations, slices, byte codecs and their lemmas;
    - [Order]: comparators, stable sorting, checks over adjacent pairs, and
      vectors whose elements carry a key;
    - [Digest]: the [Sha256] class, the one external function of the core. Its
      only law is the digest length; nothing assumes that it is injective, so
      statements about digests are exact byte equalities;
    - [Machine]: the monad of [&mut self] methods (the state survives errors)
      and the classes of the traits the code is generic over ([ReadAt],
      [ReadStream], [WriteSink], [Seek]). Laws are separate classes, used only
      by the theorems that need them (a reliable sink, a source of some bytes).

    The core, model and facts:
    - [Errors], [Format], [Model]: [error.rs], [limits.rs], [format.rs],
      [model.rs];
    - [Cbor], [CborFacts]: [cbor.rs]; the canonical codec;
    - [Schema]: the directory and manifest schemas, which [reader.rs],
      [source.rs] and [stream.rs] repeat word for word;
    - [Frame]: header, record header and footer checks of all the readers;
    - [Image]: the abstract specification. A document is a sequence of frames
      and a manifest; [image] gives the bytes of its file and [accepted] says
      which documents a reader admits under its limits. Everything else is
      proved against it;
    - [Writer], [WriterFacts]: [writer.rs] produces images, which parse back;
    - [Reader], [ReaderFacts]: [reader.rs] accepts exactly the images of
      accepted documents;
    - [Source], [SourceFacts]: [source.rs];
    - [SourceValidate], [ValidateFacts]: [source_validate.rs];
    - [Stream], [StreamFacts]: [stream.rs], as a state machine, sound and
      complete for images;
    - [StreamWriter], [StreamWriterFacts]: [stream_writer.rs], refining the
      same specification as the in-memory writer;
    - [Diagnostic], [DiagnosticFacts]: [diagnostic.rs];
    - [Unique]: an image determines its document;
    - [CoreTheorems], [AccessTheorems], [OutputTheorems]: the statements about
      the core, each with a concrete instance.

    The experiments crate:
    - [Compaction]: [compaction.rs], the reachability plan,
      against reachability in the dependency graph;
    - [Snapshots], [SnapshotsFacts]: [snapshots.rs], root selection, against
      valid parent chains;
    - [Publication]: [publication.rs], a state machine
      whose states are those of legal logs;
    - [Recovery]: [recovery.rs], the backward scan;
    - [Enumeration], [EnumerationFacts]: [enumeration.rs], the report on every
      root, shown to agree with [Snapshots];
    - [Directory], [DirectoryBuild]: [directory.rs], the
      paged directory, as a search tree over sorted entries;
    - [Repair]: [repair.rs], the copy plan, on top of
      [Snapshots], [Compaction] and [Directory];
    - [MixedUpdate], [MixedUpdateFacts], [MixedUpdatePlan]:
      [mixed_update_plan.rs], the leaf pages after a batch of insertions,
      replacements and deletions, against the set of objects it leaves and
      against one run: the batch applied, every overfull page cut into its
      canonical groups, then the steps of the repair as a relation;
    - [MixedTree], [MixedTreeFacts]: [mixed_tree_plan.rs], the levels of
      internal pages over those leaves;
    - [MixedReference], [MixedReferenceFacts]: [mixed_reference_plan.rs], which
      pages of the final tree reuse an original one;
    - [CowReuse], [CowReuseFacts], [CowReuseBuild]: [cow_reuse.rs], the
      copy-on-write directory, refining a finite map.

    EXP-0002 in memory:
    - [Exp0002], [Exp0002File]: the codecs of [exp0002.rs], and its builders
      and strict validation;
    - [Exp0002Pages], [Exp0002Strict]: the codecs and the pages are canonical;
      strict validation accepts exactly the files a declarative specification
      ([strict_valid], [strict_admitted]) describes;
    - [Exp0002Levels], [Exp0002RoundTrip]: what the builders write is valid;
    - [Exp0002Theorems]: the statements about [exp0002.rs];
    - [Exp0002Lookup], [Exp0002Recovery], [Exp0002Rewrite]: the three readers
      of a file in memory, and [Exp0002Readers] their statements.

    EXP-0002 through a source:
    - [Exp0002Source]: [exp0002_source.rs], the budgeted reader and the lookup;
    - [Exp0002SourceStrict]: [exp0002_source_strict.rs], the strict validation,
      and [Exp0002SourceScan] its private scan;
    - [Exp0002SourceFacts], [Exp0002SourceStrictFacts]: the sources that present
      a file ([PresentsSource]), the cost of a run as a sum of counters, and
      that validation accepts exactly the files whose cost fits the limits;
    - [Exp0002SourceLookupFacts]: the lookup costs what it should and finds what
      the lookup in memory finds;
    - [Exp0002SourceBounds]: two runs in lockstep, and the bounds on what any
      source is asked;
    - [Exp0002SourceRecovery], [Exp0002SourceRecoveryFacts]:
      [exp0002_source_recovery.rs], the scan over prefixes of a source;
    - [Exp0002SourceChain]: [exp0002_source_chain.rs], the previous commits;
    - [Exp0002SourceVersion]: [exp0002_source_version.rs], a source pinned to a
      version, with the law of the versions a storage system gives
      ([StrongVersions]);
    - [Exp0002SourceTheorems]: the statements about sources.

    The immutable-page successor format, in memory:
    - [Immutable]: [immutable_successor/part1.rs] to [part5.rs], [history.rs],
      [occupancy.rs], [freshness.rs], [batch.rs] and [rewrite.rs], which the
      crate includes into one module. Errors are values; a panic is one too
      ([Panicked]). The sizes of structures are a class ([Layout]);
    - [ImmutableFacts], [ImmutableStrict]: the pages, the tree over them and
      the commit; strict validation accepts exactly the files of a declarative
      specification ([valid_image]);
    - [ImmutableBuild]: what the writers leave is a valid file whose pages are
      filled as the canonical form asks ([canonical_file]), or a limit stops
      them ([limited]);
    - [ImmutableBatch]: batches against the finite map of the objects
      ([contents], [apply_spec]), and genesis files;
    - [ImmutableHistory]: the chain of commits, the recovery scan, rewrites and
      replacements;
    - [ImmutableTheorems]: the statements about the format.

    A function of the source keeps its name where Rocq allows it; fields that
    would clash carry a short prefix. A method of a generic type is a function
    of a section over the class of its trait.

    ** What the theorems show

    - A byte string parses exactly when it is the image of an accepted
      document, and then yields that document; images are unambiguous. Written
      files read back.
    - The sequential reader, the metadata inspector and the source validator
      agree with that specification, within their budgets, whatever the source
      does; inspection is exact up to the footer digest, which it does not
      check. The budgets themselves are respected.
    - The two writers accept the same scripts and produce the same bytes; a
      failed streaming writer or reader stays failed.
    - Diagnostics report [Verified] only for images; salvage reports exactly
      the frames of a prefix and never claims validity.
    - The codec accepts exactly the canonical encodings within the limits.
    - Planning: selection returns the unique valid highest (or exact-end)
      snapshot with its chain; enumeration classifies every candidate and flags
      the same forks; a compaction plan is the reachable set; a repair plan
      copies exactly the reachable objects from disjoint ranges; publication
      follows its order; the recovery scan misses nothing in its window.
    - The paged directory: building never panics, a lookup in a built
      directory is an exact search, a lookup in any directory ends.
    - Mixed batches: the planned leaves hold exactly the objects the batch
      leaves, in order and within the occupancy limits, and pages not reported
      as touched are unchanged; a plan is the end of its run, and every refusal
      is a state the run reaches or a limit it exceeds; the order of the batch
      does not matter; a last page left two objects short by deletions is not
      repaired when its neighbour can lend
      ([MixedUpdatePlan.plan_refuses_deep_underflow]). The planned tree is the
      canonical one over the leaves, group by group, and a page is reused exactly when it is
      unchanged with nothing below it touched. A leaf can be regrouped without
      being listed as touched ([MixedTreeFacts.unlisted_page_regrouped]).
    - The copy-on-write directory refines a finite map: an update copies the
      pages of one path and shares every other.
    - EXP-0002 in memory: pages are canonical; strict validation accepts exactly
      the valid files within the limits; a genesis or an append that is built
      validates with what was given; a lookup agrees with validation; recovery
      finds exactly the valid prefixes of its window, and the chain of commits
      down to the first; a rewrite copies exactly the selected objects.
    - EXP-0002 through a source: over any source that presents a file, the
      validation accepts exactly the valid files whose cost fits the limits and
      reports that cost; the lookup agrees with the one in memory when its cost
      fits; recovery and the chain report exactly the accepted
      prefixes and charge every byte asked for; whatever a source answers, it is
      asked within the limits; a validation over a pinned source is of one
      version, or fails.
    - The immutable-page format: strict validation accepts exactly the valid
      files within the limits, and panics only after the last sequence number
      ([ImmutableTheorems.validation_panics] shows that it does); a genesis, a
      batch and a rewrite are canonical files with exactly the objects they
      should have, and every refusal but a limit is explained; the history is
      the chain of commits down to the first, refused only at a commit it
      reaches, and the recovery scan tries and reports exactly what its caps
      allow.
    - Where a reader disagrees with the documents or another reader, a theorem
      exhibits it ([OutputTheorems.readers_differ_on_interior_directory],
      [CoreTheorems.directory_entries_bounded]).

    ** Numbers, loops and bounds

    A [u16], [u32], [u64] or [usize] is an [N]; [usize] has 64 bits. Every
    operation that can leave the range is the checked or saturating one of the
    code. Loops that are not structural take fuel, and a lemma shows that the
    fuel given is enough:
    - record scans and salvage: the length of the input plus one, since each
      turn consumes a header;
    - the CBOR decoder: the length of the input plus one, since each item
      takes a byte;
    - loops over a 64-bit counter ([Machine.loop_pow]): 2^64 turns, unfolded
      lazily in binary;
    - the compaction walk: one more than the roots and the edges;
    - parent chains: one more than the depth limit;
    - directory lookups and walks: one or two more than the number of pages;
      the levels of a build: one more than the leaves; the shape estimate: one
      more than the logarithm of the leaves; the binary search: the length;
    - leaf splits: one more than the objects and pages; leaf repairs: one more
      than twice the pages, since a turn moves on or removes a page; what the
      two loops return is the end of a run without fuel;
    - the shapes of a planned tree: one more than the logarithm of the leaves;
      copy-on-write walks: the pages plus two; its updates: the pages plus one;
    - the walk over an EXP-0002 directory: the length of the file plus two, as
      pages are disjoint in it; the levels that are written: one more than the
      leaf pages; a lookup: one more than the level of the root; the chain of
      commits: the length of the file plus two;
    - through a source: reads and hashed blocks, one more than the length over
      the size of a block; the directory walk, two more than the page reads
      allowed; the chain, one more than its depth limit;
    - the immutable-page format: a walk over the pages, one more than the page
      limit; the levels, one more than the depth limit; the history, its limit
      of entries.
    Rust code that would panic is [None] in [Directory]; the theorems show that
    it does not happen. Theorems about [build] assume fewer than 2^62 entries,
    and those about mixed batches an object limit of at most 2^63, more than
    memory holds. Those about writing EXP-0002 files assume at most 2^32 objects
    and roots and a file below 2^64 bytes; those about sources a file whose
    length, plus a footer for recovery, is a [u64].

    ** Not modelled

    - [crates/ucof-cli], the binaries and the examples: argument parsing and
      printing around calls of the library.
    - The rest of [immutable_successor/]: the writers that keep unchanged
      pages, the readers and writers over sources and sinks, and replacement of
      objects in local and S3 storage through files and asynchronous HTTP
      clients; mostly input and output against third-party crates.
    - [semantic_*.rs] and [active_file_selected_streaming.rs]: drivers that run
      the readers above into files of [immutable_successor/].
    - The fuzz targets and tests.
    - Memory allocation failures, and the sizes of Rust's in-memory types. *)

From Stdlib Require Import Strings.Byte Strings.String NArith ZArith Lia.
From stdpp Require Import base list gmap strings sorting.

Local Open Scope N_scope.

(** ** Results: Rust's [Result<A, E>] *)

Inductive result (E A : Type) : Type :=
  | Ok (a : A)
  | Err (e : E).
Arguments Ok {E A} a.
Arguments Err {E A} e.

Declare Scope ucof_scope.
Delimit Scope ucof_scope with ucof.

(** [let* x := m in k] is [let x = m?; k]. *)
Notation "'let*' x ':=' m 'in' k" :=
  (match m with Ok x => k | Err e => Err e end)
  (at level 10, x pattern, m at level 100, k at level 200,
   format "'[v' 'let*'  x  ':='  m  'in' '/' k ']'") : ucof_scope.

(** [guard c else e in k] is [if !c { return Err(e) }; k]. *)
Notation "'check' c 'else' e 'in' k" :=
  (if (c : bool) then k else Err e)
  (at level 10, c at level 100, e at level 100, k at level 200,
   format "'[v' 'check'  c  'else'  e  'in' '/' k ']'") : ucof_scope.
Open Scope ucof_scope.

Definition ok_or {E A} (o : option A) (e : E) : result E A :=
  match o with Some a => Ok a | None => Err e end.

Definition is_ok {E A} (r : result E A) : bool :=
  match r with Ok _ => true | Err _ => false end.

#[export] Instance result_eq_dec {E A} `{EqDecision E, EqDecision A} :
  EqDecision (result E A).
Proof. solve_decision. Defined.

(** [for x in xs { f(x)?; }] collecting the results, left to right. *)
Fixpoint map_result {E A B} (f : A -> result E B) (l : list A) : result E (list B) :=
  match l with
  | [] => Ok []
  | x :: l => let* y := f x in let* ys := map_result f l in Ok (y :: ys)
  end.

(** A loop threading a state through [?]. *)
Fixpoint fold_result {E A S} (f : S -> A -> result E S) (l : list A) (s : S) : result E S :=
  match l with
  | [] => Ok s
  | x :: l => let* s' := f s x in fold_result f l s'
  end.

(** Case analysis on every [let*] and [check] of a successful run. *)
Ltac step_result H :=
  lazymatch type of H with
  | match ?m with Ok _ => _ | Err _ => _ end = _ =>
      let E := fresh "Heqr" in
      destruct m eqn:E; [step_result E; step_result H|discriminate H]
  | (if ?c then _ else Err _) = _ =>
      destruct c eqn:?; [step_result H|discriminate H]
  | _ => idtac
  end.

Ltac bool_facts :=
  repeat match goal with
  | H : (_ && _)%bool = true |- _ => apply andb_true_iff in H; destruct H
  | H : (_ || _)%bool = false |- _ => apply orb_false_iff in H; destruct H
  | H : negb _ = true |- _ => apply negb_true_iff in H
  | H : negb _ = false |- _ => apply negb_false_iff in H
  | H : N.eqb _ _ = true |- _ => apply N.eqb_eq in H
  | H : N.eqb _ _ = false |- _ => apply N.eqb_neq in H
  | H : N.leb _ _ = true |- _ => apply N.leb_le in H
  | H : N.leb _ _ = false |- _ => apply N.leb_gt in H
  | H : N.ltb _ _ = true |- _ => apply N.ltb_lt in H
  | H : N.ltb _ _ = false |- _ => apply N.ltb_ge in H
  | H : bool_decide _ = true |- _ => apply bool_decide_eq_true in H
  | H : bool_decide _ = false |- _ => apply bool_decide_eq_false in H
  end.

(** Close a decidable goal by evaluating its decision procedure. *)
Ltac decide_now :=
  match goal with |- ?P => apply (bool_decide_eq_true_1 P); vm_compute; reflexivity end.

Section ResultLemmas.
Context {E A B : Type}.

Lemma map_result_length (f : A -> result E B) l l' :
  map_result f l = Ok l' -> length l' = length l.
Proof.
  revert l'. induction l as [|x l IH]; simpl; intros l' H; [by inversion H|].
  step_result H. inversion H; subst. simpl. f_equal. by apply IH.
Qed.

Lemma map_result_Forall2 (f : A -> result E B) l l' :
  map_result f l = Ok l' <-> Forall2 (fun x y => f x = Ok y) l l'.
Proof.
  revert l'. induction l as [|x l IH]; simpl; intros l'; split; intros H.
  - inversion H. constructor.
  - by inversion H.
  - step_result H. inversion H; subst. constructor; [done|]. by apply IH.
  - inversion H as [|? y ? l2 Hx Hl]; subst. rewrite Hx.
    apply IH in Hl. by rewrite Hl.
Qed.

Lemma map_result_ok (f : A -> result E B) (g : A -> B) l :
  (forall x, x ∈ l -> f x = Ok (g x)) -> map_result f l = Ok (g <$> l).
Proof.
  induction l as [|x l IH]; csimpl; intros H; [done|].
  rewrite (H x) by set_solver. rewrite IH by set_solver. done.
Qed.

Lemma map_result_fmap {C} (f : B -> result E C) (g : A -> B) l :
  map_result f (g <$> l) = map_result (fun x => f (g x)) l.
Proof. induction l as [|x l IH]; csimpl; [done|]. by rewrite IH. Qed.

Lemma fold_result_app {S} (f : S -> A -> result E S) l1 l2 s :
  fold_result f (l1 ++ l2) s =
  match fold_result f l1 s with Ok s' => fold_result f l2 s' | Err e => Err e end.
Proof.
  revert s. induction l1 as [|x l1 IH]; simpl; intros s; [done|].
  destruct (f s x); [apply IH|done].
Qed.
End ResultLemmas.

(** ** Machine integers

    [u64] and [usize] are 64 bits wide; a value is an [N] and every
    operation that can leave the range is written out. *)

Definition U16_MAX : N := 2 ^ 16 - 1.
Definition U32_MAX : N := 2 ^ 32 - 1.
Definition U64_MAX : N := 2 ^ 64 - 1.

Definition u64_ok (n : N) : Prop := n <= U64_MAX.

(** [a.checked_add(b)] on [u64]/[usize]. *)
Definition checked_add (a b : N) : option N :=
  if a + b <=? U64_MAX then Some (a + b) else None.

Definition checked_sub (a b : N) : option N :=
  if b <=? a then Some (a - b) else None.

Definition checked_mul (a b : N) : option N :=
  if a * b <=? U64_MAX then Some (a * b) else None.

Definition saturating_add (a b : N) : N := N.min (a + b) U64_MAX.

(** [u16::try_from], [u64::try_from(usize)] (the latter never fails at 64 bits
    for a length that is a [usize]). *)
Definition try_u16 (n : N) : option N := if n <=? U16_MAX then Some n else None.
Definition try_u64 (n : N) : option N := if n <=? U64_MAX then Some n else None.

(** [v.len()] *)
Definition len {A} (l : list A) : N := N.of_nat (length l).

Lemma checked_add_Some a b c : checked_add a b = Some c <-> c = a + b /\ a + b <= U64_MAX.
Proof. unfold checked_add. destruct (N.leb_spec (a + b) U64_MAX); (split; [intros [=]; subst; lia|intros []; subst; first [done|lia]]). Qed.

Lemma checked_add_fits a b : a + b <= U64_MAX -> checked_add a b = Some (a + b).
Proof. intros H. by apply checked_add_Some. Qed.

Lemma checked_sub_Some a b c : checked_sub a b = Some c <-> c = a - b /\ b <= a.
Proof. unfold checked_sub. destruct (N.leb_spec b a); (split; [intros [=]; subst; lia|intros []; subst; first [done|lia]]). Qed.

Lemma try_u64_fits n : n <= U64_MAX -> try_u64 n = Some n.
Proof. intros H. unfold try_u64. by rewrite (proj2 (N.leb_le _ _) H). Qed.

Lemma try_u64_Some n m : try_u64 n = Some m <-> m = n /\ n <= U64_MAX.
Proof. unfold try_u64. destruct (N.leb_spec n U64_MAX); (split; [intros [=]; subst; lia|intros []; subst; first [done|lia]]). Qed.

Lemma try_u16_Some n m : try_u16 n = Some m <-> m = n /\ n <= U16_MAX.
Proof. unfold try_u16. destruct (N.leb_spec n U16_MAX); (split; [intros [=]; subst; lia|intros []; subst; first [done|lia]]). Qed.

Lemma ok_or_Ok {E A} (o : option A) (e : E) a : ok_or o e = Ok a <-> o = Some a.
Proof. destruct o; simpl; split; congruence. Qed.

(** What the successful checked operations in the context say. *)
Ltac option_facts :=
  repeat match goal with
  | H : ok_or _ _ = Ok _ |- _ => apply ok_or_Ok in H
  | H : checked_add _ _ = Some _ |- _ => apply checked_add_Some in H as [-> ?]
  | H : checked_sub _ _ = Some _ |- _ => apply checked_sub_Some in H as [-> ?]
  | H : try_u64 _ = Some _ |- _ => apply try_u64_Some in H as [-> ?]
  | H : try_u16 _ = Some _ |- _ => apply try_u16_Some in H as [-> ?]
  end.

Lemma len_nil {A} : len (@nil A) = 0.
Proof. done. Qed.
Lemma len_cons {A} (x : A) l : len (x :: l) = 1 + len l.
Proof. unfold len. simpl length. lia. Qed.
Lemma len_app {A} (l1 l2 : list A) : len (l1 ++ l2) = len l1 + len l2.
Proof. unfold len. rewrite length_app. lia. Qed.
Lemma len_fmap {A B} (f : A -> B) l : len (f <$> l) = len l.
Proof. unfold len. by rewrite length_fmap. Qed.
Lemma len_to_nat {A} (l : list A) : N.to_nat (len l) = length l.
Proof. unfold len. lia. Qed.

Lemma filter_all {A} (P : A -> Prop) `{forall x, Decision (P x)} (l : list A) :
  (forall x, x ∈ l -> P x) -> filter P l = l.
Proof.
  induction l as [|x l IH]; intros Hl; [done|]. rewrite filter_cons_True by (apply Hl; set_solver).
  f_equal. apply IH. intros y Hy. apply Hl. set_solver.
Qed.

Create Rewrite HintDb len.
#[export] Hint Rewrite @len_nil @len_cons @len_app @len_fmap : len.

(** Grouping the [k] pages of a level by at least two leaves fewer pages. *)
Lemma fewer_pages (f k k' : N) : 2 <= f -> 1 < k -> k' = (k + (f - 1)) / f ->
  1 <= k' /\ k' < k /\ 3 * k' <= 2 * k /\ N.log2_up k' + 1 <= N.log2_up k.
Proof.
  intros Hf Hk ->. set (k' := (k + (f - 1)) / f).
  assert (H1 : 1 <= k') by (apply N.div_le_lower_bound; lia).
  assert (Hm : f * k' <= k + (f - 1)) by (apply N.Div0.mul_div_le).
  assert (H2 : 2 * k' <= k + 1) by nia. split_and!; [done|lia|lia|].
  assert (Hp : 0 < N.log2_up k) by (by apply N.log2_up_pos).
  assert (N.log2_up k' <= N.log2_up k - 1); [|lia].
  apply N.log2_up_le_pow2; [lia|].
  assert (Hle : k <= 2 ^ N.log2_up k) by (apply N.log2_up_le_pow2; lia).
  replace (N.log2_up k) with (N.succ (N.log2_up k - 1)) in Hle by lia. rewrite N.pow_succ_r' in Hle. lia.
Qed.

(** ** Slices *)

(** [bytes.get(start..end)] *)
Definition get_range {A} (l : list A) (start end_ : N) : option (list A) :=
  if (start <=? end_) && (end_ <=? len l)
  then Some (take (N.to_nat (end_ - start)) (drop (N.to_nat start) l))
  else None.

(** [l[start..end]] where the code has established the bounds. *)
Definition slice {A} (l : list A) (start end_ : N) : list A :=
  take (N.to_nat (end_ - start)) (drop (N.to_nat start) l).

(** [l.get(i)] *)
Definition get {A} (l : list A) (i : N) : option A :=
  if i <? len l then l !! N.to_nat i else None.

Section SliceLemmas.
Context {A : Type}.
Implicit Types l pre mid post : list A.

Lemma slice_app pre mid post a b :
  a = len pre -> b = len pre + len mid ->
  slice (pre ++ mid ++ post) a b = mid.
Proof.
  intros -> ->. unfold slice.
  replace (N.to_nat (len pre)) with (length pre) by (unfold len; lia).
  rewrite drop_app_length.
  replace (N.to_nat (len pre + len mid - len pre)) with (length mid) by (unfold len; lia).
  by rewrite take_app_length.
Qed.

Lemma get_range_app pre mid post a b :
  a = len pre -> b = len pre + len mid ->
  get_range (pre ++ mid ++ post) a b = Some mid.
Proof.
  intros Ha Hb. unfold get_range.
  rewrite (proj2 (N.leb_le a b)) by lia.
  rewrite (proj2 (N.leb_le b _)) by (rewrite !len_app; lia). simpl.
  f_equal. by apply slice_app.
Qed.

Lemma get_range_Some l a b r :
  get_range l a b = Some r ->
  a <= b /\ b <= len l /\ len r = b - a /\ r = slice l a b /\
  exists pre post, l = pre ++ r ++ post /\ len pre = a.
Proof.
  unfold get_range. intros H.
  destruct ((a <=? b) && (b <=? len l)) eqn:E; [|done]. bool_facts.
  injection H as <-. unfold len in *.
  split_and!; [done|done| |done|].
  - rewrite length_take, length_drop. lia.
  - exists (take (N.to_nat a) l), (drop (N.to_nat b) l). split.
    + rewrite <- (take_drop (N.to_nat a) l) at 1. f_equal.
      rewrite <- (take_drop (N.to_nat (b - a)) (drop (N.to_nat a) l)) at 1. f_equal.
      rewrite drop_drop. f_equal. lia.
    + rewrite length_take. lia.
Qed.

Lemma get_range_None l a b : a <= b -> len l < b -> get_range l a b = None.
Proof.
  intros H1 H2. unfold get_range.
  by rewrite (proj2 (N.leb_gt b (len l)) H2), andb_false_r.
Qed.

Lemma slice_len l a b : a <= b -> b <= len l -> len (slice l a b) = b - a.
Proof. unfold slice, len. rewrite length_take, length_drop. lia. Qed.

Lemma slice_all l : slice l 0 (len l) = l.
Proof. unfold slice. rewrite N.sub_0_r, len_to_nat, drop_0. by apply firstn_all. Qed.

Lemma slice_split l a b : a <= b -> b <= len l ->
  l = slice l 0 a ++ slice l a b ++ slice l b (len l).
Proof.
  intros H1 H2. unfold slice, len in *. rewrite N.sub_0_r, drop_0.
  rewrite <- (take_drop (N.to_nat a) l) at 1. f_equal.
  rewrite <- (take_drop (N.to_nat (b - a)) (drop (N.to_nat a) l)) at 1. f_equal.
  rewrite drop_drop. replace (N.to_nat a + N.to_nat (b - a))%nat with (N.to_nat b) by lia.
  symmetry. apply firstn_all2. rewrite length_drop. lia.
Qed.

Lemma slice_join l a b c : a <= b -> b <= c -> c <= len l ->
  slice l a b ++ slice l b c = slice l a c.
Proof.
  intros H1 H2 H3. unfold slice, len in *.
  replace (N.to_nat (c - a)) with (N.to_nat (b - a) + N.to_nat (c - b))%nat by lia.
  rewrite <- (take_take_drop _ (N.to_nat (b - a)) (N.to_nat (c - b))).
  rewrite drop_drop. do 3 f_equal. lia.
Qed.

Lemma get_Some l i x : get l i = Some x <-> l !! N.to_nat i = Some x.
Proof.
  unfold get. destruct (N.ltb_spec i (len l)) as [H|H]; [done|].
  split; [done|]. intros Hx. apply lookup_lt_Some in Hx. unfold len in H. lia.
Qed.
End SliceLemmas.

(** ** Byte codecs: [to_le_bytes], [from_le_bytes] and the big-endian forms *)

Abbreviation bytes := (list byte).

Definition N_of_byte (b : byte) : N := Byte.to_N b.
Definition byte_of_N (n : N) : byte := default Byte.x00 (Byte.of_N (n mod 256)).

#[export] Instance byte_eq_dec : EqDecision byte := Byte.byte_eq_dec.

Fixpoint le_encode (k : nat) (v : N) : bytes :=
  match k with
  | O => []
  | S k => byte_of_N v :: le_encode k (v / 256)
  end.

Fixpoint le_decode (l : bytes) : N :=
  match l with
  | [] => 0
  | b :: l => N_of_byte b + 256 * le_decode l
  end.

Definition be_encode (k : nat) (v : N) : bytes := rev (le_encode k v).
Definition be_decode (l : bytes) : N := le_decode (rev l).

Lemma N_of_byte_lt b : N_of_byte b < 256.
Proof. unfold N_of_byte. pose proof (Byte.to_N_bounded b). lia. Qed.

Lemma N_of_byte_of_N n : N_of_byte (byte_of_N n) = n mod 256.
Proof.
  unfold N_of_byte, byte_of_N.
  assert (H : n mod 256 < 256) by (apply N.mod_lt; lia).
  destruct (Byte.of_N (n mod 256)) as [b|] eqn:E; simpl.
  - by apply Byte.to_of_N.
  - apply Byte.of_N_None_iff in E. lia.
Qed.

Lemma byte_of_N_of_byte b : byte_of_N (N_of_byte b) = b.
Proof.
  unfold byte_of_N. rewrite N.mod_small by apply N_of_byte_lt.
  unfold N_of_byte. by rewrite Byte.of_to_N.
Qed.

Lemma N_of_byte_inj b c : N_of_byte b = N_of_byte c -> b = c.
Proof. intros H. by rewrite <- (byte_of_N_of_byte b), H, byte_of_N_of_byte. Qed.

Lemma length_le_encode k v : length (le_encode k v) = k.
Proof. revert v. induction k as [|k IH]; simpl; intros v; [done|]. by rewrite IH. Qed.

Lemma length_be_encode k v : length (be_encode k v) = k.
Proof. unfold be_encode. by rewrite length_rev, length_le_encode. Qed.

Lemma le_decode_bound l : le_decode l < 256 ^ len l.
Proof.
  induction l as [|b l IH]; [done|].
  rewrite len_cons. simpl le_decode. rewrite N.pow_add_r.
  pose proof (N_of_byte_lt b). change (256 ^ 1) with 256. nia.
Qed.

Lemma be_decode_bound l : be_decode l < 256 ^ len l.
Proof.
  unfold be_decode. pose proof (le_decode_bound (rev l)) as H.
  unfold len in *. by rewrite length_rev in H.
Qed.

Lemma le_decode_encode k v : le_decode (le_encode k v) = v mod 256 ^ N.of_nat k.
Proof.
  revert v. induction k as [|k IH]; intros v.
  - simpl. by rewrite N.mod_1_r.
  - simpl le_encode. simpl le_decode. rewrite IH, N_of_byte_of_N.
    replace (N.of_nat (S k)) with (1 + N.of_nat k) by lia.
    rewrite N.pow_add_r, N.pow_1_r, N.Div0.mod_mul_r by lia. done.
Qed.

Lemma le_decode_encode_small k v : v < 256 ^ N.of_nat k -> le_decode (le_encode k v) = v.
Proof. intros H. rewrite le_decode_encode. by apply N.mod_small. Qed.

Lemma le_encode_decode l : le_encode (length l) (le_decode l) = l.
Proof.
  induction l as [|b l IH]; [done|]. simpl. pose proof (N_of_byte_lt b). f_equal.
  - unfold byte_of_N. rewrite N.mul_comm, N.Div0.mod_add, N.mod_small by lia.
    unfold N_of_byte. by rewrite Byte.of_to_N.
  - rewrite N.mul_comm, N.div_add, N.div_small, N.add_0_l by lia. done.
Qed.

Lemma be_decode_encode_small k v : v < 256 ^ N.of_nat k -> be_decode (be_encode k v) = v.
Proof.
  intros H. unfold be_decode, be_encode. rewrite rev_involutive.
  by apply le_decode_encode_small.
Qed.

Lemma be_encode_decode l : be_encode (length l) (be_decode l) = l.
Proof.
  unfold be_encode, be_decode.
  rewrite <- (length_rev l), le_encode_decode. apply rev_involutive.
Qed.

(** [[0_u8; n]] *)
Definition zeros (n : nat) : bytes := replicate n Byte.x00.

(** ** [std::str::from_utf8]: well-formed UTF-8 byte sequences *)

Definition in_range (lo hi : N) (b : byte) : bool :=
  (lo <=? N_of_byte b) && (N_of_byte b <=? hi).

Definition utf8_cont : byte -> bool := in_range 0x80 0xBF.

Fixpoint valid_utf8 (l : bytes) : bool :=
  match l with
  | [] => true
  | b :: l1 =>
      if in_range 0 0x7F b then valid_utf8 l1
      else match l1 with
      | [] => false
      | c1 :: l2 =>
          if in_range 0xC2 0xDF b then utf8_cont c1 && valid_utf8 l2
          else match l2 with
          | [] => false
          | c2 :: l3 =>
              if in_range 0xE0 0xE0 b then in_range 0xA0 0xBF c1 && utf8_cont c2 && valid_utf8 l3
              else if in_range 0xE1 0xEC b || in_range 0xEE 0xEF b
                then utf8_cont c1 && utf8_cont c2 && valid_utf8 l3
              else if in_range 0xED 0xED b
                then in_range 0x80 0x9F c1 && utf8_cont c2 && valid_utf8 l3
              else match l3 with
              | [] => false
              | c3 :: l4 =>
                  if in_range 0xF0 0xF0 b
                    then in_range 0x90 0xBF c1 && utf8_cont c2 && utf8_cont c3 && valid_utf8 l4
                  else if in_range 0xF1 0xF3 b
                    then utf8_cont c1 && utf8_cont c2 && utf8_cont c3 && valid_utf8 l4
                  else if in_range 0xF4 0xF4 b
                    then in_range 0x80 0x8F c1 && utf8_cont c2 && utf8_cont c3 && valid_utf8 l4
                  else false
              end
          end
      end
  end.

(** A Rust [String] is its byte sequence. *)
Definition as_bytes (s : string) : bytes := list_byte_of_string s.
Definition from_bytes (l : bytes) : string := string_of_list_byte l.

Lemma from_as_bytes s : from_bytes (as_bytes s) = s.
Proof. apply string_of_list_byte_of_string. Qed.
Lemma as_from_bytes l : as_bytes (from_bytes l) = l.
Proof. apply list_byte_of_string_of_list_byte. Qed.
Lemma as_bytes_inj s t : as_bytes s = as_bytes t -> s = t.
Proof. intros H. by rewrite <- (from_as_bytes s), H, from_as_bytes. Qed.

(** ** [BTreeSet<u64>]: [set.insert(x)] reports whether [x] was new *)

Definition try_insert (x : N) (s : gset N) : option (gset N) :=
  if bool_decide (x ∈ s) then None else Some ({[x]} ∪ s).

(** [for x in xs { if !seen.insert(x) { return Err(e(x)) } }] *)
Definition insert_all {E} (e : N -> E) (l : list N) (s : gset N) : result E (gset N) :=
  fold_result (fun s x => ok_or (try_insert x s) (e x)) l s.

Lemma try_insert_Some x s s' : try_insert x s = Some s' <-> x ∉ s /\ s' = {[x]} ∪ s.
Proof. unfold try_insert. case_bool_decide; naive_solver. Qed.

Lemma insert_all_Ok {E} (e : N -> E) l s s' :
  insert_all e l s = Ok s' <->
  NoDup l /\ (forall x, x ∈ l -> x ∉ s) /\ s' = list_to_set l ∪ s.
Proof.
  unfold insert_all. revert s. induction l as [|x l IH]; simpl; intros s.
  - split; [intros [= <-]|intros (_&_&->)]; [split_and!; [constructor|set_solver|set_solver]|].
    f_equal. set_solver.
  - destruct (try_insert x s) as [s1|] eqn:E1; simpl.
    + apply try_insert_Some in E1 as [Hx ->]. rewrite IH, NoDup_cons. split.
      * intros (H1&H2&->). split_and!; [|done|set_solver|set_solver].
        intros Hin. specialize (H2 x Hin). set_solver.
      * intros ((H0&H1)&H2&->). split_and!; [done|set_solver|set_solver].
    + split; [done|]. intros (H1&H2&_). exfalso.
      unfold try_insert in E1. case_bool_decide; [|done]. by apply (H2 x); [set_solver|].
Qed.

Lemma insert_all_Err {E} (e : N -> E) l s err :
  insert_all e l s = Err err -> exists x, x ∈ l /\ err = e x.
Proof.
  unfold insert_all. revert s. induction l as [|x l IH]; simpl; intros s; [done|].
  destruct (try_insert x s); simpl; [|intros [= <-]; exists x; set_solver].
  intros H. apply IH in H as (y&Hy&->). exists y; set_solver.
Qed.
