(* ===== verification/Order.v ===== *)
(** Comparators, stable sorting and the checks the code makes on the windows of
    a sorted vector; vectors whose elements carry a key, their chunks and binary
    search, and facts about strictly ascending ones. Shared by the metadata
    codec and by the directory, enumeration, repair and planning models. *)

From Stdlib Require Import Strings.Byte Strings.String NArith ZArith Lia.
From stdpp Require Import base list gmap strings sorting.
From S2P Require Import Prelude.

Local Open Scope N_scope.

(** ** Comparators ([std::cmp::Ordering] is [comparison]) *)

(** A total preorder presented as a three-way comparison. *)
Class TotalCmp {A} (cmp : A -> A -> comparison) : Prop := {
  cmp_sym x y : cmp y x = CompOpp (cmp x y);
  cmp_trans x y z c : cmp x y = c -> cmp y z = c -> cmp x z = c;
}.

Arguments cmp_sym {A} cmp {_} x y.
Arguments cmp_trans {A} cmp {_} x y z c.

(** ... whose equality is Leibniz equality. *)
Class StrictCmp {A} (cmp : A -> A -> comparison) : Prop := {
  strict_total :: TotalCmp cmp;
  cmp_eq x y : cmp x y = Eq -> x = y;
}.

(** [sort_by_key(f)] *)
Definition cmp_on {A B} (f : A -> B) (cmp : B -> B -> comparison) (x y : A) : comparison :=
  cmp (f x) (f y).

(** [a.then_with(|| b)] *)
Definition then_with (a b : comparison) : comparison :=
  match a with Eq => b | c => c end.

(** Lexicographic order on byte slices, [<[u8] as Ord>::cmp]. *)
Fixpoint compare_bytes (l r : bytes) : comparison :=
  match l, r with
  | [], [] => Eq
  | [], _ => Lt
  | _, [] => Gt
  | a :: l, b :: r => then_with (N.compare (N_of_byte a) (N_of_byte b)) (compare_bytes l r)
  end.

Definition cmp_le {A} (cmp : A -> A -> comparison) (x y : A) : Prop := cmp x y <> Gt.
Definition cmp_lt {A} (cmp : A -> A -> comparison) (x y : A) : Prop := cmp x y = Lt.

(** ** Stable sorting *)

Section Sort.
Context {A : Type} (cmp : A -> A -> comparison).

Fixpoint insert_by (x : A) (l : list A) : list A :=
  match l with
  | [] => [x]
  | y :: l' => match cmp x y with Gt => y :: insert_by x l' | _ => x :: y :: l' end
  end.

Fixpoint sort_by (l : list A) : list A :=
  match l with
  | [] => []
  | x :: l => insert_by x (sort_by l)
  end.
End Sort.

(** [for pair in l.windows(2) { if let Some(e) = f(pair[0], pair[1]) { return Err(e) } }] *)
Fixpoint check_windows {E A} (f : A -> A -> option E) (l : list A) : result E unit :=
  match l with
  | x :: ((y :: _) as l') =>
      match f x y with Some e => Err e | None => check_windows f l' end
  | _ => Ok tt
  end.

(** ** Comparator laws *)

Section CmpFacts.
Context {A : Type} (cmp : A -> A -> comparison) `{!TotalCmp cmp}.

Lemma cmp_refl x : cmp x x = Eq.
Proof. pose proof (cmp_sym cmp x x) as H. by destruct (cmp x x). Qed.

Lemma cmp_gt_lt x y : cmp x y = Gt <-> cmp y x = Lt.
Proof. rewrite (cmp_sym cmp x y). by destruct (cmp x y). Qed.

Lemma cmp_lt_le_trans x y z : cmp x y = Lt -> cmp y z <> Gt -> cmp x z = Lt.
Proof.
  intros H1 H2. destruct (cmp y z) eqn:E; [|by eapply (cmp_trans cmp)|done].
  destruct (cmp x z) eqn:E'; [|done|].
  - assert (cmp z y = Eq) by (rewrite (cmp_sym cmp y z), E; done).
    assert (cmp x y = Eq) by (by eapply (cmp_trans cmp)). congruence.
  - apply cmp_gt_lt in E'. assert (cmp z y = Lt) by (by eapply (cmp_trans cmp)).
    rewrite (cmp_sym cmp y z), E in H. done.
Qed.

Lemma cmp_lt_le_trans_l x y z : cmp x y <> Gt -> cmp y z = Lt -> cmp x z = Lt.
Proof.
  intros Hxy Hyz. destruct (cmp x z) eqn:E; [|done|].
  - assert (Hzx : cmp z x <> Gt) by (rewrite (cmp_sym cmp x z), E; done).
    pose proof (cmp_lt_le_trans y z x Hyz Hzx) as Hyx. apply cmp_gt_lt in Hyx. done.
  - apply cmp_gt_lt in E. pose proof (cmp_lt_le_trans z x y E Hxy) as Hzy.
    rewrite (cmp_sym cmp y z), Hyz in Hzy. done.
Qed.

#[export] Instance cmp_le_trans : Transitive (cmp_le cmp).
Proof.
  intros x y z H1 H2 H. apply cmp_gt_lt in H.
  pose proof (cmp_lt_le_trans _ _ _ H H1) as H3. apply H2. by apply cmp_gt_lt.
Qed.

#[export] Instance cmp_lt_trans : Transitive (cmp_lt cmp).
Proof. intros x y z. apply (cmp_trans cmp). Qed.

#[export] Instance cmp_lt_irrefl : Irreflexive (cmp_lt cmp).
Proof. intros x H. unfold cmp_lt in H. by rewrite cmp_refl in H. Qed.

#[export] Instance cmp_on_total {B} (f : B -> A) : TotalCmp (cmp_on f cmp).
Proof. split; unfold cmp_on; intros *; [apply (cmp_sym cmp)|apply (cmp_trans cmp)]. Qed.
End CmpFacts.

(** [right.cmp(left)], and [a.then_with(|| b)] of two comparators. *)
Lemma flip_cmp_total {A} (cmp : A -> A -> comparison) `{!TotalCmp cmp} : TotalCmp (fun x y => cmp y x).
Proof.
  split; [intros x y; apply (cmp_sym cmp)|]. intros x y z o Hxy Hyz. by apply (cmp_trans cmp z y x).
Qed.

Lemma then_with_total {A} (cmp1 cmp2 : A -> A -> comparison) `{!TotalCmp cmp1, !TotalCmp cmp2} :
  TotalCmp (fun x y => then_with (cmp1 x y) (cmp2 x y)).
Proof.
  split.
  - intros x y. rewrite (cmp_sym cmp1 x y), (cmp_sym cmp2 x y). by destruct (cmp1 x y).
  - intros x y z o. destruct (cmp1 x y) eqn:E1; destruct (cmp1 y z) eqn:E2; simpl; intros H1 H2; try congruence.
    + rewrite (cmp_trans cmp1 x y z Eq) by done. simpl. by apply (cmp_trans cmp2 x y z).
    + assert (cmp1 x z = Lt) as ->; [|done]. apply (cmp_lt_le_trans_l cmp1 x y z); [congruence|done].
    + assert (cmp1 x z = Gt) as ->; [|done]. apply (cmp_gt_lt cmp1). apply (cmp_gt_lt cmp1) in E2.
      apply (cmp_lt_le_trans cmp1 z y x); [done|]. rewrite (cmp_sym cmp1 x y), E1. done.
    + rewrite (cmp_lt_le_trans cmp1 x y z); [done|done|congruence].
    + by rewrite (cmp_trans cmp1 x y z Lt).
    + apply (cmp_gt_lt cmp1) in E1. assert (cmp1 x z = Gt) as ->; [|done]. apply (cmp_gt_lt cmp1).
      apply (cmp_lt_le_trans_l cmp1 z y x); [rewrite (cmp_sym cmp1 y z), E2; done|done].
    + by rewrite (cmp_trans cmp1 x y z Gt).
Qed.

#[export] Instance N_compare_strict : StrictCmp N.compare.
Proof.
  split; [split|].
  - intros. apply N.compare_antisym.
  - intros x y z [] H1 H2; [rewrite N.compare_eq_iff in * | rewrite N.compare_lt_iff in *
      | rewrite N.compare_gt_iff in *]; lia.
  - intros x y. apply N.compare_eq_iff.
Qed.

#[export] Instance compare_bytes_strict : StrictCmp compare_bytes.
Proof.
  split; [split|].
  - intros x. induction x as [|a x IH]; intros [|b y]; simpl; try done.
    rewrite (cmp_sym N.compare (N_of_byte a) (N_of_byte b)), (IH y).
    by destruct (_ ?= _), (compare_bytes x y).
  - intros x. induction x as [|a x IH]; intros [|b y] [|c z] o; simpl; try congruence.
    destruct (N.compare_spec (N_of_byte a) (N_of_byte b)) as [E|E|E]; simpl; intros H1;
    destruct (N.compare_spec (N_of_byte b) (N_of_byte c)) as [F|F|F]; simpl; intros H2;
    destruct (N.compare_spec (N_of_byte a) (N_of_byte c)); simpl;
      solve [lia | congruence | eauto].
  - intros x. induction x as [|a x IH]; intros [|b y]; simpl; try done.
    destruct (N.compare_spec (N_of_byte a) (N_of_byte b)) as [E|E|E]; simpl; try done.
    intros H. f_equal; [by apply N_of_byte_inj|by apply IH].
Qed.

(** ** Sorting *)

Lemma Sorted_mono {A} (R S : A -> A -> Prop) l :
  (forall x y, R x y -> S x y) -> Sorted R l -> Sorted S l.
Proof.
  intros H. induction 1 as [|x l _ IH Hh]; constructor; [done|].
  destruct Hh; constructor. auto.
Qed.

Section SortFacts.
Context {A : Type} (cmp : A -> A -> comparison).

Lemma insert_by_Permutation x l : insert_by cmp x l ≡ₚ x :: l.
Proof.
  induction l as [|y l IH]; simpl; [done|].
  destruct (cmp x y); [done|done|]. by rewrite IH, Permutation_swap.
Qed.

Lemma sort_by_Permutation l : sort_by cmp l ≡ₚ l.
Proof.
  induction l as [|x l IH]; simpl; [done|]. by rewrite insert_by_Permutation, IH.
Qed.

Lemma elem_of_sort_by x l : x ∈ sort_by cmp l <-> x ∈ l.
Proof. by rewrite sort_by_Permutation. Qed.

Lemma sort_by_length l : length (sort_by cmp l) = length l.
Proof. by rewrite sort_by_Permutation. Qed.

Lemma sort_by_len l : len (sort_by cmp l) = len l.
Proof. unfold len. by rewrite sort_by_length. Qed.

(** A vector already in order is left as it is. *)
Lemma sort_by_sorted_id l : Sorted (cmp_le cmp) l -> sort_by cmp l = l.
Proof.
  induction l as [|x l IH]; simpl; [done|]. intros H.
  inversion H as [|? ? Hs Hh]; subst. rewrite IH by done.
  destruct l as [|y l]; [done|]. simpl. inversion Hh as [|? ? Hxy]; subst.
  unfold cmp_le in Hxy. by destruct (cmp x y).
Qed.

Lemma sort_by_fmap {B} (cmpB : B -> B -> comparison) (f : A -> B) l :
  (forall x y, cmpB (f x) (f y) = cmp x y) ->
  sort_by cmpB (f <$> l) = f <$> sort_by cmp l.
Proof.
  intros Hf. induction l as [|x l IH]; csimpl; [done|]. rewrite IH. clear IH.
  induction (sort_by cmp l) as [|y l' IH]; csimpl; [done|].
  rewrite Hf. destruct (cmp x y); csimpl; [done|done|]. by rewrite IH.
Qed.

Context `{!TotalCmp cmp}.

Lemma sort_by_Sorted l : Sorted (cmp_le cmp) (sort_by cmp l).
Proof.
  induction l as [|x l IH]; simpl; [constructor|].
  induction IH as [|y l' Hs IH Hh]; simpl; [by repeat constructor|].
  destruct (cmp x y) eqn:E; [constructor; [by constructor|constructor; unfold cmp_le; congruence]..|].
  constructor; [done|].
  assert (cmp_le cmp y x) by (unfold cmp_le; apply cmp_gt_lt in E; congruence).
  destruct l' as [|z l']; simpl; [by constructor|].
  inversion Hh; subst. destruct (cmp x z); by constructor.
Qed.

Lemma sort_by_StronglySorted l : StronglySorted (cmp_le cmp) (sort_by cmp l).
Proof. apply Sorted_StronglySorted; [apply cmp_le_trans; done|apply sort_by_Sorted]. Qed.

(** Two permutations of one collection sort to the same vector once no two
    keys are equal. *)
Lemma strictly_sorted_unique l1 l2 :
  l1 ≡ₚ l2 -> StronglySorted (cmp_lt cmp) l1 -> StronglySorted (cmp_lt cmp) l2 -> l1 = l2.
Proof.
  revert l2. induction l1 as [|x l1 IH]; intros l2 Hp H1 H2.
  - by apply Permutation_nil_l in Hp.
  - destruct l2 as [|y l2]; [by apply Permutation_nil_r in Hp|].
    inversion H1 as [|? ? H1s H1f]; inversion H2 as [|? ? H2s H2f]; subst.
    assert (x = y) as ->.
    { assert (Hx : x ∈ y :: l2) by (rewrite <- Hp; set_solver).
      assert (Hy : y ∈ x :: l1) by (rewrite Hp; set_solver).
      apply elem_of_cons in Hx as [Hx|Hx]; [done|].
      apply elem_of_cons in Hy as [Hy|Hy]; [done|].
      rewrite Forall_forall in H1f, H2f.
      destruct (cmp_lt_irrefl cmp x).
      eapply cmp_lt_trans; [done|apply H1f, Hy|apply H2f, Hx]. }
    f_equal. apply IH; [|done|done]. by apply Permutation_cons_inv in Hp.
Qed.

Lemma sort_by_Permutation_strict l1 l2 :
  l1 ≡ₚ l2 -> StronglySorted (cmp_lt cmp) (sort_by cmp l1) ->
  sort_by cmp l1 = sort_by cmp l2.
Proof.
  intros Hp H1. apply strictly_sorted_unique; [by rewrite !sort_by_Permutation|done|].
  pose proof (sort_by_StronglySorted l2) as H2.
  assert (Hq : sort_by cmp l1 ≡ₚ sort_by cmp l2) by (by rewrite !sort_by_Permutation).
  (* no two distinct positions of the second list compare equal *)
  assert (Hn : NoDup (sort_by cmp l1)).
  { clear -H1 TotalCmp0. induction H1 as [|x l Hs IH Hf]; constructor; [|done].
    intros Hx. rewrite Forall_forall in Hf. by destruct (cmp_lt_irrefl cmp x (Hf x Hx)). }
  assert (Hn2 : NoDup (sort_by cmp l2)) by (by rewrite <- Hq).
  assert (Heq : forall x y, x ∈ sort_by cmp l2 -> y ∈ sort_by cmp l2 -> cmp x y = Eq -> x = y).
  { intros x y Hx Hy. rewrite <- Hq in Hx, Hy. revert x y Hx Hy.
    clear -H1 TotalCmp0. induction H1 as [|a l Hs IH Hf]; [set_solver|].
    rewrite Forall_forall in Hf. intros x y Hx Hy E.
    apply elem_of_cons in Hx as [->|Hx], Hy as [->|Hy];
      [done| | |by apply IH].
    - by rewrite (Hf y Hy : cmp a y = Lt) in E.
    - pose proof (Hf x Hx : cmp a x = Lt) as F. rewrite (cmp_sym cmp a x), F in E. done. }
  clear -H2 Hn2 Heq. induction H2 as [|x l Hs IH Hf]; constructor.
  - apply IH; [by inversion Hn2|]. intros; apply Heq; set_solver.
  - rewrite Forall_forall in *. intros y Hy. specialize (Hf y Hy).
    unfold cmp_le, cmp_lt in *. destruct (cmp x y) eqn:E; [|done|done].
    apply Heq in E; [|set_solver..]. subst. inversion Hn2; by subst.
Qed.
End SortFacts.

(** Numbers sort to one list. *)
Lemma sort_N_Permutation (l1 l2 : list N) : l1 ≡ₚ l2 -> sort_by N.compare l1 = sort_by N.compare l2.
Proof.
  intros Hp. apply (StronglySorted_unique_strong (cmp_le N.compare)); [|apply sort_by_StronglySorted; apply strict_total..|].
  - intros x y _ _. unfold cmp_le. rewrite !N.compare_gt_iff. lia.
  - by rewrite !sort_by_Permutation.
Qed.

Lemma check_windows_Ok {E A} (f : A -> A -> option E) l :
  check_windows f l = Ok tt <-> Sorted (fun x y => f x y = None) l.
Proof.
  induction l as [|x [|y l] IH]; simpl.
  - split; [constructor|done].
  - split; [by repeat constructor|done].
  - split; intros H.
    + destruct (f x y) eqn:E1; [done|]. constructor; [by apply IH|by constructor].
    + inversion H as [|? ? Hs Hh]; subst. inversion Hh as [|? ? Hxy]; subst.
      rewrite Hxy. by apply IH.
Qed.

Lemma check_windows_Err {E A} (f : A -> A -> option E) l e :
  check_windows f l = Err e -> exists l1 x y l2, l = l1 ++ x :: y :: l2 /\ f x y = Some e.
Proof.
  induction l as [|x [|y l] IH]; [done|done|]. cbn [check_windows]. destruct (f x y) as [e'|] eqn:Ef.
  - intros [= ->]. by exists [], x, y, l.
  - intros He. destruct (IH He) as (l1 & a & b & l2 & -> & Hab). by exists (x :: l1), a, b, l2.
Qed.

(** The ascending iteration order of a [BTreeSet<u64>]. *)
Definition ascending (s : gset N) : list N := sort_by N.compare (elements s).

Lemma elem_of_ascending x s : x ∈ ascending s <-> x ∈ s.
Proof. unfold ascending. by rewrite elem_of_sort_by, elem_of_elements. Qed.

Lemma ascending_sorted s : StronglySorted N.lt (ascending s).
Proof.
  unfold ascending.
  pose proof (sort_by_StronglySorted N.compare (elements s)) as H.
  assert (Hn : NoDup (sort_by N.compare (elements s)))
    by (rewrite sort_by_Permutation; apply NoDup_elements).
  induction H as [|x l Hs IH Hf]; constructor.
  - apply IH. by inversion Hn.
  - rewrite Forall_forall in *. intros y Hy. specialize (Hf y Hy).
    unfold cmp_le in Hf. rewrite N.compare_gt_iff in Hf.
    assert (x <> y) by (intros ->; inversion Hn; by subst). lia.
Qed.

(** ** Chunks *)

(** [slice.chunks(n)] for [n > 0]; every chunk takes at least one element. *)
Fixpoint chunks_fuel {A} (fuel n : nat) (l : list A) : list (list A) :=
  match fuel, l with
  | S fuel, _ :: _ => take n l :: chunks_fuel fuel n (drop n l)
  | _, _ => []
  end.
Definition chunks {A} (n : N) (l : list A) : list (list A) := chunks_fuel (length l) (N.to_nat n) l.

Section Chunks.
Context {A : Type}.
Implicit Types l : list A.

Lemma chunks_fuel_spec (n fuel : nat) l :
  (0 < n)%nat -> (length l <= fuel)%nat ->
  concat (chunks_fuel fuel n l) = l /\ Forall (fun c => c <> []) (chunks_fuel fuel n l) /\
  N.of_nat (length (chunks_fuel fuel n l)) = (len l + (N.of_nat n - 1)) / N.of_nat n.
Proof.
  intros Hn. revert l. induction fuel as [|fuel IH]; intros l Hl.
  { destruct l; [|simpl in Hl; lia]. simpl. split_and!; [done|constructor|].
    rewrite N.div_small; [done|unfold len; simpl; lia]. }
  destruct l as [|x l]; cbn [chunks_fuel].
  { simpl. split_and!; [done|constructor|]. rewrite N.div_small; [done|unfold len; simpl; lia]. }
  destruct (IH (drop n (x :: l))) as (Hc & Hf & Hlen).
  { rewrite length_drop. simpl in *. lia. }
  split_and!.
  - cbn [concat]. by rewrite Hc, take_drop.
  - constructor; [|done]. by destruct n; [lia|].
  - cbn [length]. rewrite Nat2N.inj_succ, Hlen. unfold len. rewrite length_drop.
    set (k := length (x :: l)). assert (Hk : (1 <= k)%nat) by (unfold k; simpl; lia). clearbody k.
    destruct (Nat.le_gt_cases k n) as [Hle|Hgt].
    + replace (k - n)%nat with 0%nat by lia. rewrite N.div_small by lia.
      apply (N.div_unique _ _ _ (N.of_nat k - 1)); lia.
    + replace (N.of_nat k + (N.of_nat n - 1)) with (N.of_nat (k - n) + (N.of_nat n - 1) + 1 * N.of_nat n) by lia.
      rewrite N.div_add by lia. lia.
Qed.

Lemma chunks_spec (n : N) l :
  0 < n -> concat (chunks n l) = l /\ Forall (fun c => c <> []) (chunks n l) /\ len (chunks n l) = (len l + (n - 1)) / n.
Proof.
  intros Hn. unfold chunks. destruct (chunks_fuel_spec (N.to_nat n) (length l) l) as (? & ? & Hl); [lia|done|].
  rewrite N2Nat.id in Hl. by split_and!.
Qed.
End Chunks.

Lemma chunks_bound {A} (n : N) (l : list A) : Forall (fun c => len c <= n) (chunks n l).
Proof.
  unfold chunks. generalize (length l) as fuel. intros fuel. revert l.
  induction fuel as [|fuel IH]; intros l; [by apply Forall_nil|]. cbn [chunks_fuel]. destruct l as [|x l]; [by apply Forall_nil|].
  apply Forall_cons. split; [|apply IH]. unfold len. rewrite length_take. lia.
Qed.

(** Chunks of related vectors are related. *)
Lemma chunks_Forall2 {A B} (R : A -> B -> Prop) n (l : list A) (k : list B) :
  Forall2 R l k -> Forall2 (Forall2 R) (chunks n l) (chunks n k).
Proof.
  unfold chunks. intros Hf. rewrite <- (Forall2_length _ _ _ Hf). generalize (N.to_nat n) as m. intros m.
  generalize (length l) as fuel. intros fuel. revert l k Hf.
  induction fuel as [|fuel IH]; intros l k Hf; [constructor|]. destruct Hf as [|x y l k Hxy Hf]; [constructor|].
  cbn [chunks_fuel]. constructor; [by apply Forall2_take; constructor|apply IH, Forall2_drop; by constructor].
Qed.

(** ** Keys *)

Lemma elem_of_concat {A} (x : A) (ls : list (list A)) : x ∈ concat ls <-> exists l, l ∈ ls /\ x ∈ l.
Proof. rewrite list_elem_of_In, in_concat. by setoid_rewrite <- list_elem_of_In. Qed.

Lemma last_elem {A} (l : list A) x : last l = Some x -> x ∈ l.
Proof. intros [l' ->]%last_Some. set_solver. Qed.

Lemma head_elem {A} (l : list A) x : head l = Some x -> x ∈ l.
Proof. destruct l; [done|]. intros [= ->]. by left. Qed.

Section Keyed.
Context {A : Type} (key_of : A -> N).

Definition key_lt (x y : A) : Prop := key_of x < key_of y.

Definition find_key (key : N) (es : list A) : option A := List.find (fun e => key_of e =? key) es.

(** [slice::binary_search_by_key]: the size of the candidate range is halved
    until one element is left. *)
Fixpoint search_loop (fuel : nat) (entries : list A) (key : N) (base size : nat) : nat :=
  match fuel with
  | O => base
  | S fuel =>
      if (size <=? 1)%nat then base
      else
        let half := (size / 2)%nat in
        let mid := (base + half)%nat in
        let base :=
          match entries !! mid with
          | Some e => if key <? key_of e then base else mid
          | None => base
          end in
        search_loop fuel entries key base (size - half)%nat
  end.

(** [Ok] of the index of the key, or [Err] of where it would be inserted. *)
Definition binary_search_by_key (entries : list A) (key : N) : result nat nat :=
  let base := search_loop (length entries) entries key 0 (length entries) in
  match entries !! base with
  | None => Err 0%nat
  | Some e => if key_of e =? key then Ok base else Err (if key_of e <? key then S base else base)
  end.
End Keyed.

Section KeyedFacts.
Context {A : Type} {key_of : A -> N}.
Local Abbreviation ordered := (StronglySorted (key_lt key_of)).

Lemma ordered_app l1 l2 :
  ordered (l1 ++ l2) <-> ordered l1 /\ ordered l2 /\ forall x y, x ∈ l1 -> y ∈ l2 -> key_lt key_of x y.
Proof.
  induction l1 as [|x l1 IH]; cbn [app].
  { split; [intros Hs; split_and!; [constructor|done|set_solver]|naive_solver]. }
  split.
  - intros Hs. inversion Hs as [|? ? Hs' Hf]; subst. apply IH in Hs' as (H1 & H2 & H3).
    apply Forall_app in Hf as [Hf1 Hf2]. split_and!; [by constructor|done|].
    intros a b Ha Hb. apply elem_of_cons in Ha as [->|Ha]; [|by apply H3].
    by apply (proj1 (Forall_forall _ _) Hf2).
  - intros (H1 & H2 & H3). inversion H1 as [|? ? H1' Hf]; subst. constructor.
    + apply IH. split_and!; [done|done|]. intros a b Ha Hb. apply H3; set_solver.
    + apply Forall_app. split; [done|]. apply Forall_forall. intros y Hy. apply H3; set_solver.
Qed.

Lemma ordered_lookup es i j x y :
  ordered es -> es !! i = Some x -> es !! j = Some y -> (i < j)%nat -> key_lt key_of x y.
Proof.
  intros Hs. revert i j. induction Hs as [|e es Hs IH Hf]; intros i j Hi Hj Hlt; [done|].
  destruct j as [|j]; [lia|]. destruct i as [|i]; simpl in *.
  - injection Hi as ->. apply (proj1 (Forall_forall _ _) Hf). by eapply list_elem_of_lookup_2.
  - apply (IH i j); [done|done|lia].
Qed.

Lemma find_key_Some key es e : ordered es -> find_key key_of key es = Some e <-> e ∈ es /\ key_of e = key.
Proof.
  intros Hs. unfold find_key. induction Hs as [|x es Hs IH Hf]; simpl; [set_solver|].
  destruct (N.eqb_spec (key_of x) key) as [E|E].
  - split; [intros [= ->]; split; [by left|done]|]. intros [[->|He]%elem_of_cons Hk]; [done|].
    pose proof (proj1 (Forall_forall _ _) Hf e He) as Hlt. unfold key_lt in Hlt. lia.
  - rewrite IH. set_solver.
Qed.

Lemma find_key_None key es : find_key key_of key es = None <-> forall e, e ∈ es -> key_of e <> key.
Proof.
  unfold find_key. induction es as [|x es IH]; simpl; [set_solver|].
  destruct (N.eqb_spec (key_of x) key) as [E|E]; [|set_solver]. split; [done|]. intros Hn. destruct (Hn x); set_solver.
Qed.

Lemma ordered_head es first e : ordered es -> head es = Some first -> e ∈ es -> key_of first <= key_of e.
Proof.
  intros Hs Hh He. destruct es as [|x es]; [done|]. injection Hh as <-. inversion Hs as [|? ? _ Hf]; subst.
  apply elem_of_cons in He as [->|He]; [done|].
  pose proof (proj1 (Forall_forall _ _) Hf e He) as Hlt. unfold key_lt in Hlt. lia.
Qed.

Lemma ordered_last es last_ e : ordered es -> last es = Some last_ -> e ∈ es -> key_of e <= key_of last_.
Proof.
  intros Hs Hl He. apply last_Some in Hl as [l' ->]. apply ordered_app in Hs as (_ & _ & Hb).
  apply elem_of_app in He as [He| ->%list_elem_of_singleton]; [|done].
  specialize (Hb e last_ He ltac:(set_solver)). unfold key_lt in Hb. lia.
Qed.

Lemma find_key_app key l1 l2 :
  find_key key_of key (l1 ++ l2) = match find_key key_of key l1 with Some e => Some e | None => find_key key_of key l2 end.
Proof. unfold find_key. induction l1 as [|x l1 IH]; simpl; [done|]. by destruct (key_of x =? key). Qed.

(** Sorting by a key that no two elements share. *)
Lemma sort_by_ordered l : NoDup (key_of <$> l) -> ordered (sort_by (cmp_on key_of N.compare) l).
Proof.
  intros Hn. pose proof (sort_by_Permutation (cmp_on key_of N.compare) l) as Hp.
  assert (Hs : StronglySorted (cmp_le (cmp_on key_of N.compare)) (sort_by (cmp_on key_of N.compare) l))
    by (apply sort_by_StronglySorted, cmp_on_total, strict_total).
  rewrite <- Hp in Hn. revert Hs Hn. generalize (sort_by (cmp_on key_of N.compare) l). clear l Hp. intros l.
  induction 1 as [|x l Hs IH Hle]; intros Hn; [constructor|]. apply NoDup_cons in Hn as [Hx Hn]. constructor; [by apply IH|].
  apply Forall_forall. intros y Hy. pose proof (proj1 (Forall_forall _ _) Hle y Hy) as Hc. unfold cmp_le, cmp_on in Hc. rewrite N.compare_le_iff in Hc.
  unfold key_lt. assert (key_of x <> key_of y); [|lia]. intros E. apply Hx. rewrite E. by apply list_elem_of_fmap_2.
Qed.

(** The window of the binary search: what is left of it is at most the key,
    what is right of it above the key. *)
Lemma search_loop_spec es key fuel base size :
  ordered es -> (size <= fuel)%nat -> (1 <= size)%nat -> (base + size <= length es)%nat ->
  (forall i e, es !! i = Some e -> (base + size <= i)%nat -> key < key_of e) ->
  (base = 0%nat \/ exists e, es !! base = Some e /\ key_of e <= key) ->
  let i := search_loop key_of fuel es key base size in
  (i < length es)%nat /\ (forall j e, es !! j = Some e -> (i < j)%nat -> key < key_of e) /\
  (i = 0%nat \/ exists e, es !! i = Some e /\ key_of e <= key).
Proof.
  intros Hs. revert base size. induction fuel as [|fuel IH]; intros base size Hf H1 Hb Hr Hl; [lia|].
  cbn [search_loop]. destruct (Nat.leb_spec size 1) as [Hle|Hgt].
  { split_and!; [lia| |done]. intros j e Hj Hlt. apply (Hr j e Hj). lia. }
  assert (Hh : (1 <= size / 2 /\ 2 * (size / 2) <= size)%nat)
    by (pose proof (Nat.div_mod_eq size 2); pose proof (Nat.mod_upper_bound size 2 ltac:(lia)); lia).
  destruct (lookup_lt_is_Some_2 es (base + size / 2)%nat) as [e He]; [lia|]. rewrite He.
  destruct (N.ltb_spec key (key_of e)) as [Hk|Hk].
  - apply IH; [lia|lia|lia| |done]. intros j e' Hj Hle.
    destruct (decide (j = base + size / 2)%nat) as [->|Hne]; [congruence|].
    pose proof (ordered_lookup es _ j e e' Hs He Hj) as Hlt. unfold key_lt in Hlt. specialize (Hlt ltac:(lia)). lia.
  - apply IH; [lia|lia|lia| |right; by exists e]. intros j e' Hj Hle. apply (Hr j e' Hj). lia.
Qed.

Lemma binary_search_cases es key : ordered es ->
  match binary_search_by_key key_of es key with
  | Ok i => exists e, es !! i = Some e /\ key_of e = key
  | Err i => (i <= length es)%nat /\ (forall e, e ∈ take i es -> key_of e < key) /\
      (forall e, e ∈ drop i es -> key < key_of e)
  end.
Proof.
  intros Hs. unfold binary_search_by_key. destruct es as [|x es]; [by split_and!; [|intros e He; by apply elem_of_nil in He..]|].
  set (l := x :: es) in *.
  destruct (search_loop_spec l key (length l) 0 (length l) Hs) as (Hi & Hr & Hl);
    [done|unfold l; simpl; lia|done| |by left|].
  { intros i e He Hle. apply lookup_lt_Some in He. lia. }
  set (i := search_loop _ _ _ _ _ _) in *. destruct (lookup_lt_is_Some_2 l i Hi) as [e He]. rewrite He.
  destruct (N.eqb_spec (key_of e) key) as [Hk|Hk]; [by exists e|].
  assert (Hlow : forall j e', l !! j = Some e' -> (j < i)%nat -> key_of e' < key_of e).
  { intros j e' Hj Hlt. by apply (ordered_lookup l j i). }
  destruct (N.ltb_spec (key_of e) key) as [Hlt|Hge].
  - split_and!; [lia| |].
    + intros e' (j & Hj & Hji)%elem_of_take. destruct (decide (j = i)) as [->|]; [rewrite He in Hj; by injection Hj as <-|].
      specialize (Hlow j e' Hj ltac:(lia)). lia.
    + intros e' (j & Hj)%list_elem_of_lookup. rewrite lookup_drop in Hj. apply (Hr _ _ Hj). lia.
  - destruct Hl as [Hi0|(e2 & He2 & Hle)]; [|rewrite He in He2; injection He2 as <-; lia]. split_and!; [lia| |].
    + intros e' (j & Hj & Hji)%elem_of_take. lia.
    + intros e' (j & Hj)%list_elem_of_lookup. rewrite lookup_drop in Hj.
      destruct (decide (i + j = i)%nat) as [E|]; [rewrite E, He in Hj; injection Hj as <-; lia|].
      pose proof (ordered_lookup l i _ e e' Hs He Hj ltac:(lia)) as Hb. unfold key_lt in Hb. lia.
Qed.
End KeyedFacts.
