(* ===== verification/Errors.v ===== *)
(** [crates/ucof-core/src/error.rs] and [limits.rs]: the error values of the
    EXP-0001 core, their categories and messages, and the caller's limits. *)

From Stdlib Require Import Strings.Byte Strings.String NArith ZArith Lia.
From Stdlib Require Import DecimalString HexadecimalString.
From stdpp Require Import base list gmap strings sorting.
From S2P Require Import Prelude.

Local Open Scope N_scope.

Inductive ErrorCategory : Type :=
  | CTruncated | CInvalidMagic | CUnsupportedEpoch | CUnsupportedFlags
  | CInvalidReserved | CInvalidLength | CRangeOutOfBounds | CDuplicateObjectId
  | CInvalidRecordOrder | CUnsupportedRecordKind | CNonCanonicalMetadata
  | CInvalidMetadataSchema | CDirectoryMismatch | CMissingManifest
  | CUnsupportedRequiredCapability | CDigestMismatch | CLimitExceeded | CIo.

Inductive Error : Type :=
  | Truncated (context : string)
  | InvalidMagic (context : string)
  | UnsupportedEpoch (epoch : N)
  | UnsupportedFlags (context : string) (flags : N)
  | InvalidReserved (context : string)
  | InvalidLength (context : string)
  | RangeOutOfBounds (context : string)
  | DuplicateObjectId (id : N)
  | InvalidRecordOrder (context : string)
  | UnsupportedRecordKind (kind : N)
  | NonCanonicalMetadata (context : string)
  | InvalidMetadataSchema (context : string)
  | DirectoryMismatch (context : string)
  | MissingManifest (id : N)
  | UnsupportedRequiredCapability (id : N)
  | DigestMismatch
  | LimitExceeded (limit : string)
  | Io (context : string).

#[export] Instance ErrorCategory_eq_dec : EqDecision ErrorCategory.
Proof. solve_decision. Defined.
#[export] Instance Error_eq_dec : EqDecision Error.
Proof. solve_decision. Defined.

(** The core's [Result<A, Error>]. *)
Abbreviation R := (result Error).

Definition category (e : Error) : ErrorCategory :=
  match e with
  | Truncated _ => CTruncated
  | InvalidMagic _ => CInvalidMagic
  | UnsupportedEpoch _ => CUnsupportedEpoch
  | UnsupportedFlags _ _ => CUnsupportedFlags
  | InvalidReserved _ => CInvalidReserved
  | InvalidLength _ => CInvalidLength
  | RangeOutOfBounds _ => CRangeOutOfBounds
  | DuplicateObjectId _ => CDuplicateObjectId
  | InvalidRecordOrder _ => CInvalidRecordOrder
  | UnsupportedRecordKind _ => CUnsupportedRecordKind
  | NonCanonicalMetadata _ => CNonCanonicalMetadata
  | InvalidMetadataSchema _ => CInvalidMetadataSchema
  | DirectoryMismatch _ => CDirectoryMismatch
  | MissingManifest _ => CMissingManifest
  | UnsupportedRequiredCapability _ => CUnsupportedRequiredCapability
  | DigestMismatch => CDigestMismatch
  | LimitExceeded _ => CLimitExceeded
  | Io _ => CIo
  end.

(** [{n}] and [{n:x}] *)
Definition decimal (n : N) : string := DecimalString.NilEmpty.string_of_uint (N.to_uint n).
Definition hexadecimal (n : N) : string := HexadecimalString.NilEmpty.string_of_uint (N.to_hex_uint n).

(** [<Error as Display>::fmt] *)
Definition error_to_string (e : Error) : string :=
  match e with
  | Truncated context => "truncated " ++ context
  | InvalidMagic context => "invalid " ++ context ++ " magic"
  | UnsupportedEpoch epoch => "unsupported experimental epoch " ++ decimal epoch
  | UnsupportedFlags context flags =>
      "unsupported " ++ context ++ " flags 0x" ++ hexadecimal flags
  | InvalidReserved context => "non-zero reserved " ++ context ++ " bytes"
  | InvalidLength context => "invalid " ++ context ++ " length"
  | RangeOutOfBounds context => context ++ " range is out of bounds"
  | DuplicateObjectId id => "duplicate object identifier " ++ decimal id
  | InvalidRecordOrder context => "invalid record order: " ++ context
  | UnsupportedRecordKind kind => "unsupported record kind " ++ decimal kind
  | NonCanonicalMetadata context => "non-canonical metadata: " ++ context
  | InvalidMetadataSchema context => "invalid metadata schema: " ++ context
  | DirectoryMismatch context => "directory mismatch: " ++ context
  | MissingManifest id => "active manifest " ++ decimal id ++ " is missing or invalid"
  | UnsupportedRequiredCapability id => "unsupported required capability " ++ decimal id
  | DigestMismatch => "committed-prefix digest mismatch"
  | LimitExceeded limit => "resource limit exceeded: " ++ limit
  | Io context => "I/O failure during " ++ context
  end%string.

Record Limits : Type := {
  max_file_bytes : N;
  max_total_bytes_read : N;
  max_logical_decoded_bytes : N;
  max_records : N;
  max_payload_bytes : N;
  max_metadata_bytes : N;
  max_metadata_depth : N;
  max_container_items : N;
  max_text_bytes : N;
  max_byte_string_bytes : N;
  max_dependency_depth : N;
  max_allocation_bytes : N;
  max_stream_chunk_bytes : N;
  max_diagnostics : N;
  max_transform_expansion_ratio : N;
}.

(** [Limits::default()] *)
Definition default_limits : Limits := {|
  max_file_bytes := 64 * 1024 * 1024;
  max_total_bytes_read := 64 * 1024 * 1024;
  max_logical_decoded_bytes := 64 * 1024 * 1024;
  max_records := 100000;
  max_payload_bytes := 32 * 1024 * 1024;
  max_metadata_bytes := 8 * 1024 * 1024;
  max_metadata_depth := 64;
  max_container_items := 100000;
  max_text_bytes := 1024 * 1024;
  max_byte_string_bytes := 8 * 1024 * 1024;
  max_dependency_depth := 128;
  max_allocation_bytes := 8 * 1024 * 1024;
  max_stream_chunk_bytes := 64 * 1024;
  max_diagnostics := 100;
  max_transform_expansion_ratio := 1000;
|}.

(** The type invariant of the struct: every field is a [u64] or [usize]. *)
Definition limits_ok (l : Limits) : Prop :=
  Forall (fun n => n <= U64_MAX)
    [max_file_bytes l; max_total_bytes_read l; max_logical_decoded_bytes l; max_records l;
     max_payload_bytes l; max_metadata_bytes l; max_metadata_depth l; max_container_items l;
     max_text_bytes l; max_byte_string_bytes l; max_dependency_depth l; max_allocation_bytes l;
     max_stream_chunk_bytes l; max_diagnostics l; max_transform_expansion_ratio l].

Lemma limits_ok_field l n :
  limits_ok l ->
  n ∈ [max_file_bytes l; max_total_bytes_read l; max_logical_decoded_bytes l; max_records l;
     max_payload_bytes l; max_metadata_bytes l; max_metadata_depth l; max_container_items l;
     max_text_bytes l; max_byte_string_bytes l; max_dependency_depth l; max_allocation_bytes l;
     max_stream_chunk_bytes l; max_diagnostics l; max_transform_expansion_ratio l] ->
  n <= U64_MAX.
Proof. intros H Hn. unfold limits_ok in H. rewrite Forall_forall in H. by apply H. Qed.

Lemma default_limits_ok : limits_ok default_limits.
Proof. repeat constructor; done. Qed.

Definition EXPERIMENTAL_EPOCH : N := 1.
