(* ===== verification/Format.v ===== *)
(** [crates/ucof-core/src/format.rs]: magics, fixed lengths, little-endian
    field writers and readers, and the checked ranges over a byte slice. *)

From Stdlib Require Import Strings.Byte Strings.String NArith ZArith Lia.
From stdpp Require Import base list gmap strings sorting.
From S2P Require Import Prelude Errors.

Local Open Scope N_scope.

(** [*b"UCOF\r\n\x1a\n"], [*b"UCRD"], [*b"UCFTR001"] *)
Definition FILE_MAGIC : bytes := as_bytes "UCOF" ++ [Byte.x0d; Byte.x0a; Byte.x1a; Byte.x0a].
Definition RECORD_MAGIC : bytes := as_bytes "UCRD".
Definition FOOTER_MAGIC : bytes := as_bytes "UCFTR001".

Definition HEADER_LEN : N := 32.
Definition RECORD_HEADER_LEN : N := 40.
Definition FOOTER_LEN : N := 80.

Definition push_u16_le (target : bytes) (value : N) : bytes := target ++ le_encode 2 value.
Definition push_u32_le (target : bytes) (value : N) : bytes := target ++ le_encode 4 value.
Definition push_u64_le (target : bytes) (value : N) : bytes := target ++ le_encode 8 value.

(** [take] *)
Definition take_range (l : bytes) (offset length : N) (context : string) : R bytes :=
  let* end_ := ok_or (checked_add offset length) (RangeOutOfBounds context) in
  ok_or (get_range l offset end_) (Truncated context).

Definition read_u16_le (l : bytes) (offset : N) (context : string) : R N :=
  let* raw := take_range l offset 2 context in Ok (le_decode raw).
Definition read_u32_le (l : bytes) (offset : N) (context : string) : R N :=
  let* raw := take_range l offset 4 context in Ok (le_decode raw).
Definition read_u64_le (l : bytes) (offset : N) (context : string) : R N :=
  let* raw := take_range l offset 8 context in Ok (le_decode raw).

(** The range is its two ends; [usize::try_from] is total at 64 bits. *)
Definition checked_range (offset length upper_bound : N) (context : string) : R (N * N) :=
  let* end_ := ok_or (checked_add offset length) (RangeOutOfBounds context) in
  let* start := ok_or (try_u64 offset) (RangeOutOfBounds context) in
  let* end_ := ok_or (try_u64 end_) (RangeOutOfBounds context) in
  check negb (upper_bound <? end_) else RangeOutOfBounds context in
  Ok (start, end_).

(** ** Lemmas *)

Lemma take_range_app pre mid post offset n context :
  offset = len pre -> n = len mid -> len pre + len mid <= U64_MAX ->
  take_range (pre ++ mid ++ post) offset n context = Ok mid.
Proof.
  intros -> -> H. unfold take_range. rewrite checked_add_fits by done. simpl.
  by rewrite (get_range_app pre mid post).
Qed.

Lemma take_range_Ok l offset n context r :
  take_range l offset n context = Ok r ->
  offset + n <= len l /\ len r = n /\ r = slice l offset (offset + n).
Proof.
  unfold take_range. intros H. step_result H. option_facts.
  apply get_range_Some in H as (?&?&?&->&_). split_and!; [lia|lia|done].
Qed.

Lemma checked_range_Ok offset length ub context s e :
  checked_range offset length ub context = Ok (s, e) <->
  s = offset /\ e = offset + length /\ e <= ub /\ e <= U64_MAX.
Proof.
  unfold checked_range. split.
  - intros H. step_result H. bool_facts. option_facts. injection H as <- <-. lia.
  - intros (->&->&H1&H2). rewrite checked_add_fits by done. simpl.
    rewrite !try_u64_fits by lia. simpl.
    by rewrite (proj2 (N.ltb_ge ub (offset + length))) by lia.
Qed.

(** Field readers applied at the place a field was written. *)
Lemma read_u16_le_app pre v post offset context :
  offset = len pre -> v <= U16_MAX -> len pre + 2 <= U64_MAX ->
  read_u16_le (pre ++ le_encode 2 v ++ post) offset context = Ok v.
Proof.
  intros -> Hv H. unfold read_u16_le.
  rewrite take_range_app; [|done|unfold len; by rewrite length_le_encode|
    unfold len in *; rewrite length_le_encode; lia].
  rewrite le_decode_encode_small; [done|]. unfold U16_MAX in Hv. simpl. lia.
Qed.

Lemma read_u32_le_app pre v post offset context :
  offset = len pre -> v <= U32_MAX -> len pre + 4 <= U64_MAX ->
  read_u32_le (pre ++ le_encode 4 v ++ post) offset context = Ok v.
Proof.
  intros -> Hv H. unfold read_u32_le.
  rewrite take_range_app; [|done|unfold len; by rewrite length_le_encode|
    unfold len in *; rewrite length_le_encode; lia].
  rewrite le_decode_encode_small; [done|]. unfold U32_MAX in Hv. simpl. lia.
Qed.

Lemma read_u64_le_app pre v post offset context :
  offset = len pre -> v <= U64_MAX -> len pre + 8 <= U64_MAX ->
  read_u64_le (pre ++ le_encode 8 v ++ post) offset context = Ok v.
Proof.
  intros -> Hv H. unfold read_u64_le.
  rewrite take_range_app; [|done|unfold len; by rewrite length_le_encode|
    unfold len in *; rewrite length_le_encode; lia].
  rewrite le_decode_encode_small; [done|]. unfold U64_MAX in Hv. simpl. lia.
Qed.

(** ... and the field a successful read must have found. *)
Lemma read_le_inv (k : nat) l offset context r v :
  take_range l offset (N.of_nat k) context = Ok r -> le_decode r = v ->
  slice l offset (offset + N.of_nat k) = le_encode k v /\ v < 256 ^ N.of_nat k.
Proof.
  intros H <-. apply take_range_Ok in H as (H1&H2&->).
  assert (Hl : length (slice l offset (offset + N.of_nat k)) = k) by (unfold len in H2; lia).
  split.
  - pose proof (le_encode_decode (slice l offset (offset + N.of_nat k))) as E.
    by rewrite Hl in E.
  - pose proof (le_decode_bound (slice l offset (offset + N.of_nat k))) as E.
    unfold len in E. by rewrite Hl in E.
Qed.

Lemma read_u16_le_Ok l offset context v :
  read_u16_le l offset context = Ok v ->
  offset + 2 <= len l /\ slice l offset (offset + 2) = le_encode 2 v /\ v <= U16_MAX.
Proof.
  unfold read_u16_le. intros H. step_result H. injection H as H.
  pose proof (take_range_Ok _ _ _ _ _ Heqr) as (?&_&_).
  apply (read_le_inv 2 _ _ _ _ _ Heqr) in H as [H1 H2]. unfold U16_MAX.
  change (N.of_nat 2) with 2 in *. change (256 ^ 2) with (2 ^ 16) in H2. split_and!; [done|done|lia].
Qed.

Lemma read_u32_le_Ok l offset context v :
  read_u32_le l offset context = Ok v ->
  offset + 4 <= len l /\ slice l offset (offset + 4) = le_encode 4 v /\ v <= U32_MAX.
Proof.
  unfold read_u32_le. intros H. step_result H. injection H as H.
  pose proof (take_range_Ok _ _ _ _ _ Heqr) as (?&_&_).
  apply (read_le_inv 4 _ _ _ _ _ Heqr) in H as [H1 H2]. unfold U32_MAX.
  change (N.of_nat 4) with 4 in *. change (256 ^ 4) with (2 ^ 32) in H2. split_and!; [done|done|lia].
Qed.

Lemma read_u64_le_Ok l offset context v :
  read_u64_le l offset context = Ok v ->
  offset + 8 <= len l /\ slice l offset (offset + 8) = le_encode 8 v /\ v <= U64_MAX.
Proof.
  unfold read_u64_le. intros H. step_result H. injection H as H.
  pose proof (take_range_Ok _ _ _ _ _ Heqr) as (?&_&_).
  apply (read_le_inv 8 _ _ _ _ _ Heqr) in H as [H1 H2]. unfold U64_MAX.
  change (N.of_nat 8) with 8 in *. change (256 ^ 8) with (2 ^ 64) in H2. split_and!; [done|done|lia].
Qed.
