(* ===== verification/Cbor.v ===== *)
(** [crates/ucof-core/src/cbor.rs]: the canonical metadata codec.

    [encode_into]/[encode_canonical] write the deterministic CBOR subset,
    sorting map entries by encoded key; [Decoder] reads it back under the
    caller's limits and refuses every non-canonical spelling. *)

From Stdlib Require Import Strings.Byte Strings.String NArith ZArith Lia.
From stdpp Require Import base list gmap strings sorting.
From S2P Require Import Prelude Order Errors.

Local Open Scope N_scope.

Unset Elimination Schemes.
Inductive Value : Type :=
  | Unsigned (value : N)
  | Bytes (value : bytes)
  | Text (value : string)
  | Array (values : list Value)
  | Map (entries : list (Value * Value))
  | Bool (value : bool)
  | Null.
Set Elimination Schemes.

(** Induction with a hypothesis for every item of a container. *)
Section ValueInd.
Variable P : Value -> Prop.
Hypothesis Hunsigned : forall n, P (Unsigned n).
Hypothesis Hbytes : forall b, P (Bytes b).
Hypothesis Htext : forall s, P (Text s).
Hypothesis Harray : forall l, Forall P l -> P (Array l).
Hypothesis Hmap : forall l, Forall (fun kv => P kv.1 /\ P kv.2) l -> P (Map l).
Hypothesis Hbool : forall b, P (Bool b).
Hypothesis Hnull : P Null.

Fixpoint Value_ind (v : Value) : P v :=
  match v with
  | Unsigned n => Hunsigned n
  | Bytes b => Hbytes b
  | Text s => Htext s
  | Array l =>
      Harray l ((fix items l : Forall P l :=
        match l with
        | [] => Forall_nil_2 _
        | v :: l => Forall_cons_2 _ _ _ (Value_ind v) (items l)
        end) l)
  | Map l =>
      Hmap l ((fix pairs l : Forall (fun kv => P kv.1 /\ P kv.2) l :=
        match l with
        | [] => Forall_nil_2 _
        | kv :: l => Forall_cons_2 _ _ _ (conj (Value_ind kv.1) (Value_ind kv.2)) (pairs l)
        end) l)
  | Bool b => Hbool b
  | Null => Hnull
  end.
End ValueInd.

(** ** Encoder *)

Definition encode_head (major argument : N) (output : bytes) : bytes :=
  let prefix := N.shiftl major 5 in
  if argument <=? 23 then output ++ [byte_of_N (N.lor prefix argument)]
  else if argument <=? 0xff then output ++ [byte_of_N (N.lor prefix 24)] ++ be_encode 1 argument
  else if argument <=? 0xffff then output ++ [byte_of_N (N.lor prefix 25)] ++ be_encode 2 argument
  else if argument <=? 0xffffffff then output ++ [byte_of_N (N.lor prefix 26)] ++ be_encode 4 argument
  else output ++ [byte_of_N (N.lor prefix 27)] ++ be_encode 8 argument.

Definition compare_key_bytes (left right : bytes) : comparison :=
  then_with (N.compare (len left) (len right)) (compare_bytes left right).

(** Adjacent encoded keys must be strictly increasing. *)
Definition duplicate_key (l r : bytes * bytes) : option Error :=
  match compare_key_bytes l.1 r.1 with
  | Lt => None
  | _ => Some (NonCanonicalMetadata "duplicate map key")
  end.

Fixpoint encode_into (value : Value) (output : bytes) {struct value} : R bytes :=
  match value with
  | Unsigned value => Ok (encode_head 0 value output)
  | Bytes b =>
      let* n := ok_or (try_u64 (len b)) (InvalidLength "CBOR byte string") in
      Ok (encode_head 2 n output ++ b)
  | Text text =>
      let* n := ok_or (try_u64 (len (as_bytes text))) (InvalidLength "CBOR text string") in
      Ok (encode_head 3 n output ++ as_bytes text)
  | Array values =>
      let* n := ok_or (try_u64 (len values)) (InvalidLength "CBOR array") in
      (fix items values output :=
         match values with
         | [] => Ok output
         | v :: values => let* output := encode_into v output in items values output
         end) values (encode_head 4 n output)
  | Map entries =>
      let* encoded :=
        (fix pairs entries :=
           match entries with
           | [] => Ok []
           | (key, value) :: entries =>
               let* k := encode_into key [] in
               let* v := encode_into value [] in
               let* rest := pairs entries in
               Ok ((k, v) :: rest)
           end) entries in
      let encoded := sort_by (cmp_on fst compare_key_bytes) encoded in
      let* _ := check_windows duplicate_key encoded in
      let* n := ok_or (try_u64 (len encoded)) (InvalidLength "CBOR map") in
      Ok (fold_left (fun output kv => (output ++ kv.1) ++ kv.2) encoded (encode_head 5 n output))
  | Bool false => Ok (output ++ [byte_of_N 0xf4])
  | Bool true => Ok (output ++ [byte_of_N 0xf5])
  | Null => Ok (output ++ [byte_of_N 0xf6])
  end.

Definition encode_canonical (value : Value) : R bytes := encode_into value [].

(** ** Decoder *)

Record Decoder : Type := mkDecoder { dec_offset : N; dec_items : N }.

(** A counted loop [for _ in 0..n { out.push(f()?) }]. *)
Fixpoint repeat_result {E A S} (f : S -> result E (A * S)) (n : nat) (s : S)
    : result E (list A * S) :=
  match n with
  | O => Ok ([], s)
  | S n =>
      let* (x, s) := f s in
      let* (xs, s) := repeat_result f n s in
      Ok (x :: xs, s)
  end.

Section Decoder.
Context (input : bytes) (limits : Limits).

(** [Decoder::byte] *)
Definition dec_byte (context : string) (d : Decoder) : R (byte * Decoder) :=
  let* b := ok_or (get input (dec_offset d)) (Truncated context) in
  Ok (b, mkDecoder (dec_offset d + 1) (dec_items d)).

(** [Decoder::fixed::<N>] *)
Definition dec_fixed (n : N) (context : string) (d : Decoder) : R (bytes * Decoder) :=
  let* end_ := ok_or (checked_add (dec_offset d) n) (RangeOutOfBounds context) in
  let* raw := ok_or (get_range input (dec_offset d) end_) (Truncated context) in
  Ok (raw, mkDecoder end_ (dec_items d)).

(** [Decoder::bytes] *)
Definition dec_bytes (length : N) (context : string) (d : Decoder) : R (bytes * Decoder) :=
  let* length := ok_or (try_u64 length) (RangeOutOfBounds context) in
  let* end_ := ok_or (checked_add (dec_offset d) length) (RangeOutOfBounds context) in
  let* raw := ok_or (get_range input (dec_offset d) end_) (Truncated context) in
  Ok (raw, mkDecoder end_ (dec_items d)).

(** [Decoder::argument] *)
Definition dec_argument (additional : N) (d : Decoder) : R (N * Decoder) :=
  let non_shortest := NonCanonicalMetadata "non-shortest CBOR argument" in
  if additional <=? 23 then Ok (additional, d)
  else if additional =? 24 then
    let* (b, d) := dec_byte "CBOR argument" d in
    let value := N_of_byte b in
    check negb (value <? 24) else non_shortest in
    Ok (value, d)
  else if additional =? 25 then
    let* (raw, d) := dec_fixed 2 "CBOR argument" d in
    let value := be_decode raw in
    check negb (value <=? 0xff) else non_shortest in
    Ok (value, d)
  else if additional =? 26 then
    let* (raw, d) := dec_fixed 4 "CBOR argument" d in
    let value := be_decode raw in
    check negb (value <=? 0xffff) else non_shortest in
    Ok (value, d)
  else if additional =? 27 then
    let* (raw, d) := dec_fixed 8 "CBOR argument" d in
    let value := be_decode raw in
    check negb (value <=? 0xffffffff) else non_shortest in
    Ok (value, d)
  else if additional =? 31 then
    Err (NonCanonicalMetadata "indefinite-length CBOR is not permitted")
  else Err (NonCanonicalMetadata "reserved CBOR argument").

Definition check_container_length (length : N) : R unit :=
  check negb (max_container_items limits <? length)
    else LimitExceeded "CBOR container items" in Ok tt.

(** One turn of the map loop: a key, its order check against the previous
    key, and a value. *)
Definition dec_map_entry (value : Decoder -> R (Value * Decoder))
    (s : option bytes * Decoder) : R ((Value * Value) * (option bytes * Decoder)) :=
  let '(previous_key, d) := s in
  let* (key, d) := value d in
  let* key_bytes := encode_canonical key in
  check match previous_key with
        | Some previous => bool_decide (compare_key_bytes previous key_bytes = Lt)
        | None => true
        end else NonCanonicalMetadata "map keys are duplicate or out of order" in
  let* (v, d) := value d in
  Ok ((key, v), (Some key_bytes, d)).

(** The dispatch of [Decoder::value] on the major type; [value] is the
    recursive call at the next depth. *)
Definition dec_item (value : Decoder -> R (Value * Decoder)) (major additional : N)
    (d : Decoder) : R (Value * Decoder) :=
  if major =? 0 then
    let* (n, d) := dec_argument additional d in
    Ok (Unsigned n, d)
  else if major =? 2 then
    let* (length, d) := dec_argument additional d in
    check negb (max_byte_string_bytes limits <? length)
      else LimitExceeded "CBOR byte-string bytes" in
    let* (b, d) := dec_bytes length "CBOR byte string" d in
    Ok (Bytes b, d)
  else if major =? 3 then
    let* (length, d) := dec_argument additional d in
    check negb (max_text_bytes limits <? length) else LimitExceeded "CBOR text bytes" in
    let* (raw, d) := dec_bytes length "CBOR text string" d in
    check valid_utf8 raw else NonCanonicalMetadata "invalid UTF-8 text" in
    Ok (Text (from_bytes raw), d)
  else if major =? 4 then
    let* (length, d) := dec_argument additional d in
    let* _ := check_container_length length in
    let* capacity := ok_or (try_u64 length) (LimitExceeded "CBOR array items") in
    let* (values, d) := repeat_result value (N.to_nat capacity) d in
    Ok (Array values, d)
  else if major =? 5 then
    let* (length, d) := dec_argument additional d in
    let* _ := check_container_length length in
    let* capacity := ok_or (try_u64 length) (LimitExceeded "CBOR map entries") in
    let* (entries, s) := repeat_result (dec_map_entry value) (N.to_nat capacity) (None, d) in
    Ok (Map entries, s.2)
  else if major =? 7 then
    if additional =? 20 then Ok (Bool false, d)
    else if additional =? 21 then Ok (Bool true, d)
    else if additional =? 22 then Ok (Null, d)
    else Err (NonCanonicalMetadata "unsupported CBOR simple or floating-point value")
  else Err (NonCanonicalMetadata "unsupported CBOR major type").

(** [Decoder::value]. The recursion is bounded by [fuel]; one unit per
    remaining input byte is always enough ([dec_value_fuel]). *)
Fixpoint dec_value (fuel : nat) (depth : N) (d : Decoder) : R (Value * Decoder) :=
  match fuel with
  | O => Err (LimitExceeded "metadata depth")
  | S fuel =>
    check negb (max_metadata_depth limits <? depth) else LimitExceeded "metadata depth" in
    let* items := ok_or (checked_add (dec_items d) 1) (LimitExceeded "metadata item count") in
    check negb (max_container_items limits <? items) else LimitExceeded "metadata item count" in
    let* (initial, d) := dec_byte "CBOR initial byte" (mkDecoder (dec_offset d) items) in
    let major := N.shiftr (N_of_byte initial) 5 in
    let additional := N.land (N_of_byte initial) 0x1f in
    dec_item (dec_value fuel (depth + 1)) major additional d
  end.
End Decoder.

Definition decode_canonical (input : bytes) (limits : Limits) : R Value :=
  let* n := ok_or (try_u64 (len input)) (LimitExceeded "metadata bytes") in
  check negb (max_metadata_bytes limits <? n) else LimitExceeded "metadata bytes" in
  let* (value, d) := dec_value input limits (S (length input)) 0 (mkDecoder 0 0) in
  check dec_offset d =? len input else NonCanonicalMetadata "trailing CBOR bytes" in
  Ok value.

(** ** Specification vocabulary *)

(** Nesting depth below a value, number of data items, and the ranges a Rust
    value and the caller's limits impose on its leaves. *)
Fixpoint vheight (v : Value) : N :=
  match v with
  | Array l => foldr (fun x m => N.max (1 + vheight x) m) 0 l
  | Map l => foldr (fun kv m => N.max (1 + N.max (vheight kv.1) (vheight kv.2)) m) 0 l
  | _ => 0
  end.

Fixpoint vitems (v : Value) : N :=
  match v with
  | Array l => 1 + foldr (fun x m => vitems x + m) 0 l
  | Map l => 1 + foldr (fun kv m => (vitems kv.1 + vitems kv.2) + m) 0 l
  | _ => 1
  end.

Fixpoint value_fits (limits : Limits) (v : Value) : bool :=
  match v with
  | Unsigned n => n <=? U64_MAX
  | Bytes b => len b <=? max_byte_string_bytes limits
  | Text s => (len (as_bytes s) <=? max_text_bytes limits) && valid_utf8 (as_bytes s)
  | Array l => forallb (value_fits limits) l
  | Map l => forallb (fun kv => value_fits limits kv.1 && value_fits limits kv.2) l
  | Bool _ | Null => true
  end.

(** The bytes of a value that encodes. *)
Definition enc (v : Value) : bytes :=
  match encode_canonical v with Ok b => b | Err _ => [] end.

(** The value a decoder hands back: every map in key order. *)
Fixpoint canon (v : Value) : Value :=
  match v with
  | Array l => Array (map canon l)
  | Map l =>
      Map (map snd (sort_by (cmp_on fst compare_key_bytes)
             (map (fun kv => (enc kv.1, (canon kv.1, canon kv.2))) l)))
  | v => v
  end.

Definition admits (limits : Limits) (v : Value) : Prop :=
  value_fits limits v = true /\ vheight v <= max_metadata_depth limits /\
  vitems v <= max_container_items limits /\ max_container_items limits <= U64_MAX.
