(* ===== verification/CborFacts.v ===== *)
(** Lemmas of the canonical metadata codec: the equations of the encoder, the
    agreement of the two directions on heads, and the full characterisation of
    the decoder that the file-level theorems use. *)

From Stdlib Require Import Strings.Byte Strings.String NArith ZArith Lia.
From stdpp Require Import base list gmap strings sorting.
From S2P Require Import Prelude Order Errors Cbor.

Local Open Scope N_scope.

#[export] Instance compare_key_bytes_strict : StrictCmp compare_key_bytes.
Proof.
  split; [split|]; unfold compare_key_bytes.
  - intros x y. rewrite (cmp_sym N.compare (len x)), (cmp_sym compare_bytes x).
    by destruct (len x ?= len y), (compare_bytes x y).
  - intros x y z c.
    destruct (N.compare_spec (len x) (len y)) as [E|E|E]; simpl; intros H1;
    destruct (N.compare_spec (len y) (len z)) as [F|F|F]; simpl; intros H2;
    destruct (N.compare_spec (len x) (len z)); simpl;
      solve [lia | congruence | by eapply (cmp_trans compare_bytes)].
  - intros x y. destruct (len x ?= len y); simpl; try done. apply cmp_eq.
Qed.

(** ** Encoder equations *)

Lemma encode_head_app major argument output :
  encode_head major argument output = output ++ encode_head major argument [].
Proof. unfold encode_head. by repeat case_match. Qed.

Definition enc_pair (kv : Value * Value) : bytes * bytes := (enc kv.1, enc kv.2).

(** The entries of a map in the order they are written. *)
Definition sort_entries (l : list (Value * Value)) : list (Value * Value) :=
  sort_by (cmp_on (fun kv => enc kv.1) compare_key_bytes) l.

Definition key_lt (x y : Value * Value) : Prop :=
  compare_key_bytes (enc x.1) (enc y.1) = Lt.

Definition encodes (v : Value) : Prop := exists b, encode_canonical v = Ok b.

Lemma encodes_enc v : encodes v -> encode_canonical v = Ok (enc v).
Proof. intros [b H]. unfold enc. by rewrite H. Qed.

Lemma enc_Ok v b : encode_canonical v = Ok b -> enc v = b /\ encodes v.
Proof. intros H. unfold enc, encodes. rewrite H. eauto. Qed.

Lemma encode_into_app v output :
  encode_into v output =
  match encode_canonical v with Ok b => Ok (output ++ b) | Err e => Err e end.
Proof.
  unfold encode_canonical. revert output.
  induction v as [n|b|s|l IH|l IH|b|] using Value_ind; intros output; simpl;
    try (by rewrite encode_head_app);
    try (destruct (ok_or _ _); simpl; [|done]; by rewrite encode_head_app, app_assoc).
  - destruct (ok_or _ _); simpl; [|done]. rewrite encode_head_app.
    generalize (encode_head 4 a []). revert output.
    induction IH as [|v l Hv _ IHl]; intros output out; [done|].
    rewrite Hv, (Hv out). destruct (encode_into v []); [|done].
    by rewrite <- app_assoc, IHl.
  - match goal with |- context [match ?m with Ok _ => _ | Err _ => _ end] => destruct m as [es|] end;
      simpl; [|done].
    destruct (check_windows _ _); simpl; [|done]. destruct (ok_or _ _); simpl; [|done].
    rewrite encode_head_app. generalize (encode_head 5 a0 []). revert output.
    induction (sort_by _ es) as [|kv l' IHl]; intros output out; simpl; [done|].
    by rewrite <- IHl, !app_assoc.
  - by destruct b.
  - done.
Qed.

Lemma encode_Array l b :
  len l <= U64_MAX ->
  encode_canonical (Array l) = Ok b <->
  Forall encodes l /\ b = encode_head 4 (len l) [] ++ concat (enc <$> l).
Proof.
  intros Hl. unfold encode_canonical. simpl. rewrite try_u64_fits by done. simpl.
  generalize (encode_head 4 (len l) []). clear Hl. revert b.
  induction l as [|v l IH]; intros b out; csimpl.
  - rewrite app_nil_r. split; [intros [= <-]|intros [_ ->]]; done.
  - rewrite encode_into_app. destruct (encode_canonical v) as [bv|e] eqn:E.
    + apply enc_Ok in E as [<- E]. rewrite IH, <- app_assoc.
      split; intros [H ->]; (split; [|done]); [by constructor|by inversion H].
    + split; [done|]. intros [H _]. inversion H as [|? ? [b' Hb] _]; congruence.
Qed.

Lemma pairs_ok l es :
  (fix pairs entries :=
     match entries with
     | [] => Ok []
     | (key, value) :: entries =>
         let* k := encode_into key [] in
         let* v := encode_into value [] in
         let* rest := pairs entries in
         Ok ((k, v) :: rest)
     end) l = Ok (E := Error) es <->
  Forall (fun kv => encodes kv.1 /\ encodes kv.2) l /\ es = enc_pair <$> l.
Proof.
  revert es. induction l as [|[k v] l IH]; intros es; csimpl.
  - split; [intros [= <-]|intros [_ ->]]; done.
  - fold (encode_canonical k). fold (encode_canonical v). split.
    + intros H. destruct (encode_canonical k) eqn:Ek; [|done].
      destruct (encode_canonical v) eqn:Ev; [|done].
      revert H. match goal with |- context [match ?m with Ok _ => _ | Err _ => _ end] =>
        case_eq m; [intros r Er H|done] end.
      apply IH in Er as [Hf ->]. injection H as <-.
      apply enc_Ok in Ek as [<- Hk], Ev as [<- Hv]. split; [by constructor|done].
    + intros [Hf ->]. inversion Hf as [|? ? [Hk Hv] Hr]; subst. simpl in *.
      rewrite (encodes_enc k), (encodes_enc v) by done.
      by rewrite (proj2 (IH (enc_pair <$> l)) (conj Hr eq_refl)).
Qed.

Lemma sort_enc_pair l :
  sort_by (cmp_on fst compare_key_bytes) (enc_pair <$> l) = enc_pair <$> sort_entries l.
Proof. by apply sort_by_fmap. Qed.

Lemma windows_enc_pair l :
  check_windows duplicate_key (enc_pair <$> l) = Ok tt <-> Sorted key_lt l.
Proof.
  rewrite check_windows_Ok. unfold duplicate_key, enc_pair, key_lt.
  induction l as [|x l IH]; csimpl; [done|].
  split; intros H; inversion H as [|? ? Hs Hh]; subst; constructor; try (by apply IH);
    destruct l as [|y l]; constructor; inversion Hh as [|? ? Hxy]; subst; simpl in *;
    by destruct (compare_key_bytes _ _).
Qed.

Lemma fold_left_pairs (es : list (bytes * bytes)) out :
  fold_left (fun output kv => (output ++ kv.1) ++ kv.2) es out
  = out ++ concat ((fun kv => kv.1 ++ kv.2) <$> es).
Proof.
  revert out. induction es as [|[k v] es IH]; intros out; csimpl; [by rewrite app_nil_r|].
  by rewrite IH, !app_assoc.
Qed.

Lemma encode_Map l b :
  len l <= U64_MAX ->
  encode_canonical (Map l) = Ok b <->
  Forall (fun kv => encodes kv.1 /\ encodes kv.2) l /\ Sorted key_lt (sort_entries l) /\
  b = encode_head 5 (len l) [] ++ concat ((fun kv => enc kv.1 ++ enc kv.2) <$> sort_entries l).
Proof.
  intros Hl. unfold encode_canonical. simpl.
  match goal with |- context [match ?m with Ok _ => _ | Err _ => _ end = Ok b] =>
    destruct m as [es|] eqn:E end.
  - apply pairs_ok in E as [Hf ->]. rewrite sort_enc_pair.
    destruct (check_windows _ _) as [[]|] eqn:W.
    + apply windows_enc_pair in W.
      unfold len at 1. rewrite length_fmap. fold (len (sort_entries l)).
      unfold sort_entries at 1. rewrite sort_by_len. rewrite try_u64_fits by done. simpl.
      rewrite fold_left_pairs, <- list_fmap_compose. unfold compose, enc_pair. simpl.
      split; [intros [= <-]|intros (_&_&->)]; done.
    + split; [done|]. intros (_&Hs&_). apply windows_enc_pair in Hs. congruence.
  - split; [done|]. intros (Hf&_&_).
    assert (X := proj2 (pairs_ok l (enc_pair <$> l)) (conj Hf eq_refl)). congruence.
Qed.

(** ** Heads *)

Lemma head_byte_split b :
  let n := N_of_byte b in
  N.shiftr n 5 < 8 /\ N.land n 0x1f < 32 /\
  byte_of_N (N.lor (N.shiftl (N.shiftr n 5) 5) (N.land n 0x1f)) = b.
Proof. destruct b; vm_compute; auto. Qed.

Lemma head_byte_join major additional :
  major < 8 -> additional < 32 ->
  let n := N_of_byte (byte_of_N (N.lor (N.shiftl major 5) additional)) in
  N.shiftr n 5 = major /\ N.land n 0x1f = additional.
Proof.
  intros H1 H2.
  assert (H : forallb (fun m => forallb (fun a =>
    let n := N_of_byte (byte_of_N (N.lor (N.shiftl m 5) a)) in
    (N.shiftr n 5 =? m) && (N.land n 0x1f =? a))
      (map N.of_nat (seq 0 32))) (map N.of_nat (seq 0 8)) = true) by (vm_compute; done).
  rewrite forallb_forall in H. specialize (H major).
  rewrite forallb_forall in H. simpl.
  assert (Hm : forall n k, n < N.of_nat k -> In n (map N.of_nat (seq 0 k))).
  { intros n k Hn. rewrite <- (N2Nat.id n). apply in_map, in_seq. lia. }
  specialize (H (Hm major 8%nat H1) additional (Hm additional 32%nat H2)).
  simpl in H. bool_facts. done.
Qed.

Lemma dec_byte_app pre b post context items :
  dec_byte (pre ++ b :: post) context (mkDecoder (len pre) items)
  = Ok (b, mkDecoder (len pre + 1) items).
Proof.
  unfold dec_byte. simpl.
  rewrite (proj2 (get_Some (pre ++ b :: post) (len pre) b)); [done|].
  rewrite len_to_nat. by rewrite list_lookup_middle.
Qed.

Lemma dec_byte_Ok input context d b d' :
  dec_byte input context d = Ok (b, d') ->
  dec_offset d < len input /\ d' = mkDecoder (dec_offset d + 1) (dec_items d) /\
  slice input (dec_offset d) (dec_offset d + 1) = [b].
Proof.
  unfold dec_byte. intros H. step_result H. option_facts. injection H as -> <-.
  apply get_Some in Heqr. pose proof (lookup_lt_Some _ _ _ Heqr).
  split_and!; [unfold len; lia|done|].
  unfold slice. replace (N.to_nat _) with 1%nat by lia.
  by rewrite (drop_S _ _ _ Heqr).
Qed.

Lemma dec_fixed_app pre mid post n context items :
  n = len mid -> len (pre ++ mid ++ post) <= U64_MAX ->
  dec_fixed (pre ++ mid ++ post) n context (mkDecoder (len pre) items)
  = Ok (mid, mkDecoder (len pre + n) items).
Proof.
  intros -> H. unfold dec_fixed. simpl. rewrite !len_app in H.
  rewrite checked_add_fits by lia. simpl. by rewrite (get_range_app pre mid post).
Qed.

Lemma dec_fixed_Ok input n context d raw d' :
  dec_fixed input n context d = Ok (raw, d') ->
  dec_offset d + n <= len input /\ d' = mkDecoder (dec_offset d + n) (dec_items d) /\
  slice input (dec_offset d) (dec_offset d + n) = raw /\ len raw = n.
Proof.
  unfold dec_fixed. intros H. step_result H. option_facts. injection H as -> <-.
  apply get_range_Some in Heqr0 as (?&?&?&->&_). split_and!; [done|done|done|lia].
Qed.

Lemma dec_bytes_fixed input n context d :
  n <= U64_MAX -> dec_bytes input n context d = dec_fixed input n context d.
Proof. intros H. unfold dec_bytes, dec_fixed. by rewrite try_u64_fits. Qed.

Lemma dec_bytes_Ok input n context d raw d' :
  dec_bytes input n context d = Ok (raw, d') ->
  dec_offset d + n <= len input /\ d' = mkDecoder (dec_offset d + n) (dec_items d) /\
  slice input (dec_offset d) (dec_offset d + n) = raw /\ len raw = n.
Proof.
  unfold dec_bytes. intros H. step_result H. option_facts.
  apply (dec_fixed_Ok input n context). unfold dec_fixed.
  rewrite checked_add_fits by done. simpl.
  by match goal with E : get_range _ _ _ = Some _ |- _ => rewrite E end.
Qed.

(** The arguments of two, four and eight bytes share one equation. *)
Lemma dec_argument_fixed input a k low d :
  (a, k, low) ∈ [(25, 2, 0xff); (26, 4, 0xffff); (27, 8, 0xffffffff)] ->
  dec_argument input a d =
  match dec_fixed input k "CBOR argument" d with
  | Ok (raw, d) =>
      check negb (be_decode raw <=? low)
        else NonCanonicalMetadata "non-shortest CBOR argument" in Ok (be_decode raw, d)
  | Err e => Err e
  end.
Proof.
  intros H. repeat (apply elem_of_cons in H as [[= -> -> ->]|H]; [done|]).
  by apply elem_of_nil in H.
Qed.

(** The decoder reads back the argument an encoder wrote in a head ... *)
Lemma dec_argument_head major n :
  major < 8 -> n <= U64_MAX ->
  exists initial rest, encode_head major n [] = initial :: rest /\
    N.shiftr (N_of_byte initial) 5 = major /\
    forall pre post items, len (pre ++ (initial :: rest) ++ post) <= U64_MAX ->
      dec_argument (pre ++ (initial :: rest) ++ post) (N.land (N_of_byte initial) 0x1f)
        (mkDecoder (len pre + 1) items)
      = Ok (n, mkDecoder (len pre + len (initial :: rest)) items).
Proof.
  intros Hm Hn. unfold encode_head.
  assert (Hfix : forall a k low, (a, N.of_nat k, low) ∈ [(25, 2, 0xff); (26, 4, 0xffff); (27, 8, 0xffffffff)] ->
    a < 32 -> low < n -> n < 256 ^ N.of_nat k ->
    exists initial rest,
      [] ++ [byte_of_N (N.lor (N.shiftl major 5) a)] ++ be_encode k n = initial :: rest /\
      N.shiftr (N_of_byte initial) 5 = major /\
      forall pre post items, len (pre ++ (initial :: rest) ++ post) <= U64_MAX ->
      dec_argument (pre ++ (initial :: rest) ++ post) (N.land (N_of_byte initial) 0x1f)
        (mkDecoder (len pre + 1) items)
      = Ok (n, mkDecoder (len pre + len (initial :: rest)) items)).
  { intros a k low Hin Ha Hlow Hk.
    destruct (head_byte_join major a Hm Ha) as [E1 E2].
    set (b0 := byte_of_N (N.lor (N.shiftl major 5) a)) in *.
    exists b0, (be_encode k n). split_and!; [done|done|].
    intros pre post items Hl. rewrite E2, (dec_argument_fixed _ _ _ _ _ Hin).
    assert (E : pre ++ (b0 :: be_encode k n) ++ post = (pre ++ [b0]) ++ be_encode k n ++ post)
      by (by rewrite <- app_assoc).
    rewrite E in *. replace (len pre + 1) with (len (pre ++ [b0])) by (by rewrite len_app).
    rewrite dec_fixed_app; [|unfold len; by rewrite length_be_encode|done].
    rewrite be_decode_encode_small, (proj2 (N.leb_gt n low)) by done.
    simpl negb. rewrite len_app, len_cons, len_cons. do 3 f_equal.
    unfold len. rewrite length_be_encode. simpl. lia. }
  destruct (N.leb_spec n 23) as [H|H].
  { eexists _, []. destruct (head_byte_join major n) as [E1 E2]; [done|lia|].
    split_and!; [done|done|]. intros. rewrite E2. unfold dec_argument.
    by rewrite (proj2 (N.leb_le n 23)). }
  unfold U64_MAX in Hn. simpl in Hn.
  destruct (N.leb_spec n 0xff); [|destruct (N.leb_spec n 0xffff); [|destruct (N.leb_spec n 0xffffffff)]].
  2: apply (Hfix 25 2%nat 0xff); [set_solver|simpl; lia..].
  2: apply (Hfix 26 4%nat 0xffff); [set_solver|simpl; lia..].
  2: apply (Hfix 27 8%nat 0xffffffff); [set_solver|simpl; lia..].
  destruct (head_byte_join major 24) as [E1 E2]; [done|lia|].
  set (b0 := byte_of_N (N.lor (N.shiftl major 5) 24)) in *.
  exists b0, [byte_of_N n]. split_and!; [done|done|].
  intros pre post items Hl. rewrite E2.
  change ((b0 :: [byte_of_N n]) ++ post) with ([b0] ++ byte_of_N n :: post).
  rewrite app_assoc. replace (len pre + 1) with (len (pre ++ [b0])) by (by rewrite len_app).
  unfold dec_argument. change (24 <=? 23) with false. change (24 =? 24) with true.
  rewrite dec_byte_app, N_of_byte_of_N, N.mod_small by lia.
  rewrite (proj2 (N.ltb_ge n 24)) by lia. simpl negb.
  rewrite !len_app, !len_cons, !len_nil. do 3 f_equal. lia.
Qed.

(** ... and an argument it accepts is spelled the way the encoder spells it. *)
Lemma dec_argument_Ok input major additional d n d' :
  dec_argument input additional d = Ok (n, d') ->
  major < 8 -> additional < 32 -> dec_offset d <= len input ->
  n <= U64_MAX /\ dec_items d' = dec_items d /\
  dec_offset d <= dec_offset d' /\ dec_offset d' <= len input /\
  encode_head major n [] =
    byte_of_N (N.lor (N.shiftl major 5) additional) :: slice input (dec_offset d) (dec_offset d').
Proof.
  intros H Hm Ha Hd. unfold dec_argument in H.
  destruct (N.leb_spec additional 23) as [H1|H1].
  { injection H as <- <-. unfold encode_head. rewrite (proj2 (N.leb_le additional 23)) by done.
    unfold slice. rewrite N.sub_diag. simpl. unfold U64_MAX. simpl. split_and!; try done; lia. }
  destruct (N.eqb_spec additional 24) as [->|]; [|destruct (N.eqb_spec additional 25) as [->|];
    [|destruct (N.eqb_spec additional 26) as [->|]; [|destruct (N.eqb_spec additional 27) as [->|]]]].
  5: by destruct (additional =? 31).
  1: { destruct (dec_byte _ _ _) as [[b d1]|] eqn:E; [|done].
       step_result H. bool_facts. injection H as <- <-.
       apply dec_byte_Ok in E as (E1&->&E3). simpl. rewrite E3.
       pose proof (N_of_byte_lt b). unfold encode_head.
       rewrite (proj2 (N.leb_gt _ 23)), (proj2 (N.leb_le _ 0xff)) by lia.
       unfold U64_MAX. simpl. unfold be_encode. simpl. rewrite byte_of_N_of_byte.
       split_and!; try done; lia. }
  all: destruct (dec_fixed _ _ _ _) as [[raw d1]|] eqn:E; [|done];
    step_result H; bool_facts; injection H as <- <-;
    apply dec_fixed_Ok in E as (E1&->&E3&E4); simpl; rewrite E3;
    pose proof (be_decode_bound raw) as Hb; rewrite E4 in Hb; simpl in Hb;
    unfold encode_head, U64_MAX.
  - rewrite (proj2 (N.leb_gt _ 23)), (proj2 (N.leb_gt _ 0xff)), (proj2 (N.leb_le _ 0xffff)) by lia.
    replace 2%nat with (length raw) by (unfold len in E4; lia). rewrite be_encode_decode.
    simpl. split_and!; try done; lia.
  - rewrite (proj2 (N.leb_gt _ 23)), (proj2 (N.leb_gt _ 0xff)), (proj2 (N.leb_gt _ 0xffff)),
      (proj2 (N.leb_le _ 0xffffffff)) by lia.
    replace 4%nat with (length raw) by (unfold len in E4; lia). rewrite be_encode_decode.
    simpl. split_and!; try done; lia.
  - rewrite (proj2 (N.leb_gt _ 23)), (proj2 (N.leb_gt _ 0xff)), (proj2 (N.leb_gt _ 0xffff)),
      (proj2 (N.leb_gt _ 0xffffffff)) by lia.
    replace 8%nat with (length raw) by (unfold len in E4; lia). rewrite be_encode_decode.
    simpl. split_and!; try done; lia.
Qed.

(** ** [canon]: the normal form of a value *)

Definition canon_pair (kv : Value * Value) : Value * Value := (canon kv.1, canon kv.2).

Lemma canon_Array l : canon (Array l) = Array (canon <$> l).
Proof. done. Qed.

Lemma canon_Map l : canon (Map l) = Map (canon_pair <$> sort_entries l).
Proof.
  simpl. f_equal.
  rewrite (sort_by_fmap (cmp_on (fun kv : Value * Value => enc kv.1) compare_key_bytes)
    (cmp_on fst compare_key_bytes) (fun kv => (enc kv.1, canon_pair kv))) by done.
  fold (sort_entries l). induction (sort_entries l); csimpl; congruence.
Qed.

Lemma sort_entries_id l : Sorted key_lt l -> sort_entries l = l.
Proof.
  intros H. apply sort_by_sorted_id. eapply Sorted_mono; [|done].
  intros x y Hxy. unfold key_lt, cmp_le, cmp_on in *. congruence.
Qed.

Lemma sort_entries_Permutation l : sort_entries l ≡ₚ l.
Proof. apply sort_by_Permutation. Qed.

Lemma len_sort_entries l : len (sort_entries l) = len l.
Proof. apply sort_by_len. Qed.

Lemma encodes_Array_len l : encodes (Array l) -> len l <= U64_MAX.
Proof.
  intros [b H]. unfold encode_canonical in H. simpl in H. step_result H. by option_facts.
Qed.

Lemma encodes_Map_len l : encodes (Map l) -> len l <= U64_MAX.
Proof.
  intros [b H]. unfold encode_canonical in H. simpl in H.
  revert H. match goal with |- context [match ?m with Ok _ => _ | Err _ => _ end] =>
    case_eq m; [intros es E H|done] end.
  apply pairs_ok in E as [_ ->]. step_result H. option_facts.
  match goal with E : len _ <= U64_MAX |- _ => revert E end.
  rewrite sort_enc_pair, len_fmap, len_sort_entries. done.
Qed.

Lemma Sorted_canon_pair l :
  Forall (fun kv => enc (canon kv.1) = enc kv.1) l ->
  Sorted key_lt l -> Sorted key_lt (canon_pair <$> l).
Proof.
  intros Hf Hs. induction Hs as [|x l Hs IH Hh]; csimpl; [done|].
  inversion Hf as [|? ? Hx Hl]; subst. constructor; [by apply IH|].
  destruct Hh as [|y l Hxy]; csimpl; constructor. inversion Hl; subst.
  unfold key_lt in *. simpl in *. congruence.
Qed.

(** Normalising does not change the encoding. *)
Lemma encode_canon v : encodes v -> encode_canonical (canon v) = Ok (enc v).
Proof.
  induction v as [n|b|s|l IH|l IH|b|] using Value_ind; try apply encodes_enc.
  - intros He. pose proof (encodes_Array_len _ He) as Hl.
    destruct He as [b Hb]. destruct (enc_Ok _ _ Hb) as [-> _].
    apply encode_Array in Hb as [Hf ->]; [|done]. rewrite canon_Array.
    apply encode_Array; [by rewrite len_fmap|].
    assert (Hc : Forall (fun v => encode_canonical (canon v) = Ok (enc v)) l).
    { clear -IH Hf. induction IH; [constructor|]. inversion Hf; subst. constructor; eauto. }
    split.
    + rewrite Forall_fmap.
      eapply Forall_impl; [exact Hc|]. intros v Hv. by exists (enc v).
    + rewrite len_fmap. f_equal.
      clear -Hc. induction Hc as [|v l Hv _ IH]; csimpl; [done|].
      apply enc_Ok in Hv as [-> _]. by f_equal.
  - intros He. pose proof (encodes_Map_len _ He) as Hl.
    destruct He as [b Hb]. destruct (enc_Ok _ _ Hb) as [-> _].
    apply encode_Map in Hb as (Hf&Hs&->); [|done].
    rewrite canon_Map.
    assert (Hc : Forall (fun kv => encode_canonical (canon kv.1) = Ok (enc kv.1) /\
                                   encode_canonical (canon kv.2) = Ok (enc kv.2)) (sort_entries l)).
    { rewrite (sort_entries_Permutation l). clear -IH Hf. induction IH; [constructor|].
      inversion Hf; subst. constructor; [|eauto]. destruct_and!. split; eauto. }
    apply encode_Map; [by rewrite len_fmap, len_sort_entries|].
    assert (Hs' : Sorted key_lt (canon_pair <$> sort_entries l)).
    { apply Sorted_canon_pair; [|done]. eapply Forall_impl; [exact Hc|].
      intros kv [E _]. by apply enc_Ok in E as [-> _]. }
    rewrite (sort_entries_id _ Hs'), len_fmap, len_sort_entries. split_and!; [|done|].
    + rewrite Forall_fmap. eapply Forall_impl; [exact Hc|].
      intros kv [E1 E2]. split; simpl; eexists; eauto.
    + f_equal. clear -Hc. induction Hc as [|kv l' [E1 E2] _ IH]; csimpl; [done|].
      apply enc_Ok in E1 as [-> _], E2 as [-> _]. by f_equal.
Qed.

Lemma enc_canon v : encodes v -> enc (canon v) = enc v.
Proof. intros H. by apply encode_canon, enc_Ok in H as [-> _]. Qed.

(** ** The decoder on encoder output *)

Lemma vitems_pos v : 1 <= vitems v.
Proof. destruct v; simpl; lia. Qed.

Definition items_sum (l : list Value) : N := foldr (fun x m => vitems x + m) 0 l.
Definition pairs_sum (l : list (Value * Value)) : N :=
  foldr (fun kv m => (vitems kv.1 + vitems kv.2) + m) 0 l.

Lemma len_le_items_sum l : len l <= items_sum l.
Proof.
  induction l as [|v l IH]; [done|]. rewrite len_cons.
  pose proof (vitems_pos v). unfold items_sum in *. simpl. lia.
Qed.

Lemma len_le_pairs_sum l : len l <= pairs_sum l.
Proof.
  induction l as [|kv l IH]; [done|]. rewrite len_cons.
  pose proof (vitems_pos kv.1). unfold pairs_sum in *. simpl. lia.
Qed.

Lemma pairs_sum_Permutation l1 l2 : l1 ≡ₚ l2 -> pairs_sum l1 = pairs_sum l2.
Proof. unfold pairs_sum. induction 1; simpl; lia. Qed.

Lemma vheight_Array_Forall l h : vheight (Array l) <= h <-> Forall (fun v => 1 + vheight v <= h) l.
Proof.
  simpl. induction l as [|v l IH]; simpl; [split; [constructor|lia]|].
  rewrite Forall_cons, <- IH. lia.
Qed.

Lemma vheight_Map_Forall l h :
  vheight (Map l) <= h <-> Forall (fun kv => 1 + vheight kv.1 <= h /\ 1 + vheight kv.2 <= h) l.
Proof.
  simpl. induction l as [|kv l IH]; simpl; [split; [constructor|lia]|].
  rewrite Forall_cons, <- IH. lia.
Qed.

Section DecodeEncode.
Context (limits : Limits).

(** Reading [v] anywhere in an input, at this depth, gives its normal form
    and consumes exactly its encoding. *)
Definition reads_back (fuel : nat) (depth : N) (v : Value) : Prop :=
  encodes v /\
  forall pre post items,
    items + vitems v <= max_container_items limits ->
    len (pre ++ enc v ++ post) <= U64_MAX ->
    dec_value (pre ++ enc v ++ post) limits fuel depth (mkDecoder (len pre) items)
    = Ok (canon v, mkDecoder (len pre + len (enc v)) (items + vitems v)).

Lemma reads_back_list fuel depth l :
  Forall (reads_back fuel depth) l ->
  forall pre post items,
    items + items_sum l <= max_container_items limits ->
    len (pre ++ concat (enc <$> l) ++ post) <= U64_MAX ->
    repeat_result (dec_value (pre ++ concat (enc <$> l) ++ post) limits fuel depth)
      (length l) (mkDecoder (len pre) items)
    = Ok (canon <$> l, mkDecoder (len pre + len (concat (enc <$> l))) (items + items_sum l)).
Proof.
  induction 1 as [|v l [_ Hv] _ IH]; intros pre post items Hi Hl; csimpl in *.
  - by rewrite len_nil, !N.add_0_r.
  - change (foldr (fun x m => vitems x + m) 0 l) with (items_sum l) in *.
    rewrite <- app_assoc in *. rewrite Hv by (done || lia).
    specialize (IH (pre ++ enc v) post (items + vitems v)).
    rewrite <- app_assoc in IH. rewrite <- len_app, IH; [|lia|done].
    rewrite !len_app. do 3 f_equal; lia.
Qed.

Lemma reads_back_map fuel depth l :
  Forall (fun kv => reads_back fuel depth kv.1 /\ reads_back fuel depth kv.2) l ->
  Sorted key_lt l ->
  forall previous pre post items,
    match previous, l with
    | Some p, kv :: _ => compare_key_bytes p (enc kv.1) = Lt
    | _, _ => True
    end ->
    items + pairs_sum l <= max_container_items limits ->
    let body := concat ((fun kv => enc kv.1 ++ enc kv.2) <$> l) in
    len (pre ++ body ++ post) <= U64_MAX ->
    exists previous',
    repeat_result (dec_map_entry (dec_value (pre ++ body ++ post) limits fuel depth))
      (length l) (previous, mkDecoder (len pre) items)
    = Ok (canon_pair <$> l, (previous', mkDecoder (len pre + len body) (items + pairs_sum l))).
Proof.
  induction 1 as [|[k v] l [[Hke Hk] [_ Hv]] _ IH]; intros Hs previous pre post items Hp Hi;
    csimpl in *; intros Hl.
  - exists previous. by rewrite len_nil, !N.add_0_r.
  - change (foldr (fun kv m => (vitems kv.1 + vitems kv.2) + m) 0 l) with (pairs_sum l) in *.
    inversion Hs as [|? ? Hs' Hh]; subst. specialize (IH Hs').
    set (body := concat ((fun kv => enc kv.1 ++ enc kv.2) <$> l)) in *.
    rewrite <- !app_assoc in *.
    rewrite Hk by (done || lia). rewrite encode_canon by done.
    assert (Hc : match previous with
      | Some p => bool_decide (compare_key_bytes p (enc k) = Lt) | None => true end = true).
    { destruct previous; [|done]. apply bool_decide_eq_true. done. }
    rewrite Hc.
    specialize (Hv (pre ++ enc k) (body ++ post) (items + vitems k)).
    rewrite <- app_assoc in Hv. rewrite <- len_app, Hv; [|lia|done].
    destruct (IH (Some (enc k)) ((pre ++ enc k) ++ enc v) post (items + vitems k + vitems v))
      as [p' E].
    { destruct l; [done|]. by inversion Hh. }
    { lia. }
    { rewrite <- !app_assoc. done. }
    rewrite <- !app_assoc in E. exists p'.
    replace (len (pre ++ enc k) + len (enc v)) with (len (pre ++ enc k ++ enc v))
      by (rewrite !len_app; lia).
    rewrite E.
    rewrite !len_app. do 4 f_equal; lia.
Qed.
End DecodeEncode.

Lemma dec_value_initial limits fuel depth pre initial post items :
  depth <= max_metadata_depth limits ->
  items + 1 <= max_container_items limits -> items + 1 <= U64_MAX ->
  let input := pre ++ initial :: post in
  dec_value input limits (S fuel) depth (mkDecoder (len pre) items)
  = dec_item input limits (dec_value input limits fuel (depth + 1))
      (N.shiftr (N_of_byte initial) 5) (N.land (N_of_byte initial) 0x1f)
      (mkDecoder (len pre + 1) (items + 1)).
Proof.
  intros H1 H2 H3. cbn [dec_value dec_items dec_offset].
  rewrite (proj2 (N.ltb_ge (max_metadata_depth limits) depth)) by done.
  rewrite checked_add_fits by done. cbn [negb ok_or].
  rewrite (proj2 (N.ltb_ge (max_container_items limits) (items + 1))) by done. cbn [negb].
  by rewrite dec_byte_app.
Qed.

(** The head of [enc v], its body, and the dispatch on its major type. *)
Lemma dec_value_head limits fuel depth major n body pre post items :
  major < 8 -> n <= U64_MAX ->
  depth <= max_metadata_depth limits ->
  items + 1 <= max_container_items limits -> max_container_items limits <= U64_MAX ->
  let input := pre ++ (encode_head major n [] ++ body) ++ post in
  let head := encode_head major n [] in
  len input <= U64_MAX ->
  exists additional,
  dec_value input limits (S fuel) depth (mkDecoder (len pre) items)
  = dec_item input limits (dec_value input limits fuel (depth + 1)) major additional
      (mkDecoder (len pre + 1) (items + 1)) /\
  dec_argument input additional (mkDecoder (len pre + 1) (items + 1))
  = Ok (n, mkDecoder (len (pre ++ head)) (items + 1)).
Proof.
  intros Hm Hn Hd Hi Hu input head Hl. subst input head.
  destruct (dec_argument_head major n Hm Hn) as (initial & rest & Eh & Em & Ea).
  rewrite Eh in *. exists (N.land (N_of_byte initial) 0x1f).
  specialize (Ea pre (body ++ post) (items + 1)).
  rewrite <- app_assoc in *. rewrite len_app. split; [|by apply Ea].
  rewrite <- Em. apply dec_value_initial; lia.
Qed.

Section DecodeComplete.
#[local] Arguments dec_value : simpl never.

Ltac open_head major n body :=
match goal with
| |- dec_value (?pre ++ _ ++ ?post) ?limits (S ?fuel) ?depth (mkDecoder _ ?items) = _ =>
    let E := fresh "E" in let Ea := fresh "Ea" in let additional := fresh "additional" in
    destruct (dec_value_head limits fuel depth major n body pre post items)
      as (additional & E & Ea);
    [lia|done|lia|lia|done|done|];
    rewrite E; unfold dec_item; cbn [N.eqb Pos.eqb]; rewrite Ea
end.

Lemma enc_Bytes b : len b <= U64_MAX -> enc (Bytes b) = encode_head 2 (len b) [] ++ b.
Proof. intros H. unfold enc, encode_canonical. simpl. by rewrite try_u64_fits. Qed.

Lemma enc_Text s :
len (as_bytes s) <= U64_MAX -> enc (Text s) = encode_head 3 (len (as_bytes s)) [] ++ as_bytes s.
Proof. intros H. unfold enc, encode_canonical. simpl. by rewrite try_u64_fits. Qed.

Lemma enc_Array l :
encodes (Array l) ->
Forall encodes l /\ enc (Array l) = encode_head 4 (len l) [] ++ concat (enc <$> l).
Proof.
intros H. pose proof (encodes_enc _ H) as E.
by apply encode_Array in E; [|apply encodes_Array_len].
Qed.

Lemma enc_Map l :
encodes (Map l) ->
Forall (fun kv => encodes kv.1 /\ encodes kv.2) l /\ Sorted key_lt (sort_entries l) /\
enc (Map l) = encode_head 5 (len l) [] ++ concat ((fun kv => enc kv.1 ++ enc kv.2) <$> sort_entries l).
Proof.
intros H. pose proof (encodes_enc _ H) as E.
by apply encode_Map in E; [|apply encodes_Map_len].
Qed.

Lemma encodes_Bytes_len b : encodes (Bytes b) -> len b <= U64_MAX.
Proof. intros [x H]. unfold encode_canonical in H. simpl in H. step_result H. by option_facts. Qed.

Lemma encodes_Text_len s : encodes (Text s) -> len (as_bytes s) <= U64_MAX.
Proof. intros [x H]. unfold encode_canonical in H. simpl in H. step_result H. by option_facts. Qed.

Lemma dec_value_complete limits v :
max_container_items limits <= U64_MAX ->
encodes v -> value_fits limits v = true ->
forall fuel depth,
  vheight v < N.of_nat fuel -> depth + vheight v <= max_metadata_depth limits ->
  reads_back limits fuel depth v.
Proof.
intros Hu.
induction v as [n|b|s|l IH|l IH|b|] using Value_ind; intros He Hf fuel depth Hfu Hd;
  (split; [exact He|]); intros pre post items Hi Hl;
  (destruct fuel as [|fuel]; [lia|]).
- simpl in Hf, Hd, Hi. bool_facts. change (enc (Unsigned n)) with (encode_head 0 n []) in *.
  rewrite <- (app_nil_r (encode_head 0 n [])) in *. open_head 0 n (@nil byte).
  by rewrite app_nil_r, len_app.
- pose proof (encodes_Bytes_len b He) as Hb. simpl in Hf, Hd, Hi. bool_facts.
  rewrite enc_Bytes in * by done. open_head 2 (len b) b.
  rewrite (proj2 (N.ltb_ge _ _)) by done. cbn [negb]. rewrite dec_bytes_fixed by done.
  rewrite <- app_assoc in *. rewrite (app_assoc pre) in *.
  rewrite dec_fixed_app by done. rewrite !len_app. simpl. do 3 f_equal. lia.
- pose proof (encodes_Text_len s He) as Hb. simpl in Hf, Hd, Hi. bool_facts.
  rewrite enc_Text in * by done. open_head 3 (len (as_bytes s)) (as_bytes s).
  rewrite (proj2 (N.ltb_ge _ _)) by done. cbn [negb]. rewrite dec_bytes_fixed by done.
  rewrite <- app_assoc in *. rewrite (app_assoc pre) in *.
  rewrite dec_fixed_app by done.
  match goal with E : valid_utf8 _ = true |- _ => rewrite E end.
  rewrite from_as_bytes, !len_app. simpl. do 3 f_equal. lia.
- pose proof (encodes_Array_len l He) as Hb. destruct (enc_Array l He) as [Hle E0].
  rewrite E0 in *.
  assert (Hsum : vitems (Array l) = 1 + items_sum l) by done. rewrite Hsum in *.
  pose proof (len_le_items_sum l).
  open_head 4 (len l) (concat (enc <$> l)).
  unfold check_container_length. rewrite (proj2 (N.ltb_ge _ _)) by lia. cbn [negb].
  rewrite try_u64_fits by done. cbn [ok_or]. rewrite len_to_nat.
  assert (Hrb : Forall (reads_back limits fuel (depth + 1)) l).
  { assert (Hh : vheight (Array l) <= vheight (Array l)) by lia.
    apply vheight_Array_Forall in Hh. simpl in Hf.
    rewrite Forall_forall in *. rewrite forallb_forall in Hf. intros v Hv.
    specialize (Hh v Hv). apply IH; [done|by apply Hle|by apply Hf, list_elem_of_In|lia|lia]. }
  rewrite <- app_assoc in *. rewrite (app_assoc pre) in *.
  rewrite (reads_back_list _ _ _ _ Hrb); [|lia|done].
  rewrite !len_app. do 3 f_equal; lia.
- pose proof (encodes_Map_len l He) as Hb. destruct (enc_Map l He) as (Hle & Hs & E0).
  rewrite E0 in *.
  assert (Hsum : vitems (Map l) = 1 + pairs_sum (sort_entries l))
    by (by rewrite (pairs_sum_Permutation _ _ (sort_entries_Permutation l))).
  rewrite Hsum in *.
  pose proof (len_le_pairs_sum (sort_entries l)). rewrite len_sort_entries in *.
  set (body := concat _) in *. open_head 5 (len l) body.
  unfold check_container_length. rewrite (proj2 (N.ltb_ge _ _)) by lia. cbn [negb].
  rewrite try_u64_fits by done. cbn [ok_or].
  rewrite <- (len_sort_entries l), len_to_nat.
  assert (Hrb : Forall (fun kv => reads_back limits fuel (depth + 1) kv.1 /\
                                  reads_back limits fuel (depth + 1) kv.2) (sort_entries l)).
  { rewrite (sort_entries_Permutation l).
    assert (Hh : vheight (Map l) <= vheight (Map l)) by lia.
    apply vheight_Map_Forall in Hh. simpl in Hf.
    rewrite Forall_forall in *. rewrite forallb_forall in Hf. intros kv Hv.
    specialize (Hh kv Hv). specialize (Hle kv Hv). destruct (IH kv Hv) as [IH1 IH2].
    apply list_elem_of_In in Hv. specialize (Hf kv Hv). bool_facts.
    split; [apply IH1|apply IH2]; (done || lia || tauto). }
  rewrite <- app_assoc in *. rewrite (app_assoc pre) in *.
  rewrite <- (len_sort_entries l) in *.
  destruct (reads_back_map _ _ _ _ Hrb Hs None (pre ++ encode_head 5 (len (sort_entries l)) []) post
              (items + 1)) as [p' Em]; [done|lia|done|].
  fold body in Em. rewrite Em. rewrite canon_Map, !len_app. simpl. do 3 f_equal; lia.
- simpl in Hi, Hd.
  destruct b; [change (enc (Bool true)) with [byte_of_N 0xf5] in *
              |change (enc (Bool false)) with [byte_of_N 0xf4] in *];
    change ([?x] ++ post) with (x :: post); rewrite dec_value_initial by lia; reflexivity.
- simpl in Hi, Hd. change (enc Null) with [byte_of_N 0xf6] in *.
  change ([?x] ++ post) with (x :: post). rewrite dec_value_initial by lia. reflexivity.
Qed.
End DecodeComplete.

(** ** Accepted input is encoder output *)

Lemma slice_empty {A} (l : list A) a : slice l a a = [].
Proof. unfold slice. by rewrite N.sub_diag. Qed.

Lemma repeat_result_length {E A S} (f : S -> result E (A * S)) n s xs s' :
  repeat_result f n s = Ok (xs, s') -> length xs = n.
Proof.
  revert s xs. induction n as [|n IH]; simpl; intros s xs H; [by injection H as <- <-|].
  destruct (f s) as [[x s1]|]; [|done].
  destruct (repeat_result f n s1) as [[xs1 s2]|] eqn:Hr; [|done].
  injection H as <- <-. simpl. f_equal. by eapply IH.
Qed.

Section DecodeSound.
Context (input : bytes) (limits : Limits).

(** Between [d] and [d'] the decoder read exactly the bytes [b], [k] items. *)
Definition advances (d d' : Decoder) (b : bytes) (k : N) : Prop :=
  dec_offset d <= dec_offset d' /\ dec_offset d' <= len input /\
  slice input (dec_offset d) (dec_offset d') = b /\
  dec_items d' = dec_items d + k /\ dec_items d' <= max_container_items limits.

Definition read_ok (depth : N) (d : Decoder) (v : Value) (d' : Decoder) : Prop :=
  encodes v /\ advances d d' (enc v) (vitems v) /\
  value_fits limits v = true /\ canon v = v /\
  depth + vheight v <= max_metadata_depth limits.

Lemma advances_refl d :
  dec_offset d <= len input -> dec_items d <= max_container_items limits -> advances d d [] 0.
Proof. intros H1 H2. unfold advances. rewrite slice_empty. split_and!; (done || lia). Qed.

Lemma advances_trans d1 d2 d3 b1 b2 k1 k2 :
  advances d1 d2 b1 k1 -> advances d2 d3 b2 k2 -> advances d1 d3 (b1 ++ b2) (k1 + k2).
Proof.
  intros (?&?&<-&?&?) (?&?&<-&?&?). unfold advances.
  rewrite slice_join by lia. split_and!; (done || lia).
Qed.

Definition sound_reader (depth : N) (f : Decoder -> R (Value * Decoder)) : Prop :=
  forall d v d', f d = Ok (v, d') -> dec_offset d <= len input -> read_ok depth d v d'.

Lemma sound_list depth f n d l d' :
  sound_reader depth f -> repeat_result f n d = Ok (l, d') ->
  dec_offset d <= len input -> dec_items d <= max_container_items limits ->
  Forall encodes l /\ advances d d' (concat (enc <$> l)) (items_sum l) /\
  forallb (value_fits limits) l = true /\ canon <$> l = l /\
  Forall (fun v => depth + vheight v <= max_metadata_depth limits) l.
Proof.
  intros Hf. revert d l. induction n as [|n IH]; simpl; intros d l H Ho Hi.
  - injection H as <- <-. split_and!; try done. by apply advances_refl.
  - destruct (f d) as [[v d1]|] eqn:E1; [|done].
    destruct (repeat_result f n d1) as [[l1 d2]|] eqn:E2; [|done].
    injection H as <- <-.
    destruct (Hf _ _ _ E1 Ho) as (He&Ha&Hv&Hc&Hd).
    destruct (IH _ _ E2) as (He'&Ha'&Hv'&Hc'&Hd'); [apply Ha..|].
    split_and!.
    + by constructor.
    + csimpl. by apply (advances_trans d d1 d2).
    + simpl. by rewrite Hv, Hv'.
    + csimpl. by rewrite Hc, Hc'.
    + by constructor.
Qed.

Lemma sound_map depth f n previous d l previous' d' :
  sound_reader depth f ->
  repeat_result (dec_map_entry f) n (previous, d) = Ok (l, (previous', d')) ->
  dec_offset d <= len input -> dec_items d <= max_container_items limits ->
  Forall (fun kv => encodes kv.1 /\ encodes kv.2) l /\
  advances d d' (concat ((fun kv => enc kv.1 ++ enc kv.2) <$> l)) (pairs_sum l) /\
  forallb (fun kv => value_fits limits kv.1 && value_fits limits kv.2) l = true /\
  canon_pair <$> l = l /\
  Forall (fun kv => depth + vheight kv.1 <= max_metadata_depth limits /\
                    depth + vheight kv.2 <= max_metadata_depth limits) l /\
  Sorted key_lt l /\
  match previous, l with
  | Some p, kv :: _ => compare_key_bytes p (enc kv.1) = Lt
  | _, _ => True
  end.
Proof.
  intros Hf. revert previous d l. induction n as [|n IH]; simpl; intros previous d l H Ho Hi.
  - injection H as <- <- <-. split_and!; try done; [by apply advances_refl|by destruct previous].
  - destruct (f d) as [[k d1]|] eqn:E1; [|done].
    destruct (Hf _ _ _ E1 Ho) as (He&Ha&Hv&Hc&Hd).
    rewrite (encodes_enc k He) in H.
    match type of H with context [if ?c then _ else Err _] => destruct c eqn:Hp; [|done] end.
    destruct (f d1) as [[v d2]|] eqn:E2; [|done].
    destruct (Hf _ _ _ E2) as (He2&Ha2&Hv2&Hc2&Hd2); [apply Ha|].
    destruct (repeat_result _ n _) as [[l1 [p2 d3]]|] eqn:E3; [|done].
    injection H as <- -> <-.
    destruct (IH _ _ _ E3) as (He3&Ha3&Hv3&Hc3&Hd3&Hs3&Hh3); [apply Ha2..|].
    split_and!.
    + by constructor.
    + csimpl. apply (advances_trans d d2 d3); [|done]. by apply (advances_trans d d1 d2).
    + simpl. by rewrite Hv, Hv2, Hv3.
    + csimpl. unfold canon_pair at 1. simpl. by rewrite Hc, Hc2, Hc3.
    + by constructor.
    + constructor; [done|]. destruct l1; constructor. exact Hh3.
    + destruct previous; [|done]. by apply bool_decide_eq_true in Hp.
Qed.

Lemma advances_bytes d b d1 :
  dec_offset d + len b <= len input -> d1 = mkDecoder (dec_offset d + len b) (dec_items d) ->
  slice input (dec_offset d) (dec_offset d + len b) = b ->
  dec_items d <= max_container_items limits -> advances d d1 b 0.
Proof. intros H1 -> H3 H4. unfold advances. simpl. split_and!; (done || lia). Qed.

(** A head read at [d0], its argument ending at [d2]. *)
Lemma advances_head d0 initial d2 n items :
  let d1 := mkDecoder (dec_offset d0 + 1) items in
  items = dec_items d0 + 1 -> items <= max_container_items limits ->
  dec_offset d0 < len input ->
  slice input (dec_offset d0) (dec_offset d0 + 1) = [initial] ->
  dec_argument input (N.land (N_of_byte initial) 0x1f) d1 = Ok (n, d2) ->
  n <= U64_MAX /\ advances d0 d2 (encode_head (N.shiftr (N_of_byte initial) 5) n []) 1.
Proof.
  intros d1 -> Hi Ho Hs Ha. destruct (head_byte_split initial) as (H1&H2&H3).
  destruct (dec_argument_Ok _ _ _ _ _ _ Ha H1 H2) as (Hn&Hit&Hle&Hle2&E); [simpl; lia|].
  split; [done|]. subst d1. simpl in *. rewrite E, H3. unfold advances.
  rewrite <- (slice_join input _ (dec_offset d0 + 1)), Hs by lia.
  split_and!; (done || lia).
Qed.

(** The three simple values of major type 7. *)
Lemma simple_sound depth d0 initial items v d' :
  let additional := N.land (N_of_byte initial) 0x1f in
  let d1 := mkDecoder (dec_offset d0 + 1) items in
  items = dec_items d0 + 1 -> items <= max_container_items limits ->
  dec_offset d0 < len input -> depth <= max_metadata_depth limits ->
  slice input (dec_offset d0) (dec_offset d0 + 1) = [initial] ->
  byte_of_N (N.lor (N.shiftl 7 5) additional) = initial ->
  (if additional =? 20 then Ok (Bool false, d1)
   else if additional =? 21 then Ok (Bool true, d1)
   else if additional =? 22 then Ok (Null, d1)
   else Err (NonCanonicalMetadata "unsupported CBOR simple or floating-point value"))
  = Ok (v, d') ->
  read_ok depth d0 v d'.
Proof.
  intros additional d1 -> Hi Ho Hd Hs Hb H.
  assert (Hcase : exists c, v = c /\ d' = d1 /\ enc c = [initial] /\ c ∈ [Bool false; Bool true; Null]).
  { revert Hb H. destruct (N.eqb_spec additional 20) as [->|];
      [|destruct (N.eqb_spec additional 21) as [->|];
      [|destruct (N.eqb_spec additional 22) as [->|]; [|done]]];
      intros <- [= <- <-]; eexists; (split_and!; [done|done|reflexivity|set_solver]). }
  destruct Hcase as (c & -> & -> & E & Hin). unfold read_ok. rewrite E.
  assert (Hadv : advances d0 d1 [initial] 1).
  { unfold advances. simpl. split_and!; (done || lia). }
  repeat (apply elem_of_cons in Hin as [->|Hin];
    [simpl; split_and!; (done || lia || by eexists)|]). by apply elem_of_nil in Hin.
Qed.

Lemma dec_item_sound fuel depth d0 initial items v d' :
  (forall depth, sound_reader depth (dec_value input limits fuel depth)) ->
  let d1 := mkDecoder (dec_offset d0 + 1) items in
  items = dec_items d0 + 1 -> items <= max_container_items limits ->
  dec_offset d0 < len input -> depth <= max_metadata_depth limits ->
  slice input (dec_offset d0) (dec_offset d0 + 1) = [initial] ->
  dec_item input limits (dec_value input limits fuel (depth + 1))
    (N.shiftr (N_of_byte initial) 5) (N.land (N_of_byte initial) 0x1f) d1 = Ok (v, d') ->
  read_ok depth d0 v d'.
Proof.
  intros Hf d1 Hit Hi Ho Hd Hs H. unfold dec_item in H.
  destruct (head_byte_split initial) as (_&_&Hsplit).
  pose proof (fun n d2 => advances_head d0 initial d2 n items Hit Hi Ho Hs) as Hhead.
  fold d1 in Hhead.
  destruct (dec_argument input (N.land (N_of_byte initial) 31) d1) as [[n d2]|] eqn:Earg.
  1: destruct (Hhead n d2 eq_refl) as [Hn Hadv].
  all: destruct (N.eqb_spec (N.shiftr (N_of_byte initial) 5) 0) as [M|_];
    [|destruct (N.eqb_spec (N.shiftr (N_of_byte initial) 5) 2) as [M|_];
    [|destruct (N.eqb_spec (N.shiftr (N_of_byte initial) 5) 3) as [M|_];
    [|destruct (N.eqb_spec (N.shiftr (N_of_byte initial) 5) 4) as [M|_];
    [|destruct (N.eqb_spec (N.shiftr (N_of_byte initial) 5) 5) as [M|_];
    [|destruct (N.eqb_spec (N.shiftr (N_of_byte initial) 5) 7) as [M|_]; [|done]]]]]];
    try done; rewrite ?M in *.
  - injection H as <- <-. unfold read_ok. simpl. rewrite (proj2 (N.leb_le _ _)) by done.
    split_and!; (done || lia || by eexists).
  - step_result H. bool_facts. match goal with p : (bytes * Decoder)%type |- _ => destruct p as [b d3] end. step_result H. injection H as <- <-.
    match goal with E : dec_bytes _ _ _ _ = Ok _ |- _ =>
      apply dec_bytes_Ok in E as (E1&E2&E3&<-) end.
    assert (Hb : len b <= U64_MAX) by done.
    unfold read_ok. rewrite enc_Bytes by done. simpl. rewrite (proj2 (N.leb_le _ _)) by done.
    split_and!; try (done || lia).
    + eexists. unfold encode_canonical. simpl. by rewrite try_u64_fits.
    + apply (advances_trans d0 d2 d3 _ _ 1 0); [done|]. apply advances_bytes; (done || apply Hadv).
  - step_result H. bool_facts. match goal with p : (bytes * Decoder)%type |- _ => destruct p as [b d3] end. step_result H. injection H as <- <-.
    match goal with E : dec_bytes _ _ _ _ = Ok _ |- _ =>
      apply dec_bytes_Ok in E as (E1&E2&E3&<-) end.
    unfold read_ok. rewrite enc_Text by (by rewrite as_from_bytes). simpl.
    rewrite !as_from_bytes. rewrite (proj2 (N.leb_le _ _)) by done.
    split_and!; try (done || lia).
    + eexists. unfold encode_canonical. simpl. by rewrite as_from_bytes, try_u64_fits.
    + apply (advances_trans d0 d2 d3 _ _ 1 0); [done|]. apply advances_bytes; (done || apply Hadv).
  - step_result H. bool_facts. match goal with p : (list Value * Decoder)%type |- _ => destruct p as [l d3] end. injection H as <- <-. option_facts.
    match goal with E : repeat_result _ _ _ = Ok _ |- _ =>
      pose proof (repeat_result_length _ _ _ _ _ E) as Hlen;
      destruct (sound_list (depth + 1) _ _ _ _ _ (Hf (depth + 1)) E) as (He&Ha&Hv&Hc&Hh);
      [apply Hadv..|] end.
    assert (Hl : len l = n) by (unfold len; lia). subst n.
    assert (Hen : encodes (Array l)) by (eexists; by apply encode_Array).
    destruct (enc_Array l Hen) as [_ E0]. unfold read_ok. rewrite E0.
    split_and!; [done| |done|by rewrite canon_Array, Hc|].
    + by apply (advances_trans d0 d2 d3).
    + destruct (N.le_gt_cases (depth + vheight (Array l)) (max_metadata_depth limits)); [done|].
      assert (vheight (Array l) <= max_metadata_depth limits - depth); [|lia].
      apply vheight_Array_Forall. eapply Forall_impl; [exact Hh|]. simpl. intros; lia.
  - step_result H. bool_facts. match goal with p : (list (Value * Value) * _)%type |- _ => destruct p as [l [p3 d3]] end. injection H as <- <-. option_facts.
    match goal with E : repeat_result _ _ _ = Ok _ |- _ =>
      pose proof (repeat_result_length _ _ _ _ _ E) as Hlen;
      destruct (sound_map (depth + 1) _ _ _ _ _ _ _ (Hf (depth + 1)) E) as (He&Ha&Hv&Hc&Hh&Hso&_);
      [apply Hadv..|] end.
    assert (Hl : len l = n) by (unfold len; lia). subst n.
    assert (Hen : encodes (Map l)).
    { eexists. apply encode_Map; [done|]. rewrite (sort_entries_id l) by done. by split_and!. }
    destruct (enc_Map l Hen) as (_&_&E0). rewrite (sort_entries_id l) in E0 by done.
    unfold read_ok. rewrite E0.
    split_and!; [done| |done|by rewrite canon_Map, (sort_entries_id l), Hc|].
    + by apply (advances_trans d0 d2 d3).
    + destruct (N.le_gt_cases (depth + vheight (Map l)) (max_metadata_depth limits)); [done|].
      assert (vheight (Map l) <= max_metadata_depth limits - depth); [|lia].
      apply vheight_Map_Forall. eapply Forall_impl; [exact Hh|]. simpl. intros; lia.
  - by apply (simple_sound depth d0 initial items).
  - by apply (simple_sound depth d0 initial items).
Qed.

Lemma dec_value_sound fuel depth :
  max_container_items limits <= U64_MAX ->
  sound_reader depth (dec_value input limits fuel depth).
Proof.
  intros Hu. revert depth. induction fuel as [|fuel IH]; intros depth d v d' H Ho; [done|].
  cbn [dec_value] in H. step_result H. bool_facts. option_facts.
  match goal with p : (byte * Decoder)%type |- _ => destruct p as [initial d1] end.
  match goal with E : dec_byte _ _ _ = Ok _ |- _ => apply dec_byte_Ok in E as (E1&->&E3) end.
  simpl in *. eapply (dec_item_sound fuel depth d initial); [exact IH|..]; done || lia.
Qed.
End DecodeSound.

Lemma vheight_lt_bytes v : encodes v -> vheight v < 1 + len (enc v).
Proof.
  assert (Hhead : forall m n, 1 <= len (encode_head m n [])).
  { intros. unfold encode_head. repeat case_match; rewrite app_nil_l, ?len_app, len_cons; lia. }
  induction v as [n|b|s|l IH|l IH|b|] using Value_ind; intros He; try (simpl; lia).
  - destruct (enc_Array l He) as [Hf ->]. rewrite len_app. pose proof (Hhead 4 (len l)).
    assert (vheight (Array l) <= 1 + len (concat (enc <$> l))); [|lia].
    apply vheight_Array_Forall. clear -IH Hf.
    induction IH as [|v l Hv _ IHl]; constructor; inversion Hf; subst; csimpl.
    + rewrite len_app. specialize (Hv ltac:(done)). lia.
    + eapply Forall_impl; [by apply IHl|]. simpl. intros. rewrite len_app. lia.
  - destruct (enc_Map l He) as (Hf&_&->). rewrite len_app. pose proof (Hhead 5 (len l)).
    assert (vheight (Map l) <= 1 + len (concat ((fun kv => enc kv.1 ++ enc kv.2) <$> sort_entries l)));
      [|lia].
    assert (Hp := sort_entries_Permutation l).
    apply vheight_Map_Forall. rewrite <- Hp in IH, Hf |- *. clear -IH Hf.
    revert IH Hf. generalize (sort_entries l). clear l. intros l IH Hf.
    induction IH as [|kv l [Hk Hv] _ IHl]; constructor; inversion Hf as [|? ? [H1 H2] H3]; subst; csimpl.
    + rewrite !len_app. specialize (Hk H1). specialize (Hv H2). lia.
    + eapply Forall_impl; [by apply IHl|]. simpl. intros ? [? ?]. rewrite !len_app. lia.
Qed.

(** Decoding encoder output gives the normal form. *)
Lemma decode_canonical_enc limits v :
  encodes v -> admits limits v ->
  len (enc v) <= U64_MAX -> len (enc v) <= max_metadata_bytes limits ->
  decode_canonical (enc v) limits = Ok (canon v).
Proof.
  intros He (Hv&Hh&Hi&Hu) Hl Hm. unfold decode_canonical.
  rewrite try_u64_fits by done. cbn [ok_or].
  rewrite (proj2 (N.ltb_ge _ _)) by done. cbn [negb].
  pose proof (vheight_lt_bytes v He).
  destruct (dec_value_complete limits v Hu He Hv (S (length (enc v))) 0) as [_ Hr];
    [unfold len in *; lia|lia|].
  specialize (Hr [] [] 0). rewrite app_nil_l, app_nil_r in Hr. change (len []) with 0 in Hr. rewrite Hr by (done || lia).
  rewrite N.add_0_l. simpl. by rewrite N.eqb_refl.
Qed.

(** The codec's exact acceptance condition: the decoder inverts the encoder on
    normal forms, and accepts nothing else. *)
Lemma decode_canonical_iff input limits v :
  max_container_items limits <= U64_MAX ->
  decode_canonical input limits = Ok v <->
  encode_canonical v = Ok input /\ canon v = v /\ admits limits v /\
  len input <= U64_MAX /\ len input <= max_metadata_bytes limits.
Proof.
  intros Hu. unfold decode_canonical. split.
  - intros H. step_result H. bool_facts. option_facts.
    match goal with p : (Value * Decoder)%type |- _ => destruct p as [v1 d1] end.
    step_result H. bool_facts. injection H as ->.
    match goal with E : dec_value _ _ _ _ _ = Ok _ |- _ =>
      destruct (dec_value_sound input limits _ _ Hu _ _ _ E) as (He&(_&_&Hs&Hi&Hm)&Hv&Hc&Hh);
        [simpl; lia|] end.
    simpl in *. rewrite N.add_0_l in *.
    match goal with E : dec_offset _ = len input |- _ => rewrite E in Hs end.
    rewrite slice_all in Hs. subst input.
    split_and!; try done; [by apply encodes_enc|]. unfold admits. split_and!; try done; lia.
  - intros (He&Hc&Ha&Hl&Hm). apply enc_Ok in He as [<- He].
    fold (decode_canonical (enc v) limits). rewrite decode_canonical_enc by done. by rewrite Hc.
Qed.

(** ** The recursion ends

    Every item consumes a byte, so any fuel above the bytes left gives the
    same result, errors included. *)

Section Fuel.
Context (input : bytes) (limits : Limits).

Abbreviation step := (Decoder -> R (Value * Decoder)).

(** From the offset [o] on, [f] and [g] agree and never step back. *)
Definition agree_from {A} (o : N) (f g : Decoder -> R (A * Decoder)) : Prop :=
  forall d, o <= dec_offset d -> f d = g d /\ forall v d', f d = Ok (v, d') -> dec_offset d <= dec_offset d'.

Lemma dec_byte_forward context d b d' :
  dec_byte input context d = Ok (b, d') -> dec_offset d' = dec_offset d + 1 /\ dec_offset d < len input.
Proof. intros E. by apply dec_byte_Ok in E as (?&->&?). Qed.

Lemma dec_fixed_forward n context d raw d' :
  dec_fixed input n context d = Ok (raw, d') -> dec_offset d <= dec_offset d'.
Proof. intros E. apply dec_fixed_Ok in E as (_ & -> & _). simpl. lia. Qed.

Lemma dec_bytes_forward n context d raw d' :
  dec_bytes input n context d = Ok (raw, d') -> dec_offset d <= dec_offset d'.
Proof. intros E. apply dec_bytes_Ok in E as (_ & -> & _). simpl. lia. Qed.

Lemma dec_argument_forward a d n d' :
  dec_argument input a d = Ok (n, d') -> dec_offset d <= dec_offset d'.
Proof.
  unfold dec_argument. intros E.
  repeat match type of E with (if ?c then _ else _) = _ => destruct c end; try done.
  - by injection E as _ <-.
  - destruct (dec_byte _ _ _) as [[b d1]|] eqn:Eb; [|done]. apply dec_byte_forward in Eb.
    destruct (negb _); [|done]. injection E as _ <-. lia.
  - destruct (dec_fixed _ _ _ _) as [[b d1]|] eqn:Eb; [|done]. apply dec_fixed_forward in Eb.
    destruct (negb _); [|done]. by injection E as _ <-.
  - destruct (dec_fixed _ _ _ _) as [[b d1]|] eqn:Eb; [|done]. apply dec_fixed_forward in Eb.
    destruct (negb _); [|done]. by injection E as _ <-.
  - destruct (dec_fixed _ _ _ _) as [[b d1]|] eqn:Eb; [|done]. apply dec_fixed_forward in Eb.
    destruct (negb _); [|done]. by injection E as _ <-.
Qed.

Lemma repeat_agree o (f g : step) n : agree_from o f g -> agree_from o (repeat_result f n) (repeat_result g n).
Proof.
  intros Ha. induction n as [|n IH]; intros d Hd; simpl.
  - split; [done|]. by intros v d' [= _ <-].
  - destruct (Ha d Hd) as [<- Hf]. destruct (f d) as [[x d1]|e]; [|done].
    specialize (Hf _ _ eq_refl). destruct (IH d1 ltac:(lia)) as [<- Hr].
    destruct (repeat_result f n d1) as [[xs d2]|e]; [|done]. specialize (Hr _ _ eq_refl).
    split; [done|]. intros v d' [= _ <-]. lia.
Qed.

Lemma repeat_map_agree o (f g : step) n previous d :
  agree_from o f g -> o <= dec_offset d ->
  repeat_result (dec_map_entry f) n (previous, d) = repeat_result (dec_map_entry g) n (previous, d) /\
  forall v s, repeat_result (dec_map_entry f) n (previous, d) = Ok (v, s) -> dec_offset d <= dec_offset s.2.
Proof.
  intros Ha. revert previous d. induction n as [|n IH]; intros previous d Hd; simpl.
  - split; [done|]. by intros v d' [= _ <-].
  - destruct (Ha d Hd) as [<- Hf]. destruct (f d) as [[k d1]|e]; [|done]. specialize (Hf _ _ eq_refl).
    destruct (encode_canonical k) as [kb|e]; [|done]. destruct (match previous with Some _ => _ | None => _ end); [|done].
    destruct (Ha d1 ltac:(lia)) as [<- Hg]. destruct (f d1) as [[x d2]|e]; [|done]. specialize (Hg _ _ eq_refl).
    destruct (IH (Some kb) d2 ltac:(lia)) as [<- Hr].
    destruct (repeat_result (dec_map_entry f) n (Some kb, d2)) as [[xs s]|e]; [|done]. specialize (Hr _ _ eq_refl).
    split; [done|]. intros v s' [= _ <-]. lia.
Qed.

Lemma dec_item_agree o (f g : step) major additional :
  agree_from o f g -> agree_from o (dec_item input limits f major additional) (dec_item input limits g major additional).
Proof.
  intros Ha d Hd. unfold dec_item.
  destruct (N.eqb_spec major 7) as [->|H7].
  { change (7 =? 0) with false. cbv iota. repeat case_match; try done; (split; [done|]; by intros v d' [= _ <-]). }
  destruct (dec_argument input additional d) as [[n d1]|e] eqn:E; [apply dec_argument_forward in E|by repeat case_match].
  destruct (major =? 0); [split; [done|]; by intros v d' [= _ <-]|].
  destruct (major =? 2).
  { destruct (negb _); [|done]. destruct (dec_bytes _ _ _ _) as [[b d2]|e] eqn:Eb; [|done].
    apply dec_bytes_forward in Eb. split; [done|]. intros v d' [= _ <-]. lia. }
  destruct (major =? 3).
  { destruct (negb _); [|done]. destruct (dec_bytes _ _ _ _) as [[b d2]|e] eqn:Eb; [|done].
    apply dec_bytes_forward in Eb. destruct (valid_utf8 b); [|done]. split; [done|]. intros v d' [= _ <-]. lia. }
  destruct (major =? 4).
  { destruct (check_container_length limits n); [|done]. destruct (ok_or _ _) as [k|]; [|done].
    destruct (repeat_agree o f g (N.to_nat k) Ha d1 ltac:(lia)) as [<- Hr].
    destruct (repeat_result _ _ _) as [[l d2]|]; [|done]. specialize (Hr _ _ eq_refl).
    split; [done|]. intros v d' [= _ <-]. lia. }
  destruct (major =? 5); [|done].
  destruct (check_container_length limits n); [|done]. destruct (ok_or _ _) as [k|]; [|done].
  destruct (repeat_map_agree o f g (N.to_nat k) None d1 Ha ltac:(lia)) as [<- Hr].
  destruct (repeat_result _ _ _) as [[l s]|]; [|done]. specialize (Hr _ _ eq_refl).
  split; [done|]. intros v d' [= _ <-]. lia.
Qed.

Lemma dec_value_fuel f1 f2 depth d :
  len input - dec_offset d < N.of_nat f1 -> len input - dec_offset d < N.of_nat f2 ->
  dec_value input limits f1 depth d = dec_value input limits f2 depth d /\
  forall v d', dec_value input limits f1 depth d = Ok (v, d') -> dec_offset d <= dec_offset d'.
Proof.
  revert f2 depth d. induction f1 as [|f1 IH]; intros [|f2] depth d H1 H2; [lia..|].
  cbn [dec_value]. destruct (negb _); [|done]. destruct (ok_or (checked_add _ _) _) as [items|]; [|done].
  destruct (negb _); [|done].
  destruct (dec_byte _ _ _) as [[b d1]|] eqn:Eb; [|done]. apply dec_byte_forward in Eb as [Ed Hlt].
  cbn [dec_offset] in Ed, Hlt.
  destruct (dec_item_agree (dec_offset d1) (dec_value input limits f1 (depth + 1)) (dec_value input limits f2 (depth + 1))
    (N.shiftr (N_of_byte b) 5) (N.land (N_of_byte b) 0x1f)) with (d := d1) as [E Hf]; [|done|].
  - intros d2 Hd2. apply IH; lia.
  - split; [exact E|]. intros v d' Hv. specialize (Hf v d' Hv). lia.
Qed.
End Fuel.
