(* ===== verification/Model.v ===== *)
(** [crates/ucof-core/src/model.rs]: record kinds, directory entries and the
    manifest, with their metadata form. *)

From Stdlib Require Import Strings.Byte Strings.String NArith ZArith Lia.
From stdpp Require Import base list gmap strings sorting.
From S2P Require Import Prelude Order Errors Cbor.

Local Open Scope N_scope.

(** [#[repr(u16)] enum RecordKind] *)
Inductive RecordKind : Type := Opaque | Manifest_ | Directory.

#[export] Instance RecordKind_eq_dec : EqDecision RecordKind.
Proof. solve_decision. Defined.

(** [TryFrom<u16>] and [From<RecordKind> for u16] *)
Definition kind_try_from (value : N) : R RecordKind :=
  if value =? 1 then Ok Opaque
  else if value =? 2 then Ok Manifest_
  else if value =? 3 then Ok Directory
  else Err (UnsupportedRecordKind value).

Definition u16_from_kind (kind : RecordKind) : N :=
  match kind with Opaque => 1 | Manifest_ => 2 | Directory => 3 end.

Record DirectoryEntry : Type := mkEntry {
  id : N;
  kind : RecordKind;
  offset : N;
  stored_len : N;
  logical_len : N;
}.

#[export] Instance DirectoryEntry_eq_dec : EqDecision DirectoryEntry.
Proof. solve_decision. Defined.

Definition entry_to_cbor (e : DirectoryEntry) : Value :=
  Map [
    (Text "id", Unsigned (id e));
    (Text "kind", Unsigned (u16_from_kind (kind e)));
    (Text "offset", Unsigned (offset e));
    (Text "stored_len", Unsigned (stored_len e));
    (Text "logical_len", Unsigned (logical_len e))
  ].

Record Manifest : Type := mkManifest {
  roots : list N;
  required_capabilities : list N;
  optional_capabilities : list N;
}.

#[export] Instance Manifest_eq_dec : EqDecision Manifest.
Proof. solve_decision. Defined.

(** [Manifest::new] *)
Definition manifest_new (roots : list N) : Manifest := mkManifest roots [] [].

Definition unique (values : list N) (context : string) : R unit :=
  let* _ := insert_all (fun _ => InvalidMetadataSchema context) values ∅ in Ok tt.

Definition unique_nonzero (values : list N) (context : string) : R unit :=
  check negb (bool_decide (0 ∈ values)) else InvalidMetadataSchema context in
  unique values context.

Definition validate_shape (m : Manifest) : R unit :=
  let* _ := unique_nonzero (roots m) "manifest roots" in
  let* _ := unique (required_capabilities m) "required capabilities" in
  let* _ := unique (optional_capabilities m) "optional capabilities" in
  Ok tt.

Definition manifest_to_cbor (m : Manifest) : Value :=
  Map [
    (Text "roots", Array (map Unsigned (roots m)));
    (Text "required", Array (map Unsigned (required_capabilities m)));
    (Text "optional", Array (map Unsigned (optional_capabilities m)))
  ].

(** The directory metadata built by both writers' [finish]. *)
Definition directory_to_cbor (entries : list DirectoryEntry) : Value :=
  Map [(Text "entries", Array (map entry_to_cbor entries))].

(** ** Lemmas *)

Lemma kind_try_from_u16 k : kind_try_from (u16_from_kind k) = Ok k.
Proof. by destruct k. Qed.

Lemma kind_try_from_Ok n k : kind_try_from n = Ok k <-> n = u16_from_kind k.
Proof.
  split; [|intros ->; apply kind_try_from_u16].
  unfold kind_try_from. intros H.
  destruct (N.eqb_spec n 1); [by injection H as <-|].
  destruct (N.eqb_spec n 2); [by injection H as <-|].
  destruct (N.eqb_spec n 3); [by injection H as <-|done].
Qed.

Lemma u16_from_kind_bound k : u16_from_kind k <= U16_MAX.
Proof. by destruct k. Qed.

Lemma unique_Ok l context : unique l context = Ok tt <-> NoDup l.
Proof.
  unfold unique. split.
  - intros H. step_result H. match goal with E : insert_all _ _ _ = Ok _ |- _ =>
      apply insert_all_Ok in E end. tauto.
  - intros H. destruct (insert_all _ l ∅) as [s|e] eqn:E; [done|].
    assert (X : insert_all (fun _ => InvalidMetadataSchema context) l ∅ = Ok (list_to_set l ∪ ∅)).
    { apply insert_all_Ok. split_and!; [done|set_solver|done]. } congruence.
Qed.

Definition shape_ok (m : Manifest) : Prop :=
  0 ∉ roots m /\ NoDup (roots m) /\
  NoDup (required_capabilities m) /\ NoDup (optional_capabilities m).

Lemma unique_tt l context u : unique l context = Ok u -> u = tt.
Proof. by destruct u. Qed.

Lemma validate_shape_Ok m : validate_shape m = Ok tt <-> shape_ok m.
Proof.
  unfold validate_shape, unique_nonzero, shape_ok.
  rewrite <- (unique_Ok (roots m) "manifest roots"),
    <- (unique_Ok (required_capabilities m) "required capabilities"),
    <- (unique_Ok (optional_capabilities m) "optional capabilities").
  case_bool_decide; simpl; [naive_solver|].
  repeat match goal with |- context [unique ?a ?b] => destruct (unique a b) as [[]|] end;
    naive_solver.
Qed.

(** Sizes of the metadata a manifest or a directory becomes. *)
Definition u64s (l : list N) : Prop := Forall (fun n => n <= U64_MAX) l.

Definition entry_ok (e : DirectoryEntry) : Prop :=
  id e <= U64_MAX /\ offset e <= U64_MAX /\ stored_len e <= U64_MAX /\ logical_len e <= U64_MAX.

Definition manifest_ok (m : Manifest) : Prop :=
  u64s (roots m) /\ u64s (required_capabilities m) /\ u64s (optional_capabilities m).
