(* ===== verification/Digest.v ===== *)
(** The interface of the [sha2] crate as the core uses it: one-shot
    [Sha256::digest] and the incremental [new]/[update]/[finalize], which hash
    the concatenation of the updates. The function itself is a parameter; its
    law is the fixed digest length. *)

From Stdlib Require Import Strings.Byte Strings.String NArith ZArith Lia.
From stdpp Require Import base list gmap strings sorting.
From S2P Require Import Prelude.

Local Open Scope N_scope.

Class Sha256 := sha256 : bytes -> bytes.
Class Sha256Ok (H : Sha256) : Prop := sha256_len : forall b, len (sha256 b) = 32.

(** The incremental hasher is determined by the bytes fed to it. *)
Definition Hasher : Type := bytes.
Definition hasher_new : Hasher := [].
Definition hasher_update (h : Hasher) (b : bytes) : Hasher := h ++ b.
Definition hasher_finalize `{Sha256} (h : Hasher) : bytes := sha256 h.

(** A concrete 32-byte checksum, for evaluating the models on examples. *)
Definition checksum32 (b : bytes) : bytes :=
  le_encode 32 (foldr (fun x acc => (N_of_byte x + 257 * acc + 1) mod 2 ^ 200) 0 b).

Definition example_sha : Sha256 := checksum32.

Lemma example_sha_ok : Sha256Ok example_sha.
Proof. intros b. unfold sha256, example_sha, checksum32, len. by rewrite length_le_encode. Qed.

(** A cheaper one, for inputs of many kilobytes. *)
Definition checksum4 (b : bytes) : bytes :=
  le_encode 32 (foldl (fun acc x => N.land (5 * acc + N_of_byte x + 1) 0xffffffff) 7 b).

Definition cheap_sha : Sha256 := checksum4.

Lemma cheap_sha_ok : Sha256Ok cheap_sha.
Proof. intros b. unfold sha256, cheap_sha, checksum4, len. by rewrite length_le_encode. Qed.
