(* ===== verification/Schema.v ===== *)
(** The metadata schemas of the directory and the manifest, as the readers
    check them ([crates/ucof-core/src/reader.rs]; [source.rs] and [stream.rs]
    repeat the same functions), and what a document that passes them is. *)

From Stdlib Require Import Strings.Byte Strings.String NArith ZArith Lia.
From stdpp Require Import base list gmap strings sorting.
From S2P Require Import Prelude Order Errors Cbor CborFacts Model.

Local Open Scope N_scope.

(** ** Metadata schemas *)

Definition exact_map_insert (expected : list string) (context : string)
    (m : gmap string Value) (kv : Value * Value) : R (gmap string Value) :=
  match kv.1 with
  | Text key =>
      check bool_decide (key ∈ expected) && bool_decide (m !! key = None)
        else InvalidMetadataSchema context in
      Ok (<[key := kv.2]> m)
  | _ => Err (InvalidMetadataSchema "metadata map key must be text")
  end.

(** [exact_map]: the entries of a map whose text keys are exactly [expected]. *)
Definition exact_map (value : Value) (expected : list string) (context : string)
    : R (gmap string Value) :=
  match value with
  | Map entries =>
      check length entries =? length expected else InvalidMetadataSchema context in
      fold_result (exact_map_insert expected context) entries ∅
  | _ => Err (InvalidMetadataSchema context)
  end%nat.

Definition unsigned (value : option Value) (context : string) : R N :=
  match value with
  | Some (Unsigned value) => Ok value
  | _ => Err (InvalidMetadataSchema context)
  end.

Definition unsigned_array (value : option Value) (context : string) : R (list N) :=
  match value with
  | Some (Array values) =>
      map_result (fun value =>
        match value with
        | Unsigned value => Ok value
        | _ => Err (InvalidMetadataSchema context)
        end) values
  | _ => Err (InvalidMetadataSchema context)
  end.

Definition parse_directory_entry (value : Value) : R DirectoryEntry :=
  let* map := exact_map value ["id"; "kind"; "offset"; "stored_len"; "logical_len"]
                "directory entry" in
  let* raw_kind := unsigned (map !! "kind") "directory kind" in
  let* raw_kind := ok_or (try_u16 raw_kind) (InvalidMetadataSchema "directory kind range") in
  let* id := unsigned (map !! "id") "directory id" in
  let* kind := kind_try_from raw_kind in
  let* offset := unsigned (map !! "offset") "directory offset" in
  let* stored_len := unsigned (map !! "stored_len") "directory stored length" in
  let* logical_len := unsigned (map !! "logical_len") "directory logical length" in
  Ok (mkEntry id kind offset stored_len logical_len).

Definition parse_directory (value : Value) : R (list DirectoryEntry) :=
  let* map := exact_map value ["entries"] "directory" in
  let* entries_value := ok_or (map !! "entries") (InvalidMetadataSchema "directory entries") in
  match entries_value with
  | Array entries => map_result parse_directory_entry entries
  | _ => Err (InvalidMetadataSchema "directory entries must be an array")
  end.

Definition parse_manifest (value : Value) : R Manifest :=
  let* map := exact_map value ["roots"; "required"; "optional"] "manifest" in
  let* roots := unsigned_array (map !! "roots") "manifest roots" in
  let* required := unsigned_array (map !! "required") "manifest required capabilities" in
  let* optional := unsigned_array (map !! "optional") "manifest optional capabilities" in
  let manifest := mkManifest roots required optional in
  let* _ := validate_shape manifest in
  Ok manifest.

(** ** Normal values: what the decoder returns *)

Definition normal (v : Value) : Prop := encodes v /\ canon v = v.

Lemma normal_Array l : normal (Array l) -> Forall normal l.
Proof.
  intros [He Hc]. apply enc_Array in He as [He _]. rewrite canon_Array in Hc.
  injection Hc as Hc. rewrite Forall_forall in *. intros v Hv. split; [by apply He|].
  apply list_elem_of_lookup in Hv as [i Hi].
  pose proof (f_equal (fun l => l !! i) Hc) as E. simpl in E.
  rewrite list_lookup_fmap, Hi in E. by injection E.
Qed.

Lemma normal_Map l :
  normal (Map l) -> Sorted key_lt l /\ Forall (fun kv => normal kv.1 /\ normal kv.2) l.
Proof.
  intros [He Hc]. apply enc_Map in He as (He & Hs & _). rewrite canon_Map in Hc.
  injection Hc as Hc.
  assert (Hsl : Sorted key_lt l).
  { rewrite <- Hc. apply Sorted_canon_pair; [|done].
    rewrite (sort_entries_Permutation l). eapply Forall_impl; [exact He|].
    intros kv [Hk _]. by apply enc_canon. }
  split; [done|]. rewrite (sort_entries_id _ Hsl) in Hc.
  rewrite Forall_forall in *. intros kv Hv. destruct (He kv Hv) as [H1 H2].
  apply list_elem_of_lookup in Hv as [i Hi].
  pose proof (f_equal (fun l => l !! i) Hc) as E. simpl in E.
  rewrite list_lookup_fmap, Hi in E. simpl in E. injection E as E.
  destruct kv as [k v]. unfold canon_pair in E. simpl in *. injection E as E1 E2.
  by split; split.
Qed.

Lemma decode_normal input limits v :
  max_container_items limits <= U64_MAX -> decode_canonical input limits = Ok v -> normal v.
Proof.
  intros Hu H. apply decode_canonical_iff in H as (He&Hc&_); [|done]. split; [by exists input|done].
Qed.

(** ** [exact_map] *)

Definition text_entry (kv : string * Value) : Value * Value := (Text kv.1, kv.2).

Lemma exact_map_fold entries expected context (m0 m : gmap string Value) :
  fold_result (exact_map_insert expected context) entries m0 = Ok m ->
  exists kvs : list (string * Value),
    entries = text_entry <$> kvs /\ NoDup kvs.*1 /\
    (forall k, k ∈ kvs.*1 -> k ∈ expected /\ m0 !! k = None) /\
    m = list_to_map kvs ∪ m0.
Proof.
  revert m0. induction entries as [|[key v] entries IH]; cbn [fold_result]; intros m0 H.
  - injection H as <-. exists []. split_and!; [done|apply NoDup_nil_2|set_solver|symmetry; apply map_empty_union].
  - unfold exact_map_insert in H at 1. cbn [fst snd] in H.
    destruct key as [| |key| | | |]; try discriminate. step_result H. injection Heqr as <-. bool_facts.
    apply IH in H as (kvs&->&Hn&Hk&->).
    exists ((key, v) :: kvs). csimpl. split_and!; [done| | |].
    + constructor; [|done]. intros Hin. destruct (Hk key Hin) as [_ Hl].
      by rewrite lookup_insert_eq in Hl.
    + intros k Hin. apply elem_of_cons in Hin as [->|Hin]; [done|].
      destruct (Hk k Hin) as [Hke Hkn]. split; [done|].
      destruct (decide (key = k)) as [<-|Hne]; [by rewrite lookup_insert_eq in Hkn|].
      by rewrite lookup_insert_ne in Hkn.
    + rewrite <- insert_union_l, insert_union_r; [done|].
      apply not_elem_of_list_to_map. intros Hin.
      destruct (Hk key Hin) as [_ Hl]. by rewrite lookup_insert_eq in Hl.
Qed.

(** A map accepted against [expected] has its keys, in encoding order. *)
Definition key_cmp : string -> string -> comparison :=
  cmp_on (fun k => enc (Text k)) compare_key_bytes.

#[export] Instance key_cmp_total : TotalCmp key_cmp.
Proof. apply cmp_on_total, _. Qed.

Lemma exact_map_normal v expected context m :
  NoDup expected -> normal v -> exact_map v expected context = Ok m ->
  exists kvs : list (string * Value),
    v = Map (text_entry <$> kvs) /\ kvs.*1 = sort_by key_cmp expected /\ m = list_to_map kvs.
Proof.
  intros Hne Hv H. destruct v as [| | | |entries| |]; try discriminate. unfold exact_map in H.
  destruct (length entries =? length expected)%nat eqn:El; [|done].
  apply Nat.eqb_eq in El.
  apply exact_map_fold in H as (kvs & -> & Hn & Hk & ->). rewrite length_fmap in El.
  exists kvs. split_and!; [done| |by rewrite map_union_empty].
  apply normal_Map in Hv as [Hs _].
  assert (Hp : kvs.*1 ≡ₚ expected).
  { apply submseteq_length_Permutation.
    - apply NoDup_submseteq; [done|]. intros k Hin. by apply Hk.
    - rewrite length_fmap. lia. }
  assert (Hss : StronglySorted (cmp_lt key_cmp) kvs.*1).
  { apply Sorted_StronglySorted; [apply _|].
    clear -Hs. induction kvs as [|[k v] kvs IH]; csimpl in *; [constructor|].
    inversion Hs as [|? ? Hs' Hh]; subst. constructor; [by apply IH|].
    destruct kvs as [|[k' v'] kvs]; csimpl in *; constructor. by inversion Hh. }
  assert (E : sort_by key_cmp kvs.*1 = kvs.*1).
  { apply sort_by_sorted_id. eapply Sorted_mono; [|by apply StronglySorted_Sorted].
    intros x y Hxy. unfold cmp_lt, cmp_le in *. congruence. }
  rewrite <- (sort_by_Permutation_strict key_cmp kvs.*1 expected Hp); by rewrite E.
Qed.

(** ** The three schemas, exactly *)

Lemma map_result_unsigned context l ns :
  map_result (fun value =>
    match value with Unsigned value => Ok value | _ => Err (InvalidMetadataSchema context) end) l
  = Ok ns <-> l = map Unsigned ns.
Proof.
  rewrite map_result_Forall2. split.
  - induction 1 as [|x y l ns Hx _ ->]; [done|]. simpl. f_equal.
    destruct x; try discriminate. by injection Hx as ->.
  - intros ->. induction ns; simpl; by constructor.
Qed.

Lemma unsigned_Ok v context n : unsigned (Some v) context = Ok n <-> v = Unsigned n.
Proof. destruct v; simpl; split; congruence. Qed.

Lemma unsigned_array_Ok v context ns :
  unsigned_array (Some v) context = Ok ns <-> v = Array (map Unsigned ns).
Proof.
  destruct v as [| | |l| | |]; simpl; try (split; congruence).
  rewrite map_result_unsigned. split; congruence.
Qed.

(** Split a list of keyed values whose keys are known. *)
Ltac split_keys H :=
  match type of H with _ = ?rhs =>
    let r := eval vm_compute in rhs in change rhs with r in H end;
  repeat match type of H with
  | ?kvs.*1 = _ :: _ =>
      let k := fresh "k" in let v := fresh "v" in let rest := fresh "rest" in
      destruct kvs as [|[k v] rest]; [discriminate H|];
      rewrite fmap_cons in H; simpl in H; injection H as -> H
  | ?kvs.*1 = [] => apply fmap_nil_inv in H; subst kvs
  end.

Lemma parse_directory_entry_Ok v e :
  normal v -> parse_directory_entry v = Ok e <-> v = entry_to_cbor e.
Proof.
  intros Hv. split.
  - unfold parse_directory_entry. intros H.
    destruct (exact_map _ _ _) as [m|] eqn:Em; [|done].
    apply exact_map_normal in Em as (kvs & -> & Hk & ->); [|decide_now|done].
    clear Hv. split_keys Hk.
    repeat match type of H with context [?m !! ?k] =>
      let r := eval vm_compute in (m !! k) in change (m !! k) with r in H end.
    step_result H. injection H as <-. option_facts.
    repeat match goal with
    | E : unsigned _ _ = Ok _ |- _ => apply unsigned_Ok in E; subst
    | E : kind_try_from _ = Ok _ |- _ => apply kind_try_from_Ok in E; subst
    end.
    reflexivity.
  - intros ->. destruct e as [i k o s l]. by destruct k.
Qed.

Lemma normal_entry e : normal (entry_to_cbor e).
Proof. split; [by eexists|]. by destruct e. Qed.

Lemma encodes_unsigned n : encodes (Unsigned n).
Proof. by eexists. Qed.

Lemma encodes_unsigned_array l : len l <= U64_MAX -> encodes (Array (map Unsigned l)).
Proof.
  intros H. eexists. apply encode_Array; [unfold len; by rewrite length_map|].
  split; [|done]. induction l; simpl; constructor; [apply encodes_unsigned|].
  apply IHl. rewrite len_cons in H. lia.
Qed.

Lemma canon_unsigned_array l : canon (Array (map Unsigned l)) = Array (map Unsigned l).
Proof. rewrite canon_Array. f_equal. induction l as [|n l IH]; csimpl; [done|]. by rewrite IH. Qed.

Lemma encodes_directory es : len es <= U64_MAX -> encodes (directory_to_cbor es).
Proof.
  intros H.
  assert (Ha : encodes (Array (map entry_to_cbor es))).
  { eexists. apply encode_Array; [unfold len; by rewrite length_map|]. split; [|done].
    apply Forall_forall. intros v Hv. apply list_elem_of_fmap in Hv as (e&->&_). apply normal_entry. }
  eexists. apply encode_Map; [done|]. split_and!; [|by repeat constructor|done].
  constructor; [|done]. split; [by eexists|done].
Qed.

Lemma canon_directory es : canon (directory_to_cbor es) = directory_to_cbor es.
Proof.
  unfold directory_to_cbor. rewrite canon_Map. unfold sort_entries. cbn [sort_by insert_by fmap list_fmap].
  unfold canon_pair. cbn [fst snd]. rewrite canon_Array, <- list_fmap_compose.
  assert (E : (canon ∘ entry_to_cbor) <$> es = entry_to_cbor <$> es);
    [|unfold directory_to_cbor; by rewrite E].
  apply list_fmap_ext. intros i e _. apply normal_entry.
Qed.

Lemma parse_directory_Ok v es :
  normal v -> parse_directory v = Ok es <-> v = directory_to_cbor es.
Proof.
  intros Hv. split.
  - unfold parse_directory. intros H.
    destruct (exact_map _ _ _) as [m|] eqn:Em; [|done].
    apply exact_map_normal in Em as (kvs & -> & Hk & ->); [|decide_now|done].
    split_keys Hk. csimpl in H.
    match type of H with context [?m !! ?k] =>
      let r := eval vm_compute in (m !! k) in change (m !! k) with r in H end.
    simpl in H. destruct v as [| | |l| | |]; try discriminate.
    unfold directory_to_cbor. csimpl. unfold text_entry. do 4 f_equal. simpl.
    apply normal_Map in Hv as [_ Hv]. csimpl in Hv. inversion Hv as [|? ? [_ Ha] _]; subst.
    simpl in Ha. apply normal_Array in Ha. clear Hv.
    apply map_result_Forall2 in H. f_equal. revert Ha.
    induction H as [|v e l es He _ IH]; intros Ha; [done|].
    inversion Ha; subst. simpl. f_equal; [|by apply IH].
    by apply parse_directory_entry_Ok.
  - intros ->. unfold parse_directory, directory_to_cbor.
    change (exact_map _ _ _) with (Ok (E := Error) ({["entries" := Array (map entry_to_cbor es)]} : gmap string Value)).
    simpl. apply map_result_Forall2. clear Hv.
    induction es as [|e es IH]; simpl; constructor; [|done].
    apply parse_directory_entry_Ok; [apply normal_entry|done].
Qed.

Lemma canon_manifest m :
  canon (manifest_to_cbor m) =
  Map [(Text "roots", Array (map Unsigned (roots m)));
       (Text "optional", Array (map Unsigned (optional_capabilities m)));
       (Text "required", Array (map Unsigned (required_capabilities m)))].
Proof.
  unfold manifest_to_cbor. rewrite canon_Map.
  assert (E : forall a b c,
    sort_entries [(Text "roots", a); (Text "required", b); (Text "optional", c)]
    = [(Text "roots", a); (Text "optional", c); (Text "required", b)]) by (intros; reflexivity).
  rewrite E. unfold canon_pair. cbn [fst snd fmap list_fmap]. rewrite !canon_unsigned_array. done.
Qed.

Lemma encodes_manifest m :
  len (roots m) <= U64_MAX -> len (required_capabilities m) <= U64_MAX ->
  len (optional_capabilities m) <= U64_MAX -> encodes (manifest_to_cbor m).
Proof.
  intros H1 H2 H3. eexists. apply encode_Map; [done|]. split_and!; [| |done].
  - repeat constructor; simpl; try (by eexists); by apply encodes_unsigned_array.
  - assert (E : forall a b c,
      sort_entries [(Text "roots", a); (Text "required", b); (Text "optional", c)]
      = [(Text "roots", a); (Text "optional", c); (Text "required", b)]) by (intros; reflexivity).
    rewrite E. by repeat constructor.
Qed.

Lemma parse_manifest_Ok v m :
  normal v -> parse_manifest v = Ok m <-> v = canon (manifest_to_cbor m) /\ shape_ok m.
Proof.
  intros Hv. rewrite <- validate_shape_Ok, canon_manifest. split.
  - unfold parse_manifest. intros H.
    destruct (exact_map _ _ _) as [map|] eqn:Em; [|done].
    apply exact_map_normal in Em as (kvs & -> & Hk & ->); [|decide_now|done].
    clear Hv. split_keys Hk. csimpl in H.
    repeat match type of H with context [?m !! ?k] =>
      let r := eval vm_compute in (m !! k) in change (m !! k) with r in H end.
    step_result H. injection H as <-. simpl.
    repeat match goal with E : unsigned_array _ _ = Ok _ |- _ => apply unsigned_array_Ok in E; subst end.
    split; [done|]. match goal with E : validate_shape _ = Ok ?u |- _ => by destruct u end.
  - intros [-> Hs]. unfold parse_manifest.
    set (a := Array (map Unsigned (roots m))). set (b := Array (map Unsigned (optional_capabilities m))).
    set (c := Array (map Unsigned (required_capabilities m))).
    assert (E : exists g, exact_map (Map [(Text "roots", a); (Text "optional", b); (Text "required", c)])
      ["roots"; "required"; "optional"] "manifest" = Ok g /\
      g !! "roots" = Some a /\ g !! "required" = Some c /\ g !! "optional" = Some b).
    { eexists. split; [reflexivity|]. done. }
    destruct E as (g & -> & -> & -> & ->).
    unfold a, b, c. do 3 (rewrite (proj2 (unsigned_array_Ok _ _ _) eq_refl); cbn iota).
    destruct m as [r q o]. simpl in *. by rewrite Hs.
Qed.
