(* ===== verification/Machine.v ===== *)
(** Stateful components. A method taking [&mut self] and returning a [Result]
    is a function from the state to the result and the state after it; the
    state is kept on errors too, since callers can observe it. Also here: the
    traits of [std::io] and of [source.rs] the readers and writers are generic
    over, and loops that a counter bounds. *)

From Stdlib Require Import Strings.Byte Strings.String NArith ZArith Lia.
From stdpp Require Import base list gmap strings sorting.
From S2P Require Import Prelude Errors.

Local Open Scope N_scope.

(** ** The state and error monad *)

Definition SE (St A : Type) : Type := St -> R A * St.

Definition se_ret {St A} (a : A) : SE St A := fun s => (Ok a, s).
Definition se_err {St A} (e : Error) : SE St A := fun s => (Err e, s).
Definition se_lift {St A} (r : R A) : SE St A := fun s => (r, s).
Definition se_get {St} : SE St St := fun s => (Ok s, s).
Definition se_modify {St} (f : St -> St) : SE St unit := fun s => (Ok tt, f s).
Definition se_bind {St A B} (m : SE St A) (k : A -> SE St B) : SE St B :=
  fun s => match m s with
  | (Ok a, s') => k a s'
  | (Err e, s') => (Err e, s')
  end.

(** [do* x := m in k] is [let x = self.m()?; k]; [guard c else e] is
    [if !c { return Err(e) }]. *)
Notation "'do*' x ':=' m 'in' k" := (se_bind m (fun x => k))
  (at level 10, x pattern, m at level 100, k at level 200,
   format "'[v' 'do*'  x  ':='  m  'in' '/' k ']'") : ucof_scope.
Definition guard {St} (c : bool) (e : Error) : SE St unit :=
  se_lift (if c then Ok tt else Err e).

(** [for x in xs { body(x)?; }] *)
Fixpoint se_iter {St A T} (f : T -> A -> SE St T) (l : list A) (t : T) : SE St T :=
  match l with
  | [] => se_ret t
  | x :: l => do* t := f t x in se_iter f l t
  end.

Lemma se_bind_Ok {St A B} (m : SE St A) (k : A -> SE St B) s b s' :
  se_bind m k s = (Ok b, s') <-> exists a s1, m s = (Ok a, s1) /\ k a s1 = (Ok b, s').
Proof.
  unfold se_bind. destruct (m s) as [[a|e] s1]; split.
  - eauto.
  - by intros (? & ? & [= <- <-] & ?).
  - done.
  - by intros (? & ? & [=] & _).
Qed.

Lemma se_lift_Ok {St A} (r : R A) (s : St) a s' : se_lift r s = (Ok a, s') <-> r = Ok a /\ s' = s.
Proof. unfold se_lift. naive_solver. Qed.

Lemma guard_Ok {St} c e (s : St) u s' : guard c e s = (Ok u, s') <-> c = true /\ s' = s.
Proof. unfold guard, se_lift. destruct c, u; naive_solver. Qed.

(** Case analysis on the steps of a successful run. *)
Ltac step_machine H :=
  lazymatch type of H with
  | se_bind _ _ _ = (Ok _, _) =>
      let E := fresh "Hm" in
      apply se_bind_Ok in H as (? & ? & E & H); step_machine E; step_machine H
  | se_lift _ _ = (Ok _, _) => apply se_lift_Ok in H as [H ->]
  | guard _ _ _ = (Ok _, _) => apply guard_Ok in H as [H ->]
  | se_get _ = (Ok _, _) => injection H as <- <-
  | se_ret _ _ = (Ok _, _) => injection H as <- <-
  | se_modify _ _ = (Ok _, _) => injection H as <- <-
  | (let 'pair _ _ := ?p in _) _ = (Ok _, _) => destruct p; step_machine H
  | _ => idtac
  end.

(** *** Invariants *)

(** From a state satisfying [I], [m] ends in one satisfying [I] when it
    succeeds and [E] when it fails. *)
Definition keeps {St A} (I E : St -> Prop) (m : SE St A) : Prop :=
  forall s, I s -> match m s with (Ok _, s') => I s' | (Err _, s') => E s' end.

Section Keeps.
Context {St : Type} (I E : St -> Prop) (Hfail : forall s, I s -> E s).

Lemma keeps_lift {A} (r : R A) : keeps I E (se_lift r).
Proof. intros s Hs. unfold se_lift. destruct r; auto. Qed.
Lemma keeps_ret {A} (a : A) : keeps I E (se_ret a).
Proof. by intros s. Qed.
Lemma keeps_guard c e : keeps I E (guard c e).
Proof. unfold guard. destruct c; apply keeps_lift. Qed.
Lemma keeps_get {A} (k : St -> SE St A) :
  (forall s0, I s0 -> keeps I E (k s0)) -> keeps I E (se_bind se_get k).
Proof. intros H s Hs. by apply H. Qed.
Lemma keeps_modify f : (forall s, I s -> I (f s)) -> keeps I E (se_modify f).
Proof. intros H s Hs. by apply H. Qed.
Lemma keeps_bind {A B} (m : SE St A) (k : A -> SE St B) :
  keeps I E m -> (forall a, keeps I E (k a)) -> keeps I E (se_bind m k).
Proof.
  intros Hm Hk s Hs. unfold se_bind. specialize (Hm s Hs).
  destruct (m s) as [[a|e] s']; [by apply Hk|done].
Qed.
Lemma keeps_iter {A T} (f : T -> A -> SE St T) l t :
  (forall t x, keeps I E (f t x)) -> keeps I E (se_iter f l t).
Proof.
  intros H. revert t. induction l as [|x l IH]; intros t; simpl; [apply keeps_ret|].
  by apply keeps_bind.
Qed.
End Keeps.

(** Decompose [keeps I E m] along the program text; the leaves that are not
    primitive are left to hypotheses or to lemmas in the [keeps] database. *)
Create HintDb keeps.
#[export] Hint Resolve keeps_lift keeps_ret keeps_guard : keeps.
Ltac keeps_step :=
  lazymatch goal with
  | |- keeps _ _ (se_bind se_get _) => apply keeps_get; intros ? ?
  | |- keeps _ _ (se_bind _ _) => apply keeps_bind; [|intros ?]
  | |- keeps _ _ (se_lift _) => apply keeps_lift; assumption
  | |- keeps _ _ (guard _ _) => apply keeps_guard; assumption
  | |- keeps _ _ (se_ret _) => apply keeps_ret
  | |- keeps _ _ (se_iter _ _ _) => apply keeps_iter; intros ? ?
  | |- keeps _ _ (match ?x with _ => _ end) => destruct x
  | |- keeps _ _ _ => solve [eauto with keeps]
  end.

(** *** Results *)

(** When [m] succeeds from a state satisfying [I], its result satisfies [Q]
    and its final state [I]. *)
Definition returns {St A} (I : St -> Prop) (m : SE St A) (Q : A -> Prop) : Prop :=
  forall s a s', I s -> m s = (Ok a, s') -> I s' /\ Q a.

Section Returns.
Context {St : Type} (I : St -> Prop).

Lemma returns_bind {A B} (m : SE St A) (k : A -> SE St B) Q1 Q :
  returns I m Q1 -> (forall a, Q1 a -> returns I (k a) Q) -> returns I (se_bind m k) Q.
Proof.
  intros Hm Hk s b s' Hs H. apply se_bind_Ok in H as (a & s1 & H1 & H2).
  destruct (Hm s a s1 Hs H1) as [Hs1 Hq]. by apply (Hk a Hq s1).
Qed.
Lemma returns_weaken {A} (m : SE St A) (Q1 Q : A -> Prop) :
  returns I m Q1 -> (forall a, Q1 a -> Q a) -> returns I m Q.
Proof. intros Hm HQ s a s' Hs H. destruct (Hm s a s' Hs H). auto. Qed.
Lemma returns_lift {A} (r : R A) : returns I (se_lift r) (fun a => r = Ok a).
Proof. intros s a s' Hs H. apply se_lift_Ok in H as [-> ->]. done. Qed.
Lemma returns_guard c e : returns I (guard c e) (fun _ => c = true).
Proof. intros s a s' Hs H. apply guard_Ok in H as [-> ->]. done. Qed.
Lemma returns_ret {A} (a : A) (Q : A -> Prop) : Q a -> returns I (se_ret a) Q.
Proof. intros HQ s a' s' Hs [= <- <-]. done. Qed.
Lemma returns_get : returns I se_get I.
Proof. intros s a s' Hs [= <- <-]. done. Qed.
Lemma returns_modify f : (forall s, I s -> I (f s)) -> returns I (se_modify f) (fun _ => True).
Proof. intros Hf s a s' Hs [= _ <-]. auto. Qed.

(** A loop with an invariant over the items done so far. *)
Lemma returns_iter {A T} (f : T -> A -> SE St T) (J : list A -> T -> Prop) :
  (forall l x t, J l t -> returns I (f t x) (J (l ++ [x]))) ->
  forall l l0 t, J l0 t -> returns I (se_iter f l t) (J (l0 ++ l)).
Proof.
  intros Hf l. induction l as [|x l IH]; intros l0 t HJ; simpl.
  - apply returns_ret. by rewrite app_nil_r.
  - eapply returns_bind; [by apply Hf|]. intros t' HJ'. rewrite cons_middle, app_assoc. by apply IH.
Qed.
End Returns.

(** The next statement of [returns I (do* x := m in k) Q], with the fact [H]
    about its result. *)
Ltac returns_step H :=
  lazymatch goal with
  | |- returns _ (se_bind (se_lift _) _) _ => eapply returns_bind; [apply returns_lift|intros ? H]
  | |- returns _ (se_bind (guard _ _) _) _ => eapply returns_bind; [apply returns_guard|intros ? H]
  | |- returns _ (se_bind se_get _) _ => eapply returns_bind; [apply returns_get|intros ? H]
  end; cbv beta in H.

(** *** Simulation between two state types *)

Definition simulates {S1 S2 A} (Rel : S1 -> S2 -> Prop) (m1 : SE S1 A) (m2 : SE S2 A) : Prop :=
  forall s1 s2, Rel s1 s2 -> (m1 s1).1 = (m2 s2).1 /\ Rel (m1 s1).2 (m2 s2).2.

Section Simulates.
Context {S1 S2 : Type} (Rel : S1 -> S2 -> Prop).

Lemma sim_lift {A} (r : R A) : simulates Rel (se_lift r) (se_lift r).
Proof. by intros s1 s2. Qed.
Lemma sim_ret {A} (a : A) : simulates Rel (se_ret a) (se_ret a).
Proof. by intros s1 s2. Qed.
Lemma sim_guard c e : simulates Rel (guard c e) (guard c e).
Proof. by intros s1 s2. Qed.
Lemma sim_modify f g :
  (forall s1 s2, Rel s1 s2 -> Rel (f s1) (g s2)) -> simulates Rel (se_modify f) (se_modify g).
Proof. intros H s1 s2 Hs. split; [done|]. by apply H. Qed.
Lemma sim_get {A} (k1 : S1 -> SE S1 A) (k2 : S2 -> SE S2 A) :
  (forall s1 s2, Rel s1 s2 -> simulates Rel (k1 s1) (k2 s2)) ->
  simulates Rel (se_bind se_get k1) (se_bind se_get k2).
Proof. intros H s1 s2 Hs. by apply H. Qed.
Lemma sim_bind {A B} (m1 : SE S1 A) (m2 : SE S2 A) (k1 : A -> SE S1 B) (k2 : A -> SE S2 B) :
  simulates Rel m1 m2 -> (forall a, simulates Rel (k1 a) (k2 a)) ->
  simulates Rel (se_bind m1 k1) (se_bind m2 k2).
Proof.
  intros Hm Hk s1 s2 Hs. unfold se_bind. destruct (Hm s1 s2 Hs) as [E Hr].
  destruct (m1 s1) as [r1 s1'], (m2 s2) as [r2 s2']. simpl in *. subst r2.
  destruct r1; [by apply Hk|done].
Qed.
Lemma sim_iter {A T} (f1 : T -> A -> SE S1 T) (f2 : T -> A -> SE S2 T) l t :
  (forall t x, simulates Rel (f1 t x) (f2 t x)) ->
  simulates Rel (se_iter f1 l t) (se_iter f2 l t).
Proof.
  intros H. revert t. induction l as [|x l IH]; intros t; simpl; [apply sim_ret|].
  by apply sim_bind.
Qed.
End Simulates.

Create HintDb simulates.
#[export] Hint Resolve sim_lift sim_ret sim_guard sim_bind sim_iter : simulates.

(** ** Loops bounded by a counter

    [loop_pow n] runs at most [2 ^ n] turns of a loop body that either
    continues with a new state or stops with a result. *)
Fixpoint loop_pow {St A} (n : nat) (body : St -> St + A) (s : St) : St + A :=
  match n with
  | O => body s
  | S n => match loop_pow n body s with inl s' => loop_pow n body s' | inr a => inr a end
  end.

(* Conversion must not start running a loop. *)
#[global] Strategy 1000 [loop_pow].

Lemma loop_pow_inv {St A} (I : St -> Prop) (Q : A -> Prop) n (body : St -> St + A) s :
  (forall s, I s -> match body s with inl s' => I s' | inr a => Q a end) ->
  I s -> match loop_pow n body s with inl s' => I s' | inr a => Q a end.
Proof.
  intros Hb. revert s. induction n as [|n IH]; intros s Hs; simpl; [by apply Hb|].
  specialize (IH s Hs) as H1. destruct (loop_pow n body s) as [s1|a]; [|done].
  by apply IH.
Qed.

Lemma loop_pow_result {St A} (I : St -> Prop) (Q : A -> Prop) n (body : St -> St + A) s a :
  (forall s, I s -> match body s with inl s' => I s' | inr a => Q a end) ->
  I s -> loop_pow n body s = inr a -> Q a.
Proof. intros Hb Hs E. pose proof (loop_pow_inv I Q n body s Hb Hs) as H. by rewrite E in H. Qed.

(** A counter that every turn increases: [2 ^ n] turns add [2 ^ n]. *)
Lemma loop_pow_counter_inv {St A} (I : St -> Prop) n (body : St -> St + A) (c : St -> N) s s' :
  (forall s s', I s -> body s = inl s' -> I s' /\ c s < c s') ->
  I s -> loop_pow n body s = inl s' -> I s' /\ c s + 2 ^ N.of_nat n <= c s'.
Proof.
  intros Hb. revert s s'. induction n as [|n IH]; intros s s' Hs H; simpl in H.
  - destruct (Hb s s' Hs H). split; [done|]. simpl. lia.
  - destruct (loop_pow n body s) as [s1|] eqn:E; [|done].
    apply IH in E as [H1 E]; [|done]. apply IH in H as [H2 H]; [|done].
    replace (N.of_nat (S n)) with (1 + N.of_nat n) by lia.
    rewrite N.pow_add_r, N.pow_1_r. split; [done|lia].
Qed.

Lemma loop_pow_counter {St A} n (body : St -> St + A) (c : St -> N) s s' :
  (forall s s', body s = inl s' -> c s < c s') ->
  loop_pow n body s = inl s' -> c s + 2 ^ N.of_nat n <= c s'.
Proof.
  intros Hb H. apply (loop_pow_counter_inv (fun _ => True)) with (c := c) in H as [_ H]; auto.
Qed.

(** ** I/O interfaces *)

(** The [io::ErrorKind]s the code tells apart or creates. *)
Inductive IoError : Type := UnexpectedEof | Interrupted | InvalidInput | InvalidData | OtherIo.

Abbreviation IO := (result IoError).

(** [trait ReadAt]: [len] and [read_exact_at]; a buffer is its length on the
    way in and its contents on the way out. *)
Class ReadAt (S : Type) : Type := {
  source_len : S -> IO N * S;
  read_exact_at : S -> N -> N -> IO bytes * S;
}.

(** A filled buffer has the length that was asked for; every Rust
    implementation satisfies this by the type of [&mut [u8]]. *)
Class ReadAtOk (S : Type) `{ReadAt S} : Prop :=
  read_exact_at_len s offset n b s' :
    read_exact_at s offset n = (Ok b, s') -> len b = n.

(** A source that presents the same bytes for the whole of a call. *)
Class StableSource (S : Type) `{ReadAt S} (presents : S -> bytes -> Prop) : Prop := {
  stable_len s b : presents s b -> len b <= U64_MAX ->
    (source_len s).1 = Ok (len b) /\ presents (source_len s).2 b;
  stable_read s b offset n : presents s b -> len b <= U64_MAX -> offset + n <= len b ->
    (read_exact_at s offset n).1 = Ok (slice b offset (offset + n)) /\
    presents (read_exact_at s offset n).2 b;
}.

(** [std::io::Read]: [read] and [read_exact]. *)
Class ReadStream (S : Type) : Type := {
  stream_read : S -> N -> IO bytes * S;
  stream_read_exact : S -> N -> IO bytes * S;
}.

(** [std::io::Write::write_all] *)
Class WriteSink (S : Type) : Type :=
  write_all : S -> bytes -> IO unit * S.

(** [std::io::Seek::seek] from the start and from the end. *)
Class Seek (S : Type) : Type := {
  seek_start : S -> N -> IO N * S;
  seek_end : S -> IO N * S;
  stream_position : S -> IO N * S;
}.
