(* ===== verification/Writer.v ===== *)
(** [crates/ucof-core/src/writer.rs]: the in-memory deterministic writer. *)

From Stdlib Require Import Strings.Byte Strings.String NArith ZArith Lia.
From stdpp Require Import base list gmap strings sorting.
From S2P Require Import Prelude Order Errors Format Cbor Model Digest.

Local Open Scope N_scope.

Record Writer : Type := mkWriter {
  w_bytes : bytes;
  w_entries : list DirectoryEntry;
  w_object_ids : gset N;
}.

(** [Writer::new] *)
Definition writer_new : Writer :=
  let out := FILE_MAGIC in
  let out := push_u32_le out EXPERIMENTAL_EPOCH in
  let out := push_u32_le out 0 in
  let out := push_u32_le out HEADER_LEN in
  let out := out ++ zeros 12 in
  mkWriter out [] ∅.

(** [append_record] *)
Definition append_record (target : bytes) (kind : RecordKind) (object_id : N) (payload : bytes)
    : R bytes :=
  let* payload_len := ok_or (try_u64 (len payload)) (InvalidLength "payload") in
  let target := target ++ RECORD_MAGIC in
  let target := push_u16_le target (u16_from_kind kind) in
  let target := push_u16_le target 0 in
  let target := push_u32_le target RECORD_HEADER_LEN in
  let target := push_u64_le target payload_len in
  let target := push_u64_le target payload_len in
  let target := push_u64_le target object_id in
  let target := push_u32_le target 0 in
  Ok (target ++ payload).

(** [Writer::add_record] *)
Definition add_record (w : Writer) (kind : RecordKind) (object_id : N) (payload : bytes)
    : R Writer :=
  check negb (bool_decide (kind = Directory))
    else InvalidRecordOrder "directory is created during finalization" in
  check negb (object_id =? 0)
    else InvalidMetadataSchema "object identifier zero is reserved" in
  let* ids := ok_or (try_insert object_id (w_object_ids w)) (DuplicateObjectId object_id) in
  let* offset := ok_or (try_u64 (len (w_bytes w))) (RangeOutOfBounds "writer offset") in
  let* stored_len := ok_or (try_u64 (len payload)) (InvalidLength "record payload") in
  let* out := append_record (w_bytes w) kind object_id payload in
  Ok (mkWriter out
        (w_entries w ++ [mkEntry object_id kind offset stored_len stored_len]) ids).

(** [Writer::add_opaque], [Writer::add_manifest] *)
Definition add_opaque (w : Writer) (object_id : N) (payload : bytes) : R Writer :=
  add_record w Opaque object_id payload.

Definition add_manifest (w : Writer) (object_id : N) (manifest : Manifest) : R Writer :=
  let* _ := validate_shape manifest in
  let* payload := encode_canonical (manifest_to_cbor manifest) in
  add_record w Manifest_ object_id payload.

(** [self.entries.iter().find(|entry| entry.id == manifest_id)] *)
Definition find_entry (manifest_id : N) (entries : list DirectoryEntry) : option DirectoryEntry :=
  List.find (fun entry => id entry =? manifest_id) entries.

(** The footer both writers emit. *)
Definition push_footer (target : bytes)
    (directory_offset directory_total_len manifest_id record_count : N) (digest : bytes) : bytes :=
  let target := target ++ FOOTER_MAGIC in
  let target := push_u32_le target FOOTER_LEN in
  let target := push_u32_le target 0 in
  let target := push_u64_le target directory_offset in
  let target := push_u64_le target directory_total_len in
  let target := push_u64_le target manifest_id in
  let target := push_u64_le target record_count in
  target ++ digest.

(** [Writer::finish]. [header + payload] is plain [u64] addition; it cannot
    overflow for a vector's length, which is at most [isize::MAX]. *)
Definition finish `{Sha256} (w : Writer) (manifest_id : N) : R bytes :=
  let* selected := ok_or (find_entry manifest_id (w_entries w)) (MissingManifest manifest_id) in
  check bool_decide (kind selected = Manifest_) else MissingManifest manifest_id in
  let* directory_payload := encode_canonical (directory_to_cbor (w_entries w)) in
  let* directory_offset := ok_or (try_u64 (len (w_bytes w))) (RangeOutOfBounds "directory offset") in
  let* out := append_record (w_bytes w) Directory 0 directory_payload in
  let* directory_len := ok_or (try_u64 (len directory_payload)) (InvalidLength "directory record") in
  let directory_total_len := RECORD_HEADER_LEN + directory_len in
  let* count := ok_or (try_u64 (len (w_entries w))) (InvalidLength "record count") in
  let* record_count := ok_or (checked_add count 1) (InvalidLength "record count") in
  Ok (push_footer out directory_offset directory_total_len manifest_id record_count (sha256 out)).
