(* ===== verification/Frame.v ===== *)
(** The fixed framing of an EXP-0001 file: bootstrap header, record header and
    footer. The checks are written once, at an offset of a byte slice; the
    whole-file reader ([reader.rs]) runs them at its own offsets, and the
    source, stream and diagnostic readers run their copies on a fixed array,
    at offset zero. The second half gives the byte strings the checks accept. *)

From Stdlib Require Import Strings.Byte Strings.String NArith ZArith Lia.
From stdpp Require Import base list gmap strings sorting.
From S2P Require Import Prelude Errors Format Cbor Model.

Local Open Scope N_scope.

Record Footer : Type := mkFooter {
  directory_offset : N;
  directory_len : N;
  manifest_id : N;
  record_count : N;
  digest : bytes;
}.

Definition all_zero (l : bytes) : bool := forallb (fun b => N_of_byte b =? 0) l.

Definition validate_header (input : bytes) : R unit :=
  let* magic := take_range input 0 (len FILE_MAGIC) "file magic" in
  check bool_decide (magic = FILE_MAGIC) else InvalidMagic "file" in
  let* epoch := read_u32_le input 8 "epoch" in
  check epoch =? EXPERIMENTAL_EPOCH else UnsupportedEpoch epoch in
  let* flags := read_u32_le input 12 "file flags" in
  check flags =? 0 else UnsupportedFlags "file" flags in
  let* header_len := read_u32_le input 16 "file header length" in
  check header_len =? HEADER_LEN else InvalidLength "file header" in
  let* reserved := take_range input 20 12 "file reserved bytes" in
  check all_zero reserved else InvalidReserved "file header" in
  Ok tt.

Definition parse_footer (input : bytes) (offset : N) : R Footer :=
  let* magic := take_range input offset (len FOOTER_MAGIC) "footer magic" in
  check bool_decide (magic = FOOTER_MAGIC) else InvalidMagic "footer" in
  let* footer_len := read_u32_le input (offset + 8) "footer length" in
  check footer_len =? FOOTER_LEN else InvalidLength "footer" in
  let* flags := read_u32_le input (offset + 12) "footer flags" in
  check flags =? 0 else UnsupportedFlags "footer" flags in
  let* digest := take_range input (offset + 48) 32 "footer digest" in
  let* directory_offset := read_u64_le input (offset + 16) "directory offset" in
  let* directory_len := read_u64_le input (offset + 24) "directory length" in
  let* manifest_id := read_u64_le input (offset + 32) "manifest identifier" in
  let* record_count := read_u64_le input (offset + 40) "record count" in
  Ok (mkFooter directory_offset directory_len manifest_id record_count digest).

(** [ParsedRecordHeader] of [stream.rs]. *)
Record RecordHeader : Type := mkHeader {
  h_kind : RecordKind;
  h_object_id : N;
  h_stored_len : N;
  h_logical_len : N;
}.

(** The fields of a record header and the checks on them. *)
Definition record_fields (input : bytes) (offset : N) (limits : Limits) : R RecordHeader :=
  let* magic := take_range input offset (len RECORD_MAGIC) "record magic" in
  check bool_decide (magic = RECORD_MAGIC) else InvalidMagic "record" in
  let* raw_kind := read_u16_le input (offset + 4) "record kind" in
  let* kind := kind_try_from raw_kind in
  let* flags := read_u16_le input (offset + 6) "record flags" in
  check flags =? 0 else UnsupportedFlags "record" flags in
  let* header_len := read_u32_le input (offset + 8) "record header length" in
  check header_len =? RECORD_HEADER_LEN else InvalidLength "record header" in
  let* stored_len := read_u64_le input (offset + 12) "stored length" in
  let* logical_len := read_u64_le input (offset + 20) "logical length" in
  check stored_len =? logical_len else InvalidLength "transformed logical length" in
  check negb (max_payload_bytes limits <? stored_len) else LimitExceeded "record payload bytes" in
  let* object_id := read_u64_le input (offset + 28) "object identifier" in
  let* reserved := read_u32_le input (offset + 36) "record reserved" in
  check reserved =? 0 else InvalidReserved "record header" in
  Ok (mkHeader kind object_id stored_len logical_len).

(** The identifier rule of every framing scan: directories have identifier
    zero, other records a fresh non-zero one. *)
Definition check_identifier (h : RecordHeader) (ids : gset N) : R (gset N) :=
  if bool_decide (h_kind h = Directory) then
    check h_object_id h =? 0 else InvalidRecordOrder "directory identifier must be zero" in Ok ids
  else if h_object_id h =? 0 then Err (InvalidRecordOrder "non-directory identifier is zero")
  else ok_or (try_insert (h_object_id h) ids) (DuplicateObjectId (h_object_id h)).

(** ** The byte strings of the format *)

Definition file_header : bytes :=
  FILE_MAGIC ++ le_encode 4 EXPERIMENTAL_EPOCH ++ le_encode 4 0 ++ le_encode 4 HEADER_LEN ++ zeros 12.

Definition record_header (kind : RecordKind) (object_id n : N) : bytes :=
  RECORD_MAGIC ++ le_encode 2 (u16_from_kind kind) ++ le_encode 2 0 ++
  le_encode 4 RECORD_HEADER_LEN ++ le_encode 8 n ++ le_encode 8 n ++ le_encode 8 object_id ++
  le_encode 4 0.

Definition footer_bytes (f : Footer) : bytes :=
  FOOTER_MAGIC ++ le_encode 4 FOOTER_LEN ++ le_encode 4 0 ++ le_encode 8 (directory_offset f) ++
  le_encode 8 (directory_len f) ++ le_encode 8 (manifest_id f) ++ le_encode 8 (record_count f) ++
  digest f.

Definition footer_fits (f : Footer) : Prop :=
  directory_offset f <= U64_MAX /\ directory_len f <= U64_MAX /\ manifest_id f <= U64_MAX /\
  record_count f <= U64_MAX /\ len (digest f) = 32.

Lemma file_header_len : len file_header = 32.
Proof. reflexivity. Qed.

Lemma record_header_len k i n : len (record_header k i n) = 40.
Proof. reflexivity. Qed.

Lemma footer_bytes_len f : len (digest f) = 32 -> len (footer_bytes f) = 80.
Proof. intros H. unfold footer_bytes. rewrite !len_app, H. reflexivity. Qed.

(** ** Reading at an offset is reading a slice *)

Lemma slice_slice {A} (l : list A) a b c d :
  c <= d -> a + d <= b -> slice (slice l a b) c d = slice l (a + c) (a + d).
Proof.
  intros H1 H2. unfold slice. rewrite skipn_firstn_comm, take_take, drop_drop.
  f_equal; [lia|]. f_equal. lia.
Qed.

Lemma take_range_slice l offset n context :
  offset + n <= len l -> len l <= U64_MAX ->
  take_range l offset n context = Ok (slice l offset (offset + n)).
Proof.
  intros H1 H2. unfold take_range. rewrite checked_add_fits by lia. cbn [ok_or].
  unfold get_range. rewrite (proj2 (N.leb_le _ _)) by lia.
  by rewrite (proj2 (N.leb_le _ _)) by lia.
Qed.

Section At.
(** A region [base, base + size) of [l] whose bytes are [r]. *)
Context (l : bytes) (base size : N) (r : bytes).
Context (Hl : len l <= U64_MAX) (Hb : base + size <= len l).
Context (Hr : slice l base (base + size) = r).

Lemma take_range_at k n context :
  k + n <= size -> take_range l (base + k) n context = Ok (slice r k (k + n)).
Proof.
  intros H. rewrite take_range_slice by lia. f_equal.
  rewrite <- Hr, slice_slice by lia. f_equal. lia.
Qed.

Lemma read_u16_le_at k v context :
  k + 2 <= size -> slice r k (k + 2) = le_encode 2 v -> v <= U16_MAX ->
  read_u16_le l (base + k) context = Ok v.
Proof.
  intros H E Hv. unfold read_u16_le. rewrite take_range_at, E by done.
  rewrite le_decode_encode_small; [done|]. unfold U16_MAX in Hv. simpl. lia.
Qed.

Lemma read_u32_le_at k v context :
  k + 4 <= size -> slice r k (k + 4) = le_encode 4 v -> v <= U32_MAX ->
  read_u32_le l (base + k) context = Ok v.
Proof.
  intros H E Hv. unfold read_u32_le. rewrite take_range_at, E by done.
  rewrite le_decode_encode_small; [done|]. unfold U32_MAX in Hv. simpl. lia.
Qed.

Lemma read_u64_le_at k v context :
  k + 8 <= size -> slice r k (k + 8) = le_encode 8 v -> v <= U64_MAX ->
  read_u64_le l (base + k) context = Ok v.
Proof.
  intros H E Hv. unfold read_u64_le. rewrite take_range_at, E by done.
  rewrite le_decode_encode_small; [done|]. unfold U64_MAX in Hv. simpl. lia.
Qed.
End At.

Lemma all_zero_spec l : all_zero l = true <-> l = zeros (length l).
Proof.
  unfold all_zero, zeros. induction l as [|b l IH]; [done|]. simpl.
  rewrite andb_true_iff, IH, N.eqb_eq. split.
  - intros [H1 H2]. f_equal; [by apply N_of_byte_inj|done].
  - intros [= -> H]. done.
Qed.

(** Join adjacent known slices: rewrite [slice l a c] with the pieces the
    hypotheses give, from left to right. *)
Ltac join_slices l c :=
  repeat match goal with
  | |- slice l ?a c = ?p ++ _ =>
      match goal with H : slice l ?a' ?b = p |- _ =>
        replace a with a' by lia;
        rewrite <- (slice_join l a' b c) by lia; rewrite H; clear H; f_equal
      end
  end.

Lemma validate_header_Ok input :
  HEADER_LEN <= len input -> len input <= U64_MAX ->
  validate_header input = Ok tt <-> slice input 0 HEADER_LEN = file_header.
Proof.
  intros Hl Hu. unfold HEADER_LEN in *. unfold validate_header. split.
  - intros H. step_result H. bool_facts. subst.
    change (len FILE_MAGIC) with 8 in *.
    repeat match goal with
    | E : take_range _ _ _ _ = Ok _ |- _ => apply take_range_Ok in E as (?&?&?)
    | E : read_u32_le _ _ _ = Ok _ |- _ => apply read_u32_le_Ok in E as (?&?&?)
    end.
    match goal with E : all_zero _ = true |- _ => apply all_zero_spec in E end.
    repeat match goal with E : _ = slice _ _ _ |- _ => symmetry in E end.
    unfold file_header. join_slices input 32.
    match goal with E : slice input 20 _ = ?r, F : ?r = zeros _, G : len ?r = 12 |- _ =>
      change (20 + 12) with 32 in E; change (16 + 4) with 20; rewrite E, F;
      unfold len in G; f_equal; lia end.
  - intros H.
    assert (T := fun k n c => take_range_at input 0 32 file_header Hu Hl H k n c).
    assert (U := fun k v c => read_u32_le_at input 0 32 file_header Hu Hl H k v c).
    change (take_range input) with (fun o => take_range input (0 + o)) at 1.
    cbv beta.
    rewrite (T 0 (len FILE_MAGIC)) by done. cbv iota beta.
    change (slice file_header 0 (0 + len FILE_MAGIC)) with FILE_MAGIC.
    rewrite bool_decide_true by done.
    rewrite (U 8 EXPERIMENTAL_EPOCH) by done. cbv iota beta. rewrite N.eqb_refl.
    rewrite (U 12 0) by done. cbv iota beta. rewrite N.eqb_refl.
    rewrite (U 16 HEADER_LEN) by done. cbv iota beta. rewrite N.eqb_refl.
    rewrite (T 20 12) by done. reflexivity.
Qed.

Ltac read_facts :=
  repeat match goal with
  | E : take_range _ _ _ _ = Ok _ |- _ => apply take_range_Ok in E as (?&?&?)
  | E : read_u16_le _ _ _ = Ok _ |- _ => apply read_u16_le_Ok in E as (?&?&?)
  | E : read_u32_le _ _ _ = Ok _ |- _ => apply read_u32_le_Ok in E as (?&?&?)
  | E : read_u64_le _ _ _ = Ok _ |- _ => apply read_u64_le_Ok in E as (?&?&?)
  end;
  repeat match goal with E : _ = slice _ _ _ |- _ => symmetry in E end.

Lemma parse_footer_Ok input off f :
  len input <= U64_MAX ->
  parse_footer input off = Ok f <->
  off + FOOTER_LEN <= len input /\ footer_fits f /\
  slice input off (off + FOOTER_LEN) = footer_bytes f.
Proof.
  intros Hu. unfold FOOTER_LEN. unfold parse_footer. split.
  - intros H. step_result H. injection H as <-. bool_facts. subst.
    change (len FOOTER_MAGIC) with 8 in *. read_facts.
    split; [lia|]. split; [done|]. unfold footer_bytes. cbn [Frame.digest Frame.directory_offset
      Frame.directory_len Frame.manifest_id Frame.record_count].
    join_slices input (off + 80).
    match goal with E : slice input (off + 48) _ = _ |- _ => rewrite <- E; f_equal; lia end.
  - intros (Hl & (H1&H2&H3&H4&H5) & Hs). destruct f as [a b c d g]. simpl in *.
    set (fb := footer_bytes _) in Hs.
    assert (T := fun k n c => take_range_at input off 80 fb Hu Hl Hs k n c).
    assert (U := fun k v c => read_u32_le_at input off 80 fb Hu Hl Hs k v c).
    assert (V := fun k v c => read_u64_le_at input off 80 fb Hu Hl Hs k v c).
    replace (take_range input off) with (take_range input (off + 0)) by (f_equal; lia).
    rewrite (T 0 (len FOOTER_MAGIC)) by done. cbv iota beta.
    change (slice fb 0 (0 + len FOOTER_MAGIC)) with FOOTER_MAGIC.
    rewrite bool_decide_true by done.
    rewrite (U 8 FOOTER_LEN) by done. cbv iota beta. rewrite N.eqb_refl.
    rewrite (U 12 0) by done. cbv iota beta. rewrite N.eqb_refl.
    rewrite (T 48 32) by done. cbv iota beta.
    rewrite (V 16 a), (V 24 b), (V 32 c), (V 40 d) by done. cbv iota beta.
    do 2 f_equal. change (take (N.to_nat 32) g = g). rewrite <- H5, len_to_nat. apply firstn_all.
Qed.

Definition header_fits (h : RecordHeader) : Prop :=
  h_stored_len h <= U64_MAX /\ h_object_id h <= U64_MAX /\ h_logical_len h = h_stored_len h.

Lemma record_fields_Ok input off limits h :
  len input <= U64_MAX ->
  record_fields input off limits = Ok h <->
  off + RECORD_HEADER_LEN <= len input /\ header_fits h /\
  h_stored_len h <= max_payload_bytes limits /\
  slice input off (off + RECORD_HEADER_LEN) = record_header (h_kind h) (h_object_id h) (h_stored_len h).
Proof.
  intros Hu. unfold RECORD_HEADER_LEN. unfold record_fields. split.
  - intros H. step_result H. injection H as <-. bool_facts. subst.
    change (len RECORD_MAGIC) with 4 in *.
    match goal with E : kind_try_from _ = Ok _ |- _ => apply kind_try_from_Ok in E as -> end.
    read_facts.
    split; [lia|]. split; [done|]. split; [done|]. unfold record_header. cbn [h_kind h_object_id h_stored_len].
    join_slices input (off + 40).
    match goal with E : slice input (off + 36) _ = _ |- _ => rewrite <- E; f_equal; lia end.
  - destruct h as [k i n l]. unfold header_fits. simpl. intros (Hl & (H1&H2&->) & H3 & Hs).
    set (fb := record_header _ _ _) in Hs.
    assert (T := fun k n c => take_range_at input off 40 fb Hu Hl Hs k n c).
    assert (S := fun k v c => read_u16_le_at input off 40 fb Hu Hl Hs k v c).
    assert (U := fun k v c => read_u32_le_at input off 40 fb Hu Hl Hs k v c).
    assert (V := fun k v c => read_u64_le_at input off 40 fb Hu Hl Hs k v c).
    replace (take_range input off) with (take_range input (off + 0)) by (f_equal; lia).
    rewrite (T 0 (len RECORD_MAGIC)) by done. cbv iota beta.
    change (slice fb 0 (0 + len RECORD_MAGIC)) with RECORD_MAGIC.
    rewrite bool_decide_true by done.
    rewrite (S 4 (u16_from_kind k)) by (try apply u16_from_kind_bound; done). cbv iota beta.
    rewrite kind_try_from_u16.
    rewrite (S 6 0) by done. cbv iota beta. rewrite N.eqb_refl.
    rewrite (U 8 RECORD_HEADER_LEN) by done. cbv iota beta. rewrite N.eqb_refl.
    rewrite (V 12 n), (V 20 n) by done. cbv iota beta. rewrite N.eqb_refl.
    rewrite (proj2 (N.ltb_ge _ _)) by done. cbn [negb].
    rewrite (V 28 i) by done. cbv iota beta.
    rewrite (U 36 0) by done. reflexivity.
Qed.
