(* ===== verification/Image.v ===== *)
(** The abstract specification of an EXP-0001 file: a sequence of frames (kind,
    identifier, payload) and the manifest it selects determine the bytes of the
    file ([image]) and of its directory. [accepted] is the set of documents a
    reader admits under its limits. The writers are shown to produce images and
    the readers to accept exactly the images of accepted documents. *)

From Stdlib Require Import Strings.Byte Strings.String NArith ZArith Lia.
From stdpp Require Import base list gmap strings sorting.
From S2P Require Import Prelude Order Errors Format Cbor CborFacts Model Schema Digest Frame.

Local Open Scope N_scope.

Record Frame : Type := mkFrame {
  f_kind : RecordKind;
  f_id : N;
  f_payload : bytes;
}.

Definition frame_bytes (f : Frame) : bytes :=
  record_header (f_kind f) (f_id f) (len (f_payload f)) ++ f_payload f.

Definition frame_len (f : Frame) : N := RECORD_HEADER_LEN + len (f_payload f).

Definition frames_bytes (fs : list Frame) : bytes := concat (frame_bytes <$> fs).

Definition frame_entry (offset : N) (f : Frame) : DirectoryEntry :=
  mkEntry (f_id f) (f_kind f) offset (len (f_payload f)) (len (f_payload f)).

(** The directory of frames laid out from [offset]. *)
Fixpoint frame_entries (offset : N) (fs : list Frame) : list DirectoryEntry :=
  match fs with
  | [] => []
  | f :: fs => frame_entry offset f :: frame_entries (offset + frame_len f) fs
  end.

Definition body (fs : list Frame) : bytes := file_header ++ frames_bytes fs.
Definition directory_value (fs : list Frame) : Value :=
  directory_to_cbor (frame_entries HEADER_LEN fs).
Definition directory_frame (fs : list Frame) : Frame :=
  mkFrame Directory 0 (enc (directory_value fs)).
Definition committed (fs : list Frame) : bytes := body fs ++ frame_bytes (directory_frame fs).

Definition image_footer `{Sha256} (fs : list Frame) (mid : N) : Footer :=
  mkFooter (len (body fs)) (frame_len (directory_frame fs)) mid (len fs + 1)
    (sha256 (committed fs)).

Definition image `{Sha256} (fs : list Frame) (mid : N) : bytes :=
  committed fs ++ footer_bytes (image_footer fs mid).

(** The image with some other digest in its footer. *)
Definition image_with (fs : list Frame) (mid : N) (g : bytes) : bytes :=
  committed fs ++
  footer_bytes (mkFooter (len (body fs)) (frame_len (directory_frame fs)) mid (len fs + 1) g).

(** ** Accepted documents *)

(** Directories are the records with identifier zero. *)
Definition id_rule (f : Frame) : Prop := f_kind f = Directory <-> f_id f = 0.

Definition frame_ok (limits : Limits) (f : Frame) : Prop :=
  id_rule f /\ f_id f <= U64_MAX /\ len (f_payload f) <= max_payload_bytes limits.

Definition frame_ids (fs : list Frame) : list N := filter (fun i => i <> 0) (f_id <$> fs).

(** A metadata value a reader decodes from its encoding. *)
Definition admitted (limits : Limits) (v : Value) : Prop :=
  encodes v /\ admits limits v /\ len (enc v) <= max_metadata_bytes limits.

Definition manifest_frame (mid : N) (m : Manifest) : Frame :=
  mkFrame Manifest_ mid (enc (manifest_to_cbor m)).

(** The framing of the document fits the limits and is well formed. *)
Record framed (limits : Limits) (fs : list Frame) : Prop := {
  framed_frames : Forall (frame_ok limits) (fs ++ [directory_frame fs]);
  framed_ids : NoDup (frame_ids fs);
  framed_count : len fs + 1 <= max_records limits;
  framed_len : len (committed fs) + FOOTER_LEN <= max_file_bytes limits;
  framed_directory : admitted limits (directory_value fs);
}.

(** ... and the selected record is a manifest whose roots exist. *)
Record selects (limits : Limits) (fs : list Frame) (mid : N) (m : Manifest) : Prop := {
  sel_id : mid <> 0;
  sel_frame : manifest_frame mid m ∈ fs;
  sel_metadata : admitted limits (manifest_to_cbor m);
  sel_shape : shape_ok m;
  sel_roots : forall root, root ∈ roots m -> root ∈ f_id <$> fs;
}.

Definition accepted (limits : Limits) (fs : list Frame) (mid : N) (m : Manifest) : Prop :=
  framed limits fs /\ selects limits fs mid m.

(** ** Lengths *)

Lemma frame_bytes_len f : len (frame_bytes f) = frame_len f.
Proof. unfold frame_bytes. by rewrite len_app, record_header_len. Qed.

Lemma frames_bytes_app fs gs : frames_bytes (fs ++ gs) = frames_bytes fs ++ frames_bytes gs.
Proof. unfold frames_bytes. by rewrite fmap_app, concat_app. Qed.

Lemma frames_bytes_snoc fs f : frames_bytes (fs ++ [f]) = frames_bytes fs ++ frame_bytes f.
Proof. rewrite frames_bytes_app. unfold frames_bytes at 2. simpl. by rewrite app_nil_r. Qed.

Lemma frames_bytes_cons f fs : frames_bytes (f :: fs) = frame_bytes f ++ frames_bytes fs.
Proof. done. Qed.

Lemma body_len fs : len (body fs) = HEADER_LEN + len (frames_bytes fs).
Proof. unfold body. by rewrite len_app, file_header_len. Qed.

Lemma committed_frames fs : committed fs = body (fs ++ [directory_frame fs]).
Proof. unfold committed, body. by rewrite frames_bytes_snoc, app_assoc. Qed.

Lemma len_le_frames_bytes fs : RECORD_HEADER_LEN * len fs <= len (frames_bytes fs).
Proof.
  induction fs as [|f fs IH]; [done|].
  rewrite frames_bytes_cons, len_app, len_cons, frame_bytes_len. unfold frame_len. lia.
Qed.

Lemma frame_entries_app off fs gs :
  frame_entries off (fs ++ gs) = frame_entries off fs ++ frame_entries (off + len (frames_bytes fs)) gs.
Proof.
  revert off. induction fs as [|f fs IH]; intros off; simpl.
  - f_equal. change (len (frames_bytes [])) with 0. lia.
  - rewrite IH, frames_bytes_cons, len_app, frame_bytes_len. do 3 f_equal. lia.
Qed.

Lemma frame_entries_snoc off fs f :
  frame_entries off (fs ++ [f]) = frame_entries off fs ++ [frame_entry (off + len (frames_bytes fs)) f].
Proof. by rewrite frame_entries_app. Qed.

Lemma frame_entries_length off fs : length (frame_entries off fs) = length fs.
Proof. revert off. induction fs; intros off; simpl; [done|]. by f_equal. Qed.

Lemma frame_entries_len off fs : len (frame_entries off fs) = len fs.
Proof. unfold len. by rewrite frame_entries_length. Qed.

Lemma frame_entries_lookup off fs i :
  frame_entries off fs !! i =
  (fun f => frame_entry (off + len (frames_bytes (take i fs))) f) <$> fs !! i.
Proof.
  revert off i. induction fs as [|f fs IH]; intros off [|i]; simpl; try done.
  - f_equal. f_equal. change (len (frames_bytes [])) with 0. lia.
  - rewrite IH. destruct (fs !! i); [|done]. simpl.
    rewrite frames_bytes_cons, len_app, frame_bytes_len. do 2 f_equal. lia.
Qed.

Lemma frame_entries_split off fs l1 e l2 :
  frame_entries off fs = l1 ++ e :: l2 ->
  exists pre f post, fs = pre ++ f :: post /\ length pre = length l1 /\
    e = frame_entry (off + len (frames_bytes pre)) f.
Proof.
  intros H. pose proof (frame_entries_lookup off fs (length l1)) as E.
  rewrite H, list_lookup_middle in E by done.
  destruct (fs !! length l1) as [f|] eqn:Hf; [|done]. injection E as ->.
  exists (take (length l1) fs), f, (drop (S (length l1)) fs).
  split_and!; [by rewrite take_drop_middle| |done].
  rewrite length_take. apply lookup_lt_Some in Hf. lia.
Qed.

Lemma frame_entries_ids off fs : id <$> frame_entries off fs = f_id <$> fs.
Proof. revert off. induction fs; intros off; csimpl; [done|]. by f_equal. Qed.

Lemma image_is_with `{Sha256} fs mid : image fs mid = image_with fs mid (sha256 (committed fs)).
Proof. done. Qed.

Lemma image_with_len fs mid g : len g = 32 -> len (image_with fs mid g) = len (committed fs) + FOOTER_LEN.
Proof. intros H. unfold image_with. by rewrite len_app, footer_bytes_len. Qed.

Lemma image_len `{Sha256Ok} fs mid : len (image fs mid) = len (committed fs) + FOOTER_LEN.
Proof. unfold image. rewrite len_app, footer_bytes_len; [done|apply sha256_len]. Qed.

(** ** Records in progress

    The part [f] of a record whose header declares [n] bytes. *)

Definition open_bytes (f : Frame) (n : N) : bytes :=
  record_header (f_kind f) (f_id f) n ++ f_payload f.

Lemma open_bytes_complete f : open_bytes f (len (f_payload f)) = frame_bytes f.
Proof. done. Qed.

Lemma open_bytes_more f n chunk :
  open_bytes (mkFrame (f_kind f) (f_id f) (f_payload f ++ chunk)) n = open_bytes f n ++ chunk.
Proof. unfold open_bytes. cbn [f_kind f_id f_payload]. by rewrite app_assoc. Qed.

Definition grown (f : Frame) (chunk : bytes) : Frame :=
  mkFrame (f_kind f) (f_id f) (f_payload f ++ chunk).

(** ** Metadata *)

Lemma admitted_decode limits v :
  limits_ok limits -> admitted limits v -> decode_canonical (enc v) limits = Ok (canon v).
Proof.
  intros Hl (He & Ha & Hm). apply decode_canonical_enc; [done|done| |done].
  assert (max_metadata_bytes limits <= U64_MAX)
    by (apply (limits_ok_field limits); [done|set_solver]). lia.
Qed.

Lemma decode_admitted limits v p :
  limits_ok limits -> canon v = v ->
  decode_canonical p limits = Ok v <-> admitted limits v /\ p = enc v.
Proof.
  intros Hl Hc. split.
  - intros H. apply decode_canonical_iff in H as (He & _ & Ha & _ & Hm);
      [|apply (limits_ok_field limits); [done|set_solver]].
    destruct (enc_Ok _ _ He) as [<- Hv]. done.
  - intros [Ha ->]. rewrite admitted_decode by done. by rewrite Hc.
Qed.

Lemma admits_canon_manifest limits m :
  admits limits (canon (manifest_to_cbor m)) <-> admits limits (manifest_to_cbor m).
Proof.
  rewrite canon_manifest. unfold admits, manifest_to_cbor.
  generalize (Array (map Unsigned (roots m))) (Array (map Unsigned (optional_capabilities m)))
    (Array (map Unsigned (required_capabilities m))).
  intros a b c. cbn -[N.max N.add N.leb U64_MAX as_bytes].
  rewrite !andb_true_iff. split; intros ((H1&H2&H3&H4)&H5&H6&H7); split_and!;
    try tauto; lia.
Qed.

Lemma decode_manifest limits p m :
  limits_ok limits ->
  (match decode_canonical p limits with
   | Ok v => parse_manifest v | Err e => Err e end) = Ok m <->
  admitted limits (manifest_to_cbor m) /\ p = enc (manifest_to_cbor m) /\ shape_ok m.
Proof.
  intros Hl.
  assert (Hci : max_container_items limits <= U64_MAX)
    by (apply (limits_ok_field limits); [done|set_solver]).
  split.
  - intros H. destruct (decode_canonical p limits) as [v|] eqn:Hd; [|done].
    pose proof (decode_normal _ _ _ Hci Hd) as Hn.
    apply parse_manifest_Ok in H as [Hv Hs]; [|done].
    assert (Hc : canon v = v) by (by destruct Hn).
    apply decode_admitted in Hd as [(He & Ha & Hm) ->]; [|done|done]. subst v.
    assert (Hem : encodes (manifest_to_cbor m)).
    { apply encodes_manifest; rewrite canon_manifest in He; destruct (enc_Map _ He) as (Hf & _);
        rewrite !Forall_cons in Hf; destruct Hf as ([_ A]&[_ B]&[_ C]&_); simpl in *;
        rewrite <- (len_fmap Unsigned); by apply encodes_Array_len. }
    rewrite (enc_canon _ Hem) in *. rewrite admits_canon_manifest in Ha. done.
  - intros (Ha & -> & Hs). pose proof (admitted_decode _ _ Hl Ha) as Hd. rewrite Hd.
    apply parse_manifest_Ok; [by eapply decode_normal|done].
Qed.

Lemma decode_directory limits p es :
  limits_ok limits ->
  (match decode_canonical p limits with
   | Ok v => parse_directory v | Err e => Err e end) = Ok es <->
  admitted limits (directory_to_cbor es) /\ p = enc (directory_to_cbor es).
Proof.
  intros Hl.
  assert (Hci : max_container_items limits <= U64_MAX)
    by (apply (limits_ok_field limits); [done|set_solver]).
  rewrite <- decode_admitted by (done || apply canon_directory). split.
  - intros H. destruct (decode_canonical p limits) as [v|] eqn:Hd; [|done].
    apply parse_directory_Ok in H as ->; [done|by eapply decode_normal].
  - intros Hd. rewrite Hd. apply parse_directory_Ok; [by eapply decode_normal|done].
Qed.
