(* ===== verification/Reader.v ===== *)
(** [crates/ucof-core/src/reader.rs]: strict validation of a complete file
    held in memory. *)

From Stdlib Require Import Strings.Byte Strings.String NArith ZArith Lia.
From stdpp Require Import base list gmap strings sorting.
From S2P Require Import Prelude Order Errors Format Cbor Model Schema Digest Frame.

Local Open Scope N_scope.

(** ** Framing *)

(** [RecordInfo]; [payload_range] is kept as its two ends. *)
Record RecordInfo : Type := mkRecordInfo {
  ri_kind : RecordKind;
  ri_object_id : N;
  ri_offset : N;
  ri_stored_len : N;
  ri_logical_len : N;
  ri_payload_range : N * N;
}.

(** [&bytes[record.payload_range.clone()]] *)
Definition payload_of (input : bytes) (r : RecordInfo) : bytes :=
  slice input (ri_payload_range r).1 (ri_payload_range r).2.

(** One turn of the [scan_records] loop at [offset]: the record and the offset
    after it, with the identifiers seen so far. *)
Definition scan_record (input : bytes) (footer_offset : N) (limits : Limits)
    (count : N) (ids : gset N) (offset : N) : R (RecordInfo * gset N) :=
  let* count := ok_or (try_u64 count) (LimitExceeded "record count") in
  check negb (max_records limits <=? count) else LimitExceeded "record count" in
  check negb (footer_offset - offset <? RECORD_HEADER_LEN) else Truncated "record header" in
  let* h := record_fields input offset limits in
  let* ids := check_identifier h ids in
  let* payload_offset :=
    ok_or (checked_add offset RECORD_HEADER_LEN) (RangeOutOfBounds "record payload") in
  let* payload_range :=
    checked_range payload_offset (h_stored_len h) footer_offset "record payload" in
  let* record_offset := ok_or (try_u64 offset) (RangeOutOfBounds "record offset") in
  Ok (mkRecordInfo (h_kind h) (h_object_id h) record_offset (h_stored_len h) (h_logical_len h)
        payload_range, ids).

(** [while offset < footer_offset]. A turn advances by at least the header, so
    [fuel] one more than the bytes left is enough ([scan_loop_Ok]). *)
Fixpoint scan_loop (fuel : nat) (input : bytes) (footer_offset : N) (limits : Limits)
    (records : list RecordInfo) (ids : gset N) (offset : N) : R (list RecordInfo) :=
  match fuel with
  | O => Err (LimitExceeded "record count")
  | S fuel =>
    if offset <? footer_offset then
      let* (record, ids) := scan_record input footer_offset limits (len records) ids offset in
      scan_loop fuel input footer_offset limits (records ++ [record]) ids
        (ri_payload_range record).2
    else
      check offset =? footer_offset else InvalidRecordOrder "records do not end at footer" in
      Ok records
  end.

Definition scan_records (input : bytes) (footer_offset : N) (limits : Limits)
    : R (list RecordInfo) :=
  scan_loop (S (length input)) input footer_offset limits [] ∅ HEADER_LEN.

Definition entry_matches (record : RecordInfo) (entry : DirectoryEntry) : bool :=
  (ri_object_id record =? id entry) && bool_decide (ri_kind record = kind entry) &&
  (ri_offset record =? offset entry) && (ri_stored_len record =? stored_len entry) &&
  (ri_logical_len record =? logical_len entry).

Definition compare_directory (records : list RecordInfo) (entries : list DirectoryEntry) : R unit :=
  check (length records =? length entries)%nat else DirectoryMismatch "entry count" in
  check forallb (fun re => entry_matches re.1 re.2) (zip records entries)
    else DirectoryMismatch "entry does not match framing" in
  Ok tt.

(** ** [ValidatedFile] *)

Record ValidatedFile : Type := mkValidated {
  vf_bytes : bytes;
  vf_epoch : N;
  vf_manifest_id : N;
  vf_manifest : Manifest;
  vf_records : list RecordInfo;
  vf_by_id : gmap N nat;
}.

Definition split_last {A} (l : list A) : option (list A * A) :=
  match rev l with
  | [] => None
  | x :: l => Some (rev l, x)
  end.

(** [by_id.insert(record.object_id, index)] for every record with an identifier. *)
Definition index_records (records : list RecordInfo) : gmap N nat :=
  foldl (fun m ir => if ri_object_id ir.2 =? 0 then m else <[ri_object_id ir.2 := ir.1]> m)
    ∅ (imap pair records).

(** The checks between the record scan and the digest. *)
Definition check_directory_record (footer : Footer) (directory_range : N * N)
    (directory_record : RecordInfo) : R unit :=
  check bool_decide (ri_kind directory_record = Directory)
    else InvalidRecordOrder "last record is not directory" in
  check ri_object_id directory_record =? 0
    else InvalidRecordOrder "directory identifier is not zero" in
  let* actual_directory_start :=
    ok_or (try_u64 (ri_offset directory_record)) (RangeOutOfBounds "directory offset") in
  check negb (negb (actual_directory_start =? directory_range.1) ||
              negb (directory_range.2 - directory_range.1 =? directory_len footer))
    else DirectoryMismatch "footer location does not match framing" in
  Ok tt.

(** The active manifest, its roots and its required capabilities. *)
Definition check_manifest (input : bytes) (limits : Limits) (footer : Footer)
    (objects records : list RecordInfo) : R Manifest :=
  let* manifest_record :=
    ok_or (List.find (fun record => ri_object_id record =? manifest_id footer) records)
      (MissingManifest (manifest_id footer)) in
  check bool_decide (ri_kind manifest_record = Manifest_) else MissingManifest (manifest_id footer) in
  let* manifest_value := decode_canonical (payload_of input manifest_record) limits in
  let* manifest := parse_manifest manifest_value in
  let available : gset N := list_to_set (ri_object_id <$> objects) in
  check forallb (fun root => bool_decide (root ∈ available)) (roots manifest)
    else InvalidMetadataSchema "manifest root does not exist" in
  match required_capabilities manifest with
  | capability :: _ => Err (UnsupportedRequiredCapability capability)
  | [] => Ok manifest
  end.

(** [ValidatedFile::parse] *)
Definition parse `{Sha256} (input : bytes) (limits : Limits) : R ValidatedFile :=
  let* file_len := ok_or (try_u64 (len input)) (LimitExceeded "file bytes") in
  check negb (max_file_bytes limits <? file_len) else LimitExceeded "file bytes" in
  check negb (len input <? HEADER_LEN + FOOTER_LEN) else Truncated "file header or footer" in
  let* _ := validate_header input in
  let footer_offset := len input - FOOTER_LEN in
  let* footer := parse_footer input footer_offset in
  let* directory_range :=
    checked_range (directory_offset footer) (directory_len footer) footer_offset "directory" in
  check directory_range.2 =? footer_offset
    else InvalidRecordOrder "directory must end at footer" in
  let* records := scan_records input footer_offset limits in
  let* count := ok_or (try_u64 (len records)) (InvalidLength "record count") in
  check count =? record_count footer else InvalidLength "footer record count" in
  let* (objects, directory_record) :=
    ok_or (split_last records) (InvalidRecordOrder "missing directory record") in
  let* _ := check_directory_record footer directory_range directory_record in
  check bool_decide (sha256 (slice input 0 footer_offset) = digest footer) else DigestMismatch in
  let* directory_value := decode_canonical (payload_of input directory_record) limits in
  let* directory_entries := parse_directory directory_value in
  let* _ := compare_directory objects directory_entries in
  let* manifest := check_manifest input limits footer objects records in
  Ok (mkValidated input EXPERIMENTAL_EPOCH (manifest_id footer) manifest records
        (index_records records)).

(** [ValidatedFile::object], [ValidatedFile::record] *)
Definition object (f : ValidatedFile) (object_id : N) : option bytes :=
  index ← vf_by_id f !! object_id;
  record ← vf_records f !! index;
  Some (payload_of (vf_bytes f) record).

Definition record (f : ValidatedFile) (object_id : N) : option RecordInfo :=
  index ← vf_by_id f !! object_id;
  vf_records f !! index.

(** ** [ValidatedFile::inspect] *)

(** [{:?}] of a [RecordKind] and of a [Vec<u64>] *)
Definition kind_debug (k : RecordKind) : string :=
  match k with Opaque => "Opaque" | Manifest_ => "Manifest" | Directory => "Directory" end%string.

Definition debug_list (l : list N) : string :=
  ("[" ++ String.concat ", " (decimal <$> l) ++ "]")%string.

Definition newline : string := String (Ascii.ascii_of_nat 10) "".

Definition inspect_line (r : RecordInfo) : string :=
  ("  id=" ++ decimal (ri_object_id r) ++ " kind=" ++ kind_debug (ri_kind r) ++
   " offset=" ++ decimal (ri_offset r) ++ " stored=" ++ decimal (ri_stored_len r) ++
   " logical=" ++ decimal (ri_logical_len r) ++ newline)%string.

Definition inspect_text (f : ValidatedFile) : string :=
  ("UCOF-EXP-0001" ++ newline ++
   "bytes: " ++ decimal (len (vf_bytes f)) ++ newline ++
   "records: " ++ decimal (len (vf_records f)) ++ newline ++
   "active manifest: " ++ decimal (vf_manifest_id f) ++ newline ++
   "roots: " ++ debug_list (roots (vf_manifest f)) ++ newline ++
   "inventory:" ++ newline ++
   foldl (fun output r => output ++ inspect_line r) "" (vf_records f))%string.
