(* ===== verification/ReaderFacts.v ===== *)
(** The whole-file reader against the specification of [Image.v]: a record
    scan recovers exactly the frames of the bytes it covers, and [parse]
    accepts exactly the images of accepted documents. *)

From Stdlib Require Import Strings.Byte Strings.String NArith ZArith Lia.
From stdpp Require Import base list gmap strings sorting.
From S2P Require Import Prelude Order Errors Format Cbor CborFacts Model Schema Digest Frame Image.
From S2P Require Import Reader.

Local Open Scope N_scope.

(** ** Identifiers *)

Definition ids_after (f : Frame) (ids : gset N) : gset N :=
  if bool_decide (f_id f = 0) then ids else {[f_id f]} ∪ ids.

Definition id_fresh (f : Frame) (ids : gset N) : Prop := id_rule f /\ f_id f ∉ ids.

(** The identifiers recorded by a scan are never zero. *)
Lemma check_identifier_Ok h ids ids' f :
  0 ∉ ids -> h_kind h = f_kind f -> h_object_id h = f_id f ->
  check_identifier h ids = Ok ids' <-> id_fresh f ids /\ ids' = ids_after f ids.
Proof.
  unfold check_identifier, id_fresh, id_rule, ids_after. intros H0 -> ->.
  destruct (N.eqb_spec (f_id f) 0) as [Hi|Hi]; case_bool_decide; case_bool_decide;
    try naive_solver.
  - rewrite Hi. naive_solver.
  - split.
    + intros E. apply ok_or_Ok, try_insert_Some in E. naive_solver.
    + intros [[_ Hf] ->]. apply ok_or_Ok, try_insert_Some. done.
Qed.

Lemma frame_ids_cons f fs :
  frame_ids (f :: fs) = if bool_decide (f_id f = 0) then frame_ids fs else f_id f :: frame_ids fs.
Proof.
  unfold frame_ids. csimpl. rewrite filter_cons.
  case_decide; case_bool_decide; naive_solver.
Qed.

Lemma elem_of_frame_ids i fs : i ∈ frame_ids fs <-> i <> 0 /\ i ∈ f_id <$> fs.
Proof. unfold frame_ids. by rewrite list_elem_of_filter. Qed.

(** A list of frames scanned with the identifiers [ids] already seen. *)
Definition fresh_ids (fs : list Frame) (ids : gset N) : Prop :=
  NoDup (frame_ids fs) /\ forall i, i ∈ frame_ids fs -> i ∉ ids.

Lemma fresh_ids_cons f fs ids :
  0 ∉ ids ->
  fresh_ids (f :: fs) ids <-> f_id f ∉ ids /\ fresh_ids fs (ids_after f ids).
Proof.
  intros H0. unfold fresh_ids, ids_after. rewrite frame_ids_cons. case_bool_decide as E.
  - rewrite E. naive_solver.
  - rewrite NoDup_cons. setoid_rewrite elem_of_cons. setoid_rewrite elem_of_union.
    setoid_rewrite elem_of_singleton. naive_solver.
Qed.

Lemma ids_after_zero f ids : 0 ∉ ids -> 0 ∉ ids_after f ids.
Proof. unfold ids_after. case_bool_decide; set_solver. Qed.

(** ** One record *)

Definition frame_info (offset : N) (f : Frame) : RecordInfo :=
  mkRecordInfo (f_kind f) (f_id f) offset (len (f_payload f)) (len (f_payload f))
    (offset + RECORD_HEADER_LEN, offset + frame_len f).

Fixpoint frame_infos (offset : N) (fs : list Frame) : list RecordInfo :=
  match fs with
  | [] => []
  | f :: fs => frame_info offset f :: frame_infos (offset + frame_len f) fs
  end.

(** The frame of the record found at [offset]. *)
Definition frame_at (input : bytes) (offset : N) (h : RecordHeader) : Frame :=
  mkFrame (h_kind h) (h_object_id h)
    (slice input (offset + RECORD_HEADER_LEN) (offset + RECORD_HEADER_LEN + h_stored_len h)).

Lemma frame_at_bytes input offset h :
  offset + RECORD_HEADER_LEN + h_stored_len h <= len input ->
  slice input offset (offset + RECORD_HEADER_LEN)
    = record_header (h_kind h) (h_object_id h) (h_stored_len h) ->
  len (f_payload (frame_at input offset h)) = h_stored_len h /\
  slice input offset (offset + frame_len (frame_at input offset h))
    = frame_bytes (frame_at input offset h).
Proof.
  intros H1 H2.
  assert (E : len (f_payload (frame_at input offset h)) = h_stored_len h).
  { simpl. rewrite slice_len by lia. lia. }
  split; [done|]. unfold frame_len, frame_bytes. rewrite E.
  rewrite <- (slice_join input offset (offset + RECORD_HEADER_LEN)) by lia.
  rewrite H2. unfold frame_at. cbn [f_payload]. do 2 f_equal. lia.
Qed.

(** The prefix of a frame is its header. *)
Lemma frame_header_slice input offset f :
  offset + frame_len f <= len input ->
  slice input offset (offset + frame_len f) = frame_bytes f ->
  slice input offset (offset + RECORD_HEADER_LEN)
    = record_header (f_kind f) (f_id f) (len (f_payload f)).
Proof.
  intros H1 H2. unfold frame_len in *.
  rewrite <- (N.add_0_r offset) at 1.
  rewrite <- (slice_slice input offset (offset + (RECORD_HEADER_LEN + len (f_payload f)))) by lia.
  rewrite H2. unfold frame_bytes. apply (slice_app []); [done|by rewrite record_header_len].
Qed.

Section Scan.
Context (input : bytes) (footer_offset : N) (limits : Limits).
Context (Hlim : limits_ok limits) (Hu : len input <= U64_MAX) (Hf : footer_offset <= len input).

Lemma scan_record_Ok count ids offset r ids' :
  0 ∉ ids -> count <= U64_MAX -> offset <= footer_offset ->
  scan_record input footer_offset limits count ids offset = Ok (r, ids') <->
  exists f, r = frame_info offset f /\ ids' = ids_after f ids /\
    frame_ok limits f /\ f_id f ∉ ids /\ count < max_records limits /\
    offset + frame_len f <= footer_offset /\
    slice input offset (offset + frame_len f) = frame_bytes f.
Proof.
  intros H0 Hc Ho. unfold scan_record. rewrite try_u64_fits by done. cbn [ok_or]. split.
  - intros H. step_result H. injection H as <- <-. bool_facts. option_facts.
    match goal with E : record_fields _ _ _ = Ok ?h |- _ =>
      apply record_fields_Ok in E as (Hh1 & Hh2 & Hh3 & Hh4); [|done]; rename h into hd end.
    match goal with p : (N * N)%type |- _ => destruct p as [s e] end.
    match goal with E : checked_range _ _ _ _ = Ok _ |- _ =>
      apply checked_range_Ok in E as (-> & -> & He & _) end.
    match goal with E : check_identifier _ _ = Ok _ |- _ =>
      apply (check_identifier_Ok _ _ _ (frame_at input offset hd)) in E as [[Hr Hi] ->]; [|done..] end.
    destruct (frame_at_bytes input offset hd) as [Hp Hs]; [lia|done|].
    destruct Hh2 as (A & B & C).
    exists (frame_at input offset hd). unfold frame_info, frame_ok, frame_len in *.
    rewrite Hp in *. split_and!; try done; try lia. rewrite C. f_equal. f_equal. lia.
  - intros (f & -> & -> & (Hr & Hid & Hpl) & Hi & Hcm & He & Hs). unfold frame_len in He.
    rewrite (proj2 (N.leb_gt _ _)) by done. cbn [negb].
    rewrite (proj2 (N.ltb_ge (footer_offset - offset) _)) by lia. cbn [negb].
    set (h := mkHeader (f_kind f) (f_id f) (len (f_payload f)) (len (f_payload f))).
    rewrite (proj2 (record_fields_Ok input offset limits h Hu)).
    2:{ unfold header_fits. simpl. pose proof (len_nil (A:=byte)).
      split_and!; try done; try lia.
      apply (frame_header_slice input); [unfold frame_len; lia|done]. }
    rewrite (proj2 (check_identifier_Ok h ids _ f H0 eq_refl eq_refl) (conj (conj Hr Hi) eq_refl)).
    rewrite checked_add_fits by lia. cbn [ok_or].
    rewrite (proj2 (checked_range_Ok (offset + RECORD_HEADER_LEN) (h_stored_len h) footer_offset "record payload"
      (offset + RECORD_HEADER_LEN) (offset + frame_len f))).
    2:{ unfold frame_len. simpl. split_and!; lia. }
    rewrite try_u64_fits by lia. done.
Qed.
(** Whole frames from [offset] up to the footer. *)
Definition frames_from (ids : gset N) (count offset : N) (fs : list Frame) : Prop :=
  Forall (frame_ok limits) fs /\ fresh_ids fs ids /\
  (fs = [] \/ count + len fs <= max_records limits) /\
  offset + len (frames_bytes fs) = footer_offset /\
  slice input offset footer_offset = frames_bytes fs.

Lemma frames_from_nil ids count offset :
  frames_from ids count offset [] <-> offset = footer_offset.
Proof.
  unfold frames_from. change (frames_bytes []) with (@nil byte). rewrite !len_nil. split.
  - intros (_&_&_&H&_). unfold len in H. simpl in H. lia.
  - intros ->. split_and!; [by apply Forall_nil| |by left|unfold len; simpl; lia|].
    + split; [constructor|]. unfold frame_ids. set_solver.
    + unfold slice. rewrite N.sub_diag. done.
Qed.

Lemma frames_from_cons ids count offset f fs :
  0 ∉ ids ->
  frames_from ids count offset (f :: fs) <->
  frame_ok limits f /\ f_id f ∉ ids /\ count < max_records limits /\
  offset + frame_len f <= footer_offset /\
  slice input offset (offset + frame_len f) = frame_bytes f /\
  frames_from (ids_after f ids) (count + 1) (offset + frame_len f) fs.
Proof.
  intros H0. unfold frames_from. rewrite Forall_cons, fresh_ids_cons by done.
  rewrite frames_bytes_cons, !len_app, len_cons, frame_bytes_len. split.
  - intros ([Hok Hoks] & [Hi Hfr] & [[=]|Hn] & He & Hs).
    assert (Hj : slice input offset (offset + frame_len f) ++
                 slice input (offset + frame_len f) footer_offset
                 = frame_bytes f ++ frames_bytes fs) by (rewrite slice_join by lia; done).
    apply app_inj_1 in Hj as [Hj1 Hj2].
    2:{ apply Nat2N.inj. change (len (slice input offset (offset + frame_len f)) = len (frame_bytes f)).
        rewrite slice_len, frame_bytes_len by lia. lia. }
    split_and!; try done; lia.
  - intros (Hok & Hi & Hn & He & Hs & Hoks & Hfr & Hc & He' & Hs').
    split_and!; try done; try lia.
    + right. destruct Hc as [->|Hc]; [rewrite len_nil|]; lia.
    + rewrite <- (slice_join input offset (offset + frame_len f)) by lia. by rewrite Hs, Hs'.
Qed.

Lemma scan_loop_Ok fuel records ids offset rs :
  0 ∉ ids -> len records <= offset -> offset <= footer_offset ->
  footer_offset - offset < N.of_nat fuel ->
  scan_loop fuel input footer_offset limits records ids offset = Ok rs <->
  exists fs, rs = records ++ frame_infos offset fs /\ frames_from ids (len records) offset fs.
Proof.
  revert records ids offset. induction fuel as [|fuel IH]; intros records ids offset H0 Hc Ho Hfu; [lia|].
  cbn [scan_loop]. destruct (N.ltb_spec offset footer_offset) as [Hlt|Hge].
  - split.
    + intros H. destruct (scan_record _ _ _ _ _ _) as [[r ids']|] eqn:E; [|done].
      apply scan_record_Ok in E as (f & -> & -> & Hok & Hi & Hm & He & Hs); [|done|lia|lia].
      pose proof (eq_refl : frame_len f = RECORD_HEADER_LEN + len (f_payload f)) as Hfl.
      unfold RECORD_HEADER_LEN in Hfl.
      change ((ri_payload_range (frame_info offset f)).2) with (offset + frame_len f) in H.
      apply IH in H as (fs & -> & Hfs);
        [|by apply ids_after_zero|rewrite len_app, len_cons, len_nil; lia|lia|lia].
      exists (f :: fs). split; [by rewrite <- app_assoc|].
      apply frames_from_cons; [done|]. rewrite len_app in Hfs. done.
    + intros (fs & -> & Hfs). destruct fs as [|f fs].
      { apply frames_from_nil in Hfs. lia. }
      apply frames_from_cons in Hfs as (Hok & Hi & Hm & He & Hs & Hfs); [|done].
      pose proof (eq_refl : frame_len f = RECORD_HEADER_LEN + len (f_payload f)) as Hfl.
      unfold RECORD_HEADER_LEN in Hfl.
      rewrite (proj2 (scan_record_Ok (len records) ids offset (frame_info offset f)
        (ids_after f ids) H0 ltac:(lia) Ho)) by (by exists f).
      change ((ri_payload_range (frame_info offset f)).2) with (offset + frame_len f).
      apply IH; [by apply ids_after_zero|rewrite len_app, len_cons, len_nil; lia|lia|lia|].
      exists fs. split; [by rewrite <- app_assoc|]. by rewrite len_app.
  - rewrite (proj2 (N.eqb_eq _ _)) by lia. split.
    + intros [= <-]. exists []. split; [by rewrite app_nil_r|]. apply frames_from_nil. lia.
    + intros (fs & -> & Hfs). destruct fs as [|f fs]; [by rewrite app_nil_r|].
      apply frames_from_cons in Hfs as (Hok & Hi & Hm & He & Hs & Hfs); [|done].
      unfold frame_len, RECORD_HEADER_LEN in He. lia.
Qed.

Lemma scan_records_Ok rs :
  HEADER_LEN <= footer_offset ->
  scan_records input footer_offset limits = Ok rs <->
  exists fs, rs = frame_infos HEADER_LEN fs /\ frames_from ∅ 0 HEADER_LEN fs.
Proof.
  intros H. unfold scan_records. rewrite scan_loop_Ok; try done; unfold len, HEADER_LEN in *; simpl; lia.
Qed.
End Scan.

(** ** Records and their frames *)

Lemma frame_infos_app off fs gs :
  frame_infos off (fs ++ gs) = frame_infos off fs ++ frame_infos (off + len (frames_bytes fs)) gs.
Proof.
  revert off. induction fs as [|f fs IH]; intros off; simpl.
  - f_equal. change (len (frames_bytes [])) with 0. lia.
  - rewrite IH, frames_bytes_cons, len_app, frame_bytes_len. do 3 f_equal. lia.
Qed.

Lemma frame_infos_length off fs : length (frame_infos off fs) = length fs.
Proof. revert off. induction fs; intros off; simpl; [done|]. by f_equal. Qed.

Lemma frame_infos_len off fs : len (frame_infos off fs) = len fs.
Proof. unfold len. by rewrite frame_infos_length. Qed.

Lemma frame_infos_ids off fs : ri_object_id <$> frame_infos off fs = f_id <$> fs.
Proof. revert off. induction fs; intros off; csimpl; [done|]. by f_equal. Qed.

(** The record at a position describes the frame at that position. *)
Lemma frame_infos_lookup off fs i :
  frame_infos off fs !! i =
  (fun f => frame_info (off + len (frames_bytes (take i fs))) f) <$> fs !! i.
Proof.
  revert off i. induction fs as [|f fs IH]; intros off [|i]; simpl; try done.
  - f_equal. f_equal. change (len (frames_bytes [])) with 0. lia.
  - rewrite IH. destruct (fs !! i); [|done]. simpl.
    rewrite frames_bytes_cons, len_app, frame_bytes_len. do 2 f_equal. lia.
Qed.

(** Payloads of the records of bytes that are frames. *)
Lemma payload_of_lookup input off fs i f :
  off + len (frames_bytes fs) <= len input ->
  slice input off (off + len (frames_bytes fs)) = frames_bytes fs ->
  fs !! i = Some f ->
  payload_of input (frame_info (off + len (frames_bytes (take i fs))) f) = f_payload f.
Proof.
  intros Hl Hs Hi. rewrite <- (take_drop_middle _ _ _ Hi) in Hl, Hs at 1.
  set (pre := take i fs) in *. rewrite frames_bytes_app, frames_bytes_cons, !len_app, frame_bytes_len in *.
  set (total := len (frames_bytes pre) + _) in *. set (post := drop _ fs) in *.
  assert (Hslice : slice (slice input off (off + total))
      (len (frames_bytes pre) + RECORD_HEADER_LEN) (len (frames_bytes pre) + frame_len f) = f_payload f).
  { rewrite <- (take_drop_middle _ _ _ Hi) in Hs. fold pre post in Hs.
    rewrite frames_bytes_app, frames_bytes_cons in Hs. rewrite Hs. unfold frame_bytes.
    rewrite <- !app_assoc, app_assoc. apply slice_app; unfold frame_len;
      rewrite len_app, record_header_len; unfold RECORD_HEADER_LEN; lia. }
  rewrite slice_slice in Hslice by (unfold total, frame_len, RECORD_HEADER_LEN in *; lia).
  unfold payload_of, frame_info. cbn [ri_payload_range fst snd]. rewrite <- Hslice. f_equal; lia.
Qed.

Lemma find_lookup {A} (p : A -> bool) l x :
  List.find p l = Some x -> p x = true /\ exists i, l !! i = Some x.
Proof.
  intros H. apply find_some in H as [H1 H2]. split; [done|].
  apply list_elem_of_lookup. by apply list_elem_of_In.
Qed.

(** Identifiers are unique among the objects, so [find] returns the object. *)
Lemma find_by_id off fs i f :
  NoDup (frame_ids fs) -> f_id f <> 0 -> fs !! i = Some f ->
  List.find (fun r => ri_object_id r =? f_id f) (frame_infos off fs)
  = Some (frame_info (off + len (frames_bytes (take i fs))) f).
Proof.
  intros Hn H0. revert Hn off i. induction fs as [|g fs IH]; intros Hn off i Hi; [done|].
  rewrite frame_ids_cons in Hn. simpl. destruct i as [|i].
  - injection Hi as ->. rewrite N.eqb_refl. do 2 f_equal. change (len (frames_bytes (take 0 _))) with 0. lia.
  - simpl in Hi.
    assert (Hne : f_id g <> f_id f).
    { intros E. rewrite E, bool_decide_false in Hn by done. inversion Hn as [|? ? Hx]; subst.
      apply Hx, elem_of_frame_ids. split; [done|]. apply list_elem_of_fmap. exists f. split; [done|].
      by eapply list_elem_of_lookup_2. }
    rewrite (proj2 (N.eqb_neq _ _) Hne). rewrite (IH ltac:(clear IH; case_bool_decide; [done|]; by inversion Hn) _ i) by done.
    simpl. rewrite frames_bytes_cons, len_app, frame_bytes_len. do 2 f_equal. lia.
Qed.

(** The same search through the directory entries. *)
Lemma find_entry_by_id off fs i f :
  NoDup (frame_ids fs) -> f_id f <> 0 -> fs !! i = Some f ->
  List.find (fun e => id e =? f_id f) (frame_entries off fs)
  = Some (frame_entry (off + len (frames_bytes (take i fs))) f).
Proof.
  intros Hn H0 Hi. pose proof (find_by_id off fs i f Hn H0 Hi) as H.
  assert (E : forall off fs, List.find (fun e => id e =? f_id f) (frame_entries off fs)
    = (fun r => mkEntry (ri_object_id r) (ri_kind r) (ri_offset r) (ri_stored_len r) (ri_logical_len r))
      <$> List.find (fun r => ri_object_id r =? f_id f) (frame_infos off fs)).
  { clear. intros off fs. revert off. induction fs as [|g fs IH]; intros off; [done|]. simpl.
    destruct (f_id g =? f_id f); [done|apply IH]. }
  by rewrite E, H.
Qed.

(** ** The checks of [parse] after the scan *)

Lemma split_last_Ok {A} (l : list A) l' x : split_last l = Some (l', x) <-> l = l' ++ [x].
Proof.
  unfold split_last. split.
  - destruct (rev l) as [|y r] eqn:E; [done|]. intros [= <- <-].
    rewrite <- (rev_involutive l), E. done.
  - intros ->. rewrite rev_app_distr. simpl. by rewrite rev_involutive.
Qed.

Lemma entry_matches_info off f e :
  entry_matches (frame_info off f) e = true <-> e = frame_entry off f.
Proof.
  unfold entry_matches, frame_entry. destruct e as [i k o s l]. simpl.
  rewrite !andb_true_iff, !N.eqb_eq, bool_decide_eq_true. naive_solver.
Qed.

Lemma compare_directory_Ok off fs es :
  compare_directory (frame_infos off fs) es = Ok tt <-> es = frame_entries off fs.
Proof.
  unfold compare_directory. rewrite frame_infos_length. split.
  - intros H. step_result H. clear H.
    match goal with E : (_ =? _)%nat = true |- _ => apply Nat.eqb_eq in E; rename E into Hl end.
    match goal with E : forallb _ _ = true |- _ => revert off es Hl E end. clear.
    induction fs as [|f fs IH]; intros off [|e es] Hl H; try discriminate; [done|].
    simpl in H. apply andb_true_iff in H as [H1 H2]. apply entry_matches_info in H1 as ->.
    simpl. f_equal. apply IH; [by injection Hl|done].
  - intros ->. rewrite frame_entries_length, Nat.eqb_refl.
    assert (E : forallb (fun re => entry_matches re.1 re.2)
      (zip (frame_infos off fs) (frame_entries off fs)) = true); [|by rewrite E].
    revert off. induction fs as [|f fs IH]; intros off; [done|]. simpl.
    rewrite IH, andb_true_r. by apply entry_matches_info.
Qed.

(** What the scanner leaves: the records of whole frames. *)
Definition holds_frames (input : bytes) (fs : list Frame) : Prop :=
  HEADER_LEN + len (frames_bytes fs) <= len input /\
  slice input HEADER_LEN (HEADER_LEN + len (frames_bytes fs)) = frames_bytes fs.

Lemma infos_lookup input fs r :
  holds_frames input fs -> r ∈ frame_infos HEADER_LEN fs ->
  exists f, f ∈ fs /\ ri_kind r = f_kind f /\ ri_object_id r = f_id f /\ payload_of input r = f_payload f.
Proof.
  intros [Hl Hs] Hr. apply list_elem_of_lookup in Hr as [i Hi].
  rewrite frame_infos_lookup in Hi. destruct (fs !! i) as [f|] eqn:Hf; [|done].
  injection Hi as <-. exists f. split; [by eapply list_elem_of_lookup_2|].
  split_and!; [done|done|]. by apply (payload_of_lookup input HEADER_LEN fs i f).
Qed.

Section CheckManifest.
Context (input : bytes) (limits : Limits) (footer : Footer) (fs : list Frame).
Context (Hlim : limits_ok limits).
Let d := directory_frame fs.
Context (Hin : holds_frames input (fs ++ [d])).
Context (Hids : NoDup (frame_ids fs)) (Hrule : Forall id_rule fs).

Lemma frame_ids_directory : frame_ids (fs ++ [d]) = frame_ids fs.
Proof.
  unfold frame_ids. rewrite fmap_app, filter_app. simpl. rewrite filter_cons, filter_nil.
  rewrite decide_False by naive_solver. apply app_nil_r.
Qed.

Lemma check_manifest_Ok m :
  check_manifest input limits footer (frame_infos HEADER_LEN fs) (frame_infos HEADER_LEN (fs ++ [d]))
  = Ok m <->
  selects limits fs (manifest_id footer) m /\ required_capabilities m = [].
Proof.
  unfold check_manifest. split.
  - intros H. destruct (List.find _ _) as [r|] eqn:Ef; [|done]. cbn [ok_or] in H.
    apply find_lookup in Ef as [Hid Hr]. apply list_elem_of_lookup in Hr.
    apply (infos_lookup input) in Hr as (f & Hf & Hk & Hi & Hp); [|done].
    rewrite Hp, Hk in H. clear Hp. bool_facts. rewrite Hid in Hi.
    case_bool_decide as Hm; [|done].
    apply elem_of_app in Hf as [Hf|Hf]; [|apply list_elem_of_singleton in Hf; by subst f].
    destruct (decode_canonical (f_payload f) limits) as [v|] eqn:Hd; [|done].
    destruct (parse_manifest v) as [m'|] eqn:Hpm; [|done].
    destruct (forallb _ _) eqn:Hroots; [|done].
    destruct (required_capabilities m') eqn:Hreq; [|done]. injection H as ->.
    pose proof (decode_manifest limits (f_payload f) m Hlim) as X. rewrite Hd in X.
    apply X in Hpm as (Ha & Hpay & Hs). clear X. split; [|done].
    destruct f as [k i p]. simpl in *. clear Hk. subst p i k. split; try done.
    + rewrite Forall_forall in Hrule. intros E. by apply (proj2 (Hrule _ Hf)) in E.
    + intros root Hroot. rewrite forallb_forall in Hroots.
      specialize (Hroots root ltac:(by apply list_elem_of_In)).
      apply bool_decide_eq_true in Hroots. apply elem_of_list_to_set in Hroots.
      by rewrite frame_infos_ids in Hroots.
  - intros [[Hid Hf Ha Hs Hroots] Hreq]. apply list_elem_of_lookup in Hf as [i Hi].
    assert (Hi' : (fs ++ [d]) !! i = Some (manifest_frame (manifest_id footer) m))
      by (by apply lookup_app_l_Some).
    pose proof (find_by_id HEADER_LEN (fs ++ [d]) i (manifest_frame (manifest_id footer) m) ltac:(by rewrite frame_ids_directory) Hid Hi') as E.
    simpl in E. rewrite E. cbn [ok_or ri_kind frame_info f_kind].
    rewrite bool_decide_true by done.
    rewrite (payload_of_lookup input HEADER_LEN (fs ++ [d]) i _ (proj1 Hin) (proj2 Hin) Hi').
    cbn [f_payload manifest_frame].
    pose proof (proj2 (decode_manifest limits (enc (manifest_to_cbor m)) m Hlim) (conj Ha (conj eq_refl Hs))) as X.
    destruct (decode_canonical _ _) as [v|]; [|done]. rewrite X.
    assert (Hall : forallb (fun root => bool_decide (root ∈ (list_to_set (ri_object_id <$> frame_infos HEADER_LEN fs) : gset N))) (roots m) = true).
    { apply forallb_forall. intros root Hr. apply bool_decide_eq_true, elem_of_list_to_set.
      rewrite frame_infos_ids. apply Hroots. by apply list_elem_of_In. }
    by rewrite Hall, Hreq.
Qed.
End CheckManifest.

(** ** [parse] *)

Definition records_of (fs : list Frame) : list RecordInfo :=
  frame_infos HEADER_LEN (fs ++ [directory_frame fs]).

Definition validated `{Sha256} (fs : list Frame) (mid : N) (m : Manifest) : ValidatedFile :=
  mkValidated (image fs mid) EXPERIMENTAL_EPOCH mid m (records_of fs) (index_records (records_of fs)).

Lemma committed_bytes fs :
  committed fs = file_header ++ frames_bytes (fs ++ [directory_frame fs]).
Proof. by rewrite committed_frames. Qed.

Lemma committed_len fs : len (committed fs) = HEADER_LEN + len (frames_bytes (fs ++ [directory_frame fs])).
Proof. by rewrite committed_bytes, len_app. Qed.

Lemma committed_body_len fs : len (committed fs) = len (body fs) + frame_len (directory_frame fs).
Proof. unfold committed. by rewrite len_app, frame_bytes_len. Qed.

(** The slices of an image. *)
Section ImageSlices.
Context `{Sha256Ok} (fs : list Frame) (mid : N).
Let fo := len (committed fs).

Lemma image_len_eq : len (image fs mid) - FOOTER_LEN = fo.
Proof. rewrite image_len. unfold fo. lia. Qed.

Lemma image_header : slice (image fs mid) 0 HEADER_LEN = file_header.
Proof.
  unfold image. rewrite committed_bytes, <- app_assoc.
  by apply (slice_app []).
Qed.

Lemma image_committed : slice (image fs mid) 0 fo = committed fs.
Proof. by apply (slice_app []). Qed.

Lemma image_frames :
  slice (image fs mid) HEADER_LEN fo = frames_bytes (fs ++ [directory_frame fs]).
Proof.
  unfold image. rewrite committed_bytes, <- app_assoc. apply slice_app; [done|].
  unfold fo. by rewrite committed_len.
Qed.

Lemma image_footer_slice :
  slice (image fs mid) fo (fo + FOOTER_LEN) = footer_bytes (image_footer fs mid).
Proof.
  unfold image. rewrite <- (app_nil_r (_ ++ _)), <- app_assoc. apply slice_app; [done|].
  unfold fo. rewrite footer_bytes_len; [done|]. apply sha256_len.
Qed.
End ImageSlices.

(** The bytes are determined by those slices. *)
Lemma bytes_of_slices input fs fb :
  len (committed fs) <= len input ->
  slice input 0 HEADER_LEN = file_header ->
  slice input HEADER_LEN (len (committed fs)) = frames_bytes (fs ++ [directory_frame fs]) ->
  slice input (len (committed fs)) (len input) = fb ->
  input = committed fs ++ fb.
Proof.
  intros Hl H1 H2 H3.
  assert (HEADER_LEN <= len (committed fs)) by (rewrite committed_len; lia).
  rewrite (slice_split input HEADER_LEN (len (committed fs))) by lia.
  rewrite H1, H2, H3. by rewrite committed_bytes, <- app_assoc.
Qed.

Lemma check_directory_record_Ok footer a b off f :
  off <= U64_MAX -> 
  check_directory_record footer (a, b) (frame_info off f) = Ok tt <->
  f_kind f = Directory /\ f_id f = 0 /\ off = a /\ b - a = directory_len footer.
Proof.
  intros Hu. unfold check_directory_record. simpl. rewrite try_u64_fits by done. cbn [ok_or].
  case_bool_decide; [|naive_solver].
  destruct (N.eqb_spec (f_id f) 0); [|naive_solver].
  destruct (N.eqb_spec off a), (N.eqb_spec (b - a) (directory_len footer)); simpl; naive_solver.
Qed.

Lemma slice_suffix {A} (pre mid : list A) a : a = len pre -> slice (pre ++ mid) a (len (pre ++ mid)) = mid.
Proof.
  intros ->. rewrite <- (app_nil_r mid) at 1. apply slice_app; [done|]. by rewrite len_app.
Qed.

Lemma framed_split limits fs :
  framed limits fs <->
  frames_from (body (fs ++ [directory_frame fs])) (len (committed fs)) limits ∅ 0 HEADER_LEN
    (fs ++ [directory_frame fs]) /\
  len (committed fs) + FOOTER_LEN <= max_file_bytes limits /\ admitted limits (directory_value fs).
Proof.
  unfold frames_from, fresh_ids.
  rewrite frame_ids_directory, (len_app fs), <- committed_frames. change (len [_]) with 1.
  split.
  - intros [Hf Hi Hc Hl Hd]. split; [|done]. split_and!; try done.
    + by right.
    + by rewrite committed_len.
    + rewrite committed_bytes. by apply slice_suffix.
  - intros [(Hf & [Hi _] & [Hn|Hc] & _) [Hl Hd]].
    + by apply app_nil in Hn as [_ ?].
    + split; try done.
Qed.

(** A successful scan of a slice depends only on that slice. *)
Lemma frames_from_slice input fo limits fs :
  HEADER_LEN <= fo -> fo <= len input ->
  frames_from input fo limits ∅ 0 HEADER_LEN fs <->
  fo = HEADER_LEN + len (frames_bytes fs) /\
  slice input HEADER_LEN fo = frames_bytes fs /\
  frames_from (body fs) (len (body fs)) limits ∅ 0 HEADER_LEN fs.
Proof.
  intros H1 H2. unfold frames_from.
  assert (E : slice (body fs) HEADER_LEN (len (body fs)) = frames_bytes fs)
    by (by apply slice_suffix).
  rewrite E, body_len. split.
  - intros (?&?&?&?&?). split_and!; done.
  - intros (->&?&?&?&?&?&?). split_and!; done.
Qed.

Lemma scan_image `{Sha256Ok} limits fs mid :
  limits_ok limits -> framed limits fs -> len (image fs mid) <= U64_MAX ->
  scan_records (image fs mid) (len (committed fs)) limits = Ok (records_of fs).
Proof.
  intros Hlim Hfr Hu. pose proof (proj1 (framed_split _ _) Hfr) as (Hff & _).
  pose proof (image_len fs mid) as Hlen. pose proof (committed_len fs) as Hcl.
  apply scan_records_Ok; [done|lia..|].
  exists (fs ++ [directory_frame fs]). split; [done|].
  apply frames_from_slice; [lia|lia|]. split; [done|]. split; [apply image_frames|].
  rewrite (committed_frames fs) in Hff. exact Hff.
Qed.

(** The checks after the scan, on the image. *)
Lemma image_directory_payload `{Sha256Ok} fs mid :
  payload_of (image fs mid) (frame_info (len (body fs)) (directory_frame fs)) = enc (directory_value fs).
Proof.
  pose proof (committed_len fs) as Hcl. pose proof (image_len fs mid) as Hlen.
  rewrite body_len.
  replace (frames_bytes fs) with (frames_bytes (take (length fs) (fs ++ [directory_frame fs])))
    by (by rewrite take_app_length).
  apply (payload_of_lookup _ HEADER_LEN (fs ++ [directory_frame fs])); [lia| |].
  - rewrite <- Hcl. apply image_frames.
  - by apply list_lookup_middle.
Qed.

Lemma records_of_snoc fs :
  records_of fs = frame_infos HEADER_LEN fs ++ [frame_info (len (body fs)) (directory_frame fs)].
Proof. unfold records_of. by rewrite frame_infos_app, body_len. Qed.

Lemma image_holds `{Sha256Ok} fs mid : holds_frames (image fs mid) (fs ++ [directory_frame fs]).
Proof.
  split; rewrite <- committed_len; [rewrite image_len; lia|apply image_frames].
Qed.

Lemma framed_rules limits fs : framed limits fs -> Forall id_rule fs.
Proof.
  intros H. apply framed_frames in H. apply Forall_app in H as [H _].
  eapply Forall_impl; [exact H|]. by intros f [? _].
Qed.

Lemma parse_image `{Sha256Ok} limits fs mid m :
  limits_ok limits -> mid <= U64_MAX ->
  accepted limits fs mid m -> required_capabilities m = [] ->
  parse (image fs mid) limits = Ok (validated fs mid m).
Proof.
  intros Hlim Hmid [Hfr Hsel] Hreq.
  pose proof (proj1 (framed_split _ _) Hfr) as (Hff & Hmax & Hdir).
  assert (Hmf : max_file_bytes limits <= U64_MAX)
    by (apply (limits_ok_field limits); [done|set_solver]).
  pose proof (image_len fs mid) as Hlen. pose proof (image_len_eq fs mid) as Hfo.
  pose proof (committed_len fs) as Hcl. pose proof (committed_body_len fs) as Hbl.
  assert (Hheader : HEADER_LEN + FOOTER_LEN <= len (image fs mid)) by (rewrite Hlen; lia).
  assert (Hu : len (image fs mid) <= U64_MAX) by lia.
  assert (Hh : HEADER_LEN <= len (image fs mid)) by lia.
  unfold parse. rewrite try_u64_fits by lia. cbn [ok_or].
  rewrite (proj2 (N.ltb_ge _ _)) by lia. cbn [negb].
  rewrite (proj2 (N.ltb_ge _ _)) by lia. cbn [negb].
  rewrite (proj2 (validate_header_Ok _ Hh Hu) (image_header fs mid)).
  rewrite Hfo.
  rewrite (proj2 (parse_footer_Ok _ _ (image_footer fs mid) Hu)).
  2:{ split_and!; [lia| |apply image_footer_slice].
      unfold footer_fits. simpl. rewrite sha256_len.
      pose proof (len_le_frames_bytes fs) as Hn. rewrite body_len in *. unfold RECORD_HEADER_LEN, HEADER_LEN, FOOTER_LEN in *.
      split_and!; try done; lia. }
  cbn [Frame.directory_offset Frame.directory_len Frame.manifest_id Frame.record_count image_footer Frame.digest].
  rewrite (proj2 (checked_range_Ok _ _ _ _ (len (body fs)) (len (committed fs)))) by (split_and!; lia).
  cbn [snd]. rewrite N.eqb_refl.
  rewrite scan_image by (done || lia).
  assert (Hrl : len (records_of fs) = len fs + 1)
    by (rewrite records_of_snoc, len_app; unfold len; rewrite frame_infos_length; done).
  assert (Hcnt : len fs + 1 <= U64_MAX).
  { pose proof (len_le_frames_bytes fs) as Hn. rewrite body_len in *.
    unfold RECORD_HEADER_LEN, HEADER_LEN, FOOTER_LEN in *. lia. }
  rewrite Hrl, try_u64_fits by done. cbn [ok_or]. rewrite N.eqb_refl.
  rewrite (proj2 (split_last_Ok (records_of fs) _ _) (records_of_snoc fs)). cbn [ok_or].
  rewrite (proj2 (check_directory_record_Ok _ _ _ (len (body fs)) _ ltac:(lia))).
  2:{ split_and!; try done. simpl. lia. }
  rewrite image_committed, bool_decide_true by done.
  rewrite image_directory_payload.
  pose proof (proj2 (decode_directory limits (enc (directory_value fs)) _ Hlim) (conj Hdir eq_refl)) as Hd.
  destruct (decode_canonical (enc (directory_value fs)) limits) as [v|]; [|done]. rewrite Hd.
  rewrite (proj2 (compare_directory_Ok _ _ _) eq_refl).
  unfold records_of at 1.
  rewrite (proj2 (check_manifest_Ok (image fs mid) limits (image_footer fs mid) fs Hlim (image_holds fs mid)
     (framed_ids _ _ Hfr) (framed_rules _ _ Hfr) m) (conj Hsel Hreq)).
  done.
Qed.

(** A scan whose last record is split off. *)
Lemma scan_split input fo limits records objects last :
  limits_ok limits -> len input <= U64_MAX -> fo <= len input -> HEADER_LEN <= fo ->
  scan_records input fo limits = Ok records ->
  split_last records = Some (objects, last) ->
  exists fs d, records = frame_infos HEADER_LEN (fs ++ [d]) /\
    objects = frame_infos HEADER_LEN fs /\ last = frame_info (len (body fs)) d /\
    frames_from input fo limits ∅ 0 HEADER_LEN (fs ++ [d]).
Proof.
  intros Hlim Hu Hf Hh Hs Hl. apply scan_records_Ok in Hs as (gs & -> & Hgs); [|done..].
  apply split_last_Ok in Hl.
  destruct gs as [|d fs _] using rev_ind; [by apply eq_sym, app_nil in Hl as [_ ?]|].
  rewrite frame_infos_app in Hl. apply app_inj_tail in Hl as [<- <-].
  exists fs, d. split_and!; try done. by rewrite body_len.
Qed.

(** The frame the checks identify as the directory is the canonical one. *)
Lemma directory_frame_of limits fs d :
  limits_ok limits -> f_kind d = Directory -> f_id d = 0 ->
  (match decode_canonical (f_payload d) limits with
   | Ok v => parse_directory v | Err e => Err e end) = Ok (frame_entries HEADER_LEN fs) ->
  d = directory_frame fs /\ admitted limits (directory_value fs).
Proof.
  intros Hlim Hk Hi H. apply decode_directory in H as [Ha Hp]; [|done].
  destruct d as [k i p]. simpl in *. by subst.
Qed.

Lemma holds_of_frames input fo limits fs :
  fo <= len input -> frames_from input fo limits ∅ 0 HEADER_LEN fs -> holds_frames input fs.
Proof. intros H (_&_&_&He&Hs). split; [lia|]. by rewrite He. Qed.

Lemma last_payload input fs d :
  holds_frames input (fs ++ [d]) -> payload_of input (frame_info (len (body fs)) d) = f_payload d.
Proof.
  intros [H1 H2]. rewrite body_len.
  replace (frames_bytes fs) with (frames_bytes (take (length fs) (fs ++ [d])))
    by (by rewrite take_app_length).
  apply (payload_of_lookup _ HEADER_LEN (fs ++ [d])); [done|done|by apply list_lookup_middle].
Qed.

Lemma parse_sound `{Sha256} limits input f :
  limits_ok limits -> parse input limits = Ok f ->
  exists fs mid m, mid <= U64_MAX /\ accepted limits fs mid m /\ required_capabilities m = [] /\
    input = image fs mid /\ f = validated fs mid m.
Proof.
  intros Hlim Hp. unfold parse in Hp.
  destruct (try_u64 _) as [n|] eqn:E; [|done]. apply try_u64_Some in E as [-> Hu]. cbn [ok_or] in Hp.
  destruct (N.ltb_spec (max_file_bytes limits) (len input)) as [|Hmax]; [done|]. cbn [negb] in Hp.
  destruct (N.ltb_spec (len input) (HEADER_LEN + FOOTER_LEN)) as [|Hmin]; [done|]. cbn [negb] in Hp.
  destruct (validate_header input) as [[]|] eqn:Eh; [|done].
  apply validate_header_Ok in Eh; [|lia|done].
  set (fo := len input - FOOTER_LEN) in *.
  assert (Hfo : fo + FOOTER_LEN = len input) by (unfold fo; lia).
  destruct (parse_footer input fo) as [footer|] eqn:Ef; [|done].
  apply parse_footer_Ok in Ef as (_ & Hff & Hfb); [|done].
  destruct (checked_range _ _ _ _) as [[ds de]|] eqn:Er; [|done].
  apply checked_range_Ok in Er as (-> & -> & Hde & _). cbn [snd fst] in Hp.
  destruct (N.eqb_spec (directory_offset footer + directory_len footer) fo) as [Hd|]; [|done].
  destruct (scan_records input fo limits) as [records|] eqn:Es; [|done].
  destruct (try_u64 _) as [count|] eqn:Ec; [|done]. apply try_u64_Some in Ec as [-> _]. cbn [ok_or] in Hp.
  destruct (N.eqb_spec (len records) (record_count footer)) as [Hc|]; [|done].
  destruct (split_last records) as [[objects last]|] eqn:El; [|done]. cbn [ok_or] in Hp.
  destruct (scan_split input fo limits _ _ _ Hlim Hu ltac:(lia) ltac:(lia) Es El) as (fs & d & -> & -> & -> & Hfrom).
  destruct (check_directory_record _ _ _) as [[]|] eqn:Ed; [|done].
  pose proof Hfrom as (_ & _ & _ & Hlen & Hslice).
  rewrite frames_bytes_snoc, len_app, frame_bytes_len in Hlen.
  apply check_directory_record_Ok in Ed as (Hk & Hi & Hoff & Hdl); [|rewrite body_len; lia].
  case_bool_decide as Hdig; [|done].
  pose proof (holds_of_frames input fo _ _ ltac:(lia) Hfrom) as Hholds.
  rewrite (last_payload _ _ _ Hholds) in Hp.
  destruct (decode_canonical (f_payload d) limits) as [v|] eqn:Edv; [|done].
  destruct (parse_directory v) as [es|] eqn:Epd; [|done].
  destruct (compare_directory _ _) as [[]|] eqn:Ecd; [|done].
  apply compare_directory_Ok in Ecd as ->.
  destruct (directory_frame_of limits fs d Hlim Hk Hi) as [-> Hadm]; [by rewrite Edv|].
  assert (Hcom : slice input 0 fo = committed fs).
  { rewrite <- (slice_join input 0 HEADER_LEN fo) by lia. by rewrite Eh, Hslice, committed_bytes. }
  assert (Hcl : fo = len (committed fs)).
  { rewrite committed_len, frames_bytes_snoc, len_app, frame_bytes_len. lia. }
  assert (Hframed : framed limits fs).
  { apply framed_split. split_and!; [|lia|done].
    apply frames_from_slice in Hfrom as (_ & _ & Hfrom); [|lia|lia]. by rewrite <- committed_frames in Hfrom |- *. }
  destruct (check_manifest _ _ _ _ _) as [m|] eqn:Em; [|done]. injection Hp as <-.
  apply check_manifest_Ok in Em as [Hsel Hreq]; [|done|done|by eapply framed_ids|by eapply framed_rules].
  assert (Hfooter : footer = image_footer fs (manifest_id footer)).
  { destruct footer as [a b c n g]. unfold image_footer. simpl in *. rewrite Hcom in Hdig.
    rewrite frame_infos_len, len_app in Hc.
    rewrite <- Hdig, <- Hc, <- Hoff. f_equal. rewrite body_len in Hoff. lia. }
  assert (Himg : input = image fs (manifest_id footer)).
  { apply bytes_of_slices; [lia|done|by rewrite <- Hcl|]. by rewrite <- Hcl, <- Hfo, <- Hfooter. }
  destruct Hff as (_&_&Hmid&_). exists fs, (manifest_id footer), m.
  split_and!; try done. unfold validated. by rewrite <- Himg.
Qed.

(** ** Lookups in a validated file *)

Lemma index_records_snoc rs r :
  index_records (rs ++ [r]) =
  if ri_object_id r =? 0 then index_records rs
  else <[ri_object_id r := length rs]> (index_records rs).
Proof.
  unfold index_records. rewrite imap_app, foldl_app. simpl. by rewrite Nat.add_0_r.
Qed.

(** The index is sound: it only names positions holding that identifier. *)
Lemma index_records_sound rs i k :
  index_records rs !! i = Some k -> i <> 0 /\ exists r, rs !! k = Some r /\ ri_object_id r = i.
Proof.
  induction rs as [|r rs IH] using rev_ind; [done|]. rewrite index_records_snoc.
  assert (Hmono : forall k r', rs !! k = Some r' -> (rs ++ [r]) !! k = Some r')
    by (intros; by apply lookup_app_l_Some).
  destruct (N.eqb_spec (ri_object_id r) 0) as [E|E].
  - intros H. destruct (IH H) as (H0 & r' & Hr' & Hi). eauto.
  - destruct (decide (ri_object_id r = i)) as [<-|Hne].
    + rewrite lookup_insert_eq. intros [= <-]. split; [done|]. exists r.
      split; [by apply list_lookup_middle|done].
    + rewrite lookup_insert_ne by done. intros H. destruct (IH H) as (H0 & r' & Hr' & Hi). eauto.
Qed.

(** ... and complete: every identifier is indexed. *)
Lemma index_records_complete rs r :
  r ∈ rs -> ri_object_id r <> 0 -> exists k, index_records rs !! ri_object_id r = Some k.
Proof.
  induction rs as [|r' rs IH] using rev_ind; [set_solver|]. rewrite index_records_snoc.
  intros Hr H0. apply elem_of_app in Hr as [Hr|Hr%list_elem_of_singleton].
  - destruct (N.eqb_spec (ri_object_id r') 0); [by apply IH|].
    destruct (decide (ri_object_id r' = ri_object_id r)) as [E|Hne].
    + rewrite E, lookup_insert_eq. eauto.
    + rewrite lookup_insert_ne by done. by apply IH.
  - subst r'. rewrite (proj2 (N.eqb_neq _ _) H0), lookup_insert_eq. eauto.
Qed.

Lemma frame_ids_unique fs f g :
  NoDup (frame_ids fs) -> f_id f <> 0 -> f ∈ fs -> g ∈ fs -> f_id f = f_id g -> f = g.
Proof.
  intros Hn H0. induction fs as [|h fs IH]; [set_solver|].
  rewrite frame_ids_cons in Hn. intros Hf Hg E.
  assert (Hout : forall x, x ∈ fs -> f_id x = f_id h -> f_id h <> 0 -> False).
  { intros x Hx Ex Hh. rewrite bool_decide_false in Hn by done. inversion Hn as [|? ? Hni]; subst.
    apply Hni, elem_of_frame_ids. split; [done|]. rewrite <- Ex. by apply list_elem_of_fmap_2. }
  apply elem_of_cons in Hf as [->|Hf], Hg as [->|Hg]; try done.
  - exfalso. by apply (Hout g).
  - exfalso. apply (Hout f); congruence.
  - apply IH; try done. case_bool_decide; [done|]. by inversion Hn.
Qed.

Section Lookups.
Context `{Sha256Ok} (limits : Limits) (fs : list Frame) (mid : N) (m : Manifest).
Context (Hfr : framed limits fs).

Lemma record_validated i :
  record (validated fs mid m) i =
  index ← index_records (records_of fs) !! i; records_of fs !! index.
Proof. done. Qed.

Lemma object_frame f : f ∈ fs -> f_id f <> 0 -> object (validated fs mid m) (f_id f) = Some (f_payload f).
Proof.
  intros Hf Hnz. unfold object, validated. cbn [vf_by_id vf_records vf_bytes].
  assert (Hr : exists r, r ∈ records_of fs /\ ri_object_id r = f_id f).
  { apply list_elem_of_lookup in Hf as [i Hi].
    exists (frame_info (HEADER_LEN + len (frames_bytes (take i fs))) f). split; [|done].
    unfold records_of. rewrite frame_infos_app. apply elem_of_app. left.
    apply list_elem_of_lookup. exists i. rewrite frame_infos_lookup, Hi. done. }
  destruct Hr as (r & Hr & Hri). rewrite <- Hri in Hnz.
  destruct (index_records_complete _ _ Hr Hnz) as [k Hk]. rewrite Hri in Hk, Hnz. rewrite Hk. simpl.
  apply index_records_sound in Hk as (_ & r' & Hk & Hr'). rewrite Hk. simpl. f_equal.
  apply list_elem_of_lookup_2 in Hk.
  destruct (infos_lookup _ _ _ (image_holds fs mid) Hk) as (g & Hg & _ & Hgi & Hgp). rewrite Hgp.
  f_equal. symmetry. apply (frame_ids_unique (fs ++ [directory_frame fs])); try done.
  - rewrite frame_ids_directory. apply (framed_ids _ _ Hfr).
  - set_solver.
  - congruence.
Qed.

Lemma object_absent i : i ∉ frame_ids fs -> object (validated fs mid m) i = None.
Proof.
  intros Hi. unfold object, validated. cbn [vf_by_id vf_records vf_bytes].
  destruct (_ !! i) as [k|] eqn:Hk; [|done]. exfalso.
  apply index_records_sound in Hk as (H0' & r & Hk & Hr). apply list_elem_of_lookup_2 in Hk.
  apply Hi. rewrite <- (frame_ids_directory fs). apply elem_of_frame_ids. split; [done|].
  rewrite <- (frame_infos_ids HEADER_LEN), <- Hr. by apply list_elem_of_fmap_2.
Qed.
End Lookups.
