(* ===== verification/WriterFacts.v ===== *)
(** The in-memory writer against the specification of [Image.v]: every writer
    state reached from [writer_new] holds the body of the frames added so far,
    and [finish] produces their image; what it writes parses back. *)

From Stdlib Require Import Strings.Byte Strings.String NArith ZArith Lia.
From stdpp Require Import base list gmap strings sorting.
From S2P Require Import Prelude Order Errors Format Cbor CborFacts Model Digest Schema Writer Frame Image.
From S2P Require Import Reader ReaderFacts.

Local Open Scope N_scope.

(** What the writer will accept as a frame. *)
Definition writable (f : Frame) : Prop := f_kind f <> Directory /\ f_id f <> 0.

Record writes (w : Writer) (fs : list Frame) : Prop := {
  wr_bytes : w_bytes w = body fs;
  wr_entries : w_entries w = frame_entries HEADER_LEN fs;
  wr_ids : w_object_ids w = list_to_set (f_id <$> fs);
  wr_objects : Forall writable fs;
  wr_nodup : NoDup (f_id <$> fs);
}.

Lemma writer_new_writes : writes writer_new [].
Proof. split; try done; constructor. Qed.

Lemma append_record_bytes target f :
  len (f_payload f) <= U64_MAX ->
  append_record target (f_kind f) (f_id f) (f_payload f) = Ok (target ++ frame_bytes f).
Proof.
  intros H. unfold append_record. rewrite try_u64_fits by done. cbn [ok_or].
  unfold push_u64_le, push_u32_le, push_u16_le, frame_bytes, record_header.
  by rewrite <- !app_assoc.
Qed.

Lemma push_footer_bytes target a b c n g :
  push_footer target a b c n g = target ++ footer_bytes (mkFooter a b c n g).
Proof.
  unfold push_footer, push_u64_le, push_u32_le, footer_bytes. by rewrite <- !app_assoc.
Qed.

Lemma body_snoc fs f : body (fs ++ [f]) = body fs ++ frame_bytes f.
Proof. unfold body. by rewrite frames_bytes_snoc, app_assoc. Qed.

(** Adding a record: every branch. A [Vec] never outgrows [u64], which is the
    hypothesis on the length. *)
Lemma add_record_spec w fs k i p :
  writes w fs -> len (w_bytes w) + RECORD_HEADER_LEN + len p <= U64_MAX ->
  match add_record w k i p with
  | Ok w' => k <> Directory /\ i <> 0 /\ i ∉ f_id <$> fs /\ writes w' (fs ++ [mkFrame k i p])
  | Err e =>
      (k = Directory /\ e = InvalidRecordOrder "directory is created during finalization") \/
      (k <> Directory /\ i = 0 /\ e = InvalidMetadataSchema "object identifier zero is reserved") \/
      (k <> Directory /\ i <> 0 /\ i ∈ f_id <$> fs /\ e = DuplicateObjectId i)
  end.
Proof.
  intros [Hb He Hi Ho Hn] Hl. unfold add_record.
  case_bool_decide as Hk; [by left|]. cbn [negb].
  destruct (N.eqb_spec i 0) as [H0|H0]; [by right; left|]. cbn [negb].
  unfold try_insert. rewrite Hi. case_bool_decide as Hin.
  - apply elem_of_list_to_set in Hin. by right; right.
  - cbn [ok_or]. rewrite !try_u64_fits by lia. cbn [ok_or].
    pose proof (append_record_bytes (w_bytes w) (mkFrame k i p)) as Ha. simpl in Ha. rewrite Ha by lia.
    rewrite elem_of_list_to_set in Hin.
    assert (Hlen : len (w_bytes w) = HEADER_LEN + len (frames_bytes fs)) by (by rewrite Hb, body_len).
    split_and!; [done|done|done|]. split; simpl.
    + by rewrite body_snoc, Hb.
    + by rewrite frame_entries_snoc, He, Hlen.
    + rewrite fmap_app, list_to_set_app_L. simpl. set_solver.
    + apply Forall_app. split; [done|]. by repeat constructor.
    + rewrite fmap_app. apply NoDup_app. split_and!; [done|set_solver|by repeat constructor; set_solver].
Qed.

Definition is_manifest (fs : list Frame) (mid : N) : bool :=
  existsb (fun f => (f_id f =? mid) && bool_decide (f_kind f = Manifest_)) fs.

Lemma find_entry_spec fs mid :
  NoDup (f_id <$> fs) ->
  (match find_entry mid (frame_entries HEADER_LEN fs) with
   | Some e => bool_decide (kind e = Manifest_) | None => false end) = is_manifest fs mid.
Proof.
  unfold find_entry, is_manifest. generalize HEADER_LEN.
  induction fs as [|f fs IH]; intros off Hn; [done|]. csimpl in Hn. inversion Hn as [|? ? Hni Hn']; subst.
  simpl. destruct (N.eqb_spec (f_id f) mid) as [<-|Hne]; simpl; [|by apply IH].
  case_bool_decide; [done|]. simpl. symmetry. apply not_true_iff_false. intros HH.
  apply existsb_exists in HH as (g & Hg & E). bool_facts. apply Hni.
  apply list_elem_of_fmap. exists g. split; [done|by apply list_elem_of_In].
Qed.

Lemma encodes_directory_value fs : len fs <= U64_MAX -> encodes (directory_value fs).
Proof. intros H. apply encodes_directory. by rewrite frame_entries_len. Qed.

(** [finish] is total: it writes the image of the frames, or reports that the
    selected manifest is not one of them. *)
Lemma finish_spec `{Sha256} w fs mid :
  writes w fs -> len (committed fs) <= U64_MAX ->
  finish w mid = if is_manifest fs mid then Ok (image fs mid) else Err (MissingManifest mid).
Proof.
  intros [Hb He Hi Ho Hn] Hl. unfold finish.
  pose proof (find_entry_spec fs mid Hn) as Hf. rewrite He.
  assert (Hc : len (committed fs) = HEADER_LEN + len (frames_bytes fs) + frame_len (directory_frame fs))
    by (unfold committed; rewrite len_app, frame_bytes_len, body_len; lia).
  pose proof (len_le_frames_bytes fs) as Hcnt. unfold RECORD_HEADER_LEN, HEADER_LEN in Hc, Hcnt.
  assert (Hp : len (enc (directory_value fs)) + 40 <= U64_MAX)
    by (unfold frame_len, RECORD_HEADER_LEN in Hc; simpl in Hc; lia).
  destruct (find_entry mid _) as [e|]; cbn [ok_or]; rewrite <- Hf; [|done].
  case_bool_decide; [|done].
  fold (directory_value fs). rewrite (encodes_enc _ (encodes_directory_value fs ltac:(lia))).
  rewrite Hb. rewrite try_u64_fits by (rewrite body_len; unfold HEADER_LEN; lia). cbn [ok_or].
  pose proof (append_record_bytes (body fs) (directory_frame fs)) as Ha. simpl in Ha.
  rewrite Ha by lia. rewrite try_u64_fits by lia. cbn [ok_or].
  rewrite frame_entries_len, try_u64_fits by lia. cbn [ok_or].
  rewrite checked_add_fits by lia. cbn [ok_or].
  by rewrite push_footer_bytes.
Qed.

(** ** Scripts of writer calls *)

Inductive WriterOp : Type :=
  | AddOpaque (object_id : N) (payload : bytes)
  | AddManifest (object_id : N) (manifest : Manifest).

Definition run_op (w : Writer) (op : WriterOp) : R Writer :=
  match op with
  | AddOpaque i p => add_opaque w i p
  | AddManifest i m => add_manifest w i m
  end.

Definition write_file `{Sha256} (ops : list WriterOp) (mid : N) : R bytes :=
  let* w := fold_result run_op ops writer_new in
  finish w mid.

Definition op_frame (op : WriterOp) : Frame :=
  match op with
  | AddOpaque i p => mkFrame Opaque i p
  | AddManifest i m => manifest_frame i m
  end.

Definition op_ok (op : WriterOp) : Prop :=
  match op with
  | AddOpaque _ _ => True
  | AddManifest _ m => shape_ok m /\ encodes (manifest_to_cbor m)
  end.

(** A script the writer completes. *)
Definition script_ok (fs : list Frame) (ops : list WriterOp) : Prop :=
  Forall op_ok ops /\ Forall (fun f => f_id f <> 0) (op_frame <$> ops) /\
  NoDup (f_id <$> fs ++ (op_frame <$> ops)).

Lemma run_op_Ok w fs op w' :
  writes w fs -> len (w_bytes w) + frame_len (op_frame op) <= U64_MAX ->
  run_op w op = Ok w' ->
  op_ok op /\ f_id (op_frame op) <> 0 /\ f_id (op_frame op) ∉ f_id <$> fs /\
  writes w' (fs ++ [op_frame op]).
Proof.
  intros Hw Hl H. unfold frame_len in Hl. rewrite N.add_assoc in Hl. destruct op as [i p|i m]; simpl in *.
  - pose proof (add_record_spec w fs Opaque i p Hw Hl) as X. unfold add_opaque in H. rewrite H in X.
    destruct X as (_&?&?&?). done.
  - unfold add_manifest in H. step_result H.
    destruct (enc_Ok _ _ Heqr0) as [<- He].
    pose proof (add_record_spec w fs Manifest_ i _ Hw Hl) as X. rewrite H in X.
    destruct X as (_&?&?&?). split; [|done]. split; [|done]. apply validate_shape_Ok.
    match goal with E : validate_shape _ = Ok ?u |- _ => by destruct u end.
Qed.

Lemma run_op_complete w fs op :
  writes w fs -> len (w_bytes w) + frame_len (op_frame op) <= U64_MAX ->
  op_ok op -> f_id (op_frame op) <> 0 -> f_id (op_frame op) ∉ f_id <$> fs ->
  exists w', run_op w op = Ok w' /\ writes w' (fs ++ [op_frame op]).
Proof.
  intros Hw Hl Hok Hi Hf. unfold frame_len in Hl. rewrite N.add_assoc in Hl.
  assert (X : forall k, k <> Directory -> f_kind (op_frame op) = k ->
    exists w', add_record w k (f_id (op_frame op)) (f_payload (op_frame op)) = Ok w' /\
               writes w' (fs ++ [op_frame op])).
  { intros k Hk Hk'. pose proof (add_record_spec w fs k (f_id (op_frame op)) _ Hw Hl) as X.
    destruct (add_record _ _ _ _) as [w'|]; [|by destruct X as [[]|[(?&?&?)|(?&?&?&?)]]].
    exists w'. split; [done|]. destruct X as (_&_&_&X). rewrite <- Hk' in X. by destruct (op_frame op). }
  destruct op as [i p|i m]; simpl in *; [by apply X|].
  destruct Hok as [Hs He]. unfold add_manifest. rewrite (proj2 (validate_shape_Ok m) Hs).
  rewrite (encodes_enc _ He). by apply X.
Qed.

Lemma run_ops_Ok ops w fs w' :
  writes w fs -> len (body (fs ++ (op_frame <$> ops))) <= U64_MAX ->
  fold_result run_op ops w = Ok w' -> script_ok fs ops /\ writes w' (fs ++ (op_frame <$> ops)).
Proof.
  revert w fs. induction ops as [|op ops IH]; csimpl; intros w fs Hw Hl H.
  - injection H as <-. rewrite app_nil_r. split; [|done].
    split_and!; [constructor|constructor|]. csimpl. rewrite app_nil_r. apply (wr_nodup _ _ Hw).
  - destruct (run_op w op) as [w1|] eqn:E; [|done].
    rewrite cons_middle, app_assoc in Hl |- *.
    apply (run_op_Ok w fs) in E as (Hok & Hi & Hf & Hw1); [|done|].
    2:{ rewrite (wr_bytes _ _ Hw). rewrite body_len in *. rewrite !frames_bytes_app, !len_app in Hl.
        rewrite <- (frame_bytes_len (op_frame op)).
        change (len (frames_bytes [op_frame op])) with (len (frame_bytes (op_frame op) ++ [])) in Hl.
        rewrite app_nil_r in Hl. lia. }
    destruct (IH w1 _ Hw1 Hl H) as [(H1 & H2 & H3) Hw']. split; [|done].
    split_and!; [by constructor|by constructor|]. csimpl. by rewrite cons_middle, app_assoc.
Qed.

Lemma run_ops_complete ops w fs :
  writes w fs -> len (body (fs ++ (op_frame <$> ops))) <= U64_MAX -> script_ok fs ops ->
  exists w', fold_result run_op ops w = Ok w' /\ writes w' (fs ++ (op_frame <$> ops)).
Proof.
  revert w fs. induction ops as [|op ops IH]; csimpl; intros w fs Hw Hl (H1 & H2 & H3).
  - exists w. by rewrite app_nil_r.
  - csimpl in *. rewrite cons_middle, app_assoc in Hl, H3 |- *.
    inversion H1; inversion H2; subst.
    destruct (run_op_complete w fs op) as (w1 & E & Hw1); try done.
    { rewrite (wr_bytes _ _ Hw). rewrite body_len in *. rewrite !frames_bytes_app, !len_app in Hl.
      rewrite <- (frame_bytes_len (op_frame op)).
      change (len (frames_bytes [op_frame op])) with (len (frame_bytes (op_frame op) ++ [])) in Hl.
      rewrite app_nil_r in Hl. lia. }
    { rewrite !fmap_app in H3. apply NoDup_app in H3 as (H3 & _ & _).
      apply NoDup_app in H3 as (_ & H3 & _). intros Hin. apply (H3 _ Hin). simpl. set_solver. }
    rewrite E. by apply IH.
Qed.

(** The writer, from start to finish: exactly the well-formed scripts that
    select one of their manifests succeed, and the file is the image. *)
Lemma write_file_Ok `{Sha256} ops mid out :
  len (committed (op_frame <$> ops)) <= U64_MAX ->
  write_file ops mid = Ok out <->
  script_ok [] ops /\ is_manifest (op_frame <$> ops) mid = true /\ out = image (op_frame <$> ops) mid.
Proof.
  intros Hl.
  assert (Hb : len (body ([] ++ (op_frame <$> ops))) <= U64_MAX)
    by (unfold committed in Hl; rewrite len_app in Hl; simpl; lia).
  unfold write_file. split.
  - intros Hw. destruct (fold_result _ _ _) as [w|] eqn:E; [|done].
    apply (run_ops_Ok ops _ []) in E as [Hs Hwr]; [|apply writer_new_writes|done].
    rewrite (finish_spec _ _ _ Hwr Hl) in Hw. simpl in Hw.
    destruct (is_manifest _ _); [|done]. by injection Hw as <-.
  - intros (Hs & Hm & ->).
    destruct (run_ops_complete ops writer_new [] writer_new_writes Hb Hs) as (w & -> & Hwr).
    rewrite (finish_spec _ _ _ Hwr Hl). simpl. by rewrite Hm.
Qed.

(** ** What the writer guarantees of the framing *)

(** The sizes a limit has to cover. *)
Record fits (limits : Limits) (fs : list Frame) : Prop := {
  fits_payloads : Forall (fun f => len (f_payload f) <= max_payload_bytes limits) (fs ++ [directory_frame fs]);
  fits_ids : Forall (fun f => f_id f <= U64_MAX) fs;
  fits_count : len fs + 1 <= max_records limits;
  fits_file : len (committed fs) + FOOTER_LEN <= max_file_bytes limits;
  fits_metadata : len (enc (directory_value fs)) <= max_metadata_bytes limits;
  fits_admits : admits limits (directory_value fs);
}.

Lemma script_frames_objects ops fs :
  script_ok fs ops -> Forall writable (op_frame <$> ops).
Proof.
  intros (_ & H & _). rewrite Forall_forall in H. apply Forall_forall. intros f Hf.
  split; [|by apply H]. apply list_elem_of_fmap in Hf as (op & -> & _). by destruct op.
Qed.

Lemma writer_framed limits ops :
  limits_ok limits -> script_ok [] ops -> fits limits (op_frame <$> ops) ->
  framed limits (op_frame <$> ops).
Proof.
  intros Hlim Hs [Hp Hi Hc Hf Hm Ha].
  assert (Hr : max_records limits <= U64_MAX) by (apply (limits_ok_field limits); [done|set_solver]).
  pose proof (script_frames_objects _ _ Hs) as Ho. destruct Hs as (_ & _ & Hn). simpl in Hn.
  split; try done.
  - apply Forall_app in Hp as [Hp Hd]. apply Forall_app. split.
    + apply Forall_forall. intros f Hin. rewrite Forall_forall in Hp, Hi, Ho.
      destruct (Ho f Hin) as [Hk H0]. split_and!; [|by apply Hi|by apply Hp].
      split; intros E; [by destruct (Hk E)|by destruct (H0 E)].
    + inversion Hd as [|? ? Hd1 _]; subst. apply Forall_singleton. by split_and!.
  - unfold frame_ids. by apply NoDup_filter.
  - split_and!; [|done|done]. apply encodes_directory_value. lia.
Qed.

Lemma op_frame_elem (ops : list WriterOp) op : op ∈ ops -> op_frame op ∈ op_frame <$> ops.
Proof. apply list_elem_of_fmap_2. Qed.

(** The round trip. *)
Lemma parse_write_file `{Sha256Ok} limits ops mid m out :
  limits_ok limits -> mid <= U64_MAX ->
  write_file ops mid = Ok out ->
  fits limits (op_frame <$> ops) ->
  AddManifest mid m ∈ ops ->
  admits limits (manifest_to_cbor m) -> len (enc (manifest_to_cbor m)) <= max_metadata_bytes limits ->
  (forall root, root ∈ roots m -> exists op, op ∈ ops /\ f_id (op_frame op) = root) ->
  required_capabilities m = [] ->
  parse out limits = Ok (validated (op_frame <$> ops) mid m) /\ framed limits (op_frame <$> ops).
Proof.
  intros Hlim Hmid Hw Hfit Hm Hma Hml Hroots Hreq.
  assert (Hl : len (committed (op_frame <$> ops)) <= U64_MAX).
  { pose proof (fits_file _ _ Hfit).
    assert (max_file_bytes limits <= U64_MAX) by (apply (limits_ok_field limits); [done|set_solver]). lia. }
  apply write_file_Ok in Hw as (Hs & _ & ->); [|done].
  pose proof (writer_framed _ _ Hlim Hs Hfit) as Hfr. split; [|done].
  apply parse_image; try done. split; [done|].
  pose proof Hs as (Hok & Hnz & _). rewrite Forall_forall in Hok. specialize (Hok _ Hm) as [Hsh Hen].
  rewrite Forall_forall in Hnz.
  split; try done.
  - by apply (Hnz _ (op_frame_elem _ _ Hm)).
  - by apply (op_frame_elem _ (AddManifest mid m)).
  - intros root Hr. destruct (Hroots root Hr) as (op & Hop & <-).
    apply list_elem_of_fmap_2. by apply op_frame_elem.
Qed.

(** ** How large a directory a limit admits *)

Lemma vitems_entry e : vitems (entry_to_cbor e) = 11.
Proof. done. Qed.

(** The decoder counts every item of the directory: 11 for each entry. *)
Lemma vitems_directory es : vitems (directory_to_cbor es) = 3 + 11 * len es.
Proof.
  unfold directory_to_cbor. cbn [vitems foldr fst snd].
  assert (E : foldr (fun x m => vitems x + m) 0 (map entry_to_cbor es) = 11 * len es); [|rewrite E; lia].
  induction es as [|e es IH]; [done|]. cbn [map foldr]. rewrite IH, vitems_entry, len_cons. lia.
Qed.

Lemma vheight_directory es : vheight (directory_to_cbor es) <= 3.
Proof.
  apply vheight_Map_Forall. repeat constructor; cbn [fst snd]; [done|].
  assert (H : vheight (Array (map entry_to_cbor es)) <= 2); [|lia].
  apply vheight_Array_Forall, Forall_forall. intros v Hv.
  apply list_elem_of_fmap in Hv as (e & -> & _). done.
Qed.

Lemma value_fits_directory limits es :
  11 <= max_text_bytes limits -> Forall entry_ok es -> value_fits limits (directory_to_cbor es) = true.
Proof.
  intros Ht He. unfold directory_to_cbor. cbn [value_fits forallb fst snd].
  change (valid_utf8 (as_bytes "entries")) with true. change (len (as_bytes "entries")) with 7.
  rewrite (proj2 (N.leb_le 7 _)) by lia. rewrite !andb_true_r. cbn [andb].
  apply forallb_forall. intros v Hv. apply in_map_iff in Hv as (e & <- & Hin).
  apply list_elem_of_In in Hin. rewrite Forall_forall in He. destruct (He e Hin) as (H1&H2&H3&H4).
  assert (Hk : u16_from_kind (kind e) <= U64_MAX) by (by destruct (kind e)).
  unfold entry_to_cbor. cbn [value_fits forallb fst snd].
  repeat match goal with |- context [valid_utf8 (as_bytes ?s)] =>
    change (valid_utf8 (as_bytes s)) with true;
    let n := eval vm_compute in (len (as_bytes s)) in change (len (as_bytes s)) with n end.
  rewrite !(proj2 (N.leb_le _ _)) by lia. done.
Qed.

Lemma admits_directory limits es :
  limits_ok limits -> 11 <= max_text_bytes limits -> 3 <= max_metadata_depth limits ->
  3 + 11 * len es <= max_container_items limits -> Forall entry_ok es ->
  admits limits (directory_to_cbor es).
Proof.
  intros Hl Ht Hd Hi He. split_and!.
  - by apply value_fits_directory.
  - pose proof (vheight_directory es). lia.
  - by rewrite vitems_directory.
  - apply (limits_ok_field limits); [done|set_solver].
Qed.

Lemma admits_directory_count limits es :
  admits limits (directory_to_cbor es) -> 3 + 11 * len es <= max_container_items limits.
Proof. intros (_ & _ & H & _). by rewrite vitems_directory in H. Qed.

Lemma frame_entries_ok fs off :
  Forall (fun f => f_id f <= U64_MAX) fs -> off + len (frames_bytes fs) <= U64_MAX ->
  Forall entry_ok (frame_entries off fs).
Proof.
  revert off. induction fs as [|f fs IH]; intros off Hi Hl; simpl; [constructor|].
  inversion Hi; subst. rewrite frames_bytes_cons, len_app, frame_bytes_len in Hl.
  constructor; [|apply IH; [done|lia]]. unfold entry_ok, frame_len in *. simpl. split_and!; try done; lia.
Qed.

(** Each entry takes at most 88 bytes, so the item bound also bounds the bytes. *)
Lemma encode_head_len major n : len (encode_head major n []) <= 9.
Proof. unfold encode_head. repeat case_match; reflexivity || (vm_compute; discriminate) || done. Qed.

Lemma enc_unsigned_len n : len (enc (Unsigned n)) <= 9.
Proof. apply encode_head_len. Qed.

Lemma enc_entry_len e : len (enc (entry_to_cbor e)) <= 84.
Proof.
  destruct (normal_entry e) as [He _]. unfold entry_to_cbor in *. apply enc_Map in He as (_ & _ & ->).
  assert (E : forall a b c d f,
    sort_entries [(Text "id", a); (Text "kind", b); (Text "offset", c); (Text "stored_len", d); (Text "logical_len", f)]
    = [(Text "id", a); (Text "kind", b); (Text "offset", c); (Text "stored_len", d); (Text "logical_len", f)])
    by (intros; reflexivity).
  rewrite E. cbn [fmap list_fmap fst snd concat]. rewrite !len_app.
  repeat match goal with |- context [len (enc (Text ?s))] =>
    let n := eval vm_compute in (len (enc (Text s))) in change (len (enc (Text s))) with n end.
  repeat match goal with |- context [len (enc (Unsigned ?n))] =>
    pose proof (enc_unsigned_len n); generalize dependent (len (enc (Unsigned n))); intros end.
  match goal with |- context [len (encode_head 5 ?n [])] =>
    change (len (encode_head 5 n [])) with 1 end.
  change (len []) with 0. lia.
Qed.

Lemma enc_directory_len es :
  len es <= U64_MAX -> len (enc (directory_to_cbor es)) <= 18 + 84 * len es.
Proof.
  intros Hl. pose proof (encodes_directory es Hl) as He. unfold directory_to_cbor in *.
  apply enc_Map in He as (Hf & _ & ->). inversion Hf as [|? ? [_ Ha] _]; subst. simpl in Ha.
  change (sort_entries [(Text "entries", Array (map entry_to_cbor es))])
    with [(Text "entries", Array (map entry_to_cbor es))].
  cbn [fmap list_fmap fst snd concat]. rewrite !len_app.
  apply enc_Array in Ha as [_ ->]. rewrite len_app.
  pose proof (encode_head_len 4 (len (map entry_to_cbor es))).
  change (len (encode_head 5 _ [])) with 1. change (len (enc (Text "entries"))) with 8.
  assert (E : len (concat (enc <$> map entry_to_cbor es)) <= 84 * len es).
  { clear. induction es as [|e es IH]; [done|]. cbn [map fmap list_fmap concat].
    rewrite len_app, len_cons. pose proof (enc_entry_len e). change (list_fmap _ _ enc) with (fmap (M:=list) enc) in *. lia. }
  change (len []) with 0. lia.
Qed.

(** The limits as plain sizes: what a caller has to check. *)
Lemma fits_sizes limits fs :
  limits_ok limits -> 11 <= max_text_bytes limits -> 3 <= max_metadata_depth limits ->
  Forall (fun f => f_id f <= U64_MAX /\ len (f_payload f) <= max_payload_bytes limits) fs ->
  3 + 11 * len fs <= max_container_items limits -> len fs + 1 <= max_records limits ->
  18 + 84 * len fs <= max_metadata_bytes limits -> 18 + 84 * len fs <= max_payload_bytes limits ->
  HEADER_LEN + len (frames_bytes fs) + RECORD_HEADER_LEN + (18 + 84 * len fs) + FOOTER_LEN
    <= max_file_bytes limits ->
  fits limits fs.
Proof.
  intros Hl Ht Hd Hf Hi Hr Hm Hp Hfile.
  assert (Hmf : max_file_bytes limits <= U64_MAX) by (apply (limits_ok_field limits); [done|set_solver]).
  assert (Hmr : max_records limits <= U64_MAX) by (apply (limits_ok_field limits); [done|set_solver]).
  pose proof (enc_directory_len (frame_entries HEADER_LEN fs)) as He. rewrite frame_entries_len in He.
  specialize (He ltac:(lia)). change (directory_to_cbor (frame_entries HEADER_LEN fs)) with (directory_value fs) in He.
  split.
  - apply Forall_app. split; [eapply Forall_impl; [exact Hf|]; by intros ? []|].
    apply Forall_singleton. simpl. lia.
  - eapply Forall_impl; [exact Hf|]. by intros ? [].
  - done.
  - unfold committed. rewrite len_app, body_len, frame_bytes_len. unfold frame_len. simpl.
    unfold RECORD_HEADER_LEN, HEADER_LEN, FOOTER_LEN in *. lia.
  - lia.
  - apply admits_directory; try done; [by rewrite frame_entries_len|].
    apply frame_entries_ok; [eapply Forall_impl; [exact Hf|]; by intros ? []|].
    unfold RECORD_HEADER_LEN, HEADER_LEN, FOOTER_LEN in *. lia.
Qed.
