(* ===== verification/Source.v ===== *)
(** [crates/ucof-core/src/source.rs]: random-access sources, the budgeted
    reader over them, and the metadata-only inspector. *)

From Stdlib Require Import Strings.Byte Strings.String NArith ZArith Lia.
From stdpp Require Import base list gmap strings sorting.
From S2P Require Import Prelude Order Errors Format Cbor Model Schema Frame Machine.

Local Open Scope N_scope.

(** ** Sources *)

(** [SliceSource]: a byte slice. *)
Record SliceSource : Type := mkSliceSource { slice_bytes : bytes }.

Definition slice_read_exact_at (s : SliceSource) (offset n : N) : IO bytes :=
  match try_u64 offset with
  | None => Err InvalidInput
  | Some start =>
      match checked_add start n with
      | None => Err InvalidInput
      | Some end_ => match get_range (slice_bytes s) start end_ with Some b => Ok b | None => Err UnexpectedEof end
      end
  end.

#[export] Instance slice_read_at : ReadAt SliceSource := {
  source_len s := (match try_u64 (len (slice_bytes s)) with Some n => Ok n | None => Err InvalidData end, s);
  read_exact_at s offset n := (slice_read_exact_at s offset n, s);
}.

(** [SeekSource<R>]: a seekable reader. *)
Record SeekSource (T : Type) : Type := mkSeekSource { seek_inner : T }.
Arguments mkSeekSource {T}.
Arguments seek_inner {T}.

#[export] Instance seek_read_at {T} `{ReadStream T, Seek T} : ReadAt (SeekSource T) := {
  source_len s :=
    let '(r, t) := seek_end (seek_inner s) in (r, mkSeekSource t);
  read_exact_at s offset n :=
    match seek_start (seek_inner s) offset with
    | (Err e, t) => (Err e, mkSeekSource t)
    | (Ok _, t) => let '(r, t) := stream_read_exact t n in (r, mkSeekSource t)
    end;
}.

(** [std::io::Cursor] over a byte vector: a position in it. *)
Record Cursor : Type := mkCursor { cursor_bytes : bytes; cursor_position : N }.

Definition cursor_available (c : Cursor) : bytes :=
  drop (N.to_nat (N.min (cursor_position c) (len (cursor_bytes c)))) (cursor_bytes c).

#[export] Instance cursor_read : ReadStream Cursor := {
  stream_read c n :=
    let b := take (N.to_nat n) (cursor_available c) in
    (Ok b, mkCursor (cursor_bytes c) (cursor_position c + len b));
  stream_read_exact c n :=
    if n <=? len (cursor_available c)
    then (Ok (take (N.to_nat n) (cursor_available c)), mkCursor (cursor_bytes c) (cursor_position c + n))
    else (Err UnexpectedEof, mkCursor (cursor_bytes c) (len (cursor_bytes c)));
}.

#[export] Instance cursor_seek : Seek Cursor := {
  seek_start c n := (Ok n, mkCursor (cursor_bytes c) n);
  seek_end c := (Ok (len (cursor_bytes c)), mkCursor (cursor_bytes c) (len (cursor_bytes c)));
  stream_position c := (Ok (cursor_position c), c);
}.

(** ** [BudgetedSource] *)

Record ReadStats : Type := mkReadStats {
  rs_read_operations : N;
  rs_bytes_read : N;
  rs_largest_allocation : N;
}.

(** The mutable part of [BudgetedSource]; its length and limits are fixed for
    a call and are parameters below. *)
Record Budgeted (S : Type) : Type := mkBudgeted { bs_source : S; bs_stats : ReadStats }.
Arguments mkBudgeted {S}.
Arguments bs_source {S}.
Arguments bs_stats {S}.

Inductive IntegrityStatus : Type := NotChecked | Verified.

Record InspectionReport : Type := mkInspection {
  ir_file_len : N;
  ir_epoch : N;
  ir_manifest_id : N;
  ir_manifest : Manifest;
  ir_entries : list DirectoryEntry;
  ir_unsupported_required_capabilities : list N;
  ir_integrity : IntegrityStatus;
  ir_stats : ReadStats;
}.

(** [InspectionReport::is_fully_interpretable] *)
Definition is_fully_interpretable (r : InspectionReport) : bool :=
  match ir_unsupported_required_capabilities r with [] => true | _ => false end.

Definition checked_end (offset length upper_bound : N) (context : string) : R N :=
  let* end_ := ok_or (checked_add offset length) (RangeOutOfBounds context) in
  check negb (upper_bound <? end_) else RangeOutOfBounds context in
  Ok end_.

(** The array copies of the framing checks. *)
Definition source_validate_header (b : bytes) : R unit := validate_header b.
Definition source_parse_footer (b : bytes) : R Footer := parse_footer b 0.

Record SourceHeader : Type := mkSourceHeader { sh_fields : RecordHeader; sh_payload_offset : N }.

Definition source_parse_record_header (b : bytes) (offset : N) (limits : Limits) : R SourceHeader :=
  let* h := record_fields b 0 limits in
  let* payload_offset :=
    ok_or (checked_add offset RECORD_HEADER_LEN) (RangeOutOfBounds "record payload") in
  Ok (mkSourceHeader h payload_offset).

Section Budgeted.
Context {S : Type} `{ReadAt S} (file_len : N) (limits : Limits).

(** [self.source.read_exact_at(offset, buffer).map_err(|_| Error::Io(context))] *)
Definition source_read (offset n : N) (context : string) : SE (Budgeted S) bytes := fun r =>
  let '(res, s) := read_exact_at (bs_source r) offset n in
  (match res with Ok b => Ok b | Err _ => Err (Io context) end, mkBudgeted s (bs_stats r)).

Definition set_stats (f : ReadStats -> ReadStats) : SE (Budgeted S) unit :=
  se_modify (fun r => mkBudgeted (bs_source r) (f (bs_stats r))).

(** [BudgetedSource::read_exact] with a buffer of [length] bytes *)
Definition bs_read_exact (offset length : N) (context : string) : SE (Budgeted S) bytes :=
  do* length := se_lift (ok_or (try_u64 length) (LimitExceeded "total bytes read")) in
  do* _ := se_lift (checked_end offset length file_len context) in
  do* r := se_get in
  do* next_total := se_lift (ok_or (checked_add (rs_bytes_read (bs_stats r)) length)
                               (LimitExceeded "total bytes read")) in
  do* _ := guard (negb (max_total_bytes_read limits <? next_total))
             (LimitExceeded "total bytes read") in
  do* buffer := source_read offset length context in
  do* _ := set_stats (fun st =>
    mkReadStats (rs_read_operations st) next_total (rs_largest_allocation st)) in
  do* ops := se_lift (ok_or (checked_add (rs_read_operations (bs_stats r)) 1)
                        (LimitExceeded "read operations")) in
  do* _ := set_stats (fun st =>
    mkReadStats ops (rs_bytes_read st) (N.max (rs_largest_allocation st) length)) in
  se_ret buffer.

(** [BudgetedSource::read_array::<N>] *)
Definition bs_read_array (n offset : N) (context : string) : SE (Budgeted S) bytes :=
  bs_read_exact offset n context.

(** [BudgetedSource::read_vec] *)
Definition bs_read_vec (offset length : N) (context : string) : SE (Budgeted S) bytes :=
  do* _ := guard (negb (max_allocation_bytes limits <? length))
             (LimitExceeded "single allocation bytes") in
  do* length_usize := se_lift (ok_or (try_u64 length) (LimitExceeded "single allocation bytes")) in
  bs_read_exact offset length_usize context.

(** One turn of the loop of [validate_inventory_headers]. *)
Definition validate_inventory_header (directory_offset : N) (st : N * gset N)
    (entry : DirectoryEntry) : SE (Budgeted S) (N * gset N) :=
  let '(expected_offset, identifiers) := st in
  do* identifiers := se_lift (
    if id entry =? 0 then Err (DuplicateObjectId (id entry))
    else ok_or (try_insert (id entry) identifiers) (DuplicateObjectId (id entry))) in
  do* _ := guard (offset entry =? expected_offset)
             (DirectoryMismatch "non-contiguous record offset") in
  do* header_bytes := bs_read_array RECORD_HEADER_LEN (offset entry) "inventory record header" in
  do* header := se_lift (source_parse_record_header header_bytes (offset entry) limits) in
  let h := sh_fields header in
  do* _ := guard (negb (bool_decide (h_kind h = Directory) || (h_object_id h =? 0)))
             (InvalidRecordOrder "directory entry describes structural record") in
  do* _ := guard (bool_decide (h_kind h = kind entry) && (h_object_id h =? id entry) &&
                  (h_stored_len h =? stored_len entry) && (h_logical_len h =? logical_len entry))
             (DirectoryMismatch "entry does not match record header") in
  do* expected_offset := se_lift (checked_end (sh_payload_offset header) (h_stored_len h)
                                    directory_offset "inventory record payload") in
  se_ret (expected_offset, identifiers).

Definition validate_inventory_headers (entries : list DirectoryEntry) (directory_offset : N)
    : SE (Budgeted S) unit :=
  do* (expected_offset, _) :=
    se_iter (validate_inventory_header directory_offset) entries (HEADER_LEN, ∅) in
  guard (expected_offset =? directory_offset)
    (DirectoryMismatch "inventory does not end at directory").

(** The directory record the footer locates, and its entries. *)
Definition inspect_directory (footer_offset : N) (footer : Footer)
    : SE (Budgeted S) (list DirectoryEntry) :=
  do* directory_end := se_lift (checked_end (directory_offset footer) (directory_len footer)
                                  footer_offset "directory") in
  do* _ := guard (directory_end =? footer_offset)
             (InvalidRecordOrder "directory must end at footer") in
  do* _ := guard (negb (directory_len footer <? RECORD_HEADER_LEN))
             (InvalidLength "directory record") in
  do* directory_header_bytes :=
    bs_read_array RECORD_HEADER_LEN (directory_offset footer) "directory record header" in
  do* directory_header := se_lift (source_parse_record_header directory_header_bytes
                                     (directory_offset footer) limits) in
  let h := sh_fields directory_header in
  do* _ := guard (negb (negb (bool_decide (h_kind h = Directory)) || negb (h_object_id h =? 0)))
             (InvalidRecordOrder "invalid directory record") in
  do* directory_total := se_lift (ok_or (checked_add RECORD_HEADER_LEN (h_stored_len h))
                                    (RangeOutOfBounds "directory record")) in
  do* _ := guard (directory_total =? directory_len footer)
             (DirectoryMismatch "footer directory length") in
  do* _ := guard (negb (max_metadata_bytes limits <? h_stored_len h))
             (LimitExceeded "directory metadata bytes") in
  do* directory_payload := bs_read_vec (sh_payload_offset directory_header) (h_stored_len h)
                             "directory payload" in
  do* directory_value := se_lift (decode_canonical directory_payload limits) in
  do* entries := se_lift (parse_directory directory_value) in
  do* count := se_lift (ok_or (try_u64 (len entries)) (LimitExceeded "record count")) in
  do* expected_record_count := se_lift (ok_or (checked_add count 1) (LimitExceeded "record count")) in
  do* _ := guard (expected_record_count =? record_count footer)
             (InvalidLength "footer record count") in
  do* _ := guard (negb (max_records limits <? expected_record_count))
             (LimitExceeded "record count") in
  se_ret entries.

(** The active manifest among the entries. *)
Definition inspect_manifest (footer : Footer) (entries : list DirectoryEntry)
    : SE (Budgeted S) Manifest :=
  do* manifest_entry :=
    se_lift (ok_or (List.find (fun entry => id entry =? manifest_id footer) entries)
               (MissingManifest (manifest_id footer))) in
  do* _ := guard (bool_decide (kind manifest_entry = Manifest_))
             (MissingManifest (manifest_id footer)) in
  do* _ := guard (negb (max_metadata_bytes limits <? stored_len manifest_entry))
             (LimitExceeded "manifest metadata bytes") in
  do* manifest_payload_offset :=
    se_lift (ok_or (checked_add (offset manifest_entry) RECORD_HEADER_LEN)
               (RangeOutOfBounds "manifest payload")) in
  do* manifest_payload := bs_read_vec manifest_payload_offset (stored_len manifest_entry)
                            "manifest payload" in
  do* manifest_value := se_lift (decode_canonical manifest_payload limits) in
  do* manifest := se_lift (parse_manifest manifest_value) in
  let available : gset N := list_to_set (id <$> entries) in
  do* _ := guard (forallb (fun root => bool_decide (root ∈ available)) (roots manifest))
             (InvalidMetadataSchema "manifest root does not exist") in
  se_ret manifest.

(** [MetadataInspector::inspect], once the file length is known. *)
Definition inspect_body : SE (Budgeted S) InspectionReport :=
  do* header := bs_read_array HEADER_LEN 0 "file header" in
  do* _ := se_lift (source_validate_header header) in
  do* footer_offset := se_lift (ok_or (checked_sub file_len FOOTER_LEN) (Truncated "footer")) in
  do* footer_bytes := bs_read_array FOOTER_LEN footer_offset "footer" in
  do* footer := se_lift (source_parse_footer footer_bytes) in
  do* entries := inspect_directory footer_offset footer in
  do* _ := validate_inventory_headers entries (directory_offset footer) in
  do* manifest := inspect_manifest footer entries in
  do* r := se_get in
  se_ret (mkInspection file_len EXPERIMENTAL_EPOCH (manifest_id footer) manifest entries
            (required_capabilities manifest) NotChecked (bs_stats r)).
End Budgeted.

(** [MetadataInspector::inspect]: the budgeted source borrows the caller's. *)
Definition inspect {S} `{ReadAt S} (limits : Limits) : SE S InspectionReport := fun source =>
  match source_len source with
  | (Err _, source) => (Err (Io "source length"), source)
  | (Ok file_len, source) =>
      if max_file_bytes limits <? file_len then (Err (LimitExceeded "file bytes"), source)
      else if file_len <? HEADER_LEN + FOOTER_LEN then (Err (Truncated "file header or footer"), source)
      else
        let '(r, b) := inspect_body file_len limits (mkBudgeted source (mkReadStats 0 0 0)) in
        (r, bs_source b)
  end.
