(* ===== verification/SourceFacts.v ===== *)
(** Properties of the budgeted reader and of metadata inspection: every source
    presenting the same bytes gives the same report, the read budget bounds
    what is asked of any source, and what is accepted are the images of accepted
    documents without interior directories, under any footer digest. *)

From Stdlib Require Import Strings.Byte Strings.String NArith ZArith Lia.
From stdpp Require Import base list gmap strings sorting.
From S2P Require Import Prelude Order Errors Format Cbor CborFacts Model Digest Schema Machine Frame Image.
From S2P Require Import Reader ReaderFacts Source.

Local Open Scope N_scope.

(** ** Sources *)

#[export] Instance slice_stable : StableSource SliceSource (fun s b => slice_bytes s = b).
Proof.
  split.
  - intros [c] b <- Hb. cbn. by rewrite try_u64_fits.
  - intros [c] b offset n <- Hb Hr. cbn [slice_bytes] in *. cbn. split; [|done].
    unfold slice_read_exact_at. rewrite try_u64_fits, checked_add_fits by lia. unfold get_range.
    cbn [slice_bytes]. rewrite !(proj2 (N.leb_le _ _)) by lia. done.
Qed.

#[export] Instance cursor_stable :
  StableSource (SeekSource Cursor) (fun s b => cursor_bytes (seek_inner s) = b).
Proof.
  split.
  - by intros [[b p]] b' <- Hb.
  - intros [[b p]] b' offset n <- Hb Hr. cbn [seek_inner cursor_bytes] in *. cbn.
    unfold cursor_available. cbn [cursor_bytes cursor_position].
    rewrite N.min_l by lia.
    assert (Hl : n <= len (drop (N.to_nat offset) b)) by (unfold len in *; rewrite length_drop; lia).
    rewrite (proj2 (N.leb_le _ _) Hl). cbn. split; [|done]. unfold slice. do 3 f_equal. lia.
Qed.

(** ** Representation independence *)

Section Stable.
Context {S1 S2 : Type} `{ReadAt S1, ReadAt S2} (P1 : S1 -> bytes -> Prop) (P2 : S2 -> bytes -> Prop).
Context `{!StableSource S1 P1, !StableSource S2 P2}.
Context (b : bytes) (limits : Limits) (Hb : len b <= U64_MAX).

Definition same_view (s1 : Budgeted S1) (s2 : Budgeted S2) : Prop :=
  P1 (bs_source s1) b /\ P2 (bs_source s2) b /\ bs_stats s1 = bs_stats s2.

Lemma sim_set_stats f : simulates same_view (set_stats f) (set_stats f).
Proof. apply sim_modify. intros s1 s2 (H1 & H2 & H3). unfold same_view. simpl. by rewrite H3. Qed.

Lemma sim_source_read offset n context :
  offset + n <= len b ->
  simulates same_view (source_read offset n context) (source_read offset n context).
Proof.
  intros Hr s1 s2 (H1 & H2 & H3). unfold source_read.
  pose proof (stable_read _ _ offset n H1 Hb Hr) as [E1 Q1].
  pose proof (stable_read _ _ offset n H2 Hb Hr) as [E2 Q2].
  destruct (read_exact_at (bs_source s1) offset n) as [r1 t1].
  destruct (read_exact_at (bs_source s2) offset n) as [r2 t2]. simpl in *. by subst.
Qed.

Lemma sim_read_exact offset n context :
  simulates same_view (bs_read_exact (len b) limits offset n context)
                      (bs_read_exact (len b) limits offset n context).
Proof.
  unfold bs_read_exact. apply sim_bind; [apply sim_lift|]. intros n'.
  unfold checked_end.
  destruct (checked_add offset n') as [e|] eqn:E; cbn [ok_or]; [|intros s1 s2 Hs; by split].
  destruct (N.ltb_spec (len b) e); cbn [negb]; [intros s1 s2 Hs; by split|].
  apply checked_add_Some in E as [-> _].
  apply sim_bind; [apply sim_lift|]. intros _.
  apply sim_get. intros s1 s2 (Q1 & Q2 & ->).
  repeat (apply sim_bind; [solve [apply sim_lift|apply sim_guard|apply sim_set_stats
                                 |by apply sim_source_read]|intros ?]).
  apply sim_ret.
Qed.

Lemma sim_read_vec offset n context :
  simulates same_view (bs_read_vec (len b) limits offset n context)
                      (bs_read_vec (len b) limits offset n context).
Proof. unfold bs_read_vec. auto using sim_read_exact with simulates. Qed.

Lemma sim_read_array offset n context :
  simulates same_view (bs_read_array (len b) limits n offset context)
                      (bs_read_array (len b) limits n offset context).
Proof. apply sim_read_exact. Qed.

Hint Resolve sim_read_vec sim_read_array : simulates.

Lemma sim_validate_inventory entries directory_offset :
  simulates same_view (validate_inventory_headers (len b) limits entries directory_offset)
                      (validate_inventory_headers (len b) limits entries directory_offset).
Proof.
  unfold validate_inventory_headers. apply sim_bind; [apply sim_iter|intros []; apply sim_guard].
  intros [expected ids] entry. unfold validate_inventory_header. auto 20 with simulates.
Qed.

Lemma sim_inspect_body :
  simulates same_view (inspect_body (len b) limits) (inspect_body (len b) limits).
Proof.
  unfold inspect_body, inspect_directory, inspect_manifest.
  repeat (apply sim_bind; [solve [auto 40 using sim_validate_inventory with simulates]|intros ?]).
  apply sim_get. intros s1 s2 (H1 & H2 & ->). apply sim_ret.
Qed.

Lemma inspect_same s1 s2 :
  P1 s1 b -> P2 s2 b ->
  (inspect limits s1).1 = (inspect limits s2).1 /\
  P1 (inspect limits s1).2 b /\ P2 (inspect limits s2).2 b.
Proof.
  intros H1 H2. unfold inspect.
  destruct (stable_len _ _ H1 Hb) as [E1 Q1]. destruct (stable_len _ _ H2 Hb) as [E2 Q2].
  destruct (source_len s1) as [r1 t1], (source_len s2) as [r2 t2]. simpl in *. subst.
  destruct (_ <? _); [done|]. destruct (_ <? _); [done|].
  destruct (sim_inspect_body (mkBudgeted t1 (mkReadStats 0 0 0)) (mkBudgeted t2 (mkReadStats 0 0 0)))
    as [E (Q1' & Q2' & _)]; [done|].
  destruct (inspect_body _ _ _) as [r1 u1], (inspect_body _ _ _) as [r2 u2]. done.
Qed.
End Stable.

(** ** Read budgets *)

(** A source that logs what is asked of it. *)
Record Logged (S : Type) : Type := mkLogged { lg_inner : S; lg_log : list (N * N) }.
Arguments mkLogged {S}.
Arguments lg_inner {S}.
Arguments lg_log {S}.

#[export] Instance logged_read_at {S} `{ReadAt S} : ReadAt (Logged S) := {
  source_len s := let '(r, t) := source_len (lg_inner s) in (r, mkLogged t (lg_log s));
  read_exact_at s offset n :=
    let '(r, t) := read_exact_at (lg_inner s) offset n in (r, mkLogged t (lg_log s ++ [(offset, n)]));
}.

Definition requested (log : list (N * N)) : N := foldr (fun r m => r.2 + m) 0 log.

Lemma requested_app l1 l2 : requested (l1 ++ l2) = requested l1 + requested l2.
Proof. induction l1 as [|x l1 IH]; simpl; [done|]. lia. Qed.

(** A log within the budget of a call. *)
Definition within (limits : Limits) (file_len cap : N) (log : list (N * N)) : Prop :=
  requested log <= max_total_bytes_read limits /\
  Forall (fun r => r.1 + r.2 <= file_len /\ r.2 <= cap) log.

Section Budget.
Context {S : Type} `{ReadAt S} (limits : Limits) (file_len cap : N).
Context (Hcap : FOOTER_LEN <= cap) (Halloc : max_allocation_bytes limits <= cap).

Definition failed_within (r : Budgeted (Logged S)) : Prop :=
  within limits file_len cap (lg_log (bs_source r)).
Definition ok_within (r : Budgeted (Logged S)) : Prop :=
  failed_within r /\ requested (lg_log (bs_source r)) = rs_bytes_read (bs_stats r).

Lemma ok_fail r : ok_within r -> failed_within r.
Proof. by intros []. Qed.

Lemma keeps_read_exact offset n context :
  n <= cap -> keeps ok_within failed_within (bs_read_exact file_len limits offset n context).
Proof.
  intros Hn r [[Hw1 Hw2] He]. unfold bs_read_exact, checked_end.
  cbn -[checked_add try_u64].
  unfold se_lift, se_get, guard, se_lift.
  destruct (try_u64 n) as [n'|] eqn:En; cbn [ok_or]; [|by split].
  apply try_u64_Some in En as [-> _].
  destruct (checked_add offset n) as [e|] eqn:E1; cbn [ok_or]; [|by split].
  apply checked_add_Some in E1 as [-> _].
  destruct (N.ltb_spec file_len (offset + n)); cbn [negb]; [by split|].
  destruct (checked_add (rs_bytes_read _) n) as [total|] eqn:E2; cbn [ok_or]; [|by split].
  apply checked_add_Some in E2 as [-> _].
  destruct (N.ltb_spec (max_total_bytes_read limits) (rs_bytes_read (bs_stats r) + n)); cbn [negb]; [by split|].
  unfold source_read, set_stats, se_modify, se_bind, se_ret. cbn.
  destruct (read_exact_at (lg_inner (bs_source r)) offset n) as [res t]. cbn.
  assert (Hw : within limits file_len cap (lg_log (bs_source r) ++ [(offset, n)])).
  { split; [rewrite requested_app; simpl; lia|]. apply Forall_app. split; [done|].
    by repeat constructor. }
  destruct res; [|exact Hw]. cbn.
  destruct (checked_add _ 1); cbn; [|exact Hw].
  split; [exact Hw|]. cbn. rewrite requested_app. simpl. lia.
Qed.

Lemma keeps_read_array n offset context :
  n <= FOOTER_LEN ->
  keeps ok_within failed_within (bs_read_array file_len limits n offset context).
Proof. intros Hn. apply keeps_read_exact. lia. Qed.

Lemma keeps_read_vec offset n context :
  keeps ok_within failed_within (bs_read_vec file_len limits offset n context).
Proof.
  unfold bs_read_vec. destruct (N.ltb_spec (max_allocation_bytes limits) n).
  - intros r Hr. cbn. by apply ok_fail.
  - apply keeps_bind; [apply keeps_guard, ok_fail|]. intros _.
    destruct (try_u64 n) as [n'|] eqn:E; [|intros r Hr; by apply ok_fail].
    apply try_u64_Some in E as [-> _].
    intros r Hr. by apply (keeps_read_exact offset n context ltac:(lia) r Hr).
Qed.

Lemma keeps_inspect_body :
  keeps ok_within failed_within (inspect_body (S := Logged S) file_len limits).
Proof.
  pose proof ok_fail.
  assert (Ha : forall n offset context, n <= FOOTER_LEN ->
    keeps ok_within failed_within (bs_read_array file_len limits n offset context))
    by (intros; by apply keeps_read_array).
  pose proof keeps_read_vec as Hv.
  assert (Hh : HEADER_LEN <= FOOTER_LEN) by done.
  assert (Hr : RECORD_HEADER_LEN <= FOOTER_LEN) by done.
  assert (Hf : FOOTER_LEN <= FOOTER_LEN) by done.
  unfold inspect_body, inspect_directory, inspect_manifest, validate_inventory_headers,
    validate_inventory_header.
  repeat keeps_step.
Qed.
End Budget.

(** The report carries the reader's counters. *)
Lemma inspect_body_stats {S} `{ReadAt S} file_len limits (r : Budgeted S) rep :
  (inspect_body file_len limits r).1 = Ok rep ->
  ir_stats rep = bs_stats (inspect_body file_len limits r).2.
Proof.
  destruct (inspect_body file_len limits r) as [res r'] eqn:E. simpl. intros ->.
  unfold inspect_body in E. step_machine E. done.
Qed.

Lemma inspect_within {S} `{ReadAt S} limits (s : S) :
  exists file_len,
    within limits file_len (N.max FOOTER_LEN (max_allocation_bytes limits))
      (lg_log (inspect limits (mkLogged s [])).2) /\
    forall r, (inspect limits (mkLogged s [])).1 = Ok r ->
      rs_bytes_read (ir_stats r) = requested (lg_log (inspect limits (mkLogged s [])).2).
Proof.
  set (cap := N.max FOOTER_LEN (max_allocation_bytes limits)).
  assert (H0 : forall fl, within limits fl cap []) by (intros fl; split; [simpl; lia|constructor]).
  unfold inspect. cbn [source_len logged_read_at lg_inner lg_log].
  destruct (source_len s) as [[fl|e] t]; [|exists 0; by split].
  exists fl. destruct (_ <? _); [by split|]. destruct (_ <? _); [by split|].
  pose proof (keeps_inspect_body (S := S) limits fl cap ltac:(lia) ltac:(lia)
    (mkBudgeted (mkLogged t []) (mkReadStats 0 0 0))) as K.
  specialize (K ltac:(split; [apply H0|done])).
  pose proof (inspect_body_stats fl limits (mkBudgeted (mkLogged t []) (mkReadStats 0 0 0))) as Hst.
  destruct (inspect_body _ _ _) as [[rep|e] b]; simpl in *; [|by split].
  destruct K as [K1 K2]. split; [done|]. intros r [= <-]. by rewrite K2, (Hst rep).
Qed.

(** ** Streams *)

(** What the type of [&mut [u8]] promises of the two reads. *)
Class ReadStreamOk (S : Type) `{ReadStream S} : Prop := {
  stream_read_len s n b s' : stream_read s n = (Ok b, s') -> len b <= n;
  stream_read_exact_len s n b s' : stream_read_exact s n = (Ok b, s') -> len b = n;
}.

#[export] Instance cursor_read_ok : ReadStreamOk Cursor.
Proof.
  split; intros s n b s' Hr; cbn in Hr.
  - injection Hr as <- _. unfold len. rewrite length_take. lia.
  - destruct (N.leb_spec n (len (cursor_available s))) as [Hle|]; [|done].
    injection Hr as <- _. unfold len in *. rewrite length_take. lia.
Qed.

(** A source that remembers every byte it delivered. *)
Record Recorded (S : Type) : Type := mkRecorded { rec_inner : S; rec_bytes : bytes }.
Arguments mkRecorded {S}.
Arguments rec_inner {S}.
Arguments rec_bytes {S}.

Definition record_read {S} (log : bytes) (p : IO bytes * S) : IO bytes * Recorded S :=
  match p with
  | (Ok b, s) => (Ok b, mkRecorded s (log ++ b))
  | (Err e, s) => (Err e, mkRecorded s log)
  end.

#[export] Instance recorded_read {S} `{ReadStream S} : ReadStream (Recorded S) := {
  stream_read s n := record_read (rec_bytes s) (stream_read (rec_inner s) n);
  stream_read_exact s n := record_read (rec_bytes s) (stream_read_exact (rec_inner s) n);
}.

Lemma record_read_Ok {S} log (p : IO bytes * S) b s' :
  record_read log p = (Ok b, s') -> p.1 = Ok b /\ rec_bytes s' = log ++ b.
Proof. destruct p as [[]]; simpl; [|done]. by intros [= <- <-]. Qed.

#[export] Instance recorded_read_ok {S} `{ReadStreamOk S} : ReadStreamOk (Recorded S).
Proof.
  split; intros [s l] n b s' Hr; cbn in Hr; apply record_read_Ok in Hr as [Hr _].
  - destruct (stream_read s n) as [r s1] eqn:E. simpl in Hr. subst. by eapply stream_read_len.
  - destruct (stream_read_exact s n) as [r s1] eqn:E. simpl in Hr. subst. by eapply stream_read_exact_len.
Qed.

Lemma recorded_exact {S} `{ReadStream S} (s s' : Recorded S) n b :
  stream_read_exact s n = (Ok b, s') -> rec_bytes s' = rec_bytes s ++ b.
Proof. intros Hr. cbn in Hr. by apply record_read_Ok in Hr as [_ Hr]. Qed.

Lemma slice_full {A} (l : list A) n : len l = n -> slice l 0 n = l.
Proof. intros <-. apply slice_all. Qed.

Lemma validate_file_header : source_validate_header file_header = Ok tt.
Proof. reflexivity. Qed.

(** Frames other than directories. *)
Definition is_object (f : Frame) : Prop := f_kind f <> Directory.

Section Inspect.
Context (input : bytes) (limits : Limits).
Context (Hlim : limits_ok limits) (Hu : len input <= U64_MAX).

(** Every budgeted reader of one call borrows the same slice. *)
Definition on_input (r : Budgeted SliceSource) : Prop := bs_source r = mkSliceSource input.

Lemma returns_read offset n context :
  returns on_input (bs_read_exact (len input) limits offset n context)
    (fun b => offset + n <= len input /\ b = slice input offset (offset + n)).
Proof.
  unfold bs_read_exact. returns_step H1. option_facts. returns_step H2. returns_step H3.
  returns_step H4. returns_step H5. clear H3 H4 H5.
  unfold checked_end in H2. step_result H2. injection H2 as <-. bool_facts. option_facts.
  eapply returns_bind.
  - intros s b s' Hs Hr. unfold source_read in Hr. rewrite Hs in Hr. cbn in Hr.
    injection Hr as Hr <-. split; [done|].
    unfold slice_read_exact_at in Hr. rewrite try_u64_fits, checked_add_fits in Hr by lia. cbn [slice_bytes] in Hr.
    destruct (get_range input offset (offset + n)) as [b'|] eqn:Eg; [|done]. injection Hr as <-.
    apply get_range_Some in Eg as (_ & Hle & _ & -> & _).
    exact (conj Hle eq_refl : (fun b => offset + n <= len input /\ b = slice input offset (offset + n)) _).
  - intros b Hb. eapply returns_bind; [by apply returns_modify|]. intros _ _.
    returns_step H6. eapply returns_bind; [by apply returns_modify|]. intros _ _.
    by apply returns_ret.
Qed.

Lemma returns_read_vec offset n context :
  returns on_input (bs_read_vec (len input) limits offset n context)
    (fun b => offset + n <= len input /\ n <= max_allocation_bytes limits /\
              b = slice input offset (offset + n)).
Proof.
  unfold bs_read_vec. returns_step H1. returns_step H2. bool_facts. option_facts.
  eapply returns_weaken; [apply returns_read|]. naive_solver.
Qed.

(** A record header read as an array. *)
Lemma source_header_at offset h :
  offset + RECORD_HEADER_LEN <= len input ->
  source_parse_record_header (slice input offset (offset + RECORD_HEADER_LEN)) offset limits = Ok h ->
  header_fits (sh_fields h) /\ h_stored_len (sh_fields h) <= max_payload_bytes limits /\
  sh_payload_offset h = offset + RECORD_HEADER_LEN /\
  slice input offset (offset + RECORD_HEADER_LEN)
  = record_header (h_kind (sh_fields h)) (h_object_id (sh_fields h)) (h_stored_len (sh_fields h)).
Proof.
  intros Ho H. unfold source_parse_record_header in H. step_result H. injection H as <-. option_facts.
  set (b := slice input offset _) in *.
  assert (Hb : len b = RECORD_HEADER_LEN) by (unfold b; rewrite slice_len by lia; lia).
  match goal with E : record_fields b 0 _ = Ok _ |- _ =>
    apply record_fields_Ok in E as (_ & H2 & H3 & H4); [|rewrite Hb; unfold RECORD_HEADER_LEN, U64_MAX; lia] end.
  rewrite N.add_0_l, (slice_full _ _ Hb) in H4. done.
Qed.

(** *** The directory *)

Definition directory_at (footer_offset : N) (footer : Footer) (es : list DirectoryEntry) : Prop :=
  let p := enc (directory_to_cbor es) in
  directory_offset footer + directory_len footer = footer_offset /\
  directory_len footer = RECORD_HEADER_LEN + len p /\
  slice input (directory_offset footer) footer_offset = frame_bytes (mkFrame Directory 0 p) /\
  len p <= max_payload_bytes limits /\ len p <= max_allocation_bytes limits /\
  admitted limits (directory_to_cbor es) /\
  record_count footer = len es + 1 /\ len es + 1 <= max_records limits.

Lemma returns_directory footer_offset footer :
  footer_offset <= len input ->
  returns on_input (inspect_directory (len input) limits footer_offset footer)
    (directory_at footer_offset footer).
Proof.
  intros Hfo. unfold inspect_directory. returns_step He. returns_step Heq. returns_step Hmin.
  unfold checked_end in He. step_result He. injection He as <-. bool_facts. option_facts.
  eapply returns_bind; [apply returns_read|]. intros hb [Hhb ->].
  returns_step Hh. apply source_header_at in Hh as (Hf & Hp & Hpo & Hs); [|done].
  returns_step Hk. returns_step Ht. returns_step Htl. returns_step Hm. bool_facts. option_facts.
  eapply returns_bind; [apply returns_read_vec|]. intros p (Hpl & Hpa & Hpe).
  returns_step Hd. returns_step Hpd. returns_step Hc. returns_step Hc1. returns_step Hrc. returns_step Hmr.
  bool_facts. option_facts. apply returns_ret.
  match goal with H : h_kind _ = Directory |- _ => rename H into Hkd end.
  match goal with H : h_object_id _ = 0 |- _ => rename H into Hid0 end.
  match goal with H : parse_directory _ = Ok ?e |- _ => rename e into es end.
  assert (Hdec : admitted limits (directory_to_cbor es) /\ p = enc (directory_to_cbor es)).
  { apply decode_directory; [done|]. by rewrite Hd. }
  destruct Hdec as [Ha Hpenc].
  rewrite Hpo in Hpl, Hpe.
  destruct (frame_at_bytes input (directory_offset footer) (sh_fields a) ltac:(lia) Hs) as [Hl Hb].
  unfold frame_at in Hl, Hb. rewrite Hkd, Hid0, <- Hpe in Hl, Hb. simpl in Hl.
  unfold frame_len in Hb. cbn [f_payload] in Hb.
  unfold directory_at. cbv zeta. rewrite <- Hpenc.
  split_and!; try done; try lia. rewrite <- Hb. f_equal. lia.
Qed.

(** *** The inventory *)

Definition inventory_inv (directory_offset : N) (es : list DirectoryEntry) (st : N * gset N) : Prop :=
  exists fs, es = frame_entries HEADER_LEN fs /\ st.1 = HEADER_LEN + len (frames_bytes fs) /\
    st.1 <= N.max HEADER_LEN directory_offset /\ slice input HEADER_LEN st.1 = frames_bytes fs /\
    Forall (frame_ok limits) fs /\ Forall is_object fs /\
    NoDup (f_id <$> fs) /\ st.2 = list_to_set (f_id <$> fs).

Lemma frame_slice_snoc fs f e :
  slice input HEADER_LEN (HEADER_LEN + len (frames_bytes fs)) = frames_bytes fs ->
  e = HEADER_LEN + len (frames_bytes fs) + frame_len f -> e <= len input ->
  slice input (HEADER_LEN + len (frames_bytes fs)) e = frame_bytes f ->
  slice input HEADER_LEN e = frames_bytes (fs ++ [f]).
Proof.
  intros H1 -> H2 H3.
  rewrite <- (slice_join input HEADER_LEN (HEADER_LEN + len (frames_bytes fs))) by lia.
  by rewrite H1, H3, frames_bytes_snoc.
Qed.

Lemma returns_inventory_header directory_offset es st e :
  directory_offset <= len input ->
  inventory_inv directory_offset es st ->
  returns on_input (validate_inventory_header (len input) limits directory_offset st e)
    (inventory_inv directory_offset (es ++ [e])).
Proof.
  intros Hdo (fs & -> & Hexp & Hle & Hsl & Hok & Hobj & Hnd & Hids). destruct st as [expected ids].
  simpl in *. returns_step Hid. returns_step Hoff. bool_facts. subst expected.
  destruct (N.eqb_spec (id e) 0) as [|Hid0]; [done|]. option_facts. apply try_insert_Some in Hid as [Hfresh ->].
  eapply returns_bind; [apply returns_read|]. intros hb [Hhb ->].
  returns_step Hh. apply source_header_at in Hh as (Hf & Hp & Hpo & Hs); [|done].
  returns_step Hk. returns_step Hm. returns_step Hend.
  unfold checked_end in Hend. step_result Hend. injection Hend as <-. bool_facts. option_facts.
  apply returns_ret. rewrite Hpo in *.
  destruct (frame_at_bytes input (offset e) (sh_fields a) ltac:(lia) Hs) as [Hl Hb].
  set (f := frame_at input (offset e) (sh_fields a)) in *.
  assert (He : e = frame_entry (HEADER_LEN + len (frames_bytes fs)) f).
  { unfold frame_entry. rewrite Hl, <- Hoff. destruct e, Hf as (_ & _ & Hlog). simpl in *. congruence. }
  assert (Hfl : frame_len f = RECORD_HEADER_LEN + h_stored_len (sh_fields a))
    by (unfold frame_len; by rewrite Hl).
  assert (Hfid : f_id f = id e) by done.
  assert (Hfk : f_kind f <> Directory) by done.
  assert (Hidu : f_id f <= U64_MAX) by (by destruct Hf as (_ & ? & _)). clearbody f.
  rewrite Hids, elem_of_list_to_set in Hfresh.
  exists (fs ++ [f]). cbn [fst snd].
  rewrite frame_entries_snoc, frames_bytes_snoc, !fmap_app, !Forall_app, len_app, frame_bytes_len.
  rewrite Hfl, <- Hoff. split_and!; try done; try lia.
  - by rewrite He at 1; rewrite Hoff.
  - rewrite <- frames_bytes_snoc. rewrite Hoff in *. eapply frame_slice_snoc; [done| |lia|].
    + rewrite Hfl. lia.
    + rewrite <- Hb, Hfl. f_equal. lia.
  - apply Forall_singleton. split_and!; [|done|by rewrite Hl].
    split; intros E; [done|]. by rewrite Hfid in E.
  - by apply Forall_singleton.
  - apply NoDup_app. split_and!; [done| |apply NoDup_singleton].
    csimpl. rewrite Hfid. set_solver.
  - rewrite list_to_set_app_L. rewrite Hids. csimpl. rewrite Hfid. set_solver.
Qed.

Lemma returns_inventory directory_offset es :
  directory_offset <= len input ->
  returns on_input (validate_inventory_headers (len input) limits es directory_offset)
    (fun _ => inventory_inv directory_offset es (directory_offset, list_to_set (id <$> es))).
Proof.
  intros H2. unfold validate_inventory_headers. eapply returns_bind.
  - apply (returns_iter _ _ (inventory_inv directory_offset)) with (l0 := []).
    + intros l x t Ht. by apply returns_inventory_header.
    + exists []. simpl. change (len (frames_bytes [])) with 0. rewrite N.add_0_r.
      split_and!; try done; try constructor; lia.
  - intros [e ids] (fs & Hes & He & Hle & Hsl & Hok & Hobj & Hnd & Hids). simpl in *.
    eapply returns_weaken; [apply returns_guard|]. intros ? Hg. apply N.eqb_eq in Hg. subst e.
    exists fs. cbn [fst snd]. rewrite <- Hg. rewrite Hes, frame_entries_ids. split_and!; try done. lia.
Qed.

(** *** The manifest *)

Lemma find_entry_frame fs mid e :
  List.find (fun entry => id entry =? mid) (frame_entries HEADER_LEN fs) = Some e ->
  exists i f, fs !! i = Some f /\ f_id f = mid /\
    e = frame_entry (HEADER_LEN + len (frames_bytes (take i fs))) f.
Proof.
  intros H. apply find_lookup in H as [Hid [i Hi]]. bool_facts. exists i.
  rewrite frame_entries_lookup in Hi. destruct (fs !! i) as [f|]; [|done].
  injection Hi as <-. by exists f.
Qed.

Lemma returns_manifest footer fs :
  holds_frames input fs -> Forall id_rule fs ->
  returns on_input (inspect_manifest (len input) limits footer (frame_entries HEADER_LEN fs))
    (fun m => selects limits fs (manifest_id footer) m /\
              len (enc (manifest_to_cbor m)) <= max_allocation_bytes limits).
Proof.
  intros [Hl Hs] Hrule. unfold inspect_manifest.
  returns_step Hf. option_facts. apply find_entry_frame in Hf as (i & f & Hi & Hmid & ->).
  returns_step Hk. returns_step Hmm. returns_step Hpo. bool_facts. option_facts. simpl in *.
  eapply returns_bind; [apply returns_read_vec|]. intros p (_ & Halloc & Hp).
  pose proof (payload_of_lookup input HEADER_LEN fs i f Hl Hs Hi) as Hpay.
  unfold payload_of, frame_info in Hpay. cbn [ri_payload_range fst snd] in Hpay.
  replace (HEADER_LEN + len (frames_bytes (take i fs)) + frame_len f) with
    (HEADER_LEN + len (frames_bytes (take i fs)) + RECORD_HEADER_LEN + len (f_payload f)) in Hpay
    by (unfold frame_len; lia).
  rewrite Hpay in Hp. subst p.
  returns_step Hd. returns_step Hpm. returns_step Hr. apply returns_ret.
  match goal with H : parse_manifest _ = Ok ?m |- _ => rename m into mf end.
  assert (Hdec : admitted limits (manifest_to_cbor mf) /\
      f_payload f = enc (manifest_to_cbor mf) /\ shape_ok mf)
    by (apply decode_manifest; [done|]; by rewrite Hd).
  destruct Hdec as (Ha & Henc & Hsh). rewrite <- Henc. split; [|done].
  assert (Hin : f ∈ fs) by (by eapply list_elem_of_lookup_2).
  split; try done.
  - rewrite Forall_forall in Hrule. intros E. rewrite <- Hmid in E. apply (Hrule f Hin) in E. congruence.
  - destruct f as [k j q]. simpl in *. by subst.
  - intros root Hroot. rewrite forallb_forall in Hr.
    specialize (Hr root ltac:(by apply list_elem_of_In)).
    apply bool_decide_eq_true, elem_of_list_to_set in Hr. by rewrite frame_entries_ids in Hr.
Qed.

(** *** The whole report *)

Definition report_of (rep : InspectionReport) (fs : list Frame) (mid : N) (m : Manifest) : Prop :=
  ir_file_len rep = len input /\ ir_epoch rep = EXPERIMENTAL_EPOCH /\ ir_manifest_id rep = mid /\
  ir_manifest rep = m /\ ir_entries rep = frame_entries HEADER_LEN fs /\
  ir_unsupported_required_capabilities rep = required_capabilities m /\
  ir_integrity rep = NotChecked.

Definition inspected (fs : list Frame) (mid : N) (m : Manifest) : Prop :=
  accepted limits fs mid m /\ Forall is_object fs /\
  len (enc (directory_value fs)) <= max_allocation_bytes limits /\
  len (enc (manifest_to_cbor m)) <= max_allocation_bytes limits.

Lemma framed_of_inventory fs directory_offset footer_offset footer :
  footer_offset + FOOTER_LEN <= max_file_bytes limits ->
  directory_at footer_offset footer (frame_entries HEADER_LEN fs) ->
  directory_offset = HEADER_LEN + len (frames_bytes fs) ->
  Frame.directory_offset footer = directory_offset ->
  Forall (frame_ok limits) fs -> NoDup (f_id <$> fs) ->
  framed limits fs /\ footer_offset = len (committed fs).
Proof.
  intros Hmax (H1 & H2 & H3 & H4 & H5 & H6 & H7 & H8) Hd Hd' Hok Hnd.
  fold (directory_value fs) in *.
  assert (Hfo : footer_offset = len (committed fs)).
  { unfold committed. rewrite len_app, body_len, frame_bytes_len. unfold frame_len. simpl. lia. }
  rewrite frame_entries_len in H8.
  split; [|done]. split; try done.
  - apply Forall_app. split; [done|]. apply Forall_singleton. split_and!; [done|done|done].
  - unfold frame_ids. by apply NoDup_filter.
  - by rewrite <- Hfo.
Qed.

Lemma returns_inspect_body :
  HEADER_LEN + FOOTER_LEN <= len input -> len input <= max_file_bytes limits ->
  returns on_input (inspect_body (len input) limits)
    (fun rep => exists fs mid m g, len g = 32 /\ mid <= U64_MAX /\ inspected fs mid m /\
      input = image_with fs mid g /\ report_of rep fs mid m).
Proof.
  intros Hmin Hmax. unfold inspect_body.
  eapply returns_bind; [apply returns_read|]. intros hb [_ ->].
  returns_step Hh. unfold source_validate_header in Hh. rewrite N.add_0_l in Hh.
  assert (Hhl : len (slice input 0 HEADER_LEN) = HEADER_LEN) by (rewrite slice_len by lia; lia).
  match goal with H : validate_header _ = Ok ?u |- _ => destruct u end.
  apply validate_header_Ok in Hh; [|by rewrite Hhl..].
  rewrite (slice_full _ _ Hhl) in Hh.
  returns_step Hfo. option_facts. set (fo := len input - FOOTER_LEN) in *.
  assert (Hfo : fo + FOOTER_LEN = len input) by (unfold fo; lia).
  eapply returns_bind; [apply returns_read|]. intros fb [_ ->].
  returns_step Hf. match goal with H : _ = Ok ?f |- _ => rename f into footer end.
  unfold source_parse_footer in Hf.
  assert (Hfl : len (slice input fo (fo + FOOTER_LEN)) = FOOTER_LEN) by (rewrite slice_len by lia; lia).
  apply parse_footer_Ok in Hf as (_ & (Hb1 & Hb2 & Hb3 & Hb4 & Hb5) & Hfb); [|by rewrite Hfl].
  rewrite N.add_0_l, (slice_full _ _ Hfl) in Hfb.
  eapply returns_bind; [by apply returns_directory; lia|]. intros es Hdir.
  pose proof Hdir as (Hd1 & Hd2 & Hd3 & _).
  eapply returns_bind; [apply returns_inventory; lia|intros _ (fs & Hes & Hd & _ & Hsl & Hok & Hobj & Hnd & _)].
  cbn [fst snd] in *. subst es.
  destruct (framed_of_inventory fs (directory_offset footer) fo footer) as [Hfr Hcl]; try done; [lia|].
  assert (Hholds : holds_frames input (fs ++ [directory_frame fs])).
  { unfold holds_frames. rewrite <- committed_len, <- Hcl, frames_bytes_snoc. split; [lia|].
    rewrite <- (slice_join input HEADER_LEN (directory_offset footer)) by lia. by rewrite Hsl, Hd3. }
  assert (Hholds' : holds_frames input fs) by (split; [lia|by rewrite <- Hd]).
  eapply returns_bind; [apply returns_manifest; [done|by eapply framed_rules]|]. intros m [Hsel Hma].
  eapply returns_bind; [apply returns_get|]. intros r _. apply returns_ret.
  exists fs, (manifest_id footer), m, (digest footer).
  pose proof Hdir as (_ & _ & _ & _ & Hda & _ & Hrc & _).
  split_and!; try done.
  apply bytes_of_slices; [lia|done| |].
  - destruct Hholds as [_ Hs].
    by rewrite <- committed_len in Hs.
  - rewrite <- Hcl, <- Hfo, Hfb. f_equal. destruct footer as [a b c n g]. simpl in *.
    rewrite frame_entries_len in Hrc. rewrite body_len, Hrc, Hd, Hd2. done.
Qed.
End Inspect.

(** ** Inspection of such a file is decided by its read budget *)

Section Complete.
Context (input : bytes) (limits : Limits).
Context (Hlim : limits_ok limits) (Hu : len input <= U64_MAX).

(** [m] succeeds with a result satisfying [Q], reading [b] bytes in [k]
    operations, when the budget allows it, and is refused for the budget when
    it does not. *)
Definition spends {A} (m : SE (Budgeted SliceSource) A) (b k : N) (Q : A -> Prop) : Prop :=
  forall st, rs_bytes_read st <= max_total_bytes_read limits -> rs_read_operations st + k <= U64_MAX ->
  if rs_bytes_read st + b <=? max_total_bytes_read limits then
    exists a st', m (mkBudgeted (mkSliceSource input) st) = (Ok a, mkBudgeted (mkSliceSource input) st') /\
      rs_bytes_read st' = rs_bytes_read st + b /\ rs_read_operations st' = rs_read_operations st + k /\ Q a
  else exists s, m (mkBudgeted (mkSliceSource input) st) = (Err (LimitExceeded "total bytes read"), s).

Lemma spends_nothing {A} (m : SE (Budgeted SliceSource) A) (a : A) (Q : A -> Prop) :
  (forall r, m r = (Ok a, r)) -> Q a -> spends m 0 0 Q.
Proof.
  intros Hm HQ st Hb Hk. rewrite N.add_0_r, (proj2 (N.leb_le _ _) Hb). exists a, st. rewrite Hm. split_and!; [done|lia|lia|done].
Qed.

Lemma spends_bind {A B} (m : SE (Budgeted SliceSource) A) (f : A -> SE (Budgeted SliceSource) B)
    b1 k1 b2 k2 b k (Q1 : A -> Prop) (Q : B -> Prop) :
  b = b1 + b2 -> k = k1 + k2 ->
  spends m b1 k1 Q1 -> (forall a, Q1 a -> spends (f a) b2 k2 Q) -> spends (se_bind m f) b k Q.
Proof.
  intros -> -> Hm Hf st Hb Hk. specialize (Hm st Hb ltac:(lia)). unfold se_bind.
  destruct (N.leb_spec (rs_bytes_read st + b1) (max_total_bytes_read limits)) as [H1|H1].
  2: { destruct Hm as (s & ->). rewrite (proj2 (N.leb_gt _ _)) by lia. by exists s. }
  destruct Hm as (a & st1 & -> & E1 & E2 & Hq). specialize (Hf a Hq st1 ltac:(lia) ltac:(lia)). rewrite E1, E2 in Hf.
  rewrite N.add_assoc. destruct (_ <=? _); [|done]. destruct Hf as (c & st2 & -> & F1 & F2 & HQ).
  exists c, st2. split_and!; [done|lia|lia|done].
Qed.
Lemma spends_pure {A B} (r : R A) a (f : A -> SE (Budgeted SliceSource) B) b k Q :
  r = Ok a -> spends (f a) b k Q -> spends (se_bind (se_lift r) f) b k Q.
Proof. intros -> H st Hb Hk. apply (H st Hb Hk). Qed.
Lemma spends_guard {B} c e (f : unit -> SE (Budgeted SliceSource) B) b k Q :
  c = true -> spends (f tt) b k Q -> spends (se_bind (guard c e) f) b k Q.
Proof. intros -> H st Hb Hk. apply (H st Hb Hk). Qed.
Lemma spends_last_guard c e : c = true -> spends (guard c e) 0 0 (fun _ => True).
Proof. intros ->. by apply (spends_nothing _ tt). Qed.
Lemma spends_get {B} (f : Budgeted SliceSource -> SE (Budgeted SliceSource) B) b k Q :
  (forall r, spends (f r) b k Q) -> spends (se_bind se_get f) b k Q.
Proof. intros H st Hb Hk. apply (H _ st Hb Hk). Qed.
Lemma spends_ret {A} (a : A) (Q : A -> Prop) : Q a -> spends (se_ret a) 0 0 Q.
Proof. by apply (spends_nothing _ a). Qed.

Lemma spends_read offset n context :
  offset + n <= len input ->
  spends (bs_read_exact (len input) limits offset n context) n 1
    (fun b => b = slice input offset (offset + n)).
Proof.
  intros Hr st Hb Hk.
  assert (Hmt : max_total_bytes_read limits <= U64_MAX)
    by (apply (limits_ok_field limits); [done|set_solver]).
  unfold bs_read_exact, checked_end, source_read, set_stats, se_modify, guard, se_lift, se_get, se_ret, se_bind.
  rewrite try_u64_fits by lia. cbn [ok_or].
  rewrite checked_add_fits by lia. cbn [ok_or].
  rewrite (proj2 (N.ltb_ge _ _)) by lia. cbn [negb bs_stats bs_source].
  destruct (N.leb_spec (rs_bytes_read st + n) (max_total_bytes_read limits)) as [Hfit|Hover].
  2: { destruct (checked_add _ _) as [total|] eqn:Et; cbn [ok_or]; [|by eexists].
       apply checked_add_Some in Et as [-> _]. rewrite (proj2 (N.ltb_lt _ _) Hover). by eexists. }
  rewrite checked_add_fits by lia. cbn [ok_or].
  rewrite (proj2 (N.ltb_ge _ _)) by lia. cbn [negb].
  destruct (stable_read (mkSliceSource input) input offset n eq_refl Hu Hr) as [E _].
  cbn [read_exact_at slice_read_at fst snd] in *. rewrite E. cbn [bs_stats bs_source].
  rewrite checked_add_fits by lia. cbn. by eexists _, _.
Qed.

Lemma spends_read_vec offset n context :
  offset + n <= len input -> n <= max_allocation_bytes limits ->
  spends (bs_read_vec (len input) limits offset n context) n 1
    (fun b => b = slice input offset (offset + n)).
Proof.
  intros Hr Ha. unfold bs_read_vec. apply spends_guard; [by rewrite (proj2 (N.ltb_ge _ _))|].
  eapply spends_pure; [rewrite try_u64_fits by lia; done|]. by apply spends_read.
Qed.

(** A record header read back from the bytes of a frame. *)
Lemma source_header_of offset f :
  frame_ok limits f -> offset + frame_len f <= len input ->
  slice input offset (offset + frame_len f) = frame_bytes f ->
  source_parse_record_header (slice input offset (offset + RECORD_HEADER_LEN)) offset limits
  = Ok (mkSourceHeader (mkHeader (f_kind f) (f_id f) (len (f_payload f)) (len (f_payload f)))
          (offset + RECORD_HEADER_LEN)).
Proof.
  intros (Hr & Hi & Hp) Hl Hs. unfold source_parse_record_header.
  rewrite (frame_header_slice input offset f Hl Hs). unfold frame_len in Hl.
  assert (H40 : len (record_header (f_kind f) (f_id f) (len (f_payload f))) <= U64_MAX)
    by (by rewrite record_header_len).
  rewrite (proj2 (record_fields_Ok _ 0 limits
    (mkHeader (f_kind f) (f_id f) (len (f_payload f)) (len (f_payload f))) H40)).
  - rewrite checked_add_fits by lia. done.
  - unfold header_fits. split_and!; try done; try (by apply slice_full); simpl; lia.
Qed.

Lemma spends_iter {T} (f : T -> DirectoryEntry -> SE (Budgeted SliceSource) T)
    (J : list DirectoryEntry -> T -> Prop) c :
  forall l l0 t,
  (forall l1 x l2 t, l = l1 ++ x :: l2 -> J (l0 ++ l1) t -> spends (f t x) c 1 (J ((l0 ++ l1) ++ [x]))) ->
  J l0 t -> spends (se_iter f l t) (c * len l) (len l) (J (l0 ++ l)).
Proof.
  intros l. induction l as [|x l IH]; intros l0 t Hf HJ; simpl.
  - rewrite app_nil_r. change (len []) with 0. rewrite N.mul_0_r. by apply spends_ret.
  - eapply (spends_bind _ _ c 1 (c * len l) (len l));
      [rewrite len_cons; lia|rewrite len_cons; lia| |].
    + apply (Hf [] x l); [done|]. by rewrite app_nil_r.
    + intros t' HJ'. rewrite app_nil_r in HJ'. rewrite cons_middle, app_assoc. apply IH; [|done].
      intros l1 y l2 t2 -> HJ2.
      assert (E : (l0 ++ [x]) ++ l1 = l0 ++ x :: l1) by (by rewrite <- app_assoc).
      rewrite E in HJ2 |- *. by apply (Hf (x :: l1) y l2).
Qed.

(** The scan state after the entries of the first frames. *)
Definition scanned (fs1 : list Frame) (st : N * gset N) : Prop :=
  st.1 = HEADER_LEN + len (frames_bytes fs1) /\ st.2 = list_to_set (f_id <$> fs1).

Lemma spends_inventory_header directory_offset pre f post st :
  Forall (frame_ok limits) (pre ++ f :: post) -> Forall is_object (pre ++ f :: post) ->
  NoDup (f_id <$> pre ++ f :: post) ->
  HEADER_LEN + len (frames_bytes (pre ++ f :: post)) <= directory_offset ->
  directory_offset <= len input ->
  holds_frames input (pre ++ f :: post) -> scanned pre st ->
  spends (validate_inventory_header (len input) limits directory_offset st
            (frame_entry (HEADER_LEN + len (frames_bytes pre)) f))
    RECORD_HEADER_LEN 1 (scanned (pre ++ [f])).
Proof.
  intros Hok Hobj Hnd Hdo Hdl [_ Hsl] [H1 H2]. destruct st as [expected ids]. simpl in H1, H2. subst.
  apply Forall_app in Hok as [_ Hok]. apply Forall_cons in Hok as [Hok _].
  apply Forall_app in Hobj as [_ Hobj]. apply Forall_cons in Hobj as [Hobj _].
  rewrite fmap_app in Hnd. csimpl in Hnd. apply NoDup_app in Hnd as (_ & Hnd & _).
  assert (Hni : f_id f ∉ f_id <$> pre) by (intros Hi; apply (Hnd _ Hi); set_solver).
  rewrite frames_bytes_app, frames_bytes_cons, !len_app, frame_bytes_len in Hdo, Hsl.
  set (o := HEADER_LEN + len (frames_bytes pre)) in *.
  assert (Hf : slice input o (o + frame_len f) = frame_bytes f).
  { pose proof (slice_slice input HEADER_LEN (HEADER_LEN + (len (frames_bytes pre) + (frame_len f + len (frames_bytes post))))
      (len (frames_bytes pre)) (len (frames_bytes pre) + frame_len f) ltac:(lia) ltac:(lia)) as E.
    rewrite Hsl in E. unfold o. rewrite <- N.add_assoc, <- E. apply slice_app; [done|].
    by rewrite frame_bytes_len. }
  assert (Hnz : f_id f <> 0) by (destruct Hok as (Hr & _); intros E; by apply Hobj, Hr).
  unfold validate_inventory_header. cbn [Model.id Model.offset Model.kind Model.stored_len Model.logical_len frame_entry].
  eapply spends_pure.
  { rewrite (proj2 (N.eqb_neq _ _) Hnz). apply ok_or_Ok, try_insert_Some. split; [|done].
    by rewrite elem_of_list_to_set. }
  apply spends_guard; [apply N.eqb_refl|].
  eapply (spends_bind _ _ RECORD_HEADER_LEN 1 0 0); [lia|done|apply spends_read; unfold frame_len in *; lia|].
  intros hb ->.
  eapply spends_pure; [apply source_header_of; [done|lia|done]|]. cbn [sh_fields sh_payload_offset h_kind h_object_id h_stored_len h_logical_len].
  apply spends_guard.
  { rewrite (proj2 (N.eqb_neq _ _) Hnz), bool_decide_false by done. done. }
  apply spends_guard; [by rewrite bool_decide_true, !N.eqb_refl by done|].
  eapply spends_pure.
  { unfold checked_end. unfold frame_len in *. rewrite checked_add_fits by lia. cbn [ok_or].
    rewrite (proj2 (N.ltb_ge _ _)) by lia. done. }
  apply spends_ret. split; cbn [fst snd].
  - rewrite frames_bytes_snoc, len_app, frame_bytes_len. unfold frame_len, o. lia.
  - rewrite fmap_app, list_to_set_app_L. csimpl. set_solver.
Qed.

Context (fs : list Frame) (mid : N) (m : Manifest) (g : bytes).
Context (Hg : len g = 32) (Hmid : mid <= U64_MAX).
Context (Hacc : inspected limits fs mid m) (Himg : input = image_with fs mid g).

Let footer : Footer :=
  mkFooter (len (body fs)) (frame_len (directory_frame fs)) mid (len fs + 1) g.
Let dlen := len (enc (directory_value fs)).
Let mlen := len (enc (manifest_to_cbor m)).

Lemma inspect_sizes :
  len input = len (committed fs) + FOOTER_LEN /\ len (committed fs) = len (body fs) + RECORD_HEADER_LEN + dlen /\
  len (body fs) = HEADER_LEN + len (frames_bytes fs) /\ RECORD_HEADER_LEN * len fs <= len (frames_bytes fs) /\
  len input <= max_file_bytes limits.
Proof.
  split_and!.
  - rewrite Himg. by apply image_with_len.
  - rewrite committed_body_len. unfold frame_len. simpl. unfold dlen. lia.
  - by rewrite body_len.
  - apply len_le_frames_bytes.
  - rewrite Himg, image_with_len by done. apply (framed_len _ _ (proj1 (proj1 Hacc))).
Qed.

Lemma inspect_slices :
  slice input 0 HEADER_LEN = file_header /\ holds_frames input (fs ++ [directory_frame fs]) /\
  slice input (len (body fs)) (len (committed fs)) = frame_bytes (directory_frame fs) /\
  slice input (len (committed fs)) (len (committed fs) + FOOTER_LEN) = footer_bytes footer.
Proof.
  rewrite Himg. unfold image_with. fold footer. split_and!.
  - rewrite committed_bytes, <- app_assoc. by apply (slice_app []).
  - split; rewrite <- committed_len; [rewrite len_app; lia|].
    rewrite committed_bytes, <- app_assoc. apply slice_app; [done|by rewrite len_app].
  - unfold committed. rewrite <- app_assoc. apply slice_app; [done|by rewrite len_app].
  - rewrite <- (app_nil_r (_ ++ _)), <- app_assoc. apply slice_app; [done|].
    by rewrite footer_bytes_len.
Qed.

Lemma objects_nodup : NoDup (f_id <$> fs).
Proof.
  destruct Hacc as ((Hfr & _) & Hobj & _). pose proof (framed_ids _ _ Hfr) as Hn.
  unfold frame_ids in Hn. rewrite filter_all in Hn; [done|]. intros i Hi. apply list_elem_of_fmap in Hi as (f & -> & Hf).
  rewrite Forall_forall in Hobj. pose proof (framed_rules _ _ Hfr) as Hr. rewrite Forall_forall in Hr.
  intros E. by apply (Hobj f Hf), (Hr f Hf).
Qed.

Lemma spends_inventory :
  spends (validate_inventory_headers (len input) limits (frame_entries HEADER_LEN fs) (len (body fs)))
    (RECORD_HEADER_LEN * len fs) (len fs) (fun _ => True).
Proof.
  destruct inspect_sizes as (S1 & S2 & S3 & S4 & S5).
  destruct inspect_slices as (_ & Hh & _). destruct Hacc as ((Hfr & _) & Hobj & _).
  unfold validate_inventory_headers.
  eapply (spends_bind _ _ (RECORD_HEADER_LEN * len (frame_entries HEADER_LEN fs))
    (len (frame_entries HEADER_LEN fs)) 0 0); [rewrite frame_entries_len; lia|rewrite frame_entries_len; lia| |].
  - apply (spends_iter _ (fun es st => scanned (take (length es) fs) st) _ _ []); [|by split].
    intros l1 e l2 st Hl Hsc. rewrite app_nil_l in *.
    apply frame_entries_split in Hl as (pre & f & post & Hfs & Hlen & ->).
    pose proof objects_nodup as Hnd. pose proof (framed_frames _ _ Hfr) as Hok.
    apply Forall_app in Hok as [Hok _]. destruct Hh as [Hh1 Hh2].
    rewrite length_app. simpl length.
    assert (Et : take (length l1 + 1) fs = pre ++ [f]).
    { rewrite Hfs, (cons_middle f pre post), app_assoc. apply take_app_length'.
      rewrite length_app. simpl. lia. }
    rewrite Et.
    replace (take (length l1) fs) with pre in Hsc by (by rewrite Hfs, <- Hlen, take_app_length).
    apply (spends_inventory_header _ pre f post); rewrite <- ?Hfs; try done; [lia..|].
    rewrite frames_bytes_snoc, len_app in Hh1, Hh2. split; [lia|].
    pose proof (slice_slice input HEADER_LEN (HEADER_LEN + (len (frames_bytes fs) + len (frame_bytes (directory_frame fs))))
      0 (len (frames_bytes fs)) ltac:(lia) ltac:(lia)) as E.
    rewrite Hh2, N.add_0_r in E. rewrite <- E. by apply (slice_app []).
  - intros [e ids] [He _]. simpl in He.
    apply spends_last_guard. rewrite take_ge in He by (rewrite frame_entries_length; lia).
    rewrite He, S3. apply N.eqb_refl.
Qed.

Lemma checked_end_fits offset n ub context :
  offset + n <= ub -> ub <= U64_MAX -> checked_end offset n ub context = Ok (offset + n).
Proof.
  intros H1 H2. unfold checked_end. rewrite checked_add_fits by lia. cbn [ok_or].
  by rewrite (proj2 (N.ltb_ge _ _)) by lia.
Qed.

Lemma inspect_directory_payload :
  slice input (len (body fs) + RECORD_HEADER_LEN) (len (body fs) + RECORD_HEADER_LEN + dlen)
  = enc (directory_value fs).
Proof.
  destruct inspect_sizes as (S1 & S2 & S3 & S4 & S5). destruct inspect_slices as (_ & Hh & _).
  pose proof (last_payload _ _ _ Hh) as Hp. unfold payload_of, frame_info in Hp.
  cbn [ri_payload_range fst snd directory_frame f_payload] in Hp. rewrite <- Hp. f_equal.
  unfold frame_len. simpl. fold dlen. lia.
Qed.

Lemma spends_directory :
  spends (inspect_directory (len input) limits (len (committed fs)) footer)
    (RECORD_HEADER_LEN + dlen) 2 (fun es => es = frame_entries HEADER_LEN fs).
Proof.
  destruct inspect_sizes as (S1 & S2 & S3 & S4 & S5).
  destruct inspect_slices as (_ & _ & Hd & _).
  pose proof inspect_directory_payload as Hdp.
  destruct Hacc as ((Hfr & _) & _ & Hda & _). pose proof (framed_frames _ _ Hfr) as Hok.
  apply Forall_app in Hok as [_ Hok]. rewrite Forall_singleton in Hok.
  assert (Hfl : frame_len (directory_frame fs) = RECORD_HEADER_LEN + dlen) by done.
  unfold inspect_directory. cbn [Frame.directory_offset Frame.directory_len Frame.record_count footer].
  eapply spends_pure; [apply checked_end_fits; lia|].
  apply spends_guard; [apply N.eqb_eq; lia|].
  apply spends_guard; [rewrite (proj2 (N.ltb_ge _ _)) by lia; done|].
  eapply (spends_bind _ _ RECORD_HEADER_LEN 1 dlen 1); [done|done|apply spends_read; lia|]. intros hb ->.
  replace (len (committed fs)) with (len (body fs) + frame_len (directory_frame fs)) in Hd by lia.
  eapply spends_pure; [apply (source_header_of _ (directory_frame fs)); [done|lia|exact Hd]|].
  cbn [sh_fields sh_payload_offset h_kind h_object_id h_stored_len h_logical_len].
  apply spends_guard; [done|].
  fold dlen. change (len (f_payload (directory_frame fs))) with dlen.
  eapply spends_pure; [rewrite checked_add_fits by lia; done|].
  apply spends_guard; [by apply N.eqb_eq|].
  destruct (framed_directory _ _ Hfr) as (He & Ha & Hm).
  apply spends_guard; [by rewrite (proj2 (N.ltb_ge _ _))|].
  eapply (spends_bind _ _ dlen 1 0 0); [lia|lia|apply spends_read_vec; [lia|done]|].
  intros p ->. rewrite Hdp.
  pose proof (proj2 (decode_directory limits (enc (directory_value fs)) _ Hlim)
    (conj (framed_directory _ _ Hfr) eq_refl)) as Hdec.
  destruct (decode_canonical (enc (directory_value fs)) limits) as [v|] eqn:Ev; [|done].
  eapply spends_pure; [done|]. eapply spends_pure; [exact Hdec|].
  rewrite frame_entries_len. pose proof (framed_count _ _ Hfr).
  unfold RECORD_HEADER_LEN, HEADER_LEN in *.
  eapply spends_pure; [rewrite try_u64_fits by lia; done|].
  eapply spends_pure; [rewrite checked_add_fits by lia; done|].
  apply spends_guard; [apply N.eqb_refl|].
  apply spends_guard; [by rewrite (proj2 (N.ltb_ge _ _))|].
  by apply spends_ret.
Qed.

Lemma spends_manifest :
  spends (inspect_manifest (len input) limits footer (frame_entries HEADER_LEN fs)) mlen 1 (fun m' => m' = m).
Proof.
  destruct inspect_sizes as (S1 & S2 & S3 & S4 & S5).
  destruct inspect_slices as (_ & [Hh1 Hh2] & _).
  destruct Hacc as ((Hfr & [Hid Hf Ha Hs Hroots]) & _ & _ & Hma).
  apply list_elem_of_lookup in Hf as [i Hi].
  unfold inspect_manifest. cbn [Frame.manifest_id footer].
  eapply spends_pure.
  { pose proof (find_entry_by_id HEADER_LEN fs i (manifest_frame mid m) (framed_ids _ _ Hfr) Hid Hi) as E. simpl in E.
    rewrite E. done. }
  apply spends_guard; [done|].
  cbn [Model.stored_len Model.offset frame_entry manifest_frame f_payload]. fold mlen.
  destruct Ha as (He & Hadm & Hmm).
  apply spends_guard; [by rewrite (proj2 (N.ltb_ge _ _))|].
  pose proof (payload_of_lookup input HEADER_LEN (fs ++ [directory_frame fs]) i _ Hh1 Hh2
    (lookup_app_l_Some _ _ _ _ Hi)) as Hpay.
  rewrite take_app_le in Hpay by (apply lookup_lt_Some in Hi; lia).
  assert (Hpos : HEADER_LEN + len (frames_bytes (take i fs)) + RECORD_HEADER_LEN + mlen <= len input).
  { assert (Hle : len (frames_bytes (take i fs)) + (RECORD_HEADER_LEN + mlen) <= len (frames_bytes fs)); [|lia].
    rewrite <- (take_drop_middle _ _ _ Hi) at 2. rewrite frames_bytes_app, frames_bytes_cons, !len_app, frame_bytes_len.
    unfold frame_len. simpl. fold mlen. lia. }
  eapply spends_pure; [rewrite checked_add_fits by lia; done|].
  eapply (spends_bind _ _ mlen 1 0 0); [lia|lia|apply spends_read_vec; [lia|done]|]. intros p ->.
  unfold payload_of, frame_info, frame_len in Hpay. cbn [ri_payload_range fst snd manifest_frame f_payload] in Hpay.
  fold mlen in Hpay. rewrite N.add_assoc in Hpay. rewrite Hpay.
  pose proof (proj2 (decode_manifest limits (enc (manifest_to_cbor m)) m Hlim)
    (conj (conj He (conj Hadm Hmm)) (conj eq_refl Hs))) as Hdec.
  destruct (decode_canonical (enc (manifest_to_cbor m)) limits) as [v|] eqn:Ev; [|done].
  eapply spends_pure; [done|]. eapply spends_pure; [exact Hdec|].
  apply spends_guard; [|by apply spends_ret].
  apply forallb_forall. intros root Hr. apply bool_decide_eq_true, elem_of_list_to_set.
  rewrite frame_entries_ids. apply Hroots. by apply list_elem_of_In.
Qed.

(** The bytes read by one inspection. *)
Definition inspect_cost : N :=
  HEADER_LEN + FOOTER_LEN + RECORD_HEADER_LEN + dlen + RECORD_HEADER_LEN * len fs + mlen.

Lemma spends_inspect_body :
  spends (inspect_body (len input) limits) inspect_cost (len fs + 5)
    (fun rep => report_of input rep fs mid m).
Proof.
  destruct inspect_sizes as (S1 & S2 & S3 & S4 & S5).
  destruct inspect_slices as (Hh & _ & _ & Hf).
  unfold inspect_body, inspect_cost.
  eapply (spends_bind _ _ HEADER_LEN 1 (FOOTER_LEN + RECORD_HEADER_LEN + dlen + RECORD_HEADER_LEN * len fs + mlen)
    (len fs + 4)); [lia|lia|apply spends_read; lia|]. intros hb ->.
  rewrite N.add_0_l, Hh. eapply spends_pure; [exact validate_file_header|].
  eapply spends_pure.
  { replace (checked_sub (len input) FOOTER_LEN) with (Some (len (committed fs))); [done|].
    symmetry. apply checked_sub_Some. lia. }
  eapply (spends_bind _ _ FOOTER_LEN 1 (RECORD_HEADER_LEN + dlen + RECORD_HEADER_LEN * len fs + mlen)
    (len fs + 3)); [lia|lia|apply spends_read; lia|]. intros fb ->. rewrite Hf.
  assert (H80 : len (footer_bytes footer) = 80) by (by apply footer_bytes_len).
  eapply spends_pure.
  { apply parse_footer_Ok; [by rewrite H80|]. split_and!; [by rewrite H80| |apply slice_full; by rewrite H80].
    unfold footer_fits, frame_len in *. simpl. unfold dlen, HEADER_LEN, RECORD_HEADER_LEN, FOOTER_LEN in *.
    split_and!; try done; lia. }
  eapply (spends_bind _ _ (RECORD_HEADER_LEN + dlen) 2 (RECORD_HEADER_LEN * len fs + mlen) (len fs + 1));
    [lia|lia|apply spends_directory|]. intros es ->.
  eapply (spends_bind _ _ (RECORD_HEADER_LEN * len fs) (len fs) mlen 1); [lia|lia|apply spends_inventory|].
  intros _ _.
  eapply (spends_bind _ _ mlen 1 0 0); [lia|lia|apply spends_manifest|]. intros m' ->.
  apply spends_get. intros r. apply spends_ret. done.
Qed.

(** What an inspection of the file returns, by its read budget alone. *)
Lemma inspect_decided :
  if inspect_cost <=? max_total_bytes_read limits then
    exists rep, inspect limits (mkSliceSource input) = (Ok rep, mkSliceSource input) /\ report_of input rep fs mid m /\
      rs_bytes_read (ir_stats rep) = inspect_cost /\ rs_read_operations (ir_stats rep) = len fs + 5
  else exists s, inspect limits (mkSliceSource input) = (Err (LimitExceeded "total bytes read"), s).
Proof.
  destruct inspect_sizes as (S1 & S2 & S3 & S4 & S5).
  unfold inspect. cbn [source_len slice_read_at slice_bytes]. rewrite try_u64_fits by done.
  rewrite (proj2 (N.ltb_ge _ _)) by done. rewrite (proj2 (N.ltb_ge _ _)) by lia. cbn [slice_bytes].
  pose proof (spends_inspect_body (mkReadStats 0 0 0)) as Hs. cbn [rs_bytes_read rs_read_operations] in Hs. rewrite !N.add_0_l in Hs.
  specialize (Hs (N.le_0_l _)). destruct (inspect_cost <=? max_total_bytes_read limits).
  - destruct Hs as (rep & st & E & E1 & E2 & Hr); [unfold RECORD_HEADER_LEN, HEADER_LEN, FOOTER_LEN in *; lia|].
    rewrite E. exists rep. split; [done|]. split; [done|].
    pose proof (inspect_body_stats (len input) limits (mkBudgeted (mkSliceSource input) (mkReadStats 0 0 0)) rep) as Hst.
    rewrite E in Hst. by rewrite Hst.
  - destruct Hs as (s & E); [unfold RECORD_HEADER_LEN, HEADER_LEN, FOOTER_LEN in *; lia|]. rewrite E. by eexists.
Qed.
End Complete.

Lemma inspect_sound input limits rep s :
  limits_ok limits -> len input <= U64_MAX ->
  inspect limits (mkSliceSource input) = (Ok rep, s) ->
  exists fs mid m g, len g = 32 /\ mid <= U64_MAX /\ inspected limits fs mid m /\
    input = image_with fs mid g /\ report_of input rep fs mid m.
Proof.
  intros Hlim Hu H. unfold inspect in H. cbn [source_len slice_read_at slice_bytes] in H.
  rewrite try_u64_fits in H by done.
  destruct (N.ltb_spec (max_file_bytes limits) (len input)); [done|].
  destruct (N.ltb_spec (len input) (HEADER_LEN + FOOTER_LEN)); [done|].
  destruct (inspect_body _ _ _) as [r b] eqn:E. injection H as -> <-.
  by apply (returns_inspect_body input limits Hlim Hu ltac:(done) ltac:(done)
    (mkBudgeted (mkSliceSource input) (mkReadStats 0 0 0)) rep b eq_refl) in E as [_ ?].
Qed.

Lemma inspect_keeps_slice input limits rep s :
  limits_ok limits -> len input <= U64_MAX ->
  inspect limits (mkSliceSource input) = (Ok rep, s) -> s = mkSliceSource input.
Proof.
  intros Hlim Hu H. unfold inspect in H. cbn [source_len slice_read_at slice_bytes] in H.
  rewrite try_u64_fits in H by done.
  destruct (N.ltb_spec (max_file_bytes limits) (len input)); [done|].
  destruct (N.ltb_spec (len input) (HEADER_LEN + FOOTER_LEN)); [done|].
  destruct (inspect_body _ _ _) as [r b] eqn:E. injection H as -> <-.
  by apply (returns_inspect_body input limits Hlim Hu ltac:(done) ltac:(done)
    (mkBudgeted (mkSliceSource input) (mkReadStats 0 0 0)) rep b eq_refl) in E as [? _].
Qed.

(** An accepted file, with what was read of it. *)
Lemma inspect_sound_cost input limits rep s :
  limits_ok limits -> len input <= U64_MAX -> inspect limits (mkSliceSource input) = (Ok rep, s) ->
  exists fs mid m g, len g = 32 /\ mid <= U64_MAX /\ inspected limits fs mid m /\ input = image_with fs mid g /\
    report_of input rep fs mid m /\ inspect_cost fs m <= max_total_bytes_read limits /\
    rs_bytes_read (ir_stats rep) = inspect_cost fs m /\ rs_read_operations (ir_stats rep) = len fs + 5.
Proof.
  intros Hlim Hu Hi. pose proof Hi as (fs & mid & m & g & Hg & Hmid & Hins & Himg & Hrep)%inspect_sound; [|done..].
  exists fs, mid, m, g. pose proof (inspect_decided input limits Hlim Hu fs mid m g Hg Hmid Hins Himg) as Hd. rewrite Hi in Hd.
  destruct (N.leb_spec (inspect_cost fs m) (max_total_bytes_read limits)) as [Hc|]; [|by destruct Hd].
  destruct Hd as (rep' & [= -> _] & _ & Hb & Hk). by split_and!.
Qed.
