(* ===== verification/SourceValidate.v ===== *)
(** [crates/ucof-core/src/source_validate.rs]: strict validation of a stable
    source: the metadata inspection, then a bounded-block digest of the whole
    committed prefix, then the footer once more. *)

From Stdlib Require Import Strings.Byte Strings.String NArith ZArith Lia.
From stdpp Require Import base list gmap strings sorting.
From S2P Require Import Prelude Order Errors Format Cbor Model Schema Digest Frame Machine Source.

Local Open Scope N_scope.

Record SourceValidationStats : Type := mkValidationStats {
  sv_read_operations : N;
  sv_bytes_read : N;
  sv_bytes_hashed : N;
  sv_largest_allocation : N;
}.

Record SourceValidationReport : Type := mkValidation {
  svr_file_len : N;
  svr_epoch : N;
  svr_manifest_id : N;
  svr_manifest : Manifest;
  svr_entries : list DirectoryEntry;
  svr_unsupported_required_capabilities : list N;
  svr_integrity : IntegrityStatus;
  svr_stats : SourceValidationStats;
}.

(** [SourceValidationReport::is_fully_interpretable] *)
Definition validation_fully_interpretable (r : SourceValidationReport) : bool :=
  match svr_unsupported_required_capabilities r with [] => true | _ => false end.

(** [ValidationReader]: its mutable part. *)
Record Validating (S : Type) : Type := mkValidating { vr_source : S; vr_stats : SourceValidationStats }.
Arguments mkValidating {S}.
Arguments vr_source {S}.
Arguments vr_stats {S}.

(** [parse_footer] of this file keeps the digest. *)
Definition validate_parse_footer (b : bytes) : R Footer := parse_footer b 0.

Definition validate_footer_against_inspection (footer : Footer) (footer_offset : N)
    (entries : list DirectoryEntry) (manifest_id : N) : R unit :=
  check Frame.manifest_id footer =? manifest_id
    else DirectoryMismatch "footer manifest changed during validation" in
  let* count := ok_or (try_u64 (len entries)) (LimitExceeded "record count") in
  let* expected_count := ok_or (checked_add count 1) (LimitExceeded "record count") in
  check record_count footer =? expected_count else InvalidLength "footer record count" in
  let* directory_offset :=
    match last entries with
    | Some entry =>
        ok_or (value ← checked_add (offset entry) RECORD_HEADER_LEN;
               checked_add value (stored_len entry)) (RangeOutOfBounds "directory offset")
    | None => Ok HEADER_LEN
    end in
  check Frame.directory_offset footer =? directory_offset
    else DirectoryMismatch "footer directory offset" in
  let* directory_len :=
    ok_or (checked_sub footer_offset directory_offset) (RangeOutOfBounds "directory length") in
  check Frame.directory_len footer =? directory_len
    else DirectoryMismatch "footer directory length" in
  Ok tt.

Section Validate.
Context `{Sha256} {S : Type} `{ReadAt S} (file_len : N) (limits : Limits).

Definition sv_set (f : SourceValidationStats -> SourceValidationStats) : SE (Validating S) unit :=
  se_modify (fun r => mkValidating (vr_source r) (f (vr_stats r))).

Definition sv_source_read (offset n : N) (context : string) : SE (Validating S) bytes := fun r =>
  let '(res, s) := read_exact_at (vr_source r) offset n in
  (match res with Ok b => Ok b | Err _ => Err (Io context) end, mkValidating s (vr_stats r)).

(** [ValidationReader::read_exact] *)
Definition vr_read_exact (offset length : N) (context : string) : SE (Validating S) bytes :=
  do* length := se_lift (ok_or (try_u64 length) (LimitExceeded "total bytes read")) in
  do* end_ := se_lift (ok_or (checked_add offset length) (RangeOutOfBounds context)) in
  do* _ := guard (negb (file_len <? end_)) (RangeOutOfBounds context) in
  do* r := se_get in
  do* next_total := se_lift (ok_or (checked_add (sv_bytes_read (vr_stats r)) length)
                               (LimitExceeded "total bytes read")) in
  do* _ := guard (negb (max_total_bytes_read limits <? next_total))
             (LimitExceeded "total bytes read") in
  do* buffer := sv_source_read offset length context in
  do* _ := sv_set (fun st => mkValidationStats (sv_read_operations st) next_total
                               (sv_bytes_hashed st) (sv_largest_allocation st)) in
  do* ops := se_lift (ok_or (checked_add (sv_read_operations (vr_stats r)) 1)
                        (LimitExceeded "read operations")) in
  do* _ := sv_set (fun st => mkValidationStats ops (sv_bytes_read st)
                               (sv_bytes_hashed st) (sv_largest_allocation st)) in
  se_ret buffer.

(** One block of the digest loop: the offset after it and the hasher. *)
Definition hash_block (footer_offset chunk_limit offset : N) (hasher : Hasher)
    : SE (Validating S) (N * Hasher) :=
  do* remaining := se_lift (ok_or (checked_sub footer_offset offset)
                              (RangeOutOfBounds "committed prefix")) in
  let length := N.min remaining chunk_limit in
  do* length_usize := se_lift (ok_or (try_u64 length) (LimitExceeded "hash chunk bytes")) in
  do* block := vr_read_exact offset length_usize "committed prefix" in
  let hasher := hasher_update hasher block in
  do* r := se_get in
  do* hashed := se_lift (ok_or (checked_add (sv_bytes_hashed (vr_stats r)) length)
                           (LimitExceeded "bytes hashed")) in
  do* _ := sv_set (fun st => mkValidationStats (sv_read_operations st) (sv_bytes_read st)
                               hashed (sv_largest_allocation st)) in
  do* offset := se_lift (ok_or (checked_add offset length) (RangeOutOfBounds "committed prefix")) in
  se_ret (offset, hasher).

(** A turn of [while offset < footer_offset]. *)
Definition hash_turn (footer_offset chunk_limit : N) (st : (N * Hasher) * Validating S)
    : ((N * Hasher) * Validating S) + (R Hasher * Validating S) :=
  let '((offset, hasher), r) := st in
  if offset <? footer_offset then
    match hash_block footer_offset chunk_limit offset hasher r with
    | (Ok next, r) => inl (next, r)
    | (Err e, r) => inr (Err e, r)
    end
  else inr (Ok hasher, r).

(** The loop. The offset grows on every turn, so [2 ^ 64] turns are never
    used up ([hash_prefix_terminates]). *)
Definition hash_prefix (footer_offset chunk_limit : N) : SE (Validating S) Hasher := fun r =>
  match loop_pow 64 (hash_turn footer_offset chunk_limit) ((0, hasher_new), r) with
  | inr result => result
  | inl (_, r) => (Err (RangeOutOfBounds "committed prefix"), r)
  end.

(** The rest of [SourceValidator::validate], over the inspection. *)
Definition validate_body (inspection : InspectionReport) : SE (Validating S) SourceValidationReport :=
  do* footer_offset := se_lift (ok_or (checked_sub file_len FOOTER_LEN) (Truncated "footer")) in
  let chunk_limit := N.min (max_stream_chunk_bytes limits) (max_allocation_bytes limits) in
  do* _ := guard (negb (chunk_limit =? 0)) (LimitExceeded "hash chunk bytes") in
  do* _ := se_lift (ok_or (try_u64 chunk_limit) (LimitExceeded "hash chunk bytes")) in
  do* _ := sv_set (fun st => mkValidationStats (sv_read_operations st) (sv_bytes_read st)
                               (sv_bytes_hashed st) (N.max (sv_largest_allocation st) chunk_limit)) in
  do* hasher := hash_prefix footer_offset chunk_limit in
  do* footer_bytes := vr_read_exact footer_offset FOOTER_LEN "footer" in
  do* footer := se_lift (validate_parse_footer footer_bytes) in
  do* _ := se_lift (validate_footer_against_inspection footer footer_offset
                      (ir_entries inspection) (ir_manifest_id inspection)) in
  do* _ := guard (bool_decide (hasher_finalize hasher = digest footer)) DigestMismatch in
  do* r := se_get in
  se_ret (mkValidation (ir_file_len inspection) (ir_epoch inspection) (ir_manifest_id inspection)
            (ir_manifest inspection) (ir_entries inspection)
            (ir_unsupported_required_capabilities inspection) Verified (vr_stats r)).
End Validate.

(** [SourceValidator::validate] *)
Definition validate `{Sha256} {S} `{ReadAt S} (limits : Limits) : SE S SourceValidationReport :=
  do* inspection := inspect limits in
  fun source =>
    let stats := ir_stats inspection in
    let initial := mkValidationStats (rs_read_operations stats) (rs_bytes_read stats) 0
                     (rs_largest_allocation stats) in
    let '(r, v) := validate_body (ir_file_len inspection) limits inspection (mkValidating source initial) in
    (r, vr_source v).
