(* ===== verification/ValidateFacts.v ===== *)
(** Strict source validation: the digest loop terminates and hashes the whole
    committed prefix, and the accepted inputs are exactly the images of
    accepted documents that inspection admits, within the budget: a budget that
    does not cover the reading refuses every one of them. *)

From Stdlib Require Import Strings.Byte Strings.String NArith ZArith Lia.
From stdpp Require Import base list gmap strings sorting.
From S2P Require Import Prelude Order Errors Format Cbor CborFacts Model Schema Digest Frame Image.
From S2P Require Import Reader ReaderFacts Machine Source SourceFacts SourceValidate.

Local Open Scope N_scope.

(** ** Termination of the digest loop, over any source *)

Section Loop.
Context {S : Type} `{ReadAt S} (file_len : N) (limits : Limits) (fo chunk : N).
Context (Hc : 0 < chunk).

Lemma hash_block_progress offset hasher (r : Validating S) o' h' r' :
  offset < fo -> hash_block file_len limits fo chunk offset hasher r = (Ok (o', h'), r') ->
  offset < o' <= fo.
Proof.
  intros Ho Hb. unfold hash_block in Hb. step_machine Hb. option_facts. lia.
Qed.

Lemma hash_turn_progress (s s' : (N * Hasher) * Validating S) :
  hash_turn file_len limits fo chunk s = inl s' -> s.1.1 < s'.1.1 <= fo.
Proof.
  destruct s as [[o h] r]. simpl. intros Ht. destruct (N.ltb_spec o fo) as [Ho|]; [|done].
  destruct (hash_block _ _ _ _ _ _ _) as [[[o' h']|] r'] eqn:E; [|done]. injection Ht as <-.
  by eapply hash_block_progress in E.
Qed.

(** The fallback of [hash_prefix] is never reached. *)
Lemma hash_prefix_terminates (r : Validating S) :
  fo <= U64_MAX ->
  exists res, loop_pow 64 (hash_turn file_len limits fo chunk) ((0, hasher_new), r) = inr res.
Proof.
  intros Hf. destruct (loop_pow _ _ _) as [s|res] eqn:E; [|by exists res]. exfalso.
  pose proof (loop_pow_counter 64 _ (fun s => s.1.1) _ _
    (fun s s' Hs => proj1 (hash_turn_progress s s' Hs)) E) as Hcnt. simpl in Hcnt.
  pose proof (loop_pow_inv (fun s => s.1.1 <= fo) (fun _ => True) 64
    (hash_turn file_len limits fo chunk) ((0, hasher_new), r)) as Hi.
  rewrite E in Hi. unfold U64_MAX in Hf.
  assert (Hle : s.1.1 <= fo).
  { apply Hi; [|simpl; lia]. intros s1 _.
    destruct (hash_turn _ _ _ _ s1) as [s2|] eqn:E2; [|done]. apply hash_turn_progress in E2. lia. }
  lia.
Qed.
End Loop.

(** ** Validation of a byte slice *)

Section Slice.
Context `{Sha256} (input : bytes) (limits : Limits).
Context (Hlim : limits_ok limits) (Hu : len input <= U64_MAX).

Definition on_slice (r : Validating SliceSource) : Prop := vr_source r = mkSliceSource input.

Lemma returns_vr_read offset n context :
  returns on_slice (vr_read_exact (len input) limits offset n context)
    (fun b => offset + n <= len input /\ b = slice input offset (offset + n)).
Proof.
  unfold vr_read_exact. returns_step H1. option_facts. returns_step H2. returns_step H3.
  returns_step H4. returns_step H5. returns_step H6. clear H4 H5 H6. bool_facts. option_facts.
  eapply returns_bind.
  - intros s b s' Hs Hr. unfold sv_source_read in Hr. rewrite Hs in Hr.
    destruct (stable_read (mkSliceSource input) input offset n eq_refl Hu H3) as [E _].
    cbn [read_exact_at slice_read_at fst snd] in *. rewrite E in Hr. injection Hr as <- <-.
    split; [done|].
    exact (conj H3 eq_refl : (fun b => offset + n <= len input /\ b = slice input offset (offset + n)) _).
  - intros b Hb. eapply returns_bind; [by apply returns_modify|]. intros _ _.
    returns_step H7. eapply returns_bind; [by apply returns_modify|]. intros _ _.
    by apply returns_ret.
Qed.

Lemma returns_hash_block fo chunk offset :
  fo <= len input ->
  returns on_slice (hash_block (len input) limits fo chunk offset (slice input 0 offset))
    (fun res => res.2 = slice input 0 res.1 /\ res.1 <= fo).
Proof.
  intros Hf. unfold hash_block. returns_step H1. returns_step H2. option_facts.
  eapply returns_bind; [apply returns_vr_read|]. intros b [Hb ->].
  returns_step H3. returns_step H4. eapply returns_bind; [by apply returns_modify|]. intros _ _.
  returns_step H5. option_facts. apply returns_ret. cbn [fst snd]. split; [|lia].
  unfold hasher_update. rewrite slice_join by lia. done.
Qed.

Lemma returns_hash_prefix fo chunk :
  fo <= len input -> 0 < chunk ->
  returns on_slice (hash_prefix (len input) limits fo chunk) (fun h => h = slice input 0 fo).
Proof.
  intros Hf Hc r h r' Hr Hh. unfold hash_prefix in Hh.
  destruct (hash_prefix_terminates (S := SliceSource) (len input) limits fo chunk Hc r ltac:(lia)) as [res E].
  rewrite E in Hh. subst res.
  refine (loop_pow_result
    (fun st => on_slice st.2 /\ st.1.2 = slice input 0 st.1.1 /\ st.1.1 <= fo)
    (fun res => forall h, res.1 = Ok h -> on_slice res.2 /\ h = slice input 0 fo)
    64 _ _ _ _ _ E h eq_refl).
  - intros [[o hs] s] (Hs & Hhs & Ho). cbn [fst snd hash_turn] in *. subst hs.
    destruct (N.ltb_spec o fo) as [Hlt|Hge].
    + destruct (hash_block _ _ _ _ _ _ s) as [[[o' h']|e] s'] eqn:Eb; [|done].
      destruct (returns_hash_block fo chunk o Hf s (o', h') s' Hs Eb) as [H1 [H2 H3]]. done.
    + intros h1 [= <-]. split; [done|]. f_equal. lia.
  - simpl. split_and!; [done|done|lia].
Qed.

(** The footer read back from an image. *)
Definition footer_with (fs : list Frame) (mid : N) (g : bytes) : Footer :=
  mkFooter (len (body fs)) (frame_len (directory_frame fs)) mid (len fs + 1) g.

Lemma parse_footer_bytes f : footer_fits f -> parse_footer (footer_bytes f) 0 = Ok f.
Proof.
  intros Hf. assert (H80 : len (footer_bytes f) = 80) by (apply footer_bytes_len, Hf).
  apply parse_footer_Ok; [by rewrite H80|]. split_and!; [by rewrite H80|done|].
  apply slice_full. by rewrite H80.
Qed.

Lemma returns_validate_body inspection fs mid g :
  ir_file_len inspection = len input -> len g = 32 -> mid <= U64_MAX ->
  input = image_with fs mid g ->
  returns on_slice (validate_body (len input) limits inspection)
    (fun rep => sha256 (committed fs) = g /\ svr_file_len rep = ir_file_len inspection /\
      svr_epoch rep = ir_epoch inspection /\ svr_manifest_id rep = ir_manifest_id inspection /\
      svr_manifest rep = ir_manifest inspection /\ svr_entries rep = ir_entries inspection /\
      svr_unsupported_required_capabilities rep = ir_unsupported_required_capabilities inspection /\
      svr_integrity rep = Verified).
Proof.
  intros Hfl Hg Hmid Himg.
  assert (Hlen : len input = len (committed fs) + FOOTER_LEN) by (rewrite Himg; by apply image_with_len).
  unfold validate_body. returns_step Ho. option_facts. returns_step Hc. bool_facts. returns_step Hc'.
  eapply returns_bind; [by apply returns_modify|]. intros _ _.
  replace (len input - FOOTER_LEN) with (len (committed fs)) by lia.
  eapply returns_bind; [apply returns_hash_prefix; lia|]. intros h ->.
  eapply returns_bind; [apply returns_vr_read|]. intros fb [_ ->].
  returns_step Hf. returns_step Hv. returns_step Hd.
  eapply returns_bind; [apply returns_get|]. intros r _. apply returns_ret.
  split; [|done]. apply bool_decide_eq_true in Hd. unfold hasher_finalize in Hd.
  assert (Hpre : slice input 0 (len (committed fs)) = committed fs)
    by (rewrite Himg; by apply (slice_app [])).
  assert (Hsuf : slice input (len (committed fs)) (len (committed fs) + FOOTER_LEN)
                 = footer_bytes (footer_with fs mid g)).
  { rewrite Himg. unfold image_with. fold (footer_with fs mid g).
    rewrite <- (app_nil_r (_ ++ _)), <- app_assoc. apply slice_app; [done|].
    by rewrite footer_bytes_len. }
  rewrite Hsuf in Hf. rewrite Hpre in Hd.
  unfold validate_parse_footer in Hf. rewrite parse_footer_bytes in Hf; [by injection Hf as <-|].
  pose proof (len_le_frames_bytes fs) as Hn. rewrite committed_body_len, body_len in Hlen.
  unfold footer_fits, footer_with, frame_len, RECORD_HEADER_LEN, HEADER_LEN in *. simpl in *.
  rewrite body_len. unfold HEADER_LEN. split_and!; try done; lia.
Qed.
End Slice.

(** Everything [validate] accepts is an image; its report is the inspection's,
    with integrity verified. *)
Definition validation_of (input : bytes) (rep : SourceValidationReport) (fs : list Frame) (mid : N)
    (m : Manifest) : Prop :=
  svr_file_len rep = len input /\ svr_epoch rep = EXPERIMENTAL_EPOCH /\ svr_manifest_id rep = mid /\
  svr_manifest rep = m /\ svr_entries rep = frame_entries HEADER_LEN fs /\
  svr_unsupported_required_capabilities rep = required_capabilities m /\ svr_integrity rep = Verified.

Lemma validate_sound `{Sha256} input limits rep s :
  limits_ok limits -> len input <= U64_MAX ->
  validate limits (mkSliceSource input) = (Ok rep, s) ->
  exists fs mid m, mid <= U64_MAX /\ inspected limits fs mid m /\ input = image fs mid /\
    validation_of input rep fs mid m.
Proof.
  intros Hlim Hu Hv. unfold validate in Hv. apply se_bind_Ok in Hv as (inspection & s1 & Hi & Hv).
  pose proof Hi as Hi'. apply inspect_sound in Hi' as (fs & mid & m & g & Hg & Hmid & Hins & Himg & Hrep); [|done..].
  assert (Hs1 : s1 = mkSliceSource input) by (by eapply inspect_keeps_slice).
  destruct Hrep as (R1 & R2 & R3 & R4 & R5 & R6 & R7).
  rewrite R1 in Hv. destruct (validate_body _ _ _ _) as [r v] eqn:E. injection Hv as -> <-.
  destruct (returns_validate_body input limits Hu inspection fs mid g R1 Hg Hmid Himg
    (mkValidating s1 _) rep v Hs1 E) as [_ (Q1 & Q2 & Q3 & Q4 & Q5 & Q6 & Q7 & Q8)].
  exists fs, mid, m. split_and!; [done|done| |].
  - by rewrite image_is_with, Q1.
  - unfold validation_of. rewrite Q2, Q3, Q4, Q5, Q6, Q7, Q8, R1, R2, R3, R4, R5, R6. done.
Qed.

(** ** Validation of an image is decided by its read budget *)

Section Complete.
Context `{Sha256Ok} (input : bytes) (limits : Limits).
Context (Hlim : limits_ok limits) (Hu : len input <= U64_MAX).

Let src := mkSliceSource input.

Lemma vr_read_run offset n context st :
  offset + n <= len input -> sv_bytes_read st + n <= max_total_bytes_read limits ->
  sv_read_operations st + 1 <= U64_MAX ->
  vr_read_exact (len input) limits offset n context (mkValidating src st) =
  (Ok (slice input offset (offset + n)),
   mkValidating src (mkValidationStats (sv_read_operations st + 1) (sv_bytes_read st + n)
     (sv_bytes_hashed st) (sv_largest_allocation st))).
Proof.
  intros Hr Hb Hk.
  assert (Hmt : max_total_bytes_read limits <= U64_MAX)
    by (apply (limits_ok_field limits); [done|set_solver]).
  unfold vr_read_exact, sv_source_read, sv_set, se_modify, guard, se_lift, se_get, se_ret, se_bind.
  rewrite try_u64_fits by lia. cbn [ok_or].
  rewrite checked_add_fits by lia. cbn [ok_or].
  rewrite (proj2 (N.ltb_ge _ _)) by lia. cbn [negb vr_stats vr_source].
  rewrite checked_add_fits by lia. cbn [ok_or].
  rewrite (proj2 (N.ltb_ge _ _)) by lia. cbn [negb].
  destruct (stable_read src input offset n eq_refl Hu Hr) as [E _].
  cbn [read_exact_at slice_read_at fst snd] in *. rewrite E. cbn [vr_stats vr_source].
  rewrite checked_add_fits by lia. done.
Qed.

Lemma vr_read_over offset n context st :
  offset + n <= len input -> max_total_bytes_read limits < sv_bytes_read st + n ->
  exists r, vr_read_exact (len input) limits offset n context (mkValidating src st) = (Err (LimitExceeded "total bytes read"), r).
Proof.
  intros Hr Hb. unfold vr_read_exact, guard, se_lift, se_get, se_bind.
  rewrite try_u64_fits by lia. cbn [ok_or]. rewrite checked_add_fits by lia. cbn [ok_or].
  rewrite (proj2 (N.ltb_ge _ _)) by lia. cbn [negb vr_stats]. destruct (checked_add _ _) as [total|] eqn:Et; cbn [ok_or]; [|by eexists].
  apply checked_add_Some in Et as [-> _]. rewrite (proj2 (N.ltb_lt _ _) Hb). by eexists.
Qed.

Context (fo chunk b0 k0 : N) (Hf : fo <= len input) (Hc : 0 < chunk).
Context (Hk : k0 <= b0).

(** The state after the first [o] bytes of the prefix. *)
Definition hashed_to (o : N) (r : Validating SliceSource) : Prop :=
  vr_source r = src /\ sv_bytes_read (vr_stats r) = b0 + o /\ sv_bytes_hashed (vr_stats r) = o /\
  sv_read_operations (vr_stats r) <= k0 + o.

Lemma hash_block_run o r :
  o < fo -> b0 + o <= max_total_bytes_read limits -> hashed_to o r ->
  if b0 + o + N.min (fo - o) chunk <=? max_total_bytes_read limits then
    exists o' r', hash_block (len input) limits fo chunk o (slice input 0 o) r
                  = (Ok (o', slice input 0 o'), r') /\ o' <= fo /\ b0 + o' <= max_total_bytes_read limits /\ hashed_to o' r'
  else exists r', hash_block (len input) limits fo chunk o (slice input 0 o) r = (Err (LimitExceeded "total bytes read"), r').
Proof.
  intros Ho Hb (H1 & H2 & H3 & H4). destruct r as [s st]. simpl in *. subst s.
  set (l := N.min (fo - o) chunk). assert (Hl : 0 < l /\ o + l <= fo) by (unfold l; lia).
  assert (Hmt : max_total_bytes_read limits <= U64_MAX) by (apply (limits_ok_field limits); [done|set_solver]).
  unfold hash_block, se_bind, se_lift, se_get, sv_set, se_modify, se_ret.
  replace (checked_sub fo o) with (Some (fo - o)) by (symmetry; apply checked_sub_Some; lia).
  cbn [ok_or]. fold l. rewrite try_u64_fits by lia. cbn [ok_or]. rewrite <- H2.
  destruct (N.leb_spec (sv_bytes_read st + l) (max_total_bytes_read limits)) as [Hfit|Hover].
  2: { destruct (vr_read_over o l "committed prefix" st) as [r ->]; [lia|done|]. by exists r. }
  rewrite vr_read_run by lia. cbn [vr_stats sv_bytes_hashed].
  rewrite checked_add_fits by lia. cbn [ok_or vr_source vr_stats].
  rewrite checked_add_fits by lia. cbn [ok_or].
  eexists _, _. unfold hasher_update. rewrite slice_join by lia. split_and!; [done|lia|lia|].
  unfold hashed_to. simpl. split_and!; [done|lia|lia|lia].
Qed.

Lemma hash_prefix_run r :
  b0 <= max_total_bytes_read limits -> hashed_to 0 r ->
  if b0 + fo <=? max_total_bytes_read limits then
    exists r', hash_prefix (len input) limits fo chunk r = (Ok (slice input 0 fo), r') /\ hashed_to fo r'
  else exists r', hash_prefix (len input) limits fo chunk r = (Err (LimitExceeded "total bytes read"), r').
Proof.
  intros Hb Hr. unfold hash_prefix. destruct (hash_prefix_terminates (len input) limits fo chunk Hc r ltac:(lia)) as [res E]. rewrite E.
  refine (loop_pow_result
    (fun st => st.1.2 = slice input 0 st.1.1 /\ st.1.1 <= fo /\ b0 + st.1.1 <= max_total_bytes_read limits /\ hashed_to st.1.1 st.2)
    (fun res => if b0 + fo <=? max_total_bytes_read limits then exists r', res = (Ok (slice input 0 fo), r') /\ hashed_to fo r'
                else exists r', res = (Err (LimitExceeded "total bytes read"), r')) 64 _ _ _ _ _ E).
  - intros [[o h] s] (Hh & Ho & Hbo & Hs). cbn [fst snd hash_turn] in *. subst h.
    destruct (N.ltb_spec o fo) as [Hlt|Hge].
    + pose proof (hash_block_run o s Hlt Hbo Hs) as Hblock.
      destruct (N.leb_spec (b0 + o + N.min (fo - o) chunk) (max_total_bytes_read limits)).
      * by destruct Hblock as (o' & r' & -> & Ho' & Hb' & Hr').
      * destruct Hblock as (r' & ->). rewrite (proj2 (N.leb_gt _ _)) by lia. by exists r'.
    + assert (o = fo) as -> by lia. rewrite (proj2 (N.leb_le _ _) Hbo). eauto.
  - simpl. split_and!; [done|lia|lia|done].
Qed.
End Complete.

Lemma validate_footer_image fs mid g :
  len (committed fs) + FOOTER_LEN <= U64_MAX ->
  validate_footer_against_inspection (footer_with fs mid g) (len (committed fs))
    (frame_entries HEADER_LEN fs) mid = Ok tt.
Proof.
  intros Hl. pose proof (len_le_frames_bytes fs) as Hn.
  rewrite committed_body_len in Hl |- *. rewrite body_len in *.
  unfold validate_footer_against_inspection, footer_with.
  cbn [Frame.manifest_id Frame.record_count Frame.directory_offset Frame.directory_len].
  rewrite N.eqb_refl, frame_entries_len.
  assert (Hfs : len fs + 1 <= U64_MAX) by (unfold RECORD_HEADER_LEN, HEADER_LEN, FOOTER_LEN in *; lia).
  rewrite try_u64_fits by lia. cbn [ok_or]. rewrite checked_add_fits by lia. cbn [ok_or]. rewrite N.eqb_refl.
  assert (E : match last (frame_entries HEADER_LEN fs) with
    | Some entry => ok_or (value ← checked_add (offset entry) RECORD_HEADER_LEN;
               checked_add value (stored_len entry)) (RangeOutOfBounds "directory offset")
    | None => Ok HEADER_LEN end = Ok (HEADER_LEN + len (frames_bytes fs))).
  { destruct fs as [|f fs' _] using rev_ind; [done|].
    rewrite frame_entries_snoc, last_snoc. simpl.
    rewrite frames_bytes_snoc, len_app, frame_bytes_len in *. unfold frame_len in *.
    rewrite checked_add_fits by lia. simpl. rewrite checked_add_fits by lia. simpl. f_equal. lia. }
  rewrite E, body_len, N.eqb_refl.
  rewrite (proj2 (checked_sub_Some _ _ (frame_len (directory_frame fs)))) by lia. cbn [ok_or].
  by rewrite N.eqb_refl.
Qed.

(** The bytes a whole validation reads: the inspection, the committed prefix
    and the footer again. *)
Definition validate_cost (fs : list Frame) (m : Manifest) : N :=
  inspect_cost fs m + len (committed fs) + FOOTER_LEN.

(** What a validation read. *)
Definition validation_reads (rep : SourceValidationReport) (fs : list Frame) (m : Manifest) : Prop :=
  sv_bytes_read (svr_stats rep) = validate_cost fs m /\ sv_bytes_hashed (svr_stats rep) = len (committed fs).

Lemma se_bind_run {St A B} (m : SE St A) (k : A -> SE St B) s :
  se_bind m k s = match m s with (Ok a, s') => k a s' | (Err e, s') => (Err e, s') end.
Proof. done. Qed.

(** What the validation of an image returns, by its limits alone. *)
Lemma validate_decided `{Sha256Ok} limits fs mid m :
  limits_ok limits -> mid <= U64_MAX -> inspected limits fs mid m ->
  if validate_cost fs m <=? max_total_bytes_read limits then
    if N.min (max_stream_chunk_bytes limits) (max_allocation_bytes limits) =? 0 then
      exists s, validate limits (mkSliceSource (image fs mid)) = (Err (LimitExceeded "hash chunk bytes"), s)
    else exists rep, validate limits (mkSliceSource (image fs mid)) = (Ok rep, mkSliceSource (image fs mid)) /\
      validation_of (image fs mid) rep fs mid m /\ validation_reads rep fs m
  else exists label s, validate limits (mkSliceSource (image fs mid)) = (Err (LimitExceeded label), s).
Proof.
  intros Hlim Hmid Hins. unfold validate_cost.
  set (input := image fs mid). set (chunk := N.min _ _).
  assert (Hg : len (sha256 (committed fs)) = 32) by apply sha256_len.
  assert (Himg : input = image_with fs mid (sha256 (committed fs))) by done.
  assert (Hlen : len input = len (committed fs) + FOOTER_LEN) by (rewrite Himg; by apply image_with_len).
  assert (Hu : len input <= U64_MAX).
  { pose proof (framed_len _ _ (proj1 (proj1 Hins))).
    assert (max_file_bytes limits <= U64_MAX) by (apply (limits_ok_field limits); [done|set_solver]). lia. }
  assert (Hmt : max_total_bytes_read limits <= U64_MAX) by (apply (limits_ok_field limits); [done|set_solver]).
  pose proof (inspect_decided input limits Hlim Hu fs mid m _ Hg Hmid Hins Himg) as Hi. unfold validate. rewrite se_bind_run.
  destruct (N.leb_spec (inspect_cost fs m) (max_total_bytes_read limits)) as [Hic|Hic].
  2: { destruct Hi as (s & ->). rewrite (proj2 (N.leb_gt _ _)) by lia. by eexists _, _. }
  destruct Hi as (insp & -> & (R1 & R2 & R3 & R4 & R5 & R6 & R7) & Hb & Hk).
  assert (Hck : len fs + 5 <= inspect_cost fs m) by (unfold inspect_cost, RECORD_HEADER_LEN, HEADER_LEN; lia).
  rewrite R1, Hb, Hk. set (st0 := mkValidationStats _ _ _ _).
  unfold validate_body, se_bind, se_lift, se_get, sv_set, se_modify, se_ret, guard, se_lift.
  rewrite (proj2 (checked_sub_Some (len input) FOOTER_LEN (len (committed fs)))) by lia. cbn [ok_or]. fold chunk.
  destruct (N.eqb_spec chunk 0) as [Hc0|Hc0]; cbn [negb].
  { destruct (_ <=? _); by repeat eexists. }
  assert (Hal' : max_allocation_bytes limits <= U64_MAX) by (apply (limits_ok_field limits); [done|set_solver]).
  rewrite try_u64_fits by lia. cbn [ok_or vr_source vr_stats].
  set (v0 := mkValidating _ _).
  pose proof (hash_prefix_run input limits Hlim Hu (len (committed fs)) chunk (inspect_cost fs m) (len fs + 5)
    ltac:(lia) ltac:(lia) ltac:(lia) v0 Hic) as Hh.
  assert (Hv0 : hashed_to input (inspect_cost fs m) (len fs + 5) 0 v0) by (unfold hashed_to; simpl; split_and!; [done|lia|done|lia]).
  specialize (Hh Hv0). destruct (N.leb_spec (inspect_cost fs m + len (committed fs)) (max_total_bytes_read limits)) as [Hpc|Hpc].
  2: { destruct Hh as (r' & ->). rewrite (proj2 (N.leb_gt _ _)) by lia. by repeat eexists. }
  destruct Hh as ([s' st'] & -> & (H1 & H2 & H3 & H4)). simpl in H1, H2, H3, H4. subst s'.
  destruct (N.leb_spec (inspect_cost fs m + len (committed fs) + FOOTER_LEN) (max_total_bytes_read limits)) as [Hfc|Hfc].
  2: { edestruct (vr_read_over input limits Hu (len (committed fs)) FOOTER_LEN) as [r ->]; [lia|by rewrite H2|]. by repeat eexists. }
  rewrite (vr_read_run input limits Hlim Hu) by (unfold FOOTER_LEN in *; lia).
  assert (Hsuf : slice input (len (committed fs)) (len (committed fs) + FOOTER_LEN)
                 = footer_bytes (footer_with fs mid (sha256 (committed fs)))) by apply image_footer_slice.
  rewrite Hsuf. unfold validate_parse_footer. rewrite parse_footer_bytes.
  2:{ pose proof (len_le_frames_bytes fs) as Hn. rewrite committed_body_len, body_len in Hlen.
      unfold footer_fits, footer_with, frame_len, RECORD_HEADER_LEN, HEADER_LEN in *. simpl in *.
      rewrite body_len. unfold HEADER_LEN. split_and!; try done; lia. }
  rewrite R5, R3, validate_footer_image by lia.
  unfold hasher_finalize. cbn [digest footer_with].
  pose proof (image_committed fs mid : slice input 0 (len (committed fs)) = committed fs) as Hpre.
  rewrite Hpre, bool_decide_true by done.
  eexists _. split; [done|]. unfold validation_of, validation_reads, validate_cost. simpl. by rewrite R1, R2, R4, R6, H2, H3.
Qed.

(** An accepted image, with what was read of it. *)
Lemma validate_sound_cost `{Sha256Ok} input limits rep s :
  limits_ok limits -> len input <= U64_MAX -> validate limits (mkSliceSource input) = (Ok rep, s) ->
  exists fs mid m, mid <= U64_MAX /\ inspected limits fs mid m /\ input = image fs mid /\ validation_of input rep fs mid m /\
    0 < N.min (max_stream_chunk_bytes limits) (max_allocation_bytes limits) /\
    validate_cost fs m <= max_total_bytes_read limits /\ validation_reads rep fs m.
Proof.
  intros Hlim Hu Hv. pose proof Hv as (fs & mid & m & Hmid & Hins & -> & Hrep)%validate_sound; [|done..]. exists fs, mid, m.
  pose proof (validate_decided limits fs mid m Hlim Hmid Hins) as Hd. rewrite Hv in Hd.
  destruct (N.leb_spec (validate_cost fs m) (max_total_bytes_read limits)); [|by destruct Hd as (? & ? & ?)].
  destruct (N.eqb_spec (N.min (max_stream_chunk_bytes limits) (max_allocation_bytes limits)) 0); [by destruct Hd|].
  destruct Hd as (rep' & [= -> _] & _ & Hr). split_and!; try done. lia.
Qed.
