(* ===== verification/Stream.v ===== *)
(** [crates/ucof-core/src/stream.rs]: the sequential, non-seeking reader, as a
    state machine over any [std::io::Read]. Every method returns the reader it
    leaves behind, on errors too. *)

From Stdlib Require Import Strings.Byte Strings.String NArith ZArith Lia.
From stdpp Require Import base list gmap strings sorting.
From S2P Require Import Prelude Order Errors Format Cbor Model Schema Digest Frame Machine Source.

Local Open Scope N_scope.

(** ** Data *)

Record StreamStats : Type := mkStreamStats {
  st_read_operations : N;
  st_bytes_read : N;
  st_bytes_hashed : N;
  st_logical_bytes : N;
  st_payload_chunks : N;
  st_largest_allocation : N;
}.

Record StreamRecord : Type := mkStreamRecord {
  sr_kind : RecordKind;
  sr_object_id : N;
  sr_offset : N;
  sr_stored_len : N;
  sr_logical_len : N;
}.

Record StreamCommit : Type := mkStreamCommit {
  sc_manifest_id : N;
  sc_record_count : N;
  sc_roots : list N;
  sc_unsupported_required_capabilities : list N;
  sc_integrity : IntegrityStatus;
  sc_stats : StreamStats;
}.

Inductive StreamEvent : Type :=
  | FileHeader (epoch : N)
  | RecordStart (record : StreamRecord)
  | PayloadChunk (kind : RecordKind) (object_id : N) (chunk : bytes) (remaining : N)
  | RecordEnd (kind : RecordKind) (object_id : N)
  | Commit (commit : StreamCommit).

Inductive State : Type := SHeader | SRecordHeader | SPayload | SRecordEnd | SFooter | SDone | SFailed.

Record ActiveRecord : Type := mkActive {
  ar_record : StreamRecord;
  ar_remaining : N;
  ar_metadata : option bytes;
}.

Record DirectoryState : Type := mkDirectoryState { ds_offset : N; ds_len : N }.

(** [SequentialReader<R>]; the limits are a parameter of the methods. *)
Record SequentialReader (S : Type) : Type := mkReader {
  inner : S;
  state : State;
  sq_offset : N;
  stats : StreamStats;
  hasher : Hasher;
  active : option ActiveRecord;
  inventory : list DirectoryEntry;
  identifiers : gset N;
  manifests : gmap N Manifest;
  directory : option DirectoryState;
  sq_record_count : N;
}.
Arguments mkReader {S}.
Arguments inner {S}.
Arguments state {S}.
Arguments sq_offset {S}.
Arguments stats {S}.
Arguments hasher {S}.
Arguments active {S}.
Arguments inventory {S}.
Arguments identifiers {S}.
Arguments manifests {S}.
Arguments directory {S}.
Arguments sq_record_count {S}.

(** [SequentialReader::new] *)
Definition stream_new {S} (s : S) : SequentialReader S :=
  mkReader s SHeader 0 (mkStreamStats 0 0 0 0 0 0) hasher_new None [] ∅ ∅ None 0.

Section Setters.
Context {S : Type}.
Implicit Type r : SequentialReader S.
Definition set_state x r := mkReader (inner r) x (sq_offset r) (stats r) (hasher r) (active r)
  (inventory r) (identifiers r) (manifests r) (directory r) (sq_record_count r).
Definition set_inner (x : S) r := mkReader x (state r) (sq_offset r) (stats r) (hasher r) (active r)
  (inventory r) (identifiers r) (manifests r) (directory r) (sq_record_count r).
Definition set_offset x r := mkReader (inner r) (state r) x (stats r) (hasher r) (active r)
  (inventory r) (identifiers r) (manifests r) (directory r) (sq_record_count r).
Definition upd_stats (f : StreamStats -> StreamStats) r :=
  mkReader (inner r) (state r) (sq_offset r) (f (stats r)) (hasher r) (active r)
  (inventory r) (identifiers r) (manifests r) (directory r) (sq_record_count r).
Definition set_hasher x r := mkReader (inner r) (state r) (sq_offset r) (stats r) x (active r)
  (inventory r) (identifiers r) (manifests r) (directory r) (sq_record_count r).
Definition set_active x r := mkReader (inner r) (state r) (sq_offset r) (stats r) (hasher r) x
  (inventory r) (identifiers r) (manifests r) (directory r) (sq_record_count r).
Definition set_inventory x r := mkReader (inner r) (state r) (sq_offset r) (stats r) (hasher r)
  (active r) x (identifiers r) (manifests r) (directory r) (sq_record_count r).
Definition set_identifiers x r := mkReader (inner r) (state r) (sq_offset r) (stats r) (hasher r)
  (active r) (inventory r) x (manifests r) (directory r) (sq_record_count r).
Definition set_manifests x r := mkReader (inner r) (state r) (sq_offset r) (stats r) (hasher r)
  (active r) (inventory r) (identifiers r) x (directory r) (sq_record_count r).
Definition set_directory x r := mkReader (inner r) (state r) (sq_offset r) (stats r) (hasher r)
  (active r) (inventory r) (identifiers r) (manifests r) x (sq_record_count r).
Definition set_record_count x r := mkReader (inner r) (state r) (sq_offset r) (stats r) (hasher r)
  (active r) (inventory r) (identifiers r) (manifests r) (directory r) x.
End Setters.

Definition with_read_operations x s := mkStreamStats x (st_bytes_read s) (st_bytes_hashed s)
  (st_logical_bytes s) (st_payload_chunks s) (st_largest_allocation s).
Definition with_bytes_read x s := mkStreamStats (st_read_operations s) x (st_bytes_hashed s)
  (st_logical_bytes s) (st_payload_chunks s) (st_largest_allocation s).
Definition with_bytes_hashed x s := mkStreamStats (st_read_operations s) (st_bytes_read s) x
  (st_logical_bytes s) (st_payload_chunks s) (st_largest_allocation s).
Definition with_logical_bytes x s := mkStreamStats (st_read_operations s) (st_bytes_read s)
  (st_bytes_hashed s) x (st_payload_chunks s) (st_largest_allocation s).
Definition with_payload_chunks x s := mkStreamStats (st_read_operations s) (st_bytes_read s)
  (st_bytes_hashed s) (st_logical_bytes s) x (st_largest_allocation s).
Definition with_allocation x s := mkStreamStats (st_read_operations s) (st_bytes_read s)
  (st_bytes_hashed s) (st_logical_bytes s) (st_payload_chunks s) (N.max (st_largest_allocation s) x).

(** The array copies of the framing checks. *)
Definition stream_validate_header (b : bytes) : R unit := validate_header b.
Definition stream_parse_record_header (b : bytes) (limits : Limits) : R RecordHeader :=
  record_fields b 0 limits.
Definition stream_parse_footer (b : bytes) : R Footer := parse_footer b 0.

Section Methods.
Context `{Sha256} {S : Type} `{ReadStream S} (limits : Limits).

Abbreviation M := (SE (SequentialReader S)).

Definition check_file_budget (length : N) : M unit :=
  do* r := se_get in
  do* end_ := se_lift (ok_or (checked_add (sq_offset r) length) (RangeOutOfBounds "stream offset")) in
  guard (negb (max_file_bytes limits <? end_)) (LimitExceeded "file bytes").

(** [self.inner.read_exact(bytes)] with its errors mapped. *)
Definition inner_read_exact (n : N) (context : string) : M bytes := fun r =>
  let '(res, s) := stream_read_exact (inner r) n in
  (match res with
   | Ok b => Ok b
   | Err UnexpectedEof => Err (Truncated context)
   | Err _ => Err (Io context)
   end, set_inner s r).

(** [read_exact_into] a buffer of [n] bytes; [read_exact_array::<N>] is the
    same on an array. *)
Definition read_exact_into (n : N) (context : string) (hash : bool) : M bytes :=
  do* length := se_lift (ok_or (try_u64 n) (LimitExceeded "total bytes read")) in
  do* _ := check_file_budget length in
  do* r := se_get in
  do* next_total := se_lift (ok_or (checked_add (st_bytes_read (stats r)) length)
                               (LimitExceeded "total bytes read")) in
  do* _ := guard (negb (max_total_bytes_read limits <? next_total))
             (LimitExceeded "total bytes read") in
  do* buffer := inner_read_exact length context in
  do* offset := se_lift (ok_or (checked_add (sq_offset r) length) (RangeOutOfBounds context)) in
  do* _ := se_modify (set_offset offset) in
  do* _ := se_modify (upd_stats (with_bytes_read next_total)) in
  do* ops := se_lift (ok_or (checked_add (st_read_operations (stats r)) 1)
                        (LimitExceeded "read operations")) in
  do* _ := se_modify (upd_stats (with_read_operations ops)) in
  if hash then
    do* _ := se_modify (fun r => set_hasher (hasher_update (hasher r) buffer) r) in
    do* hashed := se_lift (ok_or (checked_add (st_bytes_hashed (stats r)) length)
                             (LimitExceeded "bytes hashed")) in
    do* _ := se_modify (upd_stats (with_bytes_hashed hashed)) in
    se_ret buffer
  else se_ret buffer.

Definition read_header : M StreamEvent :=
  do* b := read_exact_into HEADER_LEN "file header" true in
  do* _ := se_lift (stream_validate_header b) in
  do* _ := se_modify (set_state SRecordHeader) in
  se_ret (FileHeader EXPERIMENTAL_EPOCH).

(** The metadata buffer of a record, or none for an opaque one. *)
Definition reserve_metadata (header : RecordHeader) : M (option bytes) :=
  match h_kind header with
  | Manifest_ | Directory =>
      do* _ := guard (negb (max_metadata_bytes limits <? h_stored_len header))
                 (LimitExceeded "record metadata bytes") in
      do* _ := guard (negb (max_allocation_bytes limits <? h_stored_len header))
                 (LimitExceeded "single allocation bytes") in
      do* _ := se_lift (ok_or (try_u64 (h_stored_len header)) (LimitExceeded "single allocation bytes")) in
      do* _ := se_modify (upd_stats (with_allocation (h_stored_len header))) in
      se_ret (Some [])
  | Opaque => se_ret None
  end.

Definition read_record_header : M StreamEvent :=
  do* r := se_get in
  do* _ := guard (match directory r with None => true | Some _ => false end)
             (InvalidRecordOrder "record follows directory") in
  do* count := se_lift (ok_or (checked_add (sq_record_count r) 1) (LimitExceeded "record count")) in
  do* _ := se_modify (set_record_count count) in
  do* _ := guard (negb (max_records limits <? count)) (LimitExceeded "record count") in
  let record_offset := sq_offset r in
  do* b := read_exact_into RECORD_HEADER_LEN "record header" true in
  do* header := se_lift (stream_parse_record_header b limits) in
  do* ids := se_lift (check_identifier header (identifiers r)) in
  do* _ := se_modify (set_identifiers ids) in
  do* metadata := reserve_metadata header in
  let record := mkStreamRecord (h_kind header) (h_object_id header) record_offset
                  (h_stored_len header) (h_logical_len header) in
  do* _ := se_modify (fun r =>
    if bool_decide (sr_kind record = Directory) then r
    else set_inventory (inventory r ++ [mkEntry (sr_object_id record) (sr_kind record)
           (sr_offset record) (sr_stored_len record) (sr_logical_len record)]) r) in
  do* _ := se_modify (set_active (Some (mkActive record (h_stored_len header) metadata))) in
  do* _ := se_modify (set_state (if h_stored_len header =? 0 then SRecordEnd else SPayload)) in
  se_ret (RecordStart record).

(** The manifest or directory of a complete metadata record. *)
Definition finish_metadata (a : ActiveRecord) : M unit :=
  match sr_kind (ar_record a) with
  | Opaque => se_ret tt
  | Manifest_ =>
      do* metadata := se_lift (ok_or (ar_metadata a)
                                 (InvalidMetadataSchema "missing manifest payload")) in
      do* value := se_lift (decode_canonical metadata limits) in
      do* manifest := se_lift (parse_manifest value) in
      se_modify (fun r => set_manifests (<[sr_object_id (ar_record a) := manifest]> (manifests r)) r)
  | Directory =>
      do* metadata := se_lift (ok_or (ar_metadata a)
                                 (InvalidMetadataSchema "missing directory payload")) in
      do* value := se_lift (decode_canonical metadata limits) in
      do* entries := se_lift (parse_directory value) in
      do* r := se_get in
      do* _ := guard (bool_decide (entries = inventory r))
                 (DirectoryMismatch "entries do not match streamed records") in
      do* record_len := se_lift (ok_or (checked_add RECORD_HEADER_LEN (sr_stored_len (ar_record a)))
                                   (RangeOutOfBounds "directory record")) in
      se_modify (set_directory (Some (mkDirectoryState (sr_offset (ar_record a)) record_len)))
  end.

Definition finish_record : M StreamEvent :=
  do* r := se_get in
  do* _ := se_modify (set_active None) in
  do* a := se_lift (ok_or (active r) (InvalidRecordOrder "missing active record")) in
  do* _ := guard (ar_remaining a =? 0) (InvalidLength "unfinished record payload") in
  do* _ := finish_metadata a in
  do* _ := se_modify (set_state (if bool_decide (sr_kind (ar_record a) = Directory)
                                 then SFooter else SRecordHeader)) in
  se_ret (RecordEnd (sr_kind (ar_record a)) (sr_object_id (ar_record a))).

Definition read_payload_chunk (a : ActiveRecord) : M StreamEvent :=
  let chunk_limit := N.min (max_stream_chunk_bytes limits) (max_allocation_bytes limits) in
  do* _ := guard (negb (chunk_limit =? 0)) (LimitExceeded "stream chunk bytes") in
  do* r := se_get in
  do* logical_remaining := se_lift (ok_or (checked_sub (max_logical_decoded_bytes limits)
                                             (st_logical_bytes (stats r)))
                                      (LimitExceeded "logical decoded bytes")) in
  do* _ := guard (negb (logical_remaining =? 0)) (LimitExceeded "logical decoded bytes") in
  let chunk_len := N.min (N.min (ar_remaining a) chunk_limit) logical_remaining in
  do* chunk_len_usize := se_lift (ok_or (try_u64 chunk_len) (LimitExceeded "stream chunk bytes")) in
  do* _ := se_modify (upd_stats (with_allocation chunk_len)) in
  do* chunk := read_exact_into chunk_len_usize "record payload" true in
  do* remaining := se_lift (ok_or (checked_sub (ar_remaining a) chunk_len)
                              (InvalidLength "record payload")) in
  let metadata := match ar_metadata a with Some m => Some (m ++ chunk) | None => None end in
  do* _ := se_modify (set_active (Some (mkActive (ar_record a) remaining metadata))) in
  do* logical := se_lift (ok_or (checked_add (st_logical_bytes (stats r)) chunk_len)
                            (LimitExceeded "logical decoded bytes")) in
  do* _ := se_modify (upd_stats (with_logical_bytes logical)) in
  do* _ := guard (negb (max_logical_decoded_bytes limits <? logical))
             (LimitExceeded "logical decoded bytes") in
  do* chunks := se_lift (ok_or (checked_add (st_payload_chunks (stats r)) 1)
                           (LimitExceeded "payload chunks")) in
  do* _ := se_modify (upd_stats (with_payload_chunks chunks)) in
  do* _ := se_modify (fun r => if remaining =? 0 then set_state SRecordEnd r else r) in
  se_ret (PayloadChunk (sr_kind (ar_record a)) (sr_object_id (ar_record a)) chunk remaining).

Definition read_payload_event : M StreamEvent :=
  do* r := se_get in
  do* a := se_lift (ok_or (active r) (InvalidRecordOrder "missing active record")) in
  if ar_remaining a =? 0 then
    do* _ := se_modify (set_state SRecordEnd) in
    finish_record
  else read_payload_chunk a.

(** One turn of the [ensure_exact_end] loop: go on only when interrupted. *)
Definition exact_end_turn (r : SequentialReader S)
    : SequentialReader S + (R unit * SequentialReader S) :=
  match checked_add (st_read_operations (stats r)) 1 with
  | None => inr (Err (LimitExceeded "read operations"), r)
  | Some ops =>
      let r := upd_stats (with_read_operations ops) r in
      let '(res, s) := stream_read (inner r) 1 in
      let r := set_inner s r in
      match res with
      | Ok [] => inr (Ok tt, r)
      | Ok _ =>
          match checked_add (st_bytes_read (stats r)) 1 with
          | None => inr (Err (LimitExceeded "total bytes read"), r)
          | Some total =>
              inr (Err (InvalidRecordOrder "trailing bytes after footer"),
                   upd_stats (with_bytes_read total) r)
          end
      | Err Interrupted => inl r
      | Err _ => inr (Err (Io "exact-end check"), r)
      end
  end.

(** Each turn counts a read operation, so [2 ^ 64] turns are never used up
    ([ensure_exact_end_terminates]). *)
Definition ensure_exact_end : M unit := fun r =>
  match loop_pow 64 exact_end_turn r with
  | inr result => result
  | inl r => (Err (LimitExceeded "read operations"), r)
  end.

Definition read_footer : M StreamEvent :=
  do* footer_bytes := read_exact_into FOOTER_LEN "footer" false in
  do* footer := se_lift (stream_parse_footer footer_bytes) in
  do* r := se_get in
  do* d := se_lift (ok_or (directory r) (InvalidRecordOrder "missing directory record")) in
  do* _ := guard (negb (negb (directory_offset footer =? ds_offset d) ||
                        negb (directory_len footer =? ds_len d)))
             (DirectoryMismatch "footer location") in
  do* _ := guard (record_count footer =? sq_record_count r) (InvalidLength "footer record count") in
  do* _ := guard (bool_decide (hasher_finalize (hasher r) = digest footer)) DigestMismatch in
  do* manifest := se_lift (ok_or (manifests r !! manifest_id footer)
                             (MissingManifest (manifest_id footer))) in
  let available : gset N := list_to_set (id <$> inventory r) in
  do* _ := guard (forallb (fun root => bool_decide (root ∈ available)) (roots manifest))
             (InvalidMetadataSchema "manifest root does not exist") in
  do* _ := ensure_exact_end in
  do* _ := se_modify (set_state SDone) in
  do* r := se_get in
  se_ret (Commit (mkStreamCommit (manifest_id footer) (record_count footer) (roots manifest)
                    (required_capabilities manifest) Verified (stats r))).

Definition some_event (m : M StreamEvent) : M (option StreamEvent) :=
  do* e := m in se_ret (Some e).

(** [SequentialReader::next_event]: any error leaves the reader failed. *)
Definition next_event : M (option StreamEvent) := fun r =>
  let '(res, r') :=
    match state r with
    | SHeader => some_event read_header r
    | SRecordHeader => some_event read_record_header r
    | SPayload => some_event read_payload_event r
    | SRecordEnd => some_event finish_record r
    | SFooter => some_event read_footer r
    | SDone => (Ok None, r)
    | SFailed => (Err (InvalidRecordOrder "reader used after failure"), r)
    end in
  match res with
  | Ok e => (Ok e, r')
  | Err e => (Err e, set_state SFailed r')
  end.

(** [Iterator::next]: an error ends the iteration. *)
Definition stream_next (r : SequentialReader S) : option (R StreamEvent) * SequentialReader S :=
  match next_event r with
  | (Ok (Some event), r) => (Some (Ok event), r)
  | (Ok None, r) => (None, r)
  | (Err error, r) => (Some (Err error), set_state SDone r)
  end.
End Methods.

(** [StreamCommit::is_fully_interpretable] *)
Definition commit_fully_interpretable (c : StreamCommit) : bool :=
  match sc_unsupported_required_capabilities c with [] => true | _ => false end.
