(* ===== verification/StreamFacts.v ===== *)
(** The sequential reader against the specification of [Image.v]. A run is the
    sequence of events of successive [next_event] calls; when it reaches
    [Commit], the bytes the source delivered are the image of an accepted
    document and the events spell out its frames. Over such an image every run
    can go on to the commit. *)

From Stdlib Require Import Strings.Byte Strings.String NArith ZArith Lia.
From stdpp Require Import base list gmap strings sorting.
From S2P Require Import Prelude Order Errors Format Cbor CborFacts Model Digest Schema Machine Writer Frame.
From S2P Require Import Image ReaderFacts WriterFacts Source SourceFacts ValidateFacts Stream.

Local Open Scope N_scope.

(** ** Runs *)

Inductive stream_run {S} `{Sha256, ReadStream S} (limits : Limits) (s : S)
    : list StreamEvent -> SequentialReader S -> Prop :=
  | run_start : stream_run limits s [] (stream_new s)
  | run_event evs r e r' :
      stream_run limits s evs r -> next_event limits r = (Ok (Some e), r') ->
      stream_run limits s (evs ++ [e]) r'.

(** The frames a consumer assembles from the events. *)
Definition collect_step (st : list Frame * option Frame) (e : StreamEvent)
    : list Frame * option Frame :=
  match e with
  | RecordStart r => (st.1, Some (mkFrame (sr_kind r) (sr_object_id r) []))
  | PayloadChunk _ _ chunk _ =>
      (st.1, (fun f => mkFrame (f_kind f) (f_id f) (f_payload f ++ chunk)) <$> st.2)
  | RecordEnd _ _ => match st.2 with Some f => (st.1 ++ [f], None) | None => st end
  | FileHeader _ | Commit _ => st
  end.

Definition collected (evs : list StreamEvent) : list Frame * option Frame :=
  foldl collect_step ([], None) evs.

Lemma collected_snoc evs e : collected (evs ++ [e]) = collect_step (collected evs) e.
Proof. unfold collected. by rewrite foldl_app. Qed.

(** ** What a stream accepts *)

Definition valid_manifest (limits : Limits) (m : Manifest) : Prop :=
  admitted limits (manifest_to_cbor m) /\ shape_ok m.

Definition payload_total (fs : list Frame) : N := foldr (fun f n => len (f_payload f) + n) 0 fs.

Definition metadata_ok (limits : Limits) (f : Frame) : Prop :=
  f_kind f <> Opaque -> len (f_payload f) <= max_allocation_bytes limits.

(** Beyond acceptance: no interior directory, every manifest valid, and the
    decoding, reading and allocation budgets. *)
Record streamed (limits : Limits) (fs : list Frame) (mid : N) (m : Manifest) : Prop := {
  str_accepted : accepted limits fs mid m;
  str_objects : Forall is_object fs;
  str_manifests : forall f, f ∈ fs -> f_kind f = Manifest_ ->
    exists m, f = manifest_frame (f_id f) m /\ valid_manifest limits m;
  str_logical : payload_total (fs ++ [directory_frame fs]) <= max_logical_decoded_bytes limits;
  str_read : len (committed fs) + FOOTER_LEN <= max_total_bytes_read limits;
  str_metadata : Forall (metadata_ok limits) (fs ++ [directory_frame fs]);
}.

Lemma payload_total_snoc fs f : payload_total (fs ++ [f]) = payload_total fs + len (f_payload f).
Proof. induction fs as [|g fs IH]; simpl; [lia|]. rewrite IH. lia. Qed.

(** ** One read *)

(** The reader after a successful read of [b]. *)
Definition after_read {S} (s : S) (b : bytes) (hash : bool) (r : SequentialReader S)
    : SequentialReader S :=
  let h := upd_stats (fun st => mkStreamStats (st_read_operations st + 1) (st_bytes_read st + len b)
    (if hash then st_bytes_hashed st + len b else st_bytes_hashed st) (st_logical_bytes st)
    (st_payload_chunks st) (st_largest_allocation st)) (set_offset (sq_offset r + len b) (set_inner s r)) in
  if hash then set_hasher (hasher r ++ b) h else h.

Lemma read_exact_into_Ok {S} `{Sha256, ReadStreamOk S} limits n context hash
    (r r' : SequentialReader S) b :
  read_exact_into limits n context hash r = (Ok b, r') ->
  len b = n /\ sq_offset r + n <= max_file_bytes limits /\
  st_bytes_read (stats r) + n <= max_total_bytes_read limits /\
  exists s, stream_read_exact (inner r) n = (Ok b, s) /\ r' = after_read s b hash r.
Proof.
  unfold read_exact_into, check_file_budget. intros Hr. step_machine Hr. option_facts. bool_facts.
  match goal with E : inner_read_exact _ _ _ = _ |- _ => unfold inner_read_exact in E end.
  destruct (stream_read_exact (inner r) n) as [res s] eqn:Hs.
  match goal with E : (match res with _ => _ end, _) = (Ok ?b', _) |- _ =>
    destruct res as [b'' |[]]; [|done..]; injection E as E1 E2; subst b' end.
  pose proof (stream_read_exact_len _ _ _ _ Hs) as Hb. subst n.
  destruct hash; step_machine Hr; subst; option_facts; split_and!; try done; eexists; split; done.
Qed.

(** The step a successful [next_event] has taken. *)
Lemma next_event_Ok `{Sha256} {S} `{ReadStream S} limits (r r' : SequentialReader S) e :
  next_event limits r = (Ok (Some e), r') ->
  match state r with
  | SHeader => read_header limits r = (Ok e, r')
  | SRecordHeader => read_record_header limits r = (Ok e, r')
  | SPayload => read_payload_event limits r = (Ok e, r')
  | SRecordEnd => finish_record limits r = (Ok e, r')
  | SFooter => read_footer limits r = (Ok e, r')
  | SDone | SFailed => False
  end.
Proof.
  unfold next_event, some_event, se_bind, se_ret. intros Hr.
  destruct (state r); try done;
    match type of Hr with context [let (_, _) := (let (_, _) := ?m in _) in _] => destruct m as [[] ?] end;
    by simplify_eq.
Qed.

(** ** The invariant of a run *)

Section Run.
Context {sha : Sha256} {S : Type} {rs : ReadStream S} {rso : ReadStreamOk S} (limits : Limits).
Context (Hlim : limits_ok limits).

Abbreviation Reader := (SequentialReader (Recorded S)).

(** The meters agree with the bytes [bs] hashed so far. *)
Record measured (r : Reader) (bs : bytes) : Prop := {
  me_hasher : hasher r = bs;
  me_log : rec_bytes (inner r) = bs;
  me_offset : sq_offset r = len bs;
  me_read : st_bytes_read (stats r) = len bs;
  me_file : len bs <= max_file_bytes limits;
  me_total : len bs <= max_total_bytes_read limits;
  me_hashed : st_bytes_hashed (stats r) = len bs;
  me_operations : st_read_operations (stats r) <= len bs;
  me_chunks : st_payload_chunks (stats r) <= st_logical_bytes (stats r);
}.

(** The complete object frames [fs] and the manifests [ms] decoded from them. *)
Record objects (fs : list Frame) (ms : gmap N Manifest) : Prop := {
  ob_ok : Forall (frame_ok limits) fs;
  ob_objects : Forall is_object fs;
  ob_nodup : NoDup (f_id <$> fs);
  ob_metadata : Forall (metadata_ok limits) fs;
  ob_decoded : forall f, f ∈ fs -> f_kind f = Manifest_ ->
    exists m, f = manifest_frame (f_id f) m /\ valid_manifest limits m;
  ob_manifests : forall i m, ms !! i = Some m -> manifest_frame i m ∈ fs /\ valid_manifest limits m;
  ob_present : forall f, f ∈ fs -> f_kind f = Manifest_ -> is_Some (ms !! f_id f);
}.

Definition started (off : N) (f : Frame) (n : N) : list DirectoryEntry :=
  if bool_decide (f_kind f = Directory) then [] else [mkEntry (f_id f) (f_kind f) off n n].

Record boundary (r : Reader) (fs : list Frame) : Prop := {
  bo_measured : measured r (body fs);
  bo_objects : objects fs (manifests r);
  bo_inventory : inventory r = frame_entries HEADER_LEN fs;
  bo_ids : identifiers r = list_to_set (f_id <$> fs);
  bo_directory : directory r = None;
  bo_count : sq_record_count r = len fs;
  bo_logical : st_logical_bytes (stats r) = payload_total fs;
  bo_logical_max : payload_total fs <= max_logical_decoded_bytes limits;
}.

(** Inside the record of [f], of which [n] bytes were declared. *)
Record inside (r : Reader) (fs : list Frame) (f : Frame) (n : N) : Prop := {
  in_measured : measured r (body fs ++ open_bytes f n);
  in_objects : objects fs (manifests r);
  in_active : active r = Some (mkActive (mkStreamRecord (f_kind f) (f_id f) (len (body fs)) n n)
    (n - len (f_payload f)) (if bool_decide (f_kind f = Opaque) then None else Some (f_payload f)));
  in_le : len (f_payload f) <= n;
  in_rule : id_rule f;
  in_id : f_id f <= U64_MAX;
  in_payload : n <= max_payload_bytes limits;
  in_metadata : f_kind f <> Opaque ->
    n <= max_metadata_bytes limits /\ n <= max_allocation_bytes limits;
  in_fresh : f_id f ∉ f_id <$> fs;
  in_inventory : inventory r = frame_entries HEADER_LEN fs ++ started (len (body fs)) f n;
  in_ids : identifiers r = ids_after f (list_to_set (f_id <$> fs));
  in_directory : directory r = None;
  in_count : sq_record_count r = len fs + 1;
  in_count_max : len fs + 1 <= max_records limits;
  in_logical : st_logical_bytes (stats r) = payload_total fs + len (f_payload f);
  in_logical_max : payload_total fs + len (f_payload f) <= max_logical_decoded_bytes limits;
}.

(** After the directory record. *)
Record closed (r : Reader) (fs : list Frame) : Prop := {
  cl_measured : measured r (committed fs);
  cl_objects : objects fs (manifests r);
  cl_inventory : inventory r = frame_entries HEADER_LEN fs;
  cl_directory : directory r = Some (mkDirectoryState (len (body fs)) (frame_len (directory_frame fs)));
  cl_admitted : admitted limits (directory_value fs);
  cl_payload : len (enc (directory_value fs)) <= max_payload_bytes limits;
  cl_metadata : len (enc (directory_value fs)) <= max_allocation_bytes limits;
  cl_count : sq_record_count r = len fs + 1;
  cl_count_max : len fs + 1 <= max_records limits;
  cl_logical_max : payload_total (fs ++ [directory_frame fs]) <= max_logical_decoded_bytes limits;
}.

Definition commit_of (fs : list Frame) (mid : N) (m : Manifest) (c : StreamCommit) : Prop :=
  sc_manifest_id c = mid /\ sc_record_count c = len fs + 1 /\ sc_roots c = roots m /\
  sc_unsupported_required_capabilities c = required_capabilities m /\ sc_integrity c = Verified.

(** The document a finished run has committed. *)
Definition commits (r : Reader) (c : StreamCommit) (fs : list Frame) : Prop :=
  exists mid m, mid <= U64_MAX /\ streamed limits fs mid m /\ rec_bytes (inner r) = image fs mid /\
    commit_of fs mid m c /\ sc_stats c = stats r /\
    st_bytes_read (stats r) = len (rec_bytes (inner r)) /\
    st_bytes_read (stats r) <= max_total_bytes_read limits.

Definition run_inv (evs : list StreamEvent) (r : Reader) : Prop :=
  match state r with
  | SHeader => exists s, r = stream_new (mkRecorded s []) /\ evs = []
  | SRecordHeader => exists fs, boundary r fs /\ collected evs = (fs, None)
  | SPayload => exists fs f n, inside r fs f n /\ collected evs = (fs, Some f)
  | SRecordEnd => exists fs f, inside r fs f (len (f_payload f)) /\ collected evs = (fs, Some f)
  | SFooter => exists fs, closed r fs /\ collected evs = (fs ++ [directory_frame fs], None)
  | SDone => exists fs c evs', evs = evs' ++ [Commit c] /\ commits r c fs /\
      collected evs = (fs ++ [directory_frame fs], None)
  | SFailed => False
  end.

(** *** Each step *)

Lemma measured_read (r : Reader) bs s b n :
  measured r bs -> stream_read_exact (inner r) n = (Ok b, s) -> len b = n -> 0 < n ->
  sq_offset r + n <= max_file_bytes limits ->
  st_bytes_read (stats r) + n <= max_total_bytes_read limits ->
  measured (after_read s b true r) (bs ++ b).
Proof.
  intros [H1 H2 H3 H4 H5 H6 H7 H8 H9] Hs <- Hpos Hf Ht. apply recorded_exact in Hs.
  split; simpl; rewrite ?len_app; rewrite ?H1, ?H2, ?H3, ?H4, ?H7, ?Hs in *; try done; try lia; by rewrite ?H2.
Qed.

(** The meters but the allocation one, with logical bytes and chunks in step. *)
Definition same_meters (s s' : StreamStats) : Prop :=
  st_bytes_read s' = st_bytes_read s /\ st_bytes_hashed s' = st_bytes_hashed s /\
  st_read_operations s' = st_read_operations s /\
  st_payload_chunks s' + st_logical_bytes s <= st_payload_chunks s + st_logical_bytes s'.

Lemma measured_ext (r r' : Reader) bs :
  measured r bs -> hasher r' = hasher r -> inner r' = inner r -> sq_offset r' = sq_offset r ->
  same_meters (stats r) (stats r') -> measured r' bs.
Proof. intros [] E1 E2 E3 (E4 & E5 & E6 & E7). split; try done; congruence || lia. Qed.

Lemma read_header_Ok s (r' : Reader) e :
  read_header limits (stream_new (mkRecorded s [])) = (Ok e, r') ->
  e = FileHeader EXPERIMENTAL_EPOCH /\ state r' = SRecordHeader /\ boundary r' [].
Proof.
  unfold read_header. intros Hr. step_machine Hr. subst.
  match goal with E : read_exact_into _ _ _ _ _ = _ |- _ =>
    apply read_exact_into_Ok in E as (Hb & Hf & Ht & s' & Hs & ->) end.
  match goal with E : stream_validate_header ?b = Ok ?u |- _ => rename b into hd; destruct u; rename E into Hv end.
  unfold stream_validate_header in Hv.
  apply validate_header_Ok in Hv; [|rewrite Hb; done..].
  rewrite (slice_full _ _ Hb) in Hv. subst hd.
  split_and!; [done|done|]. apply recorded_exact in Hs. simpl in Hs.
  split; try done.
  - split; try constructor; set_solver.
  - apply N.le_0_l.
Qed.

Lemma id_fresh_ids f fs :
  Forall is_object fs -> f_kind f <> Directory ->
  id_rule f -> f_id f ∉ f_id <$> fs ->
  ids_after f (list_to_set (f_id <$> fs)) = list_to_set (f_id <$> (fs ++ [f])).
Proof.
  intros _ Hk Hr Hf. unfold ids_after. rewrite bool_decide_false by (intros E; by apply Hk, Hr).
  rewrite fmap_app, list_to_set_app_L. csimpl. set_solver.
Qed.

Lemma stream_header_Ok b h :
  len b = RECORD_HEADER_LEN ->
  stream_parse_record_header b limits = Ok h <->
  header_fits h /\ h_stored_len h <= max_payload_bytes limits /\
  b = record_header (h_kind h) (h_object_id h) (h_stored_len h).
Proof.
  intros Hb. unfold stream_parse_record_header.
  rewrite record_fields_Ok by (rewrite Hb; done). rewrite N.add_0_l, (slice_full _ _ Hb), Hb. naive_solver.
Qed.

(** Reserving a metadata buffer changes nothing but the allocation meter. *)
Lemma reserve_metadata_Ok h (r r' : Reader) md :
  reserve_metadata limits h r = (Ok md, r') ->
  md = (if bool_decide (h_kind h = Opaque) then None else Some []) /\
  (h_kind h <> Opaque -> h_stored_len h <= max_metadata_bytes limits /\
                         h_stored_len h <= max_allocation_bytes limits) /\
  exists f, r' = upd_stats f r /\
    (forall st, same_meters st (f st) /\ st_logical_bytes (f st) = st_logical_bytes st).
Proof.
  unfold reserve_metadata. intros Hr. destruct (h_kind h) eqn:Hk.
  - step_machine Hr. split_and!; [done|done|]. exists (fun st => st). split; [by destruct r|]. intros st. unfold same_meters. lia.
  - step_machine Hr. bool_facts. subst. split_and!; [done|done|]. eexists. split; [done|]. intros st. unfold same_meters. simpl. lia.
  - step_machine Hr. bool_facts. subst. split_and!; [done|done|]. eexists. split; [done|]. intros st. unfold same_meters. simpl. lia.
Qed.

Lemma read_record_header_Ok (r r' : Reader) e fs :
  boundary r fs -> read_record_header limits r = (Ok e, r') ->
  exists f n, e = RecordStart (mkStreamRecord (f_kind f) (f_id f) (len (body fs)) n n) /\
    f_payload f = [] /\ inside r' fs f n /\
    state r' = (if n =? 0 then SRecordEnd else SPayload).
Proof.
  intros [Hm Ho Hi Hids Hd Hc Hl Hlm] Hr. unfold read_record_header in Hr.
  step_machine Hr. subst. bool_facts. option_facts.
  match goal with E : read_exact_into _ _ _ _ _ = _ |- _ =>
    apply read_exact_into_Ok in E as (Hb & Hf & Ht & s' & Hs & ->) end.
  match goal with E : stream_parse_record_header _ _ = Ok ?h |- _ =>
    apply stream_header_Ok in E as ((Hn & Hid & Hlog) & Hp & Hhd); [|done]; rename h into hd end.
  match goal with E : reserve_metadata _ _ _ = _ |- _ =>
    apply reserve_metadata_Ok in E as (-> & Hmd & g & -> & Hg) end.
  set (f := mkFrame (h_kind hd) (h_object_id hd) []).
  match goal with E : check_identifier _ _ = Ok _ |- _ =>
    apply (check_identifier_Ok _ _ _ f) in E as [[Hrule Hfr] ->]; [|rewrite Hids|done..] end.
  2:{ rewrite elem_of_list_to_set. intros Hz. destruct Ho as [Ok1 Ok2 _ _ _ _ _].
      apply list_elem_of_fmap in Hz as (g0 & E & Hin).
      rewrite Forall_forall in Ok1, Ok2. apply (Ok2 g0 Hin). by apply (Ok1 g0 Hin). }
  rewrite Hids, elem_of_list_to_set in Hfr.
  exists f, (h_stored_len hd). rewrite (me_offset _ _ Hm), Hlog. split_and!; [done|done| |done].
  assert (Hobs : open_bytes f (h_stored_len hd) = x2) by (rewrite Hhd; apply app_nil_r).
  pose proof (measured_read _ _ _ _ _ Hm Hs Hb eq_refl Hf Ht) as Hm'.
  rewrite <- Hobs in Hm'. set (d := bool_decide (h_kind hd = Directory)).
  assert (Hst : started (len (body fs)) f (h_stored_len hd)
    = if d then [] else [mkEntry (h_object_id hd) (h_kind hd) (len (body fs)) (h_stored_len hd)
                           (h_stored_len hd)]) by done.
  assert (Hlf : len (f_payload f) = 0) by done.
  split; rewrite ?Hst, ?Hlf, ?N.sub_0_r, ?N.add_0_r; destruct d; try done; try (simpl; lia).
  all: try (eapply measured_ext; [exact Hm'|rewrite <- Hobs; reflexivity..|]).
  all: try (rewrite Hobs; apply Hg).
  all: try (simpl; rewrite (proj2 (Hg _)); simpl; lia).
  all: try (simpl; rewrite Hi; rewrite ?app_nil_r; done).
  all: simpl; by rewrite Hids.
Qed.

Lemma read_payload_chunk_Ok (r r' : Reader) a e fs f n :
  inside r fs f n -> active r = Some a -> ar_remaining a <> 0 ->
  read_payload_chunk limits a r = (Ok e, r') ->
  exists chunk, 0 < len chunk /\ len chunk <= max_stream_chunk_bytes limits /\
    len chunk <= max_allocation_bytes limits /\
    e = PayloadChunk (f_kind f) (f_id f) chunk (n - len (f_payload (grown f chunk))) /\
    inside r' fs (grown f chunk) n /\
    state r' = (if n - len (f_payload (grown f chunk)) =? 0 then SRecordEnd else state r).
Proof.
  intros Hin Ha Hrem Hr. rewrite (in_active _ _ _ _ Hin) in Ha. injection Ha as <-.
  unfold read_payload_chunk in Hr. cbn [ar_remaining ar_metadata ar_record sr_kind sr_object_id] in Hr, Hrem.
  step_machine Hr. subst. bool_facts. option_facts.
  match goal with E : read_exact_into _ _ _ _ _ = _ |- _ =>
    apply read_exact_into_Ok in E as (Hb & Hf & Ht & s' & Hs & ->) end.
  match type of Hb with len ?x = _ => rename x into chunk end.
  rewrite <- Hb in *.
  assert (Hpos : 0 < len chunk) by lia.
  destruct Hin as [Hm0 Ho Ha Hle Hrule Hid Hpl Hmd Hfr Hinv Hids Hdir Hcnt Hcm Hlog Hlogm].
  pose proof (measured_read _ _ _ _ _ Hm0 Hs eq_refl Hpos Hf Ht) as Hme.
  rewrite <- app_assoc, <- open_bytes_more in Hme. fold (grown f chunk) in Hme.
  assert (Hgl : len (f_payload (grown f chunk)) = len (f_payload f) + len chunk) by apply len_app.
  exists chunk. rewrite Hgl. rewrite <- N.sub_add_distr.
  set (z := n - (len (f_payload f) + len chunk) =? 0).
  split_and!; try lia; [done| |by destruct z].
  split; rewrite ?Hgl; destruct z; try done; try (simpl; lia).
  all: try (eapply measured_ext; [exact Hme|reflexivity..|unfold same_meters; simpl; lia]).
  all: try (simpl; by case_bool_decide).
Qed.

(** A complete frame joins the objects. *)
Lemma objects_snoc fs f ms ms' n :
  objects fs ms -> f_kind f <> Directory -> n = len (f_payload f) ->
  id_rule f -> f_id f <= U64_MAX -> n <= max_payload_bytes limits ->
  (f_kind f <> Opaque -> n <= max_metadata_bytes limits /\ n <= max_allocation_bytes limits) ->
  f_id f ∉ f_id <$> fs ->
  match f_kind f with
  | Manifest_ => exists m, f = manifest_frame (f_id f) m /\ valid_manifest limits m /\ ms' = <[f_id f := m]> ms
  | _ => ms' = ms
  end ->
  objects (fs ++ [f]) ms'.
Proof.
  intros [O1 O2 O3 O4 O5 O6 O7] Hk -> Hr Hi Hp Hm Hf Hms.
  split; rewrite ?fmap_app, ?Forall_app; try (split; [done|]).
  - by apply Forall_singleton.
  - by apply Forall_singleton.
  - apply NoDup_app. split_and!; [done| |apply NoDup_singleton]. csimpl. set_solver.
  - apply Forall_singleton. intros Ho. by apply Hm.
  - intros g [Hg|Hg%list_elem_of_singleton]%elem_of_app Hgk; [by apply O5|]. subst g.
    rewrite Hgk in Hms. naive_solver.
  - intros i m Hl.
    assert (Hcase : (ms !! i = Some m) \/ (exists m', f = manifest_frame (f_id f) m' /\
      valid_manifest limits m' /\ f_id f = i /\ m' = m)).
    { destruct (f_kind f); [subst; by left| |done]. destruct Hms as (m' & Hm' & Hv & ->).
      destruct (decide (f_id f = i)) as [<-|Hne].
      - rewrite lookup_insert_eq in Hl. injection Hl as <-. right. by exists m'.
      - rewrite lookup_insert_ne in Hl by done. by left. }
    destruct Hcase as [Hl'|(m' & Hm' & Hv & Hid & ->)].
    + destruct (O6 i m Hl'). split; [set_solver|done].
    + split; [|done]. rewrite <- Hid, <- Hm'. set_solver.
  - intros g Hg Hgk.
    assert (Hcase : is_Some (ms !! f_id g) \/ g = f).
    { apply elem_of_app in Hg as [Hg|Hg%list_elem_of_singleton]; [left; by apply O7|by right]. }
    destruct (decide (f_id g = f_id f)) as [E|E]; destruct (f_kind f) eqn:Hfk; try done.
    + destruct Hcase; [by subst|congruence].
    + destruct Hms as (m & _ & _ & ->). rewrite E, lookup_insert_eq. by eexists.
    + destruct Hcase; [by subst|congruence].
    + destruct Hms as (m & _ & _ & ->). rewrite lookup_insert_ne by done. destruct Hcase; congruence.
Qed.

Lemma finish_metadata_Ok (r r' : Reader) f off u :
  let n := len (f_payload f) in
  finish_metadata limits (mkActive (mkStreamRecord (f_kind f) (f_id f) off n n) (n - n)
    (if bool_decide (f_kind f = Opaque) then None else Some (f_payload f))) r = (Ok u, r') ->
  match f_kind f with
  | Opaque => r' = r
  | Manifest_ => exists m, f = manifest_frame (f_id f) m /\ valid_manifest limits m /\
      r' = set_manifests (<[f_id f := m]> (manifests r)) r
  | Directory => admitted limits (directory_to_cbor (inventory r)) /\
      f_payload f = enc (directory_to_cbor (inventory r)) /\
      r' = set_directory (Some (mkDirectoryState off (frame_len f))) r
  end.
Proof.
  destruct f as [k i p]. cbn [f_kind f_id f_payload]. unfold finish_metadata.
  cbn [ar_remaining ar_metadata ar_record sr_kind sr_object_id sr_stored_len sr_offset].
  destruct k; cbn [bool_decide decide]; intros Hr; step_machine Hr; option_facts; bool_facts; subst.
  - done.
  - match goal with E : (if _ then None else Some p) = Some _ |- _ => injection E as <- end.
    match goal with E : parse_manifest _ = Ok ?m |- _ => exists m;
      assert (Hdec : admitted limits (manifest_to_cbor m) /\ p = enc (manifest_to_cbor m) /\ shape_ok m)
    end.
    { apply decode_manifest; [done|]. match goal with E : decode_canonical _ _ = _ |- _ => by rewrite E end. }
    destruct Hdec as (Hadm & -> & Hsh). done.
  - match goal with E : (if _ then None else Some p) = Some _ |- _ => injection E as <- end.
    assert (Hdec : admitted limits (directory_to_cbor (inventory r)) /\
      p = enc (directory_to_cbor (inventory r))).
    { apply decode_directory; [done|]. match goal with E : decode_canonical _ _ = _ |- _ => by rewrite E end. }
    destruct Hdec as (Hadm & ->). done.
Qed.

Lemma finish_record_Ok (r r' : Reader) e fs f :
  inside r fs f (len (f_payload f)) -> finish_record limits r = (Ok e, r') ->
  e = RecordEnd (f_kind f) (f_id f) /\
  if bool_decide (f_kind f = Directory)
  then state r' = SFooter /\ f = directory_frame fs /\ closed r' fs
  else state r' = SRecordHeader /\ boundary r' (fs ++ [f]).
Proof.
  intros [Hm0 Ho Ha Hle Hrule Hid Hpl Hmd Hfr Hinv Hids Hdir Hcnt Hcm Hlog Hlogm] Hr.
  unfold finish_record in Hr. step_machine Hr. rewrite Ha in *. option_facts.
  match goal with E : Some _ = Some _ |- _ => injection E as <- end.
  cbn [ar_record sr_kind sr_object_id] in *.
  split; [done|].
  rewrite open_bytes_complete in Hm0.
  assert (Hpt : payload_total (fs ++ [f]) = payload_total fs + len (f_payload f)) by apply payload_total_snoc.
  match goal with E : finish_metadata _ _ _ = _ |- _ => apply finish_metadata_Ok in E; rename E into Hfm end.
  destruct (decide (f_kind f = Directory)) as [Hk|Hk];
    [rewrite !(bool_decide_true _ Hk)|rewrite !(bool_decide_false _ Hk)].
  - rewrite Hk in Hfm. change (inventory (set_active None r)) with (inventory r) in Hfm.
    unfold started in Hinv. rewrite Hinv, bool_decide_true, app_nil_r in Hfm by done.
    destruct Hfm as (Hadm & Hpay & ->).
    assert (f = directory_frame fs) as Hf.
    { destruct f as [k i p]. simpl in *. subst k. unfold directory_frame, directory_value. f_equal; [|done].
      by apply Hrule. }
    rewrite Hf in Hm0, Hpt, Hmd, Hpl, Hlogm. simpl in Hmd.
    assert (Hdm : len (enc (directory_value fs)) <= max_metadata_bytes limits /\
      len (enc (directory_value fs)) <= max_allocation_bytes limits) by (by apply Hmd).
    destruct Hdm. simpl in Hpl, Hlogm, Hpt.
    split_and!; [done|done|]. split; try done; simpl.
    + eapply measured_ext; [exact Hm0|done..|unfold same_meters; simpl; lia].
    + by rewrite Hinv, bool_decide_true, app_nil_r.
    + by rewrite Hf.
    + by rewrite Hpt.
  - assert (Hob : objects (fs ++ [f]) (manifests x2)).
    { eapply objects_snoc; [exact Ho|done|done|done..|].
      destruct (f_kind f); [by subst| |done]. destruct Hfm as (m & Hf & Hv & ->). by exists m. }
    assert (Hx : exists ms, x2 = set_manifests ms (set_active None r)).
    { destruct (f_kind f); [by exists (manifests r)| |done]. destruct Hfm as (m & _ & _ & ->). by eexists. }
    destruct Hx as [ms ->]. clear Hfm.
    unfold started in Hinv. rewrite bool_decide_false in Hinv by done.
    split; [done|]. split; try done.
    + rewrite body_snoc. eapply measured_ext; [exact Hm0|done..|unfold same_meters; simpl; lia].
    + rewrite frame_entries_snoc, <- body_len. done.
    + rewrite <- id_fresh_ids; [done|apply Ho|done..].
    + rewrite len_app. done.
    + by rewrite Hpt.
    + by rewrite Hpt.
Qed.

(** The exact-end loop ends: every turn that goes on has counted one more
    operation, within 64 bits. *)
Lemma exact_end_turn_counts (r r' : Reader) :
  exact_end_turn r = inl r' ->
  st_read_operations (stats r) < st_read_operations (stats r') /\ st_read_operations (stats r') <= U64_MAX.
Proof.
  unfold exact_end_turn. destruct (checked_add _ 1) as [ops|] eqn:Eo; [|done]. option_facts.
  destruct (stream_read _ 1) as [[[|b l]|[]] s1]; try done.
  - by destruct (checked_add _ 1).
  - intros [= <-]. simpl. lia.
Qed.

Lemma ensure_exact_end_terminates (r : Reader) :
  exists result, loop_pow 64 exact_end_turn r = inr result /\ ensure_exact_end r = result.
Proof.
  unfold ensure_exact_end. destruct (loop_pow 64 exact_end_turn r) as [r1|res] eqn:E; [|by exists res].
  exfalso. apply loop_pow_counter with (c := fun s : Reader => N.min (st_read_operations (stats s)) U64_MAX) in E.
  - change (2 ^ N.of_nat 64) with (U64_MAX + 1) in E. lia.
  - intros s s' Ht. apply exact_end_turn_counts in Ht. lia.
Qed.

(** The exact-end check delivers nothing when it succeeds. *)
Lemma exact_end_Ok (r r' : Reader) u :
  ensure_exact_end r = (Ok u, r') ->
  rec_bytes (inner r') = rec_bytes (inner r) /\
  st_bytes_read (stats r') = st_bytes_read (stats r).
Proof.
  unfold ensure_exact_end. intros Hr.
  destruct (loop_pow 64 exact_end_turn r) as [r1|res] eqn:E; [done|]. subst res.
  refine (loop_pow_result
    (fun r1 : Reader => rec_bytes (inner r1) = rec_bytes (inner r) /\
       st_bytes_read (stats r1) = st_bytes_read (stats r))
    (fun res : R unit * Reader => is_ok res.1 = true -> rec_bytes (inner res.2) = rec_bytes (inner r) /\
       st_bytes_read (stats res.2) = st_bytes_read (stats r)) 64 _ _ _ _ (conj eq_refl eq_refl) E eq_refl).
  intros s [H1 H2]. unfold exact_end_turn. destruct (checked_add _ 1) as [ops|]; [|done].
  cbn [stream_read recorded_read inner upd_stats].
  destruct (stream_read (rec_inner (inner s)) 1) as [[[|b l]|[]] s1]; cbn [record_read]; try done.
  - intros _. simpl. by rewrite app_nil_r.
  - by destruct (checked_add _ 1).
Qed.

Lemma footer_of_bytes b f :
  len b = FOOTER_LEN -> stream_parse_footer b = Ok f -> footer_fits f /\ b = footer_bytes f.
Proof.
  intros Hb Hf. apply parse_footer_Ok in Hf as (_ & Hfit & Hs); [|rewrite Hb; done].
  by rewrite N.add_0_l, (slice_full _ _ Hb) in Hs.
Qed.

(** What is checked before the commit selects an accepted document. *)
Lemma streamed_of_closed (r : Reader) fs mid m :
  closed r fs -> len (committed fs) + FOOTER_LEN <= max_file_bytes limits ->
  len (committed fs) + FOOTER_LEN <= max_total_bytes_read limits ->
  manifests r !! mid = Some m -> (forall root, root ∈ roots m -> root ∈ f_id <$> fs) ->
  streamed limits fs mid m.
Proof.
  intros [Hme Hob Hinv Hdir Hadm Hpay Hmeta Hcnt Hcm Hlog] Hfile Htotal Hm Hroots.
  destruct Hob as [O1 O2 O3 O4 O5 O6 _]. destruct (O6 mid m Hm) as [Hin [Hma Hsh]].
  split; [|done|done|done|done|].
  - split.
    + split; [|by apply NoDup_filter|done|done|done].
      apply Forall_app. split; [done|]. apply Forall_singleton. split_and!; [done|done|done].
    + split; try done. intros E. rewrite Forall_forall in O1.
      destruct (O1 _ Hin) as (Hr & _). by apply Hr in E.
  - apply Forall_app. split; [done|]. apply Forall_singleton. by intros _.
Qed.

Lemma read_footer_Ok (r r' : Reader) e fs :
  closed r fs -> read_footer limits r = (Ok e, r') ->
  exists c, e = Commit c /\ state r' = SDone /\ commits r' c fs.
Proof.
  intros Hcl Hr. pose proof Hcl as [Hme Hob Hinv Hdir Hadm Hpay Hmeta Hcnt Hcm Hlog].
  unfold read_footer in Hr. step_machine Hr. option_facts. bool_facts.
  match goal with E : read_exact_into _ _ _ _ _ = _ |- _ =>
    apply read_exact_into_Ok in E as (Hb & Hf & Ht & s' & Hs & ->) end.
  match goal with E : stream_parse_footer _ = Ok ?f |- _ =>
    apply footer_of_bytes in E as [Hfit Hfb]; [|done]; rename f into ft end.
  match goal with E : ensure_exact_end _ = _ |- _ => apply exact_end_Ok in E as [Hrec Hrd] end.
  apply recorded_exact in Hs.
  eexists. split; [done|]. split; [done|].
  cbn [manifests after_read directory inventory hasher sq_record_count set_inner set_offset upd_stats] in *.
  match goal with E : directory r = Some ?d |- _ => rewrite Hdir in E; injection E as <- end.
  match goal with E : manifests r !! _ = Some ?m |- _ => rename m into mf; rename E into Hmf end.
  exists (manifest_id ft), mf.
  assert (Hroots : forall root, root ∈ roots mf -> root ∈ f_id <$> fs).
  { match goal with E : forallb _ _ = true |- _ => rewrite forallb_forall in E;
      intros root Hroot; specialize (E root ltac:(by apply list_elem_of_In)) end.
    bool_facts. match goal with E : root ∈ _ |- _ =>
      by rewrite elem_of_list_to_set, Hinv, frame_entries_ids in E end. }
  rewrite (me_offset _ _ Hme) in Hf. rewrite (me_read _ _ Hme) in Ht.
  split_and!; try done; [by apply Hfit|by apply (streamed_of_closed r)| |by unfold commit_of; rewrite <- Hcnt| |].
  - simpl. rewrite Hrec. simpl. rewrite Hs, (me_log _ _ Hme), Hfb. unfold image. f_equal. f_equal.
    pose proof (me_hasher _ _ Hme) as Hh. unfold hasher_finalize in *. rewrite Hh in *.
    destruct ft as [a b c d g]. unfold image_footer. cbn [Frame.digest Frame.directory_offset
      Frame.directory_len Frame.manifest_id Frame.record_count ds_offset ds_len] in *. f_equal; congruence.
  - simpl. rewrite Hrd, Hrec. simpl. by rewrite (me_read _ _ Hme), Hs, (me_log _ _ Hme), len_app.
  - simpl. rewrite Hrd. simpl. by rewrite (me_read _ _ Hme), Hb.
Qed.

(** *** Whole runs *)

Lemma run_inv_step (r r' : Reader) evs e :
  run_inv evs r -> next_event limits r = (Ok (Some e), r') -> run_inv (evs ++ [e]) r'.
Proof.
  intros Hinv Hr. apply next_event_Ok in Hr. unfold run_inv in Hinv. destruct (state r) eqn:Hst; try done.
  - destruct Hinv as (s & -> & ->). apply read_header_Ok in Hr as (-> & Hs & Hb).
    unfold run_inv. rewrite Hs. by exists [].
  - destruct Hinv as (fs & Hb & Hc).
    apply (read_record_header_Ok _ _ _ fs) in Hr as (f & n & -> & Hp & Hi & Hs); [|done].
    unfold run_inv. rewrite Hs. destruct (N.eqb_spec n 0) as [->|Hn].
    + exists fs, f. rewrite collected_snoc, Hc. simpl. split; [by rewrite Hp|]. destruct f. simpl in *. by rewrite Hp.
    + exists fs, f, n. split; [done|]. rewrite collected_snoc, Hc. simpl. destruct f. simpl in *. by rewrite Hp.
  - destruct Hinv as (fs & f & n & Hi & Hc).
    unfold read_payload_event in Hr. step_machine Hr. option_facts.
    match goal with E : active r = Some ?a |- _ => rename a into ac; rename E into Ha end.
    pose proof (in_active _ _ _ _ Hi) as Ha'. rewrite Ha in Ha'.
    destruct (N.eqb_spec (ar_remaining ac) 0) as [Hz|Hz].
    + step_machine Hr. injection Ha' as ->. simpl in Hz.
      assert (Hn : n = len (f_payload f)) by (pose proof (in_le _ _ _ _ Hi); lia). subst n.
      assert (Hi' : inside (set_state SRecordEnd r) fs f (len (f_payload f))).
      { destruct Hi. split; try done. eapply measured_ext; [done..|unfold same_meters; simpl; lia]. }
      apply (finish_record_Ok _ _ _ fs f) in Hr as [-> Hr]; [|done].
      case_bool_decide; destruct Hr as [Hs Hr]; unfold run_inv; rewrite Hs.
      * destruct Hr as [Hf Hcl]. exists fs. split; [done|]. rewrite collected_snoc, Hc. simpl. by rewrite Hf.
      * exists (fs ++ [f]). split; [done|]. by rewrite collected_snoc, Hc.
    + apply (read_payload_chunk_Ok _ _ _ _ fs f n) in Hr as (chunk & Hc0 & _ & _ & -> & Hi' & Hs); [|done..].
      unfold run_inv. rewrite Hs. destruct (N.eqb_spec (n - len (f_payload (grown f chunk))) 0) as [Hz'|Hz'].
      * exists fs, (grown f chunk). rewrite collected_snoc, Hc. split; [|done].
        pose proof (in_le _ _ _ _ Hi'). by replace (len (f_payload (grown f chunk))) with n by lia.
      * rewrite Hst. exists fs, (grown f chunk), n. by rewrite collected_snoc, Hc.
  - destruct Hinv as (fs & f & Hi & Hc).
    apply (finish_record_Ok _ _ _ fs f) in Hr as [-> Hr]; [|done].
    case_bool_decide; destruct Hr as [Hs Hr]; unfold run_inv; rewrite Hs.
    + destruct Hr as [Hf Hcl]. exists fs. split; [done|]. rewrite collected_snoc, Hc. simpl. by rewrite Hf.
    + exists (fs ++ [f]). split; [done|]. by rewrite collected_snoc, Hc.
  - destruct Hinv as (fs & Hcl & Hc).
    apply (read_footer_Ok _ _ _ fs) in Hr as (c & -> & Hs & Hcm); [|done].
    unfold run_inv. rewrite Hs. exists fs, c, evs. by rewrite collected_snoc, Hc.
Qed.

Lemma run_invariant s evs r : stream_run limits (mkRecorded s []) evs r -> run_inv evs r.
Proof.
  induction 1; [|by eapply run_inv_step]. unfold run_inv. simpl. by exists s.
Qed.
(** *** Progress

    Every event but [RecordEnd] reads at least one byte, and a [RecordEnd]
    is paid for by the header of its record. *)

Definition slack (st : State) : N := match st with SPayload | SRecordEnd => 1 | _ => 0 end.

Definition bytes_of (r : Reader) : N := st_bytes_read (stats r).

Lemma finish_progress (r r' : Reader) e fs f :
  inside r fs f (len (f_payload f)) -> finish_record limits r = (Ok e, r') ->
  slack (state r') = 0 /\ bytes_of r' = bytes_of r.
Proof.
  intros Hi Hr. pose proof (me_read _ _ (in_measured _ _ _ _ Hi)) as E. rewrite open_bytes_complete in E.
  apply (finish_record_Ok _ _ _ fs f) in Hr as [_ Hr]; [|done]. unfold bytes_of.
  case_bool_decide; destruct Hr as [-> Hr].
  - destruct Hr as [-> Hcl]. by rewrite (me_read _ _ (cl_measured _ _ Hcl)).
  - by rewrite (me_read _ _ (bo_measured _ _ Hr)), body_snoc.
Qed.

Lemma run_progress (r r' : Reader) evs e :
  run_inv evs r -> next_event limits r = (Ok (Some e), r') ->
  1 + slack (state r') + bytes_of r <= bytes_of r' + slack (state r).
Proof.
  intros Hinv Hr. apply next_event_Ok in Hr. unfold run_inv in Hinv. unfold bytes_of.
  destruct (state r) eqn:Hst; try done.
  - destruct Hinv as (s & -> & ->). apply read_header_Ok in Hr as (-> & -> & Hb).
    rewrite (me_read _ _ (bo_measured _ _ Hb)). done.
  - destruct Hinv as (fs & Hb & _).
    apply (read_record_header_Ok _ _ _ fs) in Hr as (f & n & _ & _ & Hi & ->); [|done].
    rewrite (me_read _ _ (bo_measured _ _ Hb)), (me_read _ _ (in_measured _ _ _ _ Hi)).
    unfold open_bytes. rewrite !len_app, record_header_len. destruct (n =? 0); unfold slack; lia.
  - destruct Hinv as (fs & f & n & Hi & _).
    unfold read_payload_event in Hr. step_machine Hr. option_facts.
    match goal with E : active r = Some ?a |- _ => rename a into ac; rename E into Ha end.
    pose proof (in_active _ _ _ _ Hi) as Ha'. rewrite Ha in Ha'.
    destruct (N.eqb_spec (ar_remaining ac) 0) as [Hz|Hz].
    + step_machine Hr. injection Ha' as ->. simpl in Hz.
      assert (Hn : n = len (f_payload f)) by (pose proof (in_le _ _ _ _ Hi); lia). subst n.
      assert (Hi' : inside (set_state SRecordEnd r) fs f (len (f_payload f))).
      { destruct Hi. split; try done. eapply measured_ext; [done..|unfold same_meters; simpl; lia]. }
      apply (finish_progress _ _ _ fs f) in Hr as [E1 E2]; [|done]. unfold bytes_of in E2.
      change (stats (set_state SRecordEnd r)) with (stats r) in E2. rewrite E1, E2. unfold slack. lia.
    + apply (read_payload_chunk_Ok _ _ _ _ fs f n) in Hr as (chunk & Hc0 & _ & _ & -> & Hi' & ->); [|done..].
      rewrite (me_read _ _ (in_measured _ _ _ _ Hi)), (me_read _ _ (in_measured _ _ _ _ Hi')).
      unfold grown. rewrite open_bytes_more, !len_app, Hst.
      destruct (_ =? 0); unfold slack; lia.
  - destruct Hinv as (fs & f & Hi & _).
    apply (finish_progress _ _ _ fs f) in Hr as [E1 E2]; [|done]. unfold bytes_of in E2. rewrite E1, E2. unfold slack. lia.
  - destruct Hinv as (fs & Hcl & _).
    apply (read_footer_Ok _ _ _ fs) in Hr as (c & -> & -> & mid & m & _ & Hs & Hrec & _ & _ & -> & _); [|done].
    rewrite (me_read _ _ (cl_measured _ _ Hcl)). rewrite Hrec. unfold image.
    rewrite len_app. unfold footer_bytes. rewrite len_app. change (len FOOTER_MAGIC) with 8. unfold slack. lia.
Qed.

Lemma run_length s evs r :
  stream_run limits (mkRecorded s []) evs r -> len evs + slack (state r) <= bytes_of r.
Proof.
  induction 1 as [|evs r e r' Hr IH He]; [done|].
  pose proof (run_progress _ _ _ _ (run_invariant _ _ _ Hr) He). rewrite len_app, len_cons, len_nil. lia.
Qed.

Lemma run_bytes s evs r :
  stream_run limits (mkRecorded s []) evs r -> bytes_of r <= max_total_bytes_read limits.
Proof.
  intros Hr. apply run_invariant in Hr. unfold run_inv in Hr. unfold bytes_of. destruct (state r).
  - destruct Hr as (? & -> & _). apply N.le_0_l.
  - destruct Hr as (fs & [Hm] & _). rewrite (me_read _ _ Hm). apply Hm.
  - destruct Hr as (fs & f & n & [Hm] & _). rewrite (me_read _ _ Hm). apply Hm.
  - destruct Hr as (fs & f & [Hm] & _). rewrite (me_read _ _ Hm). apply Hm.
  - destruct Hr as (fs & [Hm] & _). rewrite (me_read _ _ Hm). apply Hm.
  - by destruct Hr as (fs & c & evs' & _ & (mid & m & _ & _ & _ & _ & _ & _ & Hb) & _).
  - done.
Qed.

(** A run that cannot go on. *)
Definition stuck (r : Reader) : Prop := forall e r', next_event limits r <> (Ok (Some e), r').

Lemma run_to_end s evs r :
  stream_run limits (mkRecorded s []) evs r ->
  exists evs' r', stream_run limits (mkRecorded s []) (evs ++ evs') r' /\ stuck r'.
Proof.
  remember (N.to_nat (max_total_bytes_read limits - len evs)) as k eqn:Ek.
  revert evs r Ek. induction k as [k IH] using lt_wf_ind. intros evs r -> Hr.
  destruct (next_event limits r) as [[[e|]|err] r'] eqn:En.
  - pose proof (run_event _ _ _ _ _ _ Hr En) as Hr'.
    pose proof (run_length _ _ _ Hr') as Hl. pose proof (run_bytes _ _ _ Hr') as Hb.
    rewrite len_app, len_cons, len_nil in Hl.
    destruct (IH (N.to_nat (max_total_bytes_read limits - len (evs ++ [e]))) ltac:(rewrite len_app, len_cons, len_nil; lia)
      (evs ++ [e]) r' eq_refl Hr') as (evs' & r2 & H2 & H3).
    exists (e :: evs'), r2. by rewrite cons_middle, app_assoc.
  - exists [], r. rewrite app_nil_r. split; [done|]. intros e r2. by rewrite En.
  - exists [], r. rewrite app_nil_r. split; [done|]. intros e r2. by rewrite En.
Qed.
End Run.

(** Only the footer step commits. *)
Lemma commit_event `{Sha256} {S} `{ReadStream S} limits (r r' : SequentialReader S) c :
  next_event limits r = (Ok (Some (Commit c)), r') -> state r' = SDone.
Proof.
  intros Hr. apply next_event_Ok in Hr. remember (Commit c) as e eqn:Ec.
  destruct (state r); try done.
  - unfold read_header in Hr. by step_machine Hr.
  - unfold read_record_header in Hr. by step_machine Hr.
  - unfold read_payload_event in Hr. step_machine Hr. destruct (ar_remaining _ =? 0).
    + unfold finish_record in Hr. by step_machine Hr.
    + unfold read_payload_chunk in Hr. by step_machine Hr.
  - unfold finish_record in Hr. by step_machine Hr.
  - unfold read_footer in Hr. step_machine Hr. done.
Qed.

(** A run that reaches [Commit] has read exactly the image of a document the
    stream accepts, and its events carry that document's frames. *)
Lemma stream_commit_sound `{Sha256} {S} `{ReadStreamOk S} limits (s : S) evs r c :
  limits_ok limits -> stream_run limits (mkRecorded s []) (evs ++ [Commit c]) r ->
  exists fs mid m, mid <= U64_MAX /\ streamed limits fs mid m /\
    rec_bytes (inner r) = image fs mid /\ commit_of fs mid m c /\
    collected evs = (fs ++ [directory_frame fs], None) /\
    st_bytes_read (sc_stats c) = len (image fs mid).
Proof.
  intros Hl Hr. pose proof (run_invariant limits Hl s _ _ Hr) as Hinv.
  remember (evs ++ [Commit c]) as evs0 eqn:E0. destruct Hr as [|evs1 r0 e r' Hrun Hev].
  { symmetry in E0. by apply app_nil in E0 as [_ ?]. }
  apply app_inj_tail in E0 as [-> ->].
  unfold run_inv in Hinv. rewrite (commit_event _ _ _ _ Hev) in Hinv.
  destruct Hinv as (fs & c' & evs' & E & (mid & m & Hmid & Hst & Hrec & Hcm & Hs & Hb & _) & Hcol).
  apply app_inj_tail in E as [<- [= <-]]. exists fs, mid, m.
  rewrite collected_snoc in Hcol. simpl in Hcol. split_and!; try done.
  - by rewrite Hs, Hb, Hrec.
Qed.

Lemma loop_pow_stop {St A} n (body : St -> St + A) s a : body s = inr a -> loop_pow n body s = inr a.
Proof. intros E. induction n as [|n IH]; simpl; [done|]. by rewrite IH. Qed.

(** The part of [bs ++ rest] a read of [k] bytes delivers. *)
Lemma slice_next {A} (bs rest : list A) k :
  k <= len rest -> slice (bs ++ rest) (len bs) (len bs + k) = take (N.to_nat k) rest.
Proof.
  intros Hk. unfold slice. rewrite len_to_nat, drop_app_length. f_equal. lia.
Qed.

(** Readers are equal when their components are. *)
Lemma reader_eta {S} (r r' : SequentialReader S) :
  inner r = inner r' -> state r = state r' -> sq_offset r = sq_offset r' -> stats r = stats r' ->
  hasher r = hasher r' -> active r = active r' -> inventory r = inventory r' ->
  identifiers r = identifiers r' -> manifests r = manifests r' -> directory r = directory r' ->
  sq_record_count r = sq_record_count r' -> r = r'.
Proof. destruct r, r'. cbn. intros. by subst. Qed.

Section Complete.
Context {sha : Sha256} {shaok : Sha256Ok sha} (limits : Limits).
Context (Hlim : limits_ok limits).
Context (fs : list Frame) (mid : N) (m : Manifest) (Hmid : mid <= U64_MAX).
Context (Hst : streamed limits fs mid m).
Context (Hchunk : 0 < max_stream_chunk_bytes limits) (Halloc : 0 < max_allocation_bytes limits).

Let input := image fs mid.
Let all := fs ++ [directory_frame fs].

Abbreviation Reader := (SequentialReader (Recorded Cursor)).

Definition at_offset (r : Reader) (o : N) : Prop := rec_inner (inner r) = mkCursor input o.

Lemma input_len : len input = len (committed fs) + FOOTER_LEN.
Proof. apply image_len. Qed.

Lemma input_bounds : len input <= max_file_bytes limits /\ len input <= max_total_bytes_read limits /\
  max_file_bytes limits <= U64_MAX /\ max_total_bytes_read limits <= U64_MAX.
Proof.
  rewrite input_len. destruct Hst as [[Hf _] _ _ _ Hr _]. pose proof (framed_len _ _ Hf).
  split_and!; [done|done|..]; apply (limits_ok_field limits); [done|set_solver|done|set_solver].
Qed.

(** Reading what comes next. *)
Lemma read_run (r : Reader) bs rest k context hash :
  measured limits r bs -> at_offset r (len bs) -> input = bs ++ rest ->
  0 < k -> k <= len rest ->
  exists s, rec_inner s = mkCursor input (len bs + k) /\
    read_exact_into limits k context hash r = (Ok (take (N.to_nat k) rest), after_read s (take (N.to_nat k) rest) hash r).
Proof.
  intros Hm Hat Hin Hk Hle. destruct input_bounds as (B1 & B2 & B3 & B4).
  assert (Hl : len input = len bs + len rest) by (rewrite Hin; apply len_app).
  destruct Hm as [H1 H2 H3 H4 H5 H6 H7 H8 H9].
  assert (Htl : len (take (N.to_nat k) rest) = k) by (unfold len in *; rewrite length_take; lia).
  exists (mkRecorded (mkCursor input (len bs + k)) (rec_bytes (inner r) ++ take (N.to_nat k) rest)).
  split; [done|].
  unfold read_exact_into, check_file_budget, inner_read_exact, se_bind, se_lift, se_get, se_modify,
    guard, se_lift, se_ret.
  rewrite try_u64_fits by lia. cbn [ok_or]. rewrite H3, checked_add_fits by lia. cbn [ok_or].
  rewrite (proj2 (N.ltb_ge _ _)) by lia. cbn [negb].
  rewrite H4, checked_add_fits by lia. cbn [ok_or].
  rewrite (proj2 (N.ltb_ge _ _)) by lia. cbn [negb].
  cbn [stream_read_exact recorded_read]. rewrite Hat. cbn [stream_read_exact cursor_read].
  unfold cursor_available. cbn [cursor_bytes cursor_position].
  rewrite N.min_l by lia. rewrite len_to_nat.
  assert (Hdr : drop (length bs) input = rest) by (rewrite Hin; apply drop_app_length).
  rewrite Hdr. rewrite (proj2 (N.leb_le _ _)) by done.
  cbn [record_read stats set_inner set_offset upd_stats with_bytes_read st_read_operations].
  rewrite (checked_add_fits (sq_offset r) k) by lia. cbn [ok_or].
  rewrite (checked_add_fits (st_read_operations (stats r)) 1) by lia. cbn [ok_or]. destruct hash.
  - cbn [stats set_hasher set_inner set_offset upd_stats with_bytes_read with_read_operations st_bytes_hashed].
    rewrite H7, (checked_add_fits (len bs) k) by lia. cbn [ok_or].
    f_equal. unfold after_read. rewrite Htl. apply reader_eta; try reflexivity.
    cbn [stats set_hasher set_inner set_offset upd_stats]. by rewrite H4, H7.
  - f_equal. unfold after_read. rewrite Htl. apply reader_eta; try reflexivity.
    cbn [stats set_hasher set_inner set_offset upd_stats]. by rewrite H4.
Qed.

(** What follows the frames [pre] in the image. *)
Lemma input_split pre f post :
  all = pre ++ f :: post ->
  exists tail, input = body pre ++ record_header (f_kind f) (f_id f) (len (f_payload f)) ++ f_payload f ++ tail.
Proof.
  intros E. unfold input, image. rewrite committed_frames. fold all. rewrite E.
  unfold body. rewrite frames_bytes_app, frames_bytes_cons. unfold frame_bytes at 1.
  eexists. rewrite <- !app_assoc. reflexivity.
Qed.

Lemma str_framed : framed limits fs.
Proof. apply (str_accepted _ _ _ _ Hst). Qed.

Lemma all_frame_ok f : f ∈ all -> frame_ok limits f.
Proof. intros Hf. pose proof (framed_frames _ _ str_framed) as Ha. rewrite Forall_forall in Ha. by apply Ha. Qed.

(** A frame of the document is a directory only in the last place. *)
Lemma all_cases pre f post :
  all = pre ++ f :: post ->
  (f = directory_frame fs /\ pre = fs /\ post = []) \/ (is_object f /\ f ∈ fs /\ exists post', fs = pre ++ f :: post').
Proof.
  intros E. unfold all in E. destruct post as [|g post] using rev_ind.
  - apply app_inj_tail in E as [-> ->]. by left.
  - right. rewrite app_comm_cons, app_assoc in E. apply app_inj_tail in E as [-> _].
    assert (f ∈ pre ++ f :: post) by set_solver.
    split_and!; [|done|by eexists].
    pose proof (str_objects _ _ _ _ Hst) as Ho. rewrite Forall_forall in Ho. by apply Ho.
Qed.

Lemma object_id_rule f : f ∈ fs -> f_id f <> 0.
Proof.
  intros Hf E. pose proof (str_objects _ _ _ _ Hst) as Ho. rewrite Forall_forall in Ho.
  apply (Ho f Hf). assert (frame_ok limits f) as [Hr _] by (apply all_frame_ok; set_solver). by apply Hr.
Qed.

Lemma object_ids : NoDup (f_id <$> fs).
Proof.
  pose proof (framed_ids _ _ str_framed) as Hn. unfold frame_ids in Hn.
  rewrite filter_all in Hn; [done|]. intros i Hi. apply list_elem_of_fmap in Hi as (f & -> & Hf).
  by apply object_id_rule.
Qed.

Lemma next_id_fresh pre f post : all = pre ++ f :: post -> f_id f ∉ f_id <$> pre.
Proof.
  intros E. destruct (all_cases _ _ _ E) as [(-> & -> & _)|(_ & _ & post' & Efs)].
  - simpl. intros Hz. apply list_elem_of_fmap in Hz as (g & Hg & Hin).
    by apply (object_id_rule g).
  - pose proof object_ids as Hn. rewrite Efs, fmap_app in Hn. csimpl in Hn.
    apply NoDup_app in Hn as (_ & Hn & _). intros Hin. apply (Hn _ Hin). set_solver.
Qed.

(** The metadata records fit their buffers. *)
Lemma metadata_fits f :
  f ∈ all -> f_kind f <> Opaque ->
  len (f_payload f) <= max_metadata_bytes limits /\ len (f_payload f) <= max_allocation_bytes limits.
Proof.
  intros Hf Hk. split.
  - apply elem_of_app in Hf as [Hf|Hf%list_elem_of_singleton].
    + pose proof (str_objects _ _ _ _ Hst) as Ho. rewrite Forall_forall in Ho.
      destruct (f_kind f) eqn:E; [done| |by apply Ho in Hf].
      destruct (str_manifests _ _ _ _ Hst f Hf E) as (m' & -> & (_ & _ & Hm) & _). exact Hm.
    + subst f. apply (framed_directory _ _ str_framed).
  - pose proof (str_metadata _ _ _ _ Hst) as Hm. rewrite Forall_forall in Hm. by apply Hm.
Qed.

Lemma reserve_run h (r : Reader) :
  (h_kind h <> Opaque -> h_stored_len h <= max_metadata_bytes limits /\
                         h_stored_len h <= max_allocation_bytes limits) ->
  exists md r', reserve_metadata limits h r = (Ok md, r') /\ inner r' = inner r.
Proof.
  intros Hm. unfold reserve_metadata, se_bind, guard, se_lift, se_modify, se_ret.
  assert (max_metadata_bytes limits <= U64_MAX) by (apply (limits_ok_field limits); [done|set_solver]).
  destruct (h_kind h) eqn:E; [by eexists _, _| |]; destruct Hm as [H1 H2]; try done;
    rewrite !(proj2 (N.ltb_ge _ _)), try_u64_fits by lia; by eexists _, _.
Qed.

Lemma take_all_prefix {A} (a b : list A) k : k = len a -> take (N.to_nat k) (a ++ b) = a.
Proof. intros ->. rewrite len_to_nat. by rewrite take_app_length. Qed.

Lemma read_record_header_run (r : Reader) pre f post :
  boundary limits r pre -> all = pre ++ f :: post -> at_offset r (len (body pre)) ->
  exists r', read_record_header limits r =
      (Ok (RecordStart (mkStreamRecord (f_kind f) (f_id f) (len (body pre)) (len (f_payload f))
             (len (f_payload f)))), r') /\
    at_offset r' (len (body pre) + RECORD_HEADER_LEN).
Proof.
  intros Hb Eall Hat. pose proof Hb as [Hm Ho Hi Hids Hd Hc Hl Hlm].
  assert (Hf : f ∈ all) by (rewrite Eall; set_solver).
  destruct (all_frame_ok f Hf) as (Hrule & Hid & Hpl).
  assert (Hcnt : len pre + 1 <= max_records limits).
  { pose proof (framed_count _ _ str_framed) as Hfc. assert (El : len (pre ++ f :: post) = len fs + 1) by (rewrite <- Eall; apply len_app).
    rewrite len_app, len_cons in El. lia. }
  assert (Hmr : max_records limits <= U64_MAX) by (apply (limits_ok_field limits); [done|set_solver]).
  assert (Hmp : max_payload_bytes limits <= U64_MAX) by (apply (limits_ok_field limits); [done|set_solver]).
  destruct (input_split _ _ _ Eall) as [tail Hin].
  set (n := len (f_payload f)) in *.
  set (hd := mkHeader (f_kind f) (f_id f) n n).
  set (r1 := set_record_count (len pre + 1) r).
  destruct (read_run r1 (body pre) (record_header (f_kind f) (f_id f) n ++ f_payload f ++ tail)
    RECORD_HEADER_LEN "record header" true) as (s' & Hs' & Hread);
    [eapply measured_ext; [exact Hm|done..|unfold same_meters, r1; simpl; lia]|done|done|done| |].
  { rewrite len_app, record_header_len. unfold RECORD_HEADER_LEN. lia. }
  rewrite take_all_prefix in Hread by done.
  unfold read_record_header, se_bind, se_get, guard, se_lift, se_modify, se_ret.
  rewrite Hd, Hc. rewrite checked_add_fits by lia. cbn [ok_or].
  rewrite (proj2 (N.ltb_ge _ _)) by lia. cbn [negb].
  fold r1. rewrite Hread.
  assert (Hparse : stream_parse_record_header (record_header (f_kind f) (f_id f) n) limits = Ok hd).
  { apply stream_header_Ok; [done|]. unfold header_fits, hd. simpl. split_and!; [lia|done|done|done|done]. }
  rewrite Hparse. cbn [identifiers after_read set_hasher upd_stats set_offset set_inner r1 set_record_count].
  assert (Hids' : check_identifier hd (identifiers r) = Ok (ids_after f (identifiers r))).
  { apply (check_identifier_Ok hd (identifiers r) _ f); [|done|done|].
    - rewrite Hids, elem_of_list_to_set. intros Hz. apply list_elem_of_fmap in Hz as (g & Hg & Hgin).
      apply (object_id_rule g); [|done]. destruct (all_cases _ _ _ Eall) as [(_ & E & _)|(_ & _ & post' & E)];
        [by rewrite <- E|rewrite E; apply elem_of_app; by left].
    - split; [|done]. split; [done|]. rewrite Hids, elem_of_list_to_set. by eapply next_id_fresh. }
  rewrite Hids'.
  match goal with |- context [reserve_metadata limits hd ?r2] =>
    destruct (reserve_run hd r2) as (md & r3 & Hres & Hinner) end.
  { intros Hk. by apply metadata_fits. }
  rewrite Hres. eexists. split.
  { change (sq_offset r1) with (sq_offset r). rewrite (me_offset _ _ _ Hm). reflexivity. }
  unfold at_offset. simpl. destruct (bool_decide _); simpl; rewrite Hinner; done.
Qed.

(** [g] is the part of [f] read so far. *)
Record partial (pre : list Frame) (f g : Frame) (rest : bytes) (post : list Frame) : Prop := {
  pa_all : all = pre ++ f :: post;
  pa_kind : f_kind g = f_kind f;
  pa_id : f_id g = f_id f;
  pa_payload : f_payload f = f_payload g ++ rest;
}.

Lemma partial_input pre f g rest post :
  partial pre f g rest post ->
  exists tail, input = (body pre ++ open_bytes g (len (f_payload f))) ++ rest ++ tail.
Proof.
  intros [Eall Ek Ei Ep]. destruct (input_split _ _ _ Eall) as [tail Hin].
  exists tail. rewrite Hin. unfold open_bytes. rewrite Ek, Ei, Ep, <- !app_assoc. done.
Qed.

Lemma payload_total_app l1 l2 : payload_total (l1 ++ l2) = payload_total l1 + payload_total l2.
Proof. induction l1 as [|f l1 IH]; simpl; [done|]. rewrite IH. lia. Qed.

Lemma partial_logical pre f g rest post :
  partial pre f g rest post ->
  payload_total pre + len (f_payload g) + len rest <= max_logical_decoded_bytes limits.
Proof.
  intros [Eall _ _ Ep]. pose proof (str_logical _ _ _ _ Hst) as Hl. fold all in Hl.
  rewrite Eall, payload_total_app in Hl. simpl in Hl. rewrite Ep, len_app in Hl. lia.
Qed.

Lemma read_payload_chunk_run (r : Reader) pre f g rest post a :
  partial pre f g rest post -> inside limits r pre g (len (f_payload f)) -> rest <> [] ->
  active r = Some a ->
  at_offset r (len (body pre ++ open_bytes g (len (f_payload f)))) ->
  exists chunk rest' r' e, rest = chunk ++ rest' /\ read_payload_chunk limits a r = (Ok e, r') /\
    e = PayloadChunk (f_kind g) (f_id g) chunk (len rest - len chunk) /\
    at_offset r' (len (body pre ++ open_bytes g (len (f_payload f))) + len chunk).
Proof.
  intros Hp Hi Hne Ha Hat. destruct (partial_input _ _ _ _ _ Hp) as [tail Hin].
  pose proof (partial_logical _ _ _ _ _ Hp) as Hlog.
  set (bs := body pre ++ open_bytes g (len (f_payload f))) in *.
  rewrite (in_active _ _ _ _ _ Hi) in Ha. injection Ha as <-.
  assert (Hrem : len (f_payload f) - len (f_payload g) = len rest)
    by (rewrite (pa_payload _ _ _ _ _ Hp), len_app; lia).
  assert (Hrest : 0 < len rest) by (destruct rest; [done|rewrite len_cons; lia]).
  assert (Hml : max_logical_decoded_bytes limits <= U64_MAX) by (apply (limits_ok_field limits); [done|set_solver]).
  pose proof (me_chunks _ _ _ (in_measured _ _ _ _ _ Hi)) as Hch.
  pose proof (in_logical _ _ _ _ _ Hi) as Hlg. rewrite Hlg in Hch.
  unfold read_payload_chunk, se_bind, se_get, guard, se_lift, se_modify, se_ret.
  cbn [ar_remaining ar_metadata ar_record sr_kind sr_object_id].
  rewrite (proj2 (N.eqb_neq _ 0)) by lia. cbn [negb].
  rewrite Hlg, (proj2 (checked_sub_Some _ _ _)) by (split; [reflexivity|lia]). cbn [ok_or].
  rewrite (proj2 (N.eqb_neq _ 0)) by lia. cbn [negb]. rewrite Hrem.
  match goal with |- context [try_u64 ?x] => set (k := x) end.
  assert (Hk : 0 < k /\ k <= len rest /\
    payload_total pre + len (f_payload g) + k <= max_logical_decoded_bytes limits) by (unfold k; lia).
  rewrite try_u64_fits by lia. cbn [ok_or].
  destruct (read_run (upd_stats (with_allocation k) r) bs (rest ++ tail) k "record payload" true)
    as (s' & Hs' & Hread);
    [eapply measured_ext; [apply Hi|done..|unfold same_meters; simpl; lia]|done|done|lia|rewrite len_app; lia|].
  rewrite Hread.
  assert (Htk : take (N.to_nat k) (rest ++ tail) = take (N.to_nat k) rest).
  { apply take_app_le. unfold len in *. lia. }
  rewrite Htk. rewrite (proj2 (checked_sub_Some (len rest) k (len rest - k))) by lia. cbn [ok_or].
  cbn [stats set_active after_read set_hasher upd_stats set_offset set_inner st_logical_bytes with_allocation].
  rewrite (checked_add_fits (payload_total pre + len (f_payload g)) k) by lia. cbn [ok_or].
  rewrite (proj2 (N.ltb_ge _ _)) by lia. cbn [negb].
  cbn [stats upd_stats with_logical_bytes st_payload_chunks].
  rewrite checked_add_fits by lia. cbn [ok_or].
  assert (Hlk : len (take (N.to_nat k) rest) = k) by (unfold len in *; rewrite length_take; lia).
  exists (take (N.to_nat k) rest), (drop (N.to_nat k) rest). eexists _, _.
  split; [by rewrite take_drop|]. split; [reflexivity|]. rewrite Hlk. split; [done|].
  unfold at_offset. destruct (_ =? 0); exact Hs'.
Qed.

Lemma finish_metadata_run (r : Reader) pre f post off :
  let n := len (f_payload f) in
  all = pre ++ f :: post ->
  (f_kind f = Directory -> inventory r = frame_entries HEADER_LEN fs) ->
  exists r', finish_metadata limits (mkActive (mkStreamRecord (f_kind f) (f_id f) off n n) (n - n)
    (if bool_decide (f_kind f = Opaque) then None else Some (f_payload f))) r = (Ok tt, r') /\
    inner r' = inner r.
Proof.
  intros n Eall Hinv. unfold finish_metadata.
  cbn [ar_remaining ar_metadata ar_record sr_kind sr_object_id sr_stored_len sr_offset].
  destruct (all_cases _ _ _ Eall) as [(Hf & _ & _)|(Hobj & Hin & _)].
  - subst f. cbn [f_kind directory_frame f_payload] in *.
    rewrite bool_decide_false by done.
    assert (Hdec : match decode_canonical (enc (directory_value fs)) limits with
      | Ok v => parse_directory v | Err e => Err e end = Ok (inventory r)).
    { rewrite Hinv by done. apply decode_directory; [done|].
      split; [apply (framed_directory _ _ str_framed)|done]. }
    unfold se_bind, se_get, guard, se_lift, se_modify, se_ret. cbn [ok_or].
    destruct (decode_canonical _ limits) as [v|]; [|done]. rewrite Hdec.
    rewrite bool_decide_true by done.
    destruct (all_frame_ok (directory_frame fs)) as (_ & _ & Hpl); [unfold all; set_solver|].
    assert (Hb : len (committed fs) + FOOTER_LEN <= U64_MAX).
    { destruct input_bounds as (B & _ & B' & _). rewrite input_len in B. lia. }
    rewrite committed_body_len in Hb. unfold frame_len in Hb. cbn [f_payload directory_frame] in Hb.
    unfold n. cbn [f_payload directory_frame]. rewrite checked_add_fits by lia. by eexists.
  - destruct (f_kind f) eqn:Hk; [|clear Hinv|by apply Hobj in Hk].
    { by eexists. }
    rewrite bool_decide_false by done.
    destruct (str_manifests _ _ _ _ Hst f Hin Hk) as (m' & Hf & Hadm & Hsh).
    assert (Hdec : match decode_canonical (f_payload f) limits with
      | Ok v => parse_manifest v | Err e => Err e end = Ok m').
    { apply decode_manifest; [done|]. split_and!; [done|by rewrite Hf at 1|done]. }
    unfold se_bind, se_get, guard, se_lift, se_modify, se_ret. cbn [ok_or].
    destruct (decode_canonical _ limits) as [v|]; [|done]. rewrite Hdec. by eexists.
Qed.

Lemma finish_record_run (r : Reader) pre f post :
  all = pre ++ f :: post -> inside limits r pre f (len (f_payload f)) ->
  exists e r', finish_record limits r = (Ok e, r') /\ inner r' = inner r.
Proof.
  intros Eall Hi. unfold finish_record.
  destruct (finish_metadata_run (set_active None r) pre f post (len (body pre)) Eall) as (r' & Hr & Hin).
  { intros Hk. destruct (all_cases _ _ _ Eall) as [(_ & E & _)|(Ho & _ & _)]; [|by apply Ho in Hk].
    pose proof (in_inventory _ _ _ _ _ Hi) as Hinv. unfold started in Hinv.
    rewrite bool_decide_true, app_nil_r in Hinv by done. rewrite <- E. exact Hinv. }
  unfold se_bind, se_get, guard, se_lift, se_modify, se_ret.
  rewrite (in_active _ _ _ _ _ Hi). cbn [ok_or ar_remaining].
  rewrite (proj2 (N.eqb_eq _ 0)) by lia. rewrite Hr. eexists _, _. split; [reflexivity|]. exact Hin.
Qed.

Lemma active_manifest ms :
  objects limits fs ms -> exists m', ms !! mid = Some m' /\ forall root, root ∈ roots m' -> root ∈ f_id <$> fs.
Proof.
  intros Ho. destruct (str_accepted _ _ _ _ Hst) as [_ [Hid Hfr Hma Hsh Hroots]].
  destruct (ob_present _ _ _ Ho _ Hfr eq_refl) as [m' Hm']. simpl in Hm'. exists m'. split; [done|].
  destruct (ob_manifests _ _ _ Ho _ _ Hm') as [Hin' [Hma' Hsh']].
  assert (E : manifest_frame mid m = manifest_frame mid m').
  { apply list_elem_of_lookup in Hfr as [i Hi]. apply list_elem_of_lookup in Hin' as [j Hj].
    assert (i = j) as <-; [|congruence]. apply (NoDup_lookup _ i j mid object_ids);
      rewrite list_lookup_fmap; [by rewrite Hi|by rewrite Hj]. }
  injection E as E.
  assert (m = m') as <-; [|done].
  assert (D1 := proj2 (decode_manifest limits (enc (manifest_to_cbor m)) m Hlim) (conj Hma (conj eq_refl Hsh))).
  assert (D2 := proj2 (decode_manifest limits (enc (manifest_to_cbor m)) m' Hlim) (conj Hma' (conj E Hsh'))).
  rewrite D1 in D2. by injection D2.
Qed.

(** At the end of the input the exact-end check succeeds at once. *)
Lemma exact_end_run (r : Reader) :
  at_offset r (len input) -> st_read_operations (stats r) + 1 <= U64_MAX ->
  exists r', ensure_exact_end r = (Ok tt, r').
Proof.
  intros Hat Hops. unfold ensure_exact_end.
  assert (E : exists r', exact_end_turn r = inr (Ok tt, r')).
  { unfold exact_end_turn. rewrite checked_add_fits by done.
    cbn [stream_read recorded_read inner upd_stats]. rewrite Hat. cbn [stream_read cursor_read].
    unfold cursor_available. cbn [cursor_bytes cursor_position].
    rewrite N.min_id, len_to_nat, drop_all. cbn [take record_read]. by eexists. }
  destruct E as [r' E]. exists r'. by rewrite (loop_pow_stop 64 _ _ _ E).
Qed.

Lemma read_footer_run (r : Reader) :
  closed limits r fs -> at_offset r (len (committed fs)) ->
  exists e r', read_footer limits r = (Ok e, r').
Proof.
  intros Hcl Hat. pose proof Hcl as [Hme Hob Hinv Hdir Hadm Hpay Hmeta Hcnt Hcm Hlog].
  set (ft := image_footer fs mid). destruct input_bounds as (B1 & B2 & B3 & B4). rewrite input_len in *.
  assert (H80 : len (footer_bytes ft) = FOOTER_LEN) by (apply footer_bytes_len, sha256_len).
  destruct (read_run r (committed fs) (footer_bytes ft) FOOTER_LEN "footer" false) as (s' & Hs' & Hread);
    [done|done|done|done|by rewrite H80|].
  assert (Ht : take (N.to_nat FOOTER_LEN) (footer_bytes ft) = footer_bytes ft).
  { apply firstn_all2. unfold len in H80. lia. }
  rewrite Ht in Hread.
  destruct (active_manifest _ Hob) as (m' & Hm' & Hroots).
  assert (Hfit : footer_fits ft).
  { rewrite committed_body_len in B1. unfold footer_fits, ft, image_footer. simpl.
    pose proof (sha256_len (committed fs)).
    assert (max_records limits <= U64_MAX) by (apply (limits_ok_field limits); [done|set_solver]).
    split_and!; try done; lia. }
  unfold read_footer, se_bind, se_get, guard, se_lift, se_modify, se_ret. rewrite Hread.
  unfold stream_parse_footer. rewrite (parse_footer_bytes ft Hfit).
  cbn [manifests after_read directory inventory hasher sq_record_count set_inner set_offset upd_stats].
  rewrite Hdir. cbn [ok_or ds_offset ds_len]. unfold ft, image_footer.
  cbn [Frame.manifest_id Frame.record_count Frame.directory_offset Frame.directory_len digest].
  rewrite !N.eqb_refl. cbn [negb orb]. rewrite Hcnt, N.eqb_refl.
  unfold hasher_finalize. rewrite (me_hasher _ _ _ Hme), bool_decide_true by done.
  rewrite Hm'. cbn [ok_or].
  rewrite (proj2 (forallb_forall _ _)).
  2:{ intros root Hroot. apply bool_decide_eq_true. rewrite elem_of_list_to_set, Hinv, frame_entries_ids.
      by apply Hroots, list_elem_of_In. }
  match goal with |- context [ensure_exact_end ?r2] => destruct (exact_end_run r2) as [r3 E] end.
  - unfold at_offset. cbn [inner after_read upd_stats set_offset set_inner]. rewrite Hs', input_len. done.
  - cbn [stats after_read upd_stats set_offset set_inner st_read_operations].
    pose proof (me_operations _ _ _ Hme). unfold FOOTER_LEN in *. lia.
  - rewrite E. by eexists _, _.
Qed.

(** *** The whole run *)

Definition on_track (r : Reader) : Prop :=
  match state r with
  | SHeader => r = stream_new (mkRecorded (mkCursor input 0) [])
  | SRecordHeader => exists pre f post, all = pre ++ f :: post /\ boundary limits r pre /\
      at_offset r (len (body pre))
  | SPayload => exists pre f g rest post, partial pre f g rest post /\ rest <> [] /\
      inside limits r pre g (len (f_payload f)) /\
      at_offset r (len (body pre ++ open_bytes g (len (f_payload f))))
  | SRecordEnd => exists pre f post, all = pre ++ f :: post /\
      inside limits r pre f (len (f_payload f)) /\ at_offset r (len (body (pre ++ [f])))
  | SFooter => closed limits r fs /\ at_offset r (len (committed fs))
  | SDone => True
  | SFailed => False
  end.

(** The event of a step, once its machine succeeds. *)
Lemma next_event_run (r : Reader) (step : Reader -> R StreamEvent * Reader) e r' :
  step r = (Ok e, r') ->
  next_event limits r = (let '(res, r1) := some_event step r in
    match res with Ok o => (Ok o, r1) | Err er => (Err er, set_state SFailed r1) end) ->
  next_event limits r = (Ok (Some e), r').
Proof. intros E ->. unfold some_event, se_bind, se_ret. by rewrite E. Qed.

Lemma partial_done pre f g post :
  partial pre f g [] post -> g = f.
Proof. intros [_ Hk Hi Hp]. rewrite app_nil_r in Hp. destruct f, g. simpl in *. by subst. Qed.

Lemma header_step (r : Reader) :
  r = stream_new (mkRecorded (mkCursor input 0) []) ->
  exists e r', read_header limits r = (Ok e, r') /\ on_track r'.
Proof.
  intros ->. set (r0 := stream_new _).
  assert (Hin : exists tail, input = [] ++ file_header ++ tail).
  { unfold input, image, committed, body. rewrite <- !app_assoc. by eexists. }
  destruct Hin as [tail Hin].
  destruct (read_run r0 [] (file_header ++ tail) HEADER_LEN "file header" true) as (s' & Hs' & Hread);
    [split; try done; apply N.le_0_l|done|done|done|rewrite len_app, file_header_len; unfold HEADER_LEN; lia|].
  rewrite take_all_prefix in Hread by done.
  assert (Hrun : exists r', read_header limits r0 = (Ok (FileHeader EXPERIMENTAL_EPOCH), r') /\ at_offset r' HEADER_LEN).
  { unfold read_header, se_bind, se_lift, se_modify, se_ret. rewrite Hread.
    eexists. split; [reflexivity|]. exact Hs'. }
  destruct Hrun as (r' & Hrun & Hat). exists (FileHeader EXPERIMENTAL_EPOCH), r'. split; [done|].
  apply read_header_Ok in Hrun as (_ & Hs & Hb); [|done].
  unfold on_track. rewrite Hs. destruct all as [|f post] eqn:Eall.
  - by apply app_nil in Eall as [_ ?].
  - by exists [], f, post.
Qed.

Lemma record_step (r : Reader) pre f post :
  all = pre ++ f :: post -> boundary limits r pre -> at_offset r (len (body pre)) ->
  exists e r', read_record_header limits r = (Ok e, r') /\ on_track r'.
Proof.
  intros Eall Hb Hat. destruct (read_record_header_run r pre f post Hb Eall Hat) as (r' & Hrun & Hat').
  eexists _, r'. split; [exact Hrun|].
  apply (read_record_header_Ok _ _ _ _ pre) in Hrun as (f' & n & [= Ek Ei En _] & Hp & Hi & Hs); [|done].
  subst n. unfold on_track. rewrite Hs.
  destruct (N.eqb_spec (len (f_payload f)) 0) as [Hz|Hz].
  - assert (Hf : f' = f).
    { destruct f, f'. simpl in *. subst. f_equal. destruct f_payload; [done|]. rewrite len_cons in Hz. lia. }
    subst f'. exists pre, f, post. split_and!; [done|done|].
    by rewrite body_snoc, len_app, frame_bytes_len, <- (N.add_0_r RECORD_HEADER_LEN), <- Hz in *.
  - exists pre, f, f', (f_payload f), post. split_and!; [|by intros E; rewrite E in Hz|done|].
    + split; [done|done|done|]. by rewrite Hp.
    + unfold open_bytes. by rewrite !len_app, record_header_len, Hp, N.add_0_r.
Qed.

Lemma payload_step (r : Reader) pre f g rest post :
  partial pre f g rest post -> rest <> [] -> inside limits r pre g (len (f_payload f)) ->
  at_offset r (len (body pre ++ open_bytes g (len (f_payload f)))) -> state r = SPayload ->
  exists e r', read_payload_event limits r = (Ok e, r') /\ on_track r'.
Proof.
  intros Hp Hne Hi Hat Hst'.
  assert (Hrem : len (f_payload f) - len (f_payload g) <> 0).
  { rewrite (pa_payload _ _ _ _ _ Hp), len_app. destruct rest; [done|]. rewrite len_cons. lia. }
  pose proof (in_active _ _ _ _ _ Hi) as Ha.
  destruct (read_payload_chunk_run r pre f g rest post _ Hp Hi Hne Ha Hat)
    as (chunk & rest' & r' & e & Er & Hrun & He & Hat').
  exists e, r'. split.
  { unfold read_payload_event, se_bind, se_get, se_lift. rewrite Ha. cbn [ok_or ar_remaining].
    by rewrite (proj2 (N.eqb_neq _ _) Hrem). }
  apply (read_payload_chunk_Ok _ _ _ _ _ pre g (len (f_payload f))) in Hrun
    as (chunk' & _ & _ & _ & E' & Hi' & Hs); [|done..].
  rewrite He in E'. injection E' as <- El.
  assert (Hp' : partial pre f (grown g chunk) rest' post).
  { destruct Hp. split; [done..|]. simpl. by rewrite pa_payload0, Er, app_assoc. }
  assert (Hrl : len (f_payload f) - len (f_payload (grown g chunk)) = len rest').
  { rewrite (pa_payload _ _ _ _ _ Hp'), len_app. lia. }
  rewrite <- len_app, <- app_assoc, <- open_bytes_more in Hat'. fold (grown g chunk) in Hat'.
  unfold on_track. rewrite Hs, Hrl, Hst'. destruct rest' as [|b rest'].
  - simpl. pose proof (partial_done _ _ _ _ Hp') as Eg. rewrite Eg in Hi', Hat'.
    exists pre, f, post. split_and!; [apply Hp|done|]. by rewrite body_snoc, <- open_bytes_complete.
  - rewrite (proj2 (N.eqb_neq _ _)) by (rewrite len_cons; lia).
    by exists pre, f, (grown g chunk), (b :: rest'), post.
Qed.

Lemma end_step (r : Reader) pre f post :
  all = pre ++ f :: post -> inside limits r pre f (len (f_payload f)) ->
  at_offset r (len (body (pre ++ [f]))) ->
  exists e r', finish_record limits r = (Ok e, r') /\ on_track r'.
Proof.
  intros Eall Hi Hat. destruct (finish_record_run r pre f post Eall Hi) as (e & r' & Hrun & Hin).
  exists e, r'. split; [done|]. apply (finish_record_Ok limits Hlim _ _ _ pre f) in Hrun as [_ Hrun]; [|done].
  unfold at_offset in Hat. rewrite <- Hin in Hat.
  destruct (all_cases _ _ _ Eall) as [(Hf & Hpre & _)|(Hobj & _ & post' & Efs)].
  - rewrite bool_decide_true in Hrun by (by rewrite Hf). destruct Hrun as (Hs & _ & Hcl).
    unfold on_track. rewrite Hs. rewrite Hpre in Hcl, Hat. split; [done|].
    unfold at_offset. by rewrite committed_frames, <- Hf.
  - rewrite bool_decide_false in Hrun by done. destruct Hrun as (Hs & Hb).
    unfold on_track. rewrite Hs.
    destruct post as [|g post].
    + exfalso. unfold all in Eall. apply app_inj_tail in Eall as [_ Ed]. by apply Hobj; rewrite <- Ed.
    + exists (pre ++ [f]), g, post. by rewrite <- app_assoc.
Qed.

Lemma track_step (r : Reader) :
  on_track r -> state r <> SDone -> exists e r', next_event limits r = (Ok (Some e), r') /\ on_track r'.
Proof.
  intros Ht Hd. pose proof Ht as Ht'. unfold on_track in Ht.
  assert (Hev : forall step e r', step r = (Ok e, r') -> on_track r' ->
    next_event limits r = (let '(res, r1) := some_event step r in
      match res with Ok o => (Ok o, r1) | Err er => (Err er, set_state SFailed r1) end) ->
    exists e r', next_event limits r = (Ok (Some e), r') /\ on_track r').
  { intros step e r' E Hot En. exists e, r'. split; [|done]. by eapply next_event_run. }
  destruct (state r) eqn:Hs; try done.
  - destruct (header_step r Ht) as (e & r' & E & Hot).
    eapply Hev; [exact E|done|]. unfold next_event. by rewrite Hs.
  - destruct Ht as (pre & f & post & Eall & Hb & Hat).
    destruct (record_step r pre f post Eall Hb Hat) as (e & r' & E & Hot).
    eapply Hev; [exact E|done|]. unfold next_event. by rewrite Hs.
  - destruct Ht as (pre & f & g & rest & post & Hp & Hne & Hi & Hat).
    destruct (payload_step r pre f g rest post Hp Hne Hi Hat Hs) as (e & r' & E & Hot).
    eapply Hev; [exact E|done|]. unfold next_event. by rewrite Hs.
  - destruct Ht as (pre & f & post & Eall & Hi & Hat).
    destruct (end_step r pre f post Eall Hi Hat) as (e & r' & E & Hot).
    eapply Hev; [exact E|done|]. unfold next_event. by rewrite Hs.
  - destruct Ht as [Hcl Hat]. destruct (read_footer_run r Hcl Hat) as (e & r' & E).
    eapply Hev; [exact E| |unfold next_event; by rewrite Hs].
    apply (read_footer_Ok limits _ _ _ fs) in E as (c & _ & Hsd & _); [|done]. unfold on_track. by rewrite Hsd.
Qed.

Lemma run_on_track evs r :
  stream_run limits (mkRecorded (mkCursor input 0) []) evs r -> on_track r.
Proof.
  induction 1 as [|evs r e r' Hr IH He]; [done|].
  destruct (track_step r IH) as (e2 & r2 & E2 & Ht2).
  - intros Hd. apply next_event_Ok in He. by rewrite Hd in He.
  - rewrite He in E2. by injection E2 as <- <-.
Qed.
End Complete.

(** Every run over the image of a document the stream accepts can be carried
    on to its commit. *)
Lemma stream_complete `{Sha256Ok} limits fs mid m evs r :
  limits_ok limits -> mid <= U64_MAX -> streamed limits fs mid m ->
  0 < max_stream_chunk_bytes limits -> 0 < max_allocation_bytes limits ->
  stream_run limits (mkRecorded (mkCursor (image fs mid) 0) []) evs r ->
  exists evs' r', stream_run limits (mkRecorded (mkCursor (image fs mid) 0) []) (evs ++ evs') r' /\
    state r' = SDone.
Proof.
  intros Hl Hm Hst Hc Ha Hr. destruct (run_to_end limits Hl _ _ _ Hr) as (evs' & r' & Hr' & Hstuck).
  exists evs', r'. split; [done|].
  pose proof (run_on_track limits Hl fs mid m Hm Hst Hc Ha _ _ Hr') as Ht.
  assert (Hdec : state r' = SDone \/ state r' <> SDone) by (destruct (state r'); by (left + right)).
  destruct Hdec as [|Hd]; [done|].
  destruct (track_step limits Hl fs mid m Hm Hst Hc Ha r' Ht Hd) as (e & r2 & E & _). by destruct (Hstuck e r2).
Qed.
