(* ===== verification/StreamWriter.v ===== *)
(** [crates/ucof-core/src/stream_writer.rs]: the streaming writer, over any
    sink, and its seekable front end. *)

From Stdlib Require Import Strings.Byte Strings.String NArith ZArith Lia.
From stdpp Require Import base list gmap strings sorting.
From S2P Require Import Prelude Order Errors Format Cbor Model Digest Machine Writer.

Local Open Scope N_scope.

(** [FinishedWriter<W>] *)
Record FinishedWriter (W : Type) : Type := mkFinished { fw_inner : W; fw_bytes_written : N }.
Arguments mkFinished {W}.
Arguments fw_inner {W}.
Arguments fw_bytes_written {W}.

(** [StreamingWriter<W>]; the limits are a parameter of the methods. *)
Record StreamingWriter (W : Type) : Type := mkStreaming {
  sw_inner : W;
  sw_hasher : Hasher;
  sw_entries : list DirectoryEntry;
  sw_object_ids : gset N;
  sw_offset : N;
  sw_failed : bool;
}.
Arguments mkStreaming {W}.
Arguments sw_inner {W}.
Arguments sw_hasher {W}.
Arguments sw_entries {W}.
Arguments sw_object_ids {W}.
Arguments sw_offset {W}.
Arguments sw_failed {W}.

Section Setters.
Context {W : Type}.
Implicit Type w : StreamingWriter W.
Definition set_sink (x : W) w :=
  mkStreaming x (sw_hasher w) (sw_entries w) (sw_object_ids w) (sw_offset w) (sw_failed w).
Definition set_sw_hasher x w :=
  mkStreaming (sw_inner w) x (sw_entries w) (sw_object_ids w) (sw_offset w) (sw_failed w).
Definition set_entries x w :=
  mkStreaming (sw_inner w) (sw_hasher w) x (sw_object_ids w) (sw_offset w) (sw_failed w).
Definition set_object_ids x w :=
  mkStreaming (sw_inner w) (sw_hasher w) (sw_entries w) x (sw_offset w) (sw_failed w).
Definition set_sw_offset x w :=
  mkStreaming (sw_inner w) (sw_hasher w) (sw_entries w) (sw_object_ids w) x (sw_failed w).
Definition set_failed w :=
  mkStreaming (sw_inner w) (sw_hasher w) (sw_entries w) (sw_object_ids w) (sw_offset w) true.
End Setters.

Section Methods.
Context `{Sha256} {W : Type} `{WriteSink W} (limits : Limits).

Abbreviation M := (SE (StreamingWriter W)).

(** [if let Err(error) = m { self.failed = true; return Err(error) }] *)
Definition or_fail {A} (m : M A) : M A := fun w =>
  match m w with
  | (Ok a, w) => (Ok a, w)
  | (Err e, w) => (Err e, set_failed w)
  end.

Definition sink_write_all (b : bytes) (context : string) : M unit := fun w =>
  let '(res, s) := write_all (sw_inner w) b in
  (match res with Ok _ => Ok tt | Err _ => Err (Io context) end, set_sink s w).

Definition write_checked (b : bytes) (context : string) : M unit :=
  do* length := se_lift (ok_or (try_u64 (len b)) (RangeOutOfBounds "writer length")) in
  do* w := se_get in
  do* next := se_lift (ok_or (checked_add (sw_offset w) length) (RangeOutOfBounds "writer offset")) in
  do* _ := guard (negb (max_file_bytes limits <? next)) (LimitExceeded "file bytes") in
  do* _ := sink_write_all b context in
  se_modify (set_sw_offset next).

Definition write_hashed (b : bytes) (context : string) : M unit :=
  do* _ := write_checked b context in
  se_modify (fun w => set_sw_hasher (hasher_update (sw_hasher w) b) w).

Definition write_unhashed (b : bytes) (context : string) : M unit := write_checked b context.

Definition ensure_open : M unit :=
  do* w := se_get in
  guard (negb (sw_failed w)) (InvalidRecordOrder "writer used after failure").

Definition write_record_header (kind : RecordKind) (object_id payload_len : N) : M unit :=
  let header := RECORD_MAGIC in
  let header := push_u16_le header (u16_from_kind kind) in
  let header := push_u16_le header 0 in
  let header := push_u32_le header RECORD_HEADER_LEN in
  let header := push_u64_le header payload_len in
  let header := push_u64_le header payload_len in
  let header := push_u64_le header object_id in
  let header := push_u32_le header 0 in
  write_hashed header "record header".

Definition begin_record (kind : RecordKind) (object_id payload_len : N) : M unit :=
  do* _ := ensure_open in
  do* _ := guard (negb (bool_decide (kind = Directory)))
             (InvalidRecordOrder "directory is created during finalization") in
  do* _ := guard (negb (object_id =? 0))
             (InvalidMetadataSchema "object identifier zero is reserved") in
  do* _ := guard (negb (max_payload_bytes limits <? payload_len))
             (LimitExceeded "record payload bytes") in
  do* w := se_get in
  do* count := se_lift (ok_or (try_u64 (len (sw_entries w))) (LimitExceeded "record count")) in
  (* [max_records.saturating_sub(1)] is truncated subtraction *)
  do* _ := guard (negb (max_records limits - 1 <=? count)) (LimitExceeded "record count") in
  do* ids := se_lift (ok_or (try_insert object_id (sw_object_ids w)) (DuplicateObjectId object_id)) in
  do* _ := se_modify (set_object_ids ids) in
  let offset := sw_offset w in
  do* _ := or_fail (write_record_header kind object_id payload_len) in
  se_modify (fun w => set_entries
    (sw_entries w ++ [mkEntry object_id kind offset payload_len payload_len]) w).

Definition sw_add_opaque (object_id : N) (payload : bytes) : M unit :=
  do* length := se_lift (ok_or (try_u64 (len payload)) (InvalidLength "record payload")) in
  do* _ := begin_record Opaque object_id length in
  or_fail (write_hashed payload "opaque payload").

Definition sw_add_manifest (object_id : N) (manifest : Manifest) : M unit :=
  do* _ := se_lift (validate_shape manifest) in
  do* payload := se_lift (encode_canonical (manifest_to_cbor manifest)) in
  do* length := se_lift (ok_or (try_u64 (len payload)) (InvalidLength "manifest payload")) in
  do* _ := begin_record Manifest_ object_id length in
  or_fail (write_hashed payload "manifest payload").

(** *** [add_opaque_from_reader]

    The loop state is the count left, the payload source and the writer. *)
Section FromReader.
Context {T : Type} `{ReadStream T} (chunk_limit : N).

Definition copy_turn (st : N * T * StreamingWriter W)
    : (N * T * StreamingWriter W) + (R unit * T * StreamingWriter W) :=
  let '(remaining, source, w) := st in
  if 0 <? remaining then
    match try_u64 (N.min remaining chunk_limit) with
    | None => inr (Err (LimitExceeded "stream chunk bytes"), source, w)
    | Some amount =>
        match stream_read_exact source amount with
        | (Err UnexpectedEof, source) =>
            inr (Err (Truncated "writer payload source"), source, set_failed w)
        | (Err _, source) => inr (Err (Io "writer payload source"), source, set_failed w)
        | (Ok chunk, source) =>
            match or_fail (write_hashed chunk "opaque payload") w with
            | (Err e, w) => inr (Err e, source, w)
            | (Ok _, w) =>
                match checked_sub remaining amount with
                | None => inr (Err (InvalidLength "writer payload"), source, w)
                | Some remaining => inl (remaining, source, w)
                end
            end
        end
    end
  else inr (Ok tt, source, w).
End FromReader.

Definition sw_add_opaque_from_reader {T} `{ReadStream T} (object_id length : N) (source : T)
    (w : StreamingWriter W) : R unit * T * StreamingWriter W :=
  match begin_record Opaque object_id length w with
  | (Err e, w) => (Err e, source, w)
  | (Ok _, w) =>
      let chunk_limit := N.min (max_stream_chunk_bytes limits) (max_allocation_bytes limits) in
      if chunk_limit =? 0 then (Err (LimitExceeded "stream chunk bytes"), source, set_failed w)
      else
        match try_u64 chunk_limit with
        | None => (Err (LimitExceeded "stream chunk bytes"), source, w)
        | Some _ =>
            match loop_pow 64 (copy_turn chunk_limit) (length, source, w) with
            | inr result => result
            | inl (_, source, w) => (Err (InvalidLength "writer payload"), source, w)
            end
        end
  end.

(** [StreamingWriter::finish] consumes the writer. *)
Definition sw_finish (manifest_id : N) : M (FinishedWriter W) :=
  do* _ := ensure_open in
  do* w := se_get in
  do* selected := se_lift (ok_or (find_entry manifest_id (sw_entries w)) (MissingManifest manifest_id)) in
  do* _ := guard (bool_decide (kind selected = Manifest_)) (MissingManifest manifest_id) in
  do* directory_payload := se_lift (encode_canonical (directory_to_cbor (sw_entries w))) in
  do* directory_len := se_lift (ok_or (try_u64 (len directory_payload)) (InvalidLength "directory payload")) in
  do* _ := guard (negb (max_metadata_bytes limits <? directory_len))
             (LimitExceeded "directory metadata bytes") in
  let directory_offset := sw_offset w in
  do* _ := write_record_header Directory 0 directory_len in
  do* _ := write_hashed directory_payload "directory payload" in
  do* directory_total_len := se_lift (ok_or (checked_add RECORD_HEADER_LEN directory_len)
                                        (InvalidLength "directory record")) in
  do* count := se_lift (ok_or (try_u64 (len (sw_entries w))) (InvalidLength "record count")) in
  do* record_count := se_lift (ok_or (checked_add count 1) (InvalidLength "record count")) in
  do* _ := guard (negb (max_records limits <? record_count)) (LimitExceeded "record count") in
  do* w := se_get in
  let footer := push_footer [] directory_offset directory_total_len manifest_id record_count
                  (hasher_finalize (sw_hasher w)) in
  do* _ := write_unhashed footer "footer" in
  do* w := se_get in
  se_ret (mkFinished (sw_inner w) (sw_offset w)).
End Methods.

(** [StreamingWriter::new]: the sink is consumed; the writer, or the error, is
    all the caller gets back. *)
Definition streaming_new {W} `{WriteSink W} (inner : W) (limits : Limits) : R (StreamingWriter W) :=
  let w := mkStreaming inner hasher_new [] ∅ 0 false in
  let header := FILE_MAGIC in
  let header := push_u32_le header EXPERIMENTAL_EPOCH in
  let header := push_u32_le header 0 in
  let header := push_u32_le header HEADER_LEN in
  let header := header ++ zeros 12 in
  match write_hashed limits header "file header" w with
  | (Ok _, w) => Ok w
  | (Err e, _) => Err e
  end.

Definition bytes_written {W} (w : StreamingWriter W) : N := sw_offset w.

(** ** [SeekableWriter<W>] *)

Definition seekable_new {W} `{WriteSink W, Seek W} (sink : W) (limits : Limits) : R (StreamingWriter W) :=
  match stream_position sink with
  | (Err _, _) => Err (Io "seekable writer position")
  | (Ok position, sink) =>
      if position =? 0 then streaming_new sink limits
      else Err (InvalidRecordOrder "seekable output must begin at offset zero")
  end.

Definition finish_and_rewind `{Sha256} {W} `{WriteSink W, Seek W} (limits : Limits) (manifest_id : N)
    (w : StreamingWriter W) : R (FinishedWriter W) :=
  match sw_finish limits manifest_id w with
  | (Err e, _) => Err e
  | (Ok finished, _) =>
      match seek_start (fw_inner finished) 0 with
      | (Err _, _) => Err (Io "rewind finalized output")
      | (Ok _, s) => Ok (mkFinished s (fw_bytes_written finished))
      end
  end.

(** [Vec<u8>] as a sink. *)
#[export] Instance vec_sink : WriteSink bytes := fun s b => (Ok tt, s ++ b).

(** The operations in between are the ones of the streaming writer. *)
Definition seekable_add_opaque {W} `{WriteSink W} (limits : Limits) (object_id : N) (payload : bytes)
    : SE (StreamingWriter W) unit :=
  sw_add_opaque limits object_id payload.

Definition seekable_add_opaque_from_reader {W} `{WriteSink W} {T} `{ReadStream T} (limits : Limits)
    (object_id length : N) (source : T) (w : StreamingWriter W) : R unit * T * StreamingWriter W :=
  sw_add_opaque_from_reader limits object_id length source w.

Definition seekable_add_manifest {W} `{WriteSink W} (limits : Limits) (object_id : N) (manifest : Manifest)
    : SE (StreamingWriter W) unit :=
  sw_add_manifest limits object_id manifest.
