(* ===== verification/StreamWriterFacts.v ===== *)
(** The streaming writer against the specification of [Image.v], over any
    sink: while it has not failed, the bytes the sink took are the body of the
    frames added; [finish] completes them to their image; a failure is final.
    On a sink that never fails, every branch of the writer is determined. *)

From Stdlib Require Import Strings.Byte Strings.String NArith ZArith Lia.
From stdpp Require Import base list gmap strings sorting.
From S2P Require Import Prelude Order Errors Format Cbor CborFacts Model Schema Digest Frame Image.
From S2P Require Import Machine Writer WriterFacts ReaderFacts Source SourceFacts.
From S2P Require Import StreamWriter.

Local Open Scope N_scope.

(** ** Sinks *)

(** A sink that remembers every byte it took. *)
Record Logging (W : Type) : Type := mkLogging { log_inner : W; log_bytes : bytes }.
Arguments mkLogging {W}.
Arguments log_inner {W}.
Arguments log_bytes {W}.

#[export] Instance logging_sink {W} `{WriteSink W} : WriteSink (Logging W) := fun s b =>
  match write_all (log_inner s) b with
  | (Ok _, w) => (Ok tt, mkLogging w (log_bytes s ++ b))
  | (Err e, w) => (Err e, mkLogging w (log_bytes s))
  end.

(** A sink whose writes succeed. *)
Class ReliableSink (W : Type) `{WriteSink W} : Prop :=
  write_all_ok s b : (write_all s b).1 = Ok tt.

#[export] Instance vec_reliable : ReliableSink bytes.
Proof. done. Qed.

#[export] Instance logging_reliable {W} `{ReliableSink W} : ReliableSink (Logging W).
Proof.
  intros [w l] b. unfold write_all, logging_sink. simpl. pose proof (write_all_ok w b) as E.
  destruct (write_all w b) as [r w']. simpl in E. by subst.
Qed.

Section Facts.
Context {sha : Sha256} {W : Type} {snk : WriteSink W} (limits : Limits).
Context (Hlim : limits_ok limits).

Abbreviation SW := (StreamingWriter (Logging W)).

(** The writer after the objects [fs]. *)
Record streams (w : SW) (fs : list Frame) : Prop := {
  ws_log : log_bytes (sw_inner w) = body fs;
  ws_hasher : sw_hasher w = body fs;
  ws_offset : sw_offset w = len (body fs);
  ws_entries : sw_entries w = frame_entries HEADER_LEN fs;
  ws_ids : sw_object_ids w = list_to_set (f_id <$> fs);
  ws_open : sw_failed w = false;
  ws_writable : Forall writable fs;
  ws_nodup : NoDup (f_id <$> fs);
  ws_payloads : Forall (fun f => len (f_payload f) <= max_payload_bytes limits) fs;
  ws_count : len fs <= max_records limits - 1;
  ws_file : len (body fs) <= max_file_bytes limits;
}.

(** The state after a successful [write_hashed] of [b]. *)
Definition after_write (s : Logging W) (b : bytes) (w : SW) : SW :=
  set_sw_hasher (sw_hasher w ++ b) (set_sw_offset (sw_offset w + len b) (set_sink s w)).

Lemma write_checked_Ok b context (w w' : SW) u :
  write_checked limits b context w = (Ok u, w') ->
  sw_offset w + len b <= max_file_bytes limits /\
  exists s, log_bytes s = log_bytes (sw_inner w) ++ b /\
    w' = set_sw_offset (sw_offset w + len b) (set_sink s w).
Proof.
  unfold write_checked. intros H. step_machine H. bool_facts. option_facts. split; [done|].
  match goal with E : sink_write_all _ _ _ = _ |- _ => unfold sink_write_all in E end.
  unfold write_all, logging_sink in *.
  destruct (write_all (log_inner (sw_inner w)) b) as [[] s]; [|done]; simplify_eq. eexists. split; [|reflexivity]. done.
Qed.

Lemma write_unhashed_Ok b context (w w' : SW) u :
  write_unhashed limits b context w = (Ok u, w') ->
  sw_offset w + len b <= max_file_bytes limits /\
  exists s, log_bytes s = log_bytes (sw_inner w) ++ b /\
    w' = set_sw_offset (sw_offset w + len b) (set_sink s w).
Proof. exact (write_checked_Ok b context w w' u). Qed.

Lemma write_hashed_Ok b context (w w' : SW) u :
  write_hashed limits b context w = (Ok u, w') ->
  sw_offset w + len b <= max_file_bytes limits /\
  exists s, log_bytes s = log_bytes (sw_inner w) ++ b /\ w' = after_write s b w.
Proof.
  unfold write_hashed. intros H. step_machine H.
  match goal with E : write_checked _ _ _ _ = _ |- _ => apply write_checked_Ok in E as (Hf & s & Hs & ->) end.
  split; [done|]. by exists s.
Qed.

Lemma or_fail_cases {A} (m : SE SW A) (w : SW) :
  match or_fail m w with
  | (Ok a, w') => m w = (Ok a, w')
  | (Err e, w') => sw_failed w' = true /\ exists w1, m w = (Err e, w1) /\ w' = set_failed w1
  end.
Proof. unfold or_fail. destruct (m w) as [[a|e] w1]; [done|]. split; [done|]. by eexists. Qed.

Lemma write_record_header_bytes kind i n :
  write_record_header (W := Logging W) limits kind i n
  = write_hashed limits (record_header kind i n) "record header".
Proof. unfold write_record_header, push_u64_le, push_u32_le, push_u16_le, record_header. by rewrite <- !app_assoc. Qed.

(** Inside the record of [f], of which [n] bytes were declared. *)
Record opened (w : SW) (fs : list Frame) (f : Frame) (n : N) : Prop := {
  wo_log : log_bytes (sw_inner w) = body fs ++ open_bytes f n;
  wo_hasher : sw_hasher w = body fs ++ open_bytes f n;
  wo_offset : sw_offset w = len (body fs ++ open_bytes f n);
  wo_entries : sw_entries w = frame_entries HEADER_LEN fs ++ [mkEntry (f_id f) (f_kind f) (len (body fs)) n n];
  wo_ids : sw_object_ids w = list_to_set (f_id <$> (fs ++ [f]));
  wo_open : sw_failed w = false;
  wo_writable : Forall writable (fs ++ [f]);
  wo_nodup : NoDup (f_id <$> (fs ++ [f]));
  wo_payloads : Forall (fun f => len (f_payload f) <= max_payload_bytes limits) fs;
  wo_payload : n <= max_payload_bytes limits;
  wo_count : len (fs ++ [f]) <= max_records limits - 1;
  wo_file : len (body fs ++ open_bytes f n) <= max_file_bytes limits;
}.

Lemma opened_done w fs f : opened w fs f (len (f_payload f)) -> streams w (fs ++ [f]).
Proof.
  intros []. rewrite open_bytes_complete, <- body_snoc in *.
  split; try done.
  - rewrite frame_entries_snoc, <- body_len. done.
  - apply Forall_app. split; [done|]. by apply Forall_singleton.
Qed.

(** Continuing the payload of the open record. *)
Lemma opened_more b context w fs f n :
  opened w fs f n ->
  match or_fail (write_hashed limits b context) w with
  | (Ok _, w') => opened w' fs (grown f b) n
  | (Err _, w') => sw_failed w' = true
  end.
Proof.
  intros []. pose proof (or_fail_cases (write_hashed limits b context) w) as Hc.
  destruct (or_fail _ w) as [[u|e] w']; [|by destruct Hc].
  apply write_hashed_Ok in Hc as (Hf & s & Hs & ->).
  assert (Hob : body fs ++ open_bytes (grown f b) n = (body fs ++ open_bytes f n) ++ b).
  { unfold grown. by rewrite open_bytes_more, app_assoc. }
  assert (Hids : forall l, f_id <$> (l ++ [grown f b]) = f_id <$> (l ++ [f])).
  { intros l. by rewrite !fmap_app. }
  split; try done; rewrite ?Hob, ?Hids; try done.
  - by rewrite <- wo_log0.
  - by rewrite <- wo_hasher0.
  - by rewrite len_app, <- wo_offset0.
  - rewrite Forall_app in *. destruct wo_writable0 as [? Hw]. split; [done|].
    rewrite Forall_singleton in *. exact Hw.
  - rewrite len_app in *. done.
  - by rewrite len_app, <- wo_offset0.
Qed.

Lemma begin_record_cases k i n w fs :
  streams w fs ->
  match begin_record limits k i n w with
  | (Ok _, w') => opened w' fs (mkFrame k i []) n
  | (Err _, w') => sw_failed w' = true \/ w' = w
  end.
Proof.
  intros Hw. destruct (begin_record limits k i n w) as [[u|e] w'] eqn:Hb.
  - unfold begin_record, ensure_open in Hb. step_machine Hb. bool_facts. option_facts.
    match goal with E : try_insert _ _ = Some _ |- _ => apply try_insert_Some in E as [Hfr ->] end.
    rewrite (ws_ids _ _ Hw), elem_of_list_to_set in Hfr.
    match goal with E : or_fail ?m ?w1 = (Ok _, _) |- _ =>
      pose proof (or_fail_cases m w1) as Hc; rewrite E in Hc; clear E end.
    rewrite write_record_header_bytes in Hc.
    apply write_hashed_Ok in Hc as (Hf & s & Hs & ->).
    destruct Hw as [L1 L2 L3 L4 L5 L6 L7 L8 L9 L10 L11].
    assert (Hob : open_bytes (mkFrame k i []) n = record_header k i n) by apply app_nil_r.
    change (sw_offset (set_object_ids _ w)) with (sw_offset w) in *.
    rewrite L3 in *.
    match goal with E : _ <> Directory |- _ => rename E into Hk end.
    match goal with E : i <> 0 |- _ => rename E into Hi end.
    assert (Hwr : Forall writable (fs ++ [mkFrame k i []])) by (apply Forall_app; split; [done|by apply Forall_singleton]).
    split; rewrite ?Hob; try done.
    + by rewrite <- L1.
    + by rewrite <- L2.
    + by rewrite len_app, <- L3.
    + cbn [sw_entries set_entries after_write set_sw_hasher set_sw_offset set_sink set_object_ids]. by rewrite L4.
    + cbn [sw_object_ids set_entries after_write set_sw_hasher set_sw_offset set_sink set_object_ids].
      rewrite L5, fmap_app, list_to_set_app_L. csimpl. set_solver.
    + rewrite fmap_app. apply NoDup_app. csimpl. split_and!; [done|set_solver|apply NoDup_singleton].
    + rewrite len_app, len_cons, len_nil. rewrite L4, frame_entries_len in *. lia.
    + rewrite len_app. done.
  - unfold begin_record, ensure_open, se_bind, se_get, guard, se_lift, se_modify in Hb.
    repeat match type of Hb with
    | context [if ?c then Ok tt else Err _] => destruct c; [|right; congruence]
    | context [ok_or ?o _] => destruct o; cbn [ok_or] in Hb; [|right; congruence]
    end.
    match type of Hb with context [or_fail ?m ?w1] =>
      pose proof (or_fail_cases m w1) as Hc; destruct (or_fail m w1) as [[]] end; [done|].
    left. injection Hb as _ <-. by destruct Hc.
Qed.

(** Adding a record: the writer holds one more frame, or it has failed, or
    nothing has changed. *)
Definition write_record k i p context : SE SW unit :=
  do* _ := begin_record limits k i (len p) in
  or_fail (write_hashed limits p context).

Lemma write_record_cases k i p context w fs :
  streams w fs ->
  match write_record k i p context w with
  | (Ok _, w') => streams w' (fs ++ [mkFrame k i p])
  | (Err _, w') => sw_failed w' = true \/ w' = w
  end.
Proof.
  intros Hw. unfold write_record, se_bind.
  pose proof (begin_record_cases k i (len p) w fs Hw) as Hb.
  destruct (begin_record limits k i (len p) w) as [[u|e] w1]; [|done].
  pose proof (opened_more p context w1 fs _ _ Hb) as Hm.
  destruct (or_fail _ w1) as [[u'|e] w2]; [|by left]. by apply opened_done.
Qed.

Lemma sw_add_opaque_eq i p :
  len p <= U64_MAX -> sw_add_opaque (W := Logging W) limits i p = write_record Opaque i p "opaque payload".
Proof. intros Hp. unfold sw_add_opaque, write_record, se_bind at 1, se_lift. by rewrite try_u64_fits. Qed.

Lemma sw_add_manifest_cases i m w fs :
  streams w fs ->
  match sw_add_manifest limits i m w with
  | (Ok _, w') => shape_ok m /\ encodes (manifest_to_cbor m) /\ streams w' (fs ++ [manifest_frame i m])
  | (Err _, w') => sw_failed w' = true \/ w' = w
  end.
Proof.
  intros Hw. unfold sw_add_manifest, se_bind, se_lift.
  destruct (validate_shape m) as [[]|] eqn:Hs; [|by right]. apply validate_shape_Ok in Hs.
  destruct (encode_canonical (manifest_to_cbor m)) as [p|] eqn:He; [|by right].
  destruct (enc_Ok _ _ He) as [Hp Hen].
  unfold try_u64. destruct (len p <=? U64_MAX); cbn [ok_or]; [|by right].
  pose proof (write_record_cases Manifest_ i p "manifest payload" w fs Hw) as Hr.
  unfold write_record, se_bind in Hr. destruct (begin_record _ _ _ _ w) as [[u|e] w1]; [|done].
  destruct (or_fail _ w1) as [[u'|e] w2]; [|done]. unfold manifest_frame. by rewrite Hp.
Qed.

Lemma sw_add_opaque_cases i p w fs :
  streams w fs ->
  match sw_add_opaque limits i p w with
  | (Ok _, w') => streams w' (fs ++ [mkFrame Opaque i p])
  | (Err _, w') => sw_failed w' = true \/ w' = w
  end.
Proof.
  intros Hw. destruct (N.leb_spec (len p) U64_MAX) as [Hp|Hp].
  - rewrite sw_add_opaque_eq by done. by apply write_record_cases.
  - unfold sw_add_opaque, se_bind, se_lift, try_u64. rewrite (proj2 (N.leb_gt _ _) Hp). by right.
Qed.

(** *** Copying a payload from a reader *)
Section FromReader.
Context {T : Type} {rst : ReadStream T} {rsto : ReadStreamOk T}.
Context (fs : list Frame) (i n : N) (before : bytes) (Hn : n <= U64_MAX) (chunk_limit : N) (Hc : 0 < chunk_limit).

Definition copying (st : N * Recorded T * SW) : Prop :=
  let '(remaining, source, w) := st in
  exists q, opened w fs (mkFrame Opaque i q) n /\ len q + remaining = n /\ rec_bytes source = before ++ q.

Definition copied (res : R unit * Recorded T * SW) : Prop :=
  let '(r, source, w) := res in
  match r with
  | Ok _ => exists p, len p = n /\ rec_bytes source = before ++ p /\ streams w (fs ++ [mkFrame Opaque i p])
  | Err _ => sw_failed w = true
  end.

Lemma copy_turn_cases st :
  copying st ->
  match copy_turn limits chunk_limit st with
  | inl st' => copying st' /\ U64_MAX - st.1.1 < U64_MAX - st'.1.1
  | inr res => copied res
  end.
Proof.
  destruct st as [[rem source] w]. intros (q & Ho & Hq & Hr). unfold copy_turn.
  destruct (N.ltb_spec 0 rem) as [Hpos|Hz].
  - rewrite try_u64_fits by lia.
    destruct (stream_read_exact source (N.min rem chunk_limit)) as [[chunk|e] source'] eqn:Hs;
      [|by destruct e].
    pose proof (recorded_exact _ _ _ _ Hs) as Hrec. apply stream_read_exact_len in Hs.
    pose proof (opened_more chunk "opaque payload" w fs _ _ Ho) as Hm.
    destruct (or_fail _ w) as [[u|e] w']; [|done].
    rewrite (proj2 (checked_sub_Some _ _ (rem - N.min rem chunk_limit))) by lia.
    split; [|simpl; lia]. exists (q ++ chunk). split_and!; [done|rewrite len_app; lia|].
    by rewrite Hrec, Hr, app_assoc.
  - assert (Hlq : len q = n) by lia. exists q. split_and!; [done|done|].
    apply opened_done. simpl. by rewrite Hlq.
Qed.

(** The loop of [add_opaque_from_reader] ends, with the record complete or
    the writer failed. *)
Lemma copy_loop st :
  copying st -> exists res, loop_pow 64 (copy_turn limits chunk_limit) st = inr res /\ copied res.
Proof.
  intros Hst.
  assert (Hinv : forall s, copying s -> match copy_turn limits chunk_limit s with
    | inl s' => copying s' | inr a => copied a end).
  { intros s Hs. pose proof (copy_turn_cases s Hs) as Ht. destruct (copy_turn _ _ s); [apply Ht|done]. }
  pose proof (loop_pow_inv copying copied 64 _ st Hinv Hst) as Hres.
  destruct (loop_pow 64 _ st) as [st'|res] eqn:E; [|by exists res]. exfalso.
  apply (loop_pow_counter_inv copying) with (c := fun st => U64_MAX - st.1.1) in E as [_ E]; [| |done].
  - change (2 ^ N.of_nat 64) with (U64_MAX + 1) in E. lia.
  - intros s s' Hs Hb. pose proof (copy_turn_cases s Hs) as Ht. by rewrite Hb in Ht.
Qed.
End FromReader.

Lemma sw_from_reader_cases {T} `{ReadStreamOk T} i n (source : Recorded T) w fs :
  n <= U64_MAX -> streams w fs ->
  let '(r, source', w') := sw_add_opaque_from_reader limits i n source w in
  match r with
  | Ok _ => exists p, len p = n /\ rec_bytes source' = rec_bytes source ++ p /\
      streams w' (fs ++ [mkFrame Opaque i p])
  | Err _ => sw_failed w' = true \/ w' = w
  end.
Proof.
  intros Hn Hw. unfold sw_add_opaque_from_reader.
  pose proof (begin_record_cases Opaque i n w fs Hw) as Hb.
  destruct (begin_record limits Opaque i n w) as [[u|e] w1]; [|done].
  destruct (N.eqb_spec (N.min (max_stream_chunk_bytes limits) (max_allocation_bytes limits)) 0) as [Hz|Hz];
    [by left|].
  assert (max_allocation_bytes limits <= U64_MAX) by (apply (limits_ok_field limits); [done|set_solver]).
  rewrite try_u64_fits by lia.
  destruct (copy_loop fs i n (rec_bytes source) Hn
    (N.min (max_stream_chunk_bytes limits) (max_allocation_bytes limits)) ltac:(lia) (n, source, w1))
    as (res & E & Hres).
  { exists []. by rewrite app_nil_r. }
  rewrite E. destruct res as [[[u'|e] source'] w']; [done|by left].
Qed.

(** *** Finishing *)

(** What the directory and the footer must fit in. *)
Definition finish_fits (fs : list Frame) : Prop :=
  len (enc (directory_value fs)) <= max_metadata_bytes limits /\
  len (committed fs) + FOOTER_LEN <= max_file_bytes limits /\ len fs + 1 <= max_records limits.

Lemma committed_parts fs :
  (body fs ++ record_header Directory 0 (len (enc (directory_value fs)))) ++ enc (directory_value fs)
  = committed fs.
Proof. unfold committed, frame_bytes, directory_frame. cbn [f_kind f_id f_payload]. by rewrite <- app_assoc. Qed.

Lemma footer_parts fs mid :
  push_footer [] (len (body fs)) (RECORD_HEADER_LEN + len (enc (directory_value fs))) mid (len fs + 1)
    (sha256 (committed fs)) = footer_bytes (image_footer fs mid).
Proof. rewrite push_footer_bytes, app_nil_l. reflexivity. Qed.

Lemma sw_finish_Ok {shaok : Sha256Ok sha} mid w fs fw w' :
  streams w fs -> sw_finish limits mid w = (Ok fw, w') ->
  is_manifest fs mid = true /\ finish_fits fs /\
  log_bytes (fw_inner fw) = image fs mid /\ fw_bytes_written fw = len (image fs mid).
Proof.
  intros Hw H. pose proof Hw as [L1 L2 L3 L4 L5 L6 L7 L8 L9 L10 L11].
  unfold sw_finish, ensure_open in H. step_machine H. bool_facts. option_facts.
  pose proof (find_entry_spec fs mid L8) as Hf. rewrite <- L4 in Hf.
  match goal with E : find_entry _ _ = Some ?e |- _ => rewrite E in Hf end.
  match goal with E : kind _ = Manifest_ |- _ => rewrite bool_decide_true in Hf by done end.
  match goal with E : encode_canonical _ = Ok ?p |- _ => destruct (enc_Ok _ _ E) as [Hp _]; clear E end.
  rewrite L4 in Hp. fold (directory_value fs) in Hp. subst.
  match goal with E : write_record_header _ _ _ _ _ = _ |- _ => rewrite write_record_header_bytes in E;
    apply write_hashed_Ok in E as (F1 & s1 & S1 & ->) end.
  match goal with E : write_hashed _ _ _ _ = _ |- _ => apply write_hashed_Ok in E as (F2 & s2 & S2 & ->) end.
  match goal with E : write_unhashed _ _ _ _ = _ |- _ => apply write_unhashed_Ok in E as (F3 & s3 & S3 & ->) end.
  cbn [sw_inner sw_offset sw_hasher sw_entries set_sw_offset set_sink set_sw_hasher after_write fw_inner fw_bytes_written] in *.
  set (d := enc (directory_value fs)) in *.
  pose proof (committed_parts fs) as Hcom. fold d in Hcom.
  unfold hasher_finalize in *. rewrite L2, Hcom in *.
  assert (Hlen : sw_offset w + len (record_header Directory 0 (len d)) + len d = len (committed fs)).
  { rewrite <- Hcom, !len_app, <- L3. reflexivity. }
  assert (Hft : push_footer [] (sw_offset w) (RECORD_HEADER_LEN + len d) mid
    (len (sw_entries w) + 1) (sha256 (committed fs)) = footer_bytes (image_footer fs mid)).
  { rewrite L3, L4, frame_entries_len. apply footer_parts. }
  rewrite Hft in *. rewrite Hlen in *.
  assert (H80 : len (footer_bytes (image_footer fs mid)) = FOOTER_LEN) by (apply footer_bytes_len, sha256_len).
  rewrite H80 in *. rewrite L4, frame_entries_len in *.
  split; [done|]. split; [unfold finish_fits; fold d; by split|]. split.
  - rewrite S3, S2, S1, L1, Hcom. reflexivity.
  - by rewrite image_len.
Qed.

Lemma streaming_new_Ok (inner : W) w :
  streaming_new (mkLogging inner []) limits = Ok w -> streams w [].
Proof.
  unfold streaming_new. intros H.
  match type of H with context [write_hashed limits ?b ?c ?w0] =>
    destruct (write_hashed limits b c w0) as [[u|e] w1] eqn:E end; [|done].
  injection H as <-. apply write_hashed_Ok in E as (Hf & s & Hs & ->). cbn [sw_inner] in Hs.
  assert (Hb : push_u32_le (push_u32_le (push_u32_le FILE_MAGIC EXPERIMENTAL_EPOCH) 0) HEADER_LEN ++ zeros 12
    = body []) by reflexivity.
  rewrite Hb in *. split; try done; try constructor; try apply N.le_0_l.
Qed.

(** *** Failure is final *)

Lemma failed_record k i n (w : SW) :
  sw_failed w = true ->
  begin_record limits k i n w = (Err (InvalidRecordOrder "writer used after failure"), w).
Proof. intros Hf. unfold begin_record, ensure_open, se_bind, se_get, guard, se_lift. by rewrite Hf. Qed.

Lemma failed_finish mid (w : SW) :
  sw_failed w = true ->
  sw_finish limits mid w = (Err (InvalidRecordOrder "writer used after failure"), w).
Proof. intros Hf. unfold sw_finish, ensure_open, se_bind, se_get, guard, se_lift. by rewrite Hf. Qed.

(** ** Sinks that never fail *)

Section Reliable.
Context {rel : ReliableSink W}.

Lemma write_checked_run b context (w : SW) :
  sw_offset w + len b <= max_file_bytes limits ->
  exists w', write_checked limits b context w = (Ok tt, w').
Proof.
  intros Hf. assert (max_file_bytes limits <= U64_MAX) by (apply (limits_ok_field limits); [done|set_solver]).
  unfold write_checked, se_bind, se_get, guard, se_lift.
  rewrite try_u64_fits by lia. cbn [ok_or]. rewrite checked_add_fits by lia. cbn [ok_or].
  rewrite (proj2 (N.ltb_ge _ _)) by done. cbn [negb]. unfold sink_write_all.
  pose proof (write_all_ok (sw_inner w) b) as E. destruct (write_all (sw_inner w) b) as [r s].
  simpl in E. subst r. by eexists.
Qed.

Lemma write_unhashed_run b context (w : SW) :
  sw_offset w + len b <= max_file_bytes limits ->
  exists w', write_unhashed limits b context w = (Ok tt, w').
Proof. exact (write_checked_run b context w). Qed.

Lemma write_hashed_run b context (w : SW) :
  sw_offset w + len b <= max_file_bytes limits ->
  exists w', write_hashed limits b context w = (Ok tt, w').
Proof.
  intros Hf. destruct (write_checked_run b context w Hf) as [w' E].
  unfold write_hashed, se_bind. rewrite E. by eexists.
Qed.

Lemma or_fail_run {A} (m : SE SW A) w a w' : m w = (Ok a, w') -> or_fail m w = (Ok a, w').
Proof. intros E. unfold or_fail. by rewrite E. Qed.

(** What adding a frame to [fs] takes. *)
Record addable (fs : list Frame) (f : Frame) : Prop := {
  ad_writable : writable f;
  ad_fresh : f_id f ∉ f_id <$> fs;
  ad_payload : len (f_payload f) <= max_payload_bytes limits;
  ad_count : len fs < max_records limits - 1;
  ad_file : len (body (fs ++ [f])) <= max_file_bytes limits;
}.

Lemma write_record_run k i p context w fs :
  streams w fs -> addable fs (mkFrame k i p) ->
  exists w', write_record k i p context w = (Ok tt, w').
Proof.
  intros Hw [[Hk Hi] Hfr Hp Hc Hf]. simpl in Hk, Hi, Hfr, Hp.
  rewrite body_snoc, len_app, frame_bytes_len in Hf. unfold frame_len in Hf. cbn [f_payload] in Hf.
  assert (Hr : exists w1, begin_record limits k i (len p) w = (Ok tt, w1)).
  { unfold begin_record, ensure_open, se_bind, se_get, guard, se_lift, se_modify.
    rewrite (ws_open _ _ Hw). cbn [negb]. rewrite bool_decide_false by done. cbn [negb].
    rewrite (proj2 (N.eqb_neq _ _)) by done. cbn [negb].
    rewrite (proj2 (N.ltb_ge _ _)) by done. cbn [negb].
    assert (max_records limits <= U64_MAX) by (apply (limits_ok_field limits); [done|set_solver]).
    rewrite (ws_entries _ _ Hw), frame_entries_len, try_u64_fits by lia. cbn [ok_or].
    rewrite (proj2 (N.leb_gt _ _)) by done. cbn [negb].
    rewrite (proj2 (try_insert_Some i _ ({[i]} ∪ sw_object_ids w))).
    2:{ split; [|done]. by rewrite (ws_ids _ _ Hw), elem_of_list_to_set. }
    cbn [ok_or]. rewrite write_record_header_bytes.
    match goal with |- context [or_fail ?m ?w1] => assert (E : exists w2, m w1 = (Ok tt, w2)) end.
    { apply write_hashed_run. cbn [sw_offset set_object_ids]. rewrite (ws_offset _ _ Hw), record_header_len.
      unfold RECORD_HEADER_LEN in *. lia. }
    destruct E as [w2 E]. rewrite (or_fail_run _ _ _ _ E). by eexists. }
  destruct Hr as [w1 Hr]. unfold write_record, se_bind. rewrite Hr.
  pose proof (begin_record_cases k i (len p) w fs Hw) as Hb. rewrite Hr in Hb.
  destruct (write_hashed_run p context w1) as [w2 E].
  { rewrite (wo_offset _ _ _ _ Hb), len_app.
    replace (open_bytes (mkFrame k i []) (len p)) with (record_header k i (len p)) by (symmetry; apply app_nil_r).
    rewrite record_header_len.
    unfold RECORD_HEADER_LEN in *. lia. }
  exists w2. by apply or_fail_run.
Qed.

Lemma sw_finish_run {shaok : Sha256Ok sha} mid w fs :
  streams w fs -> is_manifest fs mid = true -> finish_fits fs ->
  exists fw w', sw_finish limits mid w = (Ok fw, w').
Proof.
  intros Hw Hm (Hdm & Hff & Hcm). pose proof Hw as [L1 L2 L3 L4 L5 L6 L7 L8 L9 L10 L11].
  assert (max_file_bytes limits <= U64_MAX) by (apply (limits_ok_field limits); [done|set_solver]).
  assert (max_records limits <= U64_MAX) by (apply (limits_ok_field limits); [done|set_solver]).
  pose proof (find_entry_spec fs mid L8) as Hf. rewrite <- L4, Hm in Hf.
  unfold sw_finish, ensure_open, se_bind, se_get, guard, se_lift, se_ret. rewrite L6. cbn [negb].
  destruct (find_entry mid (sw_entries w)) as [e|]; [|done]. cbn [ok_or]. rewrite Hf.
  rewrite L4. fold (directory_value fs).
  rewrite (encodes_enc _ (encodes_directory_value fs ltac:(lia))).
  set (d := enc (directory_value fs)) in *.
  assert (Hcl : len (committed fs) = len (body fs) + 40 + len d).
  { rewrite <- committed_parts. fold d. by rewrite !len_app, record_header_len. }
  rewrite try_u64_fits by lia. cbn [ok_or]. rewrite (proj2 (N.ltb_ge _ _)) by done. cbn [negb].
  rewrite write_record_header_bytes.
  destruct (write_hashed_run (record_header Directory 0 (len d)) "record header" w) as [w1 E1].
  { rewrite L3, record_header_len. lia. }
  rewrite E1. apply write_hashed_Ok in E1 as (_ & s1 & S1 & ->).
  destruct (write_hashed_run d "directory payload"
    (after_write s1 (record_header Directory 0 (len d)) w)) as [w2 E2].
  { cbn [sw_offset after_write set_sw_hasher set_sw_offset set_sink]. rewrite L3, record_header_len. lia. }
  rewrite E2. apply write_hashed_Ok in E2 as (_ & s2 & S2 & ->).
  rewrite checked_add_fits by (unfold RECORD_HEADER_LEN; lia). cbn [ok_or].
  cbn [sw_entries after_write set_sw_hasher set_sw_offset set_sink].
  rewrite frame_entries_len, try_u64_fits by lia. cbn [ok_or].
  rewrite checked_add_fits by lia. cbn [ok_or]. rewrite (proj2 (N.ltb_ge _ _)) by done. cbn [negb].
  match goal with |- context [write_unhashed limits ?b ?c ?w0] =>
    destruct (write_unhashed_run b c w0) as [w3 E3] end.
  { rewrite push_footer_bytes, app_nil_l, footer_bytes_len by apply sha256_len.
    cbn [sw_offset after_write set_sw_hasher set_sw_offset set_sink]. rewrite L3, record_header_len.
    unfold FOOTER_LEN in Hff. lia. }
  rewrite E3. by eexists _, _.
Qed.

Lemma streaming_new_run (inner : W) :
  HEADER_LEN <= max_file_bytes limits -> exists w, streaming_new (mkLogging inner []) limits = Ok w.
Proof.
  intros Hf. unfold streaming_new.
  match goal with |- context [write_hashed limits ?b ?c ?w0] =>
    destruct (write_hashed_run b c w0) as [w1 E] end; [exact Hf|].
  rewrite E. by eexists.
Qed.
End Reliable.
End Facts.

(** ** Whole files *)

Definition sw_run_op {W} `{WriteSink W} (limits : Limits) (op : WriterOp) : SE (StreamingWriter W) unit :=
  match op with
  | AddOpaque i p => sw_add_opaque limits i p
  | AddManifest i m => sw_add_manifest limits i m
  end.

Fixpoint sw_run_ops {W} `{WriteSink W} (limits : Limits) (ops : list WriterOp) : SE (StreamingWriter W) unit :=
  match ops with
  | [] => se_ret tt
  | op :: ops => do* _ := sw_run_op limits op in sw_run_ops limits ops
  end.

Definition sw_write_file `{Sha256} {W} `{WriteSink W} (limits : Limits) (inner : W) (ops : list WriterOp)
    (mid : N) : R (FinishedWriter W) :=
  let* w := streaming_new inner limits in
  match sw_run_ops limits ops w with
  | (Ok _, w) => (sw_finish limits mid w).1
  | (Err e, _) => Err e
  end.

(** What the limits of the streaming writer admit. *)
Definition sw_fits (limits : Limits) (fs : list Frame) : Prop :=
  Forall (fun f => len (f_payload f) <= max_payload_bytes limits) fs /\ finish_fits limits fs.

Section Files.
Context {sha : Sha256} {shaok : Sha256Ok sha} {W : Type} {snk : WriteSink W}.
Context (limits : Limits) (Hlim : limits_ok limits).

Abbreviation SW := (StreamingWriter (Logging W)).

Lemma sw_run_op_cases op (w : SW) fs :
  streams limits w fs ->
  match sw_run_op limits op w with
  | (Ok _, w') => op_ok op /\ streams limits w' (fs ++ [op_frame op])
  | (Err _, w') => sw_failed w' = true \/ w' = w
  end.
Proof.
  intros Hw. destruct op as [i p|i m]; simpl.
  - pose proof (sw_add_opaque_cases limits Hlim i p w fs Hw) as Hc. by destruct (sw_add_opaque _ _ _ _) as [[]].
  - pose proof (sw_add_manifest_cases limits Hlim i m w fs Hw) as Hc.
    destruct (sw_add_manifest _ _ _ _) as [[] w']; [|done]. by destruct Hc as (H1 & H2 & H3).
Qed.

Lemma sw_run_ops_Ok ops (w w' : SW) fs u :
  streams limits w fs -> sw_run_ops limits ops w = (Ok u, w') ->
  Forall op_ok ops /\ streams limits w' (fs ++ (op_frame <$> ops)).
Proof.
  revert w fs. induction ops as [|op ops IH]; csimpl; intros w fs Hw Hr.
  - injection Hr as _ <-. by rewrite app_nil_r.
  - apply se_bind_Ok in Hr as (u1 & w1 & H1 & H2). pose proof (sw_run_op_cases op w fs Hw) as Hc.
    rewrite H1 in Hc. destruct Hc as [Hok Hw1]. apply (IH w1 _ Hw1) in H2 as [H2 H3].
    rewrite cons_middle, app_assoc. split; [by constructor|done].
Qed.

Lemma streams_script (w : SW) ops :
  Forall op_ok ops -> streams limits w (op_frame <$> ops) -> script_ok [] ops.
Proof.
  intros Hok Hw. split_and!; [done| |apply (ws_nodup _ _ _ Hw)].
  eapply Forall_impl; [apply (ws_writable _ _ _ Hw)|]. by intros f [_ ?].
Qed.

(** Whatever the sink, a finished file is the image of the script. *)
Lemma sw_write_file_sound (inner : W) ops mid fw :
  sw_write_file limits (mkLogging inner []) ops mid = Ok fw ->
  script_ok [] ops /\ is_manifest (op_frame <$> ops) mid = true /\ sw_fits limits (op_frame <$> ops) /\
  log_bytes (fw_inner fw) = image (op_frame <$> ops) mid /\
  fw_bytes_written fw = len (image (op_frame <$> ops) mid).
Proof.
  unfold sw_write_file. intros Hr. destruct (streaming_new _ limits) as [w|] eqn:En; [|done].
  apply streaming_new_Ok in En. destruct (sw_run_ops limits ops w) as [[u|] w1] eqn:Eo; [|done].
  apply (sw_run_ops_Ok ops w w1 [] u En) in Eo as [Hok Hw1].
  destruct (sw_finish limits mid w1) as [r w2] eqn:Ef. simpl in Hr. subst r.
  apply (sw_finish_Ok limits mid w1 _ fw w2 Hw1) in Ef as (H1 & H2 & H3 & H4).
  split_and!; try done; [by eapply streams_script|split; [apply (ws_payloads _ _ _ Hw1)|done]].
Qed.

Context {rel : ReliableSink W}.

Lemma body_le fs gs : len (body fs) <= len (body (fs ++ gs)).
Proof. rewrite !body_len, frames_bytes_app, len_app. lia. Qed.

Lemma sw_run_op_run op (w : SW) fs :
  streams limits w fs -> op_ok op -> addable limits fs (op_frame op) ->
  exists w', sw_run_op limits op w = (Ok tt, w').
Proof.
  intros Hw Hok Ha.
  assert (max_payload_bytes limits <= U64_MAX) by (apply (limits_ok_field limits); [done|set_solver]).
  pose proof (ad_payload _ _ _ Ha) as Hp.
  destruct op as [i p|i m]; simpl in *.
  - rewrite sw_add_opaque_eq by lia. by eapply write_record_run.
  - destruct Hok as [Hs He]. unfold sw_add_manifest, se_bind at 1 2 3, se_lift.
    rewrite (proj2 (validate_shape_Ok m) Hs), (encodes_enc _ He). rewrite try_u64_fits by lia. cbn [ok_or].
    by eapply (write_record_run limits Hlim Manifest_ i (enc (manifest_to_cbor m)) "manifest payload").
Qed.

Lemma sw_run_ops_run ops (w : SW) fs :
  streams limits w fs -> script_ok fs ops ->
  Forall (fun f => len (f_payload f) <= max_payload_bytes limits) (op_frame <$> ops) ->
  len (fs ++ (op_frame <$> ops)) + 1 <= max_records limits ->
  len (body (fs ++ (op_frame <$> ops))) <= max_file_bytes limits ->
  exists w', sw_run_ops limits ops w = (Ok tt, w').
Proof.
  revert w fs. induction ops as [|op ops IH]; csimpl; intros w fs Hw (S1 & S2 & S3) Hp Hc Hf.
  - by exists w.
  - csimpl in *. rewrite cons_middle, app_assoc in S3, Hc, Hf. apply Forall_cons in S1 as [S1 S1'], S2 as [S2 S2'], Hp as [Hp Hp'].
    assert (Hnd : NoDup (f_id <$> fs ++ [op_frame op])).
    { rewrite fmap_app in S3. by apply NoDup_app in S3 as [? _]. }
    destruct (sw_run_op_run op w fs Hw S1) as [w1 E1].
    { split; try done.
      - split; [by destruct op|done].
      - rewrite fmap_app in Hnd. apply NoDup_app in Hnd as (_ & Hd & _). intros Hin. apply (Hd _ Hin). csimpl. set_solver.
      - rewrite !len_app, len_cons in Hc. lia.
      - etrans; [apply body_le|exact Hf]. }
    pose proof (sw_run_op_cases op w fs Hw) as Hcs. rewrite E1 in Hcs. destruct Hcs as [_ Hw1].
    destruct (IH w1 _ Hw1) as [w2 E2]; [by split_and!|done|done|done|].
    exists w2. unfold se_bind. by rewrite E1.
Qed.

(** On a sink that never fails, the streaming writer completes exactly the
    well-formed scripts within its limits. *)
Lemma sw_write_file_complete (inner : W) ops mid :
  script_ok [] ops -> is_manifest (op_frame <$> ops) mid = true -> sw_fits limits (op_frame <$> ops) ->
  exists fw, sw_write_file limits (mkLogging inner []) ops mid = Ok fw.
Proof.
  intros Hs Hm [Hp Hff]. pose proof Hff as (_ & Hfile & Hcount).
  rewrite committed_body_len in Hfile.
  assert (Hb : len (body (op_frame <$> ops)) <= max_file_bytes limits) by lia.
  unfold sw_write_file. destruct (streaming_new_run limits Hlim inner) as [w En].
  { etrans; [|exact Hb]. rewrite body_len. lia. }
  rewrite En. apply streaming_new_Ok in En.
  destruct (sw_run_ops_run ops w [] En Hs Hp Hcount Hb) as [w1 E1]. rewrite E1.
  apply (sw_run_ops_Ok ops w w1 [] tt En) in E1 as [_ Hw1].
  destruct (sw_finish_run limits Hlim mid w1 _ Hw1 Hm Hff) as (fw & w2 & Ef). rewrite Ef. by exists fw.
Qed.
End Files.
