(* ===== verification/Unique.v ===== *)
(** Unique reading: a byte string is the image of at most one document. *)

From Stdlib Require Import Strings.Byte Strings.String NArith ZArith Lia.
From stdpp Require Import base list gmap strings sorting.
From S2P Require Import Prelude Order Errors Format Cbor Model Schema Digest Frame Image Reader.
From S2P Require Import ReaderFacts ValidateFacts.

Local Open Scope N_scope.

Lemma frame_header_of limits f x :
  frame_ok limits f -> limits_ok limits -> len (frame_bytes f ++ x) <= U64_MAX ->
  record_fields (frame_bytes f ++ x) 0 limits
  = Ok (mkHeader (f_kind f) (f_id f) (len (f_payload f)) (len (f_payload f))).
Proof.
  intros (_ & Hi & Hp) Hl Hu.
  assert (max_payload_bytes limits <= U64_MAX) by (apply (limits_ok_field limits); [done|set_solver]).
  rewrite len_app, frame_bytes_len in Hu. unfold frame_len in Hu.
  apply record_fields_Ok; [by rewrite len_app, frame_bytes_len; unfold frame_len|].
  split_and!.
  - rewrite len_app, frame_bytes_len. unfold frame_len. lia.
  - unfold header_fits. cbn [h_object_id h_stored_len h_logical_len h_kind]. split_and!; [lia|done|done].
  - done.
  - unfold frame_bytes. rewrite <- app_assoc. cbn [h_object_id h_stored_len h_kind].
    by apply (slice_app []).
Qed.

(** The encoding of frames is prefix-free. *)
Lemma frame_bytes_prefix_free limits f g x y :
  limits_ok limits -> frame_ok limits f -> frame_ok limits g -> len (frame_bytes f ++ x) <= U64_MAX ->
  frame_bytes f ++ x = frame_bytes g ++ y -> f = g /\ x = y.
Proof.
  intros Hl Hf Hg Hu E. pose proof (frame_header_of limits f x Hf Hl Hu) as Ef.
  rewrite E in Hu, Ef. rewrite (frame_header_of limits g y Hg Hl Hu) in Ef.
  injection Ef as Ek Ei Ep. unfold frame_bytes in E. rewrite Ek, Ei, Ep, <- !app_assoc in E.
  apply app_inv_head in E. apply app_inj_1 in E as [E1 E2]; [|by apply Nat2N.inj].
  split; [|done]. destruct f, g. simpl in *. by subst.
Qed.

Lemma frames_bytes_inj limits fs gs :
  limits_ok limits -> Forall (frame_ok limits) fs -> Forall (frame_ok limits) gs ->
  len (frames_bytes fs) <= U64_MAX -> frames_bytes fs = frames_bytes gs -> fs = gs.
Proof.
  intros Hl Hf. revert gs. induction Hf as [|f fs Hf Hfs IH]; intros gs Hg Hu E.
  - destruct gs as [|g gs]; [done|]. apply (f_equal len) in E.
    rewrite frames_bytes_cons, len_app, frame_bytes_len in E. unfold frame_len, RECORD_HEADER_LEN in E.
    change (len (frames_bytes [])) with 0 in E. lia.
  - destruct Hg as [|g gs Hg Hgs].
    + apply (f_equal len) in E. rewrite frames_bytes_cons, len_app, frame_bytes_len in E.
      unfold frame_len, RECORD_HEADER_LEN in E. change (len (frames_bytes [])) with 0 in E. lia.
    + rewrite !frames_bytes_cons in E. rewrite frames_bytes_cons in Hu.
      apply (frame_bytes_prefix_free limits) in E as [-> E]; [|done..]. f_equal. apply IH; [done| |done].
      rewrite len_app in Hu. lia.
Qed.

Lemma image_with_inj limits fs gs mid mid' d d' :
  limits_ok limits -> framed limits fs -> framed limits gs -> mid <= U64_MAX -> mid' <= U64_MAX ->
  len d = 32 -> len d' = 32 -> image_with fs mid d = image_with gs mid' d' ->
  fs = gs /\ mid = mid' /\ d = d'.
Proof.
  intros Hl Hf Hg Hm Hm' Hd Hd' E.
  assert (max_file_bytes limits <= U64_MAX) by (apply (limits_ok_field limits); [done|set_solver]).
  pose proof (framed_len _ _ Hf) as Hlen.
  assert (El : len (committed fs) = len (committed gs)).
  { apply (f_equal len) in E. rewrite !image_with_len in E by done. lia. }
  unfold image_with in E. apply app_inj_1 in E as [Ec Ef]; [|by apply Nat2N.inj].
  assert (Efs : fs = gs).
  { rewrite !committed_bytes in Ec. apply app_inv_head in Ec.
    apply (frames_bytes_inj limits) in Ec; [by apply app_inj_tail in Ec as [? _]|done| | |].
    - apply (framed_frames _ _ Hf).
    - apply (framed_frames _ _ Hg).
    - rewrite committed_len in Hlen. lia. }
  subst gs. split; [done|].
  assert (Hfit : forall mid d, mid <= U64_MAX -> len d = 32 -> footer_fits (footer_with fs mid d)).
  { intros mid0 d0 Hm0 Hd0. pose proof (len_le_frames_bytes fs) as Hn.
    pose proof (committed_body_len fs) as Hcb. unfold footer_fits, footer_with, frame_len, RECORD_HEADER_LEN in *.
    simpl. rewrite body_len in *. unfold HEADER_LEN in *. simpl in *. split_and!; try done; lia. }
  pose proof (parse_footer_bytes _ (Hfit mid d Hm Hd)) as E1.
  pose proof (parse_footer_bytes _ (Hfit mid' d' Hm' Hd')) as E2.
  unfold footer_with in E1, E2. rewrite Ef, E2 in E1. by injection E1 as -> ->.
Qed.

Lemma selects_inj limits fs mid m m' :
  limits_ok limits -> framed limits fs -> selects limits fs mid m -> selects limits fs mid m' -> m = m'.
Proof.
  intros Hl Hf Hs Hs'.
  assert (E : manifest_frame mid m = manifest_frame mid m').
  { apply (frame_ids_unique fs); [apply (framed_ids _ _ Hf)|apply (sel_id _ _ _ _ Hs)|apply (sel_frame _ _ _ _ Hs)|
      apply (sel_frame _ _ _ _ Hs')|done]. }
  injection E as E.
  pose proof (proj2 (decode_manifest limits _ m Hl)
    (conj (sel_metadata _ _ _ _ Hs) (conj eq_refl (sel_shape _ _ _ _ Hs)))) as D1.
  pose proof (proj2 (decode_manifest limits _ m' Hl)
    (conj (sel_metadata _ _ _ _ Hs') (conj eq_refl (sel_shape _ _ _ _ Hs')))) as D2.
  rewrite E, D2 in D1. by injection D1 as ->.
Qed.

Lemma accepted_inj limits fs gs mid mid' m m' d d' :
  limits_ok limits -> accepted limits fs mid m -> accepted limits gs mid' m' ->
  mid <= U64_MAX -> mid' <= U64_MAX -> len d = 32 -> len d' = 32 ->
  image_with fs mid d = image_with gs mid' d' -> fs = gs /\ mid = mid' /\ m = m' /\ d = d'.
Proof.
  intros Hl [Hf Hs] [Hg Hs'] Hm Hm' Hd Hd' E.
  apply (image_with_inj limits) in E as (<- & <- & <-); [|done..].
  split_and!; try done. by eapply selects_inj.
Qed.
