(* ===== verification/CoreTheorems.v ===== *)
(** What the in-memory core guarantees: canonical metadata, the writer, the
    whole-file reader and their round trip, each with a concrete instance. *)

From Stdlib Require Import Strings.Byte Strings.String NArith ZArith Lia.
From stdpp Require Import base list gmap strings sorting.
From S2P Require Import Prelude Order Errors Format Cbor CborFacts Model Schema Digest Frame Image.
From S2P Require Import Writer WriterFacts Reader ReaderFacts.

Local Open Scope N_scope.

#[export] Instance Frame_eq_dec : EqDecision Frame.
Proof. solve_decision. Defined.

(** ** A small document *)

Definition sample_manifest : Manifest := mkManifest [1] [] [7].
Definition sample_ops : list WriterOp :=
  [AddOpaque 1 [Byte.x61; Byte.x62; Byte.x63]; AddManifest 2 sample_manifest; AddOpaque 3 []].
Definition sample_frames : list Frame := op_frame <$> sample_ops.

Lemma encodes_now v : is_ok (encode_canonical v) = true -> encodes v.
Proof. unfold encodes. destruct (encode_canonical v); [by eexists|done]. Qed.

Definition admits_b (limits : Limits) (v : Value) : bool :=
  value_fits limits v && (vheight v <=? max_metadata_depth limits) &&
  (vitems v <=? max_container_items limits) && (max_container_items limits <=? U64_MAX).

Lemma admits_now limits v : admits_b limits v = true -> admits limits v.
Proof. unfold admits_b, admits. intros Hb. bool_facts. done. Qed.

Lemma admitted_now limits v :
  is_ok (encode_canonical v) && admits_b limits v && (len (enc v) <=? max_metadata_bytes limits) = true ->
  admitted limits v.
Proof.
  intros Hb. apply andb_true_iff in Hb as [Hb H3]. apply andb_true_iff in Hb as [H1 H2].
  apply N.leb_le in H3. split_and!; [by apply encodes_now|by apply admits_now|done].
Qed.

Definition frame_ok_b (limits : Limits) (f : Frame) : bool :=
  Bool.eqb (bool_decide (f_kind f = Directory)) (f_id f =? 0) && (f_id f <=? U64_MAX) &&
  (len (f_payload f) <=? max_payload_bytes limits).

Lemma frame_ok_now limits fs : forallb (frame_ok_b limits) fs = true -> Forall (frame_ok limits) fs.
Proof.
  intros Hb. rewrite forallb_forall in Hb. apply Forall_forall. intros f Hf.
  apply list_elem_of_In, Hb in Hf. unfold frame_ok_b in Hf.
  apply andb_true_iff in Hf as [Hf H3]. apply andb_true_iff in Hf as [H1 H2].
  apply N.leb_le in H2, H3. apply eqb_prop in H1. split_and!; [|done|done].
  unfold id_rule. rewrite <- N.eqb_eq, <- H1. by rewrite bool_decide_eq_true.
Qed.

Lemma sample_framed : framed default_limits sample_frames.
Proof.
  split.
  - apply frame_ok_now. vm_compute. reflexivity.
  - apply (bool_decide_eq_true_1 (NoDup _)). vm_compute. reflexivity.
  - apply N.leb_le. vm_compute. reflexivity.
  - apply N.leb_le. vm_compute. reflexivity.
  - apply admitted_now. vm_compute. reflexivity.
Qed.

Lemma sample_selects : selects default_limits sample_frames 2 sample_manifest.
Proof.
  split.
  - done.
  - apply (bool_decide_eq_true_1 (_ ∈ _)). vm_compute. reflexivity.
  - apply admitted_now. vm_compute. reflexivity.
  - apply validate_shape_Ok. vm_compute. reflexivity.
  - intros root Hr. apply (bool_decide_eq_true_1 (_ ∈ _)).
    apply list_elem_of_singleton in Hr as ->. vm_compute. reflexivity.
Qed.

Lemma sample_accepted : accepted default_limits sample_frames 2 sample_manifest.
Proof. split; [apply sample_framed|apply sample_selects]. Qed.

Lemma sample_fits : fits default_limits sample_frames.
Proof.
  split; try (apply N.leb_le; vm_compute; reflexivity).
  - eapply Forall_impl; [apply (framed_frames _ _ sample_framed)|]. by intros f (_ & _ & ?).
  - apply Forall_forall. intros f Hf. pose proof (framed_frames _ _ sample_framed) as Ha.
    rewrite Forall_forall in Ha. apply (Ha f). set_solver.
  - apply admits_now. vm_compute. reflexivity.
Qed.

(** ** The whole-file reader *)

(** C1. [ValidatedFile::parse] accepts exactly the images of the documents the
    limits admit and whose manifest requires no capability, and returns that
    document: the framing, digest, directory and manifest checks together
    leave no other byte string. *)
Theorem parse_accepts_exactly_images `{Sha256Ok} limits input f :
  limits_ok limits ->
  parse input limits = Ok f <->
  exists fs mid m, mid <= U64_MAX /\ accepted limits fs mid m /\ required_capabilities m = [] /\
    input = image fs mid /\ f = validated fs mid m.
Proof.
  intros Hl. split; [by apply parse_sound|].
  intros (fs & mid & m & Hmid & Ha & Hr & -> & ->). by apply parse_image.
Qed.

Lemma parse_accepts_exactly_images_witness :
  limits_ok default_limits /\
  @parse example_sha (@image example_sha sample_frames 2) default_limits
    = Ok (@validated example_sha sample_frames 2 sample_manifest).
Proof.
  split; [exact default_limits_ok|].
  apply (@parse_accepts_exactly_images example_sha example_sha_ok default_limits _ _ default_limits_ok).
  exists sample_frames, 2, sample_manifest.
  split; [apply N.leb_le; vm_compute; reflexivity|]. split; [exact sample_accepted|done].
Defined.

(** What a script of writer calls produces, the whole-file reader reads
    back: the file of a successful [write_file] whose sizes fit the limits
    parses to the frames of the script. *)
Theorem parse_reads_back_written_file `{Sha256Ok} limits ops mid m out :
  limits_ok limits -> mid <= U64_MAX -> write_file ops mid = Ok out ->
  fits limits (op_frame <$> ops) -> AddManifest mid m ∈ ops ->
  admits limits (manifest_to_cbor m) -> len (enc (manifest_to_cbor m)) <= max_metadata_bytes limits ->
  (forall root, root ∈ roots m -> exists op, op ∈ ops /\ f_id (op_frame op) = root) ->
  required_capabilities m = [] ->
  parse out limits = Ok (validated (op_frame <$> ops) mid m).
Proof. intros. by eapply parse_write_file. Qed.

Lemma parse_reads_back_written_file_witness :
  exists out, @write_file example_sha sample_ops 2 = Ok out /\
  @parse example_sha out default_limits = Ok (@validated example_sha sample_frames 2 sample_manifest).
Proof.
  assert (Hw : @write_file example_sha sample_ops 2 = Ok (@image example_sha sample_frames 2))
    by (vm_compute; reflexivity).
  eexists. split; [exact Hw|].
  apply (@parse_reads_back_written_file example_sha example_sha_ok default_limits sample_ops 2 sample_manifest _
    default_limits_ok).
  - apply N.leb_le. vm_compute. reflexivity.
  - exact Hw.
  - exact sample_fits.
  - right. left.
  - apply admits_now. vm_compute. reflexivity.
  - apply N.leb_le. vm_compute. reflexivity.
  - intros root Hr. apply list_elem_of_singleton in Hr as ->. eexists. split; [left|reflexivity].
  - reflexivity.
Defined.

(** In a parsed file, [object] finds the payload of every identified
    frame, and nothing for an identifier no frame has. *)
Theorem object_finds_payloads `{Sha256Ok} limits input f i :
  limits_ok limits -> parse input limits = Ok f ->
  exists fs, vf_bytes f = input /\ vf_records f = records_of fs /\
    match object f i with
    | Some p => i <> 0 /\ exists g, g ∈ fs /\ f_id g = i /\ f_payload g = p
    | None => i = 0 \/ i ∉ f_id <$> fs
    end.
Proof.
  intros Hl Hp. apply parse_sound in Hp as (fs & mid & m & Hmid & [Hf Hs] & _ & -> & ->); [|done].
  exists fs. split; [done|]. split; [done|].
  destruct (decide (i ∈ frame_ids fs)) as [Hin|Hout].
  - apply elem_of_frame_ids in Hin as [Hz Hin]. apply list_elem_of_fmap in Hin as (g & -> & Hg).
    rewrite (object_frame limits fs mid m Hf g Hg Hz). split; [done|]. by exists g.
  - rewrite (object_absent fs mid m i Hout).
    destruct (decide (i = 0)) as [|Hz]; [by left|]. right. intros Hin. apply Hout. by apply elem_of_frame_ids.
Qed.

Lemma object_finds_payloads_witness :
  exists f, @parse example_sha (@image example_sha sample_frames 2) default_limits = Ok f /\
  exists fs, vf_bytes f = @image example_sha sample_frames 2 /\ vf_records f = records_of fs /\
    match object f 1 with
    | Some p => 1 <> 0 /\ exists g, g ∈ fs /\ f_id g = 1 /\ f_payload g = p
    | None => 1 = 0 \/ 1 ∉ f_id <$> fs
    end.
Proof.
  assert (Hp : @parse example_sha (@image example_sha sample_frames 2) default_limits
    = Ok (@validated example_sha sample_frames 2 sample_manifest)).
  { apply (@parse_image example_sha example_sha_ok); [exact default_limits_ok| |exact sample_accepted|done].
    apply N.leb_le. vm_compute. reflexivity. }
  eexists. split; [exact Hp|].
  exact (@object_finds_payloads example_sha example_sha_ok default_limits _ _ 1 default_limits_ok Hp).
Defined.

(** ** Canonical metadata *)

(** C9. [decode_canonical] accepts exactly the encodings of the values that
    are in canonical order and within the limits on size, depth, items and
    strings: no byte string has two readings and no other bytes are read. *)
Theorem decode_accepts_exactly_canonical input limits v :
  max_container_items limits <= U64_MAX ->
  decode_canonical input limits = Ok v <->
  encode_canonical v = Ok input /\ canon v = v /\ admits limits v /\
  len input <= U64_MAX /\ len input <= max_metadata_bytes limits.
Proof. apply decode_canonical_iff. Qed.

Definition sample_value : Value :=
  Map [(Text "id", Unsigned 300); (Text "key", Array [Bool true; Null; Bytes [Byte.x00]])].

Lemma decode_accepts_exactly_canonical_witness :
  max_container_items default_limits <= U64_MAX /\
  encode_canonical sample_value = Ok (enc sample_value) /\ admits default_limits sample_value.
Proof.
  assert (Hm : max_container_items default_limits <= U64_MAX) by (apply N.leb_le; vm_compute; reflexivity).
  assert (Hd : decode_canonical (enc sample_value) default_limits = Ok sample_value) by (vm_compute; reflexivity).
  split; [exact Hm|].
  destruct (proj1 (decode_accepts_exactly_canonical (enc sample_value) default_limits sample_value Hm) Hd)
    as (H1 & _ & H3 & _).
  split; [exact H1|exact H3].
Defined.

(** Encoding and decoding back gives the value with its map entries in
    canonical order. *)
Theorem decode_encode_roundtrip limits v b :
  encode_canonical v = Ok b -> admits limits v -> len b <= U64_MAX -> len b <= max_metadata_bytes limits ->
  decode_canonical b limits = Ok (canon v).
Proof.
  intros He Ha H1 H2. destruct (enc_Ok _ _ He) as [<- Hv]. by apply decode_canonical_enc.
Qed.

Definition unsorted_value : Value := Map [(Text "key", Unsigned 1); (Text "id", Unsigned 2)].

Lemma decode_encode_roundtrip_witness :
  decode_canonical (enc unsorted_value) default_limits
  = Ok (Map [(Text "id", Unsigned 2); (Text "key", Unsigned 1)]).
Proof.
  apply (decode_encode_roundtrip default_limits unsorted_value (enc unsorted_value)).
  - vm_compute. reflexivity.
  - apply admits_now. vm_compute. reflexivity.
  - apply N.leb_le. vm_compute. reflexivity.
  - apply N.leb_le. vm_compute. reflexivity.
Defined.

(** The encoding of a map does not depend on the order of its entries. *)
Theorem encode_map_order_irrelevant l1 l2 b :
  len l1 <= U64_MAX -> l1 ≡ₚ l2 -> encode_canonical (Map l1) = Ok b -> encode_canonical (Map l2) = Ok b.
Proof.
  intros Hl Hp He. assert (El : len l2 = len l1) by (unfold len; by rewrite (Permutation_length Hp)).
  assert (Hl2 : len l2 <= U64_MAX) by (by rewrite El).
  rewrite (encode_Map l1 _ Hl) in He. rewrite (encode_Map l2 _ Hl2). destruct He as (Hf & Hs & ->).
  assert (Hsort : sort_entries l1 = sort_entries l2).
  { unfold sort_entries. apply (sort_by_Permutation_strict _ l1 l2 Hp). apply Sorted_StronglySorted; [|exact Hs].
    intros x y z. apply (cmp_trans (cmp_on (fun kv => enc kv.1) compare_key_bytes)). }
  rewrite <- Hsort. split_and!; [by rewrite <- Hp|done|by rewrite El].
Qed.

Lemma encode_map_order_irrelevant_witness :
  encode_canonical (Map [(Text "id", Unsigned 2); (Text "key", Unsigned 1)]) = Ok (enc unsorted_value).
Proof.
  apply (encode_map_order_irrelevant [(Text "key", Unsigned 1); (Text "id", Unsigned 2)]).
  - apply N.leb_le. vm_compute. reflexivity.
  - apply perm_swap.
  - vm_compute. reflexivity.
Defined.

(** A manifest payload is read as the manifest [m] exactly when it is the
    canonical encoding of [m], within the limits, and [m] has distinct
    non-zero roots and distinct capabilities; and likewise for a directory. *)
Theorem metadata_payloads_exact limits p :
  limits_ok limits ->
  (forall m, match decode_canonical p limits with
             | Ok v => parse_manifest v | Err e => Err e end = Ok m <->
             admitted limits (manifest_to_cbor m) /\ p = enc (manifest_to_cbor m) /\ shape_ok m) /\
  (forall es, match decode_canonical p limits with
              | Ok v => parse_directory v | Err e => Err e end = Ok es <->
              admitted limits (directory_to_cbor es) /\ p = enc (directory_to_cbor es)).
Proof. intros Hl. split; intros; [by apply decode_manifest|by apply decode_directory]. Qed.

Lemma metadata_payloads_exact_witness :
  limits_ok default_limits /\
  match decode_canonical (enc (manifest_to_cbor sample_manifest)) default_limits with
  | Ok v => parse_manifest v | Err e => Err e end = Ok sample_manifest.
Proof.
  split; [exact default_limits_ok|].
  apply (proj1 (metadata_payloads_exact default_limits (enc (manifest_to_cbor sample_manifest)) default_limits_ok)).
  split; [apply admitted_now; vm_compute; reflexivity|]. split; [reflexivity|].
  apply validate_shape_Ok. vm_compute. reflexivity.
Defined.

(** A directory a reader decodes under given limits has at most
    [(max_container_items - 3) / 11] entries, since every CBOR item of every
    entry is counted against [max_container_items]; under the default limits
    that is 9,090 objects, well below [max_records]. *)
Theorem directory_entries_bounded limits p v es :
  limits_ok limits -> decode_canonical p limits = Ok v -> parse_directory v = Ok es ->
  3 + 11 * len es <= max_container_items limits /\ (limits = default_limits -> len es <= 9090).
Proof.
  intros Hl Hd Hp.
  assert (Ha : admitted limits (directory_to_cbor es) /\ p = enc (directory_to_cbor es))
    by (apply decode_directory; [done|by rewrite Hd]).
  destruct Ha as [(_ & Ha & _) _]. apply admits_directory_count in Ha. split; [done|].
  intros ->. simpl in Ha. lia.
Qed.

Lemma directory_entries_bounded_witness :
  let es := frame_entries HEADER_LEN sample_frames in
  3 + 11 * len es <= max_container_items default_limits /\ (default_limits = default_limits -> len es <= 9090).
Proof.
  apply (directory_entries_bounded default_limits (enc (directory_value sample_frames)) (canon (directory_value sample_frames))).
  - exact default_limits_ok.
  - vm_compute. reflexivity.
  - vm_compute. reflexivity.
Defined.

(** Decoding ends: the recursion of the decoder, here bounded by fuel,
    gives the same result, errors included, for every fuel above the length
    of the input, the one [decode_canonical] uses among them. *)
Theorem decoder_recursion_ends input limits fuel :
  len input < N.of_nat fuel ->
  dec_value input limits fuel 0 (mkDecoder 0 0) = dec_value input limits (S (length input)) 0 (mkDecoder 0 0).
Proof. intros Hf. apply dec_value_fuel; simpl; unfold len in *; lia. Qed.

Lemma decoder_recursion_ends_witness :
  dec_value [Byte.x81; Byte.x05] default_limits 9 0 (mkDecoder 0 0)
  = dec_value [Byte.x81; Byte.x05] default_limits 3 0 (mkDecoder 0 0).
Proof. apply (decoder_recursion_ends [Byte.x81; Byte.x05] default_limits 9). vm_compute. reflexivity. Defined.

(** ** Framing *)

(** The record-header check accepts, at an offset, exactly the 40 bytes of
    a record header with a stored length equal to the logical length and
    within the payload limit, and returns its fields. *)
Theorem record_header_exact input offset limits h :
  len input <= U64_MAX ->
  record_fields input offset limits = Ok h <->
  offset + RECORD_HEADER_LEN <= len input /\ header_fits h /\
  h_stored_len h <= max_payload_bytes limits /\
  slice input offset (offset + RECORD_HEADER_LEN)
    = record_header (h_kind h) (h_object_id h) (h_stored_len h).
Proof. apply record_fields_Ok. Qed.

Lemma record_header_exact_witness :
  let b := record_header Manifest_ 9 5 in
  len b <= U64_MAX /\ record_fields b 0 default_limits = Ok (mkHeader Manifest_ 9 5 5).
Proof.
  assert (Hl : len (record_header Manifest_ 9 5) <= U64_MAX) by (apply N.leb_le; vm_compute; reflexivity).
  split; [exact Hl|]. apply (record_header_exact (record_header Manifest_ 9 5) 0 default_limits _ Hl).
  split; [apply N.leb_le; vm_compute; reflexivity|].
  split; [|split; [apply N.leb_le; vm_compute; reflexivity|vm_compute; reflexivity]].
  split; [apply N.leb_le; vm_compute; reflexivity|].
  split; [apply N.leb_le; vm_compute; reflexivity|reflexivity].
Defined.

(** ** The in-memory writer *)

(** Adding a record to a writer that holds the frames [fs]: every branch.
    It refuses directories, identifier zero and repeated identifiers, with
    these errors in this order, and otherwise holds one more frame. *)
Theorem add_record_branches w fs k i p :
  writes w fs -> len (w_bytes w) + RECORD_HEADER_LEN + len p <= U64_MAX ->
  match add_record w k i p with
  | Ok w' => k <> Directory /\ i <> 0 /\ i ∉ f_id <$> fs /\ writes w' (fs ++ [mkFrame k i p])
  | Err e =>
      (k = Directory /\ e = InvalidRecordOrder "directory is created during finalization") \/
      (k <> Directory /\ i = 0 /\ e = InvalidMetadataSchema "object identifier zero is reserved") \/
      (k <> Directory /\ i <> 0 /\ i ∈ f_id <$> fs /\ e = DuplicateObjectId i)
  end.
Proof. apply add_record_spec. Qed.

Lemma add_record_branches_witness :
  match add_record writer_new Opaque 1 [Byte.x61] with
  | Ok w' => Opaque <> Directory /\ 1 <> 0 /\ 1 ∉ f_id <$> [] /\ writes w' ([] ++ [mkFrame Opaque 1 [Byte.x61]])
  | Err e =>
      (Opaque = Directory /\ e = InvalidRecordOrder "directory is created during finalization") \/
      (Opaque <> Directory /\ 1 = 0 /\ e = InvalidMetadataSchema "object identifier zero is reserved") \/
      (Opaque <> Directory /\ 1 <> 0 /\ 1 ∈ f_id <$> [] /\ e = DuplicateObjectId 1)
  end.
Proof.
  apply (add_record_branches writer_new [] Opaque 1 [Byte.x61]).
  - exact writer_new_writes.
  - apply N.leb_le. vm_compute. reflexivity.
Defined.

(** C15. From start to finish the writer succeeds exactly on the scripts with
    encodable, well-shaped manifests, distinct non-zero identifiers and a
    selected manifest among their records, and then writes their image. *)
Theorem write_file_exact `{Sha256} ops mid out :
  len (committed (op_frame <$> ops)) <= U64_MAX ->
  write_file ops mid = Ok out <->
  script_ok [] ops /\ is_manifest (op_frame <$> ops) mid = true /\ out = image (op_frame <$> ops) mid.
Proof. apply write_file_Ok. Qed.

Lemma write_file_exact_witness :
  script_ok [] sample_ops /\ @write_file example_sha sample_ops 2 = Ok (@image example_sha sample_frames 2).
Proof.
  assert (Hl : len (committed (op_frame <$> sample_ops)) <= U64_MAX) by (apply N.leb_le; vm_compute; reflexivity).
  assert (Hw : @write_file example_sha sample_ops 2 = Ok (@image example_sha sample_frames 2))
    by (vm_compute; reflexivity).
  destruct (proj1 (@write_file_exact example_sha sample_ops 2 _ Hl) Hw) as (Hs & _ & _).
  split; [exact Hs|exact Hw].
Defined.
