(* ===== verification/Diagnostic.v ===== *)
(** [crates/ucof-core/src/diagnostic.rs]: the diagnostic facade over inspection
    and validation, and prefix salvage, which scans record framing without
    reading payloads and never claims validity. *)

From Stdlib Require Import Strings.Byte Strings.String NArith ZArith Lia.
From stdpp Require Import base list gmap strings sorting.
From S2P Require Import Prelude Order Errors Format Cbor Model Schema Digest Frame Machine Source.
From S2P Require Import SourceValidate.

Local Open Scope N_scope.

Inductive DiagnosticStage : Type := Bootstrap | Structure | Integrity | Salvage.

Record Diagnostic : Type := mkDiagnostic {
  d_stage : DiagnosticStage;
  d_category : ErrorCategory;
  d_offset : option N;
  d_message : string;
}.

Inductive DiagnosticStatus : Type := Invalid | StructurallyValid | DVerified | UnverifiedPrefix.

Record DiagnosticReport : Type := mkDiagnosticReport {
  dr_status : DiagnosticStatus;
  dr_diagnostics : list Diagnostic;
  dr_inspection : option InspectionReport;
  dr_validation : option SourceValidationReport;
}.

Definition diagnostic (stage : DiagnosticStage) (offset : option N) (error : Error) : Diagnostic :=
  mkDiagnostic stage (category error) offset (error_to_string error).

Definition push_diagnostic (diagnostics : list Diagnostic) (maximum : N) (stage : DiagnosticStage)
    (offset : option N) (error : Error) : list Diagnostic :=
  if len diagnostics <? maximum then diagnostics ++ [diagnostic stage offset error] else diagnostics.

(** [DiagnosticValidator::diagnose] *)
Definition diagnose `{Sha256} {S} `{ReadAt S} (limits : Limits) : SE S DiagnosticReport := fun source =>
  if max_diagnostics limits =? 0 then (Err (LimitExceeded "diagnostics"), source)
  else
    match inspect limits source with
    | (Err error, source) =>
        (Ok (mkDiagnosticReport Invalid [diagnostic Structure None error] None None), source)
    | (Ok inspection, source) =>
        match validate limits source with
        | (Ok validation, source) =>
            (Ok (mkDiagnosticReport DVerified [] (Some inspection) (Some validation)), source)
        | (Err error, source) =>
            (Ok (mkDiagnosticReport Invalid [diagnostic Integrity None error] (Some inspection) None), source)
        end
    end.

(** ** Prefix salvage *)

Record SalvagedRecord : Type := mkSalvaged {
  sal_kind : RecordKind;
  sal_object_id : N;
  sal_offset : N;
  sal_stored_len : N;
  sal_logical_len : N;
}.

Record PrefixSalvageReport : Type := mkSalvage {
  ps_status : DiagnosticStatus;
  ps_file_len : N;
  ps_records : list SalvagedRecord;
  ps_diagnostics : list Diagnostic;
  ps_reached_directory : bool;
  ps_bytes_read : N;
}.

Definition salvage_validate_header (b : bytes) : R unit := validate_header b.

Definition parse_record (b : bytes) (offset : N) (limits : Limits) (identifiers : gset N)
    : R (SalvagedRecord * gset N) :=
  let* h := record_fields b 0 limits in
  let* ids := check_identifier h identifiers in
  Ok (mkSalvaged (h_kind h) (h_object_id h) offset (h_stored_len h) (h_logical_len h), ids).

Section Salvage.
Context {S : Type} `{ReadAt S} (limits : Limits).

(** The state of a scan: the source and the bytes read from it. *)
Definition read_bounded (offset n : N) (context : string) : SE (S * N) bytes := fun st =>
  let '(source, bytes_read) := st in
  match try_u64 n with
  | None => (Err (LimitExceeded "total bytes read"), st)
  | Some length =>
      match checked_add bytes_read length with
      | None => (Err (LimitExceeded "total bytes read"), st)
      | Some next =>
          if max_total_bytes_read limits <? next then (Err (LimitExceeded "total bytes read"), st)
          else
            match read_exact_at source offset length with
            | (Err _, source) => (Err (Io context), (source, bytes_read))
            | (Ok b, source) => (Ok b, (source, next))
            end
      end
  end.

Definition push (report : PrefixSalvageReport) (stage : DiagnosticStage) (offset : N) (error : Error)
    : PrefixSalvageReport :=
  mkSalvage (ps_status report) (ps_file_len report) (ps_records report)
    (push_diagnostic (ps_diagnostics report) (max_diagnostics limits) stage (Some offset) error)
    (ps_reached_directory report) (ps_bytes_read report).

Definition with_bytes (report : PrefixSalvageReport) (n : N) : PrefixSalvageReport :=
  mkSalvage (ps_status report) (ps_file_len report) (ps_records report) (ps_diagnostics report)
    (ps_reached_directory report) n.

(** What a turn of the scan does: stop, or go on from a later offset. *)
Inductive Turn : Type :=
  | Break (report : PrefixSalvageReport)
  | Continue (report : PrefixSalvageReport) (offset : N) (identifiers : gset N).

Definition salvage_turn (report : PrefixSalvageReport) (offset : N) (identifiers : gset N)
    : SE (S * N) Turn :=
  let file_len := ps_file_len report in
  let stop error := se_ret (Break (push report Salvage offset error)) in
  if match try_u64 (len (ps_records report)) with
     | Some count => max_records limits <=? count
     | None => true
     end then stop (LimitExceeded "record count")
  else
    match checked_add offset RECORD_HEADER_LEN with
    | None => stop (RangeOutOfBounds "record header")
    | Some header_end =>
        if file_len <? header_end then stop (Truncated "record header")
        else
          do* b := read_bounded offset RECORD_HEADER_LEN "salvage record header" in
          match parse_record b offset limits identifiers with
          | Err error => stop error
          | Ok (record, identifiers) =>
              match checked_add header_end (sal_stored_len record) with
              | None => stop (RangeOutOfBounds "record payload")
              | Some payload_end =>
                  if file_len <? payload_end then stop (Truncated "record payload")
                  else
                    let directory := bool_decide (sal_kind record = Directory) in
                    let report := mkSalvage (ps_status report) file_len
                      (ps_records report ++ [record]) (ps_diagnostics report)
                      directory (ps_bytes_read report) in
                    if directory then se_ret (Break report)
                    else se_ret (Continue report payload_end identifiers)
              end
          end
    end.

(** [while offset < file_len]. A turn that goes on advances by at least a
    header, so one unit of fuel for each byte is enough
    ([salvage_loop_cases]). *)
Fixpoint salvage_loop (fuel : nat) (report : PrefixSalvageReport) (offset : N)
    (identifiers : gset N) : SE (S * N) PrefixSalvageReport :=
  match fuel with
  | O => se_err (LimitExceeded "record count")
  | Datatypes.S fuel =>
      if offset <? ps_file_len report then
        do* turn := salvage_turn report offset identifiers in
        match turn with
        | Break report => se_ret report
        | Continue report offset identifiers => salvage_loop fuel report offset identifiers
        end
      else se_ret report
  end.

(** [PrefixSalvager::scan] after the length checks. *)
Definition scan_body (file_len : N) : SE (S * N) PrefixSalvageReport :=
  let report := mkSalvage UnverifiedPrefix file_len [] [] false 0 in
  if file_len <? HEADER_LEN then se_ret (push report Bootstrap 0 (Truncated "file header"))
  else
    do* header := read_bounded 0 HEADER_LEN "salvage file header" in
    match salvage_validate_header header with
    | Err error => se_ret (push report Bootstrap 0 error)
    | Ok _ => salvage_loop (Datatypes.S (N.to_nat file_len)) report HEADER_LEN ∅
    end.

Definition scan : SE S PrefixSalvageReport := fun source =>
  if max_diagnostics limits =? 0 then (Err (LimitExceeded "diagnostics"), source)
  else
    match source_len source with
    | (Err _, source) => (Err (Io "salvage source length"), source)
    | (Ok file_len, source) =>
        if max_file_bytes limits <? file_len then (Err (LimitExceeded "file bytes"), source)
        else
          match scan_body file_len (source, 0) with
          | (Ok report, (source, bytes_read)) => (Ok (with_bytes report bytes_read), source)
          | (Err e, (source, _)) => (Err e, source)
          end
    end.
End Salvage.
