(* ===== verification/DiagnosticFacts.v ===== *)
(** Diagnostics: a verified report is a validated image, and prefix salvage
    over a byte slice recovers exactly the frames the bytes spell out, up to
    the first directory or the first frame that does not fit; it always ends,
    within its budgets, and never claims more than an unverified prefix. *)

From Stdlib Require Import Strings.Byte Strings.String NArith ZArith Lia.
From stdpp Require Import base list gmap strings sorting.
From S2P Require Import Prelude Order Errors Format Cbor CborFacts Model Schema Digest Frame Image.
From S2P Require Import Machine Writer WriterFacts Reader ReaderFacts Source SourceFacts.
From S2P Require Import SourceFacts SourceValidate ValidateFacts Diagnostic.

Local Open Scope N_scope.

Definition salvaged (offset : N) (f : Frame) : SalvagedRecord :=
  mkSalvaged (f_kind f) (f_id f) offset (len (f_payload f)) (len (f_payload f)).

Fixpoint salvaged_records (offset : N) (fs : list Frame) : list SalvagedRecord :=
  match fs with
  | [] => []
  | f :: fs => salvaged offset f :: salvaged_records (offset + frame_len f) fs
  end.

Lemma salvaged_records_snoc off fs f :
  salvaged_records off (fs ++ [f]) =
  salvaged_records off fs ++ [salvaged (off + len (frames_bytes fs)) f].
Proof.
  revert off. induction fs as [|g fs IH]; intros off; simpl.
  - change (len (frames_bytes [])) with 0. by rewrite N.add_0_r.
  - rewrite IH, frames_bytes_cons, len_app, frame_bytes_len. do 3 f_equal. by rewrite N.add_assoc.
Qed.

Lemma salvaged_records_len off fs : len (salvaged_records off fs) = len fs.
Proof. revert off. induction fs as [|f fs IH]; intros off; [done|]. simpl. by rewrite !len_cons, IH. Qed.

Section Scan.
Context (input : bytes) (limits : Limits).
Context (Hlim : limits_ok limits) (Hu : len input <= U64_MAX).

Let src := mkSliceSource input.

(** Frames the scan has passed, none of them a directory. *)
Record passed (fs : list Frame) : Prop := {
  ps_fit : HEADER_LEN + len (frames_bytes fs) <= len input;
  ps_slice : slice input 0 (HEADER_LEN + len (frames_bytes fs)) = body fs;
  ps_ok : Forall (frame_ok limits) fs;
  ps_objects : Forall is_object fs;
  ps_nodup : NoDup (f_id <$> fs);
  ps_count : len fs <= max_records limits;
}.

(** A bounded read of the slice succeeds unless the budget is used up. *)
Lemma read_bounded_slice offset n context done_ :
  offset + n <= len input ->
  read_bounded limits offset n context (src, done_) =
  if (done_ + n <=? U64_MAX) && (done_ + n <=? max_total_bytes_read limits)
  then (Ok (slice input offset (offset + n)), (src, done_ + n))
  else (Err (LimitExceeded "total bytes read"), (src, done_)).
Proof.
  intros Hr. unfold read_bounded. rewrite try_u64_fits by lia. unfold checked_add.
  destruct (N.leb_spec (done_ + n) U64_MAX); [|done]. cbn [andb].
  rewrite N.leb_antisym. destruct (max_total_bytes_read limits <? done_ + n); [done|]. cbn [negb].
  destruct (stable_read src input offset n eq_refl Hu Hr) as [E _].
  cbn [read_exact_at slice_read_at fst] in *. by rewrite E.
Qed.

Lemma parse_record_Ok b off ids r ids' :
  len b = RECORD_HEADER_LEN -> 0 ∉ ids ->
  parse_record b off limits ids = Ok (r, ids') ->
  exists h, header_fits h /\ h_stored_len h <= max_payload_bytes limits /\
    b = record_header (h_kind h) (h_object_id h) (h_stored_len h) /\
    r = mkSalvaged (h_kind h) (h_object_id h) off (h_stored_len h) (h_stored_len h) /\
    forall f, f_kind f = h_kind h -> f_id f = h_object_id h -> id_fresh f ids /\ ids' = ids_after f ids.
Proof.
  intros Hb H0 H. unfold parse_record in H. step_result H. injection H as <- <-.
  match goal with E : record_fields _ _ _ = Ok ?h |- _ => rename h into hd;
    apply record_fields_Ok in E as (_ & Hf & Hp & Hs); [|rewrite Hb; done] end.
  rewrite N.add_0_l, (slice_full _ _ Hb) in Hs. exists hd. split_and!; try done.
  - by destruct Hf as (_ & _ & ->).
  - intros f Hk Hi. by apply (check_identifier_Ok hd).
Qed.

Lemma passed_zero fs : passed fs -> 0 ∉ (list_to_set (f_id <$> fs) : gset N).
Proof.
  intros [_ _ Hok Hobj _ _]. rewrite elem_of_list_to_set. intros Hz.
  apply list_elem_of_fmap in Hz as (f & E & Hin). rewrite Forall_forall in Hok, Hobj.
  apply (Hobj f Hin). by apply (Hok f Hin).
Qed.

Lemma passed_snoc fs f :
  passed fs -> is_object f -> frame_ok limits f -> f_id f ∉ f_id <$> fs -> len fs < max_records limits ->
  HEADER_LEN + len (frames_bytes fs) + frame_len f <= len input ->
  slice input (HEADER_LEN + len (frames_bytes fs)) (HEADER_LEN + len (frames_bytes fs) + frame_len f)
    = frame_bytes f ->
  passed (fs ++ [f]) /\
  ids_after f (list_to_set (f_id <$> fs)) = (list_to_set (f_id <$> (fs ++ [f])) : gset N).
Proof.
  intros [H1 H2 H3 H4 H5 H6] Ho Hok Hfr Hc Hle Hs.
  assert (Hl : len (frames_bytes (fs ++ [f])) = len (frames_bytes fs) + frame_len f)
    by (by rewrite frames_bytes_snoc, len_app, frame_bytes_len).
  split.
  - split; rewrite ?Hl, ?Forall_app, ?fmap_app.
    + lia.
    + rewrite <- (slice_join input 0 (HEADER_LEN + len (frames_bytes fs))) by lia.
      rewrite H2, N.add_assoc, Hs. unfold body. by rewrite frames_bytes_snoc, app_assoc.
    + split; [done|by apply Forall_singleton].
    + split; [done|by apply Forall_singleton].
    + apply NoDup_app. csimpl. split_and!; [done|set_solver|apply NoDup_singleton].
    + rewrite len_app, len_cons, len_nil. lia.
  - unfold ids_after. rewrite bool_decide_false by (intros E; by apply Ho, Hok).
    rewrite fmap_app, list_to_set_app_L. csimpl. set_solver.
Qed.

(** The report of a scan that has passed [fs]. *)
Definition at_prefix (rep : PrefixSalvageReport) (fs : list Frame) : Prop :=
  ps_status rep = UnverifiedPrefix /\ ps_file_len rep = len input /\
  ps_records rep = salvaged_records HEADER_LEN fs /\ ps_diagnostics rep = [] /\
  ps_reached_directory rep = false.

(** A finished scan: the frames [fs], then nothing more, or an error at the
    end of the prefix, or the directory frame [d]. *)
Definition scanned (rep : PrefixSalvageReport) (fs : list Frame) : Prop :=
  passed fs /\ ps_status rep = UnverifiedPrefix /\ ps_file_len rep = len input /\
  ((ps_records rep = salvaged_records HEADER_LEN fs /\ ps_reached_directory rep = false /\
    (ps_diagnostics rep = [] /\ HEADER_LEN + len (frames_bytes fs) = len input \/
     exists e, ps_diagnostics rep = push_diagnostic [] (max_diagnostics limits) Salvage
                 (Some (HEADER_LEN + len (frames_bytes fs))) e)) \/
   (exists p, let d := mkFrame Directory 0 p in
      frame_ok limits d /\ slice input 0 (len (body (fs ++ [d]))) = body (fs ++ [d]) /\
      len (body (fs ++ [d])) <= len input /\
      ps_records rep = salvaged_records HEADER_LEN (fs ++ [d]) /\ ps_reached_directory rep = true /\
      ps_diagnostics rep = [])).

Definition turn_result (fs : list Frame) (res : R Turn * (SliceSource * N)) : Prop :=
  match res with
  | (Ok (Break rep'), _) => scanned rep' fs
  | (Ok (Continue rep' offset' ids'), st) => exists f,
      passed (fs ++ [f]) /\ at_prefix rep' (fs ++ [f]) /\ st.1 = src /\
      offset' = HEADER_LEN + len (frames_bytes (fs ++ [f])) /\ ids' = list_to_set (f_id <$> (fs ++ [f]))
  | (Err e, _) => e = LimitExceeded "total bytes read"
  end.

Lemma stop_scanned rep fs e :
  passed fs -> at_prefix rep fs ->
  scanned (push limits rep Salvage (HEADER_LEN + len (frames_bytes fs)) e) fs.
Proof.
  intros Hp (H1 & H2 & H3 & H4 & H5). unfold scanned, push. simpl. split_and!; try done.
  left. split_and!; try done. right. exists e. by rewrite H4.
Qed.

Lemma salvage_turn_cases rep fs k :
  passed fs -> at_prefix rep fs -> HEADER_LEN + len (frames_bytes fs) < len input ->
  turn_result fs (salvage_turn limits rep (HEADER_LEN + len (frames_bytes fs)) (list_to_set (f_id <$> fs)) (src, k)).
Proof.
  intros Hp Hat Hlt. pose proof Hat as (A1 & A2 & A3 & A4 & A5).
  set (off := HEADER_LEN + len (frames_bytes fs)) in *.
  assert (Hstop : forall e st, turn_result fs (Ok (Break (push limits rep Salvage off e)), st))
    by (intros e st; by apply stop_scanned).
  unfold salvage_turn, se_ret. rewrite A2, A3, salvaged_records_len.
  assert (Hfs : len fs <= U64_MAX).
  { pose proof (len_le_frames_bytes fs). unfold off, RECORD_HEADER_LEN, HEADER_LEN in *. lia. }
  rewrite try_u64_fits by done.
  destruct (N.leb_spec (max_records limits) (len fs)) as [|Hc]; [apply Hstop|].
  destruct (checked_add off RECORD_HEADER_LEN) as [he|] eqn:Ehe; [|apply Hstop].
  apply checked_add_Some in Ehe as [-> Ehe].
  destruct (N.ltb_spec (len input) (off + RECORD_HEADER_LEN)) as [|Hhe]; [apply Hstop|].
  unfold se_bind. rewrite read_bounded_slice by done.
  destruct (_ && _); [|done].
  destruct (parse_record _ off limits _) as [[r ids']|e] eqn:Er; [|apply Hstop].
  apply parse_record_Ok in Er as (h & Hf & Hpl & Hb & -> & Hids);
    [|rewrite slice_len by lia; unfold RECORD_HEADER_LEN; lia|by apply passed_zero].
  cbn [sal_stored_len sal_kind].
  destruct (checked_add (off + RECORD_HEADER_LEN) (h_stored_len h)) as [pe|] eqn:Epe; [|apply Hstop].
  apply checked_add_Some in Epe as [-> Epe].
  destruct (N.ltb_spec (len input) (off + RECORD_HEADER_LEN + h_stored_len h)) as [|Hpe]; [apply Hstop|].
  destruct (frame_at_bytes input off h Hpe Hb) as [Hl Hs].
  destruct (Hids (frame_at input off h) eq_refl eq_refl) as [[Hrule Hfr] ->].
  assert (Hrec : mkSalvaged (h_kind h) (h_object_id h) off (h_stored_len h) (h_stored_len h)
    = salvaged off (frame_at input off h)) by (unfold salvaged; by rewrite Hl).
  assert (Hok : frame_ok limits (frame_at input off h)).
  { split_and!; [done|by destruct Hf as (_ & ? & _)|by rewrite Hl]. }
  assert (Hfl : frame_len (frame_at input off h) = RECORD_HEADER_LEN + h_stored_len h)
    by (unfold frame_len; by rewrite Hl).
  rewrite Hrec. set (f := frame_at input off h) in *.
  assert (Hk : h_kind h = f_kind f) by done. rewrite Hk. clearbody f.
  rewrite elem_of_list_to_set in Hfr. case_bool_decide as Hd.
  - assert (Hf0 : f = mkFrame Directory 0 (f_payload f)).
    { assert (Hi0 : f_id f = 0) by (by apply (proj1 Hrule)). destruct f as [kk i p].
      cbn [f_kind f_id f_payload] in *. by rewrite Hd, Hi0. }
    assert (Hbl : len (body (fs ++ [f])) = off + frame_len f).
    { rewrite body_len, frames_bytes_snoc, len_app, frame_bytes_len. unfold off. lia. }
    split_and!; [done|done|done|]. right. exists (f_payload f). rewrite <- Hf0. split_and!; try done.
    + rewrite Hbl, <- (slice_join input 0 off) by lia. pose proof (ps_slice _ Hp) as E. fold off in E.
      by rewrite E, Hs, body_snoc.
    + rewrite Hbl. lia.
    + simpl. by rewrite salvaged_records_snoc.
  - destruct (passed_snoc fs f Hp Hd Hok Hfr Hc) as [Hp' Hids']; [fold off; lia|exact Hs|].
    exists f. split_and!; [done| |done| |done].
    + unfold at_prefix. simpl. split_and!; try done. by rewrite salvaged_records_snoc.
    + rewrite frames_bytes_snoc, len_app, frame_bytes_len. unfold off in *. lia.
Qed.

(** The fuel of the loop is enough: it ends in a report, or because the
    read budget is used up. *)
Lemma salvage_loop_cases fuel rep fs k :
  passed fs -> at_prefix rep fs ->
  len input < HEADER_LEN + len (frames_bytes fs) + N.of_nat fuel ->
  match salvage_loop limits fuel rep (HEADER_LEN + len (frames_bytes fs)) (list_to_set (f_id <$> fs)) (src, k) with
  | (Ok rep', _) => exists gs, scanned rep' gs
  | (Err e, _) => e = LimitExceeded "total bytes read"
  end.
Proof.
  revert rep fs k. induction fuel as [|fuel IH]; intros rep fs k Hp Hat Hfuel.
  - pose proof (ps_fit _ Hp). lia.
  - cbn [salvage_loop]. pose proof Hat as (A1 & A2 & A3 & A4 & A5). rewrite A2.
    destruct (N.ltb_spec (HEADER_LEN + len (frames_bytes fs)) (len input)) as [Hlt|Hge].
    + pose proof (salvage_turn_cases rep fs k Hp Hat Hlt) as Ht. unfold se_bind.
      destruct (salvage_turn _ _ _ _ _) as [[[rep'|rep' off' ids']|e] st]; [by exists fs| |done].
      destruct Ht as (f & Hp' & Hat' & Hst & -> & ->). destruct st as [s k']. simpl in Hst. subst s.
      apply IH; [done|done|]. rewrite frames_bytes_snoc, len_app, frame_bytes_len.
      unfold frame_len, RECORD_HEADER_LEN. lia.
    + exists fs. split_and!; [done|done|done|]. left. split_and!; [done|done|]. left. split; [done|].
      pose proof (ps_fit _ Hp). lia.
Qed.
End Scan.

(** The scan of a byte slice: total, and its report describes a prefix of the
    input. *)
Lemma scan_cases limits input :
  limits_ok limits -> len input <= U64_MAX -> max_diagnostics limits <> 0 ->
  match (scan limits (mkSliceSource input)).1 with
  | Ok rep =>
      (exists fs, scanned input limits rep fs) \/
      (ps_status rep = UnverifiedPrefix /\ ps_file_len rep = len input /\ ps_records rep = [] /\
       ps_reached_directory rep = false /\ slice input 0 HEADER_LEN <> file_header)
  | Err e => e = LimitExceeded "file bytes" /\ max_file_bytes limits < len input \/
             e = LimitExceeded "total bytes read"
  end.
Proof.
  intros Hlim Hu Hd. unfold scan. rewrite (proj2 (N.eqb_neq _ 0)) by done.
  cbn [source_len slice_read_at slice_bytes]. rewrite try_u64_fits by done.
  destruct (N.ltb_spec (max_file_bytes limits) (len input)) as [Hf|Hf]; [by left|].
  unfold scan_body. destruct (N.ltb_spec (len input) HEADER_LEN) as [Hs|Hs].
  - right. simpl. split_and!; try done. intros E. apply (f_equal len) in E.
    rewrite file_header_len in E. unfold slice, len in *. rewrite length_take, length_drop in E.
    unfold HEADER_LEN in *. lia.
  - unfold se_bind. rewrite read_bounded_slice by done.
    destruct (_ && _); [|by right].
    set (b := slice input 0 (0 + HEADER_LEN)).
    assert (Hb : len b = HEADER_LEN) by (unfold b; rewrite slice_len by lia; unfold HEADER_LEN; lia).
    unfold salvage_validate_header.
    destruct (validate_header b) as [u|e] eqn:Hv.
    + destruct u. apply validate_header_Ok in Hv; [|rewrite Hb; done..].
      rewrite (slice_full _ _ Hb) in Hv.
      set (rep0 := mkSalvage _ _ _ _ _ _).
      assert (Hp : passed input limits []).
      { split; try constructor; try done. apply N.le_0_l. }
      pose proof (salvage_loop_cases input limits Hlim Hu (S (N.to_nat (len input))) rep0 [] (0 + HEADER_LEN) Hp) as Hl.
      change (HEADER_LEN + len (frames_bytes [])) with HEADER_LEN in Hl.
      change (list_to_set (f_id <$> [])) with (∅ : gset N) in Hl.
      specialize (Hl ltac:(by split_and!) ltac:(lia)).
      destruct (salvage_loop _ _ _ _ _ _) as [[rep|e] [s k]]; simpl.
      * left. destruct Hl as [gs Hg]. by exists gs.
      * by right.
    + right. simpl. split_and!; try done. intros E. change (0 + HEADER_LEN) with HEADER_LEN in b.
      fold b in E. assert (validate_header b = Ok tt); [|congruence].
      apply validate_header_Ok; rewrite ?Hb; try done. by rewrite (slice_full _ _ Hb).
Qed.
