(* ===== verification/AccessTheorems.v ===== *)
(** What the source, stream and diagnostic readers and the streaming writer
    guarantee, each with a concrete instance. *)

From Stdlib Require Import Strings.Byte Strings.String NArith ZArith Lia.
From stdpp Require Import base list gmap strings sorting.
From S2P Require Import Prelude Order Errors Format Cbor CborFacts Model Schema Digest Frame Image.
From S2P Require Import Machine Writer WriterFacts Reader ReaderFacts Source SourceFacts.
From S2P Require Import SourceFacts SourceValidate ValidateFacts Stream StreamFacts.
From S2P Require Import StreamWriter StreamWriterFacts CoreTheorems Diagnostic DiagnosticFacts.

Local Open Scope N_scope.

(** ** The small document again *)

Lemma sample_inspected : inspected default_limits sample_frames 2 sample_manifest.
Proof.
  split; [exact sample_accepted|].
  split; [|split; apply N.leb_le; vm_compute; reflexivity].
  repeat constructor; intros [=].
Qed.

Lemma sample_streamed : streamed default_limits sample_frames 2 sample_manifest.
Proof.
  split; [exact sample_accepted|apply sample_inspected| | | |].
  - intros f Hf Hk. unfold sample_frames, sample_ops in Hf. cbn [fmap list_fmap op_frame] in Hf.
    apply elem_of_cons in Hf as [->|Hf]; [done|]. apply elem_of_cons in Hf as [->|Hf].
    + exists sample_manifest. split; [done|].
      split; [apply (sel_metadata _ _ _ _ sample_selects)|apply (sel_shape _ _ _ _ sample_selects)].
    + apply list_elem_of_singleton in Hf as ->. done.
  - apply N.leb_le. vm_compute. reflexivity.
  - apply N.leb_le. vm_compute. reflexivity.
  - repeat constructor; intros _; apply N.leb_le; vm_compute; reflexivity.
Qed.

Lemma sample_image_len : len (@image example_sha sample_frames 2) <= U64_MAX.
Proof. apply N.leb_le. vm_compute. reflexivity. Qed.

(** ** The sequential reader *)

(** C3. A run of [next_event] that ends in the done state has emitted a
    [Commit] as its last event, and by then the source has delivered exactly
    the image of a document the stream accepts; the commit describes that
    document, and the record and chunk events before it spell out its frames.
    This holds for any source. *)
Theorem stream_commit_is_image `{Sha256} {S} `{ReadStreamOk S} limits (s : S) evs r :
  limits_ok limits -> stream_run limits (mkRecorded s []) evs r -> state r = SDone ->
  exists fs mid m c evs', evs = evs' ++ [Commit c] /\ mid <= U64_MAX /\ streamed limits fs mid m /\
    rec_bytes (inner r) = image fs mid /\ commit_of fs mid m c /\
    collected evs' = (fs ++ [directory_frame fs], None).
Proof.
  intros Hl Hr Hd. pose proof (run_invariant limits Hl s _ _ Hr) as Hinv. unfold run_inv in Hinv.
  rewrite Hd in Hinv. destruct Hinv as (fs & c & evs' & -> & _).
  destruct (stream_commit_sound limits s evs' r c Hl Hr) as (gs & mid & m & Ha & Hb & Hc & Hd2 & He & _).
  by exists gs, mid, m, c, evs'.
Qed.

Lemma sample_run :
  exists evs r, @stream_run (Recorded Cursor) example_sha _ default_limits
      (mkRecorded (mkCursor (@image example_sha sample_frames 2) 0) []) evs r /\ state r = SDone.
Proof.
  destruct (@stream_complete example_sha example_sha_ok default_limits sample_frames 2 sample_manifest []
    (stream_new (mkRecorded (mkCursor (@image example_sha sample_frames 2) 0) []))) as (evs & r & Hr & Hd).
  - exact default_limits_ok.
  - apply N.leb_le. vm_compute. reflexivity.
  - exact sample_streamed.
  - apply N.ltb_lt. vm_compute. reflexivity.
  - apply N.ltb_lt. vm_compute. reflexivity.
  - apply run_start.
  - by exists evs, r.
Qed.

Lemma stream_commit_is_image_witness :
  exists (evs : list StreamEvent) (r : SequentialReader (Recorded Cursor)), state r = SDone /\
  exists fs mid m c evs', evs = evs' ++ [Commit c] /\ mid <= U64_MAX /\ streamed default_limits fs mid m /\
    rec_bytes (inner r) = @image example_sha fs mid /\ commit_of fs mid m c /\
    collected evs' = (fs ++ [directory_frame fs], None).
Proof.
  destruct sample_run as (evs & r & Hr & Hd). exists evs, r. split; [exact Hd|].
  exact (@stream_commit_is_image example_sha Cursor _ _ default_limits
    (mkCursor (@image example_sha sample_frames 2) 0) evs r default_limits_ok Hr Hd).
Defined.

(** C4. Over the image of a document the stream accepts, every run, however
    far it has got, can be carried on to the commit: no step fails and the
    events do not go on forever. *)
Theorem stream_reaches_commit `{Sha256Ok} limits fs mid m evs r :
  limits_ok limits -> mid <= U64_MAX -> streamed limits fs mid m ->
  0 < max_stream_chunk_bytes limits -> 0 < max_allocation_bytes limits ->
  stream_run limits (mkRecorded (mkCursor (image fs mid) 0) []) evs r ->
  exists evs' r', stream_run limits (mkRecorded (mkCursor (image fs mid) 0) []) (evs ++ evs') r' /\
    state r' = SDone.
Proof. apply stream_complete. Qed.

Lemma stream_reaches_commit_witness :
  exists evs r, @stream_run (Recorded Cursor) example_sha _ default_limits
      (mkRecorded (mkCursor (@image example_sha sample_frames 2) 0) []) ([] ++ evs) r /\ state r = SDone.
Proof.
  apply (@stream_reaches_commit example_sha example_sha_ok default_limits sample_frames 2 sample_manifest []
    (stream_new (mkRecorded (mkCursor (@image example_sha sample_frames 2) 0) []))).
  - exact default_limits_ok.
  - apply N.leb_le. vm_compute. reflexivity.
  - exact sample_streamed.
  - apply N.ltb_lt. vm_compute. reflexivity.
  - apply N.ltb_lt. vm_compute. reflexivity.
  - apply run_start.
Defined.

(** Termination: whatever the source delivers, a run has at most as many
    events as bytes read, which the read budget bounds, and every run can be
    extended to one on which [next_event] emits nothing more. *)
Theorem stream_runs_end `{Sha256} {S} `{ReadStreamOk S} limits (s : S) evs r :
  limits_ok limits -> stream_run limits (mkRecorded s []) evs r ->
  len evs <= st_bytes_read (stats r) /\ st_bytes_read (stats r) <= max_total_bytes_read limits /\
  exists evs' r', stream_run limits (mkRecorded s []) (evs ++ evs') r' /\
    forall e r2, next_event limits r' <> (Ok (Some e), r2).
Proof.
  intros Hl Hr. pose proof (run_length limits Hl s _ _ Hr) as Hlen. pose proof (run_bytes limits Hl s _ _ Hr) as Hbytes.
  unfold bytes_of in *. split; [lia|]. split; [done|].
  destruct (run_to_end limits Hl s _ _ Hr) as (evs' & r' & Hr' & Hst). by exists evs', r'.
Qed.

Lemma stream_runs_end_witness :
  exists (evs : list StreamEvent) (r : SequentialReader (Recorded Cursor)),
    state r = SDone /\ len evs <= st_bytes_read (stats r).
Proof.
  destruct sample_run as (evs & r & Hr & Hd). exists evs, r. split; [exact Hd|].
  exact (proj1 (@stream_runs_end example_sha Cursor _ _ default_limits
    (mkCursor (@image example_sha sample_frames 2) 0) evs r default_limits_ok Hr)).
Defined.

(** Failure is final: once [next_event] has failed, every later call
    fails in the same way and leaves the reader as it is; through the iterator
    the error is delivered once and the iteration is over. *)
Theorem failed_reader_stays_failed `{Sha256} {S} `{ReadStream S} limits (r r' : SequentialReader S) e :
  next_event limits r = (Err e, r') ->
  state r' = SFailed /\
  next_event limits r' = (Err (InvalidRecordOrder "reader used after failure"), r') /\
  exists r2, stream_next limits r = (Some (Err e), r2) /\ stream_next limits r2 = (None, r2).
Proof.
  intros Hn. assert (Hs : state r' = SFailed).
  { unfold next_event in Hn. destruct (match state r with SHeader => _ | _ => _ end) as [[o|e'] r1]; [done|].
    by injection Hn as _ <-. }
  split; [done|]. split.
  - unfold next_event. rewrite Hs. by destruct r'; simpl in *; subst.
  - exists (set_state SDone r'). unfold stream_next. by rewrite Hn.
Qed.

Lemma failed_reader_stays_failed_witness :
  let r := stream_new (mkCursor [Byte.x00] 0) in
  exists e r', @next_event example_sha Cursor _ default_limits r = (Err e, r') /\ state r' = SFailed.
Proof.
  assert (Hn : exists e r', @next_event example_sha Cursor _ default_limits (stream_new (mkCursor [Byte.x00] 0))
    = (Err e, r')) by (eexists _, _; vm_compute; reflexivity).
  destruct Hn as (e & r' & Hn). exists e, r'. split; [exact Hn|].
  exact (proj1 (@failed_reader_stays_failed example_sha Cursor _ default_limits _ r' e Hn)).
Defined.

(** ** Validation and inspection over ranged reads *)

Lemma sample_validates :
  exists rep s, @validate example_sha _ _ default_limits (mkSliceSource (@image example_sha sample_frames 2)) = (Ok rep, s).
Proof.
  assert (Hm : 2 <= U64_MAX) by (apply N.leb_le; vm_compute; reflexivity).
  pose proof (@validate_decided example_sha example_sha_ok default_limits sample_frames 2 sample_manifest default_limits_ok Hm sample_inspected) as Hd.
  assert (Hb : (validate_cost sample_frames sample_manifest <=? max_total_bytes_read default_limits) = true) by (vm_compute; reflexivity).
  rewrite Hb in Hd. assert (Hz : (N.min (max_stream_chunk_bytes default_limits) (max_allocation_bytes default_limits) =? 0) = false)
    by (vm_compute; reflexivity). rewrite Hz in Hd. destruct Hd as (rep & Hv & _). by eexists rep, _.
Qed.

(** C5. [SourceValidator::validate], over the bytes of a file, accepts exactly
    the images of documents whose frames include no interior directory and
    whose validation the read budget covers: what it accepts is such an image,
    the budget covers the inspection, the committed prefix and the footer, and
    exactly those bytes were read and the prefix hashed; on every image it
    succeeds when the budget covers that and the block size is not zero, and
    is refused with a limit when not. Its report states the document, with its
    integrity verified. *)
Theorem validator_accepts_exactly_images `{Sha256Ok} limits : limits_ok limits ->
  (forall input rep s, len input <= U64_MAX -> validate limits (mkSliceSource input) = (Ok rep, s) ->
    exists fs mid m, mid <= U64_MAX /\ inspected limits fs mid m /\ input = image fs mid /\ validation_of input rep fs mid m /\
      0 < N.min (max_stream_chunk_bytes limits) (max_allocation_bytes limits) /\
      validate_cost fs m <= max_total_bytes_read limits /\ validation_reads rep fs m) /\
  (forall fs mid m, mid <= U64_MAX -> inspected limits fs mid m ->
    if (validate_cost fs m <=? max_total_bytes_read limits) && (0 <? max_stream_chunk_bytes limits) && (0 <? max_allocation_bytes limits) then
      exists rep s, validate limits (mkSliceSource (image fs mid)) = (Ok rep, s) /\
        validation_of (image fs mid) rep fs mid m /\ validation_reads rep fs m
    else exists label s, validate limits (mkSliceSource (image fs mid)) = (Err (LimitExceeded label), s)).
Proof.
  intros Hl. split; [intros; by eapply validate_sound_cost|]. intros fs mid m Hm Hi. pose proof (validate_decided limits fs mid m Hl Hm Hi) as Hd.
  destruct (validate_cost fs m <=? max_total_bytes_read limits); [|done]. cbn [andb].
  destruct (N.eqb_spec (N.min (max_stream_chunk_bytes limits) (max_allocation_bytes limits)) 0) as [Hz|Hz].
  - assert (Hb : (0 <? max_stream_chunk_bytes limits) && (0 <? max_allocation_bytes limits) = false)
      by (rewrite andb_false_iff, !N.ltb_ge; lia). rewrite Hb. destruct Hd as (s & Hd). by eexists _, s.
  - rewrite !(proj2 (N.ltb_lt _ _)) by lia. cbn [andb]. destruct Hd as (rep & Hd). by exists rep, (mkSliceSource (image fs mid)).
Qed.

Lemma validator_accepts_exactly_images_witness :
  (exists rep fs mid m, mid <= U64_MAX /\ inspected default_limits fs mid m /\
    @image example_sha sample_frames 2 = @image example_sha fs mid /\
    validation_of (@image example_sha sample_frames 2) rep fs mid m /\ validate_cost fs m <= max_total_bytes_read default_limits) /\
  (exists rep s, @validate example_sha _ _ default_limits (mkSliceSource (@image example_sha sample_frames 2)) = (Ok rep, s) /\
    validation_of (@image example_sha sample_frames 2) rep sample_frames 2 sample_manifest /\
    validation_reads rep sample_frames sample_manifest).
Proof.
  destruct (@validator_accepts_exactly_images example_sha example_sha_ok default_limits default_limits_ok) as [Hsound Hcomplete]. split.
  - destruct sample_validates as (rep & s & Hv). exists rep.
    destruct (Hsound _ rep s sample_image_len Hv) as (fs & mid & m & H1 & H2 & H3 & H4 & _ & H5 & _).
    exists fs, mid, m. exact (conj H1 (conj H2 (conj H3 (conj H4 H5)))).
  - assert (Hm : 2 <= U64_MAX) by (apply N.leb_le; vm_compute; reflexivity).
    specialize (Hcomplete sample_frames 2 sample_manifest Hm sample_inspected).
    assert (Hb : (validate_cost sample_frames sample_manifest <=? max_total_bytes_read default_limits) &&
      (0 <? max_stream_chunk_bytes default_limits) && (0 <? max_allocation_bytes default_limits) = true) by (vm_compute; reflexivity).
    rewrite Hb in Hcomplete. exact Hcomplete.
Defined.

(** C7. [SourceInspector::inspect], over the bytes of a file, accepts exactly
    the images of documents, up to the digest field, which it does not check,
    whose inspection the read budget covers: what it accepts is such an image,
    and the budget covers the header, the footer, the directory record, one
    record header per object and the manifest payload; on every image it
    succeeds when the budget covers those, and is refused for the budget when
    not. It reads exactly those bytes, in [n + 5] reads for [n] objects: no
    opaque payload is read. Its report describes the document, with integrity
    not checked. *)
Theorem inspector_accepts_exactly_images limits : limits_ok limits ->
  (forall input rep s, len input <= U64_MAX -> inspect limits (mkSliceSource input) = (Ok rep, s) ->
    exists fs mid m g, len g = 32 /\ mid <= U64_MAX /\ inspected limits fs mid m /\
      input = image_with fs mid g /\ report_of input rep fs mid m /\ inspect_cost fs m <= max_total_bytes_read limits /\
      rs_bytes_read (ir_stats rep) = inspect_cost fs m /\ rs_read_operations (ir_stats rep) = len fs + 5) /\
  (forall fs mid m g, len (image_with fs mid g) <= U64_MAX -> len g = 32 -> mid <= U64_MAX ->
    inspected limits fs mid m ->
    if inspect_cost fs m <=? max_total_bytes_read limits then
      exists rep, inspect limits (mkSliceSource (image_with fs mid g)) = (Ok rep, mkSliceSource (image_with fs mid g)) /\
        report_of (image_with fs mid g) rep fs mid m /\
        rs_bytes_read (ir_stats rep) = inspect_cost fs m /\ rs_read_operations (ir_stats rep) = len fs + 5
    else exists s, inspect limits (mkSliceSource (image_with fs mid g)) = (Err (LimitExceeded "total bytes read"), s)).
Proof.
  intros Hl. split; [intros input rep s; by apply inspect_sound_cost|].
  intros fs mid m g Hu Hg Hm Hi. exact (inspect_decided _ limits Hl Hu fs mid m g Hg Hm Hi eq_refl).
Qed.

Lemma inspector_accepts_exactly_images_witness :
  (exists rep fs mid m g, len g = 32 /\ mid <= U64_MAX /\ inspected default_limits fs mid m /\
    @image example_sha sample_frames 2 = image_with fs mid g /\
    report_of (@image example_sha sample_frames 2) rep fs mid m /\ rs_bytes_read (ir_stats rep) = inspect_cost fs m) /\
  let g := zeros 32 in
  exists rep, inspect default_limits (mkSliceSource (image_with sample_frames 2 g))
      = (Ok rep, mkSliceSource (image_with sample_frames 2 g)) /\
    report_of (image_with sample_frames 2 g) rep sample_frames 2 sample_manifest /\
    rs_bytes_read (ir_stats rep) = inspect_cost sample_frames sample_manifest /\
    rs_read_operations (ir_stats rep) = len sample_frames + 5.
Proof.
  destruct (inspector_accepts_exactly_images default_limits default_limits_ok) as [Hsound Hcomplete]. split.
  - assert (Hi : exists rep, inspect default_limits (mkSliceSource (@image example_sha sample_frames 2))
      = (Ok rep, mkSliceSource (@image example_sha sample_frames 2))) by (eexists; vm_compute; reflexivity).
    destruct Hi as [rep Hi]. exists rep. destruct (Hsound _ rep _ sample_image_len Hi) as (fs & mid & m & g & H1 & H2 & H3 & H4 & H5 & _ & H6 & _).
    exists fs, mid, m, g. exact (conj H1 (conj H2 (conj H3 (conj H4 (conj H5 H6))))).
  - assert (Hu : len (image_with sample_frames 2 (zeros 32)) <= U64_MAX) by (apply N.leb_le; vm_compute; reflexivity).
    assert (Hm : 2 <= U64_MAX) by (apply N.leb_le; vm_compute; reflexivity).
    specialize (Hcomplete sample_frames 2 sample_manifest (zeros 32) Hu eq_refl Hm sample_inspected).
    assert (Hb : (inspect_cost sample_frames sample_manifest <=? max_total_bytes_read default_limits) = true) by (vm_compute; reflexivity).
    rewrite Hb in Hcomplete. exact Hcomplete.
Defined.

(** Whatever the source answers, the reads one inspection asks for lie
    inside the length the source declared, ask for at most the larger of the
    footer and the allocation limit each, and sum to at most the read budget;
    a report's byte count is their sum. *)
Theorem inspect_budget {S} `{ReadAt S} limits (s : S) :
  exists file_len,
    within limits file_len (N.max FOOTER_LEN (max_allocation_bytes limits))
      (lg_log (inspect limits (mkLogged s [])).2) /\
    forall r, (inspect limits (mkLogged s [])).1 = Ok r ->
      rs_bytes_read (ir_stats r) = requested (lg_log (inspect limits (mkLogged s [])).2).
Proof. apply inspect_within. Qed.

(** The result of [inspect] depends on the bytes alone: a byte slice and a
    seekable cursor over them, wherever it stands, give the same report or the
    same error, the statistics included. *)
Theorem inspect_source_independent b p limits :
  len b <= U64_MAX ->
  (inspect limits (mkSliceSource b)).1 = (inspect limits (mkSeekSource (mkCursor b p))).1.
Proof.
  intros Hb.
  apply (inspect_same (fun s b => slice_bytes s = b) (fun s b => cursor_bytes (seek_inner s) = b) b limits Hb
    (mkSliceSource b) (mkSeekSource (mkCursor b p)) eq_refl eq_refl).
Qed.

Lemma inspect_source_independent_witness :
  (inspect default_limits (mkSliceSource file_header)).1
  = (inspect default_limits (mkSeekSource (mkCursor file_header 7))).1.
Proof. apply (inspect_source_independent file_header 7). apply N.leb_le. vm_compute. reflexivity. Defined.
