(* ===== verification/OutputTheorems.v ===== *)
(** What the streaming writer, the diagnostic facade and prefix salvage
    guarantee, and where the readers disagree, each with a concrete instance. *)

From Stdlib Require Import Strings.Byte Strings.String NArith ZArith Lia.
From stdpp Require Import base list gmap strings sorting.
From S2P Require Import Prelude Order Errors Format Cbor CborFacts Model Schema Digest Frame Image.
From S2P Require Import Machine Writer WriterFacts Reader ReaderFacts Source SourceFacts.
From S2P Require Import SourceFacts SourceValidate ValidateFacts Stream StreamFacts StreamWriter.
From S2P Require Import StreamWriterFacts Unique CoreTheorems Diagnostic DiagnosticFacts.
From S2P Require Import AccessTheorems.

Local Open Scope N_scope.

(** ** The streaming writer *)

(** C11. Whatever the sink does, when [StreamingWriter] finishes after a script
    of calls the sink has taken exactly the image of the script: the calls were
    well formed, the manifest was among them and every size was within the
    limits. *)
Theorem streaming_writer_writes_image `{Sha256Ok} {W} `{WriteSink W} limits (inner : W) ops mid fw :
  limits_ok limits -> sw_write_file limits (mkLogging inner []) ops mid = Ok fw ->
  script_ok [] ops /\ is_manifest (op_frame <$> ops) mid = true /\ sw_fits limits (op_frame <$> ops) /\
  log_bytes (fw_inner fw) = image (op_frame <$> ops) mid /\
  fw_bytes_written fw = len (image (op_frame <$> ops) mid).
Proof. intros Hl. by apply sw_write_file_sound. Qed.

Lemma sample_sw_fits : @sw_fits default_limits sample_frames.
Proof.
  split; [repeat constructor; apply N.leb_le; vm_compute; reflexivity|].
  split_and!; apply N.leb_le; vm_compute; reflexivity.
Qed.

Lemma sample_script : script_ok [] sample_ops.
Proof.
  assert (Hl : len (committed (op_frame <$> sample_ops)) <= U64_MAX) by (apply N.leb_le; vm_compute; reflexivity).
  assert (Hw : @write_file example_sha sample_ops 2 = Ok (@image example_sha sample_frames 2))
    by (vm_compute; reflexivity).
  by destruct (proj1 (@write_file_Ok example_sha sample_ops 2 _ Hl) Hw) as (Hs & _ & _).
Qed.

Lemma sample_streams_out :
  exists fw, @sw_write_file example_sha (Logging bytes) _ default_limits (mkLogging [] []) sample_ops 2 = Ok fw.
Proof.
  exact (@sw_write_file_complete example_sha example_sha_ok bytes _ default_limits default_limits_ok _ [] sample_ops 2
    sample_script eq_refl sample_sw_fits).
Qed.

Lemma streaming_writer_writes_image_witness :
  exists fw, @sw_write_file example_sha (Logging bytes) _ default_limits (mkLogging [] []) sample_ops 2 = Ok fw /\
    log_bytes (fw_inner fw) = @image example_sha sample_frames 2.
Proof.
  destruct sample_streams_out as [fw Hw]. exists fw. split; [exact Hw|].
  apply (@streaming_writer_writes_image example_sha example_sha_ok bytes _ default_limits [] sample_ops 2 fw
    default_limits_ok Hw).
Defined.

(** C12. On a sink whose writes succeed, every well-formed script within the
    limits is written to the end. *)
Theorem streaming_writer_completes `{Sha256Ok} {W} `{ReliableSink W} limits (inner : W) ops mid :
  limits_ok limits -> script_ok [] ops -> is_manifest (op_frame <$> ops) mid = true ->
  sw_fits limits (op_frame <$> ops) ->
  exists fw, sw_write_file limits (mkLogging inner []) ops mid = Ok fw.
Proof. intros Hl. by apply sw_write_file_complete. Qed.

Lemma streaming_writer_completes_witness :
  exists fw, @sw_write_file example_sha (Logging bytes) _ default_limits (mkLogging [] []) sample_ops 2 = Ok fw.
Proof.
  exact (@streaming_writer_completes example_sha example_sha_ok bytes _ _ default_limits [] sample_ops 2
    default_limits_ok sample_script eq_refl sample_sw_fits).
Defined.

(** The two writers agree: within the limits of the streaming one, a
    script succeeds with the in-memory [Writer] exactly when it does with
    [StreamingWriter] over a reliable sink, and then the bytes are the same. *)
Theorem writers_agree `{Sha256Ok} {W} `{ReliableSink W} limits (inner : W) ops mid out :
  limits_ok limits -> sw_fits limits (op_frame <$> ops) ->
  write_file ops mid = Ok out <->
  exists fw, sw_write_file limits (mkLogging inner []) ops mid = Ok fw /\ log_bytes (fw_inner fw) = out.
Proof.
  intros Hl Hfit.
  assert (Hc : len (committed (op_frame <$> ops)) <= U64_MAX).
  { assert (max_file_bytes limits <= U64_MAX) by (apply (limits_ok_field limits); [done|set_solver]).
    destruct Hfit as (_ & _ & Hff & _). lia. }
  rewrite (write_file_Ok ops mid out Hc). split.
  - intros (Hs & Hm & ->). destruct (sw_write_file_complete limits Hl inner ops mid Hs Hm Hfit) as [fw Hw].
    exists fw. split; [done|]. by apply (sw_write_file_sound limits Hl) in Hw as (_ & _ & _ & ? & _).
  - intros (fw & Hw & <-). by apply (sw_write_file_sound limits Hl) in Hw as (? & ? & _ & ? & _).
Qed.

Lemma writers_agree_witness :
  exists fw, @sw_write_file example_sha (Logging bytes) _ default_limits (mkLogging [] []) sample_ops 2 = Ok fw /\
    log_bytes (fw_inner fw) = @image example_sha sample_frames 2.
Proof.
  apply (@writers_agree example_sha example_sha_ok bytes _ _ default_limits [] sample_ops 2
    (@image example_sha sample_frames 2) default_limits_ok sample_sw_fits).
  vm_compute. reflexivity.
Defined.

(** Copying a payload from a reader into a writer that holds the frames
    [fs]: on success the record's payload is exactly the [n] bytes the reader
    delivered, and on any failure the writer is unchanged or has failed for
    good; the copy loop ends. *)
Theorem copy_from_reader `{Sha256} {W} `{WriteSink W} {T} `{ReadStreamOk T} limits i n (source : Recorded T)
    (w : StreamingWriter (Logging W)) fs :
  limits_ok limits -> n <= U64_MAX -> streams limits w fs ->
  let '(r, source', w') := sw_add_opaque_from_reader limits i n source w in
  match r with
  | Ok _ => exists p, len p = n /\ rec_bytes source' = rec_bytes source ++ p /\
      streams limits w' (fs ++ [mkFrame Opaque i p])
  | Err _ => sw_failed w' = true \/ w' = w
  end.
Proof. intros Hl. by apply sw_from_reader_cases. Qed.

Lemma copy_from_reader_witness :
  exists w, @streaming_new (Logging bytes) _ (mkLogging [] []) default_limits = Ok w /\
  let '(r, source', w') := sw_add_opaque_from_reader default_limits 1 2
      (mkRecorded (mkCursor [Byte.x61; Byte.x62; Byte.x63] 0) []) w in
  match r with
  | Ok _ => exists p, len p = 2 /\ rec_bytes source' = [] ++ p /\
      streams default_limits w' ([] ++ [mkFrame Opaque 1 p])
  | Err _ => sw_failed w' = true \/ w' = w
  end.
Proof.
  destruct (streaming_new_run default_limits default_limits_ok ([] : bytes)) as [w Hw];
    [apply N.leb_le; vm_compute; reflexivity|].
  exists w. split; [exact Hw|].
  exact (@copy_from_reader example_sha bytes _ Cursor _ _ default_limits 1 2
    (mkRecorded (mkCursor [Byte.x61; Byte.x62; Byte.x63] 0) []) w [] default_limits_ok
    (proj1 (N.leb_le 2 U64_MAX) eq_refl) (streaming_new_Ok default_limits [] w Hw)).
Defined.

(** A failed writer stays failed: every operation on it returns an error
    and leaves the writer, the sink and the payload source untouched. *)
Theorem failed_writer_final `{Sha256} {W} `{WriteSink W} {T} `{ReadStream T} limits (w : StreamingWriter W) :
  sw_failed w = true ->
  let used := InvalidRecordOrder "writer used after failure" in
  (forall i p, len p <= U64_MAX -> sw_add_opaque limits i p w = (Err used, w)) /\
  (forall i m, exists e, sw_add_manifest limits i m w = (Err e, w)) /\
  (forall i n (source : T), sw_add_opaque_from_reader limits i n source w = (Err used, source, w)) /\
  (forall mid, sw_finish limits mid w = (Err used, w)).
Proof.
  intros Hf used.
  assert (Hb : forall k i n, begin_record limits k i n w = (Err used, w)).
  { intros k i n. unfold begin_record, ensure_open, se_bind, se_get, guard, se_lift. by rewrite Hf. }
  split_and!.
  - intros i p Hp. unfold sw_add_opaque, se_bind, se_lift. rewrite try_u64_fits by done. cbn [ok_or]. by rewrite Hb.
  - intros i m. unfold sw_add_manifest, se_bind, se_lift. destruct (validate_shape m); [|by eexists].
    destruct (encode_canonical _); [|by eexists]. destruct (ok_or _ _); [|by eexists]. rewrite Hb. by eexists.
  - intros i n source. unfold sw_add_opaque_from_reader. by rewrite Hb.
  - intros mid. unfold sw_finish, ensure_open, se_bind, se_get, guard, se_lift. by rewrite Hf.
Qed.

Lemma failed_writer_final_witness :
  let w := mkStreaming ([] : bytes) hasher_new [] ∅ 0 true in
  @sw_finish example_sha bytes _ default_limits 2 w = (Err (InvalidRecordOrder "writer used after failure"), w).
Proof.
  apply (proj2 (proj2 (proj2 (@failed_writer_final example_sha bytes _ Cursor _ default_limits
    (mkStreaming ([] : bytes) hasher_new [] ∅ 0 true) eq_refl)))).
Defined.

(** ** Diagnostics *)

(** [DiagnosticValidator::diagnose] over a byte slice always reports. It
    says verified, with no diagnostic, only for the image of a document, which
    its two reports describe; otherwise it says invalid, with the one
    diagnostic of the stage that failed and no validation report. *)
Theorem diagnose_reports `{Sha256Ok} limits input :
  limits_ok limits -> len input <= U64_MAX -> max_diagnostics limits <> 0 ->
  match (diagnose limits (mkSliceSource input)).1 with
  | Ok rep =>
      (dr_status rep = DVerified /\ dr_diagnostics rep = [] /\
       exists fs mid m i v, mid <= U64_MAX /\ inspected limits fs mid m /\ input = image fs mid /\
         dr_inspection rep = Some i /\ report_of input i fs mid m /\
         dr_validation rep = Some v /\ validation_of input v fs mid m) \/
      (dr_status rep = Invalid /\ dr_validation rep = None /\ exists e,
         (dr_inspection rep = None /\ (inspect limits (mkSliceSource input)).1 = Err e /\
          dr_diagnostics rep = [diagnostic Structure None e]) \/
         (exists i, dr_inspection rep = Some i /\ (inspect limits (mkSliceSource input)).1 = Ok i /\
          (validate limits (mkSliceSource input)).1 = Err e /\
          dr_diagnostics rep = [diagnostic Integrity None e]))
  | Err _ => False
  end.
Proof.
  intros Hl Hu Hd. unfold diagnose. rewrite (proj2 (N.eqb_neq _ 0)) by done.
  destruct (inspect limits (mkSliceSource input)) as [[i|e] s] eqn:Ei.
  2:{ right. simpl. split_and!; [done..|]. exists e. by left. }
  assert (Es : s = mkSliceSource input) by (by eapply inspect_keeps_slice). subst s.
  destruct (validate limits (mkSliceSource input)) as [[v|e] s] eqn:Ev.
  2:{ right. simpl. split_and!; [done..|]. exists e. right. by exists i. }
  left. simpl. split_and!; [done..|].
  apply validate_sound in Ev as (fs & mid & m & Hm & Hi & -> & Hv); [|done..].
  exists fs, mid, m, i, v. split_and!; try done.
  apply inspect_sound in Ei as (fs' & mid' & m' & g & Hg & Hm' & Hi' & Himg & Hr); [|done..].
  rewrite image_is_with in Himg.
  apply (accepted_inj limits fs fs' mid mid' m m') in Himg as (<- & <- & <- & _);
    [done|done|apply Hi|apply Hi'|done|done|apply sha256_len|done].
Qed.

Lemma diagnose_reports_witness :
  exists rep s, @diagnose example_sha _ _ default_limits (mkSliceSource (@image example_sha sample_frames 2)) = (Ok rep, s) /\
    dr_status rep = DVerified.
Proof.
  assert (Hm : max_diagnostics default_limits <> 0) by (apply N.eqb_neq; vm_compute; reflexivity).
  pose proof (@diagnose_reports example_sha example_sha_ok default_limits (@image example_sha sample_frames 2)
    default_limits_ok sample_image_len Hm) as Hd.
  destruct (@diagnose example_sha _ _ default_limits (mkSliceSource (@image example_sha sample_frames 2)))
    as [[rep|e] s] eqn:E; [|destruct Hd]. exists rep, s. split; [reflexivity|].
  destruct Hd as [(Hs & _)|(_ & _ & e & [(_ & Hi & _)|(i & _ & _ & Hv & _)])]; [exact Hs| |].
  - exfalso. revert Hi. vm_compute. discriminate.
  - exfalso. destruct sample_validates as (r & s' & Hv'). rewrite Hv' in Hv. discriminate Hv.
Defined.

(** ** Prefix salvage *)

(** C16. [PrefixSalvager::scan] of a byte slice ends, in a report or because a
    budget is exceeded. A report never claims validity; its records are the
    frames of a prefix of the input in order, up to the end of the input, the
    directory record, or the record at which it notes one diagnostic; and
    without a file header it has none. *)
Theorem salvage_reports_prefix limits input :
  limits_ok limits -> len input <= U64_MAX -> max_diagnostics limits <> 0 ->
  match (scan limits (mkSliceSource input)).1 with
  | Ok rep =>
      (exists fs, scanned input limits rep fs) \/
      (ps_status rep = UnverifiedPrefix /\ ps_file_len rep = len input /\ ps_records rep = [] /\
       ps_reached_directory rep = false /\ slice input 0 HEADER_LEN <> file_header)
  | Err e => e = LimitExceeded "file bytes" /\ max_file_bytes limits < len input \/
             e = LimitExceeded "total bytes read"
  end.
Proof. apply scan_cases. Qed.

(** A file cut short in its second record. *)
Definition cut_input : bytes := body (take 1 sample_frames) ++ [Byte.x55].

Lemma salvage_reports_prefix_witness :
  exists rep, ((scan default_limits (mkSliceSource cut_input)).1 = Ok rep) /\
    ((exists fs, scanned cut_input default_limits rep fs) \/
     (ps_status rep = UnverifiedPrefix /\ ps_file_len rep = len cut_input /\ ps_records rep = [] /\
      ps_reached_directory rep = false /\ slice cut_input 0 HEADER_LEN <> file_header)).
Proof.
  assert (Hl : len cut_input <= U64_MAX) by (apply N.leb_le; vm_compute; reflexivity).
  assert (Hd : max_diagnostics default_limits <> 0) by (apply N.eqb_neq; vm_compute; reflexivity).
  pose proof (salvage_reports_prefix default_limits cut_input default_limits_ok Hl Hd) as Hs.
  destruct (scan default_limits (mkSliceSource cut_input)) as [[rep|e] s] eqn:E.
  - exists rep. split; [reflexivity|exact Hs].
  - exfalso. apply (f_equal (fun x => is_ok x.1)) in E. revert E. vm_compute. discriminate.
Defined.

(** ** Reading is unambiguous *)

(** A byte string is the image of at most one document: two accepted
    documents whose images agree, even up to their digest fields being any 32
    bytes, have the same frames, the same selected manifest and the same
    digest field. *)
Theorem images_unambiguous limits fs gs mid mid' m m' d d' :
  limits_ok limits -> accepted limits fs mid m -> accepted limits gs mid' m' ->
  mid <= U64_MAX -> mid' <= U64_MAX -> len d = 32 -> len d' = 32 ->
  image_with fs mid d = image_with gs mid' d' -> fs = gs /\ mid = mid' /\ m = m' /\ d = d'.
Proof. apply accepted_inj. Qed.

Lemma images_unambiguous_witness :
  sample_frames = sample_frames /\ 2 = 2 /\ sample_manifest = sample_manifest /\ zeros 32 = zeros 32.
Proof.
  apply (images_unambiguous default_limits sample_frames sample_frames 2 2 sample_manifest sample_manifest
    (zeros 32) (zeros 32)); try reflexivity.
  - exact default_limits_ok.
  - exact sample_accepted.
  - exact sample_accepted.
  - apply N.leb_le. vm_compute. reflexivity.
  - apply N.leb_le. vm_compute. reflexivity.
Defined.

(** ** Where the readers disagree *)

(** An interior directory record is taken by one reader and refused by the
    other: for every accepted document with a directory frame among its
    objects, [ValidatedFile::parse] returns the file while
    [SourceInspector::inspect] fails on the same bytes. *)
Theorem readers_differ_on_interior_directory `{Sha256Ok} limits fs mid m :
  limits_ok limits -> mid <= U64_MAX -> accepted limits fs mid m -> required_capabilities m = [] ->
  (exists f, f ∈ fs /\ f_kind f = Directory) ->
  parse (image fs mid) limits = Ok (validated fs mid m) /\
  exists e, (inspect limits (mkSliceSource (image fs mid))).1 = Err e.
Proof.
  intros Hl Hm Ha Hr (f & Hf & Hk). split; [by apply parse_image|].
  destruct (inspect limits _) as [[rep|e] s] eqn:Ei; [|by exists e]. exfalso.
  assert (Hu : len (image fs mid) <= U64_MAX).
  { pose proof (framed_len _ _ (proj1 Ha)) as Hlen.
    assert (max_file_bytes limits <= U64_MAX) by (apply (limits_ok_field limits); [done|set_solver]).
    rewrite image_len. lia. }
  apply inspect_sound in Ei as (gs & mid' & m' & g & Hg & Hm' & (Ha' & Hobj & _) & Himg & _); [|done..].
  rewrite image_is_with in Himg.
  apply (accepted_inj limits fs gs mid mid' m m') in Himg as (<- & _);
    [|done|done|done|done|done|apply sha256_len|done].
  rewrite Forall_forall in Hobj. by apply (Hobj f Hf).
Qed.

Definition interior_frames : list Frame := op_frame (AddManifest 2 (mkManifest [2] [] [])) :: [mkFrame Directory 0 []].

Lemma interior_accepted : accepted default_limits interior_frames 2 (mkManifest [2] [] []).
Proof.
  split; split.
  - apply frame_ok_now. vm_compute. reflexivity.
  - apply (bool_decide_eq_true_1 (NoDup _)). vm_compute. reflexivity.
  - apply N.leb_le. vm_compute. reflexivity.
  - apply N.leb_le. vm_compute. reflexivity.
  - apply admitted_now. vm_compute. reflexivity.
  - done.
  - left.
  - apply admitted_now. vm_compute. reflexivity.
  - apply validate_shape_Ok. vm_compute. reflexivity.
  - intros root Hr. apply list_elem_of_singleton in Hr as ->. left.
Qed.

Lemma readers_differ_on_interior_directory_witness :
  let input := @image example_sha interior_frames 2 in
  @parse example_sha input default_limits
    = Ok (@validated example_sha interior_frames 2 (mkManifest [2] [] [])) /\
  exists e, (inspect default_limits (mkSliceSource input)).1 = Err e.
Proof.
  apply (@readers_differ_on_interior_directory example_sha example_sha_ok default_limits interior_frames 2
    (mkManifest [2] [] []) default_limits_ok).
  - apply N.leb_le. vm_compute. reflexivity.
  - exact interior_accepted.
  - reflexivity.
  - exists (mkFrame Directory 0 []). split; [right; left|reflexivity].
Defined.
