(* ===== verification/Compaction.v ===== *)
(** [crates/ucof-experiments/src/compaction.rs]: the reachability plan of a
    compaction. A depth-first walk from the selected roots, with limits on the
    nodes, the edges and the depth, splits the objects into the reachable and
    the orphaned ones; the plan is compared with reachability in the dependency
    graph. *)

From Stdlib Require Import Strings.Byte Strings.String NArith ZArith Lia.
From stdpp Require Import base list gmap strings sorting relations.
From S2P Require Import Prelude Order Errors.

Local Open Scope N_scope.

Record CompactionLimits : Type := mkCompactionLimits {
  max_nodes : N;
  max_edges : N;
  max_depth : N;
}.

Definition default_compaction_limits : CompactionLimits := mkCompactionLimits 1000000 4000000 1024.

Inductive CompactionError : Type :=
  | DuplicateObject (object_id : N)
  | MissingObject (object_id : N)
  | NodeLimitExceeded
  | EdgeLimitExceeded
  | DepthLimitExceeded.

Definition compaction_error_to_string (e : CompactionError) : string :=
  match e with
  | DuplicateObject id => "duplicate object " ++ decimal id
  | MissingObject id => "missing object " ++ decimal id
  | NodeLimitExceeded => "compaction node limit exceeded"
  | EdgeLimitExceeded => "compaction edge limit exceeded"
  | DepthLimitExceeded => "compaction dependency depth exceeded"
  end%string.

Record CompactionPlan : Type := mkPlan {
  selected_roots : list N;
  reachable : list N;
  orphaned : list N;
  edges_visited : N;
  maximum_depth : N;
}.

(** ** [ObjectGraph] *)

(** The struct has this one field, [dependencies]. *)
Abbreviation ObjectGraph := (gmap N (list N)).

Definition graph_new : ObjectGraph := ∅.

(** [add_object] stores the new dependencies before it looks at the old ones. *)
Definition add_object (object_id : N) (dependencies : list N) (graph : ObjectGraph)
    : result CompactionError unit * ObjectGraph :=
  (match graph !! object_id with
   | Some _ => Err (DuplicateObject object_id)
   | None => Ok tt
   end, <[object_id := dependencies]> graph).

Definition object_count (graph : ObjectGraph) : N := N.of_nat (size graph).

(** ** [ObjectGraph::plan] *)

(** What the walk carries. The head of the list is the top of the stack. *)
Record Walk : Type := mkWalk {
  w_reachable : gset N;
  w_stack : list (N * N);
  w_edges : N;
  w_depth : N;
}.

Section Plan.
Context (graph : ObjectGraph) (limits : CompactionLimits).

Definition push_root (stack : list (N * N)) (root : N) : result CompactionError (list (N * N)) :=
  check bool_decide (is_Some (graph !! root)) else MissingObject root in
  Ok ((root, 0) :: stack).

Definition push_dependency (reachable : gset N) (next_depth : N) (stack : list (N * N)) (dependency : N)
    : result CompactionError (list (N * N)) :=
  check bool_decide (is_Some (graph !! dependency)) else MissingObject dependency in
  Ok (if bool_decide (dependency ∈ reachable) then stack else (dependency, next_depth) :: stack).

(** The body of the loop, after [stack.pop()]. *)
Definition plan_turn (object_id depth : N) (w : Walk) : result CompactionError Walk :=
  check negb (max_depth limits <? depth) else DepthLimitExceeded in
  let maximum_depth := N.max (w_depth w) depth in
  if bool_decide (object_id ∈ w_reachable w) then
    Ok (mkWalk (w_reachable w) (w_stack w) (w_edges w) maximum_depth)
  else
    check negb (max_nodes limits <=? N.of_nat (size (w_reachable w))) else NodeLimitExceeded in
    let reachable := {[object_id]} ∪ w_reachable w in
    let* dependencies := ok_or (graph !! object_id) (MissingObject object_id) in
    let* edges := ok_or (checked_add (w_edges w) (len dependencies)) EdgeLimitExceeded in
    check negb (max_edges limits <? edges) else EdgeLimitExceeded in
    let* next_depth := ok_or (checked_add depth 1) DepthLimitExceeded in
    let* stack := fold_result (push_dependency reachable next_depth) (rev dependencies) (w_stack w) in
    Ok (mkWalk reachable stack edges maximum_depth).

(** [while let Some((object_id, depth)) = stack.pop()]. The stack and the
    edges out of the nodes not reached yet pay for the turns left
    ([plan_loop_cases]). *)
Fixpoint plan_loop (fuel : nat) (w : Walk) : result CompactionError Walk :=
  match fuel with
  | O => Err NodeLimitExceeded
  | S fuel =>
      match w_stack w with
      | [] => Ok w
      | (object_id, depth) :: stack =>
          let* w := plan_turn object_id depth (mkWalk (w_reachable w) stack (w_edges w) (w_depth w)) in
          plan_loop fuel w
      end
  end.

(** The edges out of a set of nodes. *)
Definition degree (i : N) : nat := length (default [] (graph !! i)).
Definition edges_of (s : gset N) : nat := sum_list (degree <$> elements s).

Definition plan (roots : list N) : result CompactionError CompactionPlan :=
  let* stack := fold_result push_root (rev roots) [] in
  let* w := plan_loop (S (length roots + edges_of (dom graph))) (mkWalk ∅ stack 0 0) in
  Ok (mkPlan roots (ascending (w_reachable w)) (ascending (dom graph ∖ w_reachable w)) (w_edges w) (w_depth w)).
End Plan.

(** ** Reachability *)

Definition depends (graph : ObjectGraph) (i j : N) : Prop :=
  exists ds, graph !! i = Some ds /\ j ∈ ds.

Definition reaches (graph : ObjectGraph) (roots : list N) (j : N) : Prop :=
  exists root, root ∈ roots /\ rtc (depends graph) root j.

(** A chain of [n] dependencies from a root. *)
Definition reaches_in (graph : ObjectGraph) (roots : list N) (n : N) (j : N) : Prop :=
  exists root, root ∈ roots /\ nsteps (depends graph) (N.to_nat n) root j.

Lemma reaches_in_reaches graph roots n j : reaches_in graph roots n j -> reaches graph roots j.
Proof. intros (root & Hr & Hs). exists root. split; [done|]. apply rtc_nsteps. by eexists. Qed.

(** More than [n] objects are reached. *)
Definition reaches_more_than (graph : ObjectGraph) (roots : list N) (n : N) : Prop :=
  exists s : gset N, (forall i, i ∈ s -> reaches graph roots i) /\ n < N.of_nat (size s).

Definition reaches_more_edges_than (graph : ObjectGraph) (roots : list N) (n : N) : Prop :=
  exists s : gset N, (forall i, i ∈ s -> reaches graph roots i) /\ n < N.of_nat (edges_of graph s).

(** ** Edge counts *)

Lemma edges_of_insert graph i s :
  i ∉ s -> edges_of graph ({[i]} ∪ s) = (degree graph i + edges_of graph s)%nat.
Proof. intros Hi. unfold edges_of. by rewrite (elements_union_singleton s i Hi). Qed.

Lemma edges_of_without graph i s :
  i ∈ dom graph -> i ∉ s ->
  edges_of graph (dom graph ∖ s) = (degree graph i + edges_of graph (dom graph ∖ ({[i]} ∪ s)))%nat.
Proof.
  intros Hi Hs. rewrite <- edges_of_insert by set_solver. f_equal. apply set_eq. intros j.
  destruct (decide (j = i)); set_solver.
Qed.

Section Walk.
Context (graph : ObjectGraph) (limits : CompactionLimits) (roots : list N).
Context (Hedges : max_edges limits <= U64_MAX) (Hdepth : max_depth limits <= U64_MAX).

(** ** The invariant of the walk *)

Record walking (w : Walk) : Prop := {
  wk_known : forall i, i ∈ w_reachable w -> i ∈ dom graph;
  wk_reached : forall i, i ∈ w_reachable w -> reaches graph roots i;
  wk_stack : Forall (fun e => e.1 ∈ dom graph /\ reaches_in graph roots e.2 e.1 /\
                              e.2 <= N.of_nat (size (w_reachable w))) (w_stack w);
  wk_roots : forall i, i ∈ roots -> i ∈ w_reachable w \/ i ∈ (w_stack w).*1;
  wk_closed : forall i j, i ∈ w_reachable w -> depends graph i j ->
                j ∈ w_reachable w \/ j ∈ (w_stack w).*1;
  wk_edges : w_edges w = N.of_nat (edges_of graph (w_reachable w));
  wk_max_edges : w_edges w <= max_edges limits;
  wk_max_nodes : N.of_nat (size (w_reachable w)) <= max_nodes limits;
  wk_max_depth : w_depth w <= max_depth limits;
  wk_depth : w_depth w = 0 \/ exists i, reaches_in graph roots (w_depth w) i;
}.

Definition potential (w : Walk) : nat :=
  length (w_stack w) + edges_of graph (dom graph ∖ w_reachable w).

Definition explained (e : CompactionError) : Prop :=
  match e with
  | DuplicateObject _ => False
  | MissingObject i => reaches graph roots i /\ i ∉ dom graph
  | NodeLimitExceeded => reaches_more_than graph roots (max_nodes limits)
  | EdgeLimitExceeded => reaches_more_edges_than graph roots (max_edges limits)
  | DepthLimitExceeded => reaches_more_than graph roots (max_depth limits)
  end.

(** ** Pushing *)

Lemma push_roots_cases stack rs :
  Forall (fun r => r ∈ roots) rs ->
  match fold_result (push_root graph) rs stack with
  | Ok stack' => stack' = rev (map (fun r => (r, 0)) rs) ++ stack /\ Forall (fun r => r ∈ dom graph) rs
  | Err e => explained e
  end.
Proof.
  intros Hrs. revert stack. induction Hrs as [|r rs Hr Hrs IH]; intros stack; cbn [fold_result rev map]; [done|].
  unfold push_root at 1. destruct (decide (is_Some (graph !! r))) as [Hk|Hk].
  - rewrite bool_decide_true by done. specialize (IH ((r, 0) :: stack)).
    destruct (fold_result _ rs _); [|done]. destruct IH as [-> IH]. split.
    + by rewrite <- app_assoc.
    + constructor; [by apply elem_of_dom|done].
  - rewrite bool_decide_false by done. split.
    + exists r. split; [done|]. apply rtc_refl.
    + intros Hd. by apply elem_of_dom in Hd.
Qed.

Lemma push_dependencies_cases reachable depth ds stack :
  match fold_result (push_dependency graph reachable depth) ds stack with
  | Ok stack' => Forall (fun d => d ∈ dom graph) ds /\
      exists new, stack' = new ++ stack /\ (length new <= length ds)%nat /\
        Forall (fun e => e.1 ∈ ds /\ e.2 = depth) new /\
        forall d, d ∈ ds -> d ∈ reachable \/ d ∈ new.*1
  | Err e => exists d, e = MissingObject d /\ d ∈ ds /\ d ∉ dom graph
  end.
Proof.
  revert stack. induction ds as [|d ds IH]; intros stack; cbn [fold_result].
  - split; [constructor|]. exists []. split_and!; try done. intros d Hd. by apply elem_of_nil in Hd.
  - unfold push_dependency at 1. destruct (decide (is_Some (graph !! d))) as [Hk|Hk].
    + rewrite bool_decide_true by done.
      set (stack1 := if bool_decide (d ∈ reachable) then stack else (d, depth) :: stack).
      specialize (IH stack1). destruct (fold_result _ ds _) as [s'|e].
      * destruct IH as (Hks & new & -> & Hl & Hn & Hc). split; [constructor; [by apply elem_of_dom|done]|].
        subst stack1. destruct (decide (d ∈ reachable)) as [Hd|Hd].
        -- rewrite bool_decide_true by done. exists new. split_and!; [done|simpl; lia| |].
           ++ eapply Forall_impl; [exact Hn|]. intros e [? ?]. split; [by right|done].
           ++ intros x [->|Hx]%elem_of_cons; [by left|by apply Hc].
        -- rewrite bool_decide_false by done. exists (new ++ [(d, depth)]). split_and!.
           ++ by rewrite <- app_assoc.
           ++ rewrite length_app. simpl. lia.
           ++ apply Forall_app. split; [|by repeat constructor].
              eapply Forall_impl; [exact Hn|]. intros e [? ?]. split; [by right|done].
           ++ intros x Hx. rewrite fmap_app, elem_of_app. apply elem_of_cons in Hx as [->|Hx].
              ** right. right. by left.
              ** destruct (Hc x Hx); [by left|right; by left].
      * destruct IH as (x & -> & Hx & Hnx). exists x. split_and!; [done|by right|done].
    + rewrite bool_decide_false by done. exists d. split_and!; [done|by left|]. intros Hd. by apply elem_of_dom in Hd.
Qed.

(** ** One turn *)

Lemma size_insert i (s : gset N) : i ∉ s -> size ({[i]} ∪ s) = S (size s).
Proof. intros Hi. rewrite size_union by set_solver. by rewrite size_singleton. Qed.

Lemma reached_with i w :
  walking w -> reaches graph roots i -> forall j, j ∈ {[i]} ∪ w_reachable w -> reaches graph roots j.
Proof. intros Hw Hi j [->%elem_of_singleton|Hj]%elem_of_union; [done|]. by apply (wk_reached w Hw). Qed.

(** The walk after popping an object that is reached already. *)
Lemma walking_seen w i d stack :
  walking w -> w_stack w = (i, d) :: stack -> d <= max_depth limits -> i ∈ w_reachable w ->
  walking (mkWalk (w_reachable w) stack (w_edges w) (N.max (w_depth w) d)).
Proof.
  intros Hw Es Hd Hi. pose proof (wk_stack w Hw) as Hst. rewrite Es in Hst.
  apply Forall_cons in Hst as [(_ & Hr & _) Hst]. pose proof (wk_max_depth w Hw).
  split; simpl; try apply Hw; try done; try lia.
  - intros j Hj. destruct (wk_roots w Hw j Hj) as [|Hin]; [by left|]. rewrite Es in Hin. csimpl in *.
    apply elem_of_cons in Hin as [->|]; [by left|by right].
  - intros j k Hj Hjk. destruct (wk_closed w Hw j k Hj Hjk) as [|Hin]; [by left|]. rewrite Es in Hin. csimpl in *.
    apply elem_of_cons in Hin as [->|]; [by left|by right].
  - destruct (wk_depth w Hw) as [Hz|[k Hk]].
    + destruct (decide (d = 0)); [left; lia|right; exists i]. rewrite N.max_r by lia. done.
    + right. destruct (N.max_spec (w_depth w) d) as [[_ ->]|[_ ->]]; [by exists i|by exists k].
Qed.

(** The walk after reaching one more object. *)
Lemma walking_new w i d stack ds new :
  walking w -> w_stack w = (i, d) :: stack -> d <= max_depth limits -> i ∉ w_reachable w ->
  N.of_nat (size (w_reachable w)) < max_nodes limits ->
  graph !! i = Some ds -> w_edges w + len ds <= max_edges limits ->
  Forall (fun x => x ∈ dom graph) ds -> Forall (fun e => e.1 ∈ ds /\ e.2 = d + 1) new ->
  (forall x, x ∈ ds -> x ∈ {[i]} ∪ w_reachable w \/ x ∈ new.*1) ->
  walking (mkWalk ({[i]} ∪ w_reachable w) (new ++ stack) (w_edges w + len ds) (N.max (w_depth w) d)).
Proof.
  intros Hw Es Hd Hi Hn Hg He Hk Hnew Hc. pose proof (wk_stack w Hw) as Hst. rewrite Es in Hst.
  apply Forall_cons in Hst as [(Hki & Hr & Hid) Hst]. pose proof (wk_max_depth w Hw). simpl in Hki, Hr, Hid.
  assert (Hsz := size_insert i _ Hi).
  assert (Hdep : forall x, x ∈ ds -> depends graph i x) by (intros x Hx; by exists ds).
  split; simpl.
  - intros j [->%elem_of_singleton|Hj]%elem_of_union; [done|]. by apply (wk_known w Hw).
  - apply reached_with; [done|]. by eapply reaches_in_reaches.
  - rewrite Hsz. apply Forall_app. split.
    + apply Forall_forall. intros e Hin. destruct (proj1 (Forall_forall _ _) Hnew e Hin) as [Hed ->].
      split_and!; [by apply (proj1 (Forall_forall _ _) Hk)| |lia].
      destruct Hr as (root & Hroot & Hsteps). exists root. split; [done|].
      replace (N.to_nat (d + 1)) with (N.to_nat d + 1)%nat by lia. eapply nsteps_trans; [exact Hsteps|].
      apply nsteps_once. by apply Hdep.
    + eapply Forall_impl; [exact Hst|]. intros e (? & ? & ?). split_and!; [done|done|lia].
  - intros j Hj. destruct (wk_roots w Hw j Hj) as [Hin|Hin]; [left; set_solver|]. rewrite Es in Hin. csimpl in *.
    rewrite fmap_app, elem_of_app. apply elem_of_cons in Hin as [->|]; [left; set_solver|by right; right].
  - intros j k Hj Hjk. rewrite fmap_app, elem_of_app. apply elem_of_union in Hj as [->%elem_of_singleton|Hj].
    + destruct Hjk as (ds' & Hds & Hk'). rewrite Hg in Hds. injection Hds as <-.
      destruct (Hc k Hk') as [|]; [by left|right; by left].
    + destruct (wk_closed w Hw j k Hj Hjk) as [Hin|Hin]; [left; set_solver|]. rewrite Es in Hin. csimpl in *.
      apply elem_of_cons in Hin as [->|]; [left; set_solver|by right; right].
  - rewrite (wk_edges w Hw), edges_of_insert by done. unfold degree, len. rewrite Hg. simpl. lia.
  - done.
  - lia.
  - lia.
  - destruct (wk_depth w Hw) as [Hz|[k Hk2]].
    + right. exists i. by rewrite N.max_r by lia.
    + right. destruct (N.max_spec (w_depth w) d) as [[_ ->]|[_ ->]]; [by exists i|by exists k].
Qed.

Lemma plan_turn_cases w i d stack :
  walking w -> w_stack w = (i, d) :: stack ->
  match plan_turn graph limits i d (mkWalk (w_reachable w) stack (w_edges w) (w_depth w)) with
  | Ok w' => walking w' /\ (potential w' < potential w)%nat
  | Err e => explained e
  end.
Proof.
  intros Hw Es. pose proof (wk_stack w Hw) as Hst. rewrite Es in Hst.
  apply Forall_cons in Hst as [(Hki & Hr & Hid) _]. simpl in Hki, Hr, Hid.
  pose proof (reaches_in_reaches _ _ _ _ Hr) as Hri. pose proof (reached_with i w Hw Hri) as Hall.
  unfold plan_turn. cbn [w_reachable w_stack w_edges w_depth].
  destruct (N.ltb_spec (max_depth limits) d) as [Hdp|Hdp]; cbn [negb].
  { exists (w_reachable w). split; [apply (wk_reached w Hw)|lia]. }
  destruct (decide (i ∈ w_reachable w)) as [Hi|Hi].
  { rewrite bool_decide_true by done. split; [by eapply walking_seen|].
    unfold potential. simpl. rewrite Es. simpl. lia. }
  rewrite bool_decide_false by done. pose proof (size_insert i _ Hi) as Hsz.
  destruct (N.leb_spec (max_nodes limits) (N.of_nat (size (w_reachable w)))) as [Hn|Hn]; cbn [negb].
  { exists ({[i]} ∪ w_reachable w). split; [done|lia]. }
  apply elem_of_dom in Hki as Hg. destruct Hg as [ds Hg]. rewrite Hg. cbn [ok_or].
  pose proof (edges_of_insert graph i _ Hi) as Hei. unfold degree in Hei. rewrite Hg in Hei. simpl in Hei.
  pose proof (wk_edges w Hw) as Hwe.
  assert (Hover : max_edges limits < w_edges w + len ds -> explained EdgeLimitExceeded).
  { intros Ho. exists ({[i]} ∪ w_reachable w). split; [done|]. unfold len in Ho. lia. }
  destruct (checked_add (w_edges w) (len ds)) as [edges|] eqn:Ee; cbn [ok_or].
  2:{ apply Hover. unfold checked_add in Ee. destruct (N.leb_spec (w_edges w + len ds) U64_MAX); [done|lia]. }
  apply checked_add_Some in Ee as [-> _].
  destruct (N.ltb_spec (max_edges limits) (w_edges w + len ds)) as [Ho|Ho]; cbn [negb]; [by apply Hover|].
  destruct (checked_add d 1) as [next|] eqn:En; cbn [ok_or].
  2:{ exists ({[i]} ∪ w_reachable w). split; [done|]. unfold checked_add in En.
      destruct (N.leb_spec (d + 1) U64_MAX); [done|lia]. }
  apply checked_add_Some in En as [-> _].
  pose proof (push_dependencies_cases ({[i]} ∪ w_reachable w) (d + 1) (rev ds) stack) as Hp.
  assert (Hrev : forall x, x ∈ rev ds <-> x ∈ ds) by (intros x; by rewrite !list_elem_of_In, <- in_rev).
  destruct (fold_result _ (rev ds) stack) as [stack'|e].
  - destruct Hp as (Hk & new & -> & Hl & Hnew & Hc). split.
    + eapply (walking_new w i d stack ds new); try done.
      * apply Forall_forall. intros x Hx. by apply (proj1 (Forall_forall _ _) Hk), Hrev.
      * eapply Forall_impl; [exact Hnew|]. intros e [? ?]. split; [by apply Hrev|done].
      * intros x Hx. by apply Hc, Hrev.
    + unfold potential. simpl. rewrite Es, length_app. simpl. rewrite length_rev in Hl.
      rewrite (edges_of_without graph i (w_reachable w)) by done. unfold degree. rewrite Hg. simpl. lia.
  - destruct Hp as (x & -> & Hx%Hrev & Hnx). split; [|done].
    destruct Hri as (root & Hroot & Hs). exists root. split; [done|]. eapply rtc_r; [exact Hs|]. by exists ds.
Qed.

Lemma plan_loop_cases fuel w :
  walking w -> (potential w < fuel)%nat ->
  match plan_loop graph limits fuel w with
  | Ok w' => walking w' /\ w_stack w' = []
  | Err e => explained e
  end.
Proof.
  revert w. induction fuel as [|fuel IH]; intros w Hw Hf; [lia|]. cbn [plan_loop].
  destruct (w_stack w) as [|[i d] stack] eqn:Es; [done|].
  pose proof (plan_turn_cases w i d stack Hw Es) as Ht.
  destruct (plan_turn _ _ _ _ _) as [w'|e]; [|done]. destruct Ht as [Hw' Hp]. apply IH; [done|lia].
Qed.

(** ** The whole plan *)

(** What a plan says about the graph. *)
Record planned (p : CompactionPlan) : Prop := {
  pl_roots : selected_roots p = roots;
  pl_reachable : forall i, i ∈ reachable p <-> reaches graph roots i;
  pl_orphaned : forall i, i ∈ orphaned p <-> i ∈ dom graph /\ ~ reaches graph roots i;
  pl_sorted : StronglySorted N.lt (reachable p) /\ StronglySorted N.lt (orphaned p);
  pl_known : forall i, reaches graph roots i -> i ∈ dom graph;
  pl_edges : edges_visited p = N.of_nat (sum_list (degree graph <$> reachable p));
  pl_nodes_limit : len (reachable p) <= max_nodes limits;
  pl_edges_limit : edges_visited p <= max_edges limits;
  pl_depth_limit : maximum_depth p <= max_depth limits;
  pl_depth : maximum_depth p = 0 \/ exists i, reaches_in graph roots (maximum_depth p) i;
}.

Lemma walked_planned w : walking w -> w_stack w = [] ->
  planned (mkPlan roots (ascending (w_reachable w)) (ascending (dom graph ∖ w_reachable w)) (w_edges w) (w_depth w)).
Proof.
  intros Hw Es.
  assert (Hall : forall i, i ∈ w_reachable w <-> reaches graph roots i).
  { intros i. split; [apply (wk_reached w Hw)|]. intros (root & Hroot & Hs).
    assert (Hr : root ∈ w_reachable w).
    { destruct (wk_roots w Hw root Hroot) as [|Hin]; [done|]. rewrite Es in Hin. by apply elem_of_nil in Hin. }
    clear Hroot. induction Hs as [|i j k Hij Hs IH]; [done|]. apply IH.
    destruct (wk_closed w Hw i j Hr Hij) as [|Hin]; [done|]. rewrite Es in Hin. by apply elem_of_nil in Hin. }
  assert (Hperm : ascending (w_reachable w) ≡ₚ elements (w_reachable w)) by apply sort_by_Permutation.
  split; simpl; try apply Hw.
  - done.
  - intros i. by rewrite elem_of_ascending.
  - intros i. by rewrite elem_of_ascending, elem_of_difference, Hall.
  - split; apply ascending_sorted.
  - intros i Hi. by apply (wk_known w Hw), Hall.
  - rewrite (wk_edges w Hw). unfold edges_of. by rewrite Hperm.
  - unfold len. rewrite Hperm. change (length (elements (w_reachable w))) with (size (w_reachable w)). apply Hw.
Qed.

Lemma plan_cases :
  match plan graph limits roots with
  | Ok p => planned p
  | Err e => explained e
  end.
Proof.
  unfold plan. assert (Hrev : forall x, x ∈ rev roots <-> x ∈ roots) by (intros x; by rewrite !list_elem_of_In, <- in_rev).
  pose proof (push_roots_cases [] (rev roots)) as Hp. 
  destruct (fold_result _ (rev roots) []) as [stack|e].
  2:{ apply Hp. apply Forall_forall. intros r. apply Hrev. }
  destruct Hp as [-> Hk]; [apply Forall_forall; intros r; apply Hrev|].
  rewrite app_nil_r, <- map_rev, rev_involutive.
  assert (Hw : walking (mkWalk ∅ (map (fun r => (r, 0)) roots) 0 0)).
  { split; simpl; try done; try lia.
    - apply Forall_forall. intros e He. apply list_elem_of_fmap in He as (r & -> & Hr). simpl. split_and!.
      + by apply (proj1 (Forall_forall _ _) Hk), Hrev.
      + exists r. split; [done|]. apply nsteps_O.
      + lia.
    - intros i Hi. right. apply list_elem_of_fmap. exists (i, 0). split; [done|]. apply list_elem_of_fmap. by exists i.
    - apply N.le_0_l. }
  pose proof (plan_loop_cases (S (length roots + edges_of graph (dom graph))) _ Hw) as Hl.
  destruct (plan_loop _ _ _ _) as [w|e].
  - destruct Hl as [Hw' Es]; [|by apply walked_planned].
    unfold potential. simpl. rewrite length_map, difference_empty_L. lia.
  - apply Hl. unfold potential. simpl. rewrite length_map, difference_empty_L. lia.
Qed.
End Walk.

(** C32. [ObjectGraph::plan] computes reachability: its [reachable] are exactly
    the objects some selected root depends on, its [orphaned] all the others,
    both in ascending order, with the edges counted once per reached object and
    within the three limits. An error means what it says: a reached object is
    missing, or more objects or edges are reached than a limit allows (a depth
    above the limit needs more reached objects than the limit). The walk ends. *)
Theorem plan_computes_reachability graph limits roots :
  max_edges limits <= U64_MAX -> max_depth limits <= U64_MAX ->
  match plan graph limits roots with
  | Ok p => planned graph limits roots p
  | Err e => explained graph limits roots e
  end.
Proof. apply plan_cases. Qed.

Definition sample_graph : ObjectGraph := {[ 1 := [2; 3]; 2 := [3]; 3 := []; 4 := [1] ]}.

Lemma plan_computes_reachability_witness :
  plan sample_graph default_compaction_limits [2] = Ok (mkPlan [2] [2; 3] [1; 4] 1 1) /\
  planned sample_graph default_compaction_limits [2] (mkPlan [2] [2; 3] [1; 4] 1 1).
Proof.
  assert (Hp : plan sample_graph default_compaction_limits [2] = Ok (mkPlan [2] [2; 3] [1; 4] 1 1))
    by (vm_compute; reflexivity).
  split; [exact Hp|].
  assert (He : max_edges default_compaction_limits <= U64_MAX) by (apply N.leb_le; vm_compute; reflexivity).
  assert (Hd : max_depth default_compaction_limits <= U64_MAX) by (apply N.leb_le; vm_compute; reflexivity).
  pose proof (plan_computes_reachability sample_graph default_compaction_limits [2] He Hd) as Ht.
  rewrite Hp in Ht. exact Ht.
Defined.
