(* ===== verification/Snapshots.v ===== *)
(** [crates/ucof-experiments/src/snapshots.rs]: choosing the active snapshot
    among the candidates a scan has found. Every candidate is judged by its
    parent chain; then either the one at the exact end or the unique highest
    tip is selected. *)

From Stdlib Require Import Strings.Byte Strings.String NArith ZArith Lia.
From stdpp Require Import base list gmap strings sorting.
From S2P Require Import Prelude Order Errors Digest.

Local Open Scope N_scope.

#[export] Instance byte_countable : Countable byte := inj_countable N_of_byte Byte.of_N Byte.of_to_N.

(** ** Identities *)

(** [SnapshotIdentity(pub [u8; 32])] *)
Abbreviation SnapshotIdentity := (list byte).

Definition derive `{Sha256} (label : bytes) : SnapshotIdentity :=
  hasher_finalize (hasher_update (hasher_update hasher_new (as_bytes "UCOF snapshot model" ++ [Byte.x00])) label).

(** [{byte:02x}] *)
Definition hex_byte (b : byte) : string :=
  let s := hexadecimal (N_of_byte b) in
  if (String.length s <? 2)%nat then ("0" ++ s)%string else s.

(** [<SnapshotIdentity as Display>::fmt] *)
Definition identity_to_string (identity : SnapshotIdentity) : string :=
  foldr (fun b s => (hex_byte b ++ s)%string) ""%string (take 8 identity).

(** ** Candidates *)

Inductive CheckpointKind : Type := Complete | Progress.
Inductive CandidateStatus : Type :=
  Verified | IntegrityFailed | CandidateUnsupportedRequiredCapability | Truncated | Invalid.

#[export] Instance CheckpointKind_eq_dec : EqDecision CheckpointKind.
Proof. solve_decision. Defined.
#[export] Instance CandidateStatus_eq_dec : EqDecision CandidateStatus.
Proof. solve_decision. Defined.

Record SnapshotCandidate : Type := mkCandidate {
  identity : SnapshotIdentity;
  sequence : N;
  parent : option SnapshotIdentity;
  footer_offset : N;
  exact_end : bool;
  checkpoint : CheckpointKind;
  status : CandidateStatus;
}.

Definition is_verified_complete (c : SnapshotCandidate) : bool :=
  bool_decide (status c = Verified) && bool_decide (checkpoint c = Complete).

Inductive RootSelectionMode : Type := StrictExactEnd | Recovery.

Record RootSelectionLimits : Type := mkSelectionLimits {
  max_candidates : N;
  max_parent_depth : N;
}.

Definition default_selection_limits : RootSelectionLimits := mkSelectionLimits 1024 256.

Inductive RootRejection : Type :=
  | NotVerified | ProgressCheckpoint | MissingParent | ParentNotVerified | NonIncreasingSequence
  | SequenceGap | ParentCycle | ParentDepthExceeded.

Record RejectedCandidate : Type := mkRejected {
  rejected_identity : SnapshotIdentity;
  rejected_reason : RootRejection;
}.

Record RootSelectionReport : Type := mkReport {
  mode : RootSelectionMode;
  selected : SnapshotIdentity;
  selected_sequence : N;
  chain : list SnapshotIdentity;
  rejected : list RejectedCandidate;
  candidates_considered : N;
}.

Inductive RootSelectionError : Type :=
  | CandidateLimitExceeded
  | DuplicateIdentity (identity : SnapshotIdentity)
  | NoExactEndRoot
  | MultipleExactEndRoots
  | NoValidRoot
  | AmbiguousFork.

Definition selection_error_to_string (e : RootSelectionError) : string :=
  match e with
  | CandidateLimitExceeded => "snapshot candidate limit exceeded"
  | DuplicateIdentity identity => "duplicate snapshot identity " ++ identity_to_string identity
  | NoExactEndRoot => "no verified exact-end snapshot"
  | MultipleExactEndRoots => "multiple verified exact-end snapshots"
  | NoValidRoot => "no valid complete snapshot chain"
  | AmbiguousFork => "ambiguous highest snapshot fork"
  end%string.

(** ** [evaluate_chain] *)

Abbreviation Candidates := (gmap SnapshotIdentity SnapshotCandidate).

(** The loop. [reverse] grows by one each turn and is checked against
    [max_depth] first, so [max_depth + 1] units of fuel are enough
    ([evaluate_chain_Ok]). *)
Fixpoint chain_loop (fuel : nat) (candidates : Candidates) (max_depth : N)
    (reverse : list SnapshotIdentity) (visited : gset SnapshotIdentity) (current : SnapshotCandidate)
    : result RootRejection (list SnapshotIdentity) :=
  match fuel with
  | O => Err ParentDepthExceeded
  | S fuel =>
      check negb (max_depth <=? len reverse) else ParentDepthExceeded in
      check negb (bool_decide (identity current ∈ visited)) else ParentCycle in
      let visited := {[identity current]} ∪ visited in
      let reverse := reverse ++ [identity current] in
      match parent current with
      | None => Ok (rev reverse)
      | Some parent_identity =>
          let* parent := ok_or (candidates !! parent_identity) MissingParent in
          check bool_decide (status parent = Verified) else ParentNotVerified in
          check negb (bool_decide (checkpoint parent = Progress)) else ProgressCheckpoint in
          check negb (sequence current <=? sequence parent) else NonIncreasingSequence in
          check sequence current =? saturating_add (sequence parent) 1 else SequenceGap in
          chain_loop fuel candidates max_depth reverse visited parent
      end
  end.

Definition evaluate_chain (start : SnapshotCandidate) (candidates : Candidates) (max_depth : N)
    : result RootRejection (list SnapshotIdentity) :=
  check bool_decide (status start = Verified) else NotVerified in
  check negb (bool_decide (checkpoint start = Progress)) else ProgressCheckpoint in
  chain_loop (S (N.to_nat max_depth)) candidates max_depth [] ∅ start.

(** ** [RootSelectionReport::select] *)

(** [by_identity.insert] for every candidate *)
Definition insert_candidate (m : Candidates) (c : SnapshotCandidate) : result RootSelectionError Candidates :=
  match m !! identity c with
  | Some _ => Err (DuplicateIdentity (identity c))
  | None => Ok (<[identity c := c]> m)
  end.

Abbreviation Chains := (gmap SnapshotIdentity (list SnapshotIdentity)).

(** The valid chains and the rejected candidates, in order. *)
Definition judge (by_identity : Candidates) (max_depth : N) (acc : Chains * list RejectedCandidate)
    (c : SnapshotCandidate) : Chains * list RejectedCandidate :=
  match evaluate_chain c by_identity max_depth with
  | Ok chain => (<[identity c := chain]> acc.1, acc.2)
  | Err reason => (acc.1, acc.2 ++ [mkRejected (identity c) reason])
  end.

Definition select_exact_end (candidates : list SnapshotCandidate) (valid_chains : Chains)
    : result RootSelectionError SnapshotCandidate :=
  match filter (fun c => exact_end c = true /\ is_Some (valid_chains !! identity c)) candidates with
  | [] => Err NoExactEndRoot
  | [c] => Ok c
  | _ => Err MultipleExactEndRoots
  end.

(** The candidates of a set of identities, in ascending order; every identity
    asked for is a key of the map. *)
Definition candidates_of (by_identity : Candidates) (ids : gset SnapshotIdentity) : list SnapshotCandidate :=
  omap (fun i => by_identity !! i) (sort_by compare_bytes (elements ids)).

Definition maximum_sequence (l : list SnapshotCandidate) : option N :=
  match l with
  | [] => None
  | c :: l => Some (foldl (fun n c => N.max n (sequence c)) (sequence c) l)
  end.

Definition select_recovery (by_identity : Candidates) (valid_chains : Chains)
    : result RootSelectionError SnapshotCandidate :=
  let valid_ids : gset SnapshotIdentity := dom valid_chains in
  check negb (bool_decide (valid_ids = ∅)) else NoValidRoot in
  let parent_ids : gset SnapshotIdentity :=
    list_to_set (filter (fun p => p ∈ valid_ids) (omap parent (candidates_of by_identity valid_ids))) in
  let terminals := candidates_of by_identity (valid_ids ∖ parent_ids) in
  let* maximum := ok_or (maximum_sequence terminals) NoValidRoot in
  match filter (fun c => sequence c = maximum) terminals with
  | [c] => Ok c
  | _ => Err AmbiguousFork
  end.

Definition select (candidates : list SnapshotCandidate) (mode : RootSelectionMode)
    (limits : RootSelectionLimits) : result RootSelectionError RootSelectionReport :=
  check negb (max_candidates limits <? len candidates) else CandidateLimitExceeded in
  let* by_identity := fold_result insert_candidate candidates ∅ in
  let '(valid_chains, rejected) := foldl (judge by_identity (max_parent_depth limits)) (∅, []) candidates in
  let* selected :=
    match mode with
    | StrictExactEnd => select_exact_end candidates valid_chains
    | Recovery => select_recovery by_identity valid_chains
    end in
  let* chain := ok_or (valid_chains !! identity selected) NoValidRoot in
  Ok (mkReport mode (identity selected) (sequence selected) chain rejected (len candidates)).
