(* ===== verification/SnapshotsFacts.v ===== *)
(** Snapshot selection against its specification: the chains [evaluate_chain]
    accepts, and the snapshot [select] chooses among them. *)

From Stdlib Require Import Strings.Byte Strings.String NArith ZArith Lia.
From stdpp Require Import base list gmap strings sorting.
From S2P Require Import Prelude Order Errors Digest Snapshots.

Local Open Scope N_scope.

(** ** Parent chains *)

Definition complete (c : SnapshotCandidate) : Prop := status c = Verified /\ checkpoint c = Complete.

(** [valid_chain m l c]: [l] is the chain of [c] from its genesis, each
    snapshot verified, complete and numbered one above its parent. *)
Inductive valid_chain (m : Candidates) : list SnapshotIdentity -> SnapshotCandidate -> Prop :=
  | chain_genesis c : complete c -> parent c = None -> valid_chain m [identity c] c
  | chain_child c p l :
      complete c -> parent c = Some (identity p) -> m !! identity p = Some p ->
      sequence c = sequence p + 1 -> valid_chain m l p -> valid_chain m (l ++ [identity c]) c.

(** A map from identities to the candidates that have them. *)
Definition keyed (m : Candidates) : Prop :=
  forall i c, m !! i = Some c -> identity c = i /\ sequence c <= U64_MAX.

Lemma valid_chain_nonempty m l c : valid_chain m l c -> 1 <= len l.
Proof. intros Hv. inversion Hv; rewrite ?len_app, ?len_cons; unfold len; simpl; lia. Qed.

Lemma valid_chain_complete m l c : valid_chain m l c -> complete c.
Proof. by inversion 1. Qed.

Lemma valid_chain_parent m l c i :
  valid_chain m l c -> parent c = Some i ->
  exists p l', m !! i = Some p /\ identity p = i /\ sequence c = sequence p + 1 /\ valid_chain m l' p /\
    l = l' ++ [identity c].
Proof.
  intros Hv Hp. destruct Hv as [c Hc Hn|c p l Hc Hn Hm Hs Hv]; [congruence|].
  rewrite Hn in Hp. injection Hp as <-. by exists p, l.
Qed.

Section Chains.
Context (m : Candidates) (max_depth : N) (Hm : keyed m).

Definition seen_above (visited : gset SnapshotIdentity) (current : SnapshotCandidate) : Prop :=
  forall i, i ∈ visited -> exists c, m !! i = Some c /\ sequence current < sequence c.

Lemma chain_loop_cases fuel reverse visited current :
  max_depth < len reverse + N.of_nat fuel ->
  complete current -> m !! identity current = Some current -> seen_above visited current ->
  match chain_loop fuel m max_depth reverse visited current with
  | Ok l => exists l', valid_chain m l' current /\ l = l' ++ rev reverse /\ len reverse + len l' <= max_depth
  | Err e => e <> ParentCycle /\ forall l', valid_chain m l' current -> max_depth < len reverse + len l'
  end.
Proof.
  revert reverse visited current. induction fuel as [|fuel IH]; intros reverse visited current Hf Hc Hk Hs.
  { split; [done|]. intros; lia. }
  cbn [chain_loop]. destruct (N.leb_spec max_depth (len reverse)) as [Hd|Hd]; cbn [negb].
  { split; [done|]. intros l' Hv. pose proof (valid_chain_nonempty _ _ _ Hv). lia. }
  rewrite bool_decide_false.
  2:{ intros Hin. destruct (Hs _ Hin) as (c & Hc' & Hlt). rewrite Hk in Hc'. injection Hc' as <-. lia. }
  cbn [negb]. destruct (parent current) as [i|] eqn:Ep.
  2:{ exists [identity current]. split_and!; [by constructor| |rewrite len_cons, len_nil; lia].
      by rewrite rev_app_distr. }
  destruct (m !! i) as [p|] eqn:Em; cbn [ok_or].
  2:{ split; [done|]. intros l' Hv. destruct (valid_chain_parent _ _ _ _ Hv Ep) as (q & _ & Hq & _). congruence. }
  destruct (Hm _ _ Em) as [<- Hu]. destruct (Hm _ _ Hk) as [_ Huc].
  assert (Hno : forall l', valid_chain m l' current -> complete p /\ sequence current = sequence p + 1 /\
                 exists l2, valid_chain m l2 p /\ l' = l2 ++ [identity current]).
  { intros l' Hv. destruct (valid_chain_parent _ _ _ _ Hv Ep) as (q & l2 & Hq & _ & Hsq & Hvq & Hl).
    rewrite Em in Hq. injection Hq as <-. split_and!; [by eapply valid_chain_complete|done|by exists l2]. }
  destruct (decide (status p = Verified)) as [Hst|Hst];
    [rewrite bool_decide_true by done|rewrite bool_decide_false by done; split; [done|];
      intros l' Hv; by destruct (Hno l' Hv) as ([? _] & _)].
  destruct (decide (checkpoint p = Progress)) as [Hcp|Hcp];
    [rewrite bool_decide_true by done; split; [done|];
      intros l' Hv; destruct (Hno l' Hv) as ([_ ?] & _); congruence|rewrite bool_decide_false by done].
  cbn [negb]. assert (Hpc : complete p) by (split; [done|by destruct (checkpoint p)]).
  destruct (N.leb_spec (sequence current) (sequence p)) as [Hle|Hle]; cbn [negb].
  { split; [done|]. intros l' Hv. destruct (Hno l' Hv) as (_ & ? & _). lia. }
  unfold saturating_add. destruct (N.eqb_spec (sequence current) (N.min (sequence p + 1) U64_MAX)) as [He|He].
  2:{ split; [done|]. intros l' Hv. destruct (Hno l' Hv) as (_ & ? & _). lia. }
  assert (Hsq : sequence current = sequence p + 1) by lia.
  specialize (IH (reverse ++ [identity current]) ({[identity current]} ∪ visited) p).
  rewrite len_app, len_cons, len_nil in IH. specialize (IH ltac:(lia) Hpc Em).
  destruct (chain_loop fuel _ _ _ _ _) as [l|e].
  - destruct IH as (l' & Hv & -> & Hl); [|].
    { intros j [->%elem_of_singleton|Hj]%elem_of_union; [exists current; split; [done|lia]|].
      destruct (Hs j Hj) as (c & ? & ?). exists c. split; [done|lia]. }
    exists (l' ++ [identity current]). split_and!.
    + by eapply chain_child.
    + by rewrite rev_app_distr, <- app_assoc.
    + rewrite len_app, len_cons, len_nil. lia.
  - destruct IH as [Hne Hall]; [|].
    { intros j [->%elem_of_singleton|Hj]%elem_of_union; [exists current; split; [done|lia]|].
      destruct (Hs j Hj) as (c & ? & ?). exists c. split; [done|lia]. }
    split; [done|]. intros l' Hv. destruct (Hno l' Hv) as (_ & _ & l2 & Hv2 & ->).
    specialize (Hall l2 Hv2). rewrite len_app, len_cons, len_nil. lia.
Qed.

Lemma evaluate_chain_cases c :
  m !! identity c = Some c ->
  match evaluate_chain c m max_depth with
  | Ok l => valid_chain m l c /\ len l <= max_depth
  | Err e => e <> ParentCycle /\ forall l, valid_chain m l c -> max_depth < len l
  end.
Proof.
  intros Hk. unfold evaluate_chain. destruct (decide (status c = Verified)) as [Hst|Hst].
  2:{ rewrite bool_decide_false by done. split; [done|]. intros l Hv. by destruct (valid_chain_complete _ _ _ Hv). }
  rewrite bool_decide_true by done. destruct (decide (checkpoint c = Progress)) as [Hcp|Hcp].
  { rewrite bool_decide_true by done. split; [done|]. intros l Hv. destruct (valid_chain_complete _ _ _ Hv). congruence. }
  rewrite bool_decide_false by done. cbn [negb].
  pose proof (chain_loop_cases (S (N.to_nat max_depth)) [] ∅ c) as Hl. rewrite len_nil in Hl.
  specialize (Hl ltac:(lia)). destruct (chain_loop _ _ _ _ _ _) as [l|e].
  - destruct Hl as (l' & Hv & -> & Hd); [split; [done|by destruct (checkpoint c)]|done|intros i Hi; set_solver|].
    simpl. rewrite app_nil_r. split; [done|lia].
  - destruct Hl as [Hne Hall]; [split; [done|by destruct (checkpoint c)]|done|intros i Hi; set_solver|].
    split; [done|]. intros l Hv. specialize (Hall l Hv). lia.
Qed.

Definition valid (c : SnapshotCandidate) : Prop := exists l, valid_chain m l c /\ len l <= max_depth.

Lemma valid_parent c p : valid c -> parent c = Some p -> exists q, m !! p = Some q /\ valid q /\ sequence c = sequence q + 1.
Proof.
  intros (l & Hv & Hl) Hp. destruct (valid_chain_parent _ _ _ _ Hv Hp) as (q & l' & Hq & _ & Hs & Hv' & ->).
  exists q. split_and!; [done| |done]. exists l'. split; [done|]. rewrite len_app in Hl. lia.
Qed.
End Chains.

(** ** The tables of [select] *)

Lemma insert_candidates_cases cs :
  match fold_result insert_candidate cs ∅ with
  | Ok m => NoDup (identity <$> cs) /\ forall i c, m !! i = Some c <-> c ∈ cs /\ identity c = i
  | Err e => (exists i, e = DuplicateIdentity i) /\ ~ NoDup (identity <$> cs)
  end.
Proof.
  induction cs as [|c cs IH] using rev_ind.
  { split; [constructor|]. intros i c. rewrite lookup_empty. set_solver. }
  rewrite fold_result_app, fmap_app. destruct (fold_result insert_candidate cs ∅) as [m|e]; cbn [fold_result].
  2:{ destruct IH as [Hi Hn]. split; [done|]. intros Hnd. apply Hn. by apply NoDup_app in Hnd as [? _]. }
  destruct IH as [Hnd Hm]. unfold insert_candidate. destruct (m !! identity c) as [c'|] eqn:Ec.
  - apply Hm in Ec as [Hc He]. split; [by eexists|]. intros H. apply NoDup_app in H as (_ & Hd & _).
    apply (Hd (identity c)); [rewrite <- He; by apply list_elem_of_fmap_2|csimpl; set_solver].
  - assert (Hfresh : identity c ∉ identity <$> cs).
    { intros Hin. apply list_elem_of_fmap in Hin as (c' & He & Hc).
      assert (m !! identity c = Some c') by (by apply Hm). congruence. }
    split.
    + apply NoDup_app. csimpl. split_and!; [done|set_solver|apply NoDup_singleton].
    + intros i c'. rewrite elem_of_app, list_elem_of_singleton. destruct (decide (i = identity c)) as [->|Hi].
      * rewrite lookup_insert_eq. split; [by intros [= <-]; split; [right|]|].
        intros [[Hc| ->] He]; [|done]. exfalso. apply Hfresh. rewrite <- He. by apply list_elem_of_fmap_2.
      * rewrite lookup_insert_ne by done. rewrite Hm. naive_solver.
Qed.

Lemma judge_chains m max_depth cs i l :
  NoDup (identity <$> cs) ->
  (foldl (judge m max_depth) (∅, []) cs).1 !! i = Some l <->
  exists c, c ∈ cs /\ identity c = i /\ evaluate_chain c m max_depth = Ok l.
Proof.
  induction cs as [|c cs IH] using rev_ind; intros Hnd.
  { simpl. rewrite lookup_empty. split; [done|]. intros (c & Hc & _). by apply elem_of_nil in Hc. }
  rewrite fmap_app in Hnd. apply NoDup_app in Hnd as (Hnd & Hd & _). specialize (IH Hnd).
  rewrite foldl_app. cbn [foldl]. unfold judge at 1.
  assert (Hnew : forall c', c' ∈ cs -> identity c' <> identity c).
  { intros c' Hc' He. apply (Hd (identity c')); [by apply list_elem_of_fmap_2|csimpl; rewrite He; set_solver]. }
  destruct (evaluate_chain c m max_depth) as [l'|e] eqn:Ee; cbn [fst].
  - destruct (decide (i = identity c)) as [->|Hi].
    + rewrite lookup_insert_eq. split.
      * intros [= <-]. exists c. rewrite elem_of_app. split_and!; [right; by left|done|done].
      * intros (c' & Hc' & He & Hev). apply elem_of_app in Hc' as [Hc'|Hc'%list_elem_of_singleton].
        -- exfalso. by apply (Hnew c' Hc').
        -- subst c'. congruence.
    + rewrite lookup_insert_ne by done. rewrite IH. split; intros (c' & Hc' & He & Hev); exists c'.
      * rewrite elem_of_app. by split_and!; [left|..].
      * apply elem_of_app in Hc' as [Hc'|Hc'%list_elem_of_singleton]; [done|congruence].
  - rewrite IH. split; intros (c' & Hc' & He & Hev); exists c'.
    + rewrite elem_of_app. by split_and!; [left|..].
    + apply elem_of_app in Hc' as [Hc'|Hc'%list_elem_of_singleton]; [done|congruence].
Qed.

Lemma maximum_sequence_spec l n :
  maximum_sequence l = Some n ->
  (forall c, c ∈ l -> sequence c <= n) /\ exists c, c ∈ l /\ sequence c = n.
Proof.
  destruct l as [|c0 l]; [done|]. intros [= <-].
  induction l as [|c l IH] using rev_ind; simpl.
  { split; [|exists c0; split; [by left|done]]. intros c ->%list_elem_of_singleton. lia. }
  rewrite foldl_app. cbn [foldl]. destruct IH as [Hle (cm & Hcm & He)]. split.
  - intros c' Hc'. rewrite app_comm_cons, elem_of_app in Hc'.
    destruct Hc' as [Hc'|Hc'%list_elem_of_singleton]; [specialize (Hle c' Hc'); lia|subst; lia].
  - destruct (N.max_spec (foldl (fun n c => N.max n (sequence c)) (sequence c0) l) (sequence c)) as [[_ ->]|[_ ->]].
    + exists c. split; [|done]. rewrite app_comm_cons, elem_of_app. right. by left.
    + exists cm. split; [|done]. rewrite app_comm_cons, elem_of_app. by left.
Qed.

Lemma maximum_sequence_None l : maximum_sequence l = None <-> l = [].
Proof. by destruct l. Qed.

Section Select.
Context (cs : list SnapshotCandidate) (max_depth : N) (m : Candidates) (chains : Chains).
Context (Hcs : Forall (fun c => sequence c <= U64_MAX) cs).
Context (Hm : forall i c, m !! i = Some c <-> c ∈ cs /\ identity c = i).
Context (Hchains : forall i l, chains !! i = Some l <->
  exists c, c ∈ cs /\ identity c = i /\ evaluate_chain c m max_depth = Ok l).

Lemma table_keyed : keyed m.
Proof. intros i c [Hc Hi]%Hm. split; [done|]. by apply (proj1 (Forall_forall _ _) Hcs). Qed.

Lemma table_self c : c ∈ cs -> m !! identity c = Some c.
Proof. intros Hc. by apply Hm. Qed.

Lemma table_inj c c' : c ∈ cs -> c' ∈ cs -> identity c = identity c' -> c = c'.
Proof. intros Hc Hc' He. apply table_self in Hc, Hc'. congruence. Qed.

Lemma chains_valid c : c ∈ cs -> is_Some (chains !! identity c) <-> valid m max_depth c.
Proof.
  intros Hc. pose proof (evaluate_chain_cases m max_depth table_keyed c (table_self c Hc)) as He. split.
  - intros [l Hl]. apply Hchains in Hl as (c' & Hc' & Hid & Hl).
    rewrite (table_inj _ _ Hc' Hc Hid) in Hl. rewrite Hl in He. by exists l.
  - intros (l & Hv & Hl). destruct (evaluate_chain c m max_depth) as [l'|e] eqn:E.
    + exists l'. apply Hchains. by exists c.
    + destruct He as [_ Hall]. specialize (Hall l Hv). lia.
Qed.

Lemma elem_of_candidates_of ids c :
  c ∈ candidates_of m ids <-> c ∈ cs /\ identity c ∈ ids.
Proof.
  unfold candidates_of. rewrite list_elem_of_omap. setoid_rewrite (elem_of_sort_by compare_bytes).
  setoid_rewrite elem_of_elements. split.
  - intros (i & Hi & Hc). apply Hm in Hc as [Hc <-]. done.
  - intros [Hc Hi]. exists (identity c). split; [done|by apply table_self].
Qed.

Lemma NoDup_candidates_of ids : NoDup (candidates_of m ids).
Proof.
  unfold candidates_of. assert (Hn : NoDup (sort_by compare_bytes (elements ids)))
    by (rewrite sort_by_Permutation; apply NoDup_elements).
  induction Hn as [|i l Hi Hn IH]; [constructor|]. cbn [omap list_omap].
  destruct (m !! i) as [c|] eqn:E; [|done]. constructor; [|done].
  rewrite list_elem_of_omap. intros (j & Hj & Hc). apply Hm in E as [_ <-], Hc as [_ <-]. done.
Qed.

Lemma valid_ids_spec : forall i, i ∈ dom chains <-> exists c, c ∈ cs /\ identity c = i /\ valid m max_depth c.
Proof.
  intros i. rewrite elem_of_dom. split.
  - intros [l Hl]. pose proof Hl as Hl'. apply Hchains in Hl' as (c & Hc & <- & _). exists c. split_and!; [done|done|].
    apply chains_valid; [done|by exists l].
  - intros (c & Hc & <- & Hv). by apply chains_valid.
Qed.

Lemma valid_id c : c ∈ cs -> identity c ∈ dom chains <-> valid m max_depth c.
Proof.
  intros Hc. rewrite valid_ids_spec. split; [|by intros Hv; exists c].
  intros (c' & Hc' & He & Hv). by rewrite <- (table_inj _ _ Hc' Hc He).
Qed.

(** ** Recovery: the unique highest valid snapshot *)

Definition above_all (c : SnapshotCandidate) : Prop :=
  c ∈ cs /\ valid m max_depth c /\
  forall c', c' ∈ cs -> valid m max_depth c' -> c' <> c -> sequence c' < sequence c.

Definition forked : Prop :=
  exists c c', c ∈ cs /\ c' ∈ cs /\ c <> c' /\ valid m max_depth c /\ valid m max_depth c' /\
    sequence c = sequence c' /\ forall x, x ∈ cs -> valid m max_depth x -> sequence x <= sequence c.

(** The valid parents of valid candidates. *)
Lemma parent_ids_spec (V P : gset SnapshotIdentity) i :
  V = dom chains -> P = list_to_set (filter (fun p => p ∈ V) (omap parent (candidates_of m V))) ->
  i ∈ P <-> i ∈ V /\ exists c', c' ∈ cs /\ valid m max_depth c' /\ parent c' = Some i.
Proof.
  intros -> ->. rewrite elem_of_list_to_set, list_elem_of_filter, list_elem_of_omap.
  setoid_rewrite elem_of_candidates_of. split.
  - intros [Hi (c' & [Hc' Hv] & Hpar)]. split; [done|]. exists c'. split_and!; [done|by apply valid_id|done].
  - intros [Hi (c' & Hc' & Hv & Hpar)]. split; [done|]. exists c'. split_and!; [done|by apply valid_id|done].
Qed.

(** The tips are the valid candidates without a valid child; the ones with the
    greatest sequence number are among them. *)
Lemma terminal_spec (V P : gset SnapshotIdentity) (c : SnapshotCandidate) :
  V = dom chains -> P = list_to_set (filter (fun p => p ∈ V) (omap parent (candidates_of m V))) ->
  c ∈ candidates_of m (V ∖ P) <->
  c ∈ cs /\ valid m max_depth c /\
  forall c', c' ∈ cs -> valid m max_depth c' -> parent c' <> Some (identity c).
Proof.
  intros EV EP. rewrite elem_of_candidates_of, elem_of_difference.
  pose proof (parent_ids_spec V P (identity c) EV EP) as Hp. rewrite EV in *. split.
  - intros (Hc & Hv & Hn). split_and!; [done|by apply valid_id|]. intros c' Hc' Hv' Hpar.
    apply Hn, Hp. split; [done|]. by exists c'.
  - intros (Hc & Hv & Hn). split; [done|]. split; [by apply valid_id|].
    intros [_ (c' & Hc' & Hv' & Hpar)]%Hp. by apply (Hn c').
Qed.

Lemma highest_terminal c n :
  c ∈ cs -> valid m max_depth c -> sequence c = n ->
  (forall x, x ∈ cs -> valid m max_depth x -> sequence x <= n) ->
  forall c', c' ∈ cs -> valid m max_depth c' -> parent c' <> Some (identity c).
Proof.
  intros Hc Hv Hs Hall c' Hc' Hv' Hpar. destruct (valid_parent m max_depth c' _ Hv' Hpar) as (q & Hq & _ & Hsq).
  rewrite (table_self c Hc) in Hq. injection Hq as <-. specialize (Hall c' Hc' Hv'). lia.
Qed.

(** The greatest sequence number among the tips is the greatest among all the
    valid candidates, and the same candidates have it. *)
Lemma tips_maximum (V P : gset SnapshotIdentity) :
  V = dom chains ->
  P = list_to_set (filter (fun p => p ∈ V) (omap parent (candidates_of m V))) ->
  match maximum_sequence (candidates_of m (V ∖ P)) with
  | None => forall c, c ∈ cs -> ~ valid m max_depth c
  | Some n =>
      (forall x, x ∈ cs -> valid m max_depth x -> sequence x <= n) /\
      (exists c, c ∈ cs /\ valid m max_depth c /\ sequence c = n) /\
      forall c, c ∈ candidates_of m (V ∖ P) /\ sequence c = n <->
                c ∈ cs /\ valid m max_depth c /\ sequence c = n
  end.
Proof.
  intros EV EP. pose proof (fun c => terminal_spec V P c EV EP) as Ht.
  assert (HV : forall c, c ∈ cs -> identity c ∈ V <-> valid m max_depth c) by (rewrite EV; apply valid_id).
  destruct (maximum_sequence (candidates_of m V)) as [n|] eqn:En.
  - apply maximum_sequence_spec in En as [Hle (cm & Hcm & Hsm)].
    assert (Hall : forall x, x ∈ cs -> valid m max_depth x -> sequence x <= n).
    { intros x Hx Hv. apply Hle, elem_of_candidates_of. split; [done|by apply HV]. }
    apply elem_of_candidates_of in Hcm as [Hcm Hvm]. apply HV in Hvm; [|done].
    assert (Htop : forall c, c ∈ candidates_of m (V ∖ P) /\ sequence c = n <->
                     c ∈ cs /\ valid m max_depth c /\ sequence c = n).
    { intros c. rewrite Ht. split; [naive_solver|]. intros (Hc & Hv & Hs). split_and!; [done|done| |done].
      by apply (highest_terminal c n). }
    destruct (maximum_sequence (candidates_of m (V ∖ P))) as [n'|] eqn:En.
    + assert (n' = n) as ->; [|by split_and!; [|exists cm|]].
      apply maximum_sequence_spec in En as [Hle' (c' & Hc' & Hs')].
      assert (Hn : n <= n') by (rewrite <- Hsm; apply Hle'; by apply (Htop cm)).
      apply Ht in Hc' as (Hc' & Hv' & _). specialize (Hall c' Hc' Hv'). lia.
    + apply maximum_sequence_None in En. exfalso.
      assert (Hin : cm ∈ candidates_of m (V ∖ P)) by (by apply (Htop cm)). rewrite En in Hin. set_solver.
  - apply maximum_sequence_None in En.
    assert (Hno : forall c, c ∈ cs -> ~ valid m max_depth c).
    { intros c Hc Hv. assert (Hin : c ∈ candidates_of m V) by (apply elem_of_candidates_of; split; [done|by apply HV]).
      rewrite En in Hin. set_solver. }
    destruct (maximum_sequence (candidates_of m (V ∖ P))) as [n'|] eqn:En'; [|done].
    apply maximum_sequence_spec in En' as [_ (c' & Hc' & _)]. apply Ht in Hc' as (Hc' & Hv' & _).
    by destruct (Hno c' Hc').
Qed.

(** No candidate, or one, or at least two carry the greatest number. *)
Lemma select_recovery_cases :
  match select_recovery m chains with
  | Ok c => above_all c
  | Err NoValidRoot => forall c, c ∈ cs -> ~ valid m max_depth c
  | Err AmbiguousFork => forked
  | Err _ => False
  end.
Proof.
  unfold select_recovery. set (V := dom chains : gset SnapshotIdentity).
  set (P := list_to_set (filter (fun p => p ∈ V) (omap parent (candidates_of m V))) : gset SnapshotIdentity).
  case_bool_decide as He; cbn [negb].
  { intros c Hc Hv. apply valid_id in Hv; [|done]. fold V in Hv. set_solver. }
  pose proof (tips_maximum V P eq_refl eq_refl) as Hmax.
  destruct (maximum_sequence (candidates_of m (V ∖ P))) as [n|]; cbn [ok_or]; [|done].
  destruct Hmax as (Hall & (cm & Hcm) & Htop). set (T := filter _ _).
  assert (HT : forall c, c ∈ T <-> c ∈ cs /\ valid m max_depth c /\ sequence c = n).
  { intros c. unfold T. rewrite list_elem_of_filter, <- Htop. tauto. }
  assert (HnT : NoDup T) by (apply NoDup_filter, NoDup_candidates_of).
  clearbody T. destruct T as [|c [|c' T]].
  - exfalso. assert (Hin : cm ∈ []) by (by apply HT). set_solver.
  - assert (Hc : c ∈ [c]) by set_solver. apply HT in Hc as (Hc & Hv & Hs). split_and!; [done|done|].
    intros x Hx Hvx Hne. specialize (Hall x Hx Hvx).
    assert (sequence x <> n); [|lia]. intros Hsx. assert (Hin : x ∈ [c]) by (by apply HT). set_solver.
  - assert (Hc : c ∈ c :: c' :: T) by set_solver. assert (Hc' : c' ∈ c :: c' :: T) by set_solver.
    apply HT in Hc as (Hc & Hv & Hs), Hc' as (Hc' & Hv' & Hs').
    exists c, c'. split_and!; [done|done| |done|done|congruence|rewrite Hs; exact Hall].
    intros ->. apply NoDup_cons in HnT as [Hn _]. apply Hn. by left.
Qed.

(** ** Strict selection: the unique valid snapshot at the exact end *)

Definition at_end (c : SnapshotCandidate) : Prop := c ∈ cs /\ exact_end c = true /\ valid m max_depth c.

Lemma select_exact_end_cases :
  NoDup cs ->
  match select_exact_end cs chains with
  | Ok c => at_end c /\ forall c', at_end c' -> c' = c
  | Err NoExactEndRoot => forall c, ~ at_end c
  | Err MultipleExactEndRoots => exists c c', c <> c' /\ at_end c /\ at_end c'
  | Err _ => False
  end.
Proof.
  intros Hnd. unfold select_exact_end. set (T := filter _ _).
  assert (HT : forall c, c ∈ T <-> at_end c).
  { intros c. unfold T, at_end. rewrite list_elem_of_filter. split.
    - intros [[He Hv] Hc]. split_and!; [done|done|by apply chains_valid].
    - intros (Hc & He & Hv). split_and!; [done|by apply chains_valid|done]. }
  assert (HnT : NoDup T) by (by apply NoDup_filter).
  clearbody T. destruct T as [|c [|c' T]].
  - intros c Hc. apply HT in Hc. set_solver.
  - split; [apply HT; by left|]. intros c' Hc'. apply HT in Hc'. set_solver.
  - exists c, c'. split_and!; [|apply HT; by left|apply HT; right; by left].
    intros ->. apply NoDup_cons in HnT as [Hn _]. apply Hn. by left.
Qed.

Lemma chain_of_valid c : c ∈ cs -> valid m max_depth c ->
  exists l, chains !! identity c = Some l /\ valid_chain m l c /\ len l <= max_depth.
Proof.
  intros Hc Hv. apply chains_valid in Hv as [l Hl]; [|done]. exists l. split; [done|].
  apply Hchains in Hl as (c' & Hc' & Hid & Hl). rewrite (table_inj _ _ Hc' Hc Hid) in Hl.
  pose proof (evaluate_chain_cases m max_depth table_keyed c (table_self c Hc)) as He. by rewrite Hl in He.
Qed.
End Select.

(** ** [select] *)

(** The candidates as a table. *)
Definition table (cs : list SnapshotCandidate) : Candidates := list_to_map ((fun c => (identity c, c)) <$> cs).

Lemma table_of (cs : list SnapshotCandidate) (m : Candidates) :
  NoDup (identity <$> cs) -> (forall i c, m !! i = Some c <-> c ∈ cs /\ identity c = i) -> m = table cs.
Proof.
  intros Hnd Hm. apply map_eq. intros i. apply option_eq. intros c. rewrite Hm. unfold table.
  rewrite <- elem_of_list_to_map.
  - rewrite list_elem_of_fmap. split.
    + intros [Hc <-]. by exists c.
    + intros (c' & [= -> ->] & Hc). done.
  - by rewrite <- list_fmap_compose.
Qed.

(** What a selection means in each mode. *)
Definition selected_is (cs : list SnapshotCandidate) (mode : RootSelectionMode) (max_depth : N)
    (c : SnapshotCandidate) : Prop :=
  match mode with
  | StrictExactEnd => at_end cs max_depth (table cs) c /\ forall c', at_end cs max_depth (table cs) c' -> c' = c
  | Recovery => above_all cs max_depth (table cs) c
  end.

Definition selection_failed (cs : list SnapshotCandidate) (mode : RootSelectionMode)
    (limits : RootSelectionLimits) (e : RootSelectionError) : Prop :=
  let m := table cs in
  let d := max_parent_depth limits in
  match e with
  | CandidateLimitExceeded => max_candidates limits < len cs
  | DuplicateIdentity _ => ~ NoDup (identity <$> cs)
  | NoExactEndRoot => mode = StrictExactEnd /\ forall c, ~ at_end cs d m c
  | MultipleExactEndRoots => mode = StrictExactEnd /\ exists c c', c <> c' /\ at_end cs d m c /\ at_end cs d m c'
  | NoValidRoot => mode = Recovery /\ forall c, c ∈ cs -> ~ valid m d c
  | AmbiguousFork => mode = Recovery /\ forked cs d m
  end.

Lemma select_cases cs mode_ limits :
  Forall (fun c => sequence c <= U64_MAX) cs ->
  match select cs mode_ limits with
  | Ok r => exists c, selected_is cs mode_ (max_parent_depth limits) c /\
      mode r = mode_ /\ selected r = identity c /\ selected_sequence r = sequence c /\
      valid_chain (table cs) (chain r) c /\ len (chain r) <= max_parent_depth limits /\
      candidates_considered r = len cs
  | Err e => selection_failed cs mode_ limits e
  end.
Proof.
  intros Hcs. unfold select.
  destruct (N.ltb_spec (max_candidates limits) (len cs)) as [Hl|Hl]; cbn [negb]; [done|].
  pose proof (insert_candidates_cases cs) as Hi.
  destruct (fold_result insert_candidate cs ∅) as [m|e]; [|by destruct Hi as [[i ->] Hn]].
  destruct Hi as [Hnd Hm]. pose proof (table_of cs m Hnd Hm) as ->.
  pose proof (fun i l => judge_chains (table cs) (max_parent_depth limits) cs i l Hnd) as Hch.
  destruct (foldl _ _ _) as [chains rej]. cbn [fst] in Hch.
  set (d := max_parent_depth limits) in *.
  assert (Hfin : forall c, selected_is cs mode_ d c -> c ∈ cs /\ valid (table cs) d c).
  { intros c. unfold selected_is, at_end, above_all. destruct mode_; naive_solver. }
  assert (Hsel : match (match mode_ with
      | StrictExactEnd => select_exact_end cs chains
      | Recovery => select_recovery (table cs) chains
      end) with Ok c => selected_is cs mode_ d c | Err e => selection_failed cs mode_ limits e end).
  { destruct mode_.
    - pose proof (select_exact_end_cases cs d (table cs) chains Hcs Hm Hch) as Hs.
      specialize (Hs (NoDup_fmap_1 _ _ Hnd)). unfold selection_failed. fold d.
      destruct (select_exact_end _ _) as [c|[]]; naive_solver.
    - pose proof (select_recovery_cases cs d (table cs) chains Hcs Hm Hch) as Hs.
      unfold selection_failed. fold d. destruct (select_recovery _ _) as [c|[]]; naive_solver. }
  destruct (match mode_ with StrictExactEnd => _ | Recovery => _ end) as [c|e]; [|exact Hsel].
  destruct (Hfin c Hsel) as [Hc Hv].
  destruct (chain_of_valid cs d (table cs) chains Hcs Hm Hch c Hc Hv) as (l & El & Hvc & Hll).
  rewrite El. cbn [ok_or]. exists c. by split_and!.
Qed.

Lemma valid_chain_unique m l l' c : valid_chain m l c -> valid_chain m l' c -> l = l'.
Proof.
  intros Hv. revert l'. induction Hv as [c Hc Hn|c p l Hc Hn Hm Hs Hv IH]; intros l' Hv'.
  - inversion Hv'; [done|congruence].
  - destruct (valid_chain_parent _ _ _ _ Hv' Hn) as (q & l2 & Hq & _ & _ & Hv2 & ->).
    rewrite Hm in Hq. injection Hq as <-. by rewrite (IH l2 Hv2).
Qed.

(** [RootSelectionReport::select] in either mode: strict selection
    returns the one valid snapshot at the exact end of the file, recovery the
    one valid snapshot whose sequence number is above all the others' (the
    search for childless tips makes no difference), and the report holds its
    chain from the genesis. Every error is explained, the ones of the other
    mode excluded. *)
Theorem select_chooses_unique_snapshot cs mode_ limits :
  Forall (fun c => sequence c <= U64_MAX) cs ->
  match select cs mode_ limits with
  | Ok r => exists c, selected_is cs mode_ (max_parent_depth limits) c /\
      mode r = mode_ /\ selected r = identity c /\ selected_sequence r = sequence c /\
      valid_chain (table cs) (chain r) c /\ len (chain r) <= max_parent_depth limits /\
      candidates_considered r = len cs
  | Err e => selection_failed cs mode_ limits e
  end.
Proof. apply select_cases. Qed.

Definition sample_genesis : SnapshotCandidate := mkCandidate [Byte.x01] 1 None 100 false Complete Verified.
Definition sample_child : SnapshotCandidate := mkCandidate [Byte.x02] 2 (Some [Byte.x01]) 200 true Complete Verified.
Definition sample_candidates : list SnapshotCandidate := [sample_child; sample_genesis].

Lemma select_chooses_unique_snapshot_witness :
  exists r, select sample_candidates Recovery default_selection_limits = Ok r /\
  chain r = [[Byte.x01]; [Byte.x02]] /\
  exists c, selected_is sample_candidates Recovery 256 c /\ selected r = identity c.
Proof.
  assert (Hs : Forall (fun c => sequence c <= U64_MAX) sample_candidates)
    by (repeat constructor; apply N.leb_le; vm_compute; reflexivity).
  pose proof (select_chooses_unique_snapshot sample_candidates Recovery default_selection_limits Hs) as Ht.
  destruct (select sample_candidates Recovery default_selection_limits) as [r|e] eqn:E.
  - destruct Ht as (c & Hc & _ & Hid & _). exists r. split; [reflexivity|].
    split; [|exists c; split; [exact Hc|exact Hid]].
    assert (E' := E). vm_compute in E'. injection E' as <-. reflexivity.
  - exfalso. revert E. vm_compute. discriminate.
Defined.

(** C34. [evaluate_chain] accepts a candidate exactly when it heads a chain of
    verified complete snapshots, numbered one by one from a genesis, of at
    most [max_depth] members, and returns that chain. It never reports
    [ParentCycle]: on a cycle the sequence checks fail first. *)
Theorem evaluate_chain_exact m max_depth c l :
  keyed m -> m !! identity c = Some c ->
  (evaluate_chain c m max_depth = Ok l <-> valid_chain m l c /\ len l <= max_depth) /\
  evaluate_chain c m max_depth <> Err ParentCycle.
Proof.
  intros Hm Hk. pose proof (evaluate_chain_cases m max_depth Hm c Hk) as He.
  destruct (evaluate_chain c m max_depth) as [l'|e].
  - split; [|done]. destruct He as [Hv Hl]. split; [by intros [= <-]|].
    intros [Hv' _]. f_equal. by eapply valid_chain_unique.
  - destruct He as [Hne Hall]. split; [|congruence]. split; [done|].
    intros [Hv Hl]. specialize (Hall l Hv). lia.
Qed.

Lemma evaluate_chain_exact_witness :
  let m := table sample_candidates in
  valid_chain m [[Byte.x01]; [Byte.x02]] sample_child /\
  evaluate_chain sample_child m 2 = Ok [[Byte.x01]; [Byte.x02]].
Proof.
  assert (Hk : keyed (table sample_candidates)).
  { intros i c Hc. unfold table in Hc. apply elem_of_list_to_map_2 in Hc.
    apply list_elem_of_fmap in Hc as (c' & [= -> ->] & Hc'). split; [reflexivity|].
    apply elem_of_cons in Hc' as [->|Hc'%list_elem_of_singleton]; [|subst c'];
      apply N.leb_le; vm_compute; reflexivity. }
  assert (Hs : table sample_candidates !! identity sample_child = Some sample_child) by (vm_compute; reflexivity).
  assert (He : evaluate_chain sample_child (table sample_candidates) 2 = Ok [[Byte.x01]; [Byte.x02]])
    by (vm_compute; reflexivity).
  split; [|exact He].
  apply (proj1 (evaluate_chain_exact (table sample_candidates) 2 sample_child _ Hk Hs)). exact He.
Defined.
