(* ===== verification/Publication.v ===== *)
(** [crates/ucof-experiments/src/publication.rs]: the order in which an append
    publishes its parts. The model is a state machine whose operations are
    [advance] and [checkpoint]; each call counts as an event first. Its state is
    a function of the calls it has accepted. *)

From Stdlib Require Import Strings.Byte Strings.String NArith ZArith Lia.
From stdpp Require Import base list gmap strings sorting.
From S2P Require Import Prelude Snapshots.

Local Open Scope N_scope.

Inductive PublicationStage : Type :=
  Objects | DirectoryLeaves | DirectoryRoot | SnapshotManifest | Footer.

#[export] Instance PublicationStage_eq_dec : EqDecision PublicationStage.
Proof. solve_decision. Defined.

Definition stage_index (stage : PublicationStage) : nat :=
  match stage with
  | Objects => 0
  | DirectoryLeaves => 1
  | DirectoryRoot => 2
  | SnapshotManifest => 3
  | Footer => 4
  end.

(** The derived [<] follows the declaration order. *)
Definition stage_lt (s t : PublicationStage) : bool := (stage_index s <? stage_index t)%nat.

(** [{stage:?}] *)
Definition stage_name (stage : PublicationStage) : string :=
  match stage with
  | Objects => "Objects"
  | DirectoryLeaves => "DirectoryLeaves"
  | DirectoryRoot => "DirectoryRoot"
  | SnapshotManifest => "SnapshotManifest"
  | Footer => "Footer"
  end.

Record PublicationLimits : Type := mkPublicationLimits {
  max_events : N;
  max_complete_checkpoints : N;
  max_progress_checkpoints : N;
}.

Definition default_publication_limits : PublicationLimits := mkPublicationLimits 1000000 1024 4096.

Inductive PublicationError : Type :=
  | EventLimitExceeded
  | StageRegression
  | DuplicateStage (stage : PublicationStage)
  | FooterBeforeSnapshot
  | CheckpointBeforeObjects
  | CompleteCheckpointLimitExceeded
  | ProgressCheckpointLimitExceeded
  | AlreadyPublished.

Definition publication_error_to_string (e : PublicationError) : string :=
  match e with
  | EventLimitExceeded => "publication event limit exceeded"
  | StageRegression => "publication stage regressed"
  | DuplicateStage stage => "duplicate publication stage " ++ stage_name stage
  | FooterBeforeSnapshot => "footer attempted before snapshot manifest"
  | CheckpointBeforeObjects => "checkpoint attempted before object stage"
  | CompleteCheckpointLimitExceeded => "complete checkpoint limit exceeded"
  | ProgressCheckpointLimitExceeded => "progress checkpoint limit exceeded"
  | AlreadyPublished => "append already published"
  end%string.

Record PublishedCheckpoint : Type := mkCheckpoint {
  cp_identity : SnapshotIdentity;
  cp_sequence : N;
  cp_kind : CheckpointKind;
  independently_readable : bool;
  active_root_eligible : bool;
}.

Record PublicationReport : Type := mkPublicationReport {
  published_snapshot : option SnapshotIdentity;
  published_sequence : option N;
  pr_complete_checkpoints : list PublishedCheckpoint;
  pr_progress_checkpoints : list PublishedCheckpoint;
  pr_last_complete_snapshot : option SnapshotIdentity;
  pr_event_count : N;
}.

Record PublicationModel : Type := mkModel {
  pm_identity : SnapshotIdentity;
  pm_sequence : N;
  pm_limits : PublicationLimits;
  current_stage : option PublicationStage;
  stage_seen : list bool;
  published : bool;
  complete_checkpoints : list PublishedCheckpoint;
  progress_checkpoints : list PublishedCheckpoint;
  last_complete_snapshot : option SnapshotIdentity;
  event_count : N;
}.

Definition publication_new (identity : SnapshotIdentity) (sequence : N)
    (previous_complete : option SnapshotIdentity) (limits : PublicationLimits) : PublicationModel :=
  mkModel identity sequence limits None (replicate 5 false) false [] [] previous_complete 0.

(** [self.stage_seen[stage_index(stage)]] *)
Definition seen (m : PublicationModel) (stage : PublicationStage) : bool :=
  default false (stage_seen m !! stage_index stage).

Definition set_events (n : N) (m : PublicationModel) : PublicationModel :=
  mkModel (pm_identity m) (pm_sequence m) (pm_limits m) (current_stage m) (stage_seen m) (published m)
    (complete_checkpoints m) (progress_checkpoints m) (last_complete_snapshot m) n.

Definition record_event (m : PublicationModel) : result PublicationError unit * PublicationModel :=
  if max_events (pm_limits m) <=? event_count m then (Err EventLimitExceeded, m)
  else (Ok tt, set_events (event_count m + 1) m).

Definition advance (stage : PublicationStage) (m : PublicationModel)
    : result PublicationError unit * PublicationModel :=
  match record_event m with
  | (Err e, m) => (Err e, m)
  | (Ok _, m) =>
      if published m then (Err AlreadyPublished, m)
      else if match current_stage m with Some current => stage_lt stage current | None => false end
        then (Err StageRegression, m)
      else if seen m stage then (Err (DuplicateStage stage), m)
      else if bool_decide (stage = Footer) && negb (seen m SnapshotManifest)
        then (Err FooterBeforeSnapshot, m)
      else
        let footer := bool_decide (stage = Footer) in
        (Ok tt, mkModel (pm_identity m) (pm_sequence m) (pm_limits m) (Some stage)
          (<[stage_index stage := true]> (stage_seen m)) (if footer then true else published m)
          (complete_checkpoints m) (progress_checkpoints m)
          (if footer then Some (pm_identity m) else last_complete_snapshot m) (event_count m))
  end.

Definition checkpoint (identity : SnapshotIdentity) (sequence : N) (kind : CheckpointKind)
    (m : PublicationModel) : result PublicationError PublishedCheckpoint * PublicationModel :=
  match record_event m with
  | (Err e, m) => (Err e, m)
  | (Ok _, m) =>
      if published m then (Err AlreadyPublished, m)
      else if negb (seen m Objects) then (Err CheckpointBeforeObjects, m)
      else
        match kind with
        | Complete =>
            if max_complete_checkpoints (pm_limits m) <=? len (complete_checkpoints m)
            then (Err CompleteCheckpointLimitExceeded, m)
            else
              let c := mkCheckpoint identity sequence kind true true in
              (Ok c, mkModel (pm_identity m) (pm_sequence m) (pm_limits m) (current_stage m) (stage_seen m)
                (published m) (complete_checkpoints m ++ [c]) (progress_checkpoints m)
                (Some identity) (event_count m))
        | Progress =>
            if max_progress_checkpoints (pm_limits m) <=? len (progress_checkpoints m)
            then (Err ProgressCheckpointLimitExceeded, m)
            else
              let c := mkCheckpoint identity sequence kind false false in
              (Ok c, mkModel (pm_identity m) (pm_sequence m) (pm_limits m) (current_stage m) (stage_seen m)
                (published m) (complete_checkpoints m) (progress_checkpoints m ++ [c])
                (last_complete_snapshot m) (event_count m))
        end
  end.

Definition report (m : PublicationModel) : PublicationReport :=
  mkPublicationReport (if published m then Some (pm_identity m) else None)
    (if published m then Some (pm_sequence m) else None)
    (complete_checkpoints m) (progress_checkpoints m) (last_complete_snapshot m) (event_count m).

(** ** Calls and the log of accepted ones *)

Inductive Call : Type :=
  | Advance (stage : PublicationStage)
  | Checkpoint (identity : SnapshotIdentity) (sequence : N) (kind : CheckpointKind).

Inductive Accepted : Type :=
  | Reached (stage : PublicationStage)
  | Recorded (c : PublishedCheckpoint).

#[export] Instance PublishedCheckpoint_eq_dec : EqDecision PublishedCheckpoint.
Proof. solve_decision. Defined.
#[export] Instance Accepted_eq_dec : EqDecision Accepted.
Proof. solve_decision. Defined.

Definition call (c : Call) (m : PublicationModel) : list Accepted * PublicationModel :=
  match c with
  | Advance s => match advance s m with (Ok _, m) => ([Reached s], m) | (Err _, m) => ([], m) end
  | Checkpoint i n k => match checkpoint i n k m with (Ok c, m) => ([Recorded c], m) | (Err _, m) => ([], m) end
  end.

Fixpoint run_calls (cs : list Call) (m : PublicationModel) : list Accepted * PublicationModel :=
  match cs with
  | [] => ([], m)
  | c :: cs =>
      let '(l1, m) := call c m in
      let '(l2, m) := run_calls cs m in
      (l1 ++ l2, m)
  end.

Definition stages (log : list Accepted) : list PublicationStage :=
  omap (fun a => match a with Reached s => Some s | Recorded _ => None end) log.

Definition checkpoints (kind : CheckpointKind) (log : list Accepted) : list PublishedCheckpoint :=
  omap (fun a => match a with
                 | Recorded c => if bool_decide (cp_kind c = kind) then Some c else None
                 | Reached _ => None
                 end) log.

(** The newest complete snapshot: the last complete checkpoint, or the append
    itself once its footer is reached. *)
Definition last_complete (identity : SnapshotIdentity) (previous : option SnapshotIdentity)
    (log : list Accepted) : option SnapshotIdentity :=
  foldl (fun last a =>
    match a with
    | Reached Footer => Some identity
    | Recorded c => if bool_decide (cp_kind c = Complete) then Some (cp_identity c) else last
    | Reached _ => last
    end) previous log.

Definition before (s t : PublicationStage) : Prop := (stage_index s < stage_index t)%nat.

(** A log the model can have: stages in order, checkpoints only after the
    objects, the footer last and only after the snapshot manifest. *)
Inductive legal : list Accepted -> Prop :=
  | legal_nil : legal []
  | legal_stage log s :
      legal log -> Footer ∉ stages log -> (forall t, t ∈ stages log -> before t s) ->
      (s = Footer -> SnapshotManifest ∈ stages log) -> legal (log ++ [Reached s])
  | legal_checkpoint log c :
      legal log -> Footer ∉ stages log -> Objects ∈ stages log ->
      independently_readable c = bool_decide (cp_kind c = Complete) ->
      active_root_eligible c = bool_decide (cp_kind c = Complete) ->
      legal (log ++ [Recorded c]).

Lemma stages_app l1 l2 : stages (l1 ++ l2) = stages l1 ++ stages l2.
Proof. apply omap_app. Qed.

Lemma checkpoints_app k l1 l2 : checkpoints k (l1 ++ l2) = checkpoints k l1 ++ checkpoints k l2.
Proof. apply omap_app. Qed.

Lemma last_complete_snoc i p log a :
  last_complete i p (log ++ [a]) =
  match a with
  | Reached Footer => Some i
  | Recorded c => if bool_decide (cp_kind c = Complete) then Some (cp_identity c) else last_complete i p log
  | Reached _ => last_complete i p log
  end.
Proof. unfold last_complete. by rewrite foldl_app. Qed.

Section Model.
Context (identity : SnapshotIdentity) (sequence : N) (previous : option SnapshotIdentity).
Context (limits : PublicationLimits).

(** The state is determined by the log and the number of calls counted. *)
Record follows (log : list Accepted) (m : PublicationModel) : Prop := {
  fo_legal : legal log;
  fo_identity : pm_identity m = identity;
  fo_sequence : pm_sequence m = sequence;
  fo_limits : pm_limits m = limits;
  fo_current : current_stage m = last (stages log);
  fo_length : length (stage_seen m) = 5%nat;
  fo_seen : forall s, seen m s = bool_decide (s ∈ stages log);
  fo_published : published m = bool_decide (Footer ∈ stages log);
  fo_complete : complete_checkpoints m = checkpoints Complete log;
  fo_progress : progress_checkpoints m = checkpoints Progress log;
  fo_last : last_complete_snapshot m = last_complete identity previous log;
  fo_max_complete : len (checkpoints Complete log) <= max_complete_checkpoints limits;
  fo_max_progress : len (checkpoints Progress log) <= max_progress_checkpoints limits;
  fo_events : event_count m <= max_events limits;
}.

Lemma follows_new : follows [] (publication_new identity sequence previous limits).
Proof.
  split; try done; try constructor; try apply N.le_0_l. by intros [].
Qed.

Lemma follows_count log m n :
  follows log m -> n <= max_events limits -> follows log (set_events n m).
Proof. intros [] Hn. by split. Qed.

Lemma record_event_cases log m :
  follows log m ->
  match record_event m with
  | (Ok _, m') => event_count m < max_events limits /\ m' = set_events (event_count m + 1) m /\ follows log m'
  | (Err e, m') => e = EventLimitExceeded /\ event_count m = max_events limits /\ m' = m
  end.
Proof.
  intros Hm. unfold record_event. rewrite (fo_limits _ _ Hm). pose proof (fo_events _ _ Hm).
  destruct (N.leb_spec (max_events limits) (event_count m)); [split_and!; [done|lia|done]|].
  split_and!; [done|done|]. apply follows_count; [done|lia].
Qed.

(** The stages of a legal log are in order, so comparing with the last one is
    comparing with all of them. *)
Lemma legal_sorted log : legal log -> StronglySorted before (stages log).
Proof.
  induction 1 as [|log s Hl IH Hf Hb Hm|log c Hl IH Hf Ho Hr Ha]; [constructor| |].
  - rewrite stages_app. simpl. apply StronglySorted_app_2; [|done|by repeat constructor].
    intros t x Ht ->%list_elem_of_singleton. by apply Hb.
  - rewrite stages_app. simpl. by rewrite app_nil_r.
Qed.

Lemma legal_last log s :
  legal log ->
  (match last (stages log) with Some current => stage_lt s current | None => false end = false /\
   s ∉ stages log) <-> forall t, t ∈ stages log -> before t s.
Proof.
  intros Hl. apply legal_sorted in Hl. unfold stage_lt. destruct (stages log) as [|x l _] using rev_ind.
  { simpl. split; [|split; [done|set_solver]]. intros _ t Ht. by apply elem_of_nil in Ht. }
  apply StronglySorted_app in Hl as (Hl & _).
  rewrite last_snoc. unfold before in *. rewrite Nat.ltb_ge.
  assert (Hlt : forall t, t ∈ l -> (stage_index t < stage_index x)%nat).
  { intros t Ht. apply Hl; [done|by left]. }
  assert (Hinj : forall s t, stage_index s = stage_index t -> s = t) by (by intros [] []).
  split.
  - intros [Hle Hn] t. rewrite elem_of_app, list_elem_of_singleton. intros [Ht| ->]; [specialize (Hlt t Ht); lia|].
    assert (stage_index x <> stage_index s); [|lia]. intros He. apply Hn. rewrite <- (Hinj _ _ He). set_solver.
  - intros Hall. assert (Hx : (stage_index x < stage_index s)%nat) by (apply Hall; set_solver). split; [lia|].
    intros Hs. specialize (Hall s Hs). lia.
Qed.

Lemma seen_insert m s t :
  length (stage_seen m) = 5%nat ->
  default false (<[stage_index s := true]> (stage_seen m) !! stage_index t) = bool_decide (t = s) || seen m t.
Proof.
  intros Hl. destruct (decide (t = s)) as [->|Hn].
  - rewrite bool_decide_true, list_lookup_insert_eq; [done| |done]. rewrite Hl. destruct s; simpl; lia.
  - rewrite bool_decide_false by done. rewrite list_lookup_insert_ne; [done|]. by destruct s, t.
Qed.

(** What an accepted [advance] needs. *)
Definition may_reach (log : list Accepted) (s : PublicationStage) : Prop :=
  Footer ∉ stages log /\ (forall t, t ∈ stages log -> before t s) /\
  (s = Footer -> SnapshotManifest ∈ stages log).

Lemma advance_cases log m s :
  follows log m ->
  match advance s m with
  | (Ok _, m') => follows (log ++ [Reached s]) m' /\ event_count m' = event_count m + 1 /\ may_reach log s
  | (Err e, m') => follows log m' /\
      ((event_count m = max_events limits /\ e = EventLimitExceeded /\ m' = m) \/
       (event_count m < max_events limits /\ ~ may_reach log s /\ m' = set_events (event_count m + 1) m))
  end.
Proof.
  intros Hm. unfold advance. pose proof (record_event_cases log m Hm) as Hr.
  destruct (record_event m) as [[u|e] m1].
  2:{ destruct Hr as (-> & He & ->). split; [done|by left]. }
  destruct Hr as (Hlt & Em1 & Hf).
  pose proof Hf as [Hlegal Hid Hsq Hlim Hcur Hlen Hseen Hpub Hcmp Hprg Hlast Hmc Hmp Hev].
  rewrite Hpub. destruct (decide (Footer ∈ stages log)) as [Hfo|Hfo].
  { rewrite bool_decide_true by done. split; [done|right]. split_and!; [done| |done]. by intros [? _]. }
  rewrite bool_decide_false by done. rewrite Hcur.
  pose proof (legal_last log s Hlegal) as Hll.
  destruct (match last (stages log) with Some current => stage_lt s current | None => false end) eqn:Eb.
  { split; [done|right]. split_and!; [done| |done]. intros (_ & Hb & _). apply Hll in Hb as [? _]. done. }
  rewrite Hseen. destruct (decide (s ∈ stages log)) as [Hs|Hs].
  { rewrite bool_decide_true by done. split; [done|right]. split_and!; [done| |done].
    intros (_ & Hb & _). by apply Hll in Hb as [_ ?]. }
  rewrite bool_decide_false by done. rewrite Hseen.
  assert (Hb : forall t, t ∈ stages log -> before t s) by (by apply Hll).
  destruct (bool_decide (s = Footer) && negb (bool_decide (SnapshotManifest ∈ stages log))) eqn:Eg.
  { apply andb_true_iff in Eg as [Es Eg]. apply bool_decide_eq_true in Es. apply negb_true_iff, bool_decide_eq_false in Eg.
    split; [done|right]. split_and!; [done| |done]. intros (_ & _ & Hsm). by apply Eg, Hsm. }
  assert (Hsm : s = Footer -> SnapshotManifest ∈ stages log).
  { intros ->. rewrite bool_decide_true in Eg by done. by apply negb_false_iff, bool_decide_eq_true in Eg. }
  split; [|split; [by rewrite Em1|done]].
  split; cbn [pm_identity pm_sequence pm_limits current_stage stage_seen published complete_checkpoints
    progress_checkpoints last_complete_snapshot event_count]; try done.
  - by constructor.
  - rewrite stages_app. simpl. by rewrite last_snoc.
  - by rewrite length_insert.
  - intros t. unfold seen. simpl. rewrite seen_insert by done. rewrite Hseen, stages_app. simpl.
    destruct (decide (t = s)) as [->|Hts]; [rewrite (bool_decide_true (s = s)) by done; simpl; symmetry;
      apply bool_decide_eq_true; set_solver|].
    rewrite (bool_decide_false (t = s)) by done. simpl. apply bool_decide_ext. set_solver.
  - rewrite stages_app. simpl. destruct (decide (s = Footer)) as [->|Hsf].
    + rewrite (bool_decide_true (Footer = Footer)) by done. symmetry. apply bool_decide_eq_true. set_solver.
    + rewrite (bool_decide_false (s = Footer)) by done. symmetry. apply bool_decide_eq_false. set_solver.
  - rewrite checkpoints_app. simpl. by rewrite app_nil_r.
  - rewrite checkpoints_app. simpl. by rewrite app_nil_r.
  - rewrite last_complete_snoc. destruct s; simpl; congruence.
  - rewrite checkpoints_app. simpl. by rewrite app_nil_r.
  - rewrite checkpoints_app. simpl. by rewrite app_nil_r.
Qed.

(** The fields of [follows] after a checkpoint is recorded. *)
Local Ltac log_step :=
  first
  [ by constructor
  | by rewrite bool_decide_false
  | by rewrite last_complete_snoc
  | rewrite checkpoints_app; simpl; rewrite ?app_nil_r; done
  | rewrite checkpoints_app, len_app; unfold len at 2; simpl; lia ].

Lemma checkpoint_cases log m i n k :
  follows log m ->
  match checkpoint i n k m with
  | (Ok c, m') => follows (log ++ [Recorded c]) m' /\ event_count m' = event_count m + 1 /\
      cp_identity c = i /\ cp_sequence c = n /\ cp_kind c = k /\ Footer ∉ stages log /\ Objects ∈ stages log
  | (Err e, m') => follows log m' /\
      ((event_count m = max_events limits /\ e = EventLimitExceeded /\ m' = m) \/
       (event_count m < max_events limits /\ m' = set_events (event_count m + 1) m))
  end.
Proof.
  intros Hm. unfold checkpoint. pose proof (record_event_cases log m Hm) as Hr.
  destruct (record_event m) as [[u|e] m1].
  2:{ destruct Hr as (-> & He & ->). split; [done|by left]. }
  destruct Hr as (Hlt & Em1 & Hf).
  pose proof Hf as [Hlegal Hid Hsq Hlim Hcur Hlen Hseen Hpub Hcmp Hprg Hlast Hmc Hmp Hev].
  rewrite Hpub. destruct (decide (Footer ∈ stages log)) as [Hfo|Hfo].
  { rewrite bool_decide_true by done. split; [done|by right]. }
  rewrite bool_decide_false by done. rewrite Hseen. destruct (decide (Objects ∈ stages log)) as [Ho|Ho].
  2:{ rewrite bool_decide_false by done. split; [done|by right]. }
  rewrite bool_decide_true by done. cbn [negb]. rewrite Hlim.
  assert (Hst : forall c, stages (log ++ [Recorded c]) = stages log) by (intros c; rewrite stages_app; apply app_nil_r).
  destruct k.
  - rewrite Hcmp. destruct (N.leb_spec (max_complete_checkpoints limits) (len (checkpoints Complete log)));
      [split; [done|by right]|].
    split; [|by rewrite Em1]. split; cbn [pm_identity pm_sequence pm_limits current_stage stage_seen published
      complete_checkpoints progress_checkpoints last_complete_snapshot event_count]; rewrite ?Hst; try done;
      log_step.
  - rewrite Hprg. destruct (N.leb_spec (max_progress_checkpoints limits) (len (checkpoints Progress log)));
      [split; [done|by right]|].
    split; [|by rewrite Em1]. split; cbn [pm_identity pm_sequence pm_limits current_stage stage_seen published
      complete_checkpoints progress_checkpoints last_complete_snapshot event_count]; rewrite ?Hst; try done;
      log_step.
Qed.

Lemma call_cases c log m :
  follows log m ->
  follows (log ++ (call c m).1) (call c m).2 /\
  event_count (call c m).2 = N.min (event_count m + 1) (max_events limits).
Proof.
  intros Hm. destruct c as [s|i n k]; simpl.
  - pose proof (advance_cases log m s Hm) as Hc. destruct (advance s m) as [[u|e] m']; simpl.
    + destruct Hc as (Hf & He & _). split; [done|]. pose proof (fo_events _ _ Hf). lia.
    + rewrite app_nil_r. destruct Hc as [Hf [(He & _ & ->)|(He & _ & ->)]]; (split; [done|simpl; lia]).
  - pose proof (checkpoint_cases log m i n k Hm) as Hc. destruct (checkpoint i n k m) as [[u|e] m']; simpl.
    + destruct Hc as (Hf & He & _). split; [done|]. pose proof (fo_events _ _ Hf). lia.
    + rewrite app_nil_r. destruct Hc as [Hf [(He & _ & ->)|(He & ->)]]; (split; [done|simpl; lia]).
Qed.

Lemma run_calls_follows cs log m :
  follows log m ->
  follows (log ++ (run_calls cs m).1) (run_calls cs m).2 /\
  event_count (run_calls cs m).2 = N.min (event_count m + len cs) (max_events limits).
Proof.
  revert log m. induction cs as [|c cs IH]; intros log m Hm; simpl.
  - rewrite app_nil_r, len_nil. split; [done|]. pose proof (fo_events _ _ Hm). lia.
  - destruct (call_cases c log m Hm) as [Hf He]. destruct (call c m) as [l1 m1]. simpl in Hf, He.
    destruct (IH _ _ Hf) as [Hf2 He2]. destruct (run_calls cs m1) as [l2 m2]. simpl in *.
    rewrite app_assoc, len_cons. split; [done|]. lia.
Qed.
End Model.

(** ** What every history of calls leaves *)

(** C35. After any sequence of [advance] and [checkpoint] calls on a new model,
    its state is the one the log of accepted calls determines, and that log is
    legal: stages strictly in order, checkpoints between the objects and the
    footer, the footer only after the snapshot manifest and nothing after it.
    The event counter is the number of calls, capped by its limit. *)
Theorem publication_follows_log identity sequence previous limits cs :
  let m0 := publication_new identity sequence previous limits in
  follows identity sequence previous limits (run_calls cs m0).1 (run_calls cs m0).2 /\
  event_count (run_calls cs m0).2 = N.min (len cs) (max_events limits).
Proof. apply (run_calls_follows _ _ _ _ cs []), follows_new. Qed.

(** In a state that follows a log, [advance] is accepted exactly when an
    event is left, the append is not published, the stage comes after every
    stage reached, and a footer has its snapshot manifest; otherwise only the
    event counter can move. *)
Theorem advance_accepts_exactly identity sequence previous limits log m s :
  follows identity sequence previous limits log m ->
  ((advance s m).1 = Ok tt <-> event_count m < max_events limits /\ may_reach log s) /\
  ((advance s m).1 <> Ok tt ->
     exists n, (advance s m).2 = set_events n m /\ follows identity sequence previous limits log (advance s m).2).
Proof.
  intros Hm. pose proof (advance_cases _ _ _ _ log m s Hm) as Hc.
  destruct (advance s m) as [[[]|e] m']; simpl.
  - destruct Hc as (Hf & He & Hr). split; [|by intros []]. split; [|done]. intros _. split; [|done].
    pose proof (fo_events _ _ _ _ _ _ Hf). lia.
  - destruct Hc as [Hf Hc]. split.
    + split; [done|]. intros [Hlt Hr]. destruct Hc as [(He & _)|(_ & Hn & _)]; [lia|done].
    + intros _. destruct Hc as [(_ & _ & ->)|(_ & _ & ->)]; [|by eexists]. exists (event_count m). split; [by destruct m|done].
Qed.

Definition sample_calls : list Call :=
  [Advance Objects; Checkpoint [Byte.x01] 1 Progress; Advance DirectoryRoot; Advance SnapshotManifest].

Lemma advance_accepts_exactly_witness :
  let m := (run_calls sample_calls (publication_new [Byte.x02] 2 None default_publication_limits)).2 in
  (advance Footer m).1 = Ok tt /\ (advance Objects m).1 <> Ok tt.
Proof.
  set (m := (run_calls sample_calls (publication_new [Byte.x02] 2 None default_publication_limits)).2).
  assert (Hf : follows [Byte.x02] 2 None default_publication_limits
    (run_calls sample_calls (publication_new [Byte.x02] 2 None default_publication_limits)).1 m).
  { destruct (run_calls_follows [Byte.x02] 2 None default_publication_limits sample_calls []
      (publication_new [Byte.x02] 2 None default_publication_limits)) as [Hr _]; [apply follows_new|exact Hr]. }
  split.
  - apply (advance_accepts_exactly [Byte.x02] 2 None default_publication_limits _ m Footer Hf).
    split; [vm_compute; reflexivity|]. split; [|split].
    + apply (bool_decide_eq_true_1 (_ ∉ _)). vm_compute. reflexivity.
    + assert (E : stages (run_calls sample_calls (publication_new [Byte.x02] 2 None default_publication_limits)).1
        = [Objects; DirectoryRoot; SnapshotManifest]) by (vm_compute; reflexivity).
      rewrite E. intros t Ht. unfold before.
      repeat (apply elem_of_cons in Ht as [->|Ht]; [simpl; lia|]). by apply elem_of_nil in Ht.
    + intros _. apply (bool_decide_eq_true_1 (_ ∈ _)). vm_compute. reflexivity.
  - vm_compute. discriminate.
Defined.
