(* ===== verification/Recovery.v ===== *)
(** [crates/ucof-experiments/src/recovery.rs]: the bounded backward search for
    candidates by their magic bytes, newest offset first, and its
    specification: all the places of the window where the magic stands, newest
    first, validated one after the other. *)

From Stdlib Require Import Strings.Byte Strings.String NArith ZArith Lia.
From stdpp Require Import base list gmap strings sorting.
From S2P Require Import Prelude.

Local Open Scope N_scope.

Record RecoveryScanLimits : Type := mkScanLimits {
  max_scan_bytes : N;
  max_magic_candidates : N;
  max_validations : N;
  max_results : N;
}.

Definition default_scan_limits : RecoveryScanLimits := mkScanLimits (64 * 1024) 128 64 32.

Inductive RecoveryScanError : Type :=
  | EmptyMagic
  | CandidateShorterThanMagic
  | MagicCandidateLimitExceeded
  | ValidationLimitExceeded
  | ResultLimitExceeded.

Definition scan_error_to_string (e : RecoveryScanError) : string :=
  match e with
  | EmptyMagic => "recovery magic must not be empty"
  | CandidateShorterThanMagic => "recovery candidate is shorter than its magic"
  | MagicCandidateLimitExceeded => "recovery magic-candidate limit exceeded"
  | ValidationLimitExceeded => "recovery candidate-validation limit exceeded"
  | ResultLimitExceeded => "recovery result limit exceeded"
  end%string.

Record ScannedCandidate (T : Type) : Type := mkScanned { sc_offset : N; sc_value : T }.
Arguments mkScanned {T}.
Arguments sc_offset {T}.
Arguments sc_value {T}.

Record RecoveryScanReport (T : Type) : Type := mkScanReport {
  candidates : list (ScannedCandidate T);
  bytes_in_search_window : N;
  magic_matches : N;
  validations : N;
  earlier_bytes_unsearched : bool;
}.
Arguments mkScanReport {T}.
Arguments candidates {T}.
Arguments bytes_in_search_window {T}.
Arguments magic_matches {T}.
Arguments validations {T}.
Arguments earlier_bytes_unsearched {T}.

(** [source.get(offset..offset + magic.len())] is the magic. *)
Definition magic_at (source magic : bytes) (offset : N) : bool :=
  bool_decide (get_range source offset (offset + len magic) = Some magic).

Definition has_exact_end_candidate (source magic : bytes) (candidate_len : N) : bool :=
  if bool_decide (magic = []) || (candidate_len <? len magic) || (len source <? candidate_len) then false
  else magic_at source magic (len source - candidate_len).

(** [first..=last], descending *)
Definition descending (first last_ : N) : list N :=
  rev (map (fun i => first + N.of_nat i) (seq 0 (N.to_nat (last_ + 1 - first)))).

(** The validator is an [FnMut]: it carries a state [V] from call to call. *)
Section Scan.
Context {T V : Type} (validate : N -> bytes -> V -> option T * V).
Context (source magic : bytes) (candidate_len : N) (limits : RecoveryScanLimits).

(** The body of the loop at one offset. *)
Definition scan_turn (report : RecoveryScanReport T) (v : V) (offset : N)
    : result RecoveryScanError (RecoveryScanReport T) * V :=
  if negb (magic_at source magic offset) then (Ok report, v)
  else
    match checked_add (magic_matches report) 1 with
    | None => (Err MagicCandidateLimitExceeded, v)
    | Some matches =>
        if max_magic_candidates limits <? matches then (Err MagicCandidateLimitExceeded, v)
        else
          match checked_add (validations report) 1 with
          | None => (Err ValidationLimitExceeded, v)
          | Some count =>
              if max_validations limits <? count then (Err ValidationLimitExceeded, v)
              else
                let report := mkScanReport (candidates report) (bytes_in_search_window report)
                  matches count (earlier_bytes_unsearched report) in
                let candidate := slice source offset (offset + candidate_len) in
                match validate offset candidate v with
                | (None, v) => (Ok report, v)
                | (Some value, v) =>
                    if max_results limits <=? len (candidates report) then (Err ResultLimitExceeded, v)
                    else
                      (Ok (mkScanReport (candidates report ++ [mkScanned offset value])
                             (bytes_in_search_window report) matches count
                             (earlier_bytes_unsearched report)), v)
                end
          end
    end.

Fixpoint scan_offsets (offsets : list N) (report : RecoveryScanReport T) (v : V)
    : result RecoveryScanError (RecoveryScanReport T) * V :=
  match offsets with
  | [] => (Ok report, v)
  | offset :: offsets =>
      match scan_turn report v offset with
      | (Err e, v) => (Err e, v)
      | (Ok report, v) => scan_offsets offsets report v
      end
  end.

Definition scan_backwards (v : V) : result RecoveryScanError (RecoveryScanReport T) * V :=
  if bool_decide (magic = []) then (Err EmptyMagic, v)
  else if candidate_len <? len magic then (Err CandidateShorterThanMagic, v)
  else
    let scan_start := len source - max_scan_bytes limits in
    let report := mkScanReport [] (len source - scan_start) 0 0 (0 <? scan_start) in
    if (len source <? candidate_len) || (max_scan_bytes limits =? 0) then (Ok report, v)
    else
      let last_start := len source - candidate_len in
      if last_start <? scan_start then (Ok report, v)
      else scan_offsets (descending scan_start last_start) report v.
End Scan.

(** [source] has [magic] at [offset]. *)
Definition stands_at (source magic : bytes) (offset : N) : Prop :=
  exists pre post, source = pre ++ magic ++ post /\ len pre = offset.

Lemma magic_at_spec source magic offset :
  len source <= U64_MAX -> magic_at source magic offset = true <-> stands_at source magic offset.
Proof.
  intros Hu. unfold magic_at. rewrite bool_decide_eq_true. split.
  - intros (_ & _ & _ & _ & pre & post & He & Hp)%get_range_Some. by exists pre, post.
  - intros (pre & post & -> & <-). by rewrite get_range_app.
Qed.

Lemma elem_of_descending lo hi o : o ∈ descending lo hi <-> lo <= o /\ o <= hi.
Proof.
  unfold descending. rewrite list_elem_of_In, <- in_rev, in_map_iff. setoid_rewrite in_seq. split.
  - intros (i & <- & Hi). lia.
  - intros [Hl Hh]. exists (N.to_nat (o - lo)). lia.
Qed.

Lemma len_descending lo hi : len (descending lo hi) = hi + 1 - lo.
Proof. unfold descending, len. rewrite length_rev, length_map, length_seq. lia. Qed.

Definition newer (a b : N) : Prop := b < a.

Lemma descending_sorted lo hi : StronglySorted newer (descending lo hi).
Proof.
  unfold descending. generalize (N.to_nat (hi + 1 - lo)) as k. intros k. induction k as [|k IH]; [constructor|].
  rewrite seq_S, map_app, rev_app_distr. simpl. constructor; [done|].
  apply Forall_forall. intros x Hx. rewrite list_elem_of_In, <- in_rev, in_map_iff in Hx.
  destruct Hx as (i & <- & Hi). apply in_seq in Hi. unfold newer. lia.
Qed.

Lemma filter_sorted (P : N -> Prop) `{forall x, Decision (P x)} l :
  StronglySorted newer l -> StronglySorted newer (filter P l).
Proof.
  induction 1 as [|x l Hs IH Hf]; [constructor|]. rewrite filter_cons. destruct (decide (P x)); [|done].
  constructor; [done|]. rewrite Forall_forall in *. intros y Hy. apply list_elem_of_filter in Hy as [_ Hy]. by apply Hf.
Qed.

Section Scan.
Context {T V : Type} (validate : N -> bytes -> V -> option T * V).
Context (source magic : bytes) (candidate_len : N) (limits : RecoveryScanLimits).

(** The candidates the validator keeps, called on the matches in order. *)
Fixpoint validate_all (offsets : list N) (v : V) : list (ScannedCandidate T) * V :=
  match offsets with
  | [] => ([], v)
  | o :: offsets =>
      let '(r, v) := validate o (slice source o (o + candidate_len)) v in
      let '(cs, v) := validate_all offsets v in
      (match r with Some value => mkScanned o value :: cs | None => cs end, v)
  end.

Definition within_limits (report : RecoveryScanReport T) : Prop :=
  magic_matches report <= max_magic_candidates limits /\ validations report <= max_validations limits /\
  len (candidates report) <= max_results limits.

Abbreviation matches := (filter (fun o => magic_at source magic o = true)).

Lemma scan_offsets_cases offsets report v :
  within_limits report -> validations report = magic_matches report ->
  magic_matches report + len offsets <= U64_MAX ->
  let '(kept, v') := validate_all (matches offsets) v in
  let total := magic_matches report + len (matches offsets) in
  match scan_offsets validate source magic candidate_len limits offsets report v with
  | (Ok rep, v2) => within_limits rep /\ v2 = v' /\ candidates rep = candidates report ++ kept /\
      magic_matches rep = total /\ validations rep = total /\
      bytes_in_search_window rep = bytes_in_search_window report /\
      earlier_bytes_unsearched rep = earlier_bytes_unsearched report
  | (Err e, _) =>
      (e = MagicCandidateLimitExceeded /\ max_magic_candidates limits < total) \/
      (e = ValidationLimitExceeded /\ max_validations limits < total) \/
      (e = ResultLimitExceeded /\ max_results limits < len (candidates report ++ kept))
  end.
Proof.
  revert report v. induction offsets as [|o offsets IH]; intros report v (W1 & W2 & W3) He Hu.
  { cbn -[len]. rewrite app_nil_r, len_nil. rewrite N.add_0_r. done. }
  rewrite len_cons in Hu. cbn [scan_offsets]. unfold scan_turn.
  destruct (magic_at source magic o) eqn:Em; cbn [negb].
  2:{ rewrite filter_cons_False by congruence. apply IH; [done|done|lia]. }
  rewrite filter_cons_True by done. cbn [validate_all]. rewrite checked_add_fits by lia.
  destruct (validate o (slice source o (o + candidate_len)) v) as [r w].
  destruct (validate_all (matches offsets) w) as [kept v'] eqn:Ek. rewrite len_cons.
  destruct (N.ltb_spec (max_magic_candidates limits) (magic_matches report + 1)) as [H1|H1]; [left; split; [done|lia]|].
  rewrite checked_add_fits by lia.
  destruct (N.ltb_spec (max_validations limits) (validations report + 1)) as [H2|H2]; [right; left; split; [done|lia]|].
  destruct r as [value|].
  - cbn [candidates]. destruct (N.leb_spec (max_results limits) (len (candidates report))) as [H3|H3].
    { right. right. split; [done|]. rewrite len_app, len_cons. lia. }
    match goal with |- context [scan_offsets _ _ _ _ _ _ ?rep _] => set (rep1 := rep) end.
    specialize (IH rep1 w). rewrite Ek in IH.
    assert (Hw : within_limits rep1) by (unfold within_limits; simpl; rewrite len_app, len_cons, len_nil; lia).
    specialize (IH Hw ltac:(simpl; lia) ltac:(simpl; lia)). simpl in IH.
    destruct (scan_offsets _ _ _ _ _ _ _ _) as [[rep|e] v2].
    + destruct IH as (I1 & I2 & I3 & I4 & I5 & I6 & I7). split_and!; try done; [|lia|lia].
      by rewrite I3, <- app_assoc.
    + rewrite <- app_assoc in IH. destruct IH as [[-> ?]|[[-> ?]|[-> ?]]];
        [left|right; left|right; right]; (split; [done|]); [lia|lia|done].
  - match goal with |- context [scan_offsets _ _ _ _ _ _ ?rep _] => set (rep1 := rep) end.
    specialize (IH rep1 w). rewrite Ek in IH.
    assert (Hw : within_limits rep1) by (unfold within_limits; simpl; lia).
    specialize (IH Hw ltac:(simpl; lia) ltac:(simpl; lia)). simpl in IH.
    destruct (scan_offsets _ _ _ _ _ _ _ _) as [[rep|e] v2].
    + destruct IH as (I1 & I2 & I3 & I4 & I5 & I6 & I7). split_and!; try done; lia.
    + destruct IH as [[-> ?]|[[-> ?]|[-> ?]]]; [left|right; left|right; right]; (split; [done|]); [lia|lia|done].
Qed.

(** The places a scan looks at. *)
Definition window_match (o : N) : Prop :=
  stands_at source magic o /\ len source - max_scan_bytes limits <= o /\ o + candidate_len <= len source.

Definition all_matches (ms : list N) : Prop :=
  StronglySorted newer ms /\ forall o, o ∈ ms <-> window_match o.

Definition scan_failed (v : V) (e : RecoveryScanError) : Prop :=
  match e with
  | EmptyMagic => magic = []
  | CandidateShorterThanMagic => candidate_len < len magic
  | MagicCandidateLimitExceeded => exists ms, all_matches ms /\ max_magic_candidates limits < len ms
  | ValidationLimitExceeded => exists ms, all_matches ms /\ max_validations limits < len ms
  | ResultLimitExceeded => exists ms, all_matches ms /\ max_results limits < len (validate_all ms v).1
  end.

Definition scan_reports (v : V) (rep : RecoveryScanReport T) (v' : V) : Prop :=
  magic <> [] /\ len magic <= candidate_len /\
  exists ms, all_matches ms /\ (candidates rep, v') = validate_all ms v /\
    magic_matches rep = len ms /\ validations rep = len ms /\ within_limits rep /\
    bytes_in_search_window rep = N.min (len source) (max_scan_bytes limits) /\
    earlier_bytes_unsearched rep = (max_scan_bytes limits <? len source).

Lemma scan_backwards_cases v :
  len source <= U64_MAX ->
  match scan_backwards validate source magic candidate_len limits v with
  | (Ok rep, v') => scan_reports v rep v'
  | (Err e, _) => scan_failed v e
  end.
Proof.
  intros Hu. unfold scan_backwards. case_bool_decide as Hm; [done|].
  destruct (N.ltb_spec candidate_len (len magic)) as [Hc|Hc]; [done|].
  assert (Hpos : 1 <= len magic) by (destruct magic; [done|rewrite len_cons; lia]).
  set (start := len source - max_scan_bytes limits).
  assert (Hearly : (0 <? start) = (max_scan_bytes limits <? len source)).
  { unfold start. destruct (N.ltb_spec (max_scan_bytes limits) (len source)); [apply N.ltb_lt|apply N.ltb_ge]; lia. }
  assert (Hnone : (forall o, ~ window_match o) -> scan_reports v
    (mkScanReport [] (len source - start) 0 0 (0 <? start)) v).
  { intros Hn. split_and!; [done|done|]. exists []. split; [split; [constructor|]|].
    - intros o. split; [intros Ho; by apply elem_of_nil in Ho|]. intros Ho. by apply Hn in Ho.
    - unfold within_limits. cbn [candidates magic_matches validations bytes_in_search_window earlier_bytes_unsearched]. split_and!; try done; try apply N.le_0_l. unfold start. lia. }
  destruct ((len source <? candidate_len) || (max_scan_bytes limits =? 0)) eqn:Eb.
  { apply Hnone. intros o (_ & Ho & Hoc). apply orb_true_iff in Eb as [Eb%N.ltb_lt|Eb%N.eqb_eq]; lia. }
  apply orb_false_iff in Eb as [E1%N.ltb_ge E2%N.eqb_neq].
  destruct (N.ltb_spec (len source - candidate_len) start) as [Hl|Hl].
  { apply Hnone. intros o (_ & Ho & Hoc). lia. }
  set (rep0 := mkScanReport _ _ _ _ _).
  set (ms := filter (fun o => magic_at source magic o = true) (descending start (len source - candidate_len))).
  assert (Hall : all_matches ms).
  { split; [apply filter_sorted, descending_sorted|]. intros o. unfold ms.
    rewrite list_elem_of_filter, elem_of_descending, magic_at_spec by done. unfold window_match. fold start.
    split; (intros (? & ? & ?); split_and!; [done|done|lia]). }
  pose proof (scan_offsets_cases (descending start (len source - candidate_len)) rep0 v) as Hs.
  fold ms in Hs. rewrite len_descending in Hs.
  specialize (Hs ltac:(unfold within_limits; split_and!; apply N.le_0_l) eq_refl ltac:(simpl; lia)).
  destruct (validate_all ms v) as [kept v2] eqn:Ek. cbn [magic_matches candidates rep0] in Hs. rewrite N.add_0_l in Hs.
  destruct (scan_offsets _ _ _ _ _ _ _ _) as [[rep|e] v'].
  - destruct Hs as (H1 & -> & H3 & H4 & H5 & H6 & H7). split_and!; [done|done|]. exists ms. rewrite Ek, H3.
    split_and!; try done; try apply H1; [rewrite H6; simpl; unfold start; lia|by rewrite H7].
  - destruct Hs as [[-> Hs]|[[-> Hs]|[-> Hs]]]; exists ms; (split; [done|]); [done|done|by rewrite Ek].
Qed.
End Scan.

(** C37. [scan_backwards] finds every place in its window where the magic
    stands in front of a complete candidate, newest first, and hands each to
    the validator once, in that order; the report holds what the validator
    kept, within the three limits, and the two counts. An error names a limit
    those matches really exceed, or a magic that is empty or too long. *)
Theorem scan_backwards_finds_all {T V} (validate : N -> bytes -> V -> option T * V) source magic candidate_len limits v :
  len source <= U64_MAX ->
  match scan_backwards validate source magic candidate_len limits v with
  | (Ok rep, v') => scan_reports validate source magic candidate_len limits v rep v'
  | (Err e, _) => scan_failed validate source magic candidate_len limits v e
  end.
Proof. apply scan_backwards_cases. Qed.

Definition sample_source : bytes := [Byte.x61; Byte.x62; Byte.x61; Byte.x63; Byte.x00].
Definition keep_all : N -> bytes -> nat -> option bytes * nat := fun _ b n => (Some b, S n).

Lemma scan_backwards_finds_all_witness :
  exists rep v', scan_backwards keep_all sample_source [Byte.x61] 2 default_scan_limits 0%nat = (Ok rep, v') /\
    sc_offset <$> candidates rep = [2; 0] /\
    scan_reports keep_all sample_source [Byte.x61] 2 default_scan_limits 0%nat rep v'.
Proof.
  assert (Hu : len sample_source <= U64_MAX) by (apply N.leb_le; vm_compute; reflexivity).
  pose proof (scan_backwards_finds_all keep_all sample_source [Byte.x61] 2 default_scan_limits 0%nat Hu) as Ht.
  destruct (scan_backwards keep_all sample_source [Byte.x61] 2 default_scan_limits 0%nat) as [[rep|e] v'] eqn:E.
  - exists rep, v'. split; [reflexivity|]. split; [|exact Ht]. vm_compute in E. injection E as <- _. reflexivity.
  - exfalso. apply (f_equal (fun x => is_ok x.1)) in E. revert E. vm_compute. discriminate.
Defined.

(** [has_exact_end_candidate] says whether the magic stands exactly a
    candidate before the end of the bytes; when it does and the window is not
    smaller than a candidate, that place is the first match of the scan. *)
Theorem exact_end_candidate source magic candidate_len limits :
  len source <= U64_MAX ->
  (has_exact_end_candidate source magic candidate_len = true <->
     magic <> [] /\ len magic <= candidate_len /\ candidate_len <= len source /\
     stands_at source magic (len source - candidate_len)) /\
  (has_exact_end_candidate source magic candidate_len = true -> candidate_len <= max_scan_bytes limits ->
     forall ms, all_matches source magic candidate_len limits ms -> head ms = Some (len source - candidate_len)).
Proof.
  intros Hu.
  assert (Hiff : has_exact_end_candidate source magic candidate_len = true <->
     magic <> [] /\ len magic <= candidate_len /\ candidate_len <= len source /\
     stands_at source magic (len source - candidate_len)).
  { unfold has_exact_end_candidate. rewrite <- magic_at_spec by done.
    destruct (decide (magic = [])) as [Hm|Hm]; [rewrite bool_decide_true by done; simpl; naive_solver|].
    rewrite bool_decide_false by done. cbn [orb].
    destruct (N.ltb_spec candidate_len (len magic)); cbn [orb]; [split; [done|intros (_ & ? & _); lia]|].
    destruct (N.ltb_spec (len source) candidate_len); [split; [done|intros (_ & _ & ? & _); lia]|].
    naive_solver. }
  split; [done|]. intros (Hm & Hc & Hl & Hs)%Hiff Hw ms [Hsort Hms].
  assert (Hin : len source - candidate_len ∈ ms).
  { apply Hms. split_and!; [done|lia|lia]. }
  destruct Hsort as [|x ms Hsort Hf]; [by apply elem_of_nil in Hin|]. simpl. f_equal.
  apply elem_of_cons in Hin as [->|Hin]; [done|]. rewrite Forall_forall in Hf. specialize (Hf _ Hin).
  assert (Hx : window_match source magic candidate_len limits x) by (apply Hms; by left).
  destruct Hx as (_ & _ & Hx). unfold newer in Hf. lia.
Qed.

Lemma exact_end_candidate_witness :
  has_exact_end_candidate sample_source [Byte.x61] 3 = true /\
  stands_at sample_source [Byte.x61] (len sample_source - 3).
Proof.
  assert (Hu : len sample_source <= U64_MAX) by (apply N.leb_le; vm_compute; reflexivity).
  assert (He : has_exact_end_candidate sample_source [Byte.x61] 3 = true) by (vm_compute; reflexivity).
  split; [exact He|].
  apply (proj1 (exact_end_candidate sample_source [Byte.x61] 3 default_scan_limits Hu)). exact He.
Defined.
