(* ===== verification/Enumeration.v ===== *)
(** [crates/ucof-experiments/src/enumeration.rs]: the report on every root a
    scan has found. Each candidate is classified by its parent chain; the valid
    ones become ancestors, terminals or members of a fork, and nothing is
    selected. *)

From Stdlib Require Import Strings.Byte Strings.String NArith ZArith Lia.
From stdpp Require Import base list gmap strings sorting.
From S2P Require Import Prelude Order Errors Snapshots.

Local Open Scope N_scope.

Record EnumerationLimits : Type := mkEnumerationLimits {
  enum_max_candidates : N;
  enum_max_parent_depth : N;
  enum_max_results : N;
}.

Definition default_enumeration_limits : EnumerationLimits := mkEnumerationLimits 1024 256 1024.

(** [EnumeratedRootStatus]; the constructors that a candidate's own status or a
    rejection of [Snapshots] also names carry the prefix [Root]. *)
Inductive EnumeratedRootStatus : Type :=
  | VerifiedTerminal
  | VerifiedAncestor
  | VerifiedForkTerminal
  | RootProgressCheckpoint
  | RootIntegrityFailed
  | RootUnsupportedRequiredCapability
  | RootTruncated
  | RootInvalid
  | RootMissingParent
  | RootParentNotVerified
  | RootNonIncreasingSequence
  | RootSequenceGap
  | RootParentCycle
  | RootParentDepthExceeded.

#[export] Instance EnumeratedRootStatus_eq_dec : EqDecision EnumeratedRootStatus.
Proof. solve_decision. Defined.

Record EnumeratedRoot : Type := mkRoot {
  root_identity : SnapshotIdentity;
  root_sequence : N;
  root_footer_offset : N;
  root_exact_end : bool;
  root_status : EnumeratedRootStatus;
  chain_depth : option N;
}.

Record RootEnumerationReport : Type := mkEnumeration {
  roots : list EnumeratedRoot;
  considered : N;
  valid_complete_count : N;
  highest_valid_sequence : option N;
  has_ambiguous_highest_fork : bool;
}.

Inductive RootEnumerationError : Type :=
  | RootCandidateLimitExceeded
  | RootResultLimitExceeded
  | RootDuplicateIdentity (identity : SnapshotIdentity).

Definition enumeration_error_to_string (e : RootEnumerationError) : string :=
  match e with
  | RootCandidateLimitExceeded => "root-enumeration candidate limit exceeded"
  | RootResultLimitExceeded => "root-enumeration result limit exceeded"
  | RootDuplicateIdentity identity => "duplicate snapshot identity " ++ identity_to_string identity
  end%string.

(** ** [classify_chain] *)

(** The loop: [depth] starts at one, grows by one each turn and is checked
    against [max_depth] first, so [max_depth + 1] units of fuel are enough
    ([EnumerationFacts.classify_loop_evaluates]). *)
Fixpoint classify_loop (fuel : nat) (candidates : Candidates) (max_depth : N)
    (visited : gset SnapshotIdentity) (depth : N) (current : SnapshotCandidate)
    : result EnumeratedRootStatus N :=
  match fuel with
  | O => Err RootParentDepthExceeded
  | S fuel =>
      check negb (max_depth <? depth) else RootParentDepthExceeded in
      check negb (bool_decide (identity current ∈ visited)) else RootParentCycle in
      let visited := {[identity current]} ∪ visited in
      match parent current with
      | None => Ok depth
      | Some parent_id =>
          let* parent := ok_or (candidates !! parent_id) RootMissingParent in
          check negb (negb (bool_decide (status parent = Verified)) || bool_decide (checkpoint parent = Progress))
            else RootParentNotVerified in
          check negb (sequence current <=? sequence parent) else RootNonIncreasingSequence in
          check sequence current =? saturating_add (sequence parent) 1 else RootSequenceGap in
          let* depth := ok_or (checked_add depth 1) RootParentDepthExceeded in
          classify_loop fuel candidates max_depth visited depth parent
      end
  end.

Definition classify_chain (start : SnapshotCandidate) (candidates : Candidates) (max_depth : N)
    : result EnumeratedRootStatus N :=
  match status start with
  | IntegrityFailed => Err RootIntegrityFailed
  | CandidateUnsupportedRequiredCapability => Err RootUnsupportedRequiredCapability
  | Truncated => Err RootTruncated
  | Invalid => Err RootInvalid
  | Verified =>
      check negb (bool_decide (checkpoint start = Progress)) else RootProgressCheckpoint in
      classify_loop (S (N.to_nat max_depth)) candidates max_depth ∅ 1 start
  end.

(** ** [RootEnumerationReport::enumerate] *)

Abbreviation Depths := (gmap SnapshotIdentity N).
Abbreviation Statuses := (gmap SnapshotIdentity EnumeratedRootStatus).

(** [by_identity.insert] for every candidate *)
Definition register (m : Candidates) (c : SnapshotCandidate) : result RootEnumerationError Candidates :=
  match m !! identity c with
  | Some _ => Err (RootDuplicateIdentity (identity c))
  | None => Ok (<[identity c := c]> m)
  end.

Definition classify (by_identity : Candidates) (max_depth : N) (acc : Depths * Statuses)
    (c : SnapshotCandidate) : Depths * Statuses :=
  match classify_chain c by_identity max_depth with
  | Ok depth => (<[identity c := depth]> acc.1, <[identity c := VerifiedTerminal]> acc.2)
  | Err status => (acc.1, <[identity c := status]> acc.2)
  end.

(** [for id in ids { statuses.insert(id, status) }] *)
Definition mark (status : EnumeratedRootStatus) (ids : list SnapshotIdentity) (statuses : Statuses) : Statuses :=
  foldl (fun m i => <[i := status]> m) statuses ids.

(** Newest physical footer first, then the higher sequence, then the identity. *)
Definition recency (left right : EnumeratedRoot) : comparison :=
  then_with (N.compare (root_footer_offset right) (root_footer_offset left))
    (then_with (N.compare (root_sequence right) (root_sequence left))
      (compare_bytes (root_identity left) (root_identity right))).

(** A candidate's line of the report; its identity has been classified. *)
Definition describe (valid_depths : Depths) (statuses : Statuses) (c : SnapshotCandidate) : option EnumeratedRoot :=
  match statuses !! identity c with
  | Some status => Some (mkRoot (identity c) (sequence c) (footer_offset c) (exact_end c) status (valid_depths !! identity c))
  | None => None
  end.

Definition enumerate (candidates : list SnapshotCandidate) (limits : EnumerationLimits)
    : result RootEnumerationError RootEnumerationReport :=
  check negb (enum_max_candidates limits <? len candidates) else RootCandidateLimitExceeded in
  check negb (enum_max_results limits <? len candidates) else RootResultLimitExceeded in
  let* by_identity := fold_result register candidates ∅ in
  let '(valid_depths, statuses) :=
    foldl (classify by_identity (enum_max_parent_depth limits)) (∅, ∅) candidates in
  let valid_ids : gset SnapshotIdentity := dom valid_depths in
  let parent_ids : gset SnapshotIdentity :=
    list_to_set (filter (fun p => p ∈ valid_ids) (omap parent (candidates_of by_identity valid_ids))) in
  let statuses := mark VerifiedAncestor (sort_by compare_bytes (elements parent_ids)) statuses in
  let terminals := candidates_of by_identity (valid_ids ∖ parent_ids) in
  let highest_valid_sequence := maximum_sequence terminals in
  let highest := filter (fun c => Some (sequence c) = highest_valid_sequence) terminals in
  let ambiguous := 1 <? len highest in
  let statuses := if ambiguous then mark VerifiedForkTerminal (identity <$> highest) statuses else statuses in
  let roots := sort_by recency (omap (describe valid_depths statuses) candidates) in
  Ok (mkEnumeration roots (len candidates) (N.of_nat (size valid_depths)) highest_valid_sequence ambiguous).
