(* ===== verification/EnumerationFacts.v ===== *)
(** The enumeration of roots against its specification: its classifier agrees
    with the chain evaluation of [Snapshots], every candidate gets exactly one
    line, with the status that the valid chains give it, and the fork flag is
    the one that makes a recovery ambiguous. *)

From Stdlib Require Import Strings.Byte Strings.String NArith ZArith Lia.
From stdpp Require Import base list gmap strings sorting.
From S2P Require Import Prelude Order Errors Snapshots SnapshotsFacts Enumeration.

Local Open Scope N_scope.

(** ** The two classifiers *)

(** The status under which the enumeration reports a rejection met on the way
    up; it does not tell an unverified parent from a progress one. *)
Definition status_of_rejection (r : RootRejection) : EnumeratedRootStatus :=
  match r with
  | NotVerified | ParentNotVerified | ProgressCheckpoint => RootParentNotVerified
  | MissingParent => RootMissingParent
  | NonIncreasingSequence => RootNonIncreasingSequence
  | SequenceGap => RootSequenceGap
  | ParentCycle => RootParentCycle
  | ParentDepthExceeded => RootParentDepthExceeded
  end.

(** ... and the one of the candidate's own status or checkpoint. *)
Definition own_status (c : SnapshotCandidate) : option EnumeratedRootStatus :=
  match status c, checkpoint c with
  | IntegrityFailed, _ => Some RootIntegrityFailed
  | CandidateUnsupportedRequiredCapability, _ => Some RootUnsupportedRequiredCapability
  | Truncated, _ => Some RootTruncated
  | Invalid, _ => Some RootInvalid
  | Verified, Progress => Some RootProgressCheckpoint
  | Verified, Complete => None
  end.

Lemma classify_loop_evaluates m max_depth fuel reverse visited current :
  max_depth <= U64_MAX -> len reverse <= max_depth -> max_depth < len reverse + N.of_nat fuel ->
  classify_loop fuel m max_depth visited (len reverse + 1) current =
  match chain_loop fuel m max_depth reverse visited current with
  | Ok l => Ok (len l)
  | Err e => Err (status_of_rejection e)
  end.
Proof.
  intros Hmax. revert reverse visited current. induction fuel as [|fuel IH]; intros reverse visited current Hr Hf; [done|].
  cbn [classify_loop chain_loop].
  destruct (N.leb_spec max_depth (len reverse)) as [Hd|Hd];
    destruct (N.ltb_spec max_depth (len reverse + 1)) as [Hd'|Hd']; try lia; cbn [negb]; [done|].
  case_bool_decide; cbn [negb]; [done|].
  destruct (parent current) as [i|].
  2:{ unfold len at 2. rewrite length_rev. fold (len (reverse ++ [identity current])).
      by rewrite len_app, len_cons, len_nil. }
  destruct (m !! i) as [p|]; cbn [ok_or]; [|done].
  destruct (decide (status p = Verified)); [rewrite (bool_decide_true (status p = _)) by done
    |by rewrite (bool_decide_false (status p = _))]; cbn [negb orb].
  destruct (decide (checkpoint p = Progress)); [by rewrite (bool_decide_true (checkpoint p = _))
    |rewrite (bool_decide_false (checkpoint p = _)) by done]; cbn [negb].
  destruct (sequence current <=? sequence p); cbn [negb]; [done|].
  destruct (sequence current =? _); [|done].
  assert (Hc : checked_add (len reverse + 1) 1 =
    if len reverse + 2 <=? U64_MAX then Some (len reverse + 2) else None).
  { unfold checked_add. replace (len reverse + 1 + 1) with (len reverse + 2) by lia. done. }
  rewrite Hc. destruct (N.leb_spec (len reverse + 2) U64_MAX) as [Hu|Hu]; cbn [ok_or].
  - specialize (IH (reverse ++ [identity current]) ({[identity current]} ∪ visited) p).
    rewrite len_app, len_cons, len_nil in IH.
    replace (len reverse + (1 + 0) + 1) with (len reverse + 2) in IH by lia. apply IH; lia.
  - destruct fuel as [|fuel]; [lia|]. cbn [chain_loop]. rewrite len_app, len_cons, len_nil.
    destruct (N.leb_spec max_depth (len reverse + (1 + 0))); cbn [negb]; [done|lia].
Qed.

Lemma classify_chain_cases c m max_depth :
  max_depth <= U64_MAX ->
  match own_status c with
  | Some s => classify_chain c m max_depth = Err s /\ is_ok (evaluate_chain c m max_depth) = false
  | None =>
      classify_chain c m max_depth =
      match evaluate_chain c m max_depth with
      | Ok l => Ok (len l)
      | Err e => Err (status_of_rejection e)
      end
  end.
Proof.
  intros Hmax. unfold own_status, classify_chain, evaluate_chain.
  destruct (status c); cbn [bool_decide]; try (split; [done|]; by rewrite bool_decide_false).
  change (bool_decide (Verified = Verified)) with true. destruct (checkpoint c).
  - change (bool_decide (Complete = Progress)) with false. cbn [negb].
    change 1 with (len (@nil SnapshotIdentity) + 1). apply classify_loop_evaluates; unfold len; simpl; lia.
  - done.
Qed.

Lemma classify_chain_Ok c m max_depth d :
  max_depth <= U64_MAX ->
  classify_chain c m max_depth = Ok d <-> exists l, evaluate_chain c m max_depth = Ok l /\ d = len l.
Proof.
  intros Hmax. pose proof (classify_chain_cases c m max_depth Hmax) as Hc.
  destruct (own_status c).
  - destruct Hc as [-> He]. destruct (evaluate_chain c m max_depth); [done|]. naive_solver.
  - rewrite Hc. destruct (evaluate_chain c m max_depth); naive_solver.
Qed.

(** ** The tables *)

Definition as_enumeration_error (e : RootSelectionError) : RootEnumerationError :=
  match e with DuplicateIdentity i => RootDuplicateIdentity i | _ => RootCandidateLimitExceeded end.

Lemma register_all cs m :
  fold_result register cs m =
  match fold_result insert_candidate cs m with Ok m' => Ok m' | Err e => Err (as_enumeration_error e) end.
Proof.
  revert m. induction cs as [|c cs IH]; intros m; simpl; [done|]. unfold register at 1, insert_candidate at 1.
  destruct (m !! identity c); [done|]. apply IH.
Qed.

Lemma classify_depths m max_depth cs depths statuses chains rejected :
  max_depth <= U64_MAX -> depths = len <$> chains ->
  (foldl (classify m max_depth) (depths, statuses) cs).1 =
  len <$> (foldl (judge m max_depth) (chains, rejected) cs).1.
Proof.
  intros Hmax. revert depths statuses chains rejected.
  induction cs as [|c cs IH]; intros depths statuses chains rejected Hd; [done|]. cbn [foldl].
  assert (Hc : exists statuses' rejected' depths' chains', classify m max_depth (depths, statuses) c = (depths', statuses') /\
    judge m max_depth (chains, rejected) c = (chains', rejected') /\ depths' = len <$> chains').
  { unfold classify, judge. destruct (classify_chain c m max_depth) as [d|s] eqn:E.
    - apply classify_chain_Ok in E as (l & -> & ->); [|done]. do 4 eexists. split_and!; [done..|].
      cbn [fst]. by rewrite fmap_insert, Hd.
    - destruct (evaluate_chain c m max_depth) as [l|e] eqn:El.
      + assert (classify_chain c m max_depth = Ok (len l)) by (apply classify_chain_Ok; [done|by exists l]). congruence.
      + do 4 eexists. by split_and!. }
  destruct Hc as (? & ? & ? & ? & -> & -> & Hc). by apply IH.
Qed.

Definition first_status (m : Candidates) (max_depth : N) (c : SnapshotCandidate) : EnumeratedRootStatus :=
  match classify_chain c m max_depth with Ok _ => VerifiedTerminal | Err s => s end.

Lemma classify_statuses m max_depth cs c :
  NoDup (identity <$> cs) -> c ∈ cs ->
  (foldl (classify m max_depth) (∅, ∅) cs).2 !! identity c = Some (first_status m max_depth c).
Proof.
  induction cs as [|x cs IH] using rev_ind; intros Hnd Hc; [by apply elem_of_nil in Hc|].
  rewrite fmap_app in Hnd. apply NoDup_app in Hnd as (Hnd & Hd & _). rewrite foldl_app. cbn [foldl].
  assert (Hs : forall acc, (classify m max_depth acc x).2 = <[identity x := first_status m max_depth x]> acc.2).
  { intros acc. unfold classify, first_status. by destruct (classify_chain x m max_depth). }
  rewrite Hs. apply elem_of_app in Hc as [Hc|Hc%list_elem_of_singleton].
  - rewrite lookup_insert_ne; [by apply IH|]. intros He. apply (Hd (identity c)); [by apply list_elem_of_fmap_2|].
    rewrite <- He. csimpl. set_solver.
  - subst c. by rewrite lookup_insert_eq.
Qed.

Lemma lookup_mark s ids m i :
  mark s ids m !! i = if bool_decide (i ∈ ids) then Some s else m !! i.
Proof.
  unfold mark. revert m. induction ids as [|j ids IH]; intros m; cbn [foldl].
  { by rewrite bool_decide_false by set_solver. }
  rewrite IH. destruct (decide (i ∈ ids)) as [Hi|Hi].
  { by rewrite !bool_decide_true by set_solver. }
  rewrite (bool_decide_false (i ∈ ids)) by done. destruct (decide (i = j)) as [->|Hj].
  - rewrite lookup_insert_eq. by rewrite bool_decide_true by set_solver.
  - rewrite lookup_insert_ne by done. by rewrite bool_decide_false by set_solver.
Qed.

#[export] Instance recency_total : TotalCmp recency.
Proof.
  unfold recency. apply (then_with_total (fun x y => N.compare (root_footer_offset y) (root_footer_offset x))).
  { apply (flip_cmp_total (cmp_on root_footer_offset N.compare)). }
  apply (then_with_total (fun x y => N.compare (root_sequence y) (root_sequence x))).
  { apply (flip_cmp_total (cmp_on root_sequence N.compare)). }
  exact (cmp_on_total compare_bytes root_identity).
Qed.

Lemma omap_total {A B} (f : A -> option B) (g : A -> B) (l : list A) :
  (forall x, x ∈ l -> f x = Some (g x)) -> omap f l = g <$> l.
Proof.
  induction l as [|x l IH]; intros Hl; [done|]. csimpl. rewrite (Hl x) by set_solver. f_equal. apply IH. set_solver.
Qed.

Lemma filter_map {A B} (f : A -> B) (P : B -> Prop) `{forall x, Decision (P x)} (l : list A) :
  filter P (f <$> l) = f <$> filter (fun x => P (f x)) l.
Proof.
  induction l as [|x l IH]; [done|]. rewrite fmap_cons, !filter_cons. case_decide; csimpl; by rewrite IH.
Qed.

(** ** What a report says *)

Section Report.
Context (cs : list SnapshotCandidate) (max_depth : N).

Definition has_valid_child (c : SnapshotCandidate) : Prop :=
  exists c', c' ∈ cs /\ valid (table cs) max_depth c' /\ parent c' = Some (identity c).

(** A valid candidate of the greatest sequence number, and one that is not
    alone in that. *)
Definition at_top (c : SnapshotCandidate) : Prop :=
  c ∈ cs /\ valid (table cs) max_depth c /\
  forall x, x ∈ cs -> valid (table cs) max_depth x -> sequence x <= sequence c.

Definition in_fork (c : SnapshotCandidate) : Prop := at_top c /\ exists c', c' <> c /\ at_top c'.

Definition rejected_as (c : SnapshotCandidate) (s : EnumeratedRootStatus) : Prop :=
  match own_status c with
  | Some s' => s = s'
  | None => exists e, evaluate_chain c (table cs) max_depth = Err e /\ e <> ParentCycle /\ s = status_of_rejection e
  end.

Definition status_is (c : SnapshotCandidate) (s : EnumeratedRootStatus) : Prop :=
  match s with
  | VerifiedAncestor => valid (table cs) max_depth c /\ has_valid_child c
  | VerifiedForkTerminal => in_fork c
  | VerifiedTerminal => valid (table cs) max_depth c /\ ~ has_valid_child c /\ ~ in_fork c
  | _ => ~ valid (table cs) max_depth c /\ rejected_as c s
  end.

(** The line of [c]. *)
Record reports (c : SnapshotCandidate) (r : EnumeratedRoot) : Prop := {
  rp_identity : root_identity r = identity c;
  rp_sequence : root_sequence r = sequence c;
  rp_offset : root_footer_offset r = footer_offset c;
  rp_exact_end : root_exact_end r = exact_end c;
  rp_depth d : chain_depth r = Some d <->
    exists l, valid_chain (table cs) l c /\ len l = d /\ d <= max_depth;
  rp_status : status_is c (root_status r);
}.

Record enumerates (r : RootEnumerationReport) : Prop := {
  en_lines : exists line, roots r ≡ₚ line <$> cs /\ forall c, c ∈ cs -> reports c (line c);
  en_order : Sorted (cmp_le recency) (roots r);
  en_considered : considered r = len cs;
  en_valid : valid_complete_count r = len (filter (fun x => is_Some (chain_depth x)) (roots r));
  en_highest n : highest_valid_sequence r = Some n <-> exists c, at_top c /\ sequence c = n;
  en_fork : has_ambiguous_highest_fork r = true <-> forked cs max_depth (table cs);
}.

Definition enumeration_failed (limits : EnumerationLimits) (e : RootEnumerationError) : Prop :=
  match e with
  | RootCandidateLimitExceeded => enum_max_candidates limits < len cs
  | RootResultLimitExceeded => enum_max_results limits < len cs <= enum_max_candidates limits
  | RootDuplicateIdentity _ => ~ NoDup (identity <$> cs)
  end.
End Report.

Section Enumerate.
Context (cs : list SnapshotCandidate) (max_depth : N).
Context (Hcs : Forall (fun c => sequence c <= U64_MAX) cs) (Hmax : max_depth <= U64_MAX).
Context (Hnd : NoDup (identity <$> cs)).
Context (Hm : forall i c, table cs !! i = Some c <-> c ∈ cs /\ identity c = i).

Notation chains := (foldl (judge (table cs) max_depth) (∅, []) cs).1.
Notation tables := (foldl (classify (table cs) max_depth) (∅, ∅) cs).

Lemma chains_spec i l : chains !! i = Some l <->
  exists c, c ∈ cs /\ identity c = i /\ evaluate_chain c (table cs) max_depth = Ok l.
Proof. by apply judge_chains. Qed.

Lemma depths_chains : tables.1 = len <$> chains.
Proof. apply classify_depths; [done|by rewrite fmap_empty]. Qed.

Lemma depths_dom : dom tables.1 = dom chains.
Proof. rewrite depths_chains. apply dom_fmap_L. Qed.

Lemma depth_spec c d : c ∈ cs ->
  tables.1 !! identity c = Some d <-> exists l, valid_chain (table cs) l c /\ len l = d /\ d <= max_depth.
Proof.
  intros Hc. rewrite depths_chains, lookup_fmap, fmap_Some. split.
  - intros (l & Hl & ->). exists l.
    assert (Hv : valid (table cs) max_depth c) by (eapply chains_valid; [done..|apply chains_spec|done|by exists l]).
    destruct (chain_of_valid cs max_depth (table cs) chains Hcs Hm chains_spec c Hc Hv) as (l' & Hl' & Hvc & Hle).
    rewrite Hl in Hl'. injection Hl' as <-. done.
  - intros (l & Hvc & <- & Hle). assert (Hv : valid (table cs) max_depth c) by (by exists l).
    destruct (chain_of_valid cs max_depth (table cs) chains Hcs Hm chains_spec c Hc Hv) as (l' & Hl' & Hvc' & _).
    exists l'. split; [done|]. f_equal. by eapply valid_chain_unique.
Qed.

Lemma first_status_spec c : c ∈ cs ->
  (valid (table cs) max_depth c /\ first_status (table cs) max_depth c = VerifiedTerminal) \/
  (status_is cs max_depth c (first_status (table cs) max_depth c) /\ ~ valid (table cs) max_depth c).
Proof.
  intros Hc. pose proof (classify_chain_cases c (table cs) max_depth Hmax) as Hcl. unfold first_status.
  assert (Hk : keyed (table cs)) by (eapply table_keyed; done).
  assert (Hself : table cs !! identity c = Some c) by (by apply Hm).
  pose proof (evaluate_chain_cases (table cs) max_depth Hk c Hself) as Hev.
  destruct (evaluate_chain c (table cs) max_depth) as [l|e] eqn:El.
  { left. split; [by exists l|]. destruct (own_status c); [by destruct Hcl|by rewrite Hcl]. }
  right. destruct Hev as [Hne Hall].
  assert (Hno : ~ valid (table cs) max_depth c) by (intros (l & Hv & Hl); specialize (Hall l Hv); lia).
  split; [|done]. destruct (own_status c) as [s|] eqn:Eo.
  - destruct Hcl as [-> _]. assert (Hr : rejected_as cs max_depth c s) by (unfold rejected_as; by rewrite Eo).
    unfold own_status in Eo. destruct (status c), (checkpoint c); by simplify_eq.
  - rewrite Hcl. assert (Hr : rejected_as cs max_depth c (status_of_rejection e))
      by (unfold rejected_as; rewrite Eo; by exists e).
    by destruct e.
Qed.

Notation valid_ids := (dom tables.1 : gset SnapshotIdentity).
Notation parent_ids := (list_to_set (filter (fun p => p ∈ valid_ids)
  (omap parent (candidates_of (table cs) valid_ids))) : gset SnapshotIdentity).
Notation tips := (candidates_of (table cs) (valid_ids ∖ parent_ids)).
Notation highest := (filter (fun c => Some (sequence c) = maximum_sequence tips) tips).

Lemma maximum_spec :
  match maximum_sequence tips with
  | None => forall c, ~ at_top cs max_depth c
  | Some n => (exists c, at_top cs max_depth c /\ sequence c = n) /\ forall c, at_top cs max_depth c -> sequence c = n
  end /\ forall c, c ∈ highest <-> at_top cs max_depth c.
Proof.
  pose proof (tips_maximum cs max_depth (table cs) chains Hcs Hm chains_spec valid_ids parent_ids
    depths_dom eq_refl) as Ht. destruct (maximum_sequence tips) as [n|].
  - destruct Ht as (Hle & (cm & Hcm & Hvm & Hsm) & Htop).
    assert (Hat : forall c, at_top cs max_depth c <-> c ∈ cs /\ valid (table cs) max_depth c /\ sequence c = n).
    { intros c. unfold at_top. split.
      - intros (Hc & Hv & Hall). split_and!; [done|done|]. specialize (Hall cm Hcm Hvm). specialize (Hle c Hc Hv). lia.
      - intros (Hc & Hv & <-). by split_and!. }
    split; [split|].
    + exists cm. split; [|exact Hsm]. apply Hat. exact (conj Hcm (conj Hvm Hsm)).
    + intros c Hc. apply Hat in Hc as (_ & _ & Hs). exact Hs.
    + intros c. rewrite list_elem_of_filter, Hat, <- Htop. split; intros [Hx Hy]; (split; [|congruence || done]); congruence.
  - assert (Hno : forall c, ~ at_top cs max_depth c) by (intros c (Hc & Hv & _); by apply (Ht c)).
    split; [done|]. intros c. rewrite list_elem_of_filter. naive_solver.
Qed.

Lemma two_elements {A} (l : list A) : NoDup l -> 1 < len l <-> exists x y, x <> y /\ x ∈ l /\ y ∈ l.
Proof.
  intros Hl. destruct Hl as [|x l Hx Hl].
  { unfold len. simpl. split; [lia|]. set_solver. }
  destruct Hl as [|y l Hy Hl].
  { unfold len. simpl. split; [lia|]. set_solver. }
  unfold len. simpl. split; [|lia]. intros _. exists x, y. set_solver.
Qed.

Lemma ambiguous_spec : (1 <? len highest) = true <-> forked cs max_depth (table cs).
Proof.
  rewrite N.ltb_lt, two_elements by (apply NoDup_filter; by eapply NoDup_candidates_of).
  pose proof maximum_spec as [_ Hh]. setoid_rewrite Hh. unfold forked, at_top. split.
  - intros (x & y & Hne & (Hx & Hvx & Hax) & (Hy & Hvy & Hay)). exists x, y. split_and!; try done.
    specialize (Hax y Hy Hvy). specialize (Hay x Hx Hvx). lia.
  - intros (x & y & Hx & Hy & Hne & Hvx & Hvy & He & Hall). exists x, y. rewrite <- He. by split_and!.
Qed.

Lemma forked_in_fork : forked cs max_depth (table cs) -> forall c, at_top cs max_depth c -> in_fork cs max_depth c.
Proof.
  intros (x & y & Hx & Hy & Hne & Hvx & Hvy & He & Hall) c Hc. split; [done|].
  assert (Htx : at_top cs max_depth x) by done.
  assert (Hty : at_top cs max_depth y) by (unfold at_top; by rewrite <- He).
  destruct (decide (identity x = identity c)) as [Hi|Hi].
  - exists y. split; [|done]. intros ->. apply Hne. by apply (table_inj cs (table cs) Hm).
  - exists x. split; [|done]. by intros ->.
Qed.

Lemma in_fork_forked c : in_fork cs max_depth c -> forked cs max_depth (table cs).
Proof.
  intros [(Hc & Hv & Hall) (c' & Hne & Hc' & Hv' & Hall')]. exists c, c'. split_and!; try done.
  specialize (Hall c' Hc' Hv'). specialize (Hall' c Hc Hv). lia.
Qed.

(** ** The statuses of the report *)

Notation ancestors := (sort_by compare_bytes (elements parent_ids)).
Notation marked := (mark VerifiedAncestor ancestors tables.2).
Notation final_statuses :=
  (if 1 <? len highest then mark VerifiedForkTerminal (identity <$> highest) marked else marked).

Lemma in_ancestors c : c ∈ cs ->
  identity c ∈ ancestors <-> valid (table cs) max_depth c /\ has_valid_child cs max_depth c.
Proof.
  intros Hc. rewrite elem_of_sort_by, elem_of_elements.
  rewrite (parent_ids_spec cs max_depth (table cs) chains Hcs Hm chains_spec valid_ids parent_ids
    (identity c) depths_dom eq_refl), depths_dom.
  by rewrite (valid_id cs max_depth (table cs) chains Hcs Hm chains_spec c Hc).
Qed.

Lemma in_highest c : c ∈ cs -> identity c ∈ identity <$> highest <-> at_top cs max_depth c.
Proof.
  intros Hc. pose proof maximum_spec as [_ Hh]. rewrite list_elem_of_fmap. split.
  - intros (c' & He & Hc'). apply Hh in Hc'. assert (c = c') as ->; [|done].
    apply (table_inj cs (table cs) Hm); [done|by destruct Hc'|done].
  - intros Ht. exists c. split; [done|]. by apply Hh.
Qed.

Lemma at_top_childless c : at_top cs max_depth c -> ~ has_valid_child cs max_depth c.
Proof.
  intros (Hc & Hv & Hall) (c' & Hc' & Hv' & Hp).
  by apply (highest_terminal cs max_depth (table cs) Hm c (sequence c) Hc Hv eq_refl Hall c').
Qed.

Lemma final_status c : c ∈ cs -> exists s, final_statuses !! identity c = Some s /\ status_is cs max_depth c s.
Proof.
  intros Hc. pose proof (in_ancestors c Hc) as Ha. pose proof (in_highest c Hc) as Hh.
  pose proof ambiguous_spec as Hamb.
  assert (Hbase : exists s, mark VerifiedAncestor ancestors tables.2 !! identity c = Some s /\
    (in_fork cs max_depth c \/ status_is cs max_depth c s)).
  { rewrite lookup_mark. case_bool_decide as Hi.
    { exists VerifiedAncestor. split; [done|right]. by apply Ha. }
    rewrite (classify_statuses (table cs) max_depth cs c Hnd Hc). eexists; split; [done|].
    destruct (first_status_spec c Hc) as [[Hv ->]|[Hs _]]; [|by right].
    assert (Hnc : ~ has_valid_child cs max_depth c) by (intros Hch; by apply Hi, Ha).
    destruct (1 <? len highest) eqn:E.
    - destruct (decide (identity c ∈ identity <$> highest)) as [Ht|Ht].
      + left. apply forked_in_fork; [by apply Hamb|by apply Hh].
      + right. split_and!; [done|done|]. intros [Hat _]. by apply Ht, Hh.
    - right. split_and!; [done|done|]. intros Hf%in_fork_forked. apply Hamb in Hf. done. }
  destruct Hbase as (s & Hs & Hor). destruct (1 <? len highest) eqn:E.
  - rewrite lookup_mark. case_bool_decide as Hi.
    + exists VerifiedForkTerminal. split; [done|]. apply forked_in_fork; [by apply Hamb|by apply Hh].
    + exists s. split; [done|]. destruct Hor as [[Hat _]|Hor]; [by destruct Hi; apply Hh|done].
  - exists s. split; [done|]. destruct Hor as [Hf|Hor]; [|done].
    apply in_fork_forked, Hamb in Hf. done.
Qed.

Definition line_of (c : SnapshotCandidate) : EnumeratedRoot :=
  mkRoot (identity c) (sequence c) (footer_offset c) (exact_end c)
    (default RootInvalid (final_statuses !! identity c)) (tables.1 !! identity c).

Lemma describe_line c : c ∈ cs -> describe tables.1 final_statuses c = Some (line_of c).
Proof. intros Hc. unfold describe, line_of. destruct (final_status c Hc) as (s & Hs & _). by rewrite Hs. Qed.

Lemma line_reports c : c ∈ cs -> reports cs max_depth c (line_of c).
Proof.
  intros Hc. split; [done..| |]; unfold line_of; cbn [chain_depth root_status].
  - intros d. by apply depth_spec.
  - destruct (final_status c Hc) as (s & Hs & Hst). by rewrite Hs.
Qed.

Lemma valid_count : N.of_nat (size tables.1) = len (filter (fun c => is_Some (chain_depth (line_of c))) cs).
Proof.
  assert (Hd : valid_ids = list_to_set (identity <$> filter (fun c => is_Some (chain_depth (line_of c))) cs)).
  { apply set_eq. intros i. rewrite elem_of_list_to_set, list_elem_of_fmap, elem_of_dom.
    setoid_rewrite list_elem_of_filter. split.
    - intros Hi. assert (Hv : i ∈ valid_ids) by (by apply elem_of_dom). rewrite depths_dom in Hv.
      apply (valid_ids_spec cs max_depth (table cs) chains Hcs Hm chains_spec) in Hv as (c & Hc & <- & _).
      by exists c.
    - by intros (c & -> & Hi & _). }
  rewrite <- size_dom, Hd, size_list_to_set.
  - by rewrite length_fmap.
  - eapply sublist_NoDup; [exact Hnd|]. apply fmap_sublist, sublist_filter.
Qed.
End Enumerate.

Lemma enumerate_cases cs limits :
  Forall (fun c => sequence c <= U64_MAX) cs -> enum_max_parent_depth limits <= U64_MAX ->
  match enumerate cs limits with
  | Ok r => enumerates cs (enum_max_parent_depth limits) r
  | Err e => enumeration_failed cs limits e
  end.
Proof.
  intros Hcs Hmax. unfold enumerate.
  destruct (N.ltb_spec (enum_max_candidates limits) (len cs)) as [Hl|Hl]; cbn [negb]; [done|].
  destruct (N.ltb_spec (enum_max_results limits) (len cs)) as [Hl'|Hl']; cbn [negb]; [done|].
  rewrite register_all. pose proof (insert_candidates_cases cs) as Hi.
  destruct (fold_result insert_candidate cs ∅) as [m|e]; [|by destruct Hi as [[i ->] Hn]].
  destruct Hi as [Hnd Hm]. pose proof (table_of cs m Hnd Hm) as ->.
  set (d := enum_max_parent_depth limits) in *.
  pose proof (line_reports cs d Hcs Hmax Hnd Hm) as Hline. pose proof (describe_line cs d Hcs Hmax Hnd Hm) as Hdesc.
  pose proof (valid_count cs d Hcs Hmax Hnd Hm) as Hcount. pose proof (maximum_spec cs d Hcs Hmax Hnd Hm) as [Hmaxs _].
  pose proof (ambiguous_spec cs d Hcs Hmax Hnd Hm) as Hamb.
  set (line := line_of cs d) in *. clearbody line.
  destruct (foldl (classify (table cs) d) (∅, ∅) cs) as [depths statuses]. cbn [fst snd] in *.
  rewrite (omap_total _ line cs Hdesc).
  set (highest := maximum_sequence _) in *. clearbody highest.
  set (ambiguous := 1 <? _) in *. clearbody ambiguous. clear Hdesc.
  split; cbn [roots considered valid_complete_count highest_valid_sequence has_ambiguous_highest_fork].
  - exists line. split; [apply sort_by_Permutation|done].
  - apply sort_by_Sorted. apply recency_total.
  - done.
  - rewrite Hcount. unfold len. rewrite (filter_Permutation _ _ _ (sort_by_Permutation recency (line <$> cs))).
    by rewrite filter_map, length_fmap.
  - intros n. destruct highest as [n'|].
    + destruct Hmaxs as [(c & Hc & <-) Hall]. split; [intros [= <-]; by exists c|].
      intros (c' & Hc' & <-). by rewrite (Hall c' Hc').
    + split; [done|]. intros (c & Hc & _). by destruct (Hmaxs c).
  - exact Hamb.
Qed.

(** C39. [RootEnumerationReport::enumerate]: every candidate gets exactly one
    line, sorted by physical recency. Its depth is the length of its chain of
    verified complete ancestors, if it has one within the limit. Its status is
    [VerifiedAncestor] exactly for a valid candidate with a valid child,
    [VerifiedForkTerminal] for one that shares the greatest valid sequence
    number, [VerifiedTerminal] for the other valid ones, and otherwise its own
    defect or the one its chain breaks at, never [ParentCycle]. The count of
    valid roots, their greatest sequence number and the fork flag are right,
    and each error has its cause. *)
Theorem enumerate_describes_every_root cs limits :
  Forall (fun c => sequence c <= U64_MAX) cs -> enum_max_parent_depth limits <= U64_MAX ->
  match enumerate cs limits with
  | Ok r => enumerates cs (enum_max_parent_depth limits) r
  | Err e => enumeration_failed cs limits e
  end.
Proof. apply enumerate_cases. Qed.

(** A genesis, two children of it that fork, a progress checkpoint and an
    orphan. *)
Definition forked_candidates : list SnapshotCandidate :=
  [ sample_genesis;
    mkCandidate [Byte.x02] 2 (Some [Byte.x01]) 200 false Complete Verified;
    mkCandidate [Byte.x03] 2 (Some [Byte.x01]) 300 true Complete Verified;
    mkCandidate [Byte.x04] 3 (Some [Byte.x03]) 400 false Progress Verified;
    mkCandidate [Byte.x05] 7 (Some [Byte.x09]) 500 false Complete Verified ].

Lemma forked_candidates_bounds : Forall (fun c => sequence c <= U64_MAX) forked_candidates.
Proof. repeat constructor; apply N.leb_le; vm_compute; reflexivity. Qed.

Lemma enumerate_describes_every_root_witness :
  exists r, enumerate forked_candidates default_enumeration_limits = Ok r /\
  root_status <$> roots r =
    [RootMissingParent; RootProgressCheckpoint; VerifiedForkTerminal; VerifiedForkTerminal; VerifiedAncestor] /\
  has_ambiguous_highest_fork r = true /\ enumerates forked_candidates 256 r.
Proof.
  assert (Hd : enum_max_parent_depth default_enumeration_limits <= U64_MAX)
    by (apply N.leb_le; vm_compute; reflexivity).
  pose proof (enumerate_describes_every_root forked_candidates default_enumeration_limits
    forked_candidates_bounds Hd) as Ht.
  destruct (enumerate forked_candidates default_enumeration_limits) as [r|e] eqn:E.
  - exists r. split; [reflexivity|]. assert (E' := E). vm_compute in E'. injection E' as <-.
    split; [reflexivity|]. split; [reflexivity|exact Ht].
  - exfalso. revert E. vm_compute. discriminate.
Defined.

(** Enumeration and selection agree: over the same candidates and limits
    a recovery is refused as ambiguous exactly when the report shows a highest
    fork, finds nothing exactly when the report has no valid root, and
    otherwise selects the report's greatest valid sequence number. *)
Theorem enumerate_agrees_with_recovery cs limits r :
  Forall (fun c => sequence c <= U64_MAX) cs -> enum_max_parent_depth limits <= U64_MAX ->
  enumerate cs limits = Ok r ->
  match select cs Recovery (mkSelectionLimits (enum_max_candidates limits) (enum_max_parent_depth limits)) with
  | Ok s => has_ambiguous_highest_fork r = false /\ highest_valid_sequence r = Some (selected_sequence s)
  | Err AmbiguousFork => has_ambiguous_highest_fork r = true
  | Err NoValidRoot => has_ambiguous_highest_fork r = false /\ highest_valid_sequence r = None
  | Err _ => False
  end.
Proof.
  intros Hcs Hmax Hr. pose proof (enumerate_cases cs limits Hcs Hmax) as He. rewrite Hr in He.
  assert (Hlim : len cs <= enum_max_candidates limits /\ NoDup (identity <$> cs) /\
    forall i c, table cs !! i = Some c <-> c ∈ cs /\ identity c = i).
  { unfold enumerate in Hr. step_result Hr. bool_facts. split; [done|].
    rewrite register_all in *. pose proof (insert_candidates_cases cs) as Hi.
    destruct (fold_result insert_candidate cs ∅) as [m|]; [|done]. destruct Hi as [Hnd Hm].
    split; [done|]. by rewrite <- (table_of cs m Hnd Hm). }
  destruct Hlim as (Hlen & Hnd & Hm). set (lim := mkSelectionLimits _ _).
  pose proof (select_cases cs Recovery lim Hcs) as Hs.
  destruct (select cs Recovery lim) as [s|[]]; cbn in Hs; try lia; try done; try (by destruct Hs).
  - destruct Hs as (c & (Hc & Hv & Hall) & _ & _ & -> & _).
    assert (Htop : at_top cs (enum_max_parent_depth limits) c).
    { split_and!; [done|done|]. intros x Hx Hvx. destruct (decide (sequence x <= sequence c)) as [|Hgt]; [done|].
      assert (x <> c) by (intros ->; lia). specialize (Hall x Hx Hvx ltac:(done)). lia. }
    split; [|apply (en_highest _ _ _ He); by exists c].
    apply not_true_iff_false. intros Hf%(en_fork _ _ _ He).
    destruct (forked_in_fork _ _ Hm Hf c Htop) as [_ (c' & Hne & Hc' & Hv' & Hall')].
    specialize (Hall c' Hc' Hv' Hne). specialize (Hall' c Hc Hv). lia.
  - destruct Hs as [_ Hno]. split.
    + apply not_true_iff_false. intros (x & _ & Hx & _ & _ & Hvx & _)%(en_fork _ _ _ He). by apply (Hno x).
    + destruct (highest_valid_sequence r) as [n|] eqn:E; [|done].
      apply (en_highest _ _ _ He) in E as (c & (Hc & Hv & _) & _). by destruct (Hno c).
  - destruct Hs as [_ Hf]. by apply (en_fork _ _ _ He).
Qed.

Lemma enumerate_agrees_with_recovery_witness :
  exists r, enumerate forked_candidates default_enumeration_limits = Ok r /\ has_ambiguous_highest_fork r = true /\
  select forked_candidates Recovery default_selection_limits = Err AmbiguousFork.
Proof.
  assert (Hd : enum_max_parent_depth default_enumeration_limits <= U64_MAX)
    by (apply N.leb_le; vm_compute; reflexivity).
  assert (Hs : select forked_candidates Recovery (mkSelectionLimits 1024 256) = Err AmbiguousFork)
    by (vm_compute; reflexivity).
  destruct (enumerate forked_candidates default_enumeration_limits) as [r|e] eqn:E;
    [|exfalso; revert E; vm_compute; discriminate].
  pose proof (enumerate_agrees_with_recovery forked_candidates default_enumeration_limits r
    forked_candidates_bounds Hd E) as Ht.
  cbn [enum_max_candidates enum_max_parent_depth default_enumeration_limits] in Ht. rewrite Hs in Ht.
  exists r. split; [reflexivity|]. split; [exact Ht|exact Hs].
Defined.
