(* ===== verification/Directory.v ===== *)
(** [crates/ucof-experiments/src/directory.rs]: the paged directory. Sorted
    locators are cut into leaf pages and the pages linked, level by level, into
    a tree of key ranges; a lookup descends from the root, checking every page
    it reads. Rust code that would panic (an index out of range, a failed
    [expect]) is [None]. *)

From Stdlib Require Import Strings.Byte Strings.String NArith ZArith Lia.
From stdpp Require Import base list gmap strings sorting.
From S2P Require Import Prelude Order Errors.

Local Open Scope N_scope.

Record ObjectLocator : Type := mkLocator {
  object_id : N;
  kind : N;
  offset : N;
  stored_len : N;
  logical_len : N;
}.

#[export] Instance ObjectLocator_eq_dec : EqDecision ObjectLocator.
Proof. solve_decision. Defined.

Record DirectoryStats : Type := mkStats {
  entries : N;
  pages_count : N;
  leaf_pages : N;
  internal_pages : N;
  depth : N;
}.

Inductive DirectoryBuildError : Type :=
  | InvalidLeafCapacity
  | InvalidFanout
  | DuplicateObjectId (object_id : N)
  | ArithmeticOverflow.

Definition build_error_to_string (e : DirectoryBuildError) : string :=
  match e with
  | InvalidLeafCapacity => "leaf capacity must be non-zero"
  | InvalidFanout => "internal fanout must be at least two"
  | DuplicateObjectId id => "duplicate object identifier " ++ decimal id
  | ArithmeticOverflow => "directory size arithmetic overflow"
  end%string.

Definition estimated_bytes (stats : DirectoryStats) (page_size : N) : result DirectoryBuildError N :=
  ok_or (checked_mul (pages_count stats) page_size) ArithmeticOverflow.

Inductive DirectoryLookupError : Type :=
  | PageLimitExceeded
  | PageCycle
  | InvalidPageReference
  | EmptyInternalPage
  | InvalidPageRange
  | UnorderedLeaf
  | DuplicateLeafKey (object_id : N)
  | UnorderedChildRange
  | OverlappingChildRange
  | ChildRangeMismatch.

Definition lookup_error_to_string (e : DirectoryLookupError) : string :=
  match e with
  | PageLimitExceeded => "directory page-read limit exceeded"
  | PageCycle => "directory page cycle"
  | InvalidPageReference => "invalid directory page reference"
  | EmptyInternalPage => "empty internal directory page"
  | InvalidPageRange => "invalid directory page range"
  | UnorderedLeaf => "unordered directory leaf"
  | DuplicateLeafKey id => "duplicate directory leaf key " ++ decimal id
  | UnorderedChildRange => "unordered directory child ranges"
  | OverlappingChildRange => "overlapping directory child ranges"
  | ChildRangeMismatch => "child range does not match referenced page"
  end%string.

Record LookupResult : Type := mkLookup {
  locator : option ObjectLocator;
  pages_read : N;
}.

(** ** Pages *)

Record KeyRange : Type := mkRange {
  range_min : N;
  range_max : N;
}.

#[export] Instance KeyRange_eq_dec : EqDecision KeyRange.
Proof. solve_decision. Defined.

Definition contains (r : KeyRange) (value : N) : bool := (range_min r <=? value) && (value <=? range_max r).
Definition is_valid (r : KeyRange) : bool := range_min r <=? range_max r.

Record ChildLink : Type := mkLink {
  link_range : KeyRange;
  link_page : nat;
}.

Inductive Page : Type :=
  | Leaf (range : option KeyRange) (entries : list ObjectLocator)
  | Internal (range : KeyRange) (children : list ChildLink).

Definition range (p : Page) : option KeyRange :=
  match p with
  | Leaf range _ => range
  | Internal range _ => Some range
  end.

Record PagedDirectory : Type := mkDirectory {
  pages : list Page;
  root : nat;
  stats : DirectoryStats;
}.

(** ** [PagedDirectory::build] *)

(** A leaf over a non-empty chunk. *)
Definition leaf_page (chunk : list ObjectLocator) : option Page :=
  match head chunk, last chunk with
  | Some first, Some last => Some (Leaf (Some (mkRange (object_id first) (object_id last))) chunk)
  | _, _ => None
  end.

(** [ChildLink { range: pages[page_id].range().expect(..), page_id }] *)
Definition link_to (pages : list Page) (page_id : nat) : option ChildLink :=
  match pages !! page_id with
  | Some p => match range p with Some r => Some (mkLink r page_id) | None => None end
  | None => None
  end.

(** The page over one chunk of children. *)
Definition internal_page (pages : list Page) (child_ids : list nat) : option Page :=
  match mapM (link_to pages) child_ids with
  | Some children =>
      match head children, last children with
      | Some first, Some last =>
          Some (Internal (mkRange (range_min (link_range first)) (range_max (link_range last))) children)
      | _, _ => None
      end
  | None => None
  end.

(** The pages so far, the ids of the level under construction and the number
    of internal pages. *)
Record Level : Type := mkLevel {
  lv_pages : list Page;
  lv_next : list nat;
  lv_internal : N;
}.

Definition push_internal (s : option (result DirectoryBuildError Level)) (child_ids : list nat)
    : option (result DirectoryBuildError Level) :=
  match s with
  | Some (Ok lv) =>
      match internal_page (lv_pages lv) child_ids with
      | Some p => Some (
          let* internal := ok_or (checked_add (lv_internal lv) 1) ArithmeticOverflow in
          Ok (mkLevel (lv_pages lv ++ [p]) (lv_next lv ++ [length (lv_pages lv)]) internal))
      | None => None
      end
  | s => s
  end.

Definition checked_add_u32 (a b : N) : option N := if a + b <=? U32_MAX then Some (a + b) else None.

(** [while current_level.len() > 1]; a fanout of at least two makes each level
    shorter than the one below it ([DirectoryBuild.build_levels_run]). *)
Fixpoint build_levels (fuel : nat) (fanout : N) (pages : list Page) (level : list nat) (depth internal : N)
    : option (result DirectoryBuildError (list Page * list nat * N * N)) :=
  match fuel with
  | O => None
  | S fuel =>
      if (1 <? length level)%nat then
        match foldl push_internal (Some (Ok (mkLevel pages [] internal))) (chunks fanout level) with
        | Some (Ok lv) =>
            match checked_add_u32 depth 1 with
            | Some depth => build_levels fuel fanout (lv_pages lv) (lv_next lv) depth (lv_internal lv)
            | None => Some (Err ArithmeticOverflow)
            end
        | Some (Err e) => Some (Err e)
        | None => None
        end
      else Some (Ok (pages, level, depth, internal))
  end.

(** The leaf level; an empty directory has one empty leaf. *)
Definition build_leaves (entries : list ObjectLocator) (leaf_capacity : N) : option (list Page) :=
  match entries with
  | [] => Some [Leaf None []]
  | _ => mapM leaf_page (chunks leaf_capacity entries)
  end.

Definition build (entries : list ObjectLocator) (leaf_capacity fanout : N)
    : option (result DirectoryBuildError PagedDirectory) :=
  if leaf_capacity =? 0 then Some (Err InvalidLeafCapacity)
  else if fanout <? 2 then Some (Err InvalidFanout)
  else
    let entries := sort_by (cmp_on object_id N.compare) entries in
    match check_windows (fun x y => if object_id x =? object_id y then Some (DuplicateObjectId (object_id x)) else None) entries with
    | Err e => Some (Err e)
    | Ok _ =>
        match build_leaves entries leaf_capacity with
        | None => None
        | Some leaves =>
            let level := seq 0 (length leaves) in
            match build_levels (S (length leaves)) fanout leaves level 1 0 with
            | Some (Ok (pages, level, depth, internal)) =>
                match head level with
                | Some root =>
                    Some (Ok (mkDirectory pages root (mkStats (len entries) (len pages) (len leaves) internal depth)))
                | None => None
                end
            | Some (Err e) => Some (Err e)
            | None => None
            end
        end
    end.

(** ** [Page::validate] *)

Definition leaf_window (x y : ObjectLocator) : option DirectoryLookupError :=
  if object_id y <? object_id x then Some UnorderedLeaf
  else if object_id x =? object_id y then Some (DuplicateLeafKey (object_id x))
  else None.

(** The loop over the children, with the one before. *)
Fixpoint validate_children (pages : list Page) (previous : option ChildLink) (children : list ChildLink)
    : result DirectoryLookupError unit :=
  match children with
  | [] => Ok tt
  | child :: children =>
      check is_valid (link_range child) else InvalidPageRange in
      let* page := ok_or (pages !! link_page child) InvalidPageReference in
      let* actual := ok_or (range page) ChildRangeMismatch in
      check bool_decide (actual = link_range child) else ChildRangeMismatch in
      match previous with
      | Some previous =>
          check negb (range_min (link_range child) <? range_min (link_range previous)) else UnorderedChildRange in
          check negb (range_min (link_range child) <=? range_max (link_range previous)) else OverlappingChildRange in
          validate_children pages (Some child) children
      | None => validate_children pages (Some child) children
      end
  end.

Definition validate_page (pages : list Page) (page : Page) : result DirectoryLookupError unit :=
  match page with
  | Leaf range entries =>
      match head entries, last entries with
      | Some first, Some last =>
          let* declared := ok_or range InvalidPageRange in
          check is_valid declared && (range_min declared =? object_id first) &&
                (range_max declared =? object_id last) else InvalidPageRange in
          check_windows leaf_window entries
      | _, _ =>
          check negb (bool_decide (is_Some range)) else InvalidPageRange in
          Ok tt
      end
  | Internal range children =>
      match head children, last children with
      | Some first, Some last =>
          check is_valid range && (range_min range =? range_min (link_range first)) &&
                (range_max range =? range_max (link_range last)) else InvalidPageRange in
          validate_children pages None children
      | _, _ => Err EmptyInternalPage
      end
  end.

(** ** [PagedDirectory::lookup] *)

Definition binary_search (entries : list ObjectLocator) (key : N) : option ObjectLocator :=
  match binary_search_by_key object_id entries key with
  | Ok index => entries !! index
  | Err _ => None
  end.

(** The loop. Every turn visits a page of the directory for the first time or
    is the last, so one unit of fuel more than there are pages is enough
    ([DirectoryBuild.lookup_loop_fuel]). *)
Fixpoint lookup_loop (fuel : nat) (pages : list Page) (object_id : N) (max_pages : N) (page_id : nat)
    (pages_read : N) (visited : gset nat) : result DirectoryLookupError LookupResult :=
  match fuel with
  | O => Err PageLimitExceeded
  | S fuel =>
      let* pages_read := ok_or (checked_add_u32 pages_read 1) PageLimitExceeded in
      check negb (max_pages <? pages_read) else PageLimitExceeded in
      check negb (bool_decide (page_id ∈ visited)) else PageCycle in
      let visited := {[page_id]} ∪ visited in
      let* page := ok_or (pages !! page_id) InvalidPageReference in
      let* _ := validate_page pages page in
      match page with
      | Leaf _ entries => Ok (mkLookup (binary_search entries object_id) pages_read)
      | Internal _ children =>
          match List.find (fun child => contains (link_range child) object_id) children with
          | None => Ok (mkLookup None pages_read)
          | Some child => lookup_loop fuel pages object_id max_pages (link_page child) pages_read visited
          end
      end
  end.

Definition lookup (d : PagedDirectory) (object_id : N) (max_pages : N) : result DirectoryLookupError LookupResult :=
  lookup_loop (S (length (pages d))) (pages d) object_id max_pages (root d) 0 ∅.

(** ** [PagedDirectory::validate] *)

(** The walk; the end of the list is the top of the stack. *)
Fixpoint reach_loop (fuel : nat) (pages : list Page) (max_pages : N) (stack : list nat) (visited : gset nat)
    : result DirectoryLookupError unit :=
  match fuel with
  | O => Err PageCycle
  | S fuel =>
      match last stack with
      | None => Ok tt
      | Some page_id =>
          let stack := removelast stack in
          check negb (bool_decide (page_id ∈ visited)) else PageCycle in
          let visited := {[page_id]} ∪ visited in
          check negb (max_pages <? N.of_nat (size visited)) else PageLimitExceeded in
          let* page := ok_or (pages !! page_id) InvalidPageReference in
          match page with
          | Leaf _ _ => reach_loop fuel pages max_pages stack visited
          | Internal _ children => reach_loop fuel pages max_pages (stack ++ (link_page <$> children)) visited
          end
      end
  end.

Definition validate_reachable (d : PagedDirectory) (root : nat) (max_pages : N) : result DirectoryLookupError unit :=
  reach_loop (S (S (length (pages d)))) (pages d) max_pages [root] ∅.

Definition validate (d : PagedDirectory) (max_pages : N) : result DirectoryLookupError unit :=
  check negb (max_pages <? len (pages d)) else PageLimitExceeded in
  let* _ := map_result (validate_page (pages d)) (pages d) in
  let* _ := validate_reachable d (root d) max_pages in
  Ok tt.

(** ** [PagedDirectory::estimate_shape] *)

Definition div_ceil (value divisor : N) : result DirectoryBuildError N :=
  match checked_add value (divisor - 1) with
  | Some adjusted => Ok (adjusted / divisor)
  | None => Err ArithmeticOverflow
  end.

(** A level has at most half the pages, rounded up, of the one below it:
    [log2_up (level_pages)] turns end at one page. *)
Fixpoint shape_loop (fuel : nat) (fanout level_pages pages internal depth : N)
    : result DirectoryBuildError (N * N * N) :=
  match fuel with
  | O => Err ArithmeticOverflow
  | S fuel =>
      if 1 <? level_pages then
        let* level_pages := div_ceil level_pages fanout in
        let* pages := ok_or (checked_add pages level_pages) ArithmeticOverflow in
        let* internal := ok_or (checked_add internal level_pages) ArithmeticOverflow in
        let* depth := ok_or (checked_add_u32 depth 1) ArithmeticOverflow in
        shape_loop fuel fanout level_pages pages internal depth
      else Ok (pages, internal, depth)
  end.

Definition estimate_shape (entry_count leaf_capacity fanout : N) : result DirectoryBuildError DirectoryStats :=
  check negb (leaf_capacity =? 0) else InvalidLeafCapacity in
  check negb (fanout <? 2) else InvalidFanout in
  let* leaves := if entry_count =? 0 then Ok 1 else div_ceil entry_count leaf_capacity in
  let* (pages, internal, depth) := shape_loop (S (N.to_nat (N.log2_up leaves))) fanout leaves leaves 0 1 in
  Ok (mkStats entry_count pages leaves internal depth).
