(* ===== verification/DirectoryBuild.v ===== *)
(** The paged directory: a built one is a tree over the sorted entries, every
    page of it is well formed, a lookup is a search in the entries, and
    [build] gives it for every input or names the cause of its refusal. *)

From Stdlib Require Import Strings.Byte Strings.String NArith ZArith Lia.
From stdpp Require Import base list gmap strings sorting.
From S2P Require Import Prelude Order Errors Directory.

Local Open Scope N_scope.

(** ** Searching strictly ascending entries *)

Abbreviation before := (key_lt object_id).
Abbreviation ordered := (StronglySorted before).
Abbreviation find_id := (find_key object_id).

Lemma binary_search_find es key : ordered es -> binary_search es key = find_id key es.
Proof.
  intros Hs. unfold binary_search. pose proof (binary_search_cases es key Hs) as Hb.
  destruct (binary_search_by_key _ _ _) as [i|i].
  - destruct Hb as (e & He & Hk). rewrite He. symmetry. apply find_key_Some; [done|].
    split; [by eapply list_elem_of_lookup_2|done].
  - destruct Hb as (_ & Hlow & Hhigh). symmetry. apply find_key_None. intros e He Hk.
    rewrite <- (take_drop i es) in He. apply elem_of_app in He as [He|He]; [specialize (Hlow e He)|specialize (Hhigh e He)]; lia.
Qed.

(** ** Key ranges *)

(** The range of the keys of a non-empty vector in order. *)
Definition spans (r : KeyRange) (es : list ObjectLocator) : Prop :=
  exists first last_, head es = Some first /\ last es = Some last_ /\
    range_min r = object_id first /\ range_max r = object_id last_.

Lemma spans_contains r es e : ordered es -> spans r es -> e ∈ es -> contains r (object_id e) = true.
Proof.
  intros Hs (first & last_ & Hh & Hl & Hmin & Hmax) He. unfold contains. apply andb_true_iff.
  rewrite !N.leb_le, Hmin, Hmax. split; [by eapply ordered_head|by eapply ordered_last].
Qed.

Lemma spans_valid r es : ordered es -> spans r es -> range_min r <= range_max r.
Proof.
  intros Hs (first & last_ & Hh & Hl & -> & ->). apply (ordered_head es); [done|done|by apply last_elem].
Qed.

Lemma spans_unique r r' es : spans r es -> spans r' es -> r = r'.
Proof.
  intros (f & l & Hh & Hl & ? & ?) (f' & l' & Hh' & Hl' & ? & ?).
  rewrite Hh in Hh'. rewrite Hl in Hl'. injection Hh' as <-. injection Hl' as <-.
  destruct r, r'; simpl in *. congruence.
Qed.

Lemma spans_exists es : es <> [] -> exists first last_,
  head es = Some first /\ last es = Some last_ /\ spans (mkRange (object_id first) (object_id last_)) es.
Proof.
  intros Hne. destruct es as [|x es] using rev_ind; [done|]. clear IHes.
  destruct (head (es ++ [x])) as [f|] eqn:E; [|by destruct es].
  exists f, x. split_and!; [done|by rewrite last_snoc|]. exists f, x. by rewrite last_snoc.
Qed.

Lemma spans_nonempty r es : spans r es -> es <> [].
Proof. by intros (f & _ & Hh & _) ->. Qed.

(** ** Trees of pages *)

(** [tree ps d id es ids]: page [id] is the root of a tree with [d] levels of
    links over the entries [es], made of the pages [ids]. *)
Fixpoint tree (ps : list Page) (d id : nat) (es : list ObjectLocator) (ids : list nat) : Prop :=
  match d with
  | O => exists r, ps !! id = Some (Leaf (Some r) es) /\ spans r es /\ ids = [id]
  | S d =>
      exists r links subs, ps !! id = Some (Internal r links) /\ spans r es /\
        Forall2 (fun link (sub : list ObjectLocator * list nat) =>
          spans (link_range link) sub.1 /\ tree ps d (link_page link) sub.1 sub.2) links subs /\
        es = concat subs.*1 /\ ids = id :: concat subs.*2
  end.

Lemma tree_page ps d id es ids : tree ps d id es ids ->
  exists p r, ps !! id = Some p /\ range p = Some r /\ spans r es.
Proof.
  destruct d; simpl.
  - intros (r & Hp & Hr & _). by eexists _, r.
  - intros (r & links & subs & Hp & Hr & _). by eexists _, r.
Qed.

Lemma tree_app ps more d id es ids : tree ps d id es ids -> tree (ps ++ more) d id es ids.
Proof.
  revert id es ids. induction d as [|d IH]; intros id es ids; simpl.
  - intros (r & Hp & Hr). exists r. split; [by apply lookup_app_l_Some|done].
  - intros (r & links & subs & Hp & Hr & Hf & Hes). exists r, links, subs.
    split_and!; [by apply lookup_app_l_Some|done| |apply Hes..].
    eapply Forall2_impl; [exact Hf|]. intros link sub [? ?]. split; [done|by apply IH].
Qed.

Lemma tree_root ps d id es ids : tree ps d id es ids -> id ∈ ids.
Proof. destruct d; simpl; [intros (r & _ & _ & ->)|intros (r & links & subs & _ & _ & _ & _ & ->)]; by left. Qed.

(** ** Every page of a tree over ordered entries is well formed *)

Section Trees.
Context (ps : list Page).

Notation linked d := (fun link (sub : list ObjectLocator * list nat) =>
  spans (link_range link) sub.1 /\ tree ps d (link_page link) sub.1 sub.2).

Lemma leaf_windows es : ordered es -> check_windows leaf_window es = Ok tt.
Proof.
  intros Hs. apply check_windows_Ok. apply StronglySorted_Sorted in Hs. eapply Sorted_mono; [|exact Hs].
  intros x y Hxy. unfold key_lt in Hxy. unfold leaf_window.
  destruct (N.ltb_spec (object_id y) (object_id x)); [lia|]. destruct (N.eqb_spec (object_id x) (object_id y)); [lia|done].
Qed.

Lemma validate_children_tree d previous links subs :
  Forall2 (linked d) links subs -> ordered (concat subs.*1) ->
  (forall p e, previous = Some p -> e ∈ concat subs.*1 -> range_max (link_range p) < object_id e) ->
  (forall p, previous = Some p -> range_min (link_range p) <= range_max (link_range p)) ->
  validate_children ps previous links = Ok tt.
Proof.
  intros Hf. revert previous. induction Hf as [|link sub links subs [Hsp Ht] Hf IH]; intros previous Hs Hp Hv; [done|].
  cbn [fmap list_fmap concat] in Hs, Hp. apply ordered_app in Hs as (Hs1 & Hs2 & Hlt).
  pose proof (spans_valid _ _ Hs1 Hsp) as Hval. cbn [validate_children].
  unfold is_valid. destruct (N.leb_spec (range_min (link_range link)) (range_max (link_range link))); [|lia].
  destruct (tree_page _ _ _ _ _ Ht) as (p & r & Hpg & Hrg & Hr).
  rewrite Hpg. cbn [ok_or]. rewrite Hrg. cbn [ok_or].
  rewrite (spans_unique r (link_range link) sub.1 Hr Hsp), bool_decide_true by done.
  assert (Hrest : validate_children ps (Some link) links = Ok tt).
  { apply IH; [done| |by intros ? [= <-]]. intros ? e [= <-] He.
    destruct Hsp as (f & l & _ & Hl & _ & ->). specialize (Hlt l e (last_elem _ _ Hl) He). exact Hlt. }
  destruct previous as [p'|]; [|done].
  destruct Hsp as (f & l & Hh & _ & Hmin & _). specialize (Hp p' f eq_refl). rewrite Hmin.
  specialize (Hp ltac:(apply elem_of_app; left; by apply head_elem)). specialize (Hv p' eq_refl).
  destruct (N.ltb_spec (object_id f) (range_min (link_range p'))); [lia|].
  by destruct (N.leb_spec (object_id f) (range_max (link_range p'))); [lia|].
Qed.

Lemma linked_head d links subs link sub links' subs' :
  Forall2 (linked d) links subs -> links = link :: links' -> subs = sub :: subs' ->
  head (concat subs.*1) = head sub.1.
Proof.
  intros Hf -> ->. inversion Hf as [|? ? ? ? [Hsp _] _]; subst. csimpl.
  destruct Hsp as (f & _ & Hh & _). by destruct (sub.1).
Qed.

Lemma linked_last d links subs link sub links' subs' :
  Forall2 (linked d) links subs -> links = links' ++ [link] -> subs = subs' ++ [sub] ->
  last (concat subs.*1) = last sub.1.
Proof.
  intros Hf -> ->. apply Forall2_app_inv in Hf as [_ Hf].
  - inversion Hf as [|? ? ? ? [(_ & l & _ & Hl & _) _] _]; subst.
    rewrite fmap_app, concat_app. cbn [fmap list_fmap concat]. rewrite app_nil_r, last_app, Hl. done.
  - apply Forall2_length in Hf. rewrite !length_app in Hf. simpl in Hf. lia.
Qed.

Lemma validate_page_tree d id es ids p :
  tree ps d id es ids -> ordered es -> ps !! id = Some p -> validate_page ps p = Ok tt.
Proof.
  intros Ht Hs Hp. destruct d as [|d]; simpl in Ht.
  - destruct Ht as (r & Hp' & Hsp & _). rewrite Hp in Hp'. injection Hp' as ->.
    pose proof (spans_valid _ _ Hs Hsp) as Hv. destruct Hsp as (f & l & Hh & Hl & Hmin & Hmax).
    cbn [validate_page]. rewrite Hh, Hl. cbn [ok_or]. unfold is_valid.
    rewrite (proj2 (N.leb_le _ _) Hv), Hmin, Hmax, !N.eqb_refl. cbn [andb]. by apply leaf_windows.
  - destruct Ht as (r & links & subs & Hp' & Hsp & Hf & -> & _). rewrite Hp in Hp'. injection Hp' as ->.
    pose proof (spans_valid _ _ Hs Hsp) as Hv. cbn [validate_page].
    destruct (head links) as [first|] eqn:Eh.
    2:{ exfalso. destruct links; [|done]. apply Forall2_nil_inv_l in Hf as ->. by apply spans_nonempty in Hsp. }
    destruct (last links) as [last_|] eqn:El; [|by apply last_None in El as ->].
    destruct Hsp as (f & l & Hh & Hl & Hmin & Hmax).
    assert (Hfirst : range_min r = range_min (link_range first)).
    { destruct links as [|x links]; [done|]. injection Eh as ->. inversion Hf as [|? sub ? subs' [(f' & ? & Hf' & _ & Hm & _) _] _]; subst.
      rewrite (linked_head d _ _ first sub links subs' Hf eq_refl eq_refl) in Hh. congruence. }
    assert (Hlast : range_max r = range_max (link_range last_)).
    { apply last_Some in El as [links' ->]. pose proof Hf as Hf'.
      apply Forall2_app_inv_l in Hf' as (subs' & tl & _ & Htl & ->).
      inversion Htl as [|? sub ? ? [(? & l' & _ & Hl' & _ & Hm) _] Hnil]; subst. apply Forall2_nil_inv_l in Hnil as ->.
      rewrite (linked_last d _ _ last_ sub links' subs' Hf eq_refl eq_refl) in Hl. congruence. }
    unfold is_valid. rewrite (proj2 (N.leb_le _ _) Hv), Hfirst, Hlast, !N.eqb_refl. cbn [andb].
    by apply (validate_children_tree d None links subs).
Qed.

(** ** Descending *)

Lemma find_child d links subs key :
  Forall2 (linked d) links subs -> ordered (concat subs.*1) ->
  match List.find (fun child => contains (link_range child) key) links with
  | None => find_id key (concat subs.*1) = None
  | Some link => exists sub, sub ∈ subs /\ linked d link sub /\ find_id key (concat subs.*1) = find_id key sub.1
  end.
Proof.
  intros Hf. induction Hf as [|link sub links subs [Hsp Ht] Hf IH]; intros Hs; [done|].
  csimpl. cbn [fmap list_fmap concat] in Hs. apply ordered_app in Hs as (Hs1 & Hs2 & Hlt).
  destruct (contains (link_range link) key) eqn:Ec.
  - exists sub. split_and!; [by left|done|done|]. rewrite find_key_app.
    destruct (find_id key sub.1); [done|]. apply find_key_None. intros e He Hk.
    destruct Hsp as (f & l & _ & Hl & _ & Hmax). specialize (Hlt l e (last_elem _ _ Hl) He).
    unfold contains in Ec. apply andb_true_iff in Ec as [_ Ec%N.leb_le]. unfold key_lt in Hlt. lia.
  - assert (Hno : find_id key sub.1 = None).
    { apply find_key_None. intros e He Hk. pose proof (spans_contains _ _ e Hs1 Hsp He) as Hc. congruence. }
    specialize (IH Hs2). destruct (List.find _ links) as [link'|].
    + destruct IH as (sub' & Hin & Hl & Heq). exists sub'. split_and!; [by right|apply Hl..|]. by rewrite find_key_app, Hno.
    + by rewrite find_key_app, Hno.
Qed.

Lemma ordered_concat_sub (subs : list (list ObjectLocator * list nat)) sub :
  ordered (concat subs.*1) -> sub ∈ subs -> ordered sub.1.
Proof.
  induction subs as [|x subs IH]; csimpl; intros Hs Hin; [by apply elem_of_nil in Hin|].
  apply ordered_app in Hs as (? & ? & _). apply elem_of_cons in Hin as [->|Hin]; auto.
Qed.

Lemma lookup_tree key max_pages fuel d id es ids read visited :
  tree ps d id es ids -> ordered es -> (d < fuel)%nat -> NoDup ids -> (forall i, i ∈ ids -> i ∉ visited) ->
  max_pages <= U32_MAX -> read <= max_pages ->
  match lookup_loop fuel ps key max_pages id read visited with
  | Ok r => locator r = find_id key es /\ read < pages_read r /\
      pages_read r <= N.min max_pages (read + N.of_nat d + 1) /\
      (is_Some (locator r) -> pages_read r = read + N.of_nat d + 1)
  | Err e => e = PageLimitExceeded /\ max_pages < read + N.of_nat d + 1
  end.
Proof.
  intros Ht Hs Hf Hnd Hvis Hmax Hread. revert d id es ids read visited Ht Hs Hf Hnd Hvis Hread.
  induction fuel as [|fuel IH]; intros d id es ids read visited Ht Hs Hf Hnd Hvis Hread; [lia|].
  cbn [lookup_loop]. unfold checked_add_u32. destruct (N.leb_spec (read + 1) U32_MAX) as [Hu|Hu]; cbn [ok_or].
  2:{ split; [done|lia]. }
  destruct (N.ltb_spec max_pages (read + 1)) as [Hlt|Hlt]; cbn [negb]; [split; [done|lia]|].
  rewrite bool_decide_false by (apply Hvis; by eapply tree_root). cbn [negb].
  destruct (tree_page _ _ _ _ _ Ht) as (p & r & Hp & _). rewrite Hp. cbn [ok_or].
  rewrite (validate_page_tree d id es ids p Ht Hs Hp). destruct d as [|d]; simpl in Ht.
  - destruct Ht as (r' & Hp' & _). rewrite Hp in Hp'. injection Hp' as ->.
    rewrite binary_search_find by done. cbn [locator pages_read]. split_and!; [done|lia..].
  - destruct Ht as (r' & links & subs & Hp' & _ & Hl & -> & ->). rewrite Hp in Hp'. injection Hp' as ->.
    pose proof (find_child d links subs key Hl Hs) as Hfind.
    destruct (List.find _ links) as [link|]; cbn [locator pages_read].
    + destruct Hfind as (sub & Hin & [_ Hsub] & ->). apply NoDup_cons in Hnd as [Hid Hnd].
      assert (Hincl : forall i, i ∈ sub.2 -> i ∈ concat subs.*2).
      { intros i Hi. apply list_elem_of_In, in_concat. exists sub.2. rewrite <- !list_elem_of_In.
        split; [by apply list_elem_of_fmap_2|done]. }
      specialize (IH d (link_page link) sub.1 sub.2 (read + 1) ({[id]} ∪ visited) Hsub).
      assert (Hsnd : NoDup sub.2).
      { clear -Hnd Hin. induction subs as [|x subs IHs]; [by apply elem_of_nil in Hin|]. csimpl in Hnd.
        apply NoDup_app in Hnd as (? & _ & ?). apply elem_of_cons in Hin as [->|Hin]; auto. }
      specialize (IH (ordered_concat_sub subs sub Hs Hin) ltac:(lia) Hsnd).
      specialize (IH ltac:(intros i Hi; apply not_elem_of_union; split;
        [intros ->%elem_of_singleton; by apply Hid, Hincl|apply Hvis; right; by apply Hincl]) ltac:(lia)).
      destruct (lookup_loop fuel _ _ _ _ _ _) as [res|e].
      * destruct IH as (-> & ? & ? & Hfull). split_and!; [done|lia|lia|]. intros Hsome. rewrite (Hfull Hsome). lia.
      * destruct IH as [-> ?]. split; [done|lia].
    + split_and!; [done|lia|lia|]. by intros [? ?].
Qed.
End Trees.

(** ** The reachability walk *)

Definition tree_at (ps : list Page) (id : nat) (ids : list nat) : Prop := exists d es, tree ps d id es ids.

Lemma reach_loop_trees ps max_pages fuel stack idss visited :
  Forall2 (tree_at ps) stack idss -> NoDup (concat idss) -> (forall i, i ∈ concat idss -> i ∉ visited) ->
  N.of_nat (size visited + length (concat idss)) <= max_pages -> (length (concat idss) < fuel)%nat ->
  reach_loop fuel ps max_pages stack visited = Ok tt.
Proof.
  revert stack idss visited. induction fuel as [|fuel IH]; intros stack idss visited Hf Hnd Hvis Hmax Hfuel; [lia|].
  cbn [reach_loop]. destruct stack as [|id stack _] using rev_ind; [done|].
  rewrite last_snoc, removelast_last. apply Forall2_app_inv_l in Hf as (idss' & tl & Hf & Htl & ->).
  inversion Htl as [|? ids ? ? Hid Hnil]; subst. apply Forall2_nil_inv_l in Hnil as ->.
  rewrite concat_app in *. cbn [concat] in *. rewrite app_nil_r in *.
  destruct Hid as (d & es & Ht). apply NoDup_app in Hnd as (Hnd & Hdisj & Hnd').
  assert (Hin : id ∈ ids) by (by eapply tree_root). rewrite length_app in Hmax, Hfuel.
  rewrite bool_decide_false by (apply Hvis; set_solver). cbn [negb].
  assert (Hsize : size ({[id]} ∪ visited) = S (size visited)).
  { rewrite size_union, size_singleton; [done|]. intros j ->%elem_of_singleton. apply Hvis. set_solver. }
  assert (Hpos : (1 <= length ids)%nat) by (destruct ids; [by apply elem_of_nil in Hin|simpl; lia]).
  rewrite Hsize. destruct (N.ltb_spec max_pages (N.of_nat (S (size visited)))); [lia|]. cbn [negb].
  destruct d as [|d]; simpl in Ht.
  - destruct Ht as (r & Hp & _ & ->). rewrite Hp. cbn [ok_or length] in *.
    apply (IH stack idss'); [done|done| |rewrite Hsize; lia|lia].
    intros i Hi. apply not_elem_of_union. split; [intros ->%elem_of_singleton; by apply (Hdisj id)|apply Hvis; set_solver].
  - destruct Ht as (r & links & subs & Hp & _ & Hl & _ & ->). rewrite Hp. cbn [ok_or length] in *.
    apply NoDup_cons in Hnd' as [Hid Hnd'].
    apply (IH _ (idss' ++ subs.*2)); rewrite ?concat_app.
    + apply Forall2_app; [done|]. apply Forall2_fmap. eapply Forall2_impl; [exact Hl|].
      intros link sub [_ Hsub]. by exists d, sub.1.
    + apply NoDup_app. split_and!; [done| |done]. intros i Hi Hi'. apply (Hdisj i Hi). by right.
    + intros i Hi. apply not_elem_of_union. split; [|apply Hvis; set_solver].
      intros ->%elem_of_singleton. apply elem_of_app in Hi as [Hi|Hi]; [|done]. apply (Hdisj id Hi). by left.
    + rewrite Hsize, length_app. lia.
    + rewrite length_app. lia.
Qed.

(** ** Building one level over another *)

Definition stands (ps : list Page) (d : nat) : list nat -> list (list ObjectLocator * list nat) -> Prop :=
  Forall2 (fun id sub => tree ps d id sub.1 sub.2).

Lemma stands_app ps more d level subs : stands ps d level subs -> stands (ps ++ more) d level subs.
Proof. intros Hf. eapply Forall2_impl; [exact Hf|]. intros id sub. apply tree_app. Qed.

Lemma link_to_tree ps d id es ids : tree ps d id es ids ->
  exists link, link_to ps id = Some link /\ link_page link = id /\ spans (link_range link) es.
Proof.
  intros Ht. destruct (tree_page _ _ _ _ _ Ht) as (p & r & Hp & Hr & Hs).
  exists (mkLink r id). unfold link_to. by rewrite Hp, Hr.
Qed.

Lemma links_to_trees ps d level subs : stands ps d level subs ->
  exists links, mapM (link_to ps) level = Some links /\
    Forall2 (fun link (sub : list ObjectLocator * list nat) =>
      spans (link_range link) sub.1 /\ tree ps d (link_page link) sub.1 sub.2) links subs.
Proof.
  induction 1 as [|id sub level subs Ht Hf (links & Hm & Hl)]; [by exists []|].
  destruct (link_to_tree _ _ _ _ _ Ht) as (link & Hlink & Hid & Hsp). exists (link :: links).
  simpl. rewrite Hlink. simpl. rewrite Hm. split; [done|]. constructor; [|done]. by rewrite Hid.
Qed.

Lemma internal_page_tree ps d level subs :
  stands ps d level subs -> level <> [] ->
  exists p, internal_page ps level = Some p /\
    tree (ps ++ [p]) (S d) (length ps) (concat subs.*1) (length ps :: concat subs.*2).
Proof.
  intros Hst Hne. destruct (links_to_trees _ _ _ _ Hst) as (links & Hm & Hl). unfold internal_page. rewrite Hm.
  pose proof (Forall2_length _ _ _ Hl) as Hlen. pose proof (Forall2_length _ _ _ Hst) as Hlen'.
  destruct links as [|first links]; [by destruct subs; [destruct level|]|]. cbn [head].
  destruct (last (first :: links)) as [last_|] eqn:El; [|by apply last_None in El].
  eexists. split; [done|]. cbn [tree].
  exists (mkRange (range_min (link_range first)) (range_max (link_range last_))), (first :: links), subs. split_and!.
  - apply list_lookup_middle. done.
  - destruct subs as [|sub subs]; [done|]. pose proof Hl as Hl'. inversion Hl' as [|? ? ? ? [(f & ? & Hf & _ & Hmin & _) _] _]; subst.
    destruct (exists_last (l := first :: links)) as (links' & lk & Elk); [done|]. rewrite Elk, last_snoc in El. injection El as ->.
    pose proof Hl as Hl2. rewrite Elk in Hl2. apply Forall2_app_inv_l in Hl2 as (subs' & tl & _ & Htl & Es).
    inversion Htl as [|? sub' ? ? [(? & l' & _ & Hl3 & _ & Hmax) _] Hnil]; subst. apply Forall2_nil_inv_l in Hnil as ->.
    exists f, l'. split_and!; [| |done|done].
    + by rewrite (linked_head ps d _ _ first sub links subs Hl eq_refl eq_refl).
    + by rewrite (linked_last ps d _ _ last_ sub' links' subs' Hl Elk Es).
  - eapply Forall2_impl; [exact Hl|]. intros link sub [? ?]. split; [done|by apply tree_app].
  - done.
  - done.
Qed.

(** The trees over the chunks of a level. *)
Definition joined (first : nat) (subss : list (list (list ObjectLocator * list nat))) : list (list ObjectLocator * list nat) :=
  imap (fun i subs => (concat subs.*1, (first + i)%nat :: concat subs.*2)) subss.

Lemma joined_cons first subs subss :
  joined first (subs :: subss) = (concat subs.*1, first :: concat subs.*2) :: joined (S first) subss.
Proof.
  unfold joined. rewrite imap_cons, Nat.add_0_r. f_equal. apply imap_ext. intros i x _. simpl.
  by rewrite Nat.add_succ_r.
Qed.

Lemma push_level d css subss ps nx k :
  Forall2 (stands ps d) css subss -> Forall (fun c => c <> []) css -> k + len css <= U64_MAX ->
  exists more, length more = length css /\
    foldl push_internal (Some (Ok (mkLevel ps nx k))) css =
      Some (Ok (mkLevel (ps ++ more) (nx ++ seq (length ps) (length css)) (k + len css))) /\
    stands (ps ++ more) (S d) (seq (length ps) (length css)) (joined (length ps) subss).
Proof.
  intros Hf. revert ps nx k Hf. revert subss. induction css as [|cs css IH]; intros subss ps nx k Hf Hne Hk.
  { inversion Hf; subst. exists []. rewrite !app_nil_r. unfold len. simpl. rewrite N.add_0_r.
    split_and!; [done|done|constructor]. }
  apply Forall2_cons_inv_l in Hf as (subs & subss' & Hcs & Hf & ->). apply Forall_cons in Hne as [Hne1 Hne].
  destruct (internal_page_tree _ _ _ _ Hcs Hne1) as (p & Hp & Ht). rewrite len_cons in Hk.
  destruct (IH subss' (ps ++ [p]) (nx ++ [length ps]) (k + 1)) as (more & Hlen & Hfold & Hst).
  { eapply Forall2_impl; [exact Hf|]. intros ? ?. apply stands_app. }
  { done. }
  { lia. }
  exists (p :: more). rewrite length_app in Hfold, Hst. cbn [length] in Hfold, Hst. rewrite Nat.add_1_r in Hfold, Hst.
  rewrite <- app_assoc in Hfold, Hst. cbn [app] in Hfold, Hst. split_and!.
  - simpl. by rewrite Hlen.
  - cbn [foldl push_internal lv_pages lv_next lv_internal]. rewrite Hp. unfold checked_add.
    destruct (N.leb_spec (k + 1) U64_MAX); [|lia]. cbn [ok_or]. rewrite Hfold, len_cons. cbn [length seq].
    rewrite <- app_assoc. cbn [app]. do 3 f_equal. lia.
  - cbn [length seq]. rewrite joined_cons. constructor; [|done].
    cbn [fst snd]. change (p :: more) with ([p] ++ more). rewrite app_assoc. by apply tree_app.
Qed.

Lemma joined_entries first subss : concat (joined first subss).*1 = concat (concat subss).*1.
Proof.
  revert first. induction subss as [|subs subss IH]; intros first; [done|].
  rewrite joined_cons. csimpl. by rewrite fmap_app, concat_app, IH.
Qed.

Lemma joined_ids first subss :
  concat (joined first subss).*2 ≡ₚ seq first (length subss) ++ concat (concat subss).*2.
Proof.
  revert first. induction subss as [|subs subss IH]; intros first; [done|].
  rewrite joined_cons. csimpl. rewrite fmap_app, concat_app, IH. constructor.
  rewrite (Permutation_app_comm (concat subs.*2)), <- app_assoc. f_equiv. apply Permutation_app_comm.
Qed.

(** ** All the levels *)

Section Levels.
Context (es : list ObjectLocator) (leaves fanout : N).
Context (Hfan : 2 <= fanout) (Hleaves : 3 * leaves <= U64_MAX).

Record level_ok (ps : list Page) (d : nat) (level : list nat) (depth internal : N) : Prop := {
  lo_trees : exists subs, stands ps d level subs /\ concat subs.*1 = es /\ concat subs.*2 ≡ₚ seq 0 (length ps);
  lo_nonempty : level <> [];
  lo_pages : len ps = leaves + internal;
  lo_internal : internal + 2 * len level <= 2 * leaves;
  lo_depth : depth = N.of_nat d + 1;
  lo_depth_bound : depth + N.log2_up (len level) <= U32_MAX;
}.

Lemma level_turn ps d level depth internal :
  level_ok ps d level depth internal -> 1 < len level ->
  exists ps' level', foldl push_internal (Some (Ok (mkLevel ps [] internal))) (chunks fanout level) =
      Some (Ok (mkLevel ps' level' (internal + len level'))) /\
    len level' = (len level + (fanout - 1)) / fanout /\ len ps' = len ps + len level' /\
    level_ok ps' (S d) level' (depth + 1) (internal + len level').
Proof.
  intros [(subs & Hst & Hes & Hids) Hne Hps Hint Hd Hdb] Hlt.
  destruct (chunks_spec fanout level) as (Hc & Hcne & Hclen); [lia|].
  destruct (fewer_pages fanout (len level) (len (chunks fanout level)) Hfan Hlt Hclen) as (Hk1 & Hk2 & Hk3 & Hk4).
  pose proof (chunks_Forall2 _ fanout _ _ Hst) as Hcs.
  assert (Hsubs : concat (chunks fanout subs) = subs) by (apply chunks_spec; lia).
  destruct (push_level d (chunks fanout level) (chunks fanout subs) ps [] internal) as (more & Hlen & Hfold & Hst');
    [done|done|lia|].
  cbn [app] in Hfold. set (level' := seq (length ps) (length (chunks fanout level))) in *.
  assert (El : len level' = len (chunks fanout level)) by (unfold len, level'; by rewrite length_seq).
  exists (ps ++ more), level'. rewrite El. split_and!; [done|done|by rewrite len_app; unfold len; rewrite Hlen|].
  split; rewrite ?El.
  - exists (joined (length ps) (chunks fanout subs)). split_and!; [done|by rewrite joined_entries, Hsubs|].
    rewrite joined_ids, Hsubs, Hids. rewrite <- (Forall2_length _ _ _ Hcs), <- Hlen, length_app, seq_app.
    apply Permutation_app_comm.
  - intros E. rewrite E in El. unfold len at 1 in El. simpl in El. lia.
  - rewrite len_app. unfold len at 2. rewrite Hlen. unfold len in *. lia.
  - lia.
  - lia.
  - lia.
Qed.

(** The loop ends with one page at the top, and counts as [shape_loop] does. *)
Lemma build_levels_run fuel ps d level depth internal :
  level_ok ps d level depth internal -> (length level < fuel)%nat ->
  exists ps' d' root depth' internal' ids,
    build_levels fuel fanout ps level depth internal = Some (Ok (ps', [root], depth', internal')) /\
    tree ps' d' root es ids /\ ids ≡ₚ seq 0 (length ps') /\ depth' = N.of_nat d' + 1 /\
    forall fuel', (N.to_nat (N.log2_up (len level)) < fuel')%nat -> leaves + fanout <= U64_MAX ->
      shape_loop fuel' fanout (len level) (len ps) internal depth = Ok (len ps', internal', depth').
Proof.
  revert ps d level depth internal. induction fuel as [|fuel IH]; intros ps d level depth internal Hok Hf; [lia|].
  cbn [build_levels]. destruct (Nat.ltb_spec 1 (length level)) as [Hlt|Hge].
  - destruct (level_turn _ _ _ _ _ Hok) as (ps' & level' & -> & Hlen & Hpl & Hok'); [unfold len; lia|].
    destruct (fewer_pages fanout (len level) (len level') Hfan) as (Hk1 & Hk2 & Hk3 & Hk4); [unfold len; lia|done|].
    pose proof (lo_depth_bound _ _ _ _ _ Hok). pose proof (lo_internal _ _ _ _ _ Hok) as Hint.
    pose proof (lo_pages _ _ _ _ _ Hok) as Hps. unfold checked_add_u32 at 1.
    destruct (N.leb_spec (depth + 1) U32_MAX); [|lia]. cbn [lv_pages lv_next lv_internal].
    destruct (IH _ _ _ _ _ Hok') as (ps2 & d2 & root & depth2 & internal2 & ids & Hrun & Ht & Hids & Hd2 & Hshape).
    { unfold len in Hk2. lia. }
    exists ps2, d2, root, depth2, internal2, ids. split_and!; [done..|].
    intros fuel' Hf' Hsum. destruct fuel' as [|fuel']; [lia|]. cbn [shape_loop].
    destruct (N.ltb_spec 1 (len level)); [|unfold len in *; lia].
    unfold div_ceil, checked_add. destruct (N.leb_spec (len level + (fanout - 1)) U64_MAX); [|lia].
    rewrite <- Hlen. destruct (N.leb_spec (len ps + len level') U64_MAX); [|lia]. cbn [ok_or].
    destruct (N.leb_spec (internal + len level') U64_MAX); [|lia]. cbn [ok_or].
    unfold checked_add_u32. destruct (N.leb_spec (depth + 1) U32_MAX); [|lia]. cbn [ok_or].
    rewrite <- Hpl. apply Hshape; [lia|done].
  - destruct Hok as [(subs & Hst & Hes & Hids) Hne Hps Hint Hd Hdb].
    destruct level as [|root [|? ?]]; [done| |simpl in Hge; lia].
    inversion Hst as [|? [es' ids] ? ? Ht Hnil]; subst. apply Forall2_nil_inv_l in Hnil as ->.
    cbn in Ht, Hids, Hes. rewrite app_nil_r in Hids, Hes.
    exists ps, d, root, (N.of_nat d + 1), internal, ids. split_and!; [done|by rewrite <- Hes|done|done|].
    intros [|fuel'] Hf' _; [lia|]. done.
Qed.
End Levels.

(** ** [build] *)

Definition duplicate_window (x y : ObjectLocator) : option DirectoryBuildError :=
  if object_id x =? object_id y then Some (DuplicateObjectId (object_id x)) else None.

Definition share_id (entries : list ObjectLocator) (i : N) : Prop :=
  exists l1 x l2 y l3, entries ≡ₚ l1 ++ x :: l2 ++ y :: l3 /\ object_id x = i /\ object_id y = i.

Lemma duplicates_checked l :
  Sorted (cmp_le (cmp_on object_id N.compare)) l ->
  match check_windows duplicate_window l with
  | Ok _ => ordered l
  | Err e => exists i, e = DuplicateObjectId i /\ share_id l i
  end.
Proof.
  intros Hs. destruct (check_windows duplicate_window l) as [[]|e] eqn:E.
  - apply check_windows_Ok in E. apply Sorted_StronglySorted; [intros x y z; unfold key_lt; lia|].
    induction l as [|x l IH]; [constructor|]. inversion Hs as [|? ? Hs' Hh]; inversion E as [|? ? E' Hh']; subst.
    constructor; [by apply IH|]. destruct Hh; [constructor|]. inversion Hh' as [|? ? Hd]; subst. constructor.
    unfold cmp_le, cmp_on in *. unfold duplicate_window in Hd. unfold key_lt.
    destruct (N.eqb_spec (object_id x) (object_id b)); [done|].
    destruct (N.compare_spec (object_id x) (object_id b)); [done|done|done].
  - apply check_windows_Err in E as (l1 & x & y & l2 & -> & Hxy). unfold duplicate_window in Hxy.
    destruct (N.eqb_spec (object_id x) (object_id y)) as [He|]; [|done]. injection Hxy as <-.
    exists (object_id x). split; [done|]. by exists l1, x, [], y, l2.
Qed.

Lemma leaves_of css : Forall (fun c => c <> []) css -> exists leaves, mapM leaf_page css = Some leaves /\
  length leaves = length css /\ forall i c, css !! i = Some c -> exists r, leaves !! i = Some (Leaf (Some r) c) /\ spans r c.
Proof.
  induction 1 as [|c css Hc Hf (leaves & Hm & Hlen & Hl)]; [by exists []|].
  destruct (spans_exists c Hc) as (f & l & Hh & Hl' & Hsp). simpl.
  assert (leaf_page c = Some (Leaf (Some (mkRange (object_id f) (object_id l))) c)) as ->
    by (unfold leaf_page; by rewrite Hh, Hl').
  simpl. rewrite Hm. eexists. split; [done|]. simpl. split; [by rewrite Hlen|]. intros [|i] c' Hi; [|by apply Hl].
  injection Hi as <-. by eexists.
Qed.

Lemma leaf_level css leaves :
  length leaves = length css ->
  (forall i c, css !! i = Some c -> exists r, leaves !! i = Some (Leaf (Some r) c) /\ spans r c) ->
  exists subs, stands leaves 0 (seq 0 (length leaves)) subs /\ concat subs.*1 = concat css /\
    concat subs.*2 = seq 0 (length leaves).
Proof.
  intros Hlen Hl. exists (imap (fun i c => (c, [i])) css). rewrite Hlen. clear Hlen.
  assert (Hgen : forall k, (forall i c, css !! i = Some c -> exists r, leaves !! (k + i)%nat = Some (Leaf (Some r) c) /\ spans r c) ->
    let subs := imap (fun i c => (c, [(k + i)%nat])) css in
    stands leaves 0 (seq k (length css)) subs /\ concat subs.*1 = concat css /\ concat subs.*2 = seq k (length css));
    [|by apply (Hgen 0%nat)].
  clear Hl. induction css as [|c css IH]; intros k Hk; [by split_and!; [constructor|..]|].
  destruct (IH (S k)) as (Hst & He & Hi).
  { intros i c' Hc'. specialize (Hk (S i) c' Hc'). by rewrite Nat.add_succ_r in Hk. }
  cbv zeta. rewrite imap_cons, Nat.add_0_r.
  assert (E : imap ((fun i c => (c, [(k + i)%nat])) ∘ S) css = imap (fun i c => (c, [(S k + i)%nat])) css).
  { apply imap_ext. intros i x _. simpl. by rewrite Nat.add_succ_r. }
  rewrite E, !fmap_cons. cbn [concat fst snd]. rewrite He, Hi. split_and!; [|done|done].
  cbn [length seq]. constructor; [|done].
  destruct (Hk 0%nat c eq_refl) as (r & Hr & Hsp). rewrite Nat.add_0_r in Hr. by exists r.
Qed.

(** A directory over the entries [es], in ascending order. *)
Definition represents (d : PagedDirectory) (es : list ObjectLocator) : Prop :=
  (es = [] /\ pages d = [Leaf None []] /\ root d = 0%nat /\ depth (stats d) = 1) \/
  exists h ids, tree (pages d) h (root d) es ids /\ ids ≡ₚ seq 0 (length (pages d)) /\ depth (stats d) = N.of_nat h + 1.

Definition build_failed (es : list ObjectLocator) (leaf_capacity fanout : N) (e : DirectoryBuildError) : Prop :=
  match e with
  | InvalidLeafCapacity => leaf_capacity = 0
  | InvalidFanout => fanout < 2 /\ leaf_capacity <> 0
  | DuplicateObjectId i => share_id es i
  | ArithmeticOverflow => False
  end.

Definition built (es : list ObjectLocator) (leaf_capacity fanout : N) (d : PagedDirectory) : Prop :=
  (exists sorted, sorted ≡ₚ es /\ ordered sorted /\ represents d sorted) /\
  pages_count (stats d) = len (pages d) /\
  (len es + leaf_capacity <= U64_MAX -> len es + fanout <= U64_MAX ->
   estimate_shape (len es) leaf_capacity fanout = Ok (stats d)).

Lemma build_cases es leaf_capacity fanout :
  4 * len es <= U64_MAX ->
  match build es leaf_capacity fanout with
  | Some (Ok d) => built es leaf_capacity fanout d
  | Some (Err e) => build_failed es leaf_capacity fanout e
  | None => False
  end.
Proof.
  intros Hlen. unfold build, built. unfold estimate_shape.
  destruct (N.eqb_spec leaf_capacity 0) as [Hc|Hc]; [done|]. cbn [negb].
  destruct (N.ltb_spec fanout 2) as [Hf|Hf]; [done|]. cbn [negb]. cbv zeta.
  set (sorted := sort_by _ es). assert (Hp : sorted ≡ₚ es) by apply sort_by_Permutation.
  assert (Hls : len sorted = len es) by apply sort_by_len.
  pose proof (duplicates_checked sorted) as Hd. fold duplicate_window.
  specialize (Hd ltac:(apply sort_by_Sorted, cmp_on_total, strict_total)).
  destruct (check_windows duplicate_window sorted) as [[]|e].
  2:{ destruct Hd as (i & -> & l1 & x & l2 & y & l3 & Hperm & Hxy). exists l1, x, l2, y, l3. by rewrite <- Hp. }
  rewrite <- Hls in *. clearbody sorted. destruct sorted as [|x sorted].
  { cbn. split_and!; [|done|done]. exists []. split_and!; [done|constructor|by left]. }
  set (l := x :: sorted) in *. assert (Hl1 : 1 <= len l) by (unfold l; rewrite len_cons; lia).
  destruct (chunks_spec leaf_capacity l) as (Hcc & Hcne & Hclen); [lia|].
  destruct (leaves_of _ Hcne) as (leaves & Hm & Hleaves & Hlook). change (build_leaves l leaf_capacity) with
    (mapM leaf_page (chunks leaf_capacity l)). rewrite Hm.
  destruct (leaf_level _ _ Hleaves Hlook) as (subs & Hst & Hes & Hids). rewrite Hcc in Hes.
  assert (El : len leaves = (len l + (leaf_capacity - 1)) / leaf_capacity) by (unfold len at 1; by rewrite Hleaves).
  assert (Hle : 1 <= len leaves <= len l).
  { rewrite El. split; [apply N.div_le_lower_bound; lia|]. apply N.lt_succ_r. apply N.Div0.div_lt_upper_bound. nia. }
  assert (Hok : level_ok l (len leaves) leaves 0 (seq 0 (length leaves)) 1 0).
  { assert (Es : len (seq 0 (length leaves)) = len leaves) by (unfold len; by rewrite length_seq).
    split; rewrite ?Es; [by exists subs; rewrite Hids| |lia|lia|done|].
    - intros E. rewrite E in Es. unfold len in *. simpl in *. lia.
    - assert (N.log2_up (len leaves) <= 64); [|unfold U32_MAX; lia]. apply N.log2_up_le_pow2; [lia|].
      unfold U64_MAX in Hlen. lia. }
  destruct (build_levels_run l (len leaves) fanout Hf ltac:(lia) (S (length leaves)) _ _ _ _ _ Hok)
    as (ps & h & root_ & depth_ & internal & ids & -> & Ht & Hperm & Hdepth & Hshape); [rewrite length_seq; lia|].
  cbn [head]. cbn [stats pages_count pages]. split_and!; [|done|].
  - exists l. split_and!; [done|done|]. right. by exists h, ids.
  - intros Hsum1 Hsum2. destruct (N.eqb_spec (len l) 0) as [|_]; [lia|]. unfold div_ceil at 1, checked_add at 1.
    destruct (N.leb_spec (len l + (leaf_capacity - 1)) U64_MAX); [|lia]. rewrite <- El.
    assert (Es : len (seq 0 (length leaves)) = len leaves) by (unfold len; by rewrite length_seq).
    rewrite Es in Hshape. rewrite Hshape; [done|lia|lia].
Qed.

(** ** A built directory *)

Lemma tree_member ps d id es ids i :
  tree ps d id es ids -> ordered es -> i ∈ ids -> exists d' es' ids', tree ps d' i es' ids' /\ ordered es'.
Proof.
  revert id es ids. induction d as [|d IH]; intros id es ids Ht Hs Hi; pose proof Ht as Ht0; simpl in Ht.
  - destruct Ht as (r & _ & _ & ->). apply list_elem_of_singleton in Hi as ->. by eexists 0%nat, es, _.
  - destruct Ht as (r & links & subs & _ & _ & Hl & -> & ->). apply elem_of_cons in Hi as [->|Hi]; [by eexists (S d), _, _|].
    apply list_elem_of_In, in_concat in Hi as (l & Hl' & Hi). rewrite <- !list_elem_of_In in *.
    apply list_elem_of_fmap in Hl' as (sub & -> & Hsub). pose proof Hsub as Hsub'.
    apply list_elem_of_lookup in Hsub as [k Hk]. destruct (Forall2_lookup_r _ _ _ _ _ Hl Hk) as (link & _ & _ & Ht).
    apply (IH _ _ _ Ht); [by eapply ordered_concat_sub|done].
Qed.

Lemma map_result_all {E A} (f : A -> result E unit) (l : list A) :
  (forall x, x ∈ l -> f x = Ok tt) -> exists us, map_result f l = Ok us.
Proof. intros Hf. exists ((fun _ => tt) <$> l). apply (map_result_ok f (fun _ => tt)). exact Hf. Qed.

Lemma represents_validates d es max_pages :
  represents d es -> ordered es ->
  validate d max_pages = if max_pages <? len (pages d) then Err PageLimitExceeded else Ok tt.
Proof.
  intros Hr Hs. unfold validate. destruct (N.ltb_spec max_pages (len (pages d))) as [Hm|Hm]; cbn [negb]; [done|].
  destruct Hr as [(-> & Hp & Hroot & _)|(h & ids & Ht & Hids & _)].
  - unfold validate_reachable. rewrite Hp, Hroot in *. cbn. unfold len in Hm. simpl in Hm.
    rewrite bool_decide_false by set_solver. cbn [negb]. rewrite union_empty_r_L, size_singleton.
    destruct (N.ltb_spec max_pages (N.of_nat 1)); [lia|]. done.
  - destruct (map_result_all (validate_page (pages d)) (pages d)) as [us Hus].
    { intros p Hp. apply list_elem_of_lookup in Hp as [i Hi].
      assert (Hin : i ∈ ids) by (rewrite Hids; apply elem_of_seq; apply lookup_lt_Some in Hi; lia).
      destruct (tree_member _ _ _ _ _ _ Ht Hs Hin) as (d' & es' & ids' & Ht' & Hs').
      by eapply validate_page_tree. }
    rewrite Hus. unfold validate_reachable.
    rewrite (reach_loop_trees (pages d) max_pages _ [root d] [ids] ∅); [done| | | | |]; cbn [concat]; rewrite ?app_nil_r.
    + constructor; [by exists h, es|constructor].
    + rewrite Hids. apply NoDup_seq.
    + set_solver.
    + rewrite size_empty, Hids, length_seq. unfold len in Hm. lia.
    + rewrite Hids, length_seq. lia.
Qed.

Lemma represents_lookup d es key max_pages :
  represents d es -> ordered es -> max_pages <= U32_MAX ->
  match lookup d key max_pages with
  | Ok r => locator r = find_id key es /\ 0 < pages_read r <= N.min max_pages (depth (stats d)) /\
      (is_Some (locator r) -> pages_read r = depth (stats d))
  | Err e => e = PageLimitExceeded /\ max_pages < depth (stats d)
  end.
Proof.
  intros Hr Hs Hm. unfold lookup. destruct Hr as [(-> & Hp & Hroot & Hd)|(h & ids & Ht & Hids & Hd)].
  - rewrite Hp, Hroot, Hd. cbn [length lookup_loop]. unfold checked_add_u32.
    destruct (N.leb_spec (0 + 1) U32_MAX); [|done]. cbn [ok_or].
    destruct (N.ltb_spec max_pages (0 + 1)); cbn [negb]; [split; [done|lia]|].
    rewrite bool_decide_false by set_solver. cbn. split_and!; [done|lia..|by intros []].
  - pose proof (lookup_tree (pages d) key max_pages (S (length (pages d))) h (root d) es ids 0 ∅ Ht Hs) as Hl.
    assert (Hh : (h < length ids)%nat).
    { clear -Ht. revert Ht. generalize (root d) as id. revert es ids. induction h as [|h IH]; intros es ids id Ht; simpl in Ht.
      - destruct Ht as (r & _ & _ & ->). simpl. lia.
      - destruct Ht as (r & links & subs & _ & Hsp & Hl & -> & ->). destruct Hl as [|link sub links subs [_ Hsub] _].
        { by apply spans_nonempty in Hsp. }
        apply IH in Hsub. csimpl. rewrite length_app. lia. }
    rewrite Hids, length_seq in Hh. rewrite Hd.
    specialize (Hl ltac:(lia) ltac:(rewrite Hids; apply NoDup_seq) ltac:(set_solver) Hm ltac:(lia)).
    destruct (lookup_loop _ _ _ _ _ _ _) as [r|e]; [|destruct Hl; split; [done|lia]].
    destruct Hl as (-> & ? & ? & Hfull). split_and!; [done|lia|lia|]. intros Hsome. rewrite (Hfull Hsome). lia.
Qed.

(** ** Lookups in any directory *)

Lemma leaf_windows_inv es : check_windows leaf_window es = Ok tt -> ordered es.
Proof.
  intros Hw. apply check_windows_Ok in Hw. apply Sorted_StronglySorted; [intros x y z; unfold key_lt; lia|].
  eapply Sorted_mono; [|exact Hw]. intros x y. unfold leaf_window, key_lt.
  destruct (N.ltb_spec (object_id y) (object_id x)); [done|].
  destruct (N.eqb_spec (object_id x) (object_id y)); [done|lia].
Qed.

Lemma validate_leaf_ordered ps r es : validate_page ps (Leaf r es) = Ok tt -> ordered es.
Proof.
  cbn [validate_page]. destruct es as [|x es]; [constructor|]. cbn [head].
  destruct (last (x :: es)) eqn:El; [|by apply last_None in El]. intros Hv. step_result Hv. by apply leaf_windows_inv.
Qed.

Lemma visited_bound (n : nat) (visited : gset nat) : (forall i, i ∈ visited -> (i < n)%nat) -> (size visited <= n)%nat.
Proof.
  intros Hv. rewrite <- (length_seq n 0). unfold size, set_size. simpl.
  apply submseteq_length, NoDup_submseteq; [apply NoDup_elements|].
  intros i Hi%elem_of_elements. apply elem_of_seq. specialize (Hv i Hi). lia.
Qed.

Lemma lookup_loop_fuel ps key max_pages fuel fuel' id read visited :
  (forall i, i ∈ visited -> (i < length ps)%nat) ->
  (length ps < fuel + size visited)%nat -> (length ps < fuel' + size visited)%nat ->
  lookup_loop fuel ps key max_pages id read visited = lookup_loop fuel' ps key max_pages id read visited.
Proof.
  revert fuel' id read visited. induction fuel as [|fuel IH]; intros fuel' id read visited Hv Hf Hf'.
  { pose proof (visited_bound _ _ Hv). lia. }
  destruct fuel' as [|fuel']; [pose proof (visited_bound _ _ Hv); lia|]. cbn [lookup_loop].
  destruct (ok_or _ _) as [read'|]; [|done]. destruct (negb _); [|done].
  case_bool_decide as Hin; cbn [negb]; [done|].
  destruct (ps !! id) as [p|] eqn:Hp; cbn [ok_or]; [|done]. destruct (validate_page ps p) as [[]|]; [|done].
  destruct p as [r es|r links]; [done|]. destruct (List.find _ links) as [link|]; [|done].
  assert (Hs : size ({[id]} ∪ visited) = S (size visited)) by (rewrite size_union, size_singleton; set_solver).
  apply IH; [|rewrite Hs; lia|rewrite Hs; lia].
  intros i [->%elem_of_singleton|Hi]%elem_of_union; [by apply lookup_lt_Some in Hp|by apply Hv].
Qed.

Lemma lookup_loop_sound ps key max_pages fuel id read visited r :
  lookup_loop fuel ps key max_pages id read visited = Ok r ->
  read < pages_read r <= max_pages /\
  forall e, locator r = Some e -> object_id e = key /\
    exists i range_ es, ps !! i = Some (Leaf range_ es) /\ ordered es /\ e ∈ es.
Proof.
  revert id read visited. induction fuel as [|fuel IH]; intros id read visited Hr; [done|]. cbn [lookup_loop] in Hr.
  unfold checked_add_u32 in Hr. destruct (N.leb_spec (read + 1) U32_MAX) as [Hu|]; cbn [ok_or] in Hr; [|done].
  destruct (N.ltb_spec max_pages (read + 1)) as [|Hm]; cbn [negb] in Hr; [done|].
  case_bool_decide; cbn [negb] in Hr; [done|].
  destruct (ps !! id) as [p|] eqn:Hp; cbn [ok_or] in Hr; [|done]. destruct (validate_page ps p) as [[]|] eqn:Hv; [|done].
  destruct p as [rg es|rg links].
  - injection Hr as <-. cbn [pages_read locator]. split; [lia|]. intros e He.
    pose proof (validate_leaf_ordered _ _ _ Hv) as Hs. rewrite binary_search_find in He by done.
    apply find_key_Some in He as [He Hk]; [|done]. split; [done|]. by exists id, rg, es.
  - destruct (List.find _ links) as [link|].
    + apply IH in Hr as [Hread Hloc]. split; [lia|done].
    + injection Hr as <-. cbn [pages_read locator]. split; [lia|done].
Qed.

(** C24. [PagedDirectory::build] never panics and succeeds unless a parameter
    is out of range or two entries share an identifier, the error saying
    which; [ArithmeticOverflow] is impossible. The directory built is a tree
    of pages, all of them used once, over the entries in ascending order, and
    its statistics are the ones [estimate_shape] predicts from the number of
    entries alone. *)
Theorem build_represents_entries es leaf_capacity fanout :
  4 * len es <= U64_MAX ->
  match build es leaf_capacity fanout with
  | Some (Ok d) => built es leaf_capacity fanout d
  | Some (Err e) => build_failed es leaf_capacity fanout e
  | None => False
  end.
Proof. apply build_cases. Qed.

Definition sample_entries : list ObjectLocator := (fun i => mkLocator i 1 (10 * i) 10 10) <$> [5; 2; 4; 1; 3].
Definition sample_directory : PagedDirectory :=
  match build sample_entries 2 2 with Some (Ok d) => d | _ => mkDirectory [] 0 (mkStats 0 0 0 0 0) end.

Example estimate_sample : estimate_shape 5 2 2 = Ok (stats sample_directory).
Proof. vm_compute. reflexivity. Qed.

Lemma sample_directory_built : build sample_entries 2 2 = Some (Ok sample_directory).
Proof. vm_compute. reflexivity. Qed.

Lemma build_represents_entries_witness :
  build sample_entries 2 2 = Some (Ok sample_directory) /\ built sample_entries 2 2 sample_directory /\
  build (sample_entries ++ sample_entries) 2 2 = Some (Err (DuplicateObjectId 1)).
Proof.
  assert (Hl : 4 * len sample_entries <= U64_MAX) by (apply N.leb_le; vm_compute; reflexivity).
  pose proof (build_represents_entries sample_entries 2 2 Hl) as Hb. rewrite sample_directory_built in Hb.
  split; [exact sample_directory_built|]. split; [exact Hb|]. vm_compute. reflexivity.
Defined.

(** In a built directory a lookup is an exact search of the entries: it
    returns the one entry with the identifier, or none, after at most [depth]
    pages (exactly [depth] for a hit), and fails only when the caller allows
    fewer pages than it needs. [validate] accepts the directory exactly when
    the limit covers its pages. *)
Theorem built_directory_lookup es leaf_capacity fanout d key max_pages :
  4 * len es <= U64_MAX -> build es leaf_capacity fanout = Some (Ok d) -> max_pages <= U32_MAX ->
  match lookup d key max_pages with
  | Ok r => (forall e, locator r = Some e <-> e ∈ es /\ object_id e = key) /\
      0 < pages_read r <= N.min max_pages (depth (stats d)) /\
      (is_Some (locator r) -> pages_read r = depth (stats d))
  | Err e => e = PageLimitExceeded /\ max_pages < depth (stats d)
  end /\
  validate d max_pages = if max_pages <? pages_count (stats d) then Err PageLimitExceeded else Ok tt.
Proof.
  intros Hl Hb Hm. pose proof (build_cases es leaf_capacity fanout Hl) as Hc. rewrite Hb in Hc.
  destruct Hc as [(sorted & Hp & Hs & Hr) [Hcount _]]. rewrite Hcount. split; [|by eapply represents_validates].
  pose proof (represents_lookup d sorted key max_pages Hr Hs Hm) as Hlk.
  destruct (lookup d key max_pages) as [r|e]; [|done]. destruct Hlk as (Hloc & Hread & Hfull).
  split_and!; [|apply Hread|apply Hread|done]. intros e. rewrite Hloc, find_key_Some by done. by rewrite Hp.
Qed.

Lemma built_directory_lookup_witness :
  lookup sample_directory 4 3 = Ok (mkLookup (Some (mkLocator 4 1 40 10 10)) 3) /\
  mkLocator 4 1 40 10 10 ∈ sample_entries /\ lookup sample_directory 4 2 = Err PageLimitExceeded.
Proof.
  assert (Hl : 4 * len sample_entries <= U64_MAX) by (apply N.leb_le; vm_compute; reflexivity).
  assert (Hm : 3 <= U32_MAX) by (apply N.leb_le; vm_compute; reflexivity).
  pose proof (built_directory_lookup sample_entries 2 2 sample_directory 4 3 Hl sample_directory_built Hm) as [Ht _].
  assert (E : lookup sample_directory 4 3 = Ok (mkLookup (Some (mkLocator 4 1 40 10 10)) 3)) by (vm_compute; reflexivity).
  rewrite E in Ht. split; [exact E|]. split; [|vm_compute; reflexivity].
  apply (proj1 (proj1 Ht _) eq_refl).
Defined.

(** A lookup in any directory, however its pages are linked, ends after
    visiting each page at most once (more fuel than one above the number of
    pages changes nothing) and within [max_pages] reads; a hit has the
    identifier asked for and lies in a leaf of the directory whose keys are in
    strictly ascending order. *)
Theorem lookup_any_directory d key max_pages :
  (forall fuel, (length (pages d) < fuel)%nat ->
    lookup_loop fuel (pages d) key max_pages (root d) 0 ∅ = lookup d key max_pages) /\
  forall r, lookup d key max_pages = Ok r ->
    0 < pages_read r <= max_pages /\
    forall e, locator r = Some e -> object_id e = key /\
      exists i range_ es, pages d !! i = Some (Leaf range_ es) /\ ordered es /\ e ∈ es.
Proof.
  split; [|intros r; apply lookup_loop_sound].
  intros fuel Hf. unfold lookup. apply lookup_loop_fuel; [set_solver|rewrite size_empty; lia..].
Qed.

(** A page that links to itself. *)
Definition cyclic_directory : PagedDirectory :=
  mkDirectory [Internal (mkRange 1 9) [mkLink (mkRange 1 9) 0]] 0 (mkStats 0 1 0 1 2).

Lemma lookup_any_directory_witness :
  lookup_loop 5 (pages cyclic_directory) 4 8 0 0 ∅ = Err PageCycle /\
  lookup cyclic_directory 4 8 = Err PageCycle /\
  exists r, lookup sample_directory 2 8 = Ok r /\ pages_read r <= 8.
Proof.
  assert (Hf : (length (pages cyclic_directory) < 5)%nat) by (apply Nat.ltb_lt; reflexivity).
  pose proof (proj1 (lookup_any_directory cyclic_directory 4 8) 5%nat Hf) as Hc.
  assert (E : lookup cyclic_directory 4 8 = Err PageCycle) by (vm_compute; reflexivity).
  split; [etransitivity; [exact Hc|exact E]|]. split; [exact E|].
  destruct (lookup sample_directory 2 8) as [r|e] eqn:El; [|exfalso; revert El; vm_compute; discriminate].
  exists r. split; [reflexivity|]. apply (proj2 (lookup_any_directory sample_directory 2 8) r El).
Defined.
