(* ===== verification/Repair.v ===== *)
(** [crates/ucof-experiments/src/repair.rs]: the plan of a repair copy. From a
    verified complete snapshot, the reachable objects and their locators, it
    lists the byte ranges to copy and refuses ranges that overflow, overlap or
    exceed the limits. Its specification: the ranges are those of exactly the
    reachable objects, disjoint, in order and within the limits. *)

From Stdlib Require Import Strings.Byte Strings.String NArith ZArith Lia.
From stdpp Require Import base list gmap strings sorting.
From S2P Require Import Prelude Order Errors Compaction Snapshots Directory.

Local Open Scope N_scope.

Record RepairLimits : Type := mkRepairLimits {
  compaction : CompactionLimits;
  max_copy_ranges : N;
  max_total_copy_bytes : N;
}.

Definition default_repair_limits : RepairLimits := mkRepairLimits default_compaction_limits 1000000 U64_MAX.

Record CopyRange : Type := mkCopy {
  copy_id : N;
  copy_offset : N;
  copy_length : N;
}.

Record RepairPlan : Type := mkRepair {
  source_snapshot : SnapshotIdentity;
  repair_roots : list N;
  copy_ranges : list CopyRange;
  orphaned_object_ids : list N;
  total_copy_bytes : N;
  requires_new_snapshot_identity : bool;
  preserves_byte_scoped_signatures : bool;
}.

Inductive RepairError : Type :=
  | SourceNotVerified
  | SourceProgressCheckpoint
  | DuplicateLocator (object_id : N)
  | MissingLocator (object_id : N)
  | RangeOverflow (object_id : N)
  | OverlappingRanges (left right : N)
  | CopyRangeLimitExceeded
  | CopyByteLimitExceeded
  | CompactionFailed (e : CompactionError).

Definition repair_error_to_string (e : RepairError) : string :=
  match e with
  | SourceNotVerified => "repair source snapshot is not verified"
  | SourceProgressCheckpoint => "progress checkpoint cannot be repaired as a snapshot"
  | DuplicateLocator id => "duplicate locator for object " ++ decimal id
  | MissingLocator id => "missing locator for reachable object " ++ decimal id
  | RangeOverflow id => "physical range overflow for object " ++ decimal id
  | OverlappingRanges l r => "physical ranges overlap for objects " ++ decimal l ++ " and " ++ decimal r
  | CopyRangeLimitExceeded => "repair copy-range limit exceeded"
  | CopyByteLimitExceeded => "repair copy-byte limit exceeded"
  | CompactionFailed e => "repair reachability failure: " ++ compaction_error_to_string e
  end%string.

(** [impl From<CompactionError> for RepairError], applied by [?]. *)
Definition lift_compaction {A} (r : result CompactionError A) : result RepairError A :=
  match r with Ok a => Ok a | Err e => Err (CompactionFailed e) end.

Abbreviation Locators := (gmap N ObjectLocator).

(** [by_id.insert] for every locator *)
Definition insert_locator (by_id : Locators) (l : ObjectLocator) : result RepairError Locators :=
  match by_id !! object_id l with
  | Some _ => Err (DuplicateLocator (object_id l))
  | None => Ok (<[object_id l := l]> by_id)
  end.

(** The body of the loop over the reachable objects: the ranges so far and
    their total length. *)
Definition add_range (by_id : Locators) (limits : RepairLimits) (acc : list CopyRange * N) (id : N)
    : result RepairError (list CopyRange * N) :=
  let* l := ok_or (by_id !! id) (MissingLocator id) in
  let* _ := ok_or (checked_add (offset l) (stored_len l)) (RangeOverflow id) in
  let* total := ok_or (checked_add acc.2 (stored_len l)) CopyByteLimitExceeded in
  check negb (max_total_copy_bytes limits <? total) else CopyByteLimitExceeded in
  Ok (acc.1 ++ [mkCopy id (offset l) (stored_len l)], total).

(** [sort_unstable_by_key(|range| (range.offset, range.object_id))] *)
Definition by_position (x y : CopyRange) : comparison :=
  then_with (N.compare (copy_offset x) (copy_offset y)) (N.compare (copy_id x) (copy_id y)).

Definition overlap_window (x y : CopyRange) : option RepairError :=
  match checked_add (copy_offset x) (copy_length x) with
  | None => Some (RangeOverflow (copy_id x))
  | Some left_end => if copy_offset y <? left_end then Some (OverlappingRanges (copy_id x) (copy_id y)) else None
  end.

(** [RepairPlan::build] *)
Definition build_repair (snapshot : SnapshotCandidate) (roots : list N) (graph : ObjectGraph)
    (locators : list ObjectLocator) (limits : RepairLimits) : result RepairError RepairPlan :=
  check bool_decide (status snapshot = Verified) else SourceNotVerified in
  check negb (bool_decide (checkpoint snapshot = Progress)) else SourceProgressCheckpoint in
  let* reachability := lift_compaction (plan graph (compaction limits) roots) in
  check negb (max_copy_ranges limits <? len (reachable reachability)) else CopyRangeLimitExceeded in
  let* by_id := fold_result insert_locator locators ∅ in
  let* (ranges, total) := fold_result (add_range by_id limits) (reachable reachability) ([], 0) in
  let ranges := sort_by by_position ranges in
  let* _ := check_windows overlap_window ranges in
  Ok (mkRepair (identity snapshot) roots ranges (orphaned reachability) total true false).

(** ** What a plan and a refusal mean *)

Section Spec.
Context (graph : ObjectGraph) (roots : list N) (locators : list ObjectLocator) (limits : RepairLimits).

(** The one locator of a reachable object. *)
Definition located (i : N) (l : ObjectLocator) : Prop := reaches graph roots i /\ l ∈ locators /\ object_id l = i.

Definition range_of (l : ObjectLocator) : CopyRange := mkCopy (object_id l) (offset l) (stored_len l).

(** The ranges of a copy do not overlap and come in the order of the file. *)
Definition apart (x y : CopyRange) : Prop := copy_offset x + copy_length x <= copy_offset y.

Definition sum_lengths (ls : list N) : N := foldr N.add 0 ls.

Record copies (snapshot : SnapshotCandidate) (p : RepairPlan) : Prop := {
  cp_source : status snapshot = Verified /\ checkpoint snapshot = Complete /\ source_snapshot p = identity snapshot;
  cp_roots : repair_roots p = roots;
  cp_covers i : i ∈ copy_id <$> copy_ranges p <-> reaches graph roots i;
  cp_distinct : NoDup (copy_id <$> copy_ranges p);
  cp_ranges r : r ∈ copy_ranges p -> exists l, located (copy_id r) l /\ r = range_of l /\
    copy_offset r + copy_length r <= U64_MAX;
  cp_apart : StronglySorted apart (copy_ranges p);
  cp_count : len (copy_ranges p) <= max_copy_ranges limits;
  cp_total : total_copy_bytes p = sum_lengths (copy_length <$> copy_ranges p) /\
    total_copy_bytes p <= max_total_copy_bytes limits /\ total_copy_bytes p <= U64_MAX;
  cp_orphaned i : i ∈ orphaned_object_ids p <-> i ∈ dom graph /\ ~ reaches graph roots i;
  cp_identity : requires_new_snapshot_identity p = true /\ preserves_byte_scoped_signatures p = false;
}.

(** Reachable objects whose stored bytes exceed [n] together. *)
Definition copies_more_than (n : N) : Prop :=
  exists ls, NoDup (object_id <$> ls) /\ Forall (fun l => located (object_id l) l) ls /\
    n < sum_lengths (stored_len <$> ls).

Definition refused (snapshot : SnapshotCandidate) (e : RepairError) : Prop :=
  match e with
  | SourceNotVerified => status snapshot <> Verified
  | SourceProgressCheckpoint => status snapshot = Verified /\ checkpoint snapshot = Progress
  | DuplicateLocator _ => ~ NoDup (object_id <$> locators)
  | MissingLocator i => reaches graph roots i /\ i ∉ object_id <$> locators
  | RangeOverflow i => exists l, located i l /\ U64_MAX < offset l + stored_len l
  | OverlappingRanges i j => i <> j /\ exists l l', located i l /\ located j l' /\
      offset l <= offset l' < offset l + stored_len l
  | CopyRangeLimitExceeded => reaches_more_than graph roots (max_copy_ranges limits)
  | CopyByteLimitExceeded => copies_more_than (max_total_copy_bytes limits) \/ copies_more_than U64_MAX
  | CompactionFailed e => explained graph (compaction limits) roots e
  end.
End Spec.

(** ** The table of locators *)

Lemma insert_locators_cases ls :
  match fold_result insert_locator ls ∅ with
  | Ok m => NoDup (object_id <$> ls) /\ forall i l, m !! i = Some l <-> l ∈ ls /\ object_id l = i
  | Err e => exists i, e = DuplicateLocator i /\ ~ NoDup (object_id <$> ls)
  end.
Proof.
  induction ls as [|l ls IH] using rev_ind.
  { split; [constructor|]. intros i l. rewrite lookup_empty. set_solver. }
  rewrite fold_result_app, fmap_app. destruct (fold_result insert_locator ls ∅) as [m|e]; cbn [fold_result].
  2:{ destruct IH as (i & -> & Hn). exists i. split; [done|]. intros Hnd. apply Hn. by apply NoDup_app in Hnd as [? _]. }
  destruct IH as [Hnd Hm]. unfold insert_locator. destruct (m !! object_id l) as [l'|] eqn:El.
  - apply Hm in El as [Hl He]. exists (object_id l). split; [done|]. intros Hd. apply NoDup_app in Hd as (_ & Hd & _).
    apply (Hd (object_id l)); [rewrite <- He; by apply list_elem_of_fmap_2|csimpl; set_solver].
  - assert (Hfresh : object_id l ∉ object_id <$> ls).
    { intros Hin. apply list_elem_of_fmap in Hin as (l' & He & Hl).
      assert (m !! object_id l = Some l') by (by apply Hm). congruence. }
    split.
    + apply NoDup_app. csimpl. split_and!; [done|set_solver|apply NoDup_singleton].
    + intros i l'. rewrite elem_of_app, list_elem_of_singleton. destruct (decide (i = object_id l)) as [->|Hi].
      * rewrite lookup_insert_eq. split; [by intros [= <-]; split; [right|]|].
        intros [[Hl| ->] He]; [|done]. exfalso. apply Hfresh. rewrite <- He. by apply list_elem_of_fmap_2.
      * rewrite lookup_insert_ne by done. rewrite Hm. naive_solver.
Qed.

(** ** The loop over the reachable objects *)

Lemma sum_lengths_app l1 l2 : sum_lengths (l1 ++ l2) = sum_lengths l1 + sum_lengths l2.
Proof. unfold sum_lengths. induction l1 as [|x l1 IH]; simpl; [done|]. rewrite IH. lia. Qed.

Lemma sum_lengths_Permutation l1 l2 : l1 ≡ₚ l2 -> sum_lengths l1 = sum_lengths l2.
Proof. unfold sum_lengths. induction 1; simpl; lia. Qed.

Section Loop.
Context (graph : ObjectGraph) (roots : list N) (locators : list ObjectLocator) (limits : RepairLimits).
Context (by_id : Locators) (Hm : forall i l, by_id !! i = Some l <-> l ∈ locators /\ object_id l = i).

(** The locators of the objects done so far. *)
Definition copied_so_far (ids : list N) (acc : list CopyRange * N) : Prop :=
  exists ls, object_id <$> ls = ids /\ acc.1 = range_of <$> ls /\ acc.2 = sum_lengths (stored_len <$> ls) /\
    Forall (fun l => located graph roots locators (object_id l) l /\ offset l + stored_len l <= U64_MAX) ls /\
    acc.2 <= max_total_copy_bytes limits /\ acc.2 <= U64_MAX.

Lemma add_ranges_cases ids done_ acc :
  NoDup (done_ ++ ids) -> (forall i, i ∈ done_ ++ ids -> reaches graph roots i) -> copied_so_far done_ acc ->
  match fold_result (add_range by_id limits) ids acc with
  | Ok acc' => copied_so_far (done_ ++ ids) acc'
  | Err e => forall snapshot, refused graph roots locators limits snapshot e
  end.
Proof.
  revert done_ acc. induction ids as [|i ids IH]; intros done_ acc Hnd Hr Hacc; cbn [fold_result].
  { by rewrite app_nil_r. }
  destruct Hacc as (ls & Hids & Hranges & Htotal & Hall & Hb1 & Hb2).
  assert (Hri : reaches graph roots i) by (apply Hr; set_solver).
  unfold add_range at 1. destruct (by_id !! i) as [l|] eqn:El; cbn [ok_or].
  2:{ intros snapshot. cbn [refused]. split; [done|]. intros Hin. apply list_elem_of_fmap in Hin as (l & -> & Hl).
      assert (by_id !! object_id l = Some l) by (by apply Hm). congruence. }
  apply Hm in El as [Hl Hid]. assert (Hloc : located graph roots locators i l) by done.
  unfold checked_add. destruct (N.leb_spec (offset l + stored_len l) U64_MAX) as [Ho|Ho]; cbn [ok_or].
  2:{ intros snapshot. cbn [refused]. exists l. split; [done|lia]. }
  assert (Hmore : forall n, n < acc.2 + stored_len l -> copies_more_than graph roots locators n).
  { intros n Hn. exists (ls ++ [l]). rewrite !fmap_app. split_and!.
    - rewrite Hids. csimpl. rewrite Hid. rewrite cons_middle, app_assoc in Hnd. by apply NoDup_app in Hnd as [? _].
    - apply Forall_app. split; [eapply Forall_impl; [exact Hall|]; by intros x [? _]|].
      constructor; [by rewrite Hid|constructor].
    - rewrite sum_lengths_app, <- Htotal. cbn. lia. }
  destruct (N.leb_spec (acc.2 + stored_len l) U64_MAX) as [Hu|Hu]; cbn [ok_or].
  2:{ intros snapshot. cbn [refused]. right. apply Hmore. lia. }
  destruct (N.ltb_spec (max_total_copy_bytes limits) (acc.2 + stored_len l)) as [Hx|Hx]; cbn [negb].
  { intros snapshot. cbn [refused]. left. by apply Hmore. }
  rewrite (cons_middle i done_ ids), app_assoc. rewrite (cons_middle i done_ ids), app_assoc in Hnd, Hr. apply IH; [done|done|].
  exists (ls ++ [l]). rewrite !fmap_app, sum_lengths_app. cbn [fst snd]. split_and!; [by rewrite Hids; csimpl; rewrite Hid| | | |done|done].
  - rewrite Hranges. csimpl. unfold range_of at 3. by rewrite Hid.
  - rewrite Htotal. cbn. lia.
  - apply Forall_app. split; [done|]. constructor; [by rewrite Hid|constructor].
Qed.
End Loop.

(** ** Positions *)

#[export] Instance by_position_total : TotalCmp by_position.
Proof.
  unfold by_position. apply (then_with_total (cmp_on copy_offset N.compare) (cmp_on copy_id N.compare)).
Qed.

Lemma by_position_le x y : cmp_le by_position x y -> copy_offset x <= copy_offset y.
Proof.
  unfold cmp_le, by_position. destruct (N.compare_spec (copy_offset x) (copy_offset y)); simpl; lia || congruence.
Qed.

Lemma overlap_window_None x y :
  copy_offset x + copy_length x <= U64_MAX -> overlap_window x y = None <-> apart x y.
Proof.
  intros Hx. unfold overlap_window, checked_add, apart.
  destruct (N.leb_spec (copy_offset x + copy_length x) U64_MAX); [|lia].
  destruct (N.ltb_spec (copy_offset y) (copy_offset x + copy_length x)); split; done || lia.
Qed.

Lemma sorted_adjacent {A} (R : A -> A -> Prop) l1 x y l2 : Sorted R (l1 ++ x :: y :: l2) -> R x y.
Proof.
  induction l1 as [|z l1 IH]; intros Hs; inversion Hs as [|? ? Hs' Hh]; subst; [by inversion Hh|by apply IH].
Qed.

Lemma apart_trans : Transitive apart.
Proof. intros x y z. unfold apart. lia. Qed.

Lemma build_repair_cases snapshot roots graph locators limits :
  max_edges (compaction limits) <= U64_MAX -> max_depth (compaction limits) <= U64_MAX ->
  match build_repair snapshot roots graph locators limits with
  | Ok p => copies graph roots locators limits snapshot p
  | Err e => refused graph roots locators limits snapshot e
  end.
Proof.
  intros He Hd. unfold build_repair. case_bool_decide as Hst; [|done].
  case_bool_decide as Hcp; cbn [negb]; [done|].
  pose proof (plan_cases graph (compaction limits) roots He Hd) as Hplan.
  destruct (plan graph (compaction limits) roots) as [p|e]; cbn [lift_compaction]; [|done].
  destruct Hplan as [_ Hreach Horph [Hsorted _] _ _ _ _ _ _].
  assert (Hnd : NoDup (reachable p)).
  { clear -Hsorted. induction Hsorted as [|x l Hs IH Hf]; constructor; [|done]. intros Hx.
    pose proof (proj1 (Forall_forall _ _) Hf x Hx). lia. }
  destruct (N.ltb_spec (max_copy_ranges limits) (len (reachable p))) as [Hl|Hl]; cbn [negb].
  { exists (list_to_set (reachable p)). rewrite size_list_to_set by done. split; [|done].
    intros i Hi%elem_of_list_to_set. by apply Hreach. }
  pose proof (insert_locators_cases locators) as Hi.
  destruct (fold_result insert_locator locators ∅) as [by_id|e]; [|by destruct Hi as (i & -> & Hn)].
  destruct Hi as [Hndl Hm].
  pose proof (add_ranges_cases graph roots locators limits by_id Hm (reachable p) [] ([], 0)) as Hadd.
  specialize (Hadd Hnd (fun i Hi => proj1 (Hreach i) Hi)).
  assert (H0 : copied_so_far graph roots locators limits [] ([], 0)).
  { exists []. cbn. split_and!; [done|done|done|constructor|lia|lia]. }
  specialize (Hadd H0). cbn [app] in Hadd.
  destruct (fold_result (add_range by_id limits) (reachable p) ([], 0)) as [[ranges total]|e]; [|apply Hadd].
  destruct Hadd as (ls & Hids & Hranges & Htotal & Hall & Hb1 & Hb2). cbn [fst snd] in *.
  set (sorted := sort_by by_position ranges). assert (Hp : sorted ≡ₚ ranges) by apply sort_by_Permutation.
  pose proof (sort_by_Sorted by_position ranges) as Hpos. fold sorted in Hpos.
  assert (Hrids : copy_id <$> ranges = reachable p).
  { rewrite Hranges, <- list_fmap_compose, <- Hids. by apply list_fmap_ext. }
  assert (Hrange : forall r, r ∈ sorted -> exists l, located graph roots locators (copy_id r) l /\ r = range_of l /\
    copy_offset r + copy_length r <= U64_MAX).
  { intros r Hr. rewrite Hp, Hranges in Hr. apply list_elem_of_fmap in Hr as (l & -> & Hin).
    destruct (proj1 (Forall_forall _ _) Hall l Hin) as [Hloc Ho]. by exists l. }
  assert (Hlr : forall f : CopyRange -> N, (f <$> sorted) ≡ₚ (f <$> ranges)) by (intros f; by rewrite Hp).
  assert (Hsnd : NoDup (copy_id <$> sorted)) by (by rewrite Hlr, Hrids).
  destruct (check_windows overlap_window sorted) as [[]|e] eqn:Ew.
  - clearbody sorted. split; cbn [source_snapshot repair_roots copy_ranges orphaned_object_ids total_copy_bytes
      requires_new_snapshot_identity preserves_byte_scoped_signatures].
    + split_and!; [done|by destruct (checkpoint snapshot)|done].
    + done.
    + intros i. by rewrite Hlr, Hrids.
    + done.
    + done.
    + apply Sorted_StronglySorted; [apply apart_trans|]. apply check_windows_Ok in Ew.
      clear -Ew Hrange. induction Ew as [|x l Hw IH Hh]; constructor; [apply IH; intros r Hr; apply Hrange; by right|].
      destruct Hh as [|y l Hxy]; constructor. apply overlap_window_None; [|done].
      destruct (Hrange x) as (l' & _ & _ & Ho); [by left|done].
    + assert (El : len sorted = len (reachable p)) by (unfold len; by rewrite Hp, <- Hrids, length_fmap).
      by rewrite El.
    + split_and!; [|done|done]. rewrite Htotal, (sum_lengths_Permutation _ _ (Hlr copy_length)), Hranges.
      by rewrite <- list_fmap_compose.
    + done.
    + done.
  - apply check_windows_Err in Ew as (l1 & x & y & l2 & Es & Hxy). rewrite Es in *.
    destruct (Hrange x) as (lx & Hlx & Hx & Hox); [set_solver|]. destruct (Hrange y) as (ly & Hly & Hy & _); [set_solver|].
    unfold overlap_window, checked_add in Hxy. destruct (N.leb_spec (copy_offset x + copy_length x) U64_MAX); [|lia].
    destruct (N.ltb_spec (copy_offset y) (copy_offset x + copy_length x)) as [Hlt|]; [|done]. injection Hxy as <-.
    assert (Hle : copy_offset x <= copy_offset y).
    { apply by_position_le. by eapply sorted_adjacent. }
    split.
    + rewrite fmap_app in Hsnd. apply NoDup_app in Hsnd as (_ & _ & Hsnd). csimpl in Hsnd.
      apply NoDup_cons in Hsnd as [Hn _]. intros Heq. apply Hn. rewrite Heq. by left.
    + exists lx, ly. split_and!; [done|done|..]; rewrite Hx, Hy in *; cbn in *; lia.
Qed.

(** C38. [RepairPlan::build] plans a copy of exactly the objects reachable from
    the selected roots: one range each, taken from the object's only locator,
    in file order and pairwise disjoint, with the right total, within the
    limits and without overflow; the orphans are the other objects. It starts
    only from a verified complete snapshot, and every error has its cause. *)
Theorem repair_copies_reachable snapshot roots graph locators limits :
  max_edges (compaction limits) <= U64_MAX -> max_depth (compaction limits) <= U64_MAX ->
  match build_repair snapshot roots graph locators limits with
  | Ok p => copies graph roots locators limits snapshot p
  | Err e => refused graph roots locators limits snapshot e
  end.
Proof. apply build_repair_cases. Qed.

Definition sample_snapshot : SnapshotCandidate := mkCandidate [Byte.x01] 1 None 100 true Complete Verified.
Definition sample_locators : list ObjectLocator :=
  [mkLocator 1 1 0 10 10; mkLocator 2 1 50 20 20; mkLocator 3 1 10 30 30; mkLocator 4 1 70 5 5].

Lemma repair_copies_reachable_witness :
  exists p, build_repair sample_snapshot [2] sample_graph sample_locators default_repair_limits = Ok p /\
  copy_ranges p = [mkCopy 3 10 30; mkCopy 2 50 20] /\ total_copy_bytes p = 50 /\
  copies sample_graph [2] sample_locators default_repair_limits sample_snapshot p /\
  build_repair sample_snapshot [2] sample_graph [mkLocator 2 1 0 11 11; mkLocator 3 1 10 1 1] default_repair_limits =
    Err (OverlappingRanges 2 3).
Proof.
  assert (He : max_edges (compaction default_repair_limits) <= U64_MAX) by (apply N.leb_le; vm_compute; reflexivity).
  assert (Hd : max_depth (compaction default_repair_limits) <= U64_MAX) by (apply N.leb_le; vm_compute; reflexivity).
  pose proof (repair_copies_reachable sample_snapshot [2] sample_graph sample_locators default_repair_limits He Hd) as Ht.
  destruct (build_repair sample_snapshot [2] sample_graph sample_locators default_repair_limits) as [p|e] eqn:E.
  - exists p. assert (E' := E). vm_compute in E'. injection E' as <-. split_and!; [reflexivity..|exact Ht|].
    vm_compute. reflexivity.
  - exfalso. revert E. vm_compute. discriminate.
Defined.
