(* ===== verification/MixedUpdate.v ===== *)
(** [crates/ucof-experiments/src/mixed_update_plan.rs]: planning a batch of
    insertions, replacements and deletions on the leaves of a directory. All
    operations are applied to the pages at once; then pages that overflow are
    split and pages that underflow borrow from or merge with a sibling, left
    to right. *)

From Stdlib Require Import Strings.Byte Strings.String NArith ZArith Lia.
From stdpp Require Import base list gmap strings sorting.
From S2P Require Import Prelude Order Errors.

Local Open Scope N_scope.

Inductive MixedPlanOperation : Type :=
  | Put (object_id : N)
  | Delete (object_id : N).

Definition operation_id (o : MixedPlanOperation) : N :=
  match o with Put id | Delete id => id end.

Record MixedLeafPlanLimits : Type := mkLeafLimits {
  capacity : N;
  minimum : N;
  max_objects : N;
  max_pages : N;
  max_actions : N;
}.

Definition default_leaf_limits : MixedLeafPlanLimits := mkLeafLimits 185 93 1000000 100000 100000.

Inductive MixedLeafRepairAction : Type :=
  | Apply (original_page : nat) (insertions replacements deletions : N)
  | Split (position : nat) (output_counts : list N)
  | BorrowFromLeft (target_position : nat)
  | BorrowFromRight (target_position : nat)
  | MergeWithLeft (target_position : nat)
  | MergeWithRight (target_position : nat).

Record MixedLeafPlan : Type := mkLeafPlan {
  final_pages : list (list N);
  touched_original_pages : list nat;
  actions : list MixedLeafRepairAction;
  insertions : N;
  replacements : N;
  deletions : N;
}.

Inductive MixedLeafPlanError : Type :=
  | InvalidLimits
  | InvalidPage
  | DuplicateObject (object_id : N)
  | DuplicateOperation (object_id : N)
  | MissingObject (object_id : N)
  | EmptyResult
  | Limit (label : string).

Definition leaf_error_to_string (e : MixedLeafPlanError) : string :=
  match e with
  | InvalidLimits => "invalid mixed leaf plan limits"
  | InvalidPage => "invalid mixed leaf page input"
  | DuplicateObject id => "duplicate mixed leaf object " ++ decimal id
  | DuplicateOperation id => "duplicate mixed leaf operation " ++ decimal id
  | MissingObject id => "missing mixed leaf object " ++ decimal id
  | EmptyResult => "mixed leaf plan would delete every object"
  | Limit label => "mixed leaf plan " ++ label ++ " limit exceeded"
  end%string.

(** A [BTreeSet<usize>] in its iteration order. *)
Definition ascending_pages (s : gset nat) : list nat := sort_by Nat.compare (elements s).

Record WorkingPage : Type := mkWorking {
  ids : list N;
  origins : gset nat;
}.

(** [actions] is passed by mutable reference: the new vector is returned. *)
Definition checked_action (actions : list MixedLeafRepairAction) (action : MixedLeafRepairAction)
    (limits : MixedLeafPlanLimits) : result MixedLeafPlanError (list MixedLeafRepairAction) :=
  check negb (max_actions limits <=? len actions) else Limit "action count" in
  Ok (actions ++ [action]).

(** ** [canonical_group_sizes] *)

Definition sum_sizes (sizes : list N) : N := foldr N.add 0 sizes.

Definition canonical_group_sizes (total : N) (limits : MixedLeafPlanLimits) : result MixedLeafPlanError (list N) :=
  check negb (total =? 0) else InvalidPage in
  let* rounded := ok_or (checked_add total (capacity limits - 1)) (Limit "page count") in
  let groups := rounded / capacity limits in
  if groups =? 1 then Ok [total]
  else
    check negb (max_pages limits <? groups) else Limit "page count" in
    let full_groups := total / capacity limits in
    let remainder := total mod capacity limits in
    let* sizes :=
      if remainder =? 0 then Ok (replicate (N.to_nat full_groups) (capacity limits))
      else if minimum limits <=? remainder then
        Ok (replicate (N.to_nat full_groups) (capacity limits) ++ [remainder])
      else
        let* prefix := ok_or (checked_sub full_groups 1) InvalidPage in
        let transfer := minimum limits - remainder in
        Ok (replicate (N.to_nat prefix) (capacity limits) ++ [capacity limits - transfer; minimum limits]) in
    check (len sizes =? groups) && (sum_sizes sizes =? total) &&
          forallb (fun size => (minimum limits <=? size) && (size <=? capacity limits)) sizes
      else InvalidPage in
    Ok sizes.

(** ** Validation of pages *)

(** [!page.windows(2).any(|pair| pair[0] >= pair[1])] *)
Fixpoint ascending_keys (page : list N) : bool :=
  match page with
  | x :: ((y :: _) as page') => (x <? y) && ascending_keys page'
  | _ => true
  end.

(** The shape of one page among [count]. *)
Definition page_shape_ok (count : N) (limits : MixedLeafPlanLimits) (page : list N) : bool :=
  negb (len page =? 0) && (len page <=? capacity limits) &&
  negb ((1 <? count) && (len page <? minimum limits)) && ascending_keys page.

(** [previous_max.is_some_and(|maximum| maximum >= page[0])] *)
Definition starts_after (previous : option N) (page : list N) : bool :=
  match previous, page with
  | Some maximum, first :: _ => maximum <? first
  | _, _ => true
  end.

Abbreviation Locations := (gmap N nat).

Definition insert_location (page_index : nat) (locations : Locations) (id : N)
    : result MixedLeafPlanError Locations :=
  check negb (id =? 0) else InvalidPage in
  match locations !! id with
  | Some _ => Err (DuplicateObject id)
  | None => Ok (<[id := page_index]> locations)
  end.

(** The loop over the pages; [index] counts them. *)
Fixpoint validate_input_loop (limits : MixedLeafPlanLimits) (count : N) (index : nat) (pages : list (list N))
    (locations : Locations) (total : N) (previous : option N) : result MixedLeafPlanError Locations :=
  match pages with
  | [] => Ok locations
  | page :: pages =>
      check page_shape_ok count limits page else InvalidPage in
      check starts_after previous page else InvalidPage in
      let* total := ok_or (checked_add total (len page)) (Limit "object count") in
      check negb (max_objects limits <? total) else Limit "object count" in
      let* locations := fold_result (insert_location index) page locations in
      validate_input_loop limits count (S index) pages locations total (last page)
  end.

Definition limits_ok (limits : MixedLeafPlanLimits) : bool :=
  negb ((capacity limits =? 0) || (minimum limits =? 0) || (capacity limits <? minimum limits) ||
        (max_objects limits =? 0) || (max_pages limits =? 0) || (max_actions limits =? 0)).

Definition validate_input_pages (pages : list (list N)) (limits : MixedLeafPlanLimits)
    : result MixedLeafPlanError Locations :=
  check limits_ok limits else InvalidLimits in
  check negb ((len pages =? 0) || (max_pages limits <? len pages)) else InvalidPage in
  validate_input_loop limits (len pages) 0 pages ∅ 0 None.

Fixpoint validate_final_loop (limits : MixedLeafPlanLimits) (count : N) (pages : list (list N)) (total : N)
    (previous : option N) : result MixedLeafPlanError N :=
  match pages with
  | [] => Ok total
  | page :: pages =>
      check page_shape_ok count limits page else InvalidPage in
      check starts_after previous page else InvalidPage in
      let* total := ok_or (checked_add total (len page)) (Limit "object count") in
      validate_final_loop limits count pages total (last page)
  end.

Definition validate_final_pages (pages : list (list N)) (limits : MixedLeafPlanLimits)
    : result MixedLeafPlanError unit :=
  check negb ((len pages =? 0) || (max_pages limits <? len pages)) else InvalidPage in
  let* total := validate_final_loop limits (len pages) pages 0 None in
  check negb ((total =? 0) || (max_objects limits <? total)) else Limit "object count" in
  Ok tt.

(** ** Routing *)

(** [iter().position(|maximum| object_id <= *maximum)] *)
Fixpoint first_at_most (id : N) (maxima : list N) : option nat :=
  match maxima with
  | [] => None
  | m :: maxima => if id <=? m then Some 0%nat else S <$> first_at_most id maxima
  end.

(** [*page.last().expect(..)] of every page; the pages are not empty. *)
Definition page_maxima (pages : list (list N)) : list N := omap last pages.

Record Routed : Type := mkRouted {
  by_page : list (list MixedPlanOperation);
  rt_insertions : N;
  rt_replacements : N;
  rt_deletions : N;
}.

Definition route (locations : Locations) (maxima : list N) (page_count : nat) (operation : MixedPlanOperation)
    : result MixedLeafPlanError nat :=
  match locations !! operation_id operation with
  | Some index => Ok index
  | None =>
      match operation with
      | Delete id => Err (MissingObject id)
      | Put id => Ok (default (page_count - 1)%nat (first_at_most id maxima))
      end
  end.

Definition route_operation (locations : Locations) (maxima : list N) (page_count : nat) (r : Routed)
    (operation : MixedPlanOperation) : result MixedLeafPlanError Routed :=
  check negb (operation_id operation =? 0) else InvalidPage in
  let* page_index := route locations maxima page_count operation in
  let by_page := alter (fun ops => ops ++ [operation]) page_index (by_page r) in
  match operation with
  | Put id =>
      if bool_decide (is_Some (locations !! id))
      then Ok (mkRouted by_page (rt_insertions r) (rt_replacements r + 1) (rt_deletions r))
      else Ok (mkRouted by_page (rt_insertions r + 1) (rt_replacements r) (rt_deletions r))
  | Delete _ => Ok (mkRouted by_page (rt_insertions r) (rt_replacements r) (rt_deletions r + 1))
  end.

(** ** Applying *)

Record Applied : Type := mkApplied {
  values : gset N;
  ap_insertions : N;
  ap_replacements : N;
  ap_deletions : N;
}.

Definition apply_operation (a : Applied) (operation : MixedPlanOperation) : result MixedLeafPlanError Applied :=
  match operation with
  | Put id =>
      if bool_decide (id ∈ values a)
      then Ok (mkApplied (values a) (ap_insertions a) (ap_replacements a + 1) (ap_deletions a))
      else Ok (mkApplied ({[id]} ∪ values a) (ap_insertions a + 1) (ap_replacements a) (ap_deletions a))
  | Delete id =>
      check bool_decide (id ∈ values a) else MissingObject id in
      Ok (mkApplied (values a ∖ {[id]}) (ap_insertions a) (ap_replacements a) (ap_deletions a + 1))
  end.

(** The loop variables of the second half of the planner. *)
Record Planning : Type := mkPlanning {
  working : list WorkingPage;
  touched : gset nat;
  done_actions : list MixedLeafRepairAction;
}.

(** [for (page_index, page) in pages.iter().enumerate()] *)
Fixpoint apply_pages (limits : MixedLeafPlanLimits) (index : nat) (pages : list (list N))
    (by_page : list (list MixedPlanOperation)) (s : Planning) : result MixedLeafPlanError Planning :=
  match pages, by_page with
  | page :: pages, operations :: by_page =>
      let* a := fold_result apply_operation operations (mkApplied (list_to_set page) 0 0 0) in
      let* (touched, actions) :=
        match operations with
        | [] => Ok (touched s, done_actions s)
        | _ =>
            let* actions := checked_action (done_actions s)
              (Apply index (ap_insertions a) (ap_replacements a) (ap_deletions a)) limits in
            Ok ({[index]} ∪ touched s, actions)
        end in
      apply_pages limits (S index) pages by_page
        (mkPlanning (working s ++ [mkWorking (ascending (values a)) {[index]}]) touched actions)
  | _, _ => Ok s
  end.

(** ** Splitting *)

(** The vector cut into consecutive pieces of the given sizes. *)
Fixpoint cut {A} (sizes : list N) (l : list A) : list (list A) :=
  match sizes with
  | [] => []
  | size :: sizes => take (N.to_nat size) l :: cut sizes (drop (N.to_nat size) l)
  end.

(** The turns are as many as the pages at the end
    ([MixedUpdateFacts.split_loop_exact]). *)
Fixpoint split_loop (fuel : nat) (limits : MixedLeafPlanLimits) (position : nat) (s : Planning)
    : result MixedLeafPlanError Planning :=
  match fuel with
  | O => Err InvalidPage
  | S fuel =>
      match working s !! position with
      | None => Ok s
      | Some page =>
          if len (ids page) <=? capacity limits then split_loop fuel limits (S position) s
          else
            let* sizes := canonical_group_sizes (len (ids page)) limits in
            let replacements := (fun piece => mkWorking piece (origins page)) <$> cut sizes (ids page) in
            let* actions := checked_action (done_actions s) (Split position sizes) limits in
            let working := take position (working s) ++ replacements ++ drop (S position) (working s) in
            check negb (max_pages limits <? len working) else Limit "page count" in
            split_loop fuel limits (S position) (mkPlanning working (origins page ∪ touched s) actions)
      end
  end.

(** ** Repairing *)

(** Two neighbours give up their contents: both pages' origins are touched. *)
Definition touch_both (left right : WorkingPage) (s : gset nat) : gset nat := origins left ∪ origins right ∪ s.

(** [working.remove(at + 1)], appended to the page before it. *)
Definition merge_at (limits : MixedLeafPlanLimits) (at_ : nat) (action : MixedLeafRepairAction) (s : Planning)
    : result MixedLeafPlanError Planning :=
  let* l := ok_or (working s !! at_) InvalidPage in
  let* r := ok_or (working s !! S at_) InvalidPage in
  check negb (capacity limits <? len (ids l) + len (ids r)) else InvalidPage in
  let* actions := checked_action (done_actions s) action limits in
  let merged := mkWorking (ids l ++ ids r) (origins l ∪ origins r) in
  Ok (mkPlanning (<[at_ := merged]> (delete (S at_) (working s))) (touch_both l r (touched s)) actions).

Definition borrow_from_left (limits : MixedLeafPlanLimits) (position : nat) (page : WorkingPage) (s : Planning)
    : result MixedLeafPlanError Planning :=
  let* l := ok_or (working s !! (position - 1)%nat) InvalidPage in
  let* borrowed := ok_or (last (ids l)) InvalidPage in
  let* actions := checked_action (done_actions s) (BorrowFromLeft position) limits in
  Ok (mkPlanning
    (<[position := mkWorking (borrowed :: ids page) (origins page)]>
      (<[(position - 1)%nat := mkWorking (removelast (ids l)) (origins l)]> (working s)))
    (touch_both l page (touched s)) actions).

Definition borrow_from_right (limits : MixedLeafPlanLimits) (position : nat) (page : WorkingPage) (s : Planning)
    : result MixedLeafPlanError Planning :=
  let* r := ok_or (working s !! S position) InvalidPage in
  let* borrowed := ok_or (head (ids r)) InvalidPage in
  let* actions := checked_action (done_actions s) (BorrowFromRight position) limits in
  Ok (mkPlanning
    (<[position := mkWorking (ids page ++ [borrowed]) (origins page)]>
      (<[S position := mkWorking (tail (ids r)) (origins r)]> (working s)))
    (touch_both r page (touched s)) actions).

(** The page at an index can spare an entry. *)
Definition can_lend (limits : MixedLeafPlanLimits) (working : list WorkingPage) (i : nat) : bool :=
  match working !! i with
  | Some w => minimum limits <? len (ids w)
  | None => false
  end.

(** One turn of the loop on a page below the minimum: the new position and
    the new state. *)
Definition repair_turn (limits : MixedLeafPlanLimits) (position : nat) (page : WorkingPage) (s : Planning)
    : result MixedLeafPlanError (nat * Planning) :=
  if (0 <? position)%nat && can_lend limits (working s) (position - 1) then
    let* s := borrow_from_left limits position page s in
    Ok (S position, s)
  else if can_lend limits (working s) (S position) then
    let* s := borrow_from_right limits position page s in
    Ok (S position, s)
  else if (0 <? position)%nat then
    let* s := merge_at limits (position - 1) (MergeWithLeft position) s in
    Ok ((position - 1)%nat, s)
  else
    let* s := merge_at limits 0 (MergeWithRight 0) s in
    Ok (position, s).

(** [while working.len() > 1 && position < working.len()]. A turn moves on or
    removes a page: twice the pages bound the turns
    ([MixedUpdateFacts.repair_loop_exact]). *)
Fixpoint repair_loop (fuel : nat) (limits : MixedLeafPlanLimits) (position : nat) (s : Planning)
    : result MixedLeafPlanError Planning :=
  match fuel with
  | O => Err InvalidPage
  | S fuel =>
      if (1 <? length (working s))%nat then
        match working s !! position with
        | None => Ok s
        | Some page =>
            if minimum limits <=? len (ids page) then repair_loop fuel limits (S position) s
            else
              let* (position, s) := repair_turn limits position page s in
              repair_loop fuel limits position s
        end
      else Ok s
  end.

(** ** [plan_mixed_leaf_updates] *)

Definition total_ids (working : list WorkingPage) : nat := sum_list ((fun w => length (ids w)) <$> working).

Definition same_operation (x y : MixedPlanOperation) : option MixedLeafPlanError :=
  if operation_id x =? operation_id y then Some (DuplicateOperation (operation_id x)) else None.

Definition plan_mixed_leaf_updates (pages : list (list N)) (operations : list MixedPlanOperation)
    (limits : MixedLeafPlanLimits) : result MixedLeafPlanError MixedLeafPlan :=
  let* locations := validate_input_pages pages limits in
  check negb (len operations =? 0) else InvalidPage in
  check negb (max_objects limits <? len operations) else Limit "operation count" in
  let ordered := sort_by (cmp_on operation_id N.compare) operations in
  let* _ := check_windows same_operation ordered in
  let* r := fold_result (route_operation locations (page_maxima pages) (length pages)) ordered
              (mkRouted (replicate (length pages) []) 0 0 0) in
  let* projected :=
    match checked_add (N.of_nat (size locations)) (rt_insertions r) with
    | Some value => ok_or (checked_sub value (rt_deletions r)) EmptyResult
    | None => Err EmptyResult
    end in
  check negb (projected =? 0) else EmptyResult in
  check negb (max_objects limits <? projected) else Limit "object count" in
  let* s := apply_pages limits 0 pages (by_page r) (mkPlanning [] ∅ []) in
  let* s := split_loop (S (total_ids (working s) + length (working s))) limits 0 s in
  let* s := repair_loop (S (2 * length (working s))) limits 0 s in
  let* _ := validate_final_pages (ids <$> working s) limits in
  Ok (mkLeafPlan (ids <$> working s) (ascending_pages (touched s)) (done_actions s)
        (rt_insertions r) (rt_replacements r) (rt_deletions r)).
