(* ===== verification/MixedUpdateFacts.v ===== *)
(** The leaf planner against its specification: the final pages hold exactly
    the objects the batch leaves, in order and within the occupancy limits;
    untouched pages survive as they were; the order of the operations does not
    matter; and a batch that takes no page more than one object below the
    minimum never gets stuck. *)

From Stdlib Require Import Strings.Byte Strings.String NArith ZArith Lia.
From stdpp Require Import base list gmap strings sorting.
From S2P Require Import Prelude Order Errors MixedUpdate.

Local Open Scope N_scope.

(** ** Well-formed pages *)

Record pages_ok (limits : MixedLeafPlanLimits) (pages : list (list N)) : Prop := {
  po_some : pages <> [];
  po_count : len pages <= max_pages limits;
  po_shape : Forall (fun p => p <> [] /\ len p <= capacity limits /\ (1 < len pages -> minimum limits <= len p)) pages;
  po_sorted : StronglySorted N.lt (concat pages);
}.

Lemma ascending_keys_sorted page : ascending_keys page = true <-> StronglySorted N.lt page.
Proof.
  induction page as [|x [|y page] IH].
  - split; [constructor|done].
  - split; [by repeat constructor|done].
  - cbn [ascending_keys]. rewrite andb_true_iff, N.ltb_lt, IH. split.
    + intros [Hxy Hs]. constructor; [done|]. inversion Hs as [|? ? _ Hf]; subst. constructor; [done|].
      eapply Forall_impl; [exact Hf|]. intros z ?. simpl. lia.
    + intros Hs. inversion Hs as [|? ? Hs' Hf]; subst. inversion Hf; subst. done.
Qed.

Lemma sorted_app (l1 l2 : list N) :
  StronglySorted N.lt (l1 ++ l2) <->
  StronglySorted N.lt l1 /\ StronglySorted N.lt l2 /\ forall x y, x ∈ l1 -> y ∈ l2 -> x < y.
Proof.
  induction l1 as [|x l1 IH]; cbn [app].
  { split; [intros Hs; split_and!; [constructor|done|set_solver]|naive_solver]. }
  split.
  - intros Hs. inversion Hs as [|? ? Hs' Hf]; subst. apply IH in Hs' as (H1 & H2 & H3).
    apply Forall_app in Hf as [Hf1 Hf2]. split_and!; [by constructor|done|].
    intros a b Ha Hb. apply elem_of_cons in Ha as [->|Ha]; [|by apply H3].
    by apply (proj1 (Forall_forall _ _) Hf2).
  - intros (H1 & H2 & H3). inversion H1 as [|? ? H1' Hf]; subst. constructor.
    + apply IH. split_and!; [done|done|]. intros a b Ha Hb. apply H3; set_solver.
    + apply Forall_app. split; [done|]. apply Forall_forall. intros y Hy. apply H3; set_solver.
Qed.

Lemma page_shape_spec count limits page :
  page_shape_ok count limits page = true <->
  page <> [] /\ len page <= capacity limits /\ (1 < count -> minimum limits <= len page) /\ StronglySorted N.lt page.
Proof.
  unfold page_shape_ok. rewrite !andb_true_iff, !negb_true_iff, andb_false_iff, N.eqb_neq, N.leb_le, !N.ltb_ge,
    ascending_keys_sorted.
  assert (He : len page <> 0 <-> page <> []) by (destruct page; [done|rewrite len_cons; split; [done|lia]]).
  rewrite He. split; [intros (((? & ?) & ?) & ?)|intros (? & ? & ? & ?)]; split_and!; try done.
  - intros ?. naive_solver lia.
  - destruct (decide (count <= 1)); [by left|right; lia || apply H1; lia].
Qed.

(** Everything seen so far is below the next page. *)
Definition below (previous : option N) (l : list N) : Prop :=
  forall m x, previous = Some m -> x ∈ l -> m < x.

Lemma starts_after_spec previous page :
  page <> [] -> StronglySorted N.lt page -> starts_after previous page = true <-> below previous page.
Proof.
  intros Hne Hs. unfold starts_after, below. destruct previous as [m|]; [|by split].
  destruct page as [|f page]; [done|]. rewrite N.ltb_lt. split.
  - intros Hm ? x [= <-] [->|Hx]%elem_of_cons; [done|]. inversion Hs as [|? ? _ Hf]; subst.
    pose proof (proj1 (Forall_forall _ _) Hf x Hx). simpl in *. lia.
  - intros Hb. apply (Hb m f); [done|by left].
Qed.

Lemma below_app previous l1 l2 : below previous (l1 ++ l2) <-> below previous l1 /\ below previous l2.
Proof. unfold below. set_solver. Qed.

Lemma below_last (page rest : list N) :
  StronglySorted N.lt page -> page <> [] ->
  below (last page) rest <-> forall x y, x ∈ page -> y ∈ rest -> x < y.
Proof.
  intros Hs Hne. destruct page as [|l page _] using rev_ind; [done|]. rewrite last_snoc. unfold below.
  apply sorted_app in Hs as (_ & _ & Hl). split.
  - intros Hb x y [Hx| ->%list_elem_of_singleton]%elem_of_app Hy; [|by apply Hb].
    specialize (Hl x l Hx ltac:(set_solver)). specialize (Hb l y eq_refl Hy). lia.
  - intros Hall m x [= <-] Hx. apply Hall; set_solver.
Qed.

(** ** The two validators *)

Definition total_len (pages : list (list N)) : N := len (concat pages).

Definition shaped (limits : MixedLeafPlanLimits) (count : N) (pages : list (list N)) : Prop :=
  Forall (fun p => p <> [] /\ len p <= capacity limits /\ (1 < count -> minimum limits <= len p)) pages /\
  StronglySorted N.lt (concat pages).

Lemma shaped_cons limits count page pages previous :
  shaped limits count (page :: pages) /\ below previous (concat (page :: pages)) <->
  page_shape_ok count limits page = true /\ starts_after previous page = true /\
  shaped limits count pages /\ below (last page) (concat pages).
Proof.
  unfold shaped. rewrite page_shape_spec, Forall_cons. cbn [concat]. rewrite sorted_app, below_app. split.
  - intros ((((? & ? & ?) & ?) & (? & ? & ?)) & ? & ?). split_and!; try done.
    + by apply starts_after_spec.
    + by apply below_last.
  - intros ((? & ? & ? & ?) & Hst & (? & ?) & Hb). apply starts_after_spec in Hst; [|done|done].
    assert (Hb' : forall x y, x ∈ page -> y ∈ concat pages -> x < y) by (by apply below_last).
    split_and!; try done.
    intros m x Hm Hx. destruct page as [|f page]; [done|].
    specialize (Hst m f Hm ltac:(set_solver)). specialize (Hb' f x ltac:(set_solver) Hx). lia.
Qed.

Lemma validate_final_loop_cases limits count pages total previous :
  match validate_final_loop limits count pages total previous with
  | Ok n => n = total + total_len pages /\ shaped limits count pages /\ below previous (concat pages)
  | Err InvalidPage => ~ (shaped limits count pages /\ below previous (concat pages))
  | Err e => e = Limit "object count"%string /\ U64_MAX < total + total_len pages
  end.
Proof.
  revert total previous. induction pages as [|page pages IH]; intros total previous; cbn [validate_final_loop].
  { unfold total_len, shaped, below. simpl. rewrite len_nil. split_and!; [lia|constructor|constructor|set_solver]. }
  pose proof (shaped_cons limits count page pages previous) as Hc.
  destruct (page_shape_ok count limits page) eqn:E1; [|intros Hs; apply Hc in Hs; naive_solver].
  destruct (starts_after previous page) eqn:E2; [|intros Hs; apply Hc in Hs; naive_solver].
  unfold checked_add, total_len. cbn [concat]. rewrite len_app.
  destruct (N.leb_spec (total + len page) U64_MAX) as [Hu|Hu]; cbn [ok_or]; [|split; [done|lia]].
  specialize (IH (total + len page) (last page)). unfold total_len in IH.
  destruct (validate_final_loop _ _ _ _ _) as [n|[]]; try (destruct IH; split; [done|lia]); try tauto.
  destruct IH as (-> & Hs & Hb). split; [lia|]. by apply Hc.
Qed.

Lemma validate_final_cases pages limits :
  match validate_final_pages pages limits with
  | Ok _ => pages_ok limits pages /\ 0 < total_len pages <= max_objects limits
  | Err InvalidPage => ~ pages_ok limits pages
  | Err (Limit label) => total_len pages = 0 \/ max_objects limits < total_len pages \/ U64_MAX < total_len pages
  | Err _ => False
  end.
Proof.
  unfold validate_final_pages.
  destruct ((len pages =? 0) || (max_pages limits <? len pages)) eqn:E; cbn [negb].
  { intros [Hne Hcount _ _]. apply orb_true_iff in E as [E|E]; bool_facts.
    - destruct pages; [done|]. rewrite len_cons in E. lia.
    - lia. }
  bool_facts. pose proof (validate_final_loop_cases limits (len pages) pages 0 None) as Hl.
  assert (Hiff : pages_ok limits pages <-> shaped limits (len pages) pages /\ below None (concat pages)).
  { split; [intros [? ? ? ?]; by split|]. intros [[? ?] _]. split; [|done|done|done].
    intros ->. by rewrite len_nil in *. }
  destruct (validate_final_loop limits (len pages) pages 0 None) as [n|[]]; try (by destruct Hl); try (right; right; lia).
  - destruct Hl as (-> & Hs). rewrite N.add_0_l.
    destruct ((total_len pages =? 0) || (max_objects limits <? total_len pages)) eqn:E'; cbn [negb].
    { apply orb_true_iff in E' as [E'|E']; bool_facts; [by left|by right; left]. }
    bool_facts. split; [by apply Hiff|lia].
  - by rewrite Hiff.
Qed.

(** ** Locations *)

Lemma insert_locations_cases index page locations :
  NoDup page -> (forall id, id ∈ page -> locations !! id = None) ->
  match fold_result (insert_location index) page locations with
  | Ok locations' => 0 ∉ page /\
      forall id i, locations' !! id = Some i <-> (id ∈ page /\ i = index) \/ locations !! id = Some i
  | Err e => e = InvalidPage /\ 0 ∈ page
  end.
Proof.
  revert locations. induction page as [|id page IH]; intros locations Hnd Hfresh; cbn [fold_result].
  { split; [set_solver|]. set_solver. }
  apply NoDup_cons in Hnd as [Hid Hnd]. unfold insert_location at 1.
  destruct (N.eqb_spec id 0) as [->|H0]; cbn [negb]; [split; [done|by left]|].
  rewrite (Hfresh id) by (by left). specialize (IH (<[id := index]> locations) Hnd).
  specialize (IH ltac:(intros j Hj; rewrite lookup_insert_ne by (intros ->; done); apply Hfresh; by right)).
  destruct (fold_result _ page _) as [locations'|e].
  - destruct IH as [Hz Hl]. split; [set_solver|]. intros j i. rewrite Hl, elem_of_cons.
    destruct (decide (j = id)) as [->|Hj].
    + rewrite lookup_insert_eq. pose proof (Hfresh id ltac:(by left)). naive_solver.
    + rewrite lookup_insert_ne by done. naive_solver.
  - destruct IH as [-> ?]. split; [done|by right].
Qed.

(** A table that locates the objects of [pages], numbered from [index]. *)
Definition locates (locations : Locations) (pages : list (list N)) : Prop :=
  forall id i, locations !! id = Some i <-> exists p, pages !! i = Some p /\ id ∈ p.

Lemma sorted_NoDup (l : list N) : StronglySorted N.lt l -> NoDup l.
Proof.
  induction 1 as [|x l Hs IH Hf]; constructor; [|done]. intros Hx.
  pose proof (proj1 (Forall_forall _ _) Hf x Hx). simpl in *. lia.
Qed.

Lemma locates_snoc locations locations' seen page :
  locates locations seen ->
  (forall id i, locations' !! id = Some i <-> (id ∈ page /\ i = length seen) \/ locations !! id = Some i) ->
  locates locations' (seen ++ [page]).
Proof.
  intros Hloc Hins id i. rewrite Hins, (Hloc id i). setoid_rewrite lookup_snoc_Some. split.
  - intros [[Hid ->]|(p & Hp & Hid)]; [by exists page; split; [right|]|].
    exists p. split; [left|done]. split; [by eapply lookup_lt_Some|done].
  - intros (p & [[_ Hp]|[-> ->]] & Hid); [right; by exists p|by left].
Qed.

(** All the objects seen are at most the previous maximum. *)
Definition seen_upto (previous : option N) (seen : list (list N)) : Prop :=
  forall id p, p ∈ seen -> id ∈ p -> exists m, previous = Some m /\ id <= m.

Lemma seen_upto_snoc previous seen page :
  seen_upto previous seen -> page <> [] -> StronglySorted N.lt page -> below previous page ->
  seen_upto (last page) (seen ++ [page]).
Proof.
  intros Hseen Hne Hs Hb id p Hp Hid. destruct page as [|l page _] using rev_ind; [done|].
  rewrite last_snoc. exists l. split; [done|]. apply sorted_app in Hs as (_ & _ & Hl).
  apply elem_of_app in Hp as [Hp|Hp%list_elem_of_singleton].
  - destruct (Hseen id p Hp Hid) as (m & -> & Hm). specialize (Hb m l eq_refl ltac:(set_solver)). lia.
  - subst p. apply elem_of_app in Hid as [Hid|Hid%list_elem_of_singleton]; [|lia].
    specialize (Hl id l Hid ltac:(set_solver)). lia.
Qed.

Lemma locates_fresh locations seen previous page id :
  locates locations seen -> seen_upto previous seen -> below previous page -> id ∈ page -> locations !! id = None.
Proof.
  intros Hloc Hseen Hb Hid. destruct (locations !! id) as [i|] eqn:El; [|done].
  apply Hloc in El as (p & Hp & Hidp). apply list_elem_of_lookup_2 in Hp.
  destruct (Hseen id p Hp Hidp) as (m & -> & Hle). specialize (Hb m id eq_refl Hid). lia.
Qed.

Lemma validate_input_loop_cases limits count seen pages locations total previous :
  locates locations seen -> seen_upto previous seen ->
  match validate_input_loop limits count (length seen) pages locations total previous with
  | Ok locations' => locates locations' (seen ++ pages) /\ shaped limits count pages /\
      below previous (concat pages) /\ 0 ∉ concat pages /\
      (total <= max_objects limits -> total + total_len pages <= max_objects limits)
  | Err InvalidPage => ~ (shaped limits count pages /\ below previous (concat pages) /\ 0 ∉ concat pages)
  | Err e => e = Limit "object count"%string /\
      (U64_MAX < total + total_len pages \/ max_objects limits < total + total_len pages)
  end.
Proof.
  revert seen locations total previous. induction pages as [|page pages IH]; intros seen locations total previous Hloc Hprev;
    cbn [validate_input_loop].
  { unfold total_len, shaped, below. rewrite app_nil_r. cbn [concat].
    split_and!; [done|constructor|constructor|set_solver|set_solver|rewrite len_nil; lia]. }
  pose proof (shaped_cons limits count page pages previous) as Hc.
  destruct (page_shape_ok count limits page) eqn:E1; [|intros (? & ? & _); naive_solver].
  destruct (starts_after previous page) eqn:E2; [|intros (? & ? & _); naive_solver].
  unfold checked_add, total_len. cbn [concat]. rewrite len_app.
  destruct (N.leb_spec (total + len page) U64_MAX) as [Hu|Hu]; cbn [ok_or]; [|split; [done|lia]].
  destruct (N.ltb_spec (max_objects limits) (total + len page)) as [Hm|Hm]; cbn [negb]; [split; [done|lia]|].
  pose proof (proj1 (page_shape_spec _ _ _) E1) as (Hne & _ & _ & Hsorted).
  pose proof (proj1 (starts_after_spec _ _ Hne Hsorted) E2) as Hbelow.
  pose proof (insert_locations_cases (length seen) page locations (sorted_NoDup _ Hsorted)
    (fun id => locates_fresh locations seen previous page id Hloc Hprev Hbelow)) as Hins.
  destruct (fold_result _ page locations) as [locations'|e].
  2:{ destruct Hins as [-> H0]. intros (_ & _ & Hz). set_solver. }
  destruct Hins as [Hz Hins]. specialize (IH (seen ++ [page]) locations' (total + len page) (last page)
    (locates_snoc _ _ _ _ Hloc Hins) (seen_upto_snoc _ _ _ Hprev Hne Hsorted Hbelow)).
  rewrite length_app, Nat.add_1_r, <- app_assoc in IH. cbn [app] in IH. unfold total_len in IH.
  destruct (validate_input_loop _ _ _ _ _ _ _) as [loc|[]]; try (destruct IH; split; [done|lia]).
  - destruct IH as (Hl & Hs & Hb & Hz' & Ht). destruct (proj2 Hc) as [Hs' Hb']; [by split_and!|].
    split_and!; [done|exact Hs'|exact Hb'| |].
    + rewrite elem_of_app. tauto.
    + intros _. specialize (Ht Hm). lia.
  - intros (Hs & Hb & Hz'). apply IH. destruct (proj1 Hc) as (_ & _ & ? & ?); [done|].
    rewrite elem_of_app in Hz'. tauto.
Qed.

(** Accepted input. *)
Definition input_ok (limits : MixedLeafPlanLimits) (pages : list (list N)) : Prop :=
  pages_ok limits pages /\ 0 ∉ concat pages.

Lemma validate_input_cases pages limits :
  match validate_input_pages pages limits with
  | Ok locations => limits_ok limits = true /\ input_ok limits pages /\ locates locations pages /\
      total_len pages <= max_objects limits
  | Err InvalidLimits => limits_ok limits = false
  | Err InvalidPage => limits_ok limits = true /\ ~ input_ok limits pages
  | Err (Limit label) => label = "object count"%string /\
      (U64_MAX < total_len pages \/ max_objects limits < total_len pages)
  | Err _ => False
  end.
Proof.
  unfold validate_input_pages. destruct (limits_ok limits) eqn:El; [|done].
  destruct ((len pages =? 0) || (max_pages limits <? len pages)) eqn:E; cbn [negb].
  { split; [done|]. intros [[Hne Hcount _ _] _]. apply orb_true_iff in E as [E|E]; bool_facts.
    - destruct pages; [done|]. rewrite len_cons in E. lia.
    - lia. }
  bool_facts. pose proof (validate_input_loop_cases limits (len pages) [] pages ∅ 0 None) as Hl.
  assert (Hempty : locates ∅ []) by (intros id i; rewrite lookup_empty; set_solver).
  assert (Hiff : input_ok limits pages <-> shaped limits (len pages) pages /\ below None (concat pages) /\ 0 ∉ concat pages).
  { split; [intros [[? ? ? ?] ?]; by split_and!|]. intros ([? ?] & _ & ?). split; [|done]. split; [|done|done|done].
    intros ->. by rewrite len_nil in *. }
  specialize (Hl Hempty ltac:(intros ?; set_solver)). cbn [length app] in Hl.
  destruct (validate_input_loop _ _ _ _ _ _ _) as [loc|[]]; try (by destruct Hl); try (by destruct Hl; split).
  - destruct Hl as (Hl & Hs & Hb & Hz & Ht). split_and!; [done|by apply Hiff|done|]. apply Ht. lia.
  - split; [done|]. by rewrite Hiff.
  - destruct Hl as [[= ->] Hl]. split; [done|lia].
Qed.

(** ** Routing *)

#[export] Instance MixedPlanOperation_eq_dec : EqDecision MixedPlanOperation.
Proof. solve_decision. Defined.
#[export] Instance MixedLeafPlanError_eq_dec : EqDecision MixedLeafPlanError.
Proof. solve_decision. Defined.

Definition inserts (locations : Locations) (o : MixedPlanOperation) : bool :=
  match o with Put id => bool_decide (locations !! id = None) | Delete _ => false end.
Definition replaces (locations : Locations) (o : MixedPlanOperation) : bool :=
  match o with Put id => bool_decide (is_Some (locations !! id)) | Delete _ => false end.
Definition deletes (o : MixedPlanOperation) : bool :=
  match o with Put _ => false | Delete _ => true end.
Definition count_if {A} (f : A -> bool) (l : list A) : N := len (List.filter f l).

Lemma count_if_cons {A} (f : A -> bool) x l : count_if f (x :: l) = (if f x then 1 else 0) + count_if f l.
Proof. unfold count_if. simpl. destruct (f x); [|done]. by rewrite len_cons. Qed.

Lemma count_if_ext {A} (f g : A -> bool) l : (forall x, x ∈ l -> f x = g x) -> count_if f l = count_if g l.
Proof.
  induction l as [|x l IH]; intros Hfg; [done|]. rewrite !count_if_cons, (Hfg x) by (by left).
  rewrite IH; [done|]. intros y Hy. apply Hfg. by right.
Qed.

Lemma count_if_Permutation {A} (f : A -> bool) l l' : l ≡ₚ l' -> count_if f l = count_if f l'.
Proof. induction 1; rewrite ?count_if_cons; lia. Qed.

Section Routing.
Context (locations : Locations) (maxima : list N) (page_count : nat).

Notation routed i := (fun o => route locations maxima page_count o = Ok i).

Record routed_by (operations : list MixedPlanOperation) (r r' : Routed) : Prop := {
  ro_nonzero : Forall (fun o => operation_id o <> 0 /\ exists i, routed i o) operations;
  ro_length : length (by_page r') = length (by_page r);
  ro_pages i b : by_page r !! i = Some b -> by_page r' !! i = Some (b ++ filter (routed i) operations);
  ro_insertions : rt_insertions r' = rt_insertions r + count_if (inserts locations) operations;
  ro_replacements : rt_replacements r' = rt_replacements r + count_if (replaces locations) operations;
  ro_deletions : rt_deletions r' = rt_deletions r + count_if deletes operations;
}.

Definition route_failed (operations : list MixedPlanOperation) (e : MixedLeafPlanError) : Prop :=
  (e = InvalidPage /\ exists o, o ∈ operations /\ operation_id o = 0) \/
  (exists id, e = MissingObject id /\ Delete id ∈ operations /\ locations !! id = None).

Lemma route_one o r :
  match route_operation locations maxima page_count r o with
  | Ok r' => operation_id o <> 0 /\ exists i, routed i o /\
      r' = mkRouted (alter (fun ops => ops ++ [o]) i (by_page r))
        (rt_insertions r + if inserts locations o then 1 else 0)
        (rt_replacements r + if replaces locations o then 1 else 0)
        (rt_deletions r + if deletes o then 1 else 0)
  | Err e => route_failed [o] e
  end.
Proof.
  unfold route_operation. destruct (N.eqb_spec (operation_id o) 0) as [Hz|Hz]; cbn [negb].
  { left. split; [done|]. exists o. split; [by left|done]. }
  destruct (route locations maxima page_count o) as [i|e] eqn:Er.
  - assert (Hadd : forall n, n + 0 = n) by (intros; lia). destruct o as [id|id]; cbn [inserts replaces deletes].
    + destruct (locations !! id) as [j|].
      * rewrite (bool_decide_true (is_Some _)), bool_decide_false, !Hadd by done. split; [done|]. by exists i.
      * rewrite (bool_decide_false (is_Some _)), bool_decide_true, !Hadd by (done || by intros []). split; [done|]. by exists i.
    + rewrite !Hadd. split; [done|]. by exists i.
  - unfold route in Er. destruct (locations !! operation_id o) eqn:El; [done|]. destruct o as [id|id]; [done|].
    injection Er as <-. right. exists id. split_and!; [done|by left|done].
Qed.

Lemma route_all operations r :
  match fold_result (route_operation locations maxima page_count) operations r with
  | Ok r' => routed_by operations r r'
  | Err e => route_failed operations e
  end.
Proof.
  revert r. induction operations as [|o operations IH]; intros r; cbn [fold_result].
  { split; [by apply Forall_nil|done| |unfold count_if; simpl; rewrite ?len_nil; lia..].
    intros i b Hb. by rewrite filter_nil, app_nil_r. }
  pose proof (route_one o r) as Ho. destruct (route_operation _ _ _ r o) as [r1|e].
  2:{ destruct Ho as [[-> (o' & Ho' & Hz)]|(id & -> & Hd & Hl)]; [left|right].
      - split; [done|]. exists o'. split; [set_solver|done].
      - exists id. split_and!; [done|set_solver|done]. }
  destruct Ho as (Hz & i & Hi & Hr1). specialize (IH r1). destruct (fold_result _ operations r1) as [r'|e].
  - destruct IH as [Hf Hlen Hpages Hins Hrep Hdel]. rewrite Hr1 in *. cbn [by_page rt_insertions rt_replacements rt_deletions] in *.
    split; rewrite ?count_if_cons; [constructor; [by split; [|exists i]|done]|by rewrite Hlen, length_alter| |lia..].
    intros j b Hb. rewrite filter_cons. destruct (decide (j = i)) as [->|Hj].
    + rewrite decide_True by done. rewrite cons_middle, app_assoc. apply Hpages. by rewrite list_lookup_alter_eq, Hb.
    + rewrite decide_False by congruence. apply Hpages. by rewrite list_lookup_alter_ne.
  - destruct IH as [[-> (o' & Ho' & Hz')]|(id & -> & Hd & Hl)]; [left|right].
    + split; [done|]. exists o'. split; [set_solver|done].
    + exists id. split_and!; [done|set_solver|done].
Qed.

(** A deletion goes to the page that holds the object. *)
Lemma route_delete id i : routed i (Delete id) <-> locations !! id = Some i.
Proof. unfold route. cbn [operation_id]. destruct (locations !! id); naive_solver. Qed.

Lemma first_at_most_lt id l i : first_at_most id l = Some i -> (i < length l)%nat.
Proof.
  revert i. induction l as [|m l IH]; intros i; cbn [first_at_most]; [done|].
  destruct (id <=? m); [intros [= <-]; simpl; lia|]. destruct (first_at_most id l) as [j|] eqn:E; simpl; [|done].
  intros [= <-]. specialize (IH j eq_refl). lia.
Qed.

Lemma route_lt o i pages :
  routed i o -> locates locations pages -> page_count = length pages -> (length maxima <= page_count)%nat ->
  (0 < page_count)%nat -> (i < page_count)%nat.
Proof.
  intros Hr Hloc Hc Hm Hpos. unfold route in Hr. destruct (locations !! operation_id o) as [j|] eqn:El.
  - injection Hr as <-. apply Hloc in El as (p & Hp & _). apply lookup_lt_Some in Hp. lia.
  - destruct o as [id|id]; [|done]. injection Hr as <-. destruct (first_at_most id maxima) as [j|] eqn:E; simpl; [|lia].
    apply first_at_most_lt in E. lia.
Qed.
End Routing.

(** ** Applying *)

(** An operation on objects not there before, and on objects there. *)
Definition adds (v : gset N) (o : MixedPlanOperation) : bool :=
  match o with Put id => bool_decide (id ∉ v) | Delete _ => false end.
Definition rewrites (v : gset N) (o : MixedPlanOperation) : bool :=
  match o with Put id => bool_decide (id ∈ v) | Delete _ => false end.

Lemma apply_operations operations a :
  NoDup (operation_id <$> operations) -> (forall id, Delete id ∈ operations -> id ∈ values a) ->
  exists a', fold_result apply_operation operations a = Ok a' /\
    (forall x, x ∈ values a' <-> (x ∈ values a /\ Delete x ∉ operations) \/ Put x ∈ operations) /\
    ap_insertions a' = ap_insertions a + count_if (adds (values a)) operations /\
    ap_replacements a' = ap_replacements a + count_if (rewrites (values a)) operations /\
    ap_deletions a' = ap_deletions a + count_if deletes operations.
Proof.
  revert a. induction operations as [|o operations IH]; intros a Hnd Hdel; cbn [fold_result].
  { exists a. split; [done|]. split; [set_solver|]. unfold count_if. cbn. rewrite len_nil. lia. }
  rewrite fmap_cons in Hnd. apply NoDup_cons in Hnd as [Hid Hnd].
  assert (Hother : forall o', o' ∈ operations -> operation_id o' <> operation_id o).
  { intros o' Ho' He. apply Hid. rewrite <- He. by apply list_elem_of_fmap_2. }
  assert (Hstep : exists a1, apply_operation a o = Ok a1 /\
    (forall x, x ∈ values a1 <-> (x ∈ values a /\ o <> Delete x) \/ o = Put x) /\
    ap_insertions a1 = ap_insertions a + (if adds (values a) o then 1 else 0) /\
    ap_replacements a1 = ap_replacements a + (if rewrites (values a) o then 1 else 0) /\
    ap_deletions a1 = ap_deletions a + (if deletes o then 1 else 0)).
  { unfold apply_operation. destruct o as [id|id]; cbn [adds rewrites deletes].
    - case_bool_decide as Hin; (eexists; split; [done|]); cbn [values ap_insertions ap_replacements ap_deletions];
        [rewrite (bool_decide_false (id ∉ _)) by tauto|rewrite bool_decide_true by done]; (split; [|lia]); intros x; [naive_solver|].
      rewrite elem_of_union, elem_of_singleton. naive_solver.
    - rewrite bool_decide_true by (apply Hdel; by left). eexists. split; [done|]. cbn [values ap_insertions ap_replacements ap_deletions]. split; [|lia].
      intros x. rewrite elem_of_difference, elem_of_singleton. naive_solver. }
  destruct Hstep as (a1 & -> & Ha1 & Hi1 & Hr1 & Hd1). destruct (IH a1) as (a' & -> & Ha' & Hi & Hr & Hdel'); [done| |].
  { intros id Hin. apply Ha1. left. split; [apply Hdel; by right|]. intros ->. by apply (Hother (Delete id) Hin). }
  assert (Hsame : forall o', o' ∈ operations -> operation_id o' ∈ values a1 <-> operation_id o' ∈ values a).
  { intros o' Ho'. specialize (Hother o' Ho'). rewrite Ha1. destruct o as [id|id]; cbn [operation_id] in *; split; [naive_solver..|].
    intros Hin. left. split; [done|]. congruence. }
  assert (Hcount : count_if (adds (values a1)) operations = count_if (adds (values a)) operations /\
    count_if (rewrites (values a1)) operations = count_if (rewrites (values a)) operations).
  { split; apply count_if_ext; intros [id|id] Ho'; cbn [adds rewrites]; try done; apply bool_decide_ext; by rewrite (Hsame _ Ho'). }
  destruct Hcount as [Ec1 Ec2]. exists a'. split; [done|]. rewrite !count_if_cons, Hi, Hr, Hdel', Hi1, Hr1, Hd1, Ec1, Ec2. split; [|lia].
  intros x. rewrite Ha', Ha1, !elem_of_cons. split.
  - intros [[[[Hx Ho]| ->] Hd]|Hp]; [left|right; by left|right; by right]. split; [done|].
    intros [He|He]; [by apply Ho|done].
  - intros [[Hx Hn]|[<-|Hp]]; [left|left|by right].
    + split; [left; split; [done|]|]; naive_solver.
    + split; [by right|]. intros Hd. by apply (Hother _ Hd).
Qed.

(** What the batch leaves of a page. *)
Definition updated (page : list N) (operations : list MixedPlanOperation) (l : list N) : Prop :=
  StronglySorted N.lt l /\ forall x, x ∈ l <-> (x ∈ page /\ Delete x ∉ operations) \/ Put x ∈ operations.

(** The report on a page: only a page with operations has one. *)
Definition apply_actions (index : nat) (page : list N) (operations : list MixedPlanOperation) : list MixedLeafRepairAction :=
  match operations with
  | [] => []
  | _ => [Apply index (count_if (adds (list_to_set page)) operations) (count_if (rewrites (list_to_set page)) operations) (count_if deletes operations)]
  end.

Fixpoint pages_actions (index : nat) (pages : list (list N)) (bp : list (list MixedPlanOperation)) : list MixedLeafRepairAction :=
  match pages, bp with
  | page :: pages, operations :: bp => apply_actions index page operations ++ pages_actions (S index) pages bp
  | _, _ => []
  end.

Lemma apply_pages_cases limits index pages bp s :
  length bp = length pages ->
  (forall i page ops, pages !! i = Some page -> bp !! i = Some ops ->
    NoDup (operation_id <$> ops) /\ forall id, Delete id ∈ ops -> id ∈ page) ->
  match apply_pages limits index pages bp s with
  | Ok s' => exists new, working s' = working s ++ new /\ length new = length pages /\
      (forall i page ops, pages !! i = Some page -> bp !! i = Some ops ->
        exists l, new !! i = Some (mkWorking l {[(index + i)%nat]}) /\ updated page ops l) /\
      (forall o, o ∈ touched s' <-> o ∈ touched s \/ exists i ops, o = (index + i)%nat /\ bp !! i = Some ops /\ ops <> []) /\
      done_actions s' = done_actions s ++ pages_actions index pages bp /\
      (len (done_actions s) <= max_actions limits -> len (done_actions s') <= max_actions limits)
  | Err e => e = Limit "action count"%string /\ max_actions limits < len (done_actions s ++ pages_actions index pages bp)
  end.
Proof.
  revert index bp s. induction pages as [|page pages IH]; intros index bp s Hlen Hok.
  { destruct bp; [|done]. cbn [pages_actions apply_pages]. exists []. rewrite !app_nil_r. split_and!; [done..| |done|done]. set_solver. }
  destruct bp as [|ops bp]; [done|]. cbn [apply_pages pages_actions].
  destruct (Hok 0%nat page ops eq_refl eq_refl) as [Hnd Hdel].
  destruct (apply_operations ops (mkApplied (list_to_set page) 0 0 0) Hnd) as (a & -> & Ha & Hci & Hcr & Hcd).
  { intros id Hid. cbn [values]. apply elem_of_list_to_set. by apply Hdel. }
  cbn [values ap_insertions ap_replacements ap_deletions] in Hci, Hcr, Hcd. rewrite N.add_0_l in Hci, Hcr, Hcd.
  assert (Hstep : match (match ops with
      | [] => Ok (touched s, done_actions s)
      | _ :: _ =>
          let* actions := checked_action (done_actions s)
            (Apply index (ap_insertions a) (ap_replacements a) (ap_deletions a)) limits in
          Ok ({[index]} ∪ touched s, actions)
      end) with
      | Ok (t, acts) => acts = done_actions s ++ apply_actions index page ops /\ (forall o, o ∈ t <-> o ∈ touched s \/ (o = index /\ ops <> [])) /\
          (len (done_actions s) <= max_actions limits -> len acts <= max_actions limits)
      | Err e => e = Limit "action count" /\ max_actions limits < len (done_actions s ++ apply_actions index page ops)
      end).
  { destruct ops as [|o ops]; [cbn [apply_actions]; rewrite app_nil_r; split_and!; [done|naive_solver|done]|].
    unfold checked_action, apply_actions. rewrite Hci, Hcr, Hcd. destruct (N.leb_spec (max_actions limits) (len (done_actions s))); cbn [negb]; autorewrite with len.
    - split; [done|lia].
    - split_and!; [done|set_solver|autorewrite with len; lia]. }
  destruct (match ops with [] => _ | _ :: _ => _ end) as [[t acts]|e].
  2: { destruct Hstep as [-> Hl]. split; [done|]. autorewrite with len in *. lia. }
  destruct Hstep as (-> & Ht & Hl).
  specialize (IH (S index) bp (mkPlanning (working s ++ [mkWorking (ascending (values a)) {[index]}]) t (done_actions s ++ apply_actions index page ops))).
  specialize (IH ltac:(simpl in Hlen; lia) (fun i => Hok (S i))). cbn [working touched done_actions] in IH. rewrite <- app_assoc in IH.
  destruct (apply_pages _ _ _ _ _) as [s'|e]; [|done]. destruct IH as (new & Hw & Hlen' & Hnew & Htouch & Hacts & Hmax).
  exists (mkWorking (ascending (values a)) {[index]} :: new). split_and!; [by rewrite Hw, <- app_assoc|simpl; by rewrite Hlen'| | |done|tauto].
  - intros [|i] page' ops' Hp Hb; [|rewrite Nat.add_succ_r; by apply Hnew].
    injection Hp as <-. injection Hb as <-. exists (ascending (values a)). rewrite Nat.add_0_r. split; [done|].
    split; [apply ascending_sorted|]. intros x. rewrite elem_of_ascending, Ha. cbn [values]. by rewrite elem_of_list_to_set.
  - intros o. rewrite Htouch, Ht. split.
    + intros [[Ho|[-> Hne]]|(i & ops' & -> & Hb & Hne)]; [by left|right; exists 0%nat, ops|right; exists (S i), ops'].
      * rewrite Nat.add_0_r. done.
      * by rewrite Nat.add_succ_r.
    + intros [Ho|([|i] & ops' & -> & Hb & Hne)]; [by left; left| |].
      * injection Hb as <-. left; right. by rewrite Nat.add_0_r.
      * right. exists i, ops'. by rewrite Nat.add_succ_r.
Qed.

(** ** Group sizes *)

Definition room (limits : MixedLeafPlanLimits) : Prop := 2 * minimum limits <= capacity limits + 1.

Definition within (limits : MixedLeafPlanLimits) (n : N) : Prop := minimum limits <= n <= capacity limits.

Lemma sum_sizes_app l1 l2 : sum_sizes (l1 ++ l2) = sum_sizes l1 + sum_sizes l2.
Proof. unfold sum_sizes. induction l1 as [|x l1 IH]; simpl; [done|]. rewrite IH. lia. Qed.

Lemma sum_sizes_replicate n c : sum_sizes (replicate (N.to_nat n) c) = n * c.
Proof.
  unfold sum_sizes. induction n as [|n IH] using N.peano_ind; [done|].
  rewrite N2Nat.inj_succ. cbn [replicate foldr]. rewrite IH. lia.
Qed.

Lemma len_replicate {A} n (x : A) : len (replicate (N.to_nat n) x) = n.
Proof. unfold len. rewrite length_replicate. lia. Qed.

Lemma forallb_within limits l :
  forallb (fun size => (minimum limits <=? size) && (size <=? capacity limits)) l = true <-> Forall (within limits) l.
Proof.
  rewrite forallb_forall, Forall_forall. setoid_rewrite andb_true_iff. setoid_rewrite N.leb_le.
  by setoid_rewrite list_elem_of_In.
Qed.

(** The groups of [total] items, [capacity] to a full one and [minimum] to the
    smallest: as few as possible, all full but the last two; the last holds
    what is left over, raised to the minimum by the one before it. *)
Definition canonical_sizes (capacity minimum total : N) : list N :=
  let groups := (total + (capacity - 1)) / capacity in
  if groups =? 1 then [total]
  else
    let rest := total - (groups - 2) * capacity in
    let smallest := N.max minimum (rest - capacity) in
    replicate (N.to_nat (groups - 2)) capacity ++ [rest - smallest; smallest].

Lemma replicate_snoc {A} n (x : A) l : replicate (N.to_nat (n + 1)) x ++ l = replicate (N.to_nat n) x ++ x :: l.
Proof. replace (N.to_nat (n + 1)) with (S (N.to_nat n)) by lia. by rewrite replicate_S_end, <- app_assoc. Qed.

(** With [q] full groups and [r] items more, [0 < r] or [1 < q]. *)
Lemma canonical_sizes_shape c m q r : 0 < m <= c -> r < c -> 1 <= q -> (r = 0 -> 1 < q) ->
  (c * q + r + (c - 1)) / c = (if r =? 0 then q else q + 1) /\
  canonical_sizes c m (c * q + r) =
    (if r =? 0 then replicate (N.to_nat q) c
     else if m <=? r then replicate (N.to_nat q) c ++ [r]
     else replicate (N.to_nat (q - 1)) c ++ [c - (m - r); m]) /\
  sum_sizes (canonical_sizes c m (c * q + r)) = c * q + r /\
  len (canonical_sizes c m (c * q + r)) = (if r =? 0 then q else q + 1).
Proof.
  intros Hm Hr Hq Hrq.
  assert (Hg : (c * q + r + (c - 1)) / c = if r =? 0 then q else q + 1).
  { destruct (N.eqb_spec r 0) as [E|E]; symmetry; [apply (N.div_unique _ _ _ (c - 1))|apply (N.div_unique _ _ _ (r - 1))]; lia. }
  split; [done|]. unfold canonical_sizes. rewrite Hg.
  destruct (N.eqb_spec r 0) as [->|E].
  - specialize (Hrq eq_refl). rewrite (proj2 (N.eqb_neq q 1)), N.add_0_r by lia.
    replace (c * q - (q - 2) * c) with (2 * c) by nia. rewrite N.max_r by lia. replace (2 * c - (2 * c - c)) with c by lia. replace (2 * c - c) with c by lia.
    rewrite sum_sizes_app, sum_sizes_replicate, len_app, len_replicate. split_and!; [|cbn; nia|unfold len; cbn; lia].
    replace (N.to_nat q) with (N.to_nat (q - 2 + 1 + 1)) by lia. rewrite <- (app_nil_r (replicate (N.to_nat (q - 2 + 1 + 1)) c)).
    by rewrite !replicate_snoc.
  - rewrite (proj2 (N.eqb_neq (q + 1) 1)) by lia. replace (q + 1 - 2) with (q - 1) by lia.
    replace (c * q + r - (q - 1) * c) with (c + r) by nia. replace (c + r - c) with r by lia.
    rewrite sum_sizes_app, sum_sizes_replicate, len_app, len_replicate. destruct (N.leb_spec m r).
    + rewrite N.max_r by lia. replace (c + r - r) with c by lia. split_and!; [|cbn; nia|unfold len; cbn; lia].
      replace (N.to_nat q) with (N.to_nat (q - 1 + 1)) by lia. by rewrite replicate_snoc.
    + rewrite N.max_l by lia. replace (c + r - m) with (c - (m - r)) by lia. split_and!; [done|cbn; nia|unfold len; cbn; lia].
Qed.

Lemma canonical_sizes_total c m total : 0 < m <= c -> c < total ->
  sum_sizes (canonical_sizes c m total) = total /\ len (canonical_sizes c m total) = (total + (c - 1)) / c.
Proof.
  intros Hm Ht. rewrite (N.div_mod total c) by lia. set (q := total / c). set (r := total mod c).
  assert (r < c) by (apply N.mod_lt; lia). assert (1 <= q) by (apply N.div_le_lower_bound; lia).
  assert (Hd : total = c * q + r) by (apply N.div_mod; lia).
  destruct (canonical_sizes_shape c m q r) as (H1 & _ & H3 & H4); [done..|intros ->; nia|]. by rewrite H1, H3, H4.
Qed.

(** Only when the minimum leaves no room can a canonical group be too small. *)
Lemma canonical_sizes_within limits total : 0 < minimum limits <= capacity limits -> capacity limits < total -> room limits ->
  Forall (within limits) (canonical_sizes (capacity limits) (minimum limits) total).
Proof.
  intros Hm Ht Hroom. unfold room in Hroom. set (c := capacity limits) in *. rewrite (N.div_mod total c) by lia. set (q := total / c). set (r := total mod c).
  assert (r < c) by (apply N.mod_lt; lia). assert (1 <= q) by (apply N.div_le_lower_bound; lia).
  assert (Hd : total = c * q + r) by (apply N.div_mod; lia).
  destruct (canonical_sizes_shape c (minimum limits) q r) as (_ & -> & _); [done..|intros ->; nia|].
  assert (Hfull : forall n, Forall (within limits) (replicate n c)) by (intros n; apply Forall_replicate; unfold within; fold c; lia).
  destruct (N.eqb_spec r 0); [done|]. destruct (N.leb_spec (minimum limits) r); apply Forall_app; (split; [done|]);
    repeat constructor; fold c; lia.
Qed.

Lemma group_sizes_exact total limits :
  0 < minimum limits <= capacity limits -> capacity limits < total ->
  let sizes := canonical_sizes (capacity limits) (minimum limits) total in
  match canonical_group_sizes total limits with
  | Ok s => s = sizes /\ Forall (within limits) sizes
  | Err (Limit label) => label = "page count"%string /\ (U64_MAX < total + (capacity limits - 1) \/ max_pages limits < len sizes)
  | Err InvalidPage => ~ Forall (within limits) sizes
  | Err _ => False
  end.
Proof.
  intros Hm Hcap. cbv zeta. destruct (canonical_sizes_total _ _ total Hm Hcap) as [Hsum Hlen]. unfold canonical_group_sizes.
  destruct (N.eqb_spec total 0); cbn [negb]; [lia|]. unfold checked_add.
  destruct (N.leb_spec (total + (capacity limits - 1)) U64_MAX); cbn [ok_or]; [|by split; [|left]].
  rewrite <- Hlen. set (c := capacity limits) in *.
  set (q := total / c). set (r := total mod c). assert (Hr : r < c) by (apply N.mod_lt; lia).
  assert (Hq : 1 <= q) by (apply N.div_le_lower_bound; lia). assert (Hd : total = c * q + r) by (apply N.div_mod; lia).
  destruct (canonical_sizes_shape c (minimum limits) q r) as (_ & Hshape & _ & Hn); [done..|intros ->; nia|]. rewrite <- Hd in Hshape, Hn.
  assert (Hone : (len (canonical_sizes c (minimum limits) total) =? 1) = false).
  { rewrite Hn. apply N.eqb_neq. destruct (N.eqb_spec r 0); [|lia]. intros ->. nia. }
  rewrite Hone.
  destruct (N.ltb_spec (max_pages limits) (len (canonical_sizes c (minimum limits) total))); cbn [negb]; [by split; [|right]|].
  assert (Hfin : match (check (len (canonical_sizes c (minimum limits) total) =? len (canonical_sizes c (minimum limits) total)) &&
       (sum_sizes (canonical_sizes c (minimum limits) total) =? total) &&
       forallb (fun size => (minimum limits <=? size) && (size <=? c)) (canonical_sizes c (minimum limits) total) else InvalidPage in
       Ok (canonical_sizes c (minimum limits) total)) with
    | Ok s => s = canonical_sizes c (minimum limits) total /\ Forall (within limits) (canonical_sizes c (minimum limits) total)
    | Err InvalidPage => ~ Forall (within limits) (canonical_sizes c (minimum limits) total)
    | Err _ => False
    end).
  { rewrite Hsum, !N.eqb_refl. cbn [andb]. destruct (forallb _ _) eqn:Ef; [split; [done|]; by apply forallb_within|].
    intros Hw. apply forallb_within in Hw. exact (eq_true_false_abs _ Hw Ef). }
  rewrite Hshape in Hfin |- *. destruct (N.eqb_spec r 0); [destruct (_ && _); exact Hfin|].
  destruct (N.leb_spec (minimum limits) r); [destruct (_ && _); exact Hfin|].
  unfold checked_sub. rewrite (proj2 (N.leb_le _ _) Hq). cbn [ok_or]. destruct (_ && _); exact Hfin.
Qed.

Lemma group_sizes_cases total limits :
  0 < minimum limits <= capacity limits -> capacity limits < total ->
  match canonical_group_sizes total limits with
  | Ok sizes => sum_sizes sizes = total /\ Forall (within limits) sizes
  | Err e => (exists label, e = Limit label) \/ e = InvalidPage /\ ~ room limits
  end.
Proof.
  intros Hm Hcap. pose proof (group_sizes_exact total limits Hm Hcap) as Hg. cbv zeta in Hg.
  destruct (canonical_group_sizes total limits) as [sizes|[]]; try done; [|right|left; by eexists].
  - destruct Hg as [-> Hw]. split; [by apply canonical_sizes_total|done].
  - split; [done|]. intros Hr. by apply Hg, canonical_sizes_within.
Qed.

Lemma cut_spec {A} sizes (l : list A) :
  sum_sizes sizes = len l -> concat (cut sizes l) = l /\ len <$> cut sizes l = sizes.
Proof.
  unfold sum_sizes. revert l. induction sizes as [|n sizes IH]; intros l Hl; cbn [cut foldr] in *.
  { destruct l; [done|]. rewrite len_cons in Hl. lia. }
  destruct (IH (drop (N.to_nat n) l)) as [Hc Hs]; [unfold len in *; rewrite length_drop; lia|].
  csimpl. rewrite Hc, take_drop, Hs. split; [done|]. f_equal. unfold len in *. rewrite length_take. lia.
Qed.

(** ** The state of the planner *)

Definition all_ids (w : list WorkingPage) : list N := concat (ids <$> w).

(** An original page that is not touched is in the working set as it was. *)
Definition keeps (pages : list (list N)) (s : Planning) : Prop :=
  forall o page, pages !! o = Some page -> o ∉ touched s -> mkWorking page {[o]} ∈ working s.

Definition fits (limits : MixedLeafPlanLimits) (w : WorkingPage) : Prop := len (ids w) <= capacity limits.

(** The turns the split loop still needs on a page. *)
Definition weight (limits : MixedLeafPlanLimits) (w : WorkingPage) : nat :=
  if len (ids w) <=? capacity limits then 1 else length (ids w).

Definition benign (limits : MixedLeafPlanLimits) (e : MixedLeafPlanError) : Prop :=
  (exists label, e = Limit label) \/ e = InvalidPage /\ ~ room limits.

Section Repairing.
Context (limits : MixedLeafPlanLimits) (pages : list (list N)).
Context (Hmin : 0 < minimum limits <= capacity limits).

(** ** Splitting *)

(** [w'] comes from a page of [w], or is a piece with enough objects. *)
Definition derived (w w' : list WorkingPage) : Prop :=
  forall x, x ∈ w' -> fits limits x /\ (x ∈ w \/ minimum limits <= len (ids x)).

Lemma split_pieces (l : list N) o sizes :
  sum_sizes sizes = len l -> Forall (within limits) sizes ->
  let pieces := (fun piece => mkWorking piece o) <$> cut sizes l in
  all_ids pieces = l /\ Forall (fun w => within limits (len (ids w))) pieces /\ length pieces = length sizes.
Proof.
  intros Hsum Hf pieces. destruct (cut_spec sizes l Hsum) as [Hc Hs]. unfold all_ids, pieces.
  rewrite <- list_fmap_compose. split_and!.
  - rewrite <- Hc at 2. f_equal. rewrite <- (list_fmap_id (cut sizes l)) at 2. by apply list_fmap_ext.
  - rewrite Forall_fmap. rewrite <- Hs, Forall_fmap in Hf. exact Hf.
  - rewrite length_fmap. rewrite <- Hs at 2. by rewrite length_fmap.
Qed.

Lemma sum_weight_fits (l : list WorkingPage) :
  Forall (fits limits) l -> sum_list (weight limits <$> l) = length l.
Proof.
  induction 1 as [|w l Hw _ IH]; [done|]. csimpl. rewrite IH. unfold weight, fits in *.
  by rewrite (proj2 (N.leb_le _ _) Hw).
Qed.

Lemma pieces_count (l : list WorkingPage) :
  Forall (fun w => within limits (len (ids w))) l -> (length l <= length (all_ids l))%nat.
Proof.
  induction 1 as [|w l Hw _ IH]; [done|]. unfold all_ids in *. csimpl. rewrite length_app.
  unfold within, len in Hw. lia.
Qed.

Lemma split_loop_cases fuel pre rest s :
  working s = pre ++ rest -> Forall (fits limits) pre -> (sum_list (weight limits <$> rest) < fuel)%nat ->
  keeps pages s ->
  match split_loop fuel limits (length pre) s with
  | Ok s' => all_ids (working s') = all_ids (working s) /\ keeps pages s' /\
      (exists rest', working s' = pre ++ rest' /\ derived rest rest') /\ touched s ⊆ touched s' /\
      (len (working s) <= max_pages limits -> len (working s') <= max_pages limits)
  | Err e => benign limits e
  end.
Proof.
  revert pre rest s. induction fuel as [|fuel IH]; intros pre rest s Hw Hpre Hfuel Hk; [lia|].
  cbn [split_loop]. rewrite Hw, lookup_app_r, Nat.sub_diag by lia. destruct rest as [|page rest]; cbn [lookup list_lookup].
  { split_and!; [by rewrite Hw|done|exists []; split; [done|intros x Hx; by apply elem_of_nil in Hx]|done|by rewrite Hw]. }
  csimpl in Hfuel. unfold weight at 1 in Hfuel. destruct (N.leb_spec (len (ids page)) (capacity limits)) as [Hle|Hgt].
  - specialize (IH (pre ++ [page]) rest s). rewrite <- app_assoc, length_app, Nat.add_1_r in IH. cbn [app] in IH.
    specialize (IH Hw). rewrite Forall_app in IH. specialize (IH ltac:(split; [done|by repeat constructor]) ltac:(lia) Hk).
    destruct (split_loop _ _ _ _) as [s'|]; [|done]. destruct IH as (Hids & Hk' & (rest' & Hw' & Hd) & Ht & Hcount).
    split_and!; [by rewrite Hids, Hw|done| |done|by rewrite <- Hw]. exists (page :: rest'). split; [by rewrite Hw', <- app_assoc|].
    intros x [->|Hx]%elem_of_cons; [split; [done|left; by left]|].
    destruct (Hd x Hx) as [? [?|?]]; split; [done|left; by right|done|by right].
  - pose proof (group_sizes_cases (len (ids page)) limits Hmin Hgt) as Hg.
    destruct (canonical_group_sizes _ _) as [sizes|e]; [|exact Hg]. destruct Hg as [Hsum Hwithin].
    unfold checked_action. destruct (max_actions limits <=? _); cbn [negb]; [left; by eexists|].
    destruct (split_pieces (ids page) (origins page) sizes Hsum Hwithin) as (Hall & Hpieces & Hcount).
    set (pieces := _ <$> cut sizes (ids page)) in *. clearbody pieces.
    rewrite take_app_length, drop_app_ge by lia.
    replace (S (length pre) - length pre)%nat with 1%nat by lia. cbn [drop].
    match goal with |- context [max_pages limits <? ?n] => destruct (N.ltb_spec (max_pages limits) n) as [Hmax|Hmax] end;
      cbn [negb]; [left; by eexists|].
    destruct pieces as [|p pieces]; [unfold all_ids in Hall; simpl in Hall; rewrite <- Hall in Hgt; unfold len in Hgt; simpl in Hgt; lia|].
    set (s1 := mkPlanning _ _ _). specialize (IH (pre ++ [p]) (pieces ++ rest) s1).
    rewrite length_app, Nat.add_1_r in IH. cbn [length] in IH.
    assert (Hw1 : working s1 = (pre ++ [p]) ++ pieces ++ rest) by (unfold s1; cbn [working]; by rewrite <- app_assoc).
    apply Forall_cons in Hpieces as [Hp Hpieces].
    assert (Hfp : Forall (fits limits) pieces) by (eapply Forall_impl; [exact Hpieces|]; by intros w [_ ?]).
    assert (Hf1 : Forall (fits limits) (pre ++ [p])) by (apply Forall_app; split; [done|constructor; [by destruct Hp|constructor]]).
    pose proof (pieces_count pieces Hpieces) as Hpc.
    assert (Hlen : (length (all_ids pieces) < length (ids page))%nat).
    { rewrite <- Hall. unfold all_ids. csimpl. rewrite length_app. unfold within, len in Hp. lia. }
    specialize (IH Hw1 Hf1 ltac:(rewrite fmap_app, sum_list_with_app, sum_weight_fits by done; lia)).
    assert (Hk1 : keeps pages s1).
    { intros o pg Ho Hto. unfold s1 in Hto |- *. cbn [working touched] in *.
      specialize (Hk o pg Ho ltac:(set_solver)). rewrite Hw in Hk.
      apply elem_of_app in Hk as [Hk|[Hk|Hk]%elem_of_cons]; [set_solver| |set_solver].
      subst page. cbn [origins] in Hto. set_solver. }
    specialize (IH Hk1). destruct (split_loop _ _ _ s1) as [s'|]; [|done].
    destruct IH as (Hids & Hk' & (rest' & Hw' & Hd) & Ht & Hcnt). split_and!.
    + rewrite Hids, Hw1. unfold all_ids in *. rewrite !fmap_app, !concat_app. csimpl. rewrite <- Hall. csimpl.
      by rewrite !app_nil_r, <- !app_assoc.
    + done.
    + exists (p :: rest'). split; [by rewrite Hw', <- app_assoc|].
      intros x [->|Hx]%elem_of_cons; [split; [by destruct Hp|right; by destruct Hp]|].
      destruct (Hd x Hx) as [? [[Hin|Hin]%elem_of_app|?]]; split; try done.
      * right. by apply (proj1 (Forall_forall _ _) Hpieces) in Hin as [? _].
      * left. by right.
      * by right.
    + unfold s1 in Ht. cbn [touched] in Ht. set_solver.
    + intros _. by apply Hcnt.
Qed.

(** *** What the splits do *)

Definition overfull (w : WorkingPage) : bool := capacity limits <? len (ids w).

Definition page_sizes (w : WorkingPage) : list N := canonical_sizes (capacity limits) (minimum limits) (len (ids w)).

(** A page that overflows becomes pages of the canonical sizes; each split is
    reported at the position the page has by then. *)
Definition split_page (w : WorkingPage) : list WorkingPage :=
  if overfull w then (fun piece => mkWorking piece (origins w)) <$> cut (page_sizes w) (ids w) else [w].

Fixpoint split_actions (position : nat) (ws : list WorkingPage) : list MixedLeafRepairAction :=
  match ws with
  | [] => []
  | w :: ws => (if overfull w then [Split position (page_sizes w)] else []) ++ split_actions (position + length (split_page w)) ws
  end.

Definition split_origins (ws : list WorkingPage) : gset nat := ⋃ (origins <$> filter overfull ws).

(** A page whose canonical pieces are not all large enough. *)
Definition unsplittable (w : WorkingPage) : Prop := overfull w = true /\ ~ Forall (within limits) (page_sizes w).

Lemma split_page_fits w : fits limits w -> overfull w = false /\ split_page w = [w].
Proof. unfold fits, split_page, overfull. intros Hw. by rewrite (proj2 (N.ltb_ge _ _) Hw). Qed.

Lemma split_page_some w : (1 <= length (split_page w))%nat.
Proof.
  unfold split_page, overfull. destruct (N.ltb_spec (capacity limits) (len (ids w))) as [Hc|]; [|simpl; lia].
  destruct (canonical_sizes_total _ _ _ Hmin Hc) as [Hs Hl]. rewrite length_fmap. pose proof (cut_spec _ (ids w) Hs) as [_ Hn].
  fold (page_sizes w) in *. apply (f_equal length) in Hn. rewrite length_fmap in Hn. rewrite Hn. unfold len in Hl.
  assert (1 <= (len (ids w) + (capacity limits - 1)) / capacity limits) by (apply N.div_le_lower_bound; lia). unfold len in *. lia.
Qed.

Lemma split_fits l rest position : Forall (fits limits) l ->
  concat (split_page <$> l ++ rest) = l ++ concat (split_page <$> rest) /\
  split_actions position (l ++ rest) = split_actions (position + length l) rest /\ split_origins (l ++ rest) = split_origins rest.
Proof.
  intros Hl. revert position. induction Hl as [|w l Hw _ IH]; intros position; cbn [app length]; [by rewrite Nat.add_0_r|].
  destruct (split_page_fits w Hw) as [Ho Hp]. destruct (IH (position + 1)%nat) as (H1 & H2 & H3). unfold split_origins in *.
  cbn [fmap list_fmap concat split_actions]. rewrite filter_cons, decide_False, Ho, Hp by (rewrite Ho; tauto). cbn [app length]. rewrite H1, H2, H3.
  split_and!; [done|f_equal; lia|done].
Qed.

Lemma split_grows ws : (length ws <= length (concat (split_page <$> ws)))%nat.
Proof. induction ws as [|w ws IH]; [done|]. csimpl. rewrite length_app. pose proof (split_page_some w). lia. Qed.

Lemma split_ids ws : all_ids (concat (split_page <$> ws)) = all_ids ws.
Proof.
  unfold all_ids. induction ws as [|w ws IH]; [done|]. csimpl. rewrite fmap_app, concat_app, IH. f_equal.
  unfold split_page, overfull. destruct (N.ltb_spec (capacity limits) (len (ids w))) as [Hc|]; [|by apply app_nil_r].
  destruct (canonical_sizes_total _ _ _ Hmin Hc) as [Hs _]. rewrite <- list_fmap_compose.
  rewrite <- (proj1 (cut_spec _ (ids w) Hs)) at 2. f_equal. fold (page_sizes w). rewrite <- (list_fmap_id (cut _ _)) at 2. by apply list_fmap_ext.
Qed.

Lemma split_loop_exact fuel pre rest s :
  working s = pre ++ rest -> (sum_list (weight limits <$> rest) < fuel)%nat ->
  match split_loop fuel limits (length pre) s with
  | Ok s' => s' = mkPlanning (pre ++ concat (split_page <$> rest)) (split_origins rest ∪ touched s)
                    (done_actions s ++ split_actions (length pre) rest) /\
      Forall (fun w => ~ unsplittable w) rest /\
      (len (done_actions s) <= max_actions limits -> len (done_actions s') <= max_actions limits) /\
      (len (working s) <= max_pages limits -> len (working s') <= max_pages limits)
  | Err InvalidPage => Exists unsplittable rest
  | Err (Limit label) =>
      label = "action count"%string /\ max_actions limits < len (done_actions s ++ split_actions (length pre) rest) \/
      label = "page count"%string /\ (max_pages limits < len (pre ++ concat (split_page <$> rest)) \/
        Exists (fun w => overfull w = true /\ U64_MAX < len (ids w) + (capacity limits - 1)) rest)
  | Err _ => False
  end.
Proof.
  revert pre rest s. induction fuel as [|fuel IH]; intros pre rest s Hw Hfuel; [lia|].
  cbn [split_loop]. rewrite Hw, lookup_app_r, Nat.sub_diag by lia. destruct rest as [|page rest]; cbn [lookup list_lookup].
  { rewrite app_nil_r in Hw. cbn [fmap list_fmap concat split_actions]. rewrite !app_nil_r, <- Hw.
    assert (E : split_origins [] ∪ touched s = touched s) by (unfold split_origins; cbn; set_solver).
    rewrite E. split_and!; [by destruct s|by apply Forall_nil|done|done]. }
  csimpl in Hfuel. unfold weight at 1 in Hfuel. destruct (N.leb_spec (len (ids page)) (capacity limits)) as [Hle|Hgt].
  - destruct (split_fits [page] rest (length pre)) as (E1 & E2 & E3); [by repeat constructor|]. cbn [app length] in E1, E2, E3.
    rewrite E1, E2, E3. specialize (IH (pre ++ [page]) rest s). rewrite <- app_assoc, length_app in IH. cbn [app length] in IH.
    rewrite <- app_assoc in IH. cbn [app] in IH. rewrite Nat.add_1_r in *. specialize (IH Hw ltac:(lia)).
    destruct (split_page_fits page Hle) as [Ho _].
    destruct (split_loop _ _ _ _) as [s'|[]]; try done.
    + destruct IH as (H1 & H2 & H3 & H4). rewrite <- Hw. split_and!; [done| |done|done]. constructor; [|done]. intros [Ho' _]. congruence.
    + by right.
    + destruct IH as [?|[? [?|?]]]; [by left|right; split; [done|by left]|right; split; [done|by right; right]].
  - assert (Ho : overfull page = true) by (unfold overfull; by apply N.ltb_lt).
    pose proof (group_sizes_exact (len (ids page)) limits Hmin Hgt) as Hg. cbv zeta in Hg. fold (page_sizes page) in Hg.
    assert (Hsplit : split_page page = (fun piece => mkWorking piece (origins page)) <$> cut (page_sizes page) (ids page)) by (unfold split_page; by rewrite Ho).
    assert (Hact : forall position, split_actions position (page :: rest) = Split position (page_sizes page) :: split_actions (position + length (split_page page)) rest)
      by (intros position; cbn [split_actions]; by rewrite Ho).
    assert (Hor : split_origins (page :: rest) = origins page ∪ split_origins rest).
    { unfold split_origins. rewrite filter_cons, decide_True by (by rewrite Ho). done. }
    rewrite Hact, Hor. cbn [fmap list_fmap concat].
    assert (Hsz : len (page_sizes page) = len (split_page page)).
    { rewrite Hsplit. destruct (canonical_sizes_total _ _ _ Hmin Hgt) as [Hs _]. pose proof (cut_spec _ (ids page) Hs) as [_ Hn].
      fold (page_sizes page) in Hn. rewrite <- Hn at 1. unfold len. by rewrite !length_fmap. }
    destruct (canonical_group_sizes _ _) as [sizes|[]]; try done.
    2: { by left. }
    2: { destruct Hg as [-> Hg]. right. split; [done|]. destruct Hg as [Hg|Hg]; [right; by left|left]. rewrite Hsz in Hg. autorewrite with len. lia. }
    destruct Hg as [-> Hwithin]. unfold checked_action.
    destruct (N.leb_spec (max_actions limits) (len (done_actions s))); cbn [negb]; [left; split; [done|]; autorewrite with len; lia|].
    rewrite <- Hsplit, take_app_length, drop_app_ge by lia. replace (S (length pre) - length pre)%nat with 1%nat by lia. cbn [drop]. rewrite drop_0.
    destruct (N.ltb_spec (max_pages limits) (len (pre ++ split_page page ++ rest))) as [Hmax|Hmax]; cbn [negb].
    { right. split; [done|left]. pose proof (split_grows rest). unfold len in *. rewrite !length_app in *. lia. }
    destruct (split_pieces (ids page) (origins page) (page_sizes page)) as (Hall & Hpieces & Hcount); [by apply canonical_sizes_total|done|].
    rewrite <- Hsplit in Hall, Hpieces, Hcount.
    pose proof (split_page_some page) as Hsome. remember (split_page page) as pieces eqn:Epieces. destruct pieces as [|p pieces]; [simpl in Hsome; lia|].
    set (s1 := mkPlanning _ _ _). specialize (IH (pre ++ [p]) (pieces ++ rest) s1).
    rewrite length_app, Nat.add_1_r in IH. cbn [length] in IH.
    assert (Hw1 : working s1 = (pre ++ [p]) ++ pieces ++ rest) by (unfold s1; cbn [working]; by rewrite <- app_assoc).
    apply Forall_cons in Hpieces as [Hp Hpieces].
    assert (Hfp : Forall (fits limits) pieces) by (eapply Forall_impl; [exact Hpieces|]; by intros w [_ ?]).
    pose proof (pieces_count pieces Hpieces) as Hpc.
    assert (Hlen : (length (all_ids pieces) < length (ids page))%nat).
    { rewrite <- Hall. unfold all_ids. csimpl. rewrite length_app. unfold within, len in Hp. lia. }
    specialize (IH Hw1 ltac:(rewrite fmap_app, sum_list_with_app, sum_weight_fits by done; lia)).
    destruct (split_fits pieces rest (S (length pre)) Hfp) as (E1 & E2 & E3). rewrite E1, E2, E3 in IH. cbn [s1 touched done_actions working] in IH.
    rewrite <- !app_assoc in IH. cbn [app length] in IH |- *. replace (length pre + S (length pieces))%nat with (S (length pre) + length pieces)%nat by lia.
    destruct (split_loop _ _ _ s1) as [s'|[]]; try done.
    + destruct IH as (H1 & H2 & H3 & H4). apply Forall_app in H2 as [_ H2]. split_and!.
      * rewrite H1. f_equal. set_solver.
      * constructor; [|done]. by intros [_ Hn].
      * intros _. apply H3. autorewrite with len. lia.
      * intros _. apply H4. exact Hmax.
    + apply Exists_app in IH as [IH|IH]; [|by right]. apply Exists_exists in IH as (w & Hin & [Hov _]).
      pose proof (proj1 (Forall_forall _ _) Hfp w Hin) as Hf. apply split_page_fits in Hf as [Hf _]. congruence.
    + destruct IH as [?|[? [?|IH]]]; [by left|right; split; [done|by left]|right; split; [done|right]].
      apply Exists_app in IH as [IH|IH]; [|by right]. apply Exists_exists in IH as (w & Hin & [Hov _]).
      pose proof (proj1 (Forall_forall _ _) Hfp w Hin) as Hf. apply split_page_fits in Hf as [Hf _]. congruence.
Qed.

(** ** Repairing *)

Definition near (w : WorkingPage) : Prop := minimum limits <= len (ids w) + 1 /\ fits limits w.
Definition enough (w : WorkingPage) : Prop := minimum limits <= len (ids w).

Lemma keeps_replace pre xs ys post s s' :
  keeps pages s -> working s = pre ++ xs ++ post -> working s' = pre ++ ys ++ post ->
  touched s ⊆ touched s' -> (forall x o, x ∈ xs -> o ∈ origins x -> o ∈ touched s') -> keeps pages s'.
Proof.
  intros Hk Hw Hw' Hsub Hx o page Ho Hto. specialize (Hk o page Ho ltac:(set_solver)). rewrite Hw in Hk. rewrite Hw'.
  apply elem_of_app in Hk as [Hk|[Hk|Hk]%elem_of_app]; [set_solver| |set_solver].
  exfalso. apply Hto, (Hx _ _ Hk). cbn [origins]. set_solver.
Qed.

Lemma insert_two {A} (pre post : list A) a b a' b' :
  <[S (length pre) := b']> (<[length pre := a']> (pre ++ a :: b :: post)) = pre ++ a' :: b' :: post.
Proof.
  rewrite insert_app_r_alt by lia. rewrite Nat.sub_diag. cbn [insert list_insert].
  rewrite insert_app_r_alt by lia. replace (S (length pre) - length pre)%nat with 1%nat by lia. done.
Qed.

Lemma insert_two' {A} (pre post : list A) a b a' b' :
  <[length pre := a']> (<[S (length pre) := b']> (pre ++ a :: b :: post)) = pre ++ a' :: b' :: post.
Proof. rewrite list_insert_insert_ne by lia. apply insert_two. Qed.

Lemma delete_second {A} (pre post : list A) a b m :
  <[length pre := m]> (delete (S (length pre)) (pre ++ a :: b :: post)) = pre ++ m :: post.
Proof.
  replace (S (length pre)) with (length (pre ++ [a])) by (rewrite length_app; simpl; lia).
  replace (pre ++ a :: b :: post) with ((pre ++ [a]) ++ b :: post) by (by rewrite <- app_assoc).
  rewrite delete_middle, <- app_assoc. cbn [app].
  rewrite insert_app_r_alt by lia. by rewrite Nat.sub_diag.
Qed.

Lemma lookup_two {A} (pre post : list A) a b :
  (pre ++ a :: b :: post) !! length pre = Some a /\ (pre ++ a :: b :: post) !! S (length pre) = Some b.
Proof.
  split; [by rewrite list_lookup_middle|]. rewrite lookup_app_r by lia.
  by replace (S (length pre) - length pre)%nat with 1%nat by lia.
Qed.

(** What a turn does to the working set. *)
Record turned (s : Planning) (position : nat) (s' : Planning) (pre' post' : list WorkingPage) : Prop := {
  tn_working : working s' = pre' ++ post';
  tn_ids : all_ids (working s') = all_ids (working s);
  tn_keeps : keeps pages s';
  tn_touched : touched s ⊆ touched s';
  tn_some : working s' <> [];
  tn_length : (length (working s') <= length (working s))%nat;
  tn_progress : (2 * length (working s') + position < 2 * length (working s) + length pre')%nat;
}.

Definition stuck (pre : list WorkingPage) (all : list WorkingPage) (e : MixedLeafPlanError) : Prop :=
  (exists label, e = Limit label) \/ e = InvalidPage /\ ~ (room limits /\ Forall near all /\ Forall enough pre).

Lemma borrow_left_cases pre l page post s :
  working s = pre ++ l :: page :: post -> keeps pages s -> minimum limits < len (ids l) -> ~ enough page ->
  match borrow_from_left limits (S (length pre)) page s with
  | Ok s' => exists l' page', turned s (S (length pre)) s' (pre ++ [l'; page']) post /\
      enough l' /\ (near l -> near l') /\ (near page -> near page' /\ enough page')
  | Err e => exists label, e = Limit label
  end.
Proof.
  intros Hw Hk Hl Hp. unfold borrow_from_left, enough in *. rewrite Hw.
  replace (S (length pre) - 1)%nat with (length pre) by lia. rewrite (proj1 (lookup_two _ _ _ _)). cbn [ok_or].
  destruct (ids l) as [|b body _] eqn:El using rev_ind; [unfold len in Hl; simpl in Hl; lia|].
  rewrite last_snoc. cbn [ok_or]. unfold checked_action. destruct (max_actions limits <=? _); cbn [negb]; [by eexists|].
  rewrite removelast_last, insert_two. rewrite len_app, len_cons, len_nil in Hl.
  set (l' := mkWorking body (origins l)). set (page' := mkWorking (b :: ids page) (origins page)).
  exists l', page'. split; [|unfold near, enough, fits, l', page'; cbn [ids]; rewrite El, !len_cons, !len_app, len_cons, len_nil; lia].
  set (s' := mkPlanning _ _ _).
  assert (Hw' : working s' = pre ++ [l'; page'] ++ post) by done.
  split.
  - by rewrite <- app_assoc.
  - rewrite Hw', Hw. unfold all_ids. rewrite !fmap_app, !concat_app. csimpl. rewrite El. rewrite ?app_nil_r, <- !app_assoc. csimpl. by rewrite <- ?app_assoc.
  - apply (keeps_replace pre [l; page] [l'; page'] post s); [done..| |].
    + unfold s', touch_both. cbn [touched]. set_solver.
    + intros x o Hx Ho. unfold s', touch_both. cbn [touched]. set_solver.
  - unfold s', touch_both. cbn [touched]. set_solver.
  - rewrite Hw'. by destruct pre.
  - rewrite Hw', Hw, !length_app. simpl. lia.
  - rewrite Hw', Hw, !length_app. simpl. lia.
Qed.

Lemma borrow_right_cases pre page r post s :
  working s = pre ++ page :: r :: post -> keeps pages s -> minimum limits < len (ids r) -> ~ enough page ->
  match borrow_from_right limits (length pre) page s with
  | Ok s' => exists page' r', turned s (length pre) s' (pre ++ [page']) (r' :: post) /\
      (near r -> near r') /\ (near page -> near page' /\ enough page')
  | Err e => exists label, e = Limit label
  end.
Proof.
  intros Hw Hk Hl Hp. unfold borrow_from_right, enough in *. rewrite Hw, (proj2 (lookup_two _ _ _ _)). cbn [ok_or].
  destruct (ids r) as [|b body] eqn:El; [unfold len in Hl; simpl in Hl; lia|].
  cbn [head ok_or tail]. unfold checked_action. destruct (max_actions limits <=? _); cbn [negb]; [by eexists|].
  rewrite insert_two'. rewrite len_cons in Hl.
  set (r' := mkWorking body (origins r)). set (page' := mkWorking (ids page ++ [b]) (origins page)).
  exists page', r'. split; [|unfold near, enough, fits, r', page'; cbn [ids]; rewrite El, !len_cons, !len_app, len_cons, len_nil; lia].
  set (s' := mkPlanning _ _ _).
  assert (Hw' : working s' = pre ++ [page'; r'] ++ post) by done.
  split.
  - by rewrite <- app_assoc.
  - rewrite Hw', Hw. unfold all_ids. rewrite !fmap_app, !concat_app. csimpl. rewrite El. by rewrite <- !app_assoc.
  - apply (keeps_replace pre [page; r] [page'; r'] post s); [done..| |].
    + unfold s', touch_both. cbn [touched]. set_solver.
    + intros x o Hx Ho. unfold s', touch_both. cbn [touched]. set_solver.
  - unfold s', touch_both. cbn [touched]. set_solver.
  - rewrite Hw'. by destruct pre.
  - rewrite Hw', Hw, !length_app. simpl. lia.
  - rewrite Hw', Hw, !length_app. simpl. lia.
Qed.

Lemma merge_cases pre l r post action s :
  working s = pre ++ l :: r :: post -> keeps pages s ->
  match merge_at limits (length pre) action s with
  | Ok s' => exists m, turned s (S (length pre)) s' pre (m :: post) /\
      len (ids m) = len (ids l) + len (ids r) /\ fits limits m
  | Err e => (exists label, e = Limit label) \/ e = InvalidPage /\ capacity limits < len (ids l) + len (ids r)
  end.
Proof.
  intros Hw Hk. unfold merge_at. rewrite Hw, (proj1 (lookup_two _ _ _ _)), (proj2 (lookup_two _ _ _ _)). cbn [ok_or].
  destruct (N.ltb_spec (capacity limits) (len (ids l) + len (ids r))) as [Hc|Hc]; cbn [negb]; [by right|].
  unfold checked_action. destruct (max_actions limits <=? _); cbn [negb]; [left; by eexists|].
  rewrite delete_second. set (m := mkWorking (ids l ++ ids r) (origins l ∪ origins r)).
  exists m. split; [|unfold fits, m; cbn [ids]; by rewrite len_app]. set (s' := mkPlanning _ _ _).
  assert (Hw' : working s' = pre ++ [m] ++ post) by done.
  split.
  - done.
  - rewrite Hw', Hw. unfold all_ids. rewrite !fmap_app, !concat_app. csimpl. by rewrite app_nil_r, <- !app_assoc.
  - apply (keeps_replace pre [l; r] [m] post s); [done..| |].
    + unfold s', touch_both. cbn [touched]. set_solver.
    + intros x o Hx Ho. unfold s', touch_both. cbn [touched]. set_solver.
  - unfold s', touch_both. cbn [touched]. set_solver.
  - rewrite Hw'. by destruct pre.
  - rewrite Hw', Hw, !length_app. simpl. lia.
  - rewrite Hw', Hw, !length_app. simpl. lia.
Qed.

Lemma can_lend_spec w i x : w !! i = Some x -> can_lend limits w i = (minimum limits <? len (ids x)).
Proof. unfold can_lend. by intros ->. Qed.

(** The pages that are good for the rest of the run. *)
Definition good (pre post : list WorkingPage) : Prop := Forall near (pre ++ post) /\ Forall enough pre.

Lemma repair_turn_cases pre page post s :
  working s = pre ++ page :: post -> pre ++ post <> [] -> ~ enough page -> keeps pages s ->
  match repair_turn limits (length pre) page s with
  | Ok (position, s') => exists pre' post', position = length pre' /\ turned s (length pre) s' pre' post' /\
      (room limits -> good pre (page :: post) -> good pre' post')
  | Err e => (exists label, e = Limit label) \/ e = InvalidPage /\ ~ (room limits /\ good pre (page :: post))
  end.
Proof.
  intros Hw Hne Hp Hk. unfold repair_turn. destruct pre as [|l pre _] using rev_ind.
  - cbn [app] in Hw, Hne. change (length []) with 0%nat in *. cbn [Nat.ltb Nat.leb andb].
    destruct post as [|r post]; [done|]. rewrite (can_lend_spec _ _ r) by (by rewrite Hw).
    destruct (N.ltb_spec (minimum limits) (len (ids r))) as [Hr|Hr].
    + pose proof (borrow_right_cases [] page r post s Hw Hk Hr Hp) as Hb.
      destruct (borrow_from_right _ _ _ _) as [s'|]; [|by left]. destruct Hb as (page' & r' & Ht & Hnr & Hnp).
      exists [page'], (r' :: post). split_and!; [done|done|]. unfold good. cbn [app]. rewrite !Forall_cons, ?Forall_nil. tauto.
    + pose proof (merge_cases [] page r post (MergeWithRight 0) s Hw Hk) as Hm. cbn [length] in Hm.
      destruct (merge_at _ _ _ _) as [s'|e].
      * destruct Hm as (m & [] & Hlen & Hfit). exists [], (m :: post). split_and!; [done| |].
        -- split; try done. lia.
        -- unfold good. cbn [app]. rewrite !Forall_cons. unfold near. intros _ (((? & ?) & (? & ?) & ?) & _). rewrite Hlen.
           split_and!; [lia|done|done|constructor].
      * destruct Hm as [?|[-> Hc]]; [by left|right]. split; [done|]. unfold good. cbn [app]. rewrite !Forall_cons.
        unfold room, enough in *. lia.
  - rewrite length_app, Nat.add_1_r. cbn [length]. rewrite <- app_assoc in Hw. cbn [app] in Hw.
    cbn [Nat.ltb Nat.leb]. rewrite Nat.leb_refl || idtac. replace (S (length pre) - 1)%nat with (length pre) by lia.
    rewrite (can_lend_spec _ _ l) by (rewrite Hw; apply lookup_two). cbn [andb].
    assert (Hgood : good (pre ++ [l]) (page :: post) <->
      (Forall near pre /\ near l /\ near page /\ Forall near post) /\ Forall enough pre /\ enough l).
    { unfold good. rewrite !Forall_app, !Forall_cons, ?Forall_nil. tauto. }
    destruct (N.ltb_spec (minimum limits) (len (ids l))) as [Hl|Hl].
    + pose proof (borrow_left_cases pre l page post s Hw Hk Hl Hp) as Hb.
      destruct (borrow_from_left _ _ _ _) as [s'|]; [|by left]. destruct Hb as (l' & page' & Ht & Hel & Hnl & Hnp).
      exists (pre ++ [l'; page']), post. split_and!; [rewrite length_app; simpl; lia|done|]. rewrite Hgood.
      unfold good. rewrite !Forall_app, !Forall_cons, ?Forall_nil. tauto.
    + assert (Hmerge : match (let* s' := merge_at limits (length pre) (MergeWithLeft (S (length pre))) s in Ok (length pre, s')) with
        | Ok (position, s') => exists pre' post', position = length pre' /\ turned s (S (length pre)) s' pre' post' /\
            (room limits -> good (pre ++ [l]) (page :: post) -> good pre' post')
        | Err e => (exists label, e = Limit label) \/ e = InvalidPage /\ ~ (room limits /\ good (pre ++ [l]) (page :: post))
        end).
      { pose proof (merge_cases pre l page post (MergeWithLeft (S (length pre))) s Hw Hk) as Hm.
        destruct (merge_at _ _ _ _) as [s'|e].
        - destruct Hm as (m & Ht & Hlen & Hfit). exists pre, (m :: post). split_and!; [done|done|]. rewrite Hgood.
          unfold good. rewrite !Forall_app, !Forall_cons. intros _ ((? & (? & ?) & ? & ?) & ? & ?).
          split_and!; [done| |done|done]. split; [rewrite Hlen; lia|done].
        - destruct Hm as [?|[-> Hc]]; [by left|right]. split; [done|]. rewrite Hgood. unfold room, enough in *. lia. }
      destruct post as [|r post].
      { unfold can_lend at 1. rewrite Hw, lookup_ge_None_2 by (rewrite length_app; simpl; lia). exact Hmerge. }
      assert (Hw2 : working s = (pre ++ [l]) ++ page :: r :: post) by (by rewrite <- app_assoc).
      rewrite (can_lend_spec _ (S (S (length pre))) r)
        by (rewrite Hw2; replace (S (S (length pre))) with (S (length (pre ++ [l]))) by (rewrite length_app; simpl; lia); apply lookup_two).
      destruct (N.ltb_spec (minimum limits) (len (ids r))) as [Hr|Hr]; [|exact Hmerge].
      pose proof (borrow_right_cases (pre ++ [l]) page r post s Hw2 Hk Hr Hp) as Hb.
      rewrite length_app, Nat.add_1_r in Hb. cbn [length] in Hb.
      destruct (borrow_from_right _ _ _ _) as [s'|]; [|by left]. destruct Hb as (page' & r' & Ht & Hnr & Hnp).
      exists ((pre ++ [l]) ++ [page']), (r' :: post). split_and!; [rewrite !length_app; simpl; lia|done|].
      rewrite Hgood. unfold good. rewrite !Forall_app, !Forall_cons, ?Forall_nil. tauto.
Qed.

(** The loop ends, with every page repaired unless it could not be. *)
Lemma repair_loop_cases fuel pre post s :
  working s = pre ++ post -> working s <> [] -> keeps pages s ->
  (2 * length (working s) < fuel + length pre)%nat ->
  match repair_loop fuel limits (length pre) s with
  | Ok s' => all_ids (working s') = all_ids (working s) /\ keeps pages s' /\ touched s ⊆ touched s' /\
      (length (working s') <= length (working s))%nat /\
      (room limits -> good pre post -> Forall (fits limits) (working s') /\
        ((1 < length (working s'))%nat -> Forall enough (working s')))
  | Err e => (exists label, e = Limit label) \/ e = InvalidPage /\ ~ (room limits /\ good pre post)
  end.
Proof.
  revert pre post s. induction fuel as [|fuel IH]; intros pre post s Hw Hne Hk Hfuel.
  { rewrite Hw, length_app in Hfuel. lia. }
  cbn [repair_loop]. destruct (Nat.ltb_spec 1 (length (working s))) as [Hlt|Hge].
  2:{ split_and!; [done|done|done|done|]. intros _ [Hn _]. rewrite <- Hw in Hn. split; [|lia].
      eapply Forall_impl; [exact Hn|]. by intros w [_ ?]. }
  rewrite Hw, lookup_app_r, Nat.sub_diag by lia. destruct post as [|page post]; cbn [lookup list_lookup].
  { split_and!; [by rewrite Hw|done|done|by rewrite Hw|]. rewrite app_nil_r in Hw. rewrite Hw. unfold good. rewrite app_nil_r.
    intros _ [Hn He]. split; [|done]. eapply Forall_impl; [exact Hn|]. by intros w [_ ?]. }
  rewrite <- Hw. destruct (N.leb_spec (minimum limits) (len (ids page))) as [Hle|Hlow].
  - specialize (IH (pre ++ [page]) post s). rewrite <- app_assoc, length_app, Nat.add_1_r in IH. cbn [app length] in IH.
    specialize (IH Hw Hne Hk ltac:(lia)).
    assert (Hgood : good pre (page :: post) -> good (pre ++ [page]) post).
    { unfold good. rewrite !Forall_app, !Forall_cons, ?Forall_nil. unfold enough. tauto. }
    destruct (repair_loop _ _ _ _) as [s'|e]; [|naive_solver].
    destruct IH as (? & ? & ? & ? & Hg). split_and!; [done|done|done|done|]. intros Hr Hgd. by apply Hg, Hgood.
  - assert (Hlow' : ~ enough page) by (unfold enough; lia).
    assert (Hrest : pre ++ post <> []) by (rewrite Hw in Hlt; rewrite length_app in Hlt; simpl in Hlt; intros E;
      apply app_nil in E as [-> ->]; simpl in Hlt; lia).
    pose proof (repair_turn_cases pre page post s Hw Hrest Hlow' Hk) as Ht.
    destruct (repair_turn _ _ _ _) as [[position s']|e]; [|exact Ht].
    destruct Ht as (pre' & post' & -> & [Hw' Hids Hk' Hsub Hsome Hshort Hprog] & Hgood).
    specialize (IH pre' post' s' Hw' Hsome Hk' ltac:(lia)).
    destruct (repair_loop _ _ _ _) as [s2|e].
    + destruct IH as (Hids2 & Hk2 & Hsub2 & Hlen2 & Hg). split_and!; [by rewrite Hids2|done|set_solver|lia|].
      intros Hr Hgd. by apply Hg; [|apply Hgood].
    + destruct IH as [?|[-> Hn]]; [by left|right]. split; [done|]. intros [Hr Hgd]. apply Hn. split; [done|by apply Hgood].
Qed.
(** *** The run of the repair *)

(** One step from a position: a page with enough objects is passed; any other
    borrows from the left neighbour if that can lend, else from the right one,
    and is passed too; or else is merged into the left neighbour, which is
    then looked at again, or, when it is the first, with the right one. *)
Definition cannot_lend (w : option WorkingPage) : Prop := forall x, w = Some x -> len (ids x) <= minimum limits.

Inductive repair_step : nat * Planning -> nat * Planning -> Prop :=
  | step_pass pre page post t a : pre ++ post <> [] -> enough page ->
      repair_step (length pre, mkPlanning (pre ++ page :: post) t a) (S (length pre), mkPlanning (pre ++ page :: post) t a)
  | step_borrow_left pre l x lo page post t a : ~ enough page -> minimum limits < len (l ++ [x]) ->
      repair_step (S (length pre), mkPlanning (pre ++ mkWorking (l ++ [x]) lo :: page :: post) t a)
        (S (S (length pre)),
         mkPlanning (pre ++ mkWorking l lo :: mkWorking (x :: ids page) (origins page) :: post)
           (lo ∪ origins page ∪ t) (a ++ [BorrowFromLeft (S (length pre))]))
  | step_borrow_right pre page x r ro post t a : ~ enough page -> cannot_lend (last pre) -> minimum limits < len (x :: r) ->
      repair_step (length pre, mkPlanning (pre ++ page :: mkWorking (x :: r) ro :: post) t a)
        (S (length pre),
         mkPlanning (pre ++ mkWorking (ids page ++ [x]) (origins page) :: mkWorking r ro :: post)
           (ro ∪ origins page ∪ t) (a ++ [BorrowFromRight (length pre)]))
  | step_merge_left pre l page post t a : ~ enough page -> cannot_lend (Some l) -> cannot_lend (head post) ->
      len (ids l) + len (ids page) <= capacity limits ->
      repair_step (S (length pre), mkPlanning (pre ++ l :: page :: post) t a)
        (length pre,
         mkPlanning (pre ++ mkWorking (ids l ++ ids page) (origins l ∪ origins page) :: post)
           (origins l ∪ origins page ∪ t) (a ++ [MergeWithLeft (S (length pre))]))
  | step_merge_right page r post t a : ~ enough page -> cannot_lend (Some r) -> len (ids page) + len (ids r) <= capacity limits ->
      repair_step (0%nat, mkPlanning (page :: r :: post) t a)
        (0%nat,
         mkPlanning (mkWorking (ids page ++ ids r) (origins page ∪ origins r) :: post)
           (origins page ∪ origins r ∪ t) (a ++ [MergeWithRight 0])).

(** A page that nobody can lend to and that has no room to be merged. *)
Inductive repair_stuck : nat * Planning -> Prop :=
  | stuck_left pre l page post t a : ~ enough page -> cannot_lend (Some l) -> cannot_lend (head post) ->
      capacity limits < len (ids l) + len (ids page) ->
      repair_stuck (S (length pre), mkPlanning (pre ++ l :: page :: post) t a)
  | stuck_right page r post t a : ~ enough page -> cannot_lend (Some r) -> capacity limits < len (ids page) + len (ids r) ->
      repair_stuck (0%nat, mkPlanning (page :: r :: post) t a).

Definition repair_done (st : nat * Planning) : Prop := (length (working st.2) <= 1)%nat \/ (length (working st.2) <= st.1)%nat.

Lemma repair_step_measure st st' : repair_step st st' ->
  (2 * length (working st'.2) + st.1 < 2 * length (working st.2) + st'.1)%nat /\
  (st'.1 <= length (working st'.2))%nat /\ working st'.2 <> [] /\ len (done_actions st'.2) <= len (done_actions st.2) + 1.
Proof.
  assert (Hne : forall (l1 l2 : list WorkingPage) x, l1 ++ x :: l2 <> []) by (by intros []).
  destruct 1; cbn [fst snd working done_actions]; rewrite ?length_app; autorewrite with len; cbn [length]; split_and!; try done; lia.
Qed.

Lemma repair_steps_ids st st' : rtc repair_step st st' -> all_ids (working st'.2) = all_ids (working st.2).
Proof.
  induction 1 as [|st st1 st2 Hs _ IH]; [done|]. rewrite IH. clear IH. unfold all_ids.
  destruct Hs; cbn [snd working]; rewrite ?fmap_app, ?concat_app; csimpl; rewrite <- ?app_assoc; csimpl; by rewrite <- ?app_assoc.
Qed.

Lemma cannot_lend_spec w i : can_lend limits w i = false <-> cannot_lend (w !! i).
Proof.
  unfold can_lend, cannot_lend. destruct (w !! i) as [x|]; [|by split]. rewrite N.ltb_ge. split; [by intros ? ? [= <-]|]. intros Hx. by apply Hx.
Qed.

Lemma repair_turn_exact pre page post s :
  working s = pre ++ page :: post -> pre ++ post <> [] -> ~ enough page ->
  match repair_turn limits (length pre) page s with
  | Ok st => repair_step (length pre, s) st /\ (len (done_actions s) <= max_actions limits -> len (done_actions st.2) <= max_actions limits)
  | Err InvalidPage => repair_stuck (length pre, s)
  | Err (Limit label) => label = "action count"%string /\
      exists st, repair_step (length pre, s) st /\ max_actions limits < len (done_actions st.2)
  | Err _ => False
  end.
Proof.
  intros Hw Hne Hp. destruct s as [w t a]. cbn [working] in Hw. subst w. unfold repair_turn. cbn [working].
  assert (Hact : forall action, match checked_action a action limits with
    | Ok actions => actions = a ++ [action] /\ len actions <= max_actions limits
    | Err e => e = Limit "action count" /\ max_actions limits < len (a ++ [action]) end).
  { intros action. unfold checked_action. destruct (N.leb_spec (max_actions limits) (len a)); cbn [negb]; autorewrite with len; split; (done || lia). }
  assert (Hright : cannot_lend (last pre) -> forall r post', post = r :: post' -> minimum limits < len (ids r) ->
    match borrow_from_right limits (length pre) page (mkPlanning (pre ++ page :: post) t a) with
    | Ok s' => repair_step (length pre, mkPlanning (pre ++ page :: post) t a) (S (length pre), s') /\ len (done_actions s') <= max_actions limits
    | Err e => e = Limit "action count" /\
        exists st, repair_step (length pre, mkPlanning (pre ++ page :: post) t a) st /\ max_actions limits < len (done_actions st.2)
    end).
  { intros Hlast [[|x r] ro] post' -> Hr; [unfold len in Hr; simpl in Hr; lia|]. unfold borrow_from_right. cbn [working done_actions touched].
    rewrite (proj2 (lookup_two _ _ _ _)). cbn [ok_or ids head tail origins].
    pose proof (step_borrow_right pre page x r ro post' t a Hp Hlast Hr) as Hs. specialize (Hact (BorrowFromRight (length pre))).
    destruct (checked_action _ _ _) as [actions|]; destruct Hact as [-> Hl]; [|split; [done|]; by eexists]. by rewrite insert_two'. }
  assert (Hmerge : forall pre' l r post' action, pre ++ page :: post = pre' ++ l :: r :: post' ->
    match merge_at limits (length pre') action (mkPlanning (pre ++ page :: post) t a) with
    | Ok s' => s' = mkPlanning (pre' ++ mkWorking (ids l ++ ids r) (origins l ∪ origins r) :: post') (origins l ∪ origins r ∪ t) (a ++ [action]) /\
        len (ids l) + len (ids r) <= capacity limits /\ len (done_actions s') <= max_actions limits
    | Err InvalidPage => capacity limits < len (ids l) + len (ids r)
    | Err e => e = Limit "action count" /\ len (ids l) + len (ids r) <= capacity limits /\ max_actions limits < len (a ++ [action])
    end).
  { intros pre' l r post' action ->. unfold merge_at. cbn [working done_actions touched].
    rewrite (proj1 (lookup_two _ _ _ _)), (proj2 (lookup_two _ _ _ _)). cbn [ok_or].
    destruct (N.ltb_spec (capacity limits) (len (ids l) + len (ids r))); cbn [negb]; [done|]. specialize (Hact action).
    destruct (checked_action _ _ _) as [actions|e]; destruct Hact as [-> Hl]; [|done]. by rewrite delete_second. }
  destruct pre as [|l pre _] using rev_ind.
  - cbn [app length] in *. cbn [Nat.ltb Nat.leb andb]. destruct post as [|r post]; [done|].
    rewrite (can_lend_spec _ _ r) by done. destruct (N.ltb_spec (minimum limits) (len (ids r))) as [Hr|Hr].
    + specialize (Hright ltac:(done) r post eq_refl Hr). destruct (borrow_from_right _ _ _ _) as [s'|e]; [|by destruct Hright as [-> ?]].
      destruct Hright. by split.
    + specialize (Hmerge [] page r post (MergeWithRight 0) eq_refl). cbn [length app] in Hmerge. assert (Hl : cannot_lend (Some r)) by (by intros x [= <-]).
      destruct (merge_at _ _ _ _) as [s'|[]]; try (by destruct Hmerge); [| |].
      * destruct Hmerge as (-> & Hf & Ha). split; [by apply step_merge_right|done].
      * by apply stuck_right.
      * destruct Hmerge as ([= ->] & Hf & Ha). split; [done|]. eexists. split; [by apply step_merge_right|done].
  - rewrite length_app, Nat.add_1_r in *. cbn [length] in *. cbn [Nat.ltb Nat.leb]. replace (S (length pre) - 1)%nat with (length pre) by lia.
    rewrite <- app_assoc in *. cbn [app] in *. rewrite (can_lend_spec _ _ l) by apply lookup_two. cbn [andb].
    destruct (N.ltb_spec (minimum limits) (len (ids l))) as [Hl|Hl].
    + unfold borrow_from_left. cbn [working done_actions touched]. replace (S (length pre) - 1)%nat with (length pre) by lia.
      rewrite (proj1 (lookup_two _ _ _ _)). cbn [ok_or]. destruct l as [li lo]. cbn [ids origins] in *.
      destruct li as [|x li _] using rev_ind; [unfold len in Hl; simpl in Hl; lia|]. rewrite last_snoc, removelast_last. cbn [ok_or].
      pose proof (step_borrow_left pre li x lo page post t a Hp Hl) as Hs. specialize (Hact (BorrowFromLeft (S (length pre)))).
      destruct (checked_action _ _ _) as [actions|]; destruct Hact as [-> Ha]; [|split; [done|]; by eexists]. rewrite insert_two. by split.
    + assert (Hlend : cannot_lend (Some l)) by (by intros x [= <-]). rewrite last_snoc in Hright. specialize (Hright Hlend).
      specialize (Hmerge pre l page post (MergeWithLeft (S (length pre))) eq_refl).
      assert (Hfinal : cannot_lend (head post) -> match (let* s := merge_at limits (length pre) (MergeWithLeft (S (length pre))) (mkPlanning (pre ++ l :: page :: post) t a) in Ok (length pre, s)) with
        | Ok st => repair_step (S (length pre), mkPlanning (pre ++ l :: page :: post) t a) st /\
            (len a <= max_actions limits -> len (done_actions st.2) <= max_actions limits)
        | Err InvalidPage => repair_stuck (S (length pre), mkPlanning (pre ++ l :: page :: post) t a)
        | Err (Limit label) => label = "action count"%string /\
            exists st, repair_step (S (length pre), mkPlanning (pre ++ l :: page :: post) t a) st /\ max_actions limits < len (done_actions st.2)
        | Err _ => False
        end).
      { intros Hh. destruct (merge_at _ _ _ _) as [s'|[]]; try (by destruct Hmerge).
        - destruct Hmerge as (-> & Hf & Ha). split; [by apply step_merge_left|done].
        - by apply stuck_left.
        - destruct Hmerge as ([= ->] & Hf & Ha). split; [done|]. eexists. split; [by apply step_merge_left|done]. }
      destruct (can_lend limits (pre ++ l :: page :: post) (S (S (length pre)))) eqn:Hcl.
      * destruct post as [|r post]; [unfold can_lend in Hcl; rewrite lookup_ge_None_2 in Hcl by (rewrite length_app; simpl; lia); done|].
        assert (Hlk : (pre ++ l :: page :: r :: post) !! S (S (length pre)) = Some r).
        { rewrite lookup_app_r by lia. by replace (S (S (length pre)) - length pre)%nat with 2%nat by lia. }
        rewrite (can_lend_spec _ _ r Hlk), N.ltb_lt in Hcl. specialize (Hright r post eq_refl Hcl).
        destruct (borrow_from_right _ _ _ _) as [s'|e]; [|by destruct Hright as [-> ?]]. destruct Hright. by split.
      * apply Hfinal. apply cannot_lend_spec in Hcl. rewrite lookup_app_r in Hcl by lia. replace (S (S (length pre)) - length pre)%nat with 2%nat in Hcl by lia.
        by destruct post.
Qed.

(** The run is one: a step leads to one state, and not from the end. *)
Lemma around {A} (pre pre' post post' : list A) x x' :
  pre ++ x :: post = pre' ++ x' :: post' -> length pre = length pre' -> pre = pre' /\ x = x' /\ post = post'.
Proof. intros E Hl. apply app_inj_1 in E as [-> E]; [|done]. by injection E. Qed.

Lemma around_two {A} (pre pre' post post' : list A) x y x' :
  pre ++ x :: y :: post = pre' ++ x' :: post' -> S (length pre) = length pre' -> pre' = pre ++ [x] /\ x' = y /\ post' = post.
Proof.
  intros E Hl. rewrite cons_middle, app_assoc in E. symmetry in E. apply around in E as (-> & -> & ->); [done|].
  rewrite length_app. simpl. lia.
Qed.

Ltac same_place :=
  repeat match goal with
  | E : _ ++ _ :: _ = _ ++ _ :: _ |- _ => apply around in E as (? & ? & ?); [|lia]
  | E : _ ++ _ :: _ :: _ = _ ++ _ :: _ |- _ => apply around_two in E as (? & ? & ?); [|lia]
  | E : _ ++ _ :: _ = _ ++ _ :: _ :: _ |- _ => symmetry in E; apply around_two in E as (? & ? & ?); [|lia]
  end.

Lemma cannot_lend_last l (x : WorkingPage) : cannot_lend (last (l ++ [x])) <-> len (ids x) <= minimum limits.
Proof. rewrite last_snoc. unfold cannot_lend. split; [intros H; by apply H|by intros ? ? [= <-]]. Qed.

Lemma cannot_lend_Some (x : WorkingPage) : cannot_lend (Some x) <-> len (ids x) <= minimum limits.
Proof. unfold cannot_lend. split; [intros H; by apply H|by intros ? ? [= <-]]. Qed.

Lemma repair_step_det st st1 st2 : repair_step st st1 -> repair_step st st2 -> st1 = st2.
Proof.
  intros H1 H2. destruct H1; inversion H2; clear H2; subst; same_place; simplify_list_eq; cbn [head last ids length] in *;
    rewrite ?cannot_lend_last, ?cannot_lend_Some in *; cbn [ids] in *; try done; try lia.
  all: destruct pre; cbn [length] in *; try lia; simplify_list_eq; cbn [ids] in *; (done || lia).
Qed.

Lemma repair_step_not_end st st' : repair_step st st' -> ~ repair_done st /\ ~ repair_stuck st.
Proof.
  intros H1. split.
  - unfold repair_done. destruct H1; cbn [fst snd working]; rewrite ?length_app; cbn [length]; try lia.
    intros [Hl|Hl]; [|lia]. apply H. destruct pre, post; cbn [length] in Hl; (done || lia).
  - intros H2. destruct H1; inversion H2; clear H2; subst; same_place; simplify_list_eq; cbn [head last ids length] in *;
      rewrite ?cannot_lend_last, ?cannot_lend_Some in *; cbn [ids] in *; try done; try lia.
    all: destruct pre; cbn [length] in *; try lia; simplify_list_eq; cbn [ids] in *; (done || lia).
Qed.

(** The loop returns what its run ends with, and the run ends. *)
Definition repair_run (st : nat * Planning) (r : result MixedLeafPlanError Planning) : Prop :=
  match r with
  | Ok s => exists position, rtc repair_step st (position, s) /\ repair_done (position, s) /\
      (len (done_actions st.2) <= max_actions limits -> len (done_actions s) <= max_actions limits)
  | Err InvalidPage => exists st', rtc repair_step st st' /\ repair_stuck st'
  | Err (Limit label) => label = "action count"%string /\
      exists st' st'', rtc repair_step st st' /\ repair_step st' st'' /\ max_actions limits < len (done_actions st''.2)
  | Err _ => False
  end.

Lemma repair_run_step st st' r : repair_step st st' ->
  (len (done_actions st.2) <= max_actions limits -> len (done_actions st'.2) <= max_actions limits) ->
  repair_run st' r -> repair_run st r.
Proof.
  intros Hs Ha Hr. destruct r as [s|[]]; cbn [repair_run] in *; try done.
  - destruct Hr as (position & Hr & Hd & Hl). exists position. split_and!; [by eapply rtc_l|done|]. intros ?. by apply Hl, Ha.
  - destruct Hr as (st2 & Hr & Hk). exists st2. split; [by eapply rtc_l|done].
  - destruct Hr as (-> & st2 & st3 & Hr & Hk). split; [done|]. exists st2, st3. split; [by eapply rtc_l|done].
Qed.

Lemma repair_loop_exact fuel position s : (position <= length (working s))%nat -> working s <> [] ->
  (2 * length (working s) < fuel + position)%nat -> repair_run (position, s) (repair_loop fuel limits position s).
Proof.
  revert position s. induction fuel as [|fuel IH]; intros position s Hpos Hne Hfuel; [lia|]. cbn [repair_loop].
  destruct (Nat.ltb_spec 1 (length (working s))) as [Hlt|Hge]; [|exists position; split_and!; [constructor|by left|done]].
  destruct (working s !! position) as [page|] eqn:E.
  2: { apply lookup_ge_None_1 in E. exists position. split_and!; [constructor|by right|done]. }
  assert (Hsplit : exists pre post, working s = pre ++ page :: post /\ length pre = position).
  { exists (take position (working s)), (drop (S position) (working s)). split; [by rewrite take_drop_middle|]. apply lookup_lt_Some in E.
    rewrite length_take. lia. }
  destruct Hsplit as (pre & post & Hw & <-).
  assert (Hrest : pre ++ post <> []) by (intros En; apply app_nil in En as [-> ->]; rewrite Hw in Hlt; simpl in Hlt; lia).
  destruct (N.leb_spec (minimum limits) (len (ids page))) as [Hle|Hlow].
  - assert (Hs : repair_step (length pre, s) (S (length pre), s)) by (destruct s as [w t a]; cbn [working] in Hw; subst w; by apply step_pass).
    apply (repair_run_step _ _ _ Hs); [done|]. apply lookup_lt_Some in E. apply IH; [lia|done|lia].
  - assert (Hlow' : ~ enough page) by (unfold enough; lia).
    pose proof (repair_turn_exact pre page post s Hw Hrest Hlow') as Ht. destruct (repair_turn _ _ _ _) as [[position s']|[]]; try done.
    + destruct Ht as [Hs Ha]. destruct (repair_step_measure _ _ Hs) as (H1 & H2 & H3 & _). cbn [fst snd] in *.
      apply (repair_run_step _ _ _ Hs Ha). apply IH; [done|done|lia].
    + exists (length pre, s). split; [constructor|done].
    + destruct Ht as (-> & st & Hs & Ha). split; [done|]. exists (length pre, s), st. split; [constructor|done].
Qed.
(** A run that gets to its end is what the loop returns. *)
Lemma repair_actions_grow st st' : rtc repair_step st st' -> len (done_actions st.2) <= len (done_actions st'.2).
Proof.
  induction 1 as [|st st1 st2 Hs _ IH]; [done|]. etrans; [|exact IH]. destruct Hs; cbn [snd done_actions]; autorewrite with len; lia.
Qed.

Lemma repair_run_end st e r : rtc repair_step st e -> repair_done e -> len (done_actions e.2) <= max_actions limits -> repair_run st r -> r = Ok e.2.
Proof.
  intros Hr Hd Ha. revert r. induction Hr as [e|st st1 e Hs Hr IH]; intros r Hrun.
  - assert (Hend : forall st', ~ repair_step e st') by (intros st' Hs; by apply repair_step_not_end in Hs as [? _]).
    destruct r as [s|[]]; cbn [repair_run] in Hrun; try done.
    + destruct Hrun as (position & Hr & _). inversion Hr; subst; [done|]. by edestruct Hend.
    + destruct Hrun as (st' & Hr & Hk). exfalso. inversion Hr; subst; [|by edestruct Hend]. destruct Hk, Hd as [Hd|Hd]; cbn [fst snd working] in Hd;
        rewrite ?length_app in Hd; cbn [length] in Hd; lia.
    + destruct Hrun as (_ & st' & st'' & Hr & Hs & _). exfalso. inversion Hr; subst; by edestruct Hend.
  - apply (IH Hd Ha). destruct (repair_step_not_end _ _ Hs) as [Hnd Hns].
    assert (Hnext : forall st', rtc repair_step st st' -> st' = st \/ rtc repair_step st1 st').
    { intros st' Hr'. inversion Hr' as [|? y ? Hy Hr2]; subst; [by left|right]. by rewrite (repair_step_det _ _ _ Hs Hy). }
    pose proof (repair_actions_grow _ _ Hr) as Hg.
    destruct r as [s|[]]; cbn [repair_run] in *; try done.
    + destruct Hrun as (position & Hr' & Hd' & _). destruct (Hnext _ Hr') as [<-|H]; [done|]. exists position. split_and!; [done|done|].
      intros _. assert (E : (position, s) = e); [|by rewrite <- E in Ha].
      clear -Hmin H Hr Hd Hd'. remember (position, s) as st2 eqn:E2. clear E2. induction H as [x|x y z Hxy Hyz IH2]; inversion Hr as [|? y' ? Hxy' Hr']; subst; [done|by apply repair_step_not_end in Hxy' as [? _]|
        by apply repair_step_not_end in Hxy as [? _]|]. rewrite (repair_step_det _ _ _ Hxy' Hxy) in Hr'. by apply IH2.
    + destruct Hrun as (st' & Hr' & Hk). exists st'. split; [|done]. by destruct (Hnext _ Hr') as [->|].
    + destruct Hrun as (-> & st' & st'' & Hr' & Hs' & Hm). split; [done|]. destruct (Hnext _ Hr') as [->|]; [|by exists st', st''].
      exfalso. rewrite (repair_step_det _ _ _ Hs Hs') in Hg. lia.
Qed.
End Repairing.
