(* ===== verification/MixedUpdatePlan.v ===== *)
(** The leaf planner as a whole: what [plan_mixed_leaf_updates] guarantees. *)

From Stdlib Require Import Strings.Byte Strings.String NArith ZArith Lia.
From stdpp Require Import base list gmap strings sorting.
From S2P Require Import Prelude Order Errors MixedUpdate MixedUpdateFacts.

Local Open Scope N_scope.

(** ** The batch *)

(** The objects after the batch. *)
Definition after (pages : list (list N)) (operations : list MixedPlanOperation) (x : N) : Prop :=
  (x ∈ concat pages /\ Delete x ∉ operations) \/ Put x ∈ operations.

Record batch_ok (pages : list (list N)) (operations : list MixedPlanOperation) : Prop := {
  bo_some : operations <> [];
  bo_distinct : NoDup (operation_id <$> operations);
  bo_nonzero : forall o, o ∈ operations -> operation_id o <> 0;
  bo_known : forall id, Delete id ∈ operations -> id ∈ concat pages;
}.

Definition put_new (pages : list (list N)) (o : MixedPlanOperation) : bool :=
  match o with Put id => bool_decide (id ∉ concat pages) | Delete _ => false end.
Definition put_old (pages : list (list N)) (o : MixedPlanOperation) : bool :=
  match o with Put id => bool_decide (id ∈ concat pages) | Delete _ => false end.

(** The plan of an accepted batch. *)
Record planned (pages : list (list N)) (operations : list MixedPlanOperation) (limits : MixedLeafPlanLimits)
    (p : MixedLeafPlan) : Prop := {
  pn_objects x : x ∈ concat (final_pages p) <-> after pages operations x;
  pn_pages : pages_ok limits (final_pages p);
  pn_total : 0 < total_len (final_pages p) <= max_objects limits;
  pn_untouched o page : pages !! o = Some page -> o ∉ touched_original_pages p -> page ∈ final_pages p;
  pn_insertions : insertions p = count_if (put_new pages) operations;
  pn_replacements : replacements p = count_if (put_old pages) operations;
  pn_deletions : deletions p = count_if MixedUpdateFacts.deletes operations;
  pn_balance : total_len (final_pages p) + deletions p = total_len pages + insertions p;
}.

(** No page is left more than one object below the minimum. *)
Definition gentle (pages : list (list N)) (operations : list MixedPlanOperation) (limits : MixedLeafPlanLimits) : Prop :=
  forall page, page ∈ pages -> minimum limits <= len (filter (fun x => Delete x ∉ operations) page) + 1.

(** *** The run *)

(** The page an object belongs to: the first one not wholly below it, or the
    last page. *)
Definition home (pages : list (list N)) (x : N) : nat :=
  length (filter (fun page => Forall (fun y => y < x) page) (removelast pages)).

Definition operations_for (pages : list (list N)) (operations : list MixedPlanOperation) (i : nat) : list MixedPlanOperation :=
  filter (fun o => home pages (operation_id o) = i) operations.

(** The report on the batch itself, page by page. *)
Definition batch_actions (pages : list (list N)) (operations : list MixedPlanOperation) : list MixedLeafRepairAction :=
  pages_actions 0 pages (operations_for pages operations <$> seq 0 (length pages)).

(** The working set the splits start from: every page with its operations
    applied, the pages that have some touched and reported. *)
Record batch_applied (pages : list (list N)) (operations : list MixedPlanOperation) (s : Planning) : Prop := {
  ba_length : length (working s) = length pages;
  ba_page i page : pages !! i = Some page ->
    exists l, working s !! i = Some (mkWorking l {[i]}) /\ updated page (operations_for pages operations i) l;
  ba_touched o : o ∈ touched s <-> operations_for pages operations o <> [];
  ba_actions : done_actions s = batch_actions pages operations;
}.

(** The working set after all the splits. *)
Definition split_all (limits : MixedLeafPlanLimits) (s : Planning) : Planning :=
  mkPlanning (concat (split_page limits <$> working s)) (split_origins limits (working s) ∪ touched s)
    (done_actions s ++ split_actions limits 0 (working s)).

(** What splitting, then repairing, then checking makes of a working set. *)
Definition repaired_by (limits : MixedLeafPlanLimits) (s : Planning) (r : result MixedLeafPlanError Planning) : Prop :=
  let run st := rtc (repair_step limits) (0%nat, split_all limits s) st in
  match r with
  | Ok s' => Forall (fun w => ~ unsplittable limits w) (working s) /\ len (working (split_all limits s)) <= max_pages limits /\
      (exists position, run (position, s') /\ repair_done (position, s')) /\ len (done_actions s') <= max_actions limits
  | Err InvalidPage => Exists (unsplittable limits) (working s) \/
      exists st, run st /\ (repair_stuck limits st \/ repair_done st /\ ~ pages_ok limits (ids <$> working st.2))
  | Err (Limit label) =>
      label = "action count"%string /\ (max_actions limits < len (done_actions (split_all limits s)) \/
        exists st st', run st /\ repair_step limits st st' /\ max_actions limits < len (done_actions st'.2)) \/
      label = "page count"%string /\ (max_pages limits < len (working (split_all limits s)) \/
        Exists (fun w => overfull limits w = true /\ U64_MAX < len (ids w) + (capacity limits - 1)) (working s))
  | Err _ => False
  end.

(** The plan is read off the end of the run. *)
Definition planned_by (pages : list (list N)) (operations : list MixedPlanOperation) (limits : MixedLeafPlanLimits)
    (p : MixedLeafPlan) : Prop :=
  exists s s', batch_applied pages operations s /\ repaired_by limits s (Ok s') /\ final_pages p = ids <$> working s' /\
    touched_original_pages p = ascending_pages (touched s') /\ actions p = done_actions s'.

Definition refused (pages : list (list N)) (operations : list MixedPlanOperation) (limits : MixedLeafPlanLimits)
    (e : MixedLeafPlanError) : Prop :=
  match e with
  | InvalidLimits => limits_ok limits = false
  | InvalidPage => ~ input_ok limits pages \/ operations = [] \/ (exists o, o ∈ operations /\ operation_id o = 0) \/
      ~ (room limits /\ gentle pages operations limits) /\
      exists s, batch_applied pages operations s /\ repaired_by limits s (Err InvalidPage)
  | DuplicateObject _ => False
  | DuplicateOperation i => exists l1 o l2 o' l3, operations ≡ₚ l1 ++ o :: l2 ++ o' :: l3 /\
      operation_id o = i /\ operation_id o' = i
  | MissingObject i => Delete i ∈ operations /\ i ∉ concat pages
  | EmptyResult => forall x, ~ after pages operations x
  | Limit label =>
      label = "operation count"%string /\ max_objects limits < len operations \/
      label = "object count"%string /\ (max_objects limits < total_len pages \/
        max_objects limits < total_len pages + count_if (put_new pages) operations - count_if MixedUpdateFacts.deletes operations) \/
      label = "action count"%string /\ max_actions limits < len (batch_actions pages operations) \/
      exists s, batch_applied pages operations s /\ repaired_by limits s (Err (Limit label))
  end.

(** ** Ordered operations *)

Lemma ordered_distinct l :
  Sorted (cmp_le (cmp_on operation_id N.compare)) l ->
  match check_windows same_operation l with
  | Ok _ => NoDup (operation_id <$> l)
  | Err e => exists i, e = DuplicateOperation i /\ exists l1 o l2 o' l3, l = l1 ++ o :: l2 ++ o' :: l3 /\
      operation_id o = i /\ operation_id o' = i
  end.
Proof.
  intros Hs. destruct (check_windows same_operation l) as [[]|e] eqn:E.
  - apply check_windows_Ok in E. assert (Hl : StronglySorted N.lt (operation_id <$> l)).
    { apply Sorted_StronglySorted; [intros x y z; lia|].
      induction l as [|x l IH]; [constructor|]. inversion Hs as [|? ? Hs' Hh]; inversion E as [|? ? E' Hh']; subst.
      rewrite fmap_cons. constructor; [by apply IH|]. destruct Hh; [constructor|]. inversion Hh' as [|? ? Hd]; subst.
      rewrite fmap_cons. constructor. unfold cmp_le, cmp_on in *. unfold same_operation in Hd.
      destruct (N.eqb_spec (operation_id x) (operation_id b)); [done|].
      destruct (N.compare_spec (operation_id x) (operation_id b)); [done|done|done]. }
    by apply sorted_NoDup.
  - apply check_windows_Err in E as (l1 & x & y & l2 & -> & Hxy). unfold same_operation in Hxy.
    destruct (N.eqb_spec (operation_id x) (operation_id y)) as [He|]; [|done]. injection Hxy as <-.
    exists (operation_id x). split; [done|]. by exists l1, x, [], y, l2.
Qed.

Lemma by_key_antisym x y :
  cmp_le (cmp_on operation_id N.compare) x y -> cmp_le (cmp_on operation_id N.compare) y x ->
  operation_id x = operation_id y.
Proof.
  unfold cmp_le, cmp_on. destruct (N.compare_spec (operation_id x) (operation_id y)) as [|Hlt|]; [done| |done].
  intros _. destruct (N.compare_spec (operation_id y) (operation_id x)); [done|lia|done].
Qed.

Lemma same_key (l : list MixedPlanOperation) x y :
  NoDup (operation_id <$> l) -> x ∈ l -> y ∈ l -> operation_id x = operation_id y -> x = y.
Proof.
  intros Hnd Hx Hy He. apply list_elem_of_lookup in Hx as [i Hi], Hy as [j Hj].
  assert (i = j) as ->; [|congruence].
  apply (NoDup_lookup (operation_id <$> l) i j (operation_id x) Hnd); rewrite list_lookup_fmap;
    [by rewrite Hi|by rewrite Hj, He].
Qed.

Notation in_order := (sort_by (cmp_on operation_id N.compare)).

Lemma in_order_sorted l : StronglySorted (cmp_le (cmp_on operation_id N.compare)) (in_order l).
Proof. apply sort_by_StronglySorted, cmp_on_total, strict_total. Qed.

Lemma in_order_distinct l1 l2 : l1 ≡ₚ l2 -> NoDup (operation_id <$> l1) -> in_order l1 = in_order l2.
Proof.
  intros Hp Hnd. assert (Hperm : in_order l1 ≡ₚ in_order l2) by (by rewrite !sort_by_Permutation).
  apply (StronglySorted_unique_strong (cmp_le (cmp_on operation_id N.compare)));
    [|apply in_order_sorted|apply in_order_sorted|done].
  intros x y Hx Hy Hxy Hyx. rewrite sort_by_Permutation in Hx. rewrite <- Hperm, sort_by_Permutation in Hy.
  apply (same_key l1); [done..|by apply by_key_antisym].
Qed.

Lemma same_operation_keys l :
  check_windows same_operation l =
  check_windows (fun x y => if x =? y then Some (DuplicateOperation x) else None) (operation_id <$> l).
Proof.
  induction l as [|x [|y l] IH]; [done|done|]. cbn [check_windows fmap list_fmap]. unfold same_operation at 1.
  destruct (operation_id x =? operation_id y); [done|exact IH].
Qed.

(** Either two operations share an identifier, and both orders report the same
    one, or the two batches are sorted to the same list. *)
Lemma in_order_Permutation l1 l2 : l1 ≡ₚ l2 ->
  check_windows same_operation (in_order l1) = check_windows same_operation (in_order l2) /\
  (check_windows same_operation (in_order l1) = Ok tt -> in_order l1 = in_order l2).
Proof.
  intros Hp. split.
  - rewrite !same_operation_keys. f_equal.
    rewrite <- (sort_by_fmap (cmp_on operation_id N.compare) N.compare operation_id l1) by done.
    rewrite <- (sort_by_fmap (cmp_on operation_id N.compare) N.compare operation_id l2) by done.
    apply sort_N_Permutation. by rewrite Hp.
  - intros Hw. pose proof (ordered_distinct (in_order l1)) as Hd.
    specialize (Hd (StronglySorted_Sorted (in_order_sorted l1))). rewrite Hw in Hd.
    apply in_order_distinct; [done|]. by rewrite sort_by_Permutation in Hd.
Qed.

Lemma plan_order_irrelevant pages operations operations' limits :
  operations ≡ₚ operations' ->
  plan_mixed_leaf_updates pages operations limits = plan_mixed_leaf_updates pages operations' limits.
Proof.
  intros Hp. unfold plan_mixed_leaf_updates. destruct (validate_input_pages pages limits) as [locations|]; [|done].
  assert (El : len operations = len operations') by (unfold len; by rewrite Hp). rewrite El.
  destruct (negb (len operations' =? 0)); [|done]. destruct (negb _); [|done]. cbv zeta.
  destruct (in_order_Permutation operations operations' Hp) as [Hw Hs]. rewrite <- Hw.
  destruct (check_windows same_operation (in_order operations)) as [[]|]; [|done]. by rewrite (Hs eq_refl).
Qed.

(** ** The pages after the batch is applied *)

Section Applied.
Context (limits : MixedLeafPlanLimits) (pages : list (list N)) (operations : list MixedPlanOperation).
Context (locations : Locations).
Context (Hin : input_ok limits pages) (Hloc : locates locations pages).
Context (Hnd : NoDup (operation_id <$> operations)).

Notation routed i := (fun o => route locations (page_maxima pages) (length pages) o = Ok i).
Definition operations_at (i : nat) : list MixedPlanOperation := filter (routed i) operations.

Lemma page_nonempty page : page ∈ pages -> page <> [].
Proof.
  destruct Hin as [[_ _ Hs _] _]. intros Hp. by destruct (proj1 (Forall_forall _ _) Hs page Hp).
Qed.

Lemma located x i : locations !! x = Some i <-> exists page, pages !! i = Some page /\ x ∈ page.
Proof. apply Hloc. Qed.

Lemma located_iff x : is_Some (locations !! x) <-> x ∈ concat pages.
Proof.
  split.
  - intros [i (page & Hp & Hx)%located]. apply list_elem_of_In, in_concat. exists page.
    rewrite <- !list_elem_of_In. split; [by eapply list_elem_of_lookup_2|done].
  - intros Hx. apply list_elem_of_In, in_concat in Hx as (page & Hp & Hx). rewrite <- !list_elem_of_In in *.
    apply list_elem_of_lookup in Hp as [i Hi]. exists i. apply located. by exists page.
Qed.

Lemma maxima_lookup j page : pages !! j = Some page -> exists m, page_maxima pages !! j = Some m /\ last page = Some m.
Proof.
  pose proof page_nonempty as Hne. unfold page_maxima. clear -Hne. revert j.
  induction pages as [|p ps IH]; intros [|j] Hj; [done|done| |].
  - injection Hj as ->. destruct (last page) as [m|] eqn:E.
    + exists m. csimpl. by rewrite E.
    + apply last_None in E. exfalso. by apply (Hne page); [left|].
  - csimpl. destruct (last p) as [m|] eqn:E.
    + apply IH; [|done]. intros q Hq. apply Hne. by right.
    + apply last_None in E. exfalso. by apply (Hne p); [left|].
Qed.

Lemma maxima_length : (length (page_maxima pages) <= length pages)%nat.
Proof. unfold page_maxima. clear. induction pages as [|p ps IH]; csimpl; [lia|]. destruct (last p); csimpl; lia. Qed.

Lemma first_at_most_cases x l :
  match first_at_most x l with
  | Some i => (exists m, l !! i = Some m /\ x <= m) /\ forall j m, (j < i)%nat -> l !! j = Some m -> m < x
  | None => forall j m, l !! j = Some m -> m < x
  end.
Proof.
  induction l as [|a l IH]; cbn [first_at_most]; [done|]. destruct (N.leb_spec x a) as [Hle|Hgt].
  - split; [by exists a|]. intros j m Hj. lia.
  - destruct (first_at_most x l) as [i|]; cbn.
    + destruct IH as [(m & Hm & Hx) Hb]. split; [by exists m|]. intros [|j] m' Hj Hl; [by injection Hl as <-|].
      apply (Hb j); [lia|done].
    + intros [|j] m Hl; [by injection Hl as <-|]. by apply (IH j).
Qed.

Lemma pages_order i j p q x y :
  (i < j)%nat -> pages !! i = Some p -> pages !! j = Some q -> x ∈ p -> y ∈ q -> x < y.
Proof.
  destruct Hin as [[_ _ _ Hs] _]. clear -Hs. revert i j. induction pages as [|p0 ps IH]; intros i j Hij Hi Hj Hx Hy; [done|].
  cbn [concat] in Hs. apply sorted_app in Hs as (_ & Hs & Hlt). destruct j as [|j]; [lia|]. destruct i as [|i]; cbn in Hi, Hj.
  - injection Hi as ->. apply Hlt; [done|]. apply list_elem_of_In, in_concat. exists q.
    rewrite <- !list_elem_of_In. split; [by eapply list_elem_of_lookup_2|done].
  - apply (IH Hs i j); [lia|done..].
Qed.

Lemma page_sorted i p : pages !! i = Some p -> StronglySorted N.lt p.
Proof.
  destruct Hin as [[_ _ _ Hs] _]. clear -Hs. revert i. induction pages as [|p0 ps IH]; intros i Hi; [done|].
  cbn [concat] in Hs. apply sorted_app in Hs as (Hp & Hs & _). destruct i; [by injection Hi as <-|by apply (IH Hs i)].
Qed.

Lemma last_max (p : list N) m x : StronglySorted N.lt p -> last p = Some m -> x ∈ p -> x <= m.
Proof.
  intros Hs Hl Hx. apply last_Some in Hl as [l' ->]. apply sorted_app in Hs as (_ & _ & Hb).
  apply elem_of_app in Hx as [Hx| ->%list_elem_of_singleton]; [|done]. specialize (Hb x m Hx ltac:(set_solver)). lia.
Qed.

Lemma home_cons p q ps x : home (p :: q :: ps) x = ((if decide (Forall (fun y => y < x)%N p) then 1 else 0) + home (q :: ps) x)%nat.
Proof. unfold home. change (removelast (p :: q :: ps)) with (p :: removelast (q :: ps)). rewrite filter_cons. by destruct (decide _). Qed.

Lemma home_zero ps x : Forall (fun p => exists y, y ∈ p /\ x <= y) ps -> home ps x = 0%nat.
Proof.
  induction ps as [|p [|q ps] IH]; intros Hf; [done|done|]. apply Forall_cons in Hf as [(y & Hy & Hx) Hf]. rewrite home_cons, (IH Hf), decide_False; [done|].
  intros Hb. pose proof (proj1 (Forall_forall _ _) Hb y Hy). simpl in *. lia.
Qed.

Lemma home_below ps x m : Forall (fun p => p <> []) ps -> (forall y, y ∈ concat ps -> m < y) -> x <= m -> home ps x = 0%nat.
Proof.
  intros Hne Hb Hx. apply home_zero. induction ps as [|p ps IH]; [constructor|]. apply Forall_cons in Hne as [Hp Hne]. cbn [concat] in Hb. constructor.
  - destruct p as [|y p]; [done|]. exists y. split; [by left|]. specialize (Hb y ltac:(by left)). lia.
  - apply IH; [done|]. intros y Hy. apply Hb, elem_of_app. by right.
Qed.

Lemma home_first ps x : Forall (fun p => p <> []) ps -> StronglySorted N.lt (concat ps) ->
  default (length ps - 1)%nat (first_at_most x (page_maxima ps)) = home ps x.
Proof.
  induction ps as [|p [|q ps] IH]; intros Hne Hs; [done| |].
  { unfold page_maxima. csimpl. destruct (last p); cbn [first_at_most]; [|done]. by destruct (x <=? _). }
  apply Forall_cons in Hne as [Hp Hne]. cbn [concat] in Hs. apply sorted_app in Hs as (Hsp & Hs & Hlt). specialize (IH Hne Hs).
  unfold page_maxima in *. cbn [omap list_omap]. destruct (last p) as [m|] eqn:Em; [|by apply last_None in Em].
  change (omap last (q :: ps)) with (omap last (q :: ps)) in *. cbn [first_at_most]. rewrite home_cons.
  assert (Hm : m ∈ p) by (apply last_Some in Em as [l ->]; apply elem_of_app; right; by left).
  destruct (N.leb_spec x m) as [Hx|Hx].
  - rewrite decide_False by (intros Hb; pose proof (proj1 (Forall_forall _ _) Hb m Hm); simpl in *; lia).
    rewrite (home_below (q :: ps) x m Hne); [done| |done]. intros y Hy. by apply Hlt.
  - rewrite decide_True.
    + rewrite <- IH. cbn [omap list_omap]. destruct (first_at_most x _); cbn; lia.
    + apply Forall_forall. intros y Hy. pose proof (last_max p m y Hsp Em Hy). lia.
Qed.

Lemma home_at ps x i p : Forall (fun p => p <> []) ps -> StronglySorted N.lt (concat ps) -> ps !! i = Some p -> x ∈ p -> home ps x = i.
Proof.
  revert i. induction ps as [|p0 [|q ps] IH]; intros i Hne Hs Hi Hx; [done|by destruct i|].
  apply Forall_cons in Hne as [Hp Hne]. cbn [concat] in Hs. apply sorted_app in Hs as (Hsp & Hs & Hlt). rewrite home_cons. destruct i as [|i].
  - injection Hi as ->. rewrite decide_False by (intros Hb; pose proof (proj1 (Forall_forall _ _) Hb x Hx); simpl in *; lia).
    apply (home_below (q :: ps) x x Hne); [|done]. intros y Hy. by apply Hlt.
  - rewrite decide_True; [by rewrite (IH i)|]. apply Forall_forall. intros y Hy. apply Hlt; [done|].
    change (x ∈ concat (q :: ps)). apply list_elem_of_In, in_concat. exists p. rewrite <- !list_elem_of_In. split; [by eapply list_elem_of_lookup_2|done].
Qed.

Lemma home_lt x : (home pages x < length pages)%nat.
Proof.
  destruct Hin as [[Hne _ _ _] _]. unfold home. destruct pages as [|p ps _] using rev_ind; [done|]. rewrite removelast_last, length_app. cbn [length].
  pose proof (length_filter (fun page => Forall (fun y => y < x) page) ps). lia.
Qed.

Lemma routed_home o i : (exists j, route locations (page_maxima pages) (length pages) o = Ok j) ->
  route locations (page_maxima pages) (length pages) o = Ok i <-> home pages (operation_id o) = i.
Proof.
  destruct Hin as [[_ _ Hne Hs] _]. assert (Hne' : Forall (fun p => p <> []) pages) by (eapply Forall_impl; [exact Hne|]; by intros ? [? _]).
  intros [j Hj]. rewrite Hj. enough (home pages (operation_id o) = j) as -> by (split; congruence).
  unfold route in Hj. destruct (locations !! operation_id o) as [k|] eqn:El.
  - injection Hj as <-. apply located in El as (page & Hp & Hx). by eapply home_at.
  - destruct o as [id|id]; [|done]. injection Hj as <-. symmetry. by apply home_first.
Qed.

(** The objects of page [i] after the batch stay between the maxima of the
    pages before and, unless it is the last page, its own. *)
Lemma updated_bounds i page l x :
  pages !! i = Some page -> updated page (operations_at i) l -> x ∈ l ->
  (forall j q y, (j < i)%nat -> pages !! j = Some q -> y ∈ q -> y < x) /\
  ((S i < length pages)%nat -> forall m, last page = Some m -> x <= m).
Proof.
  intros Hp [_ Hl] Hx.
  assert (Hold : x ∈ page -> (forall j q y, (j < i)%nat -> pages !! j = Some q -> y ∈ q -> y < x) /\
    ((S i < length pages)%nat -> forall m, last page = Some m -> x <= m)).
  { intros Hxp. split.
    - intros j q y Hj Hq Hy. by eapply pages_order.
    - intros _ m Hm. by eapply last_max; [eapply page_sorted|..]. }
  apply Hl in Hx as [[Hx _]|Hx]; [by apply Hold|].
  unfold operations_at in Hx. apply list_elem_of_filter in Hx as [Hr _]. unfold route in Hr. cbn [operation_id] in Hr.
  destruct (locations !! x) as [k|] eqn:El.
  - injection Hr as ->. apply located in El as (page' & Hp' & Hxp). rewrite Hp in Hp'. injection Hp' as <-. by apply Hold.
  - injection Hr as Hr. pose proof (first_at_most_cases x (page_maxima pages)) as Hf.
    destruct (first_at_most x (page_maxima pages)) as [k|]; simpl in Hr.
    + subst k. destruct Hf as [(m & Hm & Hxm) Hb]. split.
      * intros j q y Hj Hq Hy. destruct (maxima_lookup j q Hq) as (mq & Hmq & Hlq).
        specialize (Hb j mq Hj Hmq). pose proof (last_max q mq y (page_sorted j q Hq) Hlq Hy). lia.
      * intros _ m' Hm'. destruct (maxima_lookup i page Hp) as (m2 & Hm2 & Hl2). congruence.
    + split; [|lia]. intros j q y Hj Hq Hy. destruct (maxima_lookup j q Hq) as (mq & Hmq & Hlq).
      specialize (Hf j mq Hmq). pose proof (last_max q mq y (page_sorted j q Hq) Hlq Hy). lia.
Qed.

Lemma sorted_concat (ls : list (list N)) :
  (forall i l, ls !! i = Some l -> StronglySorted N.lt l) ->
  (forall i j a b x y, (i < j)%nat -> ls !! i = Some a -> ls !! j = Some b -> x ∈ a -> y ∈ b -> x < y) ->
  StronglySorted N.lt (concat ls).
Proof.
  induction ls as [|l ls IH]; intros Hs Hlt; cbn [concat]; [constructor|]. apply sorted_app. split_and!.
  - by apply (Hs 0%nat).
  - apply IH; [intros i; apply (Hs (S i))|]. intros i j a b x y Hij Ha Hb. apply (Hlt (S i) (S j)); [lia|done|done].
  - intros x y Hx Hy. apply list_elem_of_In, in_concat in Hy as (b & Hb & Hy). rewrite <- !list_elem_of_In in *.
    apply list_elem_of_lookup in Hb as [j Hj]. by apply (Hlt 0%nat (S j) l b); [lia|..].
Qed.

(** The working set before any repair. *)
Definition applied (new : list WorkingPage) : Prop :=
  length new = length pages /\
  forall i page, pages !! i = Some page ->
    exists l, new !! i = Some (mkWorking l {[i]}) /\ updated page (operations_at i) l.

Lemma applied_inv new i w : applied new -> new !! i = Some w ->
  exists page l, pages !! i = Some page /\ w = mkWorking l {[i]} /\ updated page (operations_at i) l.
Proof.
  intros [Hlen Hnew] Hw. destruct (lookup_lt_is_Some_2 pages i) as [page Hp].
  { rewrite <- Hlen. by eapply lookup_lt_Some. }
  destruct (Hnew i page Hp) as (l & Hl & Hu). rewrite Hw in Hl. injection Hl as ->. by exists page, l.
Qed.

Lemma applied_sorted new : applied new -> StronglySorted N.lt (all_ids new).
Proof.
  intros Ha. apply sorted_concat.
  - intros i l Hl. rewrite list_lookup_fmap in Hl. apply fmap_Some in Hl as (w & Hw & ->).
    destruct (applied_inv _ _ _ Ha Hw) as (page & l & _ & -> & Hu). apply Hu.
  - intros i j a b x y Hij Hla Hlb Hx Hy. rewrite list_lookup_fmap in Hla, Hlb.
    apply fmap_Some in Hla as (wa & Hwa & ->), Hlb as (wb & Hwb & ->).
    destruct (applied_inv _ _ _ Ha Hwa) as (pa & la & Hpa & -> & Hua).
    destruct (applied_inv _ _ _ Ha Hwb) as (pb & lb & Hpb & -> & Hub). cbn [ids] in *.
    destruct (updated_bounds i pa la x Hpa Hua Hx) as [_ Hmax].
    destruct (updated_bounds j pb lb y Hpb Hub Hy) as [Hlow _].
    destruct (maxima_lookup i pa Hpa) as (m & _ & Hm). apply lookup_lt_Some in Hpb.
    specialize (Hmax ltac:(lia) m Hm). specialize (Hlow i pa m Hij Hpa). apply last_Some in Hm as [l' ->].
    specialize (Hlow ltac:(set_solver)). lia.
Qed.

Lemma applied_objects new x :
  (forall o, o ∈ operations -> exists i, routed i o) ->
  applied new -> x ∈ all_ids new <-> after pages operations x.
Proof.
  intros Hall Ha. assert (Hlt : forall i o, routed i o -> (i < length pages)%nat).
  { intros i o Hr. eapply (route_lt locations (page_maxima pages) (length pages)); [done|done|done|apply maxima_length|].
    destruct Hin as [[Hne _ _ _] _]. destruct pages; [done|simpl; lia]. }
  unfold all_ids, after. rewrite list_elem_of_In, in_concat. setoid_rewrite <- list_elem_of_In. split.
  - intros (l & Hl & Hx). apply list_elem_of_fmap in Hl as (w & -> & Hw). apply list_elem_of_lookup in Hw as [i Hw].
    destruct (applied_inv _ _ _ Ha Hw) as (page & l & Hp & -> & [_ Hu]). cbn [ids] in Hx. apply Hu in Hx as [[Hx Hd]|Hx].
    + left. split; [apply located_iff; exists i; apply located; by exists page|].
      intros Hdel. apply Hd. unfold operations_at. apply list_elem_of_filter. split; [|done].
      apply route_delete. apply located. by exists page.
    + right. unfold operations_at in Hx. by apply list_elem_of_filter in Hx as [_ Hx].
  - intros [[Hx Hd]|Hx].
    + apply located_iff in Hx as [i (page & Hp & Hx)%located]. destruct Ha as [_ Hnew].
      destruct (Hnew i page Hp) as (l & Hl & [_ Hu]). exists l. split.
      * apply list_elem_of_fmap. exists (mkWorking l {[i]}). split; [done|by eapply list_elem_of_lookup_2].
      * apply Hu. left. split; [done|]. intros Hdel. apply Hd. unfold operations_at in Hdel. by apply list_elem_of_filter in Hdel as [_ ?].
    + destruct (Hall _ Hx) as [i Hi]. destruct (lookup_lt_is_Some_2 pages i (Hlt _ _ Hi)) as [page Hp].
      destruct Ha as [_ Hnew]. destruct (Hnew i page Hp) as (l & Hl & [_ Hu]). exists l. split.
      * apply list_elem_of_fmap. exists (mkWorking l {[i]}). split; [done|by eapply list_elem_of_lookup_2].
      * apply Hu. right. unfold operations_at. by apply list_elem_of_filter.
Qed.
End Applied.

(** ** Counting *)

Lemma chosen_NoDup (f : MixedPlanOperation -> bool) ops :
  NoDup (operation_id <$> ops) -> NoDup (operation_id <$> List.filter f ops).
Proof.
  induction ops as [|o ops IH]; [done|]. rewrite fmap_cons. intros [Hn Hnd]%NoDup_cons. simpl.
  destruct (f o); [|by apply IH]. rewrite fmap_cons. constructor; [|by apply IH].
  intros Hin. apply Hn. apply list_elem_of_fmap in Hin as (o' & He & Ho'). apply list_elem_of_fmap. exists o'.
  split; [done|]. apply list_elem_of_In. apply list_elem_of_In, filter_In in Ho' as [? _]. done.
Qed.

Lemma elem_of_chosen (f : MixedPlanOperation -> bool) ops x :
  x ∈ operation_id <$> List.filter f ops <-> exists o, o ∈ ops /\ f o = true /\ operation_id o = x.
Proof.
  rewrite list_elem_of_fmap. split.
  - intros (o & -> & Ho). apply list_elem_of_In, filter_In in Ho as [Ho Hf]. exists o. by rewrite list_elem_of_In.
  - intros (o & Ho & Hf & <-). exists o. split; [done|]. apply list_elem_of_In, filter_In. by rewrite <- list_elem_of_In.
Qed.

Lemma balance pages operations (final : list N) :
  NoDup (concat pages) -> NoDup (operation_id <$> operations) ->
  (forall id, Delete id ∈ operations -> id ∈ concat pages) ->
  NoDup final -> (forall x, x ∈ final <-> after pages operations x) ->
  len final + count_if MixedUpdateFacts.deletes operations = total_len pages + count_if (put_new pages) operations.
Proof.
  intros Hp Hops Hknown Hf Hiff.
  set (D := operation_id <$> List.filter MixedUpdateFacts.deletes operations).
  set (I := operation_id <$> List.filter (put_new pages) operations).
  assert (HD : forall x, x ∈ D <-> Delete x ∈ operations).
  { intros x. unfold D. rewrite elem_of_chosen. split; [intros ([?|?] & Ho & ? & <-); done|].
    intros Hx. by exists (Delete x). }
  assert (HI : forall x, x ∈ I <-> Put x ∈ operations /\ x ∉ concat pages).
  { intros x. unfold I. rewrite elem_of_chosen. split.
    - intros ([id|id] & Ho & Hn & <-); [|done]. cbn [put_new operation_id] in *. by apply bool_decide_eq_true in Hn.
    - intros [Ho Hn]. exists (Put x). split_and!; [done| |done]. cbn [put_new]. by rewrite bool_decide_true. }
  assert (Hperm : final ++ D ≡ₚ concat pages ++ I).
  { apply NoDup_Permutation.
    - apply NoDup_app. split_and!; [done| |by apply chosen_NoDup]. intros x Hx Hxd. apply HD in Hxd.
      apply Hiff in Hx as [[_ Hn]|Hput]; [done|].
      pose proof (same_key operations (Put x) (Delete x) Hops Hput Hxd eq_refl). done.
    - apply NoDup_app. split_and!; [done| |by apply chosen_NoDup]. intros x Hx Hxi. by apply HI in Hxi as [_ ?].
    - intros x. rewrite !elem_of_app, Hiff, HD, HI. unfold after. split.
      + intros [[[Hx _]|Hx]|Hx]; [by left| |left; by apply Hknown].
        destruct (decide (x ∈ concat pages)); [by left|by right].
      + intros [Hx|[Hx _]]; [|left; by right]. destruct (decide (Delete x ∈ operations)); [by right|left; by left]. }
  apply Permutation_length in Hperm. rewrite !length_app in Hperm. unfold D, I in Hperm. rewrite !length_fmap in Hperm.
  unfold total_len, count_if, len. lia.
Qed.

Lemma locations_size locations pages :
  locates locations pages -> NoDup (concat pages) -> N.of_nat (size locations) = total_len pages.
Proof.
  intros Hloc Hnd. unfold total_len, len. f_equal. rewrite <- size_dom.
  assert (E : dom locations = list_to_set (concat pages)); [|by rewrite E, size_list_to_set].
  apply set_eq. intros x. rewrite elem_of_dom, elem_of_list_to_set. split.
  - intros [i (page & Hp & Hx)%Hloc]. apply list_elem_of_In, in_concat. exists page.
    rewrite <- !list_elem_of_In. split; [by eapply list_elem_of_lookup_2|done].
  - intros Hx. apply list_elem_of_In, in_concat in Hx as (page & Hp & Hx). rewrite <- !list_elem_of_In in *.
    apply list_elem_of_lookup in Hp as [i Hi]. exists i. apply Hloc. by exists page.
Qed.

(** ** Splitting and repairing together *)

Lemma limits_positive limits : limits_ok limits = true -> 0 < minimum limits <= capacity limits.
Proof. unfold limits_ok. rewrite negb_true_iff. intros Hl. bool_facts. lia. Qed.

Lemma weight_bound limits (w : list WorkingPage) :
  (sum_list (weight limits <$> w) <= total_ids w + length w)%nat.
Proof.
  unfold total_ids. induction w as [|x w IH]; [done|]. csimpl. unfold weight at 1. destruct (_ <=? _); lia.
Qed.

Lemma near_applied limits pages operations locations new w :
  applied pages operations locations new -> gentle pages operations limits ->
  (forall i p, pages !! i = Some p -> NoDup p) ->
  w ∈ new -> minimum limits <= len (ids w) + 1.
Proof.
  intros Ha Hg Hnd Hw. apply list_elem_of_lookup in Hw as [i Hw].
  destruct (applied_inv _ _ _ _ _ _ Ha Hw) as (page & l & Hp & -> & [_ Hu]). cbn [ids].
  specialize (Hg page (list_elem_of_lookup_2 _ _ _ Hp)).
  assert (Hle : (length (filter (fun x => Delete x ∉ operations) page) <= length l)%nat).
  { apply submseteq_length, NoDup_submseteq; [apply NoDup_filter; by eapply Hnd|].
    intros x [Hd Hx]%list_elem_of_filter. apply Hu. left. split; [done|]. intros Hin.
    apply Hd. unfold operations_at in Hin. by apply list_elem_of_filter in Hin as [_ ?]. }
  unfold len in *. lia.
Qed.

Definition repaired (limits : MixedLeafPlanLimits) (s : Planning) : result MixedLeafPlanError Planning :=
  let* s := split_loop (S (total_ids (working s) + length (working s))) limits 0 s in
  let* s := repair_loop (S (2 * length (working s))) limits 0 s in
  let* _ := validate_final_pages (ids <$> working s) limits in
  Ok s.

(** The stages in the order of the code are those of [repaired_by]. *)
Lemma repaired_exact limits s :
  0 < minimum limits <= capacity limits -> working s <> [] -> len (working s) <= max_pages limits ->
  len (done_actions s) <= max_actions limits -> 0 < len (all_ids (working s)) <= max_objects limits -> max_objects limits <= U64_MAX ->
  repaired_by limits s (repaired limits s).
Proof.
  intros Hmin Hne Hcount Hacts Htotal Hmo. unfold repaired.
  pose proof (split_loop_exact limits Hmin (S (total_ids (working s) + length (working s))) [] (working s) s eq_refl) as Hs.
  specialize (Hs ltac:(pose proof (weight_bound limits (working s)); lia)). cbn [length app] in Hs.
  destruct (split_loop _ _ _ s) as [s1|[]]; try done; [| |].
  2: by left.
  2: { destruct Hs as [[-> ?]|[-> ?]]; [left|right]; (split; [done|]); [by left|done]. }
  destruct Hs as (E & Hun & Ha & Hp). fold (split_all limits s) in E. subst s1. specialize (Ha Hacts). specialize (Hp Hcount).
  assert (Hne1 : working (split_all limits s) <> []).
  { pose proof (split_grows limits Hmin (working s)) as Hg. cbn [split_all working]. intros E. rewrite E in Hg. destruct (working s); [done|simpl in Hg; lia]. }
  pose proof (repair_loop_exact limits Hmin (S (2 * length (working (split_all limits s)))) 0 (split_all limits s) ltac:(lia) Hne1 ltac:(lia)) as Hr.
  destruct (repair_loop _ _ _ _) as [s2|[]]; try done; cbn [repair_run fst snd] in Hr; [| |].
  2: { destruct Hr as (st & Hr & Hst). right. exists st. split; [done|by left]. }
  2: { destruct Hr as (-> & Hr). left. split; [done|by right]. }
  destruct Hr as (position & Hr & Hd & Hl). specialize (Hl Ha). pose proof (validate_final_cases (ids <$> working s2) limits) as Hv.
  pose proof (repair_steps_ids _ _ _ Hr) as Hall. cbn [snd split_all working] in Hall. rewrite split_ids in Hall by done. unfold total_len in Hv. change (concat (ids <$> working s2)) with (all_ids (working s2)) in Hv. rewrite Hall in Hv.
  destruct (validate_final_pages _ _) as [[]|[]]; try done; [| |lia].
  - split_and!; [done|done|by exists position|done].
  - right. exists (position, s2). split; [done|right]. by split.
Qed.

Lemma repaired_cases limits pages s :
  0 < minimum limits <= capacity limits -> keeps pages s -> all_ids (working s) <> [] ->
  len (working s) <= max_pages limits -> StronglySorted N.lt (all_ids (working s)) ->
  match repaired limits s with
  | Ok s' => all_ids (working s') = all_ids (working s) /\ keeps pages s' /\
      pages_ok limits (ids <$> working s') /\ 0 < total_len (ids <$> working s') <= max_objects limits
  | Err e => (exists label, e = Limit label) \/
      e = InvalidPage /\ ~ (room limits /\ forall w, w ∈ working s -> minimum limits <= len (ids w) + 1)
  end.
Proof.
  intros Hmin Hk Hne Hcount Hsorted. unfold repaired.
  pose proof (split_loop_cases limits pages Hmin (S (total_ids (working s) + length (working s))) [] (working s) s) as Hs.
  specialize (Hs eq_refl ltac:(constructor) ltac:(pose proof (weight_bound limits (working s)); lia) Hk). cbn [length] in Hs.
  destruct (split_loop _ _ _ s) as [s1|e]; [|destruct Hs as [?|[-> ?]]; [by left|right; tauto]].
  destruct Hs as (Hids1 & Hk1 & (rest & Hw1 & Hd) & _ & Hc1). cbn [app] in Hw1. specialize (Hc1 Hcount).
  assert (Hne1 : working s1 <> []) by (intros E; rewrite E in Hids1; unfold all_ids in Hids1 at 1; simpl in Hids1; congruence).
  pose proof (repair_loop_cases limits pages Hmin (S (2 * length (working s1))) [] (working s1) s1 eq_refl Hne1 Hk1) as Hr.
  cbn [length] in Hr. specialize (Hr ltac:(lia)).
  assert (Hgood : (forall w, w ∈ working s -> minimum limits <= len (ids w) + 1) -> good limits [] (working s1)).
  { intros Hnear. split; [|constructor]. cbn [app]. apply Forall_forall. intros w Hw. rewrite Hw1 in Hw.
    destruct (Hd w Hw) as [Hf [Hin|Hge]]; (split; [|done]); [by apply Hnear|lia]. }
  destruct (repair_loop _ _ _ s1) as [s2|e].
  2:{ destruct Hr as [?|[-> Hn]]; [by left|right]. split; [done|]. intros [Hroom Hnear]. apply Hn. split; [done|by apply Hgood]. }
  destruct Hr as (Hids2 & Hk2 & _ & Hlen2 & Hshape). rewrite Hids1 in Hids2.
  pose proof (validate_final_cases (ids <$> working s2) limits) as Hv.
  destruct (validate_final_pages _ _) as [[]|e].
  - split_and!; [done|done|apply Hv|apply Hv|apply Hv].
  - destruct e; try done; [right|left; by eexists]. split; [done|]. intros [Hroom Hnear]. apply Hv.
    destruct (Hshape Hroom (Hgood Hnear)) as [Hfits Henough]. split.
    + intros E. apply fmap_nil_inv in E. rewrite E in Hids2. unfold all_ids in Hids2 at 1. simpl in Hids2. congruence.
    + unfold len in *. rewrite length_fmap. lia.
    + apply Forall_fmap, Forall_forall. intros w Hw. pose proof (proj1 (Forall_forall _ _) Hfits w Hw) as Hfw.
      unfold len at 2. rewrite length_fmap. simpl. destruct (decide (1 < length (working s2))%nat) as [Hlt|Hge].
      * pose proof (proj1 (Forall_forall _ _) (Henough Hlt) w Hw) as He. unfold enough in He. split_and!; [|done|done].
        intros E. rewrite E in He. unfold len in He. simpl in He. lia.
      * split_and!; [|done|lia]. assert (Hone : working s2 = [w]).
        { destruct (working s2) as [|a [|b l]]; [by apply elem_of_nil in Hw| |simpl in Hge; lia].
          by apply list_elem_of_singleton in Hw as ->. }
        intros E. rewrite Hone in Hids2. unfold all_ids in Hids2 at 1. simpl in Hids2. rewrite E in Hids2. simpl in Hids2. congruence.
    + change (concat (ids <$> working s2)) with (all_ids (working s2)). by rewrite Hids2.
Qed.

(** ** The whole planner *)

Lemma elem_of_ascending_pages o s : o ∈ ascending_pages s <-> o ∈ s.
Proof. unfold ascending_pages. by rewrite elem_of_sort_by, elem_of_elements. Qed.

Lemma filter_ext_in {A} (P Q : A -> Prop) `{!forall x, Decision (P x), !forall x, Decision (Q x)} (l : list A) :
  (forall x, x ∈ l -> P x <-> Q x) -> filter P l = filter Q l.
Proof.
  induction l as [|x l IH]; intros Hf; [done|]. rewrite !filter_cons, IH by (intros y Hy; apply Hf; by right).
  specialize (Hf x ltac:(by left)). destruct (decide (P x)), (decide (Q x)); tauto.
Qed.

Lemma pages_actions_Permutation index pages bp bp' : Forall2 Permutation bp bp' -> pages_actions index pages bp = pages_actions index pages bp'.
Proof.
  intros Hf. revert index pages. induction Hf as [|x y bp bp' Hxy _ IH]; intros index [|page pages]; [done..|]. cbn [pages_actions]. rewrite IH. f_equal.
  destruct x as [|x1 x]; [by apply Permutation_nil_l in Hxy as ->|]. destruct y as [|y1 y]; [by apply Permutation_nil_r in Hxy|].
  cbn [apply_actions]. by rewrite !(count_if_Permutation _ _ _ Hxy).
Qed.

(** Routing sends to a page the operations on objects that belong to it. *)
Lemma routed_operations limits pages operations ordered locations r : input_ok limits pages -> locates locations pages -> ordered ≡ₚ operations -> NoDup (operation_id <$> ordered) ->
  routed_by locations (page_maxima pages) (length pages) ordered (mkRouted (replicate (length pages) []) 0 0 0) r ->
  forall i, operations_at pages ordered locations i ≡ₚ operations_for pages operations i.
Proof.
  intros Hin Hloc Hp Hnd Hr i. unfold operations_for. rewrite <- Hp. unfold operations_at.
  apply (reflexive_eq (R := Permutation)), filter_ext_in. intros o Ho.
  destruct (proj1 (Forall_forall _ _) (ro_nonzero _ _ _ _ _ _ Hr) o Ho) as [_ Hj]. by eapply routed_home.
Qed.

(** After routing: the pages are updated, split, repaired and validated. *)
Lemma routed_plan_cases limits pages operations ordered locations r :
  limits_ok limits = true -> input_ok limits pages -> locates locations pages ->
  ordered ≡ₚ operations -> NoDup (operation_id <$> operations) ->
  (forall id, Delete id ∈ operations -> id ∈ concat pages) ->
  routed_by locations (page_maxima pages) (length pages) ordered (mkRouted (replicate (length pages) []) 0 0 0) r ->
  (forall l, NoDup l -> (forall x, x ∈ l <-> after pages operations x) -> 0 < len l <= max_objects limits) -> max_objects limits <= U64_MAX ->
  match (let* s := apply_pages limits 0 pages (by_page r) (mkPlanning [] ∅ []) in repaired limits s) with
  | Ok s => (forall x, x ∈ all_ids (working s) <-> after pages operations x) /\ NoDup (all_ids (working s)) /\
      keeps pages s /\ pages_ok limits (ids <$> working s) /\ 0 < total_len (ids <$> working s) <= max_objects limits /\
      exists s0, batch_applied pages operations s0 /\ repaired_by limits s0 (Ok s)
  | Err e => (e = InvalidPage -> ~ (room limits /\ gentle pages operations limits)) /\
      (e = Limit "action count" /\ max_actions limits < len (batch_actions pages operations) \/
       exists s0, batch_applied pages operations s0 /\ repaired_by limits s0 (Err e))
  end.
Proof.
  intros Hlim Hin Hloc Hp Hnd Hknown Hr Htotal Hmo.
  assert (Hndo : NoDup (operation_id <$> ordered)) by (by rewrite Hp).
  assert (Hat : forall i, (i < length pages)%nat ->
    by_page r !! i = Some (operations_at pages ordered locations i)).
  { intros i Hi. assert (Hrep : by_page (mkRouted (replicate (length pages) []) 0 0 0) !! i = Some [])
      by (cbn [by_page]; by apply lookup_replicate).
    by apply (ro_pages _ _ _ _ _ _ Hr) in Hrep. }
  assert (Hlen : length (by_page r) = length pages).
  { rewrite (ro_length _ _ _ _ _ _ Hr). cbn [by_page]. apply length_replicate. }
  pose proof (apply_pages_cases limits 0 pages (by_page r) (mkPlanning [] ∅ []) Hlen) as Ha.
  specialize (Ha ltac:(intros i page ops Hpg Hops; rewrite Hat in Hops by (by eapply lookup_lt_Some);
    injection Hops as <-; split;
    [apply (sublist_NoDup _ (operation_id <$> ordered)) || eapply sublist_NoDup; [exact Hndo|apply fmap_sublist, sublist_filter]
    |intros id Hid; apply list_elem_of_filter in Hid as [Hrt _]; apply route_delete, Hloc in Hrt as (p & Hp' & Hx);
     congruence])).
  pose proof (routed_operations limits pages operations ordered locations r Hin Hloc Hp Hndo Hr) as Hfor.
  assert (Hacts : pages_actions 0 pages (by_page r) = batch_actions pages operations).
  { apply pages_actions_Permutation, Forall2_same_length_lookup. rewrite length_fmap, length_seq. split; [done|]. intros i x y Hx Hy.
    rewrite list_lookup_fmap in Hy. apply fmap_Some in Hy as (j & Hj & ->). apply lookup_seq in Hj as [-> Hj]. rewrite Hat in Hx by lia. injection Hx as <-. apply Hfor. }
  cbn [done_actions app] in Ha. rewrite Hacts in Ha.
  destruct (apply_pages _ _ _ _ _) as [s|e]; [|destruct Ha as [-> Ha]; split; [done|by left]].
  destruct Ha as (new & Hw & Hnlen & Hnew & Htouch & Hdone & Hmaxa). cbn [working app touched] in Hw, Htouch. specialize (Hmaxa (N.le_0_l _)).
  assert (Hbatch : batch_applied pages operations s).
  { split; rewrite ?Hw; [done| | |done].
    - intros i page Hpg. destruct (Hnew i page _ Hpg (Hat i (lookup_lt_Some _ _ _ Hpg))) as (l & Hl & Hs & Hu). exists l. split; [done|].
      split; [done|]. intros x. by rewrite Hu, (Hfor i).
    - intros o. rewrite Htouch. split.
      + intros [Ho|(i & ops & -> & Hb & Hne)]; [set_solver|]. rewrite Hat in Hb by (rewrite <- Hlen; by eapply lookup_lt_Some). injection Hb as <-.
        cbn [Nat.add]. intros E. apply Hne, Permutation_nil_r. by rewrite Hfor, E.
      + intros Hne. right. exists o, (operations_at pages ordered locations o). split_and!; [done| |].
        * apply Hat. destruct (operations_for pages operations o) as [|op ops] eqn:E; [done|].
          assert (Ho : op ∈ operations_for pages operations o) by (rewrite E; by left).
          apply list_elem_of_filter in Ho as [<- _]. by eapply home_lt.
        * intros E. apply Hne, Permutation_nil_r. by rewrite <- Hfor, E. }
  assert (Happ : applied pages ordered locations new).
  { split; [done|]. intros i page Hpg. apply (Hnew i page); [done|]. apply Hat. by eapply lookup_lt_Some. }
  assert (Hafter : forall x, after pages ordered x <-> after pages operations x).
  { intros x. unfold after. by rewrite Hp. }
  assert (Hobj : forall x, x ∈ all_ids new <-> after pages operations x).
  { intros x. rewrite <- Hafter. apply (applied_objects limits pages ordered locations Hin Hloc); [|done].
    intros o Ho. by destruct (proj1 (Forall_forall _ _) (ro_nonzero _ _ _ _ _ _ Hr) o Ho) as [_ ?]. }
  pose proof (applied_sorted limits pages ordered locations Hin Hloc Hndo new Happ) as Hsorted.
  assert (Hkeeps : keeps pages s).
  { intros o page Hpg Hto. rewrite Hw. destruct (Hnew o page (operations_at pages ordered locations o) Hpg) as (l & Hl & Hs & Hu).
    { apply Hat. by eapply lookup_lt_Some. }
    assert (Hempty : operations_at pages ordered locations o = []).
    { destruct (operations_at pages ordered locations o) as [|op ops] eqn:E; [done|]. exfalso. apply Hto, Htouch. right.
      exists o, (op :: ops). rewrite <- E. split_and!; [done| |by rewrite E]. apply Hat. by eapply lookup_lt_Some. }
    rewrite Hempty in Hu. apply list_elem_of_lookup_2 in Hl. assert (page = l) as ->; [|done].
    apply (StronglySorted_unique_strong N.lt); [lia|by eapply page_sorted|done|].
    apply NoDup_Permutation; [apply sorted_NoDup; by eapply page_sorted|by apply sorted_NoDup|].
    intros x. rewrite Hu. set_solver. }
  pose proof (repaired_cases limits pages s (limits_positive _ Hlim) Hkeeps) as Hrep. rewrite Hw in Hrep.
  specialize (Htotal (all_ids new) (sorted_NoDup _ Hsorted) Hobj).
  assert (Hnz : all_ids new <> []) by (intros E; rewrite E in Htotal; change (len []) with 0 in Htotal; lia). specialize (Hrep Hnz).
  assert (Hcount : len new <= max_pages limits) by (unfold len; rewrite Hnlen; apply Hin). specialize (Hrep Hcount Hsorted).
  assert (Hrun : repaired_by limits s (repaired limits s)).
  { apply repaired_exact; rewrite ?Hw; try done; [by apply limits_positive|]. intros E. by rewrite E in Hnz. }
  destruct (repaired limits s) as [s'|e].
  - destruct Hrep as (Hids & Hk & Hpo & Htot). rewrite Hids. split_and!; [done|by apply sorted_NoDup|done|done|apply Htot|apply Htot|by exists s].
  - split; [|right; by exists s]. intros ->. destruct Hrep as [[? [=]]|[_ Hn]]. intros [Hroom Hg]. apply Hn. split; [done|].
    intros w Hwn. eapply (near_applied limits pages ordered locations new w Happ); [|intros i p Hpg; apply sorted_NoDup; by eapply page_sorted|done].
    intros page Hpg. specialize (Hg page Hpg). assert (E : filter (fun x => Delete x ∉ ordered) page = filter (fun x => Delete x ∉ operations) page).
    { apply list_filter_iff. intros x. by rewrite Hp. }
    by rewrite E.
Qed.

(** The objects after the batch, as a vector without duplicates. *)
Lemma after_vector pages operations :
  NoDup (concat pages) -> NoDup (operation_id <$> operations) ->
  exists final, NoDup final /\ forall x, x ∈ final <-> after pages operations x.
Proof.
  intros Hp Hops. set (I := operation_id <$> List.filter (put_new pages) operations).
  assert (HI : forall x, x ∈ I <-> Put x ∈ operations /\ x ∉ concat pages).
  { intros x. unfold I. rewrite elem_of_chosen. split.
    - intros ([id|id] & Ho & Hn & <-); [|done]. cbn [put_new operation_id] in *. by apply bool_decide_eq_true in Hn.
    - intros [Ho Hn]. exists (Put x). split_and!; [done| |done]. cbn [put_new]. by rewrite bool_decide_true. }
  exists (filter (fun x => Delete x ∉ operations) (concat pages) ++ I). split.
  - apply NoDup_app. split_and!; [by apply NoDup_filter| |by apply chosen_NoDup].
    intros x [_ Hx]%list_elem_of_filter Hi. by apply HI in Hi as [_ ?].
  - intros x. rewrite elem_of_app, list_elem_of_filter, HI. unfold after. split; [tauto|].
    intros [[? ?]|Hput]; [by left|]. destruct (decide (x ∈ concat pages)) as [Hx|Hx]; [left|by right].
    split; [|done]. intros Hd. pose proof (same_key operations (Put x) (Delete x) Hops Hput Hd eq_refl). done.
Qed.

Lemma classified locations pages operations :
  locates locations pages ->
  count_if (inserts locations) operations = count_if (put_new pages) operations /\
  count_if (replaces locations) operations = count_if (put_old pages) operations.
Proof.
  intros Hloc. assert (Hiff : forall id, is_Some (locations !! id) <-> id ∈ concat pages).
  { intros id. split.
    - intros [i (page & Hp & Hx)%Hloc]. apply list_elem_of_In, in_concat. exists page.
      rewrite <- !list_elem_of_In. split; [by eapply list_elem_of_lookup_2|done].
    - intros Hx. apply list_elem_of_In, in_concat in Hx as (page & Hp & Hx). rewrite <- !list_elem_of_In in *.
      apply list_elem_of_lookup in Hp as [i Hi]. exists i. apply Hloc. by exists page. }
  split; apply count_if_ext; intros [id|id] _; [|done| |done]; cbn; apply bool_decide_ext; rewrite <- Hiff.
  - rewrite <- eq_None_not_Some. done.
  - done.
Qed.

Lemma batch_plan_cases pages operations limits :
  2 * max_objects limits <= U64_MAX ->
  match plan_mixed_leaf_updates pages operations limits with
  | Ok p => limits_ok limits = true /\ input_ok limits pages /\ batch_ok pages operations /\
      planned pages operations limits p /\ planned_by pages operations limits p /\
      total_len pages <= max_objects limits /\ len operations <= max_objects limits
  | Err e => refused pages operations limits e
  end.
Proof.
  intros Hmo. unfold plan_mixed_leaf_updates. pose proof (validate_input_cases pages limits) as Hv.
  destruct (validate_input_pages pages limits) as [locations|[]]; try done; [|left; by destruct Hv|].
  2: { destruct Hv as [-> Hv]. right; left. split; [done|left; lia]. }
  destruct Hv as (Hlim & Hin & Hloc & Htot).
  destruct (N.eqb_spec (len operations) 0) as [H0|Hne]; cbn [negb].
  { right; left. destruct operations; [done|]. rewrite len_cons in H0. lia. }
  destruct (N.ltb_spec (max_objects limits) (len operations)) as [|Hops]; cbn [negb]; [by left|]. cbv zeta.
  assert (Hp : in_order operations ≡ₚ operations) by apply sort_by_Permutation.
  pose proof (ordered_distinct (in_order operations) (StronglySorted_Sorted (in_order_sorted operations))) as Hd.
  destruct (check_windows same_operation (in_order operations)) as [[]|e].
  2:{ destruct Hd as (i & -> & l1 & o & l2 & o' & l3 & E & Ho). exists l1, o, l2, o', l3. by rewrite <- Hp, E. }
  rewrite Hp in Hd. pose proof (route_all locations (page_maxima pages) (length pages) (in_order operations)
    (mkRouted (replicate (length pages) []) 0 0 0)) as Hr.
  destruct (fold_result _ (in_order operations) _) as [r|e].
  2:{ destruct Hr as [[-> (o & Ho & Hz)]|(id & -> & Hid & Hl)].
      - right; right; left. exists o. by rewrite Hp in Ho.
      - rewrite Hp in Hid. split; [done|]. intros Hx.
        apply (located_iff pages locations Hloc) in Hx as [? ?]. congruence. }
  assert (Hsorted : StronglySorted N.lt (concat pages)) by apply Hin. pose proof (sorted_NoDup _ Hsorted) as Hndp.
  assert (Hbatch : batch_ok pages operations).
  { pose proof (proj1 (Forall_forall _ _) (ro_nonzero _ _ _ _ _ _ Hr)) as Hall. split.
    - by intros ->.
    - done.
    - intros o Ho. rewrite <- Hp in Ho. by destruct (Hall o Ho).
    - intros id Hid. rewrite <- Hp in Hid. destruct (Hall _ Hid) as [_ [i Hi]].
      apply route_delete in Hi. apply (located_iff pages locations Hloc). by exists i. }
  destruct (classified locations pages operations Hloc) as [Hins Hrep].
  pose proof (ro_insertions _ _ _ _ _ _ Hr) as Hri. pose proof (ro_replacements _ _ _ _ _ _ Hr) as Hrr.
  pose proof (ro_deletions _ _ _ _ _ _ Hr) as Hrd. cbn [rt_insertions rt_replacements rt_deletions] in Hri, Hrr, Hrd.
  rewrite (count_if_Permutation _ _ _ Hp), N.add_0_l in Hri. rewrite (count_if_Permutation _ _ _ Hp), N.add_0_l in Hrr.
  rewrite (count_if_Permutation _ _ _ Hp), N.add_0_l in Hrd. rewrite Hins in Hri. rewrite Hrep in Hrr.
  destruct (after_vector pages operations Hndp Hd) as (final & Hfnd & Hf).
  pose proof (balance pages operations final Hndp Hd (bo_known _ _ Hbatch) Hfnd Hf) as Hbal.
  rewrite (locations_size locations pages Hloc Hndp), Hri, Hrd.
  assert (Hcount : count_if (put_new pages) operations <= len operations).
  { unfold count_if, len. pose proof (filter_length_le (put_new pages) operations). lia. }
  unfold checked_add, checked_sub. destruct (N.leb_spec (total_len pages + count_if (put_new pages) operations) U64_MAX); [|lia].
  destruct (N.leb_spec (count_if MixedUpdateFacts.deletes operations) (total_len pages + count_if (put_new pages) operations)); [|lia].
  cbn [ok_or]. destruct (N.eqb_spec (total_len pages + count_if (put_new pages) operations - count_if MixedUpdateFacts.deletes operations) 0)
    as [Hz|Hnz]; cbn [negb].
  { intros x Hx. apply Hf in Hx. destruct final; [by apply elem_of_nil in Hx|]. rewrite len_cons in Hbal. lia. }
  destruct (N.ltb_spec (max_objects limits) (total_len pages + count_if (put_new pages) operations - count_if MixedUpdateFacts.deletes operations))
    as [Hover|Hfits]; cbn [negb]; [right; left; by split; [|right]|].
  assert (Htotal : forall l, NoDup l -> (forall x, x ∈ l <-> after pages operations x) -> 0 < len l <= max_objects limits).
  { intros l Hl Hiff. pose proof (balance pages operations l Hndp Hd (bo_known _ _ Hbatch) Hl Hiff). lia. }
  pose proof (routed_plan_cases limits pages operations (in_order operations) locations r Hlim Hin Hloc Hp Hd
    (bo_known _ _ Hbatch) Hr Htotal ltac:(lia)) as Hfinal.
  assert (Herr : forall e, (e = InvalidPage -> ~ (room limits /\ gentle pages operations limits)) /\
      (e = Limit "action count" /\ max_actions limits < len (batch_actions pages operations) \/
       exists s0, batch_applied pages operations s0 /\ repaired_by limits s0 (Err e)) -> refused pages operations limits e).
  { intros e [He [[-> Ha]|(s0 & Hs0 & Hrun)]]; [right; right; by left|]. destruct e; try done.
    - right; right; right. split; [by apply He|by exists s0].
    - right; right; right. by exists s0. }
  unfold repaired in Hfinal. destruct (apply_pages _ _ _ _ _) as [s|e]; [|by apply Herr].
  destruct (split_loop _ _ _ s) as [s1|e]; [|by apply Herr].
  destruct (repair_loop _ _ _ s1) as [s2|e]; [|by apply Herr].
  destruct (validate_final_pages _ _) as [[]|e]; [|by apply Herr].
  destruct Hfinal as (Hobj & Hnd2 & Hk & Hpo & Htotal2 & s0 & Hs0 & Hrun).
  split_and!; [done|done|done| |by exists s0, s2|done|done]. split; cbn [final_pages touched_original_pages insertions replacements deletions].
  - exact Hobj.
  - done.
  - done.
  - intros o page Hpg Ho. rewrite elem_of_ascending_pages in Ho.
    apply list_elem_of_fmap. by exists (mkWorking page {[o]}); split; [|apply Hk].
  - done.
  - done.
  - done.
  - by apply (balance pages operations _ Hndp Hd (bo_known _ _ Hbatch)).
Qed.

(** ** The pages reported as touched are original pages *)

Section Origins.
Context (limits : MixedLeafPlanLimits) (n : nat).

Definition original_only (l : list WorkingPage) : Prop := forall w o, w ∈ l -> o ∈ origins w -> (o < n)%nat.

Definition origins_below (s : Planning) : Prop :=
  original_only (working s) /\ forall o, o ∈ touched s -> (o < n)%nat.

Lemma apply_pages_origins index pages bp s s' : (index + length pages <= n)%nat -> origins_below s ->
  apply_pages limits index pages bp s = Ok s' -> origins_below s'.
Proof.
  revert index bp s. induction pages as [|page pages IH]; intros index [|ops bp] s Hn [Hw Ht] H; cbn [apply_pages length] in *;
    [by injection H as <-..|].
  destruct (fold_result _ ops _) as [a|]; [|done].
  assert (Hw' : original_only (working s ++ [mkWorking (ascending (values a)) {[index]}])).
  { intros w o [Hin| ->%list_elem_of_singleton]%elem_of_app Ho; [by apply (Hw w)|].
    cbn in Ho. apply elem_of_singleton in Ho. lia. }
  destruct ops as [|op ops]; [|destruct (checked_action _ _ _); [|done]]; (apply IH in H; [done|lia|split; cbn [working touched]; [exact Hw'|]]);
    [done|]. intros o [->%elem_of_singleton|]%elem_of_union; [lia|by apply Ht].
Qed.

Lemma split_loop_origins fuel position s s' : origins_below s ->
  split_loop fuel limits position s = Ok s' -> origins_below s'.
Proof.
  revert position s. induction fuel as [|fuel IH]; intros position s [Hw Ht] H; [done|]. cbn [split_loop] in H.
  destruct (working s !! position) as [page|] eqn:E; [|by injection H as <-].
  destruct (_ <=? _); [by apply IH in H|]. step_result H.
  assert (Hpage : forall o, o ∈ origins page -> (o < n)%nat).
  { intros o. by apply Hw, (list_elem_of_lookup_2 _ position). }
  apply IH in H; [done|]. split; cbn [working touched].
  - intros w o. rewrite !elem_of_app. intros [Hin|[Hin|Hin]] Ho.
    + apply (Hw w); [|done]. by eapply elem_of_sublist, sublist_take.
    + apply list_elem_of_fmap in Hin as (piece & -> & _). by apply Hpage.
    + apply (Hw w); [|done]. by eapply elem_of_sublist, sublist_drop.
  - intros o [Ho|Ho]%elem_of_union; [by apply Hpage|by apply Ht].
Qed.

Lemma original_only_insert i w l : original_only l -> (forall o, o ∈ origins w -> (o < n)%nat) -> original_only (<[i := w]> l).
Proof.
  intros Hl Hw. assert (Hf : Forall (fun x => forall o, o ∈ origins x -> (o < n)%nat) (<[i := w]> l)).
  { apply Forall_insert; [|done]. apply Forall_forall. intros x Hx o. by apply Hl. }
  intros x o Hx. by apply (proj1 (Forall_forall _ _) Hf).
Qed.

Lemma repair_turn_origins position page s position' s' :
  working s !! position = Some page -> origins_below s ->
  repair_turn limits position page s = Ok (position', s') -> origins_below s'.
Proof.
  intros Hp [Hw Ht] H.
  assert (Hat : forall i w, working s !! i = Some w -> forall o, o ∈ origins w -> (o < n)%nat).
  { intros i w Hi o. by apply Hw, (list_elem_of_lookup_2 _ i). }
  assert (Hboth : forall i w j w', working s !! i = Some w -> working s !! j = Some w' ->
    forall o, o ∈ touch_both w w' (touched s) -> (o < n)%nat).
  { intros i w j w' Hi Hj o. unfold touch_both. rewrite !elem_of_union. intros [[Ho|Ho]|Ho]; eauto. }
  assert (Hmerge : forall i action s'', merge_at limits i action s = Ok s'' -> origins_below s'').
  { intros i action s'' Hm. unfold merge_at in Hm. step_result Hm. option_facts. injection Hm as <-.
    split; cbn [working touched]; [|by eauto].
    apply original_only_insert; [|cbn; intros o [Ho|Ho]%elem_of_union; eauto].
    intros x o Hx. apply Hw. by eapply list_elem_of_delete_inv. }
  unfold repair_turn in H.
  destruct (_ && _); [|destruct (can_lend _ _ _); [|destruct (0 <? position)%nat]]; step_result H; injection H as <- <-; eauto.
  - unfold borrow_from_left in Heqr. step_result Heqr. option_facts. injection Heqr as <-.
    split; cbn [working touched]; [|by eauto]. repeat apply original_only_insert; cbn; eauto.
  - unfold borrow_from_right in Heqr. step_result Heqr. option_facts. injection Heqr as <-.
    split; cbn [working touched]; [|by eauto]. repeat apply original_only_insert; cbn; eauto.
Qed.

Lemma repair_loop_origins fuel position s s' : origins_below s ->
  repair_loop fuel limits position s = Ok s' -> origins_below s'.
Proof.
  revert position s. induction fuel as [|fuel IH]; intros position s Hs H; [done|]. cbn [repair_loop] in H.
  destruct (1 <? _)%nat; [|by injection H as <-]. destruct (working s !! position) as [page|] eqn:E; [|by injection H as <-].
  destruct (_ <=? _); [by apply IH in H|]. destruct (repair_turn _ _ _ _) as [[position' s2]|] eqn:Er; [|done].
  apply IH in H; [done|]. by eapply repair_turn_origins.
Qed.
End Origins.

Lemma plan_touched_range pages operations limits p o :
  plan_mixed_leaf_updates pages operations limits = Ok p -> o ∈ touched_original_pages p -> (o < length pages)%nat.
Proof.
  intros H Ho. unfold plan_mixed_leaf_updates in H. step_result H. injection H as <-. cbn [touched_original_pages] in Ho.
  rewrite elem_of_ascending_pages in Ho. revert o Ho.
  match goal with |- forall o, o ∈ touched ?s -> _ => enough (Hs : origins_below (length pages) s) by apply Hs end.
  eapply repair_loop_origins; [|eassumption]. eapply split_loop_origins; [|eassumption].
  eapply apply_pages_origins; [|split|eassumption]; [done| |]; intros ?; cbn; set_solver.
Qed.

Lemma split_all_fits limits s : 0 < minimum limits <= capacity limits -> Forall (fits limits) (working s) -> split_all limits s = s.
Proof.
  intros Hmin Hf. destruct (split_fits limits Hmin (working s) [] 0%nat Hf) as (E1 & E2 & E3). rewrite app_nil_r in *. cbn [fmap list_fmap concat split_actions] in *.
  unfold split_all. rewrite E1, E2, E3, !app_nil_r. destruct s as [w t acts]. cbn. f_equal. unfold split_origins. set_solver.
Qed.

(** Without a page to split and with a run that ends within the actions
    allowed, that run decides. *)
Lemma repaired_by_run limits s position s' r : 0 < minimum limits <= capacity limits ->
  Forall (fits limits) (working s) -> len (working s) <= max_pages limits ->
  rtc (repair_step limits) (0%nat, s) (position, s') -> repair_done (position, s') -> len (done_actions s') <= max_actions limits ->
  repaired_by limits s r -> r = Ok s' \/ r = Err InvalidPage /\ ~ pages_ok limits (ids <$> working s').
Proof.
  intros Hmin Hf Hcount Hr Hd Ha Hrun. pose proof (repair_actions_grow limits Hmin _ _ Hr) as Hg. cbn [snd] in Hg.
  assert (Hfit : forall w, w ∈ working s -> overfull limits w = false) by (intros w Hw; by apply split_page_fits, (proj1 (Forall_forall _ _) Hf)).
  pose proof (repair_run_end limits Hmin (0%nat, s) (position, s')) as Hend. specialize (fun r => Hend r Hr Hd Ha). cbn [snd] in Hend.
  unfold repaired_by in Hrun. rewrite (split_all_fits limits s Hmin Hf) in Hrun. destruct r as [s2|[]]; try done.
  - destruct Hrun as (_ & _ & (position2 & Hr2 & Hd2) & Ha2). left. specialize (Hend (Ok s2)). rewrite Hend; [done|]. by exists position2.
  - destruct Hrun as [Hrun|(st & Hr2 & [Hst|[Hst Hbad]])].
    + apply Exists_exists in Hrun as (w & Hw & [Ho _]). rewrite (Hfit w Hw) in Ho. done.
    + specialize (Hend (Err InvalidPage)). rewrite Hend; [by left|]. by exists st.
    + right. split; [done|]. destruct st as [position2 s2]. cbn [snd] in *.
      enough (Ok s2 = Ok s' :> result MixedLeafPlanError Planning) as [= <-] by done. apply Hend. exists position2. split_and!; [done|done|]. intros _.
      assert (E : (position2, s2) = (position, s')); [|by injection E as -> ->].
      clear -Hmin Hr Hd Hr2 Hst. remember (position, s') as e eqn:E. clear E. remember (position2, s2) as e2 eqn:E. clear E.
      induction Hr2 as [x|x y z Hxy _ IH]; inversion Hr as [|? y' ? Hxy' Hr']; subst; [done|by apply repair_step_not_end in Hxy' as [? _]|
        by apply repair_step_not_end in Hxy as [? _]|]. rewrite (repair_step_det _ Hmin _ _ _ Hxy' Hxy) in Hr'. by apply IH.
  - destruct Hrun as [[-> [Hm|Hm]]|[-> [Hm|Hm]]].
    + lia.
    + destruct Hm as (st & st' & H1 & H2 & H3). specialize (Hend (Err (Limit "action count"))). rewrite Hend; [by left|]. split; [done|]. by exists st, st'.
    + lia.
    + apply Exists_exists in Hm as (w & Hw & [Ho _]). rewrite (Hfit w Hw) in Ho. done.
Qed.

(** ** Deletions from the last page *)

Section LastPage.
Context (limits : MixedLeafPlanLimits) (pages : list (list N)) (a b deleted : list N).
Context (Hin : input_ok limits (pages ++ [a; b])) (Hlim : limits_ok limits = true).
Context (Hsub : deleted ⊆ b) (Hnd : NoDup deleted) (Hne : deleted <> []).

Let operations : list MixedPlanOperation := Delete <$> deleted.
Let b' : list N := filter (fun x => x ∉ deleted) b.

Lemma last_lookup : (pages ++ [a; b]) !! S (length pages) = Some b.
Proof. rewrite lookup_app_r by lia. by replace (S (length pages) - length pages)%nat with 1%nat by lia. Qed.

Lemma deleted_home i : operations_for (pages ++ [a; b]) operations i = if decide (i = S (length pages)) then operations else [].
Proof.
  destruct Hin as [[_ _ Hs Ho] _]. unfold operations_for.
  assert (Hh : forall o, o ∈ operations -> home (pages ++ [a; b]) (operation_id o) = S (length pages)).
  { intros o (x & -> & Hx)%list_elem_of_fmap. apply (home_at (pages ++ [a; b]) x (S (length pages)) b).
    - eapply Forall_impl; [exact Hs|]. by intros ? [? _].
    - done.
    - apply last_lookup.
    - by apply Hsub. }
  revert Hh. generalize operations. intros ops Hh. destruct (decide (i = S (length pages))) as [->|Hi].
  - induction ops as [|o ops IH]; [done|]. rewrite filter_cons, decide_True by (apply Hh; by left). f_equal. apply IH. intros o' Ho'. apply Hh. by right.
  - induction ops as [|o ops IH]; [done|]. rewrite filter_cons, decide_False by (rewrite (Hh o) by (by left); congruence). apply IH.
    intros o' Ho'. apply Hh. by right.
Qed.

Lemma page_in_order i page : (pages ++ [a; b]) !! i = Some page -> StronglySorted N.lt page.
Proof.
  destruct Hin as [[_ _ _ Hs] _]. revert Hs i. clear. generalize (pages ++ [a; b]). induction l as [|p l IH]; intros Hs i Hi; [done|].
  cbn [concat] in Hs. apply sorted_app in Hs as (Hp & Hs & _). destruct i as [|i]; [by injection Hi as <-|by apply (IH Hs i)].
Qed.

Lemma updated_nothing page l : StronglySorted N.lt page -> updated page [] l -> l = page.
Proof.
  intros Hs [Hl Hu]. apply (StronglySorted_unique_strong N.lt); [lia|done|done|].
  apply NoDup_Permutation; [by apply sorted_NoDup|by apply sorted_NoDup|]. intros x. rewrite Hu. set_solver.
Qed.

Lemma filter_in_order (P : N -> Prop) `{!forall x, Decision (P x)} (l : list N) : StronglySorted N.lt l -> StronglySorted N.lt (filter P l).
Proof.
  induction 1 as [|x l Hs IH Hf]; [constructor|]. rewrite filter_cons. destruct (decide (P x)); [|done]. constructor; [done|].
  apply Forall_forall. intros y [_ Hy]%list_elem_of_filter. by apply (proj1 (Forall_forall _ _) Hf).
Qed.

Lemma updated_deleted l : updated b operations l -> l = b'.
Proof.
  intros [Hl Hu]. pose proof (page_in_order _ _ last_lookup) as Hb. apply (StronglySorted_unique_strong N.lt); [lia|done|by apply filter_in_order|].
  apply NoDup_Permutation; [by apply sorted_NoDup|apply NoDup_filter; by apply sorted_NoDup|]. intros x. unfold b'.
  rewrite Hu, list_elem_of_filter. unfold operations. rewrite !list_elem_of_fmap. split.
  - intros [[Hx Hd]|(y & [=] & _)]. split; [|done]. intros Hx'. apply Hd. by exists x.
  - intros [Hx Hb']. left. split; [done|]. intros (y & [= ->] & Hy). by apply Hx.
Qed.

Lemma last_working s : batch_applied (pages ++ [a; b]) operations s -> ids <$> working s = pages ++ [a; b'].
Proof.
  intros Hs. apply list_eq. intros i. rewrite list_lookup_fmap.
  destruct ((pages ++ [a; b]) !! i) as [page|] eqn:Hi.
  - destruct (ba_page _ _ _ Hs i page Hi) as (l & -> & Hu). cbn [fmap option_fmap option_map ids]. rewrite deleted_home in Hu.
    destruct (decide (i = S (length pages))) as [->|Hn].
    + rewrite last_lookup in Hi. injection Hi as <-. rewrite (updated_deleted l Hu). rewrite lookup_app_r by lia.
      by replace (S (length pages) - length pages)%nat with 1%nat by lia.
    + rewrite (updated_nothing page l (page_in_order _ _ Hi) Hu). rewrite cons_middle, app_assoc in Hi |- *.
      pose proof (lookup_lt_Some _ _ _ Hi) as Hlt. rewrite !length_app in Hlt. cbn [length] in Hlt.
      rewrite lookup_app_l in Hi by (rewrite length_app; cbn [length]; lia). by rewrite lookup_app_l by (rewrite length_app; cbn [length]; lia).
  - rewrite lookup_ge_None in Hi. rewrite !lookup_ge_None_2; [done| |].
    + rewrite length_app in *. exact Hi.
    + rewrite (ba_length _ _ _ Hs). exact Hi.
Qed.

Lemma last_actions : len (batch_actions (pages ++ [a; b]) operations) = 1.
Proof.
  unfold batch_actions. rewrite length_app. cbn [length]. rewrite Nat.add_comm. change (2 + length pages)%nat with (S (S (length pages))).
  rewrite seq_S, seq_S, !fmap_app, <- app_assoc. cbn [fmap list_fmap Nat.add app]. rewrite (deleted_home (length pages)), (deleted_home (S (length pages))).
  rewrite decide_False, decide_True by lia.
  assert (E : forall n k ps bp, (n + k <= length pages)%nat -> length ps = k ->
    pages_actions n (ps ++ [a; b]) ((operations_for (pages ++ [a; b]) operations <$> seq n k) ++ bp) = pages_actions (n + k) [a; b] bp).
  { intros n k. revert n. induction k as [|k IH]; intros n [|p ps] bp Hn Hk; try done; [cbn; by rewrite Nat.add_0_r|].
    cbn [seq fmap list_fmap app pages_actions]. rewrite deleted_home, decide_False by lia. cbn [apply_actions app].
    rewrite IH; [by rewrite Nat.add_succ_r|lia|by injection Hk]. }
  rewrite (E 0%nat (length pages) pages) by (done || lia). unfold operations. destruct deleted; [done|]. done.
Qed.

(** The whole run: every page is passed, and the last one borrows. *)
Lemma last_run s l x : batch_applied (pages ++ [a; b]) operations s -> a = l ++ [x] -> minimum limits < len a -> len b' < minimum limits -> 2 <= max_actions limits ->
  exists s', rtc (repair_step limits) (0%nat, s) (S (S (length pages)), s') /\ repair_done (S (S (length pages)), s') /\
    ids <$> working s' = pages ++ [l; x :: b'] /\ done_actions s' = done_actions s ++ [BorrowFromLeft (S (length pages))].
Proof.
  intros Hs Ha Hlend Hlow Hmax. pose proof (last_working s Hs) as Hw. destruct s as [w t acts]. cbn [working done_actions] in *.
  apply fmap_app_inv in Hw as (pre & rest & Hpre & Hrest & ->). destruct rest as [|wa [|wb [|]]]; try done. injection Hrest as Hwa Hwb.
  destruct wa as [ia oa]. cbn [ids] in Hwa. subst ia. rewrite Ha in Hlend.
  assert (Hlen : length pages = length pre) by (rewrite Hpre; by rewrite length_fmap). rewrite Hlen.
  assert (Hshape : forall page, page ∈ pages -> enough limits (mkWorking page ∅)).
  { destruct Hin as [[_ _ Hsh _] _]. intros page Hp. pose proof (proj1 (Forall_forall _ _) Hsh page) as (_ & _ & Hm); [set_solver|].
    apply Hm. rewrite len_app. unfold len. cbn. lia. }
  assert (Hpass : forall p1 p2, pre = p1 ++ p2 -> rtc (repair_step limits)
    (0%nat, mkPlanning (pre ++ [mkWorking a oa; wb]) t acts) (length p1, mkPlanning (pre ++ [mkWorking a oa; wb]) t acts)).
  { induction p1 as [|p p1 IH] using rev_ind; intros p2 ->; [constructor|]. eapply rtc_r; [apply (IH (p :: p2)); by rewrite <- app_assoc|].
    rewrite length_app, Nat.add_1_r, <- !app_assoc. cbn [app length]. apply step_pass; [by destruct p1, p2|].
    unfold enough in *. apply (Hshape (ids p)). rewrite Hpre. apply list_elem_of_fmap_2, elem_of_app. left. set_solver. }
  eexists. split; [|split; [|split]].
  - etrans; [apply (Hpass pre []); by rewrite app_nil_r|]. eapply rtc_l; [apply step_pass; [by destruct pre|unfold enough; cbn [ids]; rewrite Ha; lia]|].
    eapply rtc_l; [|constructor]. rewrite Ha. apply step_borrow_left; [unfold enough; rewrite <- Hwb; lia|done].
  - right. cbn [fst snd working]. rewrite length_app. cbn [length]. lia.
  - cbn [working]. rewrite fmap_app. cbn [fmap list_fmap ids]. by rewrite <- Hpre, <- Hwb.
  - done.
Qed.

Context (Hmo : 2 * max_objects limits <= U64_MAX) (Hma : 2 <= max_actions limits).
Context (Htot : total_len (pages ++ [a; b]) <= max_objects limits) (Hlend : minimum limits < len a) (Hlow : len b' + 2 <= minimum limits).
Context (l : list N) (x : N) (Ha : a = l ++ [x]).

Lemma deep_concat : concat (pages ++ [a; b]) = concat pages ++ a ++ b.
Proof. rewrite concat_app. cbn. by rewrite app_nil_r. Qed.

Lemma deep_batch_ok : batch_ok (pages ++ [a; b]) operations.
Proof.
  destruct Hin as [_ Hz]. rewrite deep_concat in Hz. split.
  - intros E. by apply fmap_nil_inv in E.
  - unfold operations. rewrite <- list_fmap_compose. by rewrite list_fmap_id.
  - intros o (y & -> & Hy)%list_elem_of_fmap E. cbn [operation_id] in E. subst y. apply Hz. rewrite !elem_of_app. right; right. by apply Hsub.
  - intros y (z & [= ->] & Hz')%list_elem_of_fmap. rewrite deep_concat, !elem_of_app. right; right. by apply Hsub.
Qed.

(** Wherever the batch is applied, the run is the one above. *)
Lemma deep_run s : batch_applied (pages ++ [a; b]) operations s ->
  Forall (fits limits) (working s) /\ len (working s) <= max_pages limits /\ len (done_actions s) = 1 /\
  exists s', rtc (repair_step limits) (0%nat, s) (S (S (length pages)), s') /\ repair_done (S (S (length pages)), s') /\
    ids <$> working s' = pages ++ [l; x :: b'] /\ done_actions s' = done_actions s ++ [BorrowFromLeft (S (length pages))].
Proof.
  intros Hs. destruct Hin as [[_ Hcount Hsh _] _]. split_and!.
  - assert (Hf : Forall (fun p => len p <= capacity limits) (ids <$> working s)); [|by rewrite Forall_fmap in Hf].
    rewrite (last_working s Hs). apply Forall_app in Hsh as [H1 H2]. apply Forall_app.
    split; [eapply Forall_impl; [exact H1|]; by intros p (_ & ? & _)|]. apply Forall_cons in H2 as [(_ & H2 & _) _].
    pose proof (limits_positive _ Hlim). repeat constructor; [done|]. lia.
  - unfold len in *. by rewrite (ba_length _ _ _ Hs).
  - rewrite (ba_actions _ _ _ Hs). apply last_actions.
  - apply last_run; (done || lia).
Qed.

Lemma deep_underfull : ~ pages_ok limits (pages ++ [l; x :: b']).
Proof.
  intros [_ _ Hp _]. apply Forall_app in Hp as [_ Hp]. apply Forall_cons in Hp as [_ Hp]. apply Forall_cons in Hp as [(_ & _ & Hp) _].
  rewrite len_app, (len_cons x) in Hp. change (len [l; x :: b']) with 2 in Hp. lia.
Qed.

Lemma deep_decided s r : batch_applied (pages ++ [a; b]) operations s -> repaired_by limits s r ->
  r = Err InvalidPage \/ exists s', r = Ok s' /\ ids <$> working s' = pages ++ [l; x :: b'].
Proof.
  intros Hs Hr. destruct (deep_run s Hs) as (H1 & H2 & H3 & s' & H4 & H5 & H6 & H7).
  assert (Hact : len (done_actions s') <= max_actions limits) by (rewrite H7, len_app, H3; unfold len; cbn; lia).
  destruct (repaired_by_run _ _ _ _ _ (limits_positive _ Hlim) H1 H2 H4 H5 Hact Hr) as [->|[-> _]]; [right; by exists s'|by left].
Qed.

Lemma deep_within : len operations <= max_objects limits /\
  total_len (pages ++ [a; b]) + count_if (put_new (pages ++ [a; b])) operations - count_if MixedUpdateFacts.deletes operations <= max_objects limits.
Proof.
  split.
  - assert (length deleted <= length b)%nat by (apply submseteq_length, NoDup_submseteq; done). unfold total_len in Htot. rewrite deep_concat in Htot.
    unfold operations, len in *. rewrite !length_app in Htot. rewrite length_fmap. lia.
  - assert (E : forall ps ds, count_if (put_new ps) (Delete <$> ds) = 0); [|unfold operations; rewrite E; lia].
    intros ps ds. induction ds as [|y ds IH]; [done|]. by rewrite fmap_cons, count_if_cons, IH.
Qed.

Lemma deep_kept y : y ∈ a -> y ∉ deleted.
Proof.
  destruct Hin as [[_ _ _ Hs] _]. rewrite deep_concat in Hs. apply sorted_app in Hs as (_ & Hs & _). apply sorted_app in Hs as (_ & _ & Hlt).
  intros Hy Hd. specialize (Hlt y y Hy (Hsub _ Hd)). lia.
Qed.

Lemma deep_deletes y : Delete y ∈ operations <-> y ∈ deleted.
Proof. unfold operations. rewrite list_elem_of_fmap. split; [by intros (? & [= ->] & ?)|by exists y]. Qed.

Lemma deep_refused : plan_mixed_leaf_updates (pages ++ [a; b]) operations limits = Err InvalidPage.
Proof.
  pose proof (batch_plan_cases (pages ++ [a; b]) operations limits Hmo) as Hplan. destruct deep_within as [Hw1 Hw2].
  destruct (plan_mixed_leaf_updates _ _ _) as [p|[]]; cbn [refused] in Hplan; try done; exfalso.
  - destruct Hplan as (_ & _ & _ & Hpl & (s & s' & Hs & Hr & Hfin & _) & _). destruct (deep_decided _ _ Hs Hr) as [|(s2 & [= ->] & E)]; [done|].
    apply deep_underfull. rewrite <- E, <- Hfin. apply Hpl.
  - congruence.
  - destruct Hplan as (l1 & o & l2 & o' & l3 & Hp & Ho & Ho'). pose proof (bo_distinct _ _ deep_batch_ok) as Hd. rewrite Hp, !fmap_app in Hd. csimpl in Hd.
    rewrite fmap_app in Hd. csimpl in Hd. apply NoDup_app in Hd as (_ & _ & Hd). apply NoDup_cons in Hd as [Hd _]. apply Hd. set_solver.
  - destruct Hplan as [Hd Hk]. apply Hk. by apply (bo_known _ _ deep_batch_ok).
  - apply (Hplan x). left. rewrite deep_deletes. assert (Hx : x ∈ a) by (rewrite Ha; set_solver). split; [rewrite deep_concat; set_solver|by apply deep_kept].
  - destruct Hplan as [[_ ?]|[[_ [?|?]]|[[_ Hact]|(s & Hs & Hr)]]]; [lia|lia|lia| |].
    + rewrite last_actions in Hact. lia.
    + by destruct (deep_decided _ _ Hs Hr) as [|(? & ? & _)].
Qed.

Lemma deep_repair : exists s s', batch_applied (pages ++ [a; b]) operations s /\
  repair_loop (S (2 * length (working s))) limits 0 s = Ok s' /\
  ids <$> working s' = pages ++ [l; x :: b'] /\ done_actions s' = done_actions s ++ [BorrowFromLeft (S (length pages))].
Proof.
  pose proof (batch_plan_cases (pages ++ [a; b]) operations limits Hmo) as Hplan. rewrite deep_refused in Hplan. cbn [refused] in Hplan.
  destruct Hplan as [Hp|[Hp|[(o & Ho & Hp)|(_ & s & Hs & _)]]]; [done|by apply fmap_nil_inv in Hp|by apply (bo_nonzero _ _ deep_batch_ok) in Ho|].
  destruct (deep_run s Hs) as (_ & _ & H1 & s' & H4 & H5 & H6 & H7). exists s, s'. split_and!; [done| |done|done].
  assert (Hns : working s <> []) by (intros E; pose proof (ba_length _ _ _ Hs) as Hlen; rewrite E, length_app in Hlen; cbn in Hlen; lia).
  pose proof (limits_positive _ Hlim) as Hmin.
  apply (repair_run_end limits Hmin (0%nat, s) (S (S (length pages)), s')); [done|done| |apply repair_loop_exact; (done || lia)].
  cbn [snd]. rewrite H7, len_app, H1. unfold len. cbn. lia.
Qed.

(** Merging the two pages would have done. *)
Lemma deep_merged : len a + len b' <= capacity limits ->
  pages_ok limits (pages ++ [a ++ b']) /\ forall y, y ∈ concat (pages ++ [a ++ b']) <-> after (pages ++ [a; b]) operations y.
Proof.
  intros Hfit. destruct Hin as [[_ Hcount Hsh Hs] _]. rewrite deep_concat in Hs. apply sorted_app in Hs as (Hs1 & Hs2 & Hlt). apply sorted_app in Hs2 as (Hs3 & Hs4 & Hlt2).
  assert (Hsubl : forall y, y ∈ b' -> y ∈ b) by (intros y Hy; by apply list_elem_of_filter in Hy as [_ ?]).
  assert (Hcat2 : concat (pages ++ [a ++ b']) = concat pages ++ a ++ b') by (rewrite concat_app; cbn; by rewrite app_nil_r).
  rewrite Hcat2. split.
  - apply Forall_app in Hsh as [Hsh _]. rewrite len_app in *. change (len [a; b]) with 2 in *. split.
    + by destruct pages.
    + rewrite len_app. change (len [a ++ b']) with 1. lia.
    + apply Forall_app. split; [|constructor; [|constructor]].
      * eapply Forall_impl; [exact Hsh|]. intros p (? & ? & Hp). split_and!; [done|done|]. intros _. apply Hp. lia.
      * rewrite len_app. split_and!; [|done|lia]. rewrite Ha. by destruct l.
    + rewrite Hcat2. apply sorted_app. split_and!; [done|apply sorted_app; split_and!; [done|by apply filter_in_order|]|].
      * intros y z Hy Hz'. by apply Hlt2, Hsubl.
      * intros y z Hy [Hz'|Hz']%elem_of_app; apply Hlt; [done|set_solver|done|apply elem_of_app; right; by apply Hsubl].
  - intros y. unfold after. rewrite deep_concat, !elem_of_app, deep_deletes. unfold b'. rewrite list_elem_of_filter.
    assert (Hput : Put y ∉ operations) by (intros (? & ? & _)%list_elem_of_fmap; done). split; [|naive_solver].
    intros [Hy|[Hy|Hy]]; left; (split; [tauto|]); [|by apply deep_kept|tauto]. intros Hd. apply Hsub in Hd. specialize (Hlt y y Hy ltac:(set_solver)). lia.
Qed.
End LastPage.

(** C31. [plan_mixed_leaf_updates]: the final pages hold, in ascending order and
    within the occupancy limits, exactly the objects that were not deleted and
    those that were put; the counts are right, and an original page that is not
    reported as touched is among the final pages unchanged. The plan is read
    off one run, which always ends: the batch is applied to the pages the
    objects belong to; every page that overflows is cut into its canonical
    groups; then the repair goes from step to step to its end. It is refused
    with [InvalidPage] only for a malformed input, or because a page has no
    canonical groups, or because the run reaches a page that nobody can lend to
    and that does not fit its neighbour, or ends with pages that are not in
    order; the last never when the minimum leaves room for a split and no page
    falls more than one object below it. A limit is reported only when the
    batch, the objects, the pages or the actions of the run exceed it; every
    other error has its cause too. *)
Theorem plan_applies_batch pages operations limits :
  2 * max_objects limits <= U64_MAX ->
  match plan_mixed_leaf_updates pages operations limits with
  | Ok p => limits_ok limits = true /\ input_ok limits pages /\ batch_ok pages operations /\
      planned pages operations limits p /\ planned_by pages operations limits p /\
      total_len pages <= max_objects limits /\ len operations <= max_objects limits
  | Err e => refused pages operations limits e
  end.
Proof. apply batch_plan_cases. Qed.

Definition small_limits : MixedLeafPlanLimits := mkLeafLimits 5 3 1000 1000 1000.

Lemma plan_applies_batch_witness :
  exists p, plan_mixed_leaf_updates [[2; 4; 6; 8; 10]; [12; 14; 16]] [Put 1; Put 3; Delete 12; Delete 14] small_limits = Ok p /\
  final_pages p = [[1; 2; 3; 4]; [6; 8; 10; 16]] /\
  actions p = [Apply 0 2 0 0; Apply 1 0 0 2; Split 0 [4; 3]; MergeWithLeft 2] /\
  planned [[2; 4; 6; 8; 10]; [12; 14; 16]] [Put 1; Put 3; Delete 12; Delete 14] small_limits p /\
  planned_by [[2; 4; 6; 8; 10]; [12; 14; 16]] [Put 1; Put 3; Delete 12; Delete 14] small_limits p.
Proof.
  assert (Hm : 2 * max_objects small_limits <= U64_MAX) by (apply N.leb_le; vm_compute; reflexivity).
  pose proof (plan_applies_batch [[2; 4; 6; 8; 10]; [12; 14; 16]] [Put 1; Put 3; Delete 12; Delete 14] small_limits Hm) as Ht.
  destruct (plan_mixed_leaf_updates _ _ _) as [p|e] eqn:E.
  - exists p. split; [reflexivity|]. assert (E' := E). vm_compute in E'. injection E' as <-.
    split; [reflexivity|]. split; [reflexivity|]. destruct Ht as (_ & _ & _ & H1 & H2 & _). exact (conj H1 H2).
  - exfalso. revert E. vm_compute. discriminate.
Defined.

(** The order in which a caller lists the operations of a batch does not
    matter: permuted batches give the same plan or the same error. *)
Theorem batch_order_irrelevant pages operations operations' limits :
  operations ≡ₚ operations' ->
  plan_mixed_leaf_updates pages operations limits = plan_mixed_leaf_updates pages operations' limits.
Proof. apply plan_order_irrelevant. Qed.

Lemma batch_order_irrelevant_witness :
  plan_mixed_leaf_updates [[2; 4; 6]; [8; 10; 12]] [Delete 2; Put 1; Put 7] small_limits =
  plan_mixed_leaf_updates [[2; 4; 6]; [8; 10; 12]] [Put 7; Delete 2; Put 1] small_limits /\
  is_ok (plan_mixed_leaf_updates [[2; 4; 6]; [8; 10; 12]] [Put 7; Delete 2; Put 1] small_limits) = true.
Proof.
  split; [|vm_compute; reflexivity]. apply batch_order_irrelevant.
  apply (Permutation_app_comm [Delete 2; Put 1] [Put 7]).
Defined.

(** C27. A last page that deletions leave two or more objects below the minimum
    borrows one object from a left neighbour that can lend, and is then passed
    over: the repair ends with that page still below the minimum, and the plan
    is refused with [InvalidPage] although the pages, the batch and the limits
    are all in order; also when the remaining objects of the two pages fit one
    page, so that merging them would give pages in order with exactly the
    objects the batch leaves. *)
Theorem plan_refuses_deep_underflow limits pages a b deleted :
  2 * max_objects limits <= U64_MAX -> limits_ok limits = true -> 2 <= max_actions limits ->
  input_ok limits (pages ++ [a; b]) -> total_len (pages ++ [a; b]) <= max_objects limits ->
  deleted ⊆ b -> NoDup deleted -> deleted <> [] ->
  let left := filter (fun x => x ∉ deleted) b in
  minimum limits < len a -> len left + 2 <= minimum limits ->
  plan_mixed_leaf_updates (pages ++ [a; b]) (Delete <$> deleted) limits = Err InvalidPage /\
  (exists s l x s', batch_applied (pages ++ [a; b]) (Delete <$> deleted) s /\ a = l ++ [x] /\
    repair_loop (S (2 * length (working s))) limits 0 s = Ok s' /\
    ids <$> working s' = pages ++ [l; x :: left] /\ done_actions s' = done_actions s ++ [BorrowFromLeft (S (length pages))]) /\
  batch_ok (pages ++ [a; b]) (Delete <$> deleted) /\
  (len a + len left <= capacity limits ->
    pages_ok limits (pages ++ [a ++ left]) /\
    forall x, x ∈ concat (pages ++ [a ++ left]) <-> after (pages ++ [a; b]) (Delete <$> deleted) x).
Proof.
  intros Hmo Hlim Hma Hin Htot Hsub Hnd Hne left Hlend Hlow.
  assert (Ha : exists l x, a = l ++ [x]) by (destruct a as [|x l _] using rev_ind; [unfold len in Hlend; cbn in Hlend; lia|by exists l, x]).
  destruct Ha as (l & x & Ha). split_and!.
  - by eapply deep_refused.
  - edestruct deep_repair as (s & s' & H1 & H2 & H3 & H4); [..|exists s, l, x, s'; split_and!; [exact H1|exact Ha|exact H2|exact H3|exact H4]]; done.
  - by eapply deep_batch_ok.
  - by eapply deep_merged.
Qed.

Lemma plan_refuses_deep_underflow_witness :
  plan_mixed_leaf_updates [[1; 2; 3; 4]; [5; 6; 7]] [Delete 6; Delete 7] small_limits = Err InvalidPage /\
  pages_ok small_limits [[1; 2; 3; 4; 5]].
Proof.
  assert (Hin : input_ok small_limits ([] ++ [[1; 2; 3; 4]; [5; 6; 7]])).
  { split; [|cbn; set_solver by lia]. pose proof (validate_final_cases [[1; 2; 3; 4]; [5; 6; 7]] small_limits) as Hv.
    destruct (validate_final_pages _ _) eqn:E; [apply Hv|]. exfalso. revert E. vm_compute. discriminate. }
  assert (Hsub : [6; 7] ⊆ [5; 6; 7]) by set_solver.
  assert (Hnd : NoDup [6; 7]) by (repeat constructor; set_solver).
  destruct (plan_refuses_deep_underflow small_limits [] [1; 2; 3; 4] [5; 6; 7] [6; 7]) as (H1 & _ & _ & H2);
    [apply N.leb_le; vm_compute; reflexivity|reflexivity|apply N.leb_le; vm_compute; reflexivity|exact Hin|
     apply N.leb_le; vm_compute; reflexivity|exact Hsub|exact Hnd|discriminate|apply N.ltb_lt; vm_compute; reflexivity|
     apply N.leb_le; vm_compute; reflexivity|].
  split; [exact H1|]. apply H2. apply N.leb_le. vm_compute. reflexivity.
Defined.
