(* ===== verification/MixedTree.v ===== *)
(** [crates/ucof-experiments/src/mixed_tree_plan.rs]: the internal levels above
    the leaves planned by [MixedUpdate], before and after a batch, and the
    original internal pages that lie above a change. *)

From Stdlib Require Import Strings.Byte Strings.String NArith ZArith Lia.
From stdpp Require Import base list gmap strings sorting.
From S2P Require Import Prelude Order Errors MixedUpdate.

Local Open Scope N_scope.

Record MixedTreePlanLimits : Type := mkTreeLimits {
  leaf_limits : MixedLeafPlanLimits;
  internal_fanout : N;
  internal_minimum : N;
  max_depth : N;
  max_internal_pages : N;
}.

Definition default_tree_limits : MixedTreePlanLimits := mkTreeLimits default_leaf_limits 84 42 8 100000.

Inductive MixedRootTransition : Type := Stable | Grew | Collapsed.

Record MixedTreeShape : Type := mkShape {
  level_page_counts : list N;
  internal_group_sizes : list (list N);
  root_level : nat;
}.

Record MixedTreePlan : Type := mkTreePlan {
  leaf : MixedLeafPlan;
  original : MixedTreeShape;
  final_shape : MixedTreeShape;
  root_transition : MixedRootTransition;
  conservative_touched_original_internal_pages : list (list nat);
}.

Inductive MixedTreePlanError : Type :=
  | Leaf (error : MixedLeafPlanError)
  | InvalidLimits
  | Limit (label : string).

Definition tree_error_to_string (e : MixedTreePlanError) : string :=
  match e with
  | Leaf error => leaf_error_to_string error
  | InvalidLimits => "invalid mixed tree plan limits"
  | Limit label => "mixed tree plan " ++ label ++ " limit exceeded"
  end%string.

(** [?] on a result of the leaf planner. *)
Definition lift_leaf {A} (r : result MixedLeafPlanError A) : result MixedTreePlanError A :=
  match r with Ok a => Ok a | Err e => Err (Leaf e) end.

(** ** Shapes *)

Definition canonical_group_sizes (total capacity minimum max_pages : N) : result MixedTreePlanError (list N) :=
  let* rounded := ok_or (checked_add total (capacity - 1)) (Limit "page count") in
  let groups := rounded / capacity in
  check negb ((groups =? 0) || (max_pages <? groups)) else Limit "page count" in
  if groups =? 1 then Ok [total]
  else
    let full_groups := total / capacity in
    let remainder := total mod capacity in
    let* sizes :=
      if remainder =? 0 then Ok (replicate (N.to_nat full_groups) capacity)
      else if minimum <=? remainder then Ok (replicate (N.to_nat full_groups) capacity ++ [remainder])
      else
        let* prefix := ok_or (checked_sub full_groups 1) InvalidLimits in
        let transfer := minimum - remainder in
        Ok (replicate (N.to_nat prefix) capacity ++ [capacity - transfer; minimum]) in
    check (len sizes =? groups) && (sum_sizes sizes =? total) &&
          forallb (fun size => (minimum <=? size) && (size <=? capacity)) sizes
      else InvalidLimits in
    Ok sizes.

(** [while current > 1]: every level has at most half the pages of the one
    below, rounded up ([MixedTreeFacts.shape_loop_cases]). *)
Fixpoint shape_loop (fuel : nat) (limits : MixedTreePlanLimits) (current internal_pages : N)
    (counts : list N) (groups : list (list N)) : result MixedTreePlanError MixedTreeShape :=
  match fuel with
  | O => Err (Limit "depth")
  | S fuel =>
      if 1 <? current then
        check negb (max_depth limits <=? len groups) else Limit "depth" in
        let* sizes :=
          if current <=? internal_fanout limits then Ok [current]
          else canonical_group_sizes current (internal_fanout limits) (internal_minimum limits)
                 (max_internal_pages limits) in
        let* internal_pages := ok_or (checked_add internal_pages (len sizes)) (Limit "page count") in
        check negb (max_internal_pages limits <? internal_pages) else Limit "page count" in
        shape_loop fuel limits (len sizes) internal_pages (counts ++ [len sizes]) (groups ++ [sizes])
      else Ok (mkShape counts groups (length groups))
  end.

Definition build_shape (leaf_count : N) (limits : MixedTreePlanLimits) : result MixedTreePlanError MixedTreeShape :=
  check negb (leaf_count =? 0) else InvalidLimits in
  shape_loop (S (N.to_nat (N.log2_up leaf_count))) limits leaf_count 0 [leaf_count] [].

(** ** Original pages above a change *)

(** [start] is where the first of [groups], of index [parent], begins. *)
Fixpoint parent_loop (child_index : nat) (start : N) (parent : nat) (groups : list N)
    : result MixedTreePlanError nat :=
  match groups with
  | [] => Err InvalidLimits
  | count :: groups =>
      let* end_ := ok_or (checked_add start count) (Limit "page count") in
      if N.of_nat child_index <? end_ then Ok parent else parent_loop child_index end_ (S parent) groups
  end.

Definition parent_index (child_index : nat) (groups : list N) : result MixedTreePlanError nat :=
  parent_loop child_index 0 0 groups.

(** [Vec::dedup]: runs of equal elements become one. *)
Fixpoint dedup (l : list nat) : list nat :=
  match l with
  | x :: ((y :: _) as l') => if (x =? y)%nat then dedup l' else x :: dedup l'
  | _ => l
  end.

(** [v.sort_unstable(); v.dedup()] *)
Definition sort_dedup (l : list nat) : list nat := dedup (sort_by Nat.compare l).

(** [for level in 0..original.root_level]; a shape has [root_level] vectors of
    groups ([MixedTreeFacts.shape_of]). *)
Fixpoint touched_levels (original final_shape : MixedTreeShape) (levels : list nat) (structural_change : bool)
    (touched_children : list nat) : result MixedTreePlanError (list (list nat)) :=
  match levels with
  | [] => Ok []
  | level :: levels =>
      let original_groups := default [] (internal_group_sizes original !! level) in
      let structural_change := structural_change ||
        negb (bool_decide (internal_group_sizes final_shape !! level = Some original_groups)) in
      let* touched_parents :=
        if structural_change then Ok (seq 0 (length original_groups))
        else
          let* parents := map_result (fun child => parent_index child original_groups) touched_children in
          Ok (sort_dedup parents) in
      let* rest := touched_levels original final_shape levels structural_change touched_parents in
      Ok (touched_parents :: rest)
  end.

(** [level_page_counts[0]] exists: it is the number of leaves. *)
Definition conservative_touched_internal_pages (original final_shape : MixedTreeShape) (touched_leaves : list nat)
    : result MixedTreePlanError (list (list nat)) :=
  let structural_change := negb (bool_decide (head (level_page_counts original) = head (level_page_counts final_shape))) in
  touched_levels original final_shape (seq 0 (root_level original)) structural_change (sort_dedup touched_leaves).

(** ** [plan_mixed_tree_updates] *)

Definition tree_limits_ok (limits : MixedTreePlanLimits) : bool :=
  negb ((internal_fanout limits <? 2) || (internal_minimum limits =? 0) ||
        (internal_fanout limits <? internal_minimum limits) || (max_internal_pages limits =? 0)).

Definition transition (original final_shape : MixedTreeShape) : MixedRootTransition :=
  match Nat.compare (root_level final_shape) (root_level original) with
  | Gt => Grew
  | Lt => Collapsed
  | Eq => Stable
  end.

Definition plan_mixed_tree_updates (original_leaves : list (list N)) (operations : list MixedPlanOperation)
    (limits : MixedTreePlanLimits) : result MixedTreePlanError MixedTreePlan :=
  check tree_limits_ok limits else InvalidLimits in
  let* leaf := lift_leaf (plan_mixed_leaf_updates original_leaves operations (leaf_limits limits)) in
  let* original := build_shape (len original_leaves) limits in
  let* final_shape := build_shape (len (final_pages leaf)) limits in
  let* conservative := conservative_touched_internal_pages original final_shape (touched_original_pages leaf) in
  Ok (mkTreePlan leaf original final_shape (transition original final_shape) conservative).
