(* ===== verification/MixedTreeFacts.v ===== *)
(** Facts about the tree planner: the shapes it builds are the canonical trees
    over the leaves, and the original internal pages it lists are those above a
    touched leaf or at a level where the grouping changed. *)

From Stdlib Require Import Strings.Byte Strings.String NArith ZArith Lia.
From stdpp Require Import base list gmap strings sorting.
From S2P Require Import Prelude Order Errors MixedUpdate MixedUpdateFacts MixedUpdatePlan MixedTree.

Local Open Scope N_scope.

(** ** Group sizes *)

Definition tree_room (limits : MixedTreePlanLimits) : Prop := 2 * internal_minimum limits <= internal_fanout limits + 1.

Definition group_ok (limits : MixedTreePlanLimits) (n : N) : Prop :=
  internal_minimum limits <= n <= internal_fanout limits.

(** Above one full group the leaf planner's function decides. *)
Lemma group_sizes_leaf total c m mp :
  0 < c < total ->
  canonical_group_sizes total c m mp =
    match MixedUpdate.canonical_group_sizes total (mkLeafLimits c m 1 mp 1) with
    | Ok sizes => Ok sizes
    | Err (MixedUpdate.Limit label) => Err (Limit label)
    | Err _ => Err InvalidLimits
    end.
Proof.
  intros Hc. unfold canonical_group_sizes, MixedUpdate.canonical_group_sizes. cbn [capacity minimum max_pages].
  destruct (N.eqb_spec total 0); [lia|]. cbn [negb].
  destruct (checked_add _ _) as [r|] eqn:Er; cbn [ok_or]; [|done]. apply checked_add_Some in Er as [-> _].
  set (g := (total + (c - 1)) / c). assert (Hg : 2 <= g) by (apply N.div_le_lower_bound; lia).
  destruct (N.eqb_spec g 0); [lia|]. destruct (N.eqb_spec g 1); [lia|]. cbn [orb].
  destruct (mp <? g); cbn [negb]; [done|]. destruct (_ =? 0); [by destruct (_ && _)|].
  destruct (m <=? _); [by destruct (_ && _)|]. destruct (checked_sub _ _); cbn [ok_or]; [|done]. by destruct (_ && _).
Qed.

(** ** Shapes *)

(** The levels above a row of [count] pages: [count] pages are grouped under
    the fewest parents, in the canonical sizes, every group within the limits,
    up to one root. *)
Definition level_sizes (limits : MixedTreePlanLimits) (count : N) : list N :=
  canonical_sizes (internal_fanout limits) (internal_minimum limits) count.

Inductive levels_of (limits : MixedTreePlanLimits) : N -> list (list N) -> Prop :=
  | levels_root : levels_of limits 1 []
  | levels_above count sizes rest :
      1 < count -> sum_sizes sizes = count ->
      len sizes = (count + (internal_fanout limits - 1)) / internal_fanout limits ->
      sizes = level_sizes limits count /\ (internal_fanout limits < count -> Forall (group_ok limits) sizes) ->
      levels_of limits (len sizes) rest ->
      levels_of limits count (sizes :: rest).

Definition internal_count (groups : list (list N)) : N := sum_sizes (len <$> groups).

Lemma one_group count f : 1 < count -> count <= f -> (count + (f - 1)) / f = 1.
Proof. intros. symmetry. apply (N.div_unique _ _ _ (count - 1)); lia. Qed.

Section Shapes.
Context (limits : MixedTreePlanLimits) (Hl : tree_limits_ok limits = true).

Lemma fanout_bounds : 2 <= internal_fanout limits /\ 0 < internal_minimum limits <= internal_fanout limits.
Proof. unfold tree_limits_ok in Hl. rewrite negb_true_iff in Hl. bool_facts. lia. Qed.

Definition sizes_of (current : N) : result MixedTreePlanError (list N) :=
  if current <=? internal_fanout limits then Ok [current]
  else canonical_group_sizes current (internal_fanout limits) (internal_minimum limits) (max_internal_pages limits).

Lemma sizes_of_cases current : 1 < current ->
  match sizes_of current with
  | Ok sizes => sum_sizes sizes = current /\
      len sizes = (current + (internal_fanout limits - 1)) / internal_fanout limits /\
      sizes = level_sizes limits current /\ (internal_fanout limits < current -> Forall (group_ok limits) sizes)
  | Err (Limit label) => label = "page count"%string /\ internal_fanout limits < current /\
      (max_internal_pages limits < len (level_sizes limits current) \/ U64_MAX < current + (internal_fanout limits - 1))
  | Err e => e = InvalidLimits /\ ~ tree_room limits /\ internal_fanout limits < current /\ ~ Forall (group_ok limits) (level_sizes limits current)
  end.
Proof.
  intros Hc. destruct fanout_bounds as [Hf Hm]. unfold sizes_of, level_sizes.
  destruct (N.leb_spec current (internal_fanout limits)) as [Hle|Hlt].
  { unfold canonical_sizes. rewrite one_group by done. split_and!; [cbn; lia|done|done|lia]. }
  rewrite group_sizes_leaf by lia. set (ll := mkLeafLimits _ _ _ _ _).
  pose proof (group_sizes_exact current ll ltac:(cbn; lia) ltac:(cbn; lia)) as Hg.
  pose proof (canonical_sizes_within ll current ltac:(cbn; lia) ltac:(cbn; lia)) as Hw. cbv zeta in Hg. cbn [capacity minimum ll max_pages] in Hg, Hw.
  destruct (canonical_sizes_total (internal_fanout limits) (internal_minimum limits) current Hm Hlt) as [Hs Hn].
  destruct (MixedUpdate.canonical_group_sizes _ _) as [sizes|[]]; try done.
  - destruct Hg as [-> Hg]. by split_and!.
  - split_and!; [done| |done|done]. intros Hr. by apply Hg, Hw.
  - destruct Hg as [-> Hg]. split_and!; [done|done|]. destruct Hg; [by right|by left].
Qed.

(** A tree over more than one page starts with the canonical groups. *)
Lemma levels_of_cons current groups : levels_of limits current groups -> 1 < current ->
  exists rest, groups = level_sizes limits current :: rest /\ levels_of limits (len (level_sizes limits current)) rest /\
    (internal_fanout limits < current -> Forall (group_ok limits) (level_sizes limits current)).
Proof. destruct 1 as [|count sizes rest Hc Hs Hlen [-> Hg] Hr]; [lia|]. intros _. by exists rest. Qed.

(** Why there is no shape over [current] pages, below [depth] levels and
    [pages] internal pages. *)
Definition shape_refused (depth pages current : N) (e : MixedTreePlanError) : Prop :=
  match e with
  | Limit label =>
      label = "depth"%string /\ max_depth limits < depth + N.log2_up current /\
        (forall rest, levels_of limits current rest -> max_depth limits < depth + len rest) \/
      label = "page count"%string /\
        ((forall rest, levels_of limits current rest -> N.min (max_internal_pages limits) U64_MAX < pages + internal_count rest) \/
         U64_MAX < current + (internal_fanout limits - 1))
  | InvalidLimits => ~ tree_room limits /\ forall rest, ~ levels_of limits current rest
  | Leaf _ => False
  end.

Lemma internal_count_cons sizes rest : internal_count (sizes :: rest) = len sizes + internal_count rest.
Proof. unfold internal_count, sum_sizes. cbn. lia. Qed.

Lemma shape_refused_next depth pages current e : 1 < current -> len (level_sizes limits current) < current ->
  N.log2_up (len (level_sizes limits current)) < N.log2_up current ->
  shape_refused (depth + 1) (pages + len (level_sizes limits current)) (len (level_sizes limits current)) e -> shape_refused depth pages current e.
Proof.
  intros Hc Hlt Hlog. unfold shape_refused. destruct e as [|  |label]; [done| |].
  - intros [Hr Hn]. split; [done|]. intros rest Hrest. destruct (levels_of_cons _ _ Hrest Hc) as (rest' & -> & Hrest' & _). by apply (Hn rest').
  - intros [(-> & Hd & Hn)|(-> & [Hn|Hn])]; [left|right; split; [done|left]|right; split; [done|right; lia]].
    + split_and!; [done|lia|]. intros rest Hrest. destruct (levels_of_cons _ _ Hrest Hc) as (rest' & -> & Hrest' & _). specialize (Hn _ Hrest'). rewrite len_cons. lia.
    + intros rest Hrest. destruct (levels_of_cons _ _ Hrest Hc) as (rest' & -> & Hrest' & _). specialize (Hn _ Hrest'). rewrite internal_count_cons. lia.
Qed.

Lemma shape_loop_step fuel current internal_pages counts groups :
  shape_loop (S fuel) limits current internal_pages counts groups =
  (if 1 <? current then
     check negb (max_depth limits <=? len groups) else Limit "depth" in
     let* sizes := sizes_of current in
     let* internal_pages := ok_or (checked_add internal_pages (len sizes)) (Limit "page count") in
     check negb (max_internal_pages limits <? internal_pages) else Limit "page count" in
     shape_loop fuel limits (len sizes) internal_pages (counts ++ [len sizes]) (groups ++ [sizes])
   else Ok (mkShape counts groups (length groups))).
Proof. done. Qed.

(** The fuel suffices; a refusal is of a tree that there is not. *)
Lemma shape_loop_cases fuel current internal_pages counts groups :
  (N.to_nat (N.log2_up current) < fuel)%nat -> 1 <= current ->
  len groups <= max_depth limits -> internal_pages <= max_internal_pages limits ->
  match shape_loop fuel limits current internal_pages counts groups with
  | Ok s => exists rest, levels_of limits current rest /\
      s = mkShape (counts ++ (len <$> rest)) (groups ++ rest) (length (groups ++ rest)) /\
      len (groups ++ rest) <= max_depth limits /\ internal_pages + internal_count rest <= max_internal_pages limits
  | Err e => shape_refused (len groups) internal_pages current e
  end.
Proof.
  revert current internal_pages counts groups. induction fuel as [|fuel IH]; intros current ip counts groups Hf Hc Hd Hp; [lia|].
  rewrite shape_loop_step. destruct (N.ltb_spec 1 current) as [Hlt|Hge].
  2: { assert (current = 1) as -> by lia. exists []. rewrite !app_nil_r. split_and!; [constructor|done|done|].
       unfold internal_count. cbn. lia. }
  destruct (N.leb_spec (max_depth limits) (len groups)) as [Hmd|Hmd]; cbn [negb].
  { left. split; [done|]. assert (0 < N.log2_up current) by by apply N.log2_up_pos. split; [lia|].
    intros rest Hrest. destruct (levels_of_cons _ _ Hrest Hlt) as (rest' & -> & _). rewrite len_cons. lia. }
  pose proof (sizes_of_cases current Hlt) as Hs. destruct (sizes_of current) as [sizes|[]].
  2: by destruct Hs.
  2: { destruct Hs as (_ & Hr & Hfan & Hn). split; [done|]. intros rest Hrest. destruct (levels_of_cons _ _ Hrest Hlt) as (rest' & -> & _ & Hg). by apply Hn, Hg. }
  2: { destruct Hs as (-> & _ & [Hm|Hm]); right; (split; [done|]); [left|by right]. intros rest Hrest.
       destruct (levels_of_cons _ _ Hrest Hlt) as (rest' & -> & _). rewrite internal_count_cons. lia. }
  destruct Hs as (Hsum & Hlen & Hsizes & Hgroups).
  destruct (fewer_pages (internal_fanout limits) current (len sizes)) as (H1 & H2 & _ & H3); [apply fanout_bounds|done|done|].
  assert (Hover : N.min (max_internal_pages limits) U64_MAX < ip + len sizes -> shape_refused (len groups) ip current (Limit "page count")).
  { intros Ho. right. split; [done|left]. intros rest Hrest. destruct (levels_of_cons _ _ Hrest Hlt) as (rest' & -> & _).
    rewrite internal_count_cons, <- Hsizes. lia. }
  destruct (checked_add _ _) as [ip'|] eqn:Eip; cbn [ok_or].
  2: { apply Hover. unfold checked_add in Eip. destruct (N.leb_spec (ip + len sizes) U64_MAX); [done|lia]. }
  apply checked_add_Some in Eip as [-> _].
  destruct (N.ltb_spec (max_internal_pages limits) (ip + len sizes)) as [Hmp|Hmp]; cbn [negb]; [apply Hover; lia|].
  assert (Hg : len (groups ++ [sizes]) = len groups + 1) by (by rewrite len_app).
  specialize (IH (len sizes) (ip + len sizes) (counts ++ [len sizes]) (groups ++ [sizes]) ltac:(lia) H1 ltac:(lia) Hmp).
  destruct (shape_loop _ _ _ _ _ _) as [s|e].
  - destruct IH as (rest & Hr & -> & Hdr & Hpr). exists (sizes :: rest). rewrite <- !app_assoc in *. split_and!.
    + by constructor.
    + done.
    + done.
    + rewrite internal_count_cons. lia.
  - rewrite Hg in IH. subst sizes. apply shape_refused_next; (done || lia).
Qed.

Record shape_of (count : N) (s : MixedTreeShape) : Prop := {
  so_levels : levels_of limits count (internal_group_sizes s);
  so_counts : level_page_counts s = count :: (len <$> internal_group_sizes s);
  so_root : root_level s = length (internal_group_sizes s);
  so_depth : len (internal_group_sizes s) <= max_depth limits;
  so_pages : internal_count (internal_group_sizes s) <= max_internal_pages limits;
}.

Lemma build_shape_cases count : 0 < count ->
  match build_shape count limits with
  | Ok s => shape_of count s
  | Err e => shape_refused 0 0 count e
  end.
Proof.
  intros Hc. unfold build_shape. destruct (N.eqb_spec count 0); [lia|]. cbn [negb].
  pose proof (shape_loop_cases (S (N.to_nat (N.log2_up count))) count 0 [count] []) as Hs.
  destruct (shape_loop _ _ _ _ _ _) as [s|e].
  - destruct Hs as (rest & Hr & -> & Hd & Hp); [lia|lia|unfold len; cbn; lia|lia|]. split; done.
  - apply Hs; [lia|lia|unfold len; cbn; lia|lia].
Qed.
End Shapes.

(** ** Trees *)

(** The pages of a tree as values: what a page stands for. *)
Inductive page_tree : Type :=
  | LeafPage (ids : list N)
  | InternalPage (children : list page_tree).

Fixpoint page_leaves (t : page_tree) : list (list N) :=
  match t with
  | LeafPage page => [page]
  | InternalPage children => flat_map page_leaves children
  end.

Definition level_above (sizes : list N) (row : list page_tree) : list page_tree := InternalPage <$> cut sizes row.

Fixpoint tree_levels (row : list page_tree) (groups : list (list N)) : list (list page_tree) :=
  row :: match groups with [] => [] | sizes :: groups => tree_levels (level_above sizes row) groups end.

(** The levels of the tree with the given leaves and groups, leaves first. *)
Definition page_levels (leaves : list (list N)) (groups : list (list N)) : list (list page_tree) :=
  tree_levels (LeafPage <$> leaves) groups.

(** Where group [p] begins. *)
Definition offset (sizes : list N) (p : nat) : nat := N.to_nat (sum_sizes (take p sizes)).

Lemma cut_lookup {A} sizes (l : list A) p :
  cut sizes l !! p = (fun n => take (N.to_nat n) (drop (offset sizes p) l)) <$> sizes !! p.
Proof.
  unfold offset. revert l p. induction sizes as [|n sizes IH]; intros l [|p]; [done|done|done|].
  cbn [cut lookup list_lookup]. rewrite IH. cbn. destruct (sizes !! p) as [m|]; [|done]. cbn. f_equal. f_equal.
  rewrite drop_drop. f_equal. unfold sum_sizes. lia.
Qed.

Lemma length_cut {A} sizes (l : list A) : length (cut sizes l) = length sizes.
Proof. revert l. induction sizes as [|n sizes IH]; intros l; [done|]. cbn. by rewrite IH. Qed.

Lemma length_level_above sizes row : length (level_above sizes row) = length sizes.
Proof. unfold level_above. by rewrite length_fmap, length_cut. Qed.

Lemma level_above_lookup sizes row p :
  level_above sizes row !! p = (fun n => InternalPage (take (N.to_nat n) (drop (offset sizes p) row))) <$> sizes !! p.
Proof. unfold level_above. rewrite list_lookup_fmap, cut_lookup. by destruct (sizes !! p). Qed.

Lemma elem_of_window {A} (l : list A) o n x :
  x ∈ take n (drop o l) <-> exists c, (o <= c < o + n)%nat /\ l !! c = Some x.
Proof.
  rewrite list_elem_of_lookup. split.
  - intros [k Hk]. apply lookup_take_Some in Hk as [Hk Hn]. rewrite lookup_drop in Hk. exists (o + k)%nat. split; [lia|done].
  - intros (c & Hc & Hx). exists (c - o)%nat. apply lookup_take_Some. rewrite lookup_drop.
    split; [|lia]. by replace (o + (c - o))%nat with c by lia.
Qed.

Lemma flat_map_concat {A B} (f : A -> list B) (ls : list (list A)) :
  flat_map f (concat ls) = concat (flat_map f <$> ls).
Proof. induction ls as [|l ls IH]; [done|]. cbn. by rewrite flat_map_app, IH. Qed.

(** Grouping keeps the leaves of a row. *)
Lemma level_above_leaves sizes row : sum_sizes sizes = len row ->
  flat_map page_leaves (level_above sizes row) = flat_map page_leaves row.
Proof.
  intros Hs. destruct (cut_spec sizes row Hs) as [Hc _]. rewrite <- Hc at 2. rewrite flat_map_concat.
  unfold level_above. generalize (cut sizes row) as ls. induction ls as [|l ls IH]; [done|]. cbn. by rewrite IH.
Qed.

Lemma levels_end limits count groups : levels_of limits count groups -> forall row, len row = count ->
  exists root, tree_levels row groups !! length groups = Some [root] /\ page_leaves root = flat_map page_leaves row.
Proof.
  induction 1 as [|count sizes rest Hc Hs Hlen Hg Hr IH]; intros row Hrow.
  - destruct row as [|root [|]]; [done| |unfold len in Hrow; cbn in Hrow; lia]. exists root. split; [done|].
    cbn. by rewrite app_nil_r.
  - destruct (IH (level_above sizes row)) as (root & Hl & Hleaves).
    { unfold len. by rewrite length_level_above. }
    exists root. split; [done|]. rewrite Hleaves. apply level_above_leaves. by rewrite Hs.
Qed.

Lemma leaf_rows (leaves : list (list N)) : flat_map page_leaves (LeafPage <$> leaves) = leaves.
Proof. induction leaves as [|l leaves IH]; [done|]. cbn. by rewrite IH. Qed.

(** The tree has one root, above all the leaves in order. *)
Lemma page_levels_root limits leaves groups : levels_of limits (len leaves) groups ->
  exists root, page_levels leaves groups !! length groups = Some [root] /\ page_leaves root = leaves.
Proof.
  intros Hl. destruct (levels_end _ _ _ Hl (LeafPage <$> leaves)) as (root & Hr & Hroot); [by rewrite len_fmap|].
  exists root. split; [done|]. by rewrite Hroot, leaf_rows.
Qed.

(** ** [sort_unstable] and [dedup] *)

Lemma elem_of_dedup x l : x ∈ dedup l <-> x ∈ l.
Proof.
  induction l as [|a [|b l] IH]; [done|done|]. change (dedup (a :: b :: l)) with
    (if (a =? b)%nat then dedup (b :: l) else a :: dedup (b :: l)). destruct (Nat.eqb_spec a b) as [->|Hne].
  - rewrite IH. set_solver.
  - rewrite !(elem_of_cons _ x a), IH. done.
Qed.

Lemma elem_of_sort_dedup x l : x ∈ sort_dedup l <-> x ∈ l.
Proof. unfold sort_dedup. by rewrite elem_of_dedup, elem_of_sort_by. Qed.

Lemma dedup_sorted l : StronglySorted le l -> StronglySorted lt (dedup l).
Proof.
  induction 1 as [|a l Hs IH Ha]; [constructor|]. destruct l as [|b l]; [by repeat constructor|].
  change (dedup (a :: b :: l)) with (if (a =? b)%nat then dedup (b :: l) else a :: dedup (b :: l)).
  destruct (Nat.eqb_spec a b) as [->|Hne]; [done|]. constructor; [done|].
  apply Forall_forall. intros x Hx. rewrite elem_of_dedup in Hx. apply StronglySorted_inv in Hs as [_ Hb].
  apply Forall_cons in Ha as [Hab _]. apply elem_of_cons in Hx as [->|Hx]; [lia|].
  rewrite Forall_forall in Hb. specialize (Hb x Hx). lia.
Qed.

#[export] Instance nat_compare_strict : StrictCmp Nat.compare.
Proof.
  split; [|by intros x y ->%Nat.compare_eq_iff]. split.
  - intros x y. apply Nat.compare_antisym.
  - intros x y z []; rewrite ?Nat.compare_eq_iff, ?Nat.compare_lt_iff, ?Nat.compare_gt_iff; lia.
Qed.

Lemma sort_dedup_sorted l : StronglySorted lt (sort_dedup l).
Proof.
  apply dedup_sorted, Sorted_StronglySorted; [intros ? ? ?; apply Nat.le_trans|].
  eapply Sorted_mono; [|apply sort_by_Sorted, strict_total]. intros x y. apply Nat.compare_le_iff.
Qed.

(** ** [parent_index] *)

Lemma parent_loop_cases child start parent groups :
  start <= N.of_nat child < start + sum_sizes groups -> start + sum_sizes groups <= U64_MAX ->
  exists p n, parent_loop child start parent groups = Ok (parent + p)%nat /\ groups !! p = Some n /\
    (N.to_nat start + offset groups p <= child < N.to_nat start + offset groups p + N.to_nat n)%nat.
Proof.
  unfold offset. revert start parent. induction groups as [|n groups IH]; intros start parent Hc Hmax; cbn in Hc, Hmax; [lia|].
  unfold sum_sizes in *. cbn [parent_loop]. rewrite checked_add_fits by lia. cbn [ok_or].
  destruct (N.ltb_spec (N.of_nat child) (start + n)) as [Hlt|Hge].
  - exists 0%nat, n. rewrite Nat.add_0_r. split_and!; [done|done|cbn; lia..].
  - destruct (IH (start + n) (S parent)) as (p & m & Hp & Hm & Hr); [lia|lia|]. exists (S p), m.
    rewrite Hp. split_and!; [f_equal; lia|done|cbn; lia..].
Qed.

Lemma parent_index_cases child groups :
  N.of_nat child < sum_sizes groups -> sum_sizes groups <= U64_MAX ->
  exists p n, parent_index child groups = Ok p /\ groups !! p = Some n /\
    (offset groups p <= child < offset groups p + N.to_nat n)%nat.
Proof. intros Hc Hmax. destruct (parent_loop_cases child 0 0 groups) as (p & n & Hp & Hn & Hr); [lia|lia|]. by exists p, n. Qed.

Lemma offset_mono groups p q n : (p < q)%nat -> groups !! p = Some n ->
  (offset groups p + N.to_nat n <= offset groups q)%nat.
Proof.
  unfold offset, sum_sizes. revert p q. induction groups as [|m groups IH]; intros [|p] [|q] Hpq Hn; try done; try lia.
  - injection Hn as ->. cbn. lia.
  - cbn in *. specialize (IH p q ltac:(lia) Hn). lia.
Qed.

Lemma offset_unique groups p q n m c : groups !! p = Some n -> groups !! q = Some m ->
  (offset groups p <= c < offset groups p + N.to_nat n)%nat ->
  (offset groups q <= c < offset groups q + N.to_nat m)%nat -> p = q.
Proof.
  intros Hn Hm Hp Hq. destruct (Nat.lt_trichotomy p q) as [Hlt|[->|Hlt]]; [|done|].
  - pose proof (offset_mono _ _ _ _ Hlt Hn). lia.
  - pose proof (offset_mono _ _ _ _ Hlt Hm). lia.
Qed.

(** ** The levels above a change *)

Section Touched.
Context (limits : MixedTreePlanLimits) (Hl : tree_limits_ok limits = true).
Context (marked : page_tree -> Prop).
Context (marked_above : forall children, marked (InternalPage children) <-> exists t, t ∈ children /\ marked t).

Definition marks (row : list page_tree) (children : list nat) : Prop :=
  forall c, c ∈ children <-> exists t, row !! c = Some t /\ marked t.

Lemma parents_marked row sizes children :
  sum_sizes sizes = len row -> len row <= U64_MAX -> marks row children ->
  exists parents, map_result (fun child => parent_index child sizes) children = Ok parents /\
    marks (level_above sizes row) (sort_dedup parents).
Proof.
  intros Hs Hmax Hm.
  assert (Hall : forall c, c ∈ children -> exists p n, parent_index c sizes = Ok p /\ sizes !! p = Some n /\
    (offset sizes p <= c < offset sizes p + N.to_nat n)%nat).
  { intros c Hc. apply parent_index_cases; [|lia]. apply Hm in Hc as (t & Ht & _). apply lookup_lt_Some in Ht.
    rewrite Hs. unfold len. lia. }
  destruct (map_result (fun child => parent_index child sizes) children) as [parents|e] eqn:E.
  - exists parents. split; [done|]. apply map_result_Forall2 in E. intros p. rewrite elem_of_sort_dedup, level_above_lookup. split.
    + intros Hp. apply list_elem_of_lookup in Hp as [k Hk].
      destruct (Forall2_lookup_r _ _ _ _ _ E Hk) as (c & Hc & Hpc). apply list_elem_of_lookup_2 in Hc.
      destruct (Hall c Hc) as (p' & n & Hp' & Hn & Hr). rewrite Hp' in Hpc. injection Hpc as ->. rewrite Hn. eexists. split; [done|].
      apply marked_above. apply Hm in Hc as (t & Ht & Hmt). exists t. split; [|done]. apply elem_of_window. by exists c.
    + intros (t & Ht & Hmt). apply fmap_Some in Ht as (n & Hn & ->). apply marked_above in Hmt as (u & Hu & Hmu).
      apply elem_of_window in Hu as (c & Hr & Hcu). assert (Hc : c ∈ children) by (apply Hm; by exists u).
      destruct (Hall c Hc) as (p' & n' & Hp' & Hn' & Hr').
      assert (p' = p) as -> by (by apply (offset_unique sizes p' p n' n c)).
      apply list_elem_of_lookup in Hc as [k Hk]. destruct (Forall2_lookup_l _ _ _ _ _ E Hk) as (p2 & Hp2 & He).
      rewrite Hp' in He. injection He as ->. by eapply list_elem_of_lookup_2.
  - exfalso. clear Hm. induction children as [|c children IH]; [done|]. cbn [map_result] in E.
    destruct (Hall c ltac:(left)) as (p & n & Hp & _). rewrite Hp in E.
    destruct (map_result _ children) as [|e']; [done|]. injection E as ->.
    apply IH; [|done]. intros c' Hc'. apply Hall. by right.
Qed.

Lemma touched_levels_cases original final_shape k row groups count structural children :
  levels_of limits count groups -> len row = count -> count <= U64_MAX ->
  drop k (internal_group_sizes original) = groups -> (structural = false -> marks row children) ->
  exists rows, touched_levels original final_shape (seq k (length groups)) structural children = Ok rows /\
    length rows = length groups /\
    forall l r up, rows !! l = Some r -> tree_levels row groups !! S l = Some up ->
      forall i, i ∈ r <-> (i < length up)%nat /\
        (structural = true \/ take (S l) (drop k (internal_group_sizes final_shape)) <> take (S l) groups \/
         exists t, up !! i = Some t /\ marked t).
Proof.
  intros Hlev. revert k row structural children.
  induction Hlev as [|count sizes rest Hc Hs Hlen Hg Hlev IH]; intros k row structural children Hrow Hmax Hdrop Hm.
  { exists []. split_and!; [done|done|]. by intros l r up Hr. }
  assert (Hk : internal_group_sizes original !! k = Some sizes).
  { rewrite <- (Nat.add_0_r k), <- lookup_drop, Hdrop. done. }
  assert (Hdrop' : drop (S k) (internal_group_sizes original) = rest).
  { rewrite <- Nat.add_1_r, <- drop_drop, Hdrop. done. }
  cbn [seq length touched_levels]. rewrite Hk. cbn [from_option id].
  set (st' := structural || _).
  assert (Hfirst : st' = true <-> structural = true \/ take 1 (drop k (internal_group_sizes final_shape)) <> [sizes]).
  { unfold st'. rewrite orb_true_iff, negb_true_iff, bool_decide_eq_false.
    enough (internal_group_sizes final_shape !! k = Some sizes <-> take 1 (drop k (internal_group_sizes final_shape)) = [sizes]) by tauto.
    rewrite <- (Nat.add_0_r k) at 1. rewrite <- lookup_drop. destruct (drop k (internal_group_sizes final_shape)) as [|g gs]; cbn; rewrite ?take_0; split; congruence. }
  assert (Hrow' : sum_sizes sizes = len row) by (by rewrite Hs, Hrow).
  assert (Hparents : exists parents,
    (if st' then Ok (seq 0 (length sizes))
     else let* parents := map_result (fun child => parent_index child sizes) children in Ok (sort_dedup parents)) = Ok parents /\
    (forall i, i ∈ parents <-> (i < length (level_above sizes row))%nat /\
      (st' = true \/ exists t, level_above sizes row !! i = Some t /\ marked t))).
  { destruct st' eqn:Est.
    - exists (seq 0 (length sizes)). split; [done|]. intros i. rewrite elem_of_seq, length_level_above. split; [|lia].
      intros Hi. split; [lia|by left].
    - assert (structural = false).
      { destruct structural; [|done]. discriminate (proj2 Hfirst (or_introl eq_refl)). }
      destruct (parents_marked row sizes children) as (parents & Hp & Hm'); [done|lia|auto|]. rewrite Hp. eexists. split; [done|].
      intros i. rewrite (Hm' i). split.
      + intros (t & Ht & Hmt). split; [by eapply lookup_lt_Some|]. right. by exists t.
      + by intros [_ [|]]. }
  destruct Hparents as (parents & -> & Hpar).
  destruct (IH (S k) (level_above sizes row) st' parents) as (rows & -> & Hlr & Hrows).
  { unfold len. by rewrite length_level_above. }
  { destruct (fewer_pages (internal_fanout limits) count (len sizes)); [apply (fanout_bounds _ Hl)|done|done|lia]. }
  { done. }
  { intros Est c. rewrite Hpar, Est. split; [intros [_ [|]]; done|]. intros (t & Ht & Hmt). split; [by eapply lookup_lt_Some|].
    right. by exists t. }
  exists (parents :: rows). split_and!; [done|cbn; by rewrite Hlr|].
  intros [|l] r up Hr Hup i.
  - injection Hr as <-. cbn in Hup. destruct rest; injection Hup as <-; rewrite Hpar, Hfirst; cbn; tauto.
  - cbn in Hr. rewrite (Hrows l r up Hr Hup i), Hfirst.
    destruct (decide (take 1 (drop k (internal_group_sizes final_shape)) = [sizes])) as [Hd|Hd].
    all: enough (take (S (S l)) (drop k (internal_group_sizes final_shape)) = take (S (S l)) (sizes :: rest) <->
      take 1 (drop k (internal_group_sizes final_shape)) = [sizes] /\
      take (S l) (drop (S k) (internal_group_sizes final_shape)) = take (S l) rest) by tauto.
    all: replace (S k) with (k + 1)%nat by lia; rewrite <- (drop_drop _ 1 k); clear; destruct (drop k (internal_group_sizes final_shape)) as [|g gs]; cbn; [split; [done|by intros [? _]]|];
      rewrite drop_0, take_0; split; [intros [= -> ->]; done|intros [[= ->] ->]; done].
Qed.
End Touched.

(** ** The plan *)

(** A page above a touched original leaf. *)
Definition above_touched (pages : list (list N)) (touched : list nat) (t : page_tree) : Prop :=
  exists o page, o ∈ touched /\ pages !! o = Some page /\ page ∈ page_leaves t.

(** The tree is grouped differently somewhere up to the internal level [l]. *)
Definition regrouped (pages : list (list N)) (p : MixedTreePlan) (l : nat) : Prop :=
  len (final_pages (leaf p)) <> len pages \/
  take (S l) (internal_group_sizes (final_shape p)) <> take (S l) (internal_group_sizes (original p)).

Record tree_planned (pages : list (list N)) (operations : list MixedPlanOperation) (limits : MixedTreePlanLimits)
    (p : MixedTreePlan) : Prop := {
  tp_leaf : plan_mixed_leaf_updates pages operations (leaf_limits limits) = Ok (leaf p);
  tp_original : shape_of limits (len pages) (original p);
  tp_final : shape_of limits (len (final_pages (leaf p))) (final_shape p);
  tp_root : exists root,
    page_levels (final_pages (leaf p)) (internal_group_sizes (final_shape p)) !! root_level (final_shape p) = Some [root] /\
    page_leaves root = final_pages (leaf p);
  tp_transition : match root_transition p with
    | Stable => root_level (final_shape p) = root_level (original p)
    | Grew => (root_level (original p) < root_level (final_shape p))%nat
    | Collapsed => (root_level (final_shape p) < root_level (original p))%nat
    end;
  tp_rows : length (conservative_touched_original_internal_pages p) = root_level (original p);
  tp_touched l row above i :
    conservative_touched_original_internal_pages p !! l = Some row ->
    page_levels pages (internal_group_sizes (original p)) !! S l = Some above ->
    i ∈ row <-> (i < length above)%nat /\ (regrouped pages p l \/
      exists t, above !! i = Some t /\ above_touched pages (touched_original_pages (leaf p)) t);
}.

Definition tree_refused (pages : list (list N)) (operations : list MixedPlanOperation) (limits : MixedTreePlanLimits)
    (e : MixedTreePlanError) : Prop :=
  match e with
  | Leaf e => plan_mixed_leaf_updates pages operations (leaf_limits limits) = Err e
  | InvalidLimits => tree_limits_ok limits = false \/ exists leaf, plan_mixed_leaf_updates pages operations (leaf_limits limits) = Ok leaf /\
      (shape_refused limits 0 0 (len pages) e \/ shape_refused limits 0 0 (len (final_pages leaf)) e)
  | Limit _ => exists leaf, plan_mixed_leaf_updates pages operations (leaf_limits limits) = Ok leaf /\
      (shape_refused limits 0 0 (len pages) e \/ shape_refused limits 0 0 (len (final_pages leaf)) e)
  end.

Lemma transition_cases original final_shape :
  match transition original final_shape with
  | Stable => root_level final_shape = root_level original
  | Grew => (root_level original < root_level final_shape)%nat
  | Collapsed => (root_level final_shape < root_level original)%nat
  end.
Proof. unfold transition. destruct (Nat.compare_spec (root_level final_shape) (root_level original)); done. Qed.

Lemma pages_NoDup limits pages : pages_ok limits pages -> NoDup pages.
Proof.
  intros [_ _ Hs Ho]. pose proof (sorted_NoDup _ Ho) as Hnd. clear Ho. induction pages as [|p pages IH]; [constructor|].
  apply Forall_cons in Hs as [[Hne _] Hs]. cbn in Hnd. apply NoDup_app in Hnd as (_ & Hdisj & Hnd).
  constructor.
  - intros Hin. destruct p as [|x p]; [done|]. apply (Hdisj x); [by left|]. apply list_elem_of_In, in_concat.
    exists (x :: p). rewrite <- !list_elem_of_In. split; [done|by left].
  - apply IH; [|done]. eapply Forall_impl; [exact Hs|]. intros q (? & ? & Hq). split_and!; [done|done|].
    intros Hlen. apply Hq. rewrite len_cons. lia.
Qed.

Lemma leaf_marks limits pages operations p :
  input_ok (leaf_limits limits) pages -> plan_mixed_leaf_updates pages operations (leaf_limits limits) = Ok p ->
  marks (above_touched pages (touched_original_pages p)) (LeafPage <$> pages) (sort_dedup (touched_original_pages p)).
Proof.
  intros [Hin _] Hp c. rewrite elem_of_sort_dedup, list_lookup_fmap. split.
  - intros Hc. destruct (lookup_lt_is_Some_2 pages c) as [page Hpage]; [by eapply plan_touched_range|].
    exists (LeafPage page). rewrite Hpage. split; [done|]. exists c, page. split_and!; [done..|]. cbn. by left.
  - intros (t & Ht & o & page & Ho & Hpage & Hin'). apply fmap_Some in Ht as (page' & Hpage' & ->).
    cbn in Hin'. apply list_elem_of_singleton in Hin' as <-.
    by rewrite <- (NoDup_lookup _ _ _ _ (pages_NoDup _ _ Hin) Hpage Hpage').
Qed.

Lemma conservative_cases limits pages operations p original final_shape :
  tree_limits_ok limits = true -> max_pages (leaf_limits limits) <= U64_MAX ->
  input_ok (leaf_limits limits) pages -> plan_mixed_leaf_updates pages operations (leaf_limits limits) = Ok p ->
  shape_of limits (len pages) original -> shape_of limits (len (final_pages p)) final_shape ->
  exists rows, conservative_touched_internal_pages original final_shape (touched_original_pages p) = Ok rows /\
    length rows = root_level original /\
    forall l row above i, rows !! l = Some row -> page_levels pages (internal_group_sizes original) !! S l = Some above ->
      i ∈ row <-> (i < length above)%nat /\
        (regrouped pages (mkTreePlan p original final_shape (transition original final_shape) rows) l \/
         exists t, above !! i = Some t /\ above_touched pages (touched_original_pages p) t).
Proof.
  intros Hl Hmax Hin Hp Ho Hf. unfold conservative_touched_internal_pages, regrouped. cbn [leaf MixedTree.original MixedTree.final_shape].
  rewrite (so_root _ _ _ Ho), (so_counts _ _ _ Ho), (so_counts _ _ _ Hf). cbn [head].
  set (st := negb _). assert (Hst : st = true <-> len (final_pages p) <> len pages).
  { unfold st. rewrite negb_true_iff, bool_decide_eq_false. split; [intros Hne E; apply Hne; by rewrite E|]. congruence. }
  destruct (touched_levels_cases limits Hl (above_touched pages (touched_original_pages p))) with
    (original := original) (final_shape := final_shape) (k := 0%nat) (row := LeafPage <$> pages)
    (groups := internal_group_sizes original) (count := len pages) (structural := st)
    (children := sort_dedup (touched_original_pages p)) as (rows & Hr & Hlen & Hrows).
  - intros children. unfold above_touched. cbn [page_leaves]. split.
    + intros (o & page & ? & ? & Hx). apply list_elem_of_In, in_flat_map in Hx as (t & Ht & Hx).
      rewrite <- !list_elem_of_In in *. eauto 10.
    + intros (t & Ht & o & page & ? & ? & Hx). exists o, page. split_and!; [done..|].
      apply list_elem_of_In, in_flat_map. exists t. by rewrite <- !list_elem_of_In.
  - apply Ho.
  - by rewrite len_fmap.
  - destruct Hin as [[_ Hc _ _] _]. lia.
  - done.
  - intros _. by eapply leaf_marks.
  - exists rows. split_and!; [done|done|]. intros l row above i Hrow Habove.
    rewrite (Hrows l row above Hrow Habove i), Hst, drop_0. tauto.
Qed.

Lemma tree_plan_cases pages operations limits :
  2 * max_objects (leaf_limits limits) <= U64_MAX -> max_pages (leaf_limits limits) <= U64_MAX ->
  match plan_mixed_tree_updates pages operations limits with
  | Ok p => tree_limits_ok limits = true /\ tree_planned pages operations limits p
  | Err e => tree_refused pages operations limits e
  end.
Proof.
  intros Hmo Hmp. unfold plan_mixed_tree_updates. destruct (tree_limits_ok limits) eqn:Hl; [|by left].
  pose proof (batch_plan_cases pages operations (leaf_limits limits) Hmo) as Hb.
  destruct (plan_mixed_leaf_updates pages operations (leaf_limits limits)) as [p|e] eqn:Ep; cbn [lift_leaf]; [|done].
  destruct Hb as (_ & Hin & _ & Hpl & _). pose proof (pn_pages _ _ _ _ Hpl) as [Hfne _ _ _]. pose proof Hin as [[Hne _ _ _] _].
  assert (Hpos : forall {A} (l : list A), l <> [] -> 0 < len l) by (intros A [|x l]; [done|rewrite len_cons; lia]).
  pose proof (build_shape_cases limits Hl (len pages) (Hpos _ _ Hne)) as Ho.
  destruct (build_shape (len pages) limits) as [o|e].
  2: { destruct e; [done|right|]; exists p; (split; [done|by left]). }
  pose proof (build_shape_cases limits Hl (len (final_pages p)) (Hpos _ _ Hfne)) as Hf.
  destruct (build_shape (len (final_pages p)) limits) as [f|e].
  2: { destruct e; [done|right|]; exists p; (split; [done|by right]). }
  destruct (conservative_cases limits pages operations p o f) as (rows & -> & Hlen & Hrows); [done..|].
  split; [done|]. split; cbn [leaf original final_shape root_transition conservative_touched_original_internal_pages];
    [done|done|done| |apply transition_cases|done|exact Hrows].
  rewrite (so_root _ _ _ Hf). by apply (page_levels_root limits), so_levels.
Qed.

(** C23. [plan_mixed_tree_updates]: on top of the leaf plan, both shapes are the
    canonical trees over the original and the final leaves: at every level the
    fewest groups, all full but the last two, the last holding what is left
    over, raised to the minimum by the one before it; within the depth and page
    limits, with one root above all the leaves in order. The root transition
    compares their heights; and an original internal page is listed exactly
    when a touched leaf lies below it or the grouping up to its level changed.
    The planner always ends: it is refused for a shape only when that canonical
    tree does not exist, is too deep, or has too many pages. *)
Theorem tree_plan_canonical pages operations limits :
  2 * max_objects (leaf_limits limits) <= U64_MAX -> max_pages (leaf_limits limits) <= U64_MAX ->
  match plan_mixed_tree_updates pages operations limits with
  | Ok p => tree_limits_ok limits = true /\ tree_planned pages operations limits p
  | Err e => tree_refused pages operations limits e
  end.
Proof. apply tree_plan_cases. Qed.

Definition small_tree_limits : MixedTreePlanLimits := mkTreeLimits (mkLeafLimits 3 2 1000 1000 1000) 3 2 8 100.

Lemma tree_plan_canonical_witness :
  exists p, plan_mixed_tree_updates [[2; 4]; [6; 8]; [10; 12]; [14; 16]] [Delete 2] small_tree_limits = Ok p /\
  root_transition p = Collapsed /\ level_page_counts (original p) = [4; 2; 1] /\ level_page_counts (final_shape p) = [3; 1] /\
  internal_group_sizes (original p) = [[2; 2]; [2]] /\
  conservative_touched_original_internal_pages p = [[0; 1]; [0]]%nat /\
  tree_planned [[2; 4]; [6; 8]; [10; 12]; [14; 16]] [Delete 2] small_tree_limits p.
Proof.
  assert (Hm : 2 * max_objects (leaf_limits small_tree_limits) <= U64_MAX) by (apply N.leb_le; vm_compute; reflexivity).
  assert (Hp : max_pages (leaf_limits small_tree_limits) <= U64_MAX) by (apply N.leb_le; vm_compute; reflexivity).
  pose proof (tree_plan_canonical [[2; 4]; [6; 8]; [10; 12]; [14; 16]] [Delete 2] small_tree_limits Hm Hp) as Ht.
  destruct (plan_mixed_tree_updates _ _ _) as [p|e] eqn:E.
  - exists p. split; [reflexivity|]. assert (E' := E). vm_compute in E'. injection E' as <-.
    do 5 (split; [reflexivity|]). exact (proj2 Ht).
  - exfalso. revert E. vm_compute. discriminate.
Defined.

(** The canonical sizes, on both sides of the minimum. *)
Example canonical_sizes_short : canonical_sizes 5 3 21 = [5; 5; 5; 3; 3].
Proof. reflexivity. Qed.

Example canonical_sizes_long : canonical_sizes 5 3 19 = [5; 5; 5; 4].
Proof. reflexivity. Qed.

Example canonical_sizes_uneven : canonical_sizes 7 3 15 = [7; 5; 3].
Proof. reflexivity. Qed.

(** A split early in the tree and a merge late in it leave the number of leaves
    and the grouping as they were, but shift the leaves between: the second
    page of the first internal level is not listed, although no page of the
    final tree has its contents. *)
Theorem unlisted_page_regrouped :
  exists p,
    plan_mixed_tree_updates [[2; 4; 6]; [8; 10]; [12; 14]; [16; 18]; [20; 22]; [24; 26]; [28; 30]; [32; 34]; [36; 38]]
      [Put 1; Delete 36] small_tree_limits = Ok p /\
    conservative_touched_original_internal_pages p = [[0; 2]; [0]]%nat /\
    page_levels [[2; 4; 6]; [8; 10]; [12; 14]; [16; 18]; [20; 22]; [24; 26]; [28; 30]; [32; 34]; [36; 38]]
      (internal_group_sizes (original p)) !! 1%nat ≫= (.!! 1%nat) =
      Some (InternalPage [LeafPage [16; 18]; LeafPage [20; 22]; LeafPage [24; 26]]) /\
    Forall (Forall (fun t => t <> InternalPage [LeafPage [16; 18]; LeafPage [20; 22]; LeafPage [24; 26]]))
      (page_levels (final_pages (leaf p)) (internal_group_sizes (final_shape p))).
Proof. eexists. split; [vm_compute; reflexivity|]. split_and!; [reflexivity|reflexivity|]. vm_compute. repeat constructor; discriminate. Qed.
