(* ===== verification/MixedReference.v ===== *)
(** [crates/ucof-experiments/src/mixed_reference_plan.rs]: which pages of the
    original tree the final tree of a mixed batch can refer to as they are. *)

From Stdlib Require Import Strings.Byte Strings.String NArith ZArith Lia.
From stdpp Require Import base list gmap strings sorting.
From S2P Require Import Prelude Order Errors MixedUpdate MixedTree.

Local Open Scope N_scope.

Inductive PlannedPageIdentity : Type :=
  | Original (level index : nat)
  | New (level index : nat).

#[export] Instance planned_page_identity_eq_dec : EqDecision PlannedPageIdentity.
Proof. solve_decision. Defined.

Record MixedReferencePlan : Type := mkReferencePlan {
  tree : MixedTreePlan;
  final_level_identities : list (list PlannedPageIdentity);
  reused_original_pages : list (list nat);
  new_pages_by_level : list N;
}.

Inductive MixedReferencePlanError : Type :=
  | Tree (error : MixedTreePlanError)
  | InvalidShape
  | Limit (label : string).

Definition reference_error_to_string (e : MixedReferencePlanError) : string :=
  match e with
  | Tree error => tree_error_to_string error
  | InvalidShape => "invalid mixed reference plan shape"
  | Limit label => "mixed reference plan " ++ label ++ " limit exceeded"
  end%string.

(** [?] on a result of the tree planner. *)
Definition lift_tree {A} (r : result MixedTreePlanError A) : result MixedReferencePlanError A :=
  match r with Ok a => Ok a | Err e => Err (Tree e) end.

(** ** Matching *)

(** The ranges of the groups that begin at [start]. *)
Fixpoint group_ranges (start : N) (groups : list N) : result MixedReferencePlanError (list (N * N)) :=
  match groups with
  | [] => Ok []
  | count :: groups =>
      let* end_ := ok_or (checked_add start count) (Limit "page count") in
      let* rest := group_ranges end_ groups in
      Ok ((start, end_) :: rest)
  end.

Definition original_group_ranges (groups : list N) : result MixedReferencePlanError (list (N * N)) :=
  group_ranges 0 groups.

(** The identities of [count] original pages of one level, from an index on. *)
Definition original_run (level : nat) (start count : nat) : list PlannedPageIdentity :=
  Original level <$> seq start count.

(** The identities are, in order, the original pages of the range. *)
Definition group_matches (child_identities : list PlannedPageIdentity) (child_level : nat) (range : N * N) : bool :=
  (len child_identities =? range.2 - range.1) &&
  bool_decide (child_identities = original_run child_level (N.to_nat range.1) (length child_identities)).

(** The index of the first range that matches, counted from [group_index]. *)
Fixpoint first_matching (child_identities : list PlannedPageIdentity) (child_level : nat) (group_index : nat)
    (ranges : list (N * N)) : option nat :=
  match ranges with
  | [] => None
  | range :: ranges =>
      if group_matches child_identities child_level range then Some group_index
      else first_matching child_identities child_level (S group_index) ranges
  end.

Definition matching_original_group (child_identities : list PlannedPageIdentity) (original_groups : list N)
    (child_level : nat) : result MixedReferencePlanError (option nat) :=
  let* ranges := original_group_ranges original_groups in
  Ok (first_matching child_identities child_level 0 ranges).

(** ** Identities *)

(** [original.map_or(New { level, index: final_index }, |index| Original { level, index })] *)
Definition identity_of (level final_index : nat) (found : option nat) : PlannedPageIdentity :=
  match found with Some index => Original level index | None => New level final_index end.

(** [iter().enumerate().find_map(..)]: the first untouched original leaf with
    the identifiers of [page]. *)
Fixpoint find_leaf (touched : list nat) (page : list N) (index : nat) (original_leaves : list (list N)) : option nat :=
  match original_leaves with
  | [] => None
  | candidate :: original_leaves =>
      if bool_decide (candidate = page) && negb (bool_decide (index ∈ touched)) then Some index
      else find_leaf touched page (S index) original_leaves
  end.

Definition final_leaf_identities (original_leaves : list (list N)) (tree : MixedTreePlan) : list PlannedPageIdentity :=
  imap (fun final_index page =>
    identity_of 0 final_index (find_leaf (touched_original_pages (leaf tree)) page 0 original_leaves))
    (final_pages (leaf tree)).

(** [for (final_index, (start, end)) in ranges.into_iter().enumerate()]; the
    ranges lie within the children. *)
Fixpoint level_identities (children : list PlannedPageIdentity) (original_groups : option (list N)) (level : nat)
    (final_index : nat) (ranges : list (N * N)) : result MixedReferencePlanError (list PlannedPageIdentity) :=
  match ranges with
  | [] => Ok []
  | (start, end_) :: ranges =>
      let own := take (N.to_nat (end_ - start)) (drop (N.to_nat start) children) in
      let* found :=
        match original_groups with
        | Some groups => matching_original_group own groups (level - 1)
        | None => Ok None
        end in
      let* rest := level_identities children original_groups level (S final_index) ranges in
      Ok (identity_of level final_index found :: rest)
  end.

(** One turn of [for level in 1..=tree.final_shape.root_level]. *)
Definition identify_level (tree : MixedTreePlan) (identities : list (list PlannedPageIdentity)) (level : nat)
    : result MixedReferencePlanError (list (list PlannedPageIdentity)) :=
  let* child_identities := ok_or (identities !! (level - 1)%nat) InvalidShape in
  let* final_groups := ok_or (internal_group_sizes (final_shape tree) !! (level - 1)%nat) InvalidShape in
  let original_groups := internal_group_sizes (original tree) !! (level - 1)%nat in
  let* ranges := original_group_ranges final_groups in
  check bool_decide (snd <$> last ranges = Some (len child_identities)) else InvalidShape in
  let* row := level_identities child_identities original_groups level 0 ranges in
  Ok (identities ++ [row]).

(** ** Summaries *)

(** The pages found so far on one level, and the count of new ones. *)
Definition tally (level levels : nat) (s : list nat * N) (identity : PlannedPageIdentity)
    : result MixedReferencePlanError (list nat * N) :=
  match identity with
  | Original original_level index =>
      check (original_level =? level)%nat && (level <? levels)%nat else InvalidShape in
      Ok (s.1 ++ [index], s.2)
  | New new_level _ =>
      check (new_level =? level)%nat else InvalidShape in
      let* new_pages := ok_or (checked_add s.2 1) (Limit "page count") in
      Ok (s.1, new_pages)
  end.

(** [for (level, identities) in final_level_identities.iter().enumerate()] *)
Fixpoint summarize (level : nat) (rows : list (list PlannedPageIdentity)) (reused : list (list nat)) (news : list N)
    : result MixedReferencePlanError (list (list nat) * list N) :=
  match rows with
  | [] => Ok (reused, news)
  | identities :: rows =>
      let* (pages, new_pages) :=
        fold_result (tally level (length reused)) identities (default [] (reused !! level), 0) in
      summarize (S level) rows (<[level := sort_dedup pages]> reused) (news ++ [new_pages])
  end.

Definition plan_mixed_page_references (original_leaves : list (list N)) (operations : list MixedPlanOperation)
    (limits : MixedTreePlanLimits) : result MixedReferencePlanError MixedReferencePlan :=
  let* tree := lift_tree (plan_mixed_tree_updates original_leaves operations limits) in
  let* identities := fold_result (identify_level tree) (seq 1 (root_level (final_shape tree)))
                       [final_leaf_identities original_leaves tree] in
  let* (reused, news) := summarize 0 identities (replicate (S (root_level (original tree))) []) [] in
  Ok (mkReferencePlan tree identities reused news).
