(* ===== verification/MixedReferenceFacts.v ===== *)
(** Facts about the reference planner: a page of the final tree gets the
    identity of an original page exactly when it is that page, with nothing
    below it touched. *)

From Stdlib Require Import Strings.Byte Strings.String NArith ZArith Lia.
From stdpp Require Import base list gmap strings sorting.
From S2P Require Import Prelude Order Errors MixedUpdate MixedUpdateFacts MixedUpdatePlan MixedTree MixedTreeFacts MixedReference.

Local Open Scope N_scope.

(** ** Ranges *)

Fixpoint ranges_of (start : N) (groups : list N) : list (N * N) :=
  match groups with
  | [] => []
  | n :: groups => (start, start + n) :: ranges_of (start + n) groups
  end.

Lemma group_ranges_fit start groups : start + sum_sizes groups <= U64_MAX ->
  group_ranges start groups = Ok (ranges_of start groups).
Proof.
  unfold sum_sizes. revert start. induction groups as [|n groups IH]; intros start Hmax; [done|]. cbn in Hmax.
  cbn [group_ranges ranges_of]. rewrite checked_add_fits by lia. cbn [ok_or]. rewrite IH by lia. done.
Qed.

Lemma ranges_end start groups : groups <> [] -> snd <$> last (ranges_of start groups) = Some (start + sum_sizes groups).
Proof.
  unfold sum_sizes. revert start. induction groups as [|n [|m groups] IH]; intros start Hne; [done|cbn; f_equal; lia|].
  specialize (IH (start + n) ltac:(done)). cbn [ranges_of] in *. rewrite last_cons_cons, IH. cbn. f_equal. lia.
Qed.

Lemma group_matches_spec own level start n :
  group_matches own level (start, start + n) = true <-> own = original_run level (N.to_nat start) (N.to_nat n).
Proof.
  unfold group_matches. cbn [fst snd]. replace (start + n - start) with n by lia.
  rewrite andb_true_iff, N.eqb_eq, bool_decide_eq_true. split.
  - intros [Hlen Heq]. rewrite Heq. f_equal. unfold len in Hlen. lia.
  - intros ->. unfold len, original_run. rewrite length_fmap, length_seq. split; [lia|done].
Qed.

Lemma offset_cons n sizes i : offset (n :: sizes) (S i) = (N.to_nat n + offset sizes i)%nat.
Proof. unfold offset, sum_sizes. cbn. lia. Qed.

Lemma first_matching_cases own level gi start sizes :
  match first_matching own level gi (ranges_of start sizes) with
  | Some g => exists i m, g = (gi + i)%nat /\ sizes !! i = Some m /\
      own = original_run level (N.to_nat start + offset sizes i) (N.to_nat m)
  | None => forall i m, sizes !! i = Some m -> own <> original_run level (N.to_nat start + offset sizes i) (N.to_nat m)
  end.
Proof.
  revert gi start. induction sizes as [|n sizes IH]; intros gi start; cbn [ranges_of first_matching]; [done|].
  destruct (group_matches _ _ _) eqn:E.
  - apply group_matches_spec in E. exists 0%nat, n. rewrite Nat.add_0_r. split_and!; [done|done|].
    rewrite E. f_equal. unfold offset. cbn. lia.
  - assert (Hne : own <> original_run level (N.to_nat start) (N.to_nat n)).
    { intros Heq. apply group_matches_spec in Heq. congruence. }
    specialize (IH (S gi) (start + n)). destruct (first_matching _ _ _ _) as [g|].
    + destruct IH as (i & m & -> & Hm & Heq). exists (S i), m. rewrite offset_cons, Heq. split_and!; [lia|done|f_equal; lia].
    + intros [|i] m Hm; [injection Hm as ->; unfold offset; cbn; by rewrite Nat.add_0_r|].
      rewrite offset_cons. specialize (IH i m Hm). by replace (N.to_nat start + (N.to_nat n + offset sizes i))%nat
        with (N.to_nat (start + n) + offset sizes i)%nat by lia.
Qed.

(** The original group found for some children, if the level exists. *)
Definition found_of (groups : option (list N)) (own : list PlannedPageIdentity) (level : nat) : option nat :=
  groups ≫= fun sizes => first_matching own level 0 (ranges_of 0 sizes).

Lemma level_identities_cases children groups level fi start sizes :
  (forall g, groups = Some g -> sum_sizes g <= U64_MAX) ->
  exists row, level_identities children groups level fi (ranges_of start sizes) = Ok row /\ length row = length sizes /\
    forall j n, sizes !! j = Some n -> row !! j = Some (identity_of level (fi + j) (found_of groups
      (take (N.to_nat n) (drop (N.to_nat start + offset sizes j) children)) (level - 1))).
Proof.
  intros Hg. revert fi start. induction sizes as [|n sizes IH]; intros fi start; [by exists []|].
  cbn [ranges_of level_identities]. set (own := take _ _).
  assert (Hf : (match groups with
    | Some groups => matching_original_group own groups (level - 1)
    | None => Ok None end) = Ok (found_of groups own (level - 1))).
  { destruct groups as [g|]; [|done]. unfold matching_original_group, original_group_ranges.
    rewrite group_ranges_fit by (rewrite N.add_0_l; by apply Hg). done. }
  rewrite Hf. destruct (IH (S fi) (start + n)) as (row & -> & Hlen & Hrow). eexists. split; [done|]. split; [cbn; by rewrite Hlen|].
  intros [|j] m Hm.
  - injection Hm as <-. cbn. rewrite Nat.add_0_r. do 3 f_equal. unfold own. f_equal; [lia|].
    f_equal. unfold offset. cbn. lia.
  - etrans; [exact (Hrow j m Hm)|]. rewrite offset_cons. do 2 f_equal; [lia|]. do 3 f_equal. lia.
Qed.

(** ** Rows without repetition *)

Lemma window_fits {A} sizes (row : list A) r k : sum_sizes sizes = len row -> sizes !! r = Some k ->
  (offset sizes r + N.to_nat k <= length row)%nat.
Proof.
  intros Hs Hr. pose proof (offset_mono sizes r (length sizes) k) as Ho. unfold offset in Ho at 2.
  rewrite firstn_all, Hs in Ho. unfold len in Ho. rewrite Nat2N.id in Ho. apply Ho; [by eapply lookup_lt_Some|done].
Qed.

Lemma cut_NoDup {A} sizes (row : list A) :
  sum_sizes sizes = len row -> Forall (fun n => 0 < n) sizes -> NoDup row -> NoDup (cut sizes row).
Proof.
  intros Hs Hpos Hnd. apply NoDup_alt. intros p q piece Hp Hq. rewrite cut_lookup in Hp, Hq.
  apply fmap_Some in Hp as (n & Hn & ->), Hq as (m & Hm & Heq).
  assert (Hn0 : 0 < n) by (eapply (proj1 (Forall_forall _ _) Hpos), list_elem_of_lookup_2; exact Hn).
  assert (Hm0 : 0 < m) by (eapply (proj1 (Forall_forall _ _) Hpos), list_elem_of_lookup_2; exact Hm).
  assert (Hfirst : row !! offset sizes p = row !! offset sizes q).
  { apply (f_equal (.!! 0%nat)) in Heq. rewrite !lookup_take_lt, !lookup_drop, !Nat.add_0_r in Heq by lia. done. }
  destruct (lookup_lt_is_Some_2 row (offset sizes p)) as [x Hx]; [pose proof (window_fits _ _ _ _ Hs Hn); lia|].
  assert (Hoff : offset sizes p = offset sizes q).
  { eapply NoDup_lookup; [exact Hnd|exact Hx|]. by rewrite <- Hfirst. }
  apply (offset_unique sizes p q n m (offset sizes p)); [done|done|lia|lia].
Qed.

Lemma level_above_NoDup sizes row :
  sum_sizes sizes = len row -> Forall (fun n => 0 < n) sizes -> NoDup row -> NoDup (level_above sizes row).
Proof. intros ? ? ?. unfold level_above. apply NoDup_fmap_2; [by intros ? ? [= ->]|]. by apply cut_NoDup. Qed.

(** ** Identities of one level *)

Section Levels.
Context (pages : list (list N)) (touched : list nat).

(** No touched leaf lies in the page: all its leaves are original leaves. *)
Definition untouched (t : page_tree) : Prop :=
  forall page, page ∈ page_leaves t -> exists o, pages !! o = Some page /\ o ∉ touched.

Lemma untouched_above children : untouched (InternalPage children) <-> forall t, t ∈ children -> untouched t.
Proof.
  unfold untouched. cbn [page_leaves]. split.
  - intros H t Ht page Hp. apply H, list_elem_of_In, in_flat_map. exists t. by rewrite <- !list_elem_of_In.
  - intros H page Hp. apply list_elem_of_In, in_flat_map in Hp as (t & Ht & Hp). rewrite <- !list_elem_of_In in *. by apply (H t).
Qed.

(** The identity of page [j] of the final level: an original page it equals,
    or a new one. *)
Definition identified (level j : nat) (t : page_tree) (orow : list page_tree) (identity : PlannedPageIdentity) : Prop :=
  match identity with
  | Original level' i => level' = level /\ orow !! i = Some t /\ untouched t
  | New level' j' => level' = level /\ j' = j /\ ~ (t ∈ orow /\ untouched t)
  end.

Definition level_ids (level : nat) (ids : list PlannedPageIdentity) (frow orow : list page_tree) : Prop :=
  length ids = length frow /\
  forall j t, frow !! j = Some t -> exists identity, ids !! j = Some identity /\ identified level j t orow identity.

(** A run of final pages is a run of original identities when the trees are
    the same and untouched. *)
Lemma original_run_iff level ids frow orow o n o' m :
  level_ids level ids frow orow -> NoDup orow -> (o + n <= length frow)%nat -> (o' + m <= length orow)%nat ->
  take n (drop o ids) = original_run level o' m <->
  take n (drop o frow) = take m (drop o' orow) /\ forall t, t ∈ take n (drop o frow) -> untouched t.
Proof.
  intros [Hlen Hids] Hnd Hn Hm.
  assert (Hat : forall c, (c < n)%nat -> exists t identity, frow !! (o + c)%nat = Some t /\ ids !! (o + c)%nat = Some identity /\
    identified level (o + c) t orow identity).
  { intros c Hc. destruct (lookup_lt_is_Some_2 frow (o + c)) as [t Ht]; [lia|].
    destruct (Hids _ _ Ht) as (identity & Hi & Hid). by exists t, identity. }
  split.
  - intros Heq. assert (n = m) as ->.
    { apply (f_equal length) in Heq. unfold original_run in Heq. rewrite length_fmap, length_seq, length_take, length_drop in Heq. lia. }
    assert (Hsame : forall c t, (c < m)%nat -> frow !! (o + c)%nat = Some t -> orow !! (o' + c)%nat = Some t /\ untouched t).
    { intros c t Hc Ht. destruct (Hat c Hc) as (t' & identity & Ht' & Hi & Hid). rewrite Ht in Ht'. injection Ht' as <-.
      apply (f_equal (.!! c)) in Heq. unfold original_run in Heq.
      rewrite lookup_take_lt, lookup_drop, Hi, list_lookup_fmap, lookup_seq_lt in Heq by done. injection Heq as ->.
      by destruct Hid as (_ & Ho & Hu). }
    split.
    + apply list_eq. intros c. destruct (decide (c < m)%nat) as [Hc|Hc]; [|by rewrite !lookup_take_ge by lia].
      rewrite !lookup_take_lt, !lookup_drop by done. destruct (Hat c Hc) as (t & _ & Ht & _).
      rewrite Ht. by destruct (Hsame c t Hc Ht) as [-> _].
    + intros t (c & Hc & Ht)%elem_of_window. replace c with (o + (c - o))%nat in Ht by lia.
      by apply (Hsame (c - o)%nat t ltac:(lia) Ht).
  - intros [Heq Hu]. assert (n = m) as ->.
    { apply (f_equal length) in Heq. rewrite !length_take, !length_drop in Heq. lia. }
    apply list_eq. intros c. unfold original_run. rewrite list_lookup_fmap.
    destruct (decide (c < m)%nat) as [Hc|Hc]; [|rewrite lookup_take_ge, lookup_seq_ge by lia; done].
    rewrite lookup_take_lt, lookup_drop, lookup_seq_lt by done. destruct (Hat c Hc) as (t & identity & Ht & Hi & Hid).
    rewrite Hi. cbn. f_equal. assert (Ho : orow !! (o' + c)%nat = Some t).
    { apply (f_equal (.!! c)) in Heq. rewrite !lookup_take_lt, !lookup_drop in Heq by done. by rewrite <- Heq. }
    destruct identity as [level' i|level' j]; cbn in Hid.
    + destruct Hid as (-> & Hi' & _). f_equal. by apply (NoDup_lookup _ _ _ _ Hnd Hi').
    + exfalso. destruct Hid as (_ & _ & Hno). apply Hno. split; [by eapply list_elem_of_lookup_2|].
      apply Hu, elem_of_window. exists (o + c)%nat. split; [lia|done].
Qed.

Lemma next_level_ids level ids frow orow fsizes groups :
  level_ids level ids frow orow -> NoDup orow -> sum_sizes fsizes = len frow ->
  (forall sizes, groups = Some sizes -> sum_sizes sizes = len orow /\ len orow <= U64_MAX) ->
  exists row, level_identities ids groups (S level) 0 (ranges_of 0 fsizes) = Ok row /\
    level_ids (S level) row (level_above fsizes frow) (default [] ((fun sizes => level_above sizes orow) <$> groups)).
Proof.
  intros Hids Hnd Hf Hg. destruct (level_identities_cases ids groups (S level) 0 0 fsizes) as (row & Hrow & Hlen & Hat).
  { intros g ->. destruct (Hg g eq_refl). lia. }
  exists row. split; [done|]. split; [by rewrite length_level_above|]. intros j t Ht.
  rewrite level_above_lookup in Ht. apply fmap_Some in Ht as (n & Hn & ->).
  eexists. split; [by apply Hat|]. cbn [Nat.add N.to_nat]. replace (S level - 1)%nat with level by lia.
  pose proof (window_fits _ _ _ _ Hf Hn) as Hwin. set (own := take _ (drop _ ids)).
  destruct groups as [sizes|]; cbn [found_of mbind option_bind fmap option_fmap option_map from_option id].
  2: { cbn. split_and!; [done|done|]. intros [Hin _]. by apply elem_of_nil in Hin. }
  destruct (Hg sizes eq_refl) as [Hs Hmax]. pose proof (first_matching_cases own level 0 0 sizes) as Hm.
  destruct (first_matching _ _ _ _) as [i|]; cbn [identity_of identified].
  - destruct Hm as (i' & m & -> & Hi & Hown). apply (original_run_iff _ _ _ _ _ _ _ _ Hids Hnd) in Hown as [Heq Hu];
      [|done|by apply window_fits]. split_and!; [done| |by apply untouched_above].
    rewrite Nat.add_0_l, level_above_lookup, Hi. cbn. do 2 f_equal. symmetry. exact Heq.
  - split_and!; [done|done|]. intros [Hin Hu]. apply list_elem_of_lookup in Hin as [i Hi].
    rewrite level_above_lookup in Hi. apply fmap_Some in Hi as (m & Hm' & [= Heq]).
    apply (Hm i m Hm'). apply (original_run_iff _ _ _ _ _ _ _ _ Hids Hnd); [done|by apply window_fits|].
    split; [done|]. by apply untouched_above.
Qed.

(** ** All the levels *)

Section Trees.
Context (limits : MixedTreePlanLimits) (Hl : tree_limits_ok limits = true) (tree : MixedTreePlan).
Notation fgroups := (internal_group_sizes (final_shape tree)).
Notation ogroups := (internal_group_sizes (original tree)).

Lemma levels_positive count sizes rest : levels_of limits count (sizes :: rest) ->
  Forall (fun n => 0 < n) sizes /\ sizes <> [] /\ sum_sizes sizes = count /\ len sizes < count.
Proof.
  intros H. inversion H as [|? ? ? Hc Hs Hlen Hg Hr]; subst. destruct (fanout_bounds limits Hl) as [Hf Hm].
  destruct (fewer_pages (internal_fanout limits) _ (len sizes) Hf Hc Hlen) as (H1 & H2 & _). split_and!; [|by intros ->|done|done].
  destruct Hg as [Hsizes Hg]. destruct (N.leb_spec (sum_sizes sizes) (internal_fanout limits)) as [Hle|Hgt].
  - rewrite Hsizes. unfold level_sizes, canonical_sizes. rewrite one_group by done. repeat constructor. lia.
  - eapply Forall_impl; [by apply Hg|]. unfold group_ok. intros n. lia.
Qed.

(** The levels left of the original tree; none above its root. *)
Inductive levels_left : list page_tree -> list (list N) -> Prop :=
  | in_tree row groups : levels_of limits (len row) groups -> NoDup row -> len row <= U64_MAX -> levels_left row groups
  | past_root : levels_left [] [].

Definition next_row (row : list page_tree) (groups : list (list N)) : list page_tree :=
  default [] ((fun sizes => level_above sizes row) <$> head groups).

Lemma levels_left_NoDup row groups : levels_left row groups -> NoDup row.
Proof. destruct 1; [done|constructor]. Qed.

Lemma levels_left_next row groups : levels_left row groups ->
  (forall sizes, head groups = Some sizes -> sum_sizes sizes = len row /\ len row <= U64_MAX) /\
  levels_left (next_row row groups) (tail groups).
Proof.
  intros [row' groups' Hlev Hnd Hmax|]; [|split; [done|apply past_root]].
  destruct groups' as [|sizes groups']; [split; [done|apply past_root]|].
  destruct (levels_positive _ _ _ Hlev) as (Hpos & _ & Hs & Hlt). split; [cbn; by intros ? [= <-]|].
  unfold next_row. cbn [head tail fmap option_fmap option_map from_option id]. constructor.
  - unfold len. rewrite length_level_above. by inversion Hlev.
  - by apply level_above_NoDup.
  - unfold len in *. rewrite length_level_above. lia.
Qed.

Lemma next_row_levels row groups l :
  default [] (tree_levels row groups !! S l) = default [] (tree_levels (next_row row groups) (tail groups) !! l).
Proof. destruct groups as [|sizes groups]; [by destruct l|done]. Qed.

Lemma identify_levels_cases k groups done_ids ids frow orow :
  length done_ids = k -> drop k fgroups = groups -> levels_of limits (len frow) groups -> len frow <= U64_MAX ->
  levels_left orow (drop k ogroups) -> level_ids k ids frow orow ->
  exists rows, fold_result (identify_level tree) (seq (S k) (length groups)) (done_ids ++ [ids]) = Ok (done_ids ++ ids :: rows) /\
    length rows = length groups /\
    forall l row frow', rows !! l = Some row -> tree_levels frow groups !! S l = Some frow' ->
      level_ids (S k + l) row frow' (default [] (tree_levels orow (drop k ogroups) !! S l)).
Proof.
  intros Hk Hdrop Hlev. remember (len frow) as count eqn:Hcount. revert k done_ids ids frow orow Hk Hdrop Hcount.
  induction Hlev as [|count sizes rest Hc Hs Hlen Hg Hlev IH]; intros k done_ids ids frow orow Hk Hdrop -> Hmax Ho Hids.
  { exists []. split_and!; [done|done|]. intros l row frow' [=]. }
  assert (Hfk : fgroups !! k = Some sizes) by (by rewrite <- (Nat.add_0_r k), <- lookup_drop, Hdrop).
  assert (Hdrop' : drop (S k) fgroups = rest) by (by rewrite <- Nat.add_1_r, <- drop_drop, Hdrop).
  assert (Hok : head (drop k ogroups) = ogroups !! k) by (by rewrite head_lookup, lookup_drop, Nat.add_0_r).
  assert (Htail : tail (drop k ogroups) = drop (S k) ogroups) by (by rewrite <- Nat.add_1_r, <- drop_drop; destruct (drop k _)).
  destruct (levels_positive (len frow) sizes rest) as (_ & Hne & _ & Hlt); [by constructor|].
  destruct (levels_left_next _ _ Ho) as [Hgo Hnext]. pose proof (levels_left_NoDup _ _ Ho) as Hnd.
  destruct (next_level_ids k ids frow orow sizes (ogroups !! k)) as (row & Hrow & Hrowids); [done..|by rewrite <- Hok|].
  destruct (IH (S k) (done_ids ++ [ids]) row (level_above sizes frow) (next_row orow (drop k ogroups))) as (rows & Hrun & Hlr & Hat).
  - rewrite length_app, Hk. cbn. lia.
  - done.
  - unfold len. by rewrite length_level_above.
  - lia.
  - by rewrite <- Htail.
  - unfold next_row. by rewrite Hok.
  - exists (row :: rows). split_and!; [|cbn; by rewrite Hlr|].
    + cbn [length seq fold_result]. unfold identify_level at 1. replace (S k - 1)%nat with k by lia.
      rewrite (list_lookup_middle done_ids [] ids k) by done. cbn [ok_or]. rewrite Hfk. cbn [ok_or].
      unfold original_group_ranges. rewrite group_ranges_fit by (rewrite N.add_0_l, Hs; lia).
      rewrite ranges_end by done. rewrite N.add_0_l, Hs.
      assert (Hlids : len ids = len frow) by (unfold len; by rewrite (proj1 Hids)). rewrite Hlids.
      rewrite bool_decide_eq_true_2 by done. rewrite Hrow, Hrun, <- app_assoc. done.
    + intros [|l] row' frow' Hr Hf.
      * injection Hr as <-. cbn in Hf. destruct rest; injection Hf as <-; rewrite next_row_levels, Nat.add_0_r;
          unfold next_row at 1; rewrite Hok; by destruct (tail _).
      * rewrite Nat.add_succ_r, next_row_levels, Htail. by apply (Hat l).
Qed.

Lemma tree_row row groups l frow : levels_of limits (len row) groups -> NoDup row ->
  tree_levels row groups !! l = Some frow -> NoDup frow /\ len frow <= len row.
Proof.
  intros Hlev. remember (len row) as count eqn:Hcount. revert row l Hcount.
  induction Hlev as [|count sizes rest Hc Hs Hlen Hg Hlev IH]; intros row [|l] -> Hnd H; try by (injection H as <-).
  - done.
  - destruct (levels_positive (len row) sizes rest) as (Hpos & _ & _ & Hlt); [by constructor|].
    assert (Hab : len (level_above sizes row) = len sizes) by (unfold len; by rewrite length_level_above).
    destruct (IH (level_above sizes row) l) as [Hnd' Hle]; [done|by apply level_above_NoDup|done|]. split; [done|lia].
Qed.
End Trees.

(** ** Leaves *)

Lemma find_leaf_cases page index leaves :
  match find_leaf touched page index leaves with
  | Some g => exists i, g = (index + i)%nat /\ leaves !! i = Some page /\ g ∉ touched
  | None => forall i, leaves !! i = Some page -> (index + i)%nat ∈ touched
  end.
Proof.
  revert index. induction leaves as [|candidate leaves IH]; intros index; cbn [find_leaf]; [done|].
  destruct (bool_decide (candidate = page) && _) eqn:E.
  - bool_facts. exists 0%nat. rewrite Nat.add_0_r. subst. done.
  - specialize (IH (S index)). destruct (find_leaf _ _ _ _) as [g|].
    + destruct IH as (i & -> & Hi & Hg). exists (S i). rewrite Nat.add_succ_r. done.
    + intros [|i] Hi; [|rewrite Nat.add_succ_r; by apply (IH i)]. injection Hi as ->.
      rewrite bool_decide_eq_true_2 in E by done. cbn in E. bool_facts. by rewrite Nat.add_0_r.
Qed.

Lemma leaf_level_ids tree : touched_original_pages (leaf tree) = touched ->
  level_ids 0 (final_leaf_identities pages tree) (LeafPage <$> final_pages (leaf tree)) (LeafPage <$> pages).
Proof.
  intros Ht. unfold final_leaf_identities. rewrite Ht. split; [by rewrite length_imap, length_fmap|]. intros j t Hj.
  rewrite list_lookup_fmap in Hj. apply fmap_Some in Hj as (page & Hpage & ->). rewrite list_lookup_imap, Hpage.
  eexists. split; [done|]. pose proof (find_leaf_cases page 0 pages) as Hf.
  destruct (find_leaf _ _ _ _) as [i|]; cbn [identity_of identified].
  - destruct Hf as (i' & -> & Hi & Hn). split_and!; [done|cbn; by rewrite list_lookup_fmap, Hi|].
    intros page' ->%list_elem_of_singleton. by exists i'.
  - split_and!; [done|done|]. intros [_ Hu]. destruct (Hu page) as (o & Ho & Hn); [by left|]. by apply Hn, (Hf o).
Qed.

(** ** Summaries *)

Definition originals (ids : list PlannedPageIdentity) : list nat :=
  omap (fun identity => match identity with Original _ index => Some index | New _ _ => None end) ids.

Definition is_new (identity : PlannedPageIdentity) : bool := match identity with Original _ _ => false | New _ _ => true end.

Lemma originals_cons identity ids :
  originals (identity :: ids) = match identity with Original _ i => [i] | New _ _ => [] end ++ originals ids.
Proof. by destruct identity. Qed.

Lemma elem_of_originals i ids : i ∈ originals ids <-> exists level, Original level i ∈ ids.
Proof.
  unfold originals. rewrite list_elem_of_omap. split.
  - intros ([level i'|] & Hin & [=]); subst. by exists level.
  - intros [level Hin]. by exists (Original level i).
Qed.

Lemma count_new ids : count_if is_new ids + len (originals ids) = len ids.
Proof.
  induction ids as [|identity ids IH]; [done|]. rewrite count_if_cons, originals_cons, len_app, len_cons.
  destruct identity; cbn [is_new]; unfold len in *; cbn [length] in *; lia.
Qed.

(** An identity the summaries accept. *)
Definition well_placed (level levels : nat) (identity : PlannedPageIdentity) : Prop :=
  match identity with
  | Original level' _ => level' = level /\ (level < levels)%nat
  | New level' _ => level' = level
  end.

Lemma tally_all level levels ids s : Forall (well_placed level levels) ids -> s.2 + len ids <= U64_MAX ->
  fold_result (tally level levels) ids s = Ok (s.1 ++ originals ids, s.2 + count_if is_new ids).
Proof.
  intros Hf. revert s. induction Hf as [|identity ids Hw Hf IH]; intros [found new] Hmax.
  { cbn. by rewrite app_nil_r, N.add_0_r. }
  rewrite len_cons in Hmax. cbn [fst snd] in *. rewrite count_if_cons, originals_cons. cbn [fold_result].
  destruct identity as [level' i|level' i]; cbn [well_placed tally is_new] in *.
  - destruct Hw as [-> Hlt]. rewrite Nat.eqb_refl. apply Nat.ltb_lt in Hlt. rewrite Hlt. cbn [andb].
    rewrite IH by (cbn; lia). cbn [fst snd]. rewrite <- app_assoc. done.
  - subst. rewrite Nat.eqb_refl. cbn [fst snd]. rewrite checked_add_fits by lia. cbn [ok_or].
    rewrite IH by (cbn; lia). cbn [fst snd]. do 2 f_equal. lia.
Qed.

Lemma summarize_cases level rows reused news :
  (forall k row, rows !! k = Some row -> Forall (well_placed (level + k) (length reused)) row /\ len row <= U64_MAX) ->
  exists reused', summarize level rows reused news = Ok (reused', news ++ (count_if is_new <$> rows)) /\
    length reused' = length reused /\
    forall l, reused' !! l = if (l <? level)%nat then reused !! l else
      match rows !! (l - level)%nat with
      | Some row => (fun found => sort_dedup (found ++ originals row)) <$> reused !! l
      | None => reused !! l
      end.
Proof.
  revert level reused news. induction rows as [|row rows IH]; intros level reused news Hrows; cbn [summarize].
  { exists reused. rewrite fmap_nil, app_nil_r. split_and!; [done|done|]. intros l. rewrite lookup_nil. by destruct (l <? level)%nat. }
  destruct (Hrows 0%nat row eq_refl) as [Hw Hmax]. rewrite Nat.add_0_r in Hw.
  rewrite tally_all by (cbn; done). cbn [fst snd].
  set (found := default [] (reused !! level)).
  destruct (IH (S level) (<[level := sort_dedup (found ++ originals row)]> reused) (news ++ [0 + count_if is_new row]))
    as (reused' & -> & Hlen & Hat).
  { intros k r Hk. rewrite length_insert. replace (S level + k)%nat with (level + S k)%nat by lia. by apply (Hrows (S k)). }
  exists reused'. rewrite length_insert in Hlen. split_and!; [by rewrite <- app_assoc, N.add_0_l|done|].
  intros l. rewrite Hat. destruct (Nat.ltb_spec l (S level)) as [Hlt|Hge], (Nat.ltb_spec l level) as [Hlt'|Hge']; try lia.
  - by rewrite list_lookup_insert_ne by lia.
  - assert (l = level) as -> by lia. rewrite Nat.sub_diag. cbn.
    destruct (reused !! level) as [old|] eqn:E.
    + rewrite list_lookup_insert_eq by (by eapply lookup_lt_Some). done.
    + rewrite list_insert_ge; [by rewrite E|]. by apply lookup_ge_None.
  - rewrite list_lookup_insert_ne by lia. by replace (l - level)%nat with (S (l - S level)) by lia.
Qed.
End Levels.

Section Rows.
Context (pages : list (list N)) (touched : list nat) (level : nat).
Context (ids : list PlannedPageIdentity) (frow orow : list page_tree).
Context (Hids : level_ids pages touched level ids frow orow).

Lemma level_ids_Forall2 : Forall2 (fun identity t => exists j, identified pages touched level j t orow identity) ids frow.
Proof.
  destruct Hids as [Hlen Hat]. apply Forall2_same_length_lookup_2; [done|]. intros j identity t Hi Ht.
  destruct (Hat j t Ht) as (identity' & Hi' & Hid). exists j. congruence.
Qed.

Lemma level_ids_placed levels : (orow <> [] -> (level < levels)%nat) -> Forall (well_placed level levels) ids.
Proof.
  intros Hlt. pose proof level_ids_Forall2 as Hf. clear Hids. induction Hf as [|[level' i|level' j'] t ids' frow' [j Hid] _ IH]; constructor; try done.
  - destruct Hid as (-> & Hi & _). split; [done|]. apply Hlt. intros ->. by rewrite lookup_nil in Hi.
  - exact (proj1 Hid).
Qed.

(** The original pages found are those that occur in the final level
    untouched. *)
Lemma originals_spec i : NoDup orow ->
  i ∈ originals ids <-> exists t, orow !! i = Some t /\ untouched pages touched t /\ t ∈ frow.
Proof.
  intros Hnd. rewrite elem_of_originals. pose proof level_ids_Forall2 as Hf. split.
  - intros [level' Hin]. apply list_elem_of_lookup in Hin as [k Hk].
    destruct (Forall2_lookup_l _ _ _ _ _ Hf Hk) as (t & Ht & j & -> & Hi & Hu). exists t.
    split_and!; [done|done|by eapply list_elem_of_lookup_2].
  - intros (t & Hi & Hu & Ht). apply list_elem_of_lookup in Ht as [k Hk].
    destruct (Forall2_lookup_r _ _ _ _ _ Hf Hk) as ([level' i'|level' j'] & Hin & j & Hid).
    + destruct Hid as (-> & Hi' & _). exists level. rewrite (NoDup_lookup _ _ _ _ Hnd Hi Hi').
      by eapply list_elem_of_lookup_2.
    + exfalso. destruct Hid as (_ & _ & Hno). apply Hno. split; [by eapply list_elem_of_lookup_2|done].
Qed.

Lemma originals_NoDup : NoDup frow -> NoDup (originals ids).
Proof.
  pose proof level_ids_Forall2 as Hf. clear Hids. induction Hf as [|identity t ids' frow' [j Hid] Hf IH]; [constructor|].
  intros [Hn Hnd]%NoDup_cons. rewrite originals_cons. destruct identity as [level' i|]; [|by apply IH].
  constructor; [|by apply IH]. intros [level2 Hin]%elem_of_originals. apply list_elem_of_lookup in Hin as [k Hk].
  destruct (Forall2_lookup_l _ _ _ _ _ Hf Hk) as (t' & Ht' & j' & -> & Hi' & _). destruct Hid as (_ & Hi & _).
  rewrite Hi in Hi'. injection Hi' as <-. apply Hn. by eapply list_elem_of_lookup_2.
Qed.

Lemma level_ids_count : NoDup frow -> count_if is_new ids + len (sort_dedup (originals ids)) = len frow.
Proof.
  intros Hnd. assert (Hp : sort_dedup (originals ids) ≡ₚ originals ids).
  { apply NoDup_Permutation; [|by apply originals_NoDup|intros; apply elem_of_sort_dedup].
    generalize (sort_dedup_sorted (originals ids)). induction 1 as [|x l _ IH Hx]; constructor; [|done].
    intros Hin. rewrite Forall_forall in Hx. specialize (Hx x Hin). lia. }
  assert (Hl : len (sort_dedup (originals ids)) = len (originals ids)) by (unfold len; by rewrite Hp).
  rewrite Hl, count_new. unfold len. by rewrite (proj1 Hids).
Qed.
End Rows.

Lemma length_tree_levels row groups : length (tree_levels row groups) = S (length groups).
Proof. revert row. induction groups as [|sizes groups IH]; intros row; [done|]. cbn. by rewrite IH. Qed.

(** ** The plan *)

Definition final_row (p : MixedReferencePlan) (level : nat) : list page_tree :=
  default [] (page_levels (final_pages (leaf (tree p))) (internal_group_sizes (final_shape (tree p))) !! level).

Definition original_row (pages : list (list N)) (p : MixedReferencePlan) (level : nat) : list page_tree :=
  default [] (page_levels pages (internal_group_sizes (original (tree p))) !! level).

Definition planned_touched (p : MixedReferencePlan) : list nat := touched_original_pages (leaf (tree p)).

Record references_planned (pages : list (list N)) (operations : list MixedPlanOperation) (limits : MixedTreePlanLimits)
    (p : MixedReferencePlan) : Prop := {
  rf_tree : plan_mixed_tree_updates pages operations limits = Ok (tree p);
  rf_levels : length (final_level_identities p) = S (root_level (final_shape (tree p))) /\
    length (reused_original_pages p) = S (root_level (original (tree p))) /\
    length (new_pages_by_level p) = S (root_level (final_shape (tree p)));
  rf_identities level ids : final_level_identities p !! level = Some ids ->
    level_ids pages (planned_touched p) level ids (final_row p level) (original_row pages p level);
  rf_reused level row : reused_original_pages p !! level = Some row -> StronglySorted lt row /\
    forall i, i ∈ row <-> exists t, original_row pages p level !! i = Some t /\
      untouched pages (planned_touched p) t /\ t ∈ final_row p level;
  rf_leaves row i : reused_original_pages p !! 0%nat = Some row ->
    i ∈ row <-> (i < length pages)%nat /\ i ∉ planned_touched p;
  rf_new level n : new_pages_by_level p !! level = Some n ->
    n + len (default [] (reused_original_pages p !! level)) = len (final_row p level);
}.

Lemma leaf_reuse pages operations limits (p : MixedLeafPlan) i :
  planned pages operations limits p -> pages_ok limits pages ->
  (exists t, (LeafPage <$> pages) !! i = Some t /\ untouched pages (touched_original_pages p) t /\
     t ∈ LeafPage <$> final_pages p) <-> (i < length pages)%nat /\ i ∉ touched_original_pages p.
Proof.
  intros Hpl Hok. pose proof (pages_NoDup _ _ Hok) as Hnd. split.
  - intros (t & Hi & Hu & _). split; [apply lookup_lt_Some in Hi; by rewrite length_fmap in Hi|].
    rewrite list_lookup_fmap in Hi. apply fmap_Some in Hi as (page & Hi & ->).
    destruct (Hu page) as (o & Ho & Hn); [by left|]. by rewrite (NoDup_lookup _ _ _ _ Hnd Hi Ho).
  - intros [Hlt Hn]. apply lookup_lt_is_Some_2 in Hlt as [page Hi]. exists (LeafPage page).
    rewrite list_lookup_fmap, Hi. split_and!; [done| |].
    + intros page' ->%list_elem_of_singleton. by exists i.
    + apply list_elem_of_fmap. exists page. split; [done|]. by apply (pn_untouched _ _ _ _ Hpl i).
Qed.

(** The identities of all the levels. *)
Lemma all_level_identities limits pages tree :
  tree_limits_ok limits = true -> pages_ok (leaf_limits limits) pages -> pages_ok (leaf_limits limits) (final_pages (leaf tree)) ->
  max_pages (leaf_limits limits) <= U64_MAX ->
  shape_of limits (len pages) (original tree) -> shape_of limits (len (final_pages (leaf tree))) (final_shape tree) ->
  exists rows, fold_result (identify_level tree) (seq 1 (root_level (final_shape tree))) [final_leaf_identities pages tree] = Ok rows /\
    length rows = S (root_level (final_shape tree)) /\
    forall level ids, rows !! level = Some ids ->
      level_ids pages (touched_original_pages (leaf tree)) level ids
        (default [] (page_levels (final_pages (leaf tree)) (internal_group_sizes (final_shape tree)) !! level))
        (default [] (page_levels pages (internal_group_sizes (original tree)) !! level)).
Proof.
  intros Hl Hok Hfok Hmp Ho Hf. set (touched := touched_original_pages (leaf tree)).
  destruct (identify_levels_cases pages touched limits Hl tree 0 (internal_group_sizes (final_shape tree)) []
    (final_leaf_identities pages tree) (LeafPage <$> final_pages (leaf tree)) (LeafPage <$> pages)) as (rows & Hrun & Hlen & Hat).
  - done.
  - by rewrite drop_0.
  - rewrite len_fmap. apply Hf.
  - rewrite len_fmap. pose proof (po_count _ _ Hfok). lia.
  - rewrite drop_0. constructor; rewrite ?len_fmap.
    + apply Ho.
    + apply NoDup_fmap_2; [by intros ? ? [= ->]|]. by eapply pages_NoDup.
    + pose proof (po_count _ _ Hok). lia.
  - by apply leaf_level_ids.
  - rewrite (so_root _ _ _ Hf). eexists. split; [exact Hrun|]. split; [cbn; by rewrite Hlen|].
    intros [|level] ids Hids.
    + injection Hids as <-. pose proof (leaf_level_ids pages touched tree eq_refl) as H0.
      unfold page_levels. by destruct (internal_group_sizes (final_shape tree)), (internal_group_sizes (original tree)).
    + assert (Hlt : (S level < length (tree_levels (LeafPage <$> final_pages (leaf tree)) (internal_group_sizes (final_shape tree))))%nat).
      { rewrite length_tree_levels, <- Hlen. apply lookup_lt_Some in Hids. cbn in Hids. lia. }
      apply lookup_lt_is_Some_2 in Hlt as [frow Hfrow]. specialize (Hat level ids frow Hids Hfrow).
      unfold page_levels. rewrite Hfrow. rewrite drop_0 in Hat. exact Hat.
Qed.

Lemma level_row limits leaves groups level :
  tree_limits_ok limits = true -> NoDup leaves -> levels_of limits (len leaves) groups ->
  let row := default [] (page_levels leaves groups !! level) in NoDup row /\ len row <= len leaves.
Proof.
  intros Hl Hnd Hlev. cbn zeta. unfold page_levels. destruct (tree_levels _ _ !! level) as [row|] eqn:E; [|split; [apply NoDup_nil_2|apply N.le_0_l]].
  destruct (tree_row limits Hl (LeafPage <$> leaves) groups level row) as [Hr Hle]; [by rewrite len_fmap| |done|].
  - apply NoDup_fmap_2; [by intros ? ? [= ->]|done].
  - rewrite len_fmap in Hle. done.
Qed.

(** The summaries of identified rows. *)
Lemma summaries_planned pages operations limits tr rows reused :
  plan_mixed_tree_updates pages operations limits = Ok tr ->
  tree_planned pages operations limits tr -> planned pages operations (leaf_limits limits) (leaf tr) ->
  pages_ok (leaf_limits limits) pages ->
  length rows = S (root_level (final_shape tr)) -> length reused = S (root_level (original tr)) ->
  (forall level ids, rows !! level = Some ids ->
    level_ids pages (touched_original_pages (leaf tr)) level ids
      (default [] (page_levels (final_pages (leaf tr)) (internal_group_sizes (final_shape tr)) !! level))
      (default [] (page_levels pages (internal_group_sizes (original tr)) !! level))) ->
  (forall level, NoDup (default [] (page_levels pages (internal_group_sizes (original tr)) !! level))) ->
  (forall level, NoDup (default [] (page_levels (final_pages (leaf tr)) (internal_group_sizes (final_shape tr)) !! level))) ->
  (forall level, reused !! level =
    if decide (level < S (root_level (original tr)))%nat then Some (sort_dedup (originals (default [] (rows !! level)))) else None) ->
  references_planned pages operations limits (mkReferencePlan tr rows reused (count_if is_new <$> rows)).
Proof.
  intros Et Ht Hpl Hok Hlen Hlr Hids Horow Hfrow Hr. set (p := mkReferencePlan _ _ _ _).
  assert (Hreused : forall level row, reused_original_pages p !! level = Some row -> StronglySorted lt row /\
    forall i, i ∈ row <-> exists t, original_row pages p level !! i = Some t /\
      untouched pages (planned_touched p) t /\ t ∈ final_row p level).
  { intros level row Hrow. cbn in Hrow. rewrite Hr in Hrow. destruct (decide _) as [Hlt|]; [|done]. injection Hrow as <-.
    split; [apply sort_dedup_sorted|]. intros i. rewrite elem_of_sort_dedup. unfold final_row, original_row, planned_touched, p. cbn [tree].
    destruct (rows !! level) as [ids|] eqn:E; cbn [from_option id].
    - by apply (originals_spec _ _ _ _ _ _ (Hids level ids E)).
    - split; [intros Hi; by apply elem_of_nil in Hi|]. intros (t & _ & _ & Hin). exfalso.
      unfold page_levels in Hin. rewrite (proj2 (lookup_ge_None _ _)) in Hin; [by apply elem_of_nil in Hin|].
      rewrite length_tree_levels, <- (so_root _ _ _ (tp_final _ _ _ _ Ht)), <- Hlen. by apply lookup_ge_None. }
  split; unfold p; cbn [tree final_level_identities reused_original_pages new_pages_by_level].
  - done.
  - split_and!; [done|done|by rewrite length_fmap].
  - exact Hids.
  - exact Hreused.
  - intros row i Hrow. rewrite (proj2 (Hreused 0%nat row Hrow) i). rewrite <- (leaf_reuse _ _ _ _ i Hpl Hok).
    unfold original_row, final_row, planned_touched, page_levels, p. cbn [tree].
    by destruct (internal_group_sizes (original tr)), (internal_group_sizes (final_shape tr)).
  - intros level n Hn. rewrite list_lookup_fmap in Hn. apply fmap_Some in Hn as (ids & Hlevel & ->).
    pose proof (level_ids_count _ _ _ _ _ _ (Hids level ids Hlevel) (Hfrow level)) as Hc.
    unfold final_row, p. cbn [tree]. rewrite <- Hc. f_equal. f_equal. rewrite Hr, Hlevel.
    destruct (decide _) as [Hlt|Hge]; [done|]. cbn.
    destruct (originals ids) as [|i l] eqn:Eo; [done|]. exfalso.
    assert (Hi : i ∈ originals ids) by (rewrite Eo; by left).
    apply (originals_spec _ _ _ _ _ _ (Hids level ids Hlevel) i (Horow level)) in Hi as (t & Hi & _).
    unfold page_levels in Hi. rewrite (proj2 (lookup_ge_None (tree_levels _ _) level)) in Hi; [done|].
    rewrite length_tree_levels, <- (so_root _ _ _ (tp_original _ _ _ _ Ht)). lia.
Qed.

Lemma reference_plan_cases pages operations limits :
  2 * max_objects (leaf_limits limits) <= U64_MAX -> max_pages (leaf_limits limits) <= U64_MAX ->
  match plan_mixed_page_references pages operations limits with
  | Ok p => references_planned pages operations limits p
  | Err e => exists e', e = Tree e' /\ plan_mixed_tree_updates pages operations limits = Err e'
  end.
Proof.
  intros Hmo Hmp. unfold plan_mixed_page_references. pose proof (tree_plan_cases pages operations limits Hmo Hmp) as Ht.
  destruct (plan_mixed_tree_updates pages operations limits) as [tree|e] eqn:Et; cbn [lift_tree]; [|by exists e].
  destruct Ht as [Hl Ht]. pose proof (batch_plan_cases pages operations (leaf_limits limits) Hmo) as Hb.
  rewrite (tp_leaf _ _ _ _ Ht) in Hb. destruct Hb as (_ & [Hok _] & _ & Hpl & _). pose proof (pn_pages _ _ _ _ Hpl) as Hfok.
  pose proof (tp_original _ _ _ _ Ht) as Ho. pose proof (tp_final _ _ _ _ Ht) as Hf.
  destruct (all_level_identities limits pages tree) as (rows & -> & Hlen & Hids); [done..|].
  assert (Horow : forall level, NoDup (default [] (page_levels pages (internal_group_sizes (original tree)) !! level))).
  { intros level. apply (level_row limits); [done|by eapply pages_NoDup|apply Ho]. }
  assert (Hfrow : forall level, let row := default [] (page_levels (final_pages (leaf tree)) (internal_group_sizes (final_shape tree)) !! level) in
    NoDup row /\ len row <= len (final_pages (leaf tree))).
  { intros level. apply (level_row limits); [done|by eapply pages_NoDup|apply Hf]. }
  destruct (summarize_cases 0 rows (replicate (S (root_level (original tree))) []) []) as (reused & -> & Hlr & Hr).
  { intros level ids Hlevel. specialize (Hids level ids Hlevel). split.
    - rewrite Nat.add_0_l. eapply level_ids_placed; [exact Hids|]. intros Hne. rewrite length_replicate, (so_root _ _ _ Ho).
      rewrite <- (length_tree_levels (LeafPage <$> pages)). apply not_ge. intros Hge.
      apply Hne. unfold page_levels. by rewrite (proj2 (lookup_ge_None _ _)).
    - destruct (Hfrow level) as [_ Hle]. pose proof (po_count _ _ Hfok). destruct Hids as [Hlid _]. unfold len in *. rewrite Hlid. lia. }
  rewrite length_replicate in Hlr. apply (summaries_planned pages operations limits tree rows reused); try done; [intros level; apply Hfrow|].
  intros level. rewrite Hr.
  change (level <? 0)%nat with false. cbn iota. rewrite Nat.sub_0_r. destruct (rows !! level) as [row|] eqn:E;
    destruct (decide (level < S (root_level (original tree)))%nat) as [Hlt|Hge].
  - rewrite lookup_replicate_2 by done. done.
  - by rewrite (proj2 (lookup_ge_None _ _)) by (rewrite length_replicate; lia).
  - rewrite lookup_replicate_2 by done. done.
  - by rewrite (proj2 (lookup_ge_None _ _)) by (rewrite length_replicate; lia).
Qed.

(** C20. [plan_mixed_page_references] reuses exactly what is unchanged: a page of
    the final tree gets the identity of an original page when it is that page
    and no touched leaf lies below it, and a new identity otherwise. The
    reused pages of a level are the original pages that occur in the final
    level untouched, each once and in ascending order, which for the leaves are
    the untouched ones; the new pages are the rest of the level. The planner
    fails only when the tree planner does. *)
Theorem references_reuse_unchanged pages operations limits :
  2 * max_objects (leaf_limits limits) <= U64_MAX -> max_pages (leaf_limits limits) <= U64_MAX ->
  match plan_mixed_page_references pages operations limits with
  | Ok p => references_planned pages operations limits p
  | Err e => exists e', e = Tree e' /\ plan_mixed_tree_updates pages operations limits = Err e'
  end.
Proof. apply reference_plan_cases. Qed.

Lemma references_reuse_unchanged_witness :
  exists p, plan_mixed_page_references
    [[2; 4; 6]; [8; 10]; [12; 14]; [16; 18]; [20; 22]; [24; 26]; [28; 30]; [32; 34]; [36; 38]] [Put 6; Delete 36]
    small_tree_limits = Ok p /\
  reused_original_pages p = [[1; 2; 3; 4; 5; 6]; [1]; []]%nat /\ new_pages_by_level p = [2; 2; 1] /\
  references_planned [[2; 4; 6]; [8; 10]; [12; 14]; [16; 18]; [20; 22]; [24; 26]; [28; 30]; [32; 34]; [36; 38]]
    [Put 6; Delete 36] small_tree_limits p.
Proof.
  assert (Hm : 2 * max_objects (leaf_limits small_tree_limits) <= U64_MAX) by (apply N.leb_le; vm_compute; reflexivity).
  assert (Hp : max_pages (leaf_limits small_tree_limits) <= U64_MAX) by (apply N.leb_le; vm_compute; reflexivity).
  pose proof (references_reuse_unchanged
    [[2; 4; 6]; [8; 10]; [12; 14]; [16; 18]; [20; 22]; [24; 26]; [28; 30]; [32; 34]; [36; 38]] [Put 6; Delete 36]
    small_tree_limits Hm Hp) as Ht.
  destruct (plan_mixed_page_references _ _ _) as [p|e] eqn:E.
  - exists p. split; [reflexivity|]. assert (E' := E). vm_compute in E'. injection E' as <-.
    do 2 (split; [reflexivity|]). exact Ht.
  - exfalso. revert E. vm_compute. discriminate.
Defined.
