(* ===== verification/CowReuse.v ===== *)
(** [crates/ucof-experiments/src/cow_reuse.rs]: a directory of pages that are
    never overwritten. An update copies the path from the root to a leaf,
    splitting pages that overflow, and shares every other page with the
    directory it started from. *)

From Stdlib Require Import Strings.Byte Strings.String NArith ZArith Lia.
From stdpp Require Import base list gmap strings sorting.
From S2P Require Import Prelude Order Errors.

Local Open Scope N_scope.

Record Entry : Type := mkEntry {
  key : N;
  revision : N;
}.

Record Child : Type := mkChild {
  minimum : N;
  maximum : N;
  page_id : nat;
}.

Inductive Page : Type :=
  | Leaf (entries : list Entry)
  | Internal (children : list Child).

(** [Page::range] *)
Definition range (p : Page) : option (N * N) :=
  match p with
  | Leaf entries =>
      match head entries, last entries with
      | Some first, Some last => Some (key first, key last)
      | _, _ => None
      end
  | Internal children =>
      match head children, last children with
      | Some first, Some last => Some (minimum first, maximum last)
      | _, _ => None
      end
  end.

Record Limits : Type := mkCowLimits {
  max_pages_visited : N;
  max_new_pages : N;
  max_depth : N;
  max_validation_pages : N;
}.

Definition default_cow_limits : Limits := mkCowLimits 64 128 64 1000000.

Inductive Error : Type :=
  | EmptyDirectory
  | InvalidCapacity
  | InvalidKey
  | DuplicateKey (key : N)
  | PageLimitExceeded
  | NewPageLimitExceeded
  | DepthLimitExceeded
  | InvalidPageReference
  | InvalidPageRange
  | UnorderedEntries
  | OverlappingRanges
  | Cycle
  | ArithmeticOverflow.

Record Directory : Type := mkCow {
  pages : list Page;
  root : nat;
  leaf_capacity : N;
  internal_fanout : N;
}.

Record UpdateReport : Type := mkReport {
  directory : Directory;
  replaced_existing : bool;
  pages_visited : N;
  new_pages : list nat;
  reused_pages : N;
  old_reachable_pages : N;
  new_reachable_pages : N;
  old_depth : N;
  new_depth : N;
}.

Definition copied_page_count (r : UpdateReport) : N := len (new_pages r).

Definition copied_bytes (r : UpdateReport) (page_bytes : N) : option N :=
  n ← try_u64 (len (new_pages r)); b ← try_u64 page_bytes; checked_mul n b.

Definition full_rebuild_bytes (r : UpdateReport) (page_bytes : N) : option N :=
  n ← try_u64 (new_reachable_pages r); b ← try_u64 page_bytes; checked_mul n b.

(** ** Helpers *)

(** [iter().position(..).unwrap_or_else(|| children.len().saturating_sub(1))] *)
Definition select_child_index (children : list Child) (key : N) : nat :=
  match list_find (fun child => key <= maximum child) children with
  | Some (index, _) => index
  | None => (length children - 1)%nat
  end.

Definition child_for (pages : list Page) (page_id : nat) : result Error Child :=
  let* page := ok_or (pages !! page_id) InvalidPageReference in
  let* r := ok_or (range page) InvalidPageRange in
  Ok (mkChild r.1 r.2 page_id).

Definition validate_capacities (leaf_capacity internal_fanout : N) : result Error unit :=
  if (leaf_capacity <? 2) || (internal_fanout <? 2) then Err InvalidCapacity else Ok tt.

(** The loop of [validate_entries], with the key before. *)
Fixpoint entries_loop (previous : option N) (entries : list Entry) : result Error unit :=
  match entries with
  | [] => Ok tt
  | entry :: entries =>
      check negb (key entry =? 0) else InvalidKey in
      check negb (match previous with Some k => key entry <=? k | None => false end)
        else (if bool_decide (previous = Some (key entry)) then DuplicateKey (key entry) else UnorderedEntries) in
      entries_loop (Some (key entry)) entries
  end.

Definition validate_entries (entries : list Entry) : result Error unit := entries_loop None entries.

(** ** [Directory::validate] *)

(** The loop over the children of a page, with the maximum before. *)
Fixpoint children_loop (pages : list Page) (previous : option N) (children : list Child) : result Error unit :=
  match children with
  | [] => Ok tt
  | child :: children =>
      check negb ((minimum child =? 0) || (maximum child <? minimum child)) else InvalidPageRange in
      check negb (match previous with Some m => minimum child <=? m | None => false end) else OverlappingRanges in
      let* page := ok_or (pages !! page_id child) InvalidPageReference in
      let* actual := ok_or (range page) InvalidPageRange in
      check bool_decide (actual = (minimum child, maximum child)) else InvalidPageRange in
      children_loop pages (Some (maximum child)) children
  end.

(** One page, and what it pushes on the stack; the end of the list is the top. *)
Definition validate_page (d : Directory) (depth : N) (page : Page) : result Error (list (nat * N)) :=
  match page with
  | Leaf entries =>
      check negb ((len entries =? 0) || (leaf_capacity d <? len entries)) else InvalidPageRange in
      let* _ := validate_entries entries in
      Ok []
  | Internal children =>
      check negb ((len children =? 0) || (internal_fanout d <? len children)) else InvalidPageRange in
      let* _ := children_loop (pages d) None children in
      Ok ((fun child => (page_id child, depth + 1)) <$> children)
  end.

(** Every turn visits a page for the first time or is the last
    ([CowReuseFacts.validate_loop_trees]). *)
Fixpoint validate_loop (fuel : nat) (d : Directory) (limits : Limits) (stack : list (nat * N)) (seen : gset nat)
    : result Error unit :=
  match fuel with
  | O => Err Cycle
  | S fuel =>
      match last stack with
      | None => Ok tt
      | Some (page_id, depth) =>
          let stack := removelast stack in
          check negb (max_depth limits <? depth) else DepthLimitExceeded in
          check negb (bool_decide (page_id ∈ seen)) else Cycle in
          let seen := {[page_id]} ∪ seen in
          check negb (max_validation_pages limits <? N.of_nat (size seen)) else PageLimitExceeded in
          let* page := ok_or (pages d !! page_id) InvalidPageReference in
          let* pushed := validate_page d depth page in
          validate_loop fuel d limits (stack ++ pushed) seen
      end
  end.

Definition validate (d : Directory) (limits : Limits) : result Error unit :=
  let* _ := validate_capacities (leaf_capacity d) (internal_fanout d) in
  validate_loop (S (S (length (pages d)))) d limits [(root d, 1)] ∅.

(** ** [Directory::lookup], [depth] and [reachable_pages] *)

Fixpoint lookup_loop (fuel : nat) (d : Directory) (key_ : N) (page_id_ : nat) (seen : gset nat)
    : result Error (option Entry) :=
  match fuel with
  | O => Err Cycle
  | S fuel =>
      check negb (bool_decide (page_id_ ∈ seen)) else Cycle in
      let seen := {[page_id_]} ∪ seen in
      check negb (length (pages d) <? size seen)%nat else PageLimitExceeded in
      let* page := ok_or (pages d !! page_id_) InvalidPageReference in
      match page with
      | Leaf entries =>
          match binary_search_by_key key entries key_ with
          | Ok index => Ok (entries !! index)
          | Err _ => Ok None
          end
      | Internal children =>
          match List.find (fun child => (minimum child <=? key_) && (key_ <=? maximum child)) children with
          | None => Ok None
          | Some child => lookup_loop fuel d key_ (page_id child) seen
          end
      end
  end.

Definition lookup (d : Directory) (key_ : N) : result Error (option Entry) :=
  check negb (key_ =? 0) else InvalidKey in
  lookup_loop (S (S (length (pages d)))) d key_ (root d) ∅.

Fixpoint depth_loop (fuel : nat) (d : Directory) (max_depth depth : N) (page_id_ : nat) (seen : gset nat)
    : result Error N :=
  match fuel with
  | O => Err Cycle
  | S fuel =>
      check negb (bool_decide (page_id_ ∈ seen)) else Cycle in
      let seen := {[page_id_]} ∪ seen in
      let* depth := ok_or (checked_add depth 1) ArithmeticOverflow in
      check negb (max_depth <? depth) else DepthLimitExceeded in
      let* page := ok_or (pages d !! page_id_) InvalidPageReference in
      match page with
      | Leaf _ => Ok depth
      | Internal children =>
          let* child := ok_or (head children) InvalidPageRange in
          depth_loop fuel d max_depth depth (page_id child) seen
      end
  end.

Definition depth_with_limit (d : Directory) (max_depth : N) : result Error N :=
  depth_loop (S (S (length (pages d)))) d max_depth 0 (root d) ∅.

Definition depth (d : Directory) : result Error N := depth_with_limit d (len (pages d)).

Fixpoint reach_loop (fuel : nat) (d : Directory) (max_pages : N) (stack : list nat) (reachable : gset nat)
    : result Error (gset nat) :=
  match fuel with
  | O => Err Cycle
  | S fuel =>
      match last stack with
      | None => Ok reachable
      | Some page_id_ =>
          let stack := removelast stack in
          check negb (bool_decide (page_id_ ∈ reachable)) else Cycle in
          let reachable := {[page_id_]} ∪ reachable in
          check negb (max_pages <? N.of_nat (size reachable)) else PageLimitExceeded in
          let* page := ok_or (pages d !! page_id_) InvalidPageReference in
          match page with
          | Leaf _ => reach_loop fuel d max_pages stack reachable
          | Internal children => reach_loop fuel d max_pages (stack ++ (page_id <$> children)) reachable
          end
      end
  end.

Definition reachable_pages (d : Directory) (max_pages : N) : result Error (gset nat) :=
  reach_loop (S (S (length (pages d)))) d max_pages [root d] ∅.

Definition reachable_page_count (d : Directory) : result Error N :=
  let* reachable := reachable_pages d (len (pages d)) in
  Ok (N.of_nat (size reachable)).

(** ** [Directory::build] *)

(** [pages.push(page); level.push(child_for(&pages, page_id)?)] *)
Definition push_level {A} (page_of : A -> Page) (s : list Page * list Child) (chunk : A)
    : result Error (list Page * list Child) :=
  let page_id := length s.1 in
  let pages := s.1 ++ [page_of chunk] in
  let* child := child_for pages page_id in
  Ok (pages, s.2 ++ [child]).

(** [while level.len() > 1]; a fanout of at least two makes every level shorter
    than the one below. *)
Fixpoint build_levels (fuel : nat) (internal_fanout : N) (pages : list Page) (level : list Child)
    : result Error (list Page * list Child) :=
  match fuel with
  | O => Err Cycle
  | S fuel =>
      if (1 <? length level)%nat then
        let* (pages, next) := fold_result (push_level Internal) (chunks internal_fanout level) (pages, []) in
        build_levels fuel internal_fanout pages next
      else Ok (pages, level)
  end.

Definition build (entries : list Entry) (leaf_capacity internal_fanout : N) : result Error Directory :=
  let* _ := validate_capacities leaf_capacity internal_fanout in
  check negb (len entries =? 0) else EmptyDirectory in
  let entries := sort_by (cmp_on key N.compare) entries in
  let* _ := validate_entries entries in
  let* (pages, level) := fold_result (push_level Leaf) (chunks leaf_capacity entries) ([], []) in
  let* (pages, level) := build_levels (S (length level)) internal_fanout pages level in
  let* top := ok_or (head level) EmptyDirectory in
  let d := mkCow pages (page_id top) leaf_capacity internal_fanout in
  let* _ := validate d (mkCowLimits (len pages) (len pages) 128 (len pages)) in
  Ok d.

(** ** [Directory::upsert] *)

(** The mutable part of [Context]. *)
Record Context : Type := mkContext {
  ctx_pages : list Page;
  ctx_visited : N;
  ctx_new : list nat;
  ctx_replaced : bool;
}.

Record PageUpdate : Type := mkUpdate {
  left_page : Child;
  right_page : option Child;
}.

Definition push (limits : Limits) (page : Page) (c : Context) : result Error (nat * Context) :=
  check negb (max_new_pages limits <=? len (ctx_new c)) else NewPageLimitExceeded in
  let page_id := length (ctx_pages c) in
  Ok (page_id, mkContext (ctx_pages c ++ [page]) (ctx_visited c) (ctx_new c ++ [page_id]) (ctx_replaced c)).

(** A page of the new path from its contents, halved when they are more than
    [capacity]. *)
Definition push_split {A} (limits : Limits) (page_of : list A -> Page) (capacity : N) (items : list A) (c : Context)
    : result Error (PageUpdate * Context) :=
  if len items <=? capacity then
    let* (left_id, c) := push limits (page_of items) c in
    let* l := child_for (ctx_pages c) left_id in
    Ok (mkUpdate l None, c)
  else
    let split := (length items / 2)%nat in
    let* (left_id, c) := push limits (page_of (take split items)) c in
    let* (right_id, c) := push limits (page_of (drop split items)) c in
    let* l := child_for (ctx_pages c) left_id in
    let* r := child_for (ctx_pages c) right_id in
    Ok (mkUpdate l (Some r), c).

(** [entries[index] = entry], or [entries.insert(index, entry)]; and whether an
    entry was replaced. *)
Definition put_entry (entry : Entry) (entries : list Entry) : list Entry * bool :=
  match binary_search_by_key key entries (key entry) with
  | Ok index => (<[index := entry]> entries, true)
  | Err index => (take index entries ++ entry :: drop index entries, false)
  end.

(** The update of the child at [index] takes its place. *)
Definition put_child (index : nat) (updated : PageUpdate) (children : list Child) : list Child :=
  let children := <[index := left_page updated]> children in
  match right_page updated with
  | Some r => take (S index) children ++ r :: drop (S index) children
  | None => children
  end.

(** The recursion goes down one path of the directory, which has no cycle:
    [reachable_pages] has checked that. *)
Fixpoint upsert_page (fuel : nat) (limits : Limits) (leaf_capacity internal_fanout : N) (page_id_ : nat)
    (entry : Entry) (depth : N) (c : Context) : result Error (PageUpdate * Context) :=
  match fuel with
  | O => Err Cycle
  | S fuel =>
      check negb (max_depth limits <? depth) else DepthLimitExceeded in
      let* visited := ok_or (checked_add (ctx_visited c) 1) ArithmeticOverflow in
      check negb (max_pages_visited limits <? visited) else PageLimitExceeded in
      let c := mkContext (ctx_pages c) visited (ctx_new c) (ctx_replaced c) in
      let* page := ok_or (ctx_pages c !! page_id_) InvalidPageReference in
      match page with
      | Leaf entries =>
          let (entries, replaced) := put_entry entry entries in
          push_split limits Leaf leaf_capacity entries
            (mkContext (ctx_pages c) (ctx_visited c) (ctx_new c) (replaced || ctx_replaced c))
      | Internal children =>
          let index := select_child_index children (key entry) in
          let* selected := ok_or (children !! index) InvalidPageReference in
          let* (updated, c) :=
            upsert_page fuel limits leaf_capacity internal_fanout (page_id selected) entry (depth + 1) c in
          push_split limits Internal internal_fanout (put_child index updated children) c
      end
  end.

Definition upsert (d : Directory) (entry : Entry) (limits : Limits) : result Error UpdateReport :=
  check negb (key entry =? 0) else InvalidKey in
  let* old_reachable := reachable_pages d (max_validation_pages limits) in
  let* old_depth := depth_with_limit d (max_depth limits) in
  let* (update, c) := upsert_page (S (length (pages d))) limits (leaf_capacity d) (internal_fanout d) (root d) entry 1
                        (mkContext (pages d) 0 [] false) in
  let* (root, c) :=
    match right_page update with
    | Some r => push limits (Internal [left_page update; r]) c
    | None => Ok (page_id (left_page update), c)
    end in
  let directory := mkCow (ctx_pages c) root (leaf_capacity d) (internal_fanout d) in
  let* _ := validate directory limits in
  let* new_reachable := reachable_pages directory (max_validation_pages limits) in
  let reused_pages := N.of_nat (size (old_reachable ∩ new_reachable)) in
  let* new_depth := depth_with_limit directory (max_depth limits) in
  Ok (mkReport directory (ctx_replaced c) (ctx_visited c) (ctx_new c) reused_pages
        (N.of_nat (size old_reachable)) (N.of_nat (size new_reachable)) old_depth new_depth).
