(* ===== verification/CowReuseFacts.v ===== *)
(** The copy-on-write directory as a tree of pages over ascending entries: what
    the reading operations return on such a tree, and the tree an update leaves,
    page by page. *)

From Stdlib Require Import Strings.Byte Strings.String NArith ZArith Lia.
From stdpp Require Import base list gmap strings sorting.
From S2P Require Import Prelude Order Errors CowReuse.

Local Open Scope N_scope.

Abbreviation before := (key_lt key).
Abbreviation ordered := (StronglySorted before).
Abbreviation find_entry := (find_key key).

(** ** Trees *)

(** The child describes a page over the entries. *)
Definition spans (child : Child) (es : list Entry) : Prop :=
  exists first last_, head es = Some first /\ last es = Some last_ /\
    minimum child = key first /\ maximum child = key last_.

Section Trees.
Context (cap fan : N).

(** [tree ps h id es ids]: page [id] is the root of a tree with [h] internal
    levels over the entries [es], made of the pages [ids]. *)
Fixpoint tree (ps : list Page) (h id : nat) (es : list Entry) (ids : list nat) : Prop :=
  match h with
  | O => ps !! id = Some (Leaf es) /\ es <> [] /\ len es <= cap /\ ids = [id]
  | S h => exists children subs, ps !! id = Some (Internal children) /\ children <> [] /\ len children <= fan /\
      Forall2 (fun child (sub : list Entry * list nat) =>
        spans child sub.1 /\ tree ps h (page_id child) sub.1 sub.2) children subs /\
      es = concat subs.*1 /\ ids = id :: concat subs.*2
  end.

Definition linked (ps : list Page) (h : nat) (child : Child) (sub : list Entry * list nat) : Prop :=
  spans child sub.1 /\ tree ps h (page_id child) sub.1 sub.2.

Lemma cow_spans_nonempty child es : spans child es -> es <> [].
Proof. by intros (f & l & Hh & _) ->. Qed.

Lemma cow_spans_unique child es r : spans child es -> spans r es -> (minimum r, maximum r) = (minimum child, maximum child).
Proof. intros (f & l & Hh & Hl & -> & ->) (f' & l' & Hh' & Hl' & -> & ->). congruence. Qed.

Lemma cow_spans_exists es id : es <> [] -> exists child, spans child es /\ page_id child = id.
Proof.
  intros Hne. destruct es as [|x es] using rev_ind; [done|]. clear IHes.
  destruct (head (es ++ [x])) as [f|] eqn:E; [|by destruct es].
  exists (mkChild (key f) (key x) id). split; [|done]. exists f, x. by rewrite last_snoc.
Qed.

Lemma spans_bounds child es e : ordered es -> spans child es -> e ∈ es -> minimum child <= key e <= maximum child.
Proof. intros Hs (f & l & Hh & Hl & -> & ->) He. split; [by eapply ordered_head|by eapply ordered_last]. Qed.

Lemma cow_spans_valid child es : ordered es -> spans child es -> minimum child <= maximum child.
Proof.
  intros Hs Hsp. pose proof (cow_spans_nonempty _ _ Hsp). destruct es as [|e es]; [done|].
  pose proof (spans_bounds child (e :: es) e Hs Hsp ltac:(by left)). lia.
Qed.

(** A page over the children of consecutive parts spans all of them. *)
Lemma spans_concat children (subs : list (list Entry * list nat)) ps h :
  Forall2 (linked ps h) children subs -> children <> [] ->
  exists r, range (Internal children) = Some (minimum r, maximum r) /\ spans r (concat subs.*1).
Proof.
  intros Hf Hne. assert (Hsub : Forall2 (fun child (sub : list Entry * list nat) => spans child sub.1) children subs).
  { eapply Forall2_impl; [exact Hf|]. by intros ? ? []. }
  clear Hf. destruct Hsub as [|child sub children subs Hsp Hf]; [done|]. clear Hne.
  destruct Hsp as (f & l & Hh & Hl & Hmin & Hmax).
  assert (Hlast : exists c l', last (child :: children) = Some c /\ last (concat (sub :: subs).*1) = Some l' /\ maximum c = key l').
  { clear Hh Hmin. revert child sub l Hl Hmax. induction Hf as [|child2 sub2 children subs Hsp Hf IH]; intros child sub l Hl Hmax.
    - exists child, l. cbn. by rewrite app_nil_r.
    - destruct Hsp as (f2 & l2 & _ & Hl2 & _ & Hmax2). destruct (IH child2 sub2 l2 Hl2 Hmax2) as (c & l' & Hc & Hl' & Hm).
      exists c, l'. rewrite last_cons_cons. split_and!; [done| |done]. cbn [fmap list_fmap concat].
      rewrite last_app. cbn [fmap list_fmap concat] in Hl'. by rewrite Hl'. }
  destruct Hlast as (c & l' & Hc & Hl' & Hm). exists (mkChild (minimum child) (maximum c) 0). cbn [range head].
  rewrite Hc. split; [done|]. exists f, l'. split_and!; [|done|done|done].
  cbn. destruct (sub.1); [done|]. cbn in *. congruence.
Qed.

Lemma tree_range ps h id es ids : tree ps h id es ids ->
  exists p r, ps !! id = Some p /\ range p = Some (minimum r, maximum r) /\ spans r es.
Proof.
  destruct h; cbn [tree].
  - intros (Hp & Hne & _). destruct (cow_spans_exists es id Hne) as (r & (f & l & Hh & Hl & Hmin & Hmax) & _).
    exists (Leaf es), r. split; [done|]. cbn [range]. rewrite Hh, Hl, Hmin, Hmax. split; [done|]. by exists f, l.
  - intros (children & subs & Hp & Hne & _ & Hf & -> & _). destruct (spans_concat _ _ _ _ Hf Hne) as (r & Hr & Hs).
    by exists (Internal children), r.
Qed.

Lemma cow_tree_app ps more h id es ids : tree ps h id es ids -> tree (ps ++ more) h id es ids.
Proof.
  revert id es ids. induction h as [|h IH]; intros id es ids; cbn [tree].
  - intros (Hp & Hr). split; [by apply lookup_app_l_Some|done].
  - intros (children & subs & Hp & Hne & Hlen & Hf & Hes). exists children, subs.
    split_and!; [by apply lookup_app_l_Some|done|done| |apply Hes..].
    eapply Forall2_impl; [exact Hf|]. intros child sub [? ?]. split; [done|by apply IH].
Qed.

Lemma tree_nonempty ps h id es ids : tree ps h id es ids -> es <> [].
Proof. intros Ht. destruct (tree_range _ _ _ _ _ Ht) as (p & r & _ & _ & Hs). by eapply cow_spans_nonempty. Qed.

Lemma cow_tree_member ps h id es ids i : tree ps h id es ids -> i ∈ ids -> (i < length ps)%nat.
Proof.
  revert id es ids. induction h as [|h IH]; intros id es ids; cbn [tree].
  - intros (Hp & _ & _ & ->) ->%list_elem_of_singleton. by eapply lookup_lt_Some.
  - intros (children & subs & Hp & _ & _ & Hf & _ & ->) [->|Hi]%elem_of_cons; [by eapply lookup_lt_Some|].
    apply elem_of_concat in Hi as (sub & Hsub & Hi).
    apply list_elem_of_fmap in Hsub as (s & -> & Hs). apply list_elem_of_lookup in Hs as [k Hk].
    destruct (Forall2_lookup_r _ _ _ _ _ Hf Hk) as (child & _ & _ & Ht). by apply (IH _ _ _ Ht).
Qed.

(** A path of a tree has as many pages as levels. *)
Lemma tree_height ps h id es ids : tree ps h id es ids -> (h < length ids)%nat.
Proof.
  revert id es ids. induction h as [|h IH]; intros id es ids; cbn [tree]; [by intros (_ & _ & _ & ->); cbn; lia|].
  intros (children & subs & _ & Hne & _ & Hf & _ & ->). destruct Hf as [|child sub children subs [_ Ht] Hf]; [done|].
  apply IH in Ht. cbn. rewrite length_app. lia.
Qed.

Lemma linked_ids ps h children subs i : Forall2 (linked ps h) children subs -> i ∈ concat subs.*2 -> (i < length ps)%nat.
Proof.
  intros Hf Hi. apply elem_of_concat in Hi as (ids & Hids & Hi).
  apply list_elem_of_fmap in Hids as (s & -> & Hs). apply list_elem_of_lookup in Hs as [k Hk].
  destruct (Forall2_lookup_r _ _ _ _ _ Hf Hk) as (child & _ & _ & Ht). by eapply cow_tree_member.
Qed.

Lemma concat_ordered_sub (subs : list (list Entry * list nat)) sub : ordered (concat subs.*1) -> sub ∈ subs -> ordered sub.1.
Proof.
  intros Hs Hin. apply list_elem_of_split in Hin as (s1 & s2 & ->).
  rewrite fmap_app, concat_app, fmap_cons in Hs. cbn [concat] in Hs. apply ordered_app in Hs as (_ & Hs & _).
  by apply ordered_app in Hs as (Hs & _ & _).
Qed.

(** ** The walks over a tree *)

Definition tree_at (ps : list Page) (id : nat) (ids : list nat) : Prop := exists h es, tree ps h id es ids.

Lemma cow_tree_root ps h id es ids : tree ps h id es ids -> id ∈ ids.
Proof. destruct h; cbn [tree]; [intros (_ & _ & _ & ->)|intros (children & subs & _ & _ & _ & _ & _ & ->)]; by left. Qed.

(** Popping a tree from the stack and pushing its subtrees. *)
Lemma fresh_subtrees (id : nat) ids (rest : list nat) (seen : gset nat) :
  NoDup (rest ++ id :: ids) -> (forall i, i ∈ rest ++ id :: ids -> i ∉ seen) ->
  id ∉ seen /\ NoDup (rest ++ ids) /\ (forall i, i ∈ rest ++ ids -> i ∉ {[id]} ∪ seen) /\
  size ({[id]} ∪ seen) = S (size seen).
Proof.
  intros Hnd Hseen. assert (Hid : id ∉ seen) by (apply Hseen; set_solver).
  apply NoDup_app in Hnd as (Hnd & Hdisj & [Hn Hnd']%NoDup_cons). split_and!; [done| | |].
  - apply NoDup_app. split_and!; [done| |done]. intros i Hi Hi'. apply (Hdisj i Hi). by right.
  - intros i Hi. apply not_elem_of_union. split; [|apply Hseen; set_solver].
    intros ->%elem_of_singleton. apply elem_of_app in Hi as [Hi|Hi]; [|done]. apply (Hdisj id Hi). by left.
  - rewrite size_union, size_singleton; [done|]. intros j ->%elem_of_singleton. done.
Qed.

Lemma cow_reach_loop_trees d max_pages fuel stack idss seen :
  Forall2 (tree_at (pages d)) stack idss -> NoDup (concat idss) -> (forall i, i ∈ concat idss -> i ∉ seen) ->
  (length (concat idss) < fuel)%nat ->
  reach_loop fuel d max_pages stack seen =
    if bool_decide (concat idss = [] \/ N.of_nat (size seen + length (concat idss)) <= max_pages)
    then Ok (list_to_set (concat idss) ∪ seen) else Err PageLimitExceeded.
Proof.
  revert stack idss seen. induction fuel as [|fuel IH]; intros stack idss seen Hf Hnd Hseen Hfuel; [lia|].
  cbn [reach_loop]. destruct stack as [|id stack _] using rev_ind.
  { apply Forall2_nil_inv_l in Hf as ->. rewrite bool_decide_eq_true_2 by (by left). cbn. by rewrite (left_id_L ∅ _). }
  rewrite last_snoc, removelast_last. apply Forall2_app_inv_l in Hf as (idss' & tl & Hf & Htl & ->).
  inversion Htl as [|? ids ? ? Hid Hnil]; subst. apply Forall2_nil_inv_l in Hnil as ->.
  rewrite concat_app in *. cbn [concat] in *. rewrite app_nil_r in *. destruct Hid as (h & es & Ht).
  assert (Hcons : exists ids', ids = id :: ids').
  { destruct h; cbn [tree] in Ht; [destruct Ht as (_ & _ & _ & ->)|destruct Ht as (? & ? & _ & _ & _ & _ & _ & ->)]; eauto. }
  destruct Hcons as [ids' ->]. destruct (fresh_subtrees id ids' (concat idss') seen Hnd Hseen) as (Hid & Hnd' & Hseen' & Hsize).
  rewrite bool_decide_eq_false_2 by done. cbn [negb]. rewrite Hsize. rewrite length_app in Hfuel. cbn [length] in Hfuel.
  assert (Hne : concat idss' ++ id :: ids' <> []) by (by destruct (concat idss')).
  assert (Hif : bool_decide (concat idss' ++ id :: ids' = [] \/ N.of_nat (size seen + length (concat idss' ++ id :: ids')) <= max_pages) =
    negb (max_pages <? N.of_nat (S (size seen))) &&
    bool_decide (concat idss' ++ ids' = [] \/ N.of_nat (S (size seen) + length (concat idss' ++ ids')) <= max_pages)).
  { rewrite !length_app. cbn [length]. destruct (N.ltb_spec max_pages (N.of_nat (S (size seen)))) as [Hlt|Hge]; cbn [negb andb].
    - apply bool_decide_eq_false_2. intros [?|?]; [done|lia].
    - apply bool_decide_ext. split; [intros [?|?]; [done|right; lia]|]. intros [He|?]; right; [|lia].
      apply (f_equal length) in He. rewrite length_app in He. cbn in He. lia. }
  rewrite Hif. destruct (N.ltb_spec max_pages (N.of_nat (S (size seen)))) as [Hlt|Hge]; cbn [negb andb]; [done|].
  assert (Hset : (list_to_set (concat idss' ++ id :: ids') ∪ seen : gset nat) =
    list_to_set (concat idss' ++ ids') ∪ ({[id]} ∪ seen)) by (rewrite !list_to_set_app_L, list_to_set_cons; set_solver).
  rewrite Hset, <- Hsize. destruct h as [|h]; cbn [tree] in Ht.
  - destruct Ht as (Hp & _ & _ & [= ->]). rewrite Hp. cbn [ok_or]. rewrite app_nil_r in *. apply IH; [done|done|done|lia].
  - destruct Ht as (children & subs & Hp & _ & _ & Hl & _ & [= ->]). rewrite Hp. cbn [ok_or].
    replace (concat idss' ++ concat subs.*2) with (concat (idss' ++ subs.*2)) in * by (by rewrite concat_app).
    apply IH; [|done|done|rewrite concat_app, length_app; lia].
    apply Forall2_app; [done|]. apply Forall2_fmap. eapply Forall2_impl; [exact Hl|].
    intros child sub [_ Hsub]. by exists h, sub.1.
Qed.

(** ** Validation of a tree *)

Definition nonzero (es : list Entry) : Prop := Forall (fun e => key e <> 0) es.

Lemma entries_loop_sorted previous es :
  ordered es -> nonzero es -> (forall m e, previous = Some m -> e ∈ es -> m < key e) -> entries_loop previous es = Ok tt.
Proof.
  intros Hs. revert previous. induction Hs as [|e es Hs IH Hlt]; intros previous Hnz Hp; [done|].
  apply Forall_cons in Hnz as [He Hnz]. cbn [entries_loop]. destruct (N.eqb_spec (key e) 0); [done|]. cbn [negb].
  assert (Hprev : match previous with Some k => key e <=? k | None => false end = false).
  { destruct previous as [m|]; [|done]. apply N.leb_gt. apply (Hp m e eq_refl). by left. }
  rewrite Hprev. cbn [negb]. apply IH; [done|]. intros m e' [= <-] He'. by apply (proj1 (Forall_forall _ _) Hlt).
Qed.

Lemma children_loop_tree ps h previous children subs :
  Forall2 (linked ps h) children subs -> ordered (concat subs.*1) -> nonzero (concat subs.*1) ->
  (forall m e, previous = Some m -> e ∈ concat subs.*1 -> m < key e) -> children_loop ps previous children = Ok tt.
Proof.
  intros Hf. revert previous. induction Hf as [|child sub children subs [Hsp Ht] Hf IH]; intros previous Hs Hnz Hp; [done|].
  cbn [fmap list_fmap concat] in *. apply ordered_app in Hs as (Hs1 & Hs2 & Hlt). apply Forall_app in Hnz as [Hnz1 Hnz2].
  cbn [children_loop]. pose proof (cow_spans_valid _ _ Hs1 Hsp) as Hv.
  destruct Hsp as (f & l & Hh & Hl & Hmin & Hmax). pose proof (head_elem _ _ Hh) as Hfin. pose proof (last_elem _ _ Hl) as Hlin.
  pose proof (proj1 (Forall_forall _ _) Hnz1 f Hfin) as Hf0. cbn beta in Hf0.
  destruct (N.eqb_spec (minimum child) 0); [congruence|]. destruct (N.ltb_spec (maximum child) (minimum child)); [lia|]. cbn [orb negb].
  assert (Hprev : match previous with Some m => minimum child <=? m | None => false end = false).
  { destruct previous as [m|]; [|done]. apply N.leb_gt. rewrite Hmin. apply (Hp m f eq_refl). set_solver. }
  rewrite Hprev. cbn [negb]. destruct (tree_range _ _ _ _ _ Ht) as (p & r & Hpage & Hr & Hsp). rewrite Hpage. cbn [ok_or].
  rewrite Hr. cbn [ok_or]. rewrite (cow_spans_unique child sub.1 r) by (try done; by exists f, l).
  rewrite bool_decide_eq_true_2 by done. apply IH; [done|done|].
  intros m e [= <-] He. rewrite Hmax. by apply Hlt.
Qed.

(** A tree of the stack, with its depth. *)
Definition stacked (ps : list Page) (x : nat * N) (t : nat * list nat) : Prop :=
  exists es, tree ps t.1 x.1 es t.2 /\ ordered es /\ nonzero es.

Lemma cow_validate_page_tree d h id es ids dep :
  leaf_capacity d = cap -> internal_fanout d = fan -> tree (pages d) h id es ids -> ordered es -> nonzero es ->
  exists p pushed subs, pages d !! id = Some p /\ validate_page d dep p = Ok pushed /\ ids = id :: concat subs.*2 /\
    Forall2 (stacked (pages d)) pushed subs /\ (forall x, x ∈ pushed -> x.2 = dep + 1) /\
    (forall t, t ∈ subs -> S t.1 = h) /\ (h = 0%nat <-> subs = []).
Proof.
  intros Hcap Hfan Ht Hs Hnz. destruct h as [|h]; cbn [tree] in Ht.
  - destruct Ht as (Hp & Hne & Hlen & ->). exists (Leaf es), [], []. split_and!; [done| |done|constructor| | |done].
    + cbn [validate_page]. rewrite Hcap. destruct (N.eqb_spec (len es) 0) as [E|]; [destruct es; [done|rewrite len_cons in E; lia]|].
      destruct (N.ltb_spec cap (len es)); [lia|]. cbn [orb negb]. unfold validate_entries. by rewrite entries_loop_sorted by done.
    + intros x Hx. by apply elem_of_nil in Hx.
    + intros x Hx. by apply elem_of_nil in Hx.
  - destruct Ht as (children & subs & Hp & Hne & Hlen & Hf & -> & ->).
    exists (Internal children), ((fun child => (page_id child, dep + 1)) <$> children), ((fun sub => (h, sub.2)) <$> subs).
    split_and!; [done| | | | | |].
    + cbn [validate_page]. rewrite Hfan. destruct (N.eqb_spec (len children) 0) as [E|]; [destruct children; [done|rewrite len_cons in E; lia]|].
      destruct (N.ltb_spec fan (len children)); [lia|]. cbn [orb negb]. by rewrite (children_loop_tree (pages d) h None children subs).
    + f_equal. rewrite <- list_fmap_compose. done.
    + apply Forall2_fmap. eapply Forall2_impl; [apply Forall2_same_length_lookup_2|].
      * by apply (Forall2_length _ _ _ Hf).
      * intros i child sub Hc Hsub. exact (conj (Forall2_lookup_lr _ _ _ _ _ _ Hf Hc Hsub) (list_elem_of_lookup_2 _ _ _ Hsub)).
      * intros child sub [[Hsp Ht] Hin]. exists sub.1. cbn. split_and!; [done|by eapply concat_ordered_sub|].
        apply list_elem_of_split in Hin as (s1 & s2 & ->). unfold nonzero in Hnz.
        rewrite fmap_app, concat_app, fmap_cons in Hnz. cbn [concat] in Hnz.
        apply Forall_app in Hnz as [_ Hnz]. by apply Forall_app in Hnz as [? _].
    + intros x (child & -> & _)%list_elem_of_fmap. done.
    + intros t (sub & -> & _)%list_elem_of_fmap. done.
    + split; [done|]. intros E. destruct Hf; [done|]. by rewrite fmap_cons in E.
Qed.

(** Replacing a tree on the stack by its subtrees keeps the depth bound. *)
Lemma depth_pushed (max : N) (stack pushed : list (nat * N)) (ts subs : list (nat * list nat)) (x : nat * N) (t : nat * list nat) :
  length stack = length ts -> length pushed = length subs -> x.2 <= max ->
  (forall y, y ∈ pushed -> y.2 = x.2 + 1) -> (forall u, u ∈ subs -> S u.1 = t.1) -> (t.1 = 0%nat <-> subs = []) ->
  Forall2 (fun x t => x.2 + N.of_nat t.1 <= max) (stack ++ pushed) (ts ++ subs) <->
  Forall2 (fun x t => x.2 + N.of_nat t.1 <= max) (stack ++ [x]) (ts ++ [t]).
Proof.
  intros Hl1 Hl2 Hx Hp Hsub Hzero.
  enough (Forall2 (fun x t => x.2 + N.of_nat t.1 <= max) pushed subs <-> x.2 + N.of_nat t.1 <= max) as Hiff.
  { split; intros Hf; apply Forall2_app_inv in Hf as [H1 H2]; try done; apply Forall2_app; [done| |done|].
    - constructor; [by apply Hiff|constructor].
    - apply Hiff. by inversion H2. }
  split.
  - intros Hf. destruct Hf as [|y u pushed subs Hyu Hf].
    + rewrite (proj2 Hzero eq_refl). lia.
    + specialize (Hp y ltac:(by left)). specialize (Hsub u ltac:(by left)). lia.
  - intros Hle. apply Forall2_same_length_lookup_2; [done|]. intros i y u Hy Hu.
    apply list_elem_of_lookup_2 in Hy, Hu. rewrite (Hp y Hy). specialize (Hsub u Hu). lia.
Qed.

Lemma validate_loop_trees d limits fuel stack ts seen :
  leaf_capacity d = cap -> internal_fanout d = fan ->
  Forall2 (stacked (pages d)) stack ts -> NoDup (concat ts.*2) -> (forall i, i ∈ concat ts.*2 -> i ∉ seen) ->
  (length (concat ts.*2) < fuel)%nat ->
  match validate_loop fuel d limits stack seen with
  | Ok _ => Forall2 (fun x t => x.2 + N.of_nat t.1 <= max_depth limits) stack ts /\
      (ts = [] \/ N.of_nat (size seen + length (concat ts.*2)) <= max_validation_pages limits)
  | Err DepthLimitExceeded => ~ Forall2 (fun x t => x.2 + N.of_nat t.1 <= max_depth limits) stack ts
  | Err PageLimitExceeded => max_validation_pages limits < N.of_nat (size seen + length (concat ts.*2))
  | Err _ => False
  end.
Proof.
  intros Hcap Hfan. revert stack ts seen. induction fuel as [|fuel IH]; intros stack ts seen Hf Hnd Hseen Hfuel; [lia|].
  cbn [validate_loop]. destruct stack as [|[id dep] stack _] using rev_ind.
  { apply Forall2_nil_inv_l in Hf as ->. split; [constructor|by left]. }
  rewrite last_snoc, removelast_last. apply Forall2_app_inv_l in Hf as (ts' & tl & Hf & Htl & ->).
  inversion Htl as [|? [h ids] ? ? (es & Ht & Hs & Hnz) Hnil]; subst. apply Forall2_nil_inv_l in Hnil as ->.
  cbn [fst snd] in Ht. rewrite fmap_app, concat_app in *. cbn [fmap list_fmap concat snd] in *. rewrite app_nil_r in *.
  destruct (N.ltb_spec (max_depth limits) dep) as [Hd|Hd]; cbn [negb].
  { intros Hall. apply Forall2_app_inv in Hall as [_ Hall]; [|by eapply Forall2_length].
    inversion Hall as [|? ? ? ? Hle]; subst. cbn in Hle. lia. }
  destruct (cow_validate_page_tree d h id es ids dep Hcap Hfan Ht Hs Hnz) as (p & pushed & subs & Hp & Hv & -> & Hst & Hpd & Hsd & Hz).
  destruct (fresh_subtrees id (concat subs.*2) (concat ts'.*2) seen Hnd Hseen) as (Hid & Hnd' & Hseen' & Hsize).
  rewrite bool_decide_eq_false_2 by done. cbn [negb]. rewrite Hsize. rewrite !length_app in *. cbn [length] in *.
  destruct (N.ltb_spec (max_validation_pages limits) (N.of_nat (S (size seen)))) as [Hm|Hm]; cbn [negb]; [lia|].
  rewrite Hp. cbn [ok_or]. rewrite Hv.
  pose proof (depth_pushed (max_depth limits) stack pushed ts' subs (id, dep) (h, id :: concat subs.*2)
    (Forall2_length _ _ _ Hf) (Forall2_length _ _ _ Hst) Hd Hpd Hsd Hz) as Hdepth.
  specialize (IH (stack ++ pushed) (ts' ++ subs) ({[id]} ∪ seen)). rewrite fmap_app, concat_app, length_app, Hsize in IH.
  specialize (IH ltac:(by apply Forall2_app) Hnd' Hseen' ltac:(lia)).
  destruct (validate_loop _ _ _ _ _) as [[]|[]]; try done.
  - destruct IH as [Hall Hcount]. split; [by apply Hdepth|right].
    destruct Hcount as [Hnil|Hcount]; [|lia]. apply app_eq_nil in Hnil as [-> ->]. cbn. lia.
  - lia.
  - intros Hall. by apply IH, Hdepth.
Qed.

(** ** Lookup and depth of a tree *)

Lemma cow_find_child ps h children subs k :
  Forall2 (linked ps h) children subs -> ordered (concat subs.*1) ->
  match List.find (fun child => (minimum child <=? k) && (k <=? maximum child)) children with
  | None => find_entry k (concat subs.*1) = None
  | Some child => exists sub, sub ∈ subs /\ linked ps h child sub /\ find_entry k (concat subs.*1) = find_entry k sub.1
  end.
Proof.
  intros Hf. induction Hf as [|child sub children subs [Hsp Ht] Hf IH]; intros Hs; [done|].
  csimpl. cbn [fmap list_fmap concat] in Hs. apply ordered_app in Hs as (Hs1 & Hs2 & Hlt).
  destruct ((minimum child <=? k) && (k <=? maximum child)) eqn:Ec.
  - exists sub. split; [by left|]. split; [done|]. rewrite find_key_app.
    destruct (find_entry k sub.1); [done|]. apply find_key_None. intros e He Hk.
    destruct Hsp as (f & l & _ & Hl & _ & Hmax). specialize (Hlt l e (last_elem _ _ Hl) He).
    bool_facts. unfold key_lt in Hlt. lia.
  - assert (Hno : find_entry k sub.1 = None).
    { apply find_key_None. intros e He Hk. pose proof (spans_bounds _ _ e Hs1 Hsp He) as Hb.
      apply andb_false_iff in Ec as [Ec|Ec]; bool_facts; lia. }
    specialize (IH Hs2). destruct (List.find _ children) as [child'|].
    + destruct IH as (sub' & Hin & Hl & Heq). exists sub'. split; [by right|]. split; [done|]. by rewrite find_key_app, Hno.
    + by rewrite find_key_app, Hno.
Qed.

(** The pages below one of the children of a page. *)
Lemma sub_ids (subs : list (list Entry * list nat)) sub i : sub ∈ subs -> i ∈ sub.2 -> i ∈ concat subs.*2.
Proof. intros Hs Hi. apply elem_of_concat. exists sub.2. split; [by apply list_elem_of_fmap_2|done]. Qed.

(** What a walk down a path has seen: pages above the tree. *)
Record seen_above (ps : list Page) (ids : list nat) (seen : gset nat) : Prop := {
  sa_fresh i : i ∈ ids -> i ∉ seen;
  sa_pages i : i ∈ seen -> (i < length ps)%nat;
}.

Lemma seen_above_sub ps id (subs : list (list Entry * list nat)) sub seen :
  seen_above ps (id :: concat subs.*2) seen -> (id < length ps)%nat -> NoDup (id :: concat subs.*2) -> sub ∈ subs ->
  seen_above ps sub.2 ({[id]} ∪ seen).
Proof.
  intros [Hfresh Hps] Hid [Hn _]%NoDup_cons Hsub. split.
  - intros i Hi. pose proof (sub_ids _ _ _ Hsub Hi). apply not_elem_of_union. split; [|apply Hfresh; by right].
    intros ->%elem_of_singleton. done.
  - intros i [->%elem_of_singleton|Hi]%elem_of_union; [done|by apply Hps].
Qed.

Lemma seen_above_size ps id ids seen : seen_above ps (id :: ids) seen -> (id < length ps)%nat ->
  id ∉ seen /\ (size ({[id]} ∪ seen) <= length ps)%nat.
Proof.
  intros [Hfresh Hps] Hid. split; [apply Hfresh; by left|]. rewrite <- (length_seq (length ps) 0). unfold size, set_size. simpl.
  apply submseteq_length, NoDup_submseteq; [apply NoDup_elements|].
  intros i Hi%elem_of_elements. apply elem_of_seq. apply elem_of_union in Hi as [->%elem_of_singleton|Hi]; [lia|].
  specialize (Hps i Hi). lia.
Qed.

Lemma sub_NoDup id (subs : list (list Entry * list nat)) sub : NoDup (id :: concat subs.*2) -> sub ∈ subs -> NoDup sub.2.
Proof.
  intros [_ Hnd]%NoDup_cons Hin. apply list_elem_of_split in Hin as (s1 & s2 & ->).
  rewrite fmap_app, concat_app, fmap_cons in Hnd. cbn [concat] in Hnd.
  apply NoDup_app in Hnd as (_ & _ & Hnd). by apply NoDup_app in Hnd as (? & _ & _).
Qed.

Lemma lookup_loop_tree d k fuel h id es ids seen :
  tree (pages d) h id es ids -> ordered es -> NoDup ids -> seen_above (pages d) ids seen -> (h < fuel)%nat ->
  lookup_loop fuel d k id seen = Ok (find_entry k es).
Proof.
  revert h id es ids seen. induction fuel as [|fuel IH]; intros h id es ids seen Ht Hs Hnd Hseen Hfuel; [lia|].
  cbn [lookup_loop]. assert (Hid : (id < length (pages d))%nat) by (eapply cow_tree_member, cow_tree_root; done).
  assert (Hcons : exists ids', ids = id :: ids').
  { destruct h; cbn [tree] in Ht; [destruct Ht as (_ & _ & _ & ->)|destruct Ht as (? & ? & _ & _ & _ & _ & _ & ->)]; eauto. }
  destruct Hcons as [ids' ->]. destruct (seen_above_size _ _ _ _ Hseen Hid) as [Hfresh Hsize].
  rewrite bool_decide_eq_false_2 by done. cbn [negb]. destruct (Nat.ltb_spec (length (pages d)) (size ({[id]} ∪ seen))); [lia|]. cbn [negb].
  destruct h as [|h]; cbn [tree] in Ht.
  - destruct Ht as (Hp & _ & _ & _). rewrite Hp. cbn [ok_or]. pose proof (binary_search_cases es k Hs) as Hb.
    destruct (binary_search_by_key _ _ _) as [i|i]; f_equal.
    + destruct Hb as (e & He & Hk). rewrite He. symmetry. apply find_key_Some; [done|]. split; [by eapply list_elem_of_lookup_2|done].
    + destruct Hb as (_ & Hlow & Hhigh). symmetry. apply find_key_None. intros e He Hk.
      rewrite <- (take_drop i es) in He. apply elem_of_app in He as [He|He]; [specialize (Hlow e He)|specialize (Hhigh e He)]; lia.
  - destruct Ht as (children & subs & Hp & _ & _ & Hf & -> & [= ->]). rewrite Hp. cbn [ok_or].
    pose proof (cow_find_child _ _ _ _ k Hf Hs) as Hc. destruct (List.find _ children) as [child|]; [|by rewrite Hc].
    destruct Hc as (sub & Hin & [_ Ht] & ->). apply (IH h _ _ sub.2); [done|by eapply concat_ordered_sub|by eapply sub_NoDup| |lia].
    by eapply seen_above_sub.
Qed.

Lemma depth_loop_tree d max fuel h id es ids seen dep :
  tree (pages d) h id es ids -> NoDup ids -> seen_above (pages d) ids seen -> (h < fuel)%nat ->
  match depth_loop fuel d max dep id seen with
  | Ok dep' => dep' = dep + N.of_nat h + 1 /\ dep' <= max
  | Err DepthLimitExceeded => max < dep + N.of_nat h + 1
  | Err ArithmeticOverflow => U64_MAX < dep + N.of_nat h + 1
  | Err _ => False
  end.
Proof.
  revert h id es ids seen dep. induction fuel as [|fuel IH]; intros h id es ids seen dep Ht Hnd Hseen Hfuel; [lia|].
  cbn [depth_loop]. assert (Hid : (id < length (pages d))%nat) by (eapply cow_tree_member, cow_tree_root; done).
  assert (Hfresh : id ∉ seen) by (apply Hseen; by eapply cow_tree_root).
  rewrite bool_decide_eq_false_2 by done. cbn [negb].
  destruct (checked_add dep 1) as [dep'|] eqn:Ea; cbn [ok_or].
  2: { unfold checked_add in Ea. destruct (N.leb_spec (dep + 1) U64_MAX); [done|lia]. }
  apply checked_add_Some in Ea as [-> _]. destruct (N.ltb_spec max (dep + 1)); cbn [negb]; [lia|].
  destruct h as [|h]; cbn [tree] in Ht.
  - destruct Ht as (Hp & _). rewrite Hp. cbn [ok_or]. lia.
  - destruct Ht as (children & subs & Hp & Hne & _ & Hf & -> & ->). rewrite Hp. cbn [ok_or].
    destruct Hf as [|child sub children subs [_ Ht] Hf]; [done|]. cbn [head ok_or].
    assert (Hsa : seen_above (pages d) sub.2 ({[id]} ∪ seen)) by (eapply seen_above_sub; [done|done|done|by left]).
    assert (Hsn : NoDup sub.2) by (eapply sub_NoDup; [done|by left]).
    specialize (IH h (page_id child) sub.1 sub.2 ({[id]} ∪ seen) (dep + 1) Ht Hsn Hsa ltac:(lia)).
    destruct (depth_loop _ _ _ _ _ _) as [dep'|[]]; try done; lia.
Qed.
End Trees.

(** ** Directories *)

(** The directory is a tree with [h] internal levels over the entries, made of
    the pages [ids]. *)
Record represents (d : Directory) (h : nat) (es : list Entry) (ids : list nat) : Prop := {
  rp_capacities : 2 <= leaf_capacity d /\ 2 <= internal_fanout d;
  rp_tree : tree (leaf_capacity d) (internal_fanout d) (pages d) h (root d) es ids;
  rp_ordered : ordered es;
  rp_nonzero : nonzero es;
  rp_distinct : NoDup ids;
}.

Section Represented.
Context (d : Directory) (h : nat) (es : list Entry) (ids : list nat) (Hd : represents d h es ids).

Lemma ids_bound : (length ids <= length (pages d))%nat.
Proof.
  rewrite <- (length_seq (length (pages d)) 0). apply submseteq_length, NoDup_submseteq; [apply Hd|].
  intros i Hi. apply elem_of_seq. pose proof (cow_tree_member _ _ _ _ _ _ _ i (rp_tree _ _ _ _ Hd) Hi). lia.
Qed.

Lemma height_bound : (h < length (pages d))%nat.
Proof. pose proof (tree_height _ _ _ _ _ _ _ (rp_tree _ _ _ _ Hd)). pose proof ids_bound. lia. Qed.

Lemma above_none : seen_above (pages d) ids ∅.
Proof. split; set_solver. Qed.

Lemma cow_represents_lookup k : lookup d k = if k =? 0 then Err InvalidKey else Ok (find_entry k es).
Proof.
  unfold lookup. destruct (k =? 0); [done|]. cbn [negb].
  eapply lookup_loop_tree; [apply Hd|apply Hd|apply Hd|apply above_none|]. pose proof height_bound. lia.
Qed.

Lemma represents_depth max :
  match depth_with_limit d max with
  | Ok dep => dep = N.of_nat h + 1 /\ dep <= max
  | Err DepthLimitExceeded => max < N.of_nat h + 1
  | Err ArithmeticOverflow => U64_MAX < N.of_nat h + 1
  | Err _ => False
  end.
Proof.
  unfold depth_with_limit. pose proof height_bound as Hh.
  pose proof (depth_loop_tree _ _ d max (S (S (length (pages d)))) h (root d) es ids ∅ 0 (rp_tree _ _ _ _ Hd)
    (rp_distinct _ _ _ _ Hd) above_none ltac:(lia)) as Hl.
  rewrite N.add_0_l in Hl. exact Hl.
Qed.

Lemma represents_reachable max :
  reachable_pages d max = if len ids <=? max then Ok (list_to_set ids) else Err PageLimitExceeded.
Proof.
  unfold reachable_pages. pose proof (rp_distinct _ _ _ _ Hd) as Hnd. pose proof ids_bound as Hb.
  rewrite (cow_reach_loop_trees (leaf_capacity d) (internal_fanout d) d max _ [root d] [ids] ∅);
    cbn [concat]; rewrite ?app_nil_r; [|constructor; [exists h, es; apply Hd|constructor]|done|set_solver|lia].
  rewrite size_empty, Nat.add_0_l, (right_id_L ∅ _). pose proof (tree_height _ _ _ _ _ _ _ (rp_tree _ _ _ _ Hd)).
  unfold len. destruct (N.leb_spec (N.of_nat (length ids)) max).
  - rewrite bool_decide_eq_true_2 by (by right). done.
  - rewrite bool_decide_eq_false_2; [done|]. intros [->|?]; [cbn in *; lia|lia].
Qed.

(** [validate] accepts the directory up to the limits. *)
Lemma represents_validate limits :
  match validate d limits with
  | Ok _ => N.of_nat h + 1 <= max_depth limits /\ len ids <= max_validation_pages limits
  | Err DepthLimitExceeded => max_depth limits < N.of_nat h + 1
  | Err PageLimitExceeded => max_validation_pages limits < len ids
  | Err _ => False
  end.
Proof.
  unfold validate, validate_capacities. destruct (rp_capacities _ _ _ _ Hd) as [Hc Hf].
  destruct (N.ltb_spec (leaf_capacity d) 2); [lia|]. destruct (N.ltb_spec (internal_fanout d) 2); [lia|]. cbn [orb].
  pose proof ids_bound as Hb. pose proof (validate_loop_trees (leaf_capacity d) (internal_fanout d) d limits (S (S (length (pages d))))
    [(root d, 1)] [(h, ids)] ∅ eq_refl eq_refl) as Hv.
  cbn [fmap list_fmap concat snd] in Hv. rewrite app_nil_r, size_empty, Nat.add_0_l in Hv.
  specialize (Hv ltac:(constructor; [exists es; split_and!; apply Hd|constructor]) (rp_distinct _ _ _ _ Hd) ltac:(set_solver) ltac:(lia)).
  destruct (validate_loop _ _ _ _ _) as [[]|[]]; try done.
  - destruct Hv as [Hall [|Hcount]]; [done|]. inversion Hall as [|? ? ? ? Hle]; subst. cbn in Hle. unfold len. lia.
  - apply N.nle_gt. intros Hle. apply Hv. constructor; [cbn; lia|constructor].
Qed.
End Represented.

(** ** Putting an entry into ascending entries *)

Fixpoint put_sorted (entry : Entry) (es : list Entry) : list Entry :=
  match es with
  | [] => [entry]
  | x :: es' =>
      if key entry <? key x then entry :: es
      else if key entry =? key x then entry :: es'
      else x :: put_sorted entry es'
  end.

Lemma put_sorted_app entry a b c :
  (forall x, x ∈ a -> key x < key entry) -> (forall x, x ∈ c -> key entry < key x) ->
  put_sorted entry (a ++ b ++ c) = a ++ put_sorted entry b ++ c.
Proof.
  intros Ha Hc. induction a as [|x a IH].
  - cbn [app]. clear Ha. induction b as [|y b IH]; cbn [app put_sorted].
    + destruct c as [|z c]; [done|]. cbn [put_sorted]. specialize (Hc z ltac:(by left)).
      destruct (N.ltb_spec (key entry) (key z)); [done|lia].
    + destruct (key entry <? key y); [done|]. destruct (key entry =? key y); [done|]. cbn [app]. by rewrite IH.
  - cbn [app put_sorted]. pose proof (Ha x ltac:(by left)).
    destruct (N.ltb_spec (key entry) (key x)); [lia|]. destruct (N.eqb_spec (key entry) (key x)); [lia|].
    f_equal. apply IH. intros y Hy. apply Ha. by right.
Qed.

Lemma elem_of_put entry es x : ordered es -> x ∈ put_sorted entry es <-> x = entry \/ x ∈ es /\ key x <> key entry.
Proof.
  induction 1 as [|y es Hs IH Hlt]; cbn [put_sorted]; [set_solver|].
  assert (Hy : forall z, z ∈ es -> key y < key z) by (intros z; apply (proj1 (Forall_forall _ _) Hlt)).
  destruct (N.ltb_spec (key entry) (key y)) as [Hl|Hl].
  - rewrite !elem_of_cons. split; [intros [->|[->|Hx]]; [by left|right; split; [by left|lia]|]|tauto].
    right. split; [by right|]. specialize (Hy x Hx). lia.
  - destruct (N.eqb_spec (key entry) (key y)) as [He|He].
    + rewrite !elem_of_cons. split; [|intros [->|[[->|Hx] Hn]]; [by left|done|by right]].
      intros [->|Hx]; [by left|]. right. split; [by right|]. specialize (Hy x Hx). lia.
    + rewrite !elem_of_cons, IH. split; [intros [->|[->|[Hx Hn]]]; [right; split; [by left|lia]|by left|right; split; [by right|done]]|].
      intros [->|[[->|Hx] Hn]]; tauto.
Qed.

Lemma put_ordered entry es : ordered es -> ordered (put_sorted entry es).
Proof.
  induction 1 as [|y es Hs IH Hlt]; cbn [put_sorted]; [by repeat constructor|].
  assert (Hy : forall z, z ∈ es -> key y < key z) by (intros z; apply (proj1 (Forall_forall _ _) Hlt)).
  destruct (N.ltb_spec (key entry) (key y)) as [Hl|Hl].
  - constructor; [by constructor|]. apply Forall_cons. split; [done|]. apply Forall_forall. intros z Hz.
    specialize (Hy z Hz). unfold key_lt. lia.
  - destruct (N.eqb_spec (key entry) (key y)) as [He|He].
    + constructor; [done|]. apply Forall_forall. intros z Hz. specialize (Hy z Hz). unfold key_lt. lia.
    + constructor; [done|]. apply Forall_forall. intros z Hz. apply elem_of_put in Hz as [->|[Hz _]]; [unfold key_lt; lia|by apply Hy|done].
Qed.

Lemma put_nonzero entry es : ordered es -> nonzero es -> key entry <> 0 -> nonzero (put_sorted entry es).
Proof.
  intros Hs Hnz He. apply Forall_forall. intros x Hx. apply elem_of_put in Hx as [->|[Hx _]]; [done| |done].
  by apply (proj1 (Forall_forall _ _) Hnz).
Qed.

Lemma put_nonempty entry es : put_sorted entry es <> [].
Proof. destruct es; cbn [put_sorted]; [done|]. destruct (_ <? _); [done|]. by destruct (_ =? _). Qed.

Lemma put_length entry es : len (put_sorted entry es) <= len es + 1.
Proof.
  induction es as [|x es IH]; cbn [put_sorted]; [done|]. destruct (_ <? _); [rewrite !len_cons; lia|].
  destruct (_ =? _); rewrite !len_cons; lia.
Qed.

Lemma put_entry_sorted entry es : ordered es ->
  put_entry entry es = (put_sorted entry es, bool_decide (key entry ∈ key <$> es)).
Proof.
  intros Hs. unfold put_entry. pose proof (binary_search_cases es (key entry) Hs) as Hb.
  destruct (binary_search_by_key _ _ _) as [i|i].
  - destruct Hb as (e & He & Hk). rewrite bool_decide_eq_true_2 by (apply list_elem_of_fmap; exists e; split; [done|by eapply list_elem_of_lookup_2]).
    f_equal. rewrite <- (take_drop_middle es i e He) at 2.
    assert (Hs' := Hs). rewrite <- (take_drop_middle es i e He) in Hs'. apply ordered_app in Hs' as (_ & Hs' & Hlow).
    apply StronglySorted_inv in Hs' as [_ Hhigh]. rewrite Forall_forall in Hhigh.
    change (take i es ++ e :: drop (S i) es) with (take i es ++ [e] ++ drop (S i) es). rewrite put_sorted_app.
    + cbn [put_sorted]. rewrite Hk, N.ltb_irrefl, N.eqb_refl. apply insert_take_drop. by eapply lookup_lt_Some.
    + intros x Hx. specialize (Hlow x e Hx ltac:(by left)). unfold key_lt in Hlow. lia.
    + intros x Hx. specialize (Hhigh x Hx). unfold key_lt in Hhigh. lia.
  - destruct Hb as (_ & Hlow & Hhigh). rewrite bool_decide_eq_false_2.
    2: { intros (e & He & Hin)%list_elem_of_fmap. rewrite <- (take_drop i es) in Hin.
         apply elem_of_app in Hin as [Hin|Hin]; [specialize (Hlow e Hin)|specialize (Hhigh e Hin)]; lia. }
    pose proof (put_sorted_app entry (take i es) [] (drop i es) Hlow Hhigh) as E. cbn [app] in E. rewrite take_drop in E. by rewrite E.
Qed.

(** ** Pushing pages *)

(** The children that replace an updated one. *)
Definition update_children (u : PageUpdate) : list Child :=
  left_page u :: match right_page u with Some r => [r] | None => [] end.

Lemma put_child_children i u children child : children !! i = Some child ->
  put_child i u children = take i children ++ update_children u ++ drop (S i) children.
Proof.
  intros Hi. assert (Hlt : (i < length children)%nat) by (by eapply lookup_lt_Some).
  assert (Hins : <[i := left_page u]> children = take i children ++ left_page u :: drop (S i) children) by (by apply insert_take_drop).
  unfold put_child, update_children. rewrite Hins. destruct (right_page u) as [r|]; [|done].
  assert (Hlen : length (take i children ++ [left_page u]) = S i) by (rewrite length_app, length_take; cbn; lia).
  rewrite (cons_middle (left_page u) (take i children) (drop (S i) children)), app_assoc.
  rewrite (take_app_length' _ _ _ (eq_sym Hlen)), (drop_app_length' _ _ _ (eq_sym Hlen)). by rewrite <- !app_assoc.
Qed.

(** The context after pages were pushed. *)
Record pushed (c c' : Context) (more : list Page) : Prop := {
  ps_pages : ctx_pages c' = ctx_pages c ++ more;
  ps_new : ctx_new c' = ctx_new c ++ seq (length (ctx_pages c)) (length more);
  ps_visited : ctx_visited c' = ctx_visited c;
  ps_replaced : ctx_replaced c' = ctx_replaced c;
}.

Lemma push_cases limits page c :
  match push limits page c with
  | Ok (id, c') => id = length (ctx_pages c) /\ pushed c c' [page]
  | Err e => e = NewPageLimitExceeded /\ max_new_pages limits <= len (ctx_new c)
  end.
Proof.
  unfold push. destruct (N.leb_spec (max_new_pages limits) (len (ctx_new c))); cbn [negb]; [done|].
  split; [done|]. by split.
Qed.

Section Split.
Context {A : Type} (page_of : list A -> Page) (limits : Limits) (cap : N).
Context (Hrange : forall items, items <> [] -> is_Some (range (page_of items))).

(** The children [cs] describe the pages [more] appended at [n]. *)
Definition describes (n : nat) (more : list Page) (cs : list Child) : Prop :=
  page_id <$> cs = seq n (length more) /\
  Forall2 (fun child page => range page = Some (minimum child, maximum child)) cs more.

Lemma child_for_range pages id page child : pages !! id = Some page -> child_for pages id = Ok child ->
  range page = Some (minimum child, maximum child) /\ page_id child = id.
Proof.
  intros Hp. unfold child_for. rewrite Hp. cbn [ok_or]. destruct (range page) as [[a b]|]; cbn [ok_or]; [|done].
  by intros [= <-].
Qed.

Lemma child_for_Ok pages id items : pages !! id = Some (page_of items) -> items <> [] ->
  exists child, child_for pages id = Ok child /\ range (page_of items) = Some (minimum child, maximum child) /\ page_id child = id.
Proof.
  intros Hp Hne. destruct (Hrange items Hne) as [[a b] Hr]. exists (mkChild a b id). unfold child_for.
  rewrite Hp. cbn [ok_or]. by rewrite Hr.
Qed.

Lemma push_split_cases items c : 2 <= cap -> items <> [] -> len items <= cap + 1 ->
  match push_split limits page_of cap items c with
  | Ok (u, c') => exists pieces, concat pieces = items /\ Forall (fun piece => piece <> [] /\ len piece <= cap) pieces /\
      (1 <= length pieces <= 2)%nat /\ pushed c c' (page_of <$> pieces) /\
      describes (length (ctx_pages c)) (page_of <$> pieces) (update_children u)
  | Err e => e = NewPageLimitExceeded /\ max_new_pages limits < len (ctx_new c) + 2
  end.
Proof.
  intros Hcap Hne Hlen. unfold push_split. destruct (N.leb_spec (len items) cap) as [Hle|Hgt].
  - pose proof (push_cases limits (page_of items) c) as Hp. destruct (push _ _ c) as [[id c1]|e]; [|destruct Hp; split; [done|lia]].
    destruct Hp as [-> Hp]. destruct (child_for_Ok (ctx_pages c1) (length (ctx_pages c)) items) as (child & -> & Hr & Hid).
    { rewrite (ps_pages _ _ _ Hp). by apply list_lookup_middle. }
    { done. }
    exists [items]. split_and!; [by rewrite concat_cons, app_nil_r|by repeat constructor|cbn; lia|cbn; lia|exact Hp|].
    split; [cbn; by rewrite Hid|by repeat constructor].
  - set (half := (length items / 2)%nat).
    assert (Hh : (1 <= half /\ 2 * half <= length items /\ length items <= 2 * half + 1)%nat).
    { unfold len in *. unfold half. pose proof (Nat.div_mod_eq (length items) 2).
      pose proof (Nat.mod_upper_bound (length items) 2 ltac:(lia)). lia. }
    assert (Hl1 : len (take half items) = N.of_nat half) by (unfold len; rewrite length_take; lia).
    assert (Hl2 : len (drop half items) = len items - N.of_nat half) by (unfold len; rewrite length_drop; lia).
    assert (Hn1 : take half items <> []) by (intros E; rewrite E, len_nil in Hl1; lia).
    assert (Hn2 : drop half items <> []) by (intros E; rewrite E, len_nil in Hl2; unfold len in *; lia).
    pose proof (push_cases limits (page_of (take half items)) c) as Hp. destruct (push _ _ c) as [[id c1]|e]; [|destruct Hp; split; [done|lia]].
    destruct Hp as [-> Hp1]. pose proof (push_cases limits (page_of (drop half items)) c1) as Hp.
    assert (Hlen1 : length (ctx_pages c1) = S (length (ctx_pages c))) by (rewrite (ps_pages _ _ _ Hp1), length_app; cbn; lia).
    assert (Hnew1 : len (ctx_new c1) = len (ctx_new c) + 1) by (rewrite (ps_new _ _ _ Hp1), len_app; done).
    destruct (push _ _ c1) as [[id c2]|e]; [|destruct Hp; split; [done|lia]]. destruct Hp as [-> Hp2].
    assert (Hpages : ctx_pages c2 = ctx_pages c ++ [page_of (take half items); page_of (drop half items)]).
    { rewrite (ps_pages _ _ _ Hp2), (ps_pages _ _ _ Hp1), <- app_assoc. done. }
    destruct (child_for_Ok (ctx_pages c2) (length (ctx_pages c)) (take half items)) as (lc & -> & Hlr & Hlid).
    { rewrite Hpages. by apply list_lookup_middle. }
    { done. }
    destruct (child_for_Ok (ctx_pages c2) (length (ctx_pages c1)) (drop half items)) as (rc & -> & Hrr & Hrid).
    { rewrite Hpages, Hlen1, (cons_middle _ (ctx_pages c)), app_assoc. apply list_lookup_middle. rewrite length_app. cbn. lia. }
    { done. }
    exists [take half items; drop half items]. split_and!.
    + cbn. by rewrite app_nil_r, take_drop.
    + repeat constructor; try done; unfold len in *; lia.
    + cbn. lia.
    + cbn. lia.
    + split; [exact Hpages| | |].
      * rewrite (ps_new _ _ _ Hp2), (ps_new _ _ _ Hp1), Hlen1, <- app_assoc. done.
      * by rewrite (ps_visited _ _ _ Hp2), (ps_visited _ _ _ Hp1).
      * by rewrite (ps_replaced _ _ _ Hp2), (ps_replaced _ _ _ Hp1).
    + split; [cbn; by rewrite Hlid, Hrid, Hlen1|by repeat constructor].
Qed.
End Split.

Lemma range_items {A} (l : list A) : l <> [] -> exists x y, head l = Some x /\ last l = Some y.
Proof. intros Hne. destruct l as [|x l]; [done|]. destruct (last (x :: l)) as [y|] eqn:E; [by exists x, y|by apply last_None in E]. Qed.

Lemma leaf_range es : es <> [] -> is_Some (range (Leaf es)).
Proof. intros (x & y & Hh & Hl)%range_items. cbn [range]. rewrite Hh, Hl. by eexists. Qed.

Lemma internal_range children : children <> [] -> is_Some (range (Internal children)).
Proof. intros (x & y & Hh & Hl)%range_items. cbn [range]. rewrite Hh, Hl. by eexists. Qed.

Lemma Forall2_concat_split {A B} (R : A -> B -> Prop) (ls : list (list A)) (k : list B) :
  Forall2 R (concat ls) k -> exists ks, concat ks = k /\ Forall2 (Forall2 R) ls ks.
Proof.
  revert k. induction ls as [|l ls IH]; intros k Hf; cbn [concat] in Hf.
  - apply Forall2_nil_inv_l in Hf as ->. by exists [].
  - apply Forall2_app_inv_l in Hf as (k1 & k2 & H1 & H2 & ->). destruct (IH k2 H2) as (ks & <- & Hks).
    exists (k1 :: ks). split; [done|by constructor].
Qed.

Section Update.
Context (cap fan : N) (Hcap : 2 <= cap) (Hfan : 2 <= fan).

Lemma spans_ranges child r es : spans r es -> minimum child = minimum r -> maximum child = maximum r -> spans child es.
Proof. intros (f & l & Hh & Hl & Hmin & Hmax) E1 E2. exists f, l. split_and!; congruence. Qed.

(** Children that describe the roots of trees are linked to them. *)
Lemma linked_described ps more h cs trees :
  describes (length ps) more cs -> length trees = length more ->
  (forall j t, trees !! j = Some t -> tree cap fan (ps ++ more) h (length ps + j) t.1 t.2) ->
  Forall2 (linked cap fan (ps ++ more) h) cs trees.
Proof.
  intros [Hids Hr] Hlen Ht. pose proof (Forall2_length _ _ _ Hr) as Hlc.
  apply Forall2_same_length_lookup_2; [congruence|]. intros j child t Hc Htj. specialize (Ht j t Htj).
  assert (Hid : page_id child = (length ps + j)%nat).
  { apply (f_equal (.!! j)) in Hids. rewrite list_lookup_fmap, Hc in Hids. cbn in Hids.
    rewrite lookup_seq_lt in Hids by (rewrite <- Hlc; by eapply lookup_lt_Some). by injection Hids. }
  split; [|by rewrite Hid]. destruct (tree_range _ _ _ _ _ _ _ Ht) as (p & r & Hp & Hpr & Hs).
  rewrite lookup_app_r in Hp by lia. replace (length ps + j - length ps)%nat with j in Hp by lia.
  destruct (Forall2_lookup_l _ _ _ _ _ Hr Hc) as (p' & Hp' & Hpr'). rewrite Hp in Hp'. injection Hp' as <-.
  rewrite Hpr in Hpr'. injection Hpr' as E1 E2. by apply (spans_ranges child r).
Qed.

Lemma imap_seq {A} (f : nat -> A -> list Entry * list nat) (n : nat) (l : list A) :
  (forall j x, (f j x).2 = [(n + j)%nat]) -> concat (imap f l).*2 = seq n (length l).
Proof.
  revert f n. induction l as [|x l IH]; intros f n Hf; [done|]. rewrite imap_cons, fmap_cons. cbn [concat length seq].
  rewrite Hf, Nat.add_0_r. cbn [app]. f_equal. apply (IH (f ∘ S) (S n)). intros j y. unfold compose.
  rewrite Hf. f_equal. lia.
Qed.

Lemma imap_fst {A} (f : nat -> A -> list Entry * list nat) (g : A -> list Entry) (l : list A) :
  (forall j x, (f j x).1 = g x) -> (imap f l).*1 = g <$> l.
Proof.
  revert f. induction l as [|x l IH]; intros f Hf; [done|]. rewrite imap_cons, !fmap_cons, Hf. f_equal.
  apply (IH (f ∘ S)). intros j y. apply Hf.
Qed.

(** The leaves a leaf is rewritten to. *)
Lemma leaf_pieces ps pieces cs :
  Forall (fun piece => piece <> [] /\ len piece <= cap) pieces -> describes (length ps) (Leaf <$> pieces) cs ->
  exists subs, Forall2 (linked cap fan (ps ++ (Leaf <$> pieces)) 0) cs subs /\
    concat subs.*1 = concat pieces /\ concat subs.*2 = seq (length ps) (length pieces).
Proof.
  intros Hp Hd. set (subs := imap (fun j piece => (piece, [(length ps + j)%nat])) pieces : list (list Entry * list nat)).
  exists subs. split_and!.
  - apply linked_described; [done|unfold subs; by rewrite length_imap, length_fmap|]. intros j t Ht.
    unfold subs in Ht. rewrite list_lookup_imap in Ht. apply fmap_Some in Ht as (piece & Hpiece & ->). cbn [fst snd tree].
    destruct (proj1 (Forall_forall _ _) Hp piece (list_elem_of_lookup_2 _ _ _ Hpiece)) as [Hne Hlen].
    split_and!; [|done|done|done]. rewrite lookup_app_r by lia.
    replace (length ps + j - length ps)%nat with j by lia. by rewrite list_lookup_fmap, Hpiece.
  - unfold subs. rewrite (imap_fst _ id) by done. by rewrite list_fmap_id.
  - unfold subs. by apply imap_seq.
Qed.

Lemma imap_node_ids (n : nat) (pieces : list (list (list Entry * list nat))) :
  concat (imap (fun j piece => (concat piece.*1, (n + j)%nat :: concat piece.*2)) pieces).*2 ≡ₚ
  concat (concat pieces).*2 ++ seq n (length pieces).
Proof.
  assert (Hgen : forall f n, (forall j piece, (f j piece : list Entry * list nat).2 = (n + j)%nat :: concat piece.*2) ->
    concat (imap f pieces).*2 ≡ₚ concat (concat pieces).*2 ++ seq n (length pieces)).
  { induction pieces as [|piece pieces IH]; intros f m Hf; [done|]. rewrite imap_cons, fmap_cons. cbn [concat length seq].
    rewrite Hf, Nat.add_0_r, fmap_app, concat_app. cbn [app].
    rewrite (IH (f ∘ S) (S m)) by (intros j p; unfold compose; rewrite Hf; f_equal; lia).
    rewrite <- (Permutation_middle (concat piece.*2 ++ concat (concat pieces).*2)). by rewrite <- app_assoc. }
  by apply Hgen.
Qed.

(** The internal pages a page is rewritten to, over linked children. *)
Lemma internal_pieces ps h pieces subs cs :
  Forall2 (linked cap fan ps h) (concat pieces) subs -> Forall (fun piece => piece <> [] /\ len piece <= fan) pieces ->
  describes (length ps) (Internal <$> pieces) cs ->
  exists subs', Forall2 (linked cap fan (ps ++ (Internal <$> pieces)) (S h)) cs subs' /\
    concat subs'.*1 = concat subs.*1 /\ concat subs'.*2 ≡ₚ concat subs.*2 ++ seq (length ps) (length pieces).
Proof.
  intros Hf Hp Hd. destruct (Forall2_concat_split _ _ _ Hf) as (spieces & <- & Hsp).
  pose proof (Forall2_length _ _ _ Hsp) as Hlen.
  set (subs' := imap (fun j piece => (concat piece.*1, (length ps + j)%nat :: concat piece.*2)) spieces : list (list Entry * list nat)).
  exists subs'. split_and!.
  - apply linked_described; [done|unfold subs'; by rewrite length_imap, length_fmap|]. intros j t Ht.
    unfold subs' in Ht. rewrite list_lookup_imap in Ht. apply fmap_Some in Ht as (sp & Hspj & ->). cbn [fst snd tree].
    destruct (Forall2_lookup_r _ _ _ _ _ Hsp Hspj) as (piece & Hpiece & Hlinked).
    destruct (proj1 (Forall_forall _ _) Hp piece (list_elem_of_lookup_2 _ _ _ Hpiece)) as [Hne Hlp].
    exists piece, sp. split_and!; [|done|done| |done|done].
    + rewrite lookup_app_r by lia. replace (length ps + j - length ps)%nat with j by lia. by rewrite list_lookup_fmap, Hpiece.
    + eapply Forall2_impl; [exact Hlinked|]. intros child sub [? ?]. split; [done|by apply cow_tree_app].
  - unfold subs'. rewrite (imap_fst _ (fun sp => concat sp.*1)) by done. clear. induction spieces as [|sp spieces IH]; [done|].
    rewrite fmap_cons. cbn [concat]. rewrite fmap_app, concat_app, IH. done.
  - unfold subs'. rewrite Hlen. apply imap_node_ids.
Qed.

(** ** The path of an update *)

Lemma split_subs (subs : list (list Entry * list nat)) i sub : subs !! i = Some sub ->
  concat subs.*1 = concat (take i subs).*1 ++ sub.1 ++ concat (drop (S i) subs).*1 /\
  concat subs.*2 = concat (take i subs).*2 ++ sub.2 ++ concat (drop (S i) subs).*2.
Proof.
  intros Hi. rewrite <- (take_drop_middle subs i sub Hi) at 1 4. by rewrite !fmap_app, !concat_app, !fmap_cons.
Qed.

Lemma select_child_cases ps h children subs k :
  Forall2 (linked cap fan ps h) children subs -> children <> [] -> ordered (concat subs.*1) ->
  let i := select_child_index children k in
  exists child sub, children !! i = Some child /\ subs !! i = Some sub /\
    (forall x, x ∈ concat (take i subs).*1 -> key x < k) /\ (forall x, x ∈ concat (drop (S i) subs).*1 -> k < key x).
Proof.
  intros Hf Hne Hs i.
  assert (Hlow : (forall j c, (j < i)%nat -> children !! j = Some c -> maximum c < k) ->
    forall x, x ∈ concat (take i subs).*1 -> key x < k).
  { intros Hj x (es & Hes & Hx)%elem_of_concat. apply list_elem_of_fmap in Hes as (sub & -> & Hsub).
    apply elem_of_take in Hsub as (j & Hsub & Hlt). destruct (Forall2_lookup_r _ _ _ _ _ Hf Hsub) as (c & Hc & [Hsp _]).
    specialize (Hj j c Hlt Hc). assert (Hso : ordered sub.1) by (eapply concat_ordered_sub; [done|by eapply list_elem_of_lookup_2]).
    pose proof (spans_bounds _ _ x Hso Hsp Hx). lia. }
  unfold select_child_index in i. destruct (list_find (fun child => k <= maximum child) children) as [[j child]|] eqn:E.
  - apply list_find_Some in E as (Hc & Hmax & Hbefore). destruct (Forall2_lookup_l _ _ _ _ _ Hf Hc) as (sub & Hsub & [Hsp _]).
    exists child, sub. split_and!; [done|done| |].
    + apply Hlow. intros j' c Hlt Hc'. specialize (Hbefore j' c Hc' Hlt). cbn in Hbefore. lia.
    + intros x Hx. destruct (split_subs subs i sub Hsub) as [He _]. rewrite He in Hs.
      apply ordered_app in Hs as (_ & Hs & _). apply ordered_app in Hs as (_ & _ & Hs).
      destruct Hsp as (f & l & _ & Hl & _ & Hm). specialize (Hs l x (last_elem _ _ Hl) Hx). unfold key_lt in Hs. lia.
  - apply list_find_None in E. pose proof (Forall2_length _ _ _ Hf) as Hlen.
    assert (Hpos : (0 < length children)%nat) by (destruct children; [done|cbn; lia]).
    destruct (lookup_lt_is_Some_2 children i) as [child Hc]; [unfold i; lia|].
    destruct (lookup_lt_is_Some_2 subs i) as [sub Hsub]; [unfold i; lia|]. exists child, sub. split_and!; [done|done| |].
    + apply Hlow. intros j c _ Hc'. pose proof (proj1 (Forall_forall _ _) E c (list_elem_of_lookup_2 _ _ _ Hc')) as Hn.
      cbn in Hn. lia.
    + rewrite drop_ge by (unfold i; lia). intros x Hx. by apply elem_of_nil in Hx.
Qed.

(** An update of a tree: the page is replaced by one or two trees over the
    entries with one put in, made of the pages off a path and of new pages. *)
Record updated_by (entry : Entry) (h : nat) (es : list Entry) (ids : list nat) (c c' : Context) (u : PageUpdate)
    (more : list Page) (subs : list (list Entry * list nat)) (path shared : list nat) : Prop := {
  up_pages : ctx_pages c' = ctx_pages c ++ more;
  up_new : ctx_new c' = ctx_new c ++ seq (length (ctx_pages c)) (length more);
  up_visited : ctx_visited c' = ctx_visited c + N.of_nat h + 1;
  up_replaced : ctx_replaced c' = bool_decide (key entry ∈ key <$> es) || ctx_replaced c;
  up_linked : Forall2 (linked cap fan (ctx_pages c') h) (update_children u) subs;
  up_entries : concat subs.*1 = put_sorted entry es;
  up_old : ids ≡ₚ path ++ shared;
  up_height : length path = S h;
  up_ids : concat subs.*2 ≡ₚ shared ++ seq (length (ctx_pages c)) (length more);
  up_count : (S h <= length more <= 2 * S h)%nat;
}.

Definition page_updated (entry : Entry) (h : nat) (es : list Entry) (ids : list nat) (c c' : Context) (u : PageUpdate) : Prop :=
  exists more subs path shared, updated_by entry h es ids c c' u more subs path shared.

Lemma leaf_updated limits entry id es c : ordered es -> len es <= cap ->
  match push_split limits Leaf cap (put_sorted entry es)
    (mkContext (ctx_pages c) (ctx_visited c + 1) (ctx_new c) (bool_decide (key entry ∈ key <$> es) || ctx_replaced c)) with
  | Ok (u, c') => page_updated entry 0 es [id] c c' u
  | Err e => e = NewPageLimitExceeded /\ max_new_pages limits < len (ctx_new c) + 2
  end.
Proof.
  intros Hs Hlen. set (c1 := mkContext _ _ _ _).
  pose proof (push_split_cases Leaf limits cap leaf_range (put_sorted entry es) c1 Hcap (put_nonempty _ _)
    ltac:(pose proof (put_length entry es); lia)) as Hp.
  destruct (push_split _ _ _ _ _) as [[u c']|e]; [|exact Hp]. destruct Hp as (pieces & Hc & Hpieces & Hcount & Hpush & Hdesc).
  destruct (leaf_pieces (ctx_pages c) pieces (update_children u) Hpieces Hdesc) as (subs & Hl & Hes & Hids).
  pose proof (ps_pages _ _ _ Hpush) as Hpp. cbn [c1 ctx_pages] in Hpp.
  exists (Leaf <$> pieces), subs, [id], []. split.
  - done.
  - rewrite (ps_new _ _ _ Hpush). done.
  - rewrite (ps_visited _ _ _ Hpush). cbn. lia.
  - by rewrite (ps_replaced _ _ _ Hpush).
  - by rewrite Hpp.
  - by rewrite Hes, Hc.
  - done.
  - done.
  - by rewrite Hids, length_fmap.
  - rewrite length_fmap. lia.
Qed.

Lemma length_update_children u : (1 <= length (update_children u) <= 2)%nat.
Proof. unfold update_children. destruct (right_page u); cbn; lia. Qed.

(** The page above an updated child. *)
Lemma internal_updated limits entry h id children subs i child sub c c1 u :
  Forall2 (linked cap fan (ctx_pages c) h) children subs -> len children <= fan ->
  children !! i = Some child -> subs !! i = Some sub ->
  (forall x, x ∈ concat (take i subs).*1 -> key x < key entry) -> (forall x, x ∈ concat (drop (S i) subs).*1 -> key entry < key x) ->
  page_updated entry h sub.1 sub.2 (mkContext (ctx_pages c) (ctx_visited c + 1) (ctx_new c) (ctx_replaced c)) c1 u ->
  match push_split limits Internal fan (put_child i u children) c1 with
  | Ok (u', c') => page_updated entry (S h) (concat subs.*1) (id :: concat subs.*2) c c' u'
  | Err e => e = NewPageLimitExceeded /\ max_new_pages limits < len (ctx_new c) + 2 * N.of_nat (S (S h))
  end.
Proof.
  intros Hf Hlen Hc Hsub Hlow Hhigh (more & subs1 & path & shared & Hu).
  destruct Hu as [Hpages Hnew Hvis Hrep Hl1 Hes1 Hold Hpath Hids1 Hcount]. cbn [ctx_pages ctx_visited ctx_new ctx_replaced] in *.
  set (subs' := take i subs ++ subs1 ++ drop (S i) subs).
  assert (Hlinked : Forall2 (linked cap fan (ctx_pages c1) h) (put_child i u children) subs').
  { rewrite (put_child_children _ _ _ child) by done. rewrite Hpages.
    assert (Hall : Forall2 (linked cap fan (ctx_pages c ++ more) h) children subs).
    { eapply Forall2_impl; [exact Hf|]. intros ? ? [? ?]. split; [done|by apply cow_tree_app]. }
    apply Forall2_app; [by apply Forall2_take|]. apply Forall2_app; [by rewrite <- Hpages|by apply Forall2_drop]. }
  pose proof (lookup_lt_Some _ _ _ Hc) as Hi. pose proof (length_update_children u) as Hul.
  assert (Hchlen : length (put_child i u children) = (length children - 1 + length (update_children u))%nat).
  { rewrite (put_child_children _ _ _ child) by done. rewrite !length_app, length_take, length_drop. lia. }
  pose proof (push_split_cases Internal limits fan internal_range (put_child i u children) c1 Hfan) as Hp.
  destruct (push_split _ _ _ _ _) as [[u' c']|e].
  2: { destruct Hp as [-> Hp]; [|unfold len in *; lia|]; [intros E; rewrite E in Hchlen; cbn in Hchlen; lia|].
       split; [done|]. rewrite Hnew, len_app in Hp. unfold len at 2 in Hp. rewrite length_seq in Hp. lia. }
  destruct Hp as (pieces & Hcat & Hpieces & Hpc & Hpush & Hdesc); [intros E; rewrite E in Hchlen; cbn in Hchlen; lia|unfold len in *; lia|].
  rewrite <- Hcat in Hlinked. destruct (internal_pieces _ h pieces subs' (update_children u') Hlinked Hpieces Hdesc) as (subs'' & Hl & Hes & Hids).
  destruct (split_subs subs i sub Hsub) as [He Hi2]. pose proof (ps_pages _ _ _ Hpush) as Hpp.
  exists (more ++ (Internal <$> pieces)), subs'', (id :: path), (shared ++ concat (take i subs).*2 ++ concat (drop (S i) subs).*2).
  assert (Hn1 : length (ctx_pages c1) = (length (ctx_pages c) + length more)%nat) by (by rewrite Hpages, length_app).
  split.
  - by rewrite Hpp, Hpages, <- app_assoc.
  - rewrite (ps_new _ _ _ Hpush), Hnew, <- app_assoc, Hn1, <- seq_app, length_app. done.
  - rewrite (ps_visited _ _ _ Hpush), Hvis. lia.
  - rewrite (ps_replaced _ _ _ Hpush), Hrep. f_equal. apply bool_decide_ext. rewrite He, !fmap_app, !elem_of_app.
    split; [tauto|]. intros [Hin|[Hin|Hin]]; [|done|].
    + apply list_elem_of_fmap in Hin as (x & Hk & Hx). specialize (Hlow x Hx). lia.
    + apply list_elem_of_fmap in Hin as (x & Hk & Hx). specialize (Hhigh x Hx). lia.
  - by rewrite Hpp.
  - rewrite Hes. unfold subs'. rewrite !fmap_app, !concat_app, Hes1, He. by rewrite put_sorted_app.
  - rewrite Hi2, Hold. cbn [app]. apply perm_skip. rewrite <- !app_assoc.
    rewrite (Permutation_app_comm (concat (take i subs).*2)), <- !app_assoc. do 2 f_equiv. apply Permutation_app_comm.
  - cbn. by rewrite Hpath.
  - rewrite Hids. unfold subs'. rewrite !fmap_app, !concat_app, Hids1, length_app, length_fmap, seq_app, <- Hn1.
    rewrite (app_assoc _ (seq (length (ctx_pages c)) _) (seq (length (ctx_pages c1)) _)). f_equiv. rewrite <- !app_assoc.
    rewrite (Permutation_app_comm (concat (take i subs).*2)), <- !app_assoc. f_equiv.
    rewrite (Permutation_app_comm (seq _ _)), <- !app_assoc. rewrite (app_assoc (concat (take i subs).*2)).
    rewrite (Permutation_app_comm (concat (drop (S i) subs).*2)), <- !app_assoc. f_equiv. apply Permutation_app_comm.
  - rewrite length_app, length_fmap. lia.
Qed.

Lemma upsert_page_cases limits fuel entry h id es ids dep c :
  tree cap fan (ctx_pages c) h id es ids -> ordered es -> (h < fuel)%nat ->
  match upsert_page fuel limits cap fan id entry dep c with
  | Ok (u, c') => page_updated entry h es ids c c' u
  | Err DepthLimitExceeded => max_depth limits < dep + N.of_nat h
  | Err PageLimitExceeded => max_pages_visited limits < ctx_visited c + N.of_nat h + 1
  | Err NewPageLimitExceeded => max_new_pages limits < len (ctx_new c) + 2 * N.of_nat (S h)
  | Err ArithmeticOverflow => U64_MAX < ctx_visited c + N.of_nat h + 1
  | Err _ => False
  end.
Proof.
  revert h id es ids dep c. induction fuel as [|fuel IH]; intros h id es ids dep c Ht Hs Hfuel; [lia|]. cbn [upsert_page].
  destruct (N.ltb_spec (max_depth limits) dep); cbn [negb]; [lia|].
  destruct (checked_add (ctx_visited c) 1) as [v|] eqn:Ev; cbn [ok_or].
  2: { unfold checked_add in Ev. destruct (N.leb_spec (ctx_visited c + 1) U64_MAX); [done|lia]. }
  apply checked_add_Some in Ev as [-> _].
  destruct (N.ltb_spec (max_pages_visited limits) (ctx_visited c + 1)); cbn [negb]; [lia|]. cbn [ctx_pages].
  destruct h as [|h]; cbn [tree] in Ht.
  - destruct Ht as (Hp & Hne & Hlen & ->). rewrite Hp. cbn [ok_or]. rewrite put_entry_sorted by done.
    cbn [ctx_pages ctx_visited ctx_new ctx_replaced]. pose proof (leaf_updated limits entry id es c Hs Hlen) as Hu.
    destruct (push_split _ _ _ _ _) as [[u c']|e]; [done|]. destruct Hu as [-> Hu]. lia.
  - destruct Ht as (children & subs & Hp & Hne & Hlen & Hf & -> & ->). rewrite Hp. cbn [ok_or].
    destruct (select_child_cases (ctx_pages c) h children subs (key entry) Hf Hne Hs) as (child & sub & Hc & Hsub & Hlow & Hhigh).
    rewrite Hc. cbn [ok_or]. set (c0 := mkContext _ _ _ _).
    destruct (Forall2_lookup_lr _ _ _ _ _ _ Hf Hc Hsub) as [_ Hst].
    assert (Hso : ordered sub.1) by (eapply concat_ordered_sub; [done|by eapply list_elem_of_lookup_2]).
    specialize (IH h (page_id child) sub.1 sub.2 (dep + 1) c0 Hst Hso ltac:(lia)).
    destruct (upsert_page _ _ _ _ _ _ _ _) as [[u c1]|[]]; cbn [c0 ctx_visited ctx_new] in IH; try done; try lia.
    pose proof (internal_updated limits entry h id children subs _ child sub c c1 u Hf Hlen Hc Hsub Hlow Hhigh IH) as Hu.
    destruct (push_split _ _ _ _ _) as [[u' c']|e]; [done|]. destruct Hu as [-> Hu]. lia.
Qed.

(** The new root. *)
Definition with_root (limits : Limits) (u : PageUpdate) (c : Context) : result Error (nat * Context) :=
  match right_page u with
  | Some r => push limits (Internal [left_page u; r]) c
  | None => Ok (page_id (left_page u), c)
  end.

Record root_updated (entry : Entry) (h : nat) (es : list Entry) (ids : list nat) (c c' : Context) (root : nat) (h' : nat)
    (ids' : list nat) (more : list Page) (path shared : list nat) : Prop := {
  ru_pages : ctx_pages c' = ctx_pages c ++ more;
  ru_new : ctx_new c' = ctx_new c ++ seq (length (ctx_pages c)) (length more);
  ru_visited : ctx_visited c' = ctx_visited c + N.of_nat h + 1;
  ru_replaced : ctx_replaced c' = bool_decide (key entry ∈ key <$> es) || ctx_replaced c;
  ru_tree : tree cap fan (ctx_pages c') h' root (put_sorted entry es) ids';
  ru_grown : h' = h \/ h' = S h;
  ru_old : ids ≡ₚ path ++ shared;
  ru_height : length path = S h;
  ru_ids : ids' ≡ₚ shared ++ seq (length (ctx_pages c)) (length more);
  ru_count : (S h <= length more <= 2 * S h + 1)%nat;
}.

Lemma with_root_cases limits entry h es ids c c1 u :
  page_updated entry h es ids c c1 u ->
  match with_root limits u c1 with
  | Ok (root, c') => exists h' ids' more path shared, root_updated entry h es ids c c' root h' ids' more path shared
  | Err e => e = NewPageLimitExceeded /\ max_new_pages limits < len (ctx_new c) + 2 * N.of_nat (S h) + 1
  end.
Proof.
  intros (more & subs & path & shared & Hu). destruct Hu as [Hpages Hnew Hvis Hrep Hl1 Hes1 Hold Hpath Hids1 Hcount].
  unfold with_root. unfold update_children in Hl1. destruct (right_page u) as [r|].
  - pose proof (push_cases limits (Internal [left_page u; r]) c1) as Hp. destruct (push _ _ c1) as [[id c']|e].
    2: { destruct Hp as [-> Hp]. split; [done|]. rewrite Hnew, len_app in Hp. unfold len at 2 in Hp. rewrite length_seq in Hp. lia. }
    destruct Hp as [-> Hp]. assert (Hn1 : length (ctx_pages c1) = (length (ctx_pages c) + length more)%nat) by (by rewrite Hpages, length_app).
    exists (S h), (length (ctx_pages c1) :: concat subs.*2), (more ++ [Internal [left_page u; r]]), path, shared. split.
    + by rewrite (ps_pages _ _ _ Hp), Hpages, <- app_assoc.
    + rewrite (ps_new _ _ _ Hp), Hnew, <- app_assoc, Hn1, <- seq_app, length_app. done.
    + by rewrite (ps_visited _ _ _ Hp), Hvis.
    + by rewrite (ps_replaced _ _ _ Hp), Hrep.
    + cbn [tree]. exists [left_page u; r], subs. split_and!; [|done| | |done|done].
      * rewrite (ps_pages _ _ _ Hp). by apply list_lookup_middle.
      * unfold len. cbn. lia.
      * rewrite (ps_pages _ _ _ Hp). eapply Forall2_impl; [exact Hl1|]. intros ? ? [? ?]. split; [done|by apply cow_tree_app].
    + by right.
    + done.
    + done.
    + rewrite length_app, seq_app, <- Hn1, app_assoc, <- Hids1. cbn. apply Permutation_cons_append.
    + rewrite length_app. cbn. lia.
  - inversion Hl1 as [|? sub ? ? [Hsp Ht] Hnil]; subst. apply Forall2_nil_inv_l in Hnil as ->.
    cbn [fmap list_fmap concat] in *. rewrite app_nil_r in *.
    exists h, sub.2, more, path, shared. split; try done; [by rewrite <- Hes1|by left|lia].
Qed.
End Update.

(** ** [upsert] *)

Arguments ru_pages {cap fan entry h es ids c c' root h' ids' more path shared} _.
Arguments ru_new {cap fan entry h es ids c c' root h' ids' more path shared} _.
Arguments ru_visited {cap fan entry h es ids c c' root h' ids' more path shared} _.
Arguments ru_replaced {cap fan entry h es ids c c' root h' ids' more path shared} _.
Arguments ru_tree {cap fan entry h es ids c c' root h' ids' more path shared} _.
Arguments ru_grown {cap fan entry h es ids c c' root h' ids' more path shared} _.
Arguments ru_old {cap fan entry h es ids c c' root h' ids' more path shared} _.
Arguments ru_height {cap fan entry h es ids c c' root h' ids' more path shared} _.
Arguments ru_ids {cap fan entry h es ids c c' root h' ids' more path shared} _.
Arguments ru_count {cap fan entry h es ids c c' root h' ids' more path shared} _.

Lemma seq_NoDup_app (shared ids : list nat) n k path : NoDup ids -> ids ≡ₚ path ++ shared -> (forall i, i ∈ ids -> (i < n)%nat) ->
  NoDup (shared ++ seq n k).
Proof.
  intros Hnd Hp Hlt. rewrite Hp in Hnd. apply NoDup_app in Hnd as (_ & _ & Hnd). apply NoDup_app. split_and!; [done| |apply NoDup_seq].
  intros i Hi Hs. apply elem_of_seq in Hs. specialize (Hlt i). rewrite Hp, elem_of_app in Hlt. specialize (Hlt (or_intror Hi)). lia.
Qed.

(** What a report says of an update, and of what it shares with the old
    directory: the pages off one path of it. *)
Record upserted (d : Directory) (h : nat) (es : list Entry) (ids : list nat) (entry : Entry) (r : UpdateReport)
    (h' : nat) (ids' : list nat) (more : list Page) (path shared : list nat) : Prop := {
  us_represents : represents (directory r) h' (put_sorted entry es) ids';
  us_capacities : leaf_capacity (directory r) = leaf_capacity d /\ internal_fanout (directory r) = internal_fanout d;
  us_pages : pages (directory r) = pages d ++ more;
  us_new : new_pages r = seq (length (pages d)) (length more);
  us_new_count : (S h <= length (new_pages r) <= 2 * S h + 1)%nat;
  us_replaced : replaced_existing r = bool_decide (key entry ∈ key <$> es);
  us_visited : pages_visited r = N.of_nat h + 1;
  us_depths : old_depth r = N.of_nat h + 1 /\ new_depth r = N.of_nat h' + 1 /\ (h' = h \/ h' = S h);
  us_old : ids ≡ₚ path ++ shared /\ length path = S h;
  us_ids : ids' ≡ₚ shared ++ new_pages r;
  us_counts : old_reachable_pages r = len ids /\ new_reachable_pages r = len ids' /\ reused_pages r = len shared;
}.

Definition upsert_refused (h : nat) (ids : list nat) (entry : Entry) (limits : Limits) (e : Error) : Prop :=
  match e with
  | InvalidKey => key entry = 0
  | PageLimitExceeded => max_pages_visited limits < N.of_nat h + 1 \/ max_validation_pages limits < len ids + N.of_nat h + 2
  | NewPageLimitExceeded => max_new_pages limits < 2 * N.of_nat h + 3
  | DepthLimitExceeded => max_depth limits < N.of_nat h + 2
  | ArithmeticOverflow => U64_MAX < N.of_nat h + 2
  | _ => False
  end.

Lemma shared_size (ids ids' path shared : list nat) n k :
  NoDup ids -> ids ≡ₚ path ++ shared -> ids' ≡ₚ shared ++ seq n k -> (forall i, i ∈ ids -> (i < n)%nat) ->
  N.of_nat (size (list_to_set ids ∩ list_to_set ids' : gset nat)) = len shared.
Proof.
  intros Hnd Hp Hp' Hlt. unfold len. f_equal.
  assert (Hset : (list_to_set ids ∩ list_to_set ids' : gset nat) = list_to_set shared).
  { apply set_eq. intros i. rewrite elem_of_intersection, !elem_of_list_to_set, Hp', elem_of_app, elem_of_seq. split.
    - intros [Hi [Hs|Hs]]; [done|]. specialize (Hlt i Hi). lia.
    - intros Hi. rewrite Hp, elem_of_app. split; [by right|by left]. }
  rewrite Hset. apply size_list_to_set. rewrite Hp in Hnd. by apply NoDup_app in Hnd as (_ & _ & ?).
Qed.

Lemma represents_root d h es ids entry c' root h' ids' more path shared :
  represents d h es ids -> key entry <> 0 ->
  root_updated (leaf_capacity d) (internal_fanout d) entry h es ids (mkContext (pages d) 0 [] false) c' root h' ids' more path shared ->
  represents (mkCow (ctx_pages c') root (leaf_capacity d) (internal_fanout d)) h' (put_sorted entry es) ids'.
Proof.
  intros Hd Hk Hu. split; cbn [leaf_capacity internal_fanout pages CowReuse.root].
  - apply Hd.
  - apply Hu.
  - apply put_ordered, Hd.
  - apply put_nonzero; [apply Hd..|done].
  - rewrite (ru_ids Hu). eapply seq_NoDup_app; [apply Hd|apply Hu|].
    intros i Hi. eapply cow_tree_member; [apply Hd|done].
Qed.

Lemma upsert_cases d h es ids entry limits : represents d h es ids ->
  match upsert d entry limits with
  | Ok r => key entry <> 0 /\ exists h' ids' more path shared, upserted d h es ids entry r h' ids' more path shared
  | Err e => upsert_refused h ids entry limits e
  end.
Proof.
  intros Hd. unfold upsert. destruct (N.eqb_spec (key entry) 0) as [Hk|Hk]; cbn [negb]; [done|].
  rewrite (represents_reachable _ _ _ _ Hd). destruct (N.leb_spec (len ids) (max_validation_pages limits)) as [Hv|Hv]; [|cbn; lia].
  pose proof (represents_depth _ _ _ _ Hd (max_depth limits)) as Hdep.
  destruct (depth_with_limit d (max_depth limits)) as [od|[]]; try done; [|cbn; lia..]. destruct Hdep as [-> Hdep].
  pose proof (height_bound _ _ _ _ Hd) as Hh. set (c := mkContext (pages d) 0 [] false).
  pose proof (upsert_page_cases _ _ (proj1 (rp_capacities _ _ _ _ Hd)) (proj2 (rp_capacities _ _ _ _ Hd)) limits (S (length (pages d)))
    entry h (root d) es ids 1 c (rp_tree _ _ _ _ Hd) (rp_ordered _ _ _ _ Hd) ltac:(lia)) as Hu.
  destruct (upsert_page _ _ _ _ _ _ _ _) as [[u c1]|[]]; cbn [c ctx_visited ctx_new] in Hu; try done; try (cbn; rewrite ?len_nil in Hu; lia).
  pose proof (with_root_cases _ _ (proj1 (rp_capacities _ _ _ _ Hd)) (proj2 (rp_capacities _ _ _ _ Hd)) limits entry h es ids c c1 u Hu) as Hr.
  unfold with_root in Hr. destruct (match right_page u with Some r => _ | None => _ end) as [[root' c']|e];
    [|destruct Hr as [-> Hr]; cbn [c ctx_new] in Hr; rewrite len_nil in Hr; cbn; lia].
  destruct Hr as (h' & ids' & more & path & shared & Hr).
  pose proof (represents_root d h es ids entry c' root' h' ids' more path shared Hd Hk Hr) as Hd'.
  set (d' := mkCow _ _ _ _) in *. pose proof (represents_validate _ _ _ _ Hd' limits) as Hval.
  assert (Hlt : forall i, i ∈ ids -> (i < length (pages d))%nat) by (intros i; eapply cow_tree_member; apply Hd).
  assert (Hcount : len ids' <= len ids + N.of_nat h + 2).
  { pose proof (Permutation_length (ru_ids Hr)) as E1.
    pose proof (Permutation_length (ru_old Hr)) as E2.
    rewrite length_app, length_seq in E1. rewrite length_app, (ru_height Hr) in E2.
    pose proof (ru_count Hr). unfold len. lia. }
  assert (Hgrown : (h' <= S h)%nat) by (destruct (ru_grown Hr); lia).
  destruct (validate d' limits) as [[]|[]]; try done; [|cbn; lia..].
  rewrite (represents_reachable _ _ _ _ Hd'). destruct (N.leb_spec (len ids') (max_validation_pages limits)); [|cbn; lia].
  pose proof (represents_depth _ _ _ _ Hd' (max_depth limits)) as Hdep'.
  destruct (depth_with_limit d' (max_depth limits)) as [nd|[]]; try done; [|cbn; lia..]. destruct Hdep' as [-> _].
  split; [done|]. exists h', ids', more, path, shared.
  assert (Hnew : ctx_new c' = seq (length (pages d)) (length more)) by apply Hr.
  split; cbn [directory new_pages replaced_existing pages_visited old_depth new_depth old_reachable_pages new_reachable_pages reused_pages].
  - exact Hd'.
  - done.
  - apply Hr.
  - done.
  - rewrite Hnew, length_seq. apply Hr.
  - rewrite (ru_replaced Hr). apply orb_false_r.
  - by rewrite (ru_visited Hr).
  - split_and!; [done|done|apply Hr].
  - split; apply Hr.
  - rewrite Hnew. apply Hr.
  - unfold len. split_and!; [by rewrite size_list_to_set by apply Hd|by rewrite size_list_to_set by apply Hd'|].
    by eapply shared_size; [apply Hd|apply Hr|apply Hr|].
Qed.
