(* ===== verification/CowReuseBuild.v ===== *)
(** Building a copy-on-write directory, and the directory as a finite map: what
    any sequence of updates makes of it. *)

From Stdlib Require Import Strings.Byte Strings.String NArith ZArith Lia.
From stdpp Require Import base list gmap strings sorting.
From S2P Require Import Prelude Order Errors CowReuse CowReuseFacts.

Local Open Scope N_scope.

(** ** Levels *)

Lemma fold_push_level {A} (page_of : list A -> Page) chunks ps level :
  (forall items, items <> [] -> is_Some (range (page_of items))) -> Forall (fun c => c <> []) chunks ->
  exists cs, fold_result (push_level page_of) chunks (ps, level) = Ok (ps ++ (page_of <$> chunks), level ++ cs) /\
    describes (length ps) (page_of <$> chunks) cs.
Proof.
  intros Hrange. revert ps level. induction chunks as [|chunk chunks IH]; intros ps level Hne.
  { exists []. cbn. rewrite !app_nil_r. split; [done|]. split; [done|constructor]. }
  apply Forall_cons in Hne as [Hc Hne]. cbn [fold_result]. unfold push_level at 1. cbn [fst snd].
  destruct (child_for_Ok page_of Hrange (ps ++ [page_of chunk]) (length ps) chunk) as (child & -> & Hr & Hid);
    [by apply list_lookup_middle|done|].
  destruct (IH (ps ++ [page_of chunk]) (level ++ [child]) Hne) as (cs & -> & Hids & Hrs).
  exists (child :: cs). rewrite <- !app_assoc. split; [done|]. split.
  - rewrite !fmap_cons. cbn [length seq]. rewrite Hid. f_equal. rewrite Hids, length_app. cbn. by rewrite Nat.add_1_r.
  - rewrite fmap_cons. by constructor.
Qed.

Section Build.
Context (cap fan : N) (Hcap : 2 <= cap) (Hfan : 2 <= fan) (es : list Entry).

(** The level under construction: trees of [h] internal levels over the
    entries, made of all the pages so far. *)
Definition level_ok (h : nat) (ps : list Page) (level : list Child) : Prop :=
  exists subs, Forall2 (linked cap fan ps h) level subs /\ concat subs.*1 = es /\ concat subs.*2 ≡ₚ seq 0 (length ps).

Lemma leaves_ok : es <> [] -> exists ps level,
  fold_result (push_level Leaf) (chunks cap es) ([], []) = Ok (ps, level) /\ level_ok 0 ps level /\ level <> [] /\
  len level = (len es + (cap - 1)) / cap.
Proof.
  intros Hne. destruct (chunks_spec cap es) as (Hc & Hcne & Hlen); [lia|].
  destruct (fold_push_level Leaf (chunks cap es) [] [] leaf_range Hcne) as (cs & -> & Hd). cbn [app length] in *.
  assert (Hlcs : length cs = length (chunks cap es)) by (destruct Hd as [_ Hd]; apply Forall2_length in Hd; by rewrite length_fmap in Hd).
  destruct (leaf_pieces cap fan Hcap Hfan [] (chunks cap es) cs) as (subs & Hl & Hes & Hids); [|done|].
  { apply Forall_forall. intros piece Hp. split; [by apply (proj1 (Forall_forall _ _) Hcne)|].
    by apply (proj1 (Forall_forall _ _) (chunks_bound cap es)). }
  exists (Leaf <$> chunks cap es), cs. split_and!; [done| | |].
  - exists subs. split_and!; [done|by rewrite Hes|by rewrite Hids, length_fmap].
  - intros ->. cbn in Hlcs. destruct (chunks cap es); [by rewrite <- Hc in Hne|done].
  - unfold len at 1. rewrite Hlcs. exact Hlen.
Qed.

Lemma build_levels_cases fuel h ps level :
  level_ok h ps level -> level <> [] -> (N.to_nat (N.log2_up (len level)) < fuel)%nat ->
  exists ps' top h' ids, build_levels fuel fan ps level = Ok (ps', [top]) /\
    tree cap fan ps' h' (page_id top) es ids /\ ids ≡ₚ seq 0 (length ps') /\
    N.of_nat h' <= N.of_nat h + N.log2_up (len level).
Proof.
  revert h ps level. induction fuel as [|fuel IH]; intros h ps level (subs & Hf & Hes & Hids) Hne Hfuel; [lia|].
  cbn [build_levels]. destruct (Nat.ltb_spec 1 (length level)) as [Hlt|Hge].
  - destruct (chunks_spec fan level) as (Hc & Hcne & Hclen); [lia|].
    destruct (fewer_pages fan (len level) (len (chunks fan level)) Hfan) as (Hk1 & Hk2 & _ & Hk3); [unfold len; lia|done|].
    destruct (fold_push_level Internal (chunks fan level) ps [] internal_range Hcne) as (cs & -> & Hd). cbn [app].
    assert (Hlcs : length cs = length (chunks fan level)) by (destruct Hd as [_ Hd]; apply Forall2_length in Hd; by rewrite length_fmap in Hd).
    destruct (internal_pieces cap fan Hcap Hfan ps h (chunks fan level) subs cs) as (subs' & Hl & Hes' & Hids'); [by rewrite Hc| |done|].
    { apply Forall_forall. intros piece Hp. split; [by apply (proj1 (Forall_forall _ _) Hcne)|].
      by apply (proj1 (Forall_forall _ _) (chunks_bound fan level)). }
    assert (Hlen : len cs = len (chunks fan level)) by (unfold len; by rewrite Hlcs).
    destruct (IH (S h) (ps ++ (Internal <$> chunks fan level)) cs) as (ps' & top & h' & ids & -> & Ht & Hp & Hh).
    + exists subs'. split_and!; [done|by rewrite Hes'|]. rewrite Hids', Hids, length_app, length_fmap, seq_app. done.
    + intros ->. rewrite len_nil in Hlen. lia.
    + rewrite Hlen. lia.
    + exists ps', top, h', ids. split_and!; [done|done|done|]. rewrite Hlen in Hh. lia.
  - destruct level as [|top [|]]; [done| |cbn in Hge; lia]. inversion Hf as [|? sub ? ? [_ Ht] Hnil]; subst.
    apply Forall2_nil_inv_l in Hnil as ->. cbn [fmap list_fmap concat] in *. rewrite app_nil_r in *.
    exists ps, top, h, sub.2. split_and!; [done|by rewrite <- Hes|done|lia].
Qed.
End Build.

(** ** Checking the entries *)

Definition repeats (k : N) (es : list Entry) : Prop :=
  exists l1 x l2 y l3, es = l1 ++ x :: l2 ++ y :: l3 /\ key x = k /\ key y = k.

Lemma entries_loop_cases previous es :
  StronglySorted (cmp_le (cmp_on key N.compare)) es -> (forall m e, previous = Some m -> e ∈ es -> m <= key e) ->
  match entries_loop previous es with
  | Ok _ => ordered es /\ nonzero es
  | Err InvalidKey => exists e, e ∈ es /\ key e = 0
  | Err (DuplicateKey k) => repeats k es \/ previous = Some k /\ exists e, e ∈ es /\ key e = k
  | Err _ => False
  end.
Proof.
  intros Hs. revert previous. induction Hs as [|e es Hs IH Hle]; intros previous Hp; cbn [entries_loop]; [split; constructor|].
  destruct (N.eqb_spec (key e) 0) as [Hz|Hz]; cbn [negb]; [exists e; split; [by left|done]|].
  assert (Hlow : forall x, x ∈ es -> key e <= key x).
  { intros x Hx. pose proof (proj1 (Forall_forall _ _) Hle x Hx) as Hc. unfold cmp_le, cmp_on in Hc. by rewrite N.compare_le_iff in Hc. }
  destruct (match previous with Some k => key e <=? k | None => false end) eqn:Eprev; cbn [negb].
  - destruct previous as [k|]; [|done]. bool_facts. pose proof (Hp k e eq_refl ltac:(by left)).
    assert (k = key e) as -> by lia. rewrite bool_decide_eq_true_2 by done. right. split; [done|]. exists e. split; [by left|done].
  - specialize (IH (Some (key e)) ltac:(by intros m x [= <-] Hx; apply Hlow)).
    destruct (entries_loop (Some (key e)) es) as [[]|[]] eqn:El; try done.
    + destruct IH as [Ho Hn]. split; [|by constructor]. constructor; [done|]. apply Forall_forall. intros x Hx.
      unfold key_lt. destruct (N.lt_trichotomy (key e) (key x)) as [|[Heq|Hgt]]; [done| |specialize (Hlow x Hx); lia].
      exfalso. clear -Ho Hx El Heq. destruct es as [|y es]; [by apply elem_of_nil in Hx|]. cbn [entries_loop] in El.
      destruct (key y =? 0); [done|]. cbn [negb] in El. destruct (N.leb_spec (key y) (key e)) as [|Hlt]; cbn [negb] in El; [done|].
      apply StronglySorted_inv in Ho as [_ Ho]. apply elem_of_cons in Hx as [->|Hx]; [lia|].
      pose proof (proj1 (Forall_forall _ _) Ho x Hx) as Hyx. unfold key_lt in Hyx. lia.
    + destruct IH as (x & Hx & Hk). exists x. split; [by right|done].
    + left. destruct IH as [(l1 & x & l2 & y & l3 & -> & Hx & Hy)|[[= <-] (x & Hx & Hk)]].
      * by exists (e :: l1), x, l2, y, l3.
      * apply list_elem_of_split in Hx as (l2 & l3 & ->). by exists [], e, l2, x, l3.
Qed.

(** ** [build] *)

Lemma cow_build_cases entries cap fan : len entries <= U64_MAX ->
  match build entries cap fan with
  | Ok d => leaf_capacity d = cap /\ internal_fanout d = fan /\
      exists h es ids, represents d h es ids /\ es ≡ₚ entries /\ ids ≡ₚ seq 0 (length (pages d))
  | Err InvalidCapacity => cap < 2 \/ fan < 2
  | Err EmptyDirectory => entries = []
  | Err InvalidKey => exists e, e ∈ entries /\ key e = 0
  | Err (DuplicateKey k) => exists es, es ≡ₚ entries /\ repeats k es
  | Err _ => False
  end.
Proof.
  intros Hmax. unfold build, validate_capacities.
  destruct (N.ltb_spec cap 2) as [|Hcap]; [by left|]. destruct (N.ltb_spec fan 2) as [|Hfan]; [by right|]. cbn [orb].
  destruct (N.eqb_spec (len entries) 0) as [Hz|Hz]; cbn [negb]; [destruct entries; [done|rewrite len_cons in Hz; lia]|].
  set (es := sort_by (cmp_on key N.compare) entries). assert (Hp : es ≡ₚ entries) by apply sort_by_Permutation.
  assert (Hsort : StronglySorted (cmp_le (cmp_on key N.compare)) es) by (apply sort_by_StronglySorted, cmp_on_total, strict_total).
  pose proof (entries_loop_cases None es Hsort ltac:(done)) as Hc. unfold validate_entries.
  destruct (entries_loop None es) as [[]|[]]; try done.
  2: { destruct Hc as (e & He & Hk). exists e. by rewrite <- Hp. }
  2: { destruct Hc as [Hr|[[=] _]]. by exists es. }
  destruct Hc as [Ho Hn]. assert (Hel : len es = len entries) by (unfold len; by rewrite Hp).
  assert (Hne : es <> []) by (intros E; rewrite E, len_nil in Hel; lia).
  destruct (leaves_ok cap fan Hcap Hfan es Hne) as (ps & level & -> & Hlevel & Hlne & Hllen).
  destruct (build_levels_cases cap fan Hcap Hfan es (S (length level)) 0 ps level Hlevel Hlne) as (ps' & top & h & ids & -> & Ht & Hids & Hh).
  { assert (1 <= len level) by (destruct level; [done|rewrite len_cons; lia]).
    pose proof (N.log2_up_le_lin (len level) ltac:(lia)). unfold len in *. lia. }
  cbn [head ok_or]. set (d := mkCow _ _ _ _).
  assert (Hd : represents d h es ids).
  { split; [done|exact Ht|done|done|]. rewrite Hids. apply NoDup_seq. }
  pose proof (represents_validate _ _ _ _ Hd (mkCowLimits (len ps') (len ps') 128 (len ps'))) as Hv. cbn [max_depth max_validation_pages] in Hv.
  destruct (validate d _) as [[]|[]]; try done.
  - split_and!; [done|done|]. exists h, es, ids. split_and!; [done|done|exact Hids].
  - unfold len in Hv. rewrite Hids, length_seq in Hv. lia.
  - assert (Hleq : len level <= len es).
    { rewrite Hllen. apply N.Div0.div_le_upper_bound. rewrite Hel. nia. }
    assert (N.log2_up (len level) <= 64); [|lia]. apply N.log2_up_le_pow2; [destruct level; [done|rewrite len_cons; lia]|].
    unfold U64_MAX in Hmax. lia.
Qed.

(** ** The directory as a finite map *)

Definition contents (es : list Entry) : gmap N N := list_to_map ((fun e => (key e, revision e)) <$> es).

Lemma ordered_keys es : ordered es -> NoDup (key <$> es).
Proof.
  induction 1 as [|e es Hs IH Hlt]; [constructor|]. rewrite fmap_cons. constructor; [|done].
  intros (x & Hk & Hx)%list_elem_of_fmap. pose proof (proj1 (Forall_forall _ _) Hlt x Hx) as Hb. unfold key_lt in Hb. lia.
Qed.

Lemma contents_find es k : ordered es -> mkEntry k <$> contents es !! k = find_entry k es.
Proof.
  intros Hs. unfold contents. induction Hs as [|e es Hs IH Hlt]; [done|]. rewrite fmap_cons. cbn [list_to_map foldr].
  unfold find_key in *. cbn [List.find]. destruct (N.eqb_spec (key e) k) as [<-|Hne].
  - rewrite lookup_insert_eq. by destruct e.
  - by rewrite lookup_insert_ne.
Qed.

Lemma find_put entry es k : ordered es ->
  find_entry k (put_sorted entry es) = if decide (k = key entry) then Some entry else find_entry k es.
Proof.
  intros Hs. pose proof (put_ordered entry es Hs) as Hs'. destruct (decide (k = key entry)) as [->|Hne].
  - apply find_key_Some; [done|]. split; [|done]. apply elem_of_put; [done|by left].
  - destruct (find_entry k es) as [e|] eqn:E.
    + apply find_key_Some in E as [He <-]; [|done]. apply find_key_Some; [done|]. split; [|done]. apply elem_of_put; [done|by right].
    + apply find_key_None. intros e He Hk. apply elem_of_put in He as [->|[He _]]; [by apply Hne|by apply (proj1 (find_key_None k es) E e)|done].
Qed.

Lemma contents_put entry es : ordered es -> contents (put_sorted entry es) = <[key entry := revision entry]> (contents es).
Proof.
  intros Hs. apply map_eq. intros k.
  assert (Hinj : forall o o' : option N, mkEntry k <$> o = mkEntry k <$> o' -> o = o') by (intros [] []; cbn; congruence).
  apply Hinj. rewrite contents_find by by apply put_ordered. rewrite find_put by done.
  destruct (decide (k = key entry)) as [->|Hne]; [rewrite lookup_insert_eq; by destruct entry|].
  rewrite lookup_insert_ne by done. by rewrite contents_find.
Qed.

(** A batch of updates, each with its limits. *)
Definition apply_update (d : Directory) (u : Entry * Limits) : result Error Directory :=
  let* r := upsert d u.1 u.2 in Ok (directory r).

Definition put_all (updates : list (Entry * Limits)) (m : gmap N N) : gmap N N :=
  foldl (fun m u => <[key u.1 := revision u.1]> m) m updates.

Lemma updates_represent updates d h es ids d' :
  represents d h es ids -> fold_result apply_update updates d = Ok d' ->
  pages d `prefix_of` pages d' /\
  exists h' es' ids', represents d' h' es' ids' /\ contents es' = put_all updates (contents es).
Proof.
  revert d h es ids. induction updates as [|[entry limits] updates IH]; intros d h es ids Hd Hrun; cbn [fold_result] in Hrun.
  { injection Hrun as <-. split; [done|]. by exists h, es, ids. }
  unfold apply_update at 1 in Hrun. cbn [fst snd] in Hrun. pose proof (upsert_cases d h es ids entry limits Hd) as Hu.
  destruct (upsert d entry limits) as [r|e]; [|done]. destruct Hu as (_ & h1 & ids1 & more & path & shared & Hu).
  destruct (IH _ _ _ _ (us_represents _ _ _ _ _ _ _ _ _ _ _ Hu) Hrun) as (Hpre & h' & es' & ids' & Hd' & Hc).
  split.
  - etrans; [|exact Hpre]. rewrite (us_pages _ _ _ _ _ _ _ _ _ _ _ Hu). by apply prefix_app_r.
  - exists h', es', ids'. split; [done|]. rewrite Hc, contents_put by apply Hd. done.
Qed.

(** C18. The copy-on-write directory refines a finite map: whatever updates
    succeed on a directory that was built, every page it had is still there
    unchanged, and a lookup finds exactly what inserting the updates one by one
    in the map of the entries gives. *)
Theorem cow_refines_map entries cap fan updates d0 d k :
  len entries <= U64_MAX -> build entries cap fan = Ok d0 -> fold_result apply_update updates d0 = Ok d -> k <> 0 ->
  pages d0 `prefix_of` pages d /\
  lookup d k = Ok (mkEntry k <$> put_all updates (contents entries) !! k).
Proof.
  intros Hmax Hb Hrun Hk. pose proof (cow_build_cases entries cap fan Hmax) as Hc. rewrite Hb in Hc.
  destruct Hc as (_ & _ & h & es & ids & Hd & Hp & _).
  destruct (updates_represent updates d0 h es ids d Hd Hrun) as (Hpre & h' & es' & ids' & Hd' & Hes).
  split; [done|]. rewrite (cow_represents_lookup _ _ _ _ Hd'). rewrite (proj2 (N.eqb_neq k 0)) by done.
  rewrite <- contents_find by apply Hd'. rewrite Hes. do 4 f_equal. unfold contents. apply list_to_map_proper.
  - rewrite <- list_fmap_compose. apply ordered_keys, Hd.
  - by rewrite Hp.
Qed.

(** Seven entries in leaves of two and pages of two children: seven pages. *)
Definition sample_entries : list Entry := (fun i => mkEntry i 0) <$> [5; 3; 1; 2; 4; 7; 6].
Definition sample_directory : Directory :=
  match build sample_entries 2 2 with Ok d => d | Err _ => mkCow [] 0 2 2 end.

Lemma cow_refines_map_witness :
  let updates := (fun e => (e, default_cow_limits)) <$> [mkEntry 8 1; mkEntry 3 9] in
  match fold_result apply_update updates sample_directory with
  | Ok d => pages sample_directory `prefix_of` pages d /\ lookup d 3 = Ok (Some (mkEntry 3 9))
  | Err _ => False
  end.
Proof.
  intros updates. destruct (fold_result apply_update updates sample_directory) as [d|] eqn:E; [|by vm_compute in E].
  pose proof (cow_refines_map sample_entries 2 2 updates sample_directory d 3) as [Hpre Hl].
  - by vm_compute.
  - by vm_compute.
  - done.
  - done.
  - split; [done|]. rewrite Hl. by vm_compute.
Defined.

(** C21. An update of a directory that represents a sorted list of entries
    gives one that represents the list with the entry put in its place; it
    appends the pages of one new path (at most two for each level, and a root),
    names them all, leaves every page in place and shares with the old
    directory all but one path of it, as the report counts; otherwise it is
    refused because the key is zero or one of the limits does not leave room
    for the path. *)
Theorem upsert_copies_one_path d h es ids entry limits : represents d h es ids ->
  match upsert d entry limits with
  | Ok r => key entry <> 0 /\ exists h' ids' more path shared, upserted d h es ids entry r h' ids' more path shared
  | Err e => upsert_refused h ids entry limits e
  end.
Proof. apply upsert_cases. Qed.

Lemma sample_represents : exists h es ids, represents sample_directory h es ids.
Proof.
  assert (Hmax : len sample_entries <= U64_MAX) by (apply N.leb_le; vm_compute; reflexivity).
  pose proof (cow_build_cases sample_entries 2 2 Hmax) as Hc. unfold sample_directory.
  destruct (build sample_entries 2 2) as [d|e] eqn:E; [|by vm_compute in E].
  destruct Hc as (_ & _ & h & es & ids & Hd & _). by exists h, es, ids.
Qed.

Lemma upsert_copies_one_path_witness :
  match upsert sample_directory (mkEntry 8 1) default_cow_limits with
  | Ok r => new_pages r = [7; 8; 9]%nat /\ reused_pages r = 4 /\ key (mkEntry 8 1) <> 0
  | Err _ => False
  end.
Proof.
  destruct sample_represents as (h & es & ids & Hd).
  pose proof (upsert_copies_one_path sample_directory h es ids (mkEntry 8 1) default_cow_limits Hd) as Hu.
  destruct (upsert sample_directory (mkEntry 8 1) default_cow_limits) as [r|e] eqn:E; [|by vm_compute in E].
  assert (Hr : (new_pages r, reused_pages r) = ([7; 8; 9]%nat, 4)).
  { vm_compute in E. injection E as <-. reflexivity. }
  injection Hr as -> ->. split_and!; [done|done|apply Hu].
Defined.
