(* ===== verification/Exp0002.v ===== *)
(** [crates/ucof-experiments/src/exp0002.rs], the byte format: constants,
    errors, limits, the reads and writes of a buffer, and the codecs of file
    headers, object headers, directory pages, snapshots and footers. *)

From Stdlib Require Import Strings.Byte Strings.String NArith ZArith Lia.
From stdpp Require Import base list gmap strings sorting.
From S2P Require Import Prelude Order Digest.

Local Open Scope N_scope.

Definition FILE_HEADER_LEN : N := 64.
Definition OBJECT_HEADER_LEN : N := 48.
Definition PAGE_HEADER_LEN : N := 64.
Definition PAGE_SIZE : N := 16384.
Definition LEAF_ENTRY_LEN : N := 88.
Definition INTERNAL_ENTRY_LEN : N := 64.
Definition LEAF_CAPACITY : N := (PAGE_SIZE - PAGE_HEADER_LEN) / LEAF_ENTRY_LEN.
Definition INTERNAL_CAPACITY : N := (PAGE_SIZE - PAGE_HEADER_LEN) / INTERNAL_ENTRY_LEN.
Definition SNAPSHOT_HEADER_LEN : N := 160.
Definition FOOTER_LEN : N := 160.
Definition ABSENT_OFFSET : N := U64_MAX.
Definition DIGEST_SHA256 : N := 1.

(** [*b"UCOF2\r\n\x1a"] *)
Definition FILE_MAGIC : bytes := as_bytes "UCOF2" ++ [Byte.x0d; Byte.x0a; Byte.x1a].
Definition OBJECT_MAGIC : bytes := as_bytes "OBJ2".
Definition PAGE_MAGIC : bytes := as_bytes "PG02".
Definition SNAPSHOT_MAGIC : bytes := as_bytes "SNP2".
Definition FOOTER_MAGIC : bytes := as_bytes "UCOF2END".

Definition OBJECT_DOMAIN : bytes := as_bytes "UCOF-EXP-0002-OBJECT" ++ [Byte.x00].
Definition PAGE_DOMAIN : bytes := as_bytes "UCOF-EXP-0002-PAGE" ++ [Byte.x00].
Definition SNAPSHOT_DOMAIN : bytes := as_bytes "UCOF-EXP-0002-SNAPSHOT" ++ [Byte.x00].
Definition COMMIT_DOMAIN : bytes := as_bytes "UCOF-EXP-0002-COMMIT" ++ [Byte.x00].

Inductive Exp0002Error : Type :=
  | ArithmeticOverflow
  | Truncated
  | InvalidMagic (name : string)
  | InvalidVersion
  | InvalidLength (name : string)
  | InvalidFlags (name : string)
  | InvalidReserved (name : string)
  | UnsupportedDigest
  | InvalidObjectKind
  | InvalidObjectId
  | DuplicateObjectId (id : N)
  | LogicalLengthMismatch
  | InvalidPageKind
  | InvalidPageLevel
  | InvalidEntryCount
  | InvalidEntrySize
  | InvalidPageRange
  | UnorderedEntries
  | OverlappingRanges
  | InvalidPageReference
  | PageCycle
  | DigestMismatch (name : string)
  | InvalidSnapshotSequence
  | InvalidParent
  | InvalidPreviousFooter
  | InvalidCommitRange
  | InvalidRoot
  | InvalidCapabilitySet
  | PhysicalOverlap
  | ResourceLimit (name : string)
  | EmptyObjectSet
  | NoRootObjects.

Abbreviation X := (result Exp0002Error).

Record ValidationLimits : Type := mkValidationLimits {
  max_file_bytes : N;
  max_commit_bytes : N;
  max_snapshot_bytes : N;
  max_pages : N;
  max_page_depth : N;
  max_objects : N;
  max_payload_bytes : N;
  max_hashed_bytes : N;
  max_roots : N;
  max_capabilities : N;
}.

Definition default_validation_limits : ValidationLimits :=
  mkValidationLimits (16 * 1024 * 1024 * 1024) (16 * 1024 * 1024 * 1024) (16 * 1024 * 1024) 1000000 32 10000000
    (16 * 1024 * 1024 * 1024) (32 * 1024 * 1024 * 1024) 1000000 65536.

(** ** Buffers *)

(** [bytes[offset..offset + data.len()].copy_from_slice(data)], for an offset
    that leaves room for the data. *)
Definition put (b : bytes) (offset : N) (data : bytes) : bytes :=
  take (N.to_nat offset) b ++ data ++ drop (N.to_nat offset + length data) b.

Definition put_u16 (b : bytes) (offset value : N) : bytes := put b offset (le_encode 2 value).
Definition put_u32 (b : bytes) (offset value : N) : bytes := put b offset (le_encode 4 value).
Definition put_u64 (b : bytes) (offset value : N) : bytes := put b offset (le_encode 8 value).

(** [read_array::<n>] *)
Definition read_array (n : N) (b : bytes) (offset : N) : X bytes :=
  let* end_ := ok_or (checked_add offset n) ArithmeticOverflow in
  ok_or (get_range b offset end_) Truncated.

Definition read_u16 (b : bytes) (offset : N) : X N := let* a := read_array 2 b offset in Ok (le_decode a).
Definition read_u32 (b : bytes) (offset : N) : X N := let* a := read_array 4 b offset in Ok (le_decode a).
Definition read_u64 (b : bytes) (offset : N) : X N := let* a := read_array 8 b offset in Ok (le_decode a).

Definition require_len (b : bytes) (n : N) : X unit :=
  check negb (len b <? n) else Truncated in Ok tt.

Definition require_zero (b : bytes) (name : string) : X unit :=
  check negb (existsb (fun x => negb (bool_decide (x = Byte.x00))) b) else InvalidReserved name in Ok tt.

Definition to_u64 (value : N) : X N := ok_or (try_u64 value) ArithmeticOverflow.
Definition to_usize (value : N) : X N := ok_or (try_u64 value) ArithmeticOverflow.

Definition try_u32 (n : N) : option N := if n <=? U32_MAX then Some n else None.
Definition try_u8 (n : N) : option N := if n <=? 255 then Some n else None.

(** [a.checked_add(b)] on [u16] *)
Definition checked_add_u16 (a b : N) : option N := if a + b <=? U16_MAX then Some (a + b) else None.

(** The range is its two ends. *)
Definition checked_range (offset length total : N) : X (N * N) :=
  let* end_ := ok_or (checked_add offset length) ArithmeticOverflow in
  let* start := to_usize offset in
  let* end_ := to_usize end_ in
  check negb ((total <? end_) || (end_ <? start)) else Truncated in
  Ok (start, end_).

Definition ranges_overlap (l r : N * N) : bool := (l.1 <? r.2) && (r.1 <? l.2).
Definition overlaps_any (range : N * N) (ranges : list (N * N)) : bool := existsb (ranges_overlap range) ranges.

(** [values.windows(2).any(|pair| bad(pair[0], pair[1]))] as an early return. *)
Definition no_window {A} (bad : A -> A -> bool) (e : Exp0002Error) (values : list A) : X unit :=
  check_windows (fun x y => if bad x y then Some e else None) values.

Definition validate_sorted_unique (values : list N) (e : Exp0002Error) : X unit :=
  check negb (bool_decide (head values = Some 0)) else e in
  no_window (fun x y => y <=? x) e values.

Definition canonical_values (values : list N) (e : Exp0002Error) : X (list N) :=
  let values := sort_by N.compare values in
  check negb (bool_decide (head values = Some 0)) else e in
  let* _ := no_window N.eqb e values in
  Ok values.

(** ** [FileHeader] *)

Record FileHeader : Type := mkFileHeader {
  file_id : bytes;
  creation_nonce : bytes;
}.

Definition file_header_encode (h : FileHeader) : bytes :=
  let b := zeros (N.to_nat FILE_HEADER_LEN) in
  let b := put b 0 FILE_MAGIC in
  let b := put_u16 b 8 2 in
  let b := put_u16 b 10 FILE_HEADER_LEN in
  let b := put_u32 b 12 0 in
  let b := put_u32 b 16 PAGE_SIZE in
  let b := put_u16 b 20 DIGEST_SHA256 in
  let b := put b 24 (file_id h) in
  put b 40 (creation_nonce h).

Definition file_header_parse (b : bytes) : X FileHeader :=
  let* _ := require_len b FILE_HEADER_LEN in
  check bool_decide (slice b 0 8 = FILE_MAGIC) else InvalidMagic "file header" in
  let* version := read_u16 b 8 in
  check version =? 2 else InvalidVersion in
  let* header_len := read_u16 b 10 in
  check header_len =? FILE_HEADER_LEN else InvalidLength "file header" in
  let* flags := read_u32 b 12 in
  check flags =? 0 else InvalidFlags "file header" in
  let* page_size := read_u32 b 16 in
  check page_size =? PAGE_SIZE else InvalidLength "directory page" in
  let* digest := read_u16 b 20 in
  check digest =? DIGEST_SHA256 else UnsupportedDigest in
  let* _ := require_zero (slice b 22 24) "file header" in
  let* _ := require_zero (slice b 56 64) "file header" in
  let* file_id := read_array 16 b 24 in
  let* creation_nonce := read_array 16 b 40 in
  Ok (mkFileHeader file_id creation_nonce).

(** ** Objects *)

Record ObjectInput : Type := mkObjectInput {
  oi_object_id : N;
  oi_kind : N;
  oi_payload : bytes;
  oi_is_root : bool;
}.

Record ObjectHeader : Type := mkObjectHeader {
  oh_object_id : N;
  oh_kind : N;
  oh_payload_len : N;
  oh_logical_len : N;
}.

Definition object_header_encode (h : ObjectHeader) : bytes :=
  let b := zeros (N.to_nat OBJECT_HEADER_LEN) in
  let b := put b 0 OBJECT_MAGIC in
  let b := put_u16 b 4 OBJECT_HEADER_LEN in
  let b := put_u16 b 6 (oh_kind h) in
  let b := put_u32 b 8 0 in
  let b := put_u64 b 12 (oh_object_id h) in
  let b := put_u64 b 20 (oh_payload_len h) in
  put_u64 b 28 (oh_logical_len h).

Definition object_header_parse (b : bytes) : X ObjectHeader :=
  let* _ := require_len b OBJECT_HEADER_LEN in
  check bool_decide (slice b 0 4 = OBJECT_MAGIC) else InvalidMagic "object" in
  let* header_len := read_u16 b 4 in
  check header_len =? OBJECT_HEADER_LEN else InvalidLength "object header" in
  let* kind := read_u16 b 6 in
  check negb (kind =? 0) else InvalidObjectKind in
  let* flags := read_u32 b 8 in
  check flags =? 0 else InvalidFlags "object" in
  let* object_id := read_u64 b 12 in
  check negb (object_id =? 0) else InvalidObjectId in
  let* payload_len := read_u64 b 20 in
  let* logical_len := read_u64 b 28 in
  check payload_len =? logical_len else LogicalLengthMismatch in
  let* _ := require_zero (slice b 36 48) "object" in
  Ok (mkObjectHeader object_id kind payload_len logical_len).

(** ** Directory entries *)

Record LeafEntry : Type := mkLeafEntry {
  le_object_id : N;
  le_kind : N;
  le_record_offset : N;
  le_record_len : N;
  le_logical_len : N;
  le_record_digest : bytes;
}.

Definition leaf_encode_into (e : LeafEntry) (b : bytes) : bytes :=
  let b := put_u64 b 0 (le_object_id e) in
  let b := put_u16 b 8 (le_kind e) in
  let b := put_u16 b 10 0 in
  let b := put_u32 b 12 0 in
  let b := put_u64 b 16 (le_record_offset e) in
  let b := put_u64 b 24 (le_record_len e) in
  let b := put_u64 b 32 (le_logical_len e) in
  put b 40 (le_record_digest e).

Definition leaf_parse (b : bytes) : X LeafEntry :=
  let* _ := require_len b LEAF_ENTRY_LEN in
  let* object_id := read_u64 b 0 in
  check negb (object_id =? 0) else InvalidObjectId in
  let* kind := read_u16 b 8 in
  check negb (kind =? 0) else InvalidObjectKind in
  let* flags := read_u16 b 10 in
  check flags =? 0 else InvalidFlags "leaf entry" in
  let* flags := read_u32 b 12 in
  check flags =? 0 else InvalidFlags "leaf entry" in
  let* _ := require_zero (slice b 72 88) "leaf entry" in
  let* record_offset := read_u64 b 16 in
  let* record_len := read_u64 b 24 in
  let* logical_len := read_u64 b 32 in
  let* record_digest := read_array 32 b 40 in
  Ok (mkLeafEntry object_id kind record_offset record_len logical_len record_digest).

Record InternalEntry : Type := mkInternalEntry {
  ie_min_key : N;
  ie_max_key : N;
  ie_page_offset : N;
  ie_page_len : N;
  ie_level : N;
  ie_page_digest : bytes;
}.

Definition internal_encode_into (e : InternalEntry) (b : bytes) : bytes :=
  let b := put_u64 b 0 (ie_min_key e) in
  let b := put_u64 b 8 (ie_max_key e) in
  let b := put_u64 b 16 (ie_page_offset e) in
  let b := put_u32 b 24 (ie_page_len e) in
  let b := put_u16 b 28 (ie_level e) in
  let b := put_u16 b 30 0 in
  put b 32 (ie_page_digest e).

Definition internal_parse (b : bytes) : X InternalEntry :=
  let* _ := require_len b INTERNAL_ENTRY_LEN in
  let* min_key := read_u64 b 0 in
  let* max_key := read_u64 b 8 in
  check negb ((min_key =? 0) || (max_key <? min_key)) else InvalidPageRange in
  let* page_len := read_u32 b 24 in
  check page_len =? PAGE_SIZE else InvalidLength "child page" in
  let* flags := read_u16 b 30 in
  check flags =? 0 else InvalidFlags "internal entry" in
  let* page_offset := read_u64 b 16 in
  let* page_len := read_u32 b 24 in
  let* level := read_u16 b 28 in
  let* page_digest := read_array 32 b 32 in
  Ok (mkInternalEntry min_key max_key page_offset page_len level page_digest).

(** ** Pages *)

Record PageHeader : Type := mkPageHeader {
  ph_kind : N;
  ph_level : N;
  ph_entry_count : N;
  ph_min_key : N;
  ph_max_key : N;
  ph_sequence : N;
}.

Inductive ParsedPage : Type :=
  | PLeaf (header : PageHeader) (entries : list LeafEntry)
  | PInternal (header : PageHeader) (entries : list InternalEntry).

Definition page_header (p : ParsedPage) : PageHeader :=
  match p with PLeaf header _ | PInternal header _ => header end.

Record PageLocator : Type := mkPageLocator {
  pl_min_key : N;
  pl_max_key : N;
  pl_offset : N;
  pl_level : N;
  pl_digest : bytes;
}.

Definition encode_page_header (page : bytes) (kind level entry_count entry_size min_key max_key sequence : N) : X bytes :=
  let page := put page 0 PAGE_MAGIC in
  let page := put page 4 [byte_of_N kind] in
  let page := put page 5 [byte_of_N level] in
  let page := put_u16 page 6 PAGE_HEADER_LEN in
  let* entry_count := ok_or (try_u16 entry_count) ArithmeticOverflow in
  let page := put_u16 page 8 entry_count in
  let* entry_size := ok_or (try_u16 entry_size) ArithmeticOverflow in
  let page := put_u16 page 10 entry_size in
  let page := put_u32 page 12 0 in
  let page := put_u64 page 16 min_key in
  let page := put_u64 page 24 max_key in
  Ok (put_u64 page 32 sequence).

(** [for (index, entry) in entries.iter().enumerate() { let start = ..;
    encode_into(entry, &mut page[start..start + size]) }] *)
Fixpoint put_entries {A} (encode_into : A -> bytes -> bytes) (size start : N) (entries : list A) (page : bytes) : bytes :=
  match entries with
  | [] => page
  | entry :: entries =>
      let page := put page start (encode_into entry (slice page start (start + size))) in
      put_entries encode_into size (start + size) entries page
  end.

Definition encode_leaf_page (entries : list LeafEntry) (sequence : N) : X bytes :=
  check negb (LEAF_CAPACITY <? len entries) else InvalidEntryCount in
  let* first := ok_or (head entries) InvalidEntryCount in
  let* last := ok_or (last entries) InvalidEntryCount in
  let* _ := no_window (fun x y => le_object_id y <=? le_object_id x) UnorderedEntries entries in
  let page := zeros (N.to_nat PAGE_SIZE) in
  let* page := encode_page_header page 1 0 (len entries) LEAF_ENTRY_LEN (le_object_id first) (le_object_id last) sequence in
  Ok (put_entries leaf_encode_into LEAF_ENTRY_LEN PAGE_HEADER_LEN entries page).

(** The entry of a child page. *)
Definition entry_of_locator (child : PageLocator) : InternalEntry :=
  mkInternalEntry (pl_min_key child) (pl_max_key child) (pl_offset child) PAGE_SIZE (pl_level child) (pl_digest child).

Definition encode_internal_page (children : list PageLocator) (sequence level : N) : X bytes :=
  check negb (INTERNAL_CAPACITY <? len children) else InvalidEntryCount in
  let* first := ok_or (head children) InvalidEntryCount in
  let* last := ok_or (last children) InvalidEntryCount in
  check negb ((level =? 0) || (255 <? level)) else InvalidPageLevel in
  let* _ := no_window (fun x y => (pl_min_key y <=? pl_max_key x) || negb (pl_level x =? pl_level y))
              OverlappingRanges children in
  let page := zeros (N.to_nat PAGE_SIZE) in
  let* level := ok_or (try_u8 level) InvalidPageLevel in
  let* page := encode_page_header page 2 level (len children) INTERNAL_ENTRY_LEN (pl_min_key first) (pl_max_key last) sequence in
  Ok (put_entries (fun child => internal_encode_into (entry_of_locator child)) INTERNAL_ENTRY_LEN PAGE_HEADER_LEN children page).

Definition validate_leaf_order (h : PageHeader) (entries : list LeafEntry) : X unit :=
  check bool_decide (le_object_id <$> head entries = Some (ph_min_key h)) else InvalidPageRange in
  check bool_decide (le_object_id <$> last entries = Some (ph_max_key h)) else InvalidPageRange in
  no_window (fun x y => le_object_id y <=? le_object_id x) UnorderedEntries entries.

Definition validate_internal_order (h : PageHeader) (entries : list InternalEntry) : X unit :=
  check bool_decide (ie_min_key <$> head entries = Some (ph_min_key h)) else InvalidPageRange in
  check bool_decide (ie_max_key <$> last entries = Some (ph_max_key h)) else InvalidPageRange in
  check forallb (fun e => bool_decide (checked_add_u16 (ie_level e) 1 = Some (ph_level h))) entries else InvalidPageLevel in
  no_window (fun x y => ie_min_key y <=? ie_max_key x) OverlappingRanges entries.

(** [for index in 0..count { entries.push(parse(&bytes[start..start + size])?) }] *)
Definition parse_entries {A} (parse : bytes -> X A) (size count : N) (b : bytes) : X (list A) :=
  map_result (fun index => let start := PAGE_HEADER_LEN + N.of_nat index * size in parse (slice b start (start + size)))
    (seq 0 (N.to_nat count)).

(** The [match kind] of [parse_page]. *)
Definition parse_page_body (b : bytes) (h : PageHeader) (entry_size : N) : X ParsedPage :=
  let count := ph_entry_count h in
  if ph_kind h =? 1 then
    check ph_level h =? 0 else InvalidPageLevel in
    check entry_size =? LEAF_ENTRY_LEN else InvalidEntrySize in
    check negb (LEAF_CAPACITY <? count) else InvalidEntryCount in
    let used := PAGE_HEADER_LEN + count * LEAF_ENTRY_LEN in
    let* _ := require_zero (slice b used (len b)) "page padding" in
    let* entries := parse_entries leaf_parse LEAF_ENTRY_LEN count b in
    let* _ := validate_leaf_order h entries in
    Ok (PLeaf h entries)
  else if ph_kind h =? 2 then
    check negb (ph_level h =? 0) else InvalidPageLevel in
    check entry_size =? INTERNAL_ENTRY_LEN else InvalidEntrySize in
    check negb (INTERNAL_CAPACITY <? count) else InvalidEntryCount in
    let used := PAGE_HEADER_LEN + count * INTERNAL_ENTRY_LEN in
    let* _ := require_zero (slice b used (len b)) "page padding" in
    let* entries := parse_entries internal_parse INTERNAL_ENTRY_LEN count b in
    let* _ := validate_internal_order h entries in
    Ok (PInternal h entries)
  else Err InvalidPageKind.

Definition parse_page (b : bytes) : X ParsedPage :=
  check len b =? PAGE_SIZE else InvalidLength "page" in
  check bool_decide (slice b 0 4 = PAGE_MAGIC) else InvalidMagic "page" in
  let kind := le_decode (slice b 4 5) in
  let level := le_decode (slice b 5 6) in
  let* header_len := read_u16 b 6 in
  check header_len =? PAGE_HEADER_LEN else InvalidLength "page header" in
  let* count := read_u16 b 8 in
  check negb (count =? 0) else InvalidEntryCount in
  let* entry_size := read_u16 b 10 in
  let* flags := read_u32 b 12 in
  check flags =? 0 else InvalidFlags "page" in
  let* min_key := read_u64 b 16 in
  let* max_key := read_u64 b 24 in
  check negb ((min_key =? 0) || (max_key <? min_key)) else InvalidPageRange in
  let* _ := require_zero (slice b 40 64) "page header" in
  let* sequence := read_u64 b 32 in
  parse_page_body b (mkPageHeader kind level count min_key max_key sequence) entry_size.

(** ** [Snapshot] *)

Record Snapshot : Type := mkSnapshot {
  sn_sequence : N;
  sn_parent_snapshot_digest : bytes;
  sn_previous_footer_offset : N;
  sn_directory_root_offset : N;
  sn_directory_root_len : N;
  sn_directory_root_level : N;
  sn_directory_root_digest : bytes;
  sn_roots : list N;
  sn_required_capabilities : list N;
  sn_optional_capabilities : list N;
}.

(** The checks on the three arrays, shared by [encode] and [parse]. *)
Definition validate_arrays (roots required optional : list N) : X unit :=
  let* _ := validate_sorted_unique roots InvalidRoot in
  let* _ := validate_sorted_unique required InvalidCapabilitySet in
  let* _ := validate_sorted_unique optional InvalidCapabilitySet in
  check negb (existsb (fun value => is_ok (binary_search_by_key (fun x => x) optional value)) required)
    else InvalidCapabilitySet in
  Ok tt.

(** [put_u64(&mut bytes, cursor, *value); cursor += 8;] *)
Fixpoint put_values (b : bytes) (cursor : N) (values : list N) : bytes :=
  match values with
  | [] => b
  | value :: values => put_values (put_u64 b cursor value) (cursor + 8) values
  end.

Definition snapshot_encode (s : Snapshot) : X bytes :=
  let* _ := validate_arrays (sn_roots s) (sn_required_capabilities s) (sn_optional_capabilities s) in
  let* count := ok_or (checked_add (len (sn_roots s)) (len (sn_required_capabilities s))) ArithmeticOverflow in
  let* count := ok_or (checked_add count (len (sn_optional_capabilities s))) ArithmeticOverflow in
  let* array_bytes := ok_or (checked_mul count 8) ArithmeticOverflow in
  let* total_len := ok_or (checked_add SNAPSHOT_HEADER_LEN array_bytes) ArithmeticOverflow in
  let b := zeros (N.to_nat total_len) in
  let b := put b 0 SNAPSHOT_MAGIC in
  let b := put_u16 b 4 SNAPSHOT_HEADER_LEN in
  let b := put_u16 b 6 0 in
  let b := put_u64 b 8 (sn_sequence s) in
  let b := put b 16 (sn_parent_snapshot_digest s) in
  let b := put_u64 b 48 (sn_previous_footer_offset s) in
  let b := put_u64 b 56 (sn_directory_root_offset s) in
  let b := put_u32 b 64 (sn_directory_root_len s) in
  let b := put_u16 b 68 (sn_directory_root_level s) in
  let b := put_u16 b 70 DIGEST_SHA256 in
  let b := put b 72 (sn_directory_root_digest s) in
  let* n := ok_or (try_u32 (len (sn_roots s))) ArithmeticOverflow in
  let b := put_u32 b 104 n in
  let* n := ok_or (try_u32 (len (sn_required_capabilities s))) ArithmeticOverflow in
  let b := put_u32 b 108 n in
  let* n := ok_or (try_u32 (len (sn_optional_capabilities s))) ArithmeticOverflow in
  let b := put_u32 b 112 n in
  Ok (put_values b SNAPSHOT_HEADER_LEN (sn_roots s ++ sn_required_capabilities s ++ sn_optional_capabilities s)).

(** [read_u64_array]: the values, and the cursor after them. *)
Fixpoint read_values (b : bytes) (cursor : N) (count : nat) : X (list N * N) :=
  match count with
  | O => Ok ([], cursor)
  | S count =>
      let* value := read_u64 b cursor in
      let* cursor := ok_or (checked_add cursor 8) ArithmeticOverflow in
      let* (values, cursor) := read_values b cursor count in
      Ok (value :: values, cursor)
  end.

Definition read_u64_array (b : bytes) (cursor count : N) : X (list N * N) := read_values b cursor (N.to_nat count).

Definition snapshot_parse (b : bytes) (limits : ValidationLimits) : X Snapshot :=
  let* _ := require_len b SNAPSHOT_HEADER_LEN in
  check bool_decide (slice b 0 4 = SNAPSHOT_MAGIC) else InvalidMagic "snapshot" in
  let* header_len := read_u16 b 4 in
  check header_len =? SNAPSHOT_HEADER_LEN else InvalidLength "snapshot header" in
  let* flags := read_u16 b 6 in
  check flags =? 0 else InvalidFlags "snapshot" in
  let* digest := read_u16 b 70 in
  check digest =? DIGEST_SHA256 else UnsupportedDigest in
  let* root_len := read_u32 b 64 in
  check root_len =? PAGE_SIZE else InvalidLength "directory root" in
  let* _ := require_zero (slice b 116 160) "snapshot" in
  let* root_count := read_u32 b 104 in
  let* required_count := read_u32 b 108 in
  let* optional_count := read_u32 b 112 in
  check negb (max_roots limits <? root_count) else ResourceLimit "snapshot roots" in
  let* capabilities := ok_or (checked_add required_count optional_count) ArithmeticOverflow in
  check negb (max_capabilities limits <? capabilities) else ResourceLimit "capabilities" in
  let* count := ok_or (checked_add root_count required_count) ArithmeticOverflow in
  let* count := ok_or (checked_add count optional_count) ArithmeticOverflow in
  let* array_bytes := ok_or (checked_mul count 8) ArithmeticOverflow in
  let* expected_len := ok_or (checked_add SNAPSHOT_HEADER_LEN array_bytes) ArithmeticOverflow in
  check len b =? expected_len else InvalidLength "snapshot" in
  let* expected_len := to_u64 expected_len in
  check negb (max_snapshot_bytes limits <? expected_len) else ResourceLimit "snapshot bytes" in
  let* (roots, cursor) := read_u64_array b SNAPSHOT_HEADER_LEN root_count in
  let* (required, cursor) := read_u64_array b cursor required_count in
  let* (optional, cursor) := read_u64_array b cursor optional_count in
  let* _ := validate_arrays roots required optional in
  let* sequence := read_u64 b 8 in
  let* parent_snapshot_digest := read_array 32 b 16 in
  let* previous_footer_offset := read_u64 b 48 in
  let* directory_root_offset := read_u64 b 56 in
  let* directory_root_len := read_u32 b 64 in
  let* directory_root_level := read_u16 b 68 in
  let* directory_root_digest := read_array 32 b 72 in
  Ok (mkSnapshot sequence parent_snapshot_digest previous_footer_offset directory_root_offset directory_root_len
        directory_root_level directory_root_digest roots required optional).

(** ** [Footer] *)

Record Footer : Type := mkFooter {
  ft_commit_start : N;
  ft_commit_len : N;
  ft_snapshot_offset : N;
  ft_snapshot_len : N;
  ft_sequence : N;
  ft_previous_footer_offset : N;
  ft_record_count : N;
  ft_snapshot_digest : bytes;
  ft_commit_digest : bytes;
}.

Definition footer_semantics (f : Footer) : bytes :=
  let b := zeros 104 in
  let b := put_u16 b 0 FOOTER_LEN in
  let b := put_u16 b 2 2 in
  let b := put_u32 b 4 0 in
  let b := put_u64 b 8 (ft_commit_start f) in
  let b := put_u64 b 16 (ft_commit_len f) in
  let b := put_u64 b 24 (ft_snapshot_offset f) in
  let b := put_u64 b 32 (ft_snapshot_len f) in
  let b := put_u64 b 40 (ft_sequence f) in
  let b := put_u64 b 48 (ft_previous_footer_offset f) in
  let b := put_u64 b 56 (ft_record_count f) in
  let b := put_u16 b 64 DIGEST_SHA256 in
  put b 72 (ft_snapshot_digest f).

Definition footer_encode (f : Footer) : bytes :=
  let b := zeros (N.to_nat FOOTER_LEN) in
  let b := put b 0 FOOTER_MAGIC in
  let b := put b 8 (footer_semantics f) in
  put b 112 (ft_commit_digest f).

Definition footer_parse (b : bytes) : X Footer :=
  let* _ := require_len b FOOTER_LEN in
  check len b =? FOOTER_LEN else InvalidLength "footer" in
  check bool_decide (slice b 0 8 = FOOTER_MAGIC) else InvalidMagic "footer" in
  let* footer_len := read_u16 b 8 in
  check footer_len =? FOOTER_LEN else InvalidLength "footer" in
  let* version := read_u16 b 10 in
  check version =? 2 else InvalidVersion in
  let* flags := read_u32 b 12 in
  check flags =? 0 else InvalidFlags "footer" in
  let* digest := read_u16 b 72 in
  check digest =? DIGEST_SHA256 else UnsupportedDigest in
  let* _ := require_zero (slice b 74 80) "footer" in
  let* _ := require_zero (slice b 144 160) "footer" in
  let* commit_start := read_u64 b 16 in
  let* commit_len := read_u64 b 24 in
  let* snapshot_offset := read_u64 b 32 in
  let* snapshot_len := read_u64 b 40 in
  let* sequence := read_u64 b 48 in
  let* previous_footer_offset := read_u64 b 56 in
  let* record_count := read_u64 b 64 in
  let* snapshot_digest := read_array 32 b 80 in
  let* commit_digest := read_array 32 b 112 in
  Ok (mkFooter commit_start commit_len snapshot_offset snapshot_len sequence previous_footer_offset record_count
        snapshot_digest commit_digest).
