(* ===== verification/Exp0002File.v ===== *)
(** [crates/ucof-experiments/src/exp0002.rs], whole files: building the first
    commit and an appended one, and the strict validation of the last commit
    with its directory and objects. *)

From Stdlib Require Import Strings.Byte Strings.String NArith ZArith Lia.
From stdpp Require Import base list gmap strings sorting.
From S2P Require Import Prelude Order Digest Exp0002.

Local Open Scope N_scope.

Record VerifiedExp0002 : Type := mkVerified {
  v_header : FileHeader;
  v_footer_offset : N;
  v_footer : Footer;
  v_snapshot : Snapshot;
  v_objects : list LeafEntry;
  v_pages_verified : N;
  v_bytes_hashed : N;
}.

Record DirectoryValidation : Type := mkDirectoryValidation {
  dv_entries : list LeafEntry;
  dv_page_ranges : list (N * N);
  dv_pages : N;
}.

(** [struct Expected] of [validate_directory] *)
Record Expected : Type := mkExpected {
  ex_offset : N;
  ex_digest : bytes;
  ex_level : N;
  ex_min_key : N;
  ex_max_key : N;
  ex_depth : N;
}.

Section File.
Context `{H : Sha256}.

Definition digest_bytes (domain b : bytes) : bytes :=
  hasher_finalize (hasher_update (hasher_update hasher_new domain) b).

Definition digest_commit (commit_bytes : bytes) (f : Footer) : bytes :=
  hasher_finalize (hasher_update (hasher_update (hasher_update hasher_new COMMIT_DOMAIN) commit_bytes) (footer_semantics f)).

(** ** Writing *)

(** One object of [write_object_records]: its record at the end of the file,
    and its entry. *)
Definition write_object_record (b : bytes) (object : ObjectInput) : X (bytes * LeafEntry) :=
  let* payload_len := to_u64 (len (oi_payload object)) in
  let header := object_header_encode (mkObjectHeader (oi_object_id object) (oi_kind object) payload_len payload_len) in
  let* record_offset := to_u64 (len b) in
  let digest :=
    hasher_finalize (hasher_update (hasher_update (hasher_update hasher_new OBJECT_DOMAIN) header) (oi_payload object)) in
  let b := b ++ header ++ oi_payload object in
  let* record_len := ok_or (checked_add OBJECT_HEADER_LEN payload_len) ArithmeticOverflow in
  Ok (b, mkLeafEntry (oi_object_id object) (oi_kind object) record_offset record_len payload_len digest).

(** The loop over the sorted objects. *)
Fixpoint write_records (b : bytes) (previous_id : option N) (objects : list ObjectInput) : X (bytes * list LeafEntry) :=
  match objects with
  | [] => Ok (b, [])
  | object :: objects =>
      check negb (oi_object_id object =? 0) else InvalidObjectId in
      check negb (oi_kind object =? 0) else InvalidObjectKind in
      check negb (bool_decide (previous_id = Some (oi_object_id object))) else DuplicateObjectId (oi_object_id object) in
      let* (b, entry) := write_object_record b object in
      let* (b, entries) := write_records b (Some (oi_object_id object)) objects in
      Ok (b, entry :: entries)
  end.

Definition write_object_records (b : bytes) (objects : list ObjectInput) : X (bytes * list LeafEntry) :=
  write_records b None (sort_by (cmp_on oi_object_id N.compare) objects).

(** The page of a chunk of entries, at the end of the file, and its locator. *)
Definition push_leaf (sequence : N) (s : bytes * list PageLocator) (chunk : list LeafEntry) : X (bytes * list PageLocator) :=
  let* page := encode_leaf_page chunk sequence in
  let* offset := to_u64 (len s.1) in
  let digest := digest_bytes PAGE_DOMAIN page in
  let* first := ok_or (head chunk) InvalidEntryCount in
  let* last := ok_or (last chunk) InvalidEntryCount in
  Ok (s.1 ++ page, s.2 ++ [mkPageLocator (le_object_id first) (le_object_id last) offset 0 digest]).

Definition push_internal (sequence : N) (s : bytes * list PageLocator) (chunk : list PageLocator) : X (bytes * list PageLocator) :=
  let* first := ok_or (head chunk) InvalidEntryCount in
  let* parent_level := ok_or (checked_add_u16 (pl_level first) 1) ArithmeticOverflow in
  let* page := encode_internal_page chunk sequence parent_level in
  let* offset := to_u64 (len s.1) in
  let digest := digest_bytes PAGE_DOMAIN page in
  let* last := ok_or (last chunk) InvalidEntryCount in
  Ok (s.1 ++ page, s.2 ++ [mkPageLocator (pl_min_key first) (pl_max_key last) offset parent_level digest]).

(** [while level.len() > 1]; every level is shorter than the one below. *)
Fixpoint write_levels (fuel : nat) (sequence : N) (b : bytes) (level : list PageLocator) : X (bytes * list PageLocator) :=
  match fuel with
  | O => Err PageCycle
  | S fuel =>
      if (1 <? length level)%nat then
        let* (b, next) := fold_result (push_internal sequence) (chunks INTERNAL_CAPACITY level) (b, []) in
        write_levels fuel sequence b next
      else Ok (b, level)
  end.

Definition write_directory (b : bytes) (entries : list LeafEntry) (sequence : N) : X (bytes * PageLocator) :=
  check negb (len entries =? 0) else EmptyObjectSet in
  let* (b, level) := fold_result (push_leaf sequence) (chunks LEAF_CAPACITY entries) (b, []) in
  let* (b, level) := write_levels (S (length level)) sequence b level in
  let* root := ok_or (last level) EmptyObjectSet in
  Ok (b, root).

Definition finish_commit (b : bytes) (entries : list LeafEntry) (roots : list N) (sequence : N)
    (parent_snapshot_digest : bytes) (previous_footer_offset commit_start record_count : N) : X bytes :=
  let* (b, root) := write_directory b entries sequence in
  let snapshot := mkSnapshot sequence parent_snapshot_digest previous_footer_offset (pl_offset root) PAGE_SIZE
                    (pl_level root) (pl_digest root) roots [] [] in
  let* snapshot_bytes := snapshot_encode snapshot in
  let* snapshot_offset := to_u64 (len b) in
  let snapshot_digest := digest_bytes SNAPSHOT_DOMAIN snapshot_bytes in
  let b := b ++ snapshot_bytes in
  let* footer_offset := to_u64 (len b) in
  let* commit_len := ok_or (checked_sub footer_offset commit_start) InvalidCommitRange in
  let* snapshot_len := to_u64 (len snapshot_bytes) in
  let footer_with := mkFooter commit_start commit_len snapshot_offset snapshot_len sequence previous_footer_offset
                       record_count snapshot_digest in
  let* start := to_usize commit_start in
  let* end_ := to_usize footer_offset in
  let commit_digest := digest_commit (slice b start end_) (footer_with (zeros 32)) in
  Ok (b ++ footer_encode (footer_with commit_digest)).

Definition build_commit (b : bytes) (header : option FileHeader) (previous : option VerifiedExp0002)
    (objects : list ObjectInput) : X bytes :=
  check negb (len objects =? 0) else EmptyObjectSet in
  let* header := ok_or header InvalidParent in
  let b := b ++ file_header_encode header in
  let roots := oi_object_id <$> filter (fun object => oi_is_root object = true) objects in
  let* roots := canonical_values roots InvalidRoot in
  check negb (len roots =? 0) else NoRootObjects in
  let* (b, entries) := write_object_records b objects in
  let* (sequence, parent_digest, previous_footer_offset, commit_start) :=
    match previous with
    | None => Ok (0, zeros 32, ABSENT_OFFSET, 0)
    | Some v =>
        let* sequence := ok_or (checked_add (sn_sequence (v_snapshot v)) 1) ArithmeticOverflow in
        let* commit_start := to_u64 (v_footer_offset v + FOOTER_LEN) in
        Ok (sequence, ft_snapshot_digest (v_footer v), v_footer_offset v, commit_start)
    end in
  let* record_count := to_u64 (len entries) in
  finish_commit b entries roots sequence parent_digest previous_footer_offset commit_start record_count.

Definition build_genesis (header : FileHeader) (objects : list ObjectInput) : X bytes :=
  build_commit [] (Some header) None objects.

(** ** Validation *)

Definition validate_parent_link (b : bytes) (footer_offset : N) (f : Footer) (s : Snapshot) : X unit :=
  if ft_previous_footer_offset f =? ABSENT_OFFSET then
    check (ft_sequence f =? 0) && (ft_commit_start f =? 0) && bool_decide (sn_parent_snapshot_digest s = zeros 32)
      else InvalidParent in
    Ok tt
  else
    check ft_previous_footer_offset f <? footer_offset else InvalidPreviousFooter in
    let* (start, end_) := checked_range (ft_previous_footer_offset f) FOOTER_LEN (len b) in
    let* footer_end := to_usize footer_offset in
    check negb (footer_end <? end_) else InvalidPreviousFooter in
    let* previous := footer_parse (slice b start end_) in
    check bool_decide (ft_snapshot_digest previous = sn_parent_snapshot_digest s) else InvalidParent in
    let* next_sequence := ok_or (checked_add (ft_sequence previous) 1) ArithmeticOverflow in
    check next_sequence =? ft_sequence f else InvalidParent in
    let* previous_end := ok_or (checked_add (ft_previous_footer_offset f) FOOTER_LEN) ArithmeticOverflow in
    check ft_commit_start f =? previous_end else InvalidParent in
    Ok tt.

Definition add_hashed (hashed amount : N) (limits : ValidationLimits) : X N :=
  let* hashed := ok_or (checked_add hashed amount) ArithmeticOverflow in
  check negb (max_hashed_bytes limits <? hashed) else ResourceLimit "hashed bytes" in
  Ok hashed.

(** What [validate_directory] has found so far. *)
Record Walk : Type := mkWalk {
  wk_visited : gset N;
  wk_entries : list LeafEntry;
  wk_page_ranges : list (N * N);
  wk_hashed : N;
}.

(** One page: the walk after it, and what it pushes on the stack. *)
Definition visit_page (b : bytes) (s : Snapshot) (limits : ValidationLimits) (e : Expected) (w : Walk) : X (Walk * list Expected) :=
  check negb (max_page_depth limits <? ex_depth e) else ResourceLimit "page depth" in
  check negb (bool_decide (ex_offset e ∈ wk_visited w)) else PageCycle in
  let visited := {[ex_offset e]} ∪ wk_visited w in
  check negb (max_pages limits <? N.of_nat (size visited)) else ResourceLimit "pages" in
  let* (start, end_) := checked_range (ex_offset e) PAGE_SIZE (len b) in
  let page_bytes := slice b start end_ in
  let* hashed := add_hashed (wk_hashed w) PAGE_SIZE limits in
  check bool_decide (digest_bytes PAGE_DOMAIN page_bytes = ex_digest e) else DigestMismatch "page" in
  let* page := parse_page page_bytes in
  let h := page_header page in
  check negb (negb (ph_level h =? ex_level e)
              || (negb (ex_min_key e =? 0) && negb (ph_min_key h =? ex_min_key e))
              || (negb (ex_max_key e =? U64_MAX) && negb (ph_max_key h =? ex_max_key e))
              || negb (ph_sequence h =? sn_sequence s)) else InvalidPageReference in
  let page_ranges := wk_page_ranges w ++ [(start, end_)] in
  match page with
  | PLeaf _ page_entries =>
      let entries := wk_entries w ++ page_entries in
      check negb (max_objects limits <? len entries) else ResourceLimit "objects" in
      Ok (mkWalk visited entries page_ranges hashed, [])
  | PInternal _ children =>
      Ok (mkWalk visited (wk_entries w) page_ranges hashed,
          (fun child => mkExpected (ie_page_offset child) (ie_page_digest child) (ie_level child)
                          (ie_min_key child) (ie_max_key child) (ex_depth e + 1)) <$> children)
  end.

(** The stack is a list whose head is the top: the children are pushed in
    reverse, so the first is on top. Every page starts at a new offset of the
    file. *)
Fixpoint walk_loop (fuel : nat) (b : bytes) (s : Snapshot) (limits : ValidationLimits) (stack : list Expected) (w : Walk) : X Walk :=
  match fuel with
  | O => Err PageCycle
  | S fuel =>
      match stack with
      | [] => Ok w
      | e :: stack =>
          let* (w, pushed) := visit_page b s limits e w in
          walk_loop fuel b s limits (pushed ++ stack) w
      end
  end.

Definition validate_directory (b : bytes) (s : Snapshot) (limits : ValidationLimits) (hashed : N) : X (DirectoryValidation * N) :=
  let root := mkExpected (sn_directory_root_offset s) (sn_directory_root_digest s) (sn_directory_root_level s) 0 U64_MAX 1 in
  let* w := walk_loop (S (S (length b))) b s limits [root] (mkWalk ∅ [] [] hashed) in
  let entries := sort_by (cmp_on le_object_id N.compare) (wk_entries w) in
  let* _ := check_windows (fun x y => if le_object_id y <=? le_object_id x then Some (DuplicateObjectId (le_object_id y)) else None)
              entries in
  Ok (mkDirectoryValidation entries (wk_page_ranges w) (N.of_nat (size (wk_visited w))), wk_hashed w).

(** One entry of [validate_objects], with the ranges, the payload total and the
    hashed bytes so far. *)
Definition validate_object (b : bytes) (page_ranges : list (N * N)) (snapshot_range footer_range : N * N)
    (limits : ValidationLimits) (s : list (N * N) * N * N) (entry : LeafEntry) : X (list (N * N) * N * N) :=
  let '(physical, payload_total, hashed) := s in
  check negb (le_record_len entry <? OBJECT_HEADER_LEN) else InvalidLength "object record" in
  let* (start, end_) := checked_range (le_record_offset entry) (le_record_len entry) (len b) in
  check negb (overlaps_any (start, end_) page_ranges || ranges_overlap (start, end_) snapshot_range
              || ranges_overlap (start, end_) footer_range) else PhysicalOverlap in
  let* header := object_header_parse (slice b start (start + OBJECT_HEADER_LEN)) in
  let* expected_len := ok_or (checked_add OBJECT_HEADER_LEN (oh_payload_len header)) ArithmeticOverflow in
  check (oh_object_id header =? le_object_id entry) && (oh_kind header =? le_kind entry)
        && (oh_logical_len header =? le_logical_len entry) && (expected_len =? le_record_len entry)
    else InvalidLength "object locator" in
  let* payload_total := ok_or (checked_add payload_total (oh_payload_len header)) ArithmeticOverflow in
  check negb (max_payload_bytes limits <? payload_total) else ResourceLimit "payload bytes" in
  let* hashed := add_hashed hashed (le_record_len entry) limits in
  check bool_decide (digest_bytes OBJECT_DOMAIN (slice b start end_) = le_record_digest entry) else DigestMismatch "object" in
  Ok (physical ++ [(start, end_)], payload_total, hashed).

Definition validate_objects (b : bytes) (entries : list LeafEntry) (page_ranges : list (N * N))
    (snapshot_range footer_range : N * N) (limits : ValidationLimits) (hashed : N) : X N :=
  let* s := fold_result (validate_object b page_ranges snapshot_range footer_range limits) entries ([], 0, hashed) in
  let '(physical, _, hashed) := s in
  let physical := sort_by (cmp_on fst N.compare) physical in
  let* _ := no_window ranges_overlap PhysicalOverlap physical in
  Ok hashed.

Definition validate_strict (b : bytes) (limits : ValidationLimits) : X VerifiedExp0002 :=
  let* file_len := to_u64 (len b) in
  check negb (max_file_bytes limits <? file_len) else ResourceLimit "file bytes" in
  check negb (len b <? FILE_HEADER_LEN + FOOTER_LEN) else Truncated in
  let* header := file_header_parse (slice b 0 FILE_HEADER_LEN) in
  let* footer_offset := ok_or (checked_sub (len b) FOOTER_LEN) Truncated in
  let* footer_offset := to_u64 footer_offset in
  let* footer := footer_parse (slice b footer_offset (len b)) in
  let* expected_commit_end := ok_or (checked_add (ft_commit_start footer) (ft_commit_len footer)) ArithmeticOverflow in
  check negb (max_commit_bytes limits <? ft_commit_len footer) else ResourceLimit "commit bytes" in
  check expected_commit_end =? footer_offset else InvalidCommitRange in
  check negb (ft_snapshot_offset footer <? ft_commit_start footer) else InvalidCommitRange in
  let* (sn_start, sn_end) := checked_range (ft_snapshot_offset footer) (ft_snapshot_len footer) (len b) in
  check negb (footer_offset <? sn_end) else InvalidCommitRange in
  let snapshot_bytes := slice b sn_start sn_end in
  check bool_decide (digest_bytes SNAPSHOT_DOMAIN snapshot_bytes = ft_snapshot_digest footer) else DigestMismatch "snapshot" in
  let* snapshot := snapshot_parse snapshot_bytes limits in
  check (sn_sequence snapshot =? ft_sequence footer)
        && (sn_previous_footer_offset snapshot =? ft_previous_footer_offset footer) else InvalidSnapshotSequence in
  let* _ := validate_parent_link b footer_offset footer snapshot in
  let hashed := ft_commit_len footer in
  check negb (max_hashed_bytes limits <? hashed) else ResourceLimit "hashed bytes" in
  let* (start, end_) := checked_range (ft_commit_start footer) (ft_commit_len footer) (len b) in
  check bool_decide (digest_commit (slice b start end_) footer = ft_commit_digest footer) else DigestMismatch "commit" in
  let* (directory, hashed) := validate_directory b snapshot limits hashed in
  let* hashed := validate_objects b (dv_entries directory) (dv_page_ranges directory) (sn_start, sn_end)
                   (footer_offset, len b) limits hashed in
  check negb (len (sn_roots snapshot) =? 0) else InvalidRoot in
  check forallb (fun root => bool_decide (root ∈ le_object_id <$> dv_entries directory)) (sn_roots snapshot) else InvalidRoot in
  Ok (mkVerified header footer_offset footer snapshot (dv_entries directory) (dv_pages directory) hashed).

(** ** Appending *)

Definition build_append (previous_file : bytes) (new_objects : list ObjectInput) (roots : list N) (limits : ValidationLimits) : X bytes :=
  let* previous := validate_strict previous_file limits in
  let* roots := canonical_values roots InvalidRoot in
  check negb (len roots =? 0) else NoRootObjects in
  let* seen := insert_all DuplicateObjectId (oi_object_id <$> new_objects) (list_to_set (le_object_id <$> v_objects previous)) in
  let* commit_start := to_u64 (len previous_file) in
  let* (b, added) := write_object_records previous_file new_objects in
  let existing := sort_by (cmp_on le_object_id N.compare) (v_objects previous ++ added) in
  check forallb (fun root => bool_decide (root ∈ le_object_id <$> existing)) roots else InvalidRoot in
  let* sequence := ok_or (checked_add (sn_sequence (v_snapshot previous)) 1) ArithmeticOverflow in
  let* record_count := to_u64 (N.of_nat (size seen) - len (v_objects previous)) in
  finish_commit b existing roots sequence (ft_snapshot_digest (v_footer previous)) (v_footer_offset previous)
    commit_start record_count.
End File.
