(* ===== verification/Exp0002Pages.v ===== *)
(** The codecs of EXP-0002: reads of what was put in a buffer, and for each
    record and page of the format the fields a parse finds, the bytes an
    encoding has, and that the two determine each other. *)

From Stdlib Require Import Strings.Byte Strings.String NArith ZArith Lia.
From stdpp Require Import base list gmap strings sorting.
From S2P Require Import Prelude Order Digest Exp0002.

Local Open Scope N_scope.

(** ** Reading and writing *)

Section Buffers.
Implicit Types b l r pre mid post : bytes.

Lemma exp2_put_length b offset data : offset + len data <= len b -> length (put b offset data) = length b.
Proof. unfold put, len. intros Hb. rewrite !length_app, length_take, length_drop. lia. Qed.

Lemma put_len b offset data : offset + len data <= len b -> len (put b offset data) = len b.
Proof. intros Hb. unfold len. by rewrite exp2_put_length. Qed.

Lemma put_app l r offset data : offset + len data <= len l -> put (l ++ r) offset data = put l offset data ++ r.
Proof.
  unfold put, len. intros Hb. rewrite take_app_le by lia. rewrite drop_app_le by lia. by rewrite <- !app_assoc.
Qed.

Lemma put_middle pre mid post data : length mid = length data -> put (pre ++ mid ++ post) (len pre) data = pre ++ data ++ post.
Proof.
  intros Hl. unfold put. rewrite len_to_nat, take_app_length. f_equal. f_equal.
  rewrite <- Hl, <- length_app, app_assoc. apply drop_app_length.
Qed.

Lemma read_array_Ok n b offset a : offset + n <= U64_MAX ->
  read_array n b offset = Ok a <-> offset + n <= len b /\ slice b offset (offset + n) = a.
Proof.
  intros Hmax. unfold read_array. rewrite checked_add_fits by done. cbn [ok_or]. rewrite ok_or_Ok. unfold get_range.
  rewrite (proj2 (N.leb_le offset (offset + n))) by lia. cbn [andb].
  destruct (N.leb_spec (offset + n) (len b)); [|naive_solver lia]. unfold slice. split; [intros [= <-]; done|by intros [_ <-]].
Qed.

(** A field of [k] bytes read as an integer. *)
Lemma read_le_Ok (k : nat) (read : bytes -> N -> X N) b offset v :
  (forall b o, read b o = let* a := read_array (N.of_nat k) b o in Ok (le_decode a)) -> offset + N.of_nat k <= U64_MAX ->
  read b offset = Ok v <->
  offset + N.of_nat k <= len b /\ slice b offset (offset + N.of_nat k) = le_encode k v /\ v < 256 ^ N.of_nat k.
Proof.
  intros Hread Hmax. rewrite Hread. split.
  - intros Hr. step_result Hr. injection Hr as <-. apply read_array_Ok in Heqr as [Hb <-]; [|done].
    pose proof (slice_len b offset (offset + N.of_nat k) ltac:(lia) Hb) as Hl.
    assert (Hlen : length (slice b offset (offset + N.of_nat k)) = k) by (unfold len in Hl; lia).
    split_and!; [done| |].
    + pose proof (le_encode_decode (slice b offset (offset + N.of_nat k))) as E. by rewrite Hlen in E.
    + pose proof (le_decode_bound (slice b offset (offset + N.of_nat k))) as E. unfold len in E. by rewrite Hlen in E.
  - intros (Hb & Hs & Hv). rewrite (proj2 (read_array_Ok _ b offset _ Hmax) (conj Hb Hs)). by rewrite le_decode_encode_small.
Qed.

Lemma read_u16_Ok b offset v : offset + 2 <= U64_MAX ->
  read_u16 b offset = Ok v <-> offset + 2 <= len b /\ slice b offset (offset + 2) = le_encode 2 v /\ v <= U16_MAX.
Proof. intros Hmax. rewrite (read_le_Ok 2 read_u16) by done. unfold U16_MAX. simpl. by split; intros (? & ? & ?); split_and!; try done; lia. Qed.

Lemma read_u32_Ok b offset v : offset + 4 <= U64_MAX ->
  read_u32 b offset = Ok v <-> offset + 4 <= len b /\ slice b offset (offset + 4) = le_encode 4 v /\ v <= U32_MAX.
Proof. intros Hmax. rewrite (read_le_Ok 4 read_u32) by done. unfold U32_MAX. simpl. by split; intros (? & ? & ?); split_and!; try done; lia. Qed.

Lemma read_u64_Ok b offset v : offset + 8 <= U64_MAX ->
  read_u64 b offset = Ok v <-> offset + 8 <= len b /\ slice b offset (offset + 8) = le_encode 8 v /\ v <= U64_MAX.
Proof. intros Hmax. rewrite (read_le_Ok 8 read_u64) by done. unfold U64_MAX. simpl. by split; intros (? & ? & ?); split_and!; try done; lia. Qed.

Lemma require_len_Ok b n u : require_len b n = Ok u <-> n <= len b.
Proof. unfold require_len. destruct (N.ltb_spec (len b) n); destruct u; naive_solver lia. Qed.

Lemma require_zero_Ok b name u : require_zero b name = Ok u <-> b = zeros (length b).
Proof.
  unfold require_zero. assert (Hz : negb (existsb (fun x => negb (bool_decide (x = Byte.x00))) b) = true <-> b = zeros (length b)).
  { unfold zeros. induction b as [|x b IH]; [done|]. cbn [existsb length replicate]. case_bool_decide as E; cbn [negb orb].
    - rewrite IH. split; [by intros <-; subst|by intros [= <-]]. 
    - split; [done|]. by intros [= ? _]. }
  destruct (negb _), u; naive_solver.
Qed.

Lemma exp2_range_Ok offset n total s e :
  checked_range offset n total = Ok (s, e) <-> s = offset /\ e = offset + n /\ offset + n <= total /\ offset + n <= U64_MAX.
Proof.
  unfold checked_range, to_usize. split.
  - intros Hr. step_result Hr. bool_facts. option_facts. injection Hr as <- <-. lia.
  - intros (-> & -> & Ht & Hmax). rewrite checked_add_fits by done. cbn [ok_or]. rewrite !try_u64_fits by lia. cbn [ok_or].
    rewrite (proj2 (N.ltb_ge total (offset + n))) by lia. by rewrite (proj2 (N.ltb_ge (offset + n) offset)) by lia.
Qed.

Lemma slice_app_l l r a e : e <= len l -> slice (l ++ r) a e = slice l a e.
Proof.
  intros He. unfold slice, len in *. destruct (decide (N.to_nat a <= length l)%nat).
  - rewrite drop_app_le by lia. apply take_app_le. rewrite length_drop. lia.
  - replace (N.to_nat (e - a)) with 0%nat by lia. done.
Qed.

Lemma slice_app_r l r a e : len l <= a -> slice (l ++ r) a e = slice r (a - len l) (e - len l).
Proof.
  intros Ha. unfold slice, len in *. rewrite drop_app_ge by lia. f_equal; [|f_equal]; lia.
Qed.

Lemma slice_zeros n a e : e <= N.of_nat n -> slice (zeros n) a e = zeros (N.to_nat (e - a)).
Proof. intros He. unfold slice, zeros. rewrite drop_replicate, take_replicate. f_equal. lia. Qed.

Lemma subslice b s t a e : t <= len b -> e <= t - s -> slice (slice b s t) a e = slice b (s + a) (s + e).
Proof.
  intros Ht He. unfold slice, len in *. rewrite skipn_firstn_comm, drop_drop, take_take.
  f_equal; [lia|f_equal; lia].
Qed.

(** Buffers that agree between consecutive cuts, from [a] to the end. *)
Fixpoint agree_from (a : N) (cuts : list N) (b b' : bytes) : Prop :=
  match cuts with
  | [] => a = len b
  | c :: cuts => a <= c /\ slice b a c = slice b' a c /\ agree_from c cuts b b'
  end.

Lemma agree_eq cuts b b' : len b = len b' -> agree_from 0 cuts b b' -> b = b'.
Proof.
  intros Hl. assert (Hgen : forall cuts a, agree_from a cuts b b' -> a <= len b /\ slice b a (len b) = slice b' a (len b)).
  { intros cs. induction cs as [|c cs IH]; intros a; cbn [agree_from].
    - intros ->. split; [done|]. unfold slice. by rewrite N.sub_diag.
    - intros (Hac & Hs & Hrest). destruct (IH c Hrest) as [Hc Ht]. split; [lia|].
      rewrite <- (slice_join b a c (len b)), <- (slice_join b' a c (len b)) by lia. by rewrite Hs, Ht. }
  intros Ha. destruct (Hgen cuts 0 Ha) as [_ Hs]. rewrite slice_all, Hl, slice_all in Hs. done.
Qed.
End Buffers.

(** ** File headers *)

Definition file_header_ok (h : FileHeader) : Prop := length (file_id h) = 16%nat /\ length (creation_nonce h) = 16%nat.

Definition file_header_at (b : bytes) (h : FileHeader) : Prop :=
  slice b 0 8 = FILE_MAGIC /\ slice b 8 10 = le_encode 2 2 /\ slice b 10 12 = le_encode 2 FILE_HEADER_LEN /\
  slice b 12 16 = le_encode 4 0 /\ slice b 16 20 = le_encode 4 PAGE_SIZE /\ slice b 20 22 = le_encode 2 DIGEST_SHA256 /\
  slice b 22 24 = zeros 2 /\ slice b 24 40 = file_id h /\ slice b 40 56 = creation_nonce h /\ slice b 56 64 = zeros 8.

(** Replace a list of known length by its elements. *)
Ltac explode l :=
  lazymatch goal with
  | H : length l = ?n |- _ =>
      let rec go x k :=
        lazymatch k with
        | O => destruct x; [|discriminate H]
        | S ?k => let y := fresh "x" in let r := fresh "r" in
            destruct x as [|y r]; [discriminate H|]; cbn [length] in H; apply Nat.succ_inj in H; go r k
        end in
      let n := eval cbv in n in go l n; clear H
  end.

Lemma file_header_encode_at h : file_header_ok h -> len (file_header_encode h) = 64 /\ file_header_at (file_header_encode h) h.
Proof.
  destruct h as [id nonce]. unfold file_header_ok. cbn [file_id creation_nonce]. intros [Hid Hn].
  explode id. explode nonce. unfold file_header_at. split_and!; reflexivity.
Qed.

(** What the successful reads in the context say. *)
Ltac read_facts :=
  repeat match goal with
  | H : read_u16 _ _ = Ok _ |- _ => apply read_u16_Ok in H as (? & ? & ?); [|by vm_compute]
  | H : read_u32 _ _ = Ok _ |- _ => apply read_u32_Ok in H as (? & ? & ?); [|by vm_compute]
  | H : read_u64 _ _ = Ok _ |- _ => apply read_u64_Ok in H as (? & ? & ?); [|by vm_compute]
  | H : read_array _ _ _ = Ok _ |- _ => apply read_array_Ok in H as [? ?]; [|by vm_compute]
  | H : require_len _ _ = Ok _ |- _ => apply require_len_Ok in H
  | H : require_zero _ _ = Ok _ |- _ => apply require_zero_Ok in H
  end.

(** Run the next reads of the goal, whose slices the context gives. *)
Ltac read_side := split_and!; [lia|eassumption|first [assumption|by apply N.leb_le; vm_compute|lia]].
Ltac read_back :=
  repeat match goal with
  | |- context [read_u16 ?b ?o] => erewrite (proj2 (read_u16_Ok b o _ ltac:(by vm_compute))) by read_side
  | |- context [read_u32 ?b ?o] => erewrite (proj2 (read_u32_Ok b o _ ltac:(by vm_compute))) by read_side
  | |- context [read_u64 ?b ?o] => erewrite (proj2 (read_u64_Ok b o _ ltac:(by vm_compute))) by read_side
  | |- context [read_array ?n ?b ?o] => erewrite (proj2 (read_array_Ok n b o _ ltac:(by vm_compute))) by (split; [lia|eassumption])
  | |- context [require_len ?b ?n] => rewrite (proj2 (require_len_Ok b n tt)) by lia
  | H : ?b = zeros _ |- context [require_zero ?b ?n] => rewrite H, (proj2 (require_zero_Ok (zeros _) n tt)) by (unfold zeros; by rewrite length_replicate)
  end; cbv beta iota.

(** [step_result] through results that are pairs. *)
Ltac step_all H :=
  step_result H;
  lazymatch type of H with
  | match ?p with pair _ _ => _ end = Ok _ => destruct p; step_all H
  | _ => idtac
  end.
Ltac destruct_unit := repeat match goal with u : unit |- _ => destruct u end.

Lemma slice_length (b : bytes) a e n : a <= e -> e <= len b -> N.of_nat n = e - a -> length (slice b a e) = n.
Proof. intros Ha He Hn. pose proof (slice_len b a e Ha He) as Hl. unfold len in Hl. lia. Qed.

Lemma slice_zero_fact (b : bytes) a e n : slice b a e = zeros (length (slice b a e)) -> a <= e -> e <= len b -> N.of_nat n = e - a ->
  slice b a e = zeros n.
Proof. intros Hz Ha He Hn. by rewrite (slice_length b a e n) in Hz. Qed.

Lemma file_header_parse_Ok b h :
  file_header_parse b = Ok h <-> 64 <= len b /\ file_header_ok h /\ file_header_at b h.
Proof.
  unfold file_header_parse, FILE_HEADER_LEN. split.
  - intros Hp. step_result Hp. bool_facts. read_facts. injection Hp as <-. subst. unfold file_header_ok, file_header_at. cbn [file_id creation_nonce].
    split_and!; try done; by (first [apply slice_length; lia|apply slice_zero_fact; [done|lia..]]).
  - intros (Hl & (Hid & Hn) & H0 & H1 & H2 & H3 & H4 & H5 & H6 & H7 & H8 & H9). destruct h as [id nonce]; cbn [file_id creation_nonce] in *.
    read_back. rewrite (bool_decide_eq_true_2 _ H0). done.
Qed.

(** ** Object headers *)

Definition object_header_ok (h : ObjectHeader) : Prop :=
  oh_object_id h <> 0 /\ oh_object_id h <= U64_MAX /\ oh_kind h <> 0 /\ oh_kind h <= U16_MAX /\
  oh_payload_len h = oh_logical_len h /\ oh_logical_len h <= U64_MAX.

Definition object_header_at (b : bytes) (h : ObjectHeader) : Prop :=
  slice b 0 4 = OBJECT_MAGIC /\ slice b 4 6 = le_encode 2 OBJECT_HEADER_LEN /\ slice b 6 8 = le_encode 2 (oh_kind h) /\
  slice b 8 12 = le_encode 4 0 /\ slice b 12 20 = le_encode 8 (oh_object_id h) /\ slice b 20 28 = le_encode 8 (oh_payload_len h) /\
  slice b 28 36 = le_encode 8 (oh_logical_len h) /\ slice b 36 48 = zeros 12.

Lemma object_header_encode_at h : len (object_header_encode h) = 48 /\ object_header_at (object_header_encode h) h.
Proof. destruct h. unfold object_header_at. split_and!; reflexivity. Qed.

Lemma object_header_parse_Ok b h :
  object_header_parse b = Ok h <-> 48 <= len b /\ object_header_ok h /\ object_header_at b h.
Proof.
  unfold object_header_parse, OBJECT_HEADER_LEN. split.
  - intros Hp. step_result Hp. bool_facts. read_facts. injection Hp as <-. subst. unfold object_header_ok, object_header_at.
    cbn [oh_object_id oh_kind oh_payload_len oh_logical_len]. split_and!; try done. by apply slice_zero_fact; [done|lia..].
  - intros (Hl & (Hid & Hid' & Hk & Hk' & Hp & Hp') & H0 & H1 & H2 & H3 & H4 & H5 & H6 & H7).
    destruct h as [id kind n m]; cbn [oh_object_id oh_kind oh_payload_len oh_logical_len] in *. subst m.
    read_back. rewrite (bool_decide_eq_true_2 _ H0). rewrite (proj2 (N.eqb_neq kind 0)), (proj2 (N.eqb_neq id 0)), (N.eqb_refl n) by done. done.
Qed.

(** ** Directory entries *)

Definition leaf_ok (e : LeafEntry) : Prop :=
  le_object_id e <> 0 /\ le_object_id e <= U64_MAX /\ le_kind e <> 0 /\ le_kind e <= U16_MAX /\
  le_record_offset e <= U64_MAX /\ le_record_len e <= U64_MAX /\ le_logical_len e <= U64_MAX /\ length (le_record_digest e) = 32%nat.

Definition leaf_at (b : bytes) (e : LeafEntry) : Prop :=
  slice b 0 8 = le_encode 8 (le_object_id e) /\ slice b 8 10 = le_encode 2 (le_kind e) /\ slice b 10 12 = le_encode 2 0 /\
  slice b 12 16 = le_encode 4 0 /\ slice b 16 24 = le_encode 8 (le_record_offset e) /\ slice b 24 32 = le_encode 8 (le_record_len e) /\
  slice b 32 40 = le_encode 8 (le_logical_len e) /\ slice b 40 72 = le_record_digest e /\ slice b 72 88 = zeros 16.

Lemma leaf_encode_at e : length (le_record_digest e) = 32%nat ->
  len (leaf_encode_into e (zeros 88)) = 88 /\ leaf_at (leaf_encode_into e (zeros 88)) e.
Proof. destruct e as [? ? ? ? ? d]. cbn [le_record_digest]. intros Hd. explode d. unfold leaf_at. split_and!; reflexivity. Qed.

Lemma leaf_parse_Ok b e : leaf_parse b = Ok e <-> 88 <= len b /\ leaf_ok e /\ leaf_at b e.
Proof.
  unfold leaf_parse, LEAF_ENTRY_LEN. split.
  - intros Hp. step_result Hp. bool_facts. read_facts. injection Hp as <-. subst. unfold leaf_ok, leaf_at.
    cbn [le_object_id le_kind le_record_offset le_record_len le_logical_len le_record_digest].
    split_and!; try done; by (first [apply slice_length; lia|apply slice_zero_fact; [done|lia..]]).
  - intros (Hl & Hok & Hat). destruct e as [id kind off n m d]. unfold leaf_ok, leaf_at in *.
    cbn [le_object_id le_kind le_record_offset le_record_len le_logical_len le_record_digest] in *. destruct_and!.
    read_back. rewrite (proj2 (N.eqb_neq kind 0)), (proj2 (N.eqb_neq id 0)) by done. done.
Qed.

Definition internal_ok (e : InternalEntry) : Prop :=
  ie_min_key e <> 0 /\ ie_min_key e <= ie_max_key e /\ ie_max_key e <= U64_MAX /\ ie_page_offset e <= U64_MAX /\
  ie_page_len e = PAGE_SIZE /\ ie_level e <= U16_MAX /\ length (ie_page_digest e) = 32%nat.

Definition internal_at (b : bytes) (e : InternalEntry) : Prop :=
  slice b 0 8 = le_encode 8 (ie_min_key e) /\ slice b 8 16 = le_encode 8 (ie_max_key e) /\
  slice b 16 24 = le_encode 8 (ie_page_offset e) /\ slice b 24 28 = le_encode 4 (ie_page_len e) /\
  slice b 28 30 = le_encode 2 (ie_level e) /\ slice b 30 32 = le_encode 2 0 /\ slice b 32 64 = ie_page_digest e.

Lemma internal_encode_at e : length (ie_page_digest e) = 32%nat ->
  len (internal_encode_into e (zeros 64)) = 64 /\ internal_at (internal_encode_into e (zeros 64)) e.
Proof. destruct e as [? ? ? ? ? d]. cbn [ie_page_digest]. intros Hd. explode d. unfold internal_at. split_and!; reflexivity. Qed.

Lemma internal_parse_Ok b e : internal_parse b = Ok e <-> 64 <= len b /\ internal_ok e /\ internal_at b e.
Proof.
  unfold internal_parse, INTERNAL_ENTRY_LEN. split.
  - intros Hp. step_result Hp. bool_facts. read_facts. injection Hp as <-. subst. unfold internal_ok, internal_at.
    cbn [ie_min_key ie_max_key ie_page_offset ie_page_len ie_level ie_page_digest].
    split_and!; try done; try lia. by apply slice_length; lia.
  - intros (Hl & Hok & Hat). destruct e as [lo hi off n level d]. unfold internal_ok, internal_at in *.
    cbn [ie_min_key ie_max_key ie_page_offset ie_page_len ie_level ie_page_digest] in *. destruct_and!. subst n.
    assert (lo <= U64_MAX) by lia. read_back.
    rewrite (proj2 (N.eqb_neq lo 0)), (proj2 (N.ltb_ge hi lo)) by done. done.
Qed.

(** ** Footers *)

Definition footer_ok (f : Footer) : Prop :=
  ft_commit_start f <= U64_MAX /\ ft_commit_len f <= U64_MAX /\ ft_snapshot_offset f <= U64_MAX /\ ft_snapshot_len f <= U64_MAX /\
  ft_sequence f <= U64_MAX /\ ft_previous_footer_offset f <= U64_MAX /\ ft_record_count f <= U64_MAX /\
  length (ft_snapshot_digest f) = 32%nat /\ length (ft_commit_digest f) = 32%nat.

Definition footer_at (b : bytes) (f : Footer) : Prop :=
  slice b 0 8 = FOOTER_MAGIC /\ slice b 8 10 = le_encode 2 FOOTER_LEN /\ slice b 10 12 = le_encode 2 2 /\
  slice b 12 16 = le_encode 4 0 /\ slice b 16 24 = le_encode 8 (ft_commit_start f) /\ slice b 24 32 = le_encode 8 (ft_commit_len f) /\
  slice b 32 40 = le_encode 8 (ft_snapshot_offset f) /\ slice b 40 48 = le_encode 8 (ft_snapshot_len f) /\
  slice b 48 56 = le_encode 8 (ft_sequence f) /\ slice b 56 64 = le_encode 8 (ft_previous_footer_offset f) /\
  slice b 64 72 = le_encode 8 (ft_record_count f) /\ slice b 72 74 = le_encode 2 DIGEST_SHA256 /\ slice b 74 80 = zeros 6 /\
  slice b 80 112 = ft_snapshot_digest f /\ slice b 112 144 = ft_commit_digest f /\ slice b 144 160 = zeros 16.

Lemma footer_encode_at f : length (ft_snapshot_digest f) = 32%nat -> length (ft_commit_digest f) = 32%nat ->
  len (footer_encode f) = 160 /\ footer_at (footer_encode f) f /\ slice (footer_encode f) 8 112 = footer_semantics f.
Proof.
  destruct f as [? ? ? ? ? ? ? d1 d2]. cbn [ft_snapshot_digest ft_commit_digest]. intros H1 H2. explode d1. explode d2.
  unfold footer_at. split_and!; reflexivity.
Qed.

(** The commit digest is not part of what it authenticates. *)
Lemma footer_semantics_digest f d :
  footer_semantics (mkFooter (ft_commit_start f) (ft_commit_len f) (ft_snapshot_offset f) (ft_snapshot_len f) (ft_sequence f)
    (ft_previous_footer_offset f) (ft_record_count f) (ft_snapshot_digest f) d) = footer_semantics f.
Proof. done. Qed.

Lemma footer_parse_Ok b f : footer_parse b = Ok f <-> len b = 160 /\ footer_ok f /\ footer_at b f.
Proof.
  unfold footer_parse, FOOTER_LEN. split.
  - intros Hp. step_result Hp. bool_facts. read_facts. injection Hp as <-. subst. unfold footer_ok, footer_at.
    cbn [ft_commit_start ft_commit_len ft_snapshot_offset ft_snapshot_len ft_sequence ft_previous_footer_offset ft_record_count
      ft_snapshot_digest ft_commit_digest].
    split_and!; try done; by (first [apply slice_length; lia|apply slice_zero_fact; [done|lia..]]).
  - intros (Hl & Hok & Hat). destruct f as [n1 n2 n3 n4 n5 n6 n7 d1 d2]. unfold footer_ok, footer_at in *.
    cbn [ft_commit_start ft_commit_len ft_snapshot_offset ft_snapshot_len ft_sequence ft_previous_footer_offset ft_record_count
      ft_snapshot_digest ft_commit_digest] in *. destruct_and!. rewrite Hl.
    read_back. rewrite bool_decide_eq_true_2 by done. done.
Qed.

(** Cuts a buffer apart into the fields of a footer: two footers with the same
    fields are the same bytes. *)
Lemma footer_at_inj b b' f : len b = 160 -> len b' = 160 -> footer_at b f -> footer_at b' f -> b = b'.
Proof.
  unfold footer_at. intros Hl Hl' Hb Hb'. destruct_and!.
  apply (agree_eq [8; 10; 12; 16; 24; 32; 40; 48; 56; 64; 72; 74; 80; 112; 144; 160]); [congruence|].
  cbn [agree_from]. split_and!; first [lia|congruence].
Qed.

Lemma file_header_at_inj b b' h : len b = 64 -> len b' = 64 -> file_header_at b h -> file_header_at b' h -> b = b'.
Proof.
  unfold file_header_at. intros Hl Hl' Hb Hb'. destruct_and!.
  apply (agree_eq [8; 10; 12; 16; 20; 22; 24; 40; 56; 64]); [congruence|]. cbn [agree_from]. split_and!; first [lia|congruence].
Qed.

Lemma object_header_at_inj b b' h : len b = 48 -> len b' = 48 -> object_header_at b h -> object_header_at b' h -> b = b'.
Proof.
  unfold object_header_at. intros Hl Hl' Hb Hb'. destruct_and!.
  apply (agree_eq [4; 6; 8; 12; 20; 28; 36; 48]); [congruence|]. cbn [agree_from]. split_and!; first [lia|congruence].
Qed.

Lemma leaf_at_inj b b' e : len b = 88 -> len b' = 88 -> leaf_at b e -> leaf_at b' e -> b = b'.
Proof.
  unfold leaf_at. intros Hl Hl' Hb Hb'. destruct_and!.
  apply (agree_eq [8; 10; 12; 16; 24; 32; 40; 72; 88]); [congruence|]. cbn [agree_from]. split_and!; first [lia|congruence].
Qed.

Lemma internal_at_inj b b' e : len b = 64 -> len b' = 64 -> internal_at b e -> internal_at b' e -> b = b'.
Proof.
  unfold internal_at. intros Hl Hl' Hb Hb'. destruct_and!.
  apply (agree_eq [8; 16; 24; 28; 30; 32; 64]); [congruence|]. cbn [agree_from]. split_and!; first [lia|congruence].
Qed.

#[global] Strategy 1000 [PAGE_SIZE].

(** ** Page headers *)

Definition page_header_at (b : bytes) (h : PageHeader) (size : N) : Prop :=
  slice b 0 4 = PAGE_MAGIC /\ slice b 4 5 = [byte_of_N (ph_kind h)] /\ slice b 5 6 = [byte_of_N (ph_level h)] /\
  slice b 6 8 = le_encode 2 PAGE_HEADER_LEN /\ slice b 8 10 = le_encode 2 (ph_entry_count h) /\ slice b 10 12 = le_encode 2 size /\
  slice b 12 16 = le_encode 4 0 /\ slice b 16 24 = le_encode 8 (ph_min_key h) /\ slice b 24 32 = le_encode 8 (ph_max_key h) /\
  slice b 32 40 = le_encode 8 (ph_sequence h) /\ slice b 40 64 = zeros 24.

(** The header of a page whose other bytes are [rest]. *)
Lemma encode_page_header_at h size rest : ph_entry_count h <= U16_MAX -> size <= U16_MAX ->
  exists hb, encode_page_header (zeros 64 ++ rest) (ph_kind h) (ph_level h) (ph_entry_count h) size (ph_min_key h) (ph_max_key h)
      (ph_sequence h) = Ok (hb ++ rest) /\ len hb = 64 /\ forall r, page_header_at (hb ++ r) h size.
Proof.
  intros Hc Hs. unfold encode_page_header. rewrite (proj2 (try_u16_Some _ _) (conj eq_refl Hc)), (proj2 (try_u16_Some _ _) (conj eq_refl Hs)).
  cbn [ok_or]. destruct h as [kind level count lo hi sq]. cbn [ph_kind ph_level ph_entry_count ph_min_key ph_max_key ph_sequence].
  set (hb := put_u64 (put_u64 (put_u64 (put_u32 (put_u16 (put_u16 (put_u16 (put (put (put (zeros 64) 0 PAGE_MAGIC) 4 [byte_of_N kind])
    5 [byte_of_N level]) 6 PAGE_HEADER_LEN) 8 count) 10 size) 12 0) 16 lo) 24 hi) 32 sq).
  exists hb. split_and!; [reflexivity|reflexivity|]. intros r. unfold page_header_at. split_and!; reflexivity.
Qed.

(** ** Entries *)

Lemma slice_segment (pre post : bytes) (segs : list bytes) (size i : N) seg :
  Forall (fun s => len s = size) segs -> segs !! N.to_nat i = Some seg ->
  slice (pre ++ concat segs ++ post) (len pre + i * size) (len pre + i * size + size) = seg.
Proof.
  intros Hf Hi. pose proof (take_drop_middle _ _ _ Hi) as Hs. rewrite <- Hs, concat_app. cbn [concat].
  pose proof (proj1 (Forall_forall _ _) Hf seg ltac:(by eapply list_elem_of_lookup_2)) as Hseg. cbv beta in Hseg.
  assert (Hl : len (concat (take (N.to_nat i) segs)) = i * size).
  { assert (Hlt : (N.to_nat i < length segs)%nat) by (by eapply lookup_lt_Some).
    assert (Hgen : forall l : list bytes, Forall (fun s => len s = size) l -> len (concat l) = len l * size).
    { intros l. induction 1 as [|x l Hx Hl IH]; [done|]. cbn [concat]. autorewrite with len. rewrite IH, Hx. lia. }
    rewrite Hgen by (by apply Forall_take). unfold len. rewrite length_take. rewrite Nat.min_l by lia. lia. }
  rewrite <- !app_assoc. rewrite app_assoc. apply slice_app; autorewrite with len; lia.
Qed.

Lemma put_entries_spec {A} (encode_into : A -> bytes -> bytes) (size : N) (entries : list A) (pre post : bytes) :
  (forall e, e ∈ entries -> len (encode_into e (zeros (N.to_nat size))) = size) ->
  put_entries encode_into size (len pre) entries (pre ++ zeros (length entries * N.to_nat size) ++ post) =
  pre ++ concat ((fun e => encode_into e (zeros (N.to_nat size))) <$> entries) ++ post.
Proof.
  revert pre. induction entries as [|e entries IH]; intros pre Hlen; [done|]. cbn [put_entries length].
  rewrite fmap_cons. cbn [concat]. unfold zeros at 1 2. rewrite Nat.mul_succ_l, Nat.add_comm, replicate_add. fold (zeros (N.to_nat size)).
  fold (zeros (length entries * N.to_nat size)).
  set (seg := encode_into e (zeros (N.to_nat size))). assert (Hseg : len seg = size) by (apply Hlen; by left).
  rewrite <- !app_assoc. rewrite (slice_app pre (zeros (N.to_nat size))); [|done|unfold len, zeros; rewrite length_replicate; lia].
  fold seg. rewrite put_middle by (unfold zeros; rewrite length_replicate; unfold len in Hseg; lia).
  rewrite (app_assoc pre seg). replace (len pre + size) with (len (pre ++ seg)) by (rewrite len_app; lia).
  rewrite IH by (intros x Hx; apply Hlen; by right). by rewrite <- !app_assoc.
Qed.

Lemma parse_entries_Ok {A} (parse : bytes -> X A) size count b entries :
  parse_entries parse size count b = Ok entries <->
  len entries = count /\ forall i e, entries !! i = Some e ->
    parse (slice b (PAGE_HEADER_LEN + N.of_nat i * size) (PAGE_HEADER_LEN + N.of_nat i * size + size)) = Ok e.
Proof.
  unfold parse_entries. rewrite map_result_Forall2. split.
  - intros Hf. pose proof (Forall2_length _ _ _ Hf) as Hl. rewrite length_seq in Hl. split; [unfold len; lia|].
    intros i e He. destruct (Forall2_lookup_r _ _ _ _ _ Hf He) as (j & Hj & Hp). apply lookup_seq in Hj as [-> _]. exact Hp.
  - intros [Hl Hp]. apply Forall2_same_length_lookup. split; [rewrite length_seq; unfold len in Hl; lia|].
    intros i j e [-> _]%lookup_seq He. by apply Hp.
Qed.

(** ** Order *)

Lemma no_window_Ok {A} (bad : A -> A -> bool) e l u : no_window bad e l = Ok u <-> Sorted (fun x y => bad x y = false) l.
Proof.
  unfold no_window. destruct u. rewrite check_windows_Ok. split; intros Hs; eapply Sorted_mono; try exact Hs;
    intros x y; cbv beta; by destruct (bad x y).
Qed.

Lemma no_window_error {A} (bad : A -> A -> bool) e l e' : no_window bad e l = Err e' -> e' = e.
Proof. intros (? & x & y & ? & _ & Hb)%check_windows_Err. destruct (bad x y); congruence. Qed.

Definition leaf_ordered : list LeafEntry -> Prop := StronglySorted (key_lt le_object_id).

Lemma leaf_windows_Ok e es u : no_window (fun x y => le_object_id y <=? le_object_id x) e es = Ok u <-> leaf_ordered es.
Proof.
  rewrite no_window_Ok. unfold leaf_ordered. split.
  - intros Hs. apply Sorted_StronglySorted; [unfold key_lt; intros x y z; lia|].
    eapply Sorted_mono; [|exact Hs]. unfold key_lt. intros x y Hxy. by apply N.leb_gt.
  - intros Hs%StronglySorted_Sorted. eapply Sorted_mono; [|exact Hs]. unfold key_lt. intros x y Hxy. by apply N.leb_gt.
Qed.

Lemma leaf_order_Ok h es u : validate_leaf_order h es = Ok u <->
  le_object_id <$> head es = Some (ph_min_key h) /\ le_object_id <$> last es = Some (ph_max_key h) /\ leaf_ordered es.
Proof.
  unfold validate_leaf_order. rewrite <- (leaf_windows_Ok UnorderedEntries es u). case_bool_decide; [case_bool_decide|]; naive_solver.
Qed.

(** The ranges of siblings, one after the other. *)
Definition ranges_ordered (es : list InternalEntry) : Prop := Sorted (fun x y => ie_max_key x < ie_min_key y) es.

Lemma checked_add_u16_Some a b c : checked_add_u16 a b = Some c <-> c = a + b /\ a + b <= U16_MAX.
Proof. unfold checked_add_u16. destruct (N.leb_spec (a + b) U16_MAX); (split; [intros [=]; subst; lia|intros []; subst; first [done|lia]]). Qed.

Lemma internal_order_Ok h es u : validate_internal_order h es = Ok u <->
  ie_min_key <$> head es = Some (ph_min_key h) /\ ie_max_key <$> last es = Some (ph_max_key h) /\
  Forall (fun e => ph_level h = ie_level e + 1 /\ ie_level e + 1 <= U16_MAX) es /\ ranges_ordered es.
Proof.
  unfold validate_internal_order, ranges_ordered.
  assert (Hw : no_window (fun x y => ie_min_key y <=? ie_max_key x) OverlappingRanges es = Ok u <-> Sorted (fun x y => ie_max_key x < ie_min_key y) es).
  { rewrite no_window_Ok. split; intros Hs; eapply Sorted_mono; try exact Hs; intros x y; apply N.leb_gt. }
  assert (Hl : forallb (fun e => bool_decide (checked_add_u16 (ie_level e) 1 = Some (ph_level h))) es = true <->
    Forall (fun e => ph_level h = ie_level e + 1 /\ ie_level e + 1 <= U16_MAX) es).
  { rewrite forallb_True, Is_true_true_1 || rewrite forallb_forall. rewrite Forall_forall. setoid_rewrite <- list_elem_of_In.
    setoid_rewrite bool_decide_eq_true. by setoid_rewrite checked_add_u16_Some. }
  case_bool_decide; [case_bool_decide|]; [|naive_solver..]. destruct (forallb _ es); naive_solver.
Qed.

(** ** Pages *)

Definition page_header_ok (h : PageHeader) : Prop :=
  ph_level h < 256 /\ ph_entry_count h <> 0 /\ ph_entry_count h <= U16_MAX /\ ph_min_key h <> 0 /\ ph_min_key h <= ph_max_key h /\
  ph_max_key h <= U64_MAX /\ ph_sequence h <= U64_MAX.

(** What the page of [p] holds: [size], [capacity] and [kind] are those of its
    kind of entry. *)
Definition page_at {A} (parse : bytes -> X A) (kind size capacity : N) (b : bytes) (h : PageHeader) (entries : list A) : Prop :=
  len b = PAGE_SIZE /\ page_header_ok h /\ page_header_at b h size /\ ph_kind h = kind /\ ph_entry_count h <= capacity /\
  slice b (PAGE_HEADER_LEN + ph_entry_count h * size) PAGE_SIZE =
    zeros (N.to_nat (PAGE_SIZE - (PAGE_HEADER_LEN + ph_entry_count h * size))) /\
  len entries = ph_entry_count h /\
  forall i e, entries !! i = Some e ->
    parse (slice b (PAGE_HEADER_LEN + N.of_nat i * size) (PAGE_HEADER_LEN + N.of_nat i * size + size)) = Ok e.

Abbreviation leaf_page_at := (page_at leaf_parse 1 LEAF_ENTRY_LEN LEAF_CAPACITY).
Abbreviation internal_page_at := (page_at internal_parse 2 INTERNAL_ENTRY_LEN INTERNAL_CAPACITY).

Lemma byte_slice (b : bytes) a e : e = a + 1 -> e <= len b ->
  slice b a e = [byte_of_N (le_decode (slice b a e))] /\ le_decode (slice b a e) < 256.
Proof.
  intros -> Hb. assert (Hl : length (slice b a (a + 1)) = 1%nat) by (apply slice_length; lia).
  pose proof (le_encode_decode (slice b a (a + 1))) as E. rewrite Hl in E. split; [by rewrite <- E at 1|].
  pose proof (le_decode_bound (slice b a (a + 1))) as Hd. unfold len in Hd. by rewrite Hl in Hd.
Qed.

Lemma le_decode_byte v : v < 256 -> le_decode [byte_of_N v] = v.
Proof. intros Hv. cbn [le_decode]. rewrite N_of_byte_of_N, N.mul_0_r, N.add_0_r. by apply N.mod_small. Qed.

Lemma padding_Ok b used name u : len b = PAGE_SIZE -> used <= PAGE_SIZE ->
  require_zero (slice b used (len b)) name = Ok u <-> slice b used PAGE_SIZE = zeros (N.to_nat (PAGE_SIZE - used)).
Proof.
  intros Hl Hu. rewrite Hl, require_zero_Ok. pose proof (slice_len b used PAGE_SIZE Hu ltac:(lia)) as Hs.
  assert (Hn : length (slice b used PAGE_SIZE) = N.to_nat (PAGE_SIZE - used)) by (unfold len in Hs; lia). by rewrite Hn.
Qed.

Lemma leaf_used count : count <= LEAF_CAPACITY -> PAGE_HEADER_LEN + count * LEAF_ENTRY_LEN <= PAGE_SIZE.
Proof. assert (HL : LEAF_CAPACITY = 185) by reflexivity. rewrite HL. unfold PAGE_HEADER_LEN, LEAF_ENTRY_LEN, PAGE_SIZE. lia. Qed.
Lemma internal_used count : count <= INTERNAL_CAPACITY -> PAGE_HEADER_LEN + count * INTERNAL_ENTRY_LEN <= PAGE_SIZE.
Proof. assert (HL : INTERNAL_CAPACITY = 255) by reflexivity. rewrite HL. unfold PAGE_HEADER_LEN, INTERNAL_ENTRY_LEN, PAGE_SIZE. lia. Qed.

(** [parse_page], up to the entries. *)
Lemma parse_page_split b p :
  parse_page b = Ok p <->
  len b = PAGE_SIZE /\ exists h size, page_header_ok h /\ ph_kind h < 256 /\ size <= U16_MAX /\ page_header_at b h size /\
    parse_page_body b h size = Ok p.
Proof.
  unfold parse_page. split.
  - intros Hp. step_result Hp. bool_facts. subst. read_facts. assert (Hl : len b = 16384) by done.
    destruct (byte_slice b 4 5) as [Hk Hk']; [done|lia|]. destruct (byte_slice b 5 6) as [Hv Hv']; [done|lia|].
    split; [done|]. lazymatch type of Hp with parse_page_body _ ?h ?s = _ => exists h, s end. split_and!; [split_and!| | |split_and!|exact Hp]; try done.
    by apply slice_zero_fact; [done|lia..].
  - intros (Hl' & [kind level count lo hi sq] & size & Hok & Hkind & Hs & Hat & Hb). assert (Hl : len b = 16384) by done.
    unfold page_header_ok, page_header_at in *. cbn [ph_kind ph_level ph_entry_count ph_min_key ph_max_key ph_sequence] in *. destruct_and!.
    rewrite (proj2 (N.eqb_eq _ _) Hl'). rewrite bool_decide_eq_true_2 by done. replace (slice b 4 5) with [byte_of_N kind] by done.
    replace (slice b 5 6) with [byte_of_N level] by done. rewrite !le_decode_byte by done. assert (lo <= U64_MAX) by lia.
    read_back. rewrite (proj2 (N.eqb_neq count 0)), (proj2 (N.eqb_neq lo 0)), (proj2 (N.ltb_ge hi lo)) by done. exact Hb.
Qed.

Lemma parse_page_leaf b h es :
  parse_page b = Ok (PLeaf h es) <->
  leaf_page_at b h es /\ ph_level h = 0 /\ validate_leaf_order h es = Ok tt.
Proof.
  rewrite parse_page_split. unfold parse_page_body, page_at. split.
  - intros (Hl & h' & size & Hok & Hk & Hs & Hat & Hb). destruct (N.eqb_spec (ph_kind h') 1); [|step_result Hb; done].
    step_result Hb. bool_facts. injection Hb as -> ->. subst. apply parse_entries_Ok in Heqr0 as [Hc He].
    rewrite padding_Ok in * by (first [done|by apply leaf_used]). destruct a1. by split_and!.
  - intros ((Hl & Hok & Hat & Hk & Hc & Hz & Hn & He) & Hlev & Hord). split; [done|]. exists h, LEAF_ENTRY_LEN.
    split_and!; [done|lia|by apply N.leb_le|done|]. rewrite Hk, Hlev. cbn [N.eqb]. rewrite N.eqb_refl.
    rewrite (proj2 (N.ltb_ge _ _) Hc). cbn [negb]. rewrite (proj2 (padding_Ok b _ _ tt Hl (leaf_used _ Hc)) Hz).
    by rewrite (proj2 (parse_entries_Ok leaf_parse _ _ _ es) (conj Hn He)), Hord.
Qed.

Lemma parse_page_internal b h es :
  parse_page b = Ok (PInternal h es) <->
  internal_page_at b h es /\ ph_level h <> 0 /\ validate_internal_order h es = Ok tt.
Proof.
  rewrite parse_page_split. unfold parse_page_body, page_at. split.
  - intros (Hl & h' & size & Hok & Hk & Hs & Hat & Hb). destruct (N.eqb_spec (ph_kind h') 1); [step_result Hb; done|].
    destruct (N.eqb_spec (ph_kind h') 2); [|done].
    step_result Hb. bool_facts. injection Hb as -> ->. subst. apply parse_entries_Ok in Heqr0 as [Hc He].
    rewrite padding_Ok in * by (first [done|by apply internal_used]). destruct a1. by split_and!.
  - intros ((Hl & Hok & Hat & Hk & Hc & Hz & Hn & He) & Hlev & Hord). split; [done|]. exists h, INTERNAL_ENTRY_LEN.
    split_and!; [done|lia|by apply N.leb_le|done|]. rewrite Hk. cbn [N.eqb]. rewrite (proj2 (N.eqb_neq _ _) Hlev), N.eqb_refl.
    rewrite (proj2 (N.ltb_ge _ _) Hc). cbn [negb]. rewrite (proj2 (padding_Ok b _ _ tt Hl (internal_used _ Hc)) Hz).
    by rewrite (proj2 (parse_entries_Ok internal_parse _ _ _ es) (conj Hn He)), Hord.
Qed.

(** ** Encoded pages *)

Lemma zeros_app n m : zeros (n + m) = zeros n ++ zeros m.
Proof. apply replicate_add. Qed.

Lemma len_zeros n : len (zeros n) = N.of_nat n.
Proof. unfold len, zeros. by rewrite length_replicate. Qed.
#[export] Hint Rewrite len_zeros : len.

Lemma encoded_page_at {A B} (encode_into : A -> bytes -> bytes) (parse : bytes -> X B) (f : A -> B) kind size capacity h (entries : list A) :
  (forall e, e ∈ entries -> len (encode_into e (zeros (N.to_nat size))) = size /\ parse (encode_into e (zeros (N.to_nat size))) = Ok (f e)) ->
  page_header_ok h -> ph_kind h = kind -> ph_entry_count h = len entries -> size <= U16_MAX -> len entries <= capacity ->
  PAGE_HEADER_LEN + len entries * size <= PAGE_SIZE ->
  exists page0, encode_page_header (zeros (N.to_nat PAGE_SIZE)) kind (ph_level h) (len entries) size (ph_min_key h) (ph_max_key h)
      (ph_sequence h) = Ok page0 /\
    page_at parse kind size capacity (put_entries encode_into size PAGE_HEADER_LEN entries page0) h (f <$> entries).
Proof.
  intros He Hok Hkind Hcount Hsize Hcap Hfit. unfold PAGE_HEADER_LEN in *.
  set (k := (length entries * N.to_nat size)%nat). set (m := N.to_nat (PAGE_SIZE - (64 + len entries * size))).
  assert (Hz : zeros (N.to_nat PAGE_SIZE) = zeros 64 ++ zeros k ++ zeros m).
  { rewrite <- !zeros_app. f_equal. unfold k, m, len in *. lia. }
  assert (Hc : ph_entry_count h <= U16_MAX) by apply Hok.
  destruct (encode_page_header_at h size (zeros k ++ zeros m) Hc Hsize) as (hb & Henc & Hl & Hat).
  rewrite Hz, <- Hkind, <- Hcount, Henc. eexists. split; [done|].
  replace 64 with (len hb) at 1 by done. unfold k. rewrite put_entries_spec by (intros e Hin; by apply He).
  set (segs := (fun e => encode_into e (zeros (N.to_nat size))) <$> entries).
  assert (Hsegs : Forall (fun s => len s = size) segs).
  { apply Forall_forall. intros s (e & -> & Hin)%list_elem_of_fmap. by apply He. }
  assert (Hcl : len (concat segs) = len entries * size).
  { unfold segs. clear -He. induction entries as [|e entries IH]; [done|]. rewrite fmap_cons. cbn [concat]. autorewrite with len.
    rewrite IH by (intros x Hx; apply He; by right). destruct (He e ltac:(by left)) as [-> _]. lia. }
  unfold page_at, PAGE_HEADER_LEN. split_and!; [|done|apply Hat|done|by rewrite Hcount| | |].
  - autorewrite with len. rewrite Hl, Hcl. unfold m, len in *. lia.
  - rewrite Hcount. rewrite app_assoc, slice_app_r by (autorewrite with len; lia). autorewrite with len. rewrite Hl, Hcl.
    rewrite slice_zeros by (unfold m; lia). f_equal. lia.
  - by rewrite Hcount, len_fmap.
  - intros i e Hi. rewrite list_lookup_fmap in Hi. destruct (entries !! i) as [x|] eqn:Hx; [|done]. injection Hi as <-.
    rewrite <- Hl. rewrite (slice_segment hb (zeros m) segs size (N.of_nat i) (encode_into x (zeros (N.to_nat size)))); [|done|].
    + apply He. by eapply list_elem_of_lookup_2.
    + rewrite Nat2N.id. unfold segs. by rewrite list_lookup_fmap, Hx.
Qed.

Lemma ordered_range es first last_ : leaf_ordered es -> head es = Some first -> last es = Some last_ ->
  le_object_id first <= le_object_id last_.
Proof. intros Hs Hf Hl. apply (ordered_head es first last_ Hs Hf). by apply last_elem. Qed.

Lemma encode_leaf_page_parses es sequence :
  Forall leaf_ok es -> es <> [] -> len es <= LEAF_CAPACITY -> leaf_ordered es -> sequence <= U64_MAX ->
  exists page h, encode_leaf_page es sequence = Ok page /\ parse_page page = Ok (PLeaf h es) /\ len page = PAGE_SIZE /\
    ph_level h = 0 /\ ph_sequence h = sequence /\ le_object_id <$> head es = Some (ph_min_key h) /\
    le_object_id <$> last es = Some (ph_max_key h).
Proof.
  intros Hes Hne Hcap Hord Hseq. unfold encode_leaf_page. rewrite (proj2 (N.ltb_ge _ _) Hcap). cbn [negb].
  destruct (head es) as [first|] eqn:Ehd; [|by destruct es]. destruct (last es) as [last_|] eqn:Elast; [|by apply last_None in Elast].
  cbn [ok_or]. rewrite (proj2 (leaf_windows_Ok UnorderedEntries es tt) Hord).
  set (h := mkPageHeader 1 0 (len es) (le_object_id first) (le_object_id last_) sequence).
  pose proof (proj1 (Forall_forall _ _) Hes first (head_elem _ _ Ehd)) as Hf.
  pose proof (proj1 (Forall_forall _ _) Hes last_ (last_elem _ _ Elast)) as Hl.
  destruct (encoded_page_at leaf_encode_into leaf_parse id 1 LEAF_ENTRY_LEN LEAF_CAPACITY h es) as (page0 & Henc & Hat).
  - intros e He. pose proof (proj1 (Forall_forall _ _) Hes e He) as Hok.
    destruct (leaf_encode_at e) as [Hlen Hfields]; [apply Hok|]. split; [done|]. apply leaf_parse_Ok. split; [|done]. change (zeros (N.to_nat LEAF_ENTRY_LEN)) with (zeros 88). lia.
  - unfold page_header_ok, h. cbn. assert (HL : LEAF_CAPACITY = 185) by reflexivity. rewrite HL in Hcap. unfold U16_MAX.
    split_and!; [done|destruct es; [done|rewrite len_cons; lia]|lia|apply Hf|by eapply ordered_range|apply Hl|done].
  - done.
  - done.
  - done.
  - done.
  - by apply leaf_used.
  - unfold h in Henc. cbn [ph_level ph_min_key ph_max_key ph_sequence] in Henc. rewrite Henc. rewrite list_fmap_id in Hat.
    exists (put_entries leaf_encode_into LEAF_ENTRY_LEN PAGE_HEADER_LEN es page0), h. split_and!; [done| |apply Hat|done|done|done|done].
    apply parse_page_leaf. split_and!; [done|done|]. apply leaf_order_Ok. rewrite Ehd, Elast. by split_and!.
Qed.

Definition locator_ok (l : PageLocator) : Prop :=
  pl_min_key l <> 0 /\ pl_min_key l <= pl_max_key l /\ pl_max_key l <= U64_MAX /\ pl_offset l <= U64_MAX /\
  length (pl_digest l) = 32%nat.

Lemma locator_ranges children : Sorted (fun x y => pl_max_key x < pl_min_key y) children -> Forall locator_ok children ->
  forall first last_, head children = Some first -> last children = Some last_ -> pl_min_key first <= pl_max_key last_.
Proof.
  induction 1 as [|c cs Hs IH Hh]; intros Hok first last_ Hf Hl; [done|]. injection Hf as ->. apply Forall_cons in Hok as [Hc Hcs].
  destruct cs as [|c' cs]; [injection Hl as <-; apply Hc|]. inversion Hh as [|? ? Hlt]; subst.
  specialize (IH Hcs c' last_ eq_refl Hl). pose proof (proj1 (proj2 Hc)). lia.
Qed.

Lemma encode_internal_page_parses children sequence level :
  Forall locator_ok children -> children <> [] -> len children <= INTERNAL_CAPACITY -> level + 1 < 256 ->
  Forall (fun c => pl_level c = level) children -> Sorted (fun x y => pl_max_key x < pl_min_key y) children -> sequence <= U64_MAX ->
  exists page h, encode_internal_page children sequence (level + 1) = Ok page /\
    parse_page page = Ok (PInternal h (entry_of_locator <$> children)) /\ len page = PAGE_SIZE /\
    ph_level h = level + 1 /\ ph_sequence h = sequence /\ pl_min_key <$> head children = Some (ph_min_key h) /\
    pl_max_key <$> last children = Some (ph_max_key h).
Proof.
  intros Hcs Hne Hcap Hlevel Hlevels Hord Hseq. unfold encode_internal_page. rewrite (proj2 (N.ltb_ge _ _) Hcap). cbn [negb].
  destruct (head children) as [first|] eqn:Ehd; [|by destruct children].
  destruct (last children) as [last_|] eqn:Elast; [|by apply last_None in Elast]. cbn [ok_or].
  rewrite (proj2 (N.eqb_neq (level + 1) 0)), (proj2 (N.ltb_ge 255 (level + 1))) by lia. cbn [orb negb].
  assert (Hw : no_window (fun x y => (pl_min_key y <=? pl_max_key x) || negb (pl_level x =? pl_level y)) OverlappingRanges children = Ok tt).
  { apply no_window_Ok. clear -Hlevels Hord. induction Hord as [|c cs Hs IH Hh]; [constructor|]. apply Forall_cons in Hlevels as [Hc Hl].
    constructor; [by apply IH|]. destruct Hh as [|y cs Hlt]; constructor. apply Forall_cons in Hl as [Hy _].
    rewrite (proj2 (N.leb_gt _ _) Hlt), Hc, Hy, N.eqb_refl. done. }
  rewrite Hw. unfold try_u8. rewrite (proj2 (N.leb_le (level + 1) 255)) by lia. cbn [ok_or].
  set (h := mkPageHeader 2 (level + 1) (len children) (pl_min_key first) (pl_max_key last_) sequence).
  pose proof (proj1 (Forall_forall _ _) Hcs first (head_elem _ _ Ehd)) as Hf.
  pose proof (proj1 (Forall_forall _ _) Hcs last_ (last_elem _ _ Elast)) as Hl.
  destruct (encoded_page_at (fun child => internal_encode_into (entry_of_locator child)) internal_parse entry_of_locator 2
    INTERNAL_ENTRY_LEN INTERNAL_CAPACITY h children) as (page0 & Henc & Hat).
  - intros c Hc. pose proof (proj1 (Forall_forall _ _) Hcs c Hc) as (? & ? & ? & ? & Hd).
    pose proof (proj1 (Forall_forall _ _) Hlevels c Hc) as Hlv. cbv beta in Hlv.
    destruct (internal_encode_at (entry_of_locator c) Hd) as [Hlen Hfields]. split; [done|]. apply internal_parse_Ok.
    change (zeros (N.to_nat INTERNAL_ENTRY_LEN)) with (zeros 64). split_and!; [lia| |done]. unfold internal_ok, entry_of_locator.
    cbn [ie_min_key ie_max_key ie_page_offset ie_page_len ie_level ie_page_digest]. unfold U16_MAX. split_and!; try done. lia.
  - unfold page_header_ok, h. cbn [ph_level ph_entry_count ph_min_key ph_max_key ph_sequence].
    assert (HL : INTERNAL_CAPACITY = 255) by reflexivity. rewrite HL in Hcap. unfold U16_MAX.
    split_and!; [done|destruct children; [done|rewrite len_cons; lia]|lia|apply Hf|by eapply locator_ranges|apply Hl|done].
  - done.
  - done.
  - done.
  - done.
  - by apply internal_used.
  - unfold h in Henc. cbn [ph_level ph_min_key ph_max_key ph_sequence] in Henc. rewrite Henc.
    eexists _, h. split_and!; [done| |apply Hat|done|done|done|done].
    apply parse_page_internal. split_and!; [done|unfold h; cbn [ph_level]; lia|]. apply internal_order_Ok. 
    rewrite fmap_last, Elast. unfold h. cbn [ph_min_key ph_max_key ph_level]. split_and!; [|done| |].
    + destruct children; [done|]. injection Ehd as ->. done.
    + apply Forall_fmap. eapply Forall_impl; [exact Hlevels|]. intros c Hc. cbn. rewrite Hc. unfold U16_MAX. lia.
    + unfold ranges_ordered. clear -Hord. induction Hord as [|c cs Hs IH Hh]; [constructor|]. rewrite fmap_cons. constructor; [done|].
      destruct Hh; constructor; done.
Qed.

(** ** Snapshots *)

Definition snapshot_ok (s : Snapshot) : Prop :=
  sn_sequence s <= U64_MAX /\ length (sn_parent_snapshot_digest s) = 32%nat /\ sn_previous_footer_offset s <= U64_MAX /\
  sn_directory_root_offset s <= U64_MAX /\ sn_directory_root_len s = PAGE_SIZE /\ sn_directory_root_level s <= U16_MAX /\
  length (sn_directory_root_digest s) = 32%nat /\
  Forall (fun v => v <= U64_MAX) (sn_roots s ++ sn_required_capabilities s ++ sn_optional_capabilities s).

Definition snapshot_at (b : bytes) (s : Snapshot) : Prop :=
  slice b 0 4 = SNAPSHOT_MAGIC /\ slice b 4 6 = le_encode 2 SNAPSHOT_HEADER_LEN /\ slice b 6 8 = le_encode 2 0 /\
  slice b 8 16 = le_encode 8 (sn_sequence s) /\ slice b 16 48 = sn_parent_snapshot_digest s /\
  slice b 48 56 = le_encode 8 (sn_previous_footer_offset s) /\ slice b 56 64 = le_encode 8 (sn_directory_root_offset s) /\
  slice b 64 68 = le_encode 4 (sn_directory_root_len s) /\ slice b 68 70 = le_encode 2 (sn_directory_root_level s) /\
  slice b 70 72 = le_encode 2 DIGEST_SHA256 /\ slice b 72 104 = sn_directory_root_digest s /\
  slice b 104 108 = le_encode 4 (len (sn_roots s)) /\ slice b 108 112 = le_encode 4 (len (sn_required_capabilities s)) /\
  slice b 112 116 = le_encode 4 (len (sn_optional_capabilities s)) /\ slice b 116 160 = zeros 44.

Definition values_bytes (values : list N) : bytes := concat (le_encode 8 <$> values).

Lemma len_le_encode k v : len (le_encode k v) = N.of_nat k.
Proof. unfold len. by rewrite length_le_encode. Qed.
#[export] Hint Rewrite len_le_encode : len.

Lemma values_bytes_len values : len (values_bytes values) = 8 * len values.
Proof.
  unfold values_bytes. induction values as [|v values IH]; [done|]. rewrite fmap_cons. cbn [concat]. autorewrite with len. rewrite IH. lia.
Qed.

Lemma put_values_spec values pre :
  put_values (pre ++ zeros (length values * 8)) (len pre) values = pre ++ values_bytes values.
Proof.
  revert pre. induction values as [|v values IH]; intros pre; [done|]. cbn [put_values length]. unfold put_u64, values_bytes.
  rewrite Nat.mul_succ_l, Nat.add_comm, zeros_app. rewrite put_middle by (unfold zeros; by rewrite length_replicate, length_le_encode).
  rewrite app_assoc. replace (len pre + 8) with (len (pre ++ le_encode 8 v)) by (autorewrite with len; lia).
  rewrite IH. rewrite fmap_cons. cbn [concat]. by rewrite <- app_assoc.
Qed.

Lemma read_values_spec values pre post : Forall (fun v => v <= U64_MAX) values -> len pre + 8 * len values <= U64_MAX ->
  read_values (pre ++ values_bytes values ++ post) (len pre) (length values) = Ok (values, len pre + 8 * len values).
Proof.
  intros Hv. revert pre. induction Hv as [|v values Hv Hvs IH]; intros pre Hmax; [cbn; by rewrite N.mul_0_r, N.add_0_r|].
  cbn [length read_values]. unfold values_bytes in *. rewrite fmap_cons. cbn [concat]. rewrite len_cons in Hmax.
  rewrite (proj2 (read_u64_Ok _ (len pre) v ltac:(lia))).
  - rewrite checked_add_fits by lia. cbn [ok_or]. replace (len pre + 8) with (len (pre ++ le_encode 8 v)) by (autorewrite with len; lia).
    rewrite <- app_assoc, app_assoc. rewrite IH by (autorewrite with len; lia). autorewrite with len. do 2 f_equal. lia.
  - autorewrite with len. split_and!; [lia| |done]. rewrite <- app_assoc. apply slice_app; [done|]. autorewrite with len. lia.
Qed.

Lemma snapshot_encode_at s b : snapshot_ok s -> snapshot_encode s = Ok b ->
  let values := sn_roots s ++ sn_required_capabilities s ++ sn_optional_capabilities s in
  exists hb, b = hb ++ values_bytes values /\ len hb = 160 /\ snapshot_at b s /\
    validate_arrays (sn_roots s) (sn_required_capabilities s) (sn_optional_capabilities s) = Ok tt /\
    len (sn_roots s) <= U32_MAX /\ len (sn_required_capabilities s) <= U32_MAX /\ len (sn_optional_capabilities s) <= U32_MAX.
Proof.
  intros Hok He. unfold snapshot_encode in He. step_result He. injection He as <-. destruct a.
  assert (Hu32 : forall n m, try_u32 n = Some m -> m = n /\ n <= U32_MAX).
  { intros n m. unfold try_u32. destruct (N.leb_spec n U32_MAX); [by intros [= <-]|done]. }
  apply ok_or_Ok in Heqr4 as [-> H1]%Hu32, Heqr5 as [-> H2]%Hu32, Heqr6 as [-> H3]%Hu32.
  option_facts. match goal with H : checked_mul _ _ = Some _ |- _ => unfold checked_mul in H; destruct (_ <=? _); [injection H as <-|done] end.
  destruct s as [sq pd pfo ro rl lv rd roots req opt].
  destruct Hok as (_ & Hpd & _ & _ & _ & _ & Hrd & _).
  cbn [sn_sequence sn_parent_snapshot_digest sn_previous_footer_offset sn_directory_root_offset sn_directory_root_len
    sn_directory_root_level sn_directory_root_digest sn_roots sn_required_capabilities sn_optional_capabilities] in *.
  set (values := roots ++ req ++ opt). set (tail := zeros (length values * 8)).
  replace (zeros (N.to_nat (SNAPSHOT_HEADER_LEN + (len roots + len req + len opt) * 8))) with (zeros 160 ++ tail).
  2: { unfold tail. rewrite <- zeros_app. f_equal. unfold values, SNAPSHOT_HEADER_LEN, len in *. rewrite !length_app. lia. }
  revert H1 H2 H3. unfold snapshot_at. cbn [sn_sequence sn_parent_snapshot_digest sn_previous_footer_offset sn_directory_root_offset sn_directory_root_len
    sn_directory_root_level sn_directory_root_digest sn_roots sn_required_capabilities sn_optional_capabilities].
  generalize (len roots) (len req) (len opt). intros c1 c2 c3 H1 H2 H3. explode pd. explode rd.
  match goal with |- context [put_values ?x _ _] => set (full := x) end.
  exists (take 160 full). assert (Hf : full = take 160 full ++ tail) by reflexivity.
  assert (Hl : len (take 160 full) = 160) by reflexivity.
  assert (Hput : put_values full SNAPSHOT_HEADER_LEN values = take 160 full ++ values_bytes values).
  { rewrite Hf at 1. change SNAPSHOT_HEADER_LEN with 160. rewrite <- Hl at 1. apply put_values_spec. }
  rewrite Hput. split; [done|split; [exact Hl|split; [|by split_and!]]].
  generalize (values_bytes values). intros vb. split_and!; reflexivity.
Qed.

(** Limits that admit a snapshot. *)
Definition snapshot_admitted (s : Snapshot) (limits : ValidationLimits) : Prop :=
  let n := len (sn_roots s ++ sn_required_capabilities s ++ sn_optional_capabilities s) in
  len (sn_roots s) <= max_roots limits /\
  len (sn_required_capabilities s) + len (sn_optional_capabilities s) <= max_capabilities limits /\
  SNAPSHOT_HEADER_LEN + 8 * n <= max_snapshot_bytes limits.

Lemma snapshot_encode_parses s b limits : snapshot_ok s -> snapshot_encode s = Ok b -> snapshot_admitted s limits ->
  len b = SNAPSHOT_HEADER_LEN + 8 * len (sn_roots s ++ sn_required_capabilities s ++ sn_optional_capabilities s) /\
  snapshot_parse b limits = Ok s.
Proof.
  intros Hok He (Hroots & Hcaps & Hbytes). destruct (snapshot_encode_at s b Hok He) as (hb & Hb & Hl & Hat & Harr & H1 & H2 & H3).
  destruct s as [sq pd pfo ro rl lv rd roots req opt]. unfold snapshot_ok, snapshot_at in *.
  cbn [sn_sequence sn_parent_snapshot_digest sn_previous_footer_offset sn_directory_root_offset sn_directory_root_len
    sn_directory_root_level sn_directory_root_digest sn_roots sn_required_capabilities sn_optional_capabilities] in *.
  destruct_and!. subst rl. rewrite !Forall_app in *. destruct_and!.
  assert (Hlen : len b = 160 + 8 * len (roots ++ req ++ opt)) by (rewrite Hb; autorewrite with len; rewrite Hl, values_bytes_len; autorewrite with len; lia).
  unfold U32_MAX in *. autorewrite with len in *.
  split; [done|]. unfold snapshot_parse, SNAPSHOT_HEADER_LEN in *. rewrite bool_decide_eq_true_2 by done.
  assert (PAGE_SIZE <= U32_MAX) by (by apply N.leb_le). unfold U32_MAX in *.
  read_back. rewrite (proj2 (N.ltb_ge _ _) Hroots). cbn [negb]. unfold U64_MAX in *. rewrite checked_add_fits by (unfold U64_MAX; lia). cbn [ok_or].
  rewrite (proj2 (N.ltb_ge _ _) Hcaps). cbn [negb]. rewrite checked_add_fits by (unfold U64_MAX; lia). cbn [ok_or].
  rewrite checked_add_fits by (unfold U64_MAX; lia). cbn [ok_or]. unfold checked_mul.
  rewrite (proj2 (N.leb_le _ U64_MAX)) by (unfold U64_MAX; lia). cbn [ok_or]. rewrite checked_add_fits by (unfold U64_MAX; lia). cbn [ok_or].
  rewrite (proj2 (N.eqb_eq (len b) _)) by lia. unfold to_u64. rewrite try_u64_fits by (unfold U64_MAX; lia). cbn [ok_or].
  rewrite (proj2 (N.ltb_ge (max_snapshot_bytes limits) _)) by lia. cbn [negb].
  assert (Hread : forall pre values post, Forall (fun v => v <= U64_MAX) values -> b = pre ++ values_bytes values ++ post ->
    read_u64_array b (len pre) (len values) = Ok (values, len pre + 8 * len values)).
  { intros pre values post Hv E. unfold read_u64_array. rewrite len_to_nat. rewrite E at 1. apply read_values_spec; [done|].
    assert (Hle : len pre + 8 * len values <= len b) by (rewrite E; autorewrite with len; rewrite values_bytes_len; lia).
    unfold U64_MAX. lia. }
  assert (Hvs : b = hb ++ values_bytes roots ++ values_bytes req ++ values_bytes opt).
  { rewrite Hb. unfold values_bytes. by rewrite !fmap_app, !concat_app. }
  pose proof (Hread hb roots _ ltac:(done) Hvs) as R1. rewrite Hl in R1. rewrite R1, <- Hl. cbv beta iota.
  replace (len hb + 8 * len roots) with (len (hb ++ values_bytes roots)) by (autorewrite with len; by rewrite values_bytes_len).
  rewrite (Hread (hb ++ values_bytes roots) req (values_bytes opt)) by (first [done|by rewrite <- app_assoc]). cbv beta iota.
  replace (len (hb ++ values_bytes roots) + 8 * len req) with (len ((hb ++ values_bytes roots) ++ values_bytes req))
    by (autorewrite with len; by rewrite !values_bytes_len).
  rewrite (Hread ((hb ++ values_bytes roots) ++ values_bytes req) opt []) by (first [done|by rewrite app_nil_r, <- !app_assoc]). cbv beta iota.
  rewrite Harr. cbv beta iota. read_back. by rewrite N.eqb_refl.
Qed.

Lemma snapshot_parse_facts b limits s : snapshot_parse b limits = Ok s ->
  sn_sequence s <= U64_MAX /\ length (sn_parent_snapshot_digest s) = 32%nat /\ sn_directory_root_level s <= U16_MAX /\
  sn_directory_root_offset s <= U64_MAX /\ length (sn_directory_root_digest s) = 32%nat /\
  validate_arrays (sn_roots s) (sn_required_capabilities s) (sn_optional_capabilities s) = Ok tt.
Proof.
  unfold snapshot_parse. intros Hp. step_all Hp. injection Hp as <-.
  cbn [sn_sequence sn_parent_snapshot_digest sn_directory_root_offset sn_directory_root_level sn_directory_root_digest sn_roots
    sn_required_capabilities sn_optional_capabilities]. destruct_unit. read_facts.
  subst. split_and!; try done; by apply slice_length; lia.
Qed.
