(* ===== verification/Exp0002Strict.v ===== *)
(** Strict validation of EXP-0002 files against its specification. The
    directory of a file is a tree of pages, every page located by its parent's
    offset, digest, level and key range; [validate_directory] accepts exactly
    such trees, and [validate_strict] exactly the files they are the directory
    of. *)

From Stdlib Require Import Strings.Byte Strings.String NArith ZArith Lia.
From stdpp Require Import base list gmap strings sorting.
From S2P Require Import Prelude Order Digest Exp0002 Exp0002File Exp0002Pages.

Local Open Scope N_scope.

Definition locator_of (e : InternalEntry) : PageLocator :=
  mkPageLocator (ie_min_key e) (ie_max_key e) (ie_page_offset e) (ie_level e) (ie_page_digest e).

Definition locator_of_expected (e : Expected) : PageLocator :=
  mkPageLocator (ex_min_key e) (ex_max_key e) (ex_offset e) (ex_level e) (ex_digest e).

Definition root_locator (s : Snapshot) : PageLocator :=
  mkPageLocator 0 U64_MAX (sn_directory_root_offset s) (sn_directory_root_level s) (sn_directory_root_digest s).

Definition page_range (offset : N) : N * N := (offset, offset + PAGE_SIZE).

Section Tree.
Context `{H : Sha256}.
Implicit Types b : bytes.

(** The page a locator leads to. A minimum of zero and a maximum of
    [U64_MAX] stand for any. *)
Definition page_present b (sequence : N) (l : PageLocator) (p : ParsedPage) : Prop :=
  pl_offset l + PAGE_SIZE <= len b /\ pl_offset l + PAGE_SIZE <= U64_MAX /\
  digest_bytes PAGE_DOMAIN (slice b (pl_offset l) (pl_offset l + PAGE_SIZE)) = pl_digest l /\
  parse_page (slice b (pl_offset l) (pl_offset l + PAGE_SIZE)) = Ok p /\
  ph_level (page_header p) = pl_level l /\
  (pl_min_key l = 0 \/ ph_min_key (page_header p) = pl_min_key l) /\
  (pl_max_key l = U64_MAX \/ ph_max_key (page_header p) = pl_max_key l) /\
  ph_sequence (page_header p) = sequence.

(** The page at a locator roots a tree of [h] internal levels over the entries
    [es], with its pages at the offsets [offs]. *)
Fixpoint dtree b (sequence : N) (h : nat) (l : PageLocator) (es : list LeafEntry) (offs : list N) : Prop :=
  match h with
  | O => exists hd, page_present b sequence l (PLeaf hd es) /\ offs = [pl_offset l]
  | S h => exists hd children (subs : list (list LeafEntry * list N)), page_present b sequence l (PInternal hd children) /\
      Forall2 (fun c sub => dtree b sequence h (locator_of c) sub.1 sub.2) children subs /\
      es = concat subs.*1 /\ offs = pl_offset l :: concat subs.*2
  end.

Definition expected_tree b (sequence : N) (e : Expected) (sub : list LeafEntry * list N) : Prop :=
  dtree b sequence (N.to_nat (ex_level e)) (locator_of_expected e) sub.1 sub.2.

Lemma page_present_leaf b sq l hd es : page_present b sq l (PLeaf hd es) -> pl_level l = 0 /\ es <> [] /\ Forall leaf_ok es /\ leaf_ordered es /\
  le_object_id <$> head es = Some (ph_min_key hd) /\ le_object_id <$> last es = Some (ph_max_key hd).
Proof.
  intros (_ & _ & _ & Hp & Hl & _). apply parse_page_leaf in Hp as (Hat & Hlev & Ho). apply leaf_order_Ok in Ho as (Hmin & Hmax & Ho).
  cbn [page_header] in Hl. split_and!; [congruence|intros ->; discriminate| |done|done|done].
  destruct Hat as (_ & _ & _ & _ & _ & _ & _ & He). apply Forall_forall. intros e (i & Hi)%list_elem_of_lookup.
  specialize (He i e Hi). apply leaf_parse_Ok in He. apply He.
Qed.

Lemma page_present_internal b sq l hd es : page_present b sq l (PInternal hd es) ->
  pl_level l <> 0 /\ es <> [] /\ Forall internal_ok es /\ ranges_ordered es /\ Forall (fun e => pl_level l = ie_level e + 1) es /\
  ie_min_key <$> head es = Some (ph_min_key hd) /\ ie_max_key <$> last es = Some (ph_max_key hd).
Proof.
  intros (_ & _ & _ & Hp & Hl & _). apply parse_page_internal in Hp as (Hat & Hlev & Ho). apply internal_order_Ok in Ho as (Hmin & Hmax & Hls & Ho).
  cbn [page_header] in Hl. split_and!; [congruence|intros ->; discriminate| |done| |done|done].
  - destruct Hat as (_ & _ & _ & _ & _ & _ & _ & He). apply Forall_forall. intros e (i & Hi)%list_elem_of_lookup.
    specialize (He i e Hi). apply internal_parse_Ok in He. apply He.
  - eapply Forall_impl; [exact Hls|]. cbv beta. intros e [Hlv _]. congruence.
Qed.

Lemma page_present_range b sq l p : page_present b sq l p ->
  ph_min_key (page_header p) <> 0 /\ pl_min_key l <= ph_min_key (page_header p) /\
  ph_max_key (page_header p) <= pl_max_key l /\ ph_max_key (page_header p) <= U64_MAX.
Proof.
  intros (_ & _ & _ & Hp & _ & Hmin & Hmax & _).
  assert (Hok : page_header_ok (page_header p)).
  { destruct p as [hd es|hd es]; [apply parse_page_leaf in Hp as ((_ & Hok & _) & _)|apply parse_page_internal in Hp as ((_ & Hok & _) & _)]; done. }
  destruct Hok as (_ & _ & _ & ? & ? & ? & _). split_and!; [done|lia|lia|done].
Qed.

Lemma dtree_level b sq h l es offs : dtree b sq h l es offs -> pl_level l = N.of_nat h.
Proof.
  revert l es offs. induction h as [|h IH]; intros l es offs; cbn [dtree].
  - intros (hd & Hp & _). apply page_present_leaf in Hp as [Hl _]. exact Hl.
  - intros (hd & cs & subs & Hp & Hf & _). apply page_present_internal in Hp as (_ & Hne & _ & _ & Hl & _).
    destruct Hf as [|c sub cs subs Hc Hf]; [done|]. apply Forall_cons in Hl as [Hl _]. specialize (IH _ _ _ Hc). cbn [locator_of pl_level] in IH. lia.
Qed.

Lemma dtree_offsets b sq h l es offs o : dtree b sq h l es offs -> o ∈ offs -> o + PAGE_SIZE <= len b /\ o + PAGE_SIZE <= U64_MAX.
Proof.
  revert l es offs. induction h as [|h IH]; intros l es offs; cbn [dtree].
  - intros (hd & Hp & ->) ->%list_elem_of_singleton. split; apply Hp.
  - intros (hd & cs & subs & Hp & Hf & _ & ->) [->|Ho]%elem_of_cons; [split; apply Hp|].
    apply elem_of_concat in Ho as (os & (sub & -> & Hs)%list_elem_of_fmap & Ho).
    apply list_elem_of_lookup in Hs as (i & Hi). destruct (Forall2_lookup_r _ _ _ _ _ Hf Hi) as (c & _ & Hc). by eapply IH.
Qed.

Lemma ranges_head_last (cs : list InternalEntry) c z : ranges_ordered (c :: cs) -> Forall internal_ok (c :: cs) -> last (c :: cs) = Some z ->
  ie_min_key c <= ie_max_key z /\ ie_max_key c <= ie_max_key z.
Proof.
  revert c. induction cs as [|y cs IH]; intros c Ho Hoks Hz.
  - injection Hz as <-. apply Forall_cons in Hoks as [(_ & Hk & _) _]. done.
  - inversion Ho as [|? ? Ho' Hh]; subst. inversion Hh as [|? ? Hlt]; subst. apply Forall_cons in Hoks as [(_ & Hk & _) Hoks].
    destruct (IH y Ho' Hoks Hz). apply Forall_cons in Hoks as [(_ & Hy & _) _]. lia.
Qed.

(** Entries in the ranges of successive siblings are in order. *)
Lemma siblings_ordered (cs : list InternalEntry) (ess : list (list LeafEntry)) :
  ranges_ordered cs -> Forall internal_ok cs ->
  Forall2 (fun c es => leaf_ordered es /\ forall e, e ∈ es -> ie_min_key c <= le_object_id e <= ie_max_key c) cs ess ->
  leaf_ordered (concat ess) /\
  forall e, e ∈ concat ess -> forall lo hi, ie_min_key <$> head cs = Some lo -> ie_max_key <$> last cs = Some hi -> lo <= le_object_id e <= hi.
Proof.
  intros Ho Hoks Hf. induction Hf as [|c es cs ess [Hs Hb] Hf IH].
  { split; [constructor|]. intros e He. by apply elem_of_nil in He. }
  inversion Ho as [|? ? Ho' Hh]; subst. destruct (IH Ho' (proj2 (proj1 (Forall_cons _ _ _) Hoks))) as (Hs' & Hb'). cbn [concat].
  assert (Hnext : forall e, e ∈ concat ess -> forall hi, ie_max_key <$> last cs = Some hi -> ie_max_key c < le_object_id e <= hi).
  { intros e He hi Ehi. destruct Hh as [|c' cs' Hlt]; [discriminate|]. destruct (Hb' e He _ _ eq_refl Ehi). lia. }
  assert (Hlast : concat ess <> [] -> exists hi, ie_max_key <$> last cs = Some hi).
  { destruct cs as [|c' cs']; [inversion Hf; done|]. intros _. destruct (last (c' :: cs')) as [z|] eqn:Ez; [by eexists|by apply last_None in Ez]. }
  split.
  - apply ordered_app. split_and!; [done|done|]. intros x y Hx Hy. unfold key_lt.
    destruct Hlast as [hi Ehi]; [by intros E; rewrite E in Hy; apply elem_of_nil in Hy|]. specialize (Hb x Hx). specialize (Hnext y Hy hi Ehi). lia.
  - intros e He lo hi Elo Ehi. injection Elo as <-. destruct (last (c :: cs)) as [z|] eqn:Ez; [|done]. injection Ehi as <-.
    destruct (ranges_head_last cs c z Ho Hoks Ez) as [_ Hcz]. apply elem_of_app in He as [He|He]; [specialize (Hb e He); lia|].
    destruct cs as [|c' cs']; [inversion Hf; subst; by apply elem_of_nil in He|].
    pose proof (Hnext e He (ie_max_key z)) as Hn. cbn [last] in Ez, Hn. rewrite Ez in Hn. specialize (Hn eq_refl).
    apply Forall_cons in Hoks as [(_ & Hk & _) _]. lia.
Qed.

(** The entries are in order, and within the range of their page. *)
Lemma dtree_ordered b sq h l es offs : dtree b sq h l es offs ->
  leaf_ordered es /\ Forall leaf_ok es /\ es <> [] /\ forall e, e ∈ es -> pl_min_key l <= le_object_id e <= pl_max_key l.
Proof.
  revert l es offs. induction h as [|h IH]; intros l es offs; cbn [dtree].
  - intros (hd & Hp & _). pose proof (page_present_range _ _ _ _ Hp) as (_ & Hlo & Hhi & _). cbn [page_header] in *.
    apply page_present_leaf in Hp as (_ & Hne & Hok & Ho & Hmin & Hmax). split_and!; [done|done|done|]. intros e He.
    destruct (head es) as [first|] eqn:Ehd; [|done]. destruct (last es) as [last_|] eqn:Elast; [|done]. injection Hmin as Hmin. injection Hmax as Hmax.
    pose proof (ordered_head es first e Ho Ehd He). pose proof (ordered_last es last_ e Ho Elast He). lia.
  - intros (hd & cs & subs & Hp & Hf & -> & _). pose proof (page_present_range _ _ _ _ Hp) as (_ & Hlo & Hhi & _). cbn [page_header] in *.
    apply page_present_internal in Hp as (_ & Hne & Hoks & Ho & _ & Hmin & Hmax).
    destruct (siblings_ordered cs subs.*1 Ho Hoks) as [Hs Hb].
    { apply Forall2_fmap_r. eapply Forall2_impl; [exact Hf|]. cbv beta. intros c sub Hc. destruct (IH _ _ _ Hc) as (? & _ & _ & ?). done. }
    split_and!; [done| | |intros e He; specialize (Hb e He _ _ Hmin Hmax); lia].
    + apply Forall_concat, Forall_fmap, Forall_forall. intros sub (i & Hi)%list_elem_of_lookup.
      destruct (Forall2_lookup_r _ _ _ _ _ Hf Hi) as (c & _ & Hc). by destruct (IH _ _ _ Hc) as (_ & ? & _).
    + destruct Hf as [|c sub cs subs Hc _]; [done|]. rewrite fmap_cons. cbn [concat]. intros [E _]%app_eq_nil.
      by destruct (IH _ _ _ Hc) as (_ & _ & Hn & _).
Qed.

(** ** The walk *)

(** What one page adds to the walk. *)
Definition visited_page (e : Expected) (p : ParsedPage) (w : Walk) : Walk :=
  mkWalk ({[ex_offset e]} ∪ wk_visited w)
    (match p with PLeaf _ es => wk_entries w ++ es | PInternal _ _ => wk_entries w end)
    (wk_page_ranges w ++ [page_range (ex_offset e)]) (wk_hashed w + PAGE_SIZE).

Definition pushed_pages (e : Expected) (p : ParsedPage) : list Expected :=
  match p with
  | PLeaf _ _ => []
  | PInternal _ children =>
      (fun child => mkExpected (ie_page_offset child) (ie_page_digest child) (ie_level child)
                      (ie_min_key child) (ie_max_key child) (ex_depth e + 1)) <$> children
  end.

Definition page_admitted (limits : ValidationLimits) (e : Expected) (p : ParsedPage) (w : Walk) : Prop :=
  ex_depth e <= max_page_depth limits /\ ex_offset e ∉ wk_visited w /\ N.of_nat (size (wk_visited w)) + 1 <= max_pages limits /\
  wk_hashed w + PAGE_SIZE <= max_hashed_bytes limits /\ wk_hashed w + PAGE_SIZE <= U64_MAX /\
  match p with PLeaf _ es => len (wk_entries w) + len es <= max_objects limits | PInternal _ _ => True end.

Lemma add_hashed_Ok hashed amount limits r : add_hashed hashed amount limits = Ok r <->
  r = hashed + amount /\ hashed + amount <= max_hashed_bytes limits /\ hashed + amount <= U64_MAX.
Proof.
  unfold add_hashed. split.
  - intros Ha. step_result Ha. bool_facts. option_facts. injection Ha as <-. lia.
  - intros (-> & Hm & Hu). rewrite checked_add_fits by done. cbn [ok_or]. by rewrite (proj2 (N.ltb_ge _ _) Hm).
Qed.

Lemma page_check l0 l1 c0 c1 m0 m1 s0 s1 :
  negb (negb (l0 =? l1) || (negb (c0 =? 0) && negb (c1 =? c0)) || (negb (m0 =? U64_MAX) && negb (m1 =? m0)) || negb (s0 =? s1)) = true <->
  l0 = l1 /\ (c0 = 0 \/ c1 = c0) /\ (m0 = U64_MAX \/ m1 = m0) /\ s0 = s1.
Proof. rewrite negb_true_iff, !orb_false_iff, !andb_false_iff, !negb_false_iff, !N.eqb_eq. tauto. Qed.

Lemma visited_size (x : N) (s : gset N) : x ∉ s -> N.of_nat (size ({[x]} ∪ s)) = N.of_nat (size s) + 1.
Proof. intros Hx. rewrite size_union, size_singleton by set_solver. lia. Qed.

Lemma visit_page_Ok b s limits e w w' pushed :
  visit_page b s limits e w = Ok (w', pushed) <->
  exists p, page_present b (sn_sequence s) (locator_of_expected e) p /\ page_admitted limits e p w /\
    w' = visited_page e p w /\ pushed = pushed_pages e p.
Proof.
  unfold visit_page, page_present, page_admitted. cbn [locator_of_expected pl_offset pl_digest pl_level pl_min_key pl_max_key]. split.
  - intros Hv. step_all Hv. apply exp2_range_Ok in Heqr as (-> & -> & Hr1 & Hr2). apply add_hashed_Ok in Heqr0 as (-> & Hh1 & Hh2).
    rewrite page_check in *. bool_facts. rewrite visited_size in * by done. exists a0.
    destruct a0 as [hd es|hd es]; step_all Hv; bool_facts; injection Hv as <- <-; cbn [page_header] in *; destruct_and!; rewrite ?len_app in *;
      split_and!; try done; lia.
  - intros (p & (Hr1 & Hr2 & Hd & Hp & Hl & Hmin & Hmax & Hs) & (Hdep & Hv & Hpages & Hh1 & Hh2 & Hobj) & -> & ->).
    rewrite (proj2 (N.ltb_ge _ _) Hdep). rewrite bool_decide_eq_false_2 by done. cbn [negb]. rewrite visited_size by done.
    rewrite (proj2 (N.ltb_ge (max_pages limits) _)) by lia. cbn [negb].
    rewrite (proj2 (exp2_range_Ok (ex_offset e) PAGE_SIZE (len b) _ _)) by (split_and!; [reflexivity|reflexivity|done|done]).
    rewrite (proj2 (add_hashed_Ok (wk_hashed w) PAGE_SIZE limits _)) by (split_and!; [reflexivity|done|done]).
    rewrite bool_decide_eq_true_2 by done. rewrite Hp. rewrite (proj2 (page_check _ _ _ _ _ _ _ _)) by done.
    destruct p as [hd es|hd es]; [|done]. rewrite (proj2 (N.ltb_ge (max_objects limits) _)) by (rewrite len_app; lia). done.
Qed.

(** ** The stack *)

Lemma expected_subtrees b sq e hd cs subs : page_present b sq (locator_of_expected e) (PInternal hd cs) ->
  Forall2 (fun c sub => dtree b sq (N.to_nat (ex_level e) - 1) (locator_of c) sub.1 sub.2) cs subs <->
  Forall2 (expected_tree b sq) (pushed_pages e (PInternal hd cs)) subs.
Proof.
  intros Hp. apply page_present_internal in Hp as (Hl0 & _ & _ & _ & Hls & _). cbn [locator_of_expected pl_level] in *. unfold pushed_pages.
  rewrite Forall2_fmap_l. assert (Heq : forall c sub, c ∈ cs -> dtree b sq (N.to_nat (ex_level e) - 1) (locator_of c) sub.1 sub.2 <->
    expected_tree b sq (mkExpected (ie_page_offset c) (ie_page_digest c) (ie_level c) (ie_min_key c) (ie_max_key c) (ex_depth e + 1)) sub).
  { intros c sub Hc. pose proof (proj1 (Forall_forall _ _) Hls c Hc) as Hl. cbv beta in Hl. unfold expected_tree, locator_of_expected.
    cbn [ex_level ex_min_key ex_max_key ex_offset ex_digest]. by replace (N.to_nat (ex_level e) - 1)%nat with (N.to_nat (ie_level c)) by lia. }
  clear Hls. split; intros Hf; (induction Hf as [|c sub cs subs Hc Hf IH]; [constructor|]); (constructor; [apply Heq; [by left|done]|]);
    apply IH; intros x y Hx; apply Heq; by right.
Qed.

(** The tree at the top of a stack, page and subtrees. *)
Lemma expected_tree_unfold b sq e sub : expected_tree b sq e sub <->
  exists p subs, page_present b sq (locator_of_expected e) p /\ Forall2 (expected_tree b sq) (pushed_pages e p) subs /\
    sub = ((match p with PLeaf _ es => es | PInternal _ _ => [] end) ++ concat subs.*1, ex_offset e :: concat subs.*2).
Proof.
  unfold expected_tree at 1. destruct sub as [es offs]. cbn [fst snd]. destruct (N.to_nat (ex_level e)) as [|h] eqn:Eh; cbn [dtree]; split.
  - intros (hd & Hp & ->). exists (PLeaf hd es), []. split_and!; [done|constructor|]. cbn. by rewrite app_nil_r.
  - intros ([hd es'|hd cs] & subs & Hp & Hf & [= -> ->]).
    + apply Forall2_nil_inv_l in Hf as ->. exists hd. cbn. by rewrite app_nil_r.
    + apply page_present_internal in Hp as (Hl & _). cbn [locator_of_expected pl_level] in Hl. lia.
  - intros (hd & cs & subs & Hp & Hf & -> & ->). exists (PInternal hd cs), subs. split_and!; [done| |done].
    apply expected_subtrees; [done|]. by replace (N.to_nat (ex_level e) - 1)%nat with h by lia.
  - intros ([hd es'|hd cs] & subs & Hp & Hf & [= -> ->]).
    + apply page_present_leaf in Hp as (Hl & _). cbn [locator_of_expected pl_level] in Hl. lia.
    + apply expected_subtrees in Hf; [|done]. exists hd, cs, subs. by replace (N.to_nat (ex_level e) - 1)%nat with h in Hf by lia.
Qed.

Abbreviation subtrees := (list (list LeafEntry * list N)).

Definition walked (w : Walk) (subs : subtrees) : Walk :=
  mkWalk (list_to_set (concat subs.*2) ∪ wk_visited w) (wk_entries w ++ concat subs.*1)
    (wk_page_ranges w ++ (page_range <$> concat subs.*2)) (wk_hashed w + PAGE_SIZE * len (concat subs.*2)).

Definition within (limits : ValidationLimits) (w : Walk) : Prop :=
  N.of_nat (size (wk_visited w)) <= max_pages limits /\ len (wk_entries w) <= max_objects limits /\
  wk_hashed w <= max_hashed_bytes limits /\ wk_hashed w <= U64_MAX.

Definition stack_admitted (limits : ValidationLimits) (stack : list Expected) (subs : subtrees) (w : Walk) : Prop :=
  Forall (fun e => ex_depth e + ex_level e <= max_page_depth limits) stack /\
  NoDup (concat subs.*2) /\ (forall o, o ∈ concat subs.*2 -> o ∉ wk_visited w) /\ (stack = [] \/ within limits (walked w subs)).

Lemma walked_nil w : walked w [] = w.
Proof. destruct w. unfold walked. cbn. by rewrite (left_id_L ∅ _), !app_nil_r, N.mul_0_r, N.add_0_r. Qed.

(** The tree of the page on top, and what is left on the stack after it. *)
Definition top_tree (e : Expected) (p : ParsedPage) (subs : subtrees) : list LeafEntry * list N :=
  ((match p with PLeaf _ es => es | PInternal _ _ => [] end) ++ concat subs.*1, ex_offset e :: concat subs.*2).

Lemma walked_step b sq e p subs1 subs2 w : page_present b sq (locator_of_expected e) p -> Forall2 (expected_tree b sq) (pushed_pages e p) subs1 ->
  walked w (top_tree e p subs1 :: subs2) = walked (visited_page e p w) (subs1 ++ subs2).
Proof.
  intros Hp Hf. unfold walked, top_tree, visited_page. cbn [wk_visited wk_entries wk_page_ranges wk_hashed]. rewrite !fmap_cons, !fmap_app, !concat_app.
  cbn [concat fst snd fmap list_fmap app]. f_equal.
    rewrite list_to_set_cons, (comm_L _ {[ex_offset e]}). by rewrite (assoc_L _).
  - destruct p as [hd es|hd cs]; [|by rewrite <- !app_assoc]. apply Forall2_nil_inv_l in Hf as ->. by rewrite <- !app_assoc.
  - by rewrite fmap_app, <- app_assoc.
  - rewrite len_cons. lia.
Qed.

Lemma size_walked w (subs : subtrees) : NoDup (concat subs.*2) -> (forall o, o ∈ concat subs.*2 -> o ∉ wk_visited w) ->
  N.of_nat (size (wk_visited (walked w subs))) = len (concat subs.*2) + N.of_nat (size (wk_visited w)).
Proof.
  intros Hn Hd. cbn [walked wk_visited]. rewrite size_union; [|set_solver]. rewrite size_list_to_set by done. unfold len. lia.
Qed.

Lemma admitted_step b sq limits e p stack subs1 subs2 w :
  page_present b sq (locator_of_expected e) p -> Forall2 (expected_tree b sq) (pushed_pages e p) subs1 ->
  Forall2 (expected_tree b sq) stack subs2 ->
  stack_admitted limits (e :: stack) (top_tree e p subs1 :: subs2) w <->
  page_admitted limits e p w /\ stack_admitted limits (pushed_pages e p ++ stack) (subs1 ++ subs2) (visited_page e p w).
Proof.
  intros Hp Hf Hf2. unfold stack_admitted. rewrite (walked_step b sq) by done. set (w1 := visited_page e p w).
  assert (Hoffs : concat (top_tree e p subs1 :: subs2).*2 = ex_offset e :: concat (subs1 ++ subs2).*2).
  { rewrite fmap_cons, fmap_app, concat_app. done. }
  rewrite Hoffs. set (offs := concat (subs1 ++ subs2).*2). rewrite Forall_cons, NoDup_cons.
  assert (Hdepth : ex_depth e + ex_level e <= max_page_depth limits <->
    ex_depth e <= max_page_depth limits /\ Forall (fun e => ex_depth e + ex_level e <= max_page_depth limits) (pushed_pages e p)).
  { destruct p as [hd es|hd cs]; cbn [pushed_pages].
    - apply page_present_leaf in Hp as (Hl & _). cbn [locator_of_expected pl_level] in Hl. rewrite Hl, N.add_0_r. split; [|naive_solver].
      intros; split; [done|constructor].
    - apply page_present_internal in Hp as (_ & Hne & _ & _ & Hls & _). cbn [locator_of_expected pl_level] in Hls. rewrite Forall_fmap. split.
      + intros Hd. split; [lia|]. eapply Forall_impl; [exact Hls|]. cbn. intros c Hc. lia.
      + intros [_ Hd]. destruct cs as [|c cs]; [done|]. apply Forall_cons in Hd as [Hd _]. apply Forall_cons in Hls as [Hc _]. cbn in Hd. lia. }
  assert (Hdisj : ex_offset e ∉ offs -> ex_offset e ∉ wk_visited w ->
    (forall o, o ∈ ex_offset e :: offs -> o ∉ wk_visited w) <-> (forall o, o ∈ offs -> o ∉ wk_visited w1)).
  { intros Hn Hv. unfold w1. cbn [visited_page wk_visited]. split.
    - intros Ho o Hin [->%elem_of_singleton|Hov]%elem_of_union; [done|]. by apply (Ho o); [right|].
    - intros Ho o [->|Hin]%elem_of_cons Hov; [done|]. apply (Ho o Hin). by apply elem_of_union_r. }
  unfold page_admitted. split.
  - intros ((Hd & Hds) & (Hn & Hnd) & Hv & [Hw|Hw]); [done|]. apply Hdepth in Hd as [Hd1 Hd2]. pose proof (Hv (ex_offset e) ltac:(by left)) as Hve.
    pose proof (proj1 (Hdisj Hn Hve) Hv) as Hv1. destruct Hw as (Hw1 & Hw2 & Hw3 & Hw4).
    rewrite size_walked in Hw1 by done. unfold w1 in Hw1, Hw2, Hw3, Hw4 |- *. cbn [walked visited_page wk_visited wk_entries wk_hashed] in Hw1, Hw2, Hw3, Hw4.
    rewrite visited_size in Hw1 by done. fold offs in Hw1, Hw3, Hw4.
    split_and!; [done|done|lia|lia|lia| |by apply Forall_app|done|done|].
    + destruct p; [|done]. rewrite !len_app in Hw2. lia.
    + right. unfold within. rewrite size_walked by done. cbn [walked visited_page wk_visited wk_entries wk_hashed]. rewrite visited_size by done. fold offs. split_and!; done.
  - intros ((Hd1 & Hve & Hp1 & Hp2 & Hp3 & Hp4) & Hds & Hnd & Hv1 & Hw). apply Forall_app in Hds as [Hd2 Hds].
    assert (Hn : ex_offset e ∉ offs).
    { intros Ho. specialize (Hv1 _ Ho). unfold w1 in Hv1. cbn [visited_page wk_visited] in Hv1. set_solver. }
    split_and!; [by apply Hdepth|done|done|done|by apply Hdisj|right].
    destruct Hw as [Hnil|Hw]; [|done]. apply app_eq_nil in Hnil as [Hnil ->].
    destruct p as [hd es|hd cs]; [|destruct cs; [by apply page_present_internal in Hp as (_ & ? & _)|done]].
    cbn [pushed_pages] in Hf. apply Forall2_nil_inv_l in Hf as ->. apply Forall2_nil_inv_l in Hf2 as ->.
    cbn [app]. rewrite walked_nil. unfold w1, within. cbn [visited_page wk_visited wk_entries wk_hashed]. rewrite visited_size by done.
    rewrite len_app. split_and!; done.
Qed.

(** The walk succeeds exactly on a stack of trees that share no page, within
    the limits. *)
Lemma walk_loop_Ok b s limits fuel stack w w' :
  walk_loop fuel b s limits stack w = Ok w' <->
  exists subs, Forall2 (expected_tree b (sn_sequence s)) stack subs /\ (length (concat subs.*2) < fuel)%nat /\
    stack_admitted limits stack subs w /\ w' = walked w subs.
Proof.
  revert stack w w'. induction fuel as [|fuel IH]; intros stack w w'; cbn [walk_loop]; [split; [done|intros (? & _ & ? & _); lia]|].
  destruct stack as [|e stack].
  { split.
    - intros [= <-]. exists []. rewrite walked_nil. split_and!; [constructor|cbn; lia| |done]. split_and!; [constructor|constructor|set_solver|by left].
    - intros (subs & ->%Forall2_nil_inv_l & _ & _ & ->). by rewrite walked_nil. }
  split.
  - intros Hr. step_all Hr. apply visit_page_Ok in Heqr as (p & Hp & Hadm & -> & ->). apply IH in Hr as (subs & Hf & Hlt & Had & ->).
    apply Forall2_app_inv_l in Hf as (subs1 & subs2 & Hf1 & Hf2 & ->). exists (top_tree e p subs1 :: subs2). split_and!.
    + constructor; [|done]. apply expected_tree_unfold. by exists p, subs1.
    + revert Hlt. rewrite fmap_cons, fmap_app, concat_app. cbn [concat top_tree snd length app]. rewrite !length_app. lia.
    + by apply (admitted_step b (sn_sequence s)).
    + symmetry. by apply (walked_step b (sn_sequence s)).
  - intros (subs & Hf & Hlt & Had & ->). inversion Hf as [|? sub ? subs2 Ht Hf2]; subst.
    apply expected_tree_unfold in Ht as (p & subs1 & Hp & Hf1 & ->). fold (top_tree e p subs1) in *.
    apply (admitted_step b (sn_sequence s)) in Had as [Hadm Had]; [|done..].
    rewrite (proj2 (visit_page_Ok b s limits e w _ _)) by (exists p; by split_and!). cbv beta iota.
    rewrite (walked_step b (sn_sequence s)) by done. apply IH. exists (subs1 ++ subs2). split_and!; [by apply Forall2_app| |done|done].
    revert Hlt. rewrite fmap_cons, fmap_app, concat_app. cbn [concat top_tree snd length app]. rewrite !length_app. lia.
Qed.

(** ** [validate_directory] *)

Definition directory_admitted (s : Snapshot) (limits : ValidationLimits) (hashed : N) (es : list LeafEntry) (offs : list N) : Prop :=
  1 + sn_directory_root_level s <= max_page_depth limits /\ len offs <= max_pages limits /\ len es <= max_objects limits /\
  hashed + PAGE_SIZE * len offs <= max_hashed_bytes limits /\ hashed + PAGE_SIZE * len offs <= U64_MAX.

Lemma NoDup_bound (l : list N) n : NoDup l -> (forall x, x ∈ l -> x < n) -> len l <= n.
Proof.
  intros Hn Hlt. assert (Hle : (length (N.to_nat <$> l) <= length (seq 0 (N.to_nat n)))%nat).
  { apply submseteq_length, NoDup_submseteq; [apply NoDup_fmap_2; [intros x y; lia|done]|].
    intros i (x & -> & Hx)%list_elem_of_fmap. apply elem_of_seq. specialize (Hlt x Hx). lia. }
  rewrite length_fmap, length_seq in Hle. unfold len. lia.
Qed.

Lemma sorted_leaves_id es : leaf_ordered es -> sort_by (cmp_on le_object_id N.compare) es = es.
Proof.
  intros Hs. apply sort_by_sorted_id. apply StronglySorted_Sorted. induction Hs as [|e es Hs IH Hf]; constructor; [done|].
  eapply Forall_impl; [exact Hf|]. unfold key_lt, cmp_le, cmp_on. intros x Hx. rewrite N.compare_le_iff. lia.
Qed.

Lemma no_duplicate_ids es : leaf_ordered es ->
  check_windows (fun x y => if le_object_id y <=? le_object_id x then Some (DuplicateObjectId (le_object_id y)) else None) es = Ok tt.
Proof.
  intros Hs. apply check_windows_Ok. apply StronglySorted_Sorted in Hs. eapply Sorted_mono; [|exact Hs]. unfold key_lt.
  intros x y Hxy. cbv beta. by rewrite (proj2 (N.leb_gt _ _) Hxy).
Qed.

Definition root_expected (s : Snapshot) : Expected :=
  mkExpected (sn_directory_root_offset s) (sn_directory_root_digest s) (sn_directory_root_level s) 0 U64_MAX 1.

(** The walk from the root succeeds on the trees with no page used twice that
    the limits admit. *)
Lemma root_walk_Ok b s limits hashed fuel w :
  walk_loop fuel b s limits [root_expected s] (mkWalk ∅ [] [] hashed) = Ok w <->
  exists es offs, dtree b (sn_sequence s) (N.to_nat (sn_directory_root_level s)) (root_locator s) es offs /\ NoDup offs /\
    directory_admitted s limits hashed es offs /\ (length offs < fuel)%nat /\
    w = mkWalk (list_to_set offs) es (page_range <$> offs) (hashed + PAGE_SIZE * len offs).
Proof.
  assert (Hwalked : forall es offs, walked (mkWalk ∅ [] [] hashed) [(es, offs)] = mkWalk (list_to_set offs) es (page_range <$> offs) (hashed + PAGE_SIZE * len offs)).
  { intros es offs. unfold walked. cbn [concat fmap list_fmap fst snd wk_visited wk_entries wk_page_ranges wk_hashed app]. by rewrite !app_nil_r, (right_id_L ∅ _). }
  assert (Hadm : forall es offs, NoDup offs -> stack_admitted limits [root_expected s] [(es, offs)] (mkWalk ∅ [] [] hashed) <-> directory_admitted s limits hashed es offs).
  { intros es offs Hn. unfold stack_admitted, directory_admitted, within. rewrite Hwalked. cbn [concat fmap list_fmap snd wk_visited wk_entries wk_hashed].
    rewrite !app_nil_r, size_list_to_set by done. rewrite Forall_singleton. cbn [root_expected ex_depth ex_level]. unfold len. split.
    - intros (? & _ & _ & [|]); [done|tauto].
    - intros (? & ? & ? & ? & ?). split_and!; [done|done|set_solver|right; tauto]. }
  rewrite walk_loop_Ok. split.
  - intros (subs & Hf & Hlt & Had & ->). inversion Hf as [|? [es offs] ? ? Ht Hnil]; subst. apply Forall2_nil_inv_l in Hnil as ->.
    unfold expected_tree in Ht. cbn [fst snd] in Ht. pose proof Had as (_ & Hn & _). cbn [concat fmap list_fmap snd] in Hn, Hlt. rewrite app_nil_r in Hn, Hlt.
    exists es, offs. split_and!; [done|done|by apply Hadm|done|apply Hwalked].
  - intros (es & offs & Ht & Hn & Had & Hlt & ->). exists [(es, offs)]. cbn [concat fmap list_fmap snd]. rewrite app_nil_r.
    split_and!; [by repeat constructor|done|by apply Hadm|symmetry; apply Hwalked].
Qed.

(** What [validate_directory] accepts: the trees with no page used twice that
    the limits admit. The entries come out in order; the check for duplicate
    identifiers never fires. *)
Lemma validate_directory_Ok b s limits hashed dv hashed' :
  validate_directory b s limits hashed = Ok (dv, hashed') <->
  exists es offs, dtree b (sn_sequence s) (N.to_nat (sn_directory_root_level s)) (root_locator s) es offs /\ NoDup offs /\
    directory_admitted s limits hashed es offs /\
    dv = mkDirectoryValidation es (page_range <$> offs) (len offs) /\ hashed' = hashed + PAGE_SIZE * len offs.
Proof.
  unfold validate_directory. fold (root_expected s). split.
  - intros Hv. step_all Hv. apply root_walk_Ok in Heqr as (es & offs & Ht & Hn & Had & _ & ->). injection Hv as <- <-. exists es, offs.
    cbn [wk_entries wk_visited wk_page_ranges wk_hashed]. destruct (dtree_ordered _ _ _ _ _ _ Ht) as (Hs & _). rewrite sorted_leaves_id by done.
    split_and!; [done|done|done| |done]. f_equal. by rewrite size_list_to_set by done.
  - intros (es & offs & Ht & Hn & Had & -> & ->). rewrite (proj2 (root_walk_Ok b s limits hashed (S (S (length b)))
      (mkWalk (list_to_set offs) es (page_range <$> offs) (hashed + PAGE_SIZE * len offs)))).
    2: { exists es, offs. split_and!; [done|done|done| |reflexivity].
      assert (Hl : len offs <= len b).
      { apply NoDup_bound; [done|]. intros o Ho. destruct (dtree_offsets _ _ _ _ _ _ o Ht Ho) as [Hle _]. assert (0 < PAGE_SIZE) by done. lia. }
      unfold len in Hl. lia. }
    cbn [wk_entries wk_visited wk_page_ranges wk_hashed]. destruct (dtree_ordered _ _ _ _ _ _ Ht) as (Hs & _). rewrite sorted_leaves_id, no_duplicate_ids by done.
    by rewrite size_list_to_set by done.
Qed.
End Tree.

(** ** Disjoint ranges *)

Definition apart (x y : N * N) : Prop := ranges_overlap x y = false.
Definition disjoint_ranges : list (N * N) -> Prop := StronglySorted apart.

#[export] Instance apart_symmetric : Symmetric apart.
Proof. intros x y. unfold apart, ranges_overlap. rewrite !andb_false_iff. tauto. Qed.

Lemma apart_le x y : apart x y <-> x.2 <= y.1 \/ y.2 <= x.1.
Proof. unfold apart, ranges_overlap. rewrite andb_false_iff, !N.ltb_ge. tauto. Qed.

Lemma StronglySorted_Permutation {A} (R : A -> A -> Prop) `{!Symmetric R} l k : l ≡ₚ k -> StronglySorted R l -> StronglySorted R k.
Proof.
  induction 1 as [|x l k Hp IH|x y l|l k m _ IH1 _ IH2]; intros Hs; [constructor| | |by auto].
  - apply StronglySorted_inv in Hs as [Hs Hf]. constructor; [by apply IH|]. by rewrite <- Hp.
  - apply StronglySorted_inv in Hs as [Hs Hy]. apply StronglySorted_inv in Hs as [Hs Hx]. apply Forall_cons in Hy as [Hyx Hy].
    constructor; [by constructor|]. constructor; [by symmetry|done].
Qed.

#[export] Instance disjoint_ranges_Permutation : Proper ((≡ₚ) ==> iff) disjoint_ranges.
Proof. intros l k Hp. split; apply StronglySorted_Permutation; [apply _|done|apply _|by symmetry]. Qed.

Lemma disjoint_app l k : disjoint_ranges (l ++ k) <-> disjoint_ranges l /\ disjoint_ranges k /\ forall x y, x ∈ l -> y ∈ k -> apart x y.
Proof.
  unfold disjoint_ranges. induction l as [|x l IH]; cbn [app].
  { split; [intros Hs; split_and!; [constructor|done|intros ? ? Hx; by apply elem_of_nil in Hx]|tauto]. }
  split.
  - intros [Hs Hf]%StronglySorted_inv. apply IH in Hs as (H1 & H2 & H3). apply Forall_app in Hf as [Hf1 Hf2].
    split_and!; [by constructor|done|]. intros a c [->|Ha]%elem_of_cons Hc; [|by apply H3]. by apply (proj1 (Forall_forall _ _) Hf2).
  - intros ([H1 Hf]%StronglySorted_inv & H2 & H3). constructor.
    + apply IH. split_and!; [done|done|]. intros a c Ha Hc. apply H3; [by right|done].
    + apply Forall_app. split; [done|]. apply Forall_forall. intros c Hc. apply H3; [by left|done].
Qed.

(** Adjacent ranges that do not overlap, in the order of their starts. *)
Lemma windows_disjoint (rs : list (N * N)) e u : Forall (fun r => r.1 < r.2) rs ->
  no_window ranges_overlap e (sort_by (cmp_on fst N.compare) rs) = Ok u <-> disjoint_ranges rs.
Proof.
  intros Hne. rewrite no_window_Ok. pose proof (sort_by_Permutation (cmp_on fst N.compare) rs) as Hp.
  assert (Hs : StronglySorted (cmp_le (cmp_on fst N.compare)) (sort_by (cmp_on fst N.compare) rs)) by (apply sort_by_StronglySorted, cmp_on_total, strict_total).
  rewrite <- Hp in Hne. revert Hp Hs Hne. generalize (sort_by (cmp_on fst N.compare) rs). intros l Hp Hs Hne.
  rewrite <- Hp. clear Hp rs. rename l into rs. split; [|apply StronglySorted_Sorted].
  induction Hs as [|x rs Hs IH Hle]; intros Hw; [constructor|]. apply Forall_cons in Hne as [Hx Hne]. inversion Hw as [|? ? Hw' Hh]; subst.
  specialize (IH Hne Hw'). constructor; [done|]. apply Forall_forall. intros y Hy.
  destruct Hh as [|z rs Hz]; [by apply elem_of_nil in Hy|]. apply apart_le.
  apply Forall_cons in Hle as [Hxz _]. apply Forall_cons in Hne as [Hzne _]. apply StronglySorted_inv in Hs as [_ Hzs].
  unfold cmp_le, cmp_on in Hxz. rewrite N.compare_le_iff in Hxz. apply (proj1 (apart_le x z)) in Hz.
  assert (Hzy : z.1 <= y.1).
  { apply elem_of_cons in Hy as [->|Hy]; [done|]. pose proof (proj1 (Forall_forall _ _) Hzs y Hy) as Hc. unfold cmp_le, cmp_on in Hc.
    by rewrite N.compare_le_iff in Hc. }
  left. lia.
Qed.

Section Strict.
Context `{H : Sha256}.
Implicit Types b : bytes.

(** ** Records *)

Definition record_range (e : LeafEntry) : N * N := (le_record_offset e, le_record_offset e + le_record_len e).
Definition payload_len (e : LeafEntry) : N := le_record_len e - OBJECT_HEADER_LEN.

(** [bytes] holds the record an entry describes. *)
Definition record_present b (e : LeafEntry) : Prop :=
  le_record_offset e + le_record_len e <= len b /\ le_record_offset e + le_record_len e <= U64_MAX /\
  le_record_len e = OBJECT_HEADER_LEN + le_logical_len e /\
  object_header_parse (slice b (le_record_offset e) (le_record_offset e + OBJECT_HEADER_LEN)) =
    Ok (mkObjectHeader (le_object_id e) (le_kind e) (le_logical_len e) (le_logical_len e)) /\
  digest_bytes OBJECT_DOMAIN (slice b (le_record_offset e) (le_record_offset e + le_record_len e)) = le_record_digest e.

Definition sum_of {A} (f : A -> N) (l : list A) : N := foldr (fun x s => f x + s) 0 l.

Lemma sum_of_app {A} (f : A -> N) l k : sum_of f (l ++ k) = sum_of f l + sum_of f k.
Proof. induction l as [|x l IH]; [done|]. cbn [app sum_of foldr]. fold (sum_of f (l ++ k)) (sum_of f l). rewrite IH. lia. Qed.

Lemma validate_object_Ok b pages sn ft limits physical total hashed e r :
  validate_object b pages sn ft limits (physical, total, hashed) e = Ok r <->
  record_present b e /\ (forall p, p ∈ pages -> apart (record_range e) p) /\ apart (record_range e) sn /\ apart (record_range e) ft /\
  total + le_logical_len e <= max_payload_bytes limits /\ total + le_logical_len e <= U64_MAX /\
  hashed + le_record_len e <= max_hashed_bytes limits /\ hashed + le_record_len e <= U64_MAX /\
  r = (physical ++ [record_range e], total + le_logical_len e, hashed + le_record_len e).
Proof.
  unfold validate_object, record_present, OBJECT_HEADER_LEN.
  assert (Hov : forall range, overlaps_any range pages = false <-> forall p, p ∈ pages -> apart range p).
  { intros range. unfold overlaps_any. rewrite <- not_true_iff_false, existsb_exists. setoid_rewrite <- list_elem_of_In. unfold apart. split.
    - intros Hn p Hp. destruct (ranges_overlap range p) eqn:E; [|done]. destruct Hn. by exists p.
    - intros Ha (p & Hp & E). rewrite (Ha p Hp) in E. done. }
  split.
  - intros Hv. step_all Hv. 
    match goal with E : checked_range _ _ _ = _ |- _ => apply exp2_range_Ok in E as (-> & -> & Hr1 & Hr2) end.
    match goal with E : add_hashed _ _ _ = _ |- _ => apply add_hashed_Ok in E as (-> & Hh1 & Hh2) end.
    bool_facts. option_facts. injection Hv as <-. subst.
    match goal with E : object_header_parse _ = Ok ?a |- _ => pose proof (proj1 (object_header_parse_Ok _ _) E) as Hp; rename a into hd end. destruct Hp as (_ & (_ & _ & _ & _ & Hpl & _) & _).
    destruct hd as [id kind pl ll]. cbn [oh_object_id oh_kind oh_payload_len oh_logical_len] in *. subst.
    match goal with E : 48 + le_logical_len e = le_record_len e |- _ => rename E into Hlen end.
    rewrite ?Hlen in *. fold (record_range e) in *. split_and!; try done. by apply Hov.
  - intros ((Hr1 & Hr2 & Hrl & Hp & Hd) & Hpages & Hsn & Hft & Ht1 & Ht2 & Hh1 & Hh2 & ->). rewrite (proj2 (N.ltb_ge _ 48)) by lia. cbn [negb].
    rewrite (proj2 (exp2_range_Ok (le_record_offset e) (le_record_len e) (len b) _ _)) by (split_and!; [reflexivity|reflexivity|done|done]).
    cbv beta iota. fold (record_range e). rewrite (proj2 (Hov _)) by done. unfold apart in Hsn, Hft. rewrite Hsn, Hft. cbn [orb negb].
    rewrite Hp. cbn [oh_object_id oh_kind oh_payload_len oh_logical_len]. rewrite checked_add_fits by lia. cbn [ok_or].
    rewrite !N.eqb_refl, <- Hrl, N.eqb_refl. cbn [andb]. rewrite checked_add_fits by done. cbn [ok_or]. rewrite (proj2 (N.ltb_ge (max_payload_bytes limits) _)) by done.
    cbn [negb]. rewrite (proj2 (add_hashed_Ok hashed _ limits _)) by (split_and!; [reflexivity|done|done]).
    by rewrite bool_decide_eq_true_2.
Qed.

(** Records in place, apart from each other and from everything else. *)
Definition records_valid b (pages : list (N * N)) (sn ft : N * N) (es : list LeafEntry) : Prop :=
  Forall (record_present b) es /\ disjoint_ranges (record_range <$> es) /\
  forall e, e ∈ es -> (forall p, p ∈ pages -> apart (record_range e) p) /\ apart (record_range e) sn /\ apart (record_range e) ft.

Lemma fold_objects_Ok b pages sn ft limits es physical total hashed r :
  fold_result (validate_object b pages sn ft limits) es (physical, total, hashed) = Ok r <->
  Forall (record_present b) es /\
  (forall e, e ∈ es -> (forall p, p ∈ pages -> apart (record_range e) p) /\ apart (record_range e) sn /\ apart (record_range e) ft) /\
  (es = [] \/ total + sum_of le_logical_len es <= max_payload_bytes limits /\ total + sum_of le_logical_len es <= U64_MAX /\
    hashed + sum_of le_record_len es <= max_hashed_bytes limits /\ hashed + sum_of le_record_len es <= U64_MAX) /\
  r = (physical ++ (record_range <$> es), total + sum_of le_logical_len es, hashed + sum_of le_record_len es).
Proof.
  revert physical total hashed. induction es as [|e es IH]; intros physical total hashed; cbn [fold_result].
  { cbn. rewrite app_nil_r, !N.add_0_r. split; [intros [= <-]; split_and!; [constructor|set_solver|by left|done]|by intros (_ & _ & _ & ->)]. }
  rewrite fmap_cons. cbn [sum_of foldr]. fold (sum_of le_logical_len es) (sum_of le_record_len es). split.
  - intros Hr. step_result Hr. match goal with E : validate_object _ _ _ _ _ _ _ = _ |- _ => rename E into Hvo end. apply validate_object_Ok in Hvo as (Hp & Hpg & Hsn & Hft & Ht1 & Ht2 & Hh1 & Hh2 & ->).
    apply IH in Hr as (Hps & Hps' & Hl & ->). split_and!.
    + by constructor.
    + intros x [->|Hx]%elem_of_cons; [done|by apply Hps'].
    + right. destruct Hl as [->|Hl]; [cbn; rewrite !N.add_0_r; done|]. rewrite <- !N.add_assoc in Hl. destruct_and!. split_and!; lia.
    + rewrite <- app_assoc, <- !N.add_assoc. done.
  - intros (Hps & Hps' & [|Hl] & ->); [done|]. apply Forall_cons in Hps as [Hp Hps]. destruct_and!.
    rewrite (proj2 (validate_object_Ok b pages sn ft limits physical total hashed e
      (physical ++ [record_range e], total + le_logical_len e, hashed + le_record_len e))).
    2: { destruct (Hps' e ltac:(by left)) as (? & ? & ?). split_and!; try done; lia. }
    apply IH. split_and!; [done|intros x Hx; apply Hps'; by right| |].
    + right. split_and!; lia.
    + rewrite <- app_assoc, <- !N.add_assoc. done.
Qed.

Lemma record_range_nonempty b e : record_present b e -> (record_range e).1 < (record_range e).2.
Proof. intros (_ & _ & Hl & _). unfold record_range, OBJECT_HEADER_LEN in *. cbn. lia. Qed.

Lemma validate_objects_Ok b es pages sn ft limits hashed r :
  validate_objects b es pages sn ft limits hashed = Ok r <->
  records_valid b pages sn ft es /\ (es = [] \/ sum_of le_logical_len es <= max_payload_bytes limits /\ sum_of le_logical_len es <= U64_MAX /\
    hashed + sum_of le_record_len es <= max_hashed_bytes limits /\ hashed + sum_of le_record_len es <= U64_MAX) /\
  r = hashed + sum_of le_record_len es.
Proof.
  unfold validate_objects, records_valid. split.
  - intros Hv. step_result Hv. destruct a as [[physical total] hashed']. match goal with E : fold_result _ _ _ = _ |- _ => rename E into Hfo end. apply fold_objects_Ok in Hfo as (Hps & Hap & Hl & [= -> -> ->]).
    step_result Hv. injection Hv as <-. cbn [app] in *. rewrite windows_disjoint in *.
    2: { apply Forall_fmap. eapply Forall_impl; [exact Hps|]. intros e He. by apply (record_range_nonempty b). }
    by split_and!.
  - intros ((Hps & Hd & Hap) & Hl & ->). rewrite (proj2 (fold_objects_Ok b pages sn ft limits es [] 0 hashed
      (record_range <$> es, 0 + sum_of le_logical_len es, hashed + sum_of le_record_len es))) by (split_and!; [done|done|exact Hl|reflexivity]).
    cbv beta iota. cbn [app]. assert (Hw : no_window ranges_overlap PhysicalOverlap (sort_by (cmp_on fst N.compare) (record_range <$> es)) = Ok tt).
    { apply windows_disjoint; [|done]. apply Forall_fmap. eapply Forall_impl; [exact Hps|]. intros e He. by apply (record_range_nonempty b). }
    by rewrite Hw.
Qed.

(** ** The last commit *)

(** The commit before the one of a footer, if there is one: its footer comes
    right before the commit, and its snapshot is the parent. *)
Definition parent_linked b (footer_offset : N) (f : Footer) (s : Snapshot) : Prop :=
  if ft_previous_footer_offset f =? ABSENT_OFFSET
  then ft_sequence f = 0 /\ ft_commit_start f = 0 /\ sn_parent_snapshot_digest s = zeros 32
  else ft_previous_footer_offset f + FOOTER_LEN <= footer_offset /\ ft_commit_start f = ft_previous_footer_offset f + FOOTER_LEN /\
    exists pf, footer_parse (slice b (ft_previous_footer_offset f) (ft_previous_footer_offset f + FOOTER_LEN)) = Ok pf /\
      ft_snapshot_digest pf = sn_parent_snapshot_digest s /\ ft_sequence f = ft_sequence pf + 1.

Lemma validate_parent_link_Ok b footer_offset f s u : footer_offset + FOOTER_LEN <= len b -> len b <= U64_MAX -> ft_sequence f <= U64_MAX ->
  validate_parent_link b footer_offset f s = Ok u <-> parent_linked b footer_offset f s.
Proof.
  intros Hfo Hmax Hseq. unfold validate_parent_link, parent_linked, to_usize, FOOTER_LEN in *. destruct u. destruct (_ =? ABSENT_OFFSET).
  { destruct (N.eqb_spec (ft_sequence f) 0); [|naive_solver]. destruct (N.eqb_spec (ft_commit_start f) 0); [|naive_solver].
    cbn [andb]. case_bool_decide; naive_solver. }
  split.
  - intros Hv. step_all Hv. bool_facts. match goal with E : checked_range _ _ _ = _ |- _ => apply exp2_range_Ok in E as (-> & -> & ? & ?) end.
    option_facts. subst. split_and!; [done|done|]. eexists. split_and!; [done|done|]. done.
  - intros (Hp & Hc & pf & Hpf & Hd & Hs). rewrite (proj2 (N.ltb_lt _ _)) by lia.
    rewrite (proj2 (exp2_range_Ok (ft_previous_footer_offset f) 160 (len b) (ft_previous_footer_offset f) (ft_previous_footer_offset f + 160))) by lia.
    rewrite try_u64_fits by lia. cbn [ok_or]. rewrite (proj2 (N.ltb_ge footer_offset _)) by lia. cbn [negb]. rewrite Hpf.
    rewrite bool_decide_eq_true_2 by done. rewrite checked_add_fits by lia. cbn [ok_or]. rewrite Hs, N.eqb_refl.
    rewrite checked_add_fits by lia. cbn [ok_or]. by rewrite Hc, N.eqb_refl.
Qed.

(** What makes the last commit of a file valid, with the pages of its
    directory at [offs], and what is reported of it. *)
Record strict_valid b (limits : ValidationLimits) (offs : list N) (v : VerifiedExp0002) : Prop := {
  sv_len : len b = v_footer_offset v + FOOTER_LEN /\ FILE_HEADER_LEN <= v_footer_offset v /\ len b <= U64_MAX;
  sv_header : file_header_parse (slice b 0 FILE_HEADER_LEN) = Ok (v_header v);
  sv_footer : footer_parse (slice b (v_footer_offset v) (len b)) = Ok (v_footer v);
  sv_commit : ft_commit_start (v_footer v) + ft_commit_len (v_footer v) = v_footer_offset v;
  sv_snapshot_range : ft_commit_start (v_footer v) <= ft_snapshot_offset (v_footer v) /\
    ft_snapshot_offset (v_footer v) + ft_snapshot_len (v_footer v) <= v_footer_offset v;
  sv_snapshot_digest : digest_bytes SNAPSHOT_DOMAIN (slice b (ft_snapshot_offset (v_footer v))
    (ft_snapshot_offset (v_footer v) + ft_snapshot_len (v_footer v))) = ft_snapshot_digest (v_footer v);
  sv_snapshot : snapshot_parse (slice b (ft_snapshot_offset (v_footer v))
    (ft_snapshot_offset (v_footer v) + ft_snapshot_len (v_footer v))) limits = Ok (v_snapshot v);
  sv_sequence : sn_sequence (v_snapshot v) = ft_sequence (v_footer v) /\
    sn_previous_footer_offset (v_snapshot v) = ft_previous_footer_offset (v_footer v);
  sv_parent : parent_linked b (v_footer_offset v) (v_footer v) (v_snapshot v);
  sv_commit_digest : digest_commit (slice b (ft_commit_start (v_footer v)) (v_footer_offset v)) (v_footer v) = ft_commit_digest (v_footer v);
  sv_tree : dtree b (sn_sequence (v_snapshot v)) (N.to_nat (sn_directory_root_level (v_snapshot v))) (root_locator (v_snapshot v)) (v_objects v) offs;
  sv_distinct : NoDup offs;
  sv_records : records_valid b (page_range <$> offs) (ft_snapshot_offset (v_footer v), ft_snapshot_offset (v_footer v) + ft_snapshot_len (v_footer v))
    (v_footer_offset v, len b) (v_objects v);
  sv_roots : sn_roots (v_snapshot v) <> [] /\ forall r, r ∈ sn_roots (v_snapshot v) -> r ∈ le_object_id <$> v_objects v;
  sv_reported : v_pages_verified v = len offs /\
    v_bytes_hashed v = ft_commit_len (v_footer v) + PAGE_SIZE * len offs + sum_of le_record_len (v_objects v);
}.

(** The limits that validation has room within; those on the snapshot are part
    of its parse. *)
Record strict_admitted b (limits : ValidationLimits) (offs : list N) (v : VerifiedExp0002) : Prop := {
  sa_file : len b <= max_file_bytes limits;
  sa_commit : ft_commit_len (v_footer v) <= max_commit_bytes limits;
  sa_depth : 1 + sn_directory_root_level (v_snapshot v) <= max_page_depth limits;
  sa_pages : len offs <= max_pages limits;
  sa_objects : len (v_objects v) <= max_objects limits;
  sa_payload : sum_of le_logical_len (v_objects v) <= max_payload_bytes limits /\ sum_of le_logical_len (v_objects v) <= U64_MAX;
  sa_hashed : v_bytes_hashed v <= max_hashed_bytes limits /\ v_bytes_hashed v <= U64_MAX;
}.

Lemma validate_strict_Ok b limits v :
  validate_strict b limits = Ok v <-> exists offs, strict_valid b limits offs v /\ strict_admitted b limits offs v.
Proof.
  unfold validate_strict, to_u64, FOOTER_LEN, FILE_HEADER_LEN. split.
  - intros Hv. step_all Hv. bool_facts. option_facts. injection Hv as <-. destruct_unit.
    repeat match goal with E : checked_range _ _ _ = _ |- _ => apply exp2_range_Ok in E as (-> & -> & ? & ?) end.
    match goal with E : validate_directory _ _ _ _ = _ |- _ => apply validate_directory_Ok in E as (es & offs & Ht & Hn & (Hd1 & Hd2 & Hd3 & Hd4 & Hd5) & -> & ->) end.
    cbn [dv_entries dv_page_ranges dv_pages] in *.
    match goal with E : validate_objects _ _ _ _ _ _ _ = _ |- _ => apply validate_objects_Ok in E as (Hrec & Hadm & ->) end.
    destruct (dtree_ordered _ _ _ _ _ _ Ht) as (_ & _ & Hne & _). destruct Hadm as [->|(Hp1 & Hp2 & Hh1 & Hh2)]; [done|].
    match goal with E : footer_parse _ = Ok _ |- _ => pose proof (proj1 (footer_parse_Ok _ _) E) as (_ & Hfok & _) end.
    exists offs. split; split; unfold FOOTER_LEN, FILE_HEADER_LEN;
      cbn [v_header v_footer_offset v_footer v_snapshot v_objects v_pages_verified v_bytes_hashed]; try done.
    all: try lia.
    + eapply (validate_parent_link_Ok b (len b - 160) a3 a5 tt); unfold FOOTER_LEN; [lia|done|apply Hfok|done].
    + match goal with E : ft_commit_start _ + ft_commit_len _ = _ |- _ => by rewrite <- E end.
    + split; [by intros E; match goal with F : len _ <> 0 |- _ => rewrite E in F end|]. intros r Hr.
      match goal with E : forallb _ _ = true |- _ => rewrite forallb_forall in E; setoid_rewrite <- list_elem_of_In in E; specialize (E r Hr) end.
      by bool_facts.
  - intros (offs & Hsv & Hsa). destruct Hsv as [(Hl & Hl2 & Hmax) Hh Hf Hc [Hs1 Hs2] Hsd Hs [Hsq1 Hsq2] Hpar Hcd Ht Hn Hrec [Hr1 Hr2] [Hrep1 Hrep2]].
    destruct Hsa as [Ha1 Ha2 Ha3 Ha4 Ha5 [Ha6 Ha6'] [Ha7 Ha7']]. destruct v as [hd fo f s es np nh].
    cbn [v_header v_footer_offset v_footer v_snapshot v_objects v_pages_verified v_bytes_hashed] in *. unfold FOOTER_LEN, FILE_HEADER_LEN in *.
    rewrite try_u64_fits by lia. cbn [ok_or]. rewrite (proj2 (N.ltb_ge _ _) Ha1). rewrite (proj2 (N.ltb_ge (len b) _)) by lia. cbn [negb]. rewrite Hh.
    assert (Hsub : checked_sub (len b) 160 = Some fo) by (apply checked_sub_Some; lia). rewrite Hsub. cbn [ok_or]. rewrite try_u64_fits by lia. cbn [ok_or]. rewrite Hf.
    pose proof (proj1 (footer_parse_Ok _ _) Hf) as (_ & Hfok & _).
    rewrite checked_add_fits by lia. cbn [ok_or]. rewrite (proj2 (N.ltb_ge _ _) Ha2), Hc, N.eqb_refl, (proj2 (N.ltb_ge _ _) Hs1). cbn [negb].
    rewrite (proj2 (exp2_range_Ok (ft_snapshot_offset f) (ft_snapshot_len f) (len b) (ft_snapshot_offset f) (ft_snapshot_offset f + ft_snapshot_len f))) by (split_and!; lia).
    rewrite (proj2 (N.ltb_ge fo _)) by lia. cbn [negb]. rewrite bool_decide_eq_true_2 by done. rewrite Hs. rewrite (proj2 (N.eqb_eq _ _) Hsq1), (proj2 (N.eqb_eq _ _) Hsq2). cbn [andb].
    rewrite (proj2 (validate_parent_link_Ok b fo f s tt ltac:(unfold FOOTER_LEN; lia) Hmax ltac:(apply Hfok)) Hpar).
    rewrite (proj2 (N.ltb_ge (max_hashed_bytes limits) _)) by lia. cbn [negb].
    rewrite (proj2 (exp2_range_Ok (ft_commit_start f) (ft_commit_len f) (len b) (ft_commit_start f) fo)) by (split_and!; lia).
    rewrite bool_decide_eq_true_2 by done.
    rewrite (proj2 (validate_directory_Ok b s limits (ft_commit_len f) (mkDirectoryValidation es (page_range <$> offs) (len offs)) (ft_commit_len f + PAGE_SIZE * len offs))).
    2: { exists es, offs. split_and!; [done|done| |done|done]. split_and!; [done|done|done|lia|lia]. }
    cbv beta iota. cbn [dv_entries dv_page_ranges dv_pages].
    rewrite (proj2 (validate_objects_Ok b es _ _ _ limits _ nh)) by (split_and!; [exact Hrec|right; split_and!; [done|done|lia|lia]|done]).
    cbv beta iota. rewrite (proj2 (N.eqb_neq (len (sn_roots s)) 0)) by (destruct (sn_roots s); [done|rewrite len_cons; lia]). cbn [negb].
    assert (Hall : forallb (fun root => bool_decide (root ∈ le_object_id <$> es)) (sn_roots s) = true).
    { apply forallb_forall. intros r Hr%list_elem_of_In. by apply bool_decide_eq_true_2, Hr2. }
    by rewrite Hall, Hrep1.
Qed.

(** ** The report does not depend on the limits *)

Ltac same_results :=
  repeat match goal with
  | A : ?x = Ok ?a, B : ?x = Ok ?c |- _ => rewrite A in B; injection B as B; try subst
  end.

Lemma snapshot_parse_agree b l1 l2 s1 s2 : snapshot_parse b l1 = Ok s1 -> snapshot_parse b l2 = Ok s2 -> s1 = s2.
Proof.
  unfold snapshot_parse. intros H1 H2. step_all H1. step_all H2. same_results. congruence.
Qed.

Lemma dtree_agree b sq h l es1 offs1 es2 offs2 : dtree b sq h l es1 offs1 -> dtree b sq h l es2 offs2 -> es1 = es2 /\ offs1 = offs2.
Proof.
  revert l es1 offs1 es2 offs2. induction h as [|h IH]; intros l es1 offs1 es2 offs2; cbn [dtree].
  - intros (hd1 & (_ & _ & _ & P1 & _) & ->) (hd2 & (_ & _ & _ & P2 & _) & ->). split; [congruence|done].
  - intros (hd1 & cs1 & subs1 & (_ & _ & _ & P1 & _) & F1 & -> & ->) (hd2 & cs2 & subs2 & (_ & _ & _ & P2 & _) & F2 & -> & ->).
    assert (cs1 = cs2) as -> by congruence. assert (subs1 = subs2) as ->; [|done]. clear P1 P2. revert subs2 F2.
    induction F1 as [|c [e1 o1] cs subs1 Hc F1 IHF]; intros subs2 F2; inversion F2 as [|? [e2 o2] ? subs2' Hc2 F2']; subst; [done|].
    destruct (IH _ _ _ _ _ Hc Hc2) as [E1 E2]. cbn in E1, E2. subst. f_equal. by apply IHF.
Qed.

Lemma validate_strict_agree b l1 l2 v1 v2 : validate_strict b l1 = Ok v1 -> validate_strict b l2 = Ok v2 -> v1 = v2.
Proof.
  intros (o1 & S1 & _)%validate_strict_Ok (o2 & S2 & _)%validate_strict_Ok.
  destruct (sv_len _ _ _ _ S1) as (L1 & _), (sv_len _ _ _ _ S2) as (L2 & _). assert (Ho : v_footer_offset v1 = v_footer_offset v2) by lia.
  pose proof (sv_header _ _ _ _ S1) as H1. pose proof (sv_header _ _ _ _ S2) as H2.
  pose proof (sv_footer _ _ _ _ S1) as F1. pose proof (sv_footer _ _ _ _ S2) as F2. rewrite Ho in F1.
  assert (Hf : v_footer v1 = v_footer v2) by congruence.
  pose proof (sv_snapshot _ _ _ _ S1) as P1. pose proof (sv_snapshot _ _ _ _ S2) as P2. rewrite Hf in P1. pose proof (snapshot_parse_agree _ _ _ _ _ P1 P2) as Hs.
  pose proof (sv_tree _ _ _ _ S1) as T1. pose proof (sv_tree _ _ _ _ S2) as T2. rewrite Hs in T1. destruct (dtree_agree _ _ _ _ _ _ _ _ T1 T2) as [He <-].
  destruct (sv_reported _ _ _ _ S1) as [R1 R1'], (sv_reported _ _ _ _ S2) as [R2 R2']. destruct v1, v2. cbn in *. f_equal; congruence.
Qed.
End Strict.
