(* ===== verification/Exp0002Levels.v ===== *)
(** Writing EXP-0002 files: the records and the levels of the directory that
    the builders append to a file, whenever the file stays below 2^64 bytes. *)

From Stdlib Require Import Strings.Byte Strings.String NArith ZArith Lia.
From stdpp Require Import base list gmap strings sorting.
From S2P Require Import Prelude Order Digest Exp0002 Exp0002File Exp0002Pages Exp0002Strict.

Local Open Scope N_scope.

Section Write.
Context `{H : Sha256, !Sha256Ok H}.
Implicit Types b : bytes.

Lemma digest_len domain b : length (digest_bytes domain b) = 32%nat.
Proof. pose proof (sha256_len (hasher_update (hasher_update hasher_new domain) b)) as Hl. unfold len in Hl. unfold digest_bytes, hasher_finalize. lia. Qed.

Lemma digest_commit_len c f : length (digest_commit c f) = 32%nat.
Proof.
  pose proof (sha256_len (hasher_update (hasher_update (hasher_update hasher_new COMMIT_DOMAIN) c) (footer_semantics f))) as Hl.
  unfold len in Hl. unfold digest_commit, hasher_finalize. lia.
Qed.

(** ** Appending keeps what is there *)

Lemma page_present_app b more sq l p : page_present b sq l p -> page_present (b ++ more) sq l p.
Proof. intros (Hr & Hu & Hrest). unfold page_present. rewrite slice_app_l by done. split; [rewrite len_app; lia|done]. Qed.

Lemma dtree_app b more sq h l es offs : dtree b sq h l es offs -> dtree (b ++ more) sq h l es offs.
Proof.
  revert l es offs. induction h as [|h IH]; intros l es offs; cbn [dtree].
  - intros (hd & Hp & ->). exists hd. split; [by apply page_present_app|done].
  - intros (hd & cs & subs & Hp & Hf & -> & ->). exists hd, cs, subs. split_and!; [by apply page_present_app| |done|done].
    eapply Forall2_impl; [exact Hf|]. cbv beta. intros c sub Hc. by apply IH.
Qed.

Lemma record_present_app b more e : record_present b e -> record_present (b ++ more) e.
Proof.
  intros (Hr & Hu & Hl & Hrest). unfold record_present, OBJECT_HEADER_LEN in *. rewrite !slice_app_l by lia. split; [rewrite len_app; lia|done].
Qed.

(** ** Records *)

Definition object_ok (o : ObjectInput) : Prop := oi_object_id o <= U64_MAX /\ oi_kind o <= U16_MAX.

Definition record_bytes (o : ObjectInput) : bytes :=
  object_header_encode (mkObjectHeader (oi_object_id o) (oi_kind o) (len (oi_payload o)) (len (oi_payload o))) ++ oi_payload o.

Definition record_size (o : ObjectInput) : N := OBJECT_HEADER_LEN + len (oi_payload o).

Definition entry_at (offset : N) (o : ObjectInput) : LeafEntry :=
  mkLeafEntry (oi_object_id o) (oi_kind o) offset (record_size o) (len (oi_payload o)) (digest_bytes OBJECT_DOMAIN (record_bytes o)).

Fixpoint entries_at (offset : N) (objects : list ObjectInput) : list LeafEntry :=
  match objects with
  | [] => []
  | o :: objects => entry_at offset o :: entries_at (offset + record_size o) objects
  end.

Lemma record_bytes_len o : len (record_bytes o) = record_size o.
Proof. unfold record_bytes. rewrite len_app. by destruct (object_header_encode_at (mkObjectHeader (oi_object_id o) (oi_kind o) (len (oi_payload o)) (len (oi_payload o)))) as [-> _]. Qed.

Lemma records_len objects : len (concat (record_bytes <$> objects)) = sum_of record_size objects.
Proof. induction objects as [|o objects IH]; [done|]. rewrite fmap_cons. cbn [concat sum_of foldr]. rewrite len_app, record_bytes_len, IH. done. Qed.

(** What the loop refuses, from an identifier on. *)
Inductive record_error (objects : list ObjectInput) : Exp0002Error -> Prop :=
  | bad_id o : o ∈ objects -> oi_object_id o = 0 -> record_error objects InvalidObjectId
  | bad_kind o : o ∈ objects -> oi_kind o = 0 -> record_error objects InvalidObjectKind
  | duplicate l1 o l2 o' l3 : objects = l1 ++ o :: l2 ++ o' :: l3 -> oi_object_id o = oi_object_id o' ->
      record_error objects (DuplicateObjectId (oi_object_id o')).

Definition ids_ordered : list ObjectInput -> Prop := StronglySorted (key_lt oi_object_id).

Lemma write_object_record_eq b o : len b + record_size o <= U64_MAX ->
  write_object_record b o = Ok (b ++ record_bytes o, entry_at (len b) o).
Proof.
  intros Hmax. unfold record_size, OBJECT_HEADER_LEN in Hmax. unfold write_object_record, to_u64. rewrite try_u64_fits by lia. cbn [ok_or].
  rewrite try_u64_fits by lia. cbn [ok_or]. unfold OBJECT_HEADER_LEN. rewrite checked_add_fits by lia. cbn [ok_or].
  unfold entry_at, digest_bytes, record_bytes, hasher_update. by rewrite !app_assoc.
Qed.

Lemma write_records_cases b previous objects :
  StronglySorted (cmp_le (cmp_on oi_object_id N.compare)) objects -> (forall m o, previous = Some m -> o ∈ objects -> m <= oi_object_id o) ->
  len b + sum_of record_size objects <= U64_MAX ->
  match write_records b previous objects with
  | Ok (b', es) => b' = b ++ concat (record_bytes <$> objects) /\ es = entries_at (len b) objects /\ ids_ordered objects /\
      Forall (fun o => oi_object_id o <> 0 /\ oi_kind o <> 0) objects /\ (forall m o, previous = Some m -> o ∈ objects -> m < oi_object_id o)
  | Err (DuplicateObjectId id) => record_error objects (DuplicateObjectId id) \/ previous = Some id /\ exists o, o ∈ objects /\ oi_object_id o = id
  | Err e => record_error objects e
  end.
Proof.
  intros Hs. revert b previous. induction Hs as [|o objects Hs IH Hle]; intros b previous Hp Hmax; cbn [write_records].
  { cbn. rewrite app_nil_r. split_and!; [done|done|constructor|constructor|]. intros m o _ Ho. by apply elem_of_nil in Ho. }
  cbn [sum_of foldr] in Hmax. fold (sum_of record_size objects) in Hmax.
  destruct (N.eqb_spec (oi_object_id o) 0) as [Hz|Hz]; cbn [negb]; [by apply (bad_id _ o); [left|]|].
  destruct (N.eqb_spec (oi_kind o) 0) as [Hkz|Hkz]; cbn [negb]; [by apply (bad_kind _ o); [left|]|].
  case_bool_decide as Hprev; cbn [negb]; [right; split; [done|]; exists o; split; [by left|done]|].
  rewrite write_object_record_eq by lia.
  assert (Hlow : forall x, x ∈ objects -> oi_object_id o <= oi_object_id x).
  { intros x Hx. pose proof (proj1 (Forall_forall _ _) Hle x Hx) as Hc. unfold cmp_le, cmp_on in Hc. by rewrite N.compare_le_iff in Hc. }
  specialize (IH (b ++ record_bytes o) (Some (oi_object_id o)) ltac:(intros m x [= <-]; apply Hlow) ltac:(rewrite len_app, record_bytes_len; lia)).
  assert (Hmono : forall e, record_error objects e -> record_error (o :: objects) e).
  { intros e [x Hx Hxz|x Hx Hxz|l1 x l2 y l3 -> Hxy]; [apply (bad_id _ x); [by right|done]|apply (bad_kind _ x); [by right|done]|].
    by apply (duplicate _ (o :: l1) x l2 y l3). }
  destruct (write_records _ _ _) as [[b' es]|e].
  - destruct IH as (-> & -> & Ho & Hf & Hnext). rewrite len_app, record_bytes_len. cbn [entries_at]. rewrite fmap_cons. cbn [concat]. rewrite <- app_assoc.
    split_and!; [done|done| |by constructor|].
    + constructor; [done|]. apply Forall_forall. intros x Hx. by apply Hnext.
    + intros m x -> [->|Hx]%elem_of_cons.
      * specialize (Hp m o eq_refl ltac:(by left)). assert (m <> oi_object_id o) by congruence. lia.
      * specialize (Hp m o eq_refl ltac:(by left)). specialize (Hnext _ x eq_refl Hx). lia.
  - destruct e; try (by apply Hmono). destruct IH as [IH|([= Heq] & x & Hx & Hid)]; [left; by apply Hmono|].
    left. apply list_elem_of_split in Hx as (l2 & l3 & ->). rewrite <- Hid. apply (duplicate _ [] o l2 x l3); [done|congruence].
Qed.

Lemma entries_at_app offset l k : entries_at offset (l ++ k) = entries_at offset l ++ entries_at (offset + sum_of record_size l) k.
Proof.
  revert offset. induction l as [|o l IH]; intros offset; cbn [app entries_at sum_of foldr]; [by rewrite N.add_0_r|].
  rewrite IH, <- N.add_assoc. done.
Qed.

(** The entries of records written in a row, in a file that goes on. *)
Record records_written (start : N) b (objects : list ObjectInput) (es : list LeafEntry) : Prop := {
  rw_present : Forall (record_present b) es;
  rw_ok : Forall leaf_ok es;
  rw_ids : le_object_id <$> es = oi_object_id <$> objects;
  rw_disjoint : disjoint_ranges (record_range <$> es);
  rw_range e : e ∈ es -> start <= le_record_offset e /\ le_record_offset e + le_record_len e <= start + sum_of record_size objects;
  rw_payload : Forall2 (fun o e => slice b (le_record_offset e + OBJECT_HEADER_LEN) (le_record_offset e + le_record_len e) = oi_payload o /\
    le_kind e = oi_kind o) objects es;
}.

Lemma entry_at_present pre post o : object_ok o -> oi_object_id o <> 0 -> oi_kind o <> 0 -> len pre + record_size o <= U64_MAX ->
  let b := pre ++ record_bytes o ++ post in
  record_present b (entry_at (len pre) o) /\ leaf_ok (entry_at (len pre) o) /\
  slice b (len pre + OBJECT_HEADER_LEN) (len pre + record_size o) = oi_payload o.
Proof.
  intros [Hid Hk] Hid0 Hk0 Hmax b. pose proof (record_bytes_len o) as Hl. unfold record_size in *.
  destruct (object_header_encode_at (mkObjectHeader (oi_object_id o) (oi_kind o) (len (oi_payload o)) (len (oi_payload o)))) as [Hhl Hat].
  set (hb := object_header_encode _) in *. unfold OBJECT_HEADER_LEN in *. split_and!.
  - unfold record_present, OBJECT_HEADER_LEN, b, entry_at, record_size.
    cbn [le_record_offset le_record_len le_logical_len le_object_id le_kind le_record_digest]. unfold OBJECT_HEADER_LEN. split_and!.
    + rewrite !len_app, Hl. lia.
    + done.
    + done.
    + unfold record_bytes. fold hb. rewrite <- app_assoc. rewrite (slice_app pre hb) by (try done; lia).
      apply object_header_parse_Ok. split_and!; [lia| |done]. unfold object_header_ok. cbn. split_and!; try done; lia.
    + rewrite (slice_app pre (record_bytes o)) by (try done; lia). done.
  - unfold leaf_ok, entry_at, record_size. cbn [le_object_id le_kind le_record_offset le_record_len le_logical_len le_record_digest]. unfold OBJECT_HEADER_LEN.
    split_and!; try done; try lia. apply digest_len.
  - unfold b, record_bytes. fold hb. rewrite <- app_assoc, app_assoc. apply slice_app; rewrite len_app; lia.
Qed.

Lemma entries_at_written pre post objects : Forall object_ok objects -> Forall (fun o => oi_object_id o <> 0 /\ oi_kind o <> 0) objects ->
  len pre + sum_of record_size objects <= U64_MAX ->
  records_written (len pre) (pre ++ concat (record_bytes <$> objects) ++ post) objects (entries_at (len pre) objects).
Proof.
  intros Hok Hnz. revert pre. induction objects as [|o objects IH]; intros pre Hmax.
  { split; [constructor|constructor|done|constructor| |constructor]. intros e He. by apply elem_of_nil in He. }
  apply Forall_cons in Hok as [Ho Hok]. apply Forall_cons in Hnz as [[Hid Hk] Hnz]. cbn [sum_of foldr] in Hmax. fold (sum_of record_size objects) in Hmax.
  rewrite fmap_cons. cbn [concat entries_at]. rewrite <- app_assoc.
  destruct (entry_at_present pre (concat (record_bytes <$> objects) ++ post) o Ho Hid Hk ltac:(lia)) as (Hp & Hl & Hpay).
  specialize (IH Hok Hnz (pre ++ record_bytes o)). rewrite len_app, record_bytes_len in IH. specialize (IH ltac:(lia)).
  rewrite <- app_assoc in IH. destruct IH as [I1 I2 I3 I4 I5 I6]. split.
  - by constructor.
  - by constructor.
  - rewrite !fmap_cons. by rewrite I3.
  - rewrite fmap_cons. constructor; [done|]. apply Forall_forall. intros r (e & -> & He)%list_elem_of_fmap. apply apart_le. left. cbn. by apply I5.
  - cbn [sum_of foldr]. fold (sum_of record_size objects). intros e [->|He]%elem_of_cons; [cbn; lia|]. specialize (I5 e He). lia.
  - constructor; [done|exact I6].
Qed.
End Write.

Abbreviation subtrees := (list (list LeafEntry * list N)).

(** The range of a locator is that of its entries. *)
Definition spans (l : PageLocator) (es : list LeafEntry) : Prop :=
  le_object_id <$> head es = Some (pl_min_key l) /\ le_object_id <$> last es = Some (pl_max_key l).

Lemma spans_first l es : spans l es -> exists e, head es = Some e /\ le_object_id e = pl_min_key l.
Proof. intros [Hh _]. destruct (head es) as [e|]; [|done]. injection Hh as Hh. by exists e. Qed.

Lemma spans_last l es : spans l es -> exists e, last es = Some e /\ le_object_id e = pl_max_key l.
Proof. intros [_ Hl]. destruct (last es) as [e|]; [|done]. injection Hl as Hl. by exists e. Qed.

Lemma page_suffix (b page : bytes) e : e = len b + len page -> slice (b ++ page) (len b) e = page.
Proof. intros ->. pose proof (slice_app b page [] (len b) (len b + len page) eq_refl eq_refl) as Hs. by rewrite app_nil_r in Hs. Qed.

Section Levels.
Context `{H : Sha256, !Sha256Ok H}.
Context (sq : N) (Hsq : sq <= U64_MAX).
Implicit Types b : bytes.

Definition located b (h : nat) (l : PageLocator) (sub : list LeafEntry * list N) : Prop :=
  dtree b sq h l sub.1 sub.2 /\ spans l sub.1 /\ pl_offset l <= U64_MAX /\ length (pl_digest l) = 32%nat.

Lemma located_app b more h l sub : located b h l sub -> located (b ++ more) h l sub.
Proof. intros (Ht & Hrest). split; [by apply dtree_app|done]. Qed.

Lemma located_ok b h l sub : located b h l sub -> locator_ok l /\ pl_level l = N.of_nat h.
Proof.
  intros (Ht & Hs & Ho & Hd). pose proof (dtree_level _ _ _ _ _ _ Ht) as Hlev. destruct (dtree_ordered _ _ _ _ _ _ Ht) as (Hord & Hok & _).
  destruct (spans_first _ _ Hs) as (x & Hx & Hxk). destruct (spans_last _ _ Hs) as (y & Hy & Hyk). split; [|done].
  pose proof (proj1 (Forall_forall _ _) Hok x (head_elem _ _ Hx)) as (Hx0 & _). pose proof (proj1 (Forall_forall _ _) Hok y (last_elem _ _ Hy)) as (_ & Hy1 & _).
  pose proof (ordered_head _ x y Hord Hx (last_elem _ _ Hy)). unfold locator_ok. rewrite <- Hxk, <- Hyk. by split_and!.
Qed.

(** Successive locators of one ordered list are in order. *)
Lemma located_sorted b h level (subs : subtrees) : Forall2 (located b h) level subs -> leaf_ordered (concat subs.*1) ->
  Sorted (fun x y => pl_max_key x < pl_min_key y) level.
Proof.
  induction 1 as [|l sub level subs Hl Hf IH]; intros Ho; [constructor|]. rewrite fmap_cons in Ho. cbn [concat] in Ho.
  apply ordered_app in Ho as (_ & Ho & Hlt). constructor; [by apply IH|]. destruct Hf as [|l' sub' level subs Hl' Hf]; constructor.
  destruct Hl as (_ & Hs & _). destruct Hl' as (_ & Hs' & _). destruct (spans_last _ _ Hs) as (y & Hy & <-). destruct (spans_first _ _ Hs') as (x & Hx & <-).
  apply (Hlt y x); [by apply last_elem|]. rewrite fmap_cons. cbn [concat]. apply elem_of_app. left. by apply head_elem.
Qed.

Lemma level_spans b h level (subs : subtrees) l : Forall2 (located b h) level subs ->
  (pl_min_key <$> head level = Some (pl_min_key l)) -> (pl_max_key <$> last level = Some (pl_max_key l)) -> spans l (concat subs.*1).
Proof.
  intros Hf Hmin Hmax. split.
  - destruct Hf as [|c sub level subs Hc Hf]; [done|]. injection Hmin as <-. rewrite fmap_cons. cbn [concat].
    destruct Hc as (_ & [Hh _] & _). destruct sub.1 as [|e es]; [done|]. done.
  - clear Hmin. destruct level as [|c level _] using rev_ind; [done|]. rewrite last_snoc in Hmax. injection Hmax as <-.
    apply Forall2_app_inv_l in Hf as (subs1 & subs2 & _ & Hf & ->). inversion Hf as [|? sub ? ? Hc Hnil]; subst. apply Forall2_nil_inv_l in Hnil as ->.
    rewrite fmap_app, concat_app. cbn [fmap list_fmap concat]. rewrite app_nil_r. destruct Hc as (_ & [_ Hl] & _). rewrite last_app.
    destruct (last sub.1); [done|done].
Qed.

(** A level under construction: trees over the entries [es], one for each
    locator, on distinct pages that fill the file from [start] on. *)
Record level_ok (start : N) b (h : nat) (level : list PageLocator) (es : list LeafEntry) (offs : list N) : Prop := {
  lv_subs : exists subs, Forall2 (located b h) level subs /\ concat subs.*1 = es /\ concat subs.*2 = offs;
  lv_distinct : NoDup offs;
  lv_range o : o ∈ offs -> start <= o /\ o + PAGE_SIZE <= len b;
}.

Lemma level_empty start b h : level_ok start b h [] [] [].
Proof. split; [exists []; by split_and!|constructor|]. intros o Ho. by apply elem_of_nil in Ho. Qed.

(** One more page, at the end of the file. *)
Lemma level_snoc start b h level es offs page l es' offs' :
  level_ok start b h level es offs -> start <= len b -> len page = PAGE_SIZE ->
  located (b ++ page) h l (es', len b :: offs') -> NoDup offs' -> (forall o, o ∈ offs' -> start <= o /\ o + PAGE_SIZE <= len b /\ o ∉ offs) ->
  level_ok start (b ++ page) h (level ++ [l]) (es ++ es') (offs ++ len b :: offs').
Proof.
  intros [(subs & Hf & <- & <-) Hn Hr] Hs Hp Hl Hn' Hr'. assert (Hpos : 0 < PAGE_SIZE) by done. split.
  - exists (subs ++ [(es', len b :: offs')]). rewrite !fmap_app, !concat_app. cbn. rewrite !app_nil_r. split_and!; [|done|done].
    apply Forall2_app; [|by constructor]. eapply Forall2_impl; [exact Hf|]. intros x y. apply located_app.
  - apply NoDup_app. split_and!; [done| |].
    + intros o Ho [->|Ho']%elem_of_cons; [destruct (Hr _ Ho); lia|]. by destruct (Hr' o Ho') as (_ & _ & ?).
    + constructor; [|done]. intros Ho. destruct (Hr' _ Ho) as (_ & ? & _). lia.
  - intros o [Ho|[->|Ho]%elem_of_cons]%elem_of_app; rewrite len_app, Hp; [destruct (Hr o Ho); lia|lia|destruct (Hr' o Ho) as (? & ? & _); lia].
Qed.

Lemma push_leaf_eq b acc chunk : Forall leaf_ok chunk -> chunk <> [] -> len chunk <= LEAF_CAPACITY -> leaf_ordered chunk ->
  len b + PAGE_SIZE <= U64_MAX ->
  exists page l, push_leaf sq (b, acc) chunk = Ok (b ++ page, acc ++ [l]) /\ len page = PAGE_SIZE /\ located (b ++ page) 0 l (chunk, [len b]).
Proof.
  intros Hok Hne Hcap Hord Hmax. destruct (encode_leaf_page_parses chunk sq Hok Hne Hcap Hord Hsq) as (page & h & He & Hp & Hl & Hlev & Hseq & Hmin & Hmx).
  unfold push_leaf. rewrite He. cbn [fst snd]. unfold to_u64. rewrite try_u64_fits by lia. cbn [ok_or].
  destruct (head chunk) as [first|] eqn:Eh in Hmin |- *; [|done]. destruct (last chunk) as [last_|] eqn:El in Hmx |- *; [|done]. cbn [ok_or].
  injection Hmin as Hmin. injection Hmx as Hmx. eexists page, _. split_and!; [done|done|]. split_and!; cbn [fst snd].
  - cbn [dtree]. exists h. split; [|done]. unfold page_present. cbn [pl_offset pl_digest pl_level pl_min_key pl_max_key page_header].
    rewrite len_app, Hl. rewrite (page_suffix b page) by lia.
    split_and!; [lia|done|done|done|done|by right|by right|done].
  - unfold spans. cbn [pl_min_key pl_max_key]. by rewrite Eh, El.
  - cbn. lia.
  - apply digest_len.
Qed.

Lemma push_internal_eq b acc h chunk (subs : subtrees) : Forall2 (located b h) chunk subs -> chunk <> [] -> len chunk <= INTERNAL_CAPACITY ->
  leaf_ordered (concat subs.*1) -> N.of_nat h + 1 < 256 -> len b + PAGE_SIZE <= U64_MAX ->
  exists page l, push_internal sq (b, acc) chunk = Ok (b ++ page, acc ++ [l]) /\ len page = PAGE_SIZE /\
    located (b ++ page) (S h) l (concat subs.*1, len b :: concat subs.*2).
Proof.
  intros Hf Hne Hcap Hord Hh Hmax.
  assert (Hoks : Forall locator_ok chunk /\ Forall (fun c => pl_level c = N.of_nat h) chunk).
  { rewrite <- Forall_and. apply Forall_forall. intros c (i & Hi)%list_elem_of_lookup.
    destruct (Forall2_lookup_l _ _ _ _ _ Hf Hi) as (sub & _ & Hc). by eapply located_ok. }
  destruct Hoks as [Hoks Hlevels].
  destruct (encode_internal_page_parses chunk sq (N.of_nat h) Hoks Hne Hcap Hh Hlevels (located_sorted b h chunk subs Hf Hord) Hsq)
    as (page & hd & He & Hp & Hl & Hlev & Hseq & Hmin & Hmx).
  unfold push_internal. destruct (head chunk) as [first|] eqn:Eh in Hmin |- *; [|done]. cbn [ok_or].
  pose proof (proj1 (Forall_forall _ _) Hlevels first (head_elem _ _ Eh)) as Hfl. cbv beta in Hfl. rewrite Hfl.
  rewrite (proj2 (checked_add_u16_Some _ 1 _)) by (split; [reflexivity|unfold U16_MAX; lia]). cbn [ok_or]. rewrite He. cbn [fst snd]. unfold to_u64.
  rewrite try_u64_fits by lia. cbn [ok_or]. destruct (last chunk) as [last_|] eqn:El in Hmx |- *; [|done]. cbn [ok_or].
  injection Hmin as Hmin. injection Hmx as Hmx. eexists page, _. split_and!; [done|done|]. split_and!; cbn [fst snd].
  - cbn [dtree]. exists hd, (entry_of_locator <$> chunk), subs. split_and!; [| |done|done].
    + unfold page_present. cbn [pl_offset pl_digest pl_level pl_min_key pl_max_key page_header].
      rewrite len_app, Hl. rewrite (page_suffix b page) by lia.
      split_and!; [lia|done|done|done|done|by right|by right|done].
    + apply Forall2_fmap_l. eapply Forall2_impl; [exact Hf|]. intros c sub (Ht & _). cbn [locator_of entry_of_locator ie_min_key ie_max_key ie_page_offset ie_level ie_page_digest].
      unfold locator_of, entry_of_locator. cbn [ie_min_key ie_max_key ie_page_offset ie_level ie_page_digest]. destruct c. by apply dtree_app.
  - apply (level_spans b h chunk subs); [done| |]; cbn [pl_min_key pl_max_key]; [by rewrite Eh|by rewrite El].
  - cbn. lia.
  - apply digest_len.
Qed.

(** ** Whole levels *)

(** What writing [n] pages from [b] on leads to. *)
Definition pages_written b b' (n : N) : Prop := b `prefix_of` b' /\ len b' = len b + PAGE_SIZE * n.

Lemma pages_written_step b page b' n : len page = PAGE_SIZE -> pages_written (b ++ page) b' n -> pages_written b b' (1 + n).
Proof. intros Hp [Hpre Hl]. split; [by eapply prefix_app_l|]. rewrite Hl, len_app, Hp. lia. Qed.

Lemma fold_push_leaf start b acc es0 offs0 pieces : level_ok start b 0 acc es0 offs0 -> start <= len b ->
  Forall (fun c => c <> [] /\ len c <= LEAF_CAPACITY /\ Forall leaf_ok c /\ leaf_ordered c) pieces ->
  len b + PAGE_SIZE * len pieces <= U64_MAX ->
  exists b' acc' offs, fold_result (push_leaf sq) pieces (b, acc) = Ok (b', acc') /\ pages_written b b' (len pieces) /\
    level_ok start b' 0 acc' (es0 ++ concat pieces) offs /\ len acc' = len acc + len pieces /\ len offs = len offs0 + len pieces.
Proof.
  revert b acc es0 offs0. induction pieces as [|c pieces IH]; intros b acc es0 offs0 Hlv Hs Hf Hmax.
  { exists b, acc, offs0. cbn. rewrite app_nil_r, !N.add_0_r. split_and!; try done. split; [done|]. by rewrite N.mul_0_r, N.add_0_r. }
  apply Forall_cons in Hf as [(Hne & Hcap & Hok & Hord) Hf]. rewrite len_cons in *.
  destruct (push_leaf_eq b acc c Hok Hne Hcap Hord) as (page & l & He & Hp & Hloc); [lia|]. cbn [fold_result]. rewrite He.
  pose proof (level_snoc start b 0 acc es0 offs0 page l c [] Hlv Hs Hp Hloc (NoDup_nil_2)) as Hlv'.
  destruct (IH (b ++ page) (acc ++ [l]) (es0 ++ c) (offs0 ++ [len b])) as (b' & acc' & offs & -> & Hw & Hlv2 & Ha & Hofs).
  - apply Hlv'. intros o Ho. by apply elem_of_nil in Ho.
  - rewrite len_app. lia.
  - done.
  - rewrite len_app, Hp. lia.
  - exists b', acc', offs. cbn [concat]. rewrite app_assoc. autorewrite with len in *. change (len (@nil N)) with 0 in *. change (len (@nil PageLocator)) with 0 in *.
    split_and!; [done|by eapply pages_written_step|done|lia|lia].
Qed.

Lemma fold_push_internal start h pieces (subss : list subtrees) b acc es0 offs0 :
  level_ok start b (S h) acc es0 offs0 -> start <= len b -> Forall2 (Forall2 (located b h)) pieces subss ->
  Forall (fun c => c <> [] /\ len c <= INTERNAL_CAPACITY) pieces -> Forall (fun subs : subtrees => leaf_ordered (concat subs.*1)) subss ->
  NoDup (offs0 ++ concat (concat subss).*2) -> (forall o, o ∈ concat (concat subss).*2 -> start <= o /\ o + PAGE_SIZE <= len b) ->
  N.of_nat h + 1 < 256 -> len b + PAGE_SIZE * len pieces <= U64_MAX ->
  exists b' acc' offs, fold_result (push_internal sq) pieces (b, acc) = Ok (b', acc') /\ pages_written b b' (len pieces) /\
    level_ok start b' (S h) acc' (es0 ++ concat (concat subss).*1) offs /\ len acc' = len acc + len pieces /\
    len offs = len offs0 + len (concat (concat subss).*2) + len pieces.
Proof.
  intros Hlv Hs Hf. revert acc es0 offs0 b Hlv Hs Hf. revert subss. induction pieces as [|c pieces IH]; intros subss acc es0 offs0 b Hlv Hs Hf Hcs Hords Hn Hr Hh Hmax.
  { apply Forall2_nil_inv_l in Hf as ->. exists b, acc, offs0. cbn. rewrite app_nil_r, !N.add_0_r. split_and!; try done. split; [done|]. by rewrite N.mul_0_r, N.add_0_r. }
  apply Forall2_cons_inv_l in Hf as (subs & subss' & Hc & Hf & ->). apply Forall_cons in Hcs as [[Hne Hcap] Hcs]. apply Forall_cons in Hords as [Hord Hords].
  cbn [concat] in Hn, Hr |- *. rewrite fmap_app, concat_app in Hn. rewrite fmap_app, concat_app in Hr. rewrite !fmap_app, !concat_app. rewrite len_cons in *.
  assert (Hpos : 0 < PAGE_SIZE) by done.
  destruct (push_internal_eq b acc h c subs Hc Hne Hcap Hord Hh) as (page & l & He & Hp & Hloc); [lia|]. cbn [fold_result]. rewrite He.
  apply NoDup_app in Hn as (Hn0 & Hdis & Hn). apply NoDup_app in Hn as (Hn1 & Hdis' & Hn2).
  pose proof (level_snoc start b (S h) acc es0 offs0 page l _ _ Hlv Hs Hp Hloc Hn1) as Hlv'.
  destruct (IH subss' (acc ++ [l]) (es0 ++ concat subs.*1) (offs0 ++ len b :: concat subs.*2) (b ++ page)) as (b' & acc' & offs & -> & Hw & Hlv2 & Ha & Hofs).
  - apply Hlv'. intros o Ho. destruct (Hr o) as [? ?]; [apply elem_of_app; by left|]. split_and!; [done|done|]. intros Ho0. apply (Hdis o Ho0), elem_of_app. by left.
  - rewrite len_app. lia.
  - eapply Forall2_impl; [exact Hf|]. intros c' subs' Hc'. eapply Forall2_impl; [exact Hc'|]. intros x y. apply located_app.
  - done.
  - done.
  - apply NoDup_app. split_and!; [|intros o Ho Ho2|done].
    + apply NoDup_app. split_and!; [done| |].
      * intros o Ho [->|Ho1]%elem_of_cons; [|by apply (Hdis o Ho), elem_of_app; left]. destruct Hlv as [_ _ Hlr]. destruct (Hlr _ Ho). lia.
      * constructor; [|done]. intros Ho. destruct (Hr (len b)); [apply elem_of_app; by left|]. lia.
    + apply elem_of_app in Ho as [Ho|[->|Ho]%elem_of_cons]; [apply (Hdis o Ho), elem_of_app; by right| |by apply (Hdis' o)].
      destruct (Hr (len b)); [apply elem_of_app; by right|]. lia.
  - intros o Ho. destruct (Hr o) as [? ?]; [apply elem_of_app; by right|]. rewrite len_app. lia.
  - done.
  - rewrite len_app, Hp. lia.
  - exists b', acc', offs. rewrite app_assoc. autorewrite with len in *. change (len (@nil PageLocator)) with 0 in *.
    split_and!; [done|by eapply pages_written_step|done|lia|lia].
Qed.

Lemma ordered_pieces (subss : list subtrees) : leaf_ordered (concat (concat subss).*1) -> Forall (fun subs : subtrees => leaf_ordered (concat subs.*1)) subss.
Proof.
  induction subss as [|subs subss IH]; intros Ho; [constructor|]. cbn [concat] in Ho. rewrite fmap_app, concat_app in Ho.
  apply ordered_app in Ho as (Ho1 & Ho2 & _). constructor; [done|by apply IH].
Qed.

Lemma pages_written_trans b1 b2 b3 n m : pages_written b1 b2 n -> pages_written b2 b3 m -> pages_written b1 b3 (n + m).
Proof. intros [H1 L1] [H2 L2]. split; [by etrans|]. lia. Qed.

Lemma write_levels_ok start fuel b h level es offs : level_ok start b h level es offs -> level <> [] -> leaf_ordered es -> start <= len b ->
  N.log2_up (len level) < N.of_nat fuel -> N.of_nat h + N.log2_up (len level) < 255 -> len b + PAGE_SIZE * (2 * len level) <= U64_MAX ->
  exists b' top h' offs' n, write_levels fuel sq b level = Ok (b', [top]) /\ pages_written b b' n /\ n <= 2 * len level /\
    level_ok start b' h' [top] es offs' /\ len offs' = len offs + n /\ N.of_nat h' <= N.of_nat h + N.log2_up (len level).
Proof.
  revert b h level offs. induction fuel as [|fuel IH]; intros b h level offs Hlv Hne Ho Hs Hfuel Hh Hmax; [lia|]. cbn [write_levels].
  destruct (Nat.ltb_spec 1 (length level)) as [Hgt|Hle].
  - destruct Hlv as [(subs & Hf & <- & <-) Hn Hr]. assert (Hcap : INTERNAL_CAPACITY = 255) by reflexivity.
    destruct (chunks_spec INTERNAL_CAPACITY level) as (Hc & Hcne & Hcl); [by rewrite Hcap|].
    destruct (chunks_spec INTERNAL_CAPACITY subs) as (Hcs & _ & _); [by rewrite Hcap|].
    destruct (fewer_pages INTERNAL_CAPACITY (len level) (len (chunks INTERNAL_CAPACITY level))) as (K1 & K2 & K3 & K4); [by rewrite Hcap|unfold len; lia|done|].
    destruct (fold_push_internal start h (chunks INTERNAL_CAPACITY level) (chunks INTERNAL_CAPACITY subs) b [] [] []) as (b1 & next & offs1 & -> & Hw & Hlv1 & Hnl & Hol).
    + apply level_empty.
    + done.
    + by apply chunks_Forall2.
    + apply Forall_and. split; [done|apply chunks_bound].
    + apply ordered_pieces. by rewrite Hcs.
    + by rewrite Hcs.
    + by rewrite Hcs.
    + assert (0 < N.log2_up (len level)) by (apply N.log2_up_pos; unfold len; lia). lia.
    + nia.
    + rewrite Hcs in Hlv1, Hol. cbn [app] in Hlv1. destruct (IH b1 (S h) next offs1 Hlv1) as (b' & top & h' & offs' & n & -> & Hw2 & Hn2 & Hlv2 & Hl2 & Hh2).
      * intros ->. change (len (@nil PageLocator)) with 0 in Hnl. lia.
      * done.
      * destruct Hw as [_ ->]. lia.
      * rewrite Hnl. change (len (@nil PageLocator)) with 0. rewrite N.add_0_l. lia.
      * rewrite Hnl. change (len (@nil PageLocator)) with 0. rewrite N.add_0_l. lia.
      * destruct Hw as [_ ->]. rewrite Hnl. change (len (@nil PageLocator)) with 0. rewrite N.add_0_l. nia.
      * rewrite Hnl in Hn2, Hh2. change (len (@nil PageLocator)) with 0 in *. change (len (@nil N)) with 0 in *. rewrite !N.add_0_l in *.
        exists b', top, h', offs', (len (chunks INTERNAL_CAPACITY level) + n). split_and!; [done|by eapply pages_written_trans|lia|done|lia|lia].
  - destruct level as [|top [|]]; [done| |cbn in Hle; lia]. exists b, top, h, offs, 0. split_and!; [done| |lia|done|lia|lia].
    split; [done|]. by rewrite N.mul_0_r, N.add_0_r.
Qed.

(** What [write_directory] leaves: a tree over the entries, on [n] new pages. *)
Record directory_written b b' (es : list LeafEntry) (root : PageLocator) (offs : list N) : Prop := {
  dw_pages : pages_written b b' (len offs);
  dw_count : len offs <= 3 * len es;
  dw_tree : dtree b' sq (N.to_nat (pl_level root)) root es offs;
  dw_level : pl_level root <= N.log2_up (len es);
  dw_root : pl_offset root <= U64_MAX /\ length (pl_digest root) = 32%nat;
  dw_distinct : NoDup offs;
  dw_range o : o ∈ offs -> len b <= o /\ o + PAGE_SIZE <= len b';
}.

Lemma ordered_concat (ess : list (list LeafEntry)) : leaf_ordered (concat ess) -> Forall leaf_ordered ess.
Proof. induction ess as [|es ess IH]; intros Ho; [constructor|]. apply ordered_app in Ho as (? & ? & _). constructor; [done|by apply IH]. Qed.

Lemma write_directory_ok b es : es <> [] -> Forall leaf_ok es -> leaf_ordered es -> N.log2_up (len es) < 255 -> len b + PAGE_SIZE * (3 * len es) <= U64_MAX ->
  exists b' root offs, write_directory b es sq = Ok (b', root) /\ directory_written b b' es root offs.
Proof.
  intros Hne Hok Ho Hlog Hmax. unfold write_directory. rewrite (proj2 (N.eqb_neq (len es) 0)) by (destruct es; [done|rewrite len_cons; lia]). cbn [negb].
  assert (Hcap : LEAF_CAPACITY = 185) by reflexivity. destruct (chunks_spec LEAF_CAPACITY es) as (Hc & Hcne & Hcl); [by rewrite Hcap|].
  set (pieces := chunks LEAF_CAPACITY es) in *.
  assert (Hk : 1 <= len pieces <= len es).
  { rewrite Hcl, Hcap. assert (1 <= len es) by (destruct es; [done|rewrite len_cons; lia]). split.
    - apply N.div_le_lower_bound; lia.
    - apply N.div_le_upper_bound; lia. }
  destruct (fold_push_leaf (len b) b [] [] [] pieces) as (b1 & level & offs & -> & Hw & Hlv & Hll & Hol).
  - apply level_empty.
  - done.
  - rewrite <- Hc in Hok, Ho. apply Forall_concat in Hok. apply ordered_concat in Ho. pose proof (chunks_bound LEAF_CAPACITY es) as Hb.
    fold pieces in Hb. apply Forall_and. split; [done|]. apply Forall_and. split; [done|]. by apply Forall_and.
  - nia.
  - cbn [app] in Hlv. rewrite Hc in Hlv. change (len (@nil PageLocator)) with 0 in *. change (len (@nil N)) with 0 in *. cbn [N.add] in *.
    assert (Hlog' : N.log2_up (len level) <= N.log2_up (len es)) by (apply N.log2_up_le_mono; lia).
    destruct (write_levels_ok (len b) (S (length level)) b1 0 level es offs Hlv) as (b' & root & h & offs' & n & -> & Hw2 & Hn & Hlv2 & Hl2 & Hh).
    + intros ->. change (len (@nil PageLocator)) with 0 in *. lia.
    + done.
    + destruct Hw as [_ ->]. lia.
    + pose proof (N.log2_up_le_lin (len level) ltac:(lia)). unfold len in *. lia.
    + cbn. lia.
    + destruct Hw as [_ ->]. nia.
    + cbn [last ok_or]. exists b', root, offs'. split; [done|]. destruct Hlv2 as [(subs & Hf & He & Hoffs) Hn2 Hr2].
      apply Forall2_cons_inv_l in Hf as (sub & subs' & Hloc & ->%Forall2_nil_inv_l & ->). cbn [fmap list_fmap concat] in He, Hoffs. rewrite app_nil_r in He, Hoffs. subst offs'. destruct Hloc as (Ht & Hsp & Hoff & Hd). pose proof (dtree_level _ _ _ _ _ _ Ht) as Hlev.
      split.
      * rewrite Hl2, Hol. by eapply pages_written_trans.
      * lia.
      * rewrite Hlev, Nat2N.id. by rewrite <- He.
      * rewrite Hlev. lia.
      * done.
      * done.
      * done.
Qed.
End Levels.
