(* ===== verification/Exp0002RoundTrip.v ===== *)
(** Sealing an EXP-0002 file: the snapshot and the footer that [finish_commit]
    appends, that the commit it leaves is valid, and that files built or
    extended validate with what was given. Pages and footers are canonical:
    what a parse accepts is what the encoder writes for the parsed value. *)

From Stdlib Require Import Strings.Byte Strings.String NArith ZArith Lia.
From stdpp Require Import base list gmap strings sorting.
From S2P Require Import Prelude Order Digest Exp0002 Exp0002File Exp0002Pages Exp0002Strict Exp0002Levels.

Local Open Scope N_scope.

Lemma roots_arrays roots : validate_sorted_unique roots InvalidRoot = Ok tt -> validate_arrays roots [] [] = Ok tt.
Proof. intros Hr. unfold validate_arrays. by rewrite Hr. Qed.

(** The room a directory of [n] entries and [r] roots needs, and the footer. *)
Definition commit_room (n r : N) : N := PAGE_SIZE * (3 * n) + SNAPSHOT_HEADER_LEN + 8 * r + FOOTER_LEN.

Section Commit.
Context `{H : Sha256, !Sha256Ok H}.
Implicit Types b : bytes.

(** A commit of the entries [es] over what the file [b] holds: the file
    [b'], its footer and its snapshot. *)
Record committed b (es : list LeafEntry) (roots : list N) (sq : N) (parent : bytes) (previous start count : N) b' (offs : list N)
    (f : Footer) (s : Snapshot) : Prop := {
  cm_prefix : b `prefix_of` b';
  cm_len : len b' = len b + PAGE_SIZE * len offs + (SNAPSHOT_HEADER_LEN + 8 * len roots) + FOOTER_LEN;
  cm_count : len offs <= 3 * len es;
  cm_footer : footer_parse (slice b' (len b' - FOOTER_LEN) (len b')) = Ok f;
  cm_footer_fields : ft_commit_start f = start /\ ft_commit_len f = len b' - FOOTER_LEN - start /\ ft_sequence f = sq /\
    ft_previous_footer_offset f = previous /\ ft_record_count f = count /\
    ft_snapshot_offset f = len b + PAGE_SIZE * len offs /\ ft_snapshot_len f = SNAPSHOT_HEADER_LEN + 8 * len roots;
  cm_snapshot : digest_bytes SNAPSHOT_DOMAIN (slice b' (ft_snapshot_offset f) (ft_snapshot_offset f + ft_snapshot_len f)) = ft_snapshot_digest f;
  cm_snapshot_parse limits : snapshot_admitted s limits ->
    snapshot_parse (slice b' (ft_snapshot_offset f) (ft_snapshot_offset f + ft_snapshot_len f)) limits = Ok s;
  cm_snapshot_fields : sn_sequence s = sq /\ sn_parent_snapshot_digest s = parent /\ sn_previous_footer_offset s = previous /\
    sn_roots s = roots /\ sn_required_capabilities s = [] /\ sn_optional_capabilities s = [];
  cm_commit : digest_commit (slice b' start (len b' - FOOTER_LEN)) f = ft_commit_digest f;
  cm_tree : dtree b' sq (N.to_nat (sn_directory_root_level s)) (root_locator s) es offs;
  cm_level : sn_directory_root_level s <= N.log2_up (len es);
  cm_distinct : NoDup offs;
  cm_range o : o ∈ offs -> len b <= o /\ o + PAGE_SIZE <= ft_snapshot_offset f;
}.

(** The range of the root is not stored: any range will do. *)
Lemma dtree_root b sq h l es offs : dtree b sq h l es offs ->
  dtree b sq h (mkPageLocator 0 U64_MAX (pl_offset l) (pl_level l) (pl_digest l)) es offs.
Proof.
  assert (Hp : forall p, page_present b sq l p -> page_present b sq (mkPageLocator 0 U64_MAX (pl_offset l) (pl_level l) (pl_digest l)) p).
  { intros p (? & ? & ? & ? & ? & _ & _ & ?). split_and!; try done; by left. }
  destruct h as [|h]; cbn [dtree pl_offset].
  - intros (hd & Hpp & ->). exists hd. split; [by apply Hp|done].
  - intros (hd & cs & subs & Hpp & Hf & -> & ->). exists hd, cs, subs. split_and!; [by apply Hp|done..].
Qed.

Lemma finish_commit_ok b es roots sq parent previous start count :
  es <> [] -> Forall leaf_ok es -> leaf_ordered es -> len es <= U32_MAX ->
  validate_sorted_unique roots InvalidRoot = Ok tt -> Forall (fun r => r <= U64_MAX) roots -> len roots <= U32_MAX ->
  sq <= U64_MAX -> length parent = 32%nat -> previous <= U64_MAX -> start <= len b -> count <= U64_MAX ->
  len b + commit_room (len es) (len roots) <= U64_MAX ->
  exists b' offs f s, finish_commit b es roots sq parent previous start count = Ok b' /\
    committed b es roots sq parent previous start count b' offs f s.
Proof.
  intros Hne Hok Ho Hn Hroots Hrmax Hrn Hsq Hpar Hprev Hstart Hcount Hroom. unfold commit_room, SNAPSHOT_HEADER_LEN, FOOTER_LEN in Hroom.
  assert (Hlog : N.log2_up (len es) <= 32) by (apply N.log2_up_le_pow2; [destruct es; [done|rewrite len_cons; lia]|unfold U32_MAX in Hn; lia]).
  destruct (write_directory_ok sq Hsq b es Hne Hok Ho) as (b1 & root & offs & Hwd & Hdw); [lia|lia|].
  destruct Hdw as [[Hpre Hl1] Hcnt Ht Hlev [Hroff Hrdig] Hnd Hr].
  set (s := mkSnapshot sq parent previous (pl_offset root) PAGE_SIZE (pl_level root) (pl_digest root) roots [] []).
  assert (Hsok : snapshot_ok s).
  { unfold snapshot_ok, s. cbn [sn_sequence sn_parent_snapshot_digest sn_previous_footer_offset sn_directory_root_offset sn_directory_root_len
      sn_directory_root_level sn_directory_root_digest sn_roots sn_required_capabilities sn_optional_capabilities]. rewrite !app_nil_r.
    unfold U16_MAX. split_and!; try done. lia. }
  unfold finish_commit. rewrite Hwd. fold s.
  assert (Henc : exists snb, snapshot_encode s = Ok snb).
  { unfold snapshot_encode, s. cbn [sn_roots sn_required_capabilities sn_optional_capabilities]. rewrite (roots_arrays roots Hroots).
    unfold U32_MAX in *. change (len (@nil N)) with 0. rewrite N.add_0_r || idtac.
    rewrite checked_add_fits by (unfold U64_MAX in *; lia). cbn [ok_or]. rewrite checked_add_fits by (unfold U64_MAX in *; lia). cbn [ok_or].
    unfold checked_mul. rewrite (proj2 (N.leb_le _ U64_MAX)) by (unfold U64_MAX in *; lia). cbn [ok_or].
    rewrite checked_add_fits by (unfold SNAPSHOT_HEADER_LEN, U64_MAX in *; lia). cbn [ok_or].
    unfold try_u32. rewrite (proj2 (N.leb_le (len roots) U32_MAX)) by (unfold U32_MAX; lia). cbn [ok_or]. by eexists. }
  destruct Henc as [snb Henc]. rewrite Henc.
  destruct (snapshot_encode_at s snb Hsok Henc) as (hb & Hsnb & Hhb & _). unfold s in Hsnb. cbn [sn_roots sn_required_capabilities sn_optional_capabilities] in Hsnb.
  rewrite !app_nil_r in Hsnb.
  assert (Hsl : len snb = 160 + 8 * len roots) by (rewrite Hsnb, len_app, Hhb, values_bytes_len; done).
  unfold to_u64, to_usize. assert (Hmax1 : len b1 <= U64_MAX) by nia. rewrite try_u64_fits by done. cbn [ok_or].
  assert (Hmax2 : len (b1 ++ snb) + 160 <= U64_MAX) by (rewrite len_app; nia). rewrite try_u64_fits by lia. cbn [ok_or].
  assert (Hst : start <= len (b1 ++ snb)) by (rewrite len_app, Hl1; nia).
  rewrite (proj2 (checked_sub_Some _ _ _) (conj eq_refl Hst)). cbn [ok_or]. rewrite try_u64_fits by lia. cbn [ok_or].
  rewrite try_u64_fits by lia. cbn [ok_or]. rewrite try_u64_fits by lia. cbn [ok_or].
  set (fw := mkFooter start (len (b1 ++ snb) - start) (len b1) (len snb) sq previous count (digest_bytes SNAPSHOT_DOMAIN snb)).
  set (cd := digest_commit (slice (b1 ++ snb) start (len (b1 ++ snb))) (fw (zeros 32))). set (f := fw cd).
  destruct (footer_encode_at f) as (Hfl & Hfat & _); [apply digest_len|apply digest_commit_len|].
  exists ((b1 ++ snb) ++ footer_encode f), offs, f, s. split; [done|].
  assert (Hlen : len ((b1 ++ snb) ++ footer_encode f) - 160 = len (b1 ++ snb)) by (rewrite (len_app (b1 ++ snb)), Hfl; lia).
  assert (Hsnap : slice ((b1 ++ snb) ++ footer_encode f) (len b1) (len b1 + len snb) = snb).
  { rewrite <- app_assoc. apply slice_app; done. }
  unfold FOOTER_LEN, SNAPSHOT_HEADER_LEN. split.
  - etrans; [exact Hpre|]. rewrite <- app_assoc. by apply prefix_app_r.
  - rewrite !len_app, Hfl, Hsl, Hl1. unfold FOOTER_LEN, SNAPSHOT_HEADER_LEN. lia.
  - done.
  - unfold FOOTER_LEN. rewrite Hlen. rewrite page_suffix by (by rewrite len_app). apply footer_parse_Ok. split_and!; [done| |done].
    unfold footer_ok, f, fw. cbn [ft_commit_start ft_commit_len ft_snapshot_offset ft_snapshot_len ft_sequence ft_previous_footer_offset ft_record_count
      ft_snapshot_digest ft_commit_digest]. rewrite len_app in *. split_and!; try done; try lia; [apply digest_len|apply digest_commit_len].
  - unfold FOOTER_LEN, SNAPSHOT_HEADER_LEN. rewrite Hlen. unfold f, fw. cbn. by rewrite Hsl, Hl1.
  - change (ft_snapshot_offset f) with (len b1). change (ft_snapshot_len f) with (len snb). by rewrite Hsnap.
  - intros limits Hadm. change (ft_snapshot_offset f) with (len b1). change (ft_snapshot_len f) with (len snb). rewrite Hsnap.
    by apply (snapshot_encode_parses s snb limits).
  - done.
  - unfold FOOTER_LEN. rewrite Hlen. rewrite slice_app_l by done. done.
  - apply (dtree_root _ _ _ (mkPageLocator (pl_min_key root) (pl_max_key root) _ _ _)). rewrite <- app_assoc. apply dtree_app. destruct root. exact Ht.
  - done.
  - done.
  - intros o Hin. destruct (Hr o Hin). split; [done|]. by change (ft_snapshot_offset f) with (len b1).
Qed.

(** ** Validating what was committed *)

(** Limits with room for a file of [size] bytes, with [n] objects, [r] roots
    and [payload] bytes of payload. *)
Record roomy (limits : ValidationLimits) (size n r payload : N) : Prop := {
  ry_file : size <= max_file_bytes limits;
  ry_commit : size <= max_commit_bytes limits;
  ry_snapshot : SNAPSHOT_HEADER_LEN + 8 * r <= max_snapshot_bytes limits;
  ry_roots : r <= max_roots limits;
  ry_pages : 3 * n <= max_pages limits;
  ry_objects : n <= max_objects limits;
  ry_depth : 1 + N.log2_up n <= max_page_depth limits;
  ry_payload : payload <= max_payload_bytes limits;
  ry_hashed : 2 * size + OBJECT_HEADER_LEN * n + payload <= max_hashed_bytes limits;
  ry_max : 2 * size + OBJECT_HEADER_LEN * n + payload <= U64_MAX;
}.

Lemma record_len_sum b es : Forall (record_present b) es -> sum_of le_record_len es = OBJECT_HEADER_LEN * len es + sum_of le_logical_len es.
Proof.
  induction 1 as [|e es (_ & _ & He & _) Hes IH]; [done|]. cbn [sum_of foldr]. fold (sum_of le_record_len es) (sum_of le_logical_len es).
  rewrite IH, He, len_cons. lia.
Qed.

Lemma committed_valid b es roots sq parent previous start count b' offs f s hd limits :
  committed b es roots sq parent previous start count b' offs f s ->
  FILE_HEADER_LEN <= len b -> file_header_parse (slice b 0 FILE_HEADER_LEN) = Ok hd ->
  Forall (record_present b) es -> disjoint_ranges (record_range <$> es) -> parent_linked b' (len b' - FOOTER_LEN) f s ->
  roots <> [] -> (forall r, r ∈ roots -> r ∈ le_object_id <$> es) -> start <= len b -> len b' <= U64_MAX ->
  roomy limits (len b') (len es) (len roots) (sum_of le_logical_len es) ->
  exists v, validate_strict b' limits = Ok v /\ v_header v = hd /\ v_footer_offset v = len b' - FOOTER_LEN /\ v_footer v = f /\
    v_snapshot v = s /\ v_objects v = es /\ v_pages_verified v = len offs.
Proof.
  intros [[more Hmore] Hlen Hcnt Hf Hff Hsd Hsp Hsf Hcd Ht Hlev Hnd Hr] Hhl Hhd Hrec Hdis Hpar Hne Hin Hstart Hmax Hroom.
  destruct Hff as (F1 & F2 & F3 & F4 & F5 & F6 & F7). destruct Hsf as (S1 & S2 & S3 & S4 & S5 & S6). destruct Hroom as [R1 R2 R3 R4 R5 R6 R7 R8 R9 R10].
  set (v := mkVerified hd (len b' - FOOTER_LEN) f s es (len offs) (ft_commit_len f + PAGE_SIZE * len offs + sum_of le_record_len es)).
  exists v. split; [|done]. apply validate_strict_Ok. exists offs. pose proof (record_len_sum b es Hrec) as Hsum.
  unfold FOOTER_LEN, FILE_HEADER_LEN, SNAPSHOT_HEADER_LEN, OBJECT_HEADER_LEN in *. rewrite F6, F7 in *.
  split; split; cbn [v v_header v_footer_offset v_footer v_snapshot v_objects v_pages_verified v_bytes_hashed];
    unfold FOOTER_LEN, FILE_HEADER_LEN; rewrite ?F1, ?F6, ?F7; try done; try lia.
  - rewrite Hmore, slice_app_l by lia. done.
  - apply Hsp. unfold snapshot_admitted, SNAPSHOT_HEADER_LEN. rewrite S4, S5, S6, !app_nil_r. change (len (@nil N)) with 0. split_and!; [done|lia|lia].
  - rewrite S1. done.
  - unfold records_valid. split_and!; [|done|].
    + rewrite Hmore. eapply Forall_impl; [exact Hrec|]. intros e. apply record_present_app.
    + intros e He. pose proof (proj1 (Forall_forall _ _) Hrec e He) as (Hle & _). split_and!.
      * intros p (o & -> & Ho)%list_elem_of_fmap. destruct (Hr o Ho). apply apart_le. left. cbn. lia.
      * apply apart_le. left. cbn. nia.
      * apply apart_le. left. cbn. nia.
  - rewrite S4. done.
Qed.
End Commit.

Lemma sum_of_Permutation {A} (f : A -> N) l k : l ≡ₚ k -> sum_of f l = sum_of f k.
Proof. induction 1; cbn [sum_of foldr] in *; fold (sum_of f) in *; unfold sum_of in *; lia. Qed.

Lemma canonical_values_cases values e : Forall (fun v => v <= U64_MAX) values ->
  match canonical_values values e with
  | Ok vs => vs ≡ₚ values /\ NoDup values /\ StronglySorted N.lt vs /\ validate_sorted_unique vs e = Ok tt
  | Err e' => e' = e /\ (0 ∈ values \/ ~ NoDup values)
  end.
Proof.
  intros _. unfold canonical_values. pose proof (sort_by_Permutation N.compare values) as Hp. set (vs := sort_by N.compare values) in *.
  assert (Hs : StronglySorted (cmp_le N.compare) vs) by apply sort_by_StronglySorted, _. clearbody vs.
  case_bool_decide as Hz; cbn [negb].
  { split; [done|]. left. rewrite <- Hp. by apply head_elem. }
  destruct (no_window N.eqb e vs) as [[]|e'] eqn:Ew.
  - apply no_window_Ok in Ew. assert (Hss : StronglySorted N.lt vs).
    { apply Sorted_StronglySorted; [intros x y z; lia|]. apply StronglySorted_Sorted in Hs. clear -Hs Ew. induction Hs as [|x vs Hs IH Hh]; [constructor|].
      inversion Ew as [|? ? Hw Hh2]; subst. constructor; [by apply IH|]. destruct Hh as [|y vs Hc]; constructor. inversion Hh2 as [|? ? Hne]; subst.
      unfold cmp_le in Hc. rewrite N.compare_le_iff in Hc. apply N.eqb_neq in Hne. lia. }
    split_and!; [done| |done|].
    + rewrite <- Hp. clear -Hss. induction Hss as [|x vs Hs IH Hf]; constructor; [|done]. intros Hx. pose proof (proj1 (Forall_forall _ _) Hf x Hx). lia.
    + unfold validate_sorted_unique. rewrite bool_decide_eq_false_2 by done. cbn [negb]. apply no_window_Ok. apply StronglySorted_Sorted in Hss.
      eapply Sorted_mono; [|exact Hss]. intros x y Hxy. by apply N.leb_gt.
  - pose proof (no_window_error _ _ _ _ Ew) as ->. split; [done|]. right. intros Hn. rewrite <- Hp in Hn.
    apply check_windows_Err in Ew as (l1 & x & y & l2 & -> & Hxy). destruct (N.eqb_spec x y) as [->|]; [|done].
    apply NoDup_app in Hn as (_ & _ & Hn). apply NoDup_cons in Hn as [Hn _]. apply Hn. by left.
Qed.

Section RoundTrip.
Context `{H : Sha256, !Sha256Ok H}.
Implicit Types b : bytes.

(** An entry of a file that stores an object. *)
Definition stores b (o : ObjectInput) (e : LeafEntry) : Prop :=
  le_object_id e = oi_object_id o /\ le_kind e = oi_kind o /\ le_logical_len e = len (oi_payload o) /\
  slice b (le_record_offset e + OBJECT_HEADER_LEN) (le_record_offset e + le_record_len e) = oi_payload o.

Lemma stores_app b more o e : record_present b e -> stores b o e -> stores (b ++ more) o e.
Proof. intros (Hle & _) (? & ? & ? & Hs). unfold stores. rewrite slice_app_l by done. done. Qed.

Lemma stores_all_app b more os es : Forall (record_present b) es -> Forall2 (stores b) os es -> Forall2 (stores (b ++ more)) os es.
Proof.
  intros Hw Hf. induction Hf as [|o e os es Hs Hf IH]; [constructor|]. apply Forall_cons in Hw as [Hw1 Hw2]. constructor; [by apply stores_app|by apply IH].
Qed.

Lemma entries_at_stores pre post objects : Forall object_ok objects -> Forall (fun o => oi_object_id o <> 0 /\ oi_kind o <> 0) objects ->
  len pre + sum_of record_size objects <= U64_MAX ->
  Forall2 (stores (pre ++ concat (record_bytes <$> objects) ++ post)) objects (entries_at (len pre) objects).
Proof.
  intros Hok Hnz Hmax. destruct (entries_at_written pre post objects Hok Hnz Hmax) as [_ _ _ _ _ Hp]. revert Hp.
  generalize (pre ++ concat (record_bytes <$> objects) ++ post). intros b. clear Hok Hnz Hmax. generalize (len pre). induction objects as [|o objects IH]; intros n; [constructor|].
  cbn [entries_at]. intros Hf. apply Forall2_cons in Hf as [[Hs Hk] Hf]. constructor; [|by apply IH]. by split_and!.
Qed.

Lemma entries_at_sums offset objects : sum_of le_logical_len (entries_at offset objects) = sum_of (fun o => len (oi_payload o)) objects /\
  len (entries_at offset objects) = len objects.
Proof.
  revert offset. induction objects as [|o objects IH]; intros offset; [done|]. destruct (IH (offset + record_size o)) as [IH1 IH2].
  cbn [entries_at sum_of foldr]. rewrite !len_cons, IH2. split; [|done]. f_equal. exact IH1.
Qed.

Definition sorted_objects (objects : list ObjectInput) : list ObjectInput := sort_by (cmp_on oi_object_id N.compare) objects.

(** Writing the records of some objects after [b]. *)
Lemma write_object_records_cases b objects : Forall object_ok objects -> len b + sum_of record_size objects <= U64_MAX ->
  match write_object_records b objects with
  | Ok (b', es) => let os := sorted_objects objects in
      b' = b ++ concat (record_bytes <$> os) /\ es = entries_at (len b) os /\ ids_ordered os /\
      (forall post, records_written (len b) (b' ++ post) os es) /\ Forall2 (stores b') os es
  | Err e => exists os, os ≡ₚ objects /\ record_error os e
  end.
Proof.
  intros Hok Hmax. unfold write_object_records. fold (sorted_objects objects). set (os := sorted_objects objects).
  assert (Hp : os ≡ₚ objects) by apply sort_by_Permutation.
  assert (Hs : StronglySorted (cmp_le (cmp_on oi_object_id N.compare)) os) by (apply sort_by_StronglySorted, cmp_on_total, strict_total).
  assert (Hsum : len b + sum_of record_size os <= U64_MAX) by (by rewrite (sum_of_Permutation _ _ _ Hp)).
  pose proof (write_records_cases b None os Hs ltac:(done) Hsum) as Hc. destruct (write_records b None os) as [[b' es]|e].
  - destruct Hc as (-> & -> & Ho & Hnz & _). assert (Hok' : Forall object_ok os) by (by rewrite Hp). split_and!; try done.
    + intros post. rewrite <- app_assoc. by apply entries_at_written.
    + pose proof (entries_at_stores b [] os Hok' Hnz Hsum) as Hst. by rewrite app_nil_r in Hst.
  - exists os. split; [done|]. destruct e; try done. by destruct Hc as [|[? _]].
Qed.

(** ** Genesis *)

Definition root_ids (objects : list ObjectInput) : list N := oi_object_id <$> filter (fun o => oi_is_root o = true) objects.

Definition genesis_room (objects : list ObjectInput) : N :=
  FILE_HEADER_LEN + sum_of record_size objects + commit_room (len objects) (len objects).

(** A genesis file: its size, and what any validation with room for it
    reports. *)
Definition genesis_reads_back (header : FileHeader) (objects : list ObjectInput) b : Prop :=
  len b <= genesis_room objects /\
  forall limits, roomy limits (len b) (len objects) (len (root_ids objects)) (sum_of (fun o => len (oi_payload o)) objects) ->
  exists v, validate_strict b limits = Ok v /\ v_header v = header /\ sn_sequence (v_snapshot v) = 0 /\
    sn_parent_snapshot_digest (v_snapshot v) = zeros 32 /\ sn_roots (v_snapshot v) ≡ₚ root_ids objects /\
    Forall2 (stores b) (sorted_objects objects) (v_objects v) /\ ft_record_count (v_footer v) = len objects.

Lemma entries_ids_ordered os es : ids_ordered os -> le_object_id <$> es = oi_object_id <$> os -> leaf_ordered es.
Proof.
  intros Ho. revert es. induction Ho as [|o os Ho IH Hf]; intros [|e es] E; try done; [constructor|]. rewrite !fmap_cons in E. injection E as E1 E2. constructor; [by apply IH|].
  apply Forall_forall. intros x (i & Hi)%list_elem_of_lookup. assert (Hl : (le_object_id <$> es) !! i = Some (le_object_id x)) by (by rewrite list_lookup_fmap, Hi).
  rewrite E2, list_lookup_fmap in Hl. destruct (os !! i) as [y|] eqn:Ey; [|done]. injection Hl as Hl.
  pose proof (proj1 (Forall_forall _ _) Hf y (list_elem_of_lookup_2 _ _ _ Ey)) as Hlt. unfold key_lt in *. congruence.
Qed.

Lemma build_genesis_cases header objects :
  file_header_ok header -> Forall object_ok objects -> len objects <= U32_MAX -> genesis_room objects <= U64_MAX ->
  match build_genesis header objects with
  | Ok b => genesis_reads_back header objects b
  | Err EmptyObjectSet => objects = []
  | Err NoRootObjects => root_ids objects = []
  | Err InvalidRoot => 0 ∈ root_ids objects \/ ~ NoDup (root_ids objects)
  | Err e => exists os, os ≡ₚ objects /\ record_error os e
  end.
Proof.
  intros Hh Hok Hn Hroom. unfold build_genesis, build_commit. unfold genesis_room, commit_room, FILE_HEADER_LEN, SNAPSHOT_HEADER_LEN, FOOTER_LEN in Hroom.
  destruct (N.eqb_spec (len objects) 0) as [Hz|Hz]; cbn [negb]; [destruct objects; [done|rewrite len_cons in Hz; lia]|].
  cbn [ok_or app]. destruct (file_header_encode_at header Hh) as [Hhl Hhat]. fold (root_ids objects).
  assert (Hrmax : Forall (fun v => v <= U64_MAX) (root_ids objects)).
  { unfold root_ids. apply Forall_fmap, Forall_forall. intros o [_ Ho]%list_elem_of_filter. by apply (proj1 (Forall_forall _ _) Hok). }
  pose proof (canonical_values_cases (root_ids objects) InvalidRoot Hrmax) as Hc.
  destruct (canonical_values (root_ids objects) InvalidRoot) as [roots|e]; [|by destruct Hc as [-> Hc]]. destruct Hc as (Hrp & Hrn & Hrs & Hrv).
  assert (Hrl : len roots = len (root_ids objects)) by (unfold len; by rewrite Hrp).
  destruct (N.eqb_spec (len roots) 0) as [Hrz|Hrz]; cbn [negb]; [destruct (root_ids objects); [done|rewrite len_cons in Hrl; lia]|].
  pose proof (write_object_records_cases (file_header_encode header) objects Hok ltac:(rewrite Hhl; nia)) as Hw.
  destruct (write_object_records (file_header_encode header) objects) as [[b es]|e].
  2: { destruct Hw as (os & Hp & He). destruct e; try (by exists os); inversion He. }
  destruct Hw as (Hb & Hes & Hord & Hwr & Hst). set (os := sorted_objects objects) in *.
  assert (Hp : os ≡ₚ objects) by apply sort_by_Permutation.
  pose proof (Hwr []) as Hwr0. rewrite app_nil_r in Hwr0. destruct Hwr0 as [W1 W2 W3 W4 W5 _].
  destruct (entries_at_sums (len (file_header_encode header)) os) as [Hsum Hel]. rewrite <- Hes in Hsum, Hel.
  assert (Hlo : len os = len objects) by (unfold len; by rewrite Hp).
  assert (Hbl : len b = 64 + sum_of record_size objects) by (rewrite Hb, len_app, Hhl, records_len; by rewrite (sum_of_Permutation _ _ _ Hp)).
  assert (Hrle : len (root_ids objects) <= len objects) by (unfold root_ids; rewrite len_fmap; unfold len; pose proof (length_filter (fun o => oi_is_root o = true) objects); lia).
  assert (Hne : es <> []) by (intros ->; change (len (@nil LeafEntry)) with 0 in Hel; lia).
  cbv beta iota. unfold to_u64. rewrite try_u64_fits by (unfold U32_MAX, U64_MAX in *; lia). cbn [ok_or].
  destruct (finish_commit_ok b es roots 0 (zeros 32) ABSENT_OFFSET 0 (len es) Hne W2 (entries_ids_ordered os es Hord W3)) as (b' & offs & f & s & -> & Hcm); try done.
  - lia.
  - by rewrite Hrp.
  - unfold U32_MAX in *. lia.
  - lia.
  - unfold U32_MAX, U64_MAX in *. lia.
  - unfold commit_room, SNAPSHOT_HEADER_LEN, FOOTER_LEN. nia.
  - pose proof (cm_len _ _ _ _ _ _ _ _ _ _ _ _ Hcm) as Hl'. pose proof (cm_count _ _ _ _ _ _ _ _ _ _ _ _ Hcm) as Hcnt. split.
    { rewrite Hl'. unfold genesis_room, commit_room, FILE_HEADER_LEN, SNAPSHOT_HEADER_LEN, FOOTER_LEN. nia. }
    intros limits Hlim. destruct (cm_footer_fields _ _ _ _ _ _ _ _ _ _ _ _ Hcm) as (F1 & F2 & F3 & F4 & F5 & _).
    destruct (cm_snapshot_fields _ _ _ _ _ _ _ _ _ _ _ _ Hcm) as (S1 & S2 & S3 & S4 & _).
    destruct (committed_valid b es roots 0 (zeros 32) ABSENT_OFFSET 0 (len es) b' offs f s header limits Hcm) as (v & Hv & V1 & V2 & V3 & V4 & V5 & _); try done.
    + unfold FILE_HEADER_LEN. lia.
    + apply file_header_parse_Ok. rewrite Hb. unfold FILE_HEADER_LEN. rewrite slice_app_l by lia. pose proof (slice_all (file_header_encode header)) as Ha. rewrite Hhl in Ha. rewrite Ha. by split_and!; [lia| |].
    + unfold parent_linked. rewrite F4, N.eqb_refl. by rewrite F3, F1, S2.
    + intros ->. done.
    + intros r Hr. rewrite Hrp in Hr. rewrite W3, Hp. unfold root_ids in Hr. apply list_elem_of_fmap in Hr as (o & -> & [_ Ho]%list_elem_of_filter). by apply list_elem_of_fmap_2.
    + lia.
    + rewrite Hl'. unfold SNAPSHOT_HEADER_LEN, FOOTER_LEN. nia.
    + rewrite Hel, Hlo, Hrl, Hsum. by rewrite (sum_of_Permutation _ _ _ Hp).
    + exists v. rewrite V1, V3, V4, V5, S1, S2, S4, F5, Hel, Hlo. split_and!; try done.
      destruct (cm_prefix _ _ _ _ _ _ _ _ _ _ _ _ Hcm) as [more ->]. by apply stores_all_app.
Qed.

(** ** Appending *)

Definition append_room (previous_file : bytes) (v0 : VerifiedExp0002) (new_objects : list ObjectInput) (roots : list N) : N :=
  len previous_file + sum_of record_size new_objects + commit_room (len (v_objects v0) + len new_objects) (len roots).

(** An appended file: the previous one is a prefix of it, and any validation
    with room for it reports the next commit over all the objects. *)
Definition append_reads_back (previous_file : bytes) (v0 : VerifiedExp0002) (new_objects : list ObjectInput) (roots : list N) b : Prop :=
  previous_file `prefix_of` b /\
  forall limits, roomy limits (len b) (len (v_objects v0) + len new_objects) (len roots)
    (sum_of le_logical_len (v_objects v0) + sum_of (fun o => len (oi_payload o)) new_objects) ->
  exists v added, validate_strict b limits = Ok v /\ v_header v = v_header v0 /\
    sn_sequence (v_snapshot v) = sn_sequence (v_snapshot v0) + 1 /\
    sn_parent_snapshot_digest (v_snapshot v) = ft_snapshot_digest (v_footer v0) /\
    sn_previous_footer_offset (v_snapshot v) = v_footer_offset v0 /\ sn_roots (v_snapshot v) ≡ₚ roots /\
    v_objects v ≡ₚ v_objects v0 ++ added /\ Forall2 (stores b) (sorted_objects new_objects) added /\
    ft_record_count (v_footer v) = len new_objects.

Lemma record_error_duplicate os id : record_error os (DuplicateObjectId id) -> ~ NoDup (oi_object_id <$> os).
Proof.
  intros He Hn. inversion He as [| |l1 o l2 o' l3 -> Hid]; subst. rewrite fmap_app, fmap_cons, fmap_app, fmap_cons in Hn.
  apply NoDup_app in Hn as (_ & _ & Hn). apply NoDup_cons in Hn as [Hn _]. apply Hn, elem_of_app. right. rewrite Hid. by left.
Qed.

Lemma footer_slice_app b more f footer_offset : footer_parse (slice b footer_offset (len b)) = Ok f -> len b = footer_offset + FOOTER_LEN ->
  footer_parse (slice (b ++ more) footer_offset (footer_offset + FOOTER_LEN)) = Ok f.
Proof. intros Hf Hl. rewrite slice_app_l by lia. by rewrite Hl in Hf. Qed.

(** What the parts of an accepted file are, for the next commit. *)
Lemma strict_records b limits offs v : strict_valid b limits offs v ->
  Forall (record_present b) (v_objects v) /\ Forall leaf_ok (v_objects v) /\ leaf_ordered (v_objects v) /\
  disjoint_ranges (record_range <$> v_objects v) /\ v_objects v <> [].
Proof.
  intros Hv. destruct (dtree_ordered _ _ _ _ _ _ (sv_tree _ _ _ _ Hv)) as (? & ? & ? & _). destruct (sv_records _ _ _ _ Hv) as (? & ? & _).
  by split_and!.
Qed.

(** The entries of the previous commit together with those just added. *)
Lemma merged_entries prev more limits offs v0 os added : strict_valid prev limits offs v0 -> Forall object_ok os ->
  NoDup ((le_object_id <$> v_objects v0) ++ (oi_object_id <$> os)) -> records_written (len prev) (prev ++ more) os added ->
  let es := sort_by (cmp_on le_object_id N.compare) (v_objects v0 ++ added) in
  es ≡ₚ v_objects v0 ++ added /\ leaf_ordered es /\ Forall leaf_ok es /\ Forall (record_present (prev ++ more)) es /\
  disjoint_ranges (record_range <$> es) /\ es <> [].
Proof.
  intros Hv Hok Hn [W1 W2 W3 W4 W5 _] es. destruct (strict_records _ _ _ _ Hv) as (R1 & R2 & R3 & R4 & R5).
  assert (Hp : es ≡ₚ v_objects v0 ++ added) by apply sort_by_Permutation. split_and!.
  - done.
  - apply sort_by_ordered. rewrite fmap_app, W3. done.
  - rewrite Hp. by apply Forall_app.
  - rewrite Hp. apply Forall_app. split; [|done]. eapply Forall_impl; [exact R1|]. intros e. apply record_present_app.
  - rewrite Hp, fmap_app. apply disjoint_app. split_and!; [done|done|]. intros x y (e & -> & He)%list_elem_of_fmap (a & -> & Ha)%list_elem_of_fmap.
    destruct (W5 a Ha) as [Hlo _]. pose proof (proj1 (Forall_forall _ _) R1 e He) as (Hhi & _). apply apart_le. left. cbn. lia.
  - intros E. rewrite E in Hp. apply Permutation_nil_l in Hp. symmetry in Hp. by apply app_eq_nil in Hp as [? _].
Qed.

Lemma build_append_cases prev new_objects roots limits0 v0 :
  validate_strict prev limits0 = Ok v0 -> Forall object_ok new_objects -> Forall (fun r => r <= U64_MAX) roots ->
  len (v_objects v0) + len new_objects <= U32_MAX -> len roots <= U32_MAX -> append_room prev v0 new_objects roots <= U64_MAX ->
  match build_append prev new_objects roots limits0 with
  | Ok b => append_reads_back prev v0 new_objects roots b
  | Err NoRootObjects => roots = []
  | Err InvalidRoot => 0 ∈ roots \/ ~ NoDup roots \/
      exists r, r ∈ roots /\ r ∉ (le_object_id <$> v_objects v0) ++ (oi_object_id <$> new_objects)
  | Err (DuplicateObjectId _) => ~ NoDup ((le_object_id <$> v_objects v0) ++ (oi_object_id <$> new_objects))
  | Err ArithmeticOverflow => sn_sequence (v_snapshot v0) = U64_MAX
  | Err e => exists os, os ≡ₚ new_objects /\ record_error os e
  end.
Proof.
  intros Hv0 Hok Hrmax Hn Hrn Hroom. unfold build_append. rewrite Hv0. apply validate_strict_Ok in Hv0 as (offs0 & Hsv & _).
  unfold append_room, commit_room, SNAPSHOT_HEADER_LEN, FOOTER_LEN in Hroom.
  pose proof (canonical_values_cases roots InvalidRoot Hrmax) as Hc.
  destruct (canonical_values roots InvalidRoot) as [rs|e]; [|destruct Hc as [-> [Hc|Hc]]; [by left|by right; left]]. destruct Hc as (Hrp & Hrd & Hrs & Hrv).
  assert (Hrl : len rs = len roots) by (unfold len; by rewrite Hrp).
  destruct (N.eqb_spec (len rs) 0) as [Hrz|Hrz]; cbn [negb]; [destruct roots; [done|rewrite len_cons in Hrl; lia]|].
  destruct (strict_records _ _ _ _ Hsv) as (R1 & R2 & R3 & R4 & R5).
  assert (Hid0 : NoDup (le_object_id <$> v_objects v0)).
  { clear -R3. induction R3 as [|e es Hs IH Hf]; [constructor|]. rewrite fmap_cons. constructor; [|done]. intros (x & E & Hx)%list_elem_of_fmap.
    pose proof (proj1 (Forall_forall _ _) Hf x Hx) as Hlt. unfold key_lt in Hlt. lia. }
  destruct (insert_all DuplicateObjectId _ _) as [seen|e] eqn:Eins.
  2: { pose proof (insert_all_Err _ _ _ _ Eins) as (x & Hx & ->). intros Hnd. apply NoDup_app in Hnd as (_ & Hd1 & Hd2).
       assert (Hin : exists s, insert_all DuplicateObjectId (oi_object_id <$> new_objects) (list_to_set (le_object_id <$> v_objects v0)) = Ok s).
       { eexists. apply insert_all_Ok. split_and!; [done| |reflexivity]. intros y Hy Hy'%elem_of_list_to_set. by apply (Hd1 y). }
       destruct Hin as [s Hs]. congruence. }
  apply insert_all_Ok in Eins as (Hnew & Hdis & Hseen).
  assert (Hnd : NoDup ((le_object_id <$> v_objects v0) ++ (oi_object_id <$> new_objects))).
  { apply NoDup_app. split_and!; [done| |done]. intros x Hx Hx'. apply (Hdis x Hx'). by apply elem_of_list_to_set. }
  destruct (sv_len _ _ _ _ Hsv) as (L1 & L2 & L3). unfold to_u64. rewrite try_u64_fits by done. cbn [ok_or].
  pose proof (write_object_records_cases prev new_objects Hok ltac:(nia)) as Hw.
  destruct (write_object_records prev new_objects) as [[b added]|e].
  2: { destruct Hw as (os & Hp & He). destruct e; try (by exists os); try (by inversion He). exfalso. apply (record_error_duplicate _ _ He). by rewrite Hp. }
  destruct Hw as (Hb & Hes & Hord & Hwr & Hst). set (os := sorted_objects new_objects) in *.
  assert (Hp : os ≡ₚ new_objects) by apply sort_by_Permutation. assert (Hosok : Forall object_ok os) by (by rewrite Hp).
  assert (Hnd' : NoDup ((le_object_id <$> v_objects v0) ++ (oi_object_id <$> os))) by (by rewrite Hp).
  pose proof (Hwr []) as Hwr0. rewrite app_nil_r, Hb in Hwr0.
  destruct (merged_entries prev _ _ _ v0 os added Hsv Hosok Hnd' Hwr0) as (Hep & Hord2 & Hok2 & Hpres & Hdis2 & Hne). rewrite <- Hb in Hpres.
  set (es := sort_by (cmp_on le_object_id N.compare) (v_objects v0 ++ added)) in *. cbv zeta.
  destruct (entries_at_sums (len prev) os) as [Hsum Hel]. rewrite <- Hes in Hsum, Hel.
  assert (Hlo : len os = len new_objects) by (unfold len; by rewrite Hp).
  assert (Hle : len es = len (v_objects v0) + len new_objects) by (rewrite <- Hlo, <- Hel, <- len_app; unfold len; by rewrite Hep).
  assert (Hbl : len b = len prev + sum_of record_size new_objects) by (rewrite Hb, len_app, records_len; by rewrite (sum_of_Permutation _ _ _ Hp)).
  assert (Hids : forall r, r ∈ le_object_id <$> es <-> r ∈ (le_object_id <$> v_objects v0) ++ (oi_object_id <$> new_objects)).
  { intros r. rewrite Hep, fmap_app, (rw_ids _ _ _ _ Hwr0), Hp. done. }
  destruct (forallb _ rs) eqn:Eall; cbn [negb].
  2: { right. right. apply not_true_iff_false in Eall. rewrite forallb_forall in Eall.
       destruct (decide (Forall (fun r => r ∈ le_object_id <$> es) rs)) as [Hall|Hall].
       - exfalso. apply Eall. intros r Hr%list_elem_of_In. apply bool_decide_eq_true_2. by apply (proj1 (Forall_forall _ _) Hall).
       - apply not_Forall_Exists in Hall; [|apply _]. apply Exists_exists in Hall as (r & Hr & Hnin). exists r. rewrite <- Hrp, <- Hids. done. }
  rewrite forallb_forall in Eall. setoid_rewrite <- list_elem_of_In in Eall. setoid_rewrite bool_decide_eq_true in Eall.
  destruct (checked_add (sn_sequence (v_snapshot v0)) 1) as [sq|] eqn:Esq; cbn [ok_or].
  2: { destruct (sv_sequence _ _ _ _ Hsv) as [Hs1 _]. pose proof (proj1 (footer_parse_Ok _ _) (sv_footer _ _ _ _ Hsv)) as (_ & Hfok & _).
       unfold checked_add in Esq. destruct (N.leb_spec (sn_sequence (v_snapshot v0) + 1) U64_MAX); [done|]. destruct Hfok as (_ & _ & _ & _ & Hsq & _). lia. }
  apply checked_add_Some in Esq as [-> Hsq].
  assert (Hcount : N.of_nat (size seen) - len (v_objects v0) = len new_objects).
  { rewrite Hseen, size_union by (intros x Hx%elem_of_list_to_set Hx'%elem_of_list_to_set; apply (Hdis x Hx); by apply elem_of_list_to_set).
    rewrite !size_list_to_set, !length_fmap by done. unfold len. lia. }
  rewrite Hcount, try_u64_fits by (unfold U32_MAX, U64_MAX in *; lia). cbn [ok_or].
  pose proof (proj1 (footer_parse_Ok _ _) (sv_footer _ _ _ _ Hsv)) as (_ & Hfok & _).
  unfold FOOTER_LEN, FILE_HEADER_LEN in L1, L2.
  destruct (finish_commit_ok b es rs (sn_sequence (v_snapshot v0) + 1) (ft_snapshot_digest (v_footer v0)) (v_footer_offset v0) (len prev) (len new_objects) Hne Hok2 Hord2)
    as (b' & offs & f & s & -> & Hcm); try done; try lia.
  - by rewrite Hrp.
  - apply Hfok.
  - unfold U32_MAX, U64_MAX in *. lia.
  - rewrite Hrl, Hle. unfold commit_room, SNAPSHOT_HEADER_LEN, FOOTER_LEN. lia.
  - destruct (cm_prefix _ _ _ _ _ _ _ _ _ _ _ _ Hcm) as [more Hmore]. split; [rewrite Hmore, Hb, <- app_assoc; by apply prefix_app_r|].
    intros limits Hlim. destruct (cm_footer_fields _ _ _ _ _ _ _ _ _ _ _ _ Hcm) as (F1 & F2 & F3 & F4 & F5 & _).
    destruct (cm_snapshot_fields _ _ _ _ _ _ _ _ _ _ _ _ Hcm) as (S1 & S2 & S3 & S4 & _).
    pose proof (cm_len _ _ _ _ _ _ _ _ _ _ _ _ Hcm) as Hl'. pose proof (cm_count _ _ _ _ _ _ _ _ _ _ _ _ Hcm) as Hcnt.
    destruct (committed_valid _ _ _ _ _ _ _ _ b' offs f s (v_header v0) limits Hcm) as (v & Hv & V1 & V2 & V3 & V4 & V5 & _); try done.
    + unfold FILE_HEADER_LEN. lia.
    + rewrite Hb, slice_app_l by (unfold FILE_HEADER_LEN; lia). apply Hsv.
    + unfold parent_linked. rewrite F4. destruct (N.eqb_spec (v_footer_offset v0) ABSENT_OFFSET) as [E|_]; [exfalso; unfold ABSENT_OFFSET in E; lia|].
      rewrite F1, F3. unfold SNAPSHOT_HEADER_LEN, FOOTER_LEN in *. split_and!; [lia|lia|]. exists (v_footer v0). split_and!; [|by rewrite S2|by destruct (sv_sequence _ _ _ _ Hsv) as [-> _]].
      rewrite Hmore, Hb, <- app_assoc. by apply footer_slice_app; [apply Hsv|].
    + intros E. rewrite E in Hrz. done.
    + lia.
    + rewrite Hl'. unfold SNAPSHOT_HEADER_LEN, FOOTER_LEN. rewrite Hle in Hcnt. nia.
    + rewrite Hle, Hrl. rewrite (sum_of_Permutation le_logical_len _ _ Hep), sum_of_app, Hsum. by rewrite (sum_of_Permutation _ _ _ Hp).
    + exists v, added. rewrite V1, V3, V4, V5, S1, S2, S3, S4, F5. split_and!; try done. rewrite Hmore. apply stores_all_app; [|done].
      rewrite Hb. apply Hwr0.
Qed.
End RoundTrip.

Section Canonical.
Implicit Types b : bytes.

(** ** A page is determined by its header and its entries *)

Lemma segments_agree b b' start size n : start + N.of_nat n * size <= len b -> start + N.of_nat n * size <= len b' ->
  (forall i, (i < n)%nat -> slice b (start + N.of_nat i * size) (start + N.of_nat i * size + size) =
    slice b' (start + N.of_nat i * size) (start + N.of_nat i * size + size)) ->
  slice b start (start + N.of_nat n * size) = slice b' start (start + N.of_nat n * size).
Proof.
  induction n as [|n IH]; intros Hl Hl' Hs; [unfold slice; by rewrite N.add_0_r, N.sub_diag|].
  rewrite <- (slice_join b start (start + N.of_nat n * size)), <- (slice_join b' start (start + N.of_nat n * size)) by nia.
  replace (start + N.of_nat (S n) * size) with (start + N.of_nat n * size + size) by nia.
  f_equal; [apply IH; [nia|nia|]; intros i Hi; apply Hs; lia|apply Hs; lia].
Qed.

Lemma page_at_inj {A} (parse : bytes -> X A) kind size capacity b b' h (es : list A) :
  (forall x y e, len x = size -> len y = size -> parse x = Ok e -> parse y = Ok e -> x = y) ->
  PAGE_HEADER_LEN + ph_entry_count h * size <= PAGE_SIZE ->
  page_at parse kind size capacity b h es -> page_at parse kind size capacity b' h es -> b = b'.
Proof.
  intros Hinj Hused (Hl & _ & Hat & _ & _ & Hpad & Hn & He) (Hl' & _ & Hat' & _ & _ & Hpad' & _ & He').
  unfold page_header_at in Hat, Hat'. destruct_and!. unfold PAGE_HEADER_LEN in *. rewrite <- Hn in *.
  apply (agree_eq [4; 5; 6; 8; 10; 12; 16; 24; 32; 40; 64; 64 + len es * size; PAGE_SIZE]); [congruence|].
  cbn [agree_from]. split_and!; try lia; try congruence.
  unfold len. apply segments_agree; [unfold len in *; lia..|]. intros i Hi.
  destruct (lookup_lt_is_Some_2 es i Hi) as [e Ei].
  assert (Hb : 64 + N.of_nat i * size + size <= PAGE_SIZE) by (unfold len in *; nia).
  apply (Hinj _ _ e); [rewrite slice_len; lia..|by apply He|by apply He'].
Qed.

Lemma leaf_parse_inj x y e : len x = LEAF_ENTRY_LEN -> len y = LEAF_ENTRY_LEN -> leaf_parse x = Ok e -> leaf_parse y = Ok e -> x = y.
Proof. intros Hx Hy (_ & _ & Hx')%leaf_parse_Ok (_ & _ & Hy')%leaf_parse_Ok. by apply (leaf_at_inj x y e). Qed.

Lemma internal_parse_inj x y e :
  len x = INTERNAL_ENTRY_LEN -> len y = INTERNAL_ENTRY_LEN -> internal_parse x = Ok e -> internal_parse y = Ok e -> x = y.
Proof. intros Hx Hy (_ & _ & Hx')%internal_parse_Ok (_ & _ & Hy')%internal_parse_Ok. by apply (internal_at_inj x y e). Qed.

(** ** The encoder writes back what the parser read *)

Lemma page_entries_ok {A} (parse : bytes -> X A) (ok : A -> Prop) kind size capacity b h es :
  (forall x e, parse x = Ok e -> ok e) -> page_at parse kind size capacity b h es -> Forall ok es.
Proof.
  intros Hok (_ & _ & _ & _ & _ & _ & _ & He). apply Forall_forall. intros e (i & Hi)%list_elem_of_lookup. eapply Hok, He, Hi.
Qed.

Lemma leaf_page_canonical b h es : parse_page b = Ok (PLeaf h es) -> encode_leaf_page es (ph_sequence h) = Ok b.
Proof.
  intros Hp. pose proof Hp as (Hat & Hlev & (Hmin & Hmax & Hord)%leaf_order_Ok)%parse_page_leaf.
  pose proof (page_entries_ok leaf_parse leaf_ok _ _ _ _ _ _ (fun x e Hx => proj1 (proj2 (proj1 (leaf_parse_Ok x e) Hx))) Hat) as Hok.
  pose proof Hat as (_ & (_ & Hc0 & _ & _ & _ & _ & Hsq) & _ & Hk & Hcap & _ & Hn & _).
  assert (Hne : es <> []) by (intros ->; done).
  destruct (encode_leaf_page_parses es (ph_sequence h) Hok Hne ltac:(lia) Hord Hsq) as (page & h' & -> & Hp' & _ & Hl' & Hs' & Hmin' & Hmax').
  f_equal. apply parse_page_leaf in Hp' as (Hat' & _ & _). pose proof Hat' as (_ & _ & _ & Hk' & _ & _ & Hn' & _).
  assert (h' = h) as -> by (destruct h, h'; cbn in *; f_equal; congruence).
  by apply (page_at_inj leaf_parse 1 LEAF_ENTRY_LEN LEAF_CAPACITY page b h es leaf_parse_inj (leaf_used _ Hcap)).
Qed.

(** The child a parsed internal entry points to. *)
Definition child_of (e : InternalEntry) : PageLocator :=
  mkPageLocator (ie_min_key e) (ie_max_key e) (ie_page_offset e) (ie_level e) (ie_page_digest e).

Lemma entries_of_children es : Forall internal_ok es -> entry_of_locator <$> (child_of <$> es) = es.
Proof.
  intros Hok. rewrite <- list_fmap_compose. transitivity (id <$> es); [|apply list_fmap_id].
  apply list_fmap_ext. intros i e Hi. pose proof (proj1 (Forall_forall _ _) Hok e (list_elem_of_lookup_2 _ _ _ Hi)) as (_ & _ & _ & _ & Hl & _).
  destruct e. cbn in *. unfold entry_of_locator. cbn. by rewrite Hl.
Qed.

Lemma internal_page_canonical b h es :
  parse_page b = Ok (PInternal h es) -> encode_internal_page (child_of <$> es) (ph_sequence h) (ph_level h) = Ok b.
Proof.
  intros Hp. pose proof Hp as (Hat & Hlev & (Hmin & Hmax & Hlevels & Hord)%internal_order_Ok)%parse_page_internal.
  pose proof (page_entries_ok internal_parse internal_ok _ _ _ _ _ _ (fun x e Hx => proj1 (proj2 (proj1 (internal_parse_Ok x e) Hx))) Hat) as Hok.
  pose proof Hat as (_ & (Hl256 & Hc0 & _ & _ & _ & _ & Hsq) & _ & Hk & Hcap & _ & Hn & _).
  assert (Hne : es <> []) by (intros ->; done).
  assert (Hlv : Forall (fun e => ie_level e = ph_level h - 1) es) by (eapply Forall_impl; [exact Hlevels|]; cbv beta; intros; lia).
  destruct (encode_internal_page_parses (child_of <$> es) (ph_sequence h) (ph_level h - 1)) as (page & h' & He & Hp' & _ & Hl' & Hs' & Hmin' & Hmax').
  - apply Forall_fmap. eapply Forall_impl; [exact Hok|]. intros e (? & ? & ? & ? & _ & _ & ?). by split_and!.
  - by destruct es.
  - unfold len. rewrite length_fmap. fold (len es). lia.
  - lia.
  - by apply Forall_fmap.
  - clear -Hord. induction Hord as [|e es Hs IH Hh]; [constructor|]. rewrite fmap_cons. constructor; [done|]. destruct Hh; constructor; done.
  - done.
  - replace (ph_level h - 1 + 1) with (ph_level h) in * by lia. rewrite He. f_equal. rewrite entries_of_children in Hp' by done.
    apply parse_page_internal in Hp' as (Hat' & _ & _). pose proof Hat' as (_ & _ & _ & Hk' & _ & _ & Hn' & _).
    assert (Hmin2 : pl_min_key <$> head (child_of <$> es) = ie_min_key <$> head es) by (by destruct es).
    assert (Hmax2 : pl_max_key <$> last (child_of <$> es) = ie_max_key <$> last es) by (rewrite fmap_last; by destruct (last es)).
    assert (h' = h) as -> by (destruct h, h'; cbn in *; f_equal; congruence).
    by apply (page_at_inj internal_parse 2 INTERNAL_ENTRY_LEN INTERNAL_CAPACITY page b h es internal_parse_inj (internal_used _ Hcap)).
Qed.

Lemma footer_canonical b f : footer_parse b = Ok f -> footer_encode f = b.
Proof.
  intros (Hl & Hok & Hat)%footer_parse_Ok. destruct (footer_encode_at f) as (Hl' & Hat' & _); [apply Hok..|]. by apply (footer_at_inj _ _ f).
Qed.
End Canonical.
