(* ===== verification/Exp0002Theorems.v ===== *)
(** The EXP-0002 byte format: what its parsers, its strict validation and its
    builders guarantee together. *)

From Stdlib Require Import Strings.Byte Strings.String NArith ZArith Lia.
From stdpp Require Import base list gmap strings sorting.
From S2P Require Import Prelude Order Digest Exp0002 Exp0002File Exp0002Pages Exp0002Strict Exp0002Levels Exp0002RoundTrip.

Local Open Scope N_scope.

(** ** Pages *)

(** The pages there are: entries of the right widths, in order, as many as the
    page holds, under a header that describes them. *)
Definition page_typed (p : ParsedPage) : Prop :=
  match p with
  | PLeaf h es => ph_kind h = 1 /\ ph_level h = 0 /\ ph_entry_count h = len es /\ es <> [] /\ len es <= LEAF_CAPACITY /\
      ph_sequence h <= U64_MAX /\ Forall leaf_ok es /\ leaf_ordered es /\
      le_object_id <$> head es = Some (ph_min_key h) /\ le_object_id <$> last es = Some (ph_max_key h)
  | PInternal h es => ph_kind h = 2 /\ 0 < ph_level h < 256 /\ ph_entry_count h = len es /\ es <> [] /\ len es <= INTERNAL_CAPACITY /\
      ph_sequence h <= U64_MAX /\ Forall internal_ok es /\ ranges_ordered es /\ Forall (fun e => ph_level h = ie_level e + 1) es /\
      ie_min_key <$> head es = Some (ph_min_key h) /\ ie_max_key <$> last es = Some (ph_max_key h)
  end.

(** The encoder of a parsed page. *)
Definition page_encode (p : ParsedPage) : X bytes :=
  match p with
  | PLeaf h es => encode_leaf_page es (ph_sequence h)
  | PInternal h es => encode_internal_page (child_of <$> es) (ph_sequence h) (ph_level h)
  end.

Lemma parse_page_is_typed b p : parse_page b = Ok p -> page_typed p.
Proof.
  destruct p as [h es|h es]; intros Hp.
  - apply parse_page_leaf in Hp as (Hat & Hlev & (Hmin & Hmax & Hord)%leaf_order_Ok).
    pose proof (page_entries_ok leaf_parse leaf_ok _ _ _ _ _ _ (fun x e Hx => proj1 (proj2 (proj1 (leaf_parse_Ok x e) Hx))) Hat) as Hok.
    destruct Hat as (_ & (_ & Hc0 & _ & _ & _ & _ & Hsq) & _ & Hk & Hcap & _ & Hn & _). cbn. rewrite Hn. split_and!; try done. intros ->. done.
  - apply parse_page_internal in Hp as (Hat & Hlev & (Hmin & Hmax & Hlevels & Hord)%internal_order_Ok).
    pose proof (page_entries_ok internal_parse internal_ok _ _ _ _ _ _ (fun x e Hx => proj1 (proj2 (proj1 (internal_parse_Ok x e) Hx))) Hat) as Hok.
    destruct Hat as (_ & (Hl256 & Hc0 & _ & _ & _ & _ & Hsq) & _ & Hk & Hcap & _ & Hn & _). cbn. rewrite Hn. split_and!; try done; try lia.
    + intros ->. done.
    + eapply Forall_impl; [exact Hlevels|]. by intros e [].
Qed.

Lemma typed_page_parses p b : page_typed p -> page_encode p = Ok b -> parse_page b = Ok p.
Proof.
  destruct p as [h es|h es]; cbn [page_typed page_encode].
  - intros (Hk & Hlev & Hn & Hne & Hcap & Hsq & Hok & Hord & Hmin & Hmax) He.
    destruct (encode_leaf_page_parses es (ph_sequence h) Hok Hne Hcap Hord Hsq) as (page & h' & He' & Hp & _ & Hl' & Hs' & Hmin' & Hmax').
    rewrite He in He'. injection He' as <-. rewrite Hp. pose proof (parse_page_is_typed _ _ Hp) as (Hk' & _ & Hn' & _).
    repeat f_equal. destruct h, h'. cbn in *. f_equal; congruence.
  - intros (Hk & [Hlev0 Hlev] & Hn & Hne & Hcap & Hsq & Hok & Hord & Hlevels & Hmin & Hmax) He.
    destruct (encode_internal_page_parses (child_of <$> es) (ph_sequence h) (ph_level h - 1)) as (page & h' & He' & Hp & _ & Hl' & Hs' & Hmin' & Hmax').
    + apply Forall_fmap. eapply Forall_impl; [exact Hok|]. intros e (? & ? & ? & ? & _ & _ & ?). by split_and!.
    + by destruct es.
    + unfold len. by rewrite length_fmap.
    + lia.
    + apply Forall_fmap. eapply Forall_impl; [exact Hlevels|]. cbn. intros; lia.
    + clear -Hord. induction Hord as [|e es Hs IH Hh]; [constructor|]. rewrite fmap_cons. constructor; [done|]. destruct Hh; constructor; done.
    + done.
    + replace (ph_level h - 1 + 1) with (ph_level h) in * by lia. rewrite He in He'. injection He' as <-. rewrite entries_of_children in Hp by done.
      rewrite Hp. pose proof (parse_page_is_typed _ _ Hp) as (Hk' & _ & Hn' & _).
      assert (Hmin2 : pl_min_key <$> head (child_of <$> es) = ie_min_key <$> head es) by (by destruct es).
      assert (Hmax2 : pl_max_key <$> last (child_of <$> es) = ie_max_key <$> last es) by (rewrite fmap_last; by destruct (last es)).
      repeat f_equal. destruct h, h'. cbn in *. f_equal; congruence.
Qed.

(** The page parser is exact: [parse_page] accepts a buffer, as a page
    [p], when and only when [p] is a well-typed page (every field in its width,
    between one entry and the capacity of the page, entries in order, the
    header's kind, level, count and key range those of the entries) and the
    buffer is byte for byte what the encoder writes for [p]. So parsed pages are
    well-typed, no byte of a page is ignored, and every well-typed page that
    the encoder writes is read back. *)
Theorem parse_page_exact b p : parse_page b = Ok p <-> page_typed p /\ page_encode p = Ok b.
Proof.
  split.
  - intros Hp. split; [by eapply parse_page_is_typed|]. destruct p; [by apply leaf_page_canonical|by apply internal_page_canonical].
  - intros [Ht He]. by apply typed_page_parses.
Qed.

Section Exact.
Context `{H : Sha256}.

(** C22. Strict validation is exact: [validate_strict] succeeds on a file, and
    reports [v], when and only when the file is a valid EXP-0002 file with that
    report ([strict_valid]: a file header, a footer at the end whose snapshot,
    commit and parent link are in place with their digests, an authenticated
    tree of pages no two of which coincide that spells out the objects, every
    record in place with its header and digest and apart from the pages, the
    snapshot and the footer, the roots among the objects) and each quantity is
    within its limit ([strict_admitted]). So no malformed file passes, and on a
    valid file within the limits nothing stops it, the walk over the pages
    included. *)
Theorem validate_strict_exact b limits v :
  validate_strict b limits = Ok v <-> exists offs, strict_valid b limits offs v /\ strict_admitted b limits offs v.
Proof. apply validate_strict_Ok. Qed.
End Exact.

(** ** Built files *)

Section Built.
Context `{H : Sha256, !Sha256Ok H}.

(** C25. What [build_genesis] does, for objects whose fields are in their
    widths and whose file stays below [2^64] bytes: it always returns, with a
    file of a bounded size that [validate_strict], under any limits with room
    for it, reports as the first commit of exactly the objects given, in the order of their
    identifiers, each payload where its entry says, with exactly the objects
    marked as roots; or with the error for an empty set, for a set without
    roots, for an identifier that is zero or repeated among the roots, or for a
    record that cannot be written (a zero kind, a zero or repeated
    identifier). *)
Theorem genesis_round_trip header objects :
  file_header_ok header -> Forall object_ok objects -> len objects <= U32_MAX -> genesis_room objects <= U64_MAX ->
  match build_genesis header objects with
  | Ok b => genesis_reads_back header objects b
  | Err EmptyObjectSet => objects = []
  | Err NoRootObjects => root_ids objects = []
  | Err InvalidRoot => 0 ∈ root_ids objects \/ ~ NoDup (root_ids objects)
  | Err e => exists os, os ≡ₚ objects /\ record_error os e
  end.
Proof. by apply build_genesis_cases. Qed.

(** C36. What [build_append] does on a file [validate_strict] accepts: it
    always returns, with a file that starts with all the bytes of the previous
    one and that [validate_strict], under any limits with room for it, reports
    as the next commit: linked to the previous footer and snapshot, holding the
    previous objects and the new ones with their payloads and exactly the roots
    given; or with the error for no roots, for a root that is zero, repeated or
    not an object of the file, for an identifier that is taken, for the last
    sequence number there is, or for a record that cannot be written. *)
Theorem append_round_trip prev new_objects roots limits0 v0 :
  validate_strict prev limits0 = Ok v0 -> Forall object_ok new_objects -> Forall (fun r => r <= U64_MAX) roots ->
  len (v_objects v0) + len new_objects <= U32_MAX -> len roots <= U32_MAX -> append_room prev v0 new_objects roots <= U64_MAX ->
  match build_append prev new_objects roots limits0 with
  | Ok b => append_reads_back prev v0 new_objects roots b
  | Err NoRootObjects => roots = []
  | Err InvalidRoot => 0 ∈ roots \/ ~ NoDup roots \/
      exists r, r ∈ roots /\ r ∉ (le_object_id <$> v_objects v0) ++ (oi_object_id <$> new_objects)
  | Err (DuplicateObjectId _) => ~ NoDup ((le_object_id <$> v_objects v0) ++ (oi_object_id <$> new_objects))
  | Err ArithmeticOverflow => sn_sequence (v_snapshot v0) = U64_MAX
  | Err e => exists os, os ≡ₚ new_objects /\ record_error os e
  end.
Proof. by apply build_append_cases. Qed.
End Built.

(** ** A file built and extended *)

Definition example_header : FileHeader := mkFileHeader (as_bytes "exp0002-file-id!") (as_bytes "fixed-nonce-0002").
Definition example_objects : list ObjectInput :=
  [mkObjectInput 7 2 (as_bytes "beta") false; mkObjectInput 3 1 (as_bytes "alpha") true].
Definition example_added : list ObjectInput := [mkObjectInput 5 1 (as_bytes "gamma") true].

(** The default limits have room for any file of up to 4 GiB with 30,000
    objects and 65,536 roots. *)
Lemma default_roomy size n r payload : size <= 4294967296 -> n <= 30000 -> r <= 65536 -> payload <= 4294967296 ->
  roomy default_validation_limits size n r payload.
Proof.
  intros Hs Hn Hr Hp. assert (Hlog : N.log2_up n <= 15) by (etransitivity; [by apply N.log2_up_le_mono|done]).
  split; unfold SNAPSHOT_HEADER_LEN, OBJECT_HEADER_LEN, U64_MAX; cbn [default_validation_limits max_file_bytes max_commit_bytes
    max_snapshot_bytes max_roots max_pages max_objects max_page_depth max_payload_bytes max_hashed_bytes]; lia.
Qed.

(** The file of two objects is built, and is valid. *)
Lemma genesis_round_trip_witness : exists b v,
  build_genesis (H := cheap_sha) example_header example_objects = Ok b /\
  validate_strict (H := cheap_sha) b default_validation_limits = Ok v /\
  sn_roots (v_snapshot v) ≡ₚ [3] /\ Forall2 (stores b) (sorted_objects example_objects) (v_objects v).
Proof.
  pose proof cheap_sha_ok as HS.
  assert (Hg : match build_genesis (H := cheap_sha) example_header example_objects with
    | Ok b => genesis_reads_back (H := cheap_sha) example_header example_objects b /\ len b <= 4294967296 | Err _ => False end).
  { pose proof (genesis_round_trip (H := cheap_sha) example_header example_objects ltac:(by vm_compute)
      ltac:(repeat constructor; apply N.leb_le; vm_compute; reflexivity) ltac:(apply N.leb_le; vm_compute; reflexivity)
      ltac:(apply N.leb_le; vm_compute; reflexivity)) as Hg.
    assert (Hlen : match build_genesis (H := cheap_sha) example_header example_objects with Ok b => len b <=? 4294967296 | Err _ => false end = true)
      by (vm_compute; reflexivity).
    destruct (build_genesis example_header example_objects) as [b|e]; [|discriminate Hlen]. split; [exact Hg|by apply N.leb_le]. }
  destruct (build_genesis (H := cheap_sha) example_header example_objects) as [b|e] eqn:Eb; [|destruct Hg]. destruct Hg as [Hg Hl].
  destruct (proj2 Hg default_validation_limits) as (v & Hv & _ & _ & _ & Hroots & Hst & _).
  { apply default_roomy; [exact Hl|apply N.leb_le; vm_compute; reflexivity..]. }
  exists b, v. split_and!; [reflexivity|exact Hv| |exact Hst]. rewrite Hroots. by vm_compute.
Defined.

Definition example_file : bytes :=
  match build_genesis (H := cheap_sha) example_header example_objects with Ok b => b | Err _ => [] end.

(** It is extended with a third object, which becomes the only root. *)
Lemma append_round_trip_witness : exists v0 b,
  validate_strict (H := cheap_sha) example_file default_validation_limits = Ok v0 /\ len (v_objects v0) = 2 /\
  build_append (H := cheap_sha) example_file example_added [5] default_validation_limits = Ok b /\
  append_reads_back (H := cheap_sha) example_file v0 example_added [5] b.
Proof.
  pose proof cheap_sha_ok as HS.
  assert (Hv0 : match validate_strict (H := cheap_sha) example_file default_validation_limits with
    | Ok v0 => (len (v_objects v0) =? 2) && (append_room example_file v0 example_added [5] <=? U64_MAX) | Err _ => false end = true)
    by (vm_compute; reflexivity).
  assert (Hok : match build_append (H := cheap_sha) example_file example_added [5] default_validation_limits with Ok _ => true | Err _ => false end = true)
    by (vm_compute; reflexivity).
  destruct (validate_strict (H := cheap_sha) example_file default_validation_limits) as [v0|e] eqn:Ev; [|discriminate Hv0].
  apply andb_true_iff in Hv0 as [Hn%N.eqb_eq Hroom%N.leb_le].
  pose proof (append_round_trip (H := cheap_sha) example_file example_added [5] default_validation_limits v0 Ev
    ltac:(repeat constructor; apply N.leb_le; vm_compute; reflexivity) ltac:(repeat constructor; apply N.leb_le; vm_compute; reflexivity)
    ltac:(rewrite Hn; apply N.leb_le; vm_compute; reflexivity) ltac:(apply N.leb_le; vm_compute; reflexivity) Hroom) as Ha.
  destruct (build_append (H := cheap_sha) example_file example_added [5] default_validation_limits) as [b|e] eqn:Eb; [|discriminate Hok].
  exists v0, b. split_and!; [reflexivity|exact Hn|reflexivity|exact Ha].
Defined.
