(* ===== verification/Exp0002Lookup.v ===== *)
(** Authenticated lookup of one object in an EXP-0002 file
    ([exp0002_lookup.rs]): the active commit, one path of the directory and the
    object's record are checked, nothing else is read. The module's private
    copies of the reading helpers are those of [Exp0002]. On a file that
    [validate_strict] accepts, [lookup_authenticated] finds exactly the objects
    of the directory. *)

From Stdlib Require Import Strings.Byte Strings.String NArith ZArith Lia.
From stdpp Require Import base list gmap strings sorting.
From S2P Require Import Prelude Order Digest Exp0002 Exp0002File Exp0002Pages Exp0002Strict Exp0002RoundTrip.

Local Open Scope N_scope.

Record AuthenticatedLookupLimits : Type := mkLookupLimits {
  ll_validation : ValidationLimits;
  ll_max_page_reads : N;
}.

Definition default_lookup_limits : AuthenticatedLookupLimits := mkLookupLimits default_validation_limits 32.

Record AuthenticatedObjectLookup : Type := mkLookup {
  al_object_id : N;
  al_kind : N;
  al_record_offset : N;
  al_record_len : N;
  al_payload_offset : N;
  al_payload_len : N;
  al_logical_len : N;
  al_sequence : N;
  al_pages_read : N;
  al_bytes_hashed : N;
}.

Record ExpectedPage : Type := mkExpectedPage {
  xp_offset : N;
  xp_digest : bytes;
  xp_level : N;
  xp_minimum : option N;
  xp_maximum : option N;
}.

Record SelectedLeaf : Type := mkSelectedLeaf {
  sl_object_id : N;
  sl_kind : N;
  sl_record_offset : N;
  sl_record_len : N;
  sl_logical_len : N;
  sl_digest : bytes;
}.

Record LookupPageHeader : Type := mkLookupPageHeader {
  lh_kind : N;
  lh_level : N;
  lh_count : N;
  lh_entry_size : N;
  lh_minimum : N;
  lh_maximum : N;
}.

(** [previous.is_some_and(|value| test(value))] *)
Definition is_some_and (previous : option N) (test : N -> bool) : bool :=
  match previous with Some value => test value | None => false end.

(** ** Pages *)

Definition parse_page_header (page : bytes) (sequence : N) : X LookupPageHeader :=
  check (len page =? PAGE_SIZE) && bool_decide (slice page 0 4 = PAGE_MAGIC) else InvalidMagic "page" in
  let kind := le_decode (slice page 4 5) in
  let level := le_decode (slice page 5 6) in
  let* header_len := read_u16 page 6 in
  check header_len =? PAGE_HEADER_LEN else InvalidLength "page header" in
  let* count := read_u16 page 8 in
  check negb (count =? 0) else InvalidEntryCount in
  let* entry_size := read_u16 page 10 in
  let* flags := read_u32 page 12 in
  check flags =? 0 else InvalidFlags "page" in
  let* page_sequence := read_u64 page 32 in
  check page_sequence =? sequence else InvalidFlags "page" in
  let* minimum := read_u64 page 16 in
  let* maximum := read_u64 page 24 in
  check negb ((minimum =? 0) || (maximum <? minimum)) else InvalidPageRange in
  let* _ := require_zero (slice page 40 64) "page header" in
  Ok (mkLookupPageHeader kind level count entry_size minimum maximum).

(** [for index in index..index + n], with [previous] and [selected]. *)
Fixpoint scan_leaf (page : bytes) (object_id : N) (n : nat) (index : N) (previous : option N) (selected : option SelectedLeaf)
    : X (option SelectedLeaf) :=
  match n with
  | O => Ok selected
  | S n =>
      let start := PAGE_HEADER_LEN + index * LEAF_ENTRY_LEN in
      let entry := slice page start (start + LEAF_ENTRY_LEN) in
      let* key := read_u64 entry 0 in
      check negb ((key =? 0) || is_some_and previous (fun value => key <=? value)) else UnorderedEntries in
      let* kind := read_u16 entry 8 in
      check negb (kind =? 0) else InvalidFlags "leaf entry" in
      let* flags := read_u16 entry 10 in
      check flags =? 0 else InvalidFlags "leaf entry" in
      let* reserved := read_u32 entry 12 in
      check reserved =? 0 else InvalidFlags "leaf entry" in
      let* _ := require_zero (slice entry 72 88) "leaf entry" in
      let* selected :=
        if key =? object_id then
          let* record_offset := read_u64 entry 16 in
          let* record_len := read_u64 entry 24 in
          let* logical_len := read_u64 entry 32 in
          let* digest := read_array 32 entry 40 in
          Ok (Some (mkSelectedLeaf key kind record_offset record_len logical_len digest))
        else Ok selected in
      scan_leaf page object_id n (index + 1) (Some key) selected
  end.

(** The entries of a page are counted in 16 bits: the sizes do not overflow. *)
Definition select_leaf (page : bytes) (header : LookupPageHeader) (object_id : N) : X (option SelectedLeaf) :=
  check (lh_level header =? 0) && (lh_entry_size header =? LEAF_ENTRY_LEN) && negb (LEAF_CAPACITY <? lh_count header)
    else InvalidEntrySize in
  let* used := ok_or (checked_mul (lh_count header) LEAF_ENTRY_LEN) ArithmeticOverflow in
  let* used := ok_or (checked_add PAGE_HEADER_LEN used) ArithmeticOverflow in
  let* _ := require_zero (slice page used (len page)) "page padding" in
  let* selected := scan_leaf page object_id (N.to_nat (lh_count header)) 0 None None in
  let* first := read_u64 (slice page PAGE_HEADER_LEN (len page)) 0 in
  check first =? lh_minimum header else InvalidPageRange in
  let last := PAGE_HEADER_LEN + (lh_count header - 1) * LEAF_ENTRY_LEN in
  let* last := read_u64 page last in
  check last =? lh_maximum header else InvalidPageRange in
  Ok selected.

(** What the loop over the children carries. *)
Record ChildScan : Type := mkChildScan {
  cs_previous_max : option N;
  cs_selected : option ExpectedPage;
  cs_first_min : option N;
  cs_last_max : option N;
}.

Fixpoint scan_internal (page : bytes) (header : LookupPageHeader) (object_id : N) (n : nat) (index : N) (s : ChildScan) : X ChildScan :=
  match n with
  | O => Ok s
  | S n =>
      let start := PAGE_HEADER_LEN + index * INTERNAL_ENTRY_LEN in
      let entry := slice page start (start + INTERNAL_ENTRY_LEN) in
      let* minimum := read_u64 entry 0 in
      let* maximum := read_u64 entry 8 in
      check negb ((minimum =? 0) || (maximum <? minimum) || is_some_and (cs_previous_max s) (fun value => minimum <=? value))
        else OverlappingRanges in
      let* page_len := read_u32 entry 24 in
      check page_len =? PAGE_SIZE else InvalidPageReference in
      let* level := read_u16 entry 28 in
      check bool_decide (checked_add_u16 level 1 = Some (lh_level header)) else InvalidPageReference in
      let* flags := read_u16 entry 30 in
      check flags =? 0 else InvalidPageReference in
      let first_min := match cs_first_min s with Some first => Some first | None => Some minimum end in
      let* selected :=
        if (minimum <=? object_id) && (object_id <=? maximum) then
          let* offset := read_u64 entry 16 in
          let* digest := read_array 32 entry 32 in
          Ok (Some (mkExpectedPage offset digest level (Some minimum) (Some maximum)))
        else Ok (cs_selected s) in
      scan_internal page header object_id n (index + 1) (mkChildScan (Some maximum) selected first_min (Some maximum))
  end.

Definition select_internal (page : bytes) (header : LookupPageHeader) (object_id : N) : X (option ExpectedPage) :=
  check negb (lh_level header =? 0) && (lh_entry_size header =? INTERNAL_ENTRY_LEN) && negb (INTERNAL_CAPACITY <? lh_count header)
    else InvalidEntrySize in
  let* used := ok_or (checked_mul (lh_count header) INTERNAL_ENTRY_LEN) ArithmeticOverflow in
  let* used := ok_or (checked_add PAGE_HEADER_LEN used) ArithmeticOverflow in
  let* _ := require_zero (slice page used (len page)) "page padding" in
  let* s := scan_internal page header object_id (N.to_nat (lh_count header)) 0 (mkChildScan None None None None) in
  check bool_decide (cs_first_min s = Some (lh_minimum header)) && bool_decide (cs_last_max s = Some (lh_maximum header))
    else InvalidPageRange in
  Ok (cs_selected s).

Section Lookup.
Context `{Sha256}.

(** ** The selected record and the commit *)

Definition validate_selected_object (record : bytes) (selected : SelectedLeaf) (limits : ValidationLimits) : X unit :=
  check negb (len record <? OBJECT_HEADER_LEN) && bool_decide (slice record 0 4 = OBJECT_MAGIC) else InvalidMagic "object" in
  let* header_len := read_u16 record 4 in
  check header_len =? OBJECT_HEADER_LEN else InvalidLength "object header" in
  let* kind := read_u16 record 6 in
  check kind =? sl_kind selected else InvalidLength "object header" in
  let* flags := read_u32 record 8 in
  check flags =? 0 else InvalidLength "object header" in
  let* object_id := read_u64 record 12 in
  check object_id =? sl_object_id selected else InvalidLength "object header" in
  let* payload_len := read_u64 record 20 in
  let* logical_len := read_u64 record 28 in
  check (payload_len =? logical_len) && (logical_len =? sl_logical_len selected) && negb (max_payload_bytes limits <? payload_len)
    else LogicalLengthMismatch in
  let* expected_len := ok_or (checked_add OBJECT_HEADER_LEN payload_len) ArithmeticOverflow in
  check expected_len =? sl_record_len selected else LogicalLengthMismatch in
  let* _ := require_zero (slice record 36 48) "object" in
  check bool_decide (digest_bytes OBJECT_DOMAIN record = sl_digest selected) else DigestMismatch "object" in
  Ok tt.

Definition validate_footer_structure (footer : bytes) : X unit :=
  check (len footer =? FOOTER_LEN) && bool_decide (slice footer 0 8 = FOOTER_MAGIC) else InvalidMagic "footer" in
  let* footer_len := read_u16 footer 8 in
  check footer_len =? FOOTER_LEN else InvalidVersion in
  let* version := read_u16 footer 10 in
  check version =? 2 else InvalidVersion in
  let* flags := read_u32 footer 12 in
  check flags =? 0 else InvalidFlags "footer" in
  let* digest := read_u16 footer 72 in
  check digest =? 1 else InvalidFlags "footer" in
  let* _ := require_zero (slice footer 74 80) "footer" in
  require_zero (slice footer 144 160) "footer".

Definition lookup_parent_link (b : bytes) (footer_offset commit_start sequence previous_footer_offset : N)
    (parent_snapshot_digest : bytes) : X unit :=
  if previous_footer_offset =? ABSENT_OFFSET then
    check (sequence =? 0) && (commit_start =? 0) && bool_decide (parent_snapshot_digest = zeros 32) else InvalidParent in
    Ok tt
  else
    let* footer_end := to_u64 footer_offset in
    check previous_footer_offset <? footer_end else InvalidPreviousFooter in
    let* previous_end := ok_or (checked_add previous_footer_offset FOOTER_LEN) ArithmeticOverflow in
    check commit_start =? previous_end else InvalidPreviousFooter in
    let* (start, end_) := checked_range previous_footer_offset FOOTER_LEN (len b) in
    let previous := slice b start end_ in
    let* _ := validate_footer_structure previous in
    let* previous_sequence := read_u64 previous 48 in
    let* next_sequence := ok_or (checked_add previous_sequence 1) ArithmeticOverflow in
    check next_sequence =? sequence else InvalidParent in
    let* digest := read_array 32 previous 80 in
    check bool_decide (digest = parent_snapshot_digest) else InvalidParent in
    Ok tt.

Definition check_hashed (bytes_hashed : N) (limits : AuthenticatedLookupLimits) : X unit :=
  check negb (max_hashed_bytes (ll_validation limits) <? bytes_hashed) else ResourceLimit "hashed bytes" in Ok tt.

(** [bytes_hashed.checked_add(amount)] and [check_hashed]. *)
Definition hash_more (bytes_hashed amount : N) (limits : AuthenticatedLookupLimits) : X N :=
  let* bytes_hashed := ok_or (checked_add bytes_hashed amount) ArithmeticOverflow in
  let* _ := check_hashed bytes_hashed limits in
  Ok bytes_hashed.

(** ** The walk from the root to a leaf *)

(** The record of the entry a leaf holds. *)
Definition read_selected (b : bytes) (limits : AuthenticatedLookupLimits) (sequence footer_offset : N) (snapshot_range : N * N)
    (page_ranges : list (N * N)) (pages_read bytes_hashed : N) (selected : SelectedLeaf) : X AuthenticatedObjectLookup :=
  let* (start, end_) := checked_range (sl_record_offset selected) (sl_record_len selected) (len b) in
  check negb (overlaps_any (start, end_) page_ranges || ranges_overlap (start, end_) snapshot_range
              || ranges_overlap (start, end_) (footer_offset, len b)) else PhysicalOverlap in
  let record := slice b start end_ in
  let* bytes_hashed := hash_more bytes_hashed (sl_record_len selected) limits in
  let* _ := validate_selected_object record selected (ll_validation limits) in
  let* payload_offset := ok_or (checked_add (sl_record_offset selected) OBJECT_HEADER_LEN) ArithmeticOverflow in
  let* payload_len := ok_or (checked_sub (sl_record_len selected) OBJECT_HEADER_LEN) (InvalidLength "object record") in
  Ok (mkLookup (sl_object_id selected) (sl_kind selected) (sl_record_offset selected) (sl_record_len selected)
        payload_offset payload_len (sl_logical_len selected) sequence pages_read bytes_hashed).

(** One page: its bytes, its header, and the ranges and hashed bytes after it. *)
Definition lookup_page (b : bytes) (limits : AuthenticatedLookupLimits) (sequence : N) (expected : ExpectedPage)
    (page_ranges : list (N * N)) (pages_read bytes_hashed : N) : X (bytes * LookupPageHeader * list (N * N) * N) :=
  check negb ((ll_max_page_reads limits <? pages_read) || (max_page_depth (ll_validation limits) <? pages_read)
              || (max_pages (ll_validation limits) <? pages_read)) else ResourceLimit "lookup pages" in
  let* (start, end_) := checked_range (xp_offset expected) PAGE_SIZE (len b) in
  let page_ranges := page_ranges ++ [(start, end_)] in
  let page := slice b start end_ in
  let* bytes_hashed := hash_more bytes_hashed PAGE_SIZE limits in
  check bool_decide (digest_bytes PAGE_DOMAIN page = xp_digest expected) else DigestMismatch "page" in
  let* header := parse_page_header page sequence in
  check negb (negb (lh_level header =? xp_level expected)
              || is_some_and (xp_minimum expected) (fun value => negb (value =? lh_minimum header))
              || is_some_and (xp_maximum expected) (fun value => negb (value =? lh_maximum header))) else InvalidPageReference in
  Ok (page, header, page_ranges, bytes_hashed).

(** The level falls by one from a page to its child, so the level of the root
    bounds the steps. *)
Fixpoint lookup_pages (fuel : nat) (b : bytes) (object_id : N) (limits : AuthenticatedLookupLimits) (sequence footer_offset : N)
    (snapshot_range : N * N) (expected : ExpectedPage) (page_ranges : list (N * N)) (pages_read bytes_hashed : N)
    : X (option AuthenticatedObjectLookup) :=
  match fuel with
  | O => Err PageCycle
  | S fuel =>
      let* pages_read := ok_or (checked_add pages_read 1) ArithmeticOverflow in
      let* (page, header, page_ranges, bytes_hashed) := lookup_page b limits sequence expected page_ranges pages_read bytes_hashed in
      if (object_id <? lh_minimum header) || (lh_maximum header <? object_id) then Ok None
      else if lh_kind header =? 1 then
        let* selected := select_leaf page header object_id in
        match selected with
        | None => Ok None
        | Some selected =>
            let* found := read_selected b limits sequence footer_offset snapshot_range page_ranges pages_read bytes_hashed selected in
            Ok (Some found)
        end
      else if lh_kind header =? 2 then
        let* child := select_internal page header object_id in
        match child with
        | None => Ok None
        | Some child => lookup_pages fuel b object_id limits sequence footer_offset snapshot_range child page_ranges pages_read bytes_hashed
        end
      else Err InvalidPageKind
  end.

Definition lookup_authenticated (b : bytes) (object_id : N) (limits : AuthenticatedLookupLimits) : X (option AuthenticatedObjectLookup) :=
  check negb (object_id =? 0) else InvalidObjectId in
  let* file_len := to_u64 (len b) in
  check negb (max_file_bytes (ll_validation limits) <? file_len) else ResourceLimit "file bytes" in
  check negb (len b <? 64 + FOOTER_LEN) else Truncated in
  let* _ := file_header_parse b in
  let* footer_offset := ok_or (checked_sub (len b) FOOTER_LEN) Truncated in
  let footer := slice b footer_offset (len b) in
  let* _ := validate_footer_structure footer in
  let* commit_start := read_u64 footer 16 in
  let* commit_len := read_u64 footer 24 in
  let* snapshot_offset := read_u64 footer 32 in
  let* snapshot_len := read_u64 footer 40 in
  let* sequence := read_u64 footer 48 in
  let* previous_footer_offset := read_u64 footer 56 in
  let* snapshot_digest := read_array 32 footer 80 in
  let* commit_digest := read_array 32 footer 112 in
  let* commit_end := ok_or (checked_add commit_start commit_len) ArithmeticOverflow in
  let* footer_start := to_u64 footer_offset in
  check commit_end =? footer_start else InvalidCommitRange in
  check negb (max_commit_bytes (ll_validation limits) <? commit_len) else ResourceLimit "commit bytes" in
  let* _ := check_hashed commit_len limits in
  let* (start, end_) := checked_range commit_start commit_len (len b) in
  let commit_hasher := hasher_update (hasher_update (hasher_update hasher_new COMMIT_DOMAIN) (slice b start end_)) (slice footer 8 112) in
  check bool_decide (hasher_finalize commit_hasher = commit_digest) else DigestMismatch "commit" in
  let* (sn_start, sn_end) := checked_range snapshot_offset snapshot_len (len b) in
  check negb ((snapshot_offset <? commit_start) || (footer_offset <? sn_end)) else InvalidCommitRange in
  let snapshot_bytes := slice b sn_start sn_end in
  check bool_decide (digest_bytes SNAPSHOT_DOMAIN snapshot_bytes = snapshot_digest) else DigestMismatch "snapshot" in
  let* bytes_hashed := hash_more commit_len snapshot_len limits in
  let* snapshot := snapshot_parse snapshot_bytes (ll_validation limits) in
  check (sn_sequence snapshot =? sequence) && (sn_previous_footer_offset snapshot =? previous_footer_offset)
    else InvalidSnapshotSequence in
  let* _ := lookup_parent_link b footer_offset commit_start sequence previous_footer_offset (sn_parent_snapshot_digest snapshot) in
  let root := mkExpectedPage (sn_directory_root_offset snapshot) (sn_directory_root_digest snapshot)
                (sn_directory_root_level snapshot) None None in
  lookup_pages (S (N.to_nat (xp_level root))) b object_id limits sequence footer_offset (sn_start, sn_end) root [] 0 bytes_hashed.
End Lookup.

(** ** What the page readers find on a page [parse_page] accepts *)

Definition entry_size_of (p : ParsedPage) : N :=
  match p with PLeaf _ _ => LEAF_ENTRY_LEN | PInternal _ _ => INTERNAL_ENTRY_LEN end.

Definition lookup_header (p : ParsedPage) : LookupPageHeader :=
  let h := page_header p in
  mkLookupPageHeader (ph_kind h) (ph_level h) (ph_entry_count h) (entry_size_of p) (ph_min_key h) (ph_max_key h).

Lemma read_page_header page p :
  parse_page page = Ok p -> parse_page_header page (ph_sequence (page_header p)) = Ok (lookup_header p).
Proof.
  intros Hp. assert (Hat : len page = PAGE_SIZE /\ page_header_ok (page_header p) /\ page_header_at page (page_header p) (entry_size_of p) /\
    ph_kind (page_header p) < 256).
  { destruct p as [h es|h es]; [apply parse_page_leaf in Hp as ((? & ? & ? & Hk & _) & _)|apply parse_page_internal in Hp as ((? & ? & ? & Hk & _) & _)];
      cbn [page_header]; rewrite Hk; done. }
  unfold lookup_header. destruct Hat as (Hl & Hok & Hat & Hk). revert Hok Hat Hk. generalize (page_header p). intros h (Hlev & Hc0 & Hc & Hm0 & Hmm & Hmx & Hsq) Hat Hk.
  assert (Hes : entry_size_of p <= U16_MAX) by (destruct p; cbn; unfold U16_MAX, LEAF_ENTRY_LEN, INTERNAL_ENTRY_LEN; lia).
  revert Hes Hat. generalize (entry_size_of p). intros size Hes (H0 & H1 & H2 & H3 & H4 & H5 & H6 & H7 & H8 & H9 & H10).
  unfold parse_page_header. rewrite Hl, N.eqb_refl, (bool_decide_eq_true_2 _ H0). cbn [andb].
  unfold PAGE_SIZE in Hl. assert (ph_min_key h <= U64_MAX) by lia. read_back. rewrite N.eqb_refl.
  rewrite (proj2 (N.eqb_neq (ph_entry_count h) 0)), (proj2 (N.eqb_neq (ph_min_key h) 0)), (proj2 (N.ltb_ge _ _)) by done. cbn [negb orb andb].
  rewrite !N.eqb_refl. cbn [andb negb]. rewrite H1, H2, !le_decode_byte by done. done.
Qed.

(** The entry of an identifier, as the scan of a leaf keeps it. *)
Definition selected_of (e : LeafEntry) : SelectedLeaf :=
  mkSelectedLeaf (le_object_id e) (le_kind e) (le_record_offset e) (le_record_len e) (le_logical_len e) (le_record_digest e).

Definition last_match {A B} (matches : A -> bool) (f : A -> B) (selected : option B) (l : list A) : option B :=
  foldl (fun selected x => if matches x then Some (f x) else selected) selected l.

Lemma last_match_cases {A B} (matches : A -> bool) (f : A -> B) l selected :
  (exists x, x ∈ l /\ matches x = true /\ last_match matches f selected l = Some (f x)) \/
  (forall x, x ∈ l -> matches x = false) /\ last_match matches f selected l = selected.
Proof.
  unfold last_match. revert selected. induction l as [|x l IH]; intros selected; [right; split; [|done]; intros x Hx; by apply elem_of_nil in Hx|].
  cbn [foldl]. destruct (IH (if matches x then Some (f x) else selected)) as [(y & Hy & Hm & ->)|[Hn ->]]; [left; exists y; split; [by right|done]|].
  destruct (matches x) eqn:E; [left; exists x; split; [by left|done]|]. right. split; [|done]. intros y [->|Hy]%elem_of_cons; [done|by apply Hn].
Qed.

Lemma scan_leaf_ok page object_id es index previous selected :
  (forall i e, es !! i = Some e ->
    leaf_parse (slice page (PAGE_HEADER_LEN + (index + N.of_nat i) * LEAF_ENTRY_LEN)
      (PAGE_HEADER_LEN + (index + N.of_nat i) * LEAF_ENTRY_LEN + LEAF_ENTRY_LEN)) = Ok e) ->
  leaf_ordered es -> (forall m e, previous = Some m -> e ∈ es -> m < le_object_id e) ->
  scan_leaf page object_id (length es) index previous selected = Ok (last_match (fun e => le_object_id e =? object_id) selected_of selected es).
Proof.
  revert index previous selected. induction es as [|e es IH]; intros index previous selected Hes Ho Hprev; [done|].
  cbn [length scan_leaf]. pose proof (Hes 0%nat e eq_refl) as He. cbn [N.of_nat] in He. rewrite N.add_0_r in He.
  set (entry := slice page _ _) in *. pose proof (proj1 (leaf_parse_Ok entry e) He) as (Hl & (Hid & Hid' & Hk & Hk' & Hro & Hrl & Hll & Hd) & Hat). unfold leaf_at in Hat. destruct_and!.
  assert (Hgt : is_some_and previous (fun value => le_object_id e <=? value) = false).
  { destruct previous as [m|]; [|done]. cbn. apply N.leb_gt. by apply (Hprev m e eq_refl); left. }
  read_back. rewrite (proj2 (N.eqb_neq (le_object_id e) 0)), (proj2 (N.eqb_neq (le_kind e) 0)), Hgt, N.eqb_refl by done. cbn [orb negb].
  apply StronglySorted_inv in Ho as [Ho Hf].
  assert (Hnext : forall sel, scan_leaf page object_id (length es) (index + 1) (Some (le_object_id e)) sel =
    Ok (last_match (fun e => le_object_id e =? object_id) selected_of sel es)).
  { intros sel. apply IH; [|done|].
    - intros i x Hx. replace (index + 1 + N.of_nat i) with (index + N.of_nat (S i)) by lia. by apply Hes.
    - intros m x [= <-] Hx. by apply (proj1 (Forall_forall _ _) Hf). }
  destruct (le_object_id e =? object_id) eqn:E; cbv beta iota; rewrite Hnext; unfold last_match; cbn [foldl]; by rewrite E.
Qed.

Definition child_page (e : InternalEntry) : ExpectedPage :=
  mkExpectedPage (ie_page_offset e) (ie_page_digest e) (ie_level e) (Some (ie_min_key e)) (Some (ie_max_key e)).

Definition in_range (object_id : N) (e : InternalEntry) : bool := (ie_min_key e <=? object_id) && (object_id <=? ie_max_key e).

(** A first value kept, or the one given. *)
Definition or_else {A} (x y : option A) : option A := match x with Some _ => x | None => y end.

Lemma scan_internal_ok page h object_id es index s :
  (forall i e, es !! i = Some e ->
    internal_parse (slice page (PAGE_HEADER_LEN + (index + N.of_nat i) * INTERNAL_ENTRY_LEN)
      (PAGE_HEADER_LEN + (index + N.of_nat i) * INTERNAL_ENTRY_LEN + INTERNAL_ENTRY_LEN)) = Ok e) ->
  Forall (fun e => lh_level h = ie_level e + 1 /\ ie_level e + 1 <= U16_MAX) es -> ranges_ordered es ->
  (forall m e, cs_previous_max s = Some m -> head es = Some e -> m < ie_min_key e) ->
  scan_internal page h object_id (length es) index s =
    Ok (mkChildScan (or_else (ie_max_key <$> last es) (cs_previous_max s)) (last_match (in_range object_id) child_page (cs_selected s) es)
          (or_else (cs_first_min s) (ie_min_key <$> head es)) (or_else (ie_max_key <$> last es) (cs_last_max s))).
Proof.
  revert index s. induction es as [|e es IH]; intros index s Hes Hlev Ho Hprev.
  { destruct s as [pm sel fm lm]. cbn. by destruct fm. }
  cbn [length scan_internal]. pose proof (Hes 0%nat e eq_refl) as He. cbn [N.of_nat] in He. rewrite N.add_0_r in He.
  set (entry := slice page _ _) in *. pose proof (proj1 (internal_parse_Ok entry e) He) as (Hl & (Hm0 & Hmm & Hmx & Hoff & Hpl & Hlv & Hd) & Hat).
  unfold internal_at in Hat. destruct_and!. apply Forall_cons in Hlev as [[Hle1 Hle2] Hlev]. rewrite Hpl in *.
  assert (Hgt : is_some_and (cs_previous_max s) (fun value => ie_min_key e <=? value) = false).
  { destruct (cs_previous_max s) as [m|] eqn:Em; [|done]. cbn. apply N.leb_gt. by apply (Hprev m e). }
  assert (ie_min_key e <= U64_MAX) by lia. read_back.
  rewrite (proj2 (N.eqb_neq (ie_min_key e) 0)), (proj2 (N.ltb_ge _ _)), Hgt by done. cbn [orb negb].
  rewrite bool_decide_eq_true_2.
  2: { unfold checked_add_u16. rewrite (proj2 (N.leb_le _ _)) by done. congruence. }
  assert (Hnext : forall sel fm, scan_internal page h object_id (length es) (index + 1) (mkChildScan (Some (ie_max_key e)) sel fm (Some (ie_max_key e))) =
    Ok (mkChildScan (or_else (ie_max_key <$> last es) (Some (ie_max_key e))) (last_match (in_range object_id) child_page sel es)
          (or_else fm (ie_min_key <$> head es)) (or_else (ie_max_key <$> last es) (Some (ie_max_key e))))).
  { intros sel fm. inversion Ho as [|? ? Ho' Hh]; subst. apply IH; [|done|done|].
    - intros i x Hx. replace (index + 1 + N.of_nat i) with (index + N.of_nat (S i)) by lia. by apply Hes.
    - intros m x [= <-] Hx. destruct Hh as [|y es Hlt]; [done|]. by injection Hx as ->. }
  assert (Hlast : forall x : option N, or_else (ie_max_key <$> last (e :: es)) x = or_else (ie_max_key <$> last es) (Some (ie_max_key e))).
  { intros x. destruct es as [|y es]; [done|]. cbn [last]. destruct (last (y :: es)) as [z|] eqn:Ez; [done|]. by apply last_None in Ez. }
  rewrite !Hlast. unfold last_match. cbn [foldl head fmap option_fmap option_map]. unfold in_range at 2.
  replace (match cs_first_min s with Some first => Some first | None => Some (ie_min_key e) end) with (or_else (cs_first_min s) (Some (ie_min_key e))) by (by destruct (cs_first_min s)).
  assert (Hfm : forall x, or_else (or_else (cs_first_min s) (Some (ie_min_key e))) x = or_else (cs_first_min s) (Some (ie_min_key e))) by (by destruct (cs_first_min s)).
  destruct ((ie_min_key e <=? object_id) && (object_id <=? ie_max_key e)); cbv beta iota; rewrite Hnext, Hfm; done.
Qed.

Lemma padding_fact page used name : len page = PAGE_SIZE -> used <= PAGE_SIZE ->
  slice page used PAGE_SIZE = zeros (N.to_nat (PAGE_SIZE - used)) -> require_zero (slice page used (len page)) name = Ok tt.
Proof. intros Hl Hu Hz. by apply padding_Ok. Qed.

Lemma select_leaf_ok page h es object_id : parse_page page = Ok (PLeaf h es) ->
  select_leaf page (lookup_header (PLeaf h es)) object_id = Ok (last_match (fun e => le_object_id e =? object_id) selected_of None es).
Proof.
  intros ((Hl & (_ & Hc0 & Hc & _ & Hmm & Hmx & _) & _ & _ & Hcap & Hpad & Hn & He) & Hlev & (Hmin & Hmax & Ho)%leaf_order_Ok)%parse_page_leaf.
  pose proof (leaf_used _ Hcap) as Hused. unfold select_leaf, lookup_header. cbn [lh_level lh_entry_size lh_count lh_minimum lh_maximum page_header entry_size_of].
  rewrite Hlev, N.eqb_refl, (proj2 (N.ltb_ge _ _)) by done. cbn [N.eqb andb negb].
  unfold checked_mul. rewrite (proj2 (N.leb_le _ U64_MAX)) by (unfold U64_MAX, LEAF_ENTRY_LEN, U16_MAX in *; lia). cbn [ok_or].
  rewrite checked_add_fits by (unfold U64_MAX, PAGE_SIZE in *; lia). cbn [ok_or]. rewrite (padding_fact page _ _ Hl Hused Hpad).
  replace (N.to_nat (ph_entry_count h)) with (length es) by (unfold len in Hn; lia).
  rewrite scan_leaf_ok; [|intros i e Hi; rewrite N.add_0_l; by apply He|done|done].
  assert (Hread : forall i e o, es !! i = Some e -> o = PAGE_HEADER_LEN + N.of_nat i * LEAF_ENTRY_LEN -> read_u64 page o = Ok (le_object_id e)).
  { intros i e o Hi ->. pose proof (lookup_lt_Some _ _ _ Hi) as Hlt. specialize (He i e Hi). apply leaf_parse_Ok in He as (_ & (_ & Hid & _) & Hat & _).
    assert (Hin : PAGE_HEADER_LEN + N.of_nat i * LEAF_ENTRY_LEN + LEAF_ENTRY_LEN <= len page) by (rewrite Hl; unfold len, LEAF_ENTRY_LEN in *; lia).
    unfold LEAF_ENTRY_LEN, PAGE_SIZE in *. apply read_u64_Ok; [unfold U64_MAX; lia|]. split_and!; [lia| |done].
    rewrite subslice in Hat by lia. by rewrite N.add_0_r in Hat. }
  destruct (head es) as [first|] eqn:Ehd; [|done]. destruct (last es) as [last_|] eqn:Elast; [|done]. injection Hmin as Hmin. injection Hmax as Hmax.
  rewrite head_lookup in Ehd. rewrite last_lookup in Elast.
  pose proof (Hread 0%nat first PAGE_HEADER_LEN Ehd ltac:(done)) as Hf.
  assert (Hf' : read_u64 (slice page PAGE_HEADER_LEN (len page)) 0 = Ok (le_object_id first)).
  { apply read_u64_Ok in Hf as (_ & Hs & Hb); [|done]. unfold PAGE_HEADER_LEN, PAGE_SIZE in *. apply read_u64_Ok; [done|].
    split_and!; [rewrite slice_len; lia| |done]. by rewrite subslice by lia. }
  rewrite Hf', Hmin, N.eqb_refl. cbn [andb].
  rewrite (Hread _ last_ _ Elast) by (unfold len in Hn; f_equal; f_equal; lia). by rewrite Hmax, !N.eqb_refl.
Qed.

Lemma select_internal_ok page h es object_id : parse_page page = Ok (PInternal h es) ->
  select_internal page (lookup_header (PInternal h es)) object_id = Ok (last_match (in_range object_id) child_page None es).
Proof.
  intros ((Hl & (_ & Hc0 & Hc & _ & Hmm & Hmx & _) & _ & _ & Hcap & Hpad & Hn & He) & Hlev & (Hmin & Hmax & Hls & Ho)%internal_order_Ok)%parse_page_internal.
  pose proof (internal_used _ Hcap) as Hused. unfold select_internal. 
  cbn [lookup_header lh_level lh_entry_size lh_count lh_minimum lh_maximum page_header entry_size_of].
  rewrite N.eqb_refl, (proj2 (N.eqb_neq _ _) Hlev), (proj2 (N.ltb_ge _ _)) by done. cbn [andb negb].
  unfold checked_mul. rewrite (proj2 (N.leb_le _ U64_MAX)) by (unfold U64_MAX, INTERNAL_ENTRY_LEN, U16_MAX in *; lia). cbn [ok_or].
  rewrite checked_add_fits by (unfold U64_MAX, PAGE_SIZE in *; lia). cbn [ok_or]. rewrite (padding_fact page _ _ Hl Hused Hpad).
  replace (N.to_nat (ph_entry_count h)) with (length es) by (unfold len in Hn; lia).
  rewrite scan_internal_ok; [|intros i e Hi; rewrite N.add_0_l; by apply He|done|done|done].
  cbn [cs_first_min cs_last_max cs_selected or_else]. rewrite Hmin, Hmax. cbn [or_else]. by rewrite !bool_decide_eq_true_2.
Qed.

(** ** The record of an entry *)

Lemma object_header_at_prefix b h : 48 <= len b -> object_header_at (slice b 0 48) h -> object_header_at b h.
Proof. intros Hl Hat. unfold object_header_at in Hat. rewrite !subslice in Hat by lia. exact Hat. Qed.

Lemma sum_of_elem {A} (f : A -> N) l x : x ∈ l -> f x <= sum_of f l.
Proof. intros Hx. induction Hx as [x l|x y l Hx IH]; cbn [sum_of foldr]; fold (sum_of f l); lia. Qed.

Section Walk.
Context `{H : Sha256}.
Implicit Types b : bytes.

Definition found_lookup (e : LeafEntry) (sequence pages_read bytes_hashed : N) : AuthenticatedObjectLookup :=
  mkLookup (le_object_id e) (le_kind e) (le_record_offset e) (le_record_len e) (le_record_offset e + OBJECT_HEADER_LEN)
    (le_logical_len e) (le_logical_len e) sequence pages_read bytes_hashed.

Lemma validate_selected_object_ok b e limits : record_present b e -> le_logical_len e <= max_payload_bytes limits ->
  validate_selected_object (slice b (le_record_offset e) (le_record_offset e + le_record_len e)) (selected_of e) limits = Ok tt.
Proof.
  intros (Hr1 & Hr2 & Hlen & Hp & Hd) Hmax. set (record := slice b (le_record_offset e) (le_record_offset e + le_record_len e)) in *. unfold OBJECT_HEADER_LEN in *.
  assert (Hl : len record = le_record_len e) by (unfold record; rewrite slice_len; lia).
  assert (Hpre : slice record 0 48 = slice b (le_record_offset e) (le_record_offset e + 48)) by (unfold record; rewrite subslice by lia; by rewrite N.add_0_r).
  apply object_header_parse_Ok in Hp as (_ & (Hid & Hid' & Hk & Hk' & Hpl & Hpl') & Hat). rewrite <- Hpre in Hat. apply object_header_at_prefix in Hat; [|lia].
  unfold object_header_at in Hat. cbn [oh_object_id oh_kind oh_payload_len oh_logical_len] in *. destruct_and!.
  unfold validate_selected_object, OBJECT_HEADER_LEN, selected_of. cbn [sl_kind sl_object_id sl_logical_len sl_record_len sl_digest].
  rewrite (proj2 (N.ltb_ge _ _)) by lia. rewrite bool_decide_eq_true_2 by done. cbn [negb andb]. read_back.
  rewrite !N.eqb_refl. cbv beta iota. rewrite (proj2 (N.ltb_ge _ _)) by done. cbn [negb andb]. rewrite checked_add_fits by lia. cbn [ok_or].
  rewrite <- Hlen, N.eqb_refl. by rewrite bool_decide_eq_true_2.
Qed.

Lemma hash_more_ok hashed amount limits : hashed + amount <= max_hashed_bytes (ll_validation limits) -> hashed + amount <= U64_MAX ->
  hash_more hashed amount limits = Ok (hashed + amount).
Proof. intros H1 H2. unfold hash_more, check_hashed. rewrite checked_add_fits by done. cbn [ok_or]. by rewrite (proj2 (N.ltb_ge _ _)). Qed.

Lemma read_selected_ok b limits sq fo sn ranges pages hashed e :
  record_present b e -> (forall p, p ∈ ranges -> apart (record_range e) p) -> apart (record_range e) sn -> apart (record_range e) (fo, len b) ->
  le_logical_len e <= max_payload_bytes (ll_validation limits) ->
  hashed + le_record_len e <= max_hashed_bytes (ll_validation limits) -> hashed + le_record_len e <= U64_MAX ->
  read_selected b limits sq fo sn ranges pages hashed (selected_of e) = Ok (found_lookup e sq pages (hashed + le_record_len e)).
Proof.
  intros Hrec Hranges Hsn Hft Hpay Hh1 Hh2. pose proof Hrec as (Hr1 & Hr2 & Hlen & _). unfold read_selected. cbn [selected_of sl_record_offset sl_record_len].
  rewrite (proj2 (exp2_range_Ok (le_record_offset e) (le_record_len e) (len b) _ _)) by (split_and!; [reflexivity|reflexivity|done|done]).
  cbv beta iota. fold (record_range e). unfold apart in Hsn, Hft. rewrite Hsn, Hft.
  assert (Hov : overlaps_any (record_range e) ranges = false).
  { unfold overlaps_any. apply not_true_iff_false. rewrite existsb_exists. intros (p & Hp%list_elem_of_In & E). unfold apart in Hranges. rewrite Hranges in E; done. }
  rewrite Hov. cbn [orb negb]. rewrite hash_more_ok by done. rewrite validate_selected_object_ok by done. unfold OBJECT_HEADER_LEN in *.
  rewrite checked_add_fits by lia. cbn [ok_or]. unfold checked_sub. rewrite (proj2 (N.leb_le _ _)) by lia. cbn [ok_or].
  unfold found_lookup, OBJECT_HEADER_LEN. rewrite Hlen. do 3 f_equal. lia.
Qed.

(** ** The walk *)

(** A locator with the key range its page declares. *)
Definition exact (l : PageLocator) (p : ParsedPage) : PageLocator :=
  mkPageLocator (ph_min_key (page_header p)) (ph_max_key (page_header p)) (pl_offset l) (pl_level l) (pl_digest l).

Lemma page_present_exact b sq l p : page_present b sq l p -> page_present b sq (exact l p) p.
Proof. intros (? & ? & ? & ? & ? & ? & ? & ?). unfold page_present, exact. cbn [pl_offset pl_digest pl_level pl_min_key pl_max_key]. split_and!; try done; by right. Qed.

Lemma dtree_page b sq h l es offs : dtree b sq h l es offs ->
  exists p, page_present b sq l p /\ pl_offset l ∈ offs /\ (forall e, e ∈ es -> ph_min_key (page_header p) <= le_object_id e <= ph_max_key (page_header p)).
Proof.
  intros Ht. assert (Hx : exists p, page_present b sq l p /\ pl_offset l ∈ offs /\ dtree b sq h (exact l p) es offs).
  { destruct h as [|h]; cbn [dtree] in Ht |- *.
    - destruct Ht as (hd & Hp & ->). exists (PLeaf hd es). split_and!; [done|by left|]. exists hd. split; [by apply page_present_exact|done].
    - destruct Ht as (hd & cs & subs & Hp & Hf & -> & ->). exists (PInternal hd cs). split_and!; [done|by left|]. exists hd, cs, subs.
      split_and!; [by apply page_present_exact|done|done|done]. }
  destruct Hx as (p & Hp & Ho & Hd). exists p. split_and!; [done|done|]. by destruct (dtree_ordered _ _ _ _ _ _ Hd) as (_ & _ & _ & Hb).
Qed.

(** The child ranges of an internal page do not overlap: an identifier is in
    the range of at most one. *)
Lemma ranges_apart cs i j x y : ranges_ordered cs -> Forall internal_ok cs -> cs !! i = Some x -> cs !! j = Some y -> (i < j)%nat ->
  ie_max_key x < ie_min_key y.
Proof.
  intros Ho. revert i j x. induction Ho as [|c cs Ho IH Hh]; intros i j x Hok Hi Hj Hij; [done|]. apply Forall_cons in Hok as [Hc Hok].
  destruct j as [|j]; [lia|]. cbn in Hj. destruct i as [|i]; [|apply (IH i j x); [done|done|done|lia]]. injection Hi as ->.
  destruct cs as [|c' cs]; [done|]. inversion Hh as [|? ? Hlt]; subst. destruct j as [|j]; [by injection Hj as ->|].
  pose proof (IH 0%nat (S j) c' Hok eq_refl Hj ltac:(lia)) as Hy. apply Forall_cons in Hok as [(_ & Hk & _) _]. lia.
Qed.

(** Some page among those at [offs] gives a child the greatest key there is as
    its maximum, which strict validation takes for any maximum. *)
Definition open_child b (offs : list N) : Prop :=
  exists o h cs c, o ∈ offs /\ parse_page (slice b o (o + PAGE_SIZE)) = Ok (PInternal h cs) /\ c ∈ cs /\ ie_max_key c = U64_MAX.

(** What a lookup among the entries [es] of a directory with its pages at
    [offs] should give. *)
Definition lookup_result b (offs : list N) (es : list LeafEntry) (object_id sequence pages hashed : N) (r : X (option AuthenticatedObjectLookup)) : Prop :=
  match r with
  | Ok None => object_id ∉ le_object_id <$> es
  | Ok (Some found) => exists e, e ∈ es /\ le_object_id e = object_id /\ found = found_lookup e sequence pages (hashed + le_record_len e)
  | Err e => e = InvalidPageReference /\ open_child b offs
  end.

(** What the walk may rely on: every record in place and apart, and room. *)
Record walk_room b (limits : AuthenticatedLookupLimits) (fo : N) (sn : N * N) (offs : list N) (es : list LeafEntry) (pages hashed : N) : Prop := {
  wr_record e : e ∈ es -> record_present b e /\ (forall p, p ∈ page_range <$> offs -> apart (record_range e) p) /\ apart (record_range e) sn /\
    apart (record_range e) (fo, len b) /\ le_logical_len e <= max_payload_bytes (ll_validation limits) /\
    hashed + le_record_len e <= max_hashed_bytes (ll_validation limits) /\ hashed + le_record_len e <= U64_MAX;
  wr_hashed : hashed <= max_hashed_bytes (ll_validation limits) /\ hashed <= U64_MAX;
  wr_pages : pages <= ll_max_page_reads limits /\ pages <= max_page_depth (ll_validation limits) /\ pages <= max_pages (ll_validation limits) /\ pages <= U64_MAX;
}.

Definition expects (x : ExpectedPage) (l : PageLocator) b (offs : list N) : Prop :=
  xp_offset x = pl_offset l /\ xp_digest x = pl_digest l /\ xp_level x = pl_level l /\
  (xp_minimum x = None \/ xp_minimum x = Some (pl_min_key l) /\ pl_min_key l <> 0) /\
  (xp_maximum x = None \/ xp_maximum x = Some (pl_max_key l) /\ (pl_max_key l = U64_MAX -> open_child b offs)).

Lemma lookup_page_ok b limits sq x l p offs ranges pages hashed :
  page_present b sq l p -> expects x l b offs ->
  pages <= ll_max_page_reads limits -> pages <= max_page_depth (ll_validation limits) -> pages <= max_pages (ll_validation limits) ->
  hashed + PAGE_SIZE <= max_hashed_bytes (ll_validation limits) -> hashed + PAGE_SIZE <= U64_MAX ->
  lookup_page b limits sq x ranges pages hashed =
    Ok (slice b (pl_offset l) (pl_offset l + PAGE_SIZE), lookup_header p, ranges ++ [page_range (pl_offset l)], hashed + PAGE_SIZE) \/
  lookup_page b limits sq x ranges pages hashed = Err InvalidPageReference /\ open_child b offs.
Proof.
  intros (Hl1 & Hl2 & Hd & Hp & Hlev & Hmin & Hmax & Hsq) (E1 & E2 & E3 & Xmin & Xmax) Hp1 Hp2 Hp3 Hh1 Hh2.
  assert (Hpage : lookup_page b limits sq x ranges pages hashed =
    if is_some_and (xp_maximum x) (fun value => negb (value =? ph_max_key (page_header p))) then Err InvalidPageReference
    else Ok (slice b (pl_offset l) (pl_offset l + PAGE_SIZE), lookup_header p, ranges ++ [page_range (pl_offset l)], hashed + PAGE_SIZE)).
  { unfold lookup_page. rewrite !(proj2 (N.ltb_ge _ pages)) by done. cbn [orb negb]. rewrite E1.
    rewrite (proj2 (exp2_range_Ok (pl_offset l) PAGE_SIZE (len b) _ _)) by (split_and!; [reflexivity|reflexivity|done|done]). cbv beta iota.
    rewrite hash_more_ok by done. rewrite E2, bool_decide_eq_true_2 by done.
    rewrite <- Hsq, (read_page_header _ _ Hp). unfold lookup_header at 1 2 3. cbn [lh_level lh_minimum lh_maximum]. rewrite Hlev, E3, N.eqb_refl. cbn [negb orb].
    assert (Hmn : is_some_and (xp_minimum x) (fun value => negb (value =? ph_min_key (page_header p))) = false).
    { destruct Xmin as [->|[-> Hn0]]; [done|]. cbn. destruct Hmin as [|Hmin]; [done|]. by rewrite Hmin, N.eqb_refl. }
    rewrite Hmn. cbn [orb]. by destruct (is_some_and (xp_maximum x) _). }
  destruct (is_some_and (xp_maximum x) _) eqn:Emx; [right; split; [done|]|by left].
  destruct Xmax as [E|[E Ho]]; rewrite E in Emx; [done|]. cbn in Emx. destruct Hmax as [Hmax|Hmax]; [by apply Ho|]. by rewrite Hmax, N.eqb_refl in Emx.
Qed.

Lemma page_present_unique b sq l p q : page_present b sq l p -> page_present b sq l q -> p = q.
Proof. intros (_ & _ & _ & Hp & _) (_ & _ & _ & Hq & _). congruence. Qed.

Lemma in_range_spec object_id c : in_range object_id c = true <-> ie_min_key c <= object_id <= ie_max_key c.
Proof. unfold in_range. by rewrite andb_true_iff, !N.leb_le. Qed.

(** The entry of an identifier is below the only child whose range holds it. *)
Lemma below_child b sq h cs (subs : list (list LeafEntry * list N)) object_id e :
  Forall2 (fun c sub => dtree b sq h (locator_of c) sub.1 sub.2) cs subs -> e ∈ concat subs.*1 -> le_object_id e = object_id ->
  exists i c sub, cs !! i = Some c /\ subs !! i = Some sub /\ in_range object_id c = true /\ e ∈ sub.1.
Proof.
  intros Hf He Hid. apply elem_of_concat in He as (es & (sub & -> & (i & Hi)%list_elem_of_lookup)%list_elem_of_fmap & He).
  destruct (Forall2_lookup_r _ _ _ _ _ Hf Hi) as (c & Hc & Ht). exists i, c, sub. split_and!; [done|done| |done].
  destruct (dtree_ordered _ _ _ _ _ _ Ht) as (_ & _ & _ & Hb). specialize (Hb e He). apply in_range_spec. subst. exact Hb.
Qed.

Lemma child_unique cs i j c c' object_id : ranges_ordered cs -> Forall internal_ok cs -> cs !! i = Some c -> cs !! j = Some c' ->
  in_range object_id c = true -> in_range object_id c' = true -> i = j.
Proof.
  intros Ho Hok Hi Hj Hc%in_range_spec Hc'%in_range_spec. destruct (Nat.lt_total i j) as [Hij|[->|Hij]]; [exfalso|done|exfalso].
  - pose proof (ranges_apart cs i j c c' Ho Hok Hi Hj Hij). lia.
  - pose proof (ranges_apart cs j i c' c Ho Hok Hj Hi Hij). lia.
Qed.

Lemma lookup_pages_ok b object_id limits sq fo sn offs_all es_all h : forall l es offs x ranges pages hashed,
  dtree b sq h l es offs -> expects x l b offs_all -> (forall o, o ∈ offs -> o ∈ offs_all) -> (forall e, e ∈ es -> e ∈ es_all) ->
  (forall p, p ∈ ranges -> p ∈ page_range <$> offs_all) ->
  walk_room b limits fo sn offs_all es_all (pages + N.of_nat (S h)) (hashed + PAGE_SIZE * N.of_nat (S h)) ->
  lookup_result b offs_all es object_id sq (pages + N.of_nat (S h)) (hashed + PAGE_SIZE * N.of_nat (S h))
    (lookup_pages (S h) b object_id limits sq fo sn x ranges pages hashed).
Proof.
  induction h as [|h IH]; intros l es offs x ranges pages hashed Ht Hx Hoffs Hes Hranges Hroom;
    pose proof (dtree_page _ _ _ _ _ _ Ht) as (p & Hp & Hlo & Hkeys); pose proof (wr_hashed _ _ _ _ _ _ _ _ Hroom) as [Hh1 Hh2];
    pose proof (wr_pages _ _ _ _ _ _ _ _ Hroom) as (Hp1 & Hp2 & Hp3 & Hp4); assert (HPS : PAGE_SIZE = 16384) by done;
    (destruct (lookup_page_ok b limits sq x l p offs_all ranges (pages + 1) hashed Hp Hx) as [Epage|[Epage Hopen]]; [lia..| |]);
    match goal with |- context [lookup_pages (S ?k)] => remember k as fuel eqn:Efuel end; cbn [lookup_pages]; subst fuel;
    rewrite checked_add_fits by lia; cbn [ok_or]; rewrite Epage; [|by split| |by split]; cbv beta iota;
    change (lh_minimum (lookup_header p)) with (ph_min_key (page_header p)); change (lh_maximum (lookup_header p)) with (ph_max_key (page_header p));
    (destruct (_ || _) eqn:Eout; [intros (e & -> & He)%list_elem_of_fmap; specialize (Hkeys e He); apply orb_true_iff in Eout as [Hlt%N.ltb_lt|Hlt%N.ltb_lt]; lia|]).
  - destruct Ht as (hd & Hp' & ->). pose proof (page_present_unique _ _ _ _ _ Hp Hp') as ->. pose proof Hp as (_ & _ & _ & Hparse & _).
    change (lh_kind (lookup_header (PLeaf hd es))) with (ph_kind hd). pose proof (proj1 (parse_page_leaf _ _ _) Hparse) as ((_ & _ & _ & -> & _) & _).
    cbn [N.eqb Pos.eqb]. rewrite (select_leaf_ok _ _ _ _ Hparse).
    destruct (last_match_cases (fun e => le_object_id e =? object_id) selected_of es None) as [(e & He & Hid%N.eqb_eq & ->)|[Hn ->]].
    2: { intros (e & -> & He)%list_elem_of_fmap. specialize (Hn e He). by rewrite N.eqb_refl in Hn. }
    destruct (wr_record _ _ _ _ _ _ _ _ Hroom e ltac:(by apply Hes)) as (Hrec & Hpg & Hsn & Hft & Hpay & Hr1 & Hr2).
    rewrite N.mul_1_r in *. rewrite read_selected_ok; try done.
    + exists e. split_and!; try done.
    + intros q [Hq| ->%list_elem_of_singleton]%elem_of_app; apply Hpg; [by apply Hranges|]. apply list_elem_of_fmap_2. by apply Hoffs.
  - destruct Ht as (hd & cs & subs & Hp' & Hf & -> & ->). pose proof (page_present_unique _ _ _ _ _ Hp Hp') as ->. pose proof Hp as (_ & _ & _ & Hparse & _).
    pose proof (page_present_internal _ _ _ _ _ Hp) as (_ & _ & Hok & Ho & _ & _).
    change (lh_kind (lookup_header (PInternal hd cs))) with (ph_kind hd). pose proof (proj1 (parse_page_internal _ _ _) Hparse) as ((_ & _ & _ & -> & _) & _).
    cbn [N.eqb Pos.eqb]. rewrite (select_internal_ok _ _ _ _ Hparse).
    destruct (last_match_cases (in_range object_id) child_page cs None) as [(c & (i & Hi)%list_elem_of_lookup & Hid & ->)|[Hn ->]].
    2: { intros (e & Hid & He)%list_elem_of_fmap. destruct (below_child _ _ _ _ _ object_id e Hf He (eq_sym Hid)) as (i & c & sub & Hc & _ & Hin & _).
         rewrite Hn in Hin; [done|]. by eapply list_elem_of_lookup_2. }
    destruct (Forall2_lookup_l _ _ _ _ _ Hf Hi) as ([es' offs'] & Hsub & Htc). cbn [fst snd] in Htc.
    assert (Hin_es : forall e, e ∈ es' -> e ∈ concat subs.*1).
    { intros e He. apply elem_of_concat. exists es'. split; [|done]. apply list_elem_of_fmap. exists (es', offs'). split; [done|by eapply list_elem_of_lookup_2]. }
    assert (Hin_offs : forall o, o ∈ offs' -> o ∈ offs_all).
    { intros o Hoo. apply Hoffs. right. apply elem_of_concat. exists offs'. split; [|done]. apply list_elem_of_fmap. exists (es', offs'). split; [done|by eapply list_elem_of_lookup_2]. }
    specialize (IH (locator_of c) es' offs' (child_page c) (ranges ++ [page_range (pl_offset l)]) (pages + 1) (hashed + PAGE_SIZE) Htc).
    replace (pages + 1 + N.of_nat (S h)) with (pages + N.of_nat (S (S h))) in IH by lia.
    replace (hashed + PAGE_SIZE + PAGE_SIZE * N.of_nat (S h)) with (hashed + PAGE_SIZE * N.of_nat (S (S h))) in IH by lia.
    assert (Hres : lookup_result b offs_all es' object_id sq (pages + N.of_nat (S (S h))) (hashed + PAGE_SIZE * N.of_nat (S (S h)))
      (lookup_pages (S h) b object_id limits sq fo sn (child_page c) (ranges ++ [page_range (pl_offset l)]) (pages + 1) (hashed + PAGE_SIZE))).
    { apply IH; [|done|intros e He; by apply Hes, Hin_es| |done].
      - pose proof (proj1 (Forall_forall _ _) Hok c (list_elem_of_lookup_2 _ _ _ Hi)) as (Hm0 & _). unfold expects, child_page, locator_of.
        cbn [xp_offset xp_digest xp_level xp_minimum xp_maximum pl_offset pl_digest pl_level pl_min_key pl_max_key]. split_and!; [done..|by right|].
        right. split; [done|]. intros E. exists (pl_offset l), hd, cs, c. split_and!; [by apply Hoffs; left|done|by eapply list_elem_of_lookup_2|done].
      - intros q [Hq| ->%list_elem_of_singleton]%elem_of_app; [by apply Hranges|]. apply list_elem_of_fmap_2. by apply Hoffs; left. }
    revert Hres. generalize (lookup_pages (S h) b object_id limits sq fo sn (child_page c) (ranges ++ [page_range (pl_offset l)]) (pages + 1) (hashed + PAGE_SIZE)).
    intros [[found|]|err]; cbn [lookup_result]; [| |done].
    + intros (e & He & Heid & ->). exists e. split_and!; [by apply Hin_es|done|done].
    + intros Hnin (e & Heid & He)%list_elem_of_fmap. destruct (below_child _ _ _ _ _ object_id e Hf He (eq_sym Heid)) as (j & c' & sub & Hc' & Hs' & Hin & He').
      pose proof (child_unique cs i j c c' object_id Ho Hok Hi Hc' Hid Hin) as <-. assert (sub = (es', offs')) as -> by congruence.
      apply Hnin. rewrite Heid. by apply list_elem_of_fmap_2.
Qed.

Lemma dtree_pages b sq h l es offs : dtree b sq h l es offs -> (S h <= length offs)%nat.
Proof.
  revert l es offs. induction h as [|h IH]; intros l es offs; cbn [dtree]; [by intros (hd & _ & ->)|].
  intros (hd & cs & subs & Hp & Hf & _ & ->). apply page_present_internal in Hp as (_ & Hne & _).
  destruct Hf as [|c sub cs subs Hc Hf]; [done|]. specialize (IH _ _ _ Hc). rewrite fmap_cons. cbn [concat length]. rewrite length_app. lia.
Qed.

(** ** The commit *)

Lemma file_header_prefix b h : 64 <= len b -> file_header_parse (slice b 0 64) = Ok h -> file_header_parse b = Ok h.
Proof.
  intros Hl (_ & Hok & Hat)%file_header_parse_Ok. apply file_header_parse_Ok. split_and!; [done|done|].
  unfold file_header_at in *. rewrite !subslice in Hat by lia. exact Hat.
Qed.

Lemma footer_structure_ok b f : footer_parse b = Ok f -> validate_footer_structure b = Ok tt.
Proof.
  intros (Hl & Hok & Hat)%footer_parse_Ok. unfold footer_at in Hat. destruct_and!. unfold validate_footer_structure, FOOTER_LEN, DIGEST_SHA256 in *.
  rewrite Hl, bool_decide_eq_true_2 by done. cbn [N.eqb Pos.eqb andb]. read_back. done.
Qed.

Lemma lookup_parent_link_ok b fo f s : parent_linked b fo f s -> fo <= U64_MAX -> fo <= len b -> footer_ok f ->
  lookup_parent_link b fo (ft_commit_start f) (ft_sequence f) (ft_previous_footer_offset f) (sn_parent_snapshot_digest s) = Ok tt.
Proof.
  unfold parent_linked, lookup_parent_link. intros Hp Hfo Hb (_ & _ & _ & _ & Hsq & _). destruct (_ =? ABSENT_OFFSET).
  - destruct Hp as (-> & -> & ->). by rewrite bool_decide_eq_true_2.
  - destruct Hp as (Hle & Hc & pf & Hpf & Hd & Hs). unfold to_u64. rewrite try_u64_fits by done. cbn [ok_or]. unfold FOOTER_LEN in *.
    rewrite (proj2 (N.ltb_lt _ _)) by lia. rewrite checked_add_fits by lia. cbn [ok_or]. rewrite Hc, N.eqb_refl.
    rewrite (proj2 (exp2_range_Ok (ft_previous_footer_offset f) 160 (len b) _ _)) by (split_and!; [reflexivity|reflexivity|lia|lia]). cbv beta iota.
    set (prev := slice b _ _) in *. rewrite (footer_structure_ok _ _ Hpf). apply footer_parse_Ok in Hpf as (Hl & (_ & _ & _ & _ & Hpsq & _) & Hat).
    unfold footer_at in Hat. destruct_and!. read_back. rewrite checked_add_fits by lia. cbn [ok_or]. rewrite Hs, N.eqb_refl.
    by rewrite bool_decide_eq_true_2.
Qed.

(** On a file that strict validation accepts, with room for the extra hashing
    of the snapshot, a lookup finds what the directory holds. *)
Lemma lookup_authenticated_ok b limits reads v object_id :
  validate_strict b limits = Ok v -> object_id <> 0 -> 1 + sn_directory_root_level (v_snapshot v) <= reads ->
  v_bytes_hashed v + ft_snapshot_len (v_footer v) <= max_hashed_bytes limits -> v_bytes_hashed v + ft_snapshot_len (v_footer v) <= U64_MAX ->
  exists offs, strict_valid b limits offs v /\
  lookup_result b offs (v_objects v) object_id (sn_sequence (v_snapshot v)) (1 + sn_directory_root_level (v_snapshot v))
    (ft_commit_len (v_footer v) + ft_snapshot_len (v_footer v) + PAGE_SIZE * (1 + sn_directory_root_level (v_snapshot v)))
    (lookup_authenticated b object_id (mkLookupLimits limits reads)).
Proof.
  intros Hv Hid Hreads Hh1 Hh2. apply validate_strict_Ok in Hv as (offs & Hsv & Hsa). exists offs. split; [done|].
  pose proof Hsv as [(Hl & Hl2 & Hmax) Hhd Hf Hc [Hs1 Hs2] Hsd Hs [Hsq1 Hsq2] Hpar Hcd Ht Hn [Hrec1 [Hrec2 Hrec3]] [Hr1 Hr2] [Hrep1 Hrep2]].
  destruct Hsa as [Ha1 Ha2 Ha3 Ha4 Ha5 [Ha6 Ha6'] [Ha7 Ha7']]. rewrite Hrep2 in *.
  pose proof (proj1 (footer_parse_Ok _ _) Hf) as (Hfl & Hfok & Hfat). pose proof (footer_canonical _ _ Hf) as Hcan.
  destruct (footer_encode_at (v_footer v)) as (_ & _ & Hsem); [apply Hfok..|]. rewrite Hcan in Hsem.
  unfold lookup_authenticated. cbn [ll_validation]. rewrite (proj2 (N.eqb_neq _ _) Hid). unfold to_u64, FILE_HEADER_LEN, FOOTER_LEN in *.
  rewrite try_u64_fits by done. cbn [negb ok_or]. rewrite !(proj2 (N.ltb_ge _ (len b))) by done. rewrite (proj2 (N.ltb_ge (len b) _)) by lia. cbn [negb].
  rewrite (file_header_prefix b (v_header v)) by (done || lia). unfold checked_sub. rewrite (proj2 (N.leb_le _ _)) by lia. cbn [ok_or].
  replace (len b - 160) with (v_footer_offset v) by lia. rewrite (footer_structure_ok _ _ Hf). set (footer := slice b (v_footer_offset v) (len b)) in *.
  destruct Hfok as (Fok1 & Fok2 & Fok3 & Fok4 & Fok5 & Fok6 & Fok7 & Fok8 & Fok9). unfold footer_at in Hfat. destruct_and!.
  assert (Hld : length (ft_snapshot_digest (v_footer v)) = 32%nat) by done. read_back.
  rewrite checked_add_fits by lia. cbn [ok_or]. rewrite try_u64_fits by lia. cbn [ok_or]. rewrite Hc, N.eqb_refl.
  rewrite (proj2 (N.ltb_ge (max_commit_bytes limits) _)) by done. cbn [negb]. unfold check_hashed. cbn [ll_validation].
  rewrite (proj2 (N.ltb_ge (max_hashed_bytes limits) (ft_commit_len (v_footer v)))) by lia. cbn [negb].
  rewrite (proj2 (exp2_range_Ok (ft_commit_start (v_footer v)) (ft_commit_len (v_footer v)) (len b) (ft_commit_start (v_footer v)) (v_footer_offset v)))
    by (split_and!; lia). cbv beta iota.
  rewrite Hsem. rewrite bool_decide_eq_true_2 by exact Hcd.
  rewrite (proj2 (exp2_range_Ok (ft_snapshot_offset (v_footer v)) (ft_snapshot_len (v_footer v)) (len b) _ _)) by (split_and!; [reflexivity|reflexivity|lia|lia]).
  cbv beta iota. rewrite !(proj2 (N.ltb_ge _ _)) by done. cbn [orb negb]. rewrite bool_decide_eq_true_2 by done.
  rewrite hash_more_ok by (cbn [ll_validation]; lia). rewrite Hs, Hsq1, Hsq2, !N.eqb_refl. cbn [andb].
  rewrite lookup_parent_link_ok by (first [done|lia|split_and!; done]).
  rewrite <- Hsq1. cbn [xp_level]. set (level := sn_directory_root_level (v_snapshot v)) in *.
  pose proof (dtree_pages _ _ _ _ _ _ Ht) as Hpages. assert (Hlen : 1 + level <= len offs) by (unfold len; lia).
  replace (1 + level) with (0 + N.of_nat (S (N.to_nat level))) by lia.
  replace (PAGE_SIZE * (0 + N.of_nat (S (N.to_nat level)))) with (PAGE_SIZE * N.of_nat (S (N.to_nat level))) by lia.
  apply (lookup_pages_ok b object_id _ _ _ _ offs (v_objects v) (N.to_nat level) (root_locator (v_snapshot v)) (v_objects v) offs); try done.
  - unfold expects, root_locator. cbn. split_and!; try done; by left.
  - intros p Hp. by apply elem_of_nil in Hp.
  - assert (HPS : PAGE_SIZE = 16384) by done. split; cbn [ll_validation ll_max_page_reads].
    + intros e He. pose proof (proj1 (Forall_forall _ _) Hrec1 e He) as Hrec. destruct (Hrec3 e He) as (? & ? & ?).
      pose proof (sum_of_elem le_record_len _ e He). pose proof (sum_of_elem le_logical_len _ e He). split_and!; try done; try lia.
    + lia.
    + lia.
Qed.
End Walk.
