(* ===== verification/Exp0002Recovery.v ===== *)
(** Bounded recovery of EXP-0002 files ([exp0002_recovery.rs]): the backward
    scan for prefixes that validate, and the chain of previous commits. It finds
    exactly the prefixes that strict validation accepts in its window, and the
    commits before an accepted file. *)

From Stdlib Require Import Strings.Byte Strings.String NArith ZArith Lia.
From stdpp Require Import base list gmap strings sorting.
From S2P Require Import Prelude Order Digest Recovery Exp0002 Exp0002File Exp0002Pages Exp0002Strict.

Local Open Scope N_scope.

Record Exp0002RecoveryLimits : Type := mkRecoveryLimits {
  rl_max_scan_bytes : N;
  rl_max_magic_matches : N;
  rl_max_candidate_validations : N;
  rl_max_results : N;
  rl_max_chain_depth : N;
}.

Definition default_exp0002_recovery_limits : Exp0002RecoveryLimits := mkRecoveryLimits (4 * 1024 * 1024) 4096 256 64 64.

Record Exp0002RecoveredCandidate : Type := mkCandidate {
  rc_footer_offset : N;
  rc_prefix_len : N;
  rc_sequence : N;
  rc_snapshot_digest : bytes;
}.

Record Exp0002RecoveryReport : Type := mkRecoveryReport {
  rr_bytes_scanned : N;
  rr_magic_matches : N;
  rr_candidates_validated : N;
  rr_candidates : list Exp0002RecoveredCandidate;
}.

(** [Exp0002RecoveryReport::latest] *)
Definition report_latest (r : Exp0002RecoveryReport) : option Exp0002RecoveredCandidate := head (rr_candidates r).

Definition candidate_from_verified (prefix_len : N) (v : VerifiedExp0002) : Exp0002RecoveredCandidate :=
  mkCandidate (v_footer_offset v) prefix_len (ft_sequence (v_footer v)) (ft_snapshot_digest (v_footer v)).

(** Higher sequence first, then higher footer offset. *)
Definition newest_first (left_ right_ : Exp0002RecoveredCandidate) : comparison :=
  then_with (rc_sequence right_ ?= rc_sequence left_) (rc_footer_offset right_ ?= rc_footer_offset left_).

Section Recovery.
Context `{Sha256}.

(** What the scan has counted and found so far. *)
Record ScanState : Type := mkScan {
  st_magic_matches : N;
  st_candidates_validated : N;
  st_candidates : list Exp0002RecoveredCandidate;
}.

(** The body of the loop at one offset. *)
Definition scan_prefix (b : bytes) (validation_limits : ValidationLimits) (limits : Exp0002RecoveryLimits) (s : ScanState) (offset : N)
    : X ScanState :=
  if negb (bool_decide (slice b offset (offset + len FOOTER_MAGIC) = FOOTER_MAGIC)) then Ok s
  else
    let* matches := ok_or (checked_add (st_magic_matches s) 1) ArithmeticOverflow in
    check negb (rl_max_magic_matches limits <? matches) else ResourceLimit "recovery magic matches" in
    let* prefix_len := ok_or (checked_add offset FOOTER_LEN) ArithmeticOverflow in
    if len b <? prefix_len then Ok (mkScan matches (st_candidates_validated s) (st_candidates s))
    else
      let* validated := ok_or (checked_add (st_candidates_validated s) 1) ArithmeticOverflow in
      check negb (rl_max_candidate_validations limits <? validated) else ResourceLimit "recovery candidate validations" in
      match validate_strict (slice b 0 prefix_len) validation_limits with
      | Ok verified =>
          let candidates := st_candidates s ++ [candidate_from_verified prefix_len verified] in
          check negb (rl_max_results limits <? len candidates) else ResourceLimit "recovery results" in
          Ok (mkScan matches validated candidates)
      | Err _ => Ok (mkScan matches validated (st_candidates s))
      end.

Definition scan_valid_prefixes (b : bytes) (validation_limits : ValidationLimits) (limits : Exp0002RecoveryLimits)
    : X Exp0002RecoveryReport :=
  let scan_start := len b - rl_max_scan_bytes limits in
  let bytes_scanned := len b - scan_start in
  let* s :=
    if len FOOTER_MAGIC <=? len b
    then fold_result (scan_prefix b validation_limits limits) (descending scan_start (len b - len FOOTER_MAGIC)) (mkScan 0 0 [])
    else Ok (mkScan 0 0 []) in
  Ok (mkRecoveryReport bytes_scanned (st_magic_matches s) (st_candidates_validated s) (sort_by newest_first (st_candidates s))).

(** ** The chain of previous commits *)

(** [ValidationLimits { max_file_bytes, ..ValidationLimits::default() }] *)
Definition default_limits_for (file_bytes : N) : ValidationLimits :=
  let d := default_validation_limits in
  mkValidationLimits file_bytes (max_commit_bytes d) (max_snapshot_bytes d) (max_pages d) (max_page_depth d) (max_objects d)
    (max_payload_bytes d) (max_hashed_bytes d) (max_roots d) (max_capabilities d).

Definition current_parent_digest (b : bytes) (current : Exp0002RecoveredCandidate) : X bytes :=
  let* verified := validate_strict (slice b 0 (rc_prefix_len current)) (default_limits_for (rc_prefix_len current)) in
  Ok (sn_parent_snapshot_digest (v_snapshot verified)).

(** [while previous_offset != ABSENT_OFFSET]; the previous offsets fall from
    one round to the next and lie in the file. *)
Fixpoint chain_loop (fuel : nat) (b : bytes) (validation_limits : ValidationLimits) (limits : Exp0002RecoveryLimits)
    (chain : list Exp0002RecoveredCandidate) (current : Exp0002RecoveredCandidate) (previous_offset : N) (seen : gset N)
    : X (list Exp0002RecoveredCandidate) :=
  match fuel with
  | O => Err PageCycle
  | S fuel =>
      if previous_offset =? ABSENT_OFFSET then Ok chain
      else
        check negb (rl_max_chain_depth limits <=? len chain) else ResourceLimit "recovery chain depth" in
        check negb (bool_decide (previous_offset ∈ seen)) else InvalidPreviousFooter in
        let seen := {[previous_offset]} ∪ seen in
        let* offset := to_usize previous_offset in
        let* prefix_len := ok_or (checked_add offset FOOTER_LEN) ArithmeticOverflow in
        check negb ((len b <? prefix_len) || (rc_footer_offset current <=? previous_offset)) else InvalidPreviousFooter in
        let* verified := validate_strict (slice b 0 prefix_len) validation_limits in
        let* parent_digest := current_parent_digest b current in
        check bool_decide (ft_snapshot_digest (v_footer verified) = parent_digest) else InvalidParent in
        let* next_sequence := ok_or (checked_add (ft_sequence (v_footer verified)) 1) ArithmeticOverflow in
        check next_sequence =? rc_sequence current else InvalidParent in
        let current := candidate_from_verified prefix_len verified in
        chain_loop fuel b validation_limits limits (chain ++ [current]) current (ft_previous_footer_offset (v_footer verified)) seen
  end.

Definition enumerate_previous_chain (b : bytes) (exact_end : VerifiedExp0002) (validation_limits : ValidationLimits)
    (limits : Exp0002RecoveryLimits) : X (list Exp0002RecoveredCandidate) :=
  let current := candidate_from_verified (len b) exact_end in
  chain_loop (S (S (length b))) b validation_limits limits [current] current (ft_previous_footer_offset (v_footer exact_end))
    {[v_footer_offset exact_end]}.
End Recovery.

(** ** The order of the report *)

#[export] Instance newest_first_total : TotalCmp newest_first.
Proof.
  assert (TotalCmp (fun l r => rc_sequence r ?= rc_sequence l)) by exact (flip_cmp_total (cmp_on rc_sequence N.compare)).
  assert (TotalCmp (fun l r => rc_footer_offset r ?= rc_footer_offset l)) by exact (flip_cmp_total (cmp_on rc_footer_offset N.compare)).
  exact (then_with_total (fun l r => rc_sequence r ?= rc_sequence l) (fun l r => rc_footer_offset r ?= rc_footer_offset l)).
Qed.

Lemma newest_first_spec x y : cmp_le newest_first x y <->
  rc_sequence y < rc_sequence x \/ rc_sequence y = rc_sequence x /\ rc_footer_offset y <= rc_footer_offset x.
Proof.
  unfold cmp_le, newest_first. destruct (N.compare_spec (rc_sequence y) (rc_sequence x)); cbn [then_with]; [|naive_solver lia|naive_solver lia].
  rewrite N.compare_le_iff. naive_solver lia.
Qed.

Definition newer_candidate (x y : Exp0002RecoveredCandidate) : Prop :=
  rc_sequence y < rc_sequence x \/ rc_sequence y = rc_sequence x /\ rc_footer_offset y < rc_footer_offset x.

Lemma sorted_candidates l : NoDup (rc_footer_offset <$> l) -> StronglySorted newer_candidate (sort_by newest_first l).
Proof.
  intros Hn. pose proof (sort_by_Permutation newest_first l) as Hp. pose proof (sort_by_StronglySorted newest_first l) as Hs.
  rewrite <- Hp in Hn. revert Hn Hs. generalize (sort_by newest_first l). clear l Hp. intros l Hn Hs.
  induction Hs as [|x l Hs IH Hf]; [constructor|]. rewrite fmap_cons in Hn. apply NoDup_cons in Hn as [Hx Hn]. constructor; [by apply IH|].
  apply Forall_forall. intros y Hy. pose proof (proj1 (Forall_forall _ _) Hf y Hy) as Hle. apply newest_first_spec in Hle. unfold newer_candidate.
  assert (rc_footer_offset y <> rc_footer_offset x) by (intros E; apply Hx; rewrite <- E; by apply list_elem_of_fmap_2). lia.
Qed.

Section Scan.
Context `{H : Sha256}.
Context (b : bytes) (vl : ValidationLimits) (rl : Exp0002RecoveryLimits).
Context (Hmax : len b <= U64_MAX).

(** ** The scan *)

Definition footer_magic_at (o : N) : Prop := slice b o (o + len FOOTER_MAGIC) = FOOTER_MAGIC.
Definition footer_fits_at (o : N) : Prop := footer_magic_at o /\ o + FOOTER_LEN <= len b.

#[export] Instance footer_magic_at_dec o : Decision (footer_magic_at o).
Proof. unfold footer_magic_at. apply _. Defined.
#[export] Instance footer_fits_at_dec o : Decision (footer_fits_at o).
Proof. unfold footer_fits_at. apply _. Defined.

(** The candidate whose footer is at an offset. *)
Definition valid_at (o : N) : option Exp0002RecoveredCandidate :=
  if decide (footer_fits_at o) then
    match validate_strict (slice b 0 (o + FOOTER_LEN)) vl with Ok v => Some (candidate_from_verified (o + FOOTER_LEN) v) | Err _ => None end
  else None.

Definition scanned (s : ScanState) (offsets : list N) : ScanState :=
  mkScan (st_magic_matches s + len (filter footer_magic_at offsets)) (st_candidates_validated s + len (filter footer_fits_at offsets))
    (st_candidates s ++ omap valid_at offsets).

(** Counts within the limits. *)
Definition scan_within (s : ScanState) : Prop :=
  st_magic_matches s <= rl_max_magic_matches rl /\ st_candidates_validated s <= rl_max_candidate_validations rl /\
  len (st_candidates s) <= rl_max_results rl.

(** A limit that the counts exceed. *)
Inductive scan_exceeded (s : ScanState) : Exp0002Error -> Prop :=
  | exceeded_matches : rl_max_magic_matches rl < st_magic_matches s -> scan_exceeded s (ResourceLimit "recovery magic matches")
  | exceeded_validations : rl_max_candidate_validations rl < st_candidates_validated s ->
      scan_exceeded s (ResourceLimit "recovery candidate validations")
  | exceeded_results : rl_max_results rl < len (st_candidates s) -> scan_exceeded s (ResourceLimit "recovery results").

Lemma scanned_app s o offsets : scanned s (o :: offsets) = scanned (scanned s [o]) offsets.
Proof.
  unfold scanned. cbn [st_magic_matches st_candidates_validated st_candidates]. change (o :: offsets) with ([o] ++ offsets).
  rewrite !filter_app, !len_app, omap_app, !N.add_assoc. by rewrite app_assoc.
Qed.

Lemma scanned_one s o : scanned s [o] =
  mkScan (st_magic_matches s + if decide (footer_magic_at o) then 1 else 0) (st_candidates_validated s + if decide (footer_fits_at o) then 1 else 0)
    (st_candidates s ++ match valid_at o with Some c => [c] | None => [] end).
Proof.
  unfold scanned. rewrite !filter_cons, !filter_nil. f_equal; f_equal; by destruct (decide _).
Qed.

Lemma scanned_grows s offsets : st_magic_matches s <= st_magic_matches (scanned s offsets) /\
  st_candidates_validated s <= st_candidates_validated (scanned s offsets) /\ len (st_candidates s) <= len (st_candidates (scanned s offsets)).
Proof. unfold scanned. cbn [st_magic_matches st_candidates_validated st_candidates]. rewrite len_app. lia. Qed.

Lemma scan_prefix_cases s o : scan_within s -> st_magic_matches s + 1 <= U64_MAX -> st_candidates_validated s + 1 <= U64_MAX -> o + FOOTER_LEN <= U64_MAX ->
  match scan_prefix b vl rl s o with
  | Ok s' => s' = scanned s [o] /\ scan_within s'
  | Err e => scan_exceeded (scanned s [o]) e
  end.
Proof.
  intros (W1 & W2 & W3) Hm Hv Ho. rewrite scanned_one. unfold scan_prefix, valid_at, footer_fits_at, footer_magic_at.
  destruct (bool_decide _) eqn:Emagic; cbn [negb]; [apply bool_decide_eq_true in Emagic|apply bool_decide_eq_false in Emagic].
  2: { rewrite !decide_False by tauto. rewrite !N.add_0_r, app_nil_r. destruct s. split; [done|]. by split_and!. }
  rewrite (decide_True _ _ Emagic). rewrite checked_add_fits by done. cbn [ok_or]. destruct (N.ltb_spec (rl_max_magic_matches rl) (st_magic_matches s + 1)); cbn [negb]; [by constructor|].
  rewrite checked_add_fits by done. cbn [ok_or]. destruct (N.ltb_spec (len b) (o + FOOTER_LEN)) as [Hl|Hl].
  { rewrite !decide_False by (intros [_ ?]; lia). rewrite N.add_0_r, app_nil_r. split; [done|]. by split_and!. }
  rewrite !decide_True by done. rewrite checked_add_fits by done. cbn [ok_or].
  destruct (N.ltb_spec (rl_max_candidate_validations rl) (st_candidates_validated s + 1)); cbn [negb]; [by constructor|].
  destruct (validate_strict _ vl) as [v|e]; [|rewrite app_nil_r; split; [done|]; by split_and!].
  destruct (N.ltb_spec (rl_max_results rl) (len (st_candidates s ++ [candidate_from_verified (o + FOOTER_LEN) v]))); cbn [negb]; [by constructor|].
  split; [done|]. by split_and!.
Qed.

Lemma scan_prefixes_cases offsets s : scan_within s -> st_magic_matches s + len offsets <= U64_MAX -> st_candidates_validated s + len offsets <= U64_MAX ->
  (forall o, o ∈ offsets -> o + FOOTER_LEN <= U64_MAX) ->
  match fold_result (scan_prefix b vl rl) offsets s with
  | Ok s' => s' = scanned s offsets /\ scan_within s'
  | Err e => scan_exceeded (scanned s offsets) e
  end.
Proof.
  revert s. induction offsets as [|o offsets IH]; intros s Hw Hm Hv Ho; cbn [fold_result].
  { unfold scanned. rewrite !filter_nil. destruct s. cbn. by rewrite !N.add_0_r, app_nil_r. }
  rewrite len_cons in Hm, Hv. rewrite scanned_app.
  pose proof (scan_prefix_cases s o Hw ltac:(lia) ltac:(lia) ltac:(apply Ho; by left)) as Hc.
  destruct (scan_prefix b vl rl s o) as [s'|e].
  - destruct Hc as [-> Hw']. apply IH; [done|..]; [| |intros; apply Ho; by right]; rewrite scanned_one;
      cbn [st_magic_matches st_candidates_validated]; destruct (decide _); lia.
  - destruct (scanned_grows (scanned s [o]) offsets) as (? & ? & ?). destruct Hc; constructor; lia.
Qed.

(** Every prefix that validates has its footer's magic at its offset. *)
Lemma valid_prefix_at n v : n <= len b -> validate_strict (slice b 0 n) vl = Ok v ->
  n = v_footer_offset v + FOOTER_LEN /\ valid_at (v_footer_offset v) = Some (candidate_from_verified n v).
Proof.
  intros Hn Hv. pose proof Hv as Hv'. apply validate_strict_Ok in Hv' as (offs & Hsv & _). pose proof (sv_len _ _ _ _ Hsv) as (Hl & _ & _).
  pose proof (sv_footer _ _ _ _ Hsv) as (_ & _ & (Hm & _))%footer_parse_Ok.
  assert (Hlen : len (slice b 0 n) = n) by (rewrite slice_len; lia). rewrite Hlen in Hl. rewrite Hlen in Hm. unfold FOOTER_LEN in *. split; [done|].
  rewrite subslice in Hm by lia. rewrite subslice in Hm by lia. unfold valid_at, footer_fits_at, footer_magic_at, FOOTER_LEN.
  change (len FOOTER_MAGIC) with 8. rewrite !N.add_0_l, N.add_0_r in Hm. rewrite decide_True by (split; [done|lia]). by rewrite <- Hl, Hv.
Qed.

Lemma valid_at_Some o c : valid_at o = Some c <->
  exists v, o + FOOTER_LEN <= len b /\ validate_strict (slice b 0 (o + FOOTER_LEN)) vl = Ok v /\ c = candidate_from_verified (o + FOOTER_LEN) v /\ rc_footer_offset c = o.
Proof.
  split.
  - unfold valid_at. destruct (decide _) as [[Hm Hf]|]; [|done]. destruct (validate_strict _ vl) as [v|] eqn:Ev; [|done]. intros [= <-]. exists v.
    split_and!; [done|done|done|]. destruct (valid_prefix_at _ _ Hf Ev) as [Ho _]. cbn. lia.
  - intros (v & Hl & Hv & -> & Ho). destruct (valid_prefix_at _ _ Hl Hv) as [_ Hva]. cbn in Ho. by rewrite Ho in Hva.
Qed.

(** What a scan reports: exactly the prefixes that validate and whose footers
    start in the window, newest first, within the limits. *)
Record scan_report (rep : Exp0002RecoveryReport) : Prop := {
  sr_found c : c ∈ rr_candidates rep <-> exists n v, n <= len b /\ len b - rl_max_scan_bytes rl + FOOTER_LEN <= n /\
    validate_strict (slice b 0 n) vl = Ok v /\ c = candidate_from_verified n v;
  sr_order : StronglySorted newer_candidate (rr_candidates rep);
  sr_counts : rr_bytes_scanned rep = len b `min` rl_max_scan_bytes rl /\
    len (rr_candidates rep) <= rr_candidates_validated rep <= rr_magic_matches rep;
  sr_limits : rr_magic_matches rep <= rl_max_magic_matches rl /\ rr_candidates_validated rep <= rl_max_candidate_validations rl /\
    len (rr_candidates rep) <= rl_max_results rl;
}.

(** The whole window. *)
Definition window : list N := descending (len b - rl_max_scan_bytes rl) (len b - len FOOTER_MAGIC).

Lemma valid_offsets offsets : StronglySorted newer offsets -> StronglySorted newer (rc_footer_offset <$> omap valid_at offsets).
Proof.
  induction 1 as [|o offsets Hs IH Hf]; [constructor|]. cbn [omap list_omap]. destruct (valid_at o) as [c|] eqn:Ec; [|done].
  rewrite fmap_cons. constructor; [done|]. apply Forall_forall. intros x (c' & -> & (o' & Ho' & Hc')%list_elem_of_omap)%list_elem_of_fmap.
  apply valid_at_Some in Ec as (_ & _ & _ & _ & ->). apply valid_at_Some in Hc' as (_ & _ & _ & _ & ->). by apply (proj1 (Forall_forall _ _) Hf).
Qed.

Lemma newer_NoDup l : StronglySorted newer l -> NoDup l.
Proof.
  induction 1 as [|x l Hs IH Hf]; [constructor|]. constructor; [|done]. intros Hx. pose proof (proj1 (Forall_forall _ _) Hf x Hx) as Hlt. unfold newer in Hlt. lia.
Qed.

Lemma omap_len {A B} (f : A -> option B) (P : A -> Prop) `{forall x, Decision (P x)} l :
  (forall x, ~ P x -> f x = None) -> len (omap f l) <= len (filter P l).
Proof.
  intros Hn. induction l as [|x l IH]; [done|]. rewrite filter_cons. cbn [omap list_omap].
  destruct (decide (P x)) as [|Hx]; [|rewrite Hn by done; done]. destruct (f x); rewrite ?len_cons; lia.
Qed.

Lemma filter_len_mono (P Q : N -> Prop) `{forall x, Decision (P x), forall x, Decision (Q x)} l :
  (forall x, P x -> Q x) -> len (filter P l) <= len (filter Q l).
Proof.
  intros Hpq. induction l as [|x l IH]; [done|]. rewrite !filter_cons. destruct (decide (P x)) as [Hx|]; [rewrite decide_True by auto; rewrite !len_cons; lia|].
  destruct (decide (Q x)); rewrite ?len_cons; lia.
Qed.

Lemma scan_valid_prefixes_cases : len b + FOOTER_LEN <= U64_MAX ->
  match scan_valid_prefixes b vl rl with
  | Ok rep => scan_report rep
  | Err e => scan_exceeded (scanned (mkScan 0 0 []) window) e
  end.
Proof.
  intros Hroom. unfold scan_valid_prefixes, FOOTER_LEN in *. change (len FOOTER_MAGIC) with 8.
  destruct (N.leb_spec 8 (len b)) as [Hl|Hl].
  2: { split; cbn [rr_candidates rr_bytes_scanned rr_magic_matches rr_candidates_validated st_candidates st_magic_matches st_candidates_validated].
    - intros c. split; [intros Hc; by apply elem_of_nil in Hc|]. intros (n & v & Hn & _ & Hv & _). destruct (valid_prefix_at _ _ Hn Hv) as [Hn' _].
      unfold FOOTER_LEN in Hn'. lia.
    - constructor.
    - split; [lia|]. split; done.
    - split_and!; apply N.le_0_l. }
  pose proof (len_descending (len b - rl_max_scan_bytes rl) (len b - 8)) as Hlw.
  assert (Hle : len window <= len b) by (unfold window; change (len FOOTER_MAGIC) with 8; lia).
  assert (Hw0 : scan_within (mkScan 0 0 [])) by (split_and!; apply N.le_0_l).
  pose proof (scan_prefixes_cases window (mkScan 0 0 []) Hw0) as Hc. unfold window in Hc. change (len FOOTER_MAGIC) with 8 in Hc. fold window.
  destruct (fold_result _ _ _) as [s|e].
  - destruct Hc as [-> (W1 & W2 & W3)]; cbn [st_magic_matches st_candidates_validated]; [lia|lia| |].
    { intros o [_ Ho]%elem_of_descending. unfold FOOTER_LEN. lia. }
    unfold scanned in *. cbn [st_magic_matches st_candidates_validated st_candidates app] in *.
    set (w := descending _ _) in *. 
    split; cbn [rr_candidates rr_bytes_scanned rr_magic_matches rr_candidates_validated].
    + intros c. rewrite elem_of_sort_by, list_elem_of_omap. split.
      * intros (o & Ho & (v & Hf & Hv & -> & _)%valid_at_Some). apply elem_of_descending in Ho as [Ho _]. exists (o + FOOTER_LEN), v. split_and!; [done|lia|done|done].
      * intros (n & v & Hn & Hs & Hv & ->). destruct (valid_prefix_at _ _ Hn Hv) as [Hn' Hva]. exists (v_footer_offset v). split; [|done].
        apply elem_of_descending. unfold FOOTER_LEN in *. lia.
    + apply sorted_candidates, newer_NoDup, valid_offsets, descending_sorted.
    + rewrite sort_by_len. split; [lia|]. split.
      * apply (omap_len valid_at footer_fits_at). intros o Ho. unfold valid_at. by rewrite decide_False.
      * apply filter_len_mono. by intros o [].
    + rewrite sort_by_len. split_and!; lia.
  - apply Hc; cbn [st_magic_matches st_candidates_validated]; [lia|lia|].
    intros o [_ Ho]%elem_of_descending. unfold FOOTER_LEN. lia.
Qed.
End Scan.

(** ** The chain of previous commits *)

Section Chain.
Context `{H : Sha256}.

Context (b : bytes) (vl : ValidationLimits) (rl : Exp0002RecoveryLimits).
Context (Hmax : len b + FOOTER_LEN <= U64_MAX).

(** A commit ends at [n]: the prefix of that length validates. *)
Definition commit_end (n : N) (w : VerifiedExp0002) : Prop := n <= len b /\ validate_strict (slice b 0 n) vl = Ok w.

(** The commits from the one that ends at [n] back to the first. *)
Inductive previous_chain : N -> list Exp0002RecoveredCandidate -> Prop :=
  | chain_first n w : commit_end n w -> ft_previous_footer_offset (v_footer w) = ABSENT_OFFSET ->
      previous_chain n [candidate_from_verified n w]
  | chain_next n w cs : commit_end n w -> ft_previous_footer_offset (v_footer w) + FOOTER_LEN < n ->
      previous_chain (ft_previous_footer_offset (v_footer w) + FOOTER_LEN) cs -> previous_chain n (candidate_from_verified n w :: cs).

(** The commit before one, when the prefix it ends at validates. *)
Lemma previous_commit n w : commit_end n w -> ft_previous_footer_offset (v_footer w) <> ABSENT_OFFSET ->
  ft_previous_footer_offset (v_footer w) + FOOTER_LEN <= v_footer_offset w /\ n = v_footer_offset w + FOOTER_LEN /\
  1 <= ft_sequence (v_footer w) /\
  forall w', commit_end (ft_previous_footer_offset (v_footer w) + FOOTER_LEN) w' ->
    ft_snapshot_digest (v_footer w') = sn_parent_snapshot_digest (v_snapshot w) /\ ft_sequence (v_footer w) = ft_sequence (v_footer w') + 1 /\
    v_footer_offset w' = ft_previous_footer_offset (v_footer w).
Proof.
  intros [Hn Hw] Hprev. apply validate_strict_Ok in Hw as (offs & Hsv & _). destruct (sv_len _ _ _ _ Hsv) as (Hl & _ & _).
  pose proof (sv_parent _ _ _ _ Hsv) as Hp. unfold parent_linked in Hp. rewrite (proj2 (N.eqb_neq _ _) Hprev) in Hp.
  destruct Hp as (Hle & _ & pf & Hpf & Hd & Hs). rewrite slice_len in Hl by lia. rewrite N.sub_0_r in Hl.
  split_and!; [done|done|lia|]. intros w' [Hm Hw']. apply validate_strict_Ok in Hw' as (offs' & Hsv' & _).
  destruct (sv_len _ _ _ _ Hsv') as (Hl' & _ & _). rewrite slice_len, N.sub_0_r in Hl' by lia. unfold FOOTER_LEN in *.
  assert (Ho : v_footer_offset w' = ft_previous_footer_offset (v_footer w)) by lia. pose proof (sv_footer _ _ _ _ Hsv') as Hf'.
  rewrite slice_len, N.sub_0_r, Ho in Hf' by lia. rewrite subslice, !N.add_0_l in Hf' by lia. rewrite subslice, !N.add_0_l in Hpf by lia.
  assert (v_footer w' = pf) as -> by congruence. done.
Qed.

Lemma first_commit n w : commit_end n w -> ft_previous_footer_offset (v_footer w) = ABSENT_OFFSET -> ft_sequence (v_footer w) = 0.
Proof.
  intros [Hn Hw] Hprev. apply validate_strict_Ok in Hw as (offs & Hsv & _). pose proof (sv_parent _ _ _ _ Hsv) as Hp.
  unfold parent_linked in Hp. by rewrite Hprev, N.eqb_refl in Hp; destruct Hp.
Qed.

(** A chain holds one commit for each sequence number, down to zero. *)
Lemma chain_sequences n w cs : commit_end n w -> previous_chain n cs -> len cs = ft_sequence (v_footer w) + 1 /\
  forall i c, cs !! i = Some c -> rc_sequence c + N.of_nat i = ft_sequence (v_footer w).
Proof.
  intros Hw Hc. revert w Hw. induction Hc as [n w' Hw' Ha|n w' cs Hw' Hlt Hc IH]; intros w Hw.
  - assert (w' = w) as -> by (destruct Hw, Hw'; congruence). rewrite (first_commit _ _ Hw Ha). split; [done|].
    intros [|i] c Hi; [|done]. injection Hi as <-. cbn. by rewrite (first_commit _ _ Hw Ha).
  - assert (w' = w) as -> by (destruct Hw, Hw'; congruence).
    assert (Hprev : ft_previous_footer_offset (v_footer w) <> ABSENT_OFFSET) by (intros E; rewrite E in Hlt; destruct Hw; unfold ABSENT_OFFSET, U64_MAX in *; lia).
    destruct (previous_commit _ _ Hw Hprev) as (_ & _ & _ & Hnext).
    assert (Hp : exists w'', commit_end (ft_previous_footer_offset (v_footer w) + FOOTER_LEN) w'') by (inversion Hc; eauto).
    destruct Hp as [w'' Hw'']. destruct (Hnext _ Hw'') as (_ & Hs & _). destruct (IH _ Hw'') as [Hl Hi]. split; [rewrite len_cons; lia|].
    intros [|i] c Hci; [injection Hci as <-; cbn; lia|]. specialize (Hi i c Hci). lia.
Qed.

(** What can stop the enumeration of the commits before [n], with [k] listed:
    the depth, a previous prefix that does not validate, or one that does not
    under the default limits. *)
Inductive chain_broken (n k : N) (w : VerifiedExp0002) : Exp0002Error -> Prop :=
  | broken_depth : rl_max_chain_depth rl < k + ft_sequence (v_footer w) -> chain_broken n k w (ResourceLimit "recovery chain depth")
  | broken_prefix m e : m < n -> validate_strict (slice b 0 m) vl = Err e -> chain_broken n k w e
  | broken_default m w' e : m <= n -> commit_end m w' -> validate_strict (slice b 0 m) (default_limits_for m) = Err e -> chain_broken n k w e.

Lemma commit_chain_cases fuel : forall n w chain seen, commit_end n w -> (forall o, o ∈ seen -> v_footer_offset w <= o) ->
  (N.to_nat (v_footer_offset w) < fuel)%nat ->
  match chain_loop fuel b vl rl chain (candidate_from_verified n w) (ft_previous_footer_offset (v_footer w)) seen with
  | Ok r => exists cs, previous_chain n (candidate_from_verified n w :: cs) /\ r = chain ++ cs
  | Err e => chain_broken n (len chain) w e
  end.
Proof.
  assert (HFL : FOOTER_LEN = 160) by done.
  induction fuel as [|fuel IH]; intros n w chain seen Hw Hseen Hfuel; [lia|]. cbn [chain_loop].
  destruct (N.eqb_spec (ft_previous_footer_offset (v_footer w)) ABSENT_OFFSET) as [Ha|Hprev].
  { exists []. rewrite app_nil_r. split; [by constructor|done]. }
  destruct (previous_commit _ _ Hw Hprev) as (Hle & Hn & Hs1 & Hnext). pose proof Hw as [Hnb Hvw]. set (p := ft_previous_footer_offset (v_footer w)) in *.
  destruct (N.leb_spec (rl_max_chain_depth rl) (len chain)); cbn [negb]; [by apply broken_depth; lia|].
  rewrite bool_decide_eq_false_2 by (intros Hp%Hseen; lia). cbn [negb]. unfold to_usize.
  rewrite try_u64_fits by (lia). cbn [ok_or]. rewrite checked_add_fits by lia. cbn [ok_or].
  rewrite (proj2 (N.ltb_ge (len b) _)) by lia. cbn [candidate_from_verified rc_footer_offset rc_sequence]. rewrite (proj2 (N.leb_gt _ _)) by (lia).
  cbn [orb negb]. destruct (validate_strict (slice b 0 (p + FOOTER_LEN)) vl) as [w'|e] eqn:Ew'; [|apply (broken_prefix _ _ _ (p + FOOTER_LEN)); [lia|done]].
  assert (Hw' : commit_end (p + FOOTER_LEN) w') by (split; [lia|done]). destruct (Hnext _ Hw') as (Hd & Hs & Ho).
  unfold current_parent_digest. cbn [candidate_from_verified rc_prefix_len].
  destruct (validate_strict (slice b 0 n) (default_limits_for n)) as [w''|e] eqn:Ew''; [|by apply (broken_default _ _ _ n w)].
  pose proof (validate_strict_agree _ _ _ _ _ Ew'' Hvw) as ->. rewrite Hd, bool_decide_eq_true_2 by done.
  assert (Hsq : ft_sequence (v_footer w) <= U64_MAX).
  { apply validate_strict_Ok in Hvw as (offs & Hsv & _). apply (proj1 (footer_parse_Ok _ _) (sv_footer _ _ _ _ Hsv)). }
  rewrite checked_add_fits by lia. cbn [ok_or]. rewrite <- Hs, N.eqb_refl. 
  specialize (IH (p + FOOTER_LEN) w' (chain ++ [candidate_from_verified (p + FOOTER_LEN) w']) ({[p]} ∪ seen) Hw').
  destruct (chain_loop fuel _ _ _ _ _ _ _) as [r|e].
  - destruct IH as (cs & Hc & ->); [|lia|].
    { intros o [->%elem_of_singleton|Hos%Hseen]%elem_of_union; lia. }
    exists (candidate_from_verified (p + FOOTER_LEN) w' :: cs). split; [|by rewrite <- app_assoc]. apply chain_next; [done|fold p; lia|done].
  - destruct IH as [Hdep|m e Hm He|m w3 e Hm Hw3 He]; [|lia|..].
    { intros o [->%elem_of_singleton|Hos%Hseen]%elem_of_union; lia. }
    + apply broken_depth. rewrite len_app in Hdep. change (len [candidate_from_verified (p + FOOTER_LEN) w']) with 1 in Hdep. lia.
    + apply (broken_prefix _ _ _ m); [lia|done].
    + apply (broken_default _ _ _ m w3); [lia|done|done].
Qed.

Lemma enumerate_previous_chain_cases v : validate_strict b vl = Ok v ->
  match enumerate_previous_chain b v vl rl with
  | Ok chain => previous_chain (len b) chain /\ len chain = ft_sequence (v_footer v) + 1
  | Err e => chain_broken (len b) 1 v e
  end.
Proof.
  intros Hv. assert (Hw : commit_end (len b) v) by (split; [done|by rewrite slice_all]).
  assert (Hfo : v_footer_offset v < len b).
  { apply validate_strict_Ok in Hv as (offs & Hsv & _). destruct (sv_len _ _ _ _ Hsv) as (Hl & _). unfold FOOTER_LEN in *. lia. }
  unfold enumerate_previous_chain.
  pose proof (commit_chain_cases (S (S (length b))) (len b) v [candidate_from_verified (len b) v] {[v_footer_offset v]} Hw) as Hc.
  destruct (chain_loop _ _ _ _ _ _ _ _) as [r|e].
  - destruct Hc as (cs & Hc & ->); [by intros o ->%elem_of_singleton|unfold len in *; lia|]. split; [done|]. by destruct (chain_sequences _ _ _ Hw Hc).
  - apply Hc; [by intros o ->%elem_of_singleton|unfold len in *; lia].
Qed.
End Chain.
