(* ===== verification/Exp0002Rewrite.v ===== *)
(** Rewriting an EXP-0002 file into a new one ([exp0002_rewrite.rs]): the
    repair that keeps every object and the selection of some. The new file is
    the genesis of exactly the objects retained, payloads included, and every
    refusal is explained. *)

From Stdlib Require Import Strings.Byte Strings.String NArith ZArith Lia.
From stdpp Require Import base list gmap strings sorting.
From S2P Require Import Prelude Order Digest Exp0002 Exp0002File Exp0002Pages Exp0002Strict Exp0002Levels Exp0002RoundTrip Exp0002Lookup.

Local Open Scope N_scope.

Record RewriteLimits : Type := mkRewriteLimits {
  rw_validation : ValidationLimits;
  rw_max_objects_copied : N;
  rw_max_payload_bytes_copied : N;
  rw_max_output_bytes : N;
}.

Definition default_rewrite_limits : RewriteLimits :=
  mkRewriteLimits default_validation_limits 10000000 (16 * 1024 * 1024 * 1024) (16 * 1024 * 1024 * 1024).

Record RewriteReport : Type := mkRewriteReport {
  rp_output : bytes;
  rp_source_snapshot_digest : bytes;
  rp_output_snapshot_digest : bytes;
  rp_source_commit_digest : bytes;
  rp_output_commit_digest : bytes;
  rp_snapshot_digest_preserved : bool;
  rp_commit_digest_preserved : bool;
  rp_byte_scoped_signatures_preserved : bool;
  rp_source_object_count : N;
  rp_output_object_count : N;
  rp_payload_bytes_copied : N;
}.

Definition validate_canonical_ids (values : list N) (name : string) : X unit :=
  let e := if bool_decide (name = "output roots"%string) then InvalidRoot else InvalidObjectId in
  check negb (bool_decide (head values = Some 0)) else e in
  no_window (fun x y => y <=? x) e values.

Section Rewrite.
Context `{Sha256}.

(** The body of the loop for one retained entry, with the payload bytes and the
    inputs so far. *)
Definition copy_entry (source : bytes) (roots : gset N) (limits : RewriteLimits) (s : N * list ObjectInput) (entry : LeafEntry)
    : X (N * list ObjectInput) :=
  let* payload_len := ok_or (checked_sub (le_record_len entry) OBJECT_HEADER_LEN) (InvalidLength "object record") in
  let* payload_bytes_copied := ok_or (checked_add s.1 payload_len) ArithmeticOverflow in
  check negb (rw_max_payload_bytes_copied limits <? payload_bytes_copied) else ResourceLimit "rewrite payload bytes" in
  let* payload_start := ok_or (checked_add (le_record_offset entry) OBJECT_HEADER_LEN) ArithmeticOverflow in
  let* payload_end := ok_or (checked_add payload_start payload_len) ArithmeticOverflow in
  let* start := to_usize payload_start in
  let* end_ := to_usize payload_end in
  let* payload := ok_or (get_range source start end_) Truncated in
  Ok (payload_bytes_copied,
      s.2 ++ [mkObjectInput (le_object_id entry) (le_kind entry) payload (bool_decide (le_object_id entry ∈ roots))]).

Definition rewrite_verified (source : bytes) (verified : VerifiedExp0002) (output_header : FileHeader)
    (retained_object_ids output_roots : list N) (limits : RewriteLimits) : X RewriteReport :=
  check negb (rw_max_objects_copied limits <? len retained_object_ids) else ResourceLimit "rewrite objects" in
  let retained : gset N := list_to_set retained_object_ids in
  let roots : gset N := list_to_set output_roots in
  let* (payload_bytes_copied, inputs) :=
    fold_result (copy_entry source roots limits) (filter (fun entry => le_object_id entry ∈ retained) (v_objects verified)) (0, []) in
  check len inputs =? len retained_object_ids else InvalidObjectId in
  let* output := build_genesis output_header inputs in
  let* output_len := ok_or (try_u64 (len output)) ArithmeticOverflow in
  check negb (rw_max_output_bytes limits <? output_len) else ResourceLimit "rewrite output bytes" in
  let* output_verified := validate_strict output (rw_validation limits) in
  let source_snapshot_digest := ft_snapshot_digest (v_footer verified) in
  let output_snapshot_digest := ft_snapshot_digest (v_footer output_verified) in
  let source_commit_digest := ft_commit_digest (v_footer verified) in
  let output_commit_digest := ft_commit_digest (v_footer output_verified) in
  Ok (mkRewriteReport output source_snapshot_digest output_snapshot_digest source_commit_digest output_commit_digest
        (bool_decide (source_snapshot_digest = output_snapshot_digest)) (bool_decide (source_commit_digest = output_commit_digest))
        false (len (v_objects verified)) (len (v_objects output_verified)) payload_bytes_copied).

Definition repair_all_to_new_file (source : bytes) (output_header : FileHeader) (limits : RewriteLimits) : X RewriteReport :=
  let* verified := validate_strict source (rw_validation limits) in
  let retained := le_object_id <$> v_objects verified in
  rewrite_verified source verified output_header retained (sn_roots (v_snapshot verified)) limits.

Definition rewrite_selected_to_new_file (source : bytes) (output_header : FileHeader) (retained_object_ids output_roots : list N)
    (limits : RewriteLimits) : X RewriteReport :=
  let* verified := validate_strict source (rw_validation limits) in
  let* _ := validate_canonical_ids retained_object_ids "retained object identifiers" in
  let* _ := validate_canonical_ids output_roots "output roots" in
  check negb (bool_decide (retained_object_ids = [])) else EmptyObjectSet in
  check negb (bool_decide (output_roots = [])) else NoRootObjects in
  let retained : gset N := list_to_set retained_object_ids in
  check forallb (fun root => bool_decide (root ∈ retained)) output_roots else InvalidRoot in
  let available : gset N := list_to_set (le_object_id <$> v_objects verified) in
  check forallb (fun object_id => bool_decide (object_id ∈ available)) retained_object_ids else InvalidObjectId in
  rewrite_verified source verified output_header retained_object_ids output_roots limits.
End Rewrite.

(** ** Canonical identifier lists *)

Definition canonical (ids : list N) : Prop := StronglySorted N.lt ids /\ 0 ∉ ids.

Lemma canonical_NoDup ids : StronglySorted N.lt ids -> NoDup ids.
Proof.
  induction 1 as [|x ids Hs IH Hf]; [constructor|]. constructor; [|done]. intros Hx. pose proof (proj1 (Forall_forall _ _) Hf x Hx). lia.
Qed.

Lemma validate_canonical_ids_cases ids name :
  match validate_canonical_ids ids name with
  | Ok _ => canonical ids
  | Err e => ~ canonical ids /\ e = if bool_decide (name = "output roots"%string) then InvalidRoot else InvalidObjectId
  end.
Proof.
  unfold validate_canonical_ids. set (e := if bool_decide _ then _ else _). case_bool_decide as Hh; cbn [negb].
  { split; [|done]. intros [_ H0]. destruct ids as [|x ids]; [done|]. injection Hh as ->. apply H0. by left. }
  destruct (no_window _ e ids) as [u|e'] eqn:Ew.
  - apply no_window_Ok in Ew. assert (Hs : StronglySorted N.lt ids).
    { apply Sorted_StronglySorted; [intros x y z; lia|]. eapply Sorted_mono; [|exact Ew]. intros x y. cbv beta. by rewrite N.leb_gt. }
    split; [done|]. intros H0. destruct Hs as [|x ids Hs Hf]; [by apply elem_of_nil in H0|]. apply elem_of_cons in H0 as [E|H0]; [apply Hh; by rewrite <- E|].
    pose proof (proj1 (Forall_forall _ _) Hf 0 H0). lia.
  - pose proof (no_window_error _ _ _ _ Ew) as ->. split; [|done]. intros [Hs _].
    assert (Hok : no_window (fun x y => y <=? x) e ids = Ok tt); [|congruence]. apply no_window_Ok.
    eapply Sorted_mono; [|apply StronglySorted_Sorted, Hs]. intros x y. cbv beta. by rewrite N.leb_gt.
Qed.

(** Two lists in strict order with the same elements are equal. *)
Lemma strict_order_unique (l k : list N) : StronglySorted N.lt l -> StronglySorted N.lt k -> (forall x, x ∈ l <-> x ∈ k) -> l = k.
Proof.
  intros Hl Hk He. apply (StronglySorted_unique_strong N.lt); [intros x y _ _; lia|done|done|]. apply NoDup_Permutation; [by apply canonical_NoDup..|done].
Qed.

Section Rewrite.
Context `{H : Sha256, !Sha256Ok H}.
Implicit Types b source : bytes.

(** ** Copying *)

Definition payload_of source (e : LeafEntry) : bytes :=
  slice source (le_record_offset e + OBJECT_HEADER_LEN) (le_record_offset e + le_record_len e).

Definition input_of source (roots : gset N) (e : LeafEntry) : ObjectInput :=
  mkObjectInput (le_object_id e) (le_kind e) (payload_of source e) (bool_decide (le_object_id e ∈ roots)).

Lemma payload_of_len source e : record_present source e -> len (payload_of source e) = le_logical_len e.
Proof. intros (H1 & _ & H2 & _). unfold payload_of, OBJECT_HEADER_LEN in *. rewrite slice_len; lia. Qed.

Lemma copy_entries_cases source roots limits es total inputs : Forall (record_present source) es ->
  total + sum_of le_logical_len es <= U64_MAX ->
  match fold_result (copy_entry source roots limits) es (total, inputs) with
  | Ok s => s = (total + sum_of le_logical_len es, inputs ++ (input_of source roots <$> es))
  | Err e => e = ResourceLimit "rewrite payload bytes" /\ rw_max_payload_bytes_copied limits < total + sum_of le_logical_len es
  end.
Proof.
  intros Hf. revert total inputs. induction Hf as [|e es He Hf IH]; intros total inputs Hmax; cbn [fold_result].
  { cbn. by rewrite N.add_0_r, app_nil_r. }
  cbn [sum_of foldr] in *. fold (sum_of le_logical_len es) in *. pose proof (payload_of_len _ _ He) as Hpl. pose proof He as (H1 & H2 & H3 & _).
  unfold copy_entry at 1. unfold OBJECT_HEADER_LEN in *. unfold checked_sub. rewrite (proj2 (N.leb_le _ _)) by lia. cbn [ok_or fst snd].
  rewrite H3. replace (48 + le_logical_len e - 48) with (le_logical_len e) by lia. rewrite checked_add_fits by lia. cbn [ok_or].
  destruct (N.ltb_spec (rw_max_payload_bytes_copied limits) (total + le_logical_len e)); cbn [negb]; [split; [done|lia]|].
  rewrite checked_add_fits by lia. cbn [ok_or]. rewrite checked_add_fits by lia. cbn [ok_or]. unfold to_usize. rewrite !try_u64_fits by lia. cbn [ok_or].
  assert (Hget : get_range source (le_record_offset e + 48) (le_record_offset e + 48 + le_logical_len e) = Some (payload_of source e)).
  { unfold get_range, payload_of, OBJECT_HEADER_LEN. rewrite !(proj2 (N.leb_le _ _)) by lia. cbn [andb]. rewrite H3, N.add_assoc. done. }
  rewrite Hget. cbn [ok_or]. specialize (IH (total + le_logical_len e) (inputs ++ [input_of source roots e]) ltac:(lia)).
  change (mkObjectInput (le_object_id e) (le_kind e) (payload_of source e) (bool_decide (le_object_id e ∈ roots))) with (input_of source roots e).
  destruct (fold_result _ _ _) as [s|err]; [|destruct IH; split; [done|lia]]. rewrite IH, fmap_cons, <- app_assoc, N.add_assoc. done.
Qed.

(** ** The new file *)

(** The entries of the retained objects. *)
Definition retained_entries (v : VerifiedExp0002) (ids : list N) : list LeafEntry :=
  filter (fun e => le_object_id e ∈ (list_to_set ids : gset N)) (v_objects v).

(** An object of the source and its copy in the output. *)
Definition copied source output (e e' : LeafEntry) : Prop :=
  le_object_id e' = le_object_id e /\ le_kind e' = le_kind e /\ le_logical_len e' = le_logical_len e /\ payload_of output e' = payload_of source e.

(** What a rewrite reports. *)
Record rewritten source (v : VerifiedExp0002) (header : FileHeader) (ids roots : list N) (limits : RewriteLimits) (rep : RewriteReport)
    (v' : VerifiedExp0002) : Prop := {
  re_valid : validate_strict (rp_output rep) (rw_validation limits) = Ok v';
  re_header : v_header v' = header;
  re_genesis : sn_sequence (v_snapshot v') = 0 /\ sn_parent_snapshot_digest (v_snapshot v') = zeros 32;
  re_roots : sn_roots (v_snapshot v') = roots;
  re_objects : Forall2 (copied source (rp_output rep)) (retained_entries v ids) (v_objects v');
  re_digests : rp_source_snapshot_digest rep = ft_snapshot_digest (v_footer v) /\ rp_output_snapshot_digest rep = ft_snapshot_digest (v_footer v') /\
    rp_source_commit_digest rep = ft_commit_digest (v_footer v) /\ rp_output_commit_digest rep = ft_commit_digest (v_footer v');
  re_preserved : (rp_snapshot_digest_preserved rep = true <-> rp_source_snapshot_digest rep = rp_output_snapshot_digest rep) /\
    (rp_commit_digest_preserved rep = true <-> rp_source_commit_digest rep = rp_output_commit_digest rep) /\
    rp_byte_scoped_signatures_preserved rep = false;
  re_counts : rp_source_object_count rep = len (v_objects v) /\ rp_output_object_count rep = len ids /\
    rp_payload_bytes_copied rep = sum_of le_logical_len (retained_entries v ids);
  re_limits : len ids <= rw_max_objects_copied limits /\ len (rp_output rep) <= rw_max_output_bytes limits;
}.

(** Why the copy may be refused. *)
Inductive rewrite_refused source (v : VerifiedExp0002) (header : FileHeader) (ids roots : list N) (limits : RewriteLimits) : Exp0002Error -> Prop :=
  | refused_objects : rw_max_objects_copied limits < len ids ->
      rewrite_refused source v header ids roots limits (ResourceLimit "rewrite objects")
  | refused_payload : rw_max_payload_bytes_copied limits < sum_of le_logical_len (retained_entries v ids) ->
      rewrite_refused source v header ids roots limits (ResourceLimit "rewrite payload bytes")
  | refused_output output : build_genesis header (input_of source (list_to_set roots) <$> retained_entries v ids) = Ok output ->
      rw_max_output_bytes limits < len output -> rewrite_refused source v header ids roots limits (ResourceLimit "rewrite output bytes")
  | refused_invalid output e : build_genesis header (input_of source (list_to_set roots) <$> retained_entries v ids) = Ok output ->
      validate_strict output (rw_validation limits) = Err e -> rewrite_refused source v header ids roots limits e.

(** Room for the copy of any objects of a file, twice over. *)
Definition rewrite_room (v : VerifiedExp0002) : N :=
  4 * (FILE_HEADER_LEN + v_bytes_hashed v + commit_room (len (v_objects v)) (len (v_objects v))).

Lemma retained_ids v ids : leaf_ordered (v_objects v) -> StronglySorted N.lt ids -> (forall i, i ∈ ids -> i ∈ le_object_id <$> v_objects v) ->
  le_object_id <$> retained_entries v ids = ids.
Proof.
  intros Ho Hs Hin. unfold retained_entries. apply strict_order_unique; [|done|].
  - clear Hin. revert Ho. generalize (v_objects v). induction 1 as [|e es Ho IH Hf]; [constructor|]. rewrite filter_cons.
    destruct (decide _); [|done]. rewrite fmap_cons. constructor; [done|]. apply Forall_fmap, Forall_forall. intros x [_ Hx]%list_elem_of_filter.
    by apply (proj1 (Forall_forall _ _) Hf).
  - intros x. split.
    + intros (e & -> & [He _]%list_elem_of_filter)%list_elem_of_fmap. by apply elem_of_list_to_set in He.
    + intros Hx. destruct (proj1 (list_elem_of_fmap _ _ _) (Hin x Hx)) as (e & -> & He). apply list_elem_of_fmap_2. apply list_elem_of_filter.
      split; [by apply elem_of_list_to_set|done].
Qed.

Lemma sum_of_filter {A} (f : A -> N) (P : A -> Prop) `{forall x, Decision (P x)} l : sum_of f (filter P l) <= sum_of f l.
Proof.
  induction l as [|x l IH]; [done|]. rewrite filter_cons. cbn [sum_of foldr]. fold (sum_of f l).
  destruct (decide (P x)); cbn [sum_of foldr]; fold (sum_of f (filter P l)); lia.
Qed.

Lemma snapshot_roots_sorted b limits v : validate_strict b limits = Ok v -> StronglySorted N.lt (sn_roots (v_snapshot v)) /\ 0 ∉ sn_roots (v_snapshot v).
Proof.
  intros (offs & Hsv & _)%validate_strict_Ok. pose proof (snapshot_parse_facts _ _ _ (sv_snapshot _ _ _ _ Hsv)) as (_ & _ & _ & _ & _ & Ha).
  unfold validate_arrays in Ha. step_result Ha. match goal with E : validate_sorted_unique (sn_roots _) _ = _ |- _ => rename E into Hr end.
  pose proof (validate_canonical_ids_cases (sn_roots (v_snapshot v)) "output roots") as Hc.
  change (validate_canonical_ids (sn_roots (v_snapshot v)) "output roots") with (validate_sorted_unique (sn_roots (v_snapshot v)) InvalidRoot) in Hc.
  by rewrite Hr in Hc.
Qed.

Lemma inputs_ids source roots (es : list LeafEntry) : oi_object_id <$> (input_of source roots <$> es) = le_object_id <$> es.
Proof. rewrite <- list_fmap_compose. done. Qed.

Lemma inputs_root_ids source roots (es : list LeafEntry) : root_ids (input_of source roots <$> es) = filter (fun i => i ∈ roots) (le_object_id <$> es).
Proof.
  unfold root_ids. induction es as [|e es IH]; [done|]. rewrite !fmap_cons, !filter_cons. cbn [input_of oi_is_root].
  destruct (decide (le_object_id e ∈ roots)) as [Hi|Hi]; [rewrite decide_True by (by apply bool_decide_eq_true_2)|rewrite decide_False by (by rewrite bool_decide_eq_true)];
    [rewrite fmap_cons; cbn [input_of oi_object_id]; by rewrite IH|done].
Qed.

Lemma filter_order (P : N -> Prop) `{forall x, Decision (P x)} l : StronglySorted N.lt l -> StronglySorted N.lt (filter P l).
Proof.
  induction 1 as [|x l Hs IH Hf]; [constructor|]. rewrite filter_cons. destruct (decide _); [|done]. constructor; [done|].
  apply Forall_forall. intros y [_ Hy]%list_elem_of_filter. by apply (proj1 (Forall_forall _ _) Hf).
Qed.

Lemma inputs_roots source ids roots (es : list LeafEntry) : le_object_id <$> es = ids -> StronglySorted N.lt ids -> canonical roots ->
  (forall r, r ∈ roots -> r ∈ ids) -> root_ids (input_of source (list_to_set roots) <$> es) = roots.
Proof.
  intros Hids Hs [Hr _] Hin. rewrite inputs_root_ids, Hids. apply strict_order_unique; [by apply filter_order|done|].
  intros x. rewrite list_elem_of_filter, elem_of_list_to_set. naive_solver.
Qed.

Lemma inputs_sums source roots (es : list LeafEntry) : Forall (record_present source) es ->
  sum_of record_size (input_of source roots <$> es) = sum_of le_record_len es /\
  sum_of (fun o => len (oi_payload o)) (input_of source roots <$> es) = sum_of le_logical_len es.
Proof.
  induction 1 as [|e es He Hf [IH1 IH2]]; [done|]. pose proof (payload_of_len _ _ He) as Hp. destruct He as (_ & _ & Hl & _). unfold sum_of in *.
  rewrite fmap_cons. cbn [foldr]. rewrite IH1, IH2. unfold record_size. cbn [input_of oi_payload]. rewrite Hp, Hl. done.
Qed.

(** The limits that leave every file below [2^64] bytes room. *)
Definition all_room : ValidationLimits := mkValidationLimits U64_MAX U64_MAX U64_MAX U64_MAX U64_MAX U64_MAX U64_MAX U64_MAX U64_MAX U64_MAX.

Lemma all_roomy size n r payload : 2 * size + OBJECT_HEADER_LEN * n + payload <= U64_MAX -> SNAPSHOT_HEADER_LEN + 8 * r <= U64_MAX -> 3 * n + 1 <= U64_MAX ->
  roomy all_room size n r payload.
Proof.
  intros H1 H2 H3. assert (Hlog : N.log2_up n <= n) by (destruct (N.eq_dec n 0) as [->|]; [done|apply N.log2_up_le_lin; lia]).
  unfold OBJECT_HEADER_LEN, SNAPSHOT_HEADER_LEN in *. split; unfold OBJECT_HEADER_LEN, SNAPSHOT_HEADER_LEN; cbn; lia.
Qed.

Section Copy.
Context (source : bytes) (v : VerifiedExp0002) (limits : RewriteLimits) (header : FileHeader) (ids roots : list N).
Context (Hv : validate_strict source (rw_validation limits) = Ok v) (Hheader : file_header_ok header).
Context (Hids : canonical ids) (Hne : ids <> []) (Hin : forall i, i ∈ ids -> i ∈ le_object_id <$> v_objects v).
Context (Hroots : canonical roots) (Hrne : roots <> []) (Hrin : forall r, r ∈ roots -> r ∈ ids).
Context (Hn : len (v_objects v) <= U32_MAX) (Hroom : rewrite_room v <= U64_MAX).

Let kept := retained_entries v ids.
Let inputs := input_of source (list_to_set roots) <$> kept.

(** What the copy relies on. *)
Lemma kept_facts : Forall (record_present source) kept /\ Forall leaf_ok kept /\ leaf_ordered kept /\ le_object_id <$> kept = ids /\
  len kept = len ids /\ len ids <= len (v_objects v) /\ sum_of le_record_len kept <= v_bytes_hashed v /\ sum_of le_logical_len kept <= v_bytes_hashed v.
Proof.
  apply validate_strict_Ok in Hv as (offs & Hsv & Hsa). destruct (dtree_ordered _ _ _ _ _ _ (sv_tree _ _ _ _ Hsv)) as (Ho & Hok & _ & _).
  destruct (sv_records _ _ _ _ Hsv) as (Hrec & _). destruct Hids as [Hs _]. pose proof (retained_ids v ids Ho Hs Hin) as Hri.
  assert (Hsub : forall e, e ∈ kept -> e ∈ v_objects v) by (by intros e [_ He]%list_elem_of_filter).
  assert (Hlen : len kept = len ids) by (rewrite <- Hri, len_fmap; done).
  pose proof (sum_of_filter le_record_len (fun e => le_object_id e ∈ (list_to_set ids : gset N)) (v_objects v)) as Hsum.
  fold (retained_entries v ids) in Hsum. fold kept in Hsum.
  assert (Hrk : Forall (record_present source) kept) by (apply Forall_forall; intros e He; apply (proj1 (Forall_forall _ _) Hrec); auto).
  pose proof (record_len_sum source kept Hrk) as Hls. destruct (sv_reported _ _ _ _ Hsv) as [_ Hh].
  split_and!; [done| | |done|done| |lia|lia].
  - apply Forall_forall; intros e He; apply (proj1 (Forall_forall _ _) Hok); auto.
  - unfold leaf_ordered, kept, retained_entries. clear -Ho. induction Ho as [|e es Ho IH Hf]; [constructor|]. rewrite filter_cons. destruct (decide _); [|done].
    constructor; [done|]. apply Forall_forall. intros x [_ Hx]%list_elem_of_filter. by apply (proj1 (Forall_forall _ _) Hf).
  - rewrite <- Hlen. unfold kept, retained_entries, len. pose proof (length_filter (fun e => le_object_id e ∈ (list_to_set ids : gset N)) (v_objects v)). lia.
Qed.

Lemma inputs_room : genesis_room inputs <= FILE_HEADER_LEN + v_bytes_hashed v + commit_room (len (v_objects v)) (len (v_objects v)).
Proof.
  destruct kept_facts as (Hrec & _ & _ & _ & Hlen & Hle & Hsum & _). destruct (inputs_sums source (list_to_set roots) kept Hrec) as [Hrs _].
  unfold genesis_room. fold inputs in Hrs. rewrite Hrs. assert (Hli : len inputs = len ids) by (unfold inputs; by rewrite len_fmap). rewrite Hli.
  unfold commit_room, PAGE_SIZE. lia.
Qed.

(** The genesis of the copies is always built, and reads back. *)
Lemma copies_built : exists output, build_genesis header inputs = Ok output /\ genesis_reads_back header inputs output.
Proof.
  destruct kept_facts as (Hrec & Hok & Ho & Hki & Hlen & Hle & _). pose proof inputs_room as Hr. unfold rewrite_room in Hroom.
  assert (Hio : oi_object_id <$> inputs = ids) by (unfold inputs; by rewrite inputs_ids).
  assert (Hroot : root_ids inputs = roots) by (eapply inputs_roots; [exact Hki|apply Hids|done|done]).
  assert (Hli : len inputs = len ids) by (unfold inputs; by rewrite len_fmap).
  assert (Hoks : Forall object_ok inputs).
  { apply Forall_fmap. eapply Forall_impl; [exact Hok|]. intros e (_ & ? & _ & ? & _). by split. }
  pose proof (build_genesis_cases header inputs Hheader Hoks ltac:(lia) ltac:(lia)) as Hg.
  destruct (build_genesis header inputs) as [output|e]; [by exists output|exfalso].
  assert (Hrefused : forall os, os ≡ₚ inputs -> ~ record_error os e).
  { intros os Hp Herr. assert (Hos : forall o, o ∈ os -> oi_object_id o <> 0 /\ oi_kind o <> 0).
    { intros o Hoo. rewrite Hp in Hoo. apply list_elem_of_fmap in Hoo as (x & -> & Hx). destruct (proj1 (Forall_forall _ _) Hok x Hx) as (? & _ & ? & _). done. }
    inversion Herr as [o Hoo Hz|o Hoo Hz|l1 o l2 o' l3 E Heq]; [by destruct (Hos o Hoo)|by destruct (Hos o Hoo)|].
    assert (Hnd : NoDup (oi_object_id <$> os)) by (rewrite Hp, Hio; apply canonical_NoDup, Hids). subst os e. by apply (record_error_duplicate _ _ Herr). }
  destruct e; try (destruct Hg as (os & Hp & He); by apply (Hrefused os)).
  - rewrite Hroot in Hg. destruct Hg as [Hg|Hg]; [by apply Hroots|]. apply Hg, canonical_NoDup, Hroots.
  - rewrite Hg in Hli. destruct ids; done.
  - by rewrite Hroot in Hg.
Qed.

Lemma rewrite_verified_cases :
  match rewrite_verified source v header ids roots limits with
  | Ok rep => exists v', rewritten source v header ids roots limits rep v'
  | Err e => rewrite_refused source v header ids roots limits e
  end.
Proof.
  destruct kept_facts as (Hrec & Hok & Ho & Hki & Hlen & Hle & Hsum & Hsum'). pose proof inputs_room as Hr. unfold rewrite_room in Hroom.
  unfold rewrite_verified. destruct (N.ltb_spec (rw_max_objects_copied limits) (len ids)); cbn [negb]; [by constructor|].
  fold (retained_entries v ids). fold kept.
  pose proof (copy_entries_cases source (list_to_set roots) limits kept 0 [] Hrec ltac:(lia)) as Hc.
  destruct (fold_result _ kept (0, [])) as [s|e]; [|destruct Hc as [-> Hc]; by apply refused_payload]. rewrite Hc. cbn [app]. rewrite N.add_0_l. fold inputs.
  assert (Hli : len inputs = len ids) by (unfold inputs; by rewrite len_fmap). rewrite Hli, N.eqb_refl.
  destruct copies_built as (output & Hb & Hsize & Hback). rewrite Hb. rewrite try_u64_fits by lia. cbn [ok_or].
  destruct (N.ltb_spec (rw_max_output_bytes limits) (len output)); cbn [negb]; [by eapply refused_output|].
  destruct (validate_strict output (rw_validation limits)) as [v'|e] eqn:Ev'; [|by eapply refused_invalid].
  destruct (inputs_sums source (list_to_set roots) kept Hrec) as [_ Hpay]. fold inputs in Hpay.
  assert (Hroot : root_ids inputs = roots) by (eapply inputs_roots; [exact Hki|apply Hids|done|done]).
  assert (Hrl : len roots <= len ids).
  { unfold len. enough ((length roots <= length ids)%nat) by lia. apply submseteq_length, NoDup_submseteq; [apply canonical_NoDup, Hroots|done]. }
  destruct (Hback all_room) as (v2 & Hv2 & G1 & G2 & G3 & G4 & G5 & G6).
  { rewrite Hpay, Hroot, Hli. unfold commit_room, PAGE_SIZE, FILE_HEADER_LEN, SNAPSHOT_HEADER_LEN, FOOTER_LEN, U32_MAX in *.
    apply all_roomy; unfold OBJECT_HEADER_LEN, SNAPSHOT_HEADER_LEN, U64_MAX in *; lia. }
  pose proof (validate_strict_agree _ _ _ _ _ Ev' Hv2) as <-. exists v'.
  assert (Hsorted : sorted_objects inputs = inputs).
  { unfold sorted_objects. apply sort_by_sorted_id, StronglySorted_Sorted. unfold inputs. clear -Ho. induction Ho as [|e es Ho IH Hf]; [constructor|].
    rewrite fmap_cons. constructor; [done|]. apply Forall_fmap. eapply Forall_impl; [exact Hf|]. unfold key_lt, cmp_le, cmp_on. intros x Hx. cbn.
    rewrite N.compare_le_iff. lia. }
  rewrite Hsorted in G5. unfold inputs in G5. apply (Forall2_fmap_l (input_of source (list_to_set roots))) in G5.
  pose proof (Forall2_length _ _ _ G5) as Hcount.
  split; cbn [rp_output rp_source_snapshot_digest rp_output_snapshot_digest rp_source_commit_digest rp_output_commit_digest rp_snapshot_digest_preserved
    rp_commit_digest_preserved rp_byte_scoped_signatures_preserved rp_source_object_count rp_output_object_count rp_payload_bytes_copied].
  - exact Ev'.
  - exact G1.
  - by split.
  - apply strict_order_unique; [apply (snapshot_roots_sorted _ _ _ Ev')|apply Hroots|]. intros x. by rewrite G4, Hroot.
  - fold kept. apply Forall2_same_length_lookup. split; [exact Hcount|]. intros i e e' Hi Hi'.
    pose proof (Forall2_lookup_lr _ _ _ _ _ _ G5 Hi Hi') as (E1 & E2 & E3 & E4). cbn [input_of oi_object_id oi_kind oi_payload] in *.
    pose proof (payload_of_len source e (proj1 (Forall_forall _ _) Hrec e (list_elem_of_lookup_2 _ _ _ Hi))) as Hpl. split_and!; [done|done|congruence|exact E4].
  - by split_and!.
  - rewrite !bool_decide_eq_true. by split_and!.
  - split_and!; [done| |done]. rewrite <- Hlen. unfold len. by rewrite Hcount.
  - by split.
Qed.
End Copy.

(** ** The two entry points *)

(** Why a selection may be refused. *)
Inductive selection_refused source (header : FileHeader) (ids roots : list N) (limits : RewriteLimits) : Exp0002Error -> Prop :=
  | refused_source e : validate_strict source (rw_validation limits) = Err e -> selection_refused source header ids roots limits e
  | refused_ids : ~ canonical ids -> selection_refused source header ids roots limits InvalidObjectId
  | refused_root_ids : ~ canonical roots -> selection_refused source header ids roots limits InvalidRoot
  | refused_nothing : ids = [] -> selection_refused source header ids roots limits EmptyObjectSet
  | refused_no_root : roots = [] -> selection_refused source header ids roots limits NoRootObjects
  | refused_dropped_root r : r ∈ roots -> r ∉ ids -> selection_refused source header ids roots limits InvalidRoot
  | refused_unknown v i : validate_strict source (rw_validation limits) = Ok v -> i ∈ ids -> i ∉ le_object_id <$> v_objects v ->
      selection_refused source header ids roots limits InvalidObjectId
  | refused_copy v e : validate_strict source (rw_validation limits) = Ok v -> rewrite_refused source v header ids roots limits e ->
      selection_refused source header ids roots limits e.

Lemma forallb_member_cases (values : list N) (set_ : list N) :
  if forallb (fun x => bool_decide (x ∈ (list_to_set set_ : gset N))) values then forall x, x ∈ values -> x ∈ set_
  else exists x, x ∈ values /\ x ∉ set_.
Proof.
  induction values as [|x values IH]; [intros x Hx; by apply elem_of_nil in Hx|]. cbn [forallb]. case_bool_decide as Hx; cbn [andb].
  - apply elem_of_list_to_set in Hx. destruct (forallb _ values); [intros y [->|Hy]%elem_of_cons; auto|]. destruct IH as (y & Hy & Hn). exists y. split; [by right|done].
  - exists x. split; [by left|]. intros Hin. apply Hx. by apply elem_of_list_to_set.
Qed.

Lemma rewrite_selected_cases source header ids roots limits : file_header_ok header ->
  (forall v, validate_strict source (rw_validation limits) = Ok v -> len (v_objects v) <= U32_MAX /\ rewrite_room v <= U64_MAX) ->
  match rewrite_selected_to_new_file source header ids roots limits with
  | Ok rep => exists v v', validate_strict source (rw_validation limits) = Ok v /\ rewritten source v header ids roots limits rep v'
  | Err e => selection_refused source header ids roots limits e
  end.
Proof.
  intros Hh Hroom. unfold rewrite_selected_to_new_file. destruct (validate_strict source (rw_validation limits)) as [v|e] eqn:Ev; [|by constructor].
  destruct (Hroom v eq_refl) as [Hn Hr].
  pose proof (validate_canonical_ids_cases ids "retained object identifiers") as Hc1. destruct (validate_canonical_ids ids _) as [u1|e]; [|destruct Hc1 as [Hc1 ->]; by apply refused_ids].
  pose proof (validate_canonical_ids_cases roots "output roots") as Hc2. destruct (validate_canonical_ids roots _) as [u2|e]; [|destruct Hc2 as [Hc2 ->]; by apply refused_root_ids].
  case_bool_decide as He1; cbn [negb]; [by apply refused_nothing|]. case_bool_decide as He2; cbn [negb]; [by apply refused_no_root|].
  pose proof (forallb_member_cases roots ids) as Hm1. destruct (forallb _ roots); [|destruct Hm1 as (r & ? & ?); by eapply refused_dropped_root].
  pose proof (forallb_member_cases ids (le_object_id <$> v_objects v)) as Hm2. destruct (forallb _ ids); [|destruct Hm2 as (i & ? & ?); by eapply refused_unknown].
  pose proof (rewrite_verified_cases source v limits header ids roots Ev Hh Hc1 He1 Hm2 Hc2 He2 Hm1 Hn Hr) as Hw.
  destruct (rewrite_verified source v header ids roots limits) as [rep|e]; [destruct Hw as [v' Hw]; by exists v, v'|by eapply refused_copy].
Qed.

Lemma filter_everything {A} (P : A -> Prop) `{!forall x, Decision (P x)} (l : list A) : Forall P l -> filter P l = l.
Proof. induction 1 as [|x l Hx _ IH]; [done|]. rewrite filter_cons, decide_True by done. by f_equal. Qed.

(** A repair keeps every object and every root. *)
Lemma repair_all_cases source header limits v : file_header_ok header -> validate_strict source (rw_validation limits) = Ok v ->
  len (v_objects v) <= U32_MAX -> rewrite_room v <= U64_MAX ->
  match repair_all_to_new_file source header limits with
  | Ok rep => exists v', rewritten source v header (le_object_id <$> v_objects v) (sn_roots (v_snapshot v)) limits rep v' /\ retained_entries v (le_object_id <$> v_objects v) = v_objects v
  | Err e => rewrite_refused source v header (le_object_id <$> v_objects v) (sn_roots (v_snapshot v)) limits e
  end.
Proof.
  intros Hh Hv Hn Hr. unfold repair_all_to_new_file. rewrite Hv. cbv zeta.
  pose proof Hv as (offs & Hsv & _)%validate_strict_Ok. destruct (dtree_ordered _ _ _ _ _ _ (sv_tree _ _ _ _ Hsv)) as (Ho & Hok & Hne & _).
  assert (Hids : canonical (le_object_id <$> v_objects v)).
  { split.
    - clear -Ho. induction Ho as [|e es Ho IH Hf]; [constructor|]. rewrite fmap_cons. constructor; [done|]. by apply Forall_fmap.
    - intros (e & H0 & He)%list_elem_of_fmap. destruct (proj1 (Forall_forall _ _) Hok e He) as [Hz _]. by rewrite <- H0 in Hz. }
  pose proof (snapshot_roots_sorted _ _ _ Hv) as Hroots. destruct (sv_roots _ _ _ _ Hsv) as [Hrne Hrin].
  pose proof (rewrite_verified_cases source v limits header (le_object_id <$> v_objects v) (sn_roots (v_snapshot v)) Hv Hh Hids
    ltac:(by destruct (v_objects v)) ltac:(done) Hroots Hrne Hrin Hn Hr) as Hw.
  destruct (rewrite_verified _ _ _ _ _ _) as [rep|e]; [|done]. destruct Hw as [v' Hw]. exists v'. split; [done|].
  unfold retained_entries. apply filter_everything. apply Forall_forall. intros e He. apply elem_of_list_to_set. by apply list_elem_of_fmap_2.
Qed.
End Rewrite.
