(* ===== verification/Exp0002Readers.v ===== *)
(** Lookup, recovery and rewriting of EXP-0002 files: what the three promise on
    files that strict validation accepts. *)

From Stdlib Require Import Strings.Byte Strings.String NArith ZArith Lia.
From stdpp Require Import base list gmap strings sorting.
From S2P Require Import Prelude Order Digest Recovery Exp0002 Exp0002File Exp0002Pages Exp0002Strict Exp0002Levels Exp0002RoundTrip Exp0002Theorems Exp0002Lookup Exp0002Recovery Exp0002Rewrite.

Local Open Scope N_scope.

(** ** Lookup *)

Section Lookup.
Context `{H : Sha256}.

(** C28. On a file that [validate_strict] accepts, [lookup_authenticated] agrees
    with it: when the page reads cover the depth of the directory and the
    hashing limit leaves room for the snapshot once more, a lookup always
    returns, finding the object exactly when the directory holds the
    identifier, with the fields of its entry, a payload of the length the entry
    declares, one page read per level and the bytes hashed; it fails only with
    [InvalidPageReference], and only on a file where an internal page gives a
    child the greatest key there is as its maximum. *)
Theorem lookup_agrees_with_strict b limits reads v object_id :
  validate_strict b limits = Ok v -> object_id <> 0 -> 1 + sn_directory_root_level (v_snapshot v) <= reads ->
  v_bytes_hashed v + ft_snapshot_len (v_footer v) <= max_hashed_bytes limits -> v_bytes_hashed v + ft_snapshot_len (v_footer v) <= U64_MAX ->
  exists offs, strict_valid b limits offs v /\
  let pages := 1 + sn_directory_root_level (v_snapshot v) in
  let hashed := ft_commit_len (v_footer v) + ft_snapshot_len (v_footer v) + PAGE_SIZE * pages in
  match lookup_authenticated b object_id (mkLookupLimits limits reads) with
  | Ok (Some found) => exists e, e ∈ v_objects v /\ le_object_id e = object_id /\
      found = found_lookup e (sn_sequence (v_snapshot v)) pages (hashed + le_record_len e)
  | Ok None => object_id ∉ le_object_id <$> v_objects v
  | Err e => e = InvalidPageReference /\ open_child b offs
  end.
Proof.
  intros Hv Hid Hr Hh1 Hh2. destruct (lookup_authenticated_ok b limits reads v object_id Hv Hid Hr Hh1 Hh2) as (offs & Hsv & Hl).
  exists offs. split; [exact Hsv|]. cbv zeta. revert Hl. generalize (lookup_authenticated b object_id (mkLookupLimits limits reads)).
  intros [[found|]|e] Hl; exact Hl.
Qed.
End Lookup.

(** In the file of two objects, one is found and an absent one is not. *)
Lemma lookup_agrees_with_strict_witness : exists v found,
  validate_strict (H := cheap_sha) example_file default_validation_limits = Ok v /\
  lookup_authenticated (H := cheap_sha) example_file 7 default_lookup_limits = Ok (Some found) /\ al_kind found = 2 /\
  7 ∈ le_object_id <$> v_objects v /\ lookup_authenticated (H := cheap_sha) example_file 5 default_lookup_limits = Ok None.
Proof.
  assert (Hv : match validate_strict (H := cheap_sha) example_file default_validation_limits with
    | Ok v => (1 + sn_directory_root_level (v_snapshot v) <=? 32) &&
        (v_bytes_hashed v + ft_snapshot_len (v_footer v) <=? 4294967296)
    | Err _ => false end = true) by (vm_compute; reflexivity).
  assert (Hf : match lookup_authenticated (H := cheap_sha) example_file 7 default_lookup_limits with
    | Ok (Some found) => al_kind found =? 2 | _ => false end = true) by (vm_compute; reflexivity).
  assert (Hn : match lookup_authenticated (H := cheap_sha) example_file 5 default_lookup_limits with Ok None => true | _ => false end = true)
    by (vm_compute; reflexivity).
  destruct (validate_strict (H := cheap_sha) example_file default_validation_limits) as [v|e] eqn:Ev; [|discriminate Hv].
  apply andb_true_iff in Hv as [Hr%N.leb_le Hh%N.leb_le].
  pose proof (lookup_agrees_with_strict (H := cheap_sha) example_file default_validation_limits 32 v 7 Ev ltac:(discriminate) Hr
    ltac:(etransitivity; [exact Hh|apply N.leb_le; vm_compute; reflexivity]) ltac:(etransitivity; [exact Hh|apply N.leb_le; vm_compute; reflexivity])) as (offs & _ & Hl).
  change (mkLookupLimits default_validation_limits 32) with default_lookup_limits in Hl. cbv zeta in Hl.
  destruct (lookup_authenticated (H := cheap_sha) example_file 7 default_lookup_limits) as [[found|]|e]; [|discriminate Hf|discriminate Hf].
  destruct (lookup_authenticated (H := cheap_sha) example_file 5 default_lookup_limits) as [[?|]|e]; [discriminate Hn| |discriminate Hn].
  exists v, found. destruct Hl as (e & He & Hid & _). split_and!; [reflexivity|reflexivity|by apply N.eqb_eq| |reflexivity].
  rewrite <- Hid. by apply list_elem_of_fmap_2.
Defined.

(** ** Recovery *)

Section Recover.
Context `{H : Sha256}.

(** C33. Recovery finds the commits of a file. Whatever the bytes, the scan
    ends with a report of exactly the prefixes that [validate_strict] accepts
    and whose footers start in the window, each once, newest sequence first,
    and its counts within the limits; or with the limit its counts exceed. On a
    file that validates, the enumeration of the previous commits gives one
    commit for each sequence number down to zero, each a prefix that validates
    and each followed by the one its footer points back to; or it stops at the
    depth limit, at a previous prefix that does not validate, or at one that
    does not validate under the default limits. *)
Theorem recovery_finds_commits b limits recovery_limits v :
  len b + FOOTER_LEN <= U64_MAX -> validate_strict b limits = Ok v ->
  match scan_valid_prefixes b limits recovery_limits with
  | Ok rep => scan_report b limits recovery_limits rep
  | Err e => scan_exceeded recovery_limits (scanned b limits (mkScan 0 0 []) (window b recovery_limits)) e
  end /\
  match enumerate_previous_chain b v limits recovery_limits with
  | Ok chain => previous_chain b limits (len b) chain /\ len chain = ft_sequence (v_footer v) + 1
  | Err e => chain_broken b limits recovery_limits (len b) 1 v e
  end.
Proof.
  intros Hmax Hv. split; [apply scan_valid_prefixes_cases; [lia|done]|by apply enumerate_previous_chain_cases].
Qed.
End Recover.

(** The file extended by a commit has two. *)
Definition bytes_or_none (r : X bytes) : bytes := match r with Ok b => b | Err _ => [] end.
Definition example_extended : bytes := bytes_or_none (build_append (H := cheap_sha) example_file example_added [5] default_validation_limits).

(** A scan of the last 160 bytes sees the last of them. *)
Definition example_window : Exp0002RecoveryLimits := mkRecoveryLimits 160 16 16 4 4.

Lemma recovery_finds_commits_witness : exists v rep chain,
  validate_strict (H := cheap_sha) example_extended default_validation_limits = Ok v /\
  scan_valid_prefixes (H := cheap_sha) example_extended default_validation_limits example_window = Ok rep /\
  rc_sequence <$> rr_candidates rep = [1] /\
  enumerate_previous_chain (H := cheap_sha) example_extended v default_validation_limits example_window = Ok chain /\
  previous_chain (H := cheap_sha) example_extended default_validation_limits (len example_extended) chain /\ len chain = 2.
Proof.
  assert (Hmax : len example_extended + FOOTER_LEN <= U64_MAX) by (apply N.leb_le; vm_compute; reflexivity).
  assert (Hc : match validate_strict (H := cheap_sha) example_extended default_validation_limits with
    | Ok v => (ft_sequence (v_footer v) =? 1) &&
        is_ok (enumerate_previous_chain (H := cheap_sha) example_extended v default_validation_limits example_window)
    | Err _ => false end = true) by (vm_compute; reflexivity).
  assert (Hs : match scan_valid_prefixes (H := cheap_sha) example_extended default_validation_limits example_window with
    | Ok rep => bool_decide (rc_sequence <$> rr_candidates rep = [1]) | Err _ => false end = true) by (vm_compute; reflexivity).
  revert Hmax Hc Hs. generalize example_extended. intros b Hmax Hc Hs.
  destruct (validate_strict (H := cheap_sha) b default_validation_limits) as [v|e] eqn:Ev; [|discriminate Hc].
  apply andb_true_iff in Hc as [Hseq%N.eqb_eq Hc].
  pose proof (recovery_finds_commits (H := cheap_sha) b default_validation_limits example_window v Hmax Ev) as [_ Hchain].
  destruct (scan_valid_prefixes (H := cheap_sha) b default_validation_limits example_window) as [rep|e]; [|discriminate Hs].
  destruct (enumerate_previous_chain (H := cheap_sha) b v default_validation_limits example_window) as [chain|e] eqn:Ec; [|discriminate Hc].
  exists v, rep, chain. destruct Hchain as [Hp Hl]. split_and!; [reflexivity|reflexivity|by apply bool_decide_eq_true in Hs|exact Ec|exact Hp|].
  rewrite Hl, Hseq. reflexivity.
Defined.

(** ** Rewriting *)

Section Rewriting.
Context `{H : Sha256, !Sha256Ok H}.

(** C30. Rewriting copies the objects selected and nothing else. A file written
    validates under the same limits, has the header asked for and the roots
    selected, is a genesis whatever the source was, and its objects are those
    of the source whose identifiers are selected, in order, each with the same
    fields and the same payload bytes; the report gives the digests of both
    files and says they are preserved exactly when they are equal. A refusal
    says which of the conditions on the selection, the limits or the source
    failed. *)
Theorem rewrite_copies_selection source header ids roots limits : file_header_ok header ->
  (forall v, validate_strict source (rw_validation limits) = Ok v -> len (v_objects v) <= U32_MAX /\ rewrite_room v <= U64_MAX) ->
  match rewrite_selected_to_new_file source header ids roots limits with
  | Ok rep => exists v v', validate_strict source (rw_validation limits) = Ok v /\ rewritten source v header ids roots limits rep v'
  | Err e => selection_refused source header ids roots limits e
  end.
Proof. exact (rewrite_selected_cases source header ids roots limits). Qed.
End Rewriting.

(** One of the two objects of the example, as the only root. *)
Lemma rewrite_copies_selection_witness : exists rep v v',
  rewrite_selected_to_new_file (H := cheap_sha) example_file example_header [3] [3] default_rewrite_limits = Ok rep /\
  rewritten (H := cheap_sha) example_file v example_header [3] [3] default_rewrite_limits rep v'.
Proof.
  assert (Hroom : match validate_strict (H := cheap_sha) example_file default_validation_limits with
    | Ok v => (len (v_objects v) <=? U32_MAX) && (rewrite_room v <=? U64_MAX) | Err _ => false end = true) by (vm_compute; reflexivity).
  assert (Hok : is_ok (rewrite_selected_to_new_file (H := cheap_sha) example_file example_header [3] [3] default_rewrite_limits) = true)
    by (vm_compute; reflexivity).
  assert (Hh : file_header_ok example_header) by (split; vm_compute; reflexivity).
  pose proof (rewrite_copies_selection (H := cheap_sha) (Sha256Ok0 := cheap_sha_ok) example_file example_header [3] [3] default_rewrite_limits Hh) as Hr.
  revert Hroom Hok Hr. change (rw_validation default_rewrite_limits) with default_validation_limits. generalize example_file.
  intros b Hroom Hok Hr.
  assert (Hv : forall v, validate_strict (H := cheap_sha) b default_validation_limits = Ok v -> len (v_objects v) <= U32_MAX /\ rewrite_room v <= U64_MAX).
  { intros v Ev. rewrite Ev in Hroom. apply andb_true_iff in Hroom as [H1%N.leb_le H2%N.leb_le]. split; [exact H1|exact H2]. }
  specialize (Hr Hv). destruct (rewrite_selected_to_new_file (H := cheap_sha) b example_header [3] [3] default_rewrite_limits) as [rep|e]; [|discriminate Hok].
  destruct Hr as (v & v' & _ & Hr). exists rep, v, v'. split; [reflexivity|exact Hr].
Defined.
