(* ===== verification/Exp0002Source.v ===== *)
(** [crates/ucof-experiments/src/exp0002_source.rs]: EXP-0002 files behind a
    random-access source, the reader that charges every read to a budget, and
    the authenticated lookup of one object through it. The trait
    [Exp0002ReadAt] and its slice and seek sources are those of [Source]; a
    method that takes [&mut self] is a function of the reader to a result and
    the reader after it. *)

From Stdlib Require Import Strings.Byte Strings.String NArith ZArith.
From stdpp Require Import base list gmap strings.
From S2P Require Import Prelude Order Digest Machine Source Exp0002 Exp0002File Exp0002Lookup.

Local Open Scope N_scope.

Inductive Exp0002SourceError : Type :=
  | SourceFormat (e : Exp0002Error)
  | SourceIo (context : string).

Record Exp0002SourceLimits : Type := mkSourceLimits {
  so_validation : ValidationLimits;
  so_max_source_bytes_read : N;
  so_max_read_operations : N;
  so_max_read_request_bytes : N;
  so_hash_block_bytes : N;
  so_max_page_reads : N;
}.

Definition default_source_limits : Exp0002SourceLimits :=
  mkSourceLimits default_validation_limits (32 * 1024 * 1024 * 1024) 1000000 (64 * 1024) (64 * 1024) 32.

Record Exp0002SourceStats : Type := mkSourceStats {
  ss_read_operations : N;
  ss_bytes_read : N;
  ss_largest_request : N;
  ss_bytes_hashed : N;
  ss_pages_read : N;
}.

Definition default_source_stats : Exp0002SourceStats := mkSourceStats 0 0 0 0 0.

Record Exp0002SourceLookup : Type := mkSourceLookup {
  sk_object_id : N;
  sk_kind : N;
  sk_record_offset : N;
  sk_record_len : N;
  sk_payload_offset : N;
  sk_payload_len : N;
  sk_logical_len : N;
  sk_sequence : N;
  sk_stats : Exp0002SourceStats;
}.

Record SourceFooter : Type := mkSourceFooter {
  sf_commit_start : N;
  sf_commit_len : N;
  sf_snapshot_offset : N;
  sf_snapshot_len : N;
  sf_sequence : N;
  sf_previous_footer_offset : N;
  sf_snapshot_digest : bytes;
  sf_commit_digest : bytes;
  sf_semantics : bytes;
}.

(** ** The budgeted reader *)

(** The mutable part of [BudgetedSource]; its length and limits are fixed. *)
Record SourceReader (S : Type) : Type := mkReader { rd_source : S; rd_stats : Exp0002SourceStats }.
Arguments mkReader {S}.
Arguments rd_source {S}.
Arguments rd_stats {S}.

(** A computation over a state that can fail, which keeps the state. *)
Definition ST (St A : Type) : Type := St -> result Exp0002SourceError A * St.

Definition sm_ret {St A} (a : A) : ST St A := fun s => (Ok a, s).
Definition sm_bind {St A B} (m : ST St A) (k : A -> ST St B) : ST St B := fun s =>
  match m s with (Ok a, s) => k a s | (Err e, s) => (Err e, s) end.

(** [impl From<Exp0002Error> for Exp0002SourceError], at a [?]. *)
Definition sm_lift {St A} (x : X A) : ST St A := fun s =>
  (match x with Ok a => Ok a | Err e => Err (SourceFormat e) end, s).
Definition sm_fail {St A} (e : Exp0002Error) : ST St A := fun s => (Err (SourceFormat e), s).

(** A method of the reader. *)
Definition SM (S A : Type) : Type := ST (SourceReader S) A.

Definition sm_stats {S} : SM S Exp0002SourceStats := fun r => (Ok (rd_stats r), r).
Definition sm_set_stats {S} (f : Exp0002SourceStats -> Exp0002SourceStats) : SM S unit := fun r =>
  (Ok tt, mkReader (rd_source r) (f (rd_stats r))).

Notation "'let!' x ':=' m 'in' k" := (sm_bind m (fun x => k))
  (at level 10, x pattern, m at level 100, k at level 200,
   format "'[v' 'let!'  x  ':='  m  'in' '/' k ']'") : ucof_scope.
Notation "'check!' c 'else' e 'in' k" := (if (c : bool) then k else sm_fail e)
  (at level 10, c at level 100, e at level 100, k at level 200,
   format "'[v' 'check!'  c  'else'  e  'in' '/' k ']'") : ucof_scope.

Definition set_read_operations (n : N) (st : Exp0002SourceStats) : Exp0002SourceStats :=
  mkSourceStats n (ss_bytes_read st) (ss_largest_request st) (ss_bytes_hashed st) (ss_pages_read st).
Definition set_bytes_read (n : N) (st : Exp0002SourceStats) : Exp0002SourceStats :=
  mkSourceStats (ss_read_operations st) n (ss_largest_request st) (ss_bytes_hashed st) (ss_pages_read st).
Definition set_largest_request (n : N) (st : Exp0002SourceStats) : Exp0002SourceStats :=
  mkSourceStats (ss_read_operations st) (ss_bytes_read st) n (ss_bytes_hashed st) (ss_pages_read st).
Definition set_bytes_hashed (n : N) (st : Exp0002SourceStats) : Exp0002SourceStats :=
  mkSourceStats (ss_read_operations st) (ss_bytes_read st) (ss_largest_request st) n (ss_pages_read st).
Definition set_pages_read (n : N) (st : Exp0002SourceStats) : Exp0002SourceStats :=
  mkSourceStats (ss_read_operations st) (ss_bytes_read st) (ss_largest_request st) (ss_bytes_hashed st) n.

Section Budgeted.
Context {S : Type} `{ReadAt S} (file_len : N) (limits : Exp0002SourceLimits).

(** [self.source.read_exact_at(offset, buffer).map_err(|_| Io(context))] *)
Definition sm_source_read (offset length : N) (context : string) : SM S bytes := fun r =>
  let '(res, s) := read_exact_at (rd_source r) offset length in
  (match res with Ok b => Ok b | Err _ => Err (SourceIo context) end, mkReader s (rd_stats r)).

(** [BudgetedSource::read_exact] with a buffer of [length] bytes, and what it
    is filled with. *)
Definition rd_read_exact (offset length : N) (context : string) : SM S bytes :=
  check! negb (so_max_read_request_bytes limits <? length) else ResourceLimit "source read request" in
  let! length := sm_lift (ok_or (try_u64 length) ArithmeticOverflow) in
  let! end_ := sm_lift (ok_or (checked_add offset length) ArithmeticOverflow) in
  check! negb (file_len <? end_) else Truncated in
  let! st := sm_stats in
  let! read_operations := sm_lift (ok_or (checked_add (ss_read_operations st) 1) ArithmeticOverflow) in
  let! _ := sm_set_stats (set_read_operations read_operations) in
  check! negb (so_max_read_operations limits <? read_operations) else ResourceLimit "source read operations" in
  let! bytes_read := sm_lift (ok_or (checked_add (ss_bytes_read st) length) ArithmeticOverflow) in
  let! _ := sm_set_stats (set_bytes_read bytes_read) in
  check! negb (so_max_source_bytes_read limits <? bytes_read) else ResourceLimit "source bytes read" in
  let! _ := sm_set_stats (set_largest_request (N.max (ss_largest_request st) length)) in
  sm_source_read offset length context.

(** [BudgetedSource::read_array::<n>] *)
Definition rd_read_array (n offset : N) (context : string) : SM S bytes := rd_read_exact offset n context.

(** [while cursor < length] of [read_vec], with the bytes filled so far. *)
Fixpoint read_chunks (fuel : nat) (offset length cursor : N) (context : string) (filled : bytes) : SM S bytes :=
  if cursor <? length then
    match fuel with
    | O => sm_fail ArithmeticOverflow
    | Datatypes.S fuel =>
        let take := N.min (length - cursor) (so_max_read_request_bytes limits) in
        let! cursor_offset := sm_lift (ok_or (try_u64 cursor) ArithmeticOverflow) in
        let! read_offset := sm_lift (ok_or (checked_add offset cursor_offset) ArithmeticOverflow) in
        let! chunk := rd_read_exact read_offset take context in
        read_chunks fuel offset length (cursor + take) context (filled ++ chunk)
    end
  else sm_ret filled.

(** [BudgetedSource::read_vec]; a chunk has [max_read_request_bytes] bytes but
    for the last, which bounds their number. *)
Definition rd_read_vec (offset length : N) (context : string) : SM S bytes :=
  let! length := sm_lift (to_usize length) in
  read_chunks (Datatypes.S (N.to_nat (length / so_max_read_request_bytes limits))) offset length 0 context [].

(** [BudgetedSource::add_hashed] *)
Definition rd_add_hashed (length : N) : SM S unit :=
  let! st := sm_stats in
  let! bytes_hashed := sm_lift (ok_or (checked_add (ss_bytes_hashed st) length) ArithmeticOverflow) in
  let! _ := sm_set_stats (set_bytes_hashed bytes_hashed) in
  check! negb (max_hashed_bytes (so_validation limits) <? bytes_hashed) else ResourceLimit "hashed bytes" in
  sm_ret tt.

(** [while remaining > 0] of [hash_range] *)
Fixpoint hash_blocks (fuel : nat) (hasher : Hasher) (cursor remaining : N) (context : string) : SM S Hasher :=
  if 0 <? remaining then
    match fuel with
    | O => sm_fail ArithmeticOverflow
    | Datatypes.S fuel =>
        let take := N.min remaining (so_hash_block_bytes limits) in
        let! block := rd_read_exact cursor take context in
        let hasher := hasher_update hasher block in
        let! cursor := sm_lift (ok_or (checked_add cursor take) ArithmeticOverflow) in
        hash_blocks fuel hasher cursor (remaining - take) context
    end
  else sm_ret hasher.

(** [BudgetedSource::hash_range], and the hasher after it. *)
Definition rd_hash_range (hasher : Hasher) (offset length : N) (context : string) : SM S Hasher :=
  let! hasher := hash_blocks (Datatypes.S (N.to_nat (length / so_hash_block_bytes limits))) hasher offset length context in
  let! _ := rd_add_hashed length in
  sm_ret hasher.
End Budgeted.

Definition validate_limit_configuration (limits : Exp0002SourceLimits) : X unit :=
  check negb ((so_max_read_request_bytes limits <? PAGE_SIZE) || (so_hash_block_bytes limits =? 0)
              || (so_max_read_request_bytes limits <? so_hash_block_bytes limits))
    else ResourceLimit "source request configuration" in
  Ok tt.

(** ** Footers and ranges *)

(** [parse_footer], of [FOOTER_LEN] bytes *)
Definition parse_source_footer (b : bytes) : X SourceFooter :=
  check bool_decide (slice b 0 8 = FOOTER_MAGIC) else InvalidMagic "footer" in
  let* footer_len := read_u16 b 8 in
  check footer_len =? FOOTER_LEN else InvalidVersion in
  let* version := read_u16 b 10 in
  check version =? 2 else InvalidVersion in
  let* flags := read_u32 b 12 in
  check flags =? 0 else InvalidFlags "footer" in
  let* digest := read_u16 b 72 in
  check digest =? 1 else InvalidFlags "footer" in
  let* _ := require_zero (slice b 74 80) "footer" in
  let* _ := require_zero (slice b 144 160) "footer" in
  let* commit_start := read_u64 b 16 in
  let* commit_len := read_u64 b 24 in
  let* snapshot_offset := read_u64 b 32 in
  let* snapshot_len := read_u64 b 40 in
  let* sequence := read_u64 b 48 in
  let* previous_footer_offset := read_u64 b 56 in
  let* snapshot_digest := read_array 32 b 80 in
  let* commit_digest := read_array 32 b 112 in
  let* semantics := read_array 104 b 8 in
  Ok (mkSourceFooter commit_start commit_len snapshot_offset snapshot_len sequence previous_footer_offset
        snapshot_digest commit_digest semantics).

(** [to_range]: the range is its two ends. *)
Definition to_range (offset length total : N) : X (N * N) :=
  let* end_ := ok_or (checked_add offset length) ArithmeticOverflow in
  check negb ((total <? end_) || (end_ <? offset)) else Truncated in
  Ok (offset, end_).

(** ** Lookup *)

Section Lookup.
Context `{Sha256} {S : Type} `{ReadAt S} (file_len : N) (limits : Exp0002SourceLimits).

(** [validate_parent_link] *)
Definition source_parent_link (footer_offset : N) (footer : SourceFooter) (snapshot : Snapshot) : SM S unit :=
  if sf_previous_footer_offset footer =? ABSENT_OFFSET then
    check! (sf_sequence footer =? 0) && (sf_commit_start footer =? 0) && bool_decide (sn_parent_snapshot_digest snapshot = zeros 32)
      else InvalidParent in
    sm_ret tt
  else
    check! sf_previous_footer_offset footer <? footer_offset else InvalidPreviousFooter in
    let! previous_end := sm_lift (ok_or (checked_add (sf_previous_footer_offset footer) FOOTER_LEN) ArithmeticOverflow) in
    check! sf_commit_start footer =? previous_end else InvalidPreviousFooter in
    let! previous_bytes := rd_read_array file_len limits FOOTER_LEN (sf_previous_footer_offset footer) "previous footer" in
    let! previous := sm_lift (parse_source_footer previous_bytes) in
    check! bool_decide (sf_snapshot_digest previous = sn_parent_snapshot_digest snapshot) else InvalidParent in
    let! next_sequence := sm_lift (ok_or (checked_add (sf_sequence previous) 1) ArithmeticOverflow) in
    check! next_sequence =? sf_sequence footer else InvalidParent in
    sm_ret tt.

(** [validate_selected_object] *)
Definition source_selected_object (selected : SelectedLeaf) : SM S unit :=
  check! negb (sl_record_len selected <? OBJECT_HEADER_LEN) else InvalidLength "object record" in
  let! header := rd_read_array file_len limits OBJECT_HEADER_LEN (sl_record_offset selected) "object header" in
  check! bool_decide (slice header 0 4 = OBJECT_MAGIC) else InvalidLength "object header" in
  let! header_len := sm_lift (read_u16 header 4) in
  check! header_len =? OBJECT_HEADER_LEN else InvalidLength "object header" in
  let! kind := sm_lift (read_u16 header 6) in
  check! kind =? sl_kind selected else InvalidLength "object header" in
  let! flags := sm_lift (read_u32 header 8) in
  check! flags =? 0 else InvalidLength "object header" in
  let! object_id := sm_lift (read_u64 header 12) in
  check! object_id =? sl_object_id selected else InvalidLength "object header" in
  let! payload_len := sm_lift (read_u64 header 20) in
  let! logical_len := sm_lift (read_u64 header 28) in
  check! (payload_len =? logical_len) && (logical_len =? sl_logical_len selected)
         && negb (max_payload_bytes (so_validation limits) <? payload_len) else LogicalLengthMismatch in
  let! expected_len := sm_lift (ok_or (checked_add OBJECT_HEADER_LEN payload_len) ArithmeticOverflow) in
  check! expected_len =? sl_record_len selected else LogicalLengthMismatch in
  let! _ := sm_lift (require_zero (slice header 36 48) "object") in
  let hasher := hasher_update (hasher_update hasher_new OBJECT_DOMAIN) header in
  let! payload_offset := sm_lift (ok_or (checked_add (sl_record_offset selected) OBJECT_HEADER_LEN) ArithmeticOverflow) in
  let! hasher := rd_hash_range file_len limits hasher payload_offset payload_len "object payload" in
  let! _ := rd_add_hashed limits OBJECT_HEADER_LEN in
  check! bool_decide (hasher_finalize hasher = sl_digest selected) else DigestMismatch "object" in
  sm_ret tt.

(** One more page: the count of pages read, its bytes, its header and the
    ranges after it. *)
Definition source_lookup_page (sequence : N) (expected : ExpectedPage) (page_ranges : list (N * N))
    : SM S (bytes * LookupPageHeader * list (N * N)) :=
  let! st := sm_stats in
  let! pages_read := sm_lift (ok_or (checked_add (ss_pages_read st) 1) ArithmeticOverflow) in
  let! _ := sm_set_stats (set_pages_read pages_read) in
  check! negb ((so_max_page_reads limits <? pages_read) || (max_page_depth (so_validation limits) <? pages_read)
               || (max_pages (so_validation limits) <? pages_read)) else ResourceLimit "lookup pages" in
  let! page := rd_read_array file_len limits PAGE_SIZE (xp_offset expected) "directory page" in
  let! _ := rd_add_hashed limits PAGE_SIZE in
  check! bool_decide (digest_bytes PAGE_DOMAIN page = xp_digest expected) else DigestMismatch "page" in
  let! page_range := sm_lift (to_range (xp_offset expected) PAGE_SIZE file_len) in
  let page_ranges := page_ranges ++ [page_range] in
  let! header := sm_lift (parse_page_header page sequence) in
  check! negb (negb (lh_level header =? xp_level expected)
               || is_some_and (xp_minimum expected) (fun value => negb (value =? lh_minimum header))
               || is_some_and (xp_maximum expected) (fun value => negb (value =? lh_maximum header))) else InvalidPageReference in
  sm_ret (page, header, page_ranges).

(** The record of the entry a leaf holds. *)
Definition source_read_selected (footer : SourceFooter) (snapshot_range footer_range : N * N) (page_ranges : list (N * N))
    (selected : SelectedLeaf) : SM S Exp0002SourceLookup :=
  let! record_range := sm_lift (to_range (sl_record_offset selected) (sl_record_len selected) file_len) in
  check! negb (overlaps_any record_range page_ranges || ranges_overlap record_range snapshot_range
               || ranges_overlap record_range footer_range) else PhysicalOverlap in
  let! _ := source_selected_object selected in
  let! payload_len := sm_lift (ok_or (checked_sub (sl_record_len selected) OBJECT_HEADER_LEN) (InvalidLength "object record")) in
  let! payload_offset := sm_lift (ok_or (checked_add (sl_record_offset selected) OBJECT_HEADER_LEN) ArithmeticOverflow) in
  let! st := sm_stats in
  sm_ret (mkSourceLookup (sl_object_id selected) (sl_kind selected) (sl_record_offset selected) (sl_record_len selected)
            payload_offset payload_len (sl_logical_len selected) (sf_sequence footer) st).

(** The [loop]; the level falls by one from a page to its child, so the level
    of the root bounds the turns. *)
Fixpoint source_lookup_pages (fuel : nat) (object_id : N) (footer : SourceFooter) (snapshot : Snapshot)
    (snapshot_range footer_range : N * N) (expected : ExpectedPage) (page_ranges : list (N * N))
    : SM S (option Exp0002SourceLookup) :=
  match fuel with
  | O => sm_fail PageCycle
  | Datatypes.S fuel =>
      let! (page, header, page_ranges) := source_lookup_page (sn_sequence snapshot) expected page_ranges in
      if (object_id <? lh_minimum header) || (lh_maximum header <? object_id) then sm_ret None
      else if lh_kind header =? 1 then
        let! selected := sm_lift (select_leaf page header object_id) in
        match selected with
        | None => sm_ret None
        | Some selected =>
            let! found := source_read_selected footer snapshot_range footer_range page_ranges selected in
            sm_ret (Some found)
        end
      else if lh_kind header =? 2 then
        let! child := sm_lift (select_internal page header object_id) in
        match child with
        | None => sm_ret None
        | Some child => source_lookup_pages fuel object_id footer snapshot snapshot_range footer_range child page_ranges
        end
      else sm_fail InvalidPageKind
  end.

(** [lookup_authenticated_at], from the reader on. *)
Definition source_lookup_body (object_id : N) : SM S (option Exp0002SourceLookup) :=
  let! header := rd_read_array file_len limits 64 0 "file header" in
  let! _ := sm_lift (file_header_parse header) in
  let! footer_offset := sm_lift (ok_or (checked_sub file_len FOOTER_LEN) Truncated) in
  let! footer_bytes := rd_read_array file_len limits FOOTER_LEN footer_offset "footer" in
  let! footer := sm_lift (parse_source_footer footer_bytes) in
  let! commit_end := sm_lift (ok_or (checked_add (sf_commit_start footer) (sf_commit_len footer)) ArithmeticOverflow) in
  check! commit_end =? footer_offset else InvalidCommitRange in
  check! negb (max_commit_bytes (so_validation limits) <? sf_commit_len footer) else ResourceLimit "commit bytes" in
  let! commit_hasher := rd_hash_range file_len limits (hasher_update hasher_new COMMIT_DOMAIN) (sf_commit_start footer)
                          (sf_commit_len footer) "commit" in
  let commit_hasher := hasher_update commit_hasher (sf_semantics footer) in
  check! bool_decide (hasher_finalize commit_hasher = sf_commit_digest footer) else DigestMismatch "commit" in
  check! negb (max_snapshot_bytes (so_validation limits) <? sf_snapshot_len footer) else ResourceLimit "snapshot bytes" in
  let! snapshot_end := sm_lift (ok_or (checked_add (sf_snapshot_offset footer) (sf_snapshot_len footer)) ArithmeticOverflow) in
  check! negb ((sf_snapshot_offset footer <? sf_commit_start footer) || (footer_offset <? snapshot_end)) else InvalidCommitRange in
  let! snapshot_bytes := rd_read_vec file_len limits (sf_snapshot_offset footer) (sf_snapshot_len footer) "snapshot" in
  let! _ := rd_add_hashed limits (sf_snapshot_len footer) in
  check! bool_decide (digest_bytes SNAPSHOT_DOMAIN snapshot_bytes = sf_snapshot_digest footer) else DigestMismatch "snapshot" in
  let! snapshot := sm_lift (snapshot_parse snapshot_bytes (so_validation limits)) in
  check! (sn_sequence snapshot =? sf_sequence footer) && (sn_previous_footer_offset snapshot =? sf_previous_footer_offset footer)
    else InvalidSnapshotSequence in
  let! _ := source_parent_link footer_offset footer snapshot in
  let! snapshot_range := sm_lift (to_range (sf_snapshot_offset footer) (sf_snapshot_len footer) file_len) in
  let! footer_range := sm_lift (to_range footer_offset FOOTER_LEN file_len) in
  let expected := mkExpectedPage (sn_directory_root_offset snapshot) (sn_directory_root_digest snapshot)
                    (sn_directory_root_level snapshot) None None in
  source_lookup_pages (Datatypes.S (N.to_nat (xp_level expected))) object_id footer snapshot snapshot_range footer_range expected [].
End Lookup.

(** [lookup_authenticated_at]: the result, and the source after it. *)
Definition lookup_authenticated_at `{Sha256} {S} `{ReadAt S} (s : S) (object_id : N) (limits : Exp0002SourceLimits)
    : result Exp0002SourceError (option Exp0002SourceLookup) * S :=
  if object_id =? 0 then (Err (SourceFormat InvalidObjectId), s)
  else match validate_limit_configuration limits with
  | Err e => (Err (SourceFormat e), s)
  | Ok _ =>
      match source_len s with
      | (Err _, s) => (Err (SourceIo "source length"), s)
      | (Ok file_len, s) =>
          if max_file_bytes (so_validation limits) <? file_len then (Err (SourceFormat (ResourceLimit "file bytes")), s)
          else if file_len <? 64 + FOOTER_LEN then (Err (SourceFormat Truncated), s)
          else
            let '(res, r) := source_lookup_body file_len limits object_id (mkReader s default_source_stats) in
            (res, rd_source r)
      end
  end.
