(* ===== verification/Exp0002SourceStrict.v ===== *)
(** [crates/ucof-experiments/src/exp0002_source_strict.rs]: strict validation of
    an EXP-0002 file behind a random-access source, every page of the directory
    and every object included, and the recovery scan that validates the
    prefixes of a source. *)

From Stdlib Require Import Strings.Byte Strings.String NArith ZArith.
From stdpp Require Import base list gmap strings.
From S2P Require Import Prelude Order Digest Machine Source Exp0002 Exp0002File Exp0002Lookup Exp0002Source.

Local Open Scope N_scope.

Record VerifiedExp0002Source : Type := mkVerifiedSource {
  vs_header : FileHeader;
  vs_footer_offset : N;
  vs_footer : Footer;
  vs_snapshot : Snapshot;
  vs_objects : list LeafEntry;
  vs_pages_verified : N;
  vs_stats : Exp0002SourceStats;
}.

Record ParsedFooter : Type := mkParsedFooter {
  pf_footer : Footer;
  pf_semantics : bytes;
}.

(** [ExpectedPage] of this file *)
Record StrictPage : Type := mkStrictPage {
  sp_offset : N;
  sp_digest : bytes;
  sp_level : N;
  sp_minimum : option N;
  sp_maximum : option N;
  sp_depth : N;
}.

(** [InternalEntry] of this file *)
Record SourceChild : Type := mkSourceChild {
  sc_minimum : N;
  sc_maximum : N;
  sc_offset : N;
  sc_level : N;
  sc_digest : bytes;
}.

(** [ParsedPage] of this file *)
Record SourcePage : Type := mkSourcePage {
  pg_kind : N;
  pg_level : N;
  pg_minimum : N;
  pg_maximum : N;
  pg_sequence : N;
  pg_leaves : list LeafEntry;
  pg_children : list SourceChild;
}.

(** ** Parsing *)

(** [ByteRange::new] and [ByteRange::overlaps]: a range is its two ends. *)
Definition byte_range (offset length total : N) : X (N * N) :=
  let* end_ := ok_or (checked_add offset length) ArithmeticOverflow in
  check negb ((total <? end_) || (end_ <? offset)) else Truncated in
  Ok (offset, end_).

Definition overlaps (l r : N * N) : bool := (l.1 <? r.2) && (r.1 <? l.2).

(** [parse_footer], of [FOOTER_LEN] bytes *)
Definition parse_strict_footer (b : bytes) : X ParsedFooter :=
  check bool_decide (slice b 0 8 = FOOTER_MAGIC) else InvalidMagic "footer" in
  let* footer_len := read_u16 b 8 in
  check footer_len =? FOOTER_LEN else InvalidLength "footer" in
  let* version := read_u16 b 10 in
  check version =? 2 else InvalidVersion in
  let* flags := read_u32 b 12 in
  check flags =? 0 else InvalidFlags "footer" in
  let* digest := read_u16 b 72 in
  check digest =? DIGEST_SHA256 else UnsupportedDigest in
  let* _ := require_zero (slice b 74 80) "footer" in
  let* _ := require_zero (slice b 144 160) "footer" in
  let* commit_start := read_u64 b 16 in
  let* commit_len := read_u64 b 24 in
  let* snapshot_offset := read_u64 b 32 in
  let* snapshot_len := read_u64 b 40 in
  let* sequence := read_u64 b 48 in
  let* previous_footer_offset := read_u64 b 56 in
  let* record_count := read_u64 b 64 in
  let* snapshot_digest := read_array 32 b 80 in
  let* commit_digest := read_array 32 b 112 in
  let* semantics := read_array 104 b 8 in
  Ok (mkParsedFooter
        (mkFooter commit_start commit_len snapshot_offset snapshot_len sequence previous_footer_offset record_count
           snapshot_digest commit_digest)
        semantics).

Definition parse_leaf_entry (b : bytes) : X LeafEntry :=
  check len b =? LEAF_ENTRY_LEN else InvalidEntrySize in
  let* object_id := read_u64 b 0 in
  let* kind := read_u16 b 8 in
  check negb (object_id =? 0) else InvalidObjectId in
  check negb (kind =? 0) else InvalidObjectKind in
  let* flags := read_u16 b 10 in
  check flags =? 0 else InvalidFlags "leaf entry" in
  let* flags := read_u32 b 12 in
  check flags =? 0 else InvalidFlags "leaf entry" in
  let* _ := require_zero (slice b 72 88) "leaf entry" in
  let* record_offset := read_u64 b 16 in
  let* record_len := read_u64 b 24 in
  let* logical_len := read_u64 b 32 in
  let* record_digest := read_array 32 b 40 in
  Ok (mkLeafEntry object_id kind record_offset record_len logical_len record_digest).

Definition parse_internal_entry (b : bytes) : X SourceChild :=
  check len b =? INTERNAL_ENTRY_LEN else InvalidEntrySize in
  let* minimum := read_u64 b 0 in
  let* maximum := read_u64 b 8 in
  check negb ((minimum =? 0) || (maximum <? minimum)) else InvalidPageRange in
  let* page_len := read_u32 b 24 in
  check page_len =? PAGE_SIZE else InvalidLength "child page" in
  let* flags := read_u16 b 30 in
  check flags =? 0 else InvalidFlags "internal entry" in
  let* offset := read_u64 b 16 in
  let* level := read_u16 b 28 in
  let* digest := read_array 32 b 32 in
  Ok (mkSourceChild minimum maximum offset level digest).

(** The [match kind] of [parse_page]; the entries of a page are counted in 16
    bits, so the sizes do not overflow. *)
Definition parse_strict_body (b : bytes) (kind level count entry_size minimum maximum sequence : N) : X SourcePage :=
  if kind =? 1 then
    check level =? 0 else InvalidPageLevel in
    check entry_size =? LEAF_ENTRY_LEN else InvalidEntrySize in
    check negb (LEAF_CAPACITY <? count) else InvalidEntryCount in
    let* used := ok_or (checked_mul count LEAF_ENTRY_LEN) ArithmeticOverflow in
    let* used := ok_or (checked_add PAGE_HEADER_LEN used) ArithmeticOverflow in
    let* _ := require_zero (slice b used (len b)) "page padding" in
    let* leaves := parse_entries parse_leaf_entry LEAF_ENTRY_LEN count b in
    check bool_decide (le_object_id <$> head leaves = Some minimum) && bool_decide (le_object_id <$> last leaves = Some maximum)
      else UnorderedEntries in
    let* _ := no_window (fun x y => le_object_id y <=? le_object_id x) UnorderedEntries leaves in
    Ok (mkSourcePage kind level minimum maximum sequence leaves [])
  else if kind =? 2 then
    check negb (level =? 0) else InvalidPageLevel in
    check entry_size =? INTERNAL_ENTRY_LEN else InvalidEntrySize in
    check negb (INTERNAL_CAPACITY <? count) else InvalidEntryCount in
    let* used := ok_or (checked_mul count INTERNAL_ENTRY_LEN) ArithmeticOverflow in
    let* used := ok_or (checked_add PAGE_HEADER_LEN used) ArithmeticOverflow in
    let* _ := require_zero (slice b used (len b)) "page padding" in
    let* children := parse_entries parse_internal_entry INTERNAL_ENTRY_LEN count b in
    check bool_decide (sc_minimum <$> head children = Some minimum) && bool_decide (sc_maximum <$> last children = Some maximum)
      else InvalidPageReference in
    let* _ := no_window (fun x y => sc_minimum y <=? sc_maximum x) InvalidPageReference children in
    check negb (existsb (fun child => negb (bool_decide (checked_add_u16 (sc_level child) 1 = Some level))) children)
      else InvalidPageReference in
    Ok (mkSourcePage kind level minimum maximum sequence [] children)
  else Err InvalidPageKind.

(** [parse_page], of [PAGE_SIZE] bytes *)
Definition parse_strict_page (b : bytes) : X SourcePage :=
  check bool_decide (slice b 0 4 = PAGE_MAGIC) else InvalidMagic "page" in
  let kind := le_decode (slice b 4 5) in
  let level := le_decode (slice b 5 6) in
  let* header_len := read_u16 b 6 in
  check header_len =? PAGE_HEADER_LEN else InvalidLength "page header" in
  let* count := read_u16 b 8 in
  check negb (count =? 0) else InvalidEntryCount in
  let* entry_size := read_u16 b 10 in
  let* flags := read_u32 b 12 in
  check flags =? 0 else InvalidFlags "page" in
  let* minimum := read_u64 b 16 in
  let* maximum := read_u64 b 24 in
  check negb ((minimum =? 0) || (maximum <? minimum)) else InvalidPageRange in
  let* _ := require_zero (slice b 40 64) "page header" in
  let* sequence := read_u64 b 32 in
  parse_strict_body b kind level count entry_size minimum maximum sequence.

(** [parse_object_header], of [OBJECT_HEADER_LEN] bytes; the record
    [ParsedObjectHeader] has the fields of [ObjectHeader]. *)
Definition parse_object_header (b : bytes) : X ObjectHeader :=
  check bool_decide (slice b 0 4 = OBJECT_MAGIC) else InvalidMagic "object" in
  let* header_len := read_u16 b 4 in
  check header_len =? OBJECT_HEADER_LEN else InvalidLength "object header" in
  let* kind := read_u16 b 6 in
  check negb (kind =? 0) else InvalidObjectKind in
  let* flags := read_u32 b 8 in
  check flags =? 0 else InvalidFlags "object" in
  let* object_id := read_u64 b 12 in
  check negb (object_id =? 0) else InvalidObjectId in
  let* payload_len := read_u64 b 20 in
  let* logical_len := read_u64 b 28 in
  check payload_len =? logical_len else LogicalLengthMismatch in
  let* _ := require_zero (slice b 36 48) "object" in
  Ok (mkObjectHeader object_id kind payload_len logical_len).

(** ** Strict validation *)

(** What [validate_directory] has found so far. *)
Record SourceWalk : Type := mkSourceWalk {
  dw_visited : gset N;
  dw_entries : list LeafEntry;
  dw_page_ranges : list (N * N);
}.

Section Strict.
Context `{Sha256} {S : Type} `{ReadAt S} (file_len : N) (limits : Exp0002SourceLimits).

(** [BudgetedSource::digest_range] *)
Definition rd_digest_range (domain : bytes) (offset length : N) (context : string) : SM S bytes :=
  let! hasher := rd_hash_range file_len limits (hasher_update hasher_new domain) offset length context in
  sm_ret (hasher_finalize hasher).

(** [validate_parent_link] *)
Definition strict_parent_link (footer_offset : N) (footer : Footer) (snapshot : Snapshot) : SM S unit :=
  if ft_previous_footer_offset footer =? ABSENT_OFFSET then
    check! (ft_sequence footer =? 0) && (ft_commit_start footer =? 0) && bool_decide (sn_parent_snapshot_digest snapshot = zeros 32)
      else InvalidParent in
    sm_ret tt
  else
    check! ft_previous_footer_offset footer <? footer_offset else InvalidPreviousFooter in
    let! previous_end := sm_lift (ok_or (checked_add (ft_previous_footer_offset footer) FOOTER_LEN) ArithmeticOverflow) in
    check! ft_commit_start footer =? previous_end else InvalidPreviousFooter in
    let! previous_bytes := rd_read_array file_len limits FOOTER_LEN (ft_previous_footer_offset footer) "previous footer" in
    let! parsed := sm_lift (parse_strict_footer previous_bytes) in
    let previous := pf_footer parsed in
    check! bool_decide (ft_snapshot_digest previous = sn_parent_snapshot_digest snapshot) else InvalidParent in
    let! next_sequence := sm_lift (ok_or (checked_add (ft_sequence previous) 1) ArithmeticOverflow) in
    check! next_sequence =? ft_sequence footer else InvalidParent in
    sm_ret tt.

(** One page: the walk after it, and what it pushes on the stack. *)
Definition strict_page (snapshot : Snapshot) (snapshot_range footer_range : N * N) (expected : StrictPage) (w : SourceWalk)
    : SM S (SourceWalk * list StrictPage) :=
  check! negb (max_page_depth (so_validation limits) <? sp_depth expected) else ResourceLimit "page depth" in
  let! visited := sm_lift (ok_or (try_insert (sp_offset expected) (dw_visited w)) PageCycle) in
  check! negb (max_pages (so_validation limits) <? N.of_nat (size visited)) else ResourceLimit "pages" in
  let! st := sm_stats in
  let! pages_read := sm_lift (ok_or (checked_add (ss_pages_read st) 1) ArithmeticOverflow) in
  let! _ := sm_set_stats (set_pages_read pages_read) in
  check! negb (so_max_page_reads limits <? pages_read) else ResourceLimit "source page reads" in
  let! range := sm_lift (byte_range (sp_offset expected) PAGE_SIZE file_len) in
  check! negb (overlaps range snapshot_range || overlaps range footer_range || existsb (overlaps range) (dw_page_ranges w))
    else PhysicalOverlap in
  let! page := rd_read_array file_len limits PAGE_SIZE (sp_offset expected) "directory page" in
  let! _ := rd_add_hashed limits PAGE_SIZE in
  check! bool_decide (digest_bytes PAGE_DOMAIN page = sp_digest expected) else DigestMismatch "page" in
  let! parsed := sm_lift (parse_strict_page page) in
  check! negb (negb (pg_level parsed =? sp_level expected)
               || is_some_and (sp_minimum expected) (fun value => negb (value =? pg_minimum parsed))
               || is_some_and (sp_maximum expected) (fun value => negb (value =? pg_maximum parsed))
               || negb (pg_sequence parsed =? sn_sequence snapshot)) else InvalidPageReference in
  let page_ranges := dw_page_ranges w ++ [range] in
  if pg_kind parsed =? 1 then
    let entries := dw_entries w ++ pg_leaves parsed in
    check! negb (max_objects (so_validation limits) <? len entries) else ResourceLimit "objects" in
    sm_ret (mkSourceWalk visited entries page_ranges, [])
  else if pg_kind parsed =? 2 then
    let! depth := sm_lift (ok_or (checked_add (sp_depth expected) 1) ArithmeticOverflow) in
    sm_ret (mkSourceWalk visited (dw_entries w) page_ranges,
            (fun child => mkStrictPage (sc_offset child) (sc_digest child) (sc_level child) (Some (sc_minimum child))
                            (Some (sc_maximum child)) depth) <$> pg_children parsed)
  else sm_fail InvalidPageKind.

(** [while let Some(expected) = stack.pop()]. The stack is a list whose head is
    the top: the children are pushed in reverse, so the first is on top. *)
Fixpoint strict_walk (fuel : nat) (snapshot : Snapshot) (snapshot_range footer_range : N * N) (stack : list StrictPage)
    (w : SourceWalk) : SM S SourceWalk :=
  match stack with
  | [] => sm_ret w
  | expected :: stack =>
      match fuel with
      | O => sm_fail PageCycle
      | Datatypes.S fuel =>
          let! (w, pushed) := strict_page snapshot snapshot_range footer_range expected w in
          strict_walk fuel snapshot snapshot_range footer_range (pushed ++ stack) w
      end
  end.

(** [validate_directory]; every page counts as one page read, and those are
    bounded by [max_page_reads]. *)
Definition strict_directory (snapshot : Snapshot) (snapshot_range footer_range : N * N) : SM S DirectoryValidation :=
  let root := mkStrictPage (sn_directory_root_offset snapshot) (sn_directory_root_digest snapshot)
                (sn_directory_root_level snapshot) None None 1 in
  let! w := strict_walk (Datatypes.S (Datatypes.S (N.to_nat (so_max_page_reads limits)))) snapshot snapshot_range footer_range [root]
              (mkSourceWalk ∅ [] []) in
  let entries := sort_by (cmp_on le_object_id N.compare) (dw_entries w) in
  let! _ := sm_lift (check_windows (fun x y => if le_object_id y <=? le_object_id x then Some (DuplicateObjectId (le_object_id y)) else None)
                       entries) in
  sm_ret (mkDirectoryValidation entries (dw_page_ranges w) (N.of_nat (size (dw_visited w)))).

(** One entry of [validate_objects], with the ranges and the payload total so
    far. *)
Definition strict_object (page_ranges : list (N * N)) (snapshot_range footer_range : N * N) (st : list (N * N) * N)
    (entry : LeafEntry) : SM S (list (N * N) * N) :=
  let '(physical, payload_total) := st in
  check! negb (le_record_len entry <? OBJECT_HEADER_LEN) else InvalidLength "object record" in
  let! range := sm_lift (byte_range (le_record_offset entry) (le_record_len entry) file_len) in
  check! negb (overlaps range snapshot_range || overlaps range footer_range || existsb (overlaps range) page_ranges)
    else PhysicalOverlap in
  let! header := rd_read_array file_len limits OBJECT_HEADER_LEN (le_record_offset entry) "object header" in
  let! parsed := sm_lift (parse_object_header header) in
  let! expected_len := sm_lift (ok_or (checked_add OBJECT_HEADER_LEN (oh_payload_len parsed)) ArithmeticOverflow) in
  check! (oh_object_id parsed =? le_object_id entry) && (oh_kind parsed =? le_kind entry)
         && (oh_logical_len parsed =? le_logical_len entry) && (expected_len =? le_record_len entry)
    else InvalidLength "object locator" in
  let! payload_total := sm_lift (ok_or (checked_add payload_total (oh_payload_len parsed)) ArithmeticOverflow) in
  check! negb (max_payload_bytes (so_validation limits) <? payload_total) else ResourceLimit "payload bytes" in
  let! digest := rd_digest_range OBJECT_DOMAIN (le_record_offset entry) (le_record_len entry) "object record" in
  check! bool_decide (digest = le_record_digest entry) else DigestMismatch "object" in
  sm_ret (physical ++ [range], payload_total).

Fixpoint strict_object_loop (page_ranges : list (N * N)) (snapshot_range footer_range : N * N) (entries : list LeafEntry)
    (st : list (N * N) * N) : SM S (list (N * N) * N) :=
  match entries with
  | [] => sm_ret st
  | entry :: entries =>
      let! st := strict_object page_ranges snapshot_range footer_range st entry in
      strict_object_loop page_ranges snapshot_range footer_range entries st
  end.

(** [validate_objects] *)
Definition strict_objects (entries : list LeafEntry) (page_ranges : list (N * N)) (snapshot_range footer_range : N * N) : SM S unit :=
  let! (physical, _) := strict_object_loop page_ranges snapshot_range footer_range entries ([], 0) in
  let physical := sort_by (cmp_on fst N.compare) physical in
  sm_lift (no_window overlaps PhysicalOverlap physical).

(** [validate_strict_at], from the snapshot on. *)
Definition strict_commit (header : FileHeader) (footer_offset : N) (parsed_footer : ParsedFooter) (snapshot_range : N * N)
    : SM S VerifiedExp0002Source :=
  let footer := pf_footer parsed_footer in
  check! negb (max_snapshot_bytes (so_validation limits) <? ft_snapshot_len footer) else ResourceLimit "snapshot bytes" in
  let! snapshot_bytes := rd_read_vec file_len limits (ft_snapshot_offset footer) (ft_snapshot_len footer) "snapshot" in
  let! _ := rd_add_hashed limits (ft_snapshot_len footer) in
  check! bool_decide (digest_bytes SNAPSHOT_DOMAIN snapshot_bytes = ft_snapshot_digest footer) else DigestMismatch "snapshot" in
  let! snapshot := sm_lift (snapshot_parse snapshot_bytes (so_validation limits)) in
  check! (sn_sequence snapshot =? ft_sequence footer) && (sn_previous_footer_offset snapshot =? ft_previous_footer_offset footer)
    else InvalidSnapshotSequence in
  let! _ := strict_parent_link footer_offset footer snapshot in
  let! footer_range := sm_lift (byte_range footer_offset FOOTER_LEN file_len) in
  let! directory := strict_directory snapshot snapshot_range footer_range in
  let! _ := strict_objects (dv_entries directory) (dv_page_ranges directory) snapshot_range footer_range in
  let object_ids : gset N := list_to_set (le_object_id <$> dv_entries directory) in
  check! negb (bool_decide (sn_roots snapshot = []))
         && negb (existsb (fun root => negb (bool_decide (root ∈ object_ids))) (sn_roots snapshot)) else InvalidRoot in
  let! commit_hasher := rd_hash_range file_len limits (hasher_update hasher_new COMMIT_DOMAIN) (ft_commit_start footer)
                          (ft_commit_len footer) "commit" in
  let commit_hasher := hasher_update commit_hasher (pf_semantics parsed_footer) in
  check! bool_decide (hasher_finalize commit_hasher = ft_commit_digest footer) else DigestMismatch "commit" in
  let! st := sm_stats in
  sm_ret (mkVerifiedSource header footer_offset footer snapshot (dv_entries directory) (dv_pages directory) st).

(** [validate_strict_at], from the reader on. *)
Definition strict_body : SM S VerifiedExp0002Source :=
  let! header_bytes := rd_read_array file_len limits FILE_HEADER_LEN 0 "file header" in
  let! header := sm_lift (file_header_parse header_bytes) in
  let! footer_offset := sm_lift (ok_or (checked_sub file_len FOOTER_LEN) Truncated) in
  let! footer_bytes := rd_read_array file_len limits FOOTER_LEN footer_offset "footer" in
  let! parsed_footer := sm_lift (parse_strict_footer footer_bytes) in
  let footer := pf_footer parsed_footer in
  let! expected_commit_end := sm_lift (ok_or (checked_add (ft_commit_start footer) (ft_commit_len footer)) ArithmeticOverflow) in
  check! expected_commit_end =? footer_offset else InvalidCommitRange in
  check! negb (max_commit_bytes (so_validation limits) <? ft_commit_len footer) else ResourceLimit "commit bytes" in
  check! negb (ft_snapshot_offset footer <? ft_commit_start footer) else InvalidCommitRange in
  let! snapshot_range := sm_lift (byte_range (ft_snapshot_offset footer) (ft_snapshot_len footer) file_len) in
  check! negb (footer_offset <? snapshot_range.2) else InvalidCommitRange in
  strict_commit header footer_offset parsed_footer snapshot_range.
End Strict.

(** [validate_strict_at]: the result, and the source after it. *)
Definition validate_strict_at `{Sha256} {S} `{ReadAt S} (s : S) (limits : Exp0002SourceLimits)
    : result Exp0002SourceError VerifiedExp0002Source * S :=
  match validate_limit_configuration limits with
  | Err e => (Err (SourceFormat e), s)
  | Ok _ =>
      match source_len s with
      | (Err _, s) => (Err (SourceIo "source length"), s)
      | (Ok file_len, s) =>
          if max_file_bytes (so_validation limits) <? file_len then (Err (SourceFormat (ResourceLimit "file bytes")), s)
          else if file_len <? FILE_HEADER_LEN + FOOTER_LEN then (Err (SourceFormat Truncated), s)
          else
            let '(res, r) := strict_body file_len limits (mkReader s default_source_stats) in
            (res, rd_source r)
      end
  end.
