(* ===== verification/Exp0002SourceFacts.v ===== *)
(** Reading an EXP-0002 file through the budgeted reader: what every read of a
    source that presents the bytes of a file gives and costs, and the rules that
    carry this through a whole reader. *)

From Stdlib Require Import Strings.Byte Strings.String NArith ZArith Lia.
From stdpp Require Import base list gmap strings sorting.
From S2P Require Import Prelude Order Digest Machine Source SourceFacts Exp0002 Exp0002File Exp0002Lookup Exp0002Source Exp0002SourceStrict.

Local Open Scope N_scope.

(** ** Sources that present a file *)

(** Whatever a source that presents [b] answers is part of [b]; a reliable one
    always answers. *)
Class PresentsSource (S : Type) `{ReadAt S} (presents : S -> bytes -> Prop) (reliable : Prop) : Prop := {
  presents_len s b : presents s b -> len b <= U64_MAX ->
    presents (source_len s).2 b /\ match (source_len s).1 with Ok n => n = len b | Err _ => ~ reliable end;
  presents_read s b offset n : presents s b -> len b <= U64_MAX -> offset + n <= len b ->
    presents (read_exact_at s offset n).2 b /\
    match (read_exact_at s offset n).1 with Ok x => x = slice b offset (offset + n) | Err _ => ~ reliable end;
}.

#[export] Instance stable_presents {S} `{ReadAt S} (presents : S -> bytes -> Prop) `{!StableSource S presents} :
  PresentsSource S presents True.
Proof.
  split.
  - intros s b Hs Hb. destruct (stable_len s b Hs Hb) as [-> ?]. done.
  - intros s b offset n Hs Hb Hr. destruct (stable_read s b offset n Hs Hb Hr) as [-> ?]. done.
Qed.

(** ** What reading costs *)

Definition stats_add (c d : Exp0002SourceStats) : Exp0002SourceStats :=
  mkSourceStats (ss_read_operations c + ss_read_operations d) (ss_bytes_read c + ss_bytes_read d)
    (N.max (ss_largest_request c) (ss_largest_request d)) (ss_bytes_hashed c + ss_bytes_hashed d) (ss_pages_read c + ss_pages_read d).

Infix "⊕" := stats_add (at level 50, left associativity) : ucof_scope.

Definition reading (operations amount largest : N) : Exp0002SourceStats := mkSourceStats operations amount largest 0 0.
Definition hashing (amount : N) : Exp0002SourceStats := mkSourceStats 0 0 0 amount 0.
Definition one_page : Exp0002SourceStats := mkSourceStats 0 0 0 0 1.

Definition stats_le (c d : Exp0002SourceStats) : Prop :=
  ss_read_operations c <= ss_read_operations d /\ ss_bytes_read c <= ss_bytes_read d /\
  ss_largest_request c <= ss_largest_request d /\ ss_bytes_hashed c <= ss_bytes_hashed d /\ ss_pages_read c <= ss_pages_read d.

Infix "⊑" := stats_le (at level 70) : ucof_scope.

Lemma stats_eq (c d : Exp0002SourceStats) : c ⊑ d -> d ⊑ c -> c = d.
Proof. unfold stats_le. destruct c, d. cbn. intros. f_equal; lia. Qed.

(** Goals about sums of costs. *)
Ltac stats_solve :=
  repeat match goal with
  | |- _ = _ => apply stats_eq
  | H : _ ⊑ _ |- _ => unfold stats_le in H; cbn in H
  | |- _ ⊑ _ => unfold stats_le; cbn
  end;
  repeat match goal with |- context [?x / ?y] => let q := fresh "q" in set (q := x / y) in *; clearbody q end; intuition lia.

#[export] Instance stats_le_order : PreOrder stats_le.
Proof. split; [intros c|intros c d e]; unfold stats_le; intuition lia. Qed.

Lemma stats_le_add c d : c ⊑ c ⊕ d.
Proof. stats_solve. Qed.
Lemma stats_add_assoc c d e : c ⊕ (d ⊕ e) = c ⊕ d ⊕ e.
Proof. stats_solve. Qed.
Lemma stats_add_zero c : c ⊕ default_source_stats = c.
Proof. stats_solve. Qed.
Lemma stats_zero_add c : default_source_stats ⊕ c = c.
Proof. stats_solve. Qed.

(** Blocks of [block] bytes, the last one possibly shorter. *)
Definition in_blocks (length block : N) : Exp0002SourceStats := reading ((length + (block - 1)) / block) length (N.min length block).

Lemma in_blocks_none block : 0 < block -> in_blocks 0 block = default_source_stats.
Proof. intros Hb. unfold in_blocks. rewrite N.add_0_l, N.div_small, N.min_0_l by lia. done. Qed.

Lemma in_blocks_step length block : 0 < block -> 0 < length ->
  in_blocks length block = reading 1 (N.min length block) (N.min length block) ⊕ in_blocks (length - N.min length block) block.
Proof.
  intros Hb Hl. assert (Hdiv : (length + (block - 1)) / block = 1 + (length - N.min length block + (block - 1)) / block).
  { destruct (N.le_gt_cases block length) as [Hle|Hlt].
    - rewrite N.min_r by done. replace (length + (block - 1)) with (length - block + (block - 1) + 1 * block) by lia. rewrite N.div_add by lia. lia.
    - rewrite N.min_l by lia. rewrite N.sub_diag, N.add_0_l, (N.div_small (block - 1)) by lia.
      replace (length + (block - 1)) with (length - 1 + 1 * block) by lia. rewrite N.div_add, N.div_small by lia. lia. }
  unfold in_blocks. rewrite Hdiv. stats_solve.
Qed.

(** Enough turns for what remains. *)
Definition enough (fuel : nat) (remaining block : N) : Prop := remaining = 0 \/ remaining / block < N.of_nat fuel.

Lemma enough_step fuel remaining block : 0 < block -> 0 < remaining -> enough (Datatypes.S fuel) remaining block ->
  enough fuel (remaining - N.min remaining block) block.
Proof.
  intros Hb Hr [->|He]; [lia|]. destruct (N.le_gt_cases remaining block) as [Hle|Hgt]; [left; lia|right]. rewrite N.min_r by lia.
  assert (Hx : remaining = remaining - block + 1 * block) by lia. rewrite Hx in He. rewrite N.div_add in He by lia.
  revert He. generalize ((remaining - block) / block). intros q Hq. lia.
Qed.

Lemma enough_all remaining block : enough (Datatypes.S (N.to_nat (remaining / block))) remaining block.
Proof. right. generalize (remaining / block). intros q. lia. Qed.

(** ** Exact runs *)

Section Exact.
Context {S : Type} `{ReadAt S} {presents : S -> bytes -> Prop} {reliable : Prop} `{!PresentsSource S presents reliable}.
Context (b : bytes) (limits : Exp0002SourceLimits).

(** The counters are within the limits, and have not overflowed. *)
Definition fits (st : Exp0002SourceStats) : Prop :=
  ss_read_operations st <= so_max_read_operations limits /\ ss_read_operations st <= U64_MAX /\
  ss_bytes_read st <= so_max_source_bytes_read limits /\ ss_bytes_read st <= U64_MAX /\
  ss_bytes_hashed st <= max_hashed_bytes (so_validation limits) /\ ss_bytes_hashed st <= U64_MAX /\
  ss_pages_read st <= so_max_page_reads limits /\ ss_pages_read st <= U64_MAX.

Lemma fits_mono c d : c ⊑ d -> fits d -> fits c.
Proof. unfold stats_le, fits. intuition lia. Qed.

(** With the counters at [i], [m] succeeds with a result and counters of
    [spec] that fit, or there are none; a source that fails is not reliable. *)
Definition exactly {A} (i : Exp0002SourceStats) (m : SM S A) (spec : A -> Exp0002SourceStats -> Prop) : Prop :=
  forall s, presents s b -> fits i ->
  presents (rd_source (m (mkReader s i)).2) b /\
  match (m (mkReader s i)).1 with
  | Ok a => let f := rd_stats (m (mkReader s i)).2 in spec a f /\ fits f
  | Err (SourceIo _) => ~ reliable
  | Err (SourceFormat _) => forall a f, spec a f -> ~ fits f
  end.

Implicit Types i j : Exp0002SourceStats.

Lemma exactly_ret {A} i (a : A) (spec : A -> _ -> Prop) : spec a i -> exactly i (sm_ret a) spec.
Proof. intros Hs s Hp Hf. done. Qed.

Lemma exactly_assume {A} i (m : SM S A) (spec : A -> _ -> Prop) : (fits i -> exactly i m spec) -> exactly i m spec.
Proof. intros Hm s Hp Hf. by apply Hm. Qed.

Lemma exactly_fail {A} i e (spec : A -> _ -> Prop) : (forall a f, spec a f -> ~ fits f) -> exactly i (sm_fail e) spec.
Proof. intros Hs s Hp Hf. done. Qed.

Lemma exactly_weaken {A} i (m : SM S A) (spec spec' : A -> _ -> Prop) :
  exactly i m spec -> (forall a f, fits f -> spec a f <-> spec' a f) -> exactly i m spec'.
Proof.
  intros Hm Heq s Hp Hf. specialize (Hm s Hp Hf) as [Hp' Hm]. split; [done|]. destruct (m _).1 as [a|[e|c]]; [|naive_solver|done].
  destruct Hm as [Hm1 Hm2]. split; [by apply Heq|done].
Qed.

Lemma exactly_lift {A B} i (x : X A) (k : A -> SM S B) spec :
  (forall a f, spec a f -> fits f -> exists y, x = Ok y) -> (forall y, x = Ok y -> exactly i (k y) spec) -> exactly i (sm_bind (sm_lift x) k) spec.
Proof.
  intros He Hk s Hp Hf. unfold sm_bind, sm_lift. destruct x as [y|e]; [by apply Hk|]. cbn. split; [done|]. intros a f Ha Hfit.
  by destruct (He a f Ha Hfit).
Qed.

Lemma exactly_last_lift {A} i (x : X A) (spec : A -> _ -> Prop) :
  (forall a f, spec a f -> fits f -> exists y, x = Ok y) -> (forall y, x = Ok y -> spec y i) -> exactly i (sm_lift x) spec.
Proof.
  intros He Hk s Hp Hf. unfold sm_lift. destruct x as [y|e]; cbn; [auto|]. split; [done|]. intros a f Ha Hfit. by destruct (He a f Ha Hfit).
Qed.

Lemma exactly_check {A} i (c : bool) e (m : SM S A) (spec : A -> _ -> Prop) :
  (forall a f, spec a f -> fits f -> c = true) -> (c = true -> exactly i m spec) -> exactly i (if c then m else sm_fail e) spec.
Proof.
  intros He Hm. destruct c; [by apply Hm|]. apply exactly_fail. intros a f Ha Hf. by discriminate (He a f Ha Hf).
Qed.

Lemma exactly_stats {A} i (k : Exp0002SourceStats -> SM S A) spec : exactly i (k i) spec -> exactly i (sm_bind sm_stats k) spec.
Proof. intros Hk s Hp Hf. by apply Hk. Qed.

Lemma exactly_bind {A B} i (m : SM S A) (k : A -> SM S B) spec1 spec :
  exactly i m spec1 -> (forall a f, spec a f -> fits f -> exists y j, spec1 y j /\ j ⊑ f) ->
  (forall y j, spec1 y j -> exactly j (k y) spec) -> exactly i (sm_bind m k) spec.
Proof.
  intros Hm He Hk s Hp Hf. specialize (Hm s Hp Hf) as [Hp' Hm]. unfold sm_bind. destruct (m (mkReader s i)) as [[y|e] [s' j]]; cbn in *.
  - destruct Hm as [Hs Hj]. by apply (Hk y j Hs).
  - split; [done|]. destruct e as [e|c]; [|done]. intros a f Ha Hff. destruct (He a f Ha Hff) as (y & j0 & Hy & Hj). apply (Hm y j0 Hy). by eapply fits_mono.
Qed.

(** A part whose result and cost are known. *)
Definition known {A} (y : A) (f : Exp0002SourceStats) (R : Prop) (y' : A) (f' : Exp0002SourceStats) : Prop := y' = y /\ f' = f /\ R.

Lemma exactly_known {A B} i (m : SM S A) (k : A -> SM S B) y j R spec :
  exactly i m (known y j R) -> (forall a f, spec a f -> fits f -> R /\ j ⊑ f) -> (R -> exactly j (k y) spec) -> exactly i (sm_bind m k) spec.
Proof.
  intros Hm He Hk. eapply exactly_bind; [exact Hm| |].
  - intros a f Ha Hf. destruct (He a f Ha Hf). exists y, j. done.
  - intros y' j' (-> & -> & HR). by apply Hk.
Qed.

(** ** The reader *)

Context (Hmax : len b <= U64_MAX) (Hrequest : PAGE_SIZE <= so_max_read_request_bytes limits) (Hblock : 0 < so_hash_block_bytes limits)
  (Hblocks : so_hash_block_bytes limits <= so_max_read_request_bytes limits).

Lemma exactly_read offset n context i : n <= so_max_read_request_bytes limits ->
  exactly i (rd_read_exact (len b) limits offset n context)
    (known (slice b offset (offset + n)) (i ⊕ reading 1 n n) (offset + n <= len b)).
Proof.
  intros Hn s Hp Hf. unfold rd_read_exact. rewrite (proj2 (N.ltb_ge _ n) Hn). cbn [negb]. unfold sm_bind, sm_lift, sm_stats, sm_set_stats.
  assert (Hno : forall (P : Prop), ~ P -> forall (a : bytes) f, known (slice b offset (offset + n)) (i ⊕ reading 1 n n) P a f -> ~ fits f)
    by (intros P HP a f (_ & _ & Hc); done).
  assert (Hover : forall (P : Prop), ~ fits (i ⊕ reading 1 n n) -> forall (a : bytes) f, known (slice b offset (offset + n)) (i ⊕ reading 1 n n) P a f -> ~ fits f)
    by (intros P Hnf a f (_ & -> & _); done).
  destruct (try_u64 n) as [n'|] eqn:En; cbn [ok_or].
  2: { cbn. split; [done|]. apply Hno. intros Hr. rewrite try_u64_fits in En by lia. done. }
  apply try_u64_Some in En as [-> Hn']. destruct (checked_add offset n) as [e|] eqn:Ee; cbn [ok_or].
  2: { cbn. split; [done|]. apply Hno. intros Hr. rewrite checked_add_fits in Ee by lia. done. }
  apply checked_add_Some in Ee as [-> He]. destruct (N.ltb_spec (len b) (offset + n)) as [Hlt|Hin]; cbn [negb].
  { cbn. split; [done|]. apply Hno. lia. }
  cbn [rd_stats rd_source]. assert (Hfit : fits (i ⊕ reading 1 n n) <->
    ss_read_operations i + 1 <= so_max_read_operations limits /\ ss_read_operations i + 1 <= U64_MAX /\
    ss_bytes_read i + n <= so_max_source_bytes_read limits /\ ss_bytes_read i + n <= U64_MAX).
  { unfold fits in *. cbn. rewrite !N.add_0_r. intuition. }
  destruct (checked_add (ss_read_operations i) 1) as [ops|] eqn:Eo; cbn [ok_or].
  2: { cbn. split; [done|]. apply Hover. rewrite Hfit. intros (_ & Ho & _). rewrite checked_add_fits in Eo by done. done. }
  apply checked_add_Some in Eo as [-> Ho]. destruct (N.ltb_spec (so_max_read_operations limits) (ss_read_operations i + 1)); cbn [negb].
  { cbn. split; [done|]. apply Hover. rewrite Hfit. lia. }
  destruct (checked_add (ss_bytes_read i) n) as [total|] eqn:Et; cbn [ok_or].
  2: { cbn. split; [done|]. apply Hover. rewrite Hfit. intros (_ & _ & _ & Ht). rewrite checked_add_fits in Et by done. done. }
  apply checked_add_Some in Et as [-> Ht]. cbn [rd_stats rd_source]. destruct (N.ltb_spec (so_max_source_bytes_read limits) (ss_bytes_read i + n)); cbn [negb].
  { cbn. split; [done|]. apply Hover. rewrite Hfit. lia. }
  unfold sm_source_read. cbn [rd_stats rd_source]. destruct (presents_read s b offset n Hp Hmax Hin) as [Hp' Hres].
  destruct (read_exact_at s offset n) as [[x|e] s']; cbn in *; [|done]. split; [done|]. subst x. split; [split_and!; [done| |done]|].
  - destruct i. unfold set_largest_request, set_bytes_read, set_read_operations. stats_solve.
  - apply (fits_mono _ (i ⊕ reading 1 n n)); [unfold set_largest_request, set_bytes_read, set_read_operations; stats_solve|]. apply Hfit. split_and!; done.
Qed.

Lemma exactly_read_array n offset context i : n <= PAGE_SIZE ->
  exactly i (rd_read_array (len b) limits n offset context)
    (known (slice b offset (offset + n)) (i ⊕ reading 1 n n) (offset + n <= len b)).
Proof. intros Hn. apply exactly_read. lia. Qed.

Lemma exactly_chunks fuel : forall offset length cursor context filled i,
  cursor <= length -> offset + length <= len b -> enough fuel (length - cursor) (so_max_read_request_bytes limits) ->
  exactly i (read_chunks (len b) limits fuel offset length cursor context filled)
    (known (filled ++ slice b (offset + cursor) (offset + length)) (i ⊕ in_blocks (length - cursor) (so_max_read_request_bytes limits)) True).
Proof.
  assert (HPS : 0 < PAGE_SIZE) by done. assert (Hpos : 0 < so_max_read_request_bytes limits) by lia.
  assert (Hdone : forall offset length filled i, exactly i (sm_ret filled)
    (known (filled ++ slice b (offset + length) (offset + length)) (i ⊕ in_blocks (length - length) (so_max_read_request_bytes limits)) True)).
  { intros. apply exactly_ret. rewrite N.sub_diag, in_blocks_none, stats_add_zero by done. unfold slice. by rewrite N.sub_diag, app_nil_r. }
  induction fuel as [|fuel IH]; intros offset length cursor context filled i Hc Hr Hfuel; cbn [read_chunks];
    (destruct (N.ltb_spec cursor length) as [Hlt|Hge]; [|assert (cursor = length) as -> by lia; apply Hdone]); [destruct Hfuel as [|Hfuel%N.nlt_0_r]; [lia|done]|].
  set (n := N.min (length - cursor) (so_max_read_request_bytes limits)).
  assert (Hn : 0 < n /\ n <= length - cursor /\ n <= so_max_read_request_bytes limits) by (unfold n; lia).
  apply exactly_lift; [intros _ _ _ _; rewrite try_u64_fits by lia; by eexists|]. intros c. rewrite try_u64_fits by lia. intros [= <-].
  apply exactly_lift; [intros _ _ _ _; rewrite checked_add_fits by lia; by eexists|]. intros o. rewrite checked_add_fits by lia. intros [= <-].
  eapply exactly_known; [apply exactly_read; lia| |].
  - intros a f (_ & -> & _) _. split; [lia|]. rewrite (in_blocks_step _ _ Hpos) by lia. fold n. stats_solve.
  - intros _. eapply exactly_weaken; [apply IH; [lia|done|]|].
    + replace (length - (cursor + n)) with (length - cursor - n) by lia. apply enough_step; [done|lia|done].
    + intros a f _. unfold known. rewrite (in_blocks_step (length - cursor) _ Hpos) by lia. fold n. rewrite stats_add_assoc.
      replace (length - cursor - n) with (length - (cursor + n)) by lia. rewrite <- app_assoc, N.add_assoc, slice_join by lia. done.
Qed.

Lemma exactly_read_vec offset length context i : offset + length <= len b ->
  exactly i (rd_read_vec (len b) limits offset length context)
    (known (slice b offset (offset + length)) (i ⊕ in_blocks length (so_max_read_request_bytes limits)) True).
Proof.
  intros Hr. unfold rd_read_vec, to_usize. apply exactly_lift; [intros _ _ _ _; rewrite try_u64_fits by lia; by eexists|].
  intros n. rewrite try_u64_fits by lia. intros [= <-].
  eapply exactly_weaken; [apply exactly_chunks; [lia|done|rewrite N.sub_0_r; apply enough_all]|]. intros a f _. by rewrite N.add_0_r, N.sub_0_r.
Qed.

Lemma exactly_add_hashed n i : exactly i (rd_add_hashed (S := S) limits n) (known tt (i ⊕ hashing n) True).
Proof.
  intros s Hp Hf. unfold rd_add_hashed, sm_bind, sm_stats, sm_lift, sm_set_stats. cbn [rd_stats rd_source].
  assert (Hfit : fits (i ⊕ hashing n) <-> ss_bytes_hashed i + n <= max_hashed_bytes (so_validation limits) /\ ss_bytes_hashed i + n <= U64_MAX).
  { unfold fits in *. cbn. rewrite !N.add_0_r. intuition. }
  destruct (checked_add (ss_bytes_hashed i) n) as [h|] eqn:Eh; cbn [ok_or].
  2: { cbn. split; [done|]. intros a f (_ & -> & _). rewrite Hfit. intros [_ Hu]. rewrite checked_add_fits in Eh by done. done. }
  apply checked_add_Some in Eh as [-> Hu]. destruct (N.ltb_spec (max_hashed_bytes (so_validation limits)) (ss_bytes_hashed i + n)); cbn [negb].
  { cbn. split; [done|]. intros a f (_ & -> & _). rewrite Hfit. lia. }
  cbn. split; [done|]. replace (set_bytes_hashed _ i) with (i ⊕ hashing n) by (destruct i; unfold set_bytes_hashed; stats_solve).
  split; [done|]. by apply Hfit.
Qed.

Lemma exactly_blocks fuel : forall hasher cursor remaining context i,
  cursor + remaining <= len b -> enough fuel remaining (so_hash_block_bytes limits) ->
  exactly i (hash_blocks (len b) limits fuel hasher cursor remaining context)
    (known (hasher ++ slice b cursor (cursor + remaining)) (i ⊕ in_blocks remaining (so_hash_block_bytes limits)) True).
Proof.
  assert (Hdone : forall cursor hasher i, exactly i (sm_ret hasher)
    (known (hasher ++ slice b cursor (cursor + 0)) (i ⊕ in_blocks 0 (so_hash_block_bytes limits)) True)).
  { intros. apply exactly_ret. rewrite in_blocks_none, stats_add_zero, N.add_0_r by done. unfold slice. by rewrite N.sub_diag, app_nil_r. }
  induction fuel as [|fuel IH]; intros hasher cursor remaining context i Hr Hfuel; cbn [hash_blocks];
    (destruct (N.ltb_spec 0 remaining) as [Hlt|Hge]; [|assert (remaining = 0) as -> by lia; apply Hdone]); [destruct Hfuel as [|Hfuel%N.nlt_0_r]; [lia|done]|].
  set (n := N.min remaining (so_hash_block_bytes limits)).
  assert (Hn : 0 < n /\ n <= remaining /\ n <= so_hash_block_bytes limits) by (unfold n; lia).
  eapply exactly_known; [apply exactly_read; lia| |].
  - intros a f (_ & -> & _) _. split; [lia|]. rewrite (in_blocks_step _ _ Hblock) by lia. fold n. stats_solve.
  - intros _. apply exactly_lift; [intros _ _ _ _; rewrite checked_add_fits by lia; by eexists|]. intros c. rewrite checked_add_fits by lia. intros [= <-].
    eapply exactly_weaken; [apply IH; [lia|]|].
    + apply enough_step; [done|lia|done].
    + intros a f _. unfold known, hasher_update. rewrite (in_blocks_step remaining _ Hblock) by lia. fold n. rewrite stats_add_assoc.
      replace (cursor + n + (remaining - n)) with (cursor + remaining) by lia. rewrite <- app_assoc, slice_join by lia. done.
Qed.

Lemma exactly_hash_range hasher offset length context i : offset + length <= len b ->
  exactly i (rd_hash_range (len b) limits hasher offset length context)
    (known (hasher_update hasher (slice b offset (offset + length))) (i ⊕ in_blocks length (so_hash_block_bytes limits) ⊕ hashing length) True).
Proof.
  intros Hr. unfold rd_hash_range. eapply exactly_known; [apply exactly_blocks; [done|apply enough_all]| |].
  - intros a f (_ & -> & _) _. split; [done|]. apply stats_le_add.
  - intros _. eapply exactly_known; [apply exactly_add_hashed| |].
    + by intros a f (_ & -> & _) _.
    + intros _. by apply exactly_ret.
Qed.
End Exact.
