(* ===== verification/Exp0002SourceStrictFacts.v ===== *)
(** Strict validation through a source is strict validation of the file it
    presents: the parsers of the two agree, and so do the checks of the
    directory, of the objects and of the commit. *)

From Stdlib Require Import Strings.Byte Strings.String NArith ZArith Lia.
From stdpp Require Import base list gmap strings sorting.
From S2P Require Import Prelude Order Digest Machine Source Exp0002 Exp0002File Exp0002Pages Exp0002Strict Exp0002RoundTrip Exp0002Lookup Exp0002Source Exp0002SourceStrict Exp0002SourceFacts.

Local Open Scope N_scope.

(** ** Parsers *)

Lemma read_array_fits n b offset : offset + n <= len b -> len b <= U64_MAX -> read_array n b offset = Ok (slice b offset (offset + n)).
Proof. intros Hr Hm. apply read_array_Ok; [lia|done]. Qed.

Lemma strict_footer_eq b : len b = FOOTER_LEN ->
  parse_strict_footer b = let* f := footer_parse b in Ok (mkParsedFooter f (slice b 8 112)).
Proof.
  intros Hl. unfold parse_strict_footer, footer_parse, require_len. rewrite Hl, N.ltb_irrefl, N.eqb_refl. cbn [negb].
  rewrite (read_array_fits 104 b 8) by (rewrite Hl; by vm_compute). change (8 + 104) with 112.
  repeat match goal with |- context [match ?x with Ok _ => _ | Err _ => _ end] => destruct x; [|done] | |- context [if ?c then _ else Err _] => destruct c; [|done] end.
  done.
Qed.

Lemma object_header_eq b : len b = OBJECT_HEADER_LEN -> parse_object_header b = object_header_parse b.
Proof. intros Hl. unfold parse_object_header, object_header_parse, require_len. by rewrite Hl, N.ltb_irrefl. Qed.

Lemma leaf_entry_eq b : len b = LEAF_ENTRY_LEN -> parse_leaf_entry b = leaf_parse b.
Proof.
  intros Hl. unfold parse_leaf_entry, leaf_parse, require_len. rewrite Hl, N.eqb_refl, N.ltb_irrefl. cbn [negb].
  destruct (read_u64 b 0) as [id|e]; [|done]. unfold read_u16 at 1 3. rewrite (read_array_fits 2 b 8) by (rewrite Hl; by vm_compute). cbv zeta beta.
  done.
Qed.

Definition child_of (e : InternalEntry) : SourceChild :=
  mkSourceChild (ie_min_key e) (ie_max_key e) (ie_page_offset e) (ie_level e) (ie_page_digest e).

Lemma internal_entry_eq b : len b = INTERNAL_ENTRY_LEN -> parse_internal_entry b = let* e := internal_parse b in Ok (child_of e).
Proof.
  intros Hl. unfold parse_internal_entry, internal_parse, require_len. rewrite Hl, N.eqb_refl, N.ltb_irrefl. cbn [negb].
  destruct (read_u64 b 0) as [mn|]; [|done]. destruct (read_u64 b 8) as [mx|]; [|done]. destruct (negb _); [|done].
  destruct (read_u32 b 24) as [pl|]; [|done]. destruct (pl =? PAGE_SIZE); [|done]. destruct (read_u16 b 30) as [fl|]; [|done].
  destruct (fl =? 0); [|done]. destruct (read_u64 b 16); [|done]. destruct (read_u16 b 28); [|done]. by destruct (read_array 32 b 32).
Qed.

Lemma map_result_ext {E A B} (f g : A -> result E B) l : (forall x, x ∈ l -> f x = g x) -> map_result f l = map_result g l.
Proof.
  induction l as [|x l IH]; intros Hx; [done|]. cbn [map_result]. rewrite (Hx x) by left. rewrite IH; [done|]. intros y Hy. apply Hx. by right.
Qed.

Lemma map_result_map {E A B C} (f : A -> result E B) (g : B -> C) l :
  map_result (fun x => let* y := f x in Ok (g y)) l = let* ys := map_result f l in Ok (g <$> ys).
Proof. induction l as [|x l IH]; [done|]. cbn [map_result]. destruct (f x); [|done]. rewrite IH. by destruct (map_result f l). Qed.

Lemma check_windows_fmap {E A B} (f : B -> B -> option E) (g : A -> B) l :
  check_windows f (g <$> l) = check_windows (fun x y => f (g x) (g y)) l.
Proof. induction l as [|x [|y l] IH]; [done|done|]. cbn [fmap list_fmap check_windows] in IH |- *. destruct (f (g x) (g y)); [done|exact IH]. Qed.

(** The entries of a page lie in it. *)
Lemma entry_length (b : bytes) size count i : PAGE_HEADER_LEN + count * size <= len b -> i ∈ seq 0 (N.to_nat count) ->
  len (slice b (PAGE_HEADER_LEN + N.of_nat i * size) (PAGE_HEADER_LEN + N.of_nat i * size + size)) = size.
Proof. intros Hl Hi%elem_of_seq. rewrite slice_len; [lia|lia|]. assert (Hn : N.of_nat i + 1 <= count) by lia. nia. Qed.

Definition source_page (p : ParsedPage) : SourcePage :=
  let h := page_header p in
  mkSourcePage (ph_kind h) (ph_level h) (ph_min_key h) (ph_max_key h) (ph_sequence h)
    (match p with PLeaf _ es => es | PInternal _ _ => [] end) (match p with PLeaf _ _ => [] | PInternal _ es => child_of <$> es end).

Lemma strict_page_body_Ok b kind level count entry_size mn mx sq q : len b = PAGE_SIZE -> count <= U16_MAX ->
  parse_strict_body b kind level count entry_size mn mx sq = Ok q <->
  exists p, parse_page_body b (mkPageHeader kind level count mn mx sq) entry_size = Ok p /\ q = source_page p.
Proof.
  intros Hl Hc. unfold parse_strict_body, parse_page_body. cbn [ph_kind ph_level ph_entry_count].
  assert (Hmul : forall size, size <= 1000 -> checked_mul count size = Some (count * size)).
  { intros size Hs. unfold checked_mul. rewrite (proj2 (N.leb_le _ _)); [done|]. unfold U16_MAX, U64_MAX in *. nia. }
  assert (Hno : forall e e' : Exp0002Error, Err e = Ok q <-> exists p, @Err Exp0002Error ParsedPage e' = Ok p /\ q = source_page p) by (intros e e'; naive_solver).
  destruct (kind =? 1) eqn:Ek1.
  { destruct (level =? 0); [|apply Hno]. destruct (entry_size =? LEAF_ENTRY_LEN); [|apply Hno].
    destruct (N.ltb_spec LEAF_CAPACITY count) as [|Hcap]; cbn [negb]; [apply Hno|]. pose proof (leaf_used _ Hcap) as Hused.
    rewrite Hmul by done. cbn [ok_or]. rewrite checked_add_fits by (unfold PAGE_SIZE, U64_MAX in *; lia). cbn [ok_or].
    destruct (require_zero _ _); [|apply Hno]. unfold parse_entries.
    rewrite (map_result_ext _ (fun index => let start := PAGE_HEADER_LEN + N.of_nat index * LEAF_ENTRY_LEN in leaf_parse (slice b start (start + LEAF_ENTRY_LEN)))).
    2: { intros i Hi. cbv zeta. apply leaf_entry_eq. eapply entry_length; [by rewrite Hl|done]. }
    destruct (map_result _ _) as [es|]; [|apply Hno]. unfold validate_leaf_order. cbn [ph_min_key ph_max_key].
    destruct (bool_decide (_ = Some mn)); cbn [andb]; [|apply Hno]. destruct (bool_decide (_ = Some mx)); [|apply Hno].
    destruct (no_window _ _ _); [|apply Hno]. split; [intros [= <-]; by eexists|intros (p & [= <-] & ->); done]. }
  destruct (kind =? 2) eqn:Ek2; [|apply Hno].
  destruct (negb (level =? 0)); [|apply Hno]. destruct (entry_size =? INTERNAL_ENTRY_LEN); [|apply Hno].
  destruct (N.ltb_spec INTERNAL_CAPACITY count) as [|Hcap]; cbn [negb]; [apply Hno|]. pose proof (internal_used _ Hcap) as Hused.
  rewrite Hmul by done. cbn [ok_or]. rewrite checked_add_fits by (unfold PAGE_SIZE, U64_MAX in *; lia). cbn [ok_or].
  destruct (require_zero _ _); [|apply Hno]. unfold parse_entries.
  rewrite (map_result_ext _ (fun index => let* e := internal_parse (slice b (PAGE_HEADER_LEN + N.of_nat index * INTERNAL_ENTRY_LEN)
    (PAGE_HEADER_LEN + N.of_nat index * INTERNAL_ENTRY_LEN + INTERNAL_ENTRY_LEN)) in Ok (child_of e))).
  2: { intros i Hi. cbv zeta. apply internal_entry_eq. eapply entry_length; [by rewrite Hl|done]. }
  rewrite map_result_map. cbv zeta. destruct (map_result _ _) as [es|]; [|apply Hno]. unfold validate_internal_order. cbn [ph_min_key ph_max_key ph_level].
  assert (Hhead : head (child_of <$> es) = child_of <$> head es) by (by destruct es). rewrite Hhead, fmap_last, <- !option_fmap_compose.
  change (sc_minimum ∘ child_of) with ie_min_key. change (sc_maximum ∘ child_of) with ie_max_key.
  destruct (bool_decide (_ = Some mn)); cbn [andb]; [|apply Hno]. destruct (bool_decide (_ = Some mx)); [|apply Hno].
  unfold no_window. rewrite check_windows_fmap. cbn [child_of sc_minimum sc_maximum].
  assert (Hlev : negb (existsb (fun child => negb (bool_decide (checked_add_u16 (sc_level child) 1 = Some level))) (child_of <$> es)) =
    forallb (fun e => bool_decide (checked_add_u16 (ie_level e) 1 = Some level)) es).
  { clear. induction es as [|e es IH]; [done|]. cbn [fmap list_fmap existsb forallb]. rewrite <- IH. rewrite negb_orb, negb_involutive. done. }
  rewrite Hlev. split.
  - intros Hq. step_all Hq. injection Hq as <-. exists (PInternal (mkPageHeader kind level count mn mx sq) es). split; [|done].
    match goal with E : check_windows _ es = Ok ?u |- _ => destruct u; apply check_windows_Ok in E; rename E into Hs end.
    rewrite (proj2 (check_windows_Ok _ es)); [done|]. eapply Sorted_mono; [|exact Hs]. intros x y. cbv beta. by destruct (_ <=? _).
  - intros (p & Hp & ->). step_all Hp. injection Hp as <-.
    match goal with E : check_windows _ es = Ok ?u |- _ => destruct u; apply check_windows_Ok in E; rename E into Hs end.
    rewrite (proj2 (check_windows_Ok _ es)); [done|]. eapply Sorted_mono; [|exact Hs]. intros x y. cbv beta. by destruct (_ <=? _).
Qed.

(** The page parser of this file accepts the pages [parse_page] does. *)
Lemma strict_page_Ok b q : len b = PAGE_SIZE -> parse_strict_page b = Ok q <-> exists p, parse_page b = Ok p /\ q = source_page p.
Proof.
  intros Hl. unfold parse_strict_page, parse_page. rewrite Hl, N.eqb_refl.
  assert (Hno : forall e e' : Exp0002Error, Err e = Ok q <-> exists p, @Err Exp0002Error ParsedPage e' = Ok p /\ q = source_page p) by (intros e e'; naive_solver).
  destruct (bool_decide _); [|apply Hno]. destruct (read_u16 b 6) as [hl|]; [|apply Hno]. destruct (hl =? _); [|apply Hno].
  destruct (read_u16 b 8) as [count|] eqn:Ec; [|apply Hno]. apply read_u16_Ok in Ec as (_ & _ & Hc); [|by vm_compute].
  destruct (negb (count =? 0)); [|apply Hno]. destruct (read_u16 b 10) as [size|]; [|apply Hno]. destruct (read_u32 b 12) as [fl|]; [|apply Hno].
  destruct (fl =? 0); [|apply Hno]. destruct (read_u64 b 16) as [mn|]; [|apply Hno]. destruct (read_u64 b 24) as [mx|]; [|apply Hno].
  destruct (negb _); [|apply Hno]. destruct (require_zero _ _); [|apply Hno]. destruct (read_u64 b 32) as [sq|]; [|apply Hno].
  by apply strict_page_body_Ok.
Qed.

Lemma snapshot_parse_bound sb l s : snapshot_parse sb l = Ok s -> len sb <= max_snapshot_bytes l.
Proof. unfold snapshot_parse, to_u64. intros Hs. step_all Hs. bool_facts. option_facts. lia. Qed.

(** ** What reading pages costs *)

Definition page_cost : Exp0002SourceStats := one_page ⊕ reading 1 PAGE_SIZE PAGE_SIZE ⊕ hashing PAGE_SIZE.

Definition pages_cost (n : N) : Exp0002SourceStats := mkSourceStats n (PAGE_SIZE * n) (PAGE_SIZE * N.min n 1) (PAGE_SIZE * n) n.

Lemma pages_cost_step n : pages_cost (1 + n) = page_cost ⊕ pages_cost n.
Proof. unfold pages_cost, page_cost. stats_solve. Qed.

(** ** Validation *)

Section Strict.
Context `{Hsha : Sha256} {S : Type} `{ReadAt S} {presents : S -> bytes -> Prop} {reliable : Prop} `{!PresentsSource S presents reliable}.
Context (b : bytes) (limits : Exp0002SourceLimits) (Hmax : len b <= U64_MAX).
Context (Hrequest : PAGE_SIZE <= so_max_read_request_bytes limits) (Hblock : 0 < so_hash_block_bytes limits)
  (Hblocks : so_hash_block_bytes limits <= so_max_read_request_bytes limits).

Abbreviation exactly := (exactly (S := S) (presents := presents) (reliable := reliable) b limits).
Abbreviation vlimits := (so_validation limits).
Abbreviation fits := (fits limits).

Implicit Types i j f : Exp0002SourceStats.

Definition parent_cost (ft : Footer) : Exp0002SourceStats :=
  if ft_previous_footer_offset ft =? ABSENT_OFFSET then default_source_stats else reading 1 FOOTER_LEN FOOTER_LEN.

Lemma exactly_parent_link i fo ft s : fo + FOOTER_LEN = len b -> ft_commit_start ft <= fo -> ft_sequence ft <= U64_MAX ->
  exactly i (strict_parent_link (len b) limits fo ft s) (known tt (i ⊕ parent_cost ft) (parent_linked b fo ft s)).
Proof.
  intros Hfo Hcs Hsq. unfold strict_parent_link, parent_linked, parent_cost. assert (HFL : FOOTER_LEN = 160) by done. destruct (_ =? ABSENT_OFFSET).
  { rewrite stats_add_zero. apply exactly_check.
    - intros a f (_ & _ & -> & -> & ->) _. by rewrite bool_decide_eq_true_2.
    - intros Hc. bool_facts. by apply exactly_ret. }
  apply exactly_check.
  { intros a f (_ & _ & Hp & _) _. apply N.ltb_lt. lia. }
  intros Hlt%N.ltb_lt. apply exactly_lift.
  { intros a f (_ & _ & Hp & _) _. rewrite checked_add_fits by lia. by eexists. }
  intros pe Hpe. option_facts. apply exactly_check.
  { intros a f (_ & _ & Hp & -> & _) _. apply N.eqb_refl. }
  intros Hst%N.eqb_eq. eapply exactly_known; [by apply exactly_read_array| |].
  { intros a f (_ & -> & Hp & _) _. split; [lia|done]. }
  intros Hin. assert (Hlen : len (slice b (ft_previous_footer_offset ft) (ft_previous_footer_offset ft + FOOTER_LEN)) = FOOTER_LEN) by (rewrite slice_len; lia).
  apply exactly_lift.
  { intros a f (_ & _ & _ & _ & pf & Hpf & _) _. rewrite strict_footer_eq by done. rewrite Hpf. by eexists. }
  intros parsed. rewrite strict_footer_eq by done. intros Hparsed. step_result Hparsed. injection Hparsed as <-. cbn [pf_footer].
  rename a into pf, Heqr into Hpf. apply exactly_check.
  { intros a f (_ & _ & _ & _ & pf' & Hpf' & Hd & _) _. apply bool_decide_eq_true_2. congruence. }
  intros Hd. bool_facts. apply exactly_lift.
  { intros a f (_ & _ & _ & _ & pf' & Hpf' & _ & Hs) _. assert (pf' = pf) as -> by congruence. rewrite checked_add_fits by lia. by eexists. }
  intros next Hn. option_facts. apply exactly_check.
  { intros a f (_ & _ & _ & _ & pf' & Hpf' & _ & Hs) _. assert (pf' = pf) as -> by congruence. by apply N.eqb_eq. }
  intros Hs%N.eqb_eq. apply exactly_ret. split_and!; [done|done|lia|done|]. by exists pf.
Qed.

(** *** Pages *)

Lemma exactly_page_count {A} i e (k : SM S A) spec :
  (forall a f, spec a f -> fits f -> i ⊕ one_page ⊑ f) -> exactly (i ⊕ one_page) k spec ->
  exactly i (let! st := sm_stats in
    let! pages_read := sm_lift (ok_or (checked_add (ss_pages_read st) 1) ArithmeticOverflow) in
    let! _ := sm_set_stats (set_pages_read pages_read) in
    if negb (so_max_page_reads limits <? pages_read) then k else sm_fail e) spec.
Proof.
  intros He Hk s Hp Hf. unfold sm_bind, sm_stats, sm_lift, sm_set_stats. cbn [rd_stats rd_source].
  assert (Hfit : fits (i ⊕ one_page) <-> ss_pages_read i + 1 <= so_max_page_reads limits /\ ss_pages_read i + 1 <= U64_MAX).
  { unfold Exp0002SourceFacts.fits in *. cbn. rewrite !N.add_0_r. intuition. }
  assert (Hno : ~ fits (i ⊕ one_page) -> forall a f, spec a f -> ~ fits f).
  { intros Hn a f Ha Hff. apply Hn. eapply fits_mono; [by eapply He|done]. }
  destruct (checked_add (ss_pages_read i) 1) as [n|] eqn:En; cbn [ok_or].
  2: { cbn. split; [done|]. apply Hno. rewrite Hfit. intros [_ Hu]. rewrite checked_add_fits in En by done. done. }
  apply checked_add_Some in En as [-> Hu]. destruct (N.ltb_spec (so_max_page_reads limits) (ss_pages_read i + 1)); cbn [negb].
  { cbn. split; [done|]. apply Hno. rewrite Hfit. lia. }
  replace (set_pages_read (ss_pages_read i + 1) i) with (i ⊕ one_page) by (destruct i; unfold set_pages_read; stats_solve).
  apply Hk; [done|]. by apply Hfit.
Qed.

Definition expected_of (e : StrictPage) : Expected :=
  mkExpected (sp_offset e) (sp_digest e) (sp_level e) (default 0 (sp_minimum e)) (default U64_MAX (sp_maximum e)) (sp_depth e).

(** The walk of [validate_directory] in the state of this one. *)
Definition walk_of (w : SourceWalk) (hashed : N) : Walk := mkWalk (dw_visited w) (dw_entries w) (dw_page_ranges w) hashed.
Definition source_walk_of (w : Walk) : SourceWalk := mkSourceWalk (wk_visited w) (wk_entries w) (wk_page_ranges w).

Definition page_at (o : N) (p : ParsedPage) : Prop := parse_page (slice b o (o + PAGE_SIZE)) = Ok p.

(** The page ends where its parent says, even for a parent that gives the
    greatest key there is. *)
Definition end_exact (e : StrictPage) : Prop :=
  forall p, page_at (sp_offset e) p -> sp_maximum e = None \/ sp_maximum e = Some (ph_max_key (page_header p)).

Definition children_exact (o : N) : Prop :=
  forall h cs c p, page_at o (PInternal h cs) -> c ∈ cs -> page_at (ie_page_offset c) p -> ph_max_key (page_header p) = ie_max_key c.

Definition pushed_children (e : StrictPage) (p : ParsedPage) : list StrictPage :=
  match p with
  | PLeaf _ _ => []
  | PInternal _ cs => (fun c => mkStrictPage (ie_page_offset c) (ie_page_digest c) (ie_level c) (Some (ie_min_key c)) (Some (ie_max_key c))
                                  (sp_depth e + 1)) <$> cs
  end.

Definition page_accepted (snapshot : Snapshot) (sn ft : N * N) (e : StrictPage) (w : SourceWalk) i (r : SourceWalk * list StrictPage) f : Prop :=
  exists p, page_present b (sn_sequence snapshot) (locator_of_expected (expected_of e)) p /\ page_admitted vlimits (expected_of e) p (walk_of w (ss_bytes_hashed i)) /\ end_exact e /\ apart (page_range (sp_offset e)) sn /\ apart (page_range (sp_offset e)) ft /\ (forall r, r ∈ dw_page_ranges w -> apart (page_range (sp_offset e)) r) /\ r = (source_walk_of (visited_page (expected_of e) p (walk_of w (ss_bytes_hashed i))), pushed_children e p) /\ f = i ⊕ page_cost.

(** What holds of every page on the stack: a minimum given is not zero, and the
    pages above it have been hashed. *)
Definition stacked i (e : StrictPage) : Prop := sp_minimum e <> Some 0 /\ PAGE_SIZE * sp_depth e <= ss_bytes_hashed i + PAGE_SIZE.

Lemma byte_range_Ok offset length total r : byte_range offset length total = Ok r <->
  r = (offset, offset + length) /\ offset + length <= total /\ offset + length <= U64_MAX.
Proof.
  unfold byte_range. split.
  - intros Hr. step_result Hr. injection Hr as <-. option_facts. bool_facts. done.
  - intros (-> & Ht & Hu). rewrite checked_add_fits by done. cbn [ok_or]. by rewrite !(proj2 (N.ltb_ge _ _)) by lia.
Qed.

Lemma overlaps_none r rs : existsb (overlaps r) rs = false <-> forall x, x ∈ rs -> apart r x.
Proof.
  rewrite <- not_true_iff_false, existsb_exists. setoid_rewrite <- list_elem_of_In. unfold apart. change overlaps with ranges_overlap. split.
  - intros Hn x Hx. destruct (ranges_overlap r x) eqn:E; [|done]. destruct Hn. by exists x.
  - intros Ha (x & Hx & E). by rewrite (Ha x Hx) in E.
Qed.

Lemma range_clear r sn ft rs : negb (overlaps r sn || overlaps r ft || existsb (overlaps r) rs) = true <->
  apart r sn /\ apart r ft /\ forall x, x ∈ rs -> apart r x.
Proof. rewrite negb_true_iff, !orb_false_iff, overlaps_none. change overlaps with ranges_overlap. unfold apart at 1 2. tauto. Qed.

Lemma source_page_check p lv mn mx sq : mn <> Some 0 ->
  negb (negb (pg_level (source_page p) =? lv) || is_some_and mn (fun value => negb (value =? pg_minimum (source_page p)))
    || is_some_and mx (fun value => negb (value =? pg_maximum (source_page p))) || negb (pg_sequence (source_page p) =? sq)) = true <->
  ph_level (page_header p) = lv /\ (default 0 mn = 0 \/ ph_min_key (page_header p) = default 0 mn) /\
  (mx = None \/ mx = Some (ph_max_key (page_header p))) /\ ph_sequence (page_header p) = sq.
Proof.
  intros Hmn. cbn [source_page pg_level pg_minimum pg_maximum pg_sequence]. rewrite negb_true_iff, !orb_false_iff, !negb_false_iff, !N.eqb_eq.
  assert (Hm : is_some_and mn (fun value => negb (value =? ph_min_key (page_header p))) = false <-> default 0 mn = 0 \/ ph_min_key (page_header p) = default 0 mn).
  { destruct mn as [m|]; cbn; [|naive_solver]. rewrite negb_false_iff, N.eqb_eq. split; [by right|]. intros [->|]; congruence. }
  assert (Hx : is_some_and mx (fun value => negb (value =? ph_max_key (page_header p))) = false <-> mx = None \/ mx = Some (ph_max_key (page_header p))).
  { destruct mx as [m|]; cbn; [|naive_solver]. rewrite negb_false_iff, N.eqb_eq. naive_solver. }
  tauto.
Qed.

Lemma page_present_at sq e p : page_present b sq (locator_of_expected e) p -> page_at (ex_offset e) p.
Proof. by intros (_ & _ & _ & Hp & _). Qed.

Lemma source_walk_push e p w i range : range = page_range (sp_offset e) ->
  source_walk_of (visited_page (expected_of e) p (walk_of w (ss_bytes_hashed i))) =
    mkSourceWalk ({[sp_offset e]} ∪ dw_visited w) (match p with PLeaf _ es => dw_entries w ++ es | PInternal _ _ => dw_entries w end)
      (dw_page_ranges w ++ [range]).
Proof. by intros ->. Qed.

Lemma exactly_page snapshot sn ft e w i : stacked i e ->
  exactly i (strict_page (len b) limits snapshot sn ft e w) (page_accepted snapshot sn ft e w i).
Proof.
  intros [Hmin Hdeep]. unfold strict_page. assert (HPS : PAGE_SIZE = 16384) by done.
  assert (Hspec : forall a f, page_accepted snapshot sn ft e w i a f -> exists p, page_at (sp_offset e) p /\ sp_offset e ∉ dw_visited w).
  { intros a f (p & Hp & (_ & Hv & _) & _). exists p. split; [by apply page_present_at in Hp|done]. }
  apply exactly_check.
  { intros a f (p & _ & (Hd & _) & _) _. apply negb_true_iff, N.ltb_ge, Hd. }
  intros Hd. bool_facts. apply exactly_lift.
  { intros a f (p & _ & (_ & Hv & _) & _) _. unfold try_insert. rewrite bool_decide_eq_false_2 by done. by eexists. }
  intros visited Hv. option_facts. apply try_insert_Some in Hv as [Hv ->]. rewrite visited_size by done. apply exactly_check.
  { intros a f (p & _ & (_ & _ & Hn & _) & _) _. by apply negb_true_iff, N.ltb_ge. }
  intros Hn. bool_facts. apply exactly_page_count.
  { intros a f (p & _ & _ & _ & _ & _ & _ & _ & ->) _. unfold page_cost. rewrite !stats_add_assoc. etransitivity; apply stats_le_add. }
  apply exactly_lift.
  { intros a f (p & (Hr1 & Hr2 & _) & _) _. eexists. apply byte_range_Ok. done. }
  intros range (-> & Hr1 & Hr2)%byte_range_Ok. apply exactly_check.
  { intros a f (p & _ & _ & _ & Hsn & Hft & Hrs & _) _. by apply range_clear. }
  intros (Hsn & Hft & Hrs)%range_clear. eapply exactly_known; [by apply exactly_read_array| |].
  { intros a f (p & _ & _ & _ & _ & _ & _ & _ & ->) _. split; [done|]. unfold page_cost. rewrite !stats_add_assoc. apply stats_le_add. }
  intros _. eapply exactly_known; [by apply exactly_add_hashed| |].
  { intros a f (p & _ & _ & _ & _ & _ & _ & _ & ->) _. split; [done|]. unfold page_cost. by rewrite !stats_add_assoc. }
  intros _. rewrite <- (stats_add_assoc i), <- (stats_add_assoc i). fold page_cost. apply exactly_check.
  { intros a f (p & (_ & _ & Hdg & _) & _) _. by apply bool_decide_eq_true_2. }
  intros Hdg. bool_facts. apply exactly_lift.
  { intros a f Ha _. destruct (Hspec a f Ha) as (p & Hp & _). eexists. apply strict_page_Ok; [rewrite slice_len; lia|]. by exists p. }
  intros parsed Hparsed. apply strict_page_Ok in Hparsed as (p & Hp & ->); [|rewrite slice_len; lia].
  assert (Hsame : forall a f, page_accepted snapshot sn ft e w i a f -> page_present b (sn_sequence snapshot) (locator_of_expected (expected_of e)) p /\
    page_admitted vlimits (expected_of e) p (walk_of w (ss_bytes_hashed i)) /\ end_exact e).
  { intros a f (p' & Hp' & Ha & He & _). assert (p' = p) as -> by (apply page_present_at in Hp'; unfold page_at in Hp'; cbn in Hp'; congruence). done. }
  apply exactly_check.
  { intros a f Ha _. apply Hsame in Ha as ((_ & _ & _ & _ & Hl & Hmn & _ & Hsq) & _ & Hend). apply source_page_check; [done|].
    split_and!; [done|done|by apply Hend|done]. }
  intros (Hl & Hmn & Hmx & Hsq)%source_page_check; [|done].
  assert (Hpres : page_present b (sn_sequence snapshot) (locator_of_expected (expected_of e)) p).
  { split_and!; try done. cbn [expected_of locator_of_expected ex_max_key pl_max_key]. destruct Hmx as [->| ->]; [by left|by right]. }
  assert (Hend : end_exact e). { intros p' Hp'. assert (p' = p) as -> by (unfold page_at in Hp'; congruence). done. }
  assert (Hout : forall r f, fits f -> page_admitted vlimits (expected_of e) p (walk_of w (ss_bytes_hashed i)) ->
    r = (source_walk_of (visited_page (expected_of e) p (walk_of w (ss_bytes_hashed i))), pushed_children e p) -> f = i ⊕ page_cost ->
    page_accepted snapshot sn ft e w i r f).
  { intros r f _ Ha -> ->. exists p. split_and!; done. }
  assert (Hadm : fits (i ⊕ page_cost) -> match p with PLeaf _ es => len (dw_entries w) + len es <= max_objects vlimits | PInternal _ _ => True end ->
    page_admitted vlimits (expected_of e) p (walk_of w (ss_bytes_hashed i))).
  { intros Hf Hobj. unfold Exp0002SourceFacts.fits in Hf. cbn in Hf. unfold page_admitted. cbn [expected_of ex_depth ex_offset walk_of wk_visited wk_hashed wk_entries].
    rewrite N.add_0_r, N.add_0_l in Hf. split_and!; try done; try lia. }
  destruct p as [h es|h cs]; cbn [source_page pg_kind pg_leaves pg_children page_header].
  - assert (Hk : ph_kind h = 1) by (by apply parse_page_leaf in Hp as ((_ & _ & _ & Hk & _) & _)). rewrite Hk, N.eqb_refl.
    apply exactly_check.
    { intros a f Ha _. apply Hsame in Ha as (_ & (_ & _ & _ & _ & _ & Ho) & _). rewrite len_app. by apply negb_true_iff, N.ltb_ge. }
    intros Ho. bool_facts. rewrite len_app in Ho. apply exactly_assume. intros Hf. apply exactly_ret. apply Hout; [done|by apply Hadm|done|done].
  - assert (Hk : ph_kind h = 2) by (by apply parse_page_internal in Hp as ((_ & _ & _ & Hk & _) & _)). rewrite Hk. cbn [N.eqb Pos.eqb].
    apply exactly_assume. intros Hf. assert (Hdepth : sp_depth e + 1 <= U64_MAX).
    { unfold Exp0002SourceFacts.fits in Hf. cbn in Hf. rewrite N.add_0_r, N.add_0_l in Hf. lia. }
    rewrite checked_add_fits by done. cbn [ok_or]. apply exactly_lift; [by eexists|]. intros d [= <-]. apply exactly_ret.
    apply Hout; [done|by apply Hadm| |done]. cbn [pushed_children]. f_equal. unfold child_of. by rewrite <- list_fmap_compose.
Qed.

(** *** The directory *)

Definition ranges_clear (sn ft : N * N) (rs : list (N * N)) : Prop :=
  disjoint_ranges rs /\ forall r, r ∈ rs -> apart r sn /\ apart r ft.

(** The walk of the in-memory validation over a stack succeeds, and the pages
    it adds satisfy what this one checks besides. *)
Definition walk_accepted (snapshot : Snapshot) (sn ft : N * N) (stack : list StrictPage) (w : SourceWalk) i (w' : SourceWalk) f : Prop :=
  exists fuel W new, walk_loop fuel b snapshot vlimits (expected_of <$> stack) (walk_of w (ss_bytes_hashed i)) = Ok W /\
    w' = source_walk_of W /\ wk_page_ranges W = dw_page_ranges w ++ new /\ f = i ⊕ pages_cost (len new) /\
    Forall end_exact stack /\ ranges_clear sn ft (wk_page_ranges W) /\ forall r, r ∈ new -> children_exact r.1.

Lemma pushed_expected e p : pushed_pages (expected_of e) p = expected_of <$> pushed_children e p.
Proof. destruct p as [h es|h cs]; [done|]. cbn [pushed_pages pushed_children]. by rewrite <- list_fmap_compose. Qed.

Lemma walk_of_step e p w i :
  walk_of (source_walk_of (visited_page (expected_of e) p (walk_of w (ss_bytes_hashed i)))) (ss_bytes_hashed (i ⊕ page_cost)) =
    visited_page (expected_of e) p (walk_of w (ss_bytes_hashed i)).
Proof. unfold walk_of, visited_page. cbn. by rewrite N.add_0_l. Qed.

Lemma pushed_end_exact sq e p : page_present b sq (locator_of_expected (expected_of e)) p ->
  Forall end_exact (pushed_children e p) <-> children_exact (sp_offset e).
Proof.
  intros Hp%page_present_at. cbn [expected_of ex_offset] in Hp. split.
  - intros Hf h cs c p' Hpi Hc Hp'. assert (p = PInternal h cs) as -> by (unfold page_at in *; congruence). cbn [pushed_children] in Hf.
    rewrite Forall_fmap, Forall_forall in Hf. specialize (Hf c Hc p' Hp'). cbn in Hf. destruct Hf as [|[= ->]]; done.
  - intros Hx. destruct p as [h es|h cs]; [constructor|]. cbn [pushed_children]. apply Forall_fmap, Forall_forall. intros c Hc p' Hp'. right.
    cbn [sp_maximum sp_offset compose] in *. by rewrite (Hx h cs c p').
Qed.

Lemma walk_grows fuel snapshot stack w W : walk_loop fuel b snapshot vlimits stack w = Ok W -> exists new, wk_page_ranges W = wk_page_ranges w ++ new.
Proof. intros (subs & _ & _ & _ & ->)%walk_loop_Ok. by eexists. Qed.

Lemma page_accepted_at snapshot sn ft e w i w1 pushed f p : page_accepted snapshot sn ft e w i (w1, pushed) f -> page_at (sp_offset e) p ->
  w1 = source_walk_of (visited_page (expected_of e) p (walk_of w (ss_bytes_hashed i))).
Proof.
  intros (p' & Hp & _ & _ & _ & _ & _ & [= -> _] & _) Hat. assert (p' = p) as ->; [|done].
  apply page_present_at in Hp. unfold page_at in *. cbn [expected_of ex_offset] in Hp. congruence.
Qed.

Lemma walk_accepted_cons snapshot sn ft e stack w i w' f :
  walk_accepted snapshot sn ft (e :: stack) w i w' f <->
  exists p w1, page_accepted snapshot sn ft e w i (w1, pushed_children e p) (i ⊕ page_cost) /\ page_at (sp_offset e) p /\
    walk_accepted snapshot sn ft (pushed_children e p ++ stack) w1 (i ⊕ page_cost) w' f.
Proof.
  split.
  - intros (fuel & W & new & Hw & -> & Hnew & -> & [He Hst]%Forall_cons & [Hd Ha] & Hc). destruct fuel as [|fuel]; [done|]. rewrite fmap_cons in Hw. cbn [walk_loop] in Hw.
    step_result Hw. destruct a as [W1 pushed]. apply visit_page_Ok in Heqr as (p & Hp & Hadm & -> & ->).
    pose proof (walk_grows _ _ _ _ _ Hw) as [new1 Hnew1]. cbn [visited_page wk_page_ranges walk_of ex_offset expected_of] in Hnew1.
    assert (new = page_range (sp_offset e) :: new1) as ->.
    { rewrite Hnew1, <- app_assoc in Hnew. by apply app_inv_head in Hnew. }
    rewrite Hnew in Hd, Ha. assert (Hr : page_range (sp_offset e) ∈ dw_page_ranges w ++ page_range (sp_offset e) :: new1).
    { apply elem_of_app. right. by left. }
    exists p, (source_walk_of (visited_page (expected_of e) p (walk_of w (ss_bytes_hashed i)))). split_and!.
    + exists p. split_and!; try done; [apply Ha, Hr|apply Ha, Hr|]. intros r Hrw. apply disjoint_app in Hd as (_ & _ & Hd). symmetry. apply Hd; [done|by left].
    + by apply page_present_at in Hp.
    + exists fuel, W, new1. rewrite walk_of_step, fmap_app, <- pushed_expected. split_and!; try done.
      * rewrite len_cons, pages_cost_step. apply stats_add_assoc.
      * apply Forall_app. split; [|done]. eapply pushed_end_exact; [exact Hp|]. apply (Hc (page_range (sp_offset e))). by left.
      * split; rewrite Hnew; done.
      * intros r Hrn. apply Hc. by right.
  - intros (p & w1 & (p' & Hp & Hadm & He & _ & _ & _ & [= -> Hpush] & _) & Hat & (fuel & W & new & Hw & -> & Hnew & -> & [Hpe Hst]%Forall_app & Hcl & Hc)).
    assert (p' = p) as -> by (apply page_present_at in Hp; unfold page_at in *; cbn [expected_of ex_offset] in Hp; congruence).
    rewrite walk_of_step, fmap_app, <- pushed_expected in Hw. cbn [source_walk_of visited_page dw_page_ranges wk_page_ranges walk_of ex_offset expected_of] in Hnew.
    exists (Datatypes.S fuel), W, (page_range (sp_offset e) :: new). split_and!; try done.
    + rewrite fmap_cons. cbn [walk_loop]. rewrite (proj2 (visit_page_Ok b snapshot vlimits (expected_of e) _ _ _)) by (exists p; by split_and!). exact Hw.
    + by rewrite Hnew, <- app_assoc.
    + rewrite len_cons, pages_cost_step. symmetry. apply stats_add_assoc.
    + constructor; done.
    + intros r [->|Hrn]%elem_of_cons; [|by apply Hc]. by eapply pushed_end_exact.
Qed.

Lemma stacked_mono i j e : i ⊑ j -> stacked i e -> stacked j e.
Proof. intros (_ & _ & _ & Hh & _) [? ?]. split; [done|lia]. Qed.

Lemma pushed_stacked i e p : page_at (sp_offset e) p -> stacked i e -> Forall (stacked (i ⊕ page_cost)) (pushed_children e p).
Proof.
  intros Hp [_ He]. destruct p as [h es|h cs]; [constructor|]. cbn [pushed_children]. apply Forall_fmap, Forall_forall. intros c Hc.
  apply parse_page_internal in Hp as ((_ & _ & _ & _ & _ & _ & _ & Hes) & _). apply list_elem_of_lookup in Hc as (k & Hk). specialize (Hes k c Hk).
  apply internal_parse_Ok in Hes as (_ & (Hm & _) & _). split; cbn; [congruence|lia].
Qed.

Lemma exactly_walk fuel snapshot sn ft : forall stack w i,
  Forall (stacked i) stack -> ranges_clear sn ft (dw_page_ranges w) -> so_max_page_reads limits < N.of_nat fuel + ss_pages_read i ->
  exactly i (strict_walk (len b) limits fuel snapshot sn ft stack w) (walk_accepted snapshot sn ft stack w i).
Proof.
  induction fuel as [|fuel IH]; intros [|e stack] w i Hst Hcl Hfuel; cbn [strict_walk].
  1, 3: apply exactly_ret; exists 1%nat, (walk_of w (ss_bytes_hashed i)), []; rewrite app_nil_r; split_and!; try done;
    [by destruct w|symmetry; apply stats_add_zero|intros r Hr; by apply elem_of_nil in Hr].
  { apply exactly_fail. intros a f (k & W & new & _ & _ & _ & -> & _) Hf. unfold Exp0002SourceFacts.fits in Hf. cbn in Hf. lia. }
  apply Forall_cons in Hst as [He Hst]. eapply exactly_bind; [by apply exactly_page| |].
  - intros w' f (p & w1 & Hp & _ & (k & W & new & _ & _ & _ & -> & _))%walk_accepted_cons _. eexists _, _. split; [exact Hp|]. apply stats_le_add.
  - intros [w1 pushed] j Hpage. pose proof Hpage as (p & Hp & Hadm & Hend & Hsn & Hft & Hrs & [= -> ->] & ->).
    assert (Hat : page_at (sp_offset e) p) by (by apply page_present_at in Hp).
    eapply exactly_weaken; [apply IH| ].
    + apply Forall_app. split; [by apply pushed_stacked|]. eapply Forall_impl; [exact Hst|]. intros x. apply stacked_mono, stats_le_add.
    + cbn [source_walk_of visited_page wk_page_ranges dw_page_ranges walk_of]. destruct Hcl as [Hd Ha]. split.
      * apply disjoint_app. split_and!; [done|by repeat constructor|]. intros x y Hx ->%list_elem_of_singleton. symmetry. by apply Hrs.
      * intros r [Hr| ->%list_elem_of_singleton]%elem_of_app; [by apply Ha|done].
    + cbn. lia.
    + intros w' f _. rewrite walk_accepted_cons. split.
      * intros Hw. exists p, (source_walk_of (visited_page (expected_of e) p (walk_of w (ss_bytes_hashed i)))). done.
      * intros (p' & w1 & Hp1 & Hat' & Hw). assert (p' = p) as -> by (unfold page_at in *; congruence).
        rewrite (page_accepted_at _ _ _ _ _ _ _ _ _ _ Hp1 Hat) in Hw. exact Hw.
Qed.

(** What the source validation asks of the pages besides: none overlaps another
    or the snapshot or the footer, and every page ends where its parent says. *)
Definition pages_extra (sn ft : N * N) (offs : list N) : Prop :=
  ranges_clear sn ft (page_range <$> offs) /\ forall o, o ∈ offs -> children_exact o.

Definition directory_accepted (snapshot : Snapshot) (sn ft : N * N) i (dv : DirectoryValidation) f : Prop :=
  exists es offs, dtree b (sn_sequence snapshot) (N.to_nat (sn_directory_root_level snapshot)) (root_locator snapshot) es offs /\ NoDup offs /\
    directory_admitted snapshot vlimits (ss_bytes_hashed i) es offs /\ pages_extra sn ft offs /\
    dv = mkDirectoryValidation es (page_range <$> offs) (len offs) /\ f = i ⊕ pages_cost (len offs).

Definition strict_root (snapshot : Snapshot) : StrictPage :=
  mkStrictPage (sn_directory_root_offset snapshot) (sn_directory_root_digest snapshot) (sn_directory_root_level snapshot) None None 1.

Lemma walk_root_accepted snapshot sn ft i w f :
  walk_accepted snapshot sn ft [strict_root snapshot] (mkSourceWalk ∅ [] []) i w f <->
  exists es offs, dtree b (sn_sequence snapshot) (N.to_nat (sn_directory_root_level snapshot)) (root_locator snapshot) es offs /\ NoDup offs /\
    directory_admitted snapshot vlimits (ss_bytes_hashed i) es offs /\ pages_extra sn ft offs /\
    w = mkSourceWalk (list_to_set offs) es (page_range <$> offs) /\ f = i ⊕ pages_cost (len offs).
Proof.
  unfold walk_accepted, walk_of. cbn [fmap list_fmap dw_visited dw_entries dw_page_ranges]. change (expected_of (strict_root snapshot)) with (root_expected snapshot).
  split.
  - intros (fuel & W & new & (es & offs & Ht & Hn & Had & _ & ->)%root_walk_Ok & -> & Hnew & -> & _ & Hcl & Hc). cbn [wk_page_ranges app] in *. subst new.
    exists es, offs. rewrite len_fmap. split_and!; try done. split; [done|]. intros o Ho. apply (Hc (page_range o)). by apply list_elem_of_fmap_2.
  - intros (es & offs & Ht & Hn & Had & [Hcl Hc] & -> & ->).
    exists (Datatypes.S (length offs)), (mkWalk (list_to_set offs) es (page_range <$> offs) (ss_bytes_hashed i + PAGE_SIZE * len offs)), (page_range <$> offs).
    rewrite len_fmap. split_and!; try done.
    + apply root_walk_Ok. exists es, offs. split_and!; try done. lia.
    + constructor; [|done]. intros p _. by left.
    + intros r (o & -> & Ho)%list_elem_of_fmap. by apply Hc.
Qed.

Lemma exactly_directory snapshot sn ft i : exactly i (strict_directory (len b) limits snapshot sn ft) (directory_accepted snapshot sn ft i).
Proof.
  unfold strict_directory. fold (strict_root snapshot). eapply exactly_bind; [apply exactly_walk| |].
  - constructor; [|done]. split; [done|cbn; lia].
  - split; [constructor|]. intros r Hr. by apply elem_of_nil in Hr.
  - lia.
  - intros dv f (es & offs & Ht & Hn & Had & Hx & -> & ->) _. exists (mkSourceWalk (list_to_set offs) es (page_range <$> offs)), (i ⊕ pages_cost (len offs)).
    split; [|done]. apply walk_root_accepted. by exists es, offs.
  - intros w j (es & offs & Ht & Hn & Had & Hx & -> & ->)%walk_root_accepted. cbn [dw_entries dw_page_ranges dw_visited].
    destruct (dtree_ordered _ _ _ _ _ _ Ht) as (Hs & _). rewrite sorted_leaves_id, no_duplicate_ids by done.
    apply exactly_lift; [by eexists|]. intros u _. apply exactly_ret. exists es, offs. rewrite size_list_to_set by done. done.
Qed.

(** *** Objects *)

Definition object_cost (e : LeafEntry) : Exp0002SourceStats :=
  reading 1 OBJECT_HEADER_LEN OBJECT_HEADER_LEN ⊕ in_blocks (le_record_len e) (so_hash_block_bytes limits) ⊕ hashing (le_record_len e).
Definition objects_cost (es : list LeafEntry) : Exp0002SourceStats := foldr (fun e c => object_cost e ⊕ c) default_source_stats es.

Definition object_accepted (pages : list (N * N)) (sn ft : N * N) (e : LeafEntry) : Prop :=
  record_present b e /\ (forall p, p ∈ pages -> apart (record_range e) p) /\ apart (record_range e) sn /\ apart (record_range e) ft.

Lemma exactly_digest_range domain offset length context i : offset + length <= len b ->
  exactly i (rd_digest_range (len b) limits domain offset length context)
    (known (digest_bytes domain (slice b offset (offset + length))) (i ⊕ in_blocks length (so_hash_block_bytes limits) ⊕ hashing length) True).
Proof.
  intros Hr. unfold rd_digest_range. eapply exactly_known; [by apply exactly_hash_range| |]; [by intros a f (_ & -> & _) _|]. intros _. by apply exactly_ret.
Qed.

Lemma exactly_object pages sn ft physical total e i :
  exactly i (strict_object (len b) limits pages sn ft (physical, total) e)
    (known (physical ++ [record_range e], total + le_logical_len e) (i ⊕ object_cost e)
       (object_accepted pages sn ft e /\ total + le_logical_len e <= max_payload_bytes vlimits /\ total + le_logical_len e <= U64_MAX)).
Proof.
  unfold strict_object. assert (HOL : OBJECT_HEADER_LEN = 48) by done. apply exactly_check.
  { intros a f (_ & _ & ((_ & _ & Hl & _) & _) & _) _. apply negb_true_iff, N.ltb_ge. lia. }
  intros Hlen. bool_facts. apply exactly_lift.
  { intros a f (_ & _ & ((Hr1 & Hr2 & _) & _) & _) _. eexists. by apply byte_range_Ok. }
  intros range (-> & Hr1 & Hr2)%byte_range_Ok. fold (record_range e). apply exactly_check.
  { intros a f (_ & _ & (_ & Hpg & Hsn & Hft) & _) _. by apply range_clear. }
  intros (Hsn & Hft & Hpg)%range_clear. eapply exactly_known; [by apply exactly_read_array| |].
  { intros a f (_ & -> & _) _. split; [lia|]. unfold object_cost. rewrite !stats_add_assoc. etransitivity; apply stats_le_add. }
  intros Hin. rewrite object_header_eq by (rewrite slice_len; lia). apply exactly_lift.
  { intros a f (_ & _ & ((_ & _ & _ & Hp & _) & _) & _) _. by eexists. }
  intros hd Hp. pose proof (proj1 (object_header_parse_Ok _ _) Hp) as (_ & (_ & _ & _ & _ & Hpl & Hplu) & _). apply exactly_lift.
  { intros a f (_ & _ & ((_ & _ & Hl & Hp' & _) & _) & _) _. rewrite Hp in Hp'. injection Hp' as ->. cbn. rewrite checked_add_fits by lia. by eexists. }
  intros el Hel. option_facts. apply exactly_check.
  { intros a f (_ & _ & ((_ & _ & Hl & Hp' & _) & _) & _) _. rewrite Hp in Hp'. injection Hp' as ->. cbn. rewrite !N.eqb_refl. cbn [andb]. by apply N.eqb_eq. }
  intros Hm. bool_facts. destruct hd as [id kind pl ll]. cbn [oh_object_id oh_kind oh_payload_len oh_logical_len] in *. subst id kind ll pl. apply exactly_lift.
  { intros a f (_ & _ & _ & _ & Hu) _. rewrite checked_add_fits by done. by eexists. }
  intros t Ht. option_facts. apply exactly_check.
  { intros a f (_ & _ & _ & Hpay & _) _. by apply negb_true_iff, N.ltb_ge. }
  intros Hpay. bool_facts. eapply exactly_known; [by apply exactly_digest_range| |].
  { intros a f (_ & -> & _) _. split; [done|]. unfold object_cost. by rewrite !stats_add_assoc. }
  intros _. apply exactly_check.
  { intros a f (_ & _ & ((_ & _ & _ & _ & Hd) & _) & _) _. by apply bool_decide_eq_true_2. }
  intros Hd. bool_facts. apply exactly_ret. unfold object_cost. rewrite !stats_add_assoc. split_and!; try done.
Qed.

Lemma exactly_object_loop pages sn ft es : forall physical total i,
  exactly i (strict_object_loop (len b) limits pages sn ft es (physical, total))
    (known (physical ++ (record_range <$> es), total + sum_of le_logical_len es) (i ⊕ objects_cost es)
       (Forall (object_accepted pages sn ft) es /\
        (es = [] \/ total + sum_of le_logical_len es <= max_payload_bytes vlimits /\ total + sum_of le_logical_len es <= U64_MAX))).
Proof.
  induction es as [|e es IH]; intros physical total i; cbn [strict_object_loop].
  { apply exactly_ret. cbn. rewrite app_nil_r, N.add_0_r, stats_add_zero. split_and!; [done|done|constructor|by left]. }
  cbn [objects_cost foldr sum_of]. fold (objects_cost es) (sum_of le_logical_len es). rewrite fmap_cons.
  eapply exactly_known; [apply exactly_object| |].
  - intros a f (_ & -> & [Ha Hes]%Forall_cons & [|[Hm Hu]]) _; [done|]. split; [split_and!; [done|lia|lia]|]. rewrite stats_add_assoc. apply stats_le_add.
  - intros (Ha & Hm & Hu). eapply exactly_weaken; [apply IH|]. intros a f _. unfold known. rewrite <- app_assoc, stats_add_assoc, N.add_assoc. cbn [app].
    split; intros (-> & -> & Hes & Hl).
    + split_and!; [done|done|by constructor|right]. destruct Hl as [->|Hl]; [cbn; rewrite N.add_0_r|]; done.
    + apply Forall_cons in Hes as [_ Hes]. split_and!; [done|done|done|right]. by destruct Hl as [|Hl].
Qed.

Lemma exactly_objects es pages sn ft i :
  exactly i (strict_objects (len b) limits es pages sn ft)
    (known tt (i ⊕ objects_cost es) (records_valid b pages sn ft es /\
      (es = [] \/ sum_of le_logical_len es <= max_payload_bytes vlimits /\ sum_of le_logical_len es <= U64_MAX))).
Proof.
  assert (Hacc : Forall (object_accepted pages sn ft) es <-> Forall (record_present b) es /\
    forall e, e ∈ es -> (forall p, p ∈ pages -> apart (record_range e) p) /\ apart (record_range e) sn /\ apart (record_range e) ft).
  { unfold object_accepted. rewrite !Forall_forall. naive_solver. }
  unfold strict_objects, records_valid. eapply exactly_known; [apply exactly_object_loop| |].
  - intros a f (_ & -> & (Hp & _ & Ha) & Hl) _. split; [|done]. split; [by apply Hacc|]. by rewrite N.add_0_l.
  - cbn [app]. rewrite N.add_0_l. intros [Hes Hl]. apply Hacc in Hes as [Hp Ha]. change overlaps with ranges_overlap.
    assert (Hne : Forall (fun r => r.1 < r.2) (record_range <$> es)).
    { apply Forall_fmap. eapply Forall_impl; [exact Hp|]. intros e He. by apply (record_range_nonempty b). }
    apply exactly_last_lift.
    + intros a f (_ & _ & (_ & Hd & _) & _) _. exists tt. by apply windows_disjoint.
    + intros u Hu. apply windows_disjoint in Hu; [|done]. destruct u. split_and!; done.
Qed.

(** *** The last commit *)

Definition snapshot_range_of (ft : Footer) : N * N := (ft_snapshot_offset ft, ft_snapshot_offset ft + ft_snapshot_len ft).

(** What the validation of an accepted file costs. *)
Definition strict_cost (v : VerifiedExp0002) : Exp0002SourceStats :=
  let ft := v_footer v in
  reading 1 FILE_HEADER_LEN FILE_HEADER_LEN ⊕ reading 1 FOOTER_LEN FOOTER_LEN ⊕
  in_blocks (ft_snapshot_len ft) (so_max_read_request_bytes limits) ⊕ hashing (ft_snapshot_len ft) ⊕ parent_cost ft ⊕
  pages_cost (v_pages_verified v) ⊕ objects_cost (v_objects v) ⊕
  in_blocks (ft_commit_len ft) (so_hash_block_bytes limits) ⊕ hashing (ft_commit_len ft).

Definition source_report (v : VerifiedExp0002) (st : Exp0002SourceStats) : VerifiedExp0002Source :=
  mkVerifiedSource (v_header v) (v_footer_offset v) (v_footer v) (v_snapshot v) (v_objects v) (v_pages_verified v) st.

(** The files the source validation accepts: those [validate_strict] does, with
    the pages apart and the bounds of children exact. *)
Definition source_valid (v : VerifiedExp0002) : Prop :=
  exists offs, strict_valid b vlimits offs v /\ strict_admitted b vlimits offs v /\
    pages_extra (snapshot_range_of (v_footer v)) (v_footer_offset v, len b) offs.

Lemma footer_slices fb ft : footer_parse fb = Ok ft -> slice fb 8 112 = footer_semantics ft.
Proof.
  intros Hf. pose proof (footer_canonical _ _ Hf) as Hcan. pose proof (proj1 (footer_parse_Ok _ _) Hf) as (_ & Hok & _).
  destruct (footer_encode_at ft) as (_ & _ & Hsem); [apply Hok..|]. by rewrite Hcan in Hsem.
Qed.

Lemma roots_check (roots ids : list N) :
  negb (bool_decide (roots = [])) && negb (existsb (fun root => negb (bool_decide (root ∈ (list_to_set ids : gset N)))) roots) = true <->
  roots <> [] /\ forall r, r ∈ roots -> r ∈ ids.
Proof.
  rewrite andb_true_iff, !negb_true_iff, bool_decide_eq_false, <- not_true_iff_false, existsb_exists. setoid_rewrite <- list_elem_of_In.
  split; intros [Hne Hall]; (split; [done|]).
  - intros r Hr. destruct (decide (r ∈ ids)) as [|Hn]; [done|]. destruct Hall. exists r. split; [done|].
    apply negb_true_iff, bool_decide_eq_false. by rewrite elem_of_list_to_set.
  - intros (r & Hr & Hn%negb_true_iff%bool_decide_eq_false). apply Hn. apply elem_of_list_to_set. by apply Hall.
Qed.

Lemma strict_cost_hashed v offs : strict_valid b vlimits offs v ->
  ss_bytes_hashed (strict_cost v) = v_bytes_hashed v + ft_snapshot_len (v_footer v).
Proof.
  intros Hsv. destruct (sv_reported _ _ _ _ Hsv) as [Hp ->]. unfold strict_cost. cbn. rewrite Hp.
  assert (Ho : forall es, ss_bytes_hashed (objects_cost es) = sum_of le_record_len es).
  { induction es as [|e es IH]; [done|]. cbn [objects_cost foldr sum_of]. fold (objects_cost es) (sum_of le_record_len es). cbn. rewrite <- IH. lia. }
  assert (Hpc : ss_bytes_hashed (parent_cost (v_footer v)) = 0) by (unfold parent_cost; by destruct (_ =? _)).
  rewrite Ho, Hpc. lia.
Qed.

Definition body_accepted (v : VerifiedExp0002Source) f : Prop := exists w, source_valid w /\ v = source_report w f /\ f = strict_cost w.

Ltac cost_prefix := unfold strict_cost; cbv zeta; repeat first [reflexivity | etransitivity; [|apply stats_le_add]].

(** What is known of the end of the file when the snapshot is read. *)
Record tail_known hd fo ft : Prop := {
  tk_len : fo + FOOTER_LEN = len b /\ FILE_HEADER_LEN <= fo /\ len b <= max_file_bytes vlimits;
  tk_header : file_header_parse (slice b 0 FILE_HEADER_LEN) = Ok hd;
  tk_footer : footer_parse (slice b fo (len b)) = Ok ft;
  tk_commit : ft_commit_start ft + ft_commit_len ft = fo /\ ft_commit_len ft <= max_commit_bytes vlimits;
  tk_snapshot : ft_commit_start ft <= ft_snapshot_offset ft /\ ft_snapshot_offset ft + ft_snapshot_len ft <= fo;
}.

Lemma tail_same hd fo ft offs w : tail_known hd fo ft -> strict_valid b vlimits offs w ->
  v_header w = hd /\ v_footer_offset w = fo /\ v_footer w = ft.
Proof.
  intros [(Hl & _) Hh Hf _ _] [(Hl' & _) Hh' Hf' _ _ _ _ _ _ _ _ _ _ _ _]. assert (Ho : v_footer_offset w = fo) by lia. rewrite Ho in Hf'. split_and!; congruence.
Qed.

Lemma exactly_commit hd fo ft : tail_known hd fo ft ->
  exactly (reading 1 FILE_HEADER_LEN FILE_HEADER_LEN ⊕ reading 1 FOOTER_LEN FOOTER_LEN)
    (strict_commit (len b) limits hd fo (mkParsedFooter ft (slice (slice b fo (len b)) 8 112)) (snapshot_range_of ft)) body_accepted.
Proof.
  intros Htk. pose proof Htk as [(Hfo & Hfo2 & Hfile) Hhd Hft [Hc1 Hc2] [Hs1 Hs2]]. assert (HFL : FOOTER_LEN = 160) by done.
  pose proof (footer_slices _ _ Hft) as Hsem. pose proof (proj1 (footer_parse_Ok _ _) Hft) as (_ & (_ & _ & _ & _ & Hsq & _) & _).
  assert (Hacc : forall a f, body_accepted a f -> exists w offs, strict_valid b vlimits offs w /\ strict_admitted b vlimits offs w /\
    pages_extra (snapshot_range_of ft) (fo, len b) offs /\ v_header w = hd /\ v_footer_offset w = fo /\ v_footer w = ft /\ a = source_report w f /\ f = strict_cost w).
  { intros a f (w & (offs & Hsv & Hsa & Hx) & -> & ->). destruct (tail_same _ _ _ _ _ Htk Hsv) as (H1 & H2 & H3). rewrite H2, H3 in Hx. exists w, offs. split_and!; done. }
  unfold strict_commit. cbn [pf_footer pf_semantics]. rewrite Hsem. apply exactly_check.
  { intros a f Ha _. apply Hacc in Ha as (w & offs & Hsv & _ & _ & _ & _ & Hwf & _). pose proof (sv_snapshot _ _ _ _ Hsv) as Hsn. rewrite Hwf in Hsn.
    apply snapshot_parse_bound in Hsn. rewrite slice_len in Hsn by lia. apply negb_true_iff, N.ltb_ge. lia. }
  intros Hsb. bool_facts. eapply exactly_known; [apply exactly_read_vec; try done; lia| |].
  { intros a f Ha _. apply Hacc in Ha as (w & offs & _ & _ & _ & _ & _ & <- & _ & ->). split; [done|]. cost_prefix. }
  intros _. eapply exactly_known; [by apply exactly_add_hashed| |].
  { intros a f Ha _. apply Hacc in Ha as (w & offs & _ & _ & _ & _ & _ & <- & _ & ->). split; [done|]. cost_prefix. }
  intros _. apply exactly_check.
  { intros a f Ha _. apply Hacc in Ha as (w & offs & Hsv & _ & _ & _ & _ & <- & _). by apply bool_decide_eq_true_2, (sv_snapshot_digest _ _ _ _ Hsv). }
  intros Hsd. bool_facts. apply exactly_lift.
  { intros a f Ha _. apply Hacc in Ha as (w & offs & Hsv & _ & _ & _ & _ & <- & _). eexists. apply (sv_snapshot _ _ _ _ Hsv). }
  intros sn Hsn. assert (Hsame : forall offs w, strict_valid b vlimits offs w -> v_footer w = ft -> v_snapshot w = sn).
  { intros offs w Hsv Hwf. pose proof (sv_snapshot _ _ _ _ Hsv) as Hs. rewrite Hwf in Hs. congruence. }
  apply exactly_check.
  { intros a f Ha _. apply Hacc in Ha as (w & offs & Hsv & _ & _ & _ & _ & Hwf & _). destruct (sv_sequence _ _ _ _ Hsv) as [E1 E2].
    rewrite (Hsame _ _ Hsv Hwf), Hwf in E1, E2. by rewrite E1, E2, !N.eqb_refl. }
  intros Hseq. bool_facts. eapply exactly_known; [apply exactly_parent_link; try done; lia| |].
  { intros a f Ha _. apply Hacc in Ha as (w & offs & Hsv & _ & _ & _ & Hwo & Hwf & _ & ->). pose proof (sv_parent _ _ _ _ Hsv) as Hp.
    rewrite Hwo, Hwf, (Hsame _ _ Hsv Hwf) in Hp. split; [done|]. rewrite <- Hwf. cost_prefix. }
  intros Hpar. apply exactly_lift; [intros _ _ _ _; eexists; apply byte_range_Ok; split_and!; [reflexivity|lia|lia]|].
  intros fr (-> & _)%byte_range_Ok. rewrite Hfo. set (i := reading 1 FILE_HEADER_LEN FILE_HEADER_LEN ⊕ _ ⊕ _ ⊕ _ ⊕ _).
  assert (Hi : ss_bytes_hashed i = ft_snapshot_len ft) by (unfold i, parent_cost; cbn; destruct (_ =? _); cbn; lia).
  eapply exactly_bind; [by apply exactly_directory| |].
  { intros a f Ha Hf. apply Hacc in Ha as (w & offs & Hsv & [_ _ Hd Hp Ho _ _] & Hx & _ & _ & Hwf & _ & ->).
    pose proof (strict_cost_hashed _ _ Hsv) as Hch. destruct Hf as (_ & _ & _ & _ & Hh1 & Hh2 & _). rewrite Hch, Hwf in Hh1, Hh2.
    destruct (sv_reported _ _ _ _ Hsv) as [Hnp Hnh]. rewrite Hnh, Hwf in Hh1, Hh2.
    exists (mkDirectoryValidation (v_objects w) (page_range <$> offs) (len offs)), (i ⊕ pages_cost (len offs)). split.
    - rewrite <- (Hsame _ _ Hsv Hwf). exists (v_objects w), offs. split_and!; try done; [apply (sv_tree _ _ _ _ Hsv)|apply (sv_distinct _ _ _ _ Hsv)|].
      rewrite Hi. split_and!; try done; lia.
    - unfold i. rewrite <- Hnp, <- Hwf. cost_prefix. }
  intros y j (es & offs & Ht & Hnd & (Hd & Hp & Ho & _) & Hx & -> & ->). cbn [dv_entries dv_page_ranges dv_pages].
  assert (Hacc' : forall a f, body_accepted a f -> exists w, strict_valid b vlimits offs w /\ strict_admitted b vlimits offs w /\
    v_footer_offset w = fo /\ v_footer w = ft /\ v_snapshot w = sn /\ v_objects w = es /\ v_pages_verified w = len offs /\ a = source_report w f /\ f = strict_cost w).
  { intros a f Ha. apply Hacc in Ha as (w & offs' & Hsv & Hsa & _ & _ & Hwo & Hwf & -> & ->). exists w. pose proof (Hsame _ _ Hsv Hwf) as Hws.
    pose proof (sv_tree _ _ _ _ Hsv) as Ht'. rewrite Hws in Ht'. destruct (dtree_agree _ _ _ _ _ _ _ _ Ht' Ht) as [E1 ->].
    destruct (sv_reported _ _ _ _ Hsv) as [E2 _]. done. }
  destruct (dtree_ordered _ _ _ _ _ _ Ht) as (_ & _ & Hne & _). eapply exactly_known; [by apply exactly_objects| |].
  { intros a f Ha _. apply Hacc' in Ha as (w & Hsv & [_ _ _ _ _ [Hp1 Hp2] _] & Hwo & Hwf & _ & Hwe & Hwp & _ & ->).
    pose proof (sv_records _ _ _ _ Hsv) as Hrec. rewrite Hwe, Hwf, Hwo in Hrec. rewrite Hwe in Hp1, Hp2. split; [split; [exact Hrec|by right]|].
    unfold i. rewrite <- Hwp, <- Hwf, <- Hwe. cost_prefix. }
  intros [Hrec [->|[Hpay1 Hpay2]]]; [done|]. apply exactly_check.
  { intros a f Ha _. apply Hacc' in Ha as (w & Hsv & _ & _ & _ & <- & <- & _). apply roots_check, (sv_roots _ _ _ _ Hsv). }
  intros [Hr1 Hr2]%roots_check. eapply exactly_known; [apply exactly_hash_range; try done; lia| |].
  { intros a f Ha _. apply Hacc' in Ha as (w & _ & _ & _ & Hwf & _ & Hwe & Hwp & _ & ->). split; [done|]. unfold i. rewrite <- Hwp, <- Hwf, <- Hwe. cost_prefix. }
  intros _. rewrite Hc1. apply exactly_check.
  { intros a f Ha _. apply Hacc' in Ha as (w & Hsv & _ & Hwo & Hwf & _). pose proof (sv_commit_digest _ _ _ _ Hsv) as Hcd. rewrite Hwo, Hwf in Hcd.
    by apply bool_decide_eq_true_2. }
  intros Hcd. bool_facts. apply exactly_stats, exactly_assume. intros Hf. apply exactly_ret.
  set (w := mkVerified hd fo ft sn es (len offs) (ft_commit_len ft + PAGE_SIZE * len offs + sum_of le_record_len es)).
  assert (Hsv : strict_valid b vlimits offs w).
  { split; cbn [w v_header v_footer_offset v_footer v_snapshot v_objects v_pages_verified v_bytes_hashed]; try done. }
  assert (Hw : i ⊕ pages_cost (len offs) ⊕ objects_cost es ⊕ in_blocks (ft_commit_len ft) (so_hash_block_bytes limits) ⊕ hashing (ft_commit_len ft) = strict_cost w) by done.
  rewrite Hw in Hf |- *. exists w. split_and!; [|done|done]. exists offs. split_and!; [done| |done].
  pose proof (strict_cost_hashed _ _ Hsv) as Hch. destruct Hf as (_ & _ & _ & _ & Hh1 & Hh2 & _). rewrite Hch in Hh1, Hh2.
  split; cbn [w v_header v_footer_offset v_footer v_snapshot v_objects v_pages_verified v_bytes_hashed] in *; try done; lia.
Qed.

Lemma exactly_body : FILE_HEADER_LEN + FOOTER_LEN <= len b -> len b <= max_file_bytes vlimits ->
  exactly default_source_stats (strict_body (len b) limits) body_accepted.
Proof.
  intros Hl Hfile. assert (HFL : FOOTER_LEN = 160) by done. set (fo := len b - FOOTER_LEN). assert (Hfo : fo + FOOTER_LEN = len b) by (unfold fo; lia).
  assert (Hacc : forall a f, body_accepted a f -> exists w offs, strict_valid b vlimits offs w /\ strict_admitted b vlimits offs w /\ v_footer_offset w = fo /\ f = strict_cost w).
  { intros a f (w & (offs & Hsv & Hsa & _) & _ & ->). exists w, offs. split_and!; try done. destruct (sv_len _ _ _ _ Hsv) as (Hl' & _). lia. }
  unfold strict_body. eapply exactly_known; [by apply exactly_read_array| |].
  { intros a f Ha _. apply Hacc in Ha as (w & _ & _ & _ & _ & ->). split; [lia|]. rewrite stats_zero_add. cost_prefix. }
  intros _. rewrite N.add_0_l, stats_zero_add. apply exactly_lift.
  { intros a f Ha _. apply Hacc in Ha as (w & offs & Hsv & _). eexists. apply (sv_header _ _ _ _ Hsv). }
  intros hd Hhd. apply exactly_lift; [intros _ _ _ _; exists fo; apply ok_or_Ok, checked_sub_Some; unfold fo; lia|].
  intros fo' Hfo'. apply ok_or_Ok, checked_sub_Some in Hfo' as [-> _]. fold fo. eapply exactly_known; [by apply exactly_read_array| |].
  { intros a f Ha _. apply Hacc in Ha as (w & _ & _ & _ & _ & ->). split; [lia|]. cost_prefix. }
  intros _. rewrite Hfo. rewrite strict_footer_eq by (rewrite slice_len; lia). apply exactly_lift.
  { intros a f Ha _. apply Hacc in Ha as (w & offs & Hsv & _ & <- & _). rewrite (sv_footer _ _ _ _ Hsv). by eexists. }
  intros parsed Hparsed. step_result Hparsed. injection Hparsed as <-. rename a into ft, Heqr into Hft. cbn [pf_footer].
  assert (Hsame : forall offs w, strict_valid b vlimits offs w -> v_footer_offset w = fo -> v_footer w = ft).
  { intros offs w Hsv Hwo. pose proof (sv_footer _ _ _ _ Hsv) as Hf. rewrite Hwo in Hf. congruence. }
  assert (Hacc' : forall a f, body_accepted a f -> ft_commit_start ft + ft_commit_len ft = fo /\ ft_commit_len ft <= max_commit_bytes vlimits /\
    ft_commit_start ft <= ft_snapshot_offset ft /\ ft_snapshot_offset ft + ft_snapshot_len ft <= fo).
  { intros a f Ha. apply Hacc in Ha as (w & offs & Hsv & Hsa & Hwo & _). pose proof (sv_commit _ _ _ _ Hsv) as H1. pose proof (sa_commit _ _ _ _ Hsa) as H2.
    pose proof (sv_snapshot_range _ _ _ _ Hsv) as H3. rewrite (Hsame _ _ Hsv Hwo) in H1, H2, H3. rewrite Hwo in H1, H3. done. }
  apply exactly_lift.
  { intros a f Ha _. apply Hacc' in Ha as (H1 & _). rewrite checked_add_fits by lia. by eexists. }
  intros ce Hce. option_facts. apply exactly_check; [intros a f Ha _; apply Hacc' in Ha as (H1 & _); by apply N.eqb_eq|]. intros H1%N.eqb_eq.
  apply exactly_check; [intros a f Ha _; apply Hacc' in Ha as (_ & H2 & _); by apply negb_true_iff, N.ltb_ge|]. intros H2. bool_facts.
  apply exactly_check; [intros a f Ha _; apply Hacc' in Ha as (_ & _ & H3 & _); by apply negb_true_iff, N.ltb_ge|]. intros H3. bool_facts.
  apply exactly_lift; [intros a f Ha _; apply Hacc' in Ha as (_ & _ & _ & H4); eexists; apply byte_range_Ok; split_and!; [reflexivity|lia|lia]|].
  intros sr (-> & _)%byte_range_Ok. cbn [snd].
  apply exactly_check; [intros a f Ha _; apply Hacc' in Ha as (_ & _ & _ & H4); by apply negb_true_iff, N.ltb_ge|]. intros H4. bool_facts.
  apply exactly_commit. split; split_and?; try done. unfold fo. lia.
Qed.
End Strict.

Definition configured (limits : Exp0002SourceLimits) : Prop :=
  PAGE_SIZE <= so_max_read_request_bytes limits /\ 0 < so_hash_block_bytes limits /\ so_hash_block_bytes limits <= so_max_read_request_bytes limits.

Lemma validate_limit_configuration_Ok limits u : validate_limit_configuration limits = Ok u <-> configured limits.
Proof.
  unfold validate_limit_configuration, configured. destruct u. split.
  - intros Hv. step_result Hv. bool_facts. split_and!; lia.
  - intros (H1 & H2 & H3). rewrite !(proj2 (N.ltb_ge _ _)) by done. by rewrite (proj2 (N.eqb_neq _ 0)) by lia.
Qed.

(** What [validate_strict_at] accepts of a source that presents [b]: the file
    is valid and what its validation costs fits the limits. *)
Definition source_accepted `{Sha256} (b : bytes) (limits : Exp0002SourceLimits) (v : VerifiedExp0002Source) : Prop :=
  configured limits /\ exists w, source_valid b limits w /\ fits limits (strict_cost limits w) /\ v = source_report w (strict_cost limits w).

Lemma validate_strict_at_exact `{Sha256} {S} `{ReadAt S} (presents : S -> bytes -> Prop) (reliable : Prop) `{!PresentsSource S presents reliable}
    (b : bytes) (limits : Exp0002SourceLimits) s : presents s b -> len b <= U64_MAX ->
  presents (validate_strict_at s limits).2 b /\
  match (validate_strict_at s limits).1 with
  | Ok v => source_accepted b limits v
  | Err (SourceIo _) => ~ reliable
  | Err (SourceFormat _) => forall v, ~ source_accepted b limits v
  end.
Proof.
  intros Hs Hmax. unfold validate_strict_at. destruct (validate_limit_configuration limits) as [u|e] eqn:Ec.
  2: { split; [done|]. intros v [Hc _]. apply (validate_limit_configuration_Ok limits tt) in Hc. congruence. }
  apply validate_limit_configuration_Ok in Ec as Hc. destruct (presents_len s b Hs Hmax) as [Hs' Hlen]. destruct (source_len s) as [[n|e] s']; cbn [fst snd] in *; [|done].
  subst n. destruct (N.ltb_spec (max_file_bytes (so_validation limits)) (len b)) as [Hlt|Hfile].
  { split; [done|]. intros v (_ & w & (offs & _ & Hsa & _) & _). pose proof (sa_file _ _ _ _ Hsa). lia. }
  destruct (N.ltb_spec (len b) (FILE_HEADER_LEN + FOOTER_LEN)) as [Hlt|Hl].
  { split; [done|]. intros v (_ & w & (offs & Hsv & _) & _). destruct (sv_len _ _ _ _ Hsv) as (? & ? & _). lia. }
  pose proof Hc as (Hc1 & Hc2 & Hc3). assert (Hf0 : fits limits default_source_stats) by (unfold fits; cbn; lia).
  destruct (exactly_body (presents := presents) (reliable := reliable) b limits Hmax Hc1 Hc2 Hc3 Hl Hfile s' Hs' Hf0) as [Hp Hr].
  destruct (strict_body (len b) limits (mkReader s' default_source_stats)) as [[v|e] r]; cbn [fst snd] in *.
  - split; [done|]. destruct Hr as [(w & Hw & -> & E) Hf]. rewrite E in Hf |- *. split; [done|]. exists w. done.
  - split; [done|]. destruct e as [e|c]; [|done]. intros v (_ & w & Hw & Hf & ->). apply (Hr (source_report w (strict_cost limits w)) (strict_cost limits w)); [|done].
    by exists w.
Qed.

(** A file accepted through a source is accepted in memory, with the same report. *)
Lemma source_valid_strict `{Sha256} b limits w : source_valid b limits w -> validate_strict b (so_validation limits) = Ok w.
Proof. intros (offs & Hsv & Hsa & _). apply validate_strict_Ok. by exists offs. Qed.

Lemma source_accepted_unique `{Sha256} b limits v v' : source_accepted b limits v -> source_accepted b limits v' -> v = v'.
Proof.
  intros (_ & w & Hw%source_valid_strict & _ & ->) (_ & w' & Hw'%source_valid_strict & _ & ->). assert (w = w') as -> by congruence. done.
Qed.

(** Over a stable source. *)
Lemma validate_strict_at_Ok `{Sha256} {S} `{ReadAt S} (presents : S -> bytes -> Prop) `{!StableSource S presents} (b : bytes) limits s v :
  presents s b -> len b <= U64_MAX -> (validate_strict_at s limits).1 = Ok v <-> source_accepted b limits v.
Proof.
  intros Hs Hmax. destruct (validate_strict_at_exact presents True b limits s Hs Hmax) as [_ Hv].
  destruct (validate_strict_at s limits).1 as [w|[e|c]]; [|split; [done|]; intros Ha; by destruct (Hv v)|by destruct Hv].
  split; [by intros [= <-]|]. intros Ha. f_equal. by eapply source_accepted_unique.
Qed.
