(* ===== verification/Exp0002SourceBounds.v ===== *)
(** Two runs of the budgeted reader side by side: readers whose sources answer
    alike go through the same steps. From this follow the independence of the
    representation of a source and the bounds on what is asked of any: every
    read is in the file and within the limits, and the counters that are
    reported count exactly the reads made. *)

From Stdlib Require Import Strings.Byte Strings.String NArith ZArith Lia.
From stdpp Require Import base list gmap strings sorting.
From S2P Require Import Prelude Order Digest Machine Source SourceFacts Exp0002 Exp0002File Exp0002Lookup Exp0002Source Exp0002SourceStrict.

Local Open Scope N_scope.

(** ** Lockstep *)

(** From states related by [R], both computations give the same result and end
    in states related by [R], or by [F] when they fail. *)
Definition in_lockstep {T1 T2 A} (R F : T1 -> T2 -> Prop) (m1 : ST T1 A) (m2 : ST T2 A) : Prop :=
  forall s1 s2, R s1 s2 -> (m1 s1).1 = (m2 s2).1 /\
    match (m1 s1).1 with Ok _ => R (m1 s1).2 (m2 s2).2 | Err _ => F (m1 s1).2 (m2 s2).2 end.

Create HintDb lockstep.

Section Rules.
Context {T1 T2 : Type} (R F : T1 -> T2 -> Prop) (Hfail : forall s1 s2, R s1 s2 -> F s1 s2).

Lemma lockstep_ret {A} (a : A) : in_lockstep R F (sm_ret a) (sm_ret a).
Proof. intros s1 s2 Hs. by split. Qed.

Lemma lockstep_fail {A} e : in_lockstep R F (sm_fail (A := A) e) (sm_fail e).
Proof. intros s1 s2 Hs. split; [done|]. by apply Hfail. Qed.

Lemma lockstep_lift {A} (x : X A) : in_lockstep R F (sm_lift x) (sm_lift x).
Proof. intros s1 s2 Hs. split; [done|]. unfold sm_lift. destruct x; [done|]. by apply Hfail. Qed.

Lemma lockstep_bind {A B} (m1 : ST T1 A) (m2 : ST T2 A) (k1 : A -> ST T1 B) (k2 : A -> ST T2 B) :
  in_lockstep R F m1 m2 -> (forall a, in_lockstep R F (k1 a) (k2 a)) -> in_lockstep R F (sm_bind m1 k1) (sm_bind m2 k2).
Proof.
  intros Hm Hk s1 s2 Hs. destruct (Hm s1 s2 Hs) as [E Hs']. unfold sm_bind. destruct (m1 s1) as [[a|e] t1], (m2 s2) as [r2 t2];
    cbn in *; subst r2; [by apply Hk|done].
Qed.
End Rules.

#[export] Hint Resolve lockstep_ret lockstep_fail lockstep_lift : lockstep.

(** ** Readers *)

(** What the reader itself does to its counters leaves [R] as it is, and its
    reads keep the runs together. *)
Class ReadersAgree {S1 S2 : Type} `{ReadAt S1, ReadAt S2} (file_len : N) (limits : Exp0002SourceLimits)
    (R F : SourceReader S1 -> SourceReader S2 -> Prop) : Prop := {
  agree_fail r1 r2 : R r1 r2 -> F r1 r2;
  agree_stats r1 r2 : R r1 r2 -> rd_stats r1 = rd_stats r2;
  agree_hashed n : in_lockstep R F (sm_set_stats (set_bytes_hashed n)) (sm_set_stats (set_bytes_hashed n));
  agree_pages n : in_lockstep R F (sm_set_stats (set_pages_read n)) (sm_set_stats (set_pages_read n));
  agree_read offset length context :
    in_lockstep R F (rd_read_exact file_len limits offset length context) (rd_read_exact file_len limits offset length context);
}.

Section Readers.
Context {S1 S2 : Type} `{ReadAt S1, ReadAt S2} (file_len : N) (limits : Exp0002SourceLimits).
Context (R F : SourceReader S1 -> SourceReader S2 -> Prop) `{!ReadersAgree file_len limits R F}.

Abbreviation lockstep := (in_lockstep R F).

Let Hfail : forall r1 r2, R r1 r2 -> F r1 r2 := agree_fail.
Hint Resolve Hfail agree_hashed agree_pages agree_read : lockstep.

Lemma lockstep_stats {A} (k1 : Exp0002SourceStats -> SM S1 A) (k2 : Exp0002SourceStats -> SM S2 A) :
  (forall st, lockstep (k1 st) (k2 st)) -> lockstep (sm_bind sm_stats k1) (sm_bind sm_stats k2).
Proof.
  intros Hk r1 r2 Hr. unfold sm_bind, sm_stats. rewrite (agree_stats (R := R) (F := F) r1 r2 Hr). by apply Hk.
Qed.

(** Follow the program text of the two runs. *)
Ltac steps :=
  repeat lazymatch goal with
  | |- lockstep (sm_bind sm_stats _) _ => apply lockstep_stats; intros ?
  | |- lockstep (sm_bind _ _) (sm_bind _ _) => apply lockstep_bind; [|intros ?]
  | |- lockstep (match ?x with _ => _ end) _ => destruct x
  | |- lockstep _ _ => solve [eauto with lockstep]
  end.

Lemma lockstep_read_array n offset context : lockstep (rd_read_array file_len limits n offset context) (rd_read_array file_len limits n offset context).
Proof. apply agree_read. Qed.

Lemma lockstep_read_chunks fuel offset length cursor context filled :
  lockstep (read_chunks file_len limits fuel offset length cursor context filled) (read_chunks file_len limits fuel offset length cursor context filled).
Proof. revert cursor filled. induction fuel as [|fuel IH]; intros cursor filled; cbn [read_chunks]; steps. Qed.
Hint Resolve lockstep_read_array lockstep_read_chunks : lockstep.

Lemma lockstep_read_vec offset length context :
  lockstep (rd_read_vec file_len limits offset length context) (rd_read_vec file_len limits offset length context).
Proof. unfold rd_read_vec. steps. Qed.

Lemma lockstep_add_hashed n : lockstep (rd_add_hashed limits n) (rd_add_hashed limits n).
Proof. unfold rd_add_hashed. steps. Qed.

Lemma lockstep_hash_blocks fuel hasher cursor remaining context :
  lockstep (hash_blocks file_len limits fuel hasher cursor remaining context) (hash_blocks file_len limits fuel hasher cursor remaining context).
Proof. revert hasher cursor remaining. induction fuel as [|fuel IH]; intros; cbn [hash_blocks]; steps. Qed.
Hint Resolve lockstep_read_vec lockstep_add_hashed lockstep_hash_blocks : lockstep.

Lemma lockstep_hash_range hasher offset length context :
  lockstep (rd_hash_range file_len limits hasher offset length context) (rd_hash_range file_len limits hasher offset length context).
Proof. unfold rd_hash_range. steps. Qed.
Hint Resolve lockstep_hash_range : lockstep.

(** *** Validation *)

Context `{Sha256}.

Lemma lockstep_digest_range domain offset length context :
  lockstep (rd_digest_range file_len limits domain offset length context) (rd_digest_range file_len limits domain offset length context).
Proof. unfold rd_digest_range. steps. Qed.
Hint Resolve lockstep_digest_range : lockstep.

Lemma lockstep_parent_link footer_offset footer snapshot :
  lockstep (strict_parent_link file_len limits footer_offset footer snapshot) (strict_parent_link file_len limits footer_offset footer snapshot).
Proof. unfold strict_parent_link. steps. Qed.

Lemma lockstep_page snapshot sr fr expected w :
  lockstep (strict_page file_len limits snapshot sr fr expected w) (strict_page file_len limits snapshot sr fr expected w).
Proof. unfold strict_page. steps. Qed.
Hint Resolve lockstep_parent_link lockstep_page : lockstep.

Lemma lockstep_walk fuel snapshot sr fr stack w :
  lockstep (strict_walk file_len limits fuel snapshot sr fr stack w) (strict_walk file_len limits fuel snapshot sr fr stack w).
Proof. revert stack w. induction fuel as [|fuel IH]; intros [|expected stack] w; cbn [strict_walk]; steps. Qed.
Hint Resolve lockstep_walk : lockstep.

Lemma lockstep_directory snapshot sr fr : lockstep (strict_directory file_len limits snapshot sr fr) (strict_directory file_len limits snapshot sr fr).
Proof. unfold strict_directory. steps. Qed.

Lemma lockstep_object pages sr fr st entry :
  lockstep (strict_object file_len limits pages sr fr st entry) (strict_object file_len limits pages sr fr st entry).
Proof. unfold strict_object. steps. Qed.
Hint Resolve lockstep_directory lockstep_object : lockstep.

Lemma lockstep_object_loop pages sr fr entries st :
  lockstep (strict_object_loop file_len limits pages sr fr entries st) (strict_object_loop file_len limits pages sr fr entries st).
Proof. revert st. induction entries as [|entry entries IH]; intros st; cbn [strict_object_loop]; steps. Qed.
Hint Resolve lockstep_object_loop : lockstep.

Lemma lockstep_objects entries pages sr fr : lockstep (strict_objects file_len limits entries pages sr fr) (strict_objects file_len limits entries pages sr fr).
Proof. unfold strict_objects. steps. Qed.
Hint Resolve lockstep_objects : lockstep.

Lemma lockstep_commit header footer_offset parsed sr :
  lockstep (strict_commit file_len limits header footer_offset parsed sr) (strict_commit file_len limits header footer_offset parsed sr).
Proof. unfold strict_commit. steps. Qed.
Hint Resolve lockstep_commit : lockstep.

Lemma lockstep_strict_body : lockstep (strict_body file_len limits) (strict_body file_len limits).
Proof. unfold strict_body. steps. Qed.

(** *** Lookup *)

Lemma lockstep_source_parent_link footer_offset footer snapshot :
  lockstep (source_parent_link file_len limits footer_offset footer snapshot) (source_parent_link file_len limits footer_offset footer snapshot).
Proof. unfold source_parent_link. steps. Qed.

Lemma lockstep_selected_object selected : lockstep (source_selected_object file_len limits selected) (source_selected_object file_len limits selected).
Proof. unfold source_selected_object. steps. Qed.
Hint Resolve lockstep_source_parent_link lockstep_selected_object : lockstep.

Lemma lockstep_lookup_page sequence expected ranges :
  lockstep (source_lookup_page file_len limits sequence expected ranges) (source_lookup_page file_len limits sequence expected ranges).
Proof. unfold source_lookup_page. steps. Qed.

Lemma lockstep_read_selected footer sr fr ranges selected :
  lockstep (source_read_selected file_len limits footer sr fr ranges selected) (source_read_selected file_len limits footer sr fr ranges selected).
Proof. unfold source_read_selected. steps. Qed.
Hint Resolve lockstep_lookup_page lockstep_read_selected : lockstep.

Lemma lockstep_lookup_pages fuel object_id footer snapshot sr fr expected ranges :
  lockstep (source_lookup_pages file_len limits fuel object_id footer snapshot sr fr expected ranges)
    (source_lookup_pages file_len limits fuel object_id footer snapshot sr fr expected ranges).
Proof. revert expected ranges. induction fuel as [|fuel IH]; intros; cbn [source_lookup_pages]; steps. Qed.
Hint Resolve lockstep_lookup_pages : lockstep.

Lemma lockstep_lookup_body object_id : lockstep (source_lookup_body file_len limits object_id) (source_lookup_body file_len limits object_id).
Proof. unfold source_lookup_body. steps. Qed.
End Readers.

(** ** One read *)

(** A source that answers every read with nothing: what a run over it gives is
    what the reader decides by itself. *)
Definition quiet_source : ReadAt unit := {|
  source_len s := (Ok 0, s);
  read_exact_at s offset n := (Ok [], s);
|}.

Definition charge (file_len : N) (limits : Exp0002SourceLimits) (offset length : N) (st : Exp0002SourceStats)
    : result Exp0002SourceError unit * Exp0002SourceStats :=
  match rd_read_exact (S := unit) (H := quiet_source) file_len limits offset length "" (mkReader tt st) with
  | (Ok _, r) => (Ok tt, rd_stats r)
  | (Err e, r) => (Err e, rd_stats r)
  end.

Lemma read_exact_charge {S} `{ReadAt S} file_len limits offset length context (r : SourceReader S) :
  rd_read_exact file_len limits offset length context r =
  match charge file_len limits offset length (rd_stats r) with
  | (Err e, st) => (Err e, mkReader (rd_source r) st)
  | (Ok _, st) => sm_source_read offset length context (mkReader (rd_source r) st)
  end.
Proof.
  destruct r as [s st]. unfold charge, rd_read_exact, sm_bind, sm_lift, sm_stats, sm_set_stats, sm_fail. cbn [rd_source rd_stats].
  destruct (negb _); [|done]. destruct (try_u64 length) as [n|] eqn:En; [|done]. apply try_u64_Some in En as [-> _]. cbn [ok_or].
  destruct (checked_add offset length); [|done]. cbn [ok_or]. destruct (negb _); [|done]. destruct (checked_add _ 1); [|done]. cbn [ok_or rd_stats rd_source].
  destruct (negb _); [|done]. destruct (checked_add _ length); [|done]. cbn [ok_or rd_stats rd_source]. destruct (negb _); [|done]. done.
Qed.

(** What a charge that succeeds says of the read, and the counters after it. *)
Record charged (file_len : N) (limits : Exp0002SourceLimits) (offset length : N) (st st' : Exp0002SourceStats) : Prop := {
  ch_range : offset + length <= file_len;
  ch_request : length <= so_max_read_request_bytes limits;
  ch_width : length <= U64_MAX;
  ch_operations : ss_read_operations st' = ss_read_operations st + 1 /\ ss_read_operations st' <= so_max_read_operations limits;
  ch_bytes : ss_bytes_read st' = ss_bytes_read st + length /\ ss_bytes_read st' <= so_max_source_bytes_read limits /\ ss_bytes_read st' <= U64_MAX;
}.

Lemma charge_Ok file_len limits offset length st u st' :
  charge file_len limits offset length st = (Ok u, st') -> charged file_len limits offset length st st'.
Proof.
  unfold charge, rd_read_exact, sm_bind, sm_lift, sm_stats, sm_set_stats, sm_fail, sm_source_read. cbn [rd_source rd_stats].
  destruct (N.ltb_spec (so_max_read_request_bytes limits) length); [done|]. cbn [negb].
  destruct (try_u64 length) as [n|] eqn:En; [|done]. apply try_u64_Some in En as [-> Hn]. cbn [ok_or].
  destruct (checked_add offset length) as [e|] eqn:Ee; [|done]. apply checked_add_Some in Ee as [-> _]. cbn [ok_or].
  destruct (N.ltb_spec file_len (offset + length)); [done|]. cbn [negb]. destruct (checked_add _ 1) as [ops|] eqn:Eo; [|done].
  apply checked_add_Some in Eo as [-> _]. cbn [ok_or rd_stats rd_source]. destruct (N.ltb_spec (so_max_read_operations limits) (ss_read_operations st + 1)); [done|].
  cbn [negb]. destruct (checked_add _ length) as [total|] eqn:Et; [|done]. apply checked_add_Some in Et as [-> Ht]. cbn [ok_or rd_stats rd_source].
  destruct (N.ltb_spec (so_max_source_bytes_read limits) (ss_bytes_read st + length)); [done|]. cbn [negb].
  cbn. intros [= _ <-]. cbn. split; cbn; done.
Qed.

(** A failing charge is an error of the format. *)
Lemma charge_Err file_len limits offset length st e st' : charge file_len limits offset length st = (Err e, st') -> exists f, e = SourceFormat f.
Proof.
  unfold charge, rd_read_exact, sm_bind, sm_lift, sm_stats, sm_set_stats, sm_fail, sm_source_read. cbn [rd_source rd_stats].
  repeat lazymatch goal with
  | |- context [if negb ?c then _ else _] => destruct (negb c)
  | |- context [ok_or (try_u64 ?x) _] => destruct (try_u64 x); cbn [ok_or rd_stats rd_source]
  | |- context [ok_or (checked_add ?x ?y) _] => destruct (checked_add x y); cbn [ok_or rd_stats rd_source]
  end; cbn; intros [= <- _]; eauto.
Qed.

(** ** Sources that answer alike *)

Section Alike.
Context {S1 S2 : Type} `{ReadAt S1, ReadAt S2} (file_len : N) (limits : Exp0002SourceLimits) (Q : S1 -> S2 -> Prop).

(** Inside the file, both give the same answers. *)
Definition alike : Prop := forall s1 s2 offset n, Q s1 s2 -> offset + n <= file_len ->
  (read_exact_at s1 offset n).1 = (read_exact_at s2 offset n).1 /\ Q (read_exact_at s1 offset n).2 (read_exact_at s2 offset n).2.

Definition same_reader (r1 : SourceReader S1) (r2 : SourceReader S2) : Prop := Q (rd_source r1) (rd_source r2) /\ rd_stats r1 = rd_stats r2.

Lemma alike_agree : alike -> ReadersAgree file_len limits same_reader same_reader.
Proof.
  intros Ha. split; try done.
  - by intros r1 r2 [_ Hs].
  - intros n r1 r2 [Hq Hs]. unfold sm_set_stats, same_reader. cbn. by rewrite Hs.
  - intros n r1 r2 [Hq Hs]. unfold sm_set_stats, same_reader. cbn. by rewrite Hs.
  - intros offset length context r1 r2 [Hq Hs]. rewrite !read_exact_charge, Hs.
    destruct (charge file_len limits offset length (rd_stats r2)) as [[[]|e] st] eqn:Ec; [|done].
    apply charge_Ok in Ec as []. destruct (Ha (rd_source r1) (rd_source r2) offset length Hq) as [E Hq']; [done|].
    unfold sm_source_read. cbn [rd_source rd_stats]. destruct (read_exact_at (rd_source r1) offset length) as [x t1],
      (read_exact_at (rd_source r2) offset length) as [y t2]. cbn in *. subst. by destruct y.
Qed.
End Alike.

(** ** What is asked of a source *)

Section Asked.
Context {S : Type} `{ReadAt S} (file_len : N) (limits : Exp0002SourceLimits).

(** The reads are in the file, none is larger than a request may be, and their
    number and their sum are within the limits. *)
Definition asked_within (log : list (N * N)) : Prop :=
  Forall (fun r => r.1 + r.2 <= file_len /\ r.2 <= so_max_read_request_bytes limits) log /\
  len log <= so_max_read_operations limits /\ requested log <= so_max_source_bytes_read limits.

Definition asked_failed (r1 : SourceReader (Logged S)) (r2 : SourceReader S) : Prop :=
  lg_inner (rd_source r1) = rd_source r2 /\ rd_stats r1 = rd_stats r2 /\ asked_within (lg_log (rd_source r1)).
Definition asked_ok (r1 : SourceReader (Logged S)) (r2 : SourceReader S) : Prop :=
  asked_failed r1 r2 /\ len (lg_log (rd_source r1)) = ss_read_operations (rd_stats r1) /\
  requested (lg_log (rd_source r1)) = ss_bytes_read (rd_stats r1).

Lemma asked_agree : ReadersAgree file_len limits asked_ok asked_failed.
Proof.
  split.
  - by intros r1 r2 [].
  - by intros r1 r2 [(_ & Hs & _) _].
  - intros n r1 r2 [(Hi & Hs & Hw) [Ho Hb]]. unfold sm_set_stats, asked_ok, asked_failed. cbn. by rewrite Hs in *.
  - intros n r1 r2 [(Hi & Hs & Hw) [Ho Hb]]. unfold sm_set_stats, asked_ok, asked_failed. cbn. by rewrite Hs in *.
  - intros offset length context r1 r2 [(Hi & Hs & Hw) [Ho Hb]]. rewrite !read_exact_charge, <- Hs, <- Hi. rewrite Hs in Ho, Hb. 
    destruct (charge file_len limits offset length (rd_stats r1)) as [[[]|e] st] eqn:Ec; [|done]. rewrite Hs in Ec.
    apply charge_Ok in Ec as [Hr Hreq _ [Eo Lo] (Eb & Lb & _)]. unfold sm_source_read. cbn [rd_source rd_stats read_exact_at logged_read_at].
    destruct (read_exact_at (lg_inner (rd_source r1)) offset length) as [x t]. cbn.
    assert (Hw' : asked_within (lg_log (rd_source r1) ++ [(offset, length)])).
    { destruct Hw as (Hw & _). split; [apply Forall_app; split; [done|]; by repeat constructor|]. rewrite len_app, requested_app. cbn.
      change (len [(offset, length)]) with 1. lia. }
    destruct x; cbn; [|done]. split; [done|]. split; [done|]. cbn. rewrite len_app, requested_app. cbn. change (len [(offset, length)]) with 1. lia.
Qed.
End Asked.

(** ** Successful runs *)

Lemma sm_bind_Ok {T A B} (m : ST T A) (k : A -> ST T B) s b s' :
  sm_bind m k s = (Ok b, s') <-> exists a s1, m s = (Ok a, s1) /\ k a s1 = (Ok b, s').
Proof.
  unfold sm_bind. destruct (m s) as [[a|e] s1]; split; [eauto|by intros (? & ? & [= <- <-] & ?)|done|by intros (? & ? & [=] & _)].
Qed.

Lemma sm_lift_Ok {T A} (x : X A) (s : T) a s' : sm_lift x s = (Ok a, s') <-> x = Ok a /\ s' = s.
Proof. unfold sm_lift. destruct x; naive_solver. Qed.

Lemma sm_stats_Ok {S} (r : SourceReader S) st r' : sm_stats r = (Ok st, r') <-> st = rd_stats r /\ r' = r.
Proof. unfold sm_stats. naive_solver. Qed.

Lemma sm_ret_Ok {T A} (a : A) (s : T) a' s' : sm_ret a s = (Ok a', s') <-> a' = a /\ s' = s.
Proof. unfold sm_ret. naive_solver. Qed.

(** The steps of a successful run, from the first. *)
Ltac step_run H :=
  repeat lazymatch type of H with
  | sm_bind _ _ _ = (Ok _, _) => let E := fresh "Hrun" in apply sm_bind_Ok in H as (? & ? & E & H)
  | (if ?c then _ else sm_fail _) _ = (Ok _, _) => let E := fresh "Hcheck" in destruct c eqn:E; [|discriminate H]
  | (let '(_, _) := ?p in _) _ = (Ok _, _) => destruct p
  end.

(** The counters a run puts in its result at the end. *)
Ltac reported H :=
  match goal with E : sm_stats _ = _ |- _ => apply sm_stats_Ok in E as [-> ->] end; by apply sm_ret_Ok in H as [-> ->].

Section Run.
Context `{Sha256} {S : Type} `{ReadAt S} (file_len : N) (limits : Exp0002SourceLimits).

(** The counters reported are those of the reader. *)
Lemma strict_commit_stats header footer_offset parsed range r v r' :
  strict_commit file_len limits header footer_offset parsed range r = (Ok v, r') -> vs_stats v = rd_stats r'.
Proof.
  unfold strict_commit. intros Hr. step_run Hr. reported Hr.
Qed.

Lemma strict_body_stats r v r' : strict_body file_len limits r = (Ok v, r') -> vs_stats v = rd_stats r'.
Proof. unfold strict_body. intros Hr. step_run Hr. by eapply strict_commit_stats. Qed.

Lemma read_selected_stats footer sr fr ranges selected r found r' :
  source_read_selected file_len limits footer sr fr ranges selected r = (Ok found, r') -> sk_stats found = rd_stats r'.
Proof.
  unfold source_read_selected. intros Hr. step_run Hr. reported Hr.
Qed.

Lemma lookup_pages_stats fuel object_id footer snapshot sr fr : forall expected ranges r found r',
  source_lookup_pages file_len limits fuel object_id footer snapshot sr fr expected ranges r = (Ok (Some found), r') -> sk_stats found = rd_stats r'.
Proof.
  induction fuel as [|fuel IH]; intros expected ranges r found r' Hr; cbn [source_lookup_pages] in Hr; [done|]. step_run Hr.
  destruct (_ || _); [discriminate Hr|]. destruct (_ =? 1).
  - apply sm_bind_Ok in Hr as ([selected|] & r1 & _ & Hr); [|discriminate Hr]. step_run Hr. apply sm_ret_Ok in Hr as [[= ->] ->]. by eapply read_selected_stats.
  - destruct (_ =? 2); [|discriminate Hr]. apply sm_bind_Ok in Hr as ([child|] & r1 & _ & Hr); [|discriminate Hr]. by eapply IH.
Qed.

Lemma lookup_body_stats object_id r found r' :
  source_lookup_body file_len limits object_id r = (Ok (Some found), r') -> sk_stats found = rd_stats r'.
Proof. unfold source_lookup_body. intros Hr. step_run Hr. by eapply lookup_pages_stats. Qed.
End Run.

(** ** Bounded reads *)

Section Bounds.
Context `{Sha256} {S : Type} `{ReadAt S} (limits : Exp0002SourceLimits).

(** Of the reads a call made: they are within the limits and the length the
    source gave first, or there are none. *)
Definition reads_bounded (s : S) (log : list (N * N)) : Prop :=
  match (source_len s).1 with Ok file_len => asked_within file_len limits log | Err _ => log = [] end.

(** The counters count the reads of a log. *)
Definition counts_reads (st : Exp0002SourceStats) (log : list (N * N)) : Prop :=
  len log = ss_read_operations st /\ requested log = ss_bytes_read st.

Lemma asked_start (file_len : N) (s : S) : asked_ok file_len limits (mkReader (mkLogged s []) default_source_stats) (mkReader s default_source_stats).
Proof. split; [split; [done|split; [done|]]|done]. split; [by constructor|split; apply N.le_0_l]. Qed.

Lemma bounded_none s : reads_bounded s [].
Proof. unfold reads_bounded. destruct (source_len s).1; [|done]. split; [by constructor|split; apply N.le_0_l]. Qed.

Lemma validate_reads s :
  let run := validate_strict_at (mkLogged s []) limits in
  run.1 = (validate_strict_at s limits).1 /\ reads_bounded s (lg_log run.2) /\ forall v, run.1 = Ok v -> counts_reads (vs_stats v) (lg_log run.2).
Proof.
  cbv zeta. pose proof (bounded_none s) as Hnone. unfold validate_strict_at. destruct (validate_limit_configuration limits); [|done].
  cbn [source_len logged_read_at lg_inner lg_log]. unfold reads_bounded in *. destruct (source_len s) as [[n|e] t]; cbn [fst snd] in *; [|done].
  destruct (_ <? n); [done|]. destruct (n <? _); [done|]. pose proof (asked_agree (S := S) n limits) as Hag.
  destruct (lockstep_strict_body n limits _ _ _ _ (asked_start n t)) as [E Hf].
  destruct (strict_body n limits (mkReader (mkLogged t []) default_source_stats)) as [res1 r1] eqn:Er,
    (strict_body n limits (mkReader t default_source_stats)) as [res2 r2]. cbn [fst snd] in *. subst res2. split; [done|]. destruct res1 as [v|e].
  - destruct Hf as [(_ & _ & Hw) Hc]. split; [done|]. intros v' [= <-]. apply strict_body_stats in Er as ->. done.
  - split; [|done]. apply Hf.
Qed.

Lemma lookup_reads s object_id :
  let run := lookup_authenticated_at (mkLogged s []) object_id limits in
  run.1 = (lookup_authenticated_at s object_id limits).1 /\ reads_bounded s (lg_log run.2) /\
  forall found, run.1 = Ok (Some found) -> counts_reads (sk_stats found) (lg_log run.2).
Proof.
  cbv zeta. pose proof (bounded_none s) as Hnone. unfold lookup_authenticated_at. destruct (object_id =? 0); [done|]. destruct (validate_limit_configuration limits); [|done].
  cbn [source_len logged_read_at lg_inner lg_log]. unfold reads_bounded in *. destruct (source_len s) as [[n|e] t]; cbn [fst snd] in *; [|done].
  destruct (_ <? n); [done|]. destruct (n <? _); [done|]. pose proof (asked_agree (S := S) n limits) as Hag.
  destruct (lockstep_lookup_body n limits _ _ object_id _ _ (asked_start n t)) as [E Hf].
  destruct (source_lookup_body n limits object_id (mkReader (mkLogged t []) default_source_stats)) as [res1 r1] eqn:Er,
    (source_lookup_body n limits object_id (mkReader t default_source_stats)) as [res2 r2]. cbn [fst snd] in *. subst res2. split; [done|]. destruct res1 as [v|e].
  - destruct Hf as [(_ & _ & Hw) Hc]. split; [done|]. intros v' [= ->]. apply lookup_body_stats in Er as ->. done.
  - split; [|done]. apply Hf.
Qed.
End Bounds.
