(* ===== verification/Exp0002SourceLookupFacts.v ===== *)
(** Lookup through a source agrees with the lookup in memory: it succeeds
    exactly when that does and what it costs fits the limits, with the same
    result. *)

From Stdlib Require Import Strings.Byte Strings.String NArith ZArith Lia.
From stdpp Require Import base list gmap strings sorting.
From S2P Require Import Prelude Order Digest Machine Exp0002 Exp0002File Exp0002Pages Exp0002Strict Exp0002Lookup.
From S2P Require Import Exp0002Source Exp0002SourceStrict Exp0002SourceFacts Exp0002SourceStrictFacts.

Local Open Scope N_scope.

(** ** Reading a prefix *)

Lemma read_array_prefix n b k m : n + k <= m -> m <= len b -> read_array n (slice b 0 m) k = read_array n b k.
Proof.
  intros Hk Hm. unfold read_array, checked_add. destruct (N.leb_spec (k + n) U64_MAX); [|done]. cbn [ok_or]. unfold get_range.
  rewrite slice_len by lia. rewrite !(proj2 (N.leb_le _ _)) by lia. cbn [andb ok_or].
  change (take (N.to_nat (k + n - k)) (drop (N.to_nat k) ?l)) with (slice l k (k + n)). rewrite subslice by lia. by rewrite !N.add_0_l.
Qed.

Lemma read_u16_prefix b k m : 2 + k <= m -> m <= len b -> read_u16 (slice b 0 m) k = read_u16 b k.
Proof. intros Hk Hm. unfold read_u16. by rewrite read_array_prefix. Qed.
Lemma read_u32_prefix b k m : 4 + k <= m -> m <= len b -> read_u32 (slice b 0 m) k = read_u32 b k.
Proof. intros Hk Hm. unfold read_u32. by rewrite read_array_prefix. Qed.
Lemma read_u64_prefix b k m : 8 + k <= m -> m <= len b -> read_u64 (slice b 0 m) k = read_u64 b k.
Proof. intros Hk Hm. unfold read_u64. by rewrite read_array_prefix. Qed.

(** ** The footer *)

(** The footer this lookup parses is the one the lookup in memory checks and
    reads field by field. *)
Definition footer_fields (footer : bytes) : X SourceFooter :=
  let* commit_start := read_u64 footer 16 in
  let* commit_len := read_u64 footer 24 in
  let* snapshot_offset := read_u64 footer 32 in
  let* snapshot_len := read_u64 footer 40 in
  let* sequence := read_u64 footer 48 in
  let* previous_footer_offset := read_u64 footer 56 in
  let* snapshot_digest := read_array 32 footer 80 in
  let* commit_digest := read_array 32 footer 112 in
  Ok (mkSourceFooter commit_start commit_len snapshot_offset snapshot_len sequence previous_footer_offset snapshot_digest commit_digest
        (slice footer 8 112)).

Lemma read_array_in n b k : k + n <= len b -> len b <= U64_MAX -> read_array n b k = Ok (slice b k (k + n)).
Proof. intros Hk Hm. by apply read_array_Ok; [lia|]. Qed.

Lemma source_footer_eq footer sf : len footer = FOOTER_LEN -> parse_source_footer footer = Ok sf <->
  validate_footer_structure footer = Ok tt /\ footer_fields footer = Ok sf.
Proof.
  intros Hl. unfold parse_source_footer, validate_footer_structure, footer_fields. rewrite Hl, N.eqb_refl. cbn [andb].
  rewrite (read_array_in 104) by (rewrite Hl; done). change (8 + 104) with 112.
  assert (Hno : forall (e : Exp0002Error) (x : X unit) (P : Prop), x = Err e -> @Err Exp0002Error SourceFooter e = Ok sf <-> x = Ok tt /\ P) by (intros e x P ->; naive_solver).
  destruct (bool_decide _); [|by apply Hno]. destruct (read_u16 footer 8) as [fl|]; [|by apply Hno]. destruct (fl =? _); [|by apply Hno].
  destruct (read_u16 footer 10) as [vs|]; [|by apply Hno]. destruct (vs =? 2); [|by apply Hno]. destruct (read_u32 footer 12) as [fg|]; [|by apply Hno].
  destruct (fg =? 0); [|by apply Hno]. destruct (read_u16 footer 72) as [dg|]; [|by apply Hno]. destruct (dg =? 1); [|by apply Hno].
  destruct (require_zero (slice footer 74 80) _); [|by apply Hno]. destruct (require_zero (slice footer 144 160) _) as [[]|]; [|by apply Hno]. tauto.
Qed.

Lemma footer_fields_Ok footer : len footer = FOOTER_LEN -> exists sf, footer_fields footer = Ok sf /\
  read_u64 footer 16 = Ok (sf_commit_start sf) /\ read_u64 footer 24 = Ok (sf_commit_len sf) /\
  read_u64 footer 32 = Ok (sf_snapshot_offset sf) /\ read_u64 footer 40 = Ok (sf_snapshot_len sf) /\
  read_u64 footer 48 = Ok (sf_sequence sf) /\ read_u64 footer 56 = Ok (sf_previous_footer_offset sf) /\
  read_array 32 footer 80 = Ok (sf_snapshot_digest sf) /\ read_array 32 footer 112 = Ok (sf_commit_digest sf) /\
  sf_semantics sf = slice footer 8 112.
Proof.
  intros Hl. assert (Hr : forall n k, k + n <= 160 -> read_array n footer k = Ok (slice footer k (k + n))).
  { intros n k Hk. apply read_array_in; rewrite Hl; done. }
  unfold footer_fields, read_u64. rewrite !Hr by done. eexists. split; [reflexivity|]. split_and!; done.
Qed.

(** A footer parses when its structure is right and its fields are as given. *)
Lemma source_footer_Ok footer sf : len footer = FOOTER_LEN -> parse_source_footer footer = Ok sf ->
  validate_footer_structure footer = Ok tt /\
  read_u64 footer 16 = Ok (sf_commit_start sf) /\ read_u64 footer 24 = Ok (sf_commit_len sf) /\
  read_u64 footer 32 = Ok (sf_snapshot_offset sf) /\ read_u64 footer 40 = Ok (sf_snapshot_len sf) /\
  read_u64 footer 48 = Ok (sf_sequence sf) /\ read_u64 footer 56 = Ok (sf_previous_footer_offset sf) /\
  read_array 32 footer 80 = Ok (sf_snapshot_digest sf) /\ read_array 32 footer 112 = Ok (sf_commit_digest sf) /\
  sf_semantics sf = slice footer 8 112.
Proof.
  intros Hl [Hs Hf]%source_footer_eq; [|done]. destruct (footer_fields_Ok footer Hl) as (sf' & Hf' & Hx). assert (sf' = sf) as -> by congruence. done.
Qed.

Lemma source_footer_exists footer : len footer = FOOTER_LEN -> validate_footer_structure footer = Ok tt -> exists sf, parse_source_footer footer = Ok sf.
Proof. intros Hl Hs. destruct (footer_fields_Ok footer Hl) as (sf & Hf & _). exists sf. by apply source_footer_eq. Qed.

(** ** The selected record *)

(** The checks of the header of the selected record. *)
Definition selected_header (header : bytes) (selected : SelectedLeaf) (limits : ValidationLimits) : X unit :=
  check bool_decide (slice header 0 4 = OBJECT_MAGIC) else InvalidMagic "object" in
  let* header_len := read_u16 header 4 in
  check header_len =? OBJECT_HEADER_LEN else InvalidLength "object header" in
  let* kind := read_u16 header 6 in
  check kind =? sl_kind selected else InvalidLength "object header" in
  let* flags := read_u32 header 8 in
  check flags =? 0 else InvalidLength "object header" in
  let* object_id := read_u64 header 12 in
  check object_id =? sl_object_id selected else InvalidLength "object header" in
  let* payload_len := read_u64 header 20 in
  let* logical_len := read_u64 header 28 in
  check (payload_len =? logical_len) && (logical_len =? sl_logical_len selected) && negb (max_payload_bytes limits <? payload_len)
    else LogicalLengthMismatch in
  let* expected_len := ok_or (checked_add OBJECT_HEADER_LEN payload_len) ArithmeticOverflow in
  check expected_len =? sl_record_len selected else LogicalLengthMismatch in
  require_zero (slice header 36 48) "object".

Lemma validate_selected_object_Ok `{Sha256} record selected limits :
  validate_selected_object record selected limits = Ok tt <->
  OBJECT_HEADER_LEN <= len record /\ selected_header (slice record 0 OBJECT_HEADER_LEN) selected limits = Ok tt /\
  digest_bytes OBJECT_DOMAIN record = sl_digest selected.
Proof.
  unfold validate_selected_object, selected_header. destruct (N.ltb_spec (len record) OBJECT_HEADER_LEN) as [Hlt|Hle]; cbn [negb andb].
  { split; [done|]. intros [Hl _]. lia. }
  unfold OBJECT_HEADER_LEN in *. rewrite !read_u16_prefix, !read_u64_prefix, read_u32_prefix by (done || lia). rewrite !subslice by lia. rewrite !N.add_0_l.
  assert (Hno : forall (e e' : Exp0002Error) (P Q : Prop), @Err Exp0002Error unit e = Ok tt <-> P /\ @Err Exp0002Error unit e' = Ok tt /\ Q) by naive_solver.
  destruct (bool_decide (slice record 0 4 = _)); [|apply Hno]. destruct (read_u16 record 4) as [hl|]; [|apply Hno]. destruct (hl =? _); [|apply Hno].
  destruct (read_u16 record 6) as [kd|]; [|apply Hno]. destruct (kd =? _); [|apply Hno]. destruct (read_u32 record 8) as [fg|]; [|apply Hno].
  destruct (fg =? 0); [|apply Hno]. destruct (read_u64 record 12) as [oi|]; [|apply Hno]. destruct (oi =? _); [|apply Hno].
  destruct (read_u64 record 20) as [pl|]; [|apply Hno]. destruct (read_u64 record 28) as [ll|]; [|apply Hno]. destruct (_ && _ && _); [|apply Hno].
  destruct (checked_add 48 pl) as [el|]; cbn [ok_or]; [|apply Hno]. destruct (el =? _); [|apply Hno].
  destruct (require_zero _ _) as [[]|]; [|apply Hno]. case_bool_decide; naive_solver.
Qed.

(** ** The pages of a path *)

Definition page_expected (e : ExpectedPage) (h : LookupPageHeader) : bool :=
  negb (negb (lh_level h =? xp_level e) || is_some_and (xp_minimum e) (fun value => negb (value =? lh_minimum h))
        || is_some_and (xp_maximum e) (fun value => negb (value =? lh_maximum h))).

(** What the page a parent expects must satisfy, but for the counts. *)
Definition page_ok `{Sha256} (b : bytes) (sq : N) (e : ExpectedPage) (h : LookupPageHeader) : Prop :=
  let page := slice b (xp_offset e) (xp_offset e + PAGE_SIZE) in
  xp_offset e + PAGE_SIZE <= len b /\ digest_bytes PAGE_DOMAIN page = xp_digest e /\
  parse_page_header page sq = Ok h /\ page_expected e h = true.

Definition count_ok (limits : AuthenticatedLookupLimits) (n : N) : bool :=
  negb ((ll_max_page_reads limits <? n) || (max_page_depth (ll_validation limits) <? n) || (max_pages (ll_validation limits) <? n)).

Lemma hash_more_Ok h n limits h' : hash_more h n limits = Ok h' <->
  h' = h + n /\ h + n <= max_hashed_bytes (ll_validation limits) /\ h + n <= U64_MAX.
Proof.
  split; [|intros (-> & ? & ?); by apply hash_more_ok]. unfold hash_more, check_hashed. intros Hh. step_all Hh. injection Hh as <-.
  option_facts. bool_facts. done.
Qed.

Lemma lookup_page_Ok `{Sha256} b limits sq e rs n h r : len b <= U64_MAX ->
  lookup_page b limits sq e rs n h = Ok r <->
  exists hd, count_ok limits n = true /\ page_ok b sq e hd /\ h + PAGE_SIZE <= max_hashed_bytes (ll_validation limits) /\ h + PAGE_SIZE <= U64_MAX /\
    r = (slice b (xp_offset e) (xp_offset e + PAGE_SIZE), hd, rs ++ [(xp_offset e, xp_offset e + PAGE_SIZE)], h + PAGE_SIZE).
Proof.
  intros Hmax. unfold lookup_page, page_ok, page_expected, count_ok. split.
  - intros Hr. step_all Hr. injection Hr as <-. repeat match goal with E : checked_range _ _ _ = _ |- _ => apply exp2_range_Ok in E as (-> & -> & ? & ?) end.
    repeat match goal with E : hash_more _ _ _ = _ |- _ => apply hash_more_Ok in E as (-> & ? & ?) end.
    match goal with E : bool_decide _ = true |- _ => apply bool_decide_eq_true in E end. eexists. split_and!; done.
  - intros (hd & -> & (Hr & Hd & Hp & He) & Hh & Hh' & ->). rewrite (proj2 (exp2_range_Ok _ _ _ _ _)) by (split_and!; done || lia).
    rewrite (proj2 (hash_more_Ok _ _ _ _)) by done. rewrite bool_decide_eq_true_2, Hp, He by done. done.
Qed.

(** The range of a record keeps away from the pages, the snapshot and the footer. *)
Definition record_clear (b : bytes) (fo : N) (sr : N * N) (rs : list (N * N)) (selected : SelectedLeaf) : bool :=
  let range := (sl_record_offset selected, sl_record_offset selected + sl_record_len selected) in
  negb (overlaps_any range rs || ranges_overlap range sr || ranges_overlap range (fo, len b)).

Definition selected_lookup (selected : SelectedLeaf) (sq n h : N) : AuthenticatedObjectLookup :=
  mkLookup (sl_object_id selected) (sl_kind selected) (sl_record_offset selected) (sl_record_len selected)
    (sl_record_offset selected + OBJECT_HEADER_LEN) (sl_record_len selected - OBJECT_HEADER_LEN) (sl_logical_len selected) sq n h.

Lemma read_selected_Ok `{Sha256} b limits sq fo sr rs n h selected r : len b <= U64_MAX ->
  read_selected b limits sq fo sr rs n h selected = Ok r <->
  sl_record_offset selected + sl_record_len selected <= len b /\ record_clear b fo sr rs selected = true /\
  h + sl_record_len selected <= max_hashed_bytes (ll_validation limits) /\ h + sl_record_len selected <= U64_MAX /\
  validate_selected_object (slice b (sl_record_offset selected) (sl_record_offset selected + sl_record_len selected)) selected (ll_validation limits) = Ok tt /\
  r = selected_lookup selected sq n (h + sl_record_len selected).
Proof.
  intros Hmax. unfold read_selected, record_clear. split.
  - intros Hr. step_all Hr. injection Hr as <-. repeat match goal with E : checked_range _ _ _ = _ |- _ => apply exp2_range_Ok in E as (-> & -> & ? & ?) end.
    repeat match goal with E : hash_more _ _ _ = _ |- _ => apply hash_more_Ok in E as (-> & ? & ?) end.
    match goal with E : validate_selected_object _ _ _ = Ok ?u |- _ => destruct u end. option_facts. unfold checked_sub in *. split_and!; done.
  - intros (Hr & Hc & Hh & Hh' & Hv & ->). rewrite (proj2 (exp2_range_Ok _ _ _ _ _)) by (split_and!; done || lia). rewrite Hc.
    rewrite (proj2 (hash_more_Ok _ _ _ _)) by done. rewrite Hv. apply validate_selected_object_Ok in Hv as (Hl & _). rewrite slice_len in Hl by lia.
    rewrite checked_add_fits by lia. cbn [ok_or]. unfold checked_sub. rewrite (proj2 (N.leb_le _ _)) by lia. done.
Qed.

(** The pages that the walk to an identifier reads. *)
Fixpoint path_pages (fuel : nat) (b : bytes) (object_id sq : N) (e : ExpectedPage) : N :=
  match fuel with
  | O => 0
  | Datatypes.S fuel =>
      let page := slice b (xp_offset e) (xp_offset e + PAGE_SIZE) in
      match parse_page_header page sq with
      | Err _ => 0
      | Ok h =>
          1 + (if (object_id <? lh_minimum h) || (lh_maximum h <? object_id) then 0
               else if lh_kind h =? 1 then 0
               else match select_internal page h object_id with Ok (Some child) => path_pages fuel b object_id sq child | _ => 0 end)
      end
  end.

(** ** The whole lookup *)

Lemma file_header_parse_prefix b : 64 <= len b -> is_ok (file_header_parse (slice b 0 64)) = is_ok (file_header_parse b).
Proof.
  intros Hl. destruct (file_header_parse (slice b 0 64)) as [h|e] eqn:Ep; [by rewrite (file_header_prefix b h)|].
  destruct (file_header_parse b) as [h|] eqn:Eb; [|done]. exfalso. apply file_header_parse_Ok in Eb as (_ & Hok & Hat).
  assert (Hp : file_header_parse (slice b 0 64) = Ok h); [|congruence]. apply file_header_parse_Ok. rewrite slice_len by lia. split_and!; [done|done|].
  unfold file_header_at in *. rewrite !subslice by lia. exact Hat.
Qed.

(** The active commit of a file that a lookup may walk. *)
Record lookup_commit `{Sha256} (b : bytes) (limits : ValidationLimits) (footer : SourceFooter) (snapshot : Snapshot) : Prop := {
  lc_file : 64 + FOOTER_LEN <= len b <= max_file_bytes limits;
  lc_header : is_ok (file_header_parse b) = true;
  lc_footer : parse_source_footer (slice b (len b - FOOTER_LEN) (len b)) = Ok footer;
  lc_commit : sf_commit_start footer + sf_commit_len footer = len b - FOOTER_LEN;
  lc_commit_len : sf_commit_len footer <= max_commit_bytes limits;
  lc_commit_digest : hasher_finalize (hasher_update (hasher_update (hasher_update hasher_new COMMIT_DOMAIN)
    (slice b (sf_commit_start footer) (sf_commit_start footer + sf_commit_len footer))) (sf_semantics footer)) = sf_commit_digest footer;
  lc_snapshot : sf_commit_start footer <= sf_snapshot_offset footer /\ sf_snapshot_offset footer + sf_snapshot_len footer <= len b - FOOTER_LEN;
  lc_snapshot_digest : digest_bytes SNAPSHOT_DOMAIN (slice b (sf_snapshot_offset footer) (sf_snapshot_offset footer + sf_snapshot_len footer)) = sf_snapshot_digest footer;
  lc_snapshot_parse : snapshot_parse (slice b (sf_snapshot_offset footer) (sf_snapshot_offset footer + sf_snapshot_len footer)) limits = Ok snapshot;
  lc_sequence : sn_sequence snapshot = sf_sequence footer;
  lc_previous : sn_previous_footer_offset snapshot = sf_previous_footer_offset footer;
  lc_parent : lookup_parent_link b (len b - FOOTER_LEN) (sf_commit_start footer) (sf_sequence footer) (sf_previous_footer_offset footer)
    (sn_parent_snapshot_digest snapshot) = Ok tt;
}.

Definition lookup_root (snapshot : Snapshot) : ExpectedPage :=
  mkExpectedPage (sn_directory_root_offset snapshot) (sn_directory_root_digest snapshot) (sn_directory_root_level snapshot) None None.

Lemma lookup_authenticated_Ok `{Sha256} b object_id limits m : len b <= U64_MAX ->
  lookup_authenticated b object_id limits = Ok m <->
  object_id <> 0 /\ exists footer snapshot, lookup_commit b (ll_validation limits) footer snapshot /\
    sf_commit_len footer + sf_snapshot_len footer <= max_hashed_bytes (ll_validation limits) /\
    sf_commit_len footer + sf_snapshot_len footer <= U64_MAX /\
    lookup_pages (Datatypes.S (N.to_nat (sn_directory_root_level snapshot))) b object_id limits (sf_sequence footer) (len b - FOOTER_LEN)
      (sf_snapshot_offset footer, sf_snapshot_offset footer + sf_snapshot_len footer) (lookup_root snapshot) [] 0
      (sf_commit_len footer + sf_snapshot_len footer) = Ok m.
Proof.
  intros Hmax. assert (HFL : FOOTER_LEN = 160) by done. assert (Hlen : 64 + FOOTER_LEN <= len b -> len (slice b (len b - FOOTER_LEN) (len b)) = FOOTER_LEN).
  { intros Hl. rewrite slice_len; lia. }
  unfold lookup_authenticated, to_u64. split.
  - intros Hm. step_all Hm. destruct_unit. option_facts. bool_facts. 
    repeat match goal with E : checked_range _ _ _ = _ |- _ => apply exp2_range_Ok in E as (-> & -> & ? & ?) | E : hash_more _ _ _ = _ |- _ => apply hash_more_Ok in E as (-> & ? & ?) end.
    match goal with E : validate_footer_structure _ = _ |- _ => apply source_footer_exists in E as (sf & Hsf); [|apply Hlen; lia] end.
    pose proof (source_footer_Ok _ _ (Hlen ltac:(lia)) Hsf) as (_ & Hf). destruct_and! Hf.
    repeat match goal with H1 : ?x = Ok ?a, H2 : ?x = Ok ?c |- _ => lazymatch c with ?f sf => rewrite H2 in H1; injection H1 as <- end end.
    match goal with Hs : snapshot_parse _ _ = Ok ?sn |- _ => split; [done|]; exists sf, sn end. split_and!; try done.
    split; try done; [match goal with E : file_header_parse b = _ |- _ => by rewrite E end|]. match goal with E : sf_semantics sf = _ |- _ => by rewrite E end.
  - intros (Hid & footer & snapshot & [[Hf1 Hf2] Hh Hfo Hc Hcl Hcd [Hs1 Hs2] Hsd Hsp Hsq Hpr Hpa] & Hb & Hb' & Hm).
    rewrite (proj2 (N.eqb_neq _ _) Hid), try_u64_fits by done. cbn [negb ok_or]. rewrite (proj2 (N.ltb_ge _ _) Hf2), (proj2 (N.ltb_ge _ _) Hf1). cbn [negb].
    destruct (file_header_parse b) as [h|]; [|done]. unfold checked_sub. rewrite (proj2 (N.leb_le FOOTER_LEN (len b))) by lia. cbn [ok_or].
    apply source_footer_Ok in Hfo as (-> & -> & -> & -> & -> & -> & -> & -> & -> & Hsem); [|by apply Hlen].
    rewrite (checked_add_fits (sf_commit_start footer)) by lia. cbn [ok_or]. rewrite Hc, try_u64_fits by lia. cbn [ok_or]. rewrite N.eqb_refl, (proj2 (N.ltb_ge _ _) Hcl).
    cbn [negb]. unfold check_hashed at 1. rewrite (proj2 (N.ltb_ge _ (sf_commit_len footer))) by lia. cbn [negb].
    rewrite (proj2 (exp2_range_Ok _ _ _ (sf_commit_start footer) (sf_commit_start footer + sf_commit_len footer))) by (split_and!; done || lia).
    rewrite <- Hsem, bool_decide_eq_true_2 by done.
    rewrite (proj2 (exp2_range_Ok _ _ _ (sf_snapshot_offset footer) (sf_snapshot_offset footer + sf_snapshot_len footer))) by (split_and!; done || lia).
    rewrite !(proj2 (N.ltb_ge _ _)) by lia. cbn [orb negb]. rewrite bool_decide_eq_true_2 by done. rewrite (proj2 (hash_more_Ok _ _ _ _)) by done.
    rewrite Hsp, Hsq, Hpr, !N.eqb_refl. cbn [andb]. rewrite Hpa. exact Hm.
Qed.

Section Lookup.
Context `{Hsha : Sha256} {S : Type} `{ReadAt S} {presents : S -> bytes -> Prop} {reliable : Prop} `{!PresentsSource S presents reliable}.
Context (b : bytes) (limits : Exp0002SourceLimits) (Hmax : len b <= U64_MAX).
Context (Hrequest : PAGE_SIZE <= so_max_read_request_bytes limits) (Hblock : 0 < so_hash_block_bytes limits)
  (Hblocks : so_hash_block_bytes limits <= so_max_read_request_bytes limits).

Abbreviation exactly := (exactly (S := S) (presents := presents) (reliable := reliable) b limits).
Abbreviation vlimits := (so_validation limits).
Abbreviation fits := (fits limits).
(** The limits of the lookup in memory. *)
Abbreviation mlimits := (mkLookupLimits (so_validation limits) (so_max_page_reads limits)).

Implicit Types i j f : Exp0002SourceStats.

(** What reading the selected record of [n] bytes costs. *)
Definition record_cost (n : N) : Exp0002SourceStats :=
  reading 1 OBJECT_HEADER_LEN OBJECT_HEADER_LEN ⊕ in_blocks (n - OBJECT_HEADER_LEN) (so_hash_block_bytes limits) ⊕ hashing n.

Definition record_accepted (selected : SelectedLeaf) : Prop :=
  sl_record_offset selected + sl_record_len selected <= len b /\
  validate_selected_object (slice b (sl_record_offset selected) (sl_record_offset selected + sl_record_len selected)) selected vlimits = Ok tt.

Lemma record_cost_split i n : OBJECT_HEADER_LEN <= n ->
  i ⊕ reading 1 OBJECT_HEADER_LEN OBJECT_HEADER_LEN ⊕ in_blocks (n - OBJECT_HEADER_LEN) (so_hash_block_bytes limits) ⊕ hashing (n - OBJECT_HEADER_LEN) ⊕ hashing OBJECT_HEADER_LEN =
    i ⊕ record_cost n.
Proof. intros Hn. unfold record_cost, in_blocks. stats_solve. Qed.

(** One step that the specification, the first half of [H], takes as well. *)
Ltac same_step H :=
  let none := (let a := fresh "a" in let f := fresh "f" in let Ha := fresh "Ha" in let Hx := fresh "Hx" in
    intros a f Ha; destruct (proj1 H a f Ha) as (Hx & _); discriminate Hx) in
  revert H; lazymatch goal with
  | |- _ -> exactly _ (if ?c then _ else sm_fail _) _ => destruct c eqn:?; intros H; [|apply exactly_fail; none]
  | |- _ -> exactly _ (sm_bind (sm_lift ?x) _) _ =>
      destruct x eqn:?; intros H; [apply exactly_lift; [by eexists|]; intros ? [= <-]|apply exactly_lift; [none|done]]
  end.

Lemma exactly_selected_object selected i :
  sl_record_offset selected + sl_record_len selected <= len b ->
  exactly i (source_selected_object (len b) limits selected)
    (known tt (i ⊕ record_cost (sl_record_len selected)) (record_accepted selected)).
Proof.
  intros Hin. unfold source_selected_object. set (record := slice b (sl_record_offset selected) (sl_record_offset selected + sl_record_len selected)).
  assert (Hlen : len record = sl_record_len selected) by (unfold record; rewrite slice_len; lia).
  pose proof (validate_selected_object_Ok record selected vlimits) as Hv. rewrite Hlen in Hv.
  assert (Hspec : (forall a f, known tt (i ⊕ record_cost (sl_record_len selected)) (record_accepted selected) a f ->
    selected_header (slice record 0 OBJECT_HEADER_LEN) selected vlimits = Ok tt /\ OBJECT_HEADER_LEN <= sl_record_len selected /\
    digest_bytes OBJECT_DOMAIN record = sl_digest selected /\ f = i ⊕ record_cost (sl_record_len selected)) /\
    (selected_header (slice record 0 OBJECT_HEADER_LEN) selected vlimits = Ok tt -> OBJECT_HEADER_LEN <= sl_record_len selected ->
      digest_bytes OBJECT_DOMAIN record = sl_digest selected -> record_accepted selected)).
  { split; [intros a f (_ & -> & _ & (H1 & H2 & H3)%Hv); done|]. intros H1 H2 H3. split; [done|]. by apply Hv. }
  clear Hv. apply exactly_check; [intros a f (_ & Hl & _)%(proj1 Hspec) _; by apply negb_true_iff, N.ltb_ge|]. intros Hl. bool_facts.
  eapply exactly_known; [apply exactly_read_array; done| |].
  { intros a f (_ & _ & _ & ->)%(proj1 Hspec) _. split; [unfold OBJECT_HEADER_LEN in *; lia|]. unfold record_cost. rewrite !stats_add_assoc. etransitivity; [|apply stats_le_add]. apply stats_le_add. }
  intros _. assert (Hh : slice b (sl_record_offset selected) (sl_record_offset selected + OBJECT_HEADER_LEN) = slice record 0 OBJECT_HEADER_LEN).
  { unfold record, OBJECT_HEADER_LEN in *. rewrite subslice by lia. by rewrite N.add_0_r. }
  rewrite Hh. unfold selected_header in Hspec. do 14 (same_step Hspec). destruct Hspec as [Hspec Hback].
  apply exactly_lift; [intros r f (Hz & _)%Hspec _; by eexists|]. intros [] Hz.
  apply exactly_lift; [intros _ _ _ _; unfold OBJECT_HEADER_LEN in *; rewrite checked_add_fits by lia; by eexists|].
  intros po Hpo. option_facts. bool_facts. assert (a3 = sl_record_len selected - OBJECT_HEADER_LEN) as -> by lia.
  eapply exactly_known; [apply exactly_hash_range; done || lia| |].
  { intros a' f (_ & _ & _ & ->)%Hspec _. split; [done|]. rewrite <- (record_cost_split i) by done. apply stats_le_add. }
  intros _. eapply exactly_known; [by apply exactly_add_hashed| |].
  { intros a' f (_ & _ & _ & ->)%Hspec _. split; [done|]. by rewrite <- (record_cost_split i). }
  intros _. rewrite record_cost_split by done.
  assert (Hdg : hasher_finalize (hasher_update (hasher_update (hasher_update hasher_new OBJECT_DOMAIN) (slice record 0 OBJECT_HEADER_LEN))
    (slice b (sl_record_offset selected + OBJECT_HEADER_LEN) (sl_record_offset selected + OBJECT_HEADER_LEN + (sl_record_len selected - OBJECT_HEADER_LEN)))) =
    digest_bytes OBJECT_DOMAIN record).
  { unfold digest_bytes, hasher_finalize, hasher_update, hasher_new. rewrite <- !app_assoc. do 2 f_equal. unfold record, OBJECT_HEADER_LEN in *. rewrite subslice, N.add_0_r, slice_join by lia. do 2 f_equal. lia. }
  rewrite Hdg. apply exactly_check; [intros a' f (_ & _ & Hd & _)%Hspec _; by apply bool_decide_eq_true_2|].
  intros Hd. bool_facts. apply exactly_ret. split_and!; [done|done|by apply Hback].
Qed.

(** ** Pages *)

Lemma exactly_lookup_count {A} i e (k : SM S A) spec :
  (forall a f, spec a f -> fits f -> count_ok mlimits (ss_pages_read i + 1) = true /\ i ⊕ one_page ⊑ f) ->
  (count_ok mlimits (ss_pages_read i + 1) = true -> exactly (i ⊕ one_page) k spec) ->
  exactly i (let! st := sm_stats in
    let! pages_read := sm_lift (ok_or (checked_add (ss_pages_read st) 1) ArithmeticOverflow) in
    let! _ := sm_set_stats (set_pages_read pages_read) in
    if negb ((so_max_page_reads limits <? pages_read) || (max_page_depth vlimits <? pages_read) || (max_pages vlimits <? pages_read))
    then k else sm_fail e) spec.
Proof.
  intros He Hk s Hp Hf. unfold sm_bind, sm_stats, sm_lift, sm_set_stats. cbn [rd_stats rd_source].
  destruct (checked_add (ss_pages_read i) 1) as [n|] eqn:En; cbn [ok_or].
  2: { cbn. split; [done|]. intros a f Ha Hff. destruct (He a f Ha Hff) as [_ Hle]. apply (fits_mono _ _ _ Hle) in Hff.
       unfold Exp0002SourceFacts.fits in Hff. cbn in Hff. rewrite checked_add_fits in En by apply Hff. done. }
  apply checked_add_Some in En as [-> Hu]. 
  match goal with |- context [if negb ?c then _ else _] => change (negb c) with (count_ok mlimits (ss_pages_read i + 1)) end. destruct (count_ok _ _) eqn:Ec.
  2: { cbn. split; [done|]. intros a f Ha Hff. destruct (He a f Ha Hff) as [? _]. done. }
  replace (set_pages_read (ss_pages_read i + 1) i) with (i ⊕ one_page) by (destruct i; unfold set_pages_read; stats_solve).
  apply Hk; [done|done|]. unfold count_ok in Ec. bool_facts. cbn in *. unfold Exp0002SourceFacts.fits in *. cbn. rewrite !N.add_0_r. intuition.
Qed.

Definition page_found (sq : N) (e : ExpectedPage) (rs : list (N * N)) i (r : bytes * LookupPageHeader * list (N * N)) f : Prop :=
  exists h, count_ok mlimits (ss_pages_read i + 1) = true /\ page_ok b sq e h /\
    r = (slice b (xp_offset e) (xp_offset e + PAGE_SIZE), h, rs ++ [(xp_offset e, xp_offset e + PAGE_SIZE)]) /\ f = i ⊕ page_cost.

Lemma exactly_lookup_page sq e rs i : exactly i (source_lookup_page (len b) limits sq e rs) (page_found sq e rs i).
Proof.
  unfold source_lookup_page. assert (HPS : PAGE_SIZE = 16384) by done. apply exactly_lookup_count.
  { intros a f (h & Hc & _ & _ & ->) _. split; [done|]. unfold page_cost. rewrite !stats_add_assoc. etransitivity; apply stats_le_add. }
  intros Hc.   eapply exactly_known; [by apply exactly_read_array| |].
  { intros a f (h & _ & (Hr & _) & _ & ->) _. split; [done|]. unfold page_cost. rewrite !stats_add_assoc. apply stats_le_add. }
  intros Hr. eapply exactly_known; [by apply exactly_add_hashed| |].
  { intros a f (h & _ & _ & _ & ->) _. split; [done|]. unfold page_cost. by rewrite !stats_add_assoc. }
  intros _. rewrite <- (stats_add_assoc i), <- (stats_add_assoc i). fold page_cost. apply exactly_check.
  { intros a f (h & _ & (_ & Hd & _) & _) _. by apply bool_decide_eq_true_2. }
  intros Hd. bool_facts. unfold to_range. rewrite checked_add_fits by lia. cbn [ok_or]. rewrite !(proj2 (N.ltb_ge _ _)) by lia. cbn [orb negb].
  apply exactly_lift; [intros _ _ _ _; by eexists|]. intros range [= <-]. apply exactly_lift.
  { intros a f (h & _ & (_ & _ & Hh & _) & _) _. by eexists. }
  intros h Hh. fold (page_expected e h). apply exactly_check.
  { intros a f (h' & _ & (_ & _ & Hh' & He) & _) _. congruence. }
  intros He. apply exactly_ret. by exists h.
Qed.

(** ** The walk *)

(** The result of the lookup in memory as this one reports it. *)
Definition reported f (found : AuthenticatedObjectLookup) : Exp0002SourceLookup :=
  mkSourceLookup (al_object_id found) (al_kind found) (al_record_offset found) (al_record_len found) (al_payload_offset found)
    (al_payload_len found) (al_logical_len found) (al_sequence found) f.

Definition found_cost (found : option AuthenticatedObjectLookup) : Exp0002SourceStats :=
  match found with Some found => record_cost (al_record_len found) | None => default_source_stats end.

Definition record_found (footer : SourceFooter) (sr : N * N) (fo : N) (rs : list (N * N)) (selected : SelectedLeaf) i (r : Exp0002SourceLookup) f : Prop :=
  record_accepted selected /\ record_clear b fo sr rs selected = true /\
  r = reported f (selected_lookup selected (sf_sequence footer) 0 0) /\ f = i ⊕ record_cost (sl_record_len selected).

Lemma exactly_read_selected footer sr fo rs selected i :
  exactly i (source_read_selected (len b) limits footer sr (fo, len b) rs selected) (record_found footer sr fo rs selected i).
Proof.
  unfold source_read_selected. apply exactly_lift.
  { intros r f ((Hr & _) & _) _. unfold to_range. rewrite checked_add_fits by lia. cbn [ok_or]. rewrite !(proj2 (N.ltb_ge _ _)) by lia. by eexists. }
  intros range Hrange. assert (sl_record_offset selected + sl_record_len selected <= len b /\ range = (sl_record_offset selected, sl_record_offset selected + sl_record_len selected)) as [Hr ->].
  { unfold to_range in Hrange. step_all Hrange. injection Hrange as <-. option_facts. bool_facts. done. }
  apply exactly_check; [by intros r f (_ & Hc & _) _|]. intros Hc. eapply exactly_known; [by apply exactly_selected_object| |].
  { intros r f (Ha & _ & _ & ->) _. done. }
  intros Ha. pose proof Ha as [_ Hv]. apply validate_selected_object_Ok in Hv as (Hl & _). rewrite slice_len in Hl by lia.
  unfold checked_sub. rewrite (proj2 (N.leb_le _ _)) by lia. cbn [ok_or]. apply exactly_lift; [intros _ _ _ _; by eexists|]. intros pl [= <-].
  rewrite checked_add_fits by lia. cbn [ok_or]. apply exactly_lift; [intros _ _ _ _; by eexists|]. intros po [= <-].
  apply exactly_stats, exactly_ret. split_and!; done.
Qed.

Definition walk_found (fuel : nat) (object_id : N) (footer : SourceFooter) (sr : N * N) (fo : N) (e : ExpectedPage) (rs : list (N * N)) i
    (r : option Exp0002SourceLookup) f : Prop :=
  exists m, lookup_pages fuel b object_id mlimits (sf_sequence footer) fo sr e rs (ss_pages_read i) (ss_bytes_hashed i) = Ok m /\
    r = reported f <$> m /\ f = i ⊕ (pages_cost (path_pages fuel b object_id (sf_sequence footer) e) ⊕ found_cost m).

(** What is left of a walk after a page with the header [h]. *)
Definition rest_found (fuel : nat) (object_id : N) (footer : SourceFooter) (sr : N * N) (fo : N) (e : ExpectedPage) (h : LookupPageHeader) (rs : list (N * N)) i
    (r : option Exp0002SourceLookup) f : Prop :=
  let page := slice b (xp_offset e) (xp_offset e + PAGE_SIZE) in
  let ends (m : option AuthenticatedObjectLookup) := r = reported f <$> m /\ f = i ⊕ found_cost m in
  if (object_id <? lh_minimum h) || (lh_maximum h <? object_id) then ends None
  else if lh_kind h =? 1 then
    match select_leaf page h object_id with
    | Ok None => ends None
    | Ok (Some selected) => exists found, ends (Some found) /\
        read_selected b mlimits (sf_sequence footer) fo sr rs (ss_pages_read i) (ss_bytes_hashed i) selected = Ok found
    | Err _ => False
    end
  else if lh_kind h =? 2 then
    match select_internal page h object_id with
    | Ok None => ends None
    | Ok (Some child) => walk_found fuel object_id footer sr fo child rs i r f
    | Err _ => False
    end
  else False.

Lemma rest_found_iff fuel object_id footer sr fo e h rs j r f :
  let page := slice b (xp_offset e) (xp_offset e + PAGE_SIZE) in
  let outside := (object_id <? lh_minimum h) || (lh_maximum h <? object_id) in
  (exists m, (if outside then Ok None
    else if lh_kind h =? 1 then
      let* selected := select_leaf page h object_id in
      match selected with
      | None => Ok None
      | Some selected =>
          let* found := read_selected b mlimits (sf_sequence footer) fo sr rs (ss_pages_read j) (ss_bytes_hashed j) selected in
          Ok (Some found)
      end
    else if lh_kind h =? 2 then
      let* child := select_internal page h object_id in
      match child with
      | None => Ok None
      | Some child => lookup_pages fuel b object_id mlimits (sf_sequence footer) fo sr child rs (ss_pages_read j) (ss_bytes_hashed j)
      end
    else Err InvalidPageKind) = Ok m /\ r = reported f <$> m /\
    f = j ⊕ (pages_cost (if outside then 0 else if lh_kind h =? 1 then 0
             else match select_internal page h object_id with Ok (Some child) => path_pages fuel b object_id (sf_sequence footer) child | _ => 0 end)
             ⊕ found_cost m)) <->
  rest_found fuel object_id footer sr fo e h rs j r f.
Proof.
  cbv zeta. assert (Hz : forall m, pages_cost 0 ⊕ found_cost m = found_cost m) by (intros m; apply stats_zero_add). unfold rest_found. destruct (_ || _).
  { setoid_rewrite Hz. naive_solver. }
  destruct (lh_kind h =? 1).
  { setoid_rewrite Hz. destruct (select_leaf _ _ _) as [[selected|]|]; [|naive_solver|naive_solver].
    destruct (read_selected _ _ _ _ _ _ _ _ _) as [found|]; naive_solver. }
  destruct (lh_kind h =? 2); [|naive_solver]. destruct (select_internal _ _ _) as [[child|]|]; [done| |naive_solver].
  setoid_rewrite Hz. naive_solver.
Qed.

Lemma rest_found_le fuel object_id footer sr fo e h rs j r f : rest_found fuel object_id footer sr fo e h rs j r f -> j ⊑ f.
Proof. intros (m & _ & _ & ->)%rest_found_iff. apply stats_le_add. Qed.

Lemma walk_found_S fuel object_id footer sr fo e rs i r f : fits f ->
  walk_found (Datatypes.S fuel) object_id footer sr fo e rs i r f <->
  exists h, page_found (sf_sequence footer) e rs i (slice b (xp_offset e) (xp_offset e + PAGE_SIZE), h, rs ++ [(xp_offset e, xp_offset e + PAGE_SIZE)]) (i ⊕ page_cost) /\
    i ⊕ page_cost ⊑ f /\ rest_found fuel object_id footer sr fo e h (rs ++ [(xp_offset e, xp_offset e + PAGE_SIZE)]) (i ⊕ page_cost) r f.
Proof.
  intros Hf. unfold walk_found at 1. cbn [lookup_pages path_pages].
  assert (Hn : ss_pages_read (i ⊕ page_cost) = ss_pages_read i + 1) by (cbn; lia).
  assert (Hh : ss_bytes_hashed (i ⊕ page_cost) = ss_bytes_hashed i + PAGE_SIZE) by (cbn; lia).
  split.
  - intros (m & Hm & Hr & Hcost). destruct (checked_add _ 1) as [n|] eqn:Hadd; [|done]. apply checked_add_Some in Hadd as [-> Hu]. cbn [ok_or] in Hm.
    destruct (lookup_page _ _ _ _ _ _ _) as [[[[page h] rs'] hashed]|] eqn:Hpage; [|done].
    apply lookup_page_Ok in Hpage as (h' & Hc & Hok & Hb & Hb' & [= -> -> -> ->]); [|done]. exists h'.
    pose proof Hok as (_ & _ & Hhd & _). rewrite Hhd, pages_cost_step, <- (stats_add_assoc page_cost), (stats_add_assoc i) in Hcost.
    split; [by exists h'|]. split; [rewrite Hcost; apply stats_le_add|]. apply rest_found_iff. exists m. rewrite Hn, Hh. done.
  - intros (h & (h' & Hc & Hok & [= <-] & _) & Hle & (m & Hm & Hr & Hcost)%rest_found_iff). exists m.
    pose proof Hok as (_ & _ & Hhd & _). rewrite Hhd, pages_cost_step, <- (stats_add_assoc page_cost), (stats_add_assoc i). split_and!; [|done|done].
    pose proof (fits_mono _ _ _ Hle Hf) as Hj. unfold Exp0002SourceFacts.fits in Hj. rewrite Hn, Hh in Hj. rewrite checked_add_fits by apply Hj. cbn [ok_or].
    rewrite (proj2 (lookup_page_Ok _ _ _ _ _ _ _ _ Hmax)) by (exists h; split_and!; [done|done|apply Hj|apply Hj|done]).
    rewrite <- Hm, Hn, Hh. done.
Qed.

Lemma exactly_lookup_pages fuel : forall object_id footer snapshot sr fo e rs i, sn_sequence snapshot = sf_sequence footer ->
  exactly i (source_lookup_pages (len b) limits fuel object_id footer snapshot sr (fo, len b) e rs) (walk_found fuel object_id footer sr fo e rs i).
Proof.
  induction fuel as [|fuel IH]; intros object_id footer snapshot sr fo e rs i Hsq; cbn [source_lookup_pages].
  { apply exactly_fail. by intros r f (m & Hm & _). }
  eapply exactly_weaken; [|intros r f Hf; symmetry; by apply walk_found_S]. rewrite Hsq.
  eapply exactly_bind; [by apply exactly_lookup_page| |].
  { intros r f (h & Hp & Hle & _) _. eexists _, _. split; [exact Hp|done]. }
  intros [[page h] rs'] j Hp. pose proof Hp as (h' & Hc & Hok & [= -> <- ->] & ->).
  eapply exactly_weaken with (spec := rest_found fuel object_id footer sr fo e h (rs ++ [(xp_offset e, xp_offset e + PAGE_SIZE)]) (i ⊕ page_cost)).
  2: { intros r f Hf. split.
       - intros Hr. exists h. split_and!; [exact Hp|by eapply rest_found_le|exact Hr].
       - intros (h' & (h'' & _ & Hok' & [= <-] & _) & _ & Hr). destruct Hok as (_ & _ & Hh & _), Hok' as (_ & _ & Hh' & _).
         assert (h' = h) as -> by congruence. exact Hr. }
  unfold rest_found. destruct (_ || _); [apply exactly_ret; by rewrite stats_add_zero|]. destruct (lh_kind h =? 1).
  { apply exactly_lift; [intros r f; destruct (select_leaf _ _ _); [by eexists|done]|]. intros [selected|] ->; [|apply exactly_ret; by rewrite stats_add_zero].
    eapply exactly_bind; [by apply exactly_read_selected| |].
    - intros r f (found & (_ & Hcost) & (Hr & Hc' & _ & _ & Hv & ->)%read_selected_Ok) _; [|done]. eexists _, f. split; [|done]. split_and!; done.
    - intros found j ((Hr & Hv) & Hcl & -> & ->). apply exactly_assume. intros Hf. apply exactly_ret.
      exists (selected_lookup selected (sf_sequence footer) (ss_pages_read (i ⊕ page_cost)) (ss_bytes_hashed (i ⊕ page_cost) + sl_record_len selected)).
      split; [done|]. apply read_selected_Ok; [done|]. unfold Exp0002SourceFacts.fits in Hf.
      assert (Hh : ss_bytes_hashed (i ⊕ page_cost ⊕ record_cost (sl_record_len selected)) = ss_bytes_hashed (i ⊕ page_cost) + sl_record_len selected)
        by (cbn; lia).
      rewrite Hh in Hf. split_and!; done || apply Hf. }
  destruct (lh_kind h =? 2); [|by apply exactly_fail].
  apply exactly_lift; [intros r f; destruct (select_internal _ _ _); [by eexists|done]|]. intros [child|] ->; [|apply exactly_ret; by rewrite stats_add_zero].
  by apply IH.
Qed.

(** ** The parent *)

Definition link_cost (previous : N) : Exp0002SourceStats :=
  if previous =? ABSENT_OFFSET then default_source_stats else reading 1 FOOTER_LEN FOOTER_LEN.

Definition parent_link (fo : N) (footer : SourceFooter) (snapshot : Snapshot) : Prop :=
  lookup_parent_link b fo (sf_commit_start footer) (sf_sequence footer) (sf_previous_footer_offset footer) (sn_parent_snapshot_digest snapshot) = Ok tt.

Lemma exactly_link i fo footer snapshot : fo + FOOTER_LEN = len b -> sf_commit_start footer <= fo ->
  exactly i (source_parent_link (len b) limits fo footer snapshot) (known tt (i ⊕ link_cost (sf_previous_footer_offset footer)) (parent_link fo footer snapshot)).
Proof.
  intros Hfo Hcs. unfold source_parent_link, parent_link, lookup_parent_link, link_cost. assert (HFL : FOOTER_LEN = 160) by done. destruct (_ =? ABSENT_OFFSET).
  { rewrite stats_add_zero. destruct (_ && _ && _); [by apply exactly_ret|]. by apply exactly_fail; intros a f (_ & _ & ?). }
  unfold to_u64. rewrite try_u64_fits by lia. cbn [ok_or].
  apply exactly_check; [intros a f (_ & _ & Hp) _; by destruct (_ <? fo)|]. intros Hlt. rewrite Hlt. bool_facts.
  rewrite checked_add_fits by lia. cbn [ok_or]. apply exactly_lift; [by eexists|]. intros pe [= <-].
  apply exactly_check; [intros a f (_ & _ & Hp) _; by destruct (_ =? _)|]. intros Hst. rewrite Hst. bool_facts.
  rewrite (proj2 (exp2_range_Ok _ _ _ (sf_previous_footer_offset footer) (sf_previous_footer_offset footer + FOOTER_LEN))) by (split_and!; done || lia).
  set (previous := slice b (sf_previous_footer_offset footer) (sf_previous_footer_offset footer + FOOTER_LEN)).
  assert (Hlen : len previous = FOOTER_LEN) by (unfold previous; rewrite slice_len; lia).
  eapply exactly_known; [by apply exactly_read_array| |].
  { intros a f (_ & -> & _) _. split; [lia|done]. }
  intros _. fold previous. apply exactly_lift.
  { intros a f (_ & _ & Hp) _. apply source_footer_exists; [done|]. by destruct (validate_footer_structure previous) as [[]|]. }
  intros sf Hsf. apply source_footer_Ok in Hsf as (Hs & _ & _ & _ & _ & Hseq & _ & Hdig & _); [|done]. rewrite Hs, Hseq, Hdig.
  apply exactly_check.
  { intros a f (_ & _ & Hp) _. step_all Hp. done. }
  intros Hd. rewrite Hd. apply exactly_lift.
  { intros a f (_ & _ & Hp) _. step_all Hp. by eexists. }
  intros next ->. apply exactly_check; [intros a f (_ & _ & Hp) _; by destruct (next =? _)|]. intros ->. by apply exactly_ret.
Qed.


(** ** The lookup *)

(** What a lookup that walks [m] from the active commit costs. *)
Definition commit_cost (footer : SourceFooter) : Exp0002SourceStats :=
  reading 1 64 64 ⊕ reading 1 FOOTER_LEN FOOTER_LEN ⊕
  in_blocks (sf_commit_len footer) (so_hash_block_bytes limits) ⊕ hashing (sf_commit_len footer) ⊕
  in_blocks (sf_snapshot_len footer) (so_max_read_request_bytes limits) ⊕ hashing (sf_snapshot_len footer) ⊕
  link_cost (sf_previous_footer_offset footer).

Definition lookup_cost (object_id : N) (footer : SourceFooter) (snapshot : Snapshot) (m : option AuthenticatedObjectLookup) : Exp0002SourceStats :=
  commit_cost footer ⊕
  (pages_cost (path_pages (Datatypes.S (N.to_nat (sn_directory_root_level snapshot))) b object_id (sf_sequence footer) (lookup_root snapshot)) ⊕ found_cost m).

Definition body_found (object_id : N) (r : option Exp0002SourceLookup) f : Prop :=
  exists footer snapshot, lookup_commit b vlimits footer snapshot /\ commit_cost footer ⊑ f /\
    walk_found (Datatypes.S (N.to_nat (sn_directory_root_level snapshot))) object_id footer
      (sf_snapshot_offset footer, sf_snapshot_offset footer + sf_snapshot_len footer) (len b - FOOTER_LEN) (lookup_root snapshot) [] (commit_cost footer) r f.

Lemma exactly_lookup_body object_id : 64 + FOOTER_LEN <= len b <= max_file_bytes vlimits ->
  exactly default_source_stats (source_lookup_body (len b) limits object_id) (body_found object_id).
Proof.
  intros Hlen. unfold source_lookup_body. assert (HFL : FOOTER_LEN = 160) by done.
  eapply exactly_known; [by apply exactly_read_array| |].
  { intros r f (footer & snapshot & _ & Hle & _) _. split; [lia|]. etransitivity; [|exact Hle]. unfold commit_cost. rewrite stats_zero_add, <- !stats_add_assoc. apply stats_le_add. }
  intros _. rewrite stats_zero_add. change (0 + 64) with 64. apply exactly_lift.
  { intros r f (footer & snapshot & Hc & _) _. pose proof (lc_header _ _ _ _ Hc) as Hh. rewrite <- file_header_parse_prefix in Hh by lia.
    destruct (file_header_parse _); [by eexists|done]. }
  intros h Hh. assert (Hhead : is_ok (file_header_parse b) = true) by (rewrite <- file_header_parse_prefix by lia; by rewrite Hh).
  unfold checked_sub. rewrite (proj2 (N.leb_le FOOTER_LEN (len b))) by lia. cbn [ok_or]. apply exactly_lift; [by eexists|]. intros fo [= <-].
  eapply exactly_known; [by apply exactly_read_array| |].
  { intros r f (footer & snapshot & _ & Hle & _) _. split; [lia|]. etransitivity; [|exact Hle]. unfold commit_cost. rewrite <- !stats_add_assoc, stats_add_assoc. apply stats_le_add. }
  intros _. replace (len b - FOOTER_LEN + FOOTER_LEN) with (len b) by lia. apply exactly_lift.
  { intros r f (footer & snapshot & Hc & _) _. eexists. apply Hc. }
  intros footer Hfooter.
  assert (Hspec : forall r f, body_found object_id r f -> exists snapshot, lookup_commit b vlimits footer snapshot /\ commit_cost footer ⊑ f).
  { intros r f (footer' & snapshot & Hc & Hle & _). assert (footer' = footer) as -> by (pose proof (lc_footer _ _ _ _ Hc); congruence). by exists snapshot. }
  apply exactly_lift.
  { intros r f (sn & Hc & _)%Hspec _. pose proof (lc_commit _ _ _ _ Hc). rewrite checked_add_fits by lia. by eexists. }
  intros ce Hce. option_facts. apply exactly_check; [intros r f (sn & Hc & _)%Hspec _; rewrite (lc_commit _ _ _ _ Hc); apply N.eqb_refl|]. intros Hcommit%N.eqb_eq.
  apply exactly_check; [intros r f (sn & Hc & _)%Hspec _; pose proof (lc_commit_len _ _ _ _ Hc); by apply negb_true_iff, N.ltb_ge|].
  intros Hcl%negb_true_iff%N.ltb_ge. eapply exactly_known; [apply exactly_hash_range; done || lia| |].
  { intros r f (sn & _ & Hle)%Hspec _. split; [done|]. etransitivity; [|exact Hle]. unfold commit_cost. rewrite <- (stats_add_assoc _ (in_blocks (sf_snapshot_len footer) _)), <- (stats_add_assoc _ _ (link_cost _)). apply stats_le_add. }
  intros _. apply exactly_check; [intros r f (sn & Hc & _)%Hspec _; by apply bool_decide_eq_true_2, Hc|]. intros Hcd%bool_decide_eq_true.
  apply exactly_check; [intros r f (sn & Hc & _)%Hspec _|].
  { pose proof (snapshot_parse_bound _ _ _ (lc_snapshot_parse _ _ _ _ Hc)) as Hb. pose proof (lc_snapshot _ _ _ _ Hc) as [Hs1 Hs2].
    rewrite slice_len in Hb by lia. apply negb_true_iff, N.ltb_ge. lia. }
  intros _. apply exactly_lift.
  { intros r f (sn & Hc & _)%Hspec _. pose proof (lc_snapshot _ _ _ _ Hc). rewrite checked_add_fits by lia. by eexists. }
  intros se Hse. option_facts. apply exactly_check.
  { intros r f (sn & Hc & _)%Hspec _. pose proof (lc_snapshot _ _ _ _ Hc) as [Hs1 Hs2]. by rewrite !(proj2 (N.ltb_ge _ _)). }
  intros Hs. bool_facts. eapply exactly_known; [apply exactly_read_vec; done || lia| |].
  { intros r f (sn & _ & Hle)%Hspec _. split; [done|]. etransitivity; [|exact Hle]. unfold commit_cost. rewrite <- (stats_add_assoc _ _ (link_cost _)). apply stats_le_add. }
  intros _. eapply exactly_known; [by apply exactly_add_hashed| |].
  { intros r f (sn & _ & Hle)%Hspec _. split; [done|]. etransitivity; [|exact Hle]. unfold commit_cost. apply stats_le_add. }
  intros _. apply exactly_check; [intros r f (sn & Hc & _)%Hspec _; by apply bool_decide_eq_true_2, Hc|]. intros Hsd%bool_decide_eq_true.
  apply exactly_lift; [intros r f (sn & Hc & _)%Hspec _; eexists; apply Hc|]. intros snapshot Hsp.
  assert (Hspec2 : forall r f, body_found object_id r f -> lookup_commit b vlimits footer snapshot /\ commit_cost footer ⊑ f).
  { intros r f (sn & Hc & Hle)%Hspec. assert (sn = snapshot) as -> by (pose proof (lc_snapshot_parse _ _ _ _ Hc); congruence). done. }
  apply exactly_check; [intros r f [Hc _]%Hspec2 _; by rewrite (lc_sequence _ _ _ _ Hc), (lc_previous _ _ _ _ Hc), !N.eqb_refl|].
  intros [Hsq%N.eqb_eq Hpr%N.eqb_eq]%andb_true_iff. eapply exactly_known; [apply exactly_link; lia| |].
  { intros r f [Hc Hle]%Hspec2 _. split; [exact (lc_parent _ _ _ _ Hc)|exact Hle]. }
  intros Hlink. fold (commit_cost footer). unfold to_range. rewrite !checked_add_fits by lia. cbn [ok_or]. rewrite !(proj2 (N.ltb_ge _ _)) by lia. cbn [orb negb].
  apply exactly_lift; [by eexists|]. intros sr [= <-]. apply exactly_lift; [by eexists|]. intros fr [= <-].
  replace (len b - FOOTER_LEN + FOOTER_LEN) with (len b) by lia. fold (lookup_root snapshot). cbn [xp_level].
  eapply exactly_weaken; [by apply exactly_lookup_pages|]. intros r f _. split.
  - intros Hw. exists footer, snapshot. pose proof Hw as (m & _ & _ & ->). split_and!; [|apply stats_le_add|exact Hw]. by split.
  - intros (footer' & sn & Hc & _ & Hw). assert (footer' = footer) as -> by (pose proof (lc_footer _ _ _ _ Hc); congruence).
    assert (sn = snapshot) as -> by (pose proof (lc_snapshot_parse _ _ _ _ Hc); congruence). exact Hw.
Qed.

Lemma commit_cost_counts footer : ss_pages_read (commit_cost footer) = 0 /\
  ss_bytes_hashed (commit_cost footer) = sf_commit_len footer + sf_snapshot_len footer.
Proof. unfold commit_cost, link_cost. destruct (_ =? ABSENT_OFFSET); cbn; lia. Qed.

Lemma body_found_iff object_id r f : object_id <> 0 -> fits f ->
  body_found object_id r f <->
  exists m footer snapshot, lookup_authenticated b object_id mlimits = Ok m /\ lookup_commit b vlimits footer snapshot /\
    f = lookup_cost object_id footer snapshot m /\ r = reported f <$> m.
Proof.
  intros Hid Hf. split.
  - intros (footer & snapshot & Hc & Hle & m & Hm & -> & Hcost). destruct (commit_cost_counts footer) as [Hn Hh]. rewrite Hn, Hh in Hm.
    pose proof (fits_mono _ _ _ Hle Hf) as Hj. unfold Exp0002SourceFacts.fits in Hj. rewrite Hh in Hj.
    exists m, footer, snapshot. split_and!; [|done|exact Hcost|done]. apply lookup_authenticated_Ok; [done|]. split; [done|].
    exists footer, snapshot. split_and!; [done|apply Hj|apply Hj|exact Hm].
  - intros (m & footer & snapshot & Hm & Hc & Hcost & ->). apply lookup_authenticated_Ok in Hm as (_ & footer' & snapshot' & Hc' & _ & _ & Hm); [|done].
    assert (footer' = footer) as -> by (pose proof (lc_footer _ _ _ _ Hc'); pose proof (lc_footer _ _ _ _ Hc); congruence).
    assert (snapshot' = snapshot) as -> by (pose proof (lc_snapshot_parse _ _ _ _ Hc'); pose proof (lc_snapshot_parse _ _ _ _ Hc); cbn in *; congruence).
    exists footer, snapshot. split_and!; [done|rewrite Hcost; apply stats_le_add|]. destruct (commit_cost_counts footer) as [Hn Hh].
    exists m. rewrite Hn, Hh. done.
Qed.
End Lookup.

(** The limits of the lookup in memory. *)
Definition memory_limits (limits : Exp0002SourceLimits) : AuthenticatedLookupLimits :=
  mkLookupLimits (so_validation limits) (so_max_page_reads limits).

(** What [lookup_authenticated_at] gives for a source that presents [b]: what
    the lookup in memory gives, when its cost fits the limits. *)
Definition lookup_given `{Sha256} (b : bytes) (limits : Exp0002SourceLimits) (object_id : N) (r : option Exp0002SourceLookup) : Prop :=
  configured limits /\ exists m footer snapshot, lookup_authenticated b object_id (memory_limits limits) = Ok m /\
    lookup_commit b (so_validation limits) footer snapshot /\ fits limits (lookup_cost b limits object_id footer snapshot m) /\
    r = reported (lookup_cost b limits object_id footer snapshot m) <$> m.

Lemma lookup_authenticated_at_exact `{Sha256} {S} `{ReadAt S} (presents : S -> bytes -> Prop) (reliable : Prop) `{!PresentsSource S presents reliable}
    (b : bytes) (limits : Exp0002SourceLimits) object_id s : presents s b -> len b <= U64_MAX ->
  presents (lookup_authenticated_at s object_id limits).2 b /\
  match (lookup_authenticated_at s object_id limits).1 with
  | Ok r => lookup_given b limits object_id r
  | Err (SourceIo _) => ~ reliable
  | Err (SourceFormat _) => forall r, ~ lookup_given b limits object_id r
  end.
Proof.
  intros Hs Hmax. unfold lookup_authenticated_at. destruct (N.eqb_spec object_id 0) as [->|Hid].
  { split; [done|]. intros r (_ & m & footer & snapshot & [Hno _]%lookup_authenticated_Ok & _); done. }
  destruct (validate_limit_configuration limits) as [u|e] eqn:Ec.
  2: { split; [done|]. intros v [Hc _]. apply (validate_limit_configuration_Ok limits tt) in Hc. congruence. }
  apply validate_limit_configuration_Ok in Ec as Hc. destruct (presents_len s b Hs Hmax) as [Hs' Hlen]. destruct (source_len s) as [[n|e] s']; cbn [fst snd] in *; [|done].
  subst n. destruct (N.ltb_spec (max_file_bytes (so_validation limits)) (len b)) as [Hlt|Hfile].
  { split; [done|]. intros r (_ & m & footer & snapshot & _ & Hlc & _). pose proof (lc_file _ _ _ _ Hlc). lia. }
  destruct (N.ltb_spec (len b) (64 + FOOTER_LEN)) as [Hlt|Hl].
  { split; [done|]. intros r (_ & m & footer & snapshot & _ & Hlc & _). pose proof (lc_file _ _ _ _ Hlc). lia. }
  pose proof Hc as (Hc1 & Hc2 & Hc3). assert (Hf0 : fits limits default_source_stats) by (unfold fits; cbn; lia).
  destruct (exactly_lookup_body (presents := presents) (reliable := reliable) b limits Hmax Hc1 Hc2 Hc3 object_id (conj Hl Hfile) s' Hs' Hf0) as [Hp Hr].
  destruct (source_lookup_body (len b) limits object_id (mkReader s' default_source_stats)) as [[r|e] rd]; cbn [fst snd] in *.
  - split; [done|]. destruct Hr as [Hb Hf]. apply body_found_iff in Hb as (m & footer & snapshot & Hm & Hlc & E & ->); [|done..]. rewrite E in Hf |- *.
    split; [done|]. by exists m, footer, snapshot.
  - split; [done|]. destruct e as [e|c]; [|done]. intros r (_ & m & footer & snapshot & Hm & Hlc & Hf & ->).
    eapply Hr; [|exact Hf]. apply body_found_iff; [done..|]. by exists m, footer, snapshot.
Qed.

Lemma lookup_given_unique `{Sha256} b limits object_id r r' : lookup_given b limits object_id r -> lookup_given b limits object_id r' -> r = r'.
Proof.
  intros (_ & m & footer & snapshot & Hm & Hc & _ & ->) (_ & m' & footer' & snapshot' & Hm' & Hc' & _ & ->).
  assert (m' = m) as -> by congruence. assert (footer' = footer) as -> by (pose proof (lc_footer _ _ _ _ Hc'); pose proof (lc_footer _ _ _ _ Hc); congruence).
  assert (snapshot' = snapshot) as -> by (pose proof (lc_snapshot_parse _ _ _ _ Hc'); pose proof (lc_snapshot_parse _ _ _ _ Hc); congruence). done.
Qed.
