(* ===== verification/Exp0002SourceRecovery.v ===== *)
(** Recovery of EXP-0002 files through a source ([exp0002_source_recovery.rs]):
    the scan for prefixes that validate, over the prefixes of a source. *)

From Stdlib Require Import Strings.Byte Strings.String NArith ZArith Lia.
From stdpp Require Import base list gmap strings sorting.
From S2P Require Import Prelude Order Digest Machine Recovery Exp0002 Exp0002File Exp0002Source Exp0002SourceStrict.

Local Open Scope N_scope.

Record Exp0002SourceRecoveryLimits : Type := mkSourceRecoveryLimits {
  srl_candidate : Exp0002SourceLimits;
  srl_max_scan_bytes : N;
  srl_max_scan_read_operations : N;
  srl_max_magic_matches : N;
  srl_max_candidate_validations : N;
  srl_max_results : N;
  srl_max_total_candidate_bytes_read : N;
}.

Definition default_source_recovery_limits : Exp0002SourceRecoveryLimits :=
  mkSourceRecoveryLimits default_source_limits (16 * 1024 * 1024) 4096 4096 1024 64 (64 * 1024 * 1024 * 1024).

Record RecoveredExp0002SourcePrefix : Type := mkSourcePrefix {
  rp_prefix_len : N;
  rp_footer_offset : N;
  rp_sequence : N;
  rp_previous_footer_offset : N;
  rp_parent_snapshot_digest : bytes;
  rp_snapshot_digest : bytes;
  rp_commit_digest : bytes;
  rp_roots : list N;
  rp_validation_stats : Exp0002SourceStats;
}.

Record Exp0002SourceRecoveryReport : Type := mkSourceRecoveryReport {
  rv_file_len : N;
  rv_scan_start : N;
  rv_scan_bytes_read : N;
  rv_scan_read_operations : N;
  rv_magic_matches : N;
  rv_candidates_validated : N;
  rv_total_candidate_bytes_read : N;
  rv_results : list RecoveredExp0002SourcePrefix;
}.

(** ** The prefixes of a source *)

(** [CountingPrefixSource]: the first bytes of a source, with what was asked of
    it. The source it borrows is given back with [cp_source]. *)
Record CountingPrefixSource (S : Type) : Type := mkCountingPrefix {
  cp_source : S;
  cp_len : N;
  cp_bytes_read : N;
}.
Arguments mkCountingPrefix {S}.
Arguments cp_source {S}.
Arguments cp_len {S}.
Arguments cp_bytes_read {S}.

Definition counting_read_exact_at {S} `{ReadAt S} (p : CountingPrefixSource S) (offset n : N) : IO bytes * CountingPrefixSource S :=
  match try_u64 n with
  | None => (Err InvalidInput, p)
  | Some length =>
      match checked_add offset length with
      | None => (Err InvalidInput, p)
      | Some end_ =>
          if cp_len p <? end_ then (Err UnexpectedEof, p)
          else match checked_add (cp_bytes_read p) length with
          | None => (Err InvalidData, p)
          | Some bytes_read =>
              let '(r, s) := read_exact_at (cp_source p) offset n in (r, mkCountingPrefix s (cp_len p) bytes_read)
          end
      end
  end.

#[export] Instance counting_read_at {S} `{ReadAt S} : ReadAt (CountingPrefixSource S) := {
  source_len p := (Ok (cp_len p), p);
  read_exact_at := counting_read_exact_at;
}.

(** The validation of a prefix, its result and the bytes it asked for. *)
Definition validate_prefix `{Sha256} {S} `{ReadAt S} (prefix_len : N) (limits : Exp0002SourceLimits)
    : ST S (result Exp0002SourceError VerifiedExp0002Source * N) := fun s =>
  let '(validation, prefix) := validate_strict_at (mkCountingPrefix s prefix_len 0) limits in
  (Ok (validation, cp_bytes_read prefix), cp_source prefix).

Definition recovered_prefix (prefix_len : N) (verified : VerifiedExp0002Source) : RecoveredExp0002SourcePrefix :=
  mkSourcePrefix prefix_len (vs_footer_offset verified) (ft_sequence (vs_footer verified)) (ft_previous_footer_offset (vs_footer verified))
    (sn_parent_snapshot_digest (vs_snapshot verified)) (ft_snapshot_digest (vs_footer verified)) (ft_commit_digest (vs_footer verified))
    (sn_roots (vs_snapshot verified)) (vs_stats verified).

(** ** The scan *)

(** [source.len()] and [source.read_exact_at()], with the error of a context. *)
Definition st_source_len {S} `{ReadAt S} (context : string) : ST S N := fun s =>
  let '(r, s) := source_len s in (match r with Ok n => Ok n | Err _ => Err (SourceIo context) end, s).
Definition st_source_read {S} `{ReadAt S} (offset n : N) (context : string) : ST S bytes := fun s =>
  let '(r, s) := read_exact_at s offset n in (match r with Ok b => Ok b | Err _ => Err (SourceIo context) end, s).

(** [validate_configuration] *)
Definition validate_recovery_configuration (limits : Exp0002SourceRecoveryLimits) : X unit :=
  let candidate := srl_candidate limits in
  check negb ((srl_max_scan_bytes limits =? 0) || (srl_max_scan_read_operations limits =? 0) || (srl_max_magic_matches limits =? 0)
              || (srl_max_candidate_validations limits =? 0) || (srl_max_results limits =? 0)
              || (so_max_read_request_bytes candidate <? PAGE_SIZE) || (so_hash_block_bytes candidate =? 0)
              || (so_max_read_request_bytes candidate <? so_hash_block_bytes candidate))
    else ResourceLimit "recovery configuration" in
  Ok tt.

Section Scan.
Context `{Sha256} {S : Type} `{ReadAt S} (limits : Exp0002SourceRecoveryLimits).

(** [while scan_cursor < scan.len()], with the bytes read so far and the count
    of the reads. *)
Fixpoint scan_chunks (fuel : nat) (scan_start scan_len scan_cursor : N) (scan : bytes) (scan_read_operations : N) : ST S (bytes * N) :=
  if scan_cursor <? scan_len then
    match fuel with
    | O => sm_fail ArithmeticOverflow
    | Datatypes.S fuel =>
        let take := N.min (scan_len - scan_cursor) (so_max_read_request_bytes (srl_candidate limits)) in
        let! cursor := sm_lift (ok_or (try_u64 scan_cursor) ArithmeticOverflow) in
        let! read_offset := sm_lift (ok_or (checked_add scan_start cursor) ArithmeticOverflow) in
        let! chunk := st_source_read read_offset take "recovery scan" in
        let! scan_read_operations := sm_lift (ok_or (checked_add scan_read_operations 1) ArithmeticOverflow) in
        check! negb (srl_max_scan_read_operations limits <? scan_read_operations) else ResourceLimit "recovery scan reads" in
        scan_chunks fuel scan_start scan_len (scan_cursor + take) (scan ++ chunk) scan_read_operations
    end
  else sm_ret (scan, scan_read_operations).

(** One round of the first loop: the matches counted and their positions. *)
Definition magic_position (max_magic_matches : N) (scan : bytes) (found : N * list N) (index : N) : X (N * list N) :=
  let '(magic_matches, positions) := found in
  if bool_decide (slice scan index (index + len FOOTER_MAGIC) = FOOTER_MAGIC) then
    let* magic_matches := ok_or (checked_add magic_matches 1) ArithmeticOverflow in
    check negb (max_magic_matches <? magic_matches) else ResourceLimit "recovery magic matches" in
    Ok (magic_matches, positions ++ [index])
  else Ok (magic_matches, positions).

(** [for index in 0..=scan.len() - FOOTER_MAGIC.len()] *)
Definition magic_positions (max_magic_matches : N) (scan : bytes) : X (N * list N) :=
  fold_result (magic_position max_magic_matches scan) (reverse (descending 0 (len scan - len FOOTER_MAGIC))) (0, []).

(** What the second loop has counted and found so far. *)
Record CandidateState : Type := mkCandidates {
  cs_candidates_validated : N;
  cs_total_candidate_bytes_read : N;
  cs_results : list RecoveredExp0002SourcePrefix;
}.

(** One round of the second loop. *)
Definition source_candidate (file_len scan_start : N) (st : CandidateState) (index : N) : ST S CandidateState :=
  check! negb (srl_max_candidate_validations limits <=? cs_candidates_validated st) else ResourceLimit "recovery candidates" in
  let! relative := sm_lift (ok_or (try_u64 index) ArithmeticOverflow) in
  let! footer_offset := sm_lift (ok_or (checked_add scan_start relative) ArithmeticOverflow) in
  let! prefix_len := sm_lift (ok_or (checked_add footer_offset FOOTER_LEN) ArithmeticOverflow) in
  if file_len <? prefix_len then sm_ret st
  else
    let candidates_validated := cs_candidates_validated st + 1 in
    let! (validation, candidate_bytes_read) := validate_prefix prefix_len (srl_candidate limits) in
    let! total := sm_lift (ok_or (checked_add (cs_total_candidate_bytes_read st) candidate_bytes_read) ArithmeticOverflow) in
    check! negb (srl_max_total_candidate_bytes_read limits <? total) else ResourceLimit "recovery validation bytes" in
    match validation with
    | Ok verified =>
        check! negb (srl_max_results limits <=? len (cs_results st)) else ResourceLimit "recovery results" in
        sm_ret (mkCandidates candidates_validated total (cs_results st ++ [recovered_prefix prefix_len verified]))
    | Err _ => sm_ret (mkCandidates candidates_validated total (cs_results st))
    end.

(** [for index in positions.into_iter().rev()] *)
Fixpoint source_candidates (file_len scan_start : N) (positions : list N) (st : CandidateState) : ST S CandidateState :=
  match positions with
  | [] => sm_ret st
  | index :: positions =>
      let! st := source_candidate file_len scan_start st index in
      source_candidates file_len scan_start positions st
  end.

(** [scan_valid_prefixes_at]; a read of the scan has [max_read_request_bytes]
    bytes but for the last, which bounds their number. *)
Definition scan_valid_prefixes_at : ST S Exp0002SourceRecoveryReport :=
  let! _ := sm_lift (validate_recovery_configuration limits) in
  let! file_len := st_source_len "recovery source length" in
  let scan_len := N.min file_len (srl_max_scan_bytes limits) in
  let! scan_start := sm_lift (ok_or (checked_sub file_len scan_len) ArithmeticOverflow) in
  let! scan_len := sm_lift (to_usize scan_len) in
  let! (scan, scan_read_operations) :=
    scan_chunks (Datatypes.S (N.to_nat (scan_len / so_max_read_request_bytes (srl_candidate limits)))) scan_start scan_len 0 [] 0 in
  if len scan <? len FOOTER_MAGIC then
    sm_ret (mkSourceRecoveryReport file_len scan_start scan_len scan_read_operations 0 0 0 [])
  else
    let! (magic_matches, positions) := sm_lift (magic_positions (srl_max_magic_matches limits) scan) in
    let! st := source_candidates file_len scan_start (reverse positions) (mkCandidates 0 0 []) in
    sm_ret (mkSourceRecoveryReport file_len scan_start scan_len scan_read_operations magic_matches (cs_candidates_validated st)
              (cs_total_candidate_bytes_read st) (cs_results st)).
End Scan.
