(* ===== verification/Exp0002SourceRecoveryFacts.v ===== *)
(** Recovery through a source reports exactly the prefixes that validation
    accepts in its window, and charges every byte it asked for. *)

From Stdlib Require Import Strings.Byte Strings.String NArith ZArith Lia.
From stdpp Require Import base list gmap strings sorting.
From S2P Require Import Prelude Order Digest Machine Source SourceFacts Recovery Exp0002 Exp0002File Exp0002Pages Exp0002Strict Exp0002Recovery.
From S2P Require Import Exp0002Source Exp0002SourceStrict Exp0002SourceFacts Exp0002SourceStrictFacts Exp0002SourceBounds Exp0002SourceRecovery.

Local Open Scope N_scope.

(** ** The validation of a prefix *)

Section Prefix.
Context `{Sha256} (b : bytes) (limits : Exp0002SourceLimits) (Hmax : len b <= U64_MAX).

(** The validation of the first [n] bytes as a file of their own, and the
    bytes it asks for. *)
Definition prefix_run (n : N) : result Exp0002SourceError VerifiedExp0002Source * Logged SliceSource :=
  validate_strict_at (mkLogged (mkSliceSource (slice b 0 n)) []) limits.
Definition prefix_result (n : N) : result Exp0002SourceError VerifiedExp0002Source := (prefix_run n).1.
Definition prefix_cost (n : N) : N := requested (lg_log (prefix_run n).2).

Lemma prefix_len n : n <= len b -> len (slice b 0 n) = n.
Proof. intros Hn. rewrite slice_len; lia. Qed.

Lemma prefix_result_Ok n v : n <= len b -> prefix_result n = Ok v <-> source_accepted (slice b 0 n) limits v.
Proof.
  intros Hn. unfold prefix_result, prefix_run. destruct (validate_reads limits (mkSliceSource (slice b 0 n))) as [-> _].
  apply (validate_strict_at_Ok (fun s b => slice_bytes s = b)); [done|]. rewrite prefix_len; lia.
Qed.

Lemma prefix_result_io n c : n <= len b -> prefix_result n <> Err (SourceIo c).
Proof.
  intros Hn. unfold prefix_result, prefix_run. destruct (validate_reads limits (mkSliceSource (slice b 0 n))) as [-> _]. intros E.
  destruct (validate_strict_at_exact (fun s b => slice_bytes s = b) True (slice b 0 n) limits (mkSliceSource (slice b 0 n)) eq_refl) as [_ Hv].
  { rewrite prefix_len by done. lia. }
  rewrite E in Hv. by apply Hv.
Qed.

Lemma prefix_cost_le n : n <= len b -> prefix_cost n <= so_max_source_bytes_read limits.
Proof.
  intros Hn. unfold prefix_cost, prefix_run. destruct (validate_reads limits (mkSliceSource (slice b 0 n))) as (_ & Hb & _).
  unfold reads_bounded in Hb. cbn [source_len slice_read_at fst slice_bytes] in Hb. rewrite try_u64_fits in Hb by (rewrite prefix_len; lia). apply Hb.
Qed.

(** The cost of a prefix that is accepted is that of its report. *)
Lemma prefix_cost_report n v : prefix_result n = Ok v -> prefix_cost n = ss_bytes_read (vs_stats v).
Proof. intros Hv. destruct (validate_reads limits (mkSliceSource (slice b 0 n))) as (_ & _ & Hc). apply (Hc v Hv). Qed.

(** *** Prefixes of a source *)

Context {S : Type} `{ReadAt S} (presents : S -> bytes -> Prop) `{!StableSource S presents} (n : N) (Hn : n <= len b).

(** The counting prefix and the logged bytes go together. *)
Definition counts_failed (r1 : SourceReader (CountingPrefixSource S)) (r2 : SourceReader (Logged SliceSource)) : Prop :=
  presents (cp_source (rd_source r1)) b /\ cp_len (rd_source r1) = n /\ slice_bytes (lg_inner (rd_source r2)) = slice b 0 n /\
  rd_stats r1 = rd_stats r2 /\ cp_bytes_read (rd_source r1) = requested (lg_log (rd_source r2)).
Definition counts_ok (r1 : SourceReader (CountingPrefixSource S)) (r2 : SourceReader (Logged SliceSource)) : Prop :=
  counts_failed r1 r2 /\ cp_bytes_read (rd_source r1) = ss_bytes_read (rd_stats r1).

Lemma counts_agree : ReadersAgree n limits counts_ok counts_failed.
Proof.
  split.
  - by intros r1 r2 [].
  - by intros r1 r2 [(_ & _ & _ & Hs & _) _].
  - intros k r1 r2 [(Hp & Hl & Hi & Hs & Hc) Ho]. unfold sm_set_stats, counts_ok, counts_failed. cbn. by rewrite Hs in *.
  - intros k r1 r2 [(Hp & Hl & Hi & Hs & Hc) Ho]. unfold sm_set_stats, counts_ok, counts_failed. cbn. by rewrite Hs in *.
  - intros offset length context r1 r2 [(Hp & Hl & Hi & Hs & Hc) Ho]. rewrite !read_exact_charge, <- Hs.
    destruct (charge n limits offset length (rd_stats r1)) as [[[]|e] st] eqn:Ec; [|done].
    apply charge_Ok in Ec as [Hr _ Hw _ (Eb & _ & Lb)]. unfold sm_source_read. cbn [rd_source rd_stats read_exact_at logged_read_at counting_read_at slice_read_at].
    unfold counting_read_exact_at. rewrite try_u64_fits, checked_add_fits by lia. rewrite Hl, (proj2 (N.ltb_ge _ _)) by lia. rewrite checked_add_fits by lia.
    destruct (stable_read _ _ offset length Hp Hmax ltac:(lia)) as [Er Hp']. destruct (read_exact_at (cp_source (rd_source r1)) offset length) as [x t].
    destruct (lg_inner (rd_source r2)) as [c] eqn:El. cbn in Hi. subst c. cbn in Er, Hp'. subst x.
    destruct (stable_read (mkSliceSource (slice b 0 n)) (slice b 0 n) offset length eq_refl) as [Es _]; [rewrite prefix_len by done; lia..|].
    cbn in Es. rewrite Es. cbn. rewrite subslice by lia. rewrite !N.add_0_l. split; [done|]. unfold counts_ok, counts_failed. cbn. rewrite requested_app. cbn. split_and!; try done; lia.
Qed.

(** Validating a prefix of a stable source gives what the bytes of the prefix
    give, and counts what that asks for. *)
Lemma validate_prefix_run s : presents s b ->
  (validate_prefix n limits s).1 = Ok (prefix_result n, prefix_cost n) /\ presents (validate_prefix n limits s).2 b.
Proof.
  intros Hs. unfold validate_prefix, prefix_result, prefix_cost, prefix_run, validate_strict_at.
  destruct (validate_limit_configuration limits); [|done]. cbn [source_len counting_read_at logged_read_at slice_read_at lg_inner lg_log slice_bytes cp_len].
  rewrite try_u64_fits by (rewrite prefix_len; lia). rewrite prefix_len by done. destruct (_ <? n); [done|]. destruct (n <? _); [done|].
  pose proof counts_agree as Hag. assert (Hinit : counts_ok (mkReader (mkCountingPrefix s n 0) default_source_stats)
    (mkReader (mkLogged (mkSliceSource (slice b 0 n)) []) default_source_stats)) by done.
  destruct (lockstep_strict_body n limits _ _ _ _ Hinit) as [E Hf].
  destruct (strict_body n limits (mkReader (mkCountingPrefix s n 0) default_source_stats)) as [res1 r1],
    (strict_body n limits (mkReader (mkLogged (mkSliceSource (slice b 0 n)) []) default_source_stats)) as [res2 r2]. cbn [fst snd] in *. subst res2.
  assert (Hf' : counts_failed r1 r2) by (destruct res1; [apply Hf|exact Hf]). destruct Hf' as (Hp & _ & _ & _ & Hc). cbn [fst snd]. rewrite Hc. by split.
Qed.
End Prefix.

(** ** Runs over a stable source *)

Section Gives.
Context {S : Type} `{ReadAt S} (presents : S -> bytes -> Prop) (b : bytes).

(** Over a source that presents [b], [m] succeeds with a result of [ok] or
    fails with an error of [bad]. *)
Definition gives {A} (m : ST S A) (ok : A -> Prop) (bad : Exp0002Error -> Prop) : Prop := forall s, presents s b ->
  presents (m s).2 b /\ match (m s).1 with Ok a => ok a | Err (SourceFormat e) => bad e | Err (SourceIo _) => False end.

Lemma gives_ret {A} (a : A) (ok : A -> Prop) bad : ok a -> gives (sm_ret a) ok bad.
Proof. intros Ha s Hs. done. Qed.

Lemma gives_fail {A} e (ok : A -> Prop) (bad : _ -> Prop) : bad e -> gives (sm_fail e) ok bad.
Proof. intros He s Hs. done. Qed.

Lemma gives_check {A} (c : bool) e (m : ST S A) (ok : A -> Prop) (bad : _ -> Prop) :
  (c = false -> bad e) -> (c = true -> gives m ok bad) -> gives (if c then m else sm_fail e) ok bad.
Proof. intros He Hm. destruct c; [by apply Hm|]. by apply gives_fail, He. Qed.

Lemma gives_bind {A B} (m : ST S A) (k : A -> ST S B) ok1 ok bad :
  gives m ok1 bad -> (forall a, ok1 a -> gives (k a) ok bad) -> gives (sm_bind m k) ok bad.
Proof.
  intros Hm Hk s Hs. destruct (Hm s Hs) as [Hs' Hr]. unfold sm_bind. destruct (m s) as [[a|e] s']; cbn in *; [by apply Hk|done].
Qed.

Lemma gives_lift {A B} (x : X A) (k : A -> ST S B) ok bad :
  (forall e, x = Err e -> bad e) -> (forall a, x = Ok a -> gives (k a) ok bad) -> gives (sm_bind (sm_lift x) k) ok bad.
Proof. intros He Hk s Hs. unfold sm_bind, sm_lift. destruct x as [a|e]; [by apply Hk|]. cbn. split; [done|]. by apply He. Qed.

(** A checked step that cannot fail. *)
Lemma gives_known {A B} (x : X A) (y : A) (k : A -> ST S B) ok bad : x = Ok y -> gives (k y) ok bad -> gives (sm_bind (sm_lift x) k) ok bad.
Proof. intros -> Hk. apply gives_lift; [done|]. by intros a [= <-]. Qed.

Lemma gives_weaken {A} (m : ST S A) (ok ok' : A -> Prop) (bad bad' : _ -> Prop) :
  gives m ok bad -> (forall a, ok a -> ok' a) -> (forall e, bad e -> bad' e) -> gives m ok' bad'.
Proof. intros Hm Ho Hb s Hs. destruct (Hm s Hs) as [Hs' Hr]. split; [done|]. destruct (m s).1 as [a|[e|c]]; auto. Qed.

Context `{!StableSource S presents} (Hmax : len b <= U64_MAX).

Lemma gives_len context bad : gives (st_source_len context) (eq (len b)) bad.
Proof.
  intros s Hs. destruct (stable_len _ _ Hs Hmax) as [E Hs']. unfold st_source_len. destruct (source_len s) as [r t]. cbn in *. by subst.
Qed.

Lemma gives_read offset n context bad : offset + n <= len b -> gives (st_source_read offset n context) (eq (slice b offset (offset + n))) bad.
Proof.
  intros Hr s Hs. destruct (stable_read _ _ offset n Hs Hmax Hr) as [E Hs']. unfold st_source_read. destruct (read_exact_at s offset n) as [r t].
  cbn in *. by subst.
Qed.

Lemma gives_prefix `{Sha256} n limits bad : n <= len b ->
  gives (validate_prefix n limits) (eq (prefix_result b limits n, prefix_cost b limits n)) bad.
Proof. intros Hn s Hs. destruct (validate_prefix_run b limits Hmax presents n Hn s Hs) as [-> Hs']. done. Qed.
End Gives.

Lemma checked_add_exceeds {E} a c (e e' : E) : ok_or (checked_add a c) e = Err e' -> e' = e /\ U64_MAX < a + c.
Proof. unfold checked_add. destruct (N.leb_spec (a + c) U64_MAX); cbn; [done|]. by intros [= ->]. Qed.

(** ** Windows *)

Lemma len_reverse {A} (l : list A) : len (reverse l) = len l.
Proof. unfold len. by rewrite length_reverse. Qed.

Lemma filter_of_fmap {A B} (f : A -> B) (P : B -> Prop) (Q : A -> Prop) `{forall x, Decision (P x), forall x, Decision (Q x)} (l : list A) :
  (forall x, Q x <-> P (f x)) -> filter P (f <$> l) = f <$> filter Q l.
Proof.
  intros Hpq. induction l as [|x l IH]; [done|]. rewrite fmap_cons, !filter_cons, IH. destruct (decide (P (f x))), (decide (Q x)); naive_solver.
Qed.

Lemma descending_shift lo hi : lo <= hi -> (fun i => lo + i) <$> descending 0 (hi - lo) = descending lo hi.
Proof.
  intros Hle. unfold descending. change (fmap (fun i => lo + i)) with (map (fun i => lo + i)). rewrite map_rev, map_map.
  f_equal. replace (hi - lo + 1 - 0) with (hi + 1 - lo) by lia. done.
Qed.

(** ** The scan *)

Section Scan.
Context `{Sha256} (b : bytes) (limits : Exp0002SourceRecoveryLimits).
Context {S : Type} `{ReadAt S} (presents : S -> bytes -> Prop) `{!StableSource S presents}.
Context (Hroom : len b + FOOTER_LEN <= U64_MAX).

Abbreviation gives := (gives presents b).
Abbreviation candidate := (srl_candidate limits).
Abbreviation request := (so_max_read_request_bytes (srl_candidate limits)).

(** The reads a scan of [n] bytes takes. *)
Definition scan_reads (n : N) : N := (n + (request - 1)) / request.

Lemma scan_reads_in_blocks n : scan_reads n = ss_read_operations (in_blocks n request).
Proof. done. Qed.

Lemma scan_reads_step n : 0 < request -> 0 < n -> scan_reads n = 1 + scan_reads (n - N.min n request).
Proof. intros Hr Hn. rewrite !scan_reads_in_blocks, in_blocks_step by done. done. Qed.

Lemma scan_chunks_gives fuel start length : forall cursor filled operations, 0 < request -> cursor <= length -> start + length <= len b ->
  operations + (length - cursor) <= U64_MAX -> enough fuel (length - cursor) request -> operations <= srl_max_scan_read_operations limits ->
  gives (scan_chunks limits fuel start length cursor filled operations)
    (fun r => r.1 = filled ++ slice b (start + cursor) (start + length) /\ r.2 = operations + scan_reads (length - cursor) /\
      r.2 <= srl_max_scan_read_operations limits)
    (fun e => e = ResourceLimit "recovery scan reads" /\ srl_max_scan_read_operations limits < operations + scan_reads (length - cursor)).
Proof.
  assert (Hmax : len b <= U64_MAX) by lia.
  assert (Hdone : forall filled operations bad, 0 < request -> operations <= srl_max_scan_read_operations limits ->
    gives (sm_ret (filled, operations)) (fun r => r.1 = filled ++ slice b (start + length) (start + length) /\
      r.2 = operations + scan_reads (length - length) /\ r.2 <= srl_max_scan_read_operations limits) bad).
  { intros. apply gives_ret. cbn. rewrite N.sub_diag, scan_reads_in_blocks, in_blocks_none by done. unfold slice. rewrite N.sub_diag, app_nil_r, N.add_0_r. done. }
  induction fuel as [|fuel IH]; intros cursor filled operations Hreq Hc Hr Hw Hfuel Ho; cbn [scan_chunks];
    (destruct (N.ltb_spec cursor length) as [Hlt|Hge]; [|assert (cursor = length) as -> by lia; by apply Hdone]);
    [destruct Hfuel as [|Hfuel%N.nlt_0_r]; [lia|done]|].
  rewrite (scan_reads_step (length - cursor)) by lia. set (n := N.min (length - cursor) request). assert (Hn : 0 < n /\ n <= length - cursor) by (unfold n; lia).
  apply (gives_known _ _ _ cursor); [by rewrite try_u64_fits by lia|]. apply (gives_known _ _ _ (start + cursor)); [by rewrite checked_add_fits by lia|].
  eapply gives_bind; [apply (gives_read presents b Hmax); lia|]. intros _ <-. apply (gives_known _ _ _ (operations + 1)); [by rewrite checked_add_fits by lia|].
  apply gives_check; intros Hop; bool_facts; [split; [done|lia]|].
  eapply gives_weaken; [apply IH; [done|lia|done|lia| |done]| |].
  - replace (length - (cursor + n)) with (length - cursor - n) by lia. apply enough_step; [done|lia|done].
  - intros [scan total] (E1 & E2 & E3). cbn [fst snd] in *. replace (length - (cursor + n)) with (length - cursor - n) in E2 by lia.
    rewrite E1. rewrite <- app_assoc, N.add_assoc, slice_join by lia. split_and!; [done|lia|done].
  - intros e [-> He]. split; [done|]. replace (length - (cursor + n)) with (length - cursor - n) in He by lia. lia.
Qed.

(** *** Magic matches *)

Context (start : N) (Hstart : start <= len b).
Abbreviation scan := (slice b start (len b)).

Definition index_matches (index : N) : Prop := footer_magic_at b (start + index).
#[local] Instance index_matches_dec index : Decision (index_matches index).
Proof. unfold index_matches. apply _. Defined.

Lemma magic_fold max_matches indices : forall found positions, found <= max_matches -> found + len indices <= U64_MAX ->
  (forall i, i ∈ indices -> start + i + len FOOTER_MAGIC <= len b) ->
  match fold_result (magic_position max_matches scan) indices (found, positions) with
  | Ok r => r = (found + len (filter index_matches indices), positions ++ filter index_matches indices) /\ r.1 <= max_matches
  | Err e => e = ResourceLimit "recovery magic matches" /\ max_matches < found + len (filter index_matches indices)
  end.
Proof.
  induction indices as [|i indices IH]; intros found positions Hf Hw Hin; cbn [fold_result].
  { rewrite filter_nil, app_nil_r, N.add_0_r. done. }
  rewrite len_cons in Hw. unfold magic_position at 1. assert (Hi : start + i + len FOOTER_MAGIC <= len b) by (apply Hin; by left).
  rewrite subslice by lia. replace (start + (i + len FOOTER_MAGIC)) with (start + i + len FOOTER_MAGIC) by lia. rewrite filter_cons.
  destruct (decide (index_matches i)) as [Hm|Hm].
  - rewrite bool_decide_eq_true_2 by exact Hm. rewrite checked_add_fits by lia. cbn [ok_or]. rewrite len_cons.
    destruct (N.ltb_spec max_matches (found + 1)); cbn [negb]; [split; [done|lia]|].
    specialize (IH (found + 1) (positions ++ [i]) ltac:(lia) ltac:(lia) ltac:(intros; apply Hin; by right)).
    destruct (fold_result _ _ _) as [r|e]; [|split; [apply IH|]; lia]. destruct IH as [-> IH]. cbn [fst] in *. rewrite <- app_assoc. cbn. split; [f_equal; lia|lia].
  - rewrite bool_decide_eq_false_2 by exact Hm. apply IH; [done|lia|]. intros; apply Hin; by right.
Qed.

(** The offsets of the window at which the magic stands, from the last. *)
Definition matches : list N := filter (footer_magic_at b) (descending start (len b - len FOOTER_MAGIC)).

Lemma magic_positions_cases max_matches : start + len FOOTER_MAGIC <= len b ->
  match magic_positions max_matches scan with
  | Ok r => r.1 = len matches /\ (fun i => start + i) <$> reverse r.2 = matches /\ len matches <= max_matches
  | Err e => e = ResourceLimit "recovery magic matches" /\ max_matches < len matches
  end.
Proof.
  intros Hs. unfold magic_positions. rewrite slice_len by lia. set (indices := reverse _).
  assert (Hm : (fun i => start + i) <$> reverse (filter index_matches indices) = matches).
  { unfold indices, matches. rewrite <- filter_reverse, reverse_involutive. replace (len b - start - len FOOTER_MAGIC) with (len b - len FOOTER_MAGIC - start) by lia.
    rewrite <- (descending_shift start (len b - len FOOTER_MAGIC)) by lia. by rewrite (filter_of_fmap _ (footer_magic_at b) index_matches). }
  assert (Hl : len matches = len (filter index_matches indices)) by (by rewrite <- Hm, len_fmap, len_reverse).
  assert (Hin : len indices = len b - start - len FOOTER_MAGIC + 1) by (unfold indices; rewrite len_reverse, len_descending; lia).
  change (len FOOTER_MAGIC) with 8 in *. pose proof (magic_fold max_matches indices 0 [] (N.le_0_l _)) as Hc.
  destruct (fold_result _ _ _) as [r|e].
  - destruct Hc as [-> Hc]; [unfold FOOTER_LEN in *; lia| |rewrite Hl; by split_and!]. intros i Hi. unfold indices in Hi. apply elem_of_reverse, elem_of_descending in Hi. change (len FOOTER_MAGIC) with 8 in *. lia.
  - destruct Hc as [-> Hc]; [unfold FOOTER_LEN in *; lia| |by rewrite Hl]. intros i Hi. unfold indices in Hi. apply elem_of_reverse, elem_of_descending in Hi. change (len FOOTER_MAGIC) with 8 in *. lia.
Qed.

(** *** Candidates *)

(** What is found at an offset, and what its validation costs. *)
Definition recovered_at (o : N) : option RecoveredExp0002SourcePrefix :=
  if decide (footer_fits_at b o) then
    match prefix_result b candidate (o + FOOTER_LEN) with Ok v => Some (recovered_prefix (o + FOOTER_LEN) v) | Err _ => None end
  else None.
Definition cost_at (o : N) : N := prefix_cost b candidate (o + FOOTER_LEN).

Definition candidates_after (st : CandidateState) (offsets : list N) : CandidateState :=
  mkCandidates (cs_candidates_validated st + len (filter (footer_fits_at b) offsets))
    (cs_total_candidate_bytes_read st + sum_of cost_at (filter (footer_fits_at b) offsets)) (cs_results st ++ omap recovered_at offsets).

Definition candidates_within (st : CandidateState) : Prop :=
  cs_candidates_validated st <= srl_max_candidate_validations limits /\
  cs_total_candidate_bytes_read st <= srl_max_total_candidate_bytes_read limits /\ cs_total_candidate_bytes_read st <= U64_MAX /\
  len (cs_results st) <= srl_max_results limits.

(** A limit that the counts exceed. *)
Inductive candidates_exceeded (st : CandidateState) : Exp0002Error -> Prop :=
  | exceeded_candidates : srl_max_candidate_validations limits < cs_candidates_validated st ->
      candidates_exceeded st (ResourceLimit "recovery candidates")
  | exceeded_bytes : srl_max_total_candidate_bytes_read limits < cs_total_candidate_bytes_read st ->
      candidates_exceeded st (ResourceLimit "recovery validation bytes")
  | exceeded_width : U64_MAX < cs_total_candidate_bytes_read st -> candidates_exceeded st ArithmeticOverflow
  | exceeded_source_results : srl_max_results limits < len (cs_results st) -> candidates_exceeded st (ResourceLimit "recovery results").

Lemma candidates_after_app st o offsets : candidates_after st (o :: offsets) = candidates_after (candidates_after st [o]) offsets.
Proof.
  unfold candidates_after. cbn [cs_candidates_validated cs_total_candidate_bytes_read cs_results]. change (o :: offsets) with ([o] ++ offsets).
  rewrite !filter_app, !len_app, omap_app, !N.add_assoc, sum_of_app, N.add_assoc. by rewrite app_assoc.
Qed.

Lemma candidates_after_one st o : candidates_after st [o] =
  mkCandidates (cs_candidates_validated st + if decide (footer_fits_at b o) then 1 else 0)
    (cs_total_candidate_bytes_read st + if decide (footer_fits_at b o) then cost_at o else 0)
    (cs_results st ++ match recovered_at o with Some c => [c] | None => [] end).
Proof.
  unfold candidates_after. rewrite !filter_cons, !filter_nil. cbn [omap list_omap].
  destruct (decide (footer_fits_at b o)); cbn; [|done]. by rewrite N.add_0_r.
Qed.

Lemma exceeded_later st o offsets e : candidates_exceeded (candidates_after st [o]) e -> candidates_exceeded (candidates_after st (o :: offsets)) e.
Proof.
  rewrite (candidates_after_app st o offsets). set (s := candidates_after st [o]). unfold candidates_after.
  intros []; constructor; cbn [cs_candidates_validated cs_total_candidate_bytes_read cs_results]; rewrite ?len_app; lia.
Qed.

Lemma candidate_gives st index : 0 < srl_max_candidate_validations limits -> candidates_within st -> footer_magic_at b (start + index) ->
  start + index <= len b -> cs_candidates_validated st = 0 \/ start + index + FOOTER_LEN <= len b ->
  gives (source_candidate limits (len b) start st index)
    (fun st' => st' = candidates_after st [start + index] /\ candidates_within st') (candidates_exceeded (candidates_after st [start + index])).
Proof.
  intros Hpos (W1 & W2 & W3 & W4) Hmag Hin Hready. set (o := start + index) in *. rewrite candidates_after_one. unfold source_candidate, recovered_at.
  assert (Hmax : len b <= U64_MAX) by lia.
  apply gives_check; intros Hc; bool_facts.
  { apply exceeded_candidates. cbn. destruct Hready as [Hz|Hfit]; [lia|]. rewrite decide_True by (by split). lia. }
  apply (gives_known _ _ _ index); [by rewrite try_u64_fits by (unfold o in *; lia)|]. apply (gives_known _ _ _ o); [unfold o in *; by rewrite checked_add_fits by lia|].
  apply (gives_known _ _ _ (o + FOOTER_LEN)); [by rewrite checked_add_fits by lia|]. destruct (N.ltb_spec (len b) (o + FOOTER_LEN)) as [Hlt|Hle].
  { apply gives_ret. rewrite !decide_False by (intros [_ ?]; lia). rewrite !N.add_0_r, app_nil_r. destruct st. done. }
  rewrite !decide_True by (by split). eapply gives_bind; [by apply gives_prefix|]. intros _ <-. fold (cost_at o).
  apply gives_lift; [intros e [-> He]%checked_add_exceeds; by apply exceeded_width|]. intros total Ht. option_facts.
  apply gives_check; intros Hb; bool_facts; [by apply exceeded_bytes|]. destruct (prefix_result b candidate (o + FOOTER_LEN)) as [v|e].
  - apply gives_check; intros Hr; bool_facts; [apply exceeded_source_results; cbn; rewrite len_app; change (len [_]) with 1; lia|].
    apply gives_ret. split; [done|]. split_and!; cbn; [lia|lia|lia|]. rewrite len_app. change (len [_]) with 1. lia.
  - apply gives_ret. rewrite app_nil_r. split; [done|]. split_and!; cbn; lia.
Qed.

Lemma candidates_gives indices : forall st, 0 < srl_max_candidate_validations limits -> candidates_within st ->
  Forall (fun i => footer_magic_at b (start + i) /\ start + i <= len b) indices ->
  StronglySorted newer ((fun i => start + i) <$> indices) ->
  cs_candidates_validated st = 0 \/ Forall (fun i => start + i + FOOTER_LEN <= len b) indices ->
  gives (source_candidates limits (len b) start indices st)
    (fun st' => st' = candidates_after st ((fun i => start + i) <$> indices) /\ candidates_within st')
    (candidates_exceeded (candidates_after st ((fun i => start + i) <$> indices))).
Proof.
  induction indices as [|i indices IH]; intros st Hpos Hw Hm Hs Hready; cbn [source_candidates].
  { apply gives_ret. split; [|done]. unfold candidates_after. rewrite fmap_nil, filter_nil. cbn. rewrite !N.add_0_r, app_nil_r. by destruct st. }
  rewrite fmap_cons in *. apply Forall_cons in Hm as [[Hmi Hin] Hm]. apply StronglySorted_inv in Hs as [Hs Hlt].
  eapply gives_bind.
  - eapply gives_weaken; [apply candidate_gives; try done|intros st' Hst'; exact Hst'|apply exceeded_later].
    destruct Hready as [?|Hf]; [by left|]. right. by apply Forall_cons in Hf as [? _].
  - intros st' [-> Hw']. rewrite (candidates_after_app st (start + i) ((fun i => start + i) <$> indices)). apply IH; try done. rewrite candidates_after_one. cbn [cs_candidates_validated].
    destruct Hready as [Hz|Hf]; [|right; by apply Forall_cons in Hf as [_ ?]]. destruct (decide (footer_fits_at b (start + i))) as [[_ Hfit]|]; [right|left; lia].
    apply Forall_forall. intros j Hj. pose proof (proj1 (Forall_forall _ _) Hlt (start + j) (list_elem_of_fmap_2 _ _ _ Hj)) as Hn. unfold newer in Hn. lia.
Qed.
End Scan.

(** ** What a scan reports *)

Section Report.
Context `{Sha256} (b : bytes) (limits : Exp0002SourceRecoveryLimits).
Context {S : Type} `{ReadAt S} (presents : S -> bytes -> Prop) `{!StableSource S presents}.
Context (Hroom : len b + FOOTER_LEN <= U64_MAX).

Abbreviation candidate := (srl_candidate limits).

(** The window, the offsets of the magic in it, and those of whole footers. *)
Definition scan_window : N := N.min (len b) (srl_max_scan_bytes limits).
Definition scan_matches : list N :=
  if len FOOTER_MAGIC <=? scan_window then matches b (len b - scan_window) else [].
Definition scan_counts : CandidateState := candidates_after b limits (mkCandidates 0 0 []) scan_matches.

Lemma candidate_configured u : validate_recovery_configuration limits = Ok u -> configured candidate /\
  0 < srl_max_candidate_validations limits.
Proof. unfold validate_recovery_configuration, configured. intros Hv. step_result Hv. bool_facts. split_and!; lia. Qed.

(** The report of a scan: exactly the prefixes of the file that the source
    validation accepts and whose footers start in the window, each once, from
    the last, with what the scan read and what the candidates asked for,
    accepted or not. *)
Record source_scan_report (rep : Exp0002SourceRecoveryReport) : Prop := {
  ssr_found c : c ∈ rv_results rep <-> exists n v, n <= len b /\ len b - scan_window + FOOTER_LEN <= n /\
    source_accepted (slice b 0 n) candidate v /\ c = recovered_prefix n v;
  ssr_order : StronglySorted newer (rp_footer_offset <$> rv_results rep);
  ssr_window : rv_file_len rep = len b /\ rv_scan_start rep = len b - scan_window /\ rv_scan_bytes_read rep = scan_window /\
    rv_scan_read_operations rep = scan_reads limits scan_window;
  ssr_counts : rv_magic_matches rep = len scan_matches /\ rv_candidates_validated rep = len (filter (footer_fits_at b) scan_matches) /\
    rv_total_candidate_bytes_read rep = sum_of (fun o => prefix_cost b candidate (o + FOOTER_LEN)) (filter (footer_fits_at b) scan_matches);
  ssr_limits : rv_scan_read_operations rep <= srl_max_scan_read_operations limits /\ rv_magic_matches rep <= srl_max_magic_matches limits /\
    rv_candidates_validated rep <= srl_max_candidate_validations limits /\ len (rv_results rep) <= srl_max_results limits /\
    rv_total_candidate_bytes_read rep <= srl_max_total_candidate_bytes_read limits;
}.

(** Why a scan gives no report: a limit that allows nothing, or one that is
    exceeded. *)
Inductive source_scan_refused : Exp0002Error -> Prop :=
  | refused_configuration : validate_recovery_configuration limits <> Ok tt -> source_scan_refused (ResourceLimit "recovery configuration")
  | refused_reads : srl_max_scan_read_operations limits < scan_reads limits scan_window -> source_scan_refused (ResourceLimit "recovery scan reads")
  | refused_matches : srl_max_magic_matches limits < len scan_matches -> source_scan_refused (ResourceLimit "recovery magic matches")
  | refused_candidates e : candidates_exceeded limits scan_counts e -> source_scan_refused e.

(** A prefix is accepted exactly where its footer is found. *)
Lemma accepted_at n v : n <= len b -> source_accepted (slice b 0 n) candidate v ->
  vs_footer_offset v + FOOTER_LEN = n /\ recovered_at b limits (vs_footer_offset v) = Some (recovered_prefix n v).
Proof.
  intros Hn Ha. pose proof Ha as (_ & w & Hw%source_valid_strict & _ & Hv).
  destruct (valid_prefix_at b (so_validation candidate) ltac:(lia) n w Hn Hw) as [Hn' Hva].
  assert (Ho : vs_footer_offset v = v_footer_offset w) by (by rewrite Hv). rewrite Ho. split; [done|]. unfold recovered_at, valid_at in *.
  destruct (decide _) as [Hf|]; [|done]. rewrite <- Hn'. by rewrite (proj2 (prefix_result_Ok b candidate ltac:(lia) n v Hn) Ha).
Qed.

Lemma recovered_at_Some o c : recovered_at b limits o = Some c <->
  exists v, o + FOOTER_LEN <= len b /\ source_accepted (slice b 0 (o + FOOTER_LEN)) candidate v /\ c = recovered_prefix (o + FOOTER_LEN) v /\
    rp_footer_offset c = o.
Proof.
  split.
  - unfold recovered_at. destruct (decide _) as [[Hm Hf]|]; [|done]. destruct (prefix_result _ _ _) as [v|] eqn:Ev; [|done]. intros [= <-].
    apply prefix_result_Ok in Ev; [|lia|done]. exists v. split_and!; try done. cbn. destruct (accepted_at _ _ Hf Ev). lia.
  - intros (v & Hl & Ha & -> & Ho). destruct (accepted_at _ _ Hl Ha) as [_ Hr]. cbn in Ho. by rewrite Ho in Hr.
Qed.

Lemma recovered_order offsets : StronglySorted newer offsets -> StronglySorted newer (rp_footer_offset <$> omap (recovered_at b limits) offsets).
Proof.
  induction 1 as [|o offsets Hs IH Hf]; [constructor|]. cbn [omap list_omap]. destruct (recovered_at b limits o) as [c|] eqn:Ec; [|done].
  rewrite fmap_cons. constructor; [done|]. apply Forall_forall. intros x (c' & -> & (o' & Ho' & Hc')%list_elem_of_omap)%list_elem_of_fmap.
  apply recovered_at_Some in Ec as (_ & _ & _ & _ & ->). apply recovered_at_Some in Hc' as (_ & _ & _ & _ & ->). by apply (proj1 (Forall_forall _ _) Hf).
Qed.

Lemma scan_window_le : scan_window <= len b.
Proof. unfold scan_window. lia. Qed.

Lemma scan_matches_spec o : o ∈ scan_matches -> footer_magic_at b o /\ len b - scan_window <= o /\ o + len FOOTER_MAGIC <= len b.
Proof.
  pose proof scan_window_le. unfold scan_matches, matches. change (len FOOTER_MAGIC) with 8. destruct (N.leb_spec 8 scan_window); [|by intros Ho%elem_of_nil].
  intros [Hm Ho%elem_of_descending]%list_elem_of_filter. split; [done|lia].
Qed.

(** An accepted prefix in the window is found at its footer. *)
Lemma scan_finds n v : n <= len b -> len b - scan_window + FOOTER_LEN <= n -> source_accepted (slice b 0 n) candidate v ->
  vs_footer_offset v ∈ scan_matches.
Proof.
  intros Hn Hs Ha. destruct (accepted_at n v Hn Ha) as [Ho Hr]. unfold recovered_at in Hr. destruct (decide _) as [[Hm _]|]; [|done].
  pose proof scan_window_le. unfold scan_matches, matches. change (len FOOTER_MAGIC) with 8. unfold FOOTER_LEN in *.
  destruct (N.leb_spec 8 scan_window); [|lia]. apply list_elem_of_filter. split; [done|]. apply elem_of_descending. lia.
Qed.

Lemma scan_results_found c : c ∈ cs_results scan_counts <-> exists n v, n <= len b /\ len b - scan_window + FOOTER_LEN <= n /\
  source_accepted (slice b 0 n) candidate v /\ c = recovered_prefix n v.
Proof.
  unfold scan_counts, candidates_after. cbn [cs_results app]. rewrite list_elem_of_omap. split.
  - intros (o & (_ & Ho & _)%scan_matches_spec & (v & Hf & Ha & -> & _)%recovered_at_Some). exists (o + FOOTER_LEN), v. split_and!; [done|lia|done|done].
  - intros (n & v & Hn & Hs & Ha & ->). exists (vs_footer_offset v). split; [by eapply scan_finds|]. by apply accepted_at.
Qed.

Lemma scan_matches_sorted : StronglySorted newer scan_matches.
Proof. unfold scan_matches, matches. destruct (_ <=? _); [apply filter_sorted, descending_sorted|constructor]. Qed.

(** A report whose fields are the counts of the window. *)
Lemma scan_reported operations magic_matches : operations = scan_reads limits scan_window -> operations <= srl_max_scan_read_operations limits ->
  magic_matches = len scan_matches -> magic_matches <= srl_max_magic_matches limits -> candidates_within limits scan_counts ->
  source_scan_report (mkSourceRecoveryReport (len b) (len b - scan_window) scan_window operations magic_matches (cs_candidates_validated scan_counts)
    (cs_total_candidate_bytes_read scan_counts) (cs_results scan_counts)).
Proof.
  intros -> Ho -> Hm (W1 & W2 & _ & W4). split; cbn [rv_file_len rv_scan_start rv_scan_bytes_read rv_scan_read_operations rv_magic_matches
    rv_candidates_validated rv_total_candidate_bytes_read rv_results]; try done.
  - apply scan_results_found.
  - apply recovered_order, scan_matches_sorted.
Qed.

Lemma scan_gives : gives presents b (scan_valid_prefixes_at limits) source_scan_report source_scan_refused.
Proof.
  assert (Hmax : len b <= U64_MAX) by lia. pose proof scan_window_le as Hwin. unfold scan_valid_prefixes_at.
  apply gives_lift; [unfold validate_recovery_configuration; intros e He|].
  { destruct (negb _) eqn:Ec; [done|]. injection He as <-. apply refused_configuration. unfold validate_recovery_configuration. by rewrite Ec. }
  intros u Hu. destruct (candidate_configured u Hu) as [(HP & _) Hpos]. change PAGE_SIZE with 16384 in HP.
  eapply gives_bind; [by apply gives_len|]. intros _ <-. fold scan_window.
  apply (gives_known _ _ _ (len b - scan_window)); [by rewrite (proj2 (checked_sub_Some _ _ _) (conj eq_refl Hwin))|].
  apply (gives_known _ _ _ scan_window); [unfold to_usize; by rewrite try_u64_fits by lia|].
  eapply gives_bind; [eapply gives_weaken; [eapply (scan_chunks_gives b limits presents); try done; try lia|intros r Hr; exact Hr|]|].
  { rewrite N.sub_0_r. apply enough_all. }
  { intros e [-> He]. rewrite N.sub_0_r in He. by apply refused_reads. }
  intros [scan operations] (Escan & Eops & Hops). cbn [fst snd] in *. rewrite N.sub_0_r in Eops. rewrite N.add_0_r in Escan.
  replace (len b - scan_window + scan_window) with (len b) in Escan by lia. cbn [app] in Escan. subst scan. cbv beta iota. rewrite slice_len by lia.
  replace (len b - (len b - scan_window)) with scan_window by lia. change (len FOOTER_MAGIC) with 8.
  destruct (N.ltb_spec scan_window 8) as [Hlt|Hge].
  { assert (Hnone : scan_matches = []) by (unfold scan_matches; change (len FOOTER_MAGIC) with 8; by rewrite (proj2 (N.leb_gt _ _))).
    apply gives_ret. pose proof (scan_reported operations 0 Eops Hops) as Hrep. unfold scan_counts in Hrep. rewrite Hnone in Hrep. cbn in Hrep.
    apply Hrep; [done|lia|]. split_and!; apply N.le_0_l. }
  assert (Hms : scan_matches = matches b (len b - scan_window)) by (unfold scan_matches; change (len FOOTER_MAGIC) with 8; by rewrite (proj2 (N.leb_le _ _))).
  pose proof (magic_positions_cases b Hroom (len b - scan_window) ltac:(lia) (srl_max_magic_matches limits)) as Hmp.
  rewrite <- Hms in Hmp. specialize (Hmp ltac:(change (len FOOTER_MAGIC) with 8; lia)).
  apply gives_lift; [intros e He; rewrite He in Hmp; destruct Hmp as [-> Hmp]; by apply refused_matches|].
  intros [magic_matches positions] Hp. rewrite Hp in Hmp. cbn [fst snd] in Hmp. destruct Hmp as (-> & Hpos' & Hlim). cbv beta iota.
  assert (Hin : Forall (fun i => footer_magic_at b (len b - scan_window + i) /\ len b - scan_window + i <= len b) (reverse positions)).
  { apply Forall_forall. intros i Hi. destruct (scan_matches_spec (len b - scan_window + i)) as (Hm & _ & Hle); [|split; [done|lia]].
    rewrite <- Hpos'. by apply (list_elem_of_fmap_2 (fun i => len b - scan_window + i)). }
  pose proof (candidates_gives b limits presents Hroom (len b - scan_window) ltac:(lia) (reverse positions) (mkCandidates 0 0 []) Hpos) as Hc.
  rewrite Hpos' in Hc. fold scan_counts in Hc.
  eapply gives_bind; [eapply gives_weaken; [apply Hc|intros st Hst; exact Hst|intros e He; by apply refused_candidates]|].
  { split_and!; apply N.le_0_l. }
  { done. }
  { apply scan_matches_sorted. }
  { by left. }
  intros st [-> Hw]. apply gives_ret. by apply scan_reported.
Qed.
End Report.
