(* ===== verification/Exp0002SourceScan.v ===== *)
(** The first version of the recovery scan, kept in
    [exp0002_source_strict.rs] and replaced there by
    [exp0002_source_recovery.rs]: it reads its window at once, and charges the
    candidates that validate only. *)

From Stdlib Require Import Strings.Byte Strings.String NArith ZArith Lia.
From stdpp Require Import base list gmap strings sorting.
From S2P Require Import Prelude Order Digest Machine Exp0002 Exp0002File Exp0002Pages Exp0002Source Exp0002SourceStrict Exp0002SourceFacts Exp0002SourceStrictFacts Exp0002SourceBounds Exp0002SourceRecovery.

Local Open Scope N_scope.

(** [Exp0002RecoveryLimits] *)
Record ScanLimits : Type := mkScanLimits {
  wl_candidate : Exp0002SourceLimits;
  wl_max_scan_bytes : N;
  wl_max_magic_matches : N;
  wl_max_candidate_validations : N;
  wl_max_results : N;
  wl_max_total_candidate_bytes_read : N;
}.

Definition default_scan_limits : ScanLimits :=
  mkScanLimits default_source_limits (16 * 1024 * 1024) 4096 1024 64 (64 * 1024 * 1024 * 1024).

Record RecoveredExp0002Prefix : Type := mkScanPrefix {
  sx_prefix_len : N;
  sx_footer_offset : N;
  sx_sequence : N;
  sx_snapshot_digest : bytes;
  sx_validation_stats : Exp0002SourceStats;
}.

(** [Exp0002RecoveryReport] *)
Record ScanReport : Type := mkScanReport {
  sy_file_len : N;
  sy_scan_start : N;
  sy_scan_bytes_read : N;
  sy_magic_matches : N;
  sy_candidates_validated : N;
  sy_total_candidate_bytes_read : N;
  sy_results : list RecoveredExp0002Prefix;
}.

(** [PrefixSource] *)
Record PrefixSource (S : Type) : Type := mkPrefixSource { px_source : S; px_len : N }.
Arguments mkPrefixSource {S}.
Arguments px_source {S}.
Arguments px_len {S}.

Definition prefix_read_exact_at {S} `{ReadAt S} (p : PrefixSource S) (offset n : N) : IO bytes * PrefixSource S :=
  match try_u64 n with
  | None => (Err InvalidInput, p)
  | Some length =>
      match checked_add offset length with
      | None => (Err InvalidInput, p)
      | Some end_ =>
          if px_len p <? end_ then (Err UnexpectedEof, p)
          else let '(r, s) := read_exact_at (px_source p) offset n in (r, mkPrefixSource s (px_len p))
      end
  end.

#[export] Instance prefix_read_at {S} `{ReadAt S} : ReadAt (PrefixSource S) := {
  source_len p := (Ok (px_len p), p);
  read_exact_at := prefix_read_exact_at;
}.

Section Scan.
Context `{Sha256} {S : Type} `{ReadAt S} (limits : ScanLimits).

(** What the second loop has counted and found so far. *)
Record ScanProgress : Type := mkProgress {
  pg_candidates_validated : N;
  pg_total_candidate_bytes_read : N;
  pg_results : list RecoveredExp0002Prefix;
}.

Definition scan_prefix_of (prefix_len : N) (verified : VerifiedExp0002Source) : RecoveredExp0002Prefix :=
  mkScanPrefix prefix_len (vs_footer_offset verified) (ft_sequence (vs_footer verified)) (ft_snapshot_digest (vs_footer verified)) (vs_stats verified).

(** One round of the second loop. *)
Definition scan_candidate (file_len scan_start : N) (st : ScanProgress) (index : N) : ST S ScanProgress :=
  check! negb (wl_max_candidate_validations limits <=? pg_candidates_validated st) else ResourceLimit "recovery candidates" in
  let! relative := sm_lift (ok_or (try_u64 index) ArithmeticOverflow) in
  let! footer_offset := sm_lift (ok_or (checked_add scan_start relative) ArithmeticOverflow) in
  let! prefix_len := sm_lift (ok_or (checked_add footer_offset FOOTER_LEN) ArithmeticOverflow) in
  if file_len <? prefix_len then sm_ret st
  else
    let candidates_validated := pg_candidates_validated st + 1 in
    let! validation := (fun s =>
      let '(validation, prefix) := validate_strict_at (mkPrefixSource s prefix_len) (wl_candidate limits) in (Ok validation, px_source prefix)) in
    match validation with
    | Ok verified =>
        let! total := sm_lift (ok_or (checked_add (pg_total_candidate_bytes_read st) (ss_bytes_read (vs_stats verified))) ArithmeticOverflow) in
        check! negb (wl_max_total_candidate_bytes_read limits <? total) else ResourceLimit "recovery validation bytes" in
        let results := pg_results st ++ [scan_prefix_of prefix_len verified] in
        check! negb (wl_max_results limits <? len results) else ResourceLimit "recovery results" in
        sm_ret (mkProgress candidates_validated total results)
    | Err _ => sm_ret (mkProgress candidates_validated (pg_total_candidate_bytes_read st) (pg_results st))
    end.

(** [for index in positions.into_iter().rev()] *)
Fixpoint scan_candidates (file_len scan_start : N) (positions : list N) (st : ScanProgress) : ST S ScanProgress :=
  match positions with
  | [] => sm_ret st
  | index :: positions =>
      let! st := scan_candidate file_len scan_start st index in
      scan_candidates file_len scan_start positions st
  end.

(** [scan_valid_prefixes_at] *)
Definition scan_window_prefixes_at : ST S ScanReport :=
  let! _ := sm_lift (validate_limit_configuration (wl_candidate limits)) in
  check! negb ((wl_max_scan_bytes limits =? 0) || (wl_max_magic_matches limits =? 0) || (wl_max_candidate_validations limits =? 0)
               || (wl_max_results limits =? 0)) else ResourceLimit "recovery configuration" in
  let! file_len := st_source_len "recovery source length" in
  let scan_len := N.min file_len (wl_max_scan_bytes limits) in
  let! scan_start := sm_lift (ok_or (checked_sub file_len scan_len) ArithmeticOverflow) in
  let! scan_len_usize := sm_lift (to_usize scan_len) in
  let! scan := st_source_read scan_start scan_len_usize "recovery scan" in
  if len scan <? len FOOTER_MAGIC then sm_ret (mkScanReport file_len scan_start scan_len 0 0 0 [])
  else
    let! (magic_matches, positions) := sm_lift (magic_positions (wl_max_magic_matches limits) scan) in
    let! st := scan_candidates file_len scan_start (reverse positions) (mkProgress 0 0 []) in
    sm_ret (mkScanReport file_len scan_start scan_len magic_matches (pg_candidates_validated st) (pg_total_candidate_bytes_read st) (pg_results st)).
End Scan.

(** ** What it reports is accepted *)

(** The prefix of a source that presents [b] presents the prefix of [b]. *)
Definition presents_prefix {S} (presents : S -> bytes -> Prop) (b : bytes) (n : N) (p : PrefixSource S) (c : bytes) : Prop :=
  presents (px_source p) b /\ px_len p = n /\ c = slice b 0 n.

#[export] Instance prefix_presents {S} `{ReadAt S} (presents : S -> bytes -> Prop) (reliable : Prop) `{!PresentsSource S presents reliable}
    (b : bytes) (n : N) (Hn : n <= len b) (Hmax : len b <= U64_MAX) : PresentsSource (PrefixSource S) (presents_prefix presents b n) reliable.
Proof.
  assert (Hl : len (slice b 0 n) = n) by (rewrite slice_len; lia). split.
  - intros p c (Hp & Hpl & ->) _. cbn. by rewrite Hl.
  - intros p c offset k (Hp & Hpl & ->) _ Hr. rewrite Hl in Hr. cbn. unfold prefix_read_exact_at. rewrite try_u64_fits, checked_add_fits by lia.
    rewrite Hpl, (proj2 (N.ltb_ge _ _)) by lia. pose proof (presents_read (px_source p) b offset k Hp Hmax ltac:(lia)) as [Hp' Ha].
    destruct (read_exact_at (px_source p) offset k) as [[x|e] t]; cbn in *; [|done]. split; [done|]. rewrite Ha, subslice by lia. by rewrite N.add_0_l.
Qed.

Section Sound.
Context `{Sha256} {S : Type} `{ReadAt S} (presents : S -> bytes -> Prop) (reliable : Prop) `{!PresentsSource S presents reliable}.
Context (b : bytes) (limits : ScanLimits) (Hmax : len b <= U64_MAX).

(** What is found so far is accepted. *)
Definition found_accepted (l : list RecoveredExp0002Prefix) : Prop :=
  Forall (fun c => exists n v, n <= len b /\ source_accepted (slice b 0 n) (wl_candidate limits) v /\ c = scan_prefix_of n v) l.

Lemma scan_candidate_sound start st index s st' s' : presents s b -> found_accepted (pg_results st) ->
  scan_candidate limits (len b) start st index s = (Ok st', s') -> presents s' b /\ found_accepted (pg_results st').
Proof.
  intros Hs Hf Hr. unfold scan_candidate in Hr. destruct (negb _); [|discriminate Hr]. apply sm_bind_Ok in Hr as (relative & s1 & [_ ->]%sm_lift_Ok & Hr).
  apply sm_bind_Ok in Hr as (footer_offset & s1 & [_ ->]%sm_lift_Ok & Hr). apply sm_bind_Ok in Hr as (n & s1 & [_ ->]%sm_lift_Ok & Hr).
  destruct (N.ltb_spec (len b) n) as [|Hle]; [apply sm_ret_Ok in Hr as [-> ->]; done|]. apply sm_bind_Ok in Hr as (validation & s2 & Hval & Hr).
  pose proof (prefix_presents presents reliable b n Hle Hmax) as Hpp.
  destruct (validate_strict_at_exact (presents_prefix presents b n) reliable (slice b 0 n) (wl_candidate limits) (mkPrefixSource s n)) as [[Hp _] Hv];
    [done|rewrite slice_len; lia|].
  destruct (validate_strict_at (mkPrefixSource s n) (wl_candidate limits)) as [res prefix]. cbn [fst snd] in *. injection Hval as <- <-.
  destruct res as [v|e]; [|by apply sm_ret_Ok in Hr as [-> ->]]. apply sm_bind_Ok in Hr as (total & s2 & [_ ->]%sm_lift_Ok & Hr). do 2 (destruct (negb _); [|discriminate Hr]).
  apply sm_ret_Ok in Hr as [-> ->]. split; [done|]. cbn. apply Forall_app. split; [done|]. constructor; [|done]. by exists n, v.
Qed.

Lemma scan_candidates_sound start positions : forall st s st' s', presents s b -> found_accepted (pg_results st) ->
  scan_candidates limits (len b) start positions st s = (Ok st', s') -> found_accepted (pg_results st').
Proof.
  induction positions as [|i positions IH]; intros st s st' s' Hs Hf Hr; cbn [scan_candidates] in Hr; [by apply sm_ret_Ok in Hr as [-> ->]|].
  apply sm_bind_Ok in Hr as (st1 & s1 & H1 & Hr). destruct (scan_candidate_sound _ _ _ _ _ _ Hs Hf H1). by eapply IH.
Qed.

(** Whatever the source answers, every result is a prefix of the file it
    presents that validation accepts. *)
Lemma scan_window_sound s rep s' : presents s b -> scan_window_prefixes_at limits s = (Ok rep, s') -> found_accepted (sy_results rep).
Proof.
  intros Hs Hr. unfold scan_window_prefixes_at in Hr. apply sm_bind_Ok in Hr as (u & s1 & [_ ->]%sm_lift_Ok & Hr). destruct (negb _); [|discriminate Hr].
  apply sm_bind_Ok in Hr as (n & s1 & Hlen & Hr). unfold st_source_len in Hlen. destruct (presents_len s b Hs Hmax) as [Hs1 Hn].
  destruct (source_len s) as [[m|e] t]; [|done]. injection Hlen as <- <-. cbn in Hs1, Hn. subst m.
  apply sm_bind_Ok in Hr as (start & s1 & [Hst ->]%sm_lift_Ok & Hr). option_facts. apply sm_bind_Ok in Hr as (k & s1 & [Hk ->]%sm_lift_Ok & Hr).
  unfold to_usize in Hk. option_facts. apply sm_bind_Ok in Hr as (scan & s1 & Hscan & Hr). unfold st_source_read in Hscan.
  pose proof (presents_read t b (len b - len b `min` wl_max_scan_bytes limits) (len b `min` wl_max_scan_bytes limits) Hs1 Hmax ltac:(lia)) as [Hs2 _].
  destruct (read_exact_at t _ _) as [[x|e] t2]; [|done]. injection Hscan as -> <-. cbn in Hs2.
  destruct (len scan <? len FOOTER_MAGIC); [apply sm_ret_Ok in Hr as [-> _]; constructor|].
  apply sm_bind_Ok in Hr as ([matches positions] & s1 & [_ ->]%sm_lift_Ok & Hr). apply sm_bind_Ok in Hr as (st & s1 & Hc & Hr).
  apply sm_ret_Ok in Hr as [-> _]. eapply (scan_candidates_sound _ _ (mkProgress 0 0 [])); [exact Hs2|constructor|exact Hc].
Qed.
End Sound.
