(* ===== verification/Exp0002SourceChain.v ===== *)
(** The chain of previous commits through a source ([exp0002_source_chain.rs]):
    what is listed are the commits of the file back to the first, each a prefix
    that validates and the parent of the one before it. *)

From Stdlib Require Import Strings.Byte Strings.String NArith ZArith Lia.
From stdpp Require Import base list gmap strings sorting.
From S2P Require Import Prelude Order Digest Machine Source SourceFacts Recovery Exp0002 Exp0002File Exp0002Pages.
From S2P Require Import Exp0002Strict Exp0002Recovery Exp0002Source Exp0002SourceStrict Exp0002SourceFacts Exp0002SourceStrictFacts Exp0002SourceRecovery Exp0002SourceRecoveryFacts.

Local Open Scope N_scope.

Record Exp0002SourceChainLimits : Type := mkChainLimits {
  scl_candidate : Exp0002SourceLimits;
  scl_max_chain_depth : N;
  scl_max_total_bytes_read : N;
}.

Definition default_source_chain_limits : Exp0002SourceChainLimits := mkChainLimits default_source_limits 1024 (64 * 1024 * 1024 * 1024).

(** The commits go from the one at the end of the file to the first. *)
Record Exp0002SourceChainReport : Type := mkChainReport {
  sc_file_len : N;
  sc_total_bytes_read : N;
  sc_commits : list RecoveredExp0002SourcePrefix;
}.

Section Chain.
Context `{Sha256} {S : Type} `{ReadAt S} (limits : Exp0002SourceChainLimits).

(** [current] is the parent that its child, the commit before it in the list,
    names. *)
Definition check_child (commits : list RecoveredExp0002SourcePrefix) (current : RecoveredExp0002SourcePrefix) : X unit :=
  match last commits with
  | None => Ok tt
  | Some child =>
      check negb (negb (rp_previous_footer_offset child =? rp_footer_offset current)
                  || negb (bool_decide (rp_parent_snapshot_digest child = rp_snapshot_digest current))
                  || negb (bool_decide (checked_add (rp_sequence current) 1 = Some (rp_sequence child)))) else InvalidParent in
      Ok tt
  end.

(** The [loop]; [max_chain_depth] bounds the rounds. *)
Fixpoint source_chain_loop (fuel : nat) (prefix_len total_bytes_read : N) (commits : list RecoveredExp0002SourcePrefix) (seen_footers : gset N)
    : ST S (N * list RecoveredExp0002SourcePrefix) :=
  match fuel with
  | O => sm_fail PageCycle
  | Datatypes.S fuel =>
      check! negb (scl_max_chain_depth limits <=? len commits) else ResourceLimit "source chain depth" in
      let! (validation, bytes_read) := validate_prefix prefix_len (scl_candidate limits) in
      let! total_bytes_read := sm_lift (ok_or (checked_add total_bytes_read bytes_read) ArithmeticOverflow) in
      check! negb (scl_max_total_bytes_read limits <? total_bytes_read) else ResourceLimit "source chain bytes" in
      let! verified := (fun s => (validation, s)) in
      let! seen_footers := sm_lift (ok_or (try_insert (vs_footer_offset verified) seen_footers) InvalidPreviousFooter) in
      let current := recovered_prefix prefix_len verified in
      let! _ := sm_lift (check_child commits current) in
      let previous_footer_offset := rp_previous_footer_offset current in
      let commits := commits ++ [current] in
      if previous_footer_offset =? ABSENT_OFFSET then sm_ret (total_bytes_read, commits)
      else
        check! negb (rp_footer_offset current <=? previous_footer_offset) else InvalidPreviousFooter in
        let! prefix_len := sm_lift (ok_or (checked_add previous_footer_offset FOOTER_LEN) ArithmeticOverflow) in
        source_chain_loop fuel prefix_len total_bytes_read commits seen_footers
  end.

(** [enumerate_previous_chain_at] *)
Definition enumerate_previous_chain_at : ST S Exp0002SourceChainReport :=
  check! negb ((scl_max_chain_depth limits =? 0) || (scl_max_total_bytes_read limits =? 0)) else ResourceLimit "source chain configuration" in
  let! file_len := st_source_len "source chain length" in
  let! (total_bytes_read, commits) :=
    source_chain_loop (Datatypes.S (N.to_nat (scl_max_chain_depth limits))) file_len 0 [] ∅ in
  sm_ret (mkChainReport file_len total_bytes_read commits).
End Chain.

Lemma descending_snoc lo hi : lo <= hi -> descending lo hi = descending (lo + 1) hi ++ [lo].
Proof.
  intros Hle. unfold descending. replace (N.to_nat (hi + 1 - lo)) with (S (N.to_nat (hi + 1 - (lo + 1)))) by lia.
  cbn [seq map rev]. rewrite <- seq_shift, map_map, N.add_0_r. f_equal. f_equal. apply map_ext. intros i. lia.
Qed.

Section Chain.
Context `{Sha256} (b : bytes) (limits : Exp0002SourceChainLimits).
Context {S : Type} `{ReadAt S} (presents : S -> bytes -> Prop) `{!StableSource S presents}.
Context (Hroom : len b + FOOTER_LEN <= U64_MAX).

Abbreviation candidate := (scl_candidate limits).
Abbreviation accepted n v := (source_accepted (slice b 0 n) (scl_candidate limits) v).
Abbreviation previous v := (ft_previous_footer_offset (vs_footer v)).

(** The commits [cs] have been listed, from the end of the file, and the next
    is the prefix of [n] bytes. *)
Inductive leads : list RecoveredExp0002SourcePrefix -> N -> Prop :=
  | leads_start : leads [] (len b)
  | leads_back cs n v : leads cs n -> accepted n v -> previous v <> ABSENT_OFFSET ->
      leads (cs ++ [recovered_prefix n v]) (previous v + FOOTER_LEN).

(** A child and its parent. *)
Definition parent_of (child parent : RecoveredExp0002SourcePrefix) : Prop :=
  rp_previous_footer_offset child = rp_footer_offset parent /\ rp_parent_snapshot_digest child = rp_snapshot_digest parent /\
  rp_sequence child = rp_sequence parent + 1.

Definition chain_cost (cs : list RecoveredExp0002SourcePrefix) : N := sum_of (fun c => prefix_cost b candidate (rp_prefix_len c)) cs.

(** What is reported: the commits back to the first, one for each sequence
    number, each the parent of the one before it. *)
Record source_chain_report (rep : Exp0002SourceChainReport) : Prop := {
  scr_file : sc_file_len rep = len b;
  scr_listed : exists cs n v, leads cs n /\ accepted n v /\ previous v = ABSENT_OFFSET /\ sc_commits rep = cs ++ [recovered_prefix n v];
  scr_sequences : rp_sequence <$> sc_commits rep = descending 0 (len (sc_commits rep) - 1);
  scr_linked i child parent : sc_commits rep !! i = Some child -> sc_commits rep !! Datatypes.S i = Some parent -> parent_of child parent;
  scr_cost : sc_total_bytes_read rep = chain_cost (sc_commits rep);
  scr_limits : len (sc_commits rep) <= scl_max_chain_depth limits /\ sc_total_bytes_read rep <= scl_max_total_bytes_read limits;
}.

(** Why nothing is reported: a limit that allows nothing, one that is exceeded,
    or a prefix on the way that does not validate. *)
Inductive source_chain_refused : Exp0002Error -> Prop :=
  | refused_chain_limits : scl_max_chain_depth limits = 0 \/ scl_max_total_bytes_read limits = 0 ->
      source_chain_refused (ResourceLimit "source chain configuration")
  | refused_depth cs n : leads cs n -> len cs = scl_max_chain_depth limits -> source_chain_refused (ResourceLimit "source chain depth")
  | refused_bytes cs n : leads cs n -> scl_max_total_bytes_read limits < chain_cost cs + prefix_cost b candidate n ->
      source_chain_refused (ResourceLimit "source chain bytes")
  | refused_width cs n : leads cs n -> U64_MAX < chain_cost cs + prefix_cost b candidate n -> source_chain_refused ArithmeticOverflow
  | refused_prefix cs n e : leads cs n -> prefix_result b candidate n = Err (SourceFormat e) -> source_chain_refused e.

(** ** Accepted prefixes *)

Lemma accepted_commit n v : n <= len b -> accepted n v -> exists w, commit_end b (so_validation candidate) n w /\
  vs_footer v = v_footer w /\ vs_footer_offset v = v_footer_offset w /\ vs_snapshot v = v_snapshot w.
Proof. intros Hn (_ & w & Hw%source_valid_strict & _ & ->). by exists w. Qed.

Lemma accepted_previous n v : n <= len b -> accepted n v -> previous v <> ABSENT_OFFSET ->
  previous v + FOOTER_LEN <= vs_footer_offset v /\ n = vs_footer_offset v + FOOTER_LEN /\
  forall n' v', n' = previous v + FOOTER_LEN -> accepted n' v' -> parent_of (recovered_prefix n v) (recovered_prefix n' v').
Proof.
  intros Hn Ha Hp. destruct (accepted_commit n v Hn Ha) as (w & Hw & Ef & Eo & Es). rewrite Ef in Hp.
  destruct (previous_commit _ _ Hroom _ _ Hw Hp) as (Hle & Hn' & _ & Hnext). rewrite Ef, Eo. split_and!; [done|done|].
  intros n' v' -> Ha'. assert (Hn2 : ft_previous_footer_offset (v_footer w) + FOOTER_LEN <= len b) by lia.
  destruct (accepted_commit _ v' Hn2 Ha') as (w' & Hw' & Ef' & Eo' & Es'). destruct (Hnext w' Hw') as (Hd & Hs & Ho).
  unfold parent_of, recovered_prefix. cbn. rewrite Ef, Ef', Eo', Es. split_and!; [by rewrite Ho|done|done].
Qed.

Lemma accepted_first n v : n <= len b -> accepted n v -> previous v = ABSENT_OFFSET -> ft_sequence (vs_footer v) = 0.
Proof.
  intros Hn Ha Hp. destruct (accepted_commit n v Hn Ha) as (w & Hw & Ef & _). rewrite Ef in Hp |- *. by eapply first_commit.
Qed.

Lemma accepted_width n v : n <= len b -> accepted n v -> ft_sequence (vs_footer v) <= U64_MAX.
Proof.
  intros Hn Ha. destruct (accepted_commit n v Hn Ha) as (w & [_ Hw] & -> & _). apply validate_strict_Ok in Hw as (offs & Hsv & _).
  apply (proj1 (footer_parse_Ok _ _) (sv_footer _ _ _ _ Hsv)).
Qed.

Lemma leads_le cs n : leads cs n -> n <= len b.
Proof. induction 1 as [|cs n v Hl IH Ha Hp]; [done|]. destruct (accepted_previous n v IH Ha Hp) as (? & ? & _). lia. Qed.

(** The commit that comes last so far is the child of the next. *)
Definition child_of_next (cs : list RecoveredExp0002SourcePrefix) (n : N) : Prop :=
  match last cs with
  | None => cs = []
  | Some child => (forall v, accepted n v -> parent_of child (recovered_prefix n v)) /\ rp_sequence child <= U64_MAX
  end.

Lemma leads_child cs n : leads cs n -> child_of_next cs n.
Proof.
  intros [|cs' n' v Hl Ha Hp]; [done|]. unfold child_of_next. rewrite last_snoc.
  destruct (accepted_previous n' v (leads_le _ _ Hl) Ha Hp) as (Hle & _ & Hnext). split; [intros v' Hv'; by apply Hnext|]. apply (accepted_width n' v); [by eapply leads_le|done].
Qed.

(** Every footer listed so far lies after the next. *)
Lemma leads_after cs n c : leads cs n -> c ∈ cs -> n <= rp_footer_offset c.
Proof.
  induction 1 as [|cs n v Hl IH Ha Hp]; [by intros Hc%elem_of_nil|].
  destruct (accepted_previous n v (leads_le _ _ Hl) Ha Hp) as (Hle & Hn & _). intros [Hc| ->%list_elem_of_singleton]%elem_of_app; [|done].
  specialize (IH Hc). lia.
Qed.

Lemma leads_sequences cs n v : leads cs n -> accepted n v ->
  rp_sequence <$> cs = descending (ft_sequence (vs_footer v) + 1) (ft_sequence (vs_footer v) + len cs).
Proof.
  intros Hl. revert v. induction Hl as [|cs n w Hl IH Ha Hp]; intros v Hv.
  { unfold descending. replace (N.to_nat _) with O by (rewrite len_nil; lia). done. }
  destruct (accepted_previous n w (leads_le _ _ Hl) Ha Hp) as (_ & _ & Hnext). destruct (Hnext _ v eq_refl Hv) as (_ & _ & Hs). cbn in Hs.
  rewrite fmap_app, (IH w Ha), len_app. change (len [_]) with 1. cbn [fmap list_fmap recovered_prefix rp_sequence]. rewrite Hs.
  rewrite (descending_snoc (ft_sequence (vs_footer v) + 1)) by lia. f_equal. f_equal; lia.
Qed.

Lemma leads_linked cs n v i child parent : leads cs n -> accepted n v -> (cs ++ [recovered_prefix n v]) !! i = Some child ->
  (cs ++ [recovered_prefix n v]) !! Datatypes.S i = Some parent -> parent_of child parent.
Proof.
  intros Hl. revert v. induction Hl as [|cs n w Hl IH Ha Hp]; intros v Hv Hc Hpar; [done|].
  apply lookup_snoc_Some in Hpar as [[Hlt Hpar]|[Hi <-]].
  - rewrite lookup_app_l in Hc by lia. by apply (IH w).
  - rewrite lookup_app_l in Hc by lia. pose proof (leads_child _ _ (leads_back _ _ _ Hl Ha Hp)) as Hch. unfold child_of_next in Hch.
    rewrite last_lookup, <- Hi in Hch. cbn in Hch. rewrite Hc in Hch. by apply Hch.
Qed.

(** ** The enumeration *)

Abbreviation gives := (gives presents b).

(** The list that the loop ends with. *)
Definition chain_listed (r : N * list RecoveredExp0002SourcePrefix) : Prop :=
  (exists cs n v, leads cs n /\ accepted n v /\ previous v = ABSENT_OFFSET /\ r.2 = cs ++ [recovered_prefix n v]) /\
  r.1 = chain_cost r.2 /\ r.1 <= scl_max_total_bytes_read limits /\ len r.2 <= scl_max_chain_depth limits.

Lemma chain_cost_snoc cs n v : chain_cost (cs ++ [recovered_prefix n v]) = chain_cost cs + prefix_cost b candidate n.
Proof. unfold chain_cost. rewrite sum_of_app. cbn. by rewrite N.add_0_r. Qed.

Lemma check_child_Ok cs n v : leads cs n -> accepted n v -> check_child cs (recovered_prefix n v) = Ok tt.
Proof.
  intros Hl Ha. pose proof (leads_child _ _ Hl) as Hc. unfold child_of_next in Hc. unfold check_child. destruct (last cs) as [child|]; [|done].
  destruct Hc as [Hp Hsq]. destruct (Hp v Ha) as (H1 & H2 & H3). rewrite (proj2 (N.eqb_eq _ _) H1), bool_decide_eq_true_2 by done.
  rewrite checked_add_fits by (rewrite <- H3; done). by rewrite H3, bool_decide_eq_true_2.
Qed.

(** The footers listed so far. *)
Definition footers_seen (cs : list RecoveredExp0002SourcePrefix) (seen : gset N) : Prop :=
  forall o, o ∈ seen -> o ∈ rp_footer_offset <$> cs.

Lemma chain_loop_gives fuel : forall cs n seen, leads cs n -> footers_seen cs seen -> scl_max_chain_depth limits < N.of_nat fuel + len cs ->
  chain_cost cs <= scl_max_total_bytes_read limits -> len cs <= scl_max_chain_depth limits ->
  gives (source_chain_loop limits fuel n (chain_cost cs) cs seen) chain_listed source_chain_refused.
Proof.
  induction fuel as [|fuel IH]; intros cs n seen Hl Hseen Hfuel Hcost Hlen; cbn [source_chain_loop]; [lia|].
  assert (Hmax : len b <= U64_MAX) by lia.
  pose proof (leads_le _ _ Hl) as Hn. apply gives_check; intros Hd; bool_facts; [apply (refused_depth cs n); [done|lia]|].
  eapply gives_bind; [by apply gives_prefix|]. intros _ <-. apply gives_lift.
  { intros e [-> He]%checked_add_exceeds. by apply (refused_width cs n). }
  intros total Ht. option_facts. apply gives_check; intros Hb; bool_facts; [by apply (refused_bytes cs n)|].
  destruct (prefix_result b candidate n) as [v|e] eqn:Ev.
  2: { intros s Hs. split; [done|]. cbn. destruct e as [e|c]; [by apply (refused_prefix cs n)|]. by apply prefix_result_io in Ev. }
  apply prefix_result_Ok in Ev as Ha; [|done|done]. rewrite <- chain_cost_snoc with (v := v) in *.
  change (sm_bind (fun s : S => (Ok v, s)) ?k) with (sm_bind (sm_ret v) k). eapply gives_bind; [by apply (gives_ret _ _ v (eq v))|]. intros _ <-.
  assert (Hfresh : vs_footer_offset v ∉ seen).
  { intros (c & Ec & Hc)%Hseen%list_elem_of_fmap. pose proof (leads_after _ _ c Hl Hc) as Hlt.
    destruct (accepted_commit n v Hn Ha) as (w & [_ Hw] & _ & Eo & _). apply validate_strict_Ok in Hw as (offs & Hsv & _).
    destruct (sv_len _ _ _ _ Hsv) as (Hlen' & _ & _). rewrite slice_len in Hlen' by lia. unfold FOOTER_LEN in *. lia. }
  unfold try_insert. rewrite bool_decide_eq_false_2 by done. cbn [ok_or]. eapply gives_known; [done|]. eapply gives_known; [by apply check_child_Ok|].
  cbn [recovered_prefix rp_previous_footer_offset rp_footer_offset]. destruct (N.eqb_spec (previous v) ABSENT_OFFSET) as [Hp|Hp].
  { apply gives_ret. split; [exists cs, n, v; done|]. cbn [fst snd]. rewrite len_app. change (len [_]) with 1. split_and!; [done|done|lia]. }
  destruct (accepted_previous n v Hn Ha Hp) as (Hle & Hn' & _). rewrite (proj2 (N.leb_gt _ _)) by (unfold FOOTER_LEN in *; lia). cbn [negb].
  eapply gives_known; [by rewrite checked_add_fits by lia|]. apply IH; [by constructor| |rewrite len_app; change (len [_]) with 1; lia|done|rewrite len_app; change (len [_]) with 1; lia].
  intros o [->%elem_of_singleton|Ho%Hseen]%elem_of_union; rewrite fmap_app; set_solver.
Qed.

Lemma chain_gives : gives (enumerate_previous_chain_at limits) source_chain_report source_chain_refused.
Proof.
  assert (Hmax : len b <= U64_MAX) by lia. unfold enumerate_previous_chain_at. apply gives_check; [intros Hc|intros _].
  { apply refused_chain_limits. revert Hc. destruct (N.eqb_spec (scl_max_chain_depth limits) 0), (N.eqb_spec (scl_max_total_bytes_read limits) 0); cbn; auto. done. }
  eapply gives_bind; [by apply gives_len|]. intros _ <-. eapply gives_bind; [apply (chain_loop_gives _ [] (len b) ∅ leads_start)|].
  - done.
  - rewrite len_nil. lia.
  - apply N.le_0_l.
  - apply N.le_0_l.
  - intros [total commits] ((cs & n & v & Hl & Ha & Hp & E) & Ht & Hb & Hd). cbn [fst snd] in *. pose proof (leads_le _ _ Hl) as Hn. apply gives_ret.
    split; cbn [sc_file_len sc_total_bytes_read sc_commits]; [done|by exists cs, n, v| | |done|done].
    + subst commits. rewrite fmap_app, (leads_sequences cs n v Hl Ha), len_app. change (len [_]) with 1.
      cbn [fmap list_fmap recovered_prefix rp_sequence]. rewrite (accepted_first n v Hn Ha Hp). rewrite (descending_snoc 0) by lia. f_equal. f_equal. lia.
    + intros i child parent. subst commits. by apply leads_linked.
Qed.
End Chain.
