(* ===== verification/Exp0002SourceVersion.v ===== *)
(** A source of one version ([exp0002_source_version.rs]): the adapter asks for
    the version before and after every access, and fails when it changed. A
    pinned source presents the bytes of its version, or fails. *)

From Stdlib Require Import Strings.Byte Strings.String NArith ZArith Lia.
From stdpp Require Import base list gmap strings sorting.
From S2P Require Import Prelude Machine Exp0002SourceFacts.

Local Open Scope N_scope.

(** [Exp0002SourceVersion]: 32 bytes. *)
Record Exp0002SourceVersion : Type := mkVersion { version_bytes : bytes }.

#[export] Instance source_version_eq_dec : EqDecision Exp0002SourceVersion.
Proof. solve_decision. Defined.

(** [Exp0002VersionedReadAt] *)
Class VersionedReadAt (S : Type) `{ReadAt S} : Type := {
  version_token : S -> IO Exp0002SourceVersion * S;
}.

(** [Exp0002StableSource] *)
Record Exp0002StableSource (S : Type) : Type := mkStable {
  vr_inner : S;
  vr_expected : Exp0002SourceVersion;
}.
Arguments mkStable {S}.
Arguments vr_inner {S}.
Arguments vr_expected {S}.

Section Stable.
Context {S : Type} `{VersionedReadAt S}.

(** [Exp0002StableSource::new] *)
Definition stable_new (inner : S) : IO (Exp0002StableSource S) :=
  let '(r, inner) := version_token inner in
  let* expected := r in
  Ok (mkStable inner expected).

(** [expected_version] and [into_inner] *)
Definition expected_version (s : Exp0002StableSource S) : Exp0002SourceVersion := vr_expected s.
Definition into_inner (s : Exp0002StableSource S) : S := vr_inner s.

(** [ensure_stable] *)
Definition ensure_stable (s : Exp0002StableSource S) : IO unit * Exp0002StableSource S :=
  let '(r, inner) := version_token (vr_inner s) in
  (match r with
   | Err e => Err e
   | Ok actual => if decide (actual = vr_expected s) then Ok tt else Err InvalidData
   end, mkStable inner (vr_expected s)).

(** An access between two checks. *)
Definition between_checks {A} (access : S -> IO A * S) (s : Exp0002StableSource S) : IO A * Exp0002StableSource S :=
  match ensure_stable s with
  | (Err e, s) => (Err e, s)
  | (Ok _, s) =>
      let '(r, inner) := access (vr_inner s) in
      let s := mkStable inner (vr_expected s) in
      match r with
      | Err e => (Err e, s)
      | Ok a => let '(r, s) := ensure_stable s in (match r with Ok _ => Ok a | Err e => Err e end, s)
      end
  end.

#[export] Instance stable_read_at : ReadAt (Exp0002StableSource S) := {
  source_len := between_checks source_len;
  read_exact_at s offset n := between_checks (fun inner => read_exact_at inner offset n) s;
}.
End Stable.

(** What is asked of a storage system: a version names immutable bytes, and
    what is answered between two equal versions is of the bytes it names. *)
Class StrongVersions (S : Type) `{VersionedReadAt S} (content : Exp0002SourceVersion -> bytes) : Prop := {
  strong_len s t s1 n s2 : version_token s = (Ok t, s1) -> source_len s1 = (Ok n, s2) -> (version_token s2).1 = Ok t ->
    n = len (content t);
  strong_read s t s1 offset n x s2 : version_token s = (Ok t, s1) -> read_exact_at s1 offset n = (Ok x, s2) -> (version_token s2).1 = Ok t ->
    offset + n <= len (content t) -> x = slice (content t) offset (offset + n);
}.

Section Versions.
Context {S : Type} `{VersionedReadAt S}.

Lemma ensure_stable_Ok (s : Exp0002StableSource S) u s' : ensure_stable s = (Ok u, s') ->
  exists inner, version_token (vr_inner s) = (Ok (vr_expected s), inner) /\ s' = mkStable inner (vr_expected s).
Proof.
  unfold ensure_stable. destruct (version_token (vr_inner s)) as [[t|e] inner]; [|done]. destruct (decide _) as [->|]; [|done].
  intros [= _ <-]. by exists inner.
Qed.

Lemma ensure_stable_expected (s : Exp0002StableSource S) : vr_expected (ensure_stable s).2 = vr_expected s.
Proof. unfold ensure_stable. by destruct (version_token (vr_inner s)) as [[t|e] inner]. Qed.

(** An access keeps the version that is expected, and lets through only what
    was answered between two checks. *)
Lemma between_checks_expected {A} (access : S -> IO A * S) s : vr_expected (between_checks access s).2 = vr_expected s.
Proof.
  unfold between_checks. pose proof (ensure_stable_expected s) as E. destruct (ensure_stable s) as [[[]|e] s1]; [|done]. cbn in E.
  destruct (access (vr_inner s1)) as [[a|e] inner]; [|done]. pose proof (ensure_stable_expected (mkStable inner (vr_expected s1))) as E2.
  destruct (ensure_stable _) as [r s2]. cbn in *. congruence.
Qed.

Lemma between_checks_Ok {A} (access : S -> IO A * S) s a : (between_checks access s).1 = Ok a ->
  exists s1 s2, version_token (vr_inner s) = (Ok (vr_expected s), s1) /\ access s1 = (Ok a, s2) /\ (version_token s2).1 = Ok (vr_expected s).
Proof.
  unfold between_checks. destruct (ensure_stable s) as [[[]|e] s'] eqn:E1; [|done]. apply ensure_stable_Ok in E1 as (s1 & Ht & ->). cbn [vr_inner vr_expected].
  destruct (access s1) as [[x|e] s2] eqn:Ea; [|done]. destruct (ensure_stable _) as [[[]|e] s''] eqn:E2; [|done]. apply ensure_stable_Ok in E2 as (s3 & Ht2 & _).
  cbn in Ht2. intros [= <-]. exists s1, s2. by rewrite Ht2.
Qed.

Context (content : Exp0002SourceVersion -> bytes) `{!StrongVersions S content}.

(** The source expects [t], whose bytes are [b]. *)
Definition pinned (t : Exp0002SourceVersion) (s : Exp0002StableSource S) (b : bytes) : Prop := vr_expected s = t /\ content t = b.

#[export] Instance pinned_presents t : PresentsSource (Exp0002StableSource S) (pinned t) False.
Proof.
  split.
  - intros s b [Hs Hc] Hb. cbn. unfold pinned. rewrite between_checks_expected. split; [done|].
    destruct (between_checks source_len s).1 as [n|e] eqn:E; [|tauto]. apply between_checks_Ok in E as (s1 & s2 & Ht & Ha & Ht2).
    rewrite Hs in Ht, Ht2. rewrite <- Hc. by eapply strong_len.
  - intros s b offset n [Hs Hc] Hb Hr. cbn. unfold pinned. rewrite between_checks_expected. split; [done|].
    destruct (between_checks _ s).1 as [x|e] eqn:E; [|tauto]. apply between_checks_Ok in E as (s1 & s2 & Ht & Ha & Ht2).
    rewrite Hs in Ht, Ht2. rewrite <- Hc in Hr |- *. by eapply strong_read.
Qed.
End Versions.
