(* ===== verification/Exp0002SourceTheorems.v ===== *)
(** EXP-0002 files behind a source: what validation, recovery and the chain of
    previous commits promise whatever the source is, and what they ask of it. *)

From Stdlib Require Import Strings.Byte Strings.String NArith ZArith Lia.
From stdpp Require Import base list gmap strings sorting.
From S2P Require Import Prelude Order Digest Machine Source SourceFacts Recovery Exp0002 Exp0002File Exp0002Pages Exp0002Strict Exp0002Theorems Exp0002Recovery Exp0002Readers.
From S2P Require Import Exp0002Lookup Exp0002Source Exp0002SourceStrict Exp0002SourceFacts Exp0002SourceStrictFacts Exp0002SourceLookupFacts Exp0002SourceBounds Exp0002SourceRecovery Exp0002SourceRecoveryFacts Exp0002SourceChain Exp0002SourceVersion.

Local Open Scope N_scope.

(** ** Validation *)

Section Validation.
Context `{H : Sha256} {S : Type} `{ReadAt S} (presents : S -> bytes -> Prop) `{!StableSource S presents}.

(** C2. Validation through a source implements its specification. Over any
    source that presents the bytes of a file, [validate_strict_at] succeeds
    exactly when the limits are sound, the file is valid with its pages apart
    and the bounds of children exact, and what its validation costs in reads,
    bytes, hashing and pages fits the limits; it then reports the file and
    exactly that cost. What it accepts, [validate_strict] accepts in memory with
    the same contents. *)
Theorem source_validation_exact b limits s : presents s b -> len b <= U64_MAX ->
  (forall v, (validate_strict_at s limits).1 = Ok v <-> source_accepted b limits v) /\
  presents (validate_strict_at s limits).2 b /\
  forall v, (validate_strict_at s limits).1 = Ok v ->
    exists w, validate_strict b (so_validation limits) = Ok w /\ v = source_report w (strict_cost limits w).
Proof.
  intros Hs Hmax. split_and!; [by intros v; apply (validate_strict_at_Ok presents)|by apply (validate_strict_at_exact presents True)|].
  intros v (_ & w & Hw%source_valid_strict & _ & ->)%(validate_strict_at_Ok presents b); [|done|done]. by exists w.
Qed.
End Validation.

(** The file of two objects, in five reads and one page, each page of it hashed. *)
Lemma source_validation_exact_witness : exists v,
  (validate_strict_at (H := cheap_sha) (mkSliceSource example_file) default_source_limits).1 = Ok v /\
  source_accepted (H := cheap_sha) example_file default_source_limits v /\ ss_pages_read (vs_stats v) = 1 /\
  (validate_strict_at (H := cheap_sha) (mkSliceSource example_file) (mkSourceLimits default_validation_limits 16000 100 65536 65536 32)).1 =
    Err (SourceFormat (ResourceLimit "source bytes read")).
Proof.
  assert (Hv : match (validate_strict_at (H := cheap_sha) (mkSliceSource example_file) default_source_limits).1 with
    | Ok v => ss_pages_read (vs_stats v) =? 1 | Err _ => false end = true) by (vm_compute; reflexivity).
  assert (He : (validate_strict_at (H := cheap_sha) (mkSliceSource example_file) (mkSourceLimits default_validation_limits 16000 100 65536 65536 32)).1 =
    Err (SourceFormat (ResourceLimit "source bytes read"))) by (vm_compute; reflexivity).
  assert (Hmax : len example_file <= U64_MAX) by (apply N.leb_le; vm_compute; reflexivity).
  revert Hv He Hmax. generalize example_file. intros b Hv He Hmax.
  pose proof (source_validation_exact (H := cheap_sha) (fun s b => slice_bytes s = b) b default_source_limits (mkSliceSource b) eq_refl Hmax) as [Hex _].
  destruct (validate_strict_at (H := cheap_sha) (mkSliceSource b) default_source_limits).1 as [v|e]; [|discriminate Hv].
  exists v. split_and!; [reflexivity|by apply Hex|by apply N.eqb_eq|exact He].
Defined.

(** ** Lookup *)

(** C17. Lookup through a source agrees with the lookup in memory. Over any
    source that presents the bytes of a file, [lookup_authenticated_at]
    succeeds exactly when the limits are sound, [lookup_authenticated] succeeds
    on the file under the same limits, and what the lookup costs fits: the
    header, the footer and its parent read once, the commit and the snapshot
    hashed in blocks, the pages of one path, and the record. It then gives the
    object that the other one finds, or none when that finds none, with exactly
    that cost. *)
Theorem source_lookup_exact `{H : Sha256} {S : Type} `{ReadAt S} (presents : S -> bytes -> Prop) `{!StableSource S presents} b limits object_id s :
  presents s b -> len b <= U64_MAX ->
  (forall r, (lookup_authenticated_at s object_id limits).1 = Ok r <-> lookup_given b limits object_id r) /\
  presents (lookup_authenticated_at s object_id limits).2 b.
Proof.
  intros Hs Hmax. destruct (lookup_authenticated_at_exact presents True b limits object_id s Hs Hmax) as [Hp Hr]. split; [|done].
  intros r. destruct (lookup_authenticated_at s object_id limits).1 as [r'|[e|c]]; [|split; [done|]; intros Hg; by destruct (Hr r)|done].
  split; [by intros [= <-]|]. intros Hg. f_equal. by eapply lookup_given_unique.
Qed.

(** Object 3 of the file of two, in seven reads and one page; the same lookup
    with room for six reads only. *)
Lemma source_lookup_exact_witness : exists found,
  (lookup_authenticated_at (H := cheap_sha) (mkSliceSource example_file) 3 default_source_limits).1 = Ok (Some found) /\
  sk_payload_len found = 5 /\ ss_read_operations (sk_stats found) = 7 /\
  lookup_given (H := cheap_sha) example_file default_source_limits 3 (Some found) /\
  (lookup_authenticated_at (H := cheap_sha) (mkSliceSource example_file) 3 (mkSourceLimits default_validation_limits 100000 6 65536 65536 32)).1 =
    Err (SourceFormat (ResourceLimit "source read operations")).
Proof.
  assert (Hv : match (lookup_authenticated_at (H := cheap_sha) (mkSliceSource example_file) 3 default_source_limits).1 with
    | Ok (Some found) => (sk_payload_len found =? 5) && (ss_read_operations (sk_stats found) =? 7) | _ => false end = true) by (vm_compute; reflexivity).
  assert (He : (lookup_authenticated_at (H := cheap_sha) (mkSliceSource example_file) 3 (mkSourceLimits default_validation_limits 100000 6 65536 65536 32)).1 =
    Err (SourceFormat (ResourceLimit "source read operations"))) by (vm_compute; reflexivity).
  assert (Hmax : len example_file <= U64_MAX) by (apply N.leb_le; vm_compute; reflexivity).
  revert Hv He Hmax. generalize example_file. intros b Hv He Hmax.
  pose proof (source_lookup_exact (H := cheap_sha) (fun s b => slice_bytes s = b) b default_source_limits 3 (mkSliceSource b) eq_refl Hmax) as [Hex _].
  destruct (lookup_authenticated_at (H := cheap_sha) (mkSliceSource b) 3 default_source_limits).1 as [[found|]|e]; [|discriminate Hv|discriminate Hv].
  apply andb_true_iff in Hv as [Hv1%N.eqb_eq Hv2%N.eqb_eq]. exists found. split_and!; [reflexivity|exact Hv1|exact Hv2|by apply Hex|exact He].
Defined.

(** C13. Whatever a source answers, validation and lookup stay within their
    budget. With a source that logs the reads, the result is the same as
    without; every read lies within the length the source gave and is no larger
    than one request may be; their number and their sum are within the limits;
    and a result that is given counts exactly the reads that were made. *)
Theorem source_reads_bounded `{Sha256} {S} `{ReadAt S} (s : S) (limits : Exp0002SourceLimits) (object_id : N) :
  let validation := validate_strict_at (mkLogged s []) limits in
  let lookup := lookup_authenticated_at (mkLogged s []) object_id limits in
  validation.1 = (validate_strict_at s limits).1 /\ reads_bounded limits s (lg_log validation.2) /\
  (forall v, validation.1 = Ok v -> counts_reads (vs_stats v) (lg_log validation.2)) /\
  lookup.1 = (lookup_authenticated_at s object_id limits).1 /\ reads_bounded limits s (lg_log lookup.2) /\
  (forall found, lookup.1 = Ok (Some found) -> counts_reads (sk_stats found) (lg_log lookup.2)).
Proof.
  cbv zeta. destruct (validate_reads limits s) as (? & ? & ?), (lookup_reads limits s object_id) as (? & ? & ?). split_and!; done.
Qed.

(** ** Versions *)

(** C10. A validation over a source pinned to a version is of the bytes of that
    version. When versions name immutable bytes, whatever happens to the source
    during the call, a report is that of a valid file made of exactly the bytes
    the version names, a format error says that those bytes are not a file that
    fits the limits, and any other change ends in an error of the source. *)
Theorem pinned_validation_one_version `{H : Sha256} {S} `{VersionedReadAt S} (content : Exp0002SourceVersion -> bytes) `{!StrongVersions S content}
    (inner : S) src limits : stable_new inner = Ok src -> len (content (expected_version src)) <= U64_MAX ->
  (version_token inner).1 = Ok (expected_version src) /\
  expected_version (validate_strict_at src limits).2 = expected_version src /\
  match (validate_strict_at src limits).1 with
  | Ok v => source_accepted (content (expected_version src)) limits v
  | Err (SourceFormat _) => forall v, ~ source_accepted (content (expected_version src)) limits v
  | Err (SourceIo _) => True
  end.
Proof.
  intros Hn Hmax. split; [unfold stable_new in Hn; destruct (version_token inner) as [[t|e] i]; [by injection Hn as <-|done]|].
  destruct (validate_strict_at_exact (pinned content (expected_version src)) False (content (expected_version src)) limits src) as [[Hp _] Hv]; [done|done|].
  split; [exact Hp|]. destruct (validate_strict_at src limits).1 as [v|[e|c]]; done.
Qed.

(** The source of the tests of [exp0002_source_version.rs]: bytes that are
    replaced, under another version, after a number of reads. *)
Record VersionedBytes (b : bytes) : Type := mkVersioned { vb_reads : N; vb_mutate_after : N }.
Arguments mkVersioned {b}.
Arguments vb_reads {b}.
Arguments vb_mutate_after {b}.

Definition first_version : Exp0002SourceVersion := mkVersion [x07].
Definition vb_version {b} (s : VersionedBytes b) : Exp0002SourceVersion :=
  if vb_reads s <? vb_mutate_after s then first_version else mkVersion [x09].
Definition version_content (b : bytes) (t : Exp0002SourceVersion) : bytes := if decide (t = first_version) then b else [].

#[export] Instance versioned_bytes_read_at b : ReadAt (VersionedBytes b) := {
  source_len s := (Ok (len (version_content b (vb_version s))), s);
  read_exact_at s offset n :=
    (match get_range (version_content b (vb_version s)) offset (offset + n) with Some x => Ok x | None => Err UnexpectedEof end,
     mkVersioned (vb_reads s + 1) (vb_mutate_after s));
}.
#[export] Instance versioned_bytes_token b : VersionedReadAt (VersionedBytes b) := { version_token s := (Ok (vb_version s), s) }.

#[export] Instance versioned_bytes_strong b : StrongVersions (VersionedBytes b) (version_content b).
Proof.
  split.
  - intros s t s1 n s2 [= <- <-] [= <- <-] _. done.
  - intros s t s1 offset n x s2 [= <- <-] Hr _ Hl. cbn in Hr. unfold get_range in Hr. injection Hr as Hr _.
    rewrite !(proj2 (N.leb_le _ _)) in Hr by lia. cbn in Hr. injection Hr as <-. done.
Qed.

(** A validation over the source that changes after a hundred reads reports the
    file; over the one that changes after three it fails, with no report. *)
Lemma pinned_validation_one_version_witness : exists v,
  (validate_strict_at (H := cheap_sha) (mkStable (mkVersioned (b := example_file) 0 100) first_version) default_source_limits).1 = Ok v /\
  source_accepted (H := cheap_sha) example_file default_source_limits v /\
  (validate_strict_at (H := cheap_sha) (mkStable (mkVersioned (b := example_file) 0 3) first_version) default_source_limits).1 =
    Err (SourceIo "snapshot").
Proof.
  assert (Hv : is_ok (validate_strict_at (H := cheap_sha) (mkStable (mkVersioned (b := example_file) 0 100) first_version) default_source_limits).1 = true)
    by (vm_compute; reflexivity).
  assert (He : (validate_strict_at (H := cheap_sha) (mkStable (mkVersioned (b := example_file) 0 3) first_version) default_source_limits).1 =
    Err (SourceIo "snapshot")) by (vm_compute; reflexivity).
  assert (Hmax : len example_file <= U64_MAX) by (apply N.leb_le; vm_compute; reflexivity).
  revert Hv He Hmax. generalize example_file. intros b Hv He Hmax.
  pose proof (pinned_validation_one_version (H := cheap_sha) (version_content b) (mkVersioned 0 100) (mkStable (mkVersioned 0 100) first_version)
    default_source_limits eq_refl Hmax) as (_ & _ & Hp).
  destruct (validate_strict_at (H := cheap_sha) (mkStable (mkVersioned (b := b) 0 100) first_version) default_source_limits).1 as [v|e]; [|discriminate Hv].
  exists v. split_and!; [reflexivity|exact Hp|exact He].
Defined.

(** ** Recovery *)

Section Recover.
Context `{H : Sha256} {S : Type} `{ReadAt S} (presents : S -> bytes -> Prop) `{!StableSource S presents}.

(** C14. Recovery through a source finds every prefix that validates and no
    other. Over any source that presents the bytes of a file, the scan ends
    with a report of exactly the prefixes that the source validation accepts and
    whose footers start in the window, each once, the last first, each with the
    cost of its own validation; it counts the reads of the window, the matches,
    the candidates, and every byte that candidates asked for, accepted or not,
    all within the limits. Otherwise it names the limit that allows nothing or
    that the counts exceed. *)
Theorem source_recovery_exact b limits s : presents s b -> len b + FOOTER_LEN <= U64_MAX ->
  presents (scan_valid_prefixes_at limits s).2 b /\
  match (scan_valid_prefixes_at limits s).1 with
  | Ok rep => source_scan_report b limits rep
  | Err (SourceFormat e) => source_scan_refused b limits e
  | Err (SourceIo _) => False
  end.
Proof. intros Hs Hroom. exact (scan_gives b limits presents Hroom s Hs). Qed.

(** C29. The previous commits through a source. Over any source that presents
    the bytes of a file, the enumeration ends: with the commits from the one at
    the end of the file back to the first, one for each sequence number, each a
    prefix that the source validation accepts and the parent that the one
    before it names by footer, digest and sequence, and with every byte their
    validations asked for, within the limits; or with the limit that is
    exceeded on the way back, or the error of a prefix that does not validate. *)
Theorem source_chain_exact b limits s : presents s b -> len b + FOOTER_LEN <= U64_MAX ->
  presents (enumerate_previous_chain_at limits s).2 b /\
  match (enumerate_previous_chain_at limits s).1 with
  | Ok rep => source_chain_report b limits rep
  | Err (SourceFormat e) => source_chain_refused b limits e
  | Err (SourceIo _) => False
  end.
Proof. intros Hs Hroom. exact (chain_gives b limits presents Hroom s Hs). Qed.
End Recover.

(** A scan of the last 168 bytes of the file extended by a commit finds it. *)
Definition example_source_window : Exp0002SourceRecoveryLimits := mkSourceRecoveryLimits default_source_limits 168 4 4 4 4 1000000.

Lemma source_recovery_exact_witness : exists rep,
  (scan_valid_prefixes_at (H := cheap_sha) example_source_window (mkSliceSource example_extended)).1 = Ok rep /\
  rp_sequence <$> rv_results rep = [1] /\ source_scan_report (H := cheap_sha) example_extended example_source_window rep.
Proof.
  assert (Hv : match (scan_valid_prefixes_at (H := cheap_sha) example_source_window (mkSliceSource example_extended)).1 with
    | Ok rep => bool_decide (rp_sequence <$> rv_results rep = [1]) | Err _ => false end = true) by (vm_compute; reflexivity).
  assert (Hmax : len example_extended + FOOTER_LEN <= U64_MAX) by (apply N.leb_le; vm_compute; reflexivity).
  revert Hv Hmax. generalize example_extended. intros b Hv Hmax.
  pose proof (source_recovery_exact (H := cheap_sha) (fun s b => slice_bytes s = b) b example_source_window (mkSliceSource b) eq_refl Hmax) as [_ Hr].
  destruct (scan_valid_prefixes_at (H := cheap_sha) example_source_window (mkSliceSource b)).1 as [rep|e]; [|discriminate Hv].
  exists rep. split_and!; [reflexivity|by apply bool_decide_eq_true in Hv|exact Hr].
Defined.

(** Its two commits. *)
Lemma source_chain_exact_witness : exists rep,
  (enumerate_previous_chain_at (H := cheap_sha) default_source_chain_limits (mkSliceSource example_extended)).1 = Ok rep /\
  rp_sequence <$> sc_commits rep = [1; 0] /\ source_chain_report (H := cheap_sha) example_extended default_source_chain_limits rep.
Proof.
  assert (Hv : match (enumerate_previous_chain_at (H := cheap_sha) default_source_chain_limits (mkSliceSource example_extended)).1 with
    | Ok rep => bool_decide (rp_sequence <$> sc_commits rep = [1; 0]) | Err _ => false end = true) by (vm_compute; reflexivity).
  assert (Hmax : len example_extended + FOOTER_LEN <= U64_MAX) by (apply N.leb_le; vm_compute; reflexivity).
  revert Hv Hmax. generalize example_extended. intros b Hv Hmax.
  pose proof (source_chain_exact (H := cheap_sha) (fun s b => slice_bytes s = b) b default_source_chain_limits (mkSliceSource b) eq_refl Hmax) as [_ Hr].
  destruct (enumerate_previous_chain_at (H := cheap_sha) default_source_chain_limits (mkSliceSource b)).1 as [rep|e]; [|discriminate Hv].
  exists rep. split_and!; [reflexivity|by apply bool_decide_eq_true in Hv|exact Hr].
Defined.
