(* ===== verification/Immutable.v ===== *)
(** The immutable-page successor format over bytes in memory
    ([crates/ucof-experiments/src/immutable_successor/part1.rs] to [part5.rs],
    [history.rs], [occupancy.rs], [freshness.rs], [batch.rs] and [rewrite.rs],
    which [immutable_successor.rs] includes into one module). The readers:
    strict validation, the history of commits, the recovery scan, the canonical
    occupancy of pages and the comparison with a trusted checkpoint. The
    writers: objects, pages and the tree over them, the publication of a
    commit, a genesis, a batch that rebuilds the directory, and the rewrite of
    selected objects. A function that takes [&mut Vec<u8>] is a function to the
    bytes after it. *)

From Stdlib Require Import Strings.Byte Strings.String NArith ZArith Lia.
From stdpp Require Import base list gmap strings sorting.
From S2P Require Import Prelude Order Digest.

Local Open Scope N_scope.

Definition FILE_HEADER_LEN : N := 64.
Definition OBJECT_HEADER_LEN : N := 48.
Definition PAGE_SIZE : N := 16 * 1024.
Definition PAGE_HEADER_LEN : N := 64.
Definition LEAF_ENTRY_LEN : N := 88.
Definition INTERNAL_ENTRY_LEN : N := 64.
Definition SNAPSHOT_LEN : N := 96.
Definition FOOTER_LEN : N := 128.
Definition ABSENT_OFFSET : N := U64_MAX.
Definition LEAF_CAPACITY : N := (PAGE_SIZE - PAGE_HEADER_LEN) / LEAF_ENTRY_LEN.
Definition INTERNAL_FANOUT : N := (PAGE_SIZE - PAGE_HEADER_LEN) / INTERNAL_ENTRY_LEN.

Definition FILE_MAGIC : bytes := as_bytes "UCOFIM02".
Definition OBJECT_MAGIC : bytes := as_bytes "UCOBOBJ2".
Definition PAGE_MAGIC : bytes := as_bytes "UCPGIM02".
Definition SNAPSHOT_MAGIC : bytes := as_bytes "UCSNIM02".
Definition FOOTER_MAGIC : bytes := as_bytes "UCFTIM02".

Definition OBJECT_DOMAIN : bytes := as_bytes "UCOF-IMMUTABLE-OBJECT" ++ [Byte.x00].
Definition PAGE_DOMAIN : bytes := as_bytes "UCOF-IMMUTABLE-PAGE" ++ [Byte.x00].
Definition SNAPSHOT_DOMAIN : bytes := as_bytes "UCOF-IMMUTABLE-SNAPSHOT" ++ [Byte.x00].
Definition COMMIT_DOMAIN : bytes := as_bytes "UCOF-IMMUTABLE-COMMIT" ++ [Byte.x00].

Inductive ImmutableError : Type :=
  | Invalid (label : string)
  | Limit (label : string)
  | MissingObject (object_id : N)
  | DuplicateObject (object_id : N).

(** A call that does not return a value returns an error or panics; overflow
    of unchecked arithmetic panics. *)
Inductive Failure : Type :=
  | Refused (e : ImmutableError)
  | Panicked.

Abbreviation I := (result Failure).
Abbreviation invalid label := (Refused (Invalid label)).
Abbreviation limit label := (Refused (Limit label)).

Record ImmutableLimits : Type := mkImmutableLimits {
  max_file_bytes : N;
  max_objects : N;
  max_pages : N;
  max_depth : N;
  max_allocation_bytes : N;
  max_output_bytes : N;
  max_history_entries : N;
  max_recovery_scan_bytes : N;
  max_recovery_attempts : N;
  max_recovery_candidates : N;
}.

Definition default_immutable_limits : ImmutableLimits :=
  mkImmutableLimits (512 * 1024 * 1024) 1000000 100000 8 (128 * 1024 * 1024) (512 * 1024 * 1024) 1024 (4 * 1024 * 1024) 4096 64.

Record ImmutableObjectInput : Type := mkInput {
  in_object_id : N;
  in_kind : N;
  in_payload : bytes;
}.

Record ImmutableReport : Type := mkReport {
  rp_sequence : N;
  rp_object_count : N;
  rp_page_count : N;
  rp_root_level : N;
  rp_snapshot_digest : bytes;
  rp_commit_digest : bytes;
}.

Record ImmutableHistoryEntry : Type := mkHistoryEntry {
  he_footer_offset : N;
  he_report : ImmutableReport;
}.

Record ImmutableRecoveryCandidate : Type := mkCandidate {
  rc_footer_offset : N;
  rc_prefix_len : N;
  rc_report : ImmutableReport;
}.

Record ImmutableRecoveryReport : Type := mkRecoveryReport {
  rr_scan_start : N;
  rr_scanned_bytes : N;
  rr_attempted_footers : N;
  rr_attempts_truncated : bool;
  rr_candidates_truncated : bool;
  rr_candidates : list ImmutableRecoveryCandidate;
}.

Record Locator : Type := mkLocator {
  lo_object_id : N;
  lo_kind : N;
  lo_record_offset : N;
  lo_record_len : N;
  lo_logical_len : N;
  lo_digest : bytes;
}.

Record PageRef : Type := mkPageRef {
  pr_minimum : N;
  pr_maximum : N;
  pr_offset : N;
  pr_level : N;
  pr_digest : bytes;
}.

Record Footer : Type := mkFooter {
  ft_sequence : N;
  ft_snapshot_offset : N;
  ft_snapshot_len : N;
  ft_previous_footer_offset : N;
  ft_page_count_current : N;
  ft_snapshot_digest : bytes;
  ft_commit_digest : bytes;
}.

Record InternalReport : Type := mkInternalReport {
  ir_public : ImmutableReport;
  ir_locators : list Locator;
  ir_footer_offset : N;
}.

#[export] Instance locator_eq_dec : EqDecision Locator.
Proof. solve_decision. Defined.
#[export] Instance page_ref_eq_dec : EqDecision PageRef.
Proof. solve_decision. Defined.

(** ** Reading bytes *)

(** [checked_range]: the bytes of the range. *)
Definition checked_range (data : bytes) (offset length : N) (label : string) : I bytes :=
  let* end_ := ok_or (checked_add offset length) (invalid label) in
  ok_or (get_range data offset end_) (invalid label).

(** [array::<n>] *)
Definition array (n : N) (data : bytes) (offset : N) (label : string) : I bytes := checked_range data offset n label.

Definition u16_at (data : bytes) (offset : N) (label : string) : I N := let* a := array 2 data offset label in Ok (le_decode a).
Definition u32_at (data : bytes) (offset : N) (label : string) : I N := let* a := array 4 data offset label in Ok (le_decode a).
Definition u64_at (data : bytes) (offset : N) (label : string) : I N := let* a := array 8 data offset label in Ok (le_decode a).

Definition usize_from_u64 (value : N) (label : string) : I N := ok_or (try_u64 value) (invalid label).
Definition usize_at (data : bytes) (offset : N) (label : string) : I N :=
  let* value := u64_at data offset label in usize_from_u64 value label.
Definition u64_from_usize (value : N) : I N := ok_or (try_u64 value) (limit "integer conversion").

(** [data[offset]] of a page or a byte of a record, within its length. *)
Definition byte_at (data : bytes) (offset : N) : N := le_decode (slice data offset (offset + 1)).

(** [data.iter().any(|byte| *byte != 0)] *)
Definition nonzero (data : bytes) : bool := existsb (fun x => negb (bool_decide (x = Byte.x00))) data.

(** [digest(&[parts...])] *)
Definition digest `{Sha256} (parts : list bytes) : bytes := hasher_finalize (foldl hasher_update hasher_new parts).

(** [std::mem::size_of] of the structures whose layout the compiler chooses. *)
Class Layout : Type := {
  size_of_locator : N;
  size_of_page_ref : N;
  size_of_history_entry : N;
  size_of_recovery_candidate : N;
  size_of_object_input : N;
}.

(** [allocation_check::<T>], of a [T] of [size] bytes. *)
Definition allocation_check (size count : N) (limits : ImmutableLimits) : I unit :=
  let* total := ok_or (checked_mul count size) (limit "allocation") in
  check negb (max_allocation_bytes limits <? total) else limit "allocation" in
  Ok tt.

(** [pairs.windows(2).any(|pair| bad(pair[0], pair[1]))] *)
Definition any_window {A} (bad : A -> A -> bool) (values : list A) : bool :=
  negb (is_ok (check_windows (fun x y => if bad x y then Some tt else None) values)).

(** [ranges.iter().any(|(start, stop)| offset < *stop && *start < end)] *)
Definition overlaps_some (offset end_ : N) (ranges : list (N * N)) : bool :=
  existsb (fun range => (offset <? range.2) && (range.1 <? end_)) ranges.

(** ** Footers and pages *)

Definition parse_footer (data : bytes) (offset : N) : I Footer :=
  let* raw := checked_range data offset FOOTER_LEN "footer" in
  check bool_decide (slice raw 0 8 = FOOTER_MAGIC) && negb (nonzero (slice raw 112 (len raw))) else invalid "footer" in
  let* sequence := u64_at raw 8 "footer" in
  let* snapshot_offset := u64_at raw 16 "footer" in
  let* snapshot_len := u64_at raw 24 "footer" in
  let* previous_footer_offset := u64_at raw 32 "footer" in
  let* page_count_current := u64_at raw 40 "footer" in
  let* snapshot_digest := array 32 raw 48 "footer" in
  let* commit_digest := array 32 raw 80 "footer" in
  Ok (mkFooter sequence snapshot_offset snapshot_len previous_footer_offset page_count_current snapshot_digest commit_digest).

(** [copy_from_slice] of [value] at [offset], where there is room. *)
Definition put (data : bytes) (offset : N) (value : bytes) : bytes :=
  take (N.to_nat offset) data ++ value ++ drop (N.to_nat offset + length value) data.
Definition put_u16 (data : bytes) (offset value : N) : bytes := put data offset (le_encode 2 value).
Definition put_u32 (data : bytes) (offset value : N) : bytes := put data offset (le_encode 4 value).
Definition put_u64 (data : bytes) (offset value : N) : bytes := put data offset (le_encode 8 value).

Definition footer_semantics (footer : Footer) : bytes :=
  let result := zeros 72 in
  let result := put_u64 result 0 (ft_sequence footer) in
  let result := put_u64 result 8 (ft_snapshot_offset footer) in
  let result := put_u64 result 16 (ft_snapshot_len footer) in
  let result := put_u64 result 24 (ft_previous_footer_offset footer) in
  let result := put_u64 result 32 (ft_page_count_current footer) in
  put result 40 (ft_snapshot_digest footer).

Definition root_reference (data snapshot : bytes) (limits : ImmutableLimits) : I PageRef :=
  let* root_offset := usize_at snapshot 16 "snapshot root" in
  let* root_level := u64_at snapshot 24 "snapshot root" in
  check root_level <=? 255 else invalid "snapshot root level" in
  check negb (max_depth limits <? root_level) else limit "page depth" in
  let* page := checked_range data root_offset PAGE_SIZE "root page" in
  let* minimum := u64_at page 20 "root page" in
  let* maximum := u64_at page 28 "root page" in
  let* offset := u64_from_usize root_offset in
  let* root_digest := array 32 snapshot 32 "snapshot root" in
  Ok (mkPageRef minimum maximum offset root_level root_digest).

(** The collections of the traversal; the head of the stack is its top. *)
Record Traversal : Type := mkTraversal {
  tv_seen : gset N;
  tv_stack : list PageRef;
  tv_locators : list Locator;
  tv_ranges : list (N * N);
}.

Definition parse_leaf_entry (page : bytes) (index : N) : I Locator :=
  let entry := PAGE_HEADER_LEN + index * LEAF_ENTRY_LEN in
  let* object_id := u64_at page entry "leaf entry" in
  let* kind := u16_at page (entry + 8) "leaf entry" in
  check negb ((object_id =? 0) || (kind =? 0) || nonzero (slice page (entry + 10) (entry + 16))
              || nonzero (slice page (entry + 72) (entry + 88))) else invalid "leaf entry" in
  let* record_offset := u64_at page (entry + 16) "leaf entry" in
  let* record_len := u64_at page (entry + 24) "leaf entry" in
  let* logical_len := u64_at page (entry + 32) "leaf entry" in
  let* digest := array 32 page (entry + 40) "leaf entry" in
  Ok (mkLocator object_id kind record_offset record_len logical_len digest).

Definition parse_child_entry (page : bytes) (level index : N) : I PageRef :=
  let entry := PAGE_HEADER_LEN + index * INTERNAL_ENTRY_LEN in
  let* child_minimum := u64_at page entry "child entry" in
  let* child_maximum := u64_at page (entry + 8) "child entry" in
  let* child_len := usize_at page (entry + 24) "child entry" in
  check negb ((child_maximum <? child_minimum) || negb (child_len =? PAGE_SIZE)) else invalid "child entry" in
  let* offset := u64_at page (entry + 16) "child entry" in
  let* digest := array 32 page (entry + 32) "child entry" in
  Ok (mkPageRef child_minimum child_maximum offset (level - 1) digest).

(** [for index in 0..count] collecting what [f] reads. *)
Definition for_entries {A} (f : N -> I A) (count : N) : I (list A) :=
  map_result (fun index => f (N.of_nat index)) (seq 0 (N.to_nat count)).

Definition locators_unordered (locators : list Locator) : bool :=
  any_window (fun x y => lo_object_id y <=? lo_object_id x) locators.
Definition references_unordered (references : list PageRef) : bool :=
  any_window (fun x y => pr_minimum y <=? pr_maximum x) references.

Section Pages.
Context `{Sha256} `{Layout}.

Definition parse_leaf (page : bytes) (level entry_size count minimum maximum : N) (limits : ImmutableLimits) (tv : Traversal) : I Traversal :=
  check (level =? 0) && (entry_size =? LEAF_ENTRY_LEN) && negb (LEAF_CAPACITY <? count) else invalid "leaf shape" in
  let* total := ok_or (checked_add (len (tv_locators tv)) count) (limit "object count") in
  check negb (max_objects limits <? total) else limit "object count" in
  let* _ := allocation_check size_of_locator (len (tv_locators tv) + count) limits in
  let* added := for_entries (parse_leaf_entry page) count in
  check negb (locators_unordered added || negb (bool_decide (lo_object_id <$> head added = Some minimum))
              || negb (bool_decide (lo_object_id <$> last added = Some maximum))) else invalid "leaf order" in
  let used := PAGE_HEADER_LEN + count * LEAF_ENTRY_LEN in
  check negb (nonzero (slice page used (len page))) else invalid "leaf padding" in
  Ok (mkTraversal (tv_seen tv) (tv_stack tv) (tv_locators tv ++ added) (tv_ranges tv)).

Definition parse_internal (page : bytes) (level entry_size count minimum maximum : N) (limits : ImmutableLimits) (tv : Traversal) : I Traversal :=
  check negb (level =? 0) && (entry_size =? INTERNAL_ENTRY_LEN) && negb (INTERNAL_FANOUT <? count) else invalid "internal shape" in
  check negb (max_depth limits <? level) else limit "page depth" in
  let* _ := allocation_check size_of_page_ref (len (tv_stack tv) + count) limits in
  let* children := for_entries (parse_child_entry page level) count in
  check negb (references_unordered children || negb (bool_decide (pr_minimum <$> head children = Some minimum))
              || negb (bool_decide (pr_maximum <$> last children = Some maximum))) else invalid "child order" in
  let used := PAGE_HEADER_LEN + count * INTERNAL_ENTRY_LEN in
  check negb (nonzero (slice page used (len page))) else invalid "internal padding" in
  Ok (mkTraversal (tv_seen tv) (children ++ tv_stack tv) (tv_locators tv) (tv_ranges tv)).

(** [parse_page], of a reference off the stack. *)
Definition parse_page (data : bytes) (reference : PageRef) (snapshot_offset : N) (limits : ImmutableLimits) (tv : Traversal) : I Traversal :=
  let* offset := usize_from_u64 (pr_offset reference) "page offset" in
  check negb (offset <? FILE_HEADER_LEN) else invalid "page range" in
  let* end_ := ok_or (checked_add offset PAGE_SIZE) (invalid "page range") in
  check negb (snapshot_offset <? end_) else invalid "page range" in
  check negb (overlaps_some offset end_ (tv_ranges tv)) else invalid "page overlap" in
  check negb (max_pages limits <=? N.of_nat (size (tv_seen tv))) else limit "page count" in
  let* seen := ok_or (try_insert offset (tv_seen tv)) (invalid "page cycle") in
  let* page := checked_range data offset PAGE_SIZE "page" in
  check bool_decide (digest [PAGE_DOMAIN; page] = pr_digest reference) else invalid "page digest" in
  check bool_decide (slice page 0 8 = PAGE_MAGIC) else invalid "page header" in
  let kind := byte_at page 8 in
  let level := byte_at page 9 in
  let* reserved := u16_at page 10 "page header" in
  let* count := u32_at page 12 "page header" in
  let* entry_size := u32_at page 16 "page header" in
  let* minimum := u64_at page 20 "page header" in
  let* maximum := u64_at page 28 "page header" in
  check (reserved =? 0) && negb (nonzero (slice page 36 64)) && negb (count =? 0) else invalid "page header" in
  check (level =? pr_level reference) && (minimum =? pr_minimum reference) && (maximum =? pr_maximum reference)
    else invalid "page reference" in
  let tv := mkTraversal seen (tv_stack tv) (tv_locators tv) (tv_ranges tv ++ [(offset, end_)]) in
  if kind =? 1 then parse_leaf page level entry_size count minimum maximum limits tv
  else if kind =? 2 then parse_internal page level entry_size count minimum maximum limits tv
  else Err (invalid "page kind").

(** [while let Some(reference) = stack.pop()]; every turn adds a page to those
    seen, of which there are at most [max_pages]. *)
Fixpoint traverse (fuel : nat) (data : bytes) (snapshot_offset : N) (limits : ImmutableLimits) (tv : Traversal) : I Traversal :=
  match tv_stack tv with
  | [] => Ok tv
  | reference :: stack =>
      match fuel with
      | O => Err Panicked
      | S fuel =>
          let* tv := parse_page data reference snapshot_offset limits (mkTraversal (tv_seen tv) stack (tv_locators tv) (tv_ranges tv)) in
          traverse fuel data snapshot_offset limits tv
      end
  end.
(** ** Strict validation ([part3.rs]) *)

(** One object: the range of its record. *)
Definition check_object (data : bytes) (snapshot_offset : N) (structural_ranges : list (N * N)) (locator : Locator) : I (N * N) :=
  let* offset := usize_from_u64 (lo_record_offset locator) "object range" in
  let* length := usize_from_u64 (lo_record_len locator) "object range" in
  let* end_ := ok_or (checked_add offset length) (invalid "object range") in
  check negb ((offset <? FILE_HEADER_LEN) || (snapshot_offset <? end_)) else invalid "object range" in
  check negb (overlaps_some offset end_ structural_ranges) else invalid "object structural overlap" in
  let* record := checked_range data offset length "object" in
  check negb (length <? OBJECT_HEADER_LEN) && bool_decide (slice record 0 8 = OBJECT_MAGIC) else invalid "object header" in
  let* header_len := u16_at record 8 "object header" in
  check header_len =? OBJECT_HEADER_LEN else invalid "object header" in
  let* flags := u32_at record 12 "object header" in
  check (flags =? 0) && negb (nonzero (slice record 40 OBJECT_HEADER_LEN)) else invalid "object header" in
  let* kind := u16_at record 10 "object header" in
  let* object_id := u64_at record 16 "object header" in
  let* payload_len := usize_at record 24 "object length" in
  let* logical_len := u64_at record 32 "object length" in
  check negb ((kind =? 0) || (object_id =? 0)) else invalid "object length" in
  let* expected := ok_or (checked_add OBJECT_HEADER_LEN payload_len) (invalid "object length") in
  check expected =? length else invalid "object length" in
  let* payload_len := u64_from_usize payload_len in
  check payload_len =? logical_len else invalid "object length" in
  check (object_id =? lo_object_id locator) && (kind =? lo_kind locator) && (logical_len =? lo_logical_len locator)
    else invalid "object locator" in
  check bool_decide (digest [OBJECT_DOMAIN; record] = lo_digest locator) else invalid "object digest" in
  Ok (offset, end_).

(** [<(usize, usize) as Ord>::cmp] *)
Definition compare_ranges (x y : N * N) : comparison := then_with (N.compare x.1 y.1) (N.compare x.2 y.2).

(** The start of the commit that ends with [footer]: the parent link. *)
Definition commit_start_of (data : bytes) (footer : Footer) (snapshot_offset : N) (parent_snapshot_digest : bytes) : I N :=
  if ft_previous_footer_offset footer =? ABSENT_OFFSET then
    check negb (negb (ft_sequence footer =? 0) || nonzero parent_snapshot_digest) else invalid "genesis linkage" in
    Ok 0
  else
    let* previous_offset := usize_from_u64 (ft_previous_footer_offset footer) "previous footer" in
    let* previous_end := ok_or (checked_add previous_offset FOOTER_LEN) (invalid "previous footer") in
    check negb (snapshot_offset <? previous_end) else invalid "previous footer" in
    let* previous := parse_footer data previous_offset in
    (* [previous.sequence + 1] *)
    let* next_sequence := ok_or (checked_add (ft_sequence previous) 1) Panicked in
    check (ft_sequence footer =? next_sequence) && bool_decide (ft_snapshot_digest previous = parent_snapshot_digest)
      else invalid "parent linkage" in
    Ok previous_end.

(** The end of the file and the commit: the footer, the snapshot and where
    they and the commit start. *)
Definition validate_commit (data : bytes) (limits : ImmutableLimits) : I (Footer * bytes * N * N) :=
  check negb (max_file_bytes limits <? len data) else limit "file size" in
  check negb (len data <? FILE_HEADER_LEN + OBJECT_HEADER_LEN + PAGE_SIZE + SNAPSHOT_LEN + FOOTER_LEN) else invalid "file length" in
  check bool_decide (slice data 0 8 = FILE_MAGIC) && negb (nonzero (slice data 8 FILE_HEADER_LEN)) else invalid "header" in
  let footer_offset := len data - FOOTER_LEN in
  let* footer := parse_footer data footer_offset in
  let* snapshot_offset := usize_from_u64 (ft_snapshot_offset footer) "snapshot range" in
  let* snapshot_len := usize_from_u64 (ft_snapshot_len footer) "snapshot range" in
  check snapshot_len =? SNAPSHOT_LEN else invalid "snapshot range" in
  let* snapshot_end := ok_or (checked_add snapshot_offset snapshot_len) (invalid "snapshot range") in
  check snapshot_end =? footer_offset else invalid "snapshot range" in
  let* snapshot := checked_range data snapshot_offset snapshot_len "snapshot" in
  check bool_decide (digest [SNAPSHOT_DOMAIN; snapshot] = ft_snapshot_digest footer) else invalid "snapshot digest" in
  check bool_decide (slice snapshot 0 8 = SNAPSHOT_MAGIC) else invalid "snapshot" in
  let* sequence := u64_at snapshot 8 "snapshot" in
  check sequence =? ft_sequence footer else invalid "snapshot" in
  let* parent_snapshot_digest := array 32 snapshot 64 "snapshot parent" in
  let* commit_start := commit_start_of data footer snapshot_offset parent_snapshot_digest in
  let semantics := footer_semantics footer in
  check bool_decide (digest [COMMIT_DOMAIN; slice data commit_start footer_offset; semantics] = ft_commit_digest footer)
    else invalid "commit digest" in
  Ok (footer, snapshot, snapshot_offset, commit_start).

Definition validate_internal (data : bytes) (limits : ImmutableLimits) : I InternalReport :=
  let* (footer, snapshot, snapshot_offset, commit_start) := validate_commit data limits in
  let footer_offset := len data - FOOTER_LEN in
  let* root := root_reference data snapshot limits in
  let* tv := traverse (S (N.to_nat (max_pages limits))) data snapshot_offset limits
               (mkTraversal ∅ [root] [] [(snapshot_offset, footer_offset); (footer_offset, len data)]) in
  let current_pages := N.of_nat (length (filter (fun offset => commit_start <= offset) (elements (tv_seen tv)))) in
  let* current_pages := u64_from_usize current_pages in
  check ft_page_count_current footer =? current_pages else invalid "page count" in
  let locators := tv_locators tv in
  check negb (bool_decide (locators = []) || locators_unordered locators
              || negb (bool_decide (lo_object_id <$> head locators = Some (pr_minimum root)))
              || negb (bool_decide (lo_object_id <$> last locators = Some (pr_maximum root)))) else invalid "object order" in
  let* _ := allocation_check 16 (len locators) limits in
  let* object_ranges := map_result (check_object data snapshot_offset (tv_ranges tv)) locators in
  let object_ranges := sort_by compare_ranges object_ranges in
  check negb (any_window (fun x y => y.1 <? x.2) object_ranges) else invalid "object overlap" in
  Ok (mkInternalReport
        (mkReport (ft_sequence footer) (len locators) (N.of_nat (size (tv_seen tv))) (pr_level root)
           (ft_snapshot_digest footer) (ft_commit_digest footer))
        locators footer_offset).

Definition validate (data : bytes) (limits : ImmutableLimits) : I ImmutableReport :=
  let* internal := validate_internal data limits in Ok (ir_public internal).

(** ** History ([history.rs]) *)

(** [loop], with the entries so far; every turn adds one, of which there are at
    most [max_history_entries]. *)
Fixpoint history_loop (fuel : nat) (data : bytes) (limits : ImmutableLimits) (end_ : N) (entries : list ImmutableHistoryEntry)
    : I (list ImmutableHistoryEntry) :=
  check negb (max_history_entries limits <=? len entries) else limit "history entries" in
  match fuel with
  | O => Err Panicked
  | S fuel =>
      let* _ := allocation_check size_of_history_entry (len entries + 1) limits in
      let* internal := validate_internal (slice data 0 end_) limits in
      let* footer := parse_footer (slice data 0 end_) (ir_footer_offset internal) in
      let previous_footer_offset := ft_previous_footer_offset footer in
      let* footer_offset := u64_from_usize (ir_footer_offset internal) in
      let entries := entries ++ [mkHistoryEntry footer_offset (ir_public internal)] in
      if previous_footer_offset =? ABSENT_OFFSET then Ok entries
      else
        let* previous_offset := usize_from_u64 previous_footer_offset "history footer" in
        let* next_end := ok_or (checked_add previous_offset FOOTER_LEN) (invalid "history footer") in
        check negb ((len data <=? next_end) || (ir_footer_offset internal <? next_end)) else invalid "history linkage" in
        history_loop fuel data limits next_end entries
  end.

(** [ImmutableHistoryReport] is its entries, newest first. *)
Definition validate_history (data : bytes) (limits : ImmutableLimits) : I (list ImmutableHistoryEntry) :=
  check negb (max_history_entries limits =? 0) else limit "history entries" in
  history_loop (N.to_nat (max_history_entries limits)) data limits (len data) [].

(** What the scan carries. *)
Record RecoveryScan : Type := mkScan {
  sn_attempted : N;
  sn_attempts_truncated : bool;
  sn_candidates_truncated : bool;
  sn_candidates : list ImmutableRecoveryCandidate;
}.

(** A footer magic at [offset]: the scan after it, and whether it goes on. *)
Definition recovery_attempt (data : bytes) (limits : ImmutableLimits) (offset : N) (s : RecoveryScan) : I (RecoveryScan * bool) :=
  if max_recovery_attempts limits <=? sn_attempted s then
    Ok (mkScan (sn_attempted s) true (sn_candidates_truncated s) (sn_candidates s), false)
  else
    let s := mkScan (sn_attempted s + 1) (sn_attempts_truncated s) (sn_candidates_truncated s) (sn_candidates s) in
    match checked_add offset FOOTER_LEN with
    | None => Ok (s, true)
    | Some prefix_len =>
        if prefix_len <=? len data then
          match validate_internal (slice data 0 prefix_len) limits with
          | Err Panicked => Err Panicked
          | Err (Refused _) => Ok (s, true)
          | Ok internal =>
              if ir_footer_offset internal =? offset then
                if max_recovery_candidates limits <=? len (sn_candidates s) then
                  Ok (mkScan (sn_attempted s) (sn_attempts_truncated s) true (sn_candidates s), false)
                else
                  let* _ := allocation_check size_of_recovery_candidate (len (sn_candidates s) + 1) limits in
                  let* footer_offset := u64_from_usize offset in
                  let* prefix_len := u64_from_usize prefix_len in
                  Ok (mkScan (sn_attempted s) (sn_attempts_truncated s) (sn_candidates_truncated s)
                        (sn_candidates s ++ [mkCandidate footer_offset prefix_len (ir_public internal)]), true)
              else Ok (s, true)
          end
        else Ok (s, true)
    end.

(** The [loop], [n] bytes above [scan_start]. *)
Fixpoint recovery_loop (n : nat) (data : bytes) (limits : ImmutableLimits) (scan_start : N) (s : RecoveryScan) : I RecoveryScan :=
  let offset := scan_start + N.of_nat n in
  let* (s, more) :=
    if bool_decide (get_range data offset (offset + len FOOTER_MAGIC) = Some FOOTER_MAGIC) then recovery_attempt data limits offset s
    else Ok (s, true) in
  if more then
    match n with O => Ok s | S n => recovery_loop n data limits scan_start s end
  else Ok s.

Definition scan_recovery_candidates (data : bytes) (limits : ImmutableLimits) : I ImmutableRecoveryReport :=
  check negb (max_file_bytes limits <? len data) else limit "file size" in
  let scanned_bytes := N.min (len data) (max_recovery_scan_bytes limits) in
  let scan_start := len data - scanned_bytes in
  let s := mkScan 0 false false [] in
  let* s :=
    if len FOOTER_MAGIC <=? scanned_bytes then
      let offset := len data - len FOOTER_MAGIC in
      recovery_loop (N.to_nat (offset - scan_start)) data limits scan_start s
    else Ok s in
  let* scan_start := u64_from_usize scan_start in
  Ok (mkRecoveryReport scan_start scanned_bytes (sn_attempted s) (sn_attempts_truncated s) (sn_candidates_truncated s) (sn_candidates s)).
End Pages.

(** ** Canonical occupancy ([occupancy.rs]) *)

Definition LEAF_MIN_OCCUPANCY : N := (LEAF_CAPACITY + 1) / 2.
Definition INTERNAL_MIN_OCCUPANCY : N := (INTERNAL_FANOUT + 1) / 2.

(** [sizes.iter().try_fold(0, |sum, size| sum.checked_add(size))] *)
Fixpoint checked_sum (sum : N) (sizes : list N) : option N :=
  match sizes with
  | [] => Some sum
  | size :: sizes => match checked_add sum size with Some sum => checked_sum sum sizes | None => None end
  end.

Definition canonical_group_sizes (total capacity minimum : N) (limits : ImmutableLimits) : I (list N) :=
  check negb ((total =? 0) || (capacity =? 0) || (minimum =? 0) || (capacity <? minimum)) else invalid "canonical occupancy" in
  let* rounded := ok_or (checked_add total (capacity - 1)) (limit "page count") in
  let groups := rounded / capacity in
  let* _ := allocation_check 8 groups limits in
  if groups =? 1 then Ok [total]
  else
    let full_groups := total / capacity in
    let remainder := total mod capacity in
    let* sizes :=
      if remainder =? 0 then Ok (replicate (N.to_nat full_groups) capacity)
      else if minimum <=? remainder then Ok (replicate (N.to_nat full_groups) capacity ++ [remainder])
      else
        let* prefix_groups := ok_or (checked_sub full_groups 1) (invalid "canonical occupancy") in
        let transfer := minimum - remainder in
        let* penultimate := ok_or (checked_sub capacity transfer) (invalid "canonical occupancy") in
        Ok (replicate (N.to_nat prefix_groups) capacity ++ [penultimate; minimum]) in
    check negb (negb (len sizes =? groups) || existsb (fun size => (size <? minimum) || (capacity <? size)) sizes
                || negb (bool_decide (checked_sum 0 sizes = Some total))) else invalid "canonical occupancy" in
    Ok sizes.

(** One child of an internal page, without the checks of [parse_page]. *)
Definition read_child (page : bytes) (level index : N) : I PageRef :=
  let entry := PAGE_HEADER_LEN + index * INTERNAL_ENTRY_LEN in
  let* minimum := u64_at page entry "child entry" in
  let* maximum := u64_at page (entry + 8) "child entry" in
  let* offset := u64_at page (entry + 16) "child entry" in
  let* level := ok_or (checked_sub level 1) (invalid "child level") in
  let* digest := array 32 page (entry + 32) "child entry" in
  Ok (mkPageRef minimum maximum offset level digest).

Section Occupancy.
Context `{Layout}.

(** One page off the stack: the children to visit. *)
Definition check_occupancy (data : bytes) (reference root : PageRef) (stack_len : N) (offset : N) (limits : ImmutableLimits) : I (list PageRef) :=
  let* page := checked_range data offset PAGE_SIZE "page" in
  let kind := byte_at page 8 in
  let* count := u32_at page 12 "page count" in
  let is_root := pr_offset reference =? pr_offset root in
  if kind =? 1 then
    check negb ((negb is_root && (count <? LEAF_MIN_OCCUPANCY)) || (LEAF_CAPACITY <? count)) else invalid "leaf occupancy" in
    Ok []
  else if kind =? 2 then
    let below_minimum := if is_root then count <? 2 else count <? INTERNAL_MIN_OCCUPANCY in
    check negb (below_minimum || (INTERNAL_FANOUT <? count)) else invalid "internal occupancy" in
    let* required := ok_or (checked_add stack_len count) (limit "page count") in
    let* _ := allocation_check size_of_page_ref required limits in
    (* [for index in (0..count).rev()], pushed one by one *)
    let* pushed := map_result (fun index => read_child page (pr_level reference) (N.of_nat index)) (rev (seq 0 (N.to_nat count))) in
    Ok (rev pushed)
  else Err (invalid "page kind").

Fixpoint occupancy_loop (fuel : nat) (data : bytes) (root : PageRef) (limits : ImmutableLimits) (stack : list PageRef) (seen : gset N) : I unit :=
  match stack with
  | [] => Ok tt
  | reference :: stack =>
      match fuel with
      | O => Err Panicked
      | S fuel =>
          check negb (max_pages limits <=? N.of_nat (size seen)) else limit "page count" in
          let* offset := usize_from_u64 (pr_offset reference) "page offset" in
          let* seen := ok_or (try_insert offset seen) (invalid "page cycle") in
          let* children := check_occupancy data reference root (len stack) offset limits in
          occupancy_loop fuel data root limits (children ++ stack) seen
      end
  end.

Definition validate_canonical_internal `{Sha256} (data : bytes) (limits : ImmutableLimits) : I InternalReport :=
  let* report := validate_internal data limits in
  let* footer := parse_footer data (ir_footer_offset report) in
  let* snapshot_offset := usize_from_u64 (ft_snapshot_offset footer) "snapshot range" in
  let* snapshot := checked_range data snapshot_offset SNAPSHOT_LEN "snapshot" in
  let* root := root_reference data snapshot limits in
  let* _ := occupancy_loop (S (N.to_nat (max_pages limits))) data root limits [root] ∅ in
  Ok report.

Definition validate_canonical_occupancy `{Sha256} (data : bytes) (limits : ImmutableLimits) : I ImmutableReport :=
  let* internal := validate_canonical_internal data limits in Ok (ir_public internal).
End Occupancy.

(** ** Freshness ([freshness.rs]) *)

Record TrustedFreshnessCheckpoint : Type := mkCheckpoint {
  fc_sequence : N;
  fc_snapshot_digest : bytes;
}.

Definition checkpoint_of (report : ImmutableReport) : TrustedFreshnessCheckpoint :=
  mkCheckpoint (rp_sequence report) (rp_snapshot_digest report).

Inductive FreshnessDecision : Type :=
  | Unpinned
  | Current
  | Advances (previous_sequence candidate_sequence : N).

Inductive FreshnessError : Type :=
  | Rollback (trusted_sequence candidate_sequence : N)
  | ForkAtTrustedSequence (sequence : N) (trusted_snapshot_digest candidate_snapshot_digest : bytes).

Definition evaluate_freshness (candidate : ImmutableReport) (trusted : option TrustedFreshnessCheckpoint) : result FreshnessError FreshnessDecision :=
  match trusted with
  | None => Ok Unpinned
  | Some trusted =>
      if rp_sequence candidate <? fc_sequence trusted then Err (Rollback (fc_sequence trusted) (rp_sequence candidate))
      else if rp_sequence candidate =? fc_sequence trusted then
        if negb (bool_decide (rp_snapshot_digest candidate = fc_snapshot_digest trusted)) then
          Err (ForkAtTrustedSequence (rp_sequence candidate) (fc_snapshot_digest trusted) (rp_snapshot_digest candidate))
        else Ok Current
      else Ok (Advances (fc_sequence trusted) (rp_sequence candidate))
  end.

(** ** Objects and pages ([part4.rs]) *)

Definition encode_object (input : ImmutableObjectInput) : I bytes :=
  check negb ((in_object_id input =? 0) || (in_kind input =? 0)) else invalid "object input" in
  let* length := ok_or (checked_add OBJECT_HEADER_LEN (len (in_payload input))) (limit "object size") in
  let record := zeros (N.to_nat length) in
  let record := put record 0 OBJECT_MAGIC in
  let* header_len := ok_or (try_u16 OBJECT_HEADER_LEN) (limit "object header") in
  let record := put_u16 record 8 header_len in
  let record := put_u16 record 10 (in_kind input) in
  let record := put_u64 record 16 (in_object_id input) in
  let* payload_len := u64_from_usize (len (in_payload input)) in
  let record := put_u64 record 24 payload_len in
  let record := put_u64 record 32 payload_len in
  Ok (put record OBJECT_HEADER_LEN (in_payload input)).

Definition u32_from_usize (value : N) : I N :=
  if value <=? U32_MAX then Ok value else Err (limit "integer conversion").

Definition put_leaf_entry (page : bytes) (offset : N) (entry : Locator) : bytes :=
  let page := put_u64 page offset (lo_object_id entry) in
  let page := put_u16 page (offset + 8) (lo_kind entry) in
  let page := put_u64 page (offset + 16) (lo_record_offset entry) in
  let page := put_u64 page (offset + 24) (lo_record_len entry) in
  let page := put_u64 page (offset + 32) (lo_logical_len entry) in
  put page (offset + 40) (lo_digest entry).

Definition put_child_entry (page : bytes) (offset : N) (child : PageRef) (page_len : N) : bytes :=
  let page := put_u64 page offset (pr_minimum child) in
  let page := put_u64 page (offset + 8) (pr_maximum child) in
  let page := put_u64 page (offset + 16) (pr_offset child) in
  let page := put_u64 page (offset + 24) page_len in
  put page (offset + 32) (pr_digest child).

(** [for (index, entry) in entries.iter().enumerate()] *)
Fixpoint put_each {A} (put_one : bytes -> N -> A -> bytes) (size : N) (page : bytes) (index : N) (entries : list A) : bytes :=
  match entries with
  | [] => page
  | entry :: entries => put_each put_one size (put_one page (PAGE_HEADER_LEN + index * size) entry) (index + 1) entries
  end.

(** The header of a page of zeros. *)
Definition put_page_header (kind level count entry_size minimum maximum : N) : bytes :=
  let page := zeros (N.to_nat PAGE_SIZE) in
  let page := put page 0 PAGE_MAGIC in
  let page := put page 8 [byte_of_N kind] in
  let page := put page 9 [byte_of_N level] in
  let page := put_u32 page 12 count in
  let page := put_u32 page 16 entry_size in
  let page := put_u64 page 20 minimum in
  put_u64 page 28 maximum.

Definition encode_leaf (entries : list Locator) : I bytes :=
  check negb (bool_decide (entries = []) || (LEAF_CAPACITY <? len entries)) else invalid "leaf input" in
  check negb (locators_unordered entries) else invalid "leaf input order" in
  let* count := u32_from_usize (len entries) in
  let* entry_size := u32_from_usize LEAF_ENTRY_LEN in
  let* first := ok_or (head entries) Panicked in
  let* last_ := ok_or (last entries) (invalid "leaf input") in
  Ok (put_each put_leaf_entry LEAF_ENTRY_LEN
        (put_page_header 1 0 count entry_size (lo_object_id first) (lo_object_id last_)) 0 entries).

(** [child.level + 1 != level], in 8 bits: the level of a page is one more than
    that of its children and at most [max_depth]. *)
Definition encode_internal (children : list PageRef) (level : N) : I bytes :=
  check negb (bool_decide (children = []) || (INTERNAL_FANOUT <? len children) || (level =? 0)) else invalid "internal input" in
  check negb (references_unordered children) else invalid "internal input order" in
  let* _ := map_result (fun child =>
      let* next := (if pr_level child + 1 <=? 255 then Ok (pr_level child + 1) else Err Panicked) in
      check next =? level else invalid "internal input order" in Ok tt) children in
  let* count := u32_from_usize (len children) in
  let* entry_size := u32_from_usize INTERNAL_ENTRY_LEN in
  let* first := ok_or (head children) Panicked in
  let* last_ := ok_or (last children) (invalid "internal input") in
  let* page_len := u64_from_usize PAGE_SIZE in
  Ok (put_each (fun page offset child => put_child_entry page offset child page_len) INTERNAL_ENTRY_LEN
        (put_page_header 2 level count entry_size (pr_minimum first) (pr_maximum last_)) 0 children).

Section Write.
Context `{Sha256}.

Definition append_object (output : bytes) (input : ImmutableObjectInput) (limits : ImmutableLimits) : I (bytes * Locator) :=
  let* record := encode_object input in
  let* total := ok_or (checked_add (len output) (len record)) (limit "output") in
  check negb (max_output_bytes limits <? total) else limit "output" in
  let* offset := u64_from_usize (len output) in
  let* record_len := u64_from_usize (len record) in
  let* logical_len := u64_from_usize (len (in_payload input)) in
  Ok (output ++ record,
      mkLocator (in_object_id input) (in_kind input) offset record_len logical_len (digest [OBJECT_DOMAIN; record])).

Definition append_page (output page : bytes) (limits : ImmutableLimits) : I (bytes * PageRef) :=
  let* total := ok_or (checked_add (len output) PAGE_SIZE) (limit "output") in
  check negb (max_output_bytes limits <? total) else limit "output" in
  let* minimum := u64_at page 20 "page" in
  let* maximum := u64_at page 28 "page" in
  let* offset := u64_from_usize (len output) in
  Ok (output ++ page, mkPageRef minimum maximum offset (byte_at page 9) (digest [PAGE_DOMAIN; page])).

(** [for size in sizes]: the groups of one level become pages. *)
Fixpoint append_groups {A} (encode : list A -> I bytes) (label : string) (limits : ImmutableLimits) (sizes : list N) (values : list A) (start : N)
    (output : bytes) (pages : N) (level : list PageRef) : I (bytes * N * list PageRef) :=
  match sizes with
  | [] => Ok (output, pages, level)
  | size :: sizes =>
      check negb (max_pages limits <=? pages) else limit "page count" in
      let* end_ := ok_or (checked_add start size) (limit label) in
      let* group := ok_or (get_range values start end_) Panicked in
      let* page := encode group in
      let* (output, reference) := append_page output page limits in
      append_groups encode label limits sizes values end_ output (pages + 1) (level ++ [reference])
  end.

Context `{Layout}.

(** [while level.len() > 1]: a level more each turn, up to [max_depth]. *)
Fixpoint build_levels (fuel : nat) (limits : ImmutableLimits) (output : bytes) (pages : N) (level : list PageRef) : I (bytes * PageRef * N) :=
  match level with
  | [root] => Ok (output, root, pages)
  | first :: _ :: _ =>
      match fuel with
      | O => Err Panicked
      | S fuel =>
          check pr_level first + 1 <=? 255 else limit "page depth" in
          let parent_level := pr_level first + 1 in
          check negb (max_depth limits <? parent_level) else limit "page depth" in
          let* group_sizes := canonical_group_sizes (len level) INTERNAL_FANOUT INTERNAL_MIN_OCCUPANCY limits in
          let* _ := allocation_check size_of_page_ref (len group_sizes) limits in
          let* (output, pages, next) :=
            append_groups (fun children => encode_internal children parent_level) "page count" limits group_sizes level 0 output pages [] in
          build_levels fuel limits output pages next
      end
  | [] => Err (invalid "empty tree")
  end.

(** The first pair of neighbours with the same key. *)
Fixpoint find_duplicate {A} (key : A -> N) (values : list A) : option N :=
  match values with
  | x :: ((y :: _) as values) => if key x =? key y then Some (key x) else find_duplicate key values
  | _ => None
  end.

Definition build_tree (output : bytes) (locators : list Locator) (limits : ImmutableLimits) : I (bytes * PageRef * N) :=
  check negb (bool_decide (locators = []) || (max_objects limits <? len locators)) else limit "object count" in
  let locators := sort_by (cmp_on lo_object_id N.compare) locators in
  match find_duplicate lo_object_id locators with
  | Some object_id => Err (Refused (DuplicateObject object_id))
  | None =>
      let* leaf_sizes := canonical_group_sizes (len locators) LEAF_CAPACITY LEAF_MIN_OCCUPANCY limits in
      let* _ := allocation_check size_of_page_ref (len leaf_sizes) limits in
      let* (output, pages, level) := append_groups encode_leaf "object count" limits leaf_sizes locators 0 output 0 [] in
      build_levels (S (N.to_nat (max_depth limits))) limits output pages level
  end.

(** ** Commits ([part5.rs]) *)

Definition encode_snapshot (sequence : N) (root : PageRef) (parent_snapshot_digest : bytes) : bytes :=
  let snapshot := zeros (N.to_nat SNAPSHOT_LEN) in
  let snapshot := put snapshot 0 SNAPSHOT_MAGIC in
  let snapshot := put_u64 snapshot 8 sequence in
  let snapshot := put_u64 snapshot 16 (pr_offset root) in
  let snapshot := put_u64 snapshot 24 (pr_level root) in
  let snapshot := put snapshot 32 (pr_digest root) in
  put snapshot 64 parent_snapshot_digest.

Definition encode_footer (sequence snapshot_offset snapshot_len previous_footer_offset page_count : N) (snapshot_digest commit_digest : bytes) : bytes :=
  let raw := zeros (N.to_nat FOOTER_LEN) in
  let raw := put raw 0 FOOTER_MAGIC in
  let raw := put_u64 raw 8 sequence in
  let raw := put_u64 raw 16 snapshot_offset in
  let raw := put_u64 raw 24 snapshot_len in
  let raw := put_u64 raw 32 previous_footer_offset in
  let raw := put_u64 raw 40 page_count in
  let raw := put raw 48 snapshot_digest in
  put raw 80 commit_digest.

Definition publish (output : bytes) (sequence : N) (root : PageRef) (parent_snapshot_digest : bytes) (previous_footer_offset page_count : N)
    (limits : ImmutableLimits) : I bytes :=
  let* required := ok_or (checked_add (len output) (SNAPSHOT_LEN + FOOTER_LEN)) (limit "output") in
  check negb (max_output_bytes limits <? required) else limit "output" in
  let* snapshot_offset := u64_from_usize (len output) in
  let snapshot := encode_snapshot sequence root parent_snapshot_digest in
  let snapshot_digest := digest [SNAPSHOT_DOMAIN; snapshot] in
  let output := output ++ snapshot in
  let* snapshot_len := u64_from_usize SNAPSHOT_LEN in
  let* page_count := u64_from_usize page_count in
  let footer := mkFooter sequence snapshot_offset snapshot_len previous_footer_offset page_count snapshot_digest (zeros 32) in
  let semantics := footer_semantics footer in
  let* commit_start :=
    if previous_footer_offset =? ABSENT_OFFSET then Ok 0
    else
      let* previous := usize_from_u64 previous_footer_offset "previous footer" in
      ok_or (checked_add previous FOOTER_LEN) (invalid "previous footer") in
  (* [&output[commit_start..]] *)
  let* commit := ok_or (get_range output commit_start (len output)) Panicked in
  let commit_digest := digest [COMMIT_DOMAIN; commit; semantics] in
  Ok (output ++ encode_footer sequence snapshot_offset snapshot_len previous_footer_offset page_count snapshot_digest commit_digest).

(** [for input in ...] appending each object. *)
Fixpoint append_objects (output : bytes) (inputs : list ImmutableObjectInput) (limits : ImmutableLimits) : I (bytes * list Locator) :=
  match inputs with
  | [] => Ok (output, [])
  | input :: inputs =>
      let* (output, locator) := append_object output input limits in
      let* (output, locators) := append_objects output inputs limits in
      Ok (output, locator :: locators)
  end.

Definition build_genesis (inputs : list ImmutableObjectInput) (limits : ImmutableLimits) : I bytes :=
  check negb (bool_decide (inputs = []) || (max_objects limits <? len inputs)) else limit "object count" in
  let* _ := allocation_check size_of_locator (len inputs) limits in
  let ordered := sort_by (cmp_on in_object_id N.compare) inputs in
  match find_duplicate in_object_id ordered with
  | Some object_id => Err (Refused (DuplicateObject object_id))
  | None =>
      let output := put (zeros (N.to_nat FILE_HEADER_LEN)) 0 FILE_MAGIC in
      let* (output, locators) := append_objects output ordered limits in
      let* (output, root, pages) := build_tree output locators limits in
      let* output := publish output 0 root (zeros 32) ABSENT_OFFSET pages limits in
      let* _ := validate_canonical_occupancy output limits in
      Ok output
  end.

Definition append_replacement (data : bytes) (replacement : ImmutableObjectInput) (limits : ImmutableLimits) : I bytes :=
  let* previous := validate_canonical_internal data limits in
  let locators := ir_locators previous in
  match list_find (fun locator => lo_object_id locator = in_object_id replacement) locators with
  | None => Err (Refused (MissingObject (in_object_id replacement)))
  | Some (index, _) =>
      let* (output, locator) := append_object data replacement limits in
      let locators := <[index := locator]> locators in
      let* (output, root, pages) := build_tree output locators limits in
      (* [previous.public.sequence + 1] *)
      let* sequence := ok_or (checked_add (rp_sequence (ir_public previous)) 1) Panicked in
      let* footer_offset := u64_from_usize (ir_footer_offset previous) in
      let* output := publish output sequence root (rp_snapshot_digest (ir_public previous)) footer_offset pages limits in
      let* _ := validate_canonical_occupancy output limits in
      Ok output
  end.

(** ** Batches ([batch.rs]) *)

Inductive ImmutableBatchOperation : Type :=
  | Put (input : ImmutableObjectInput)
  | Delete (object_id : N).

Definition operation_id (operation : ImmutableBatchOperation) : N :=
  match operation with Put input => in_object_id input | Delete object_id => object_id end.

(** [order]: the operations by identifier, for their indices. *)
Definition operation_order (operations : list ImmutableBatchOperation) : list ImmutableBatchOperation :=
  sort_by (cmp_on operation_id N.compare) operations.

(** [Vec::insert] and [Vec::remove] *)
Definition insert_at {A} (position : nat) (value : A) (values : list A) : list A := take position values ++ value :: drop position values.
Definition remove_at {A} (position : nat) (values : list A) : list A := take position values ++ drop (S position) values.

(** One operation on the active identifiers. *)
Definition project_operation (active_ids : list N) (operation : ImmutableBatchOperation) : I (list N) :=
  match operation with
  | Put input =>
      check negb ((in_object_id input =? 0) || (in_kind input =? 0)) else invalid "object input" in
      match binary_search_by_key id active_ids (in_object_id input) with
      | Err position => Ok (insert_at position (in_object_id input) active_ids)
      | Ok _ => Ok active_ids
      end
  | Delete object_id =>
      check negb (object_id =? 0) else invalid "batch object id" in
      match binary_search_by_key id active_ids object_id with
      | Ok position => Ok (remove_at position active_ids)
      | Err _ => Err (Refused (MissingObject object_id))
      end
  end.

(** [locators] with the locator of a new record. *)
Definition put_locator (locators : list Locator) (locator : Locator) : list Locator :=
  match binary_search_by_key lo_object_id locators (lo_object_id locator) with
  | Ok position => <[position := locator]> locators
  | Err position => insert_at position locator locators
  end.

(** One operation on the output and the locators; [missing] is the error of a
    deletion that finds nothing. *)
Definition apply_operation (missing : N -> ImmutableError) (limits : ImmutableLimits) (st : bytes * list Locator) (operation : ImmutableBatchOperation)
    : I (bytes * list Locator) :=
  let (output, locators) := st in
  match operation with
  | Put input =>
      let* (output, locator) := append_object output input limits in
      Ok (output, put_locator locators locator)
  | Delete object_id =>
      match binary_search_by_key lo_object_id locators object_id with
      | Ok position => Ok (output, remove_at position locators)
      | Err _ => Err (Refused (missing object_id))
      end
  end.

Definition append_batch (data : bytes) (operations : list ImmutableBatchOperation) (limits : ImmutableLimits) : I bytes :=
  check negb (bool_decide (operations = [])) else invalid "batch operations" in
  check negb (max_output_bytes limits <? len data) else limit "output" in
  let* previous := validate_canonical_internal data limits in
  let* next_sequence := ok_or (checked_add (rp_sequence (ir_public previous)) 1) (limit "sequence") in
  let parent_snapshot_digest := rp_snapshot_digest (ir_public previous) in
  let* previous_footer_offset := u64_from_usize (ir_footer_offset previous) in
  let* _ := allocation_check 8 (len operations) limits in
  let order := operation_order operations in
  match find_duplicate operation_id order with
  | Some object_id => Err (Refused (DuplicateObject object_id))
  | None =>
      let* projected_capacity := ok_or (checked_add (len (ir_locators previous)) (len operations)) (limit "object count") in
      let* _ := allocation_check 8 projected_capacity limits in
      let* active_ids := fold_result project_operation order (lo_object_id <$> ir_locators previous) in
      check negb (bool_decide (active_ids = [])) else invalid "batch result" in
      check negb (max_objects limits <? len active_ids) else limit "object count" in
      let* _ := allocation_check size_of_locator (len active_ids) limits in
      let* (output, locators) := fold_result (apply_operation (fun _ => Invalid "batch state") limits) order (data, ir_locators previous) in
      let* (output, root, pages) := build_tree output locators limits in
      let* output := publish output next_sequence root parent_snapshot_digest previous_footer_offset pages limits in
      let* _ := validate_canonical_occupancy output limits in
      Ok output
  end.

(** ** Rewrites ([rewrite.rs]) *)

Record ImmutableRewriteResult : Type := mkRewriteResult {
  rw_bytes : bytes;
  rw_source : ImmutableReport;
  rw_output : ImmutableReport;
  rw_retained_object_ids : list N;
  rw_byte_scoped_signatures_preserved : bool;
}.

Definition input_from_locator (data : bytes) (locator : Locator) : I ImmutableObjectInput :=
  let* offset := usize_from_u64 (lo_record_offset locator) "rewrite object" in
  let* length := usize_from_u64 (lo_record_len locator) "rewrite object" in
  let* record := checked_range data offset length "rewrite object" in
  let* payload_len := ok_or (checked_sub length OBJECT_HEADER_LEN) (invalid "rewrite object") in
  let* payload := checked_range record OBJECT_HEADER_LEN payload_len "rewrite object" in
  Ok (mkInput (lo_object_id locator) (lo_kind locator) payload).

Definition check_rewrite_allocation (locators : list Locator) (limits : ImmutableLimits) : I unit :=
  let* payload_bytes := fold_result (fun total locator =>
      let* record_len := usize_from_u64 (lo_record_len locator) "rewrite object" in
      let* payload_len := ok_or (checked_sub record_len OBJECT_HEADER_LEN) (invalid "rewrite object") in
      ok_or (checked_add total payload_len) (limit "allocation")) locators 0 in
  let* identifier_bytes := ok_or (checked_mul (len locators) 8) (limit "allocation") in
  let* input_bytes := ok_or (checked_mul (len locators) size_of_object_input) (limit "allocation") in
  let* input_bytes := ok_or (checked_mul input_bytes 2) (limit "allocation") in
  let* cloned_payload_bytes := ok_or (checked_mul payload_bytes 2) (limit "allocation") in
  let* required := ok_or (checked_add identifier_bytes input_bytes) (limit "allocation") in
  let* required := ok_or (checked_add required cloned_payload_bytes) (limit "allocation") in
  check negb (max_allocation_bytes limits <? required) else limit "allocation" in
  Ok tt.

(** The locator of a retained identifier. *)
Definition find_retained (locators : list Locator) (object_id : N) : I Locator :=
  match binary_search_by_key lo_object_id locators object_id with
  | Ok index => ok_or (locators !! index) Panicked
  | Err _ => Err (Refused (MissingObject object_id))
  end.

Definition rewrite_from_internal (data : bytes) (requested_ids : list N) (source_internal : InternalReport) (limits : ImmutableLimits)
    : I ImmutableRewriteResult :=
  check negb (bool_decide (requested_ids = [])) else invalid "rewrite selection" in
  let* _ := allocation_check 8 (len requested_ids) limits in
  let retained_object_ids := sort_by N.compare requested_ids in
  check negb (any_window N.eqb retained_object_ids) else invalid "rewrite selection" in
  check negb (max_objects limits <? len retained_object_ids) else limit "object count" in
  let* _ := allocation_check 8 (len retained_object_ids) limits in
  let* selected_locators := map_result (find_retained (ir_locators source_internal)) retained_object_ids in
  let* _ := check_rewrite_allocation selected_locators limits in
  let* inputs := map_result (input_from_locator data) selected_locators in
  let* bytes := build_genesis inputs limits in
  let* output := validate bytes limits in
  Ok (mkRewriteResult bytes (ir_public source_internal) output retained_object_ids false).

Definition rewrite_all (data : bytes) (limits : ImmutableLimits) : I ImmutableRewriteResult :=
  let* source_internal := validate_internal data limits in
  let* _ := allocation_check 8 (len (ir_locators source_internal)) limits in
  rewrite_from_internal data (lo_object_id <$> ir_locators source_internal) source_internal limits.

Definition rewrite_selected (data : bytes) (object_ids : list N) (limits : ImmutableLimits) : I ImmutableRewriteResult :=
  let* source_internal := validate_internal data limits in
  rewrite_from_internal data object_ids source_internal limits.
End Write.
