(* ===== verification/ImmutableFacts.v ===== *)
(** Strict validation of immutable-page files against its specification: the
    directory is a tree of pages ([dtree]) whose leaves hold the locators of
    records; what the readers accept, and that they never panic but for a
    sequence number that cannot be followed. *)

From Stdlib Require Import Strings.Byte Strings.String NArith ZArith Lia.
From stdpp Require Import base list gmap strings sorting.
From S2P Require Import Prelude Order Digest Exp0002 Exp0002File Exp0002Pages Exp0002Strict Immutable.

Local Open Scope N_scope.

#[global] Strategy 1000 [Immutable.PAGE_SIZE].

(** ** Reads *)

Section Reads.
Implicit Types data page : bytes.

Lemma im_range_Ok data offset n label a :
  checked_range data offset n label = Ok a <-> offset + n <= len data /\ offset + n <= U64_MAX /\ slice data offset (offset + n) = a.
Proof.
  unfold checked_range. split.
  - intros Hr. step_result Hr. option_facts. apply get_range_Some in Hr as (_ & Hl & _ & -> & _). done.
  - intros (Hl & Hm & <-). rewrite checked_add_fits by done. cbn [ok_or]. unfold get_range, slice.
    rewrite !(proj2 (N.leb_le _ _)) by lia. done.
Qed.

Lemma im_array_Ok n data offset label a :
  array n data offset label = Ok a <-> offset + n <= len data /\ offset + n <= U64_MAX /\ slice data offset (offset + n) = a.
Proof. apply im_range_Ok. Qed.

(** An integer of [k] bytes. *)
Lemma im_int_Ok (k : nat) (read : bytes -> N -> string -> I N) data offset label v :
  (forall b o l, read b o l = let* a := array (N.of_nat k) b o l in Ok (le_decode a)) ->
  read data offset label = Ok v <->
  offset + N.of_nat k <= len data /\ offset + N.of_nat k <= U64_MAX /\ slice data offset (offset + N.of_nat k) = le_encode k v /\ v < 256 ^ N.of_nat k.
Proof.
  intros Hread. rewrite Hread. split.
  - intros Hr. step_result Hr. injection Hr as <-. apply im_array_Ok in Heqr as (Hb & Hm & <-).
    pose proof (slice_len data offset (offset + N.of_nat k) ltac:(lia) Hb) as Hl.
    assert (Hlen : length (slice data offset (offset + N.of_nat k)) = k) by (unfold len in Hl; lia).
    split_and!; [done|done| |].
    + pose proof (le_encode_decode (slice data offset (offset + N.of_nat k))) as E. by rewrite Hlen in E.
    + pose proof (le_decode_bound (slice data offset (offset + N.of_nat k))) as E. unfold len in E. by rewrite Hlen in E.
  - intros (Hb & Hm & Hs & Hv). rewrite (proj2 (im_array_Ok _ data offset label _) (conj Hb (conj Hm Hs))). by rewrite le_decode_encode_small.
Qed.

Lemma u16_at_Ok data offset label v : u16_at data offset label = Ok v <->
  offset + 2 <= len data /\ offset + 2 <= U64_MAX /\ slice data offset (offset + 2) = le_encode 2 v /\ v <= U16_MAX.
Proof. rewrite (im_int_Ok 2 u16_at) by done. unfold U16_MAX. simpl. by split; intros (? & ? & ? & ?); split_and!; try done; lia. Qed.

Lemma u32_at_Ok data offset label v : u32_at data offset label = Ok v <->
  offset + 4 <= len data /\ offset + 4 <= U64_MAX /\ slice data offset (offset + 4) = le_encode 4 v /\ v <= U32_MAX.
Proof. rewrite (im_int_Ok 4 u32_at) by done. unfold U32_MAX. simpl. by split; intros (? & ? & ? & ?); split_and!; try done; lia. Qed.

Lemma u64_at_Ok data offset label v : u64_at data offset label = Ok v <->
  offset + 8 <= len data /\ offset + 8 <= U64_MAX /\ slice data offset (offset + 8) = le_encode 8 v /\ v <= U64_MAX.
Proof. rewrite (im_int_Ok 8 u64_at) by done. unfold U64_MAX. simpl. by split; intros (? & ? & ? & ?); split_and!; try done; lia. Qed.

Lemma usize_from_u64_Ok v label w : usize_from_u64 v label = Ok w <-> w = v /\ v <= U64_MAX.
Proof. unfold usize_from_u64. by rewrite ok_or_Ok, try_u64_Some. Qed.

Lemma u64_from_usize_Ok v w : u64_from_usize v = Ok w <-> w = v /\ v <= U64_MAX.
Proof. unfold u64_from_usize. by rewrite ok_or_Ok, try_u64_Some. Qed.

Lemma usize_at_Ok data offset label v : usize_at data offset label = Ok v <->
  offset + 8 <= len data /\ offset + 8 <= U64_MAX /\ slice data offset (offset + 8) = le_encode 8 v /\ v <= U64_MAX.
Proof.
  unfold usize_at. split.
  - intros Hr. step_result Hr. apply usize_from_u64_Ok in Hr as [-> Hv]. by apply u64_at_Ok in Heqr.
  - intros Hv. rewrite (proj2 (u64_at_Ok _ _ label _) Hv). apply usize_from_u64_Ok. split; [done|apply Hv].
Qed.

Lemma nonzero_false data : nonzero data = false <-> data = zeros (length data).
Proof.
  unfold nonzero, zeros. induction data as [|x data IH]; [done|]. cbn [existsb length replicate]. case_bool_decide as E; cbn [negb orb].
  - rewrite IH. split; [by intros <-; subst|by intros [= <-]].
  - split; [done|]. by intros [= ? _].
Qed.

Lemma any_window_false {A} (bad : A -> A -> bool) l : any_window bad l = false <-> Sorted (fun x y => bad x y = false) l.
Proof.
  unfold any_window. rewrite negb_false_iff.
  assert (Hok : is_ok (check_windows (fun x y => if bad x y then Some tt else None) l) = true <->
    check_windows (fun x y => if bad x y then Some tt else None) l = Ok tt) by (destruct (check_windows _ l) as [[]|]; done).
  rewrite Hok, check_windows_Ok. split; intros Hs; eapply Sorted_mono; try exact Hs; intros x y; cbv beta; by destruct (bad x y).
Qed.

Lemma allocation_check_Ok size count limits u : allocation_check size count limits = Ok u <->
  count * size <= max_allocation_bytes limits /\ count * size <= U64_MAX.
Proof.
  unfold allocation_check, checked_mul. destruct (N.leb_spec (count * size) U64_MAX); cbn [ok_or]; [|naive_solver lia].
  destruct (N.ltb_spec (max_allocation_bytes limits) (count * size)), u; naive_solver lia.
Qed.

Lemma overlaps_some_false offset end_ ranges : overlaps_some offset end_ ranges = false <-> forall r, r ∈ ranges -> apart (offset, end_) r.
Proof.
  unfold overlaps_some. rewrite <- not_true_iff_false, existsb_exists. setoid_rewrite <- list_elem_of_In. unfold apart, ranges_overlap. cbn [fst snd]. split.
  - intros Hn r Hr. destruct (_ && _) eqn:E; [|done]. destruct Hn. by exists r.
  - intros Ha (r & Hr & E). by rewrite (Ha r Hr) in E.
Qed.
End Reads.

(** What the reads of a successful run say. *)
Ltac im_reads :=
  repeat match goal with
  | H : u16_at _ _ _ = Ok _ |- _ => apply u16_at_Ok in H as (? & ? & ? & ?)
  | H : u32_at _ _ _ = Ok _ |- _ => apply u32_at_Ok in H as (? & ? & ? & ?)
  | H : u64_at _ _ _ = Ok _ |- _ => apply u64_at_Ok in H as (? & ? & ? & ?)
  | H : usize_at _ _ _ = Ok _ |- _ => apply usize_at_Ok in H as (? & ? & ? & ?)
  | H : array _ _ _ _ = Ok _ |- _ => apply im_array_Ok in H as (? & ? & ?)
  | H : checked_range _ _ _ _ = Ok _ |- _ => apply im_range_Ok in H as (? & ? & ?)
  | H : usize_from_u64 _ _ = Ok _ |- _ => apply usize_from_u64_Ok in H as (-> & ?)
  | H : u64_from_usize _ = Ok _ |- _ => apply u64_from_usize_Ok in H as (-> & ?)
  | H : allocation_check _ _ _ = Ok _ |- _ => apply allocation_check_Ok in H as (? & ?)
  | H : nonzero _ = false |- _ => apply nonzero_false in H
  end.

(** ** Records made of fields *)

(** The pieces lie at [base + off] and on, one after the other. *)
Fixpoint pieces_at (data : bytes) (base off : N) (pieces : list (N * bytes)) : Prop :=
  match pieces with
  | [] => True
  | (n, piece) :: pieces => slice data (base + off) (base + (off + n)) = piece /\ pieces_at data base (off + n) pieces
  end.

Definition sized (pieces : list (N * bytes)) : Prop := Forall (fun p => len p.2 = p.1) pieces.
Definition total_size (pieces : list (N * bytes)) : N := foldr (fun p s => p.1 + s) 0 pieces.

Lemma sized_len pieces : sized pieces -> len (concat pieces.*2) = total_size pieces.
Proof.
  unfold sized. induction 1 as [|[n p] pieces Hp _ IH]; [done|]. rewrite fmap_cons. cbn [concat]. rewrite len_app, IH. cbn in *. by rewrite Hp.
Qed.

(** A range is its pieces exactly when each lies in its place. *)
Lemma pieces_at_concat data base off pieces : sized pieces -> base + off + total_size pieces <= len data ->
  pieces_at data base off pieces <-> slice data (base + off) (base + off + total_size pieces) = concat pieces.*2.
Proof.
  intros Hs. revert off. induction Hs as [|[n p] pieces Hp Hs IH]; intros off Hl; cbn [pieces_at total_size foldr fst].
  { rewrite N.add_0_r. unfold slice. by rewrite N.sub_diag. }
  fold (total_size pieces). cbn [total_size foldr fst] in Hl. fold (total_size pieces) in Hl. cbn [fst snd] in Hp.
  rewrite IH by lia. rewrite fmap_cons. cbn [concat snd].
  rewrite <- (slice_join data (base + off) (base + (off + n)) (base + off + (n + total_size pieces))) by lia.
  replace (base + (off + n) + total_size pieces) with (base + off + (n + total_size pieces)) by lia. split; [by intros [-> ->]|].
  apply app_inj_1. assert (Hsl : len (slice data (base + off) (base + (off + n))) = n) by (rewrite slice_len by lia; lia).
  unfold len in *. lia.
Qed.

Lemma pieces_at_bytes pieces base data : sized pieces -> base + total_size pieces <= len data ->
  pieces_at data base 0 pieces <-> slice data base (base + total_size pieces) = concat pieces.*2.
Proof. intros Hs Hl. rewrite pieces_at_concat by (done || lia). by rewrite !N.add_0_r. Qed.

(** The conjunction [pieces_at] stands for, its offsets computed. *)
Ltac pieces_simpl :=
  cbn [pieces_at] in *;
  repeat match goal with
  | |- context [N.add (Npos ?a) (Npos ?b)] => let c := eval compute in (N.add (Npos a) (Npos b)) in change (N.add (Npos a) (Npos b)) with c
  | |- context [N.add 0 (Npos ?b)] => change (N.add 0 (Npos b)) with (Npos b)
  | H : context [N.add (Npos ?a) (Npos ?b)] |- _ => let c := eval compute in (N.add (Npos a) (Npos b)) in change (N.add (Npos a) (Npos b)) with c in H
  | H : context [N.add 0 (Npos ?b)] |- _ => change (N.add 0 (Npos b)) with (Npos b) in H
  end.

(** A range the context determines, up to its bounds. *)
Ltac same_slice :=
  match goal with
  | |- slice ?b ?x ?y = _ => match goal with H : slice b ?x' ?y' = _ |- _ =>
      replace (slice b x y) with (slice b x' y') by (f_equal; lia); first [exact H | rewrite H; solve [done | f_equal; lia]] end
  end.

(** Run the reads of the goal that the context determines. *)
Ltac im_side := split_and!; [lia|lia|same_slice|first [assumption|done|lia]].
Ltac im_read_back :=
  repeat match goal with
  | |- context [u16_at ?b ?o ?l] => erewrite (proj2 (u16_at_Ok b o l _)) by im_side
  | |- context [u32_at ?b ?o ?l] => erewrite (proj2 (u32_at_Ok b o l _)) by im_side
  | |- context [u64_at ?b ?o ?l] => erewrite (proj2 (u64_at_Ok b o l _)) by im_side
  | |- context [usize_at ?b ?o ?l] => erewrite (proj2 (usize_at_Ok b o l _)) by im_side
  | |- context [array ?n ?b ?o ?l] => erewrite (proj2 (im_array_Ok n b o l _)) by (split_and!; [lia|lia|same_slice])
  end; cbv beta iota.

Lemma nonzero_zeros n : nonzero (zeros n) = false.
Proof. apply nonzero_false. unfold zeros. by rewrite length_replicate. Qed.

Lemma slice_len_N (data : bytes) a e n : a <= e -> e <= len data -> n = e - a -> len (slice data a e) = n.
Proof. intros ? ? ->. by apply slice_len. Qed.

(** ** Entries of pages *)

Definition locator_ok (e : Locator) : Prop :=
  lo_object_id e <> 0 /\ lo_object_id e <= U64_MAX /\ lo_kind e <> 0 /\ lo_kind e <= U16_MAX /\ lo_record_offset e <= U64_MAX /\
  lo_record_len e <= U64_MAX /\ lo_logical_len e <= U64_MAX /\ len (lo_digest e) = 32.

Definition locator_pieces (e : Locator) : list (N * bytes) :=
  [(8, le_encode 8 (lo_object_id e)); (2, le_encode 2 (lo_kind e)); (6, zeros 6); (8, le_encode 8 (lo_record_offset e));
   (8, le_encode 8 (lo_record_len e)); (8, le_encode 8 (lo_logical_len e)); (32, lo_digest e); (16, zeros 16)].
Definition locator_bytes (e : Locator) : bytes := concat (locator_pieces e).*2.

Definition child_ok (c : PageRef) : Prop :=
  pr_minimum c <= pr_maximum c /\ pr_maximum c <= U64_MAX /\ pr_offset c <= U64_MAX /\ len (pr_digest c) = 32.

Definition child_pieces (c : PageRef) : list (N * bytes) :=
  [(8, le_encode 8 (pr_minimum c)); (8, le_encode 8 (pr_maximum c)); (8, le_encode 8 (pr_offset c)); (8, le_encode 8 PAGE_SIZE); (32, pr_digest c)].
Definition child_bytes (c : PageRef) : bytes := concat (child_pieces c).*2.

Lemma locator_sized e : len (lo_digest e) = 32 -> sized (locator_pieces e).
Proof. intros Hd. unfold sized, locator_pieces. repeat constructor; done. Qed.

Lemma child_sized c : len (pr_digest c) = 32 -> sized (child_pieces c).
Proof. intros Hd. unfold sized, child_pieces. repeat constructor; done. Qed.

Lemma locator_bytes_len e : len (lo_digest e) = 32 -> len (locator_bytes e) = LEAF_ENTRY_LEN.
Proof. intros Hd. unfold locator_bytes. by rewrite sized_len by by apply locator_sized. Qed.

Lemma child_bytes_len c : len (pr_digest c) = 32 -> len (child_bytes c) = INTERNAL_ENTRY_LEN.
Proof. intros Hd. unfold child_bytes. by rewrite sized_len by by apply child_sized. Qed.

Lemma parse_leaf_entry_Ok page i e : PAGE_HEADER_LEN + (i + 1) * LEAF_ENTRY_LEN <= len page -> len page <= U64_MAX ->
  parse_leaf_entry page i = Ok e <->
  locator_ok e /\ slice page (PAGE_HEADER_LEN + i * LEAF_ENTRY_LEN) (PAGE_HEADER_LEN + (i + 1) * LEAF_ENTRY_LEN) = locator_bytes e.
Proof.
  intros Hl Hm. unfold parse_leaf_entry. set (o := PAGE_HEADER_LEN + i * LEAF_ENTRY_LEN).
  replace (PAGE_HEADER_LEN + (i + 1) * LEAF_ENTRY_LEN) with (o + total_size (locator_pieces e)).
  2: { change (total_size (locator_pieces e)) with LEAF_ENTRY_LEN. unfold o. lia. }
  assert (Ho : o + 88 <= len page) by (unfold o, LEAF_ENTRY_LEN in *; lia). clearbody o. clear Hl.
  split.
  - intros Hr. step_result Hr. bool_facts. im_reads. injection Hr as <-.
    assert (Hok : len (slice page (o + 40) (o + 40 + 32)) = 32) by (apply slice_len_N; lia).
    subst. split; [unfold locator_ok; cbn; split_and!; done|].
    apply pieces_at_bytes; [by apply locator_sized|change (total_size _) with 88; lia|].
    unfold locator_pieces. cbn [lo_object_id lo_kind lo_record_offset lo_record_len lo_logical_len lo_digest]. pieces_simpl.
    split_and!; try done; try same_slice; try (f_equal; lia).
    all: apply slice_zero_fact; [assumption|lia..].
  - intros ((Hi & Hi' & Hk & Hk' & H1 & H2 & H3 & Hd) & Hs). apply pieces_at_bytes in Hs; [|by apply locator_sized|change (total_size _) with 88; lia].
    destruct e as [id kind off n m d]. unfold locator_pieces in Hs. cbn [lo_object_id lo_kind lo_record_offset lo_record_len lo_logical_len lo_digest] in *. pieces_simpl. destruct_and!.
    rewrite N.add_0_r in *.
    im_read_back.
    rewrite H0, H9, !nonzero_zeros, (proj2 (N.eqb_neq id 0)), (proj2 (N.eqb_neq kind 0)) by done. done.
Qed.

Lemma parse_child_entry_Ok page level i c : PAGE_HEADER_LEN + (i + 1) * INTERNAL_ENTRY_LEN <= len page -> len page <= U64_MAX ->
  parse_child_entry page level i = Ok c <->
  child_ok c /\ pr_level c = level - 1 /\
  slice page (PAGE_HEADER_LEN + i * INTERNAL_ENTRY_LEN) (PAGE_HEADER_LEN + (i + 1) * INTERNAL_ENTRY_LEN) = child_bytes c.
Proof.
  intros Hl Hm. unfold parse_child_entry. set (o := PAGE_HEADER_LEN + i * INTERNAL_ENTRY_LEN).
  replace (PAGE_HEADER_LEN + (i + 1) * INTERNAL_ENTRY_LEN) with (o + total_size (child_pieces c)).
  2: { change (total_size (child_pieces c)) with INTERNAL_ENTRY_LEN. unfold o. lia. }
  assert (Ho : o + 64 <= len page) by (unfold o, INTERNAL_ENTRY_LEN in *; lia). clearbody o. clear Hl.
  assert (HPS : PAGE_SIZE <= U64_MAX) by (by apply N.leb_le).
  split.
  - intros Hr. step_result Hr. bool_facts. im_reads. injection Hr as <-.
    assert (Hok : len (slice page (o + 32) (o + 32 + 32)) = 32) by (apply slice_len_N; lia).
    subst. split; [unfold child_ok; cbn; split_and!; done|]. split; [done|].
    apply pieces_at_bytes; [by apply child_sized|change (total_size _) with 64; lia|].
    unfold child_pieces. cbn [pr_minimum pr_maximum pr_offset pr_digest]. pieces_simpl.
    split_and!; try done; try same_slice; f_equal; lia.
  - intros ((Hk & Hk' & H1 & Hd) & Hlv & Hs). apply pieces_at_bytes in Hs; [|by apply child_sized|change (total_size _) with 64; lia].
    destruct c as [mi ma off lv d]. unfold child_pieces in Hs. cbn [pr_minimum pr_maximum pr_offset pr_level pr_digest] in *. pieces_simpl. destruct_and!.
    rewrite N.add_0_r in *. assert (mi <= U64_MAX) by lia.
    im_read_back. rewrite (proj2 (N.ltb_ge _ _) Hk), N.eqb_refl. cbn. by subst lv.
Qed.

Lemma for_entries_Ok {A} (f : N -> I A) count l :
  for_entries f count = Ok l <-> len l = count /\ forall i x, l !! i = Some x -> f (N.of_nat i) = Ok x.
Proof.
  unfold for_entries. assert (Hgen : forall k s l, map_result (fun i => f (N.of_nat i)) (seq s k) = Ok l <->
    length l = k /\ forall i x, l !! i = Some x -> f (N.of_nat (s + i)) = Ok x).
  { clear. intros k. induction k as [|k IH]; intros s l; cbn [seq map_result].
    - split; [intros [= <-]; done|]. intros [Hl _]. by destruct l.
    - split.
      + intros Hr. step_result Hr. injection Hr as <-. apply IH in Heqr0 as [<- Hi]. split; [done|]. intros [|i] x; cbn [lookup list_lookup].
        * intros [= <-]. by rewrite Nat.add_0_r.
        * intros Hx. rewrite Nat.add_succ_r, <- Nat.add_succ_l. by apply Hi.
      + intros [Hl Hi]. destruct l as [|x l]; [done|]. injection Hl as Hl. pose proof (Hi 0%nat x eq_refl) as H0. rewrite Nat.add_0_r in H0. rewrite H0.
        rewrite (proj2 (IH (S s) l)); [done|]. split; [done|]. intros i y Hy. specialize (Hi (S i) y Hy). by rewrite Nat.add_succ_r in Hi. }
  rewrite Hgen. unfold len. cbn [plus]. split; intros [Hl Hi]; (split; [lia|done]).
Qed.

Definition sized_entry (size : N) (entry : bytes) : N * bytes := (size, entry).

(** Entries of one size, one after the other. *)
Lemma uniform_at data base off size (entries : list bytes) :
  pieces_at data base off (sized_entry size <$> entries) <->
  forall i e, entries !! i = Some e -> slice data (base + (off + N.of_nat i * size)) (base + (off + (N.of_nat i + 1) * size)) = e.
Proof.
  revert off. induction entries as [|e entries IH]; intros off.
  { split; [done|done]. }
  rewrite fmap_cons. cbn [pieces_at sized_entry]. rewrite IH. split.
  - intros [He Hes] [|i] x; cbn [lookup list_lookup].
    + intros [= <-]. rewrite <- He. f_equal; lia.
    + intros Hx. rewrite <- (Hes i x Hx). f_equal; lia.
  - intros Hes. split.
    + rewrite <- (Hes 0%nat e eq_refl). f_equal; lia.
    + intros i x Hx. rewrite <- (Hes (S i) x Hx). f_equal; lia.
Qed.

Lemma uniform_sized size (entries : list bytes) : Forall (fun e => len e = size) entries -> sized (sized_entry size <$> entries).
Proof. intros Hs. unfold sized. by apply Forall_fmap. Qed.

Lemma uniform_total size (entries : list bytes) : total_size (sized_entry size <$> entries) = len entries * size.
Proof. induction entries as [|e entries IH]; [done|]. rewrite fmap_cons, len_cons. cbn [total_size foldr fst sized_entry]. fold (total_size (sized_entry size <$> entries)). lia. Qed.

Lemma uniform_concat size (entries : list bytes) : concat (sized_entry size <$> entries).*2 = concat entries.
Proof. rewrite <- list_fmap_compose. f_equal. induction entries as [|e entries IH]; [done|]. by rewrite fmap_cons, IH. Qed.

Lemma uniform_bytes data base size (entries : list bytes) : Forall (fun e => len e = size) entries -> base + len entries * size <= len data ->
  slice data base (base + len entries * size) = concat entries <->
  forall i e, entries !! i = Some e -> slice data (base + N.of_nat i * size) (base + (N.of_nat i + 1) * size) = e.
Proof.
  intros Hs Hl. pose proof (pieces_at_bytes (sized_entry size <$> entries) base data (uniform_sized _ _ Hs)) as Hp. rewrite uniform_total, uniform_concat, uniform_at in Hp.
  rewrite <- Hp by done. split; intros Hi i e He; [specialize (Hi i e He)|]; rewrite ?N.add_0_l in *; [done|by apply Hi].
Qed.

(** ** Pages *)

Definition page_header_pieces (kind level count entry_size minimum maximum : N) : list (N * bytes) :=
  [(8, PAGE_MAGIC); (1, [byte_of_N kind]); (1, [byte_of_N level]); (2, zeros 2); (4, le_encode 4 count); (4, le_encode 4 entry_size);
   (8, le_encode 8 minimum); (8, le_encode 8 maximum); (28, zeros 28)].

(** A page: its header, its entries and zeros up to the size of pages. *)
Definition page_bytes (kind level entry_size minimum maximum : N) (entries : list bytes) : bytes :=
  concat (page_header_pieces kind level (len entries) entry_size minimum maximum).*2 ++ concat entries ++
  zeros (N.to_nat (PAGE_SIZE - (PAGE_HEADER_LEN + len entries * entry_size))).

(** What a page holds: locators of records or references to pages. *)
Inductive Content : Type :=
  | Locators (locators : list Locator)
  | Children (children : list PageRef).

Definition locators_ordered : list Locator -> Prop := StronglySorted (fun x y => lo_object_id x < lo_object_id y).
Definition references_ordered : list PageRef -> Prop := Sorted (fun x y => pr_maximum x < pr_minimum y).

Definition content_ok (reference : PageRef) (content : Content) : Prop :=
  match content with
  | Locators es => pr_level reference = 0 /\ len es <= LEAF_CAPACITY /\ Forall locator_ok es /\ locators_ordered es /\
      lo_object_id <$> head es = Some (pr_minimum reference) /\ lo_object_id <$> last es = Some (pr_maximum reference)
  | Children cs => pr_level reference <> 0 /\ pr_level reference <= 255 /\ len cs <= INTERNAL_FANOUT /\
      Forall (fun c => child_ok c /\ pr_level c = pr_level reference - 1) cs /\ references_ordered cs /\
      pr_minimum <$> head cs = Some (pr_minimum reference) /\ pr_maximum <$> last cs = Some (pr_maximum reference)
  end.

Definition content_bytes (reference : PageRef) (content : Content) : bytes :=
  match content with
  | Locators es => page_bytes 1 0 LEAF_ENTRY_LEN (pr_minimum reference) (pr_maximum reference) (locator_bytes <$> es)
  | Children cs => page_bytes 2 (pr_level reference) INTERNAL_ENTRY_LEN (pr_minimum reference) (pr_maximum reference) (child_bytes <$> cs)
  end.

Lemma page_header_sized kind level count size minimum maximum : sized (page_header_pieces kind level count size minimum maximum).
Proof. unfold sized, page_header_pieces. repeat constructor. Qed.

Lemma page_bytes_at page kind level size minimum maximum (entries : list bytes) :
  len page = PAGE_SIZE -> Forall (fun e => len e = size) entries -> PAGE_HEADER_LEN + len entries * size <= PAGE_SIZE ->
  page = page_bytes kind level size minimum maximum entries <->
  pieces_at page 0 0 (page_header_pieces kind level (len entries) size minimum maximum) /\
  (forall i e, entries !! i = Some e -> slice page (PAGE_HEADER_LEN + N.of_nat i * size) (PAGE_HEADER_LEN + (N.of_nat i + 1) * size) = e) /\
  slice page (PAGE_HEADER_LEN + len entries * size) (len page) = zeros (N.to_nat (PAGE_SIZE - (PAGE_HEADER_LEN + len entries * size))).
Proof.
  intros Hp Hs Hl. assert (HPS : PAGE_HEADER_LEN <= len page) by lia.
  rewrite pieces_at_bytes; [|apply page_header_sized|exact HPS]. rewrite <- uniform_bytes by (done || lia).
  change (0 + total_size _) with PAGE_HEADER_LEN. unfold page_bytes.
  set (hd := concat (page_header_pieces _ _ _ _ _ _).*2). assert (Hhd : len hd = PAGE_HEADER_LEN) by reflexivity. clearbody hd.
  assert (Hes : len (concat entries) = len entries * size).
  { pose proof (sized_len _ (uniform_sized _ _ Hs)) as Hc. by rewrite uniform_total, uniform_concat in Hc. }
  set (pad := zeros _). assert (Hpad : len pad = PAGE_SIZE - (PAGE_HEADER_LEN + len entries * size)) by (unfold pad; rewrite len_zeros; lia). clearbody pad.
  split.
  - intros ->. autorewrite with len. rewrite Hhd, Hes, Hpad. split_and!.
    + rewrite slice_app_l by lia. unfold slice. change (N.to_nat 0) with 0%nat. rewrite drop_0. rewrite N.sub_0_r, <- Hhd, len_to_nat. apply firstn_all.
    + apply slice_app; [done|]. lia.
    + rewrite app_assoc. rewrite slice_app_r by (autorewrite with len; lia). autorewrite with len. rewrite Hhd, Hes.
      replace (_ - _) with 0 by lia. replace (_ - (_ + _)) with (len pad) by lia. apply slice_all.
  - intros (H1 & H2 & H3). rewrite <- H1, <- H2, <- H3, (slice_join page) by lia. rewrite slice_join by lia. by rewrite slice_all.
Qed.

Lemma byte_at_Ok page offset v : offset + 1 <= len page -> byte_at page offset = v <-> slice page offset (offset + 1) = [byte_of_N v] /\ v < 256.
Proof.
  intros Hl. unfold byte_at. pose proof (slice_length page offset (offset + 1) 1 ltac:(lia) Hl ltac:(lia)) as Hs.
  destruct (slice page offset (offset + 1)) as [|x [|y r]]; [done| |done]. cbn [le_decode]. rewrite N.mul_0_r, N.add_0_r. split.
  - intros <-. rewrite byte_of_N_of_byte. split; [done|apply N_of_byte_lt].
  - intros [[= ->] Hv]. rewrite N_of_byte_of_N. by apply N.mod_small.
Qed.

Lemma locators_ordered_Ok es : locators_unordered es = false <-> locators_ordered es.
Proof.
  unfold locators_unordered, locators_ordered. rewrite any_window_false. split.
  - intros Hs. apply Sorted_StronglySorted; [intros x y z; lia|]. eapply Sorted_mono; [|exact Hs]. intros x y Hxy. by apply N.leb_gt.
  - intros Hs%StronglySorted_Sorted. eapply Sorted_mono; [|exact Hs]. intros x y Hxy. by apply N.leb_gt.
Qed.

Lemma references_ordered_Ok cs : references_unordered cs = false <-> references_ordered cs.
Proof.
  unfold references_unordered, references_ordered. rewrite any_window_false.
  split; intros Hs; eapply Sorted_mono; try exact Hs; intros x y Hxy; by apply N.leb_gt.
Qed.

Definition fits (size count : N) (limits : ImmutableLimits) : Prop := count * size <= max_allocation_bytes limits /\ count * size <= U64_MAX.

Lemma leaf_capacity_fits n : n <= LEAF_CAPACITY -> PAGE_HEADER_LEN + n * LEAF_ENTRY_LEN <= PAGE_SIZE.
Proof. intros Hn. assert (HC : PAGE_HEADER_LEN + LEAF_CAPACITY * LEAF_ENTRY_LEN <= PAGE_SIZE) by (by apply N.leb_le). unfold LEAF_ENTRY_LEN in *. lia. Qed.

Lemma internal_fanout_fits n : n <= INTERNAL_FANOUT -> PAGE_HEADER_LEN + n * INTERNAL_ENTRY_LEN <= PAGE_SIZE.
Proof. intros Hn. assert (HC : PAGE_HEADER_LEN + INTERNAL_FANOUT * INTERNAL_ENTRY_LEN <= PAGE_SIZE) by (by apply N.leb_le). unfold INTERNAL_ENTRY_LEN in *. lia. Qed.

Section PageParsing.
Context `{HS : Sha256} `{HL : Layout}.

(** The entries and the padding of a leaf. *)
Definition leaf_body (page : bytes) (es : list Locator) : Prop :=
  (forall i e, (locator_bytes <$> es) !! i = Some e ->
     slice page (PAGE_HEADER_LEN + N.of_nat i * LEAF_ENTRY_LEN) (PAGE_HEADER_LEN + (N.of_nat i + 1) * LEAF_ENTRY_LEN) = e) /\
  slice page (PAGE_HEADER_LEN + len es * LEAF_ENTRY_LEN) (len page) = zeros (N.to_nat (PAGE_SIZE - (PAGE_HEADER_LEN + len es * LEAF_ENTRY_LEN))).

Lemma entries_Ok {A} (f : N -> I A) (ok : A -> Prop) (encode : A -> bytes) (page : bytes) size (n : N) es :
  (forall i e, (i + 1) * size <= n * size -> f i = Ok e <-> ok e /\ slice page (PAGE_HEADER_LEN + i * size) (PAGE_HEADER_LEN + (i + 1) * size) = encode e) ->
  for_entries f n = Ok es <->
  len es = n /\ Forall ok es /\ forall i e, (encode <$> es) !! i = Some e ->
    slice page (PAGE_HEADER_LEN + N.of_nat i * size) (PAGE_HEADER_LEN + (N.of_nat i + 1) * size) = e.
Proof.
  intros Hf. rewrite for_entries_Ok. assert (Hi : forall i e, len es = n -> es !! i = Some e -> (N.of_nat i + 1) * size <= n * size).
  { intros i e Hn Hi%lookup_lt_Some. unfold len in Hn. apply N.mul_le_mono_r. lia. }
  split.
  - intros [Hn He]. split_and!; [done| |].
    + apply Forall_lookup. intros i e Hx. pose proof (He i e Hx) as Hx'. apply Hf in Hx' as [Hok _]; [done|by eapply Hi].
    + intros i e. rewrite list_lookup_fmap. intros (x & Hx & ->)%fmap_Some. pose proof (He i x Hx) as Hx'. apply Hf in Hx' as [_ Hs]; [done|by eapply Hi].
  - intros (Hn & Hok & He). split; [done|]. intros i x Hx. apply Hf; [by eapply Hi|]. split; [by eapply Forall_lookup_1|].
    apply He. by rewrite list_lookup_fmap, Hx.
Qed.

Lemma page_size_u64 (page : bytes) : len page = PAGE_SIZE -> len page <= U64_MAX.
Proof. intros ->. by apply N.leb_le. Qed.

Lemma leaf_entries_Ok page n es : len page = PAGE_SIZE -> n <= LEAF_CAPACITY ->
  for_entries (parse_leaf_entry page) n = Ok es <->
  len es = n /\ Forall locator_ok es /\ forall i e, (locator_bytes <$> es) !! i = Some e ->
    slice page (PAGE_HEADER_LEN + N.of_nat i * LEAF_ENTRY_LEN) (PAGE_HEADER_LEN + (N.of_nat i + 1) * LEAF_ENTRY_LEN) = e.
Proof.
  intros Hp Hn. apply entries_Ok. intros i e Hi. apply parse_leaf_entry_Ok; [|by apply page_size_u64]. pose proof (leaf_capacity_fits n Hn). lia.
Qed.

Lemma internal_entries_Ok page level n cs : len page = PAGE_SIZE -> n <= INTERNAL_FANOUT ->
  for_entries (parse_child_entry page level) n = Ok cs <->
  len cs = n /\ Forall (fun c => child_ok c /\ pr_level c = level - 1) cs /\ forall i e, (child_bytes <$> cs) !! i = Some e ->
    slice page (PAGE_HEADER_LEN + N.of_nat i * INTERNAL_ENTRY_LEN) (PAGE_HEADER_LEN + (N.of_nat i + 1) * INTERNAL_ENTRY_LEN) = e.
Proof.
  intros Hp Hn. apply (entries_Ok _ (fun c => child_ok c /\ pr_level c = level - 1)). intros i e Hi.
  rewrite parse_child_entry_Ok; [tauto| |by apply page_size_u64]. pose proof (internal_fanout_fits n Hn). lia.
Qed.

Lemma parse_leaf_Ok page level size count minimum maximum limits tv tv' : len page = PAGE_SIZE ->
  parse_leaf page level size count minimum maximum limits tv = Ok tv' <->
  exists es, level = 0 /\ size = LEAF_ENTRY_LEN /\ count = len es /\ len es <= LEAF_CAPACITY /\ Forall locator_ok es /\ leaf_body page es /\
    locators_ordered es /\ lo_object_id <$> head es = Some minimum /\ lo_object_id <$> last es = Some maximum /\
    len (tv_locators tv) + len es <= max_objects limits /\ len (tv_locators tv) + len es <= U64_MAX /\
    fits size_of_locator (len (tv_locators tv) + len es) limits /\
    tv' = mkTraversal (tv_seen tv) (tv_stack tv) (tv_locators tv ++ es) (tv_ranges tv).
Proof.
  intros Hp. pose proof (fun n es => leaf_entries_Ok page n es Hp) as Hentries.
  unfold parse_leaf, leaf_body, fits. split.
  - intros Hr. step_result Hr. bool_facts. im_reads. option_facts. injection Hr as <-. subst.
    match goal with H : for_entries _ _ = Ok ?l |- _ => rename l into es; apply Hentries in H as (<- & Hok & He); [|done] end.
    exists es. rewrite locators_ordered_Ok in *. split_and!; try done.
    match goal with H : slice page _ _ = zeros (length _) |- _ => rewrite H end. f_equal. pose proof (leaf_capacity_fits (len es) ltac:(done)).
    match goal with |- length ?s = _ => assert (len s = PAGE_SIZE - (PAGE_HEADER_LEN + len es * LEAF_ENTRY_LEN)) by (rewrite slice_len by lia; lia) end.
    unfold len in *. lia.
  - intros (es & -> & -> & -> & Hc & Hok & (He & Hz) & Ho & Hmin & Hmax & Hl1 & Hl2 & (Hf1 & Hf2) & ->).
    rewrite !N.eqb_refl. rewrite (proj2 (N.ltb_ge _ _) Hc). cbn [andb negb]. rewrite checked_add_fits by done. cbn [ok_or]. rewrite (proj2 (N.ltb_ge _ _) Hl1).
    cbn [negb]. rewrite (proj2 (allocation_check_Ok _ _ _ tt)) by done. rewrite (proj2 (Hentries (len es) es Hc)) by done.
    rewrite (proj2 (locators_ordered_Ok _) Ho), Hmin, Hmax, !bool_decide_eq_true_2 by done. cbn [negb orb]. by rewrite Hz, nonzero_zeros.
Qed.

(** The entries and the padding of an internal page. *)
Definition internal_body (page : bytes) (cs : list PageRef) : Prop :=
  (forall i e, (child_bytes <$> cs) !! i = Some e ->
     slice page (PAGE_HEADER_LEN + N.of_nat i * INTERNAL_ENTRY_LEN) (PAGE_HEADER_LEN + (N.of_nat i + 1) * INTERNAL_ENTRY_LEN) = e) /\
  slice page (PAGE_HEADER_LEN + len cs * INTERNAL_ENTRY_LEN) (len page) = zeros (N.to_nat (PAGE_SIZE - (PAGE_HEADER_LEN + len cs * INTERNAL_ENTRY_LEN))).

Lemma parse_internal_Ok page level size count minimum maximum limits tv tv' : len page = PAGE_SIZE ->
  parse_internal page level size count minimum maximum limits tv = Ok tv' <->
  exists cs, level <> 0 /\ size = INTERNAL_ENTRY_LEN /\ count = len cs /\ len cs <= INTERNAL_FANOUT /\
    Forall (fun c => child_ok c /\ pr_level c = level - 1) cs /\ internal_body page cs /\
    references_ordered cs /\ pr_minimum <$> head cs = Some minimum /\ pr_maximum <$> last cs = Some maximum /\
    level <= max_depth limits /\ fits size_of_page_ref (len (tv_stack tv) + len cs) limits /\
    tv' = mkTraversal (tv_seen tv) (cs ++ tv_stack tv) (tv_locators tv) (tv_ranges tv).
Proof.
  intros Hp. pose proof (fun n cs => internal_entries_Ok page level n cs Hp) as Hentries.
  unfold parse_internal, internal_body, fits. split.
  - intros Hr. step_result Hr. bool_facts. im_reads. injection Hr as <-. subst.
    match goal with H : for_entries _ _ = Ok ?l |- _ => rename l into es; apply Hentries in H as (<- & Hok & He); [|done] end.
    exists es. rewrite references_ordered_Ok in *. split_and!; try done.
    match goal with H : slice page _ _ = zeros (length _) |- _ => rewrite H end. f_equal. pose proof (internal_fanout_fits (len es) ltac:(done)).
    match goal with |- length ?s = _ => assert (len s = PAGE_SIZE - (PAGE_HEADER_LEN + len es * INTERNAL_ENTRY_LEN)) by (rewrite slice_len by lia; lia) end.
    unfold len in *. lia.
  - intros (es & Hlv & -> & -> & Hc & Hok & (He & Hz) & Ho & Hmin & Hmax & Hl & (Hf1 & Hf2) & ->).
    rewrite (proj2 (N.eqb_neq _ _) Hlv), N.eqb_refl, (proj2 (N.ltb_ge _ _) Hc), (proj2 (N.ltb_ge _ _) Hl). cbn [andb negb].
    rewrite (proj2 (allocation_check_Ok _ _ _ tt)) by done. rewrite (proj2 (Hentries (len es) es Hc)) by done.
    rewrite (proj2 (references_ordered_Ok _) Ho), Hmin, Hmax, !bool_decide_eq_true_2 by done. cbn [negb orb]. by rewrite Hz, nonzero_zeros.
Qed.

(** The page a reference leads to. *)
Definition page_present (data : bytes) (reference : PageRef) (content : Content) : Prop :=
  FILE_HEADER_LEN <= pr_offset reference /\ pr_offset reference + PAGE_SIZE <= len data /\ pr_offset reference + PAGE_SIZE <= U64_MAX /\
  slice data (pr_offset reference) (pr_offset reference + PAGE_SIZE) = content_bytes reference content /\
  digest [PAGE_DOMAIN; content_bytes reference content] = pr_digest reference /\ content_ok reference content.

Definition content_locators (content : Content) : list Locator := match content with Locators es => es | Children _ => [] end.
Definition content_children (content : Content) : list PageRef := match content with Locators _ => [] | Children cs => cs end.

Definition im_page_range (offset : N) : N * N := (offset, offset + PAGE_SIZE).

(** What else the visit of a page asks. *)
Definition page_admitted (snapshot_offset : N) (limits : ImmutableLimits) (reference : PageRef) (content : Content) (tv : Traversal) : Prop :=
  pr_offset reference + PAGE_SIZE <= snapshot_offset /\ (forall r, r ∈ tv_ranges tv -> apart (im_page_range (pr_offset reference)) r) /\
  N.of_nat (size (tv_seen tv)) < max_pages limits /\ pr_offset reference ∉ tv_seen tv /\
  match content with
  | Locators es => len (tv_locators tv) + len es <= max_objects limits /\ len (tv_locators tv) + len es <= U64_MAX /\
      fits size_of_locator (len (tv_locators tv) + len es) limits
  | Children cs => pr_level reference <= max_depth limits /\ fits size_of_page_ref (len (tv_stack tv) + len cs) limits
  end.

Definition after_page (reference : PageRef) (content : Content) (tv : Traversal) : Traversal :=
  mkTraversal ({[pr_offset reference]} ∪ tv_seen tv) (content_children content ++ tv_stack tv) (tv_locators tv ++ content_locators content)
    (tv_ranges tv ++ [im_page_range (pr_offset reference)]).

Lemma page_bytes_leaf page reference es : len page = PAGE_SIZE -> Forall locator_ok es -> len es <= LEAF_CAPACITY -> 
  page = content_bytes reference (Locators es) <->
  pieces_at page 0 0 (page_header_pieces 1 0 (len es) LEAF_ENTRY_LEN (pr_minimum reference) (pr_maximum reference)) /\ leaf_body page es.
Proof.
  intros Hp Hok Hc. cbn [content_bytes]. rewrite page_bytes_at; rewrite ?len_fmap; [done|done| |by apply leaf_capacity_fits].
  apply Forall_fmap. eapply Forall_impl; [exact Hok|]. intros e He. apply locator_bytes_len, He.
Qed.

Lemma page_bytes_internal page reference cs : len page = PAGE_SIZE -> Forall child_ok cs -> len cs <= INTERNAL_FANOUT -> 
  page = content_bytes reference (Children cs) <->
  pieces_at page 0 0 (page_header_pieces 2 (pr_level reference) (len cs) INTERNAL_ENTRY_LEN (pr_minimum reference) (pr_maximum reference)) /\ internal_body page cs.
Proof.
  intros Hp Hok Hc. cbn [content_bytes]. rewrite page_bytes_at; rewrite ?len_fmap; [done|done| |by apply internal_fanout_fits].
  apply Forall_fmap. eapply Forall_impl; [exact Hok|]. intros e He. apply child_bytes_len, He.
Qed.

(** The fields of a page header. *)
Lemma page_header_reads page kind level count size minimum maximum : len page = PAGE_SIZE ->
  kind < 256 -> level < 256 -> count <= U32_MAX -> size <= U32_MAX -> minimum <= U64_MAX -> maximum <= U64_MAX ->
  pieces_at page 0 0 (page_header_pieces kind level count size minimum maximum) <->
  slice page 0 8 = PAGE_MAGIC /\ byte_at page 8 = kind /\ byte_at page 9 = level /\ u16_at page 10 "page header" = Ok 0 /\
  u32_at page 12 "page header" = Ok count /\ u32_at page 16 "page header" = Ok size /\ u64_at page 20 "page header" = Ok minimum /\
  u64_at page 28 "page header" = Ok maximum /\ nonzero (slice page 36 64) = false.
Proof.
  intros Hp Hk Hlv Hc Hs Hmin Hmax. assert (HPS : 64 <= len page) by (rewrite Hp; by apply N.leb_le). clear Hp.
  rewrite !byte_at_Ok, u16_at_Ok, !u32_at_Ok, !u64_at_Ok by lia. unfold page_header_pieces. pieces_simpl. simpl N.add.
  assert (Hz : nonzero (slice page 36 64) = false <-> slice page 36 64 = zeros 28).
  { rewrite nonzero_false. by rewrite (slice_length page 36 64 28) by lia. }
  rewrite Hz. change (le_encode 2 0) with (zeros 2). unfold U16_MAX, U32_MAX, U64_MAX in *. split; intros; destruct_and!; split_and!; try done; try lia.
Qed.

Lemma head_locator_bound es v : Forall locator_ok es -> lo_object_id <$> head es = Some v -> v <= U64_MAX.
Proof. intros Hok. destruct es as [|e es]; [done|]. intros [= <-]. apply Forall_cons in Hok as [(_ & ? & _) _]. done. Qed.

Lemma last_locator_bound es v : Forall locator_ok es -> lo_object_id <$> last es = Some v -> v <= U64_MAX.
Proof.
  intros Hok. destruct (last es) as [e|] eqn:El; [|done]. intros [= <-]. apply last_Some_elem_of in El.
  by destruct (proj1 (Forall_forall _ _) Hok e El) as (_ & ? & _).
Qed.

Lemma head_child_bound cs v : Forall child_ok cs -> pr_minimum <$> head cs = Some v -> v <= U64_MAX.
Proof. intros Hok. destruct cs as [|c cs]; [done|]. intros [= <-]. apply Forall_cons in Hok as [(? & ? & _) _]. lia. Qed.

Lemma last_child_bound cs v : Forall child_ok cs -> pr_maximum <$> last cs = Some v -> v <= U64_MAX.
Proof.
  intros Hok. destruct (last cs) as [c|] eqn:El; [|done]. intros [= <-]. apply last_Some_elem_of in El.
  by destruct (proj1 (Forall_forall _ _) Hok c El) as (_ & ? & _).
Qed.

Lemma some_len {A B} (f : A -> B) (l : list A) v : f <$> head l = Some v -> len l <> 0.
Proof. destruct l; [done|]. intros _. rewrite len_cons. lia. Qed.

(** The visit of a page succeeds exactly on a page in place that the limits
    and the pages already seen admit. *)
Lemma parse_page_Ok data reference snapshot_offset limits tv tv' :
  parse_page data reference snapshot_offset limits tv = Ok tv' <->
  exists content, page_present data reference content /\ page_admitted snapshot_offset limits reference content tv /\ tv' = after_page reference content tv.
Proof.
  unfold parse_page, page_present, page_admitted, after_page, im_page_range. set (o := pr_offset reference). split.
  - intros Hr. step_result Hr. bool_facts.
    match goal with H : try_insert _ _ = Some _ |- _ => apply try_insert_Some in H as [Hseen ->] | H : ok_or (try_insert _ _) _ = Ok _ |- _ => apply ok_or_Ok, try_insert_Some in H as [Hseen ->] end.
    option_facts. match goal with H : usize_from_u64 o _ = Ok ?a |- _ => apply usize_from_u64_Ok in H as [Ea _]; subst a end.
    match goal with H : checked_range _ _ _ _ = Ok _ |- _ => apply im_range_Ok in H as (Hd & Hm & Hpage) end.
    match goal with H : overlaps_some _ _ _ = false |- _ => rewrite overlaps_some_false in H; rename H into Hov end.
    match goal with H : slice data _ _ = ?p |- _ => rename p into page end.
    assert (Hlen : len page = PAGE_SIZE) by (rewrite <- Hpage, slice_len by lia; lia).
    assert (Hlev : byte_at page 9 < 256) by (apply (proj1 (byte_at_Ok page 9 (byte_at page 9) ltac:(rewrite Hlen; by apply N.leb_le)) eq_refl)).
    rename a3 into reserved, a4 into count, a5 into size_, a6 into minimum, a7 into maximum. subst reserved minimum maximum.
    assert (Hb1 : pr_minimum reference <= U64_MAX /\ pr_maximum reference <= U64_MAX /\ count <= U32_MAX /\ size_ <= U32_MAX) by (im_reads; done).
    destruct Hb1 as (Hmin & Hmax & Hcount & Hsize).
    assert (Hheader : forall kind, kind < 256 -> byte_at page 8 = kind ->
      pieces_at page 0 0 (page_header_pieces kind (byte_at page 9) count size_ (pr_minimum reference) (pr_maximum reference))).
    { intros kind Hk Ek. apply page_header_reads; done. }
    destruct (N.eqb_spec (byte_at page 8) 1) as [Ek|_]; [|destruct (N.eqb_spec (byte_at page 8) 2) as [Ek|_]; [|done]].
    + apply parse_leaf_Ok in Hr as (es & H0 & -> & -> & Hc & Hok & Hbody & Ho & Hh & Hl & Hm1 & Hm2 & Hfit & ->); [|done].
      cbn [tv_locators tv_stack tv_seen tv_ranges] in *.
      assert (E : page = content_bytes reference (Locators es)).
      { apply page_bytes_leaf; [done..|]. split; [|done]. specialize (Hheader 1 eq_refl Ek). by rewrite H0 in Hheader. }
      exists (Locators es). cbn [content_ok content_locators content_children]. split_and!; try done; congruence.
    + apply parse_internal_Ok in Hr as (cs & H0 & -> & -> & Hc & Hok & Hbody & Ho & Hh & Hl & Hm1 & Hfit & ->); [|done].
      cbn [tv_locators tv_stack tv_seen tv_ranges] in *. pose proof Hok as Hok'. apply Forall_and in Hok' as [Hok1 _].
      assert (E : page = content_bytes reference (Children cs)).
      { apply page_bytes_internal; [done..|]. split; [|done]. specialize (Hheader 2 eq_refl Ek). congruence. }
      match goal with H : byte_at page 9 = pr_level reference |- _ => rewrite H in * end.
      exists (Children cs). cbn [content_locators content_children]. rewrite app_nil_r. cbn [content_ok]. split_and!; try done; try congruence. lia.
  - intros (content & (Hlo & Hd & Hm & Hpage & Hdig & Hok) & (Hso & Hov & Hpages & Hseen & Hmatch) & ->). fold o in Hlo, Hd, Hm, Hpage, Hov, Hseen.
    rewrite (proj2 (usize_from_u64_Ok o _ o)) by (split; [done|lia]). rewrite (proj2 (N.ltb_ge _ _) Hlo). cbn [negb].
    rewrite checked_add_fits by done. cbn [ok_or]. rewrite (proj2 (N.ltb_ge _ _) Hso). cbn [negb]. rewrite (proj2 (overlaps_some_false _ _ _) Hov). cbn [negb].
    rewrite (proj2 (N.leb_gt _ _) Hpages). cbn [negb]. rewrite (proj2 (try_insert_Some _ _ _) (conj Hseen eq_refl)). cbn [ok_or].
    rewrite (proj2 (im_range_Ok data o PAGE_SIZE _ _) (conj Hd (conj Hm eq_refl))).
    assert (Hlen : len (slice data o (o + PAGE_SIZE)) = PAGE_SIZE) by (rewrite slice_len by lia; lia).
    rewrite Hpage in *. set (page := content_bytes reference content) in *. rewrite bool_decide_eq_true_2 by done.
    destruct content as [es|cs]; cbn [content_ok content_children content_locators] in *.
    + destruct Hok as (Hlv & Hc & Hok & Ho & Hh & Hl). destruct Hmatch as (Hm1 & Hm2 & Hfit).
      pose proof (proj1 (page_bytes_leaf page reference es Hlen Hok Hc) eq_refl) as [Hhd Hbody].
      apply page_header_reads in Hhd as (Hg1 & -> & -> & -> & -> & -> & -> & -> & ->); try done;
        [|assert (LEAF_CAPACITY <= U32_MAX) by (by apply N.leb_le); lia|by eapply head_locator_bound|by eapply last_locator_bound].
      rewrite (bool_decide_eq_true_2 _ Hg1), Hlv, !N.eqb_refl, (proj2 (N.eqb_neq _ _) (some_len _ _ _ Hh)). cbn [andb negb N.eqb].
      apply parse_leaf_Ok; [done|]. exists es. by split_and!.
    + destruct Hok as (Hlv & Hlv' & Hc & Hok & Ho & Hh & Hl). destruct Hmatch as (Hm1 & Hfit). pose proof Hok as Hok'. apply Forall_and in Hok' as [Hok1 _].
      pose proof (proj1 (page_bytes_internal page reference cs Hlen Hok1 Hc) eq_refl) as [Hhd Hbody].
      apply page_header_reads in Hhd as (Hg1 & -> & -> & -> & -> & -> & -> & -> & ->); try done;
        [|lia|assert (INTERNAL_FANOUT <= U32_MAX) by (by apply N.leb_le); lia|by eapply head_child_bound|by eapply last_child_bound].
      rewrite (bool_decide_eq_true_2 _ Hg1), !N.eqb_refl, (proj2 (N.eqb_neq _ _) (some_len _ _ _ Hh)). cbn [andb negb N.eqb Pos.eqb].
      apply parse_internal_Ok; [done|]. exists cs. rewrite app_nil_r. by split_and!.
Qed.
End PageParsing.

(** ** Trees of pages *)

Section Tree.
Context `{HS : Sha256} `{HL : Layout}.
Implicit Types data : bytes.

(** The page at a reference roots a tree of [h] internal levels over the
    locators [es], its pages at the offsets [offs]. *)
Fixpoint ptree data (h : nat) (reference : PageRef) (es : list Locator) (offs : list N) : Prop :=
  match h with
  | O => page_present data reference (Locators es) /\ offs = [pr_offset reference]
  | S h => exists cs (subs : list (list Locator * list N)), page_present data reference (Children cs) /\
      Forall2 (fun c sub => ptree data h c sub.1 sub.2) cs subs /\
      es = concat subs.*1 /\ offs = pr_offset reference :: concat subs.*2
  end.

Definition tree_at data (reference : PageRef) (sub : list Locator * list N) : Prop :=
  ptree data (N.to_nat (pr_level reference)) reference sub.1 sub.2.

Definition top_subtree (reference : PageRef) (content : Content) (subs : list (list Locator * list N)) : list Locator * list N :=
  (content_locators content ++ concat subs.*1, pr_offset reference :: concat subs.*2).

Lemma children_trees data h reference cs subs : page_present data reference (Children cs) -> N.to_nat (pr_level reference) = S h ->
  Forall2 (tree_at data) cs subs <-> Forall2 (fun c sub => ptree data h c sub.1 sub.2) cs subs.
Proof.
  intros (_ & _ & _ & _ & _ & _ & _ & _ & Hok & _) Hh. split; intros Hf.
  - revert Hok. induction Hf as [|c sub cs subs Hc Hf IH]; [constructor|]. intros [[_ Hl] Hok]%Forall_cons. constructor; [|by apply IH].
    unfold tree_at in Hc. by replace (N.to_nat (pr_level c)) with h in Hc by lia.
  - revert Hok. induction Hf as [|c sub cs subs Hc Hf IH]; [constructor|]. intros [[_ Hl] Hok]%Forall_cons. constructor; [|by apply IH].
    unfold tree_at. by replace (N.to_nat (pr_level c)) with h by lia.
Qed.

Lemma tree_unfold data reference sub : tree_at data reference sub <->
  exists content subs, page_present data reference content /\ Forall2 (tree_at data) (content_children content) subs /\ sub = top_subtree reference content subs.
Proof.
  unfold tree_at at 1, top_subtree. destruct sub as [es offs]. cbn [fst snd]. destruct (N.to_nat (pr_level reference)) as [|h] eqn:Eh; cbn [ptree]; split.
  - intros [Hp ->]. exists (Locators es), []. split_and!; [done|constructor|]. cbn. by rewrite app_nil_r.
  - intros ([es'|cs] & subs & Hp & Hf & [= -> ->]).
    + apply Forall2_nil_inv_l in Hf as ->. cbn. by rewrite app_nil_r.
    + destruct Hp as (_ & _ & _ & _ & _ & Hl & _). lia.
  - intros (cs & subs & Hp & Hf & -> & ->). exists (Children cs), subs. split_and!; [done| |done]. by eapply children_trees.
  - intros ([es'|cs] & subs & Hp & Hf & [= -> ->]).
    + destruct Hp as (_ & _ & _ & _ & _ & Hl & _). lia.
    + exists cs, subs. split_and!; [done| |done..]. by eapply children_trees.
Qed.

Abbreviation subtrees := (list (list Locator * list N)).

Definition traversed (tv : Traversal) (subs : subtrees) : Traversal :=
  mkTraversal (list_to_set (concat subs.*2) ∪ tv_seen tv) [] (tv_locators tv ++ concat subs.*1)
    (tv_ranges tv ++ (im_page_range <$> concat subs.*2)).

Definition objects_fit (n : N) (limits : ImmutableLimits) : Prop := n <= max_objects limits /\ n <= U64_MAX /\ fits size_of_locator n limits.

Lemma fits_le size n m limits : n <= m -> fits size m limits -> fits size n limits.
Proof. unfold fits. intros Hn [H1 H2]. assert (n * size <= m * size) by nia. lia. Qed.

Lemma objects_fit_le n m limits : n <= m -> objects_fit m limits -> objects_fit n limits.
Proof. intros Hn (? & ? & ?). split_and!; [lia|lia|by eapply fits_le]. Qed.

(** The trees on the stack share no byte, with each other or with what the
    traversal has seen. *)
Record trees_clear (snapshot_offset : N) (tv : Traversal) (subs : subtrees) : Prop := mkClear {
  tc_nodup : NoDup (concat subs.*2);
  tc_new o : o ∈ concat subs.*2 -> o ∉ tv_seen tv;
  tc_below o : o ∈ concat subs.*2 -> o + PAGE_SIZE <= snapshot_offset;
  tc_disjoint : disjoint_ranges (im_page_range <$> concat subs.*2);
  tc_apart o r : o ∈ concat subs.*2 -> r ∈ tv_ranges tv -> apart (im_page_range o) r;
}.

(** What a traversal asks of the trees on its stack, the bound on the stack
    apart. *)
Record trees_admitted (snapshot_offset : N) (limits : ImmutableLimits) (tv : Traversal) (subs : subtrees) : Prop := mkAdmitted {
  ta_clear : trees_clear snapshot_offset tv subs;
  ta_depth : Forall (fun r => pr_level r <= max_depth limits) (tv_stack tv);
  ta_bounds : subs = [] \/ N.of_nat (size (tv_seen tv)) + len (concat subs.*2) <= max_pages limits /\
                objects_fit (len (tv_locators tv) + len (concat subs.*1)) limits;
}.

Lemma traversed_nil tv : tv_stack tv = [] -> traversed tv [] = tv.
Proof. destruct tv. cbn. intros ->. unfold traversed. cbn. by rewrite (left_id_L ∅ _), !app_nil_r. Qed.

Lemma traversed_step data reference content subs1 subs2 tv stack : page_present data reference content ->
  Forall2 (tree_at data) (content_children content) subs1 -> 
  traversed (mkTraversal (tv_seen tv) stack (tv_locators tv) (tv_ranges tv)) (top_subtree reference content subs1 :: subs2) =
  traversed (after_page reference content tv) (subs1 ++ subs2).
Proof.
  intros Hp Hf. unfold traversed, top_subtree, after_page. cbn [tv_seen tv_stack tv_locators tv_ranges]. rewrite !fmap_cons, !fmap_app, !concat_app.
  cbn [concat fst snd fmap list_fmap app]. f_equal.
  - rewrite list_to_set_cons, (comm_L _ {[pr_offset reference]}). set_solver.
  - by rewrite <- !app_assoc.
  - by rewrite fmap_app, <- app_assoc.
Qed.

Lemma seen_size (reference : N) (seen : gset N) : reference ∉ seen -> size ({[reference]} ∪ seen) = S (size seen).
Proof. intros Hn. rewrite size_union by set_solver. by rewrite size_singleton. Qed.

Lemma page_level_zero data reference es : page_present data reference (Locators es) -> pr_level reference = 0.
Proof. by intros (_ & _ & _ & _ & _ & Hl & _). Qed.

Lemma top_offsets reference content subs1 subs2 :
  concat (top_subtree reference content subs1 :: subs2).*2 = pr_offset reference :: concat (subs1 ++ subs2).*2.
Proof. by rewrite fmap_cons, fmap_app, concat_app. Qed.

Lemma top_locators reference content subs1 subs2 :
  concat (top_subtree reference content subs1 :: subs2).*1 = content_locators content ++ concat (subs1 ++ subs2).*1.
Proof. rewrite fmap_cons, fmap_app, concat_app. cbn. by rewrite app_assoc. Qed.

(** The page on top is clear, and so is what is left after it. *)
Lemma clear_top snapshot_offset reference content tv stack subs1 subs2 :
  trees_clear snapshot_offset (mkTraversal (tv_seen tv) stack (tv_locators tv) (tv_ranges tv)) (top_subtree reference content subs1 :: subs2) <->
  (pr_offset reference + PAGE_SIZE <= snapshot_offset /\ (forall r, r ∈ tv_ranges tv -> apart (im_page_range (pr_offset reference)) r) /\
   pr_offset reference ∉ tv_seen tv) /\ trees_clear snapshot_offset (after_page reference content tv) (subs1 ++ subs2).
Proof.
  split.
  - intros [H1 H2 H3 H4 H5]. rewrite top_offsets in *. cbn [tv_seen tv_ranges] in *. set (offs := concat (subs1 ++ subs2).*2) in *.
    apply NoDup_cons in H1 as [Hn H1]. rewrite fmap_cons in H4. apply StronglySorted_inv in H4 as [H4 H4']. pose proof (H2 _ ltac:(by left)) as Hnew.
    split; [split_and!; [apply H3; by left|intros r Hr; apply H5; [by left|done]|done]|]. constructor; cbn [after_page tv_seen tv_ranges]; fold offs.
    + done.
    + intros o Ho [->%elem_of_singleton|Hs]%elem_of_union; [done|]. by apply (H2 o); [right|].
    + intros o Ho. apply H3. by right.
    + done.
    + intros o r Ho [Hr| ->%list_elem_of_singleton]%elem_of_app; [apply H5; [by right|done]|]. symmetry.
      apply (proj1 (Forall_forall _ _) H4'). by apply list_elem_of_fmap_2.
  - intros [(P1 & P2 & P3) [H1 H2 H3 H4 H5]]. cbn [after_page tv_seen tv_ranges] in *.
    constructor; rewrite ?top_offsets; cbn [tv_seen tv_ranges]; set (offs := concat (subs1 ++ subs2).*2) in *.
    + constructor; [|done]. intros Hin. apply (H2 _ Hin). set_solver.
    + intros o [->|Ho]%elem_of_cons Hs; [done|]. apply (H2 o Ho). set_solver.
    + intros o [->|Ho]%elem_of_cons; [done|by apply H3].
    + rewrite fmap_cons. constructor; [done|]. apply Forall_forall. intros r (o & -> & Ho)%list_elem_of_fmap. symmetry.
      apply H5; [done|]. apply elem_of_app. right. by left.
    + intros o r [->|Ho]%elem_of_cons Hr; [by apply P2|]. apply H5; [done|]. apply elem_of_app. by left.
Qed.

Lemma children_depth data reference content d : page_present data reference content -> pr_level reference <= d ->
  Forall (fun r => pr_level r <= d) (content_children content).
Proof.
  intros Hp Hd. destruct content as [es|cs]; [constructor|]. destruct Hp as (_ & _ & _ & _ & _ & _ & _ & _ & Hok & _).
  eapply Forall_impl; [exact Hok|]. cbv beta. intros c [_ Hc]. lia.
Qed.

Lemma admitted_page data snapshot_offset limits reference content tv stack subs1 subs2 :
  page_present data reference content -> tv_stack tv = stack ->
  trees_admitted snapshot_offset limits (mkTraversal (tv_seen tv) (reference :: stack) (tv_locators tv) (tv_ranges tv)) (top_subtree reference content subs1 :: subs2) ->
  (forall cs, content = Children cs -> fits size_of_page_ref (len stack + len cs) limits) ->
  page_admitted snapshot_offset limits reference content tv /\ trees_admitted snapshot_offset limits (after_page reference content tv) (subs1 ++ subs2).
Proof.
  intros Hp Hst [[(P1 & P2 & P3) Hclear]%clear_top H6 H7] Hfit. rewrite top_offsets, top_locators in *. cbn [tv_seen tv_stack tv_locators] in *.
  destruct H7 as [|[Hpg Hobj]]; [done|]. rewrite len_cons in Hpg. apply Forall_cons in H6 as [H6 H6']. split.
  - unfold page_admitted. split_and!; [done|done|lia|done|]. destruct content as [es'|cs].
    + cbn [content_locators] in Hobj. assert (Hle : objects_fit (len (tv_locators tv) + len es') limits) by (eapply objects_fit_le; [|exact Hobj]; autorewrite with len; lia).
      destruct Hle as (? & ? & ?). done.
    + split; [done|]. rewrite Hst. by apply Hfit.
  - constructor; [done| |]; cbn [after_page tv_seen tv_stack tv_locators].
    + rewrite Hst. apply Forall_app. split; [by eapply children_depth|done].
    + right. rewrite seen_size by done. split; [lia|]. rewrite len_app in Hobj |- *. by rewrite <- N.add_assoc.
Qed.

Lemma admitted_after data snapshot_offset limits reference content tv stack subs1 subs2 :
  page_present data reference content -> Forall2 (tree_at data) (content_children content) subs1 ->
  tv_stack tv = stack -> pr_level reference <= max_depth limits -> Forall (fun r => pr_level r <= max_depth limits) stack ->
  page_admitted snapshot_offset limits reference content tv -> trees_admitted snapshot_offset limits (after_page reference content tv) (subs1 ++ subs2) ->
  trees_admitted snapshot_offset limits (mkTraversal (tv_seen tv) (reference :: stack) (tv_locators tv) (tv_ranges tv)) (top_subtree reference content subs1 :: subs2).
Proof.
  intros Hp Hf Hst Hd Hds (P1 & P2 & P3 & P4 & P5) [Hclear H6 H7]. cbn [after_page tv_seen tv_stack tv_locators] in *.
  constructor; [by apply clear_top| |]; cbn [tv_seen tv_stack tv_locators]; [by constructor|]. rewrite top_offsets, top_locators. right.
  rewrite seen_size in H7 by done. rewrite len_cons, !len_app in *. destruct H7 as [Hnil|[H7 H8]].
  - apply app_eq_nil in Hnil as [-> ->]. cbn. destruct content as [es'|cs].
    + cbn [content_locators] in *. rewrite len_nil, !N.add_0_r. split; [lia|]. by destruct P5 as (? & ? & ?).
    + cbn [content_children] in Hf. inversion Hf; subst. destruct Hp as (_ & _ & _ & _ & _ & _ & _ & _ & _ & _ & Hh & _). done.
  - split; [lia|]. by rewrite N.add_assoc.
Qed.

Lemma admitted_nil snapshot_offset limits tv : tv_stack tv = [] -> trees_admitted snapshot_offset limits tv [].
Proof.
  intros Hs. constructor; [constructor; [constructor|by intros o ?%elem_of_nil|by intros o ?%elem_of_nil|constructor|by intros o r ?%elem_of_nil]| |by left].
  rewrite Hs. constructor.
Qed.

(** A traversal that succeeds has gone over trees that share no byte. *)
Lemma traverse_sound data snapshot_offset limits fuel tv tv' : Forall (fun r => pr_level r <= max_depth limits) (tv_stack tv) ->
  traverse fuel data snapshot_offset limits tv = Ok tv' ->
  exists subs, Forall2 (tree_at data) (tv_stack tv) subs /\ trees_admitted snapshot_offset limits tv subs /\ tv' = traversed tv subs.
Proof.
  revert tv. induction fuel as [|fuel IH]; intros [seen stack locators ranges]; cbn [traverse tv_stack tv_seen tv_locators tv_ranges]; destruct stack as [|reference stack].
  1, 3: intros Hd [= <-]; exists []; rewrite traversed_nil by done; split_and!; [constructor|by apply admitted_nil|done].
  - done.
  - intros [Hd Hds]%Forall_cons Hr. step_result Hr.
    match goal with H : parse_page _ _ _ _ _ = Ok _ |- _ => apply parse_page_Ok in H as (content & Hp & Hadm & ->) end.
    apply IH in Hr as (subs & Hf & Had & ->).
    + cbn [after_page tv_stack] in Hf. apply Forall2_app_inv_l in Hf as (subs1 & subs2 & Hf1 & Hf2 & ->).
      exists (top_subtree reference content subs1 :: subs2). split_and!.
      * constructor; [|done]. apply tree_unfold. by exists content, subs1.
      * by eapply (admitted_after data _ _ _ _ (mkTraversal seen stack locators ranges)).
      * symmetry. by apply (traversed_step data reference content subs1 subs2 (mkTraversal seen stack locators ranges) (reference :: stack)).
    + cbn [after_page tv_stack]. apply Forall_app. split; [by eapply children_depth|done].
Qed.

Lemma subtrees_len data stack subs : Forall2 (tree_at data) stack subs -> len stack <= len (concat subs.*2).
Proof.
  induction 1 as [|reference sub stack subs Ht Hf IH]; [done|]. apply tree_unfold in Ht as (content & subs1 & _ & _ & ->).
  rewrite fmap_cons. cbn [concat top_subtree snd]. rewrite len_app, !len_cons. lia.
Qed.

(** Trees that share no byte, within the limits, are gone over. *)
Lemma traverse_complete data snapshot_offset limits fuel tv subs : Forall2 (tree_at data) (tv_stack tv) subs ->
  trees_admitted snapshot_offset limits tv subs -> fits size_of_page_ref (len (concat subs.*2)) limits -> (length (concat subs.*2) <= fuel)%nat ->
  traverse fuel data snapshot_offset limits tv = Ok (traversed tv subs).
Proof.
  revert tv subs. induction fuel as [|fuel IH]; intros [seen stack locators ranges] subs; cbn [traverse tv_stack tv_seen tv_locators tv_ranges]; intros Hf Had Hfit Hlen;
    (destruct stack as [|reference stack]; [apply Forall2_nil_inv_l in Hf as ->; by rewrite traversed_nil|]); apply subtrees_len in Hf as Hl; rewrite len_cons in Hl.
  { unfold len in Hl. lia. }
  inversion Hf as [|? sub ? subs2 Ht Hf2]; subst. apply tree_unfold in Ht as (content & subs1 & Hp & Hf1 & ->).
  set (tv := mkTraversal seen stack locators ranges).
  assert (Hlens : len (concat (top_subtree reference content subs1 :: subs2).*2) = 1 + len (concat (subs1 ++ subs2).*2)) by (by rewrite top_offsets, len_cons).
  pose proof (subtrees_len _ _ _ (Forall2_app Hf1 Hf2)) as Hl'. rewrite len_app in Hl'.
  destruct (admitted_page data snapshot_offset limits reference content tv stack subs1 subs2) as [Hpage Hrest]; try done.
  { intros cs Hc. rewrite Hc in Hl'. cbn [content_children] in Hl'. eapply fits_le; [|exact Hfit]. lia. }
  rewrite (proj2 (parse_page_Ok data reference snapshot_offset limits tv (after_page reference content tv))) by (by exists content).
  rewrite (IH (after_page reference content tv) (subs1 ++ subs2)); try done.
  - f_equal. symmetry. by apply (traversed_step data reference content subs1 subs2 tv (reference :: stack)).
  - by apply Forall2_app.
  - eapply fits_le; [|exact Hfit]. lia.
  - unfold len in Hlens. lia.
Qed.
End Tree.
