(* ===== verification/ImmutableStrict.v ===== *)
(** Strict validation of immutable-page files: what [validate] accepts is
    exactly the files laid out as the format says ([valid_image]), and the one
    input on which it panics. *)

From Stdlib Require Import Strings.Byte Strings.String NArith ZArith Lia.
From stdpp Require Import base list gmap strings sorting.
From S2P Require Import Prelude Order Digest Exp0002 Exp0002File Exp0002Pages Exp0002Strict Immutable ImmutableFacts.

Local Open Scope N_scope.

Section Order.
Context `{HS : Sha256} `{HL : Layout}.
Implicit Types data : bytes.

(** The locators of a tree are in order, from its minimum to its maximum. *)
Definition spans (reference : PageRef) (es : list Locator) : Prop :=
  locators_ordered es /\ lo_object_id <$> head es = Some (pr_minimum reference) /\ lo_object_id <$> last es = Some (pr_maximum reference).

Lemma ordered_app_iff es ks : locators_ordered (es ++ ks) <->
  locators_ordered es /\ locators_ordered ks /\ forall x y, x ∈ es -> y ∈ ks -> lo_object_id x < lo_object_id y.
Proof.
  unfold locators_ordered. induction es as [|e es IH]; cbn [app].
  { split; [intros H; split_and!; [constructor|done|by intros x y ?%elem_of_nil]|tauto]. }
  split.
  - intros [Hs Hf]%StronglySorted_inv. apply IH in Hs as (H1 & H2 & H3). apply Forall_app in Hf as [Hf1 Hf2]. split_and!; [by constructor|done|].
    intros x y [->|Hx]%elem_of_cons Hy; [by apply (proj1 (Forall_forall _ _) Hf2)|by apply H3].
  - intros ([H1 Hf]%StronglySorted_inv & H2 & H3). constructor; [apply IH; split_and!; [done|done|]|].
    + intros x y Hx Hy. apply H3; [by right|done].
    + apply Forall_app. split; [done|]. apply Forall_forall. intros y Hy. apply H3; [by left|done].
Qed.

Lemma im_spans_bounds reference es e : spans reference es -> e ∈ es -> pr_minimum reference <= lo_object_id e <= pr_maximum reference.
Proof.
  intros (Ho & Hh & Hl) He. split.
  - destruct es as [|x es]; [by apply elem_of_nil in He|]. injection Hh as <-. apply elem_of_cons in He as [->|He]; [done|].
    apply StronglySorted_inv in Ho as [_ Hf]. pose proof (proj1 (Forall_forall _ _) Hf e He) as Hlt. cbn in Hlt. lia.
  - destruct (last es) as [z|] eqn:El; [|done]. injection Hl as <-. apply last_Some in El as [pre ->]. apply elem_of_app in He as [He| ->%list_elem_of_singleton]; [|done].
    apply ordered_app_iff in Ho as (_ & _ & Hlt). specialize (Hlt e z He ltac:(by left)). lia.
Qed.

Lemma im_spans_concat cs (ess : list (list Locator)) : references_ordered cs -> cs <> [] -> Forall2 spans cs ess ->
  locators_ordered (concat ess) /\ lo_object_id <$> head (concat ess) = pr_minimum <$> head cs /\ lo_object_id <$> last (concat ess) = pr_maximum <$> last cs.
Proof.
  intros Ho Hne Hf. induction Hf as [|c es cs ess Hc Hf IH]; [done|]. cbn [concat]. inversion Ho as [|? ? Ho' Hh]; subst.
  destruct Hf as [|c' es' cs ess Hc' Hf].
  { cbn [concat]. rewrite app_nil_r. destruct Hc as (? & ? & ?). done. }
  destruct (IH Ho' ltac:(done)) as (I1 & I2 & I3). clear IH. set (rest := concat (es' :: ess)) in *. inversion Hh as [|? ? Hlt]; subst.
  assert (Hrest : rest <> []) by (intros E; rewrite E in I2; done). split_and!.
  - apply ordered_app_iff. split_and!; [apply Hc|done|]. intros x y Hx Hy. pose proof (im_spans_bounds c es x Hc Hx) as [_ Hx'].
    destruct rest as [|z rest]; [done|]. cbn in I2. injection I2 as I2. assert (lo_object_id z <= lo_object_id y); [|lia].
    apply elem_of_cons in Hy as [->|Hy]; [done|]. apply StronglySorted_inv in I1 as [_ Hf']. pose proof (proj1 (Forall_forall _ _) Hf' y Hy) as Hlt'. cbn in Hlt'. lia.
  - destruct Hc as (_ & Hh' & _). destruct es as [|e es]; [done|]. done.
  - rewrite last_app. destruct (last rest) as [z|] eqn:El; [|by apply last_None in El]. cbn [last] in I3 |- *. exact I3.
Qed.

Lemma ptree_spans data h reference es offs : ptree data h reference es offs -> spans reference es /\ Forall locator_ok es.
Proof.
  revert reference es offs. induction h as [|h IH]; intros reference es offs; cbn [ptree].
  - intros [(_ & _ & _ & _ & _ & _ & _ & Hok & Ho & Hh & Hl) _]. done.
  - intros (cs & subs & (_ & _ & _ & _ & _ & _ & _ & _ & _ & Ho & Hh & Hl) & Hf & -> & _).
    assert (Hsp : Forall2 spans cs subs.*1 /\ Forall (Forall locator_ok) subs.*1).
    { clear -IH Hf. induction Hf as [|c sub cs subs Hc Hf IHf]; [by repeat constructor|]. destruct IHf. apply IH in Hc as [? ?].
      split; rewrite fmap_cons; by constructor. }
    destruct Hsp as [Hsp Hok]. destruct (im_spans_concat cs subs.*1 Ho ltac:(by intros ->) Hsp) as (H1 & H2 & H3).
    split; [|by apply Forall_concat]. unfold spans. rewrite H2, H3. done.
Qed.

Lemma ptree_offsets data h reference es offs o : ptree data h reference es offs -> o ∈ offs -> FILE_HEADER_LEN <= o /\ o + PAGE_SIZE <= len data /\ o + PAGE_SIZE <= U64_MAX.
Proof.
  revert reference es offs. induction h as [|h IH]; intros reference es offs; cbn [ptree].
  - intros [(? & ? & ? & _) ->] ->%list_elem_of_singleton. done.
  - intros (cs & subs & (? & ? & ? & _) & Hf & _ & ->) [->|Ho]%elem_of_cons; [done|].
    apply elem_of_concat in Ho as (os & (sub & -> & Hs)%list_elem_of_fmap & Ho).
    apply list_elem_of_lookup in Hs as (i & Hi). destruct (Forall2_lookup_r _ _ _ _ _ Hf Hi) as (c & _ & Hc). by eapply IH.
Qed.
End Order.

(** ** Records *)

Definition object_range (e : Locator) : N * N := (lo_record_offset e, lo_record_offset e + lo_record_len e).

Definition object_header_pieces (e : Locator) : list (N * bytes) :=
  [(8, OBJECT_MAGIC); (2, le_encode 2 OBJECT_HEADER_LEN); (2, le_encode 2 (lo_kind e)); (4, zeros 4); (8, le_encode 8 (lo_object_id e));
   (8, le_encode 8 (lo_logical_len e)); (8, le_encode 8 (lo_logical_len e)); (8, zeros 8)].
Definition object_header_bytes (e : Locator) : bytes := concat (object_header_pieces e).*2.

Lemma object_header_sized e : sized (object_header_pieces e).
Proof. unfold sized, object_header_pieces. repeat constructor. Qed.

Section Objects.
Context `{HS : Sha256} `{HL : Layout}.
Implicit Types data : bytes.

(** The record of a locator: a header, the payload, and the digest of both. *)
Definition object_present data (e : Locator) : Prop :=
  FILE_HEADER_LEN <= lo_record_offset e /\ lo_record_offset e + lo_record_len e <= len data /\ lo_record_offset e + lo_record_len e <= U64_MAX /\
  lo_record_len e = OBJECT_HEADER_LEN + lo_logical_len e /\
  slice data (lo_record_offset e) (lo_record_offset e + OBJECT_HEADER_LEN) = object_header_bytes e /\
  digest [OBJECT_DOMAIN; slice data (lo_record_offset e) (lo_record_offset e + lo_record_len e)] = lo_digest e.

Lemma check_object_Ok data snapshot_offset ranges e r : locator_ok e ->
  check_object data snapshot_offset ranges e = Ok r <->
  object_present data e /\ lo_record_offset e + lo_record_len e <= snapshot_offset /\ (forall x, x ∈ ranges -> apart (object_range e) x) /\ r = object_range e.
Proof.
  intros (Hi & Hi' & Hk & Hk' & Ho & Hn & Hl & Hdl). destruct e as [id kind o n m d].
  unfold check_object, object_present, object_range, object_header_bytes. cbn [lo_object_id lo_kind lo_record_offset lo_record_len lo_logical_len lo_digest] in *.
  rewrite (proj2 (usize_from_u64_Ok o _ o)), (proj2 (usize_from_u64_Ok n _ n)) by done.
  pose proof (pieces_at_bytes (object_header_pieces (mkLocator id kind o n m d)) o data (object_header_sized _)) as Hpieces.
  change (total_size _) with OBJECT_HEADER_LEN in Hpieces. split.
  - intros Hr. step_result Hr. option_facts. apply im_range_Ok in Heqr0 as (Hd & Hm & Hrec). bool_facts. im_reads. option_facts.
    rewrite overlaps_some_false in *. injection Hr as <-.
    match goal with H : slice data o _ = ?x |- _ => rename x into record end.
    assert (HOH : OBJECT_HEADER_LEN <= n) by done. unfold OBJECT_HEADER_LEN in *.
    rewrite <- Hpieces by lia. unfold object_header_pieces. cbn [lo_object_id lo_kind lo_logical_len]. 
    assert (Hsub : forall a b, b <= n -> slice record a b = slice data (o + a) (o + b)) by (intros a b Hb; rewrite <- Hrec; apply subslice; lia).
    rewrite !Hsub in * by lia. pieces_simpl.
    subst. split_and!; try done. apply slice_zero_fact; [done|lia..].
  - intros ((Hlo & Hd & Hm & Hlen & Hs & Hdig) & Hso & Hov & ->). unfold OBJECT_HEADER_LEN in *.
    apply Hpieces in Hs; [|lia]. unfold object_header_pieces in Hs. cbn [lo_object_id lo_kind lo_logical_len] in Hs. pieces_simpl. unfold OBJECT_HEADER_LEN in *. 
    rewrite checked_add_fits by done. cbn [ok_or]. rewrite (proj2 (N.ltb_ge _ _) Hlo), (proj2 (N.ltb_ge _ _) Hso). cbn [orb negb].
    rewrite (proj2 (overlaps_some_false _ _ _) Hov). cbn [negb]. rewrite (proj2 (im_range_Ok data o n _ _) (conj Hd (conj Hm eq_refl))).
    assert (Hsub : forall a b, b <= n -> slice data (o + a) (o + b) = slice (slice data o (o + n)) a b) by (intros a b Hb; symmetry; apply subslice; lia).
    assert (Hrl : len (slice data o (o + n)) = n) by (rewrite slice_len by lia; lia).
    rewrite !Hsub in Hs by lia. set (record := slice data o (o + n)) in *. destruct_and!.
    rewrite (proj2 (N.ltb_ge n 48)) by lia. rewrite (bool_decide_eq_true_2 (slice record 0 8 = OBJECT_MAGIC)) by done. cbn [negb andb].
    im_read_back. rewrite (proj2 (u32_at_Ok record 12 _ 0)) by (split_and!; [lia|lia|done|done]).
    match goal with H : slice record 40 48 = _ |- _ => rewrite H end. rewrite nonzero_zeros, (proj2 (N.eqb_neq id 0)), (proj2 (N.eqb_neq kind 0)), !N.eqb_refl by done. cbn [andb orb negb N.eqb].
    rewrite checked_add_fits by lia. cbn [ok_or]. rewrite <- Hlen, N.eqb_refl. rewrite (proj2 (u64_from_usize_Ok m m)) by done. rewrite N.eqb_refl.
    by rewrite bool_decide_eq_true_2.
Qed.
End Objects.

(** ** Ranges of records *)

Lemma compare_ranges_le x y : cmp_le compare_ranges x y -> x.1 <= y.1.
Proof.
  unfold cmp_le, compare_ranges, then_with. destruct (N.compare_spec x.1 y.1) as [->|Hlt|Hgt]; [done|lia|done].
Qed.

(** Ranges in the order of their bounds, none running into the next. *)
Lemma record_windows (rs : list (N * N)) : Forall (fun r => r.1 < r.2) rs ->
  any_window (fun x y => y.1 <? x.2) (sort_by compare_ranges rs) = false <-> disjoint_ranges rs.
Proof.
  intros Hne. rewrite any_window_false. pose proof (sort_by_Permutation compare_ranges rs) as Hp.
  assert (Hs : StronglySorted (cmp_le compare_ranges) (sort_by compare_ranges rs))
    by (apply sort_by_StronglySorted; exact (then_with_total (cmp_on fst N.compare) (cmp_on snd N.compare))).
  rewrite <- Hp in Hne. revert Hp Hs Hne. generalize (sort_by compare_ranges rs). intros l Hp Hs Hne. rewrite <- Hp. clear Hp rs. split.
  - intros Hw. assert (Hw' : StronglySorted (fun x y => x.2 <= y.1) l).
    { clear Hs. induction Hw as [|x l Hw IH Hh]; [constructor|]. apply Forall_cons in Hne as [Hx Hne]. specialize (IH Hne). constructor; [done|].
      destruct Hh as [|y l Hxy]; [constructor|]. apply N.ltb_ge in Hxy. constructor; [done|]. apply StronglySorted_inv in IH as [_ Hf].
      apply Forall_cons in Hne as [Hy _]. eapply Forall_impl; [exact Hf|]. cbv beta. intros z Hz. lia. }
    unfold disjoint_ranges. clear -Hw'. induction Hw' as [|x l Hw IH Hf]; constructor; [done|]. eapply Forall_impl; [exact Hf|]. cbv beta.
    intros y Hy. apply apart_le. by left.
  - intros Hd. induction Hd as [|x l Hd IH Hf]; [constructor|]. apply StronglySorted_inv in Hs as [Hs Hx]. apply Forall_cons in Hne as [Hx1 Hne].
    constructor; [by apply IH|]. destruct l as [|y l]; constructor. apply Forall_cons in Hf as [Ha _]. apply Forall_cons in Hx as [Hc%compare_ranges_le _].
    apply Forall_cons in Hne as [Hy _]. apply apart_le in Ha. apply N.ltb_ge. lia.
Qed.

(** ** Commits *)

Definition footer_ok (f : Footer) : Prop :=
  ft_sequence f <= U64_MAX /\ ft_snapshot_offset f <= U64_MAX /\ ft_snapshot_len f <= U64_MAX /\ ft_previous_footer_offset f <= U64_MAX /\
  ft_page_count_current f <= U64_MAX /\ len (ft_snapshot_digest f) = 32 /\ len (ft_commit_digest f) = 32.

Definition footer_pieces (f : Footer) : list (N * bytes) :=
  [(8, FOOTER_MAGIC); (8, le_encode 8 (ft_sequence f)); (8, le_encode 8 (ft_snapshot_offset f)); (8, le_encode 8 (ft_snapshot_len f));
   (8, le_encode 8 (ft_previous_footer_offset f)); (8, le_encode 8 (ft_page_count_current f)); (32, ft_snapshot_digest f);
   (32, ft_commit_digest f); (16, zeros 16)].
Definition footer_bytes (f : Footer) : bytes := concat (footer_pieces f).*2.

Lemma footer_sized f : footer_ok f -> sized (footer_pieces f).
Proof. intros (_ & _ & _ & _ & _ & H1 & H2). unfold sized, footer_pieces. repeat constructor; done. Qed.

Lemma im_footer_Ok data offset f : parse_footer data offset = Ok f <->
  offset + FOOTER_LEN <= len data /\ offset + FOOTER_LEN <= U64_MAX /\ footer_ok f /\ slice data offset (offset + FOOTER_LEN) = footer_bytes f.
Proof.
  unfold parse_footer. split.
  - intros Hr. step_result Hr. bool_facts. apply im_range_Ok in Heqr as (Hd & Hm & Hraw). im_reads. injection Hr as <-.
    match goal with H : slice data _ _ = ?x |- _ => rename x into raw end.
    assert (Hl : len raw = 128) by (rewrite <- Hraw, slice_len by lia; unfold FOOTER_LEN; lia). rewrite Hl in *.
    assert (Hd1 : len (slice raw 48 (48 + 32)) = 32 /\ len (slice raw 80 (80 + 32)) = 32) by (split; apply slice_len_N; lia). destruct Hd1 as [Hd1 Hd2].
    match goal with |- _ /\ _ /\ footer_ok ?f /\ _ => assert (Hok : footer_ok f) end.
    { subst; unfold footer_ok; cbn [ft_sequence ft_snapshot_offset ft_snapshot_len ft_previous_footer_offset ft_page_count_current ft_snapshot_digest ft_commit_digest]; by split_and!. }
    split_and!; try done. rewrite Hraw. rewrite <- (slice_all raw), Hl.
    apply (pieces_at_bytes (footer_pieces _) 0); [by apply footer_sized|rewrite Hl; done|]. unfold footer_pieces.
    cbn [ft_sequence ft_snapshot_offset ft_snapshot_len ft_previous_footer_offset ft_page_count_current ft_snapshot_digest ft_commit_digest]. pieces_simpl. simpl N.add.
    split_and!; try done. apply slice_zero_fact; [done|lia..].
  - intros (Hd & Hm & Hok & Hs). rewrite (proj2 (im_range_Ok data offset FOOTER_LEN _ _) (conj Hd (conj Hm eq_refl))).
    assert (Hl : len (slice data offset (offset + FOOTER_LEN)) = 128) by (rewrite slice_len by lia; unfold FOOTER_LEN; lia).
    set (raw := slice data offset (offset + FOOTER_LEN)) in *. rewrite <- (slice_all raw), Hl in Hs.
    apply (pieces_at_bytes (footer_pieces f) 0) in Hs; [|by apply footer_sized|rewrite Hl; done]. unfold footer_pieces in Hs.
    destruct Hok as (? & ? & ? & ? & ? & ? & ?). destruct f as [sq so sl pf pc sd cd].
    cbn [ft_sequence ft_snapshot_offset ft_snapshot_len ft_previous_footer_offset ft_page_count_current ft_snapshot_digest ft_commit_digest] in *. pieces_simpl. simpl N.add in Hs.
    destruct_and!. rewrite bool_decide_eq_true_2 by done. rewrite Hl. match goal with H : slice raw 112 128 = _ |- _ => rewrite H end. rewrite nonzero_zeros. cbn [negb andb].
    assert (128 <= U64_MAX) by (by apply N.leb_le). by im_read_back.
Qed.

(** The bytes of a snapshot: the commit it describes, the root of its
    directory and the snapshot it follows. *)
Definition snapshot_pieces (sequence : N) (root : PageRef) (parent : bytes) : list (N * bytes) :=
  [(8, SNAPSHOT_MAGIC); (8, le_encode 8 sequence); (8, le_encode 8 (pr_offset root)); (8, le_encode 8 (pr_level root)); (32, pr_digest root); (32, parent)].
Definition snapshot_bytes (sequence : N) (root : PageRef) (parent : bytes) : bytes := concat (snapshot_pieces sequence root parent).*2.

Lemma snapshot_sized sequence root parent : len (pr_digest root) = 32 -> len parent = 32 -> sized (snapshot_pieces sequence root parent).
Proof. intros H1 H2. unfold sized, snapshot_pieces. repeat constructor; done. Qed.

Section Commits.
Context `{HS : Sha256} `{HL : Layout}.
Implicit Types data : bytes.

(** How a commit follows another: the first has no parent; a later one names
    the footer and the snapshot of the one before, and its sequence number is
    one more. *)
Definition linked data (f : Footer) (parent : bytes) (commit_start : N) : Prop :=
  (ft_previous_footer_offset f = ABSENT_OFFSET /\ ft_sequence f = 0 /\ parent = zeros 32 /\ commit_start = 0) \/
  (ft_previous_footer_offset f <> ABSENT_OFFSET /\ commit_start = ft_previous_footer_offset f + FOOTER_LEN /\ commit_start <= ft_snapshot_offset f /\
   exists previous, parse_footer data (ft_previous_footer_offset f) = Ok previous /\ ft_sequence f = ft_sequence previous + 1 /\ ft_snapshot_digest previous = parent).

Lemma commit_start_Ok data f parent commit_start : footer_ok f -> len parent = 32 ->
  commit_start_of data f (ft_snapshot_offset f) parent = Ok commit_start <-> linked data f parent commit_start.
Proof.
  intros Hok Hp. assert (Hzp : nonzero parent = false <-> parent = zeros 32).
  { rewrite nonzero_false. assert (length parent = 32%nat) as ->; [unfold len in Hp; lia|done]. }
  destruct Hok as (Hseq & _ & _ & Hpf & _). unfold commit_start_of, linked. destruct (N.eqb_spec (ft_previous_footer_offset f) ABSENT_OFFSET) as [Ea|Ea].
  - split.
    + intros Hr. step_result Hr. injection Hr as <-. bool_facts. rewrite Hzp in *. left. by split_and!.
    + intros [(_ & -> & Hz & ->)|[? _]]; [|done]. rewrite (proj2 Hzp Hz). done.
  - rewrite (proj2 (usize_from_u64_Ok (ft_previous_footer_offset f) _ (ft_previous_footer_offset f))) by done. split.
    + intros Hr. step_result Hr. injection Hr as <-. option_facts. bool_facts. right. split_and!; try done. eexists. by split_and!.
    + intros [[? _]|(_ & -> & Hs & previous & Hf & Hsq & Hsd)]; [done|]. pose proof (proj1 (im_footer_Ok _ _ _) Hf) as (_ & Hm & _).
      rewrite checked_add_fits by done. cbn [ok_or]. rewrite (proj2 (N.ltb_ge _ _) Hs). cbn [negb]. rewrite Hf. rewrite checked_add_fits by lia. cbn [ok_or].
      by rewrite Hsq, N.eqb_refl, bool_decide_eq_true_2.
Qed.

(** The last commit of a file: where its parts lie and what they say. *)
Record valid_commit data (f : Footer) (parent : bytes) (root : PageRef) (commit_start : N) : Prop := mkValidCommit {
  vc_header : slice data 0 FILE_HEADER_LEN = FILE_MAGIC ++ zeros 56;
  vc_snapshot_len : ft_snapshot_len f = SNAPSHOT_LEN;
  vc_end : ft_snapshot_offset f + SNAPSHOT_LEN + FOOTER_LEN = len data;
  vc_footer : parse_footer data (len data - FOOTER_LEN) = Ok f;
  vc_snapshot : slice data (ft_snapshot_offset f) (ft_snapshot_offset f + SNAPSHOT_LEN) = snapshot_bytes (ft_sequence f) root parent;
  vc_parent : len parent = 32;
  vc_root : len (pr_digest root) = 32;
  vc_level : pr_level root <= 255;
  vc_snapshot_digest : digest [SNAPSHOT_DOMAIN; snapshot_bytes (ft_sequence f) root parent] = ft_snapshot_digest f;
  vc_linked : linked data f parent commit_start;
  vc_commit_digest : digest [COMMIT_DOMAIN; slice data commit_start (len data - FOOTER_LEN); footer_semantics f] = ft_commit_digest f;
}.

Lemma header_Ok data : FILE_HEADER_LEN <= len data ->
  slice data 0 FILE_HEADER_LEN = FILE_MAGIC ++ zeros 56 <-> slice data 0 8 = FILE_MAGIC /\ nonzero (slice data 8 FILE_HEADER_LEN) = false.
Proof.
  intros Hl. pose proof (pieces_at_bytes [(8, FILE_MAGIC); (56, zeros 56)] 0 data ltac:(by repeat constructor) Hl) as Hp.
  change (total_size _) with 64 in Hp. cbn [fmap list_fmap snd concat] in Hp. rewrite app_nil_r in Hp. rewrite nonzero_false.
  unfold FILE_HEADER_LEN in *. rewrite (slice_length data 8 64 56) by lia. etransitivity; [symmetry; exact Hp|]. cbn [pieces_at]. split; [intros (? & ? & _)|intros [? ?]]; by split_and!.
Qed.

(** The fields of a snapshot. *)
Lemma snapshot_reads raw sequence root parent : len raw = SNAPSHOT_LEN -> sequence <= U64_MAX -> pr_offset root <= U64_MAX -> pr_level root <= U64_MAX ->
  len (pr_digest root) = 32 -> len parent = 32 ->
  raw = snapshot_bytes sequence root parent <->
  slice raw 0 8 = SNAPSHOT_MAGIC /\ u64_at raw 8 "snapshot" = Ok sequence /\ array 32 raw 64 "snapshot parent" = Ok parent /\
  usize_at raw 16 "snapshot root" = Ok (pr_offset root) /\ u64_at raw 24 "snapshot root" = Ok (pr_level root) /\
  array 32 raw 32 "snapshot root" = Ok (pr_digest root).
Proof.
  intros Hl Hsq Ho Hlv Hd Hp. rewrite !u64_at_Ok, usize_at_Ok, !im_array_Ok.
  pose proof (pieces_at_bytes (snapshot_pieces sequence root parent) 0 raw (snapshot_sized _ root parent Hd Hp)) as Hpieces.
  change (total_size _) with SNAPSHOT_LEN in Hpieces. rewrite Hl in *. specialize (Hpieces ltac:(done)).
  assert (E : slice raw 0 (0 + SNAPSHOT_LEN) = raw) by (rewrite N.add_0_l, <- Hl; apply slice_all). rewrite E in Hpieces.
  unfold snapshot_bytes. etransitivity; [symmetry; exact Hpieces|]. unfold snapshot_pieces, SNAPSHOT_LEN in *. assert (96 <= U64_MAX) by (by apply N.leb_le).
  pieces_simpl. simpl N.add. split; intros; destruct_and!; split_and!; try done; lia.
Qed.

Lemma validate_commit_sound data limits f snapshot snapshot_offset commit_start root :
  validate_commit data limits = Ok (f, snapshot, snapshot_offset, commit_start) -> root_reference data snapshot limits = Ok root ->
  len data <= max_file_bytes limits /\ pr_level root <= max_depth limits /\ snapshot_offset = ft_snapshot_offset f /\
  exists parent, valid_commit data f parent root commit_start.
Proof.
  unfold validate_commit, root_reference. intros Hr Hroot. step_all Hr. bool_facts.
  match goal with H : parse_footer _ _ = Ok ?x |- _ => rename H into Hf; rename x into g end.
  match goal with H : commit_start_of _ _ _ _ = Ok _ |- _ => rename H into Hc end.
  injection Hr as <- <- <- <-. option_facts.
  repeat match goal with H : usize_from_u64 _ _ = Ok _ |- _ => apply usize_from_u64_Ok in H as [-> ?] end.
  match goal with H : checked_range data (ft_snapshot_offset g) _ _ = Ok ?x |- _ => apply im_range_Ok in H as (Hse & Hsm & Hsn); rename x into raw end.
  match goal with H : u64_at raw 8 _ = Ok ?x |- _ => rename H into Hsq; subst x end. match goal with H : array 32 raw 64 _ = Ok ?x |- _ => rename H into Hpar; rename x into parent end.
  step_result Hroot. bool_facts. injection Hroot as <-. cbn [pr_level].
  repeat match goal with H : u64_from_usize _ = Ok _ |- _ => apply u64_from_usize_Ok in H as [-> ?] end.
  match goal with H : ft_snapshot_len g = SNAPSHOT_LEN |- _ => rename H into Hsl; rewrite Hsl in * end.
  match goal with H : usize_at raw 16 _ = Ok ?x |- _ => rename H into Hro; rename x into ro end. match goal with H : u64_at raw 24 _ = Ok ?x |- _ => rename H into Hlv; rename x into lv end.
  match goal with H : array 32 raw 32 _ = Ok ?x |- _ => rename H into Hrd; rename x into rd end.
  assert (HFL : FOOTER_LEN <= len data /\ FILE_HEADER_LEN <= len data) by lia.
  pose proof (proj1 (im_footer_Ok _ _ _) Hf) as (_ & _ & Hfok & _).
  assert (Hlens : len rd = 32 /\ len parent = 32).
  { apply im_array_Ok in Hrd as (? & _ & <-), Hpar as (? & _ & <-). split; apply slice_len_N; lia. }
  split_and!; [done|done|done|]. exists parent. destruct Hlens as [Hrl Hpl].
  assert (Hraw : len raw = SNAPSHOT_LEN) by (rewrite <- Hsn, slice_len by lia; lia).
  match goal with |- valid_commit _ _ _ ?r _ => assert (Hsb : raw = snapshot_bytes (ft_sequence g) r parent) end.
  { apply snapshot_reads; cbn [pr_offset pr_level pr_digest]; try done; [apply Hfok|]. apply u64_at_Ok in Hlv. apply Hlv. }
  constructor; cbn [pr_digest pr_level]; try done.
  - apply header_Ok; [lia|done].
  - lia.
  - by rewrite Hsn.
  - by rewrite <- Hsb.
  - apply commit_start_Ok; done.
Qed.

(** The reads of the root off its page. *)
Lemma root_page_reads data root content : page_present data root content -> exists page,
  checked_range data (pr_offset root) PAGE_SIZE "root page" = Ok page /\
  u64_at page 20 "root page" = Ok (pr_minimum root) /\ u64_at page 28 "root page" = Ok (pr_maximum root).
Proof.
  intros (Hlo & Hd & Hm & Hpage & Hdig & Hok). exists (content_bytes root content).
  split; [apply im_range_Ok; by split_and!|].
  assert (Hlen : len (slice data (pr_offset root) (pr_offset root + PAGE_SIZE)) = PAGE_SIZE) by (rewrite slice_len by lia; lia).
  rewrite Hpage in Hlen. destruct content as [es|cs]; cbn [content_ok] in Hok.
  - destruct Hok as (Hlv & Hc & Hok & Ho & Hh & Hl). destruct (proj1 (page_bytes_leaf _ root es Hlen Hok Hc) eq_refl) as [Hhd _].
    apply page_header_reads in Hhd; [|done..|assert (LEAF_CAPACITY <= U32_MAX) by (by apply N.leb_le); lia|done|by eapply head_locator_bound|by eapply last_locator_bound].
    destruct Hhd as (_ & _ & _ & _ & _ & _ & H1 & H2 & _). apply u64_at_Ok in H1, H2. split; by apply u64_at_Ok.
  - destruct Hok as (Hlv & Hlv' & Hc & Hok & Ho & Hh & Hl). apply Forall_and in Hok as [Hok1 _]. destruct (proj1 (page_bytes_internal _ root cs Hlen Hok1 Hc) eq_refl) as [Hhd _].
    apply page_header_reads in Hhd; [|done|done|lia|assert (INTERNAL_FANOUT <= U32_MAX) by (by apply N.leb_le); lia|done|by eapply head_child_bound|by eapply last_child_bound].
    destruct Hhd as (_ & _ & _ & _ & _ & _ & H1 & H2 & _). apply u64_at_Ok in H1, H2. split; by apply u64_at_Ok.
Qed.

Lemma validate_commit_complete data limits f parent root commit_start content :
  valid_commit data f parent root commit_start -> page_present data root content ->
  len data <= max_file_bytes limits -> FILE_HEADER_LEN + OBJECT_HEADER_LEN + PAGE_SIZE + SNAPSHOT_LEN + FOOTER_LEN <= len data ->
  pr_level root <= max_depth limits ->
  let snapshot := slice data (ft_snapshot_offset f) (ft_snapshot_offset f + SNAPSHOT_LEN) in
  validate_commit data limits = Ok (f, snapshot, ft_snapshot_offset f, commit_start) /\ root_reference data snapshot limits = Ok root.
Proof.
  intros [Hh Hsl He Hf Hsn Hp Hr Hlv Hsd Hlink Hcd] Hpage Hmax Hmin Hdep snapshot. 
  pose proof (proj1 (im_footer_Ok _ _ _) Hf) as (_ & Hm & Hfok & _). pose proof Hfok as (Hsq & Hso & _).
  pose proof Hpage as (_ & _ & Hro & _).
  assert (Hraw : len snapshot = SNAPSHOT_LEN) by (unfold snapshot; rewrite slice_len by lia; lia).
  assert (HFL : FOOTER_LEN <= len data) by lia.
  destruct (proj1 (snapshot_reads snapshot (ft_sequence f) root parent Hraw Hsq ltac:(lia) ltac:(unfold U64_MAX; lia) Hr Hp) Hsn) as (R1 & R2 & R3 & R4 & R5 & R6).
  split.
  - unfold validate_commit. rewrite (proj2 (N.ltb_ge _ _) Hmax), (proj2 (N.ltb_ge _ _) Hmin). cbn [negb].
    apply header_Ok in Hh as [Hh1 Hh2]; [|lia]. rewrite (bool_decide_eq_true_2 _ Hh1), Hh2. cbn [negb andb]. rewrite Hf.
    rewrite (proj2 (usize_from_u64_Ok (ft_snapshot_offset f) _ (ft_snapshot_offset f))) by done.
    rewrite (proj2 (usize_from_u64_Ok (ft_snapshot_len f) _ SNAPSHOT_LEN)) by (split; [done|rewrite Hsl; by apply N.leb_le]).
    rewrite N.eqb_refl, checked_add_fits by lia. cbn [ok_or]. rewrite (proj2 (N.eqb_eq _ (len data - FOOTER_LEN))) by lia.
    rewrite (proj2 (im_range_Ok data (ft_snapshot_offset f) SNAPSHOT_LEN "snapshot" snapshot)) by (split_and!; [lia|lia|done]).
    rewrite bool_decide_eq_true_2 by (unfold snapshot; by rewrite Hsn). rewrite (bool_decide_eq_true_2 _ R1), R2, N.eqb_refl, R3.
    rewrite (proj2 (commit_start_Ok data f parent commit_start Hfok Hp) Hlink). rewrite (bool_decide_eq_true_2 _ Hcd). done.
  - unfold root_reference. rewrite R4, R5. rewrite (proj2 (N.leb_le _ _) Hlv), (proj2 (N.ltb_ge _ _) Hdep). cbn [negb].
    destruct (root_page_reads data root content Hpage) as (page & -> & -> & ->). rewrite (proj2 (u64_from_usize_Ok (pr_offset root) (pr_offset root))) by (split; [done|lia]).
    rewrite R6. by destruct root.
Qed.
End Commits.

(** ** Files *)

Section Files.
Context `{HS : Sha256} `{HL : Layout}.
Implicit Types data : bytes.

(** A file: its last commit, the tree of its directory with the pages [offs]
    and the locators [es], and the records of these; no two parts share a
    byte, and the footer counts the pages of the commit. *)
Record valid_image data (f : Footer) (parent : bytes) (root : PageRef) (commit_start : N) (es : list Locator) (offs : list N) : Prop := mkValidImage {
  vi_commit : valid_commit data f parent root commit_start;
  vi_tree : tree_at data root (es, offs);
  vi_pages_below o : o ∈ offs -> o + PAGE_SIZE <= ft_snapshot_offset f;
  vi_pages_disjoint : disjoint_ranges (im_page_range <$> offs);
  vi_page_count : ft_page_count_current f = len (filter (fun o => commit_start <= o) offs);
  vi_objects : Forall (object_present data) es;
  vi_objects_below e : e ∈ es -> lo_record_offset e + lo_record_len e <= ft_snapshot_offset f;
  vi_objects_apart e o : e ∈ es -> o ∈ offs -> apart (object_range e) (im_page_range o);
  vi_objects_disjoint : disjoint_ranges (object_range <$> es);
}.

Definition image_report data (f : Footer) (root : PageRef) (es : list Locator) (offs : list N) : InternalReport :=
  mkInternalReport (mkReport (ft_sequence f) (len es) (len offs) (pr_level root) (ft_snapshot_digest f) (ft_commit_digest f)) es (len data - FOOTER_LEN).

Record image_admitted (limits : ImmutableLimits) data (root : PageRef) (es : list Locator) (offs : list N) : Prop := mkImageAdmitted {
  ia_file : len data <= max_file_bytes limits;
  ia_depth : pr_level root <= max_depth limits;
  ia_pages : len offs <= max_pages limits;
  ia_objects : objects_fit (len es) limits;
  ia_ranges : fits 16 (len es) limits;
}.

Lemma check_objects_Ok data snapshot_offset ranges es rs : Forall locator_ok es ->
  map_result (check_object data snapshot_offset ranges) es = Ok rs <->
  Forall (object_present data) es /\ (forall e, e ∈ es -> lo_record_offset e + lo_record_len e <= snapshot_offset) /\
  (forall e x, e ∈ es -> x ∈ ranges -> apart (object_range e) x) /\ rs = object_range <$> es.
Proof.
  intros Hok. rewrite map_result_Forall2. revert rs. induction Hok as [|e es He Hok IH]; intros rs.
  - split; [intros ->%Forall2_nil_inv_l; split_and!; [constructor|by intros e ?%elem_of_nil|by intros e x ?%elem_of_nil|done]|]. by intros (_ & _ & _ & ->).
  - split.
    + intros Hf. inversion Hf as [|? r ? rs' Hr Hf']; subst. apply check_object_Ok in Hr as (Hp & Hb & Ha & ->); [|done]. apply IH in Hf' as (H1 & H2 & H3 & ->).
      split_and!; [by constructor|by intros x [->|Hx]%elem_of_cons; auto|by intros x y [->|Hx]%elem_of_cons; auto|done].
    + intros ([Hp H1]%Forall_cons & H2 & H3 & ->). constructor.
      * apply check_object_Ok; [done|]. split_and!; [done|apply H2; by left|intros x Hx; apply H3; [by left|done]|done].
      * apply IH. split_and!; [done|intros x Hx; apply H2; by right|intros x y Hx Hy; apply H3; [by right|done]|done].
Qed.

Lemma object_ranges_nonempty data es : Forall (object_present data) es -> Forall (fun r => r.1 < r.2) (object_range <$> es).
Proof.
  intros Ho. apply Forall_fmap. eapply Forall_impl; [exact Ho|]. intros e (_ & _ & _ & Hl & _). cbn. rewrite Hl. unfold OBJECT_HEADER_LEN. lia.
Qed.

Lemma elements_filter (P : N -> Prop) `{forall o, Decision (P o)} (offs : list N) : NoDup offs ->
  length (filter P (elements (list_to_set offs : gset N))) = length (filter P offs).
Proof. intros Hn. apply Permutation_length, filter_Permutation. by apply elements_list_to_set. Qed.

(** What the traversal of the directory starts from. *)
Definition start_traversal data (snapshot_offset : N) (root : PageRef) : Traversal :=
  mkTraversal ∅ [root] [] [(snapshot_offset, len data - FOOTER_LEN); (len data - FOOTER_LEN, len data)].

Lemma traversed_root data snapshot_offset root es offs :
  traversed (start_traversal data snapshot_offset root) [(es, offs)] =
  mkTraversal (list_to_set offs) [] es ([(snapshot_offset, len data - FOOTER_LEN); (len data - FOOTER_LEN, len data)] ++ (im_page_range <$> offs)).
Proof. unfold traversed, start_traversal. cbn [tv_seen tv_locators tv_ranges concat fmap list_fmap fst snd app]. by rewrite !app_nil_r, (right_id_L ∅ _). Qed.

Lemma start_clear data snapshot_offset root es offs : snapshot_offset <= len data - FOOTER_LEN ->
  NoDup offs -> (forall o, o ∈ offs -> o + PAGE_SIZE <= snapshot_offset) -> disjoint_ranges (im_page_range <$> offs) ->
  trees_clear snapshot_offset (start_traversal data snapshot_offset root) [(es, offs)].
Proof.
  intros He Hn Hbelow Hdis. constructor; cbn [start_traversal tv_seen tv_ranges concat fmap list_fmap snd]; rewrite ?app_nil_r; try done.
  intros o x Ho Hx. specialize (Hbelow o Ho). apply apart_le. left. apply elem_of_cons in Hx as [->|Hx]; [done|].
  apply list_elem_of_singleton in Hx as ->. cbn. lia.
Qed.

Lemma disjoint_pages_nodup (offs : list N) : disjoint_ranges (im_page_range <$> offs) -> NoDup offs.
Proof.
  induction offs as [|o offs IH]; [constructor|]. rewrite fmap_cons. intros [Hs Hf]%StronglySorted_inv. constructor; [|by apply IH].
  intros Ho. pose proof (proj1 (Forall_forall _ _) Hf (im_page_range o) (list_elem_of_fmap_2 _ _ _ Ho)) as Ha. apply apart_le in Ha. cbn in Ha.
  assert (0 < PAGE_SIZE) by done. lia.
Qed.

(** [validate_internal] after the commit has been checked. *)
Lemma validate_internal_sound data limits r : validate_internal data limits = Ok r ->
  exists f parent root commit_start es offs, valid_image data f parent root commit_start es offs /\ image_admitted limits data root es offs /\
    r = image_report data f root es offs.
Proof.
  unfold validate_internal. intros Hr. step_result Hr. destruct a as [[[f snapshot] snapshot_offset] commit_start]. step_result Hr. bool_facts.
  match goal with H : root_reference _ _ _ = Ok ?x |- _ => rename x into root; rename H into Hroot end.
  match goal with H : validate_commit _ _ = Ok _ |- _ => rename H into Hcommit end.
  destruct (validate_commit_sound _ _ _ _ _ _ _ Hcommit Hroot) as (Hmax & Hdep & -> & parent & Hvc). pose proof Hvc as [_ _ Hend _ _ _ _ _ _ _ _].
  match goal with H : traverse _ _ _ _ _ = Ok ?x |- _ => rename x into tv; rename H into Htv end. 
  change (traverse (S (N.to_nat (max_pages limits))) data (ft_snapshot_offset f) limits (start_traversal data (ft_snapshot_offset f) root) = Ok tv) in Htv.
  apply traverse_sound in Htv as (subs & Hf & Had & ->); [|by repeat constructor].
  cbn [start_traversal tv_stack] in Hf. inversion Hf as [|? [es offs] ? ? Ht Hnil]; subst. apply Forall2_nil_inv_l in Hnil as ->.
  fold (start_traversal data (ft_snapshot_offset f) root) in *. rewrite traversed_root in *.
  cbn [tv_seen tv_stack tv_locators tv_ranges] in *. destruct Had as [[Hn _ Hbelow Hdis Hapart] _ [|[Hpg Hobj]]]; [done|].
  cbn [start_traversal tv_seen tv_stack tv_locators tv_ranges concat fmap list_fmap fst snd] in *. rewrite app_nil_r in *. rewrite size_empty in Hpg.
  destruct (ptree_spans _ _ _ _ _ Ht) as [Hspan Hlok]. cbn [fst snd] in *.
  match goal with H : map_result _ _ = Ok _ |- _ => apply check_objects_Ok in H as (Ho1 & Ho2 & Ho3 & ->); [|done] end.
  match goal with H : any_window _ _ = false |- _ => apply record_windows in H; [rename H into Hod|by eapply object_ranges_nonempty] end.
  im_reads. injection Hr as <-. exists f, parent, root, commit_start, es, offs. split_and!.
  - constructor; try done.
    + match goal with H : u64_from_usize _ = Ok _ |- _ => apply u64_from_usize_Ok in H as [-> _] end. unfold len. by rewrite elements_filter.
    + intros e o He Ho. apply Ho3; [done|]. apply elem_of_app. right. by apply list_elem_of_fmap_2.
  - by constructor.
  - unfold image_report. by rewrite size_list_to_set.
Qed.

Lemma valid_image_length data f parent root commit_start es offs : valid_image data f parent root commit_start es offs ->
  FILE_HEADER_LEN + OBJECT_HEADER_LEN + PAGE_SIZE + SNAPSHOT_LEN + FOOTER_LEN <= len data.
Proof.
  intros [[_ _ Hend _ _ _ _ _ _ _ _] Ht Hbelow _ _ Hobj Hob Hap _]. pose proof Ht as Ht'. apply tree_unfold in Ht' as (content & subs & Hp & _ & E).
  injection E as _ E. assert (Hoff : pr_offset root ∈ offs) by (rewrite E; by left). destruct (ptree_spans _ _ _ _ _ Ht) as [(_ & Hh & _) _]. cbn [fst snd] in Hh.
  destruct es as [|e es]; [done|]. apply Forall_cons in Hobj as [Ho _]. destruct Ho as (Hlo & _ & _ & Hlen & _). destruct Hp as (Hpl & _).
  pose proof (Hbelow _ Hoff). pose proof (Hob e ltac:(by left)). pose proof (Hap e _ ltac:(by left) Hoff) as Ha. apply apart_le in Ha. cbn in Ha. lia.
Qed.

Lemma validate_internal_complete data limits f parent root commit_start es offs : valid_image data f parent root commit_start es offs ->
  image_admitted limits data root es offs -> fits size_of_page_ref (len offs) limits ->
  validate_internal data limits = Ok (image_report data f root es offs).
Proof.
  intros Hv [Hfile Hdep Hpg Hobj Hrs] Hfit. pose proof (valid_image_length _ _ _ _ _ _ _ Hv) as Hmin.
  destruct Hv as [Hvc Ht Hbelow Hdis Hcount Hobjs Hob Hap Hod]. pose proof Ht as Ht'. apply tree_unfold in Ht' as (content & subs & Hp & _ & E).
  destruct (validate_commit_complete _ limits _ _ _ _ _ Hvc Hp Hfile Hmin Hdep) as [Hc Hroot]. pose proof Hvc as [_ _ Hend _ _ _ _ _ _ _ _].
  unfold validate_internal. rewrite Hc, Hroot. fold (start_traversal data (ft_snapshot_offset f) root).
  pose proof (disjoint_pages_nodup _ Hdis) as Hn. destruct (ptree_spans _ _ _ _ _ Ht) as [(Ho & Hh & Hl) Hlok]. cbn [fst snd] in *.
  rewrite (traverse_complete _ _ _ _ _ [(es, offs)]).
  - rewrite traversed_root. cbn [tv_seen tv_stack tv_locators tv_ranges]. rewrite elements_filter by done. fold (len (filter (fun o => commit_start <= o) offs)). rewrite <- Hcount.
    rewrite (proj2 (u64_from_usize_Ok _ (ft_page_count_current f))), N.eqb_refl.
    2: { split; [done|]. destruct Hvc as [_ _ _ Hf _ _ _ _ _ _ _]. apply im_footer_Ok in Hf as (_ & _ & (_ & _ & _ & _ & ? & _) & _). done. }
    rewrite (proj2 (locators_ordered_Ok _) Ho), Hh, Hl, !(bool_decide_eq_true_2 (Some _ = Some _)) by done. rewrite bool_decide_eq_false_2 by (by intros ->). cbn [orb negb].
    rewrite (proj2 (allocation_check_Ok _ _ _ tt)) by done. rewrite (proj2 (check_objects_Ok data _ _ es (object_range <$> es) Hlok)).
    + rewrite (proj2 (record_windows _ (object_ranges_nonempty _ _ Hobjs)) Hod). cbn [negb]. unfold image_report. by rewrite size_list_to_set.
    + split_and!; try done. intros e x He [Hx|(o & -> & Hox)%list_elem_of_fmap]%elem_of_app; [|by apply Hap]. specialize (Hob e He). apply apart_le. left.
      apply elem_of_cons in Hx as [->|Hx]; [done|]. apply list_elem_of_singleton in Hx as ->. cbn. lia.
  - cbn [start_traversal tv_stack]. by repeat constructor.
  - constructor; cbn [start_traversal tv_seen tv_stack tv_locators tv_ranges concat fmap list_fmap fst snd]; rewrite ?app_nil_r; try done.
    + apply start_clear; [lia|done..].
    + repeat constructor. done.
    + right. rewrite size_empty. done.
  - cbn [concat fmap list_fmap snd]. by rewrite app_nil_r.
  - cbn [concat fmap list_fmap snd]. rewrite app_nil_r. unfold len in Hpg. lia.
Qed.
End Files.

(** ** Panics *)

Definition no_panic {A} (r : I A) : Prop := r <> Err Panicked.

Lemma no_panic_Ok {A} (a : A) : no_panic (Ok a).
Proof. done. Qed.
Lemma no_panic_Refused {A} e : no_panic (@Err Failure A (Refused e)).
Proof. done. Qed.
Lemma no_panic_bind {A B} (m : I A) (f : A -> I B) : no_panic m -> (forall a, m = Ok a -> no_panic (f a)) ->
  no_panic (match m with Ok a => f a | Err e => Err e end).
Proof. destruct m as [a|e]; [intros _ Hf; by apply Hf|]. intros Hm _ [= ->]. done. Qed.
Lemma no_panic_check {A} (c : bool) (m : I A) e : (c = true -> no_panic m) -> no_panic (if c then m else Err (Refused e)).
Proof. destruct c; [auto|done]. Qed.
Lemma no_panic_if {A} (c : bool) (m n : I A) : no_panic m -> no_panic n -> no_panic (if c then m else n).
Proof. by destruct c. Qed.
Lemma no_panic_ok_or {A} (o : option A) e : no_panic (ok_or o (Refused e)).
Proof. by destruct o. Qed.

Lemma no_panic_map {A B} (f : A -> I B) l : (forall x, no_panic (f x)) -> no_panic (map_result f l).
Proof. intros Hf. induction l as [|x l IH]; cbn [map_result]; [done|]. apply no_panic_bind; [done|]. intros y _. apply no_panic_bind; [done|]. done. Qed.

Create HintDb panic.
#[export] Hint Resolve no_panic_Ok no_panic_Refused no_panic_ok_or : panic.

Ltac no_panic_step :=
  first [ progress auto with panic
        | apply no_panic_bind; [|intros ? ?]
        | apply no_panic_check; intros ?
        | apply no_panic_if
        | apply no_panic_map; intros ? ].
Ltac no_panic_run := repeat no_panic_step.

Section Panics.
Context `{HS : Sha256} `{HL : Layout}.
Implicit Types data : bytes.

Lemma checked_range_np data offset n label : no_panic (checked_range data offset n label).
Proof. unfold checked_range. no_panic_run. Qed.
Lemma u16_at_np data offset label : no_panic (u16_at data offset label).
Proof. unfold u16_at, array, checked_range. no_panic_run. Qed.
Lemma u32_at_np data offset label : no_panic (u32_at data offset label).
Proof. unfold u32_at, array, checked_range. no_panic_run. Qed.
Lemma u64_at_np data offset label : no_panic (u64_at data offset label).
Proof. unfold u64_at, array, checked_range. no_panic_run. Qed.
Lemma usize_at_np data offset label : no_panic (usize_at data offset label).
Proof. unfold usize_at, usize_from_u64, u64_at, array, checked_range. no_panic_run. Qed.
Lemma array_np n data offset label : no_panic (array n data offset label).
Proof. apply checked_range_np. Qed.
Lemma usize_np v label : no_panic (usize_from_u64 v label).
Proof. unfold usize_from_u64. no_panic_run. Qed.
Lemma u64_np v : no_panic (u64_from_usize v).
Proof. unfold u64_from_usize. no_panic_run. Qed.
Lemma allocation_np size count limits : no_panic (allocation_check size count limits).
Proof. unfold allocation_check. no_panic_run. Qed.
End Panics.
#[export] Hint Resolve checked_range_np u16_at_np u32_at_np u64_at_np usize_at_np array_np usize_np u64_np allocation_np : panic.

Section ValidatePanics.
Context `{HS : Sha256} `{HL : Layout}.
Implicit Types data : bytes.

Lemma parse_footer_np data offset : no_panic (parse_footer data offset).
Proof. unfold parse_footer. no_panic_run. Qed.

Lemma root_reference_np data snapshot limits : no_panic (root_reference data snapshot limits).
Proof. unfold root_reference. no_panic_run. Qed.

Lemma parse_page_np data reference snapshot_offset limits tv : no_panic (parse_page data reference snapshot_offset limits tv).
Proof.
  unfold parse_page, parse_leaf, parse_internal, for_entries, parse_leaf_entry, parse_child_entry. no_panic_run.
Qed.

Lemma check_object_np data snapshot_offset ranges e : no_panic (check_object data snapshot_offset ranges e).
Proof. unfold check_object. no_panic_run. Qed.

(** The fuel of the traversal is enough: it sees at most [max_pages] pages. *)
Lemma traverse_np data snapshot_offset limits fuel tv :
  N.of_nat (size (tv_seen tv)) <= max_pages limits -> max_pages limits < N.of_nat (size (tv_seen tv)) + N.of_nat fuel ->
  no_panic (traverse fuel data snapshot_offset limits tv).
Proof.
  revert tv. induction fuel as [|fuel IH]; intros tv Hsz Hf; cbn [traverse]; destruct (tv_stack tv) as [|reference stack] eqn:Es; try done; [lia|].
  apply no_panic_bind; [apply parse_page_np|]. intros tv' Hp. apply parse_page_Ok in Hp as (content & _ & (_ & _ & Hpg & Hnew & _) & ->).
  cbn [tv_seen] in *. apply IH; cbn [after_page tv_seen]; rewrite seen_size by done; lia.
Qed.

(** Where a run that panics goes on from a step that does not. *)
Lemma panic_bind {A B} (m : I A) (f : A -> I B) : no_panic m ->
  match m with Ok a => f a | Err e => Err e end = Err Panicked -> exists a, m = Ok a /\ f a = Err Panicked.
Proof. destruct m as [a|e]; [intros _ Hf; by exists a|]. intros Hm [= ->]. done. Qed.

Lemma panic_check {A} (c : bool) (m : I A) e : (if c then m else Err (Refused e)) = Err Panicked -> c = true /\ m = Err Panicked.
Proof. by destruct c. Qed.

Ltac panic_steps H :=
  repeat first
    [ apply panic_check in H as [? H]
    | apply panic_bind in H as (? & ? & H); [|solve [auto with panic | no_panic_run]] ].

(** Strict validation panics only where the footer before the last one has the
    largest sequence number, which cannot be followed. *)
Lemma validate_internal_panics data limits : validate_internal data limits = Err Panicked ->
  exists f previous, parse_footer data (len data - FOOTER_LEN) = Ok f /\ ft_previous_footer_offset f <> ABSENT_OFFSET /\
    parse_footer data (ft_previous_footer_offset f) = Ok previous /\ ft_sequence previous = U64_MAX.
Proof.
  unfold validate_internal. intros Hr.
  assert (Hc : validate_commit data limits = Err Panicked).
  { destruct (validate_commit data limits) as [[[[f snapshot] snapshot_offset] commit_start]|[|]]; [|done|done]. exfalso. revert Hr.
    apply no_panic_bind; [apply root_reference_np|]. intros root _. apply no_panic_bind.
    { apply traverse_np; cbn [tv_seen]; rewrite size_empty; lia. }
    intros tv _. no_panic_run. }
  clear Hr. unfold validate_commit in Hc.
  assert (Hfp : forall d o, no_panic (parse_footer d o)) by (intros; apply parse_footer_np).
  panic_steps Hc.
  destruct (commit_start_of data x x0 x5) as [cs|[|]] eqn:Ecs; [by apply panic_check in Hc as [_ ?]|done|]. clear Hc. unfold commit_start_of in Ecs.
  destruct (N.eqb_spec (ft_previous_footer_offset x) ABSENT_OFFSET) as [|Ea]; [by apply panic_check in Ecs as [_ ?]|].
  apply panic_bind in Ecs as (po & Hpo & Ecs); [|auto with panic]. apply usize_from_u64_Ok in Hpo as [-> _].
  apply panic_bind in Ecs as (pe & _ & Ecs); [|auto with panic]. apply panic_check in Ecs as [_ Ecs].
  apply panic_bind in Ecs as (previous & Hprev & Ecs); [|done]. exists x, previous. split_and!; try done.
  destruct (checked_add (ft_sequence previous) 1) as [n|] eqn:Ev; [by apply panic_check in Ecs as [_ ?]|].
  apply im_footer_Ok in Hprev as (_ & _ & (? & _) & _). unfold checked_add in Ev. destruct (N.leb_spec (ft_sequence previous + 1) U64_MAX); [done|lia].
Qed.
End ValidatePanics.
