(* ===== verification/ImmutableBuild.v ===== *)
(** The writers of immutable-page files: the pages and records they encode are
    those the format asks for, the tree they build roots the directory, and a
    commit they publish over it is a valid file in canonical form. Failures are
    followed with [limited]: a step that keeps its promise or is refused by a
    limit. *)

From Stdlib Require Import Strings.Byte Strings.String NArith ZArith Lia.
From stdpp Require Import base list gmap strings sorting.
From S2P Require Import Prelude Order Digest Exp0002 Exp0002File Exp0002Pages Exp0002Strict Exp0002Levels Immutable ImmutableFacts ImmutableStrict.

Local Open Scope N_scope.

(** ** A result, or a limit *)

Definition limited {A} (r : I A) (P : A -> Prop) : Prop :=
  match r with Ok a => P a | Err (Refused (Limit _)) => True | Err _ => False end.

Lemma limited_bind {A B} (m : I A) (f : A -> I B) (P : A -> Prop) (Q : B -> Prop) :
  limited m P -> (forall a, P a -> limited (f a) Q) -> limited (match m with Ok a => f a | Err e => Err e end) Q.
Proof. destruct m as [a|[[]|]]; cbn [limited]; auto. Qed.

Lemma limited_cap {A} (c : bool) (m : I A) label P : (c = true -> limited m P) -> limited (if c then m else Err (limit label)) P.
Proof. destruct c; cbn; auto. Qed.

Lemma limited_check {A} (c : bool) (m : I A) e P : c = true -> limited m P -> limited (if c then m else Err e) P.
Proof. by intros ->. Qed.

Lemma limited_some {A} (o : option A) label (P : A -> Prop) : (forall a, o = Some a -> P a) -> limited (ok_or o (limit label)) P.
Proof. destruct o; cbn; auto. Qed.

Lemma limited_Ok {A} (r : I A) a (P : A -> Prop) : r = Ok a -> P a -> limited r P.
Proof. by intros ->. Qed.

Lemma limited_mono {A} (r : I A) (P Q : A -> Prop) : (forall a, P a -> Q a) -> limited r P -> limited r Q.
Proof. destruct r as [a|[[]|]]; cbn; auto. Qed.

Lemma limited_alloc size count limits : limited (allocation_check size count limits) (fun _ => True).
Proof.
  unfold allocation_check. apply (limited_bind _ _ (fun _ => True)); [by apply limited_some|]. intros total _. by apply limited_cap.
Qed.

Lemma limited_u64 v : limited (u64_from_usize v) (fun w => w = v /\ v <= U64_MAX).
Proof. unfold u64_from_usize. apply limited_some. intros w Hw. by apply try_u64_Some in Hw. Qed.

(** Go on after a limit on something that does not matter. *)
Ltac limit_step :=
  lazymatch goal with
  | |- limited (match allocation_check _ _ _ with Ok _ => _ | Err _ => _ end) _ => apply (limited_bind _ _ (fun _ => True)); [apply limited_alloc|intros ? _]
  | |- limited (if _ then _ else Err (limit _)) _ => apply limited_cap; intros ?
  | |- limited (match u64_from_usize ?v with Ok _ => _ | Err _ => _ end) _ =>
      apply (limited_bind _ _ (fun w => w = v /\ v <= U64_MAX)); [apply limited_u64|intros ? [-> ?]]
  | |- limited (match ok_or (checked_add ?a ?b) (limit _) with Ok _ => _ | Err _ => _ end) _ =>
      apply (limited_bind _ _ (fun w => w = a + b /\ a + b <= U64_MAX)); [apply limited_some; intros ? ?%checked_add_Some; done|intros ? [-> ?]]
  end.

(** ** Validation of a valid file *)

Section Valid.
Context `{HS : Sha256} `{HL : Layout}.
Implicit Types data : bytes.

Lemma parse_leaf_limited page es minimum maximum limits tv : len page = PAGE_SIZE -> len es <= LEAF_CAPACITY -> Forall locator_ok es ->
  leaf_body page es -> locators_ordered es -> lo_object_id <$> head es = Some minimum -> lo_object_id <$> last es = Some maximum ->
  limited (parse_leaf page 0 LEAF_ENTRY_LEN (len es) minimum maximum limits tv)
    (eq (mkTraversal (tv_seen tv) (tv_stack tv) (tv_locators tv ++ es) (tv_ranges tv))).
Proof.
  intros Hp Hc Hok [He Hz] Ho Hmin Hmax. unfold parse_leaf. rewrite !N.eqb_refl, (proj2 (N.ltb_ge _ _) Hc). cbn [andb negb].
  repeat limit_step. rewrite (proj2 (leaf_entries_Ok page (len es) es Hp Hc)) by done.
  rewrite (proj2 (locators_ordered_Ok _) Ho), Hmin, Hmax, !bool_decide_eq_true_2 by done. cbn [negb orb]. by rewrite Hz, nonzero_zeros.
Qed.

Lemma parse_internal_limited page level cs minimum maximum limits tv : len page = PAGE_SIZE -> level <> 0 -> len cs <= INTERNAL_FANOUT ->
  Forall (fun c => child_ok c /\ pr_level c = level - 1) cs -> internal_body page cs -> references_ordered cs ->
  pr_minimum <$> head cs = Some minimum -> pr_maximum <$> last cs = Some maximum ->
  limited (parse_internal page level INTERNAL_ENTRY_LEN (len cs) minimum maximum limits tv)
    (eq (mkTraversal (tv_seen tv) (cs ++ tv_stack tv) (tv_locators tv) (tv_ranges tv))).
Proof.
  intros Hp Hlv Hc Hok [He Hz] Ho Hmin Hmax. unfold parse_internal. rewrite (proj2 (N.eqb_neq _ _) Hlv), N.eqb_refl, (proj2 (N.ltb_ge _ _) Hc). cbn [andb negb].
  repeat limit_step. rewrite (proj2 (internal_entries_Ok page level (len cs) cs Hp Hc)) by done.
  rewrite (proj2 (references_ordered_Ok _) Ho), Hmin, Hmax, !bool_decide_eq_true_2 by done. cbn [negb orb]. by rewrite Hz, nonzero_zeros.
Qed.

(** A page in place, off everything seen so far. *)
Lemma parse_page_limited data reference content snapshot_offset limits tv : page_present data reference content ->
  pr_offset reference + PAGE_SIZE <= snapshot_offset -> (forall r, r ∈ tv_ranges tv -> apart (im_page_range (pr_offset reference)) r) ->
  pr_offset reference ∉ tv_seen tv ->
  limited (parse_page data reference snapshot_offset limits tv) (fun tv' => tv' = after_page reference content tv /\ N.of_nat (size (tv_seen tv)) < max_pages limits).
Proof.
  intros (Hlo & Hd & Hm & Hpage & Hdig & Hok) Hso Hov Hseen. unfold parse_page, im_page_range in *. set (o := pr_offset reference) in *.
  rewrite (proj2 (usize_from_u64_Ok o _ o)) by (split; [done|lia]). rewrite (proj2 (N.ltb_ge _ _) Hlo). cbn [negb].
  rewrite checked_add_fits by done. cbn [ok_or]. rewrite (proj2 (N.ltb_ge _ _) Hso). cbn [negb]. rewrite (proj2 (overlaps_some_false _ _ _) Hov). cbn [negb].
  limit_step. bool_facts. rewrite (proj2 (try_insert_Some _ _ _) (conj Hseen eq_refl)). cbn [ok_or].
  rewrite (proj2 (im_range_Ok data o PAGE_SIZE _ _) (conj Hd (conj Hm eq_refl))).
  assert (Hlen : len (slice data o (o + PAGE_SIZE)) = PAGE_SIZE) by (rewrite slice_len by lia; lia).
  rewrite Hpage in *. set (page := content_bytes reference content) in *. rewrite bool_decide_eq_true_2 by done.
  assert (HP : len page <= U64_MAX) by (rewrite Hlen; by apply N.leb_le).
  destruct content as [es|cs]; cbn [content_ok content_children content_locators] in *.
  - destruct Hok as (Hlv & Hc & Hok & Ho & Hh & Hl). pose proof (proj1 (page_bytes_leaf page reference es Hlen Hok Hc) eq_refl) as [Hhd Hbody].
    apply page_header_reads in Hhd as (Hg1 & -> & -> & -> & -> & -> & -> & -> & ->); try done;
      [|assert (LEAF_CAPACITY <= U32_MAX) by (by apply N.leb_le); lia|by eapply head_locator_bound|by eapply last_locator_bound].
    rewrite (bool_decide_eq_true_2 _ Hg1), Hlv, !N.eqb_refl, (proj2 (N.eqb_neq _ _) (some_len _ _ _ Hh)). cbn [andb negb N.eqb].
    eapply limited_mono; [|by apply parse_leaf_limited]. by intros tv' <-.
  - destruct Hok as (Hlv & Hlv' & Hc & Hok & Ho & Hh & Hl). pose proof Hok as Hok'. apply Forall_and in Hok' as [Hok1 _].
    pose proof (proj1 (page_bytes_internal page reference cs Hlen Hok1 Hc) eq_refl) as [Hhd Hbody].
    apply page_header_reads in Hhd as (Hg1 & -> & -> & -> & -> & -> & -> & -> & ->); try done;
      [|lia|assert (INTERNAL_FANOUT <= U32_MAX) by (by apply N.leb_le); lia|by eapply head_child_bound|by eapply last_child_bound].
    rewrite (bool_decide_eq_true_2 _ Hg1), !N.eqb_refl, (proj2 (N.eqb_neq _ _) (some_len _ _ _ Hh)). cbn [andb negb N.eqb Pos.eqb].
    eapply limited_mono; [|by apply parse_internal_limited]. intros tv' <-. unfold after_page. cbn [tv_seen tv_stack tv_locators tv_ranges content_children content_locators].
    by rewrite app_nil_r.
Qed.

(** Trees that share no byte are gone over, within the limits. *)
Lemma traverse_limited data snapshot_offset limits fuel tv subs : Forall2 (tree_at data) (tv_stack tv) subs -> trees_clear snapshot_offset tv subs ->
  N.of_nat (size (tv_seen tv)) <= max_pages limits -> max_pages limits < N.of_nat (size (tv_seen tv)) + N.of_nat fuel ->
  limited (traverse fuel data snapshot_offset limits tv) (eq (traversed tv subs)).
Proof.
  revert tv subs. induction fuel as [|fuel IH]; intros [seen stack locators ranges] subs; cbn [traverse tv_stack tv_seen tv_locators tv_ranges];
    intros Hf Hclear Hsz Hfuel; (destruct stack as [|reference stack]; [apply Forall2_nil_inv_l in Hf as ->; by rewrite traversed_nil|]); [lia|].
  inversion Hf as [|? sub ? subs2 Ht Hf2]; subst. apply tree_unfold in Ht as (content & subs1 & Hp & Hf1 & ->).
  set (tv := mkTraversal seen stack locators ranges).
  apply (clear_top _ _ _ tv (reference :: stack)) in Hclear as [(P1 & P2 & P3) Hclear].
  eapply limited_bind; [by apply (parse_page_limited data reference content snapshot_offset limits tv)|]. cbn beta. intros tv' [-> Hlt]. cbn [tv tv_seen] in Hlt.
  eapply limited_mono; [|apply (IH (after_page reference content tv) (subs1 ++ subs2))].
  - intros tv' <-. by apply (traversed_step data reference content subs1 subs2 tv (reference :: stack)).
  - by apply Forall2_app.
  - done.
  - cbn [after_page tv_seen tv]. rewrite seen_size by done. lia.
  - cbn [after_page tv_seen tv]. rewrite seen_size by done. lia.
Qed.

Lemma validate_commit_limited data limits f parent root commit_start content :
  valid_commit data f parent root commit_start -> page_present data root content ->
  FILE_HEADER_LEN + OBJECT_HEADER_LEN + PAGE_SIZE + SNAPSHOT_LEN + FOOTER_LEN <= len data ->
  let snapshot := slice data (ft_snapshot_offset f) (ft_snapshot_offset f + SNAPSHOT_LEN) in
  limited (validate_commit data limits) (eq (f, snapshot, ft_snapshot_offset f, commit_start)) /\
  limited (root_reference data snapshot limits) (eq root).
Proof.
  intros Hvc Hp Hmin snapshot. set (roomy := mkImmutableLimits (len data) 0 0 255 0 0 0 0 0 0).
  assert (Hlv : pr_level root <= 255) by apply Hvc.
  destruct (validate_commit_complete data roomy f parent root commit_start content Hvc Hp) as [Hc Hr]; [done..|]. split.
  - revert Hc. unfold validate_commit. destruct (max_file_bytes limits <? len data); [done|]. cbn [roomy max_file_bytes]. rewrite N.ltb_irrefl. cbn [negb].
    intros Hc. by eapply limited_Ok; [exact Hc|].
  - revert Hr. fold snapshot. unfold root_reference. cbn [roomy max_depth]. intros Hr. step_result Hr.
    destruct (max_depth limits <? _); [done|]. cbn [negb limited]. congruence.
Qed.

(** A valid file is accepted, with its report, or refused by a limit. *)
Lemma validate_internal_limited data limits f parent root commit_start es offs : valid_image data f parent root commit_start es offs ->
  limited (validate_internal data limits) (eq (image_report data f root es offs)).
Proof.
  intros Hv. pose proof (valid_image_length _ _ _ _ _ _ _ Hv) as Hmin.
  destruct Hv as [Hvc Ht Hbelow Hdis Hcount Hobjs Hob Hap Hod]. pose proof Ht as Ht'. apply tree_unfold in Ht' as (content & subs & Hp & _ & E).
  destruct (validate_commit_limited data limits _ _ _ _ _ Hvc Hp Hmin) as [Hc Hroot]. pose proof Hvc as [_ _ Hend _ _ _ _ _ _ _ _].
  unfold validate_internal. eapply limited_bind; [exact Hc|]. intros ? <-. eapply limited_bind; [exact Hroot|]. intros ? <-.
  fold (start_traversal data (ft_snapshot_offset f) root).
  pose proof (disjoint_pages_nodup _ Hdis) as Hn. destruct (ptree_spans _ _ _ _ _ Ht) as [(Ho & Hh & Hl) Hlok]. cbn [fst snd] in *.
  eapply limited_bind; [apply (traverse_limited _ _ _ _ _ [(es, offs)])|].
  - cbn [start_traversal tv_stack]. by repeat constructor.
  - apply start_clear; [lia|done..].
  - cbn [start_traversal tv_seen]. rewrite size_empty. lia.
  - cbn [start_traversal tv_seen]. rewrite size_empty. lia.
  - cbn beta. intros ? <-. rewrite traversed_root. cbn [tv_seen tv_stack tv_locators tv_ranges]. rewrite elements_filter by done.
    fold (len (filter (fun o => commit_start <= o) offs)). rewrite <- Hcount. limit_step. rewrite N.eqb_refl.
    rewrite (proj2 (locators_ordered_Ok _) Ho), Hh, Hl, !(bool_decide_eq_true_2 (Some _ = Some _)) by done. rewrite bool_decide_eq_false_2 by (by intros ->). cbn [orb negb].
    limit_step. rewrite (proj2 (check_objects_Ok data _ _ es (object_range <$> es) Hlok)).
    + rewrite (proj2 (record_windows _ (object_ranges_nonempty _ _ Hobjs)) Hod). cbn [negb limited]. unfold image_report. by rewrite size_list_to_set.
    + split_and!; try done. intros e x He [Hx|(o & -> & Hox)%list_elem_of_fmap]%elem_of_app; [|by apply Hap]. specialize (Hob e He). apply apart_le. left.
      apply elem_of_cons in Hx as [->|Hx]; [done|]. apply list_elem_of_singleton in Hx as ->. cbn. lia.
Qed.
End Valid.

(** ** Encoding *)

Section Encode.
Implicit Types pre mid post v : bytes.

Lemma im_put_app pre post o v : o + len v <= len pre -> put (pre ++ post) o v = put pre o v ++ post.
Proof. exact (put_app pre post o v). Qed.

Lemma im_put_len b o v : o + len v <= len b -> len (put b o v) = len b.
Proof. exact (put_len b o v). Qed.

Lemma put_inside pre mid post o v : o + len v <= len mid -> put (pre ++ mid ++ post) (len pre + o) v = pre ++ put mid o v ++ post.
Proof.
  intros Hl. unfold put, len in *. replace (N.to_nat (N.of_nat (length pre) + o)) with (length pre + N.to_nat o)%nat by lia.
  rewrite take_app_add. rewrite take_app_le by lia. rewrite <- Nat.add_assoc. rewrite drop_app_add. rewrite drop_app_le by lia. by rewrite <- !app_assoc.
Qed.

(** Several fields of one record. *)
Definition puts (base : N) (fields : list (N * bytes)) (b : bytes) : bytes := foldl (fun b p => put b (base + p.1) p.2) b fields.

Lemma puts_len base fields b : Forall (fun p => base + p.1 + len p.2 <= len b) fields -> len (puts base fields b) = len b.
Proof.
  intros Hf. revert b Hf. induction fields as [|p fields IH]; intros b Hf; [done|]. apply Forall_cons in Hf as [Hp Hf].
  cbn [puts foldl]. fold (puts base fields (put b (base + p.1) p.2)). rewrite IH; rewrite im_put_len by done; done.
Qed.

Lemma puts_inside pre mid post fields : Forall (fun p => p.1 + len p.2 <= len mid) fields ->
  puts (len pre) fields (pre ++ mid ++ post) = pre ++ puts 0 fields mid ++ post.
Proof.
  intros Hf. revert mid Hf. induction fields as [|p fields IH]; intros mid Hf; [done|]. apply Forall_cons in Hf as [Hp Hf].
  cbn [puts foldl]. rewrite put_inside by done. fold (puts (len pre) fields (pre ++ put mid p.1 p.2 ++ post)).
  rewrite IH by (by rewrite im_put_len). rewrite N.add_0_l. done.
Qed.

(** An entry written over zeros. *)
Lemma put_leaf_entry_eq pre post e : len (lo_digest e) = 32 ->
  put_leaf_entry (pre ++ zeros 88 ++ post) (len pre) e = pre ++ locator_bytes e ++ post.
Proof.
  intros Hd. set (fields := [(0, le_encode 8 (lo_object_id e)); (8, le_encode 2 (lo_kind e)); (16, le_encode 8 (lo_record_offset e));
    (24, le_encode 8 (lo_record_len e)); (32, le_encode 8 (lo_logical_len e)); (40, lo_digest e)]).
  assert (Hp : forall b o, put_leaf_entry b o e = puts o fields b) by (intros b o; unfold puts, fields; cbn [foldl fst snd]; by rewrite N.add_0_r).
  rewrite Hp, puts_inside. 2: { unfold fields. repeat constructor; cbn [fst snd]; rewrite ?Hd; done. }
  do 2 f_equal. rewrite <- Hp. clear Hp fields. destruct e as [id kind o n m d]. cbn [lo_digest] in Hd.
  assert (Hd' : length d = 32%nat) by (unfold len in Hd; lia). clear Hd. explode d. reflexivity.
Qed.

Lemma put_child_entry_eq pre post c : len (pr_digest c) = 32 ->
  put_child_entry (pre ++ zeros 64 ++ post) (len pre) c PAGE_SIZE = pre ++ child_bytes c ++ post.
Proof.
  intros Hd. set (fields := [(0, le_encode 8 (pr_minimum c)); (8, le_encode 8 (pr_maximum c)); (16, le_encode 8 (pr_offset c)); (24, le_encode 8 PAGE_SIZE); (32, pr_digest c)]).
  assert (Hp : forall b o, put_child_entry b o c PAGE_SIZE = puts o fields b) by (intros b o; unfold puts, fields; cbn [foldl fst snd]; by rewrite N.add_0_r).
  rewrite Hp, puts_inside. 2: { unfold fields. repeat constructor; cbn [fst snd]; rewrite ?Hd; done. }
  do 2 f_equal. rewrite <- Hp. clear Hp fields. destruct c as [mi ma o lv d]. cbn [pr_digest] in Hd.
  assert (Hd' : length d = 32%nat) by (unfold len in Hd; lia). clear Hd. explode d. reflexivity.
Qed.

(** The entries of a page, one after the other. *)
Lemma put_each_eq {A} (put_one : bytes -> N -> A -> bytes) (encode : A -> bytes) (size : nat) (entries : list A) pre post index :
  (forall pre post e, e ∈ entries -> put_one (pre ++ zeros size ++ post) (len pre) e = pre ++ encode e ++ post) ->
  (forall e, e ∈ entries -> len (encode e) = N.of_nat size) ->
  len pre = PAGE_HEADER_LEN + index * N.of_nat size ->
  put_each put_one (N.of_nat size) (pre ++ zeros (length entries * size) ++ post) index entries = pre ++ concat (encode <$> entries) ++ post.
Proof.
  revert pre index. induction entries as [|e entries IH]; intros pre index Hone Hsize Hpre; [done|]. cbn [put_each length]. rewrite <- Hpre.
  rewrite Nat.mul_succ_l, Nat.add_comm, zeros_app, <- app_assoc. rewrite Hone by (by left). rewrite fmap_cons. cbn [concat].
  rewrite (app_assoc pre). rewrite IH.
  - by rewrite <- !app_assoc.
  - intros pre' post' e' He. apply Hone. by right.
  - intros e' He. apply Hsize. by right.
  - rewrite len_app, Hpre, Hsize by (by left). lia.
Qed.

Lemma put_page_header_eq kind level count size minimum maximum :
  put_page_header kind level count size minimum maximum =
  concat (page_header_pieces kind level count size minimum maximum).*2 ++ zeros (N.to_nat (PAGE_SIZE - PAGE_HEADER_LEN)).
Proof.
  set (fields := [(0, PAGE_MAGIC); (8, [byte_of_N kind]); (9, [byte_of_N level]); (12, le_encode 4 count); (16, le_encode 4 size); (20, le_encode 8 minimum); (28, le_encode 8 maximum)]).
  assert (Hp : put_page_header kind level count size minimum maximum = puts 0 fields (zeros (N.to_nat PAGE_SIZE))) by reflexivity.
  rewrite Hp. replace (N.to_nat PAGE_SIZE) with (64 + N.to_nat (PAGE_SIZE - PAGE_HEADER_LEN))%nat.
  2: { assert (PAGE_HEADER_LEN <= PAGE_SIZE) by (by apply N.leb_le). unfold PAGE_HEADER_LEN in *. lia. }
  rewrite zeros_app. etransitivity; [apply (puts_inside [] (zeros 64))|].
  - unfold fields. repeat constructor; by apply N.leb_le.
  - reflexivity.
Qed.
End Encode.

Section Pages.
Context `{HS : Sha256} `{HL : Layout}.
Implicit Types output : bytes.

Lemma entries_len {A} (encode : A -> bytes) size (entries : list A) : Forall (fun e => len (encode e) = size) entries ->
  len (concat (encode <$> entries)) = len entries * size.
Proof. induction 1 as [|e entries He _ IH]; [done|]. rewrite fmap_cons. cbn [concat]. rewrite len_app, IH, He, len_cons. lia. Qed.

Lemma page_of_entries {A} (put_one : bytes -> N -> A -> bytes) (encode : A -> bytes) (size : nat) kind level minimum maximum (entries : list A) :
  (forall pre post e, e ∈ entries -> put_one (pre ++ zeros size ++ post) (len pre) e = pre ++ encode e ++ post) ->
  (forall e, e ∈ entries -> len (encode e) = N.of_nat size) ->
  PAGE_HEADER_LEN + len entries * N.of_nat size <= PAGE_SIZE ->
  put_each put_one (N.of_nat size) (put_page_header kind level (len entries) (N.of_nat size) minimum maximum) 0 entries =
  page_bytes kind level (N.of_nat size) minimum maximum (encode <$> entries).
Proof.
  intros Hone Hsize Hl. rewrite put_page_header_eq. unfold page_bytes. rewrite len_fmap.
  replace (N.to_nat (PAGE_SIZE - PAGE_HEADER_LEN)) with (length entries * size + N.to_nat (PAGE_SIZE - (PAGE_HEADER_LEN + len entries * N.of_nat size)))%nat.
  2: { unfold len in *. lia. }
  rewrite zeros_app. apply put_each_eq; [done|done|]. by rewrite N.mul_0_l, N.add_0_r.
Qed.

Lemma encode_leaf_eq es reference : content_ok reference (Locators es) -> encode_leaf es = Ok (content_bytes reference (Locators es)).
Proof.
  intros (Hlv & Hc & Hok & Ho & Hh & Hl). unfold encode_leaf. rewrite bool_decide_eq_false_2 by (by intros ->).
  rewrite (proj2 (N.ltb_ge _ _) Hc). cbn [orb negb]. rewrite (proj2 (locators_ordered_Ok _) Ho). cbn [negb].
  assert (HC : LEAF_CAPACITY <= U32_MAX) by (by apply N.leb_le). unfold u32_from_usize. rewrite (proj2 (N.leb_le (len es) U32_MAX)) by lia.
  change (LEAF_ENTRY_LEN <=? U32_MAX) with true. cbv beta iota.
  destruct (head es) as [first|]; [|done]. destruct (last es) as [last_|]; [|done]. cbn [ok_or content_bytes]. injection Hh as ->. injection Hl as ->. f_equal.
  apply (page_of_entries put_leaf_entry locator_bytes 88).
  - intros pre post e He. apply put_leaf_entry_eq. by apply (proj1 (Forall_forall _ _) Hok).
  - intros e He. apply locator_bytes_len. by apply (proj1 (Forall_forall _ _) Hok).
  - by apply leaf_capacity_fits.
Qed.

Lemma encode_internal_eq cs reference : content_ok reference (Children cs) -> encode_internal cs (pr_level reference) = Ok (content_bytes reference (Children cs)).
Proof.
  intros (Hlv & Hlv' & Hc & Hok & Ho & Hh & Hl). unfold encode_internal. rewrite bool_decide_eq_false_2 by (by intros ->).
  rewrite (proj2 (N.ltb_ge _ _) Hc), (proj2 (N.eqb_neq _ _) Hlv). cbn [orb negb]. rewrite (proj2 (references_ordered_Ok _) Ho). cbn [negb].
  rewrite (map_result_ok _ (fun _ => tt)).
  2: { intros c Hcs. destruct (proj1 (Forall_forall _ _) Hok c Hcs) as [_ Hcl]. rewrite Hcl. rewrite (proj2 (N.leb_le _ 255)) by lia.
    rewrite (proj2 (N.eqb_eq _ _)) by lia. done. }
  assert (HC : INTERNAL_FANOUT <= U32_MAX) by (by apply N.leb_le). unfold u32_from_usize. rewrite (proj2 (N.leb_le (len cs) U32_MAX)) by lia.
  change (INTERNAL_ENTRY_LEN <=? U32_MAX) with true. cbv beta iota.
  destruct (head cs) as [first|]; [|done]. destruct (last cs) as [last_|]; [|done]. cbn [ok_or content_bytes]. injection Hh as ->. injection Hl as ->.
  rewrite (proj2 (u64_from_usize_Ok PAGE_SIZE PAGE_SIZE)) by (split; [done|by apply N.leb_le]). f_equal.
  apply (page_of_entries (fun page offset child => put_child_entry page offset child PAGE_SIZE) child_bytes 64).
  - intros pre post c Hcs. apply put_child_entry_eq. by apply (proj1 (Forall_forall _ _) Hok).
  - intros c Hcs. apply child_bytes_len. by apply (proj1 (Forall_forall _ _) Hok).
  - by apply internal_fanout_fits.
Qed.

Lemma content_bytes_len reference content : content_ok reference content -> len (content_bytes reference content) = PAGE_SIZE.
Proof.
  assert (Hgen : forall kind level size minimum maximum (entries : list bytes), Forall (fun e => len e = size) entries ->
    PAGE_HEADER_LEN + len entries * size <= PAGE_SIZE -> len (page_bytes kind level size minimum maximum entries) = PAGE_SIZE).
  { intros kind level size minimum maximum entries Hs Hl. unfold page_bytes. autorewrite with len.
    change (len (concat (page_header_pieces kind level (len entries) size minimum maximum).*2)) with PAGE_HEADER_LEN.
    pose proof (entries_len id size entries Hs) as He. rewrite list_fmap_id in He. rewrite He. lia. }
  destruct content as [es|cs]; cbn [content_ok content_bytes].
  - intros (_ & Hc & Hok & _). apply Hgen; rewrite ?len_fmap; [|by apply leaf_capacity_fits]. apply Forall_fmap. eapply Forall_impl; [exact Hok|].
    intros e He. apply locator_bytes_len, He.
  - intros (_ & _ & Hc & Hok & _). apply Hgen; rewrite ?len_fmap; [|by apply internal_fanout_fits]. apply Forall_fmap. eapply Forall_impl; [exact Hok|].
    intros e [He _]. apply child_bytes_len, He.
Qed.

(** What [append_page] reads back off a page. *)
Lemma content_reads reference content : content_ok reference content -> let page := content_bytes reference content in
  byte_at page 9 = pr_level reference /\ u64_at page 20 "page" = Ok (pr_minimum reference) /\ u64_at page 28 "page" = Ok (pr_maximum reference).
Proof.
  intros Hcok. pose proof (content_bytes_len _ _ Hcok) as Hlen. destruct content as [es|cs]; cbn [content_ok] in Hcok.
  - destruct Hcok as (Hlv & Hc & Hok & Ho & Hh & Hl). destruct (proj1 (page_bytes_leaf _ reference es Hlen Hok Hc) eq_refl) as [Hhd _].
    apply page_header_reads in Hhd; [|done..|assert (LEAF_CAPACITY <= U32_MAX) by (by apply N.leb_le); lia|done|by eapply head_locator_bound|by eapply last_locator_bound].
    destruct Hhd as (_ & _ & H0 & _ & _ & _ & H1 & H2 & _). apply u64_at_Ok in H1, H2. split; [congruence|]. split; by apply u64_at_Ok.
  - destruct Hcok as (Hlv & Hlv' & Hc & Hok & Ho & Hh & Hl). apply Forall_and in Hok as [Hok1 _]. destruct (proj1 (page_bytes_internal _ reference cs Hlen Hok1 Hc) eq_refl) as [Hhd _].
    apply page_header_reads in Hhd; [|done|done|lia|assert (INTERNAL_FANOUT <= U32_MAX) by (by apply N.leb_le); lia|done|by eapply head_child_bound|by eapply last_child_bound].
    destruct Hhd as (_ & _ & H0 & _ & _ & _ & H1 & H2 & _). apply u64_at_Ok in H1, H2. split; [done|]. split; by apply u64_at_Ok.
Qed.

Lemma append_page_limited output reference content limits : content_ok reference content -> FILE_HEADER_LEN <= len output ->
  pr_offset reference = len output -> pr_digest reference = digest [PAGE_DOMAIN; content_bytes reference content] ->
  limited (append_page output (content_bytes reference content) limits)
    (fun r => r = (output ++ content_bytes reference content, reference) /\ page_present (output ++ content_bytes reference content) reference content).
Proof.
  intros Hok Hlo Hoff Hdig. pose proof (content_bytes_len _ _ Hok) as Hlen. destruct (content_reads _ _ Hok) as (H0 & H1 & H2). unfold append_page.
  repeat limit_step. rewrite H1, H2. repeat limit_step. cbn [limited]. split.
  - rewrite H0, <- Hoff, <- Hdig. by destruct reference.
  - unfold page_present. rewrite Hoff. autorewrite with len. rewrite Hlen. split_and!; try done; try lia. apply page_suffix. lia.
Qed.
End Pages.

(** ** Group sizes *)

Definition sum_sizes (sizes : list N) : N := foldr N.add 0 sizes.

Lemma sum_sizes_cons x sizes : sum_sizes (x :: sizes) = x + sum_sizes sizes.
Proof. done. Qed.

Lemma sum_sizes_nil : sum_sizes [] = 0.
Proof. done. Qed.

Lemma im_sum_sizes_app l k : sum_sizes (l ++ k) = sum_sizes l + sum_sizes k.
Proof. induction l as [|x l IH]; [done|]. cbn [app]. rewrite !sum_sizes_cons, IH. lia. Qed.

Lemma checked_sum_Ok sizes s : s + sum_sizes sizes <= U64_MAX -> checked_sum s sizes = Some (s + sum_sizes sizes).
Proof.
  revert s. induction sizes as [|x sizes IH]; intros s Hs; [cbn; by rewrite N.add_0_r|].
  cbn [checked_sum]. rewrite sum_sizes_cons in *. rewrite checked_add_fits by lia. rewrite IH by lia. f_equal. lia.
Qed.

Lemma sum_replicate n c : sum_sizes (replicate n c) = N.of_nat n * c.
Proof. induction n as [|n IH]; [done|]. cbn [replicate]. rewrite sum_sizes_cons, IH. lia. Qed.

Lemma im_len_replicate {A} n (x : A) : len (replicate n x) = N.of_nat n.
Proof. unfold len. by rewrite length_replicate. Qed.

Definition grouping (total capacity minimum : N) (sizes : list N) : Prop :=
  sum_sizes sizes = total /\ sizes <> [] /\ Forall (fun s => 1 <= s /\ s <= capacity) sizes /\
  (sizes = [total] \/ Forall (fun s => minimum <= s) sizes) /\ (2 <= capacity -> 2 <= total -> len sizes < total).

(** The sizes add up, none is over the capacity, and only a group on its own
    may be under the minimum. *)
Lemma canonical_group_sizes_limited total capacity minimum limits : 1 <= total -> 1 <= minimum -> minimum <= capacity -> 2 * minimum <= capacity + 1 ->
  limited (canonical_group_sizes total capacity minimum limits) (grouping total capacity minimum).
Proof.
  intros Ht Hm Hmc Hcap. unfold canonical_group_sizes. apply limited_check.
  { rewrite !(proj2 (N.eqb_neq _ 0)) by lia. by rewrite (proj2 (N.ltb_ge _ _) Hmc). }
  limit_step. set (groups := (total + (capacity - 1)) / capacity). limit_step. cbv beta iota.
  assert (Hdm : total = capacity * (total / capacity) + total mod capacity) by (apply N.div_mod; lia).
  assert (Hmod : total mod capacity < capacity) by (apply N.mod_lt; lia).
  set (q := total / capacity) in *. set (r := total mod capacity) in *.
  assert (Hg : groups = if r =? 0 then q else q + 1).
  { unfold groups. destruct (N.eqb_spec r 0) as [Hr|Hr].
    - symmetry. apply N.div_unique with (capacity - 1); nia.
    - symmetry. apply N.div_unique with (r - 1); nia. }
  destruct (N.eqb_spec groups 1) as [Eg|Eg].
  { cbn [limited]. unfold grouping. rewrite sum_sizes_cons, sum_sizes_nil, N.add_0_r, len_cons, len_nil.
    assert (total <= capacity) by (destruct (N.eqb_spec r 0); nia).
    split_and!; [done|done|by repeat constructor|by left|lia]. }
  assert (Hq : 1 <= q). { destruct (N.eqb_spec r 0); [|]; nia. }
  apply (limited_bind _ _ (fun sizes => sum_sizes sizes = total /\ len sizes = groups /\ Forall (fun s => minimum <= s /\ s <= capacity) sizes)).
  - destruct (N.eqb_spec r 0) as [Hr|Hr].
    + cbn [limited]. rewrite sum_replicate, im_len_replicate. split_and!; [nia|lia|]. apply Forall_replicate. lia.
    + destruct (N.leb_spec minimum r) as [Hmr|Hmr].
      * cbn [limited]. rewrite im_sum_sizes_app, sum_replicate, len_app, im_len_replicate. rewrite ?sum_sizes_cons, ?sum_sizes_nil. autorewrite with len.
        split_and!; [nia|lia|]. apply Forall_app. split; [apply Forall_replicate; lia|]. repeat constructor; lia.
      * unfold checked_sub. rewrite (proj2 (N.leb_le 1 q)) by lia. cbn [ok_or]. rewrite (proj2 (N.leb_le (minimum - r) capacity)) by lia. cbn [ok_or limited].
        rewrite im_sum_sizes_app, sum_replicate, len_app, im_len_replicate. rewrite ?sum_sizes_cons, ?sum_sizes_nil. autorewrite with len.
        split_and!; [nia|lia|]. apply Forall_app. split; [apply Forall_replicate; lia|]. repeat constructor; lia.
  - intros sizes (Hsum & Hlen & Hall). apply limited_check.
    + rewrite Hlen, N.eqb_refl. rewrite checked_sum_Ok by lia. rewrite N.add_0_l, Hsum, bool_decide_eq_true_2 by done. cbn [negb orb].
      rewrite orb_false_r. apply negb_true_iff, not_true_iff_false. rewrite existsb_exists. intros (s & Hs%list_elem_of_In & Hb).
      destruct (proj1 (Forall_forall _ _) Hall s Hs). apply orb_true_iff in Hb as [Hb|Hb]; bool_facts; lia.
    + cbn [limited]. unfold grouping. split_and!; [done| |eapply Forall_impl; [exact Hall|]; cbv beta; lia|right; eapply Forall_impl; [exact Hall|]; cbv beta; lia|].
      * intros ->. rewrite len_nil in Hlen. destruct (N.eqb_spec r 0); lia.
      * intros H2 H3. rewrite Hlen, Hg. destruct (N.eqb_spec r 0); nia.
Qed.

(** ** Growing a file *)

Section Grow.
Context `{HS : Sha256} `{HL : Layout}.
Implicit Types b : bytes.

Lemma im_page_app b more reference content : page_present b reference content -> page_present (b ++ more) reference content.
Proof.
  intros (H1 & H2 & H3 & H4 & H5 & H6). unfold page_present. rewrite slice_app_l by done. rewrite len_app. split_and!; try done. lia.
Qed.

Lemma ptree_app b more h reference es offs : ptree b h reference es offs -> ptree (b ++ more) h reference es offs.
Proof.
  revert reference es offs. induction h as [|h IH]; intros reference es offs; cbn [ptree].
  - intros [Hp ->]. split; [by apply im_page_app|done].
  - intros (cs & subs & Hp & Hf & -> & ->). exists cs, subs. split_and!; [by apply im_page_app| |done|done].
    eapply Forall2_impl; [exact Hf|]. intros c sub. apply IH.
Qed.

Lemma object_app b more e : object_present b e -> object_present (b ++ more) e.
Proof.
  intros (H1 & H2 & H3 & H4 & H5 & H6). unfold object_present. rewrite len_app, !slice_app_l; [|done|lia]. split_and!; try done. lia.
Qed.

Definition min_occupancy (h : nat) : N := match h with O => LEAF_MIN_OCCUPANCY | S _ => INTERNAL_MIN_OCCUPANCY end.

(** A page of at least [m] entries over pages as full as the canonical form
    asks. *)
Fixpoint occupied b (h : nat) (m : N) (reference : PageRef) : Prop :=
  match h with
  | O => exists es, page_present b reference (Locators es) /\ m <= len es
  | S h => exists cs, page_present b reference (Children cs) /\ m <= len cs /\ Forall (occupied b h (min_occupancy h)) cs
  end.

Lemma occupied_app b more h m reference : occupied b h m reference -> occupied (b ++ more) h m reference.
Proof.
  revert m reference. induction h as [|h IH]; intros m reference; cbn [occupied].
  - intros (es & Hp & Hm). exists es. split; [by apply im_page_app|done].
  - intros (cs & Hp & Hm & Hc). exists cs. split_and!; [by apply im_page_app|done|]. eapply Forall_impl; [exact Hc|]. auto.
Qed.

Lemma occupied_le b h m m' reference : m' <= m -> occupied b h m reference -> occupied b h m' reference.
Proof.
  intros Hm. destruct h as [|h]; cbn [occupied].
  - intros (es & Hp & He). exists es. split; [done|lia].
  - intros (cs & Hp & He & Hc). exists cs. split_and!; [done|lia|done].
Qed.

Abbreviation subtree := (list Locator * list N)%type.

(** A page of level [h] at [reference], and what is under it. *)
Record im_located b (h : nat) (m : N) (reference : PageRef) (sub : subtree) : Prop := mkLocated {
  il_tree : ptree b h reference sub.1 sub.2;
  il_occupied : occupied b h m reference;
  il_level : pr_level reference = N.of_nat h;
  il_child : child_ok reference;
}.

Lemma im_located_app b more h m reference sub : im_located b h m reference sub -> im_located (b ++ more) h m reference sub.
Proof. intros [H1 H2 H3 H4]. constructor; [by apply ptree_app|by apply occupied_app|done|done]. Qed.

Lemma im_located_all_app b more h m references subs : Forall2 (im_located b h m) references subs -> Forall2 (im_located (b ++ more) h m) references subs.
Proof. intros Hf. eapply Forall2_impl; [exact Hf|]. intros. by apply im_located_app. Qed.

(** Pages from [start] to the end that share no byte. *)
Definition fresh_pages (start : N) b (offs : list N) : Prop :=
  Forall (fun o => start <= o /\ o + PAGE_SIZE <= len b) offs /\ disjoint_ranges (im_page_range <$> offs).

Lemma fresh_pages_Permutation start b offs offs' : offs ≡ₚ offs' -> fresh_pages start b offs -> fresh_pages start b offs'.
Proof.
  intros Hp [H1 H2]. split; [by rewrite <- Hp|]. assert (Hr : im_page_range <$> offs ≡ₚ im_page_range <$> offs') by (by apply fmap_Permutation).
  by rewrite <- Hr.
Qed.

Lemma fresh_pages_push start b page offs : start <= len b -> len page = PAGE_SIZE -> fresh_pages start b offs -> fresh_pages start (b ++ page) (len b :: offs).
Proof.
  intros Hs Hl [H1 H2]. split.
  - constructor; [rewrite len_app; lia|]. eapply Forall_impl; [exact H1|]. cbv beta. intros o [? ?]. rewrite len_app. lia.
  - rewrite fmap_cons. constructor; [done|]. apply Forall_fmap. eapply Forall_impl; [exact H1|]. cbv beta. intros o [? ?]. apply apart_le. right. cbn. lia.
Qed.

(** ** One level *)

Section Groups.
Context {A : Type} (encode : list A -> I bytes) (h : nat) (m capacity : N).
Context (holds : bytes -> A -> subtree -> Prop).
Context (holds_app : forall b more x sub, holds b x sub -> holds (b ++ more) x sub).

(** Encoding a group and appending the page. *)
Definition pushes : Prop := forall b group subs limits, Forall2 (holds b) group subs -> group <> [] -> len group <= capacity -> m <= len group ->
  locators_ordered (concat subs.*1) -> FILE_HEADER_LEN <= len b ->
  limited (let* page := encode group in append_page b page limits)
    (fun r => exists page, r.1 = b ++ page /\ len page = PAGE_SIZE /\ im_located (b ++ page) h m r.2 (concat subs.*1, len b :: concat subs.*2)).
Context (Hpush : pushes).

Lemma groups_limited label limits start sizes rest subs done_ b pages level lsubs :
  Forall2 (holds b) rest subs -> sum_sizes sizes = len rest -> Forall (fun s => 1 <= s /\ s <= capacity /\ m <= s) sizes ->
  locators_ordered (concat lsubs.*1 ++ concat subs.*1) -> FILE_HEADER_LEN <= len b -> start <= len b ->
  Forall2 (im_located b h m) level lsubs -> fresh_pages start b (concat lsubs.*2 ++ concat subs.*2) -> pages = len (concat lsubs.*2 ++ concat subs.*2) ->
  limited (append_groups encode label limits sizes (done_ ++ rest) (len done_) b pages level)
    (fun r => exists b' lsubs', r.1.1 = b ++ b' /\ Forall2 (im_located (b ++ b') h m) r.2 lsubs' /\ concat lsubs'.*1 = concat lsubs.*1 ++ concat subs.*1 /\
      fresh_pages start (b ++ b') (concat lsubs'.*2) /\ r.1.2 = len (concat lsubs'.*2) /\ len r.2 = len level + len sizes).
Proof.
  revert rest subs done_ b pages level lsubs. induction sizes as [|size sizes IH]; intros rest subs done_ b pages level lsubs Hf Hsum Hsizes Ho Hlo Hstart Hlevel Hfresh Hpages;
    cbn [append_groups].
  - cbn in Hsum. destruct rest; [|rewrite len_cons in Hsum; lia]. apply Forall2_nil_inv_l in Hf as ->. cbn [limited]. exists [], lsubs. cbn [fst snd].
    cbn [concat fmap list_fmap] in *. rewrite !app_nil_r in *. rewrite len_nil. split_and!; try done. lia.
  - rewrite sum_sizes_cons in Hsum. apply Forall_cons in Hsizes as [(H1 & H2 & H3) Hsizes]. limit_step. limit_step.
    assert (Hsplit : exists group rest', rest = group ++ rest' /\ len group = size).
    { exists (take (N.to_nat size) rest), (drop (N.to_nat size) rest). rewrite take_drop. split; [done|]. unfold len in *. rewrite length_take. lia. }
    destruct Hsplit as (group & rest' & -> & Hgl). rewrite (get_range_app done_ group rest') by lia. cbn [ok_or].
    apply Forall2_app_inv_l in Hf as (gsubs & subs' & Hg & Hf & ->). rewrite !fmap_app, !concat_app in *.
    assert (Hog : locators_ordered (concat gsubs.*1)) by (apply ordered_app_iff in Ho as (_ & Ho & _); by apply ordered_app_iff in Ho as (Ho & _)).
    pose proof (Hpush b group gsubs limits Hg ltac:(intros ->; rewrite len_nil in Hgl; lia) ltac:(lia) ltac:(lia) Hog Hlo) as Hp.
    destruct (encode group) as [page|[[]|]]; try done. eapply limited_bind; [exact Hp|]. cbv beta. intros [b1 reference] (page' & E & Hpl & Hloc). cbn [fst snd] in *. subst b1.
    set (offs := concat lsubs.*2 ++ concat gsubs.*2 ++ concat subs'.*2) in *.
    assert (Hperm : len b :: offs ≡ₚ concat (lsubs ++ [(concat gsubs.*1, len b :: concat gsubs.*2)]).*2 ++ concat subs'.*2).
    { unfold offs. rewrite fmap_app, concat_app. cbn [fmap list_fmap concat snd]. rewrite app_nil_r, <- app_assoc, <- app_comm_cons. apply Permutation_middle. }
    eapply limited_mono; [|apply (limited_mono _ _ _ (fun r Hr => Hr))].
    2: { replace (done_ ++ group ++ rest') with ((done_ ++ group) ++ rest') by (by rewrite app_assoc). replace (len done_ + size) with (len (done_ ++ group)) by (rewrite len_app; lia).
      apply (IH rest' subs' (done_ ++ group) (b ++ page') (pages + 1) (level ++ [reference]) (lsubs ++ [(concat gsubs.*1, len b :: concat gsubs.*2)])).
      - eapply Forall2_impl; [exact Hf|]. intros. by apply holds_app.
      - rewrite len_app in Hsum. lia.
      - done.
      - rewrite fmap_app, concat_app. cbn [fmap list_fmap concat fst]. rewrite app_nil_r, <- app_assoc. done.
      - rewrite len_app. lia.
      - rewrite len_app. lia.
      - apply Forall2_app; [by apply im_located_all_app|]. by apply Forall2_cons; split; [exact Hloc|constructor].
      - eapply fresh_pages_Permutation; [exact Hperm|]. by apply fresh_pages_push.
      - rewrite Hpages. unfold len. rewrite <- Hperm. cbn [length]. unfold offs. lia. }
    intros r (b' & lsubs' & E1 & E2 & E3 & E4 & E5 & E6). exists (page' ++ b'), lsubs'. rewrite <- !app_assoc in *. split_and!; try done.
    + rewrite E3, fmap_app, concat_app. cbn [fmap list_fmap concat fst]. by rewrite app_nil_r, <- app_assoc.
    + rewrite E6. autorewrite with len. lia.
Qed.
End Groups.

(** ** Leaves and internal pages *)

Context `{!Sha256Ok HS}.

Lemma im_digest_len parts : len (digest parts) = 32.
Proof. unfold digest, hasher_finalize. apply sha256_len. Qed.

Definition holds_locator b (e : Locator) (sub : subtree) : Prop := locator_ok e /\ sub = ([e], []).

Lemma holds_locators b group subs : Forall2 (holds_locator b) group subs -> Forall locator_ok group /\ concat subs.*1 = group /\ concat subs.*2 = [].
Proof.
  induction 1 as [|e sub group subs [He ->] Hf IH]; [done|]. destruct IH as (I1 & I2 & I3). rewrite !fmap_cons. cbn [concat fst snd app]. rewrite I2, I3.
  split_and!; [by constructor|done|done].
Qed.

Lemma present_child_ok b reference content : page_present b reference content -> len (pr_digest reference) = 32 -> pr_minimum reference <= pr_maximum reference ->
  pr_maximum reference <= U64_MAX -> child_ok reference.
Proof. intros (_ & _ & Hm & _) Hd Hmm Hmax. unfold child_ok. split_and!; try done. lia. Qed.

Lemma spans_ok reference es : spans reference es -> Forall locator_ok es -> pr_minimum reference <= pr_maximum reference /\ pr_maximum reference <= U64_MAX.
Proof.
  intros Hs Hok. pose proof Hs as (_ & Hh & Hl). destruct es as [|e es]; [done|].
  destruct (im_spans_bounds reference (e :: es) e Hs ltac:(by left)). split; [lia|]. by eapply last_locator_bound.
Qed.

Lemma push_leaf m : pushes encode_leaf 0 m LEAF_CAPACITY holds_locator.
Proof.
  intros b group subs limits Hg Hne Hcap Hm Ho Hlo. apply holds_locators in Hg as (Hok & Eg & E2). rewrite Eg, E2 in *. clear subs Eg E2.
  destruct (head group) as [first|] eqn:Eh; [|by destruct group]. destruct (last group) as [final|] eqn:El; [|by apply last_None in El].
  set (reference := mkPageRef (lo_object_id first) (lo_object_id final) (len b) 0
    (digest [PAGE_DOMAIN; content_bytes (mkPageRef (lo_object_id first) (lo_object_id final) 0 0 []) (Locators group)])).
  assert (Hcok : content_ok reference (Locators group)) by (cbn [content_ok reference pr_level pr_minimum pr_maximum]; rewrite Eh, El; by split_and!).
  assert (Hsp : spans reference group) by (unfold spans; rewrite Eh, El; done).
  rewrite (encode_leaf_eq group reference Hcok). eapply limited_mono; [|apply (append_page_limited b reference (Locators group)); done].
  cbv beta. intros r [-> Hp]. exists (content_bytes reference (Locators group)). cbn [fst snd]. split_and!; [done|by apply content_bytes_len|].
  destruct (spans_ok _ _ Hsp Hok). constructor; cbn [fst snd ptree occupied].
  - done.
  - by exists group.
  - done.
  - eapply present_child_ok; [exact Hp|apply im_digest_len|done..].
Qed.

Lemma located_references b h m cs (subs : list subtree) : Forall2 (im_located b h m) cs subs -> locators_ordered (concat subs.*1) -> references_ordered cs.
Proof.
  intros Hf. induction Hf as [|c sub cs subs [Ht _ _ _] Hf IH]; [constructor|]. rewrite fmap_cons. cbn [concat].
  intros (_ & Ho & Hlt)%ordered_app_iff. specialize (IH Ho). constructor; [done|].
  destruct Hf as [|c' sub' cs subs [Ht' _ _ _] _]; constructor. apply ptree_spans in Ht as [(_ & _ & Hl) _], Ht' as [(_ & Hh & _) _].
  rewrite fmap_cons in Hlt. cbn [concat] in Hlt.
  destruct (last sub.1) as [x|] eqn:Ex; [|done]. destruct sub'.1 as [|y es]; [done|]. injection Hl as <-. injection Hh as <-. apply Hlt; [by apply last_Some_elem_of|by left].
Qed.

Lemma located_heads b h m cs (subs : list subtree) : Forall2 (im_located b h m) cs subs -> locators_ordered (concat subs.*1) -> cs <> [] ->
  lo_object_id <$> head (concat subs.*1) = pr_minimum <$> head cs /\ lo_object_id <$> last (concat subs.*1) = pr_maximum <$> last cs.
Proof.
  intros Hf Ho Hne. apply (im_spans_concat cs subs.*1); [by eapply located_references|done|]. apply Forall2_fmap_r. eapply Forall2_impl; [exact Hf|].
  cbv beta. intros c sub [Ht _ _ _]. by apply ptree_spans in Ht as [? _].
Qed.

Lemma push_internal_page h m : N.of_nat (S h) <= 255 ->
  pushes (fun cs => encode_internal cs (N.of_nat (S h))) (S h) m INTERNAL_FANOUT (fun b => im_located b h (min_occupancy h)).
Proof.
  intros Hh b group subs limits Hg Hne Hcap Hm Ho Hlo. destruct (located_heads _ _ _ _ _ Hg Ho Hne) as [Hhead Hlast]. pose proof (located_references _ _ _ _ _ Hg Ho) as Hro.
  destruct (head group) as [first|] eqn:Eh; [|by destruct group]. destruct (last group) as [final|] eqn:El; [|by apply last_None in El].
  set (reference := mkPageRef (pr_minimum first) (pr_maximum final) (len b) (N.of_nat (S h))
    (digest [PAGE_DOMAIN; content_bytes (mkPageRef (pr_minimum first) (pr_maximum final) 0 (N.of_nat (S h)) []) (Children group)])).
  assert (Hall : Forall (fun c => child_ok c /\ pr_level c = N.of_nat h /\ occupied b h (min_occupancy h) c) group).
  { apply Forall_forall. intros c (i & Hi)%list_elem_of_lookup. destruct (Forall2_lookup_l _ _ _ _ _ Hg Hi) as (sub & _ & [_ ? ? ?]). done. }
  assert (Hcok : content_ok reference (Children group)).
  { cbn [content_ok reference pr_level pr_minimum pr_maximum]. rewrite Eh, El. split_and!; try done. eapply Forall_impl; [exact Hall|].
    cbv beta. intros c (? & -> & _). split; [done|lia]. }
  pose proof (encode_internal_eq group reference Hcok) as Henc. cbn [reference pr_level] in Henc. rewrite Henc. eapply limited_mono; [|apply (append_page_limited b reference (Children group)); done].
  cbv beta. intros r [-> Hp]. set (page := content_bytes reference (Children group)) in *. exists page. cbn [fst snd]. split_and!; [done|by apply content_bytes_len|].
  assert (Hpt : ptree (b ++ page) (S h) reference (concat subs.*1) (len b :: concat subs.*2)).
  { cbn [ptree]. exists group, subs. split_and!; try done. eapply Forall2_impl; [exact Hg|]. cbv beta. intros c sub [Ht _ _ _]. by apply ptree_app. }
  destruct (ptree_spans _ _ _ _ _ Hpt) as [Hsp Hok]. destruct (spans_ok _ _ Hsp Hok). constructor; cbn [fst snd].
  - done.
  - cbn [occupied]. exists group. split_and!; [done|done|]. eapply Forall_impl; [exact Hall|]. cbv beta. intros c (_ & _ & ?). by apply occupied_app.
  - done.
  - eapply present_child_ok; [exact Hp|apply im_digest_len|done..].
Qed.

(** ** All levels *)

(** The root holds at least an entry, and two of pages. *)
Definition root_min (h : nat) : N := match h with O => 1 | S _ => 2 end.

(** What the writers of a directory leave: a tree of new pages over the
    locators. *)
Definition tree_built (start : N) b (es : list Locator) (r : bytes * PageRef * N) : Prop :=
  exists more h offs, r.1.1 = b ++ more /\ im_located (b ++ more) h (root_min h) r.1.2 (es, offs) /\ fresh_pages start (b ++ more) offs /\ r.2 = len offs.

Lemma tree_built_app start b more es r : tree_built start (b ++ more) es r -> tree_built start b es r.
Proof. intros (more' & h & offs & E & H1 & H2 & H3). exists (more ++ more'), h, offs. rewrite E. rewrite <- !app_assoc in *. done. Qed.

Lemma build_levels_limited start limits fuel b pages level lsubs h m :
  level <> [] -> Forall2 (im_located b h m) level lsubs -> root_min h <= m -> (len level = 1 \/ m = min_occupancy h) ->
  locators_ordered (concat lsubs.*1) -> FILE_HEADER_LEN <= len b -> start <= len b -> fresh_pages start b (concat lsubs.*2) -> pages = len (concat lsubs.*2) ->
  (N.of_nat h <= max_depth limits \/ h = O) -> max_depth limits < N.of_nat fuel + N.of_nat h ->
  limited (build_levels fuel limits b pages level) (tree_built start b (concat lsubs.*1)).
Proof.
  revert b pages level lsubs h m. induction fuel as [|fuel IH]; intros b pages level lsubs h m Hne Hf Hrm Hm Ho Hlo Hst Hfresh Hpages Hh Hfuel.
  all: destruct level as [|first [|second rest]]; [done| |].
  1, 3: cbn [build_levels limited]; inversion Hf as [|? [es offs] ? ? Hloc Hnil]; subst; apply Forall2_nil_inv_l in Hnil as ->;
    cbn [concat fmap list_fmap fst snd] in *; rewrite !app_nil_r in *; exists [], h, offs; cbn [fst snd]; rewrite !app_nil_r; split_and!; try done;
    destruct Hloc as [L1 L2 L3 L4]; constructor; try done; by eapply occupied_le.
  { exfalso. destruct Hh as [Hh| ->]; [lia|]. lia. }
  cbn [build_levels]. set (level := first :: second :: rest) in *. destruct Hm as [Hm| ->]; [unfold level in Hm; rewrite !len_cons in Hm; lia|].
  assert (Hfl : pr_level first = N.of_nat h) by (inversion Hf as [|? ? ? ? [_ _ Hl _] _]; done). rewrite Hfl. limit_step. limit_step. bool_facts.
  assert (Hl2 : 2 <= len level) by (unfold level; rewrite !len_cons; lia).
  eapply limited_bind; [apply (canonical_group_sizes_limited (len level) INTERNAL_FANOUT INTERNAL_MIN_OCCUPANCY limits); [lia|by apply N.leb_le..]|].
  cbv beta. intros sizes (Hsum & Hsne & Hsizes & Hmin & Hless). limit_step.
  set (m := match sizes with [_] => 2 | _ => INTERNAL_MIN_OCCUPANCY end).
  assert (Hms : Forall (fun s => 1 <= s /\ s <= INTERNAL_FANOUT /\ m <= s) sizes).
  { assert (HI : 2 <= INTERNAL_MIN_OCCUPANCY) by (by apply N.leb_le). destruct Hmin as [E|Hmin].
    - unfold m. rewrite E. repeat constructor; rewrite E in Hsizes; apply Forall_cons in Hsizes as [[? ?] _]; lia.
    - apply Forall_forall. intros s Hs. pose proof (proj1 (Forall_forall _ _) Hsizes s Hs) as [? ?]. pose proof (proj1 (Forall_forall _ _) Hmin s Hs) as Hs'. cbv beta in Hs'.
      split_and!; [done|done|]. unfold m. destruct sizes as [|x [|y sizes]]; lia. }
  assert (H255 : N.of_nat (S h) <= 255) by lia.
  replace (N.of_nat h + 1) with (N.of_nat (S h)) by lia.
  eapply limited_bind.
  { apply (groups_limited (fun cs => encode_internal cs (N.of_nat (S h))) (S h) m INTERNAL_FANOUT (fun b => im_located b h (min_occupancy h))
      (fun b more c sub => im_located_app b more h (min_occupancy h) c sub) (push_internal_page h m H255) "page count" limits start sizes level lsubs [] b pages [] []);
      cbn [concat fmap list_fmap app]; done. }
  cbv beta. intros [[b1 pages1] next] (more & nsubs & Eb & Hn & E1 & Hfr & Ep & Hnl). cbn [fst snd concat fmap list_fmap app] in *. subst b1 pages1. rewrite len_nil, N.add_0_l in Hnl.
  rewrite <- E1. eapply limited_mono; [intros r Hr; by apply tree_built_app in Hr|].
  apply (IH (b ++ more) _ next nsubs (S h) m); try done.
  - intros ->. rewrite len_nil in Hnl. destruct sizes; [done|]. rewrite len_cons in Hnl. lia.
  - cbn [root_min]. assert (HI : 2 <= INTERNAL_MIN_OCCUPANCY) by (by apply N.leb_le). unfold m. destruct sizes as [|x [|y sizes]]; lia.
  - unfold m. destruct sizes as [|x [|y sizes]]; [by right|left; rewrite Hnl; done|by right].
  - by rewrite E1.
  - rewrite len_app. lia.
  - rewrite len_app. lia.
  - left. lia.
  - lia.
Qed.

Lemma find_duplicate_ordered es : locators_ordered es -> find_duplicate lo_object_id es = None.
Proof.
  induction 1 as [|e es Hs IH Hf]; [done|]. destruct es as [|e' es]; [done|]. cbn [find_duplicate]. apply Forall_cons in Hf as [Hlt _].
  rewrite (proj2 (N.eqb_neq _ _)) by lia. done.
Qed.

Lemma sort_ordered es : locators_ordered es -> sort_by (cmp_on lo_object_id N.compare) es = es.
Proof.
  intros Ho. apply sort_by_sorted_id. apply StronglySorted_Sorted in Ho. eapply Sorted_mono; [|exact Ho]. unfold cmp_le, cmp_on. intros x y Hxy.
  rewrite N.compare_le_iff. lia.
Qed.

(** The directory over locators in order. *)
Lemma build_tree_limited b es limits : es <> [] -> Forall locator_ok es -> locators_ordered es -> FILE_HEADER_LEN <= len b ->
  limited (build_tree b es limits) (tree_built (len b) b es).
Proof.
  intros Hne Hok Ho Hlo. unfold build_tree. limit_step. rewrite sort_ordered, find_duplicate_ordered by done.
  assert (Hl1 : 1 <= len es) by (destruct es; [done|rewrite len_cons; lia]).
  eapply limited_bind; [apply (canonical_group_sizes_limited (len es) LEAF_CAPACITY LEAF_MIN_OCCUPANCY limits); [done|by apply N.leb_le..]|].
  cbv beta. intros sizes (Hsum & Hsne & Hsizes & Hmin & Hless). limit_step.
  set (m := match sizes with [_] => 1 | _ => LEAF_MIN_OCCUPANCY end).
  assert (Hms : Forall (fun s => 1 <= s /\ s <= LEAF_CAPACITY /\ m <= s) sizes).
  { destruct Hmin as [E|Hmin].
    - unfold m. rewrite E. rewrite E in Hsizes. apply Forall_cons in Hsizes as [[? ?] _]. by repeat constructor.
    - apply Forall_forall. intros s Hs. pose proof (proj1 (Forall_forall _ _) Hsizes s Hs) as [? ?]. pose proof (proj1 (Forall_forall _ _) Hmin s Hs) as Hs'. cbv beta in Hs'.
      split_and!; [done|done|]. unfold m. destruct sizes as [|x [|y sizes]]; lia. }
  set (subs := (fun e : Locator => ([e], @nil N)) <$> es).
  assert (Hsubs : Forall2 (holds_locator b) es subs).
  { unfold subs. apply Forall2_fmap_r. apply Forall_Forall2_diag. eapply Forall_impl; [exact Hok|]. by intros e He. }
  pose proof (holds_locators _ _ _ Hsubs) as (_ & E1 & E2).
  eapply limited_bind.
  { apply (groups_limited encode_leaf 0 m LEAF_CAPACITY holds_locator (fun b more e sub Hs => Hs) (push_leaf m) "object count" limits (len b) sizes es subs [] b 0 [] []);
      cbn [concat fmap list_fmap app]; rewrite ?E1, ?E2; try done. split; constructor. }
  cbv beta. intros [[b1 pages1] level] (more & lsubs & Eb & Hn & E3 & Hfr & Ep & Hnl). cbn [fst snd concat fmap list_fmap app] in *. subst b1 pages1. rewrite len_nil, N.add_0_l in Hnl.
  rewrite E1 in E3. rewrite <- E3. eapply limited_mono; [intros r Hr; by apply tree_built_app in Hr|].
  apply (build_levels_limited (len b) limits _ (b ++ more) _ level lsubs 0 m); try done.
  - intros ->. rewrite len_nil in Hnl. destruct sizes; [done|]. rewrite len_cons in Hnl. lia.
  - cbn [root_min]. assert (HI : 1 <= LEAF_MIN_OCCUPANCY) by (by apply N.leb_le). unfold m. destruct sizes as [|x [|y sizes]]; lia.
  - unfold m. destruct sizes as [|x [|y sizes]]; [by right|left; rewrite Hnl; done|by right].
  - by rewrite E3.
  - rewrite len_app. lia.
  - rewrite len_app. lia.
  - by right.
  - lia.
Qed.
End Grow.

(** ** Canonical occupancy *)

(** A layout that fits any limit. *)
Definition no_layout : Layout := {| size_of_locator := 0; size_of_page_ref := 0; size_of_history_entry := 0; size_of_recovery_candidate := 0; size_of_object_input := 0 |}.

(** A reference leads to one content: the reader is a function. *)
Lemma page_present_inj `{HS : Sha256} (data : bytes) reference c1 c2 : page_present data reference c1 -> page_present data reference c2 -> c1 = c2.
Proof.
  set (limits := mkImmutableLimits 0 LEAF_CAPACITY 1 255 0 0 0 0 0 0). set (tv := mkTraversal ∅ [] [] []).
  assert (Hread : forall c, page_present data reference c ->
    parse_page (H0 := no_layout) data reference (pr_offset reference + PAGE_SIZE) limits tv = Ok (after_page reference c tv)).
  { intros c Hc. apply (parse_page_Ok (HL := no_layout)). exists c. split_and!; [done| |done]. unfold page_admitted. cbn [tv_ranges tv_seen tv_stack tv_locators tv].
    split_and!; [done|by intros r ?%elem_of_nil|by rewrite size_empty|set_solver|]. destruct Hc as (_ & _ & _ & _ & _ & Hok). destruct c as [es|cs]; cbn [content_ok] in Hok.
    - destruct Hok as (_ & Hc & _). rewrite len_nil, N.add_0_l. assert (LEAF_CAPACITY <= U64_MAX) by (by apply N.leb_le).
      split_and!; [done|lia|]. unfold fits. cbn. rewrite N.mul_0_r. split; lia.
    - destruct Hok as (_ & ? & _). split; [done|]. unfold fits. cbn. rewrite N.mul_0_r. split; lia. }
  intros H1 H2. pose proof (Hread _ H1) as R1. rewrite (Hread _ H2) in R1. injection R1 as E1 E2. cbn [tv tv_stack tv_locators app] in *. rewrite !app_nil_r in *.
  destruct c1 as [es1|cs1], c2 as [es2|cs2]; cbn [content_children content_locators] in *; subst; try done.
  - by destruct H1 as (_ & _ & _ & _ & _ & _ & _ & _ & _ & ? & _).
  - by destruct H2 as (_ & _ & _ & _ & _ & _ & _ & _ & _ & ? & _).
Qed.

Section Occupancy.
Context `{HS : Sha256} `{HL : Layout}.
Implicit Types data : bytes.

Lemma parse_child_read page level i c : level <> 0 -> parse_child_entry page level i = Ok c -> read_child page level i = Ok c.
Proof.
  unfold parse_child_entry, read_child. intros Hl Hr. step_result Hr. unfold checked_sub. rewrite (proj2 (N.leb_le 1 level)) by lia. exact Hr.
Qed.

Lemma Forall2_rev {A B} (R : A -> B -> Prop) l k : Forall2 R l k -> Forall2 R (rev l) (rev k).
Proof. induction 1 as [|x y l k Hxy Hf IH]; [constructor|]. cbn [rev]. apply Forall2_app; [done|]. by constructor. Qed.

Lemma for_entries_rev {A} (f : N -> I A) n l : for_entries f n = Ok l -> map_result (fun i => f (N.of_nat i)) (rev (seq 0 (N.to_nat n))) = Ok (rev l).
Proof. unfold for_entries. rewrite !map_result_Forall2. apply Forall2_rev. Qed.

Lemma map_result_impl {A B} (f g : A -> I B) l r : (forall x y, f x = Ok y -> g x = Ok y) -> map_result f l = Ok r -> map_result g l = Ok r.
Proof. intros Hfg. rewrite !map_result_Forall2. intros Hf. eapply Forall2_impl; [exact Hf|]. auto. Qed.

Definition enough (is_root : bool) (content : Content) : Prop :=
  match content with
  | Locators es => is_root = false -> LEAF_MIN_OCCUPANCY <= len es
  | Children cs => (if is_root then 2 else INTERNAL_MIN_OCCUPANCY) <= len cs
  end.

(** What the walk reads of a page. *)
Lemma occupancy_reads data reference content : page_present data reference content -> exists page,
  checked_range data (pr_offset reference) PAGE_SIZE "page" = Ok page /\ page = content_bytes reference content /\ len page = PAGE_SIZE /\
  match content with
  | Locators es => byte_at page 8 = 1 /\ u32_at page 12 "page count" = Ok (len es) /\ len es <= LEAF_CAPACITY
  | Children cs => byte_at page 8 = 2 /\ u32_at page 12 "page count" = Ok (len cs) /\ len cs <= INTERNAL_FANOUT
  end.
Proof.
  intros (Hlo & Hd & Hm & Hpage & Hdig & Hok). set (o := pr_offset reference) in *. exists (slice data o (o + PAGE_SIZE)).
  pose proof (content_bytes_len _ _ Hok) as Hlen. rewrite Hpage. remember (content_bytes reference content) as page eqn:Epage.
  assert (Hr : checked_range data o PAGE_SIZE "page" = Ok page) by (apply im_range_Ok; split_and!; done).
  split_and!; [done..|]. destruct content as [es|cs]; cbn [content_ok] in *.
  - destruct Hok as (Hlv & Hc & Hok & Ho & Hh & Hl). pose proof (proj1 (page_bytes_leaf page reference es Hlen Hok Hc) Epage) as [Hhd Hbody].
    apply page_header_reads in Hhd; [|done..|assert (LEAF_CAPACITY <= U32_MAX) by (by apply N.leb_le); lia|done|by eapply head_locator_bound|by eapply last_locator_bound].
    destruct Hhd as (_ & Hkind & _ & _ & Hcount & _). split_and!; [done| |done]. apply u32_at_Ok in Hcount. by apply u32_at_Ok.
  - destruct Hok as (Hlv & Hlv' & Hc & Hok & Ho & Hh & Hl). pose proof Hok as Hok'. apply Forall_and in Hok' as [Hok1 _].
    pose proof (proj1 (page_bytes_internal page reference cs Hlen Hok1 Hc) Epage) as [Hhd _].
    apply page_header_reads in Hhd; [|done|done|lia|assert (INTERNAL_FANOUT <= U32_MAX) by (by apply N.leb_le); lia|done|by eapply head_child_bound|by eapply last_child_bound].
    destruct Hhd as (_ & Hkind & _ & _ & Hcount & _). split_and!; [done| |done]. apply u32_at_Ok in Hcount. by apply u32_at_Ok.
Qed.

(** The children it pushes. *)
Lemma occupancy_children data reference cs : page_present data reference (Children cs) ->
  map_result (fun index => read_child (content_bytes reference (Children cs)) (pr_level reference) (N.of_nat index)) (rev (seq 0 (N.to_nat (len cs)))) = Ok (rev cs).
Proof.
  intros (_ & _ & _ & _ & _ & Hok). pose proof (content_bytes_len _ _ Hok) as Hlen. remember (content_bytes reference (Children cs)) as page eqn:Epage.
  destruct Hok as (Hlv & Hlv' & Hc & Hok & Ho & Hh & Hl). pose proof Hok as Hok'. apply Forall_and in Hok' as [Hok1 _].
  pose proof (proj1 (page_bytes_internal page reference cs Hlen Hok1 Hc) Epage) as [_ [Hbody _]].
  pose proof (proj2 (internal_entries_Ok page (pr_level reference) (len cs) cs Hlen Hc)) as He. specialize (He ltac:(by split_and!)).
  apply for_entries_rev in He. eapply map_result_impl in He; [exact He|]. intros x y. cbv beta. by apply parse_child_read.
Qed.

Lemma check_occupancy_limited data reference root stack_len limits content : page_present data reference content ->
  enough (pr_offset reference =? pr_offset root) content ->
  limited (check_occupancy data reference root stack_len (pr_offset reference) limits) (eq (content_children content)).
Proof.
  intros Hp Hen. unfold check_occupancy. set (is_root := _ =? pr_offset root) in *.
  destruct (occupancy_reads _ _ _ Hp) as (page & -> & Epage & _ & Hr). destruct content as [es|cs]; cbn [content_children enough] in *; destruct Hr as (-> & -> & Hc); cbn [N.eqb Pos.eqb].
  - rewrite (proj2 (N.ltb_ge LEAF_CAPACITY _)) by done. destruct is_root; cbn [negb andb orb]; [done|].
    rewrite (proj2 (N.ltb_ge _ _)) by auto. done.
  - assert (Hb : (if is_root then len cs <? 2 else len cs <? INTERNAL_MIN_OCCUPANCY) = false) by (destruct is_root; by apply N.ltb_ge).
    rewrite Hb, (proj2 (N.ltb_ge INTERNAL_FANOUT _)) by done. cbn [orb negb]. repeat limit_step.
    pose proof (occupancy_children _ _ _ Hp) as He. rewrite <- Epage in He. rewrite He. cbn [limited]. by rewrite rev_involutive.
Qed.

Lemma check_occupancy_sound data reference root stack_len limits content cs' : page_present data reference content ->
  check_occupancy data reference root stack_len (pr_offset reference) limits = Ok cs' ->
  enough (pr_offset reference =? pr_offset root) content /\ cs' = content_children content.
Proof.
  intros Hp. unfold check_occupancy. set (is_root := _ =? pr_offset root) in *.
  destruct (occupancy_reads _ _ _ Hp) as (page & -> & Epage & _ & Hr). destruct content as [es|cs]; cbn [content_children enough] in *; destruct Hr as (-> & -> & Hc); cbn [N.eqb Pos.eqb]; intros Hr.
  - step_result Hr. bool_facts. injection Hr as <-. split; [|done]. intros E. rewrite E in *. cbn [negb andb] in *. bool_facts. done.
  - pose proof (occupancy_children _ _ _ Hp) as He. rewrite <- Epage in He. rewrite He in Hr. step_result Hr. bool_facts. injection Hr as <-. rewrite rev_involutive.
    split; [|done]. destruct is_root; by bool_facts.
Qed.

(** A tree whose pages are as full as the canonical form asks, its first page
    of [m] entries at least. *)
Definition filled data (m : nat -> N) (reference : PageRef) (sub : list Locator * list N) : Prop :=
  exists h, ptree data h reference sub.1 sub.2 /\ occupied data h (m h) reference.

Lemma filled_unfold data m reference sub : filled data m reference sub ->
  exists content subs, page_present data reference content /\ sub = top_subtree reference content subs /\
    Forall2 (filled data min_occupancy) (content_children content) subs /\
    match content with Locators es => m O <= len es | Children cs => exists h, m (S h) <= len cs end.
Proof.
  intros (h & Ht & Ho). destruct sub as [es offs]. destruct h as [|h]; cbn [ptree occupied fst snd] in *.
  - destruct Ht as [Hp ->], Ho as (es' & Hp' & Hm). pose proof (page_present_inj _ _ _ _ Hp Hp') as E. injection E as <-. exists (Locators es), [].
    unfold top_subtree. cbn. rewrite app_nil_r. split_and!; [done|done|constructor|done].
  - destruct Ht as (cs & subs & Hp & Hf & -> & ->), Ho as (cs' & Hp' & Hm & Hc). pose proof (page_present_inj _ _ _ _ Hp Hp') as E. injection E as <-.
    exists (Children cs), subs. split_and!; [done|done| |by exists h]. cbn [content_children]. revert Hc. clear -Hf.
    induction Hf as [|c sub cs subs Hc Hf IH]; [constructor|]. intros [Ho Hc']%Forall_cons. constructor; [|by apply IH]. by exists h.
Qed.

(** One turn of the walk, of a page not seen before. *)
Lemma occupancy_turn data root limits fuel reference stack seen content (P : unit -> Prop) : page_present data reference content ->
  enough (pr_offset reference =? pr_offset root) content -> pr_offset reference ∉ seen ->
  (N.of_nat (size seen) < max_pages limits -> limited (occupancy_loop fuel data root limits (content_children content ++ stack) ({[pr_offset reference]} ∪ seen)) P) ->
  limited (occupancy_loop (S fuel) data root limits (reference :: stack) seen) P.
Proof.
  intros Hp Hen Hseen Hnext. cbn [occupancy_loop]. limit_step. bool_facts. pose proof Hp as (_ & _ & Hm & _).
  rewrite (proj2 (usize_from_u64_Ok (pr_offset reference) _ (pr_offset reference))) by (split; [done|lia]).
  rewrite (proj2 (try_insert_Some _ _ _) (conj Hseen eq_refl)). cbn [ok_or].
  eapply limited_bind; [by apply (check_occupancy_limited data reference root _ limits content)|]. cbv beta. intros ? <-. by apply Hnext.
Qed.

Lemma occupancy_loop_limited data root limits fuel stack subs seen : Forall2 (filled data min_occupancy) stack subs -> NoDup (concat subs.*2) ->
  (forall o, o ∈ concat subs.*2 -> o ∉ seen) -> pr_offset root ∈ seen ->
  N.of_nat (size seen) <= max_pages limits -> max_pages limits < N.of_nat (size seen) + N.of_nat fuel ->
  limited (occupancy_loop fuel data root limits stack seen) (fun _ => True).
Proof.
  revert stack subs seen. induction fuel as [|fuel IH]; intros stack subs seen Hf Hn Hseen Hroot Hsz Hfuel; destruct Hf as [|reference sub stack subs Hr Hf]; try done; [lia|].
  apply filled_unfold in Hr as (content & subs1 & Hp & -> & Hf1 & Hcount). rewrite top_offsets in *. apply NoDup_cons in Hn as [Hn1 Hn].
  pose proof (Hseen (pr_offset reference) ltac:(by left)) as Hnew. assert (Hne : (pr_offset reference =? pr_offset root) = false) by (apply N.eqb_neq; congruence).
  apply (occupancy_turn _ _ _ _ _ _ _ content); try done.
  { rewrite Hne. destruct content as [es|cs]; cbn [enough]; [done|]. by destruct Hcount as (h & ?). }
  intros Hlt. apply (IH _ (subs1 ++ subs)).
  - by apply Forall2_app.
  - done.
  - intros o Ho [->%elem_of_singleton|Hin]%elem_of_union; [done|]. apply (Hseen o); [by right|done].
  - by apply elem_of_union_r.
  - rewrite seen_size by done. lia.
  - rewrite seen_size by done. lia.
Qed.

(** The walk from the root of a canonical tree. *)
Lemma occupancy_root_limited data root limits es offs : filled data root_min root (es, offs) -> NoDup offs ->
  limited (occupancy_loop (S (N.to_nat (max_pages limits))) data root limits [root] ∅) (fun _ => True).
Proof.
  intros Hr Hn. apply filled_unfold in Hr as (content & subs & Hp & E & Hf & Hcount). injection E as -> ->. apply NoDup_cons in Hn as [Hn1 Hn].
  apply (occupancy_turn _ _ _ _ _ _ _ content); [done| |set_solver|].
  { rewrite N.eqb_refl. destruct content as [es|cs]; cbn [enough]; [done|]. by destruct Hcount as (h & ?). }
  rewrite size_empty. intros Hlt. rewrite app_nil_r. apply (occupancy_loop_limited _ _ _ _ _ subs).
  - done.
  - done.
  - intros o Ho Hin. apply elem_of_union in Hin as [->%elem_of_singleton|Hin]; [done|set_solver].
  - set_solver.
  - rewrite (right_id_L ∅ _), size_singleton. lia.
  - rewrite (right_id_L ∅ _), size_singleton. lia.
Qed.

(** Pages that pass the walk are full enough. *)
Definition occupied_tree data (m : nat -> N) (reference : PageRef) : Prop :=
  occupied data (N.to_nat (pr_level reference)) (m (N.to_nat (pr_level reference))) reference.

Lemma occupied_unfold data m reference content : page_present data reference content ->
  match content with Locators es => m O <= len es | Children cs => forall h, m (S h) <= len cs end ->
  Forall (occupied_tree data min_occupancy) (content_children content) -> occupied_tree data m reference.
Proof.
  unfold occupied_tree at 2. intros Hp Hm Hc. destruct content as [es|cs]; pose proof Hp as (_ & _ & _ & _ & _ & Hok); cbn [content_ok content_children] in *.
  - destruct Hok as (-> & _). by exists es.
  - destruct Hok as (Hl & _ & _ & Hok & _). destruct (N.to_nat (pr_level reference)) as [|h] eqn:Eh; [lia|]. exists cs. split_and!; [done|done|].
    apply Forall_forall. intros c Hin. pose proof (proj1 (Forall_forall _ _) Hok c Hin) as [_ Hlc]. pose proof (proj1 (Forall_forall _ _) Hc c Hin) as Ho.
    unfold occupied_tree in Ho. by replace (N.to_nat (pr_level c)) with h in Ho by lia.
Qed.

Lemma occupancy_loop_sound data root limits fuel stack subs seen u : Forall2 (tree_at data) stack subs -> (forall o, o ∈ concat subs.*2 -> o <> pr_offset root) ->
  occupancy_loop fuel data root limits stack seen = Ok u -> Forall (occupied_tree data min_occupancy) stack.
Proof.
  revert stack subs seen. induction fuel as [|fuel IH]; intros stack subs seen Hf Hne; destruct Hf as [|reference sub stack subs Ht Hf]; cbn [occupancy_loop]; try done.
  apply tree_unfold in Ht as (content & subs1 & Hp & Hf1 & ->). rewrite top_offsets in Hne. intros Hr. step_result Hr.
  match goal with H : usize_from_u64 _ _ = Ok _ |- _ => apply usize_from_u64_Ok in H as [-> _] end.
  match goal with H : check_occupancy _ _ _ _ _ _ = Ok _ |- _ => apply (check_occupancy_sound _ _ _ _ _ _ _ Hp) in H as [Hen ->] end.
  rewrite (proj2 (N.eqb_neq _ _)) in Hen by (apply Hne; by left).
  apply (IH _ (subs1 ++ subs)) in Hr; [|by apply Forall2_app|intros o Ho; apply Hne; by right]. apply Forall_app in Hr as [H1 H2].
  constructor; [|done]. apply (occupied_unfold _ _ _ content); [done| |done]. destruct content as [es|cs]; cbn [enough] in *; [by apply Hen|done].
Qed.

Lemma validate_canonical_sound data limits r : validate_canonical_internal data limits = Ok r ->
  exists f parent root commit_start es offs, valid_image data f parent root commit_start es offs /\ filled data root_min root (es, offs) /\
    image_admitted limits data root es offs /\ r = image_report data f root es offs.
Proof.
  unfold validate_canonical_internal. intros Hr. step_result Hr. injection Hr as <-.
  match goal with H : validate_internal _ _ = Ok _ |- _ => apply validate_internal_sound in H as (f & parent & root & commit_start & es & offs & Hv & Had & ->) end.
  exists f, parent, root, commit_start, es, offs. split_and!; [done| |done|done]. pose proof (valid_image_length _ _ _ _ _ _ _ Hv) as Hmin.
  pose proof Hv as [Hvc Ht _ Hdis _ _ _ _ _]. pose proof Hvc as [_ _ Hend Hf _ _ _ _ _ _ _].
  match goal with H : parse_footer _ (ir_footer_offset _) = _ |- _ => cbn [image_report ir_footer_offset] in H; rewrite Hf in H; injection H as <- end.
  match goal with H : usize_from_u64 _ _ = Ok _ |- _ => apply usize_from_u64_Ok in H as [-> _] end.
  match goal with H : checked_range _ _ _ _ = Ok _ |- _ => apply im_range_Ok in H as (_ & _ & <-) end.
  pose proof Ht as Ht'. apply tree_unfold in Ht' as (content & subs & Hp & Hf1 & E).
  destruct (validate_commit_limited data limits _ _ _ _ _ Hvc Hp Hmin) as [_ Hroot].
  match goal with H : root_reference _ _ _ = Ok ?x |- _ => rewrite H in Hroot; cbn [limited] in Hroot; subst x end.
  match goal with H : occupancy_loop _ _ _ _ _ _ = Ok _ |- _ => rename H into Hloop end. cbn [occupancy_loop] in Hloop. step_result Hloop.
  match goal with H : usize_from_u64 _ _ = Ok _ |- _ => apply usize_from_u64_Ok in H as [-> _] end.
  match goal with H : check_occupancy _ _ _ _ _ _ = Ok _ |- _ => apply (check_occupancy_sound _ _ _ _ _ _ _ Hp) in H as [Hen ->] end.
  rewrite N.eqb_refl in Hen. pose proof (disjoint_pages_nodup _ Hdis) as Hn. injection E as E1 E2. rewrite E2 in Hn. apply NoDup_cons in Hn as [Hn _].
  rewrite app_nil_r in Hloop. apply (occupancy_loop_sound _ _ _ _ _ subs) in Hloop; [|done|intros o Ho ->; by apply Hn].
  exists (N.to_nat (pr_level root)). cbn [fst snd]. split; [exact Ht|]. apply (occupied_unfold data root_min root content); [done| |done].
  destruct content as [es'|cs]; cbn [root_min enough] in *; [|done]. destruct Hp as (_ & _ & _ & _ & _ & _ & _ & _ & _ & Hh & _).
  destruct es'; [done|]. rewrite len_cons. lia.
Qed.

(** A valid file over a canonical tree passes the canonical check. *)
Lemma validate_canonical_limited data limits f parent root commit_start es offs : valid_image data f parent root commit_start es offs ->
  filled data root_min root (es, offs) ->
  limited (validate_canonical_internal data limits) (eq (image_report data f root es offs)).
Proof.
  intros Hv Hfill. unfold validate_canonical_internal. eapply limited_bind; [exact (validate_internal_limited data limits _ _ _ _ _ _ Hv)|]. intros ? <-.
  pose proof (valid_image_length _ _ _ _ _ _ _ Hv) as Hmin. pose proof Hv as [Hvc Ht _ Hdis _ _ _ _ _]. pose proof Hvc as [_ _ Hend Hf _ _ _ _ _ _ _].
  cbn [image_report ir_footer_offset]. rewrite Hf. pose proof (proj1 (im_footer_Ok _ _ _) Hf) as (_ & Hm & (_ & Hso & _) & _).
  rewrite (proj2 (usize_from_u64_Ok (ft_snapshot_offset f) _ (ft_snapshot_offset f))) by done.
  rewrite (proj2 (im_range_Ok data (ft_snapshot_offset f) SNAPSHOT_LEN "snapshot" (slice data (ft_snapshot_offset f) (ft_snapshot_offset f + SNAPSHOT_LEN)))) by (split_and!; [lia|lia|done]).
  pose proof Ht as Ht'. apply tree_unfold in Ht' as (content & subs & Hp & _ & _).
  destruct (validate_commit_limited data limits _ _ _ _ _ Hvc Hp Hmin) as [_ Hroot].
  eapply limited_bind; [exact Hroot|]. intros ? <-. eapply limited_bind; [apply (occupancy_root_limited _ _ _ _ _ Hfill); by apply disjoint_pages_nodup|]. done.
Qed.
End Occupancy.

Lemma get_range_slice {A} (l : list A) a e : a <= e -> e <= len l -> get_range l a e = Some (slice l a e).
Proof. intros Ha He. unfold get_range. by rewrite !(proj2 (N.leb_le _ _)) by done. Qed.

(** ** Publication *)

Section Publish.
Context `{HS : Sha256, !Sha256Ok HS} `{HL : Layout}.
Implicit Types b : bytes.

Lemma encode_snapshot_eq sequence root parent : len (pr_digest root) = 32 -> len parent = 32 ->
  encode_snapshot sequence root parent = snapshot_bytes sequence root parent.
Proof.
  intros Hr Hp. destruct root as [mi ma o lv d]. cbn [pr_digest] in Hr. assert (Hd : length d = 32%nat) by (unfold len in Hr; lia).
  assert (Hp' : length parent = 32%nat) by (unfold len in Hp; lia). clear Hr Hp. explode d. explode parent. reflexivity.
Qed.

Lemma encode_footer_eq f : len (ft_snapshot_digest f) = 32 -> len (ft_commit_digest f) = 32 ->
  encode_footer (ft_sequence f) (ft_snapshot_offset f) (ft_snapshot_len f) (ft_previous_footer_offset f) (ft_page_count_current f) (ft_snapshot_digest f) (ft_commit_digest f) = footer_bytes f.
Proof.
  intros Hs Hc. destruct f as [sq so sl pf pc sd cd]. cbn [ft_snapshot_digest ft_commit_digest] in *. assert (Hd : length sd = 32%nat) by (unfold len in Hs; lia).
  assert (Hd' : length cd = 32%nat) by (unfold len in Hc; lia). clear Hs Hc. explode sd. explode cd. reflexivity.
Qed.

Lemma footer_app b more offset f : parse_footer b offset = Ok f -> parse_footer (b ++ more) offset = Ok f.
Proof. rewrite !im_footer_Ok. intros (H1 & H2 & H3 & H4). rewrite slice_app_l, len_app by done. split_and!; try done. lia. Qed.

(** What a commit follows: nothing, or the commit of the footer at
    [previous_footer_offset]. *)
Definition follows b (sequence : N) (parent : bytes) (previous_footer_offset commit_start : N) : Prop :=
  (previous_footer_offset = ABSENT_OFFSET /\ sequence = 0 /\ parent = zeros 32 /\ commit_start = 0) \/
  (previous_footer_offset <> ABSENT_OFFSET /\ commit_start = previous_footer_offset + FOOTER_LEN /\
   exists previous, parse_footer b previous_footer_offset = Ok previous /\ sequence = ft_sequence previous + 1 /\ ft_snapshot_digest previous = parent).

Lemma follows_start b sequence parent previous commit_start : follows b sequence parent previous commit_start -> commit_start <= len b.
Proof.
  intros [(_ & _ & _ & ->)|(_ & -> & p & Hp & _)]; [lia|]. apply im_footer_Ok in Hp as (Hp & _). exact Hp.
Qed.

Lemma snapshot_bytes_len sequence root parent : len (pr_digest root) = 32 -> len parent = 32 -> len (snapshot_bytes sequence root parent) = SNAPSHOT_LEN.
Proof. intros Hr Hp. unfold snapshot_bytes. rewrite sized_len by by apply snapshot_sized. done. Qed.

Lemma im_footer_bytes_len f : footer_ok f -> len (footer_bytes f) = FOOTER_LEN.
Proof. intros Hf. unfold footer_bytes. rewrite sized_len by by apply footer_sized. done. Qed.

(** The bytes of a commit: a snapshot and a footer after [b]. *)
Lemma published_commit b f parent root commit_start : footer_ok f -> ft_snapshot_len f = SNAPSHOT_LEN -> ft_snapshot_offset f = len b ->
  len b + (SNAPSHOT_LEN + FOOTER_LEN) <= U64_MAX -> slice b 0 FILE_HEADER_LEN = FILE_MAGIC ++ zeros 56 -> FILE_HEADER_LEN <= len b ->
  len parent = 32 -> len (pr_digest root) = 32 -> pr_level root <= 255 ->
  digest [SNAPSHOT_DOMAIN; snapshot_bytes (ft_sequence f) root parent] = ft_snapshot_digest f ->
  follows b (ft_sequence f) parent (ft_previous_footer_offset f) commit_start ->
  digest [COMMIT_DOMAIN; slice (b ++ snapshot_bytes (ft_sequence f) root parent) commit_start (len b + SNAPSHOT_LEN); footer_semantics f] = ft_commit_digest f ->
  valid_commit (b ++ snapshot_bytes (ft_sequence f) root parent ++ footer_bytes f) f parent root commit_start.
Proof.
  intros Hok Hsl Hso Hm Hh Hhl Hp Hr Hlv Hsd Hfo Hcd. pose proof (follows_start _ _ _ _ _ Hfo) as Hcs.
  pose proof (snapshot_bytes_len (ft_sequence f) root parent Hr Hp) as Hsn. pose proof (im_footer_bytes_len f Hok) as Hfl.
  set (sn := snapshot_bytes (ft_sequence f) root parent) in *. set (fb := footer_bytes f) in *.
  assert (Hlen : len (b ++ sn ++ fb) = len b + SNAPSHOT_LEN + FOOTER_LEN) by (rewrite !len_app; lia).
  constructor; rewrite ?Hlen, ?Hso; try done.
  - by rewrite slice_app_l.
  - assert (E : len b + SNAPSHOT_LEN + FOOTER_LEN - FOOTER_LEN = len (b ++ sn)) by (rewrite len_app; lia). rewrite E. rewrite im_footer_Ok, Hlen.
    assert (E2 : len (b ++ sn) = len b + SNAPSHOT_LEN) by (rewrite len_app; lia).
    split_and!; [lia|lia|done|]. rewrite app_assoc. apply (page_suffix (b ++ sn) fb). by rewrite Hfl.
  - apply (slice_app b sn fb); [done|]. by rewrite Hsn.
  - destruct Hfo as [(H1 & H2 & H3 & H4)|(H1 & H2 & previous & H3 & H4 & H5)]; [left; by split_and!|right]. split_and!; [done|done|by rewrite Hso|].
    exists previous. split_and!; [by apply footer_app|done|done].
  - replace (len b + SNAPSHOT_LEN + FOOTER_LEN - FOOTER_LEN) with (len b + SNAPSHOT_LEN) by lia. rewrite app_assoc, slice_app_l; [done|]. rewrite len_app. lia.
Qed.

Lemma fresh_filter (offs : list N) start commit_start b : fresh_pages start b offs -> commit_start <= start -> filter (fun o => commit_start <= o) offs = offs.
Proof.
  intros [Hf _] Hs. apply filter_all. intros o Ho. pose proof (proj1 (Forall_forall _ _) Hf o Ho) as [? _]. lia.
Qed.

(** Records that lie in [b], apart from each other. *)
Definition records_in b (es : list Locator) : Prop := Forall (object_present b) es /\ disjoint_ranges (object_range <$> es).

(** A file: a valid commit over a canonical directory. *)
Definition canonical_file data (f : Footer) (es : list Locator) : Prop :=
  exists parent root commit_start offs, valid_image data f parent root commit_start es offs /\ filled data root_min root (es, offs).

(** The commit published over a directory that was built is valid. *)
Lemma publish_limited b0 b root pages es sequence parent previous commit_start limits :
  slice b0 0 FILE_HEADER_LEN = FILE_MAGIC ++ zeros 56 -> FILE_HEADER_LEN <= len b0 -> records_in b0 es ->
  tree_built (len b0) b0 es (b, root, pages) -> len parent = 32 -> sequence <= U64_MAX -> previous <= U64_MAX ->
  follows b0 sequence parent previous commit_start ->
  limited (publish b sequence root parent previous pages limits)
    (fun out => exists more f, out = b0 ++ more /\ canonical_file out f es /\ ft_sequence f = sequence /\ ft_previous_footer_offset f = previous).
Proof.
  intros Hh Hhl [Hobj Hdis] (more & h & offs & Eb & [Ht Hocc Hlv Hch] & [Hfr Hdisj] & Epg) Hp Hsq Hpv Hfo. cbn [fst snd] in *. subst b pages.
  pose proof (follows_start _ _ _ _ _ Hfo) as Hcs. pose proof Hch as (_ & _ & _ & Hrd). unfold publish. limit_step. limit_step. limit_step. limit_step. limit_step.
  set (b := b0 ++ more) in *. rewrite encode_snapshot_eq by done. set (sn := snapshot_bytes sequence root parent).
  assert (Hsn : len sn = SNAPSHOT_LEN) by (by apply snapshot_bytes_len). assert (Hb : len b0 <= len b) by (unfold b; rewrite len_app; lia).
  apply (limited_bind _ _ (fun cs => cs = commit_start)).
  { destruct Hfo as [(-> & _ & _ & ->)|(Hne & -> & _)]; [done|]. rewrite (proj2 (N.eqb_neq _ _) Hne).
    rewrite (proj2 (usize_from_u64_Ok previous _ previous)) by done. rewrite checked_add_fits by lia. done. }
  intros ? ->. rewrite get_range_slice by (rewrite ?len_app; lia). cbn [ok_or limited].
  set (sd := digest [SNAPSHOT_DOMAIN; sn]). set (semantics := footer_semantics _). set (cd := digest [COMMIT_DOMAIN; _; semantics]).
  set (f := mkFooter sequence (len b) SNAPSHOT_LEN previous (len offs) sd cd).
  assert (Hfok : footer_ok f).
  { unfold footer_ok, f. cbn [ft_sequence ft_snapshot_offset ft_snapshot_len ft_previous_footer_offset ft_page_count_current ft_snapshot_digest ft_commit_digest].
    split_and!; try done; apply im_digest_len. }
  assert (Hmax : len b + (SNAPSHOT_LEN + FOOTER_LEN) <= U64_MAX) by done.
  assert (Henc : encode_footer sequence (len b) SNAPSHOT_LEN previous (len offs) sd cd = footer_bytes f) by (apply (encode_footer_eq f); apply im_digest_len).
  rewrite Henc, <- app_assoc. exists (more ++ sn ++ footer_bytes f), f. unfold b at 1. rewrite <- app_assoc. split_and!; [done| |done|done].
  exists parent, root, commit_start, offs. assert (Htree : tree_at (b ++ sn ++ footer_bytes f) root (es, offs)).
  { unfold tree_at. rewrite Hlv, Nat2N.id. by apply ptree_app. }
  pose proof (Forall_forall (fun o => len b0 <= o /\ o + PAGE_SIZE <= len b) offs) as [Hpages _]. specialize (Hpages Hfr). cbv beta in Hpages.
  split; [|exists h; split; [by apply ptree_app|by apply occupied_app]]. constructor.
  - apply (published_commit b f parent root commit_start); cbn [f ft_sequence ft_snapshot_offset ft_snapshot_len ft_previous_footer_offset ft_snapshot_digest ft_commit_digest]; try done.
    + unfold b. by rewrite slice_app_l by done.
    + lia.
    + apply tree_unfold in Htree as (content & subs & (_ & _ & _ & _ & _ & Hcok) & _). destruct content as [es'|cs]; cbn [content_ok] in Hcok; [|apply Hcok].
      destruct Hcok as [-> _]. lia.
    + destruct Hfo as [Hfo|(F1 & F2 & p & F3 & F4 & F5)]; [by left|right]. split_and!; [done|done|]. exists p. split_and!; [by apply footer_app|done|done].
    + unfold cd, semantics. rewrite len_app, Hsn. done.
  - done.
  - intros o Ho. by apply Hpages.
  - done.
  - cbn [f ft_page_count_current]. by rewrite (fresh_filter offs (len b0) commit_start b).
  - unfold b. rewrite <- app_assoc. eapply Forall_impl; [exact Hobj|]. intros e. apply object_app.
  - intros e He. destruct (proj1 (Forall_forall _ _) Hobj e He) as (_ & Hl & _). cbn [f ft_snapshot_offset]. lia.
  - intros e o He Ho. destruct (proj1 (Forall_forall _ _) Hobj e He) as (_ & Hl & _). destruct (Hpages o Ho). apply apart_le. left. cbn. lia.
  - done.
Qed.
End Publish.

(** ** Records *)

Section Records.
Context `{HS : Sha256, !Sha256Ok HS} `{HL : Layout}.
Implicit Types b : bytes.

(** An input of the types the program gives it. *)
Definition input_ok (i : ImmutableObjectInput) : Prop := in_object_id i <= U64_MAX /\ in_kind i <= U16_MAX.
Definition input_valid (i : ImmutableObjectInput) : Prop := input_ok i /\ in_object_id i <> 0 /\ in_kind i <> 0.

Definition input_header (i : ImmutableObjectInput) : bytes :=
  object_header_bytes (mkLocator (in_object_id i) (in_kind i) 0 0 (len (in_payload i)) []).

(** The record of a locator in [b] holds an input. *)
Definition stores b (e : Locator) (i : ImmutableObjectInput) : Prop :=
  lo_object_id e = in_object_id i /\ lo_kind e = in_kind i /\ slice b (lo_record_offset e + OBJECT_HEADER_LEN) (lo_record_offset e + lo_record_len e) = in_payload i.

Lemma input_header_len i : len (input_header i) = OBJECT_HEADER_LEN.
Proof. unfold input_header, object_header_bytes. by rewrite sized_len by apply object_header_sized. Qed.

Lemma encode_object_limited i : input_valid i -> limited (encode_object i) (eq (input_header i ++ in_payload i)).
Proof.
  intros (_ & Hi & Hk). unfold encode_object. rewrite (proj2 (N.eqb_neq _ _) Hi), (proj2 (N.eqb_neq _ _) Hk). cbn [orb negb]. limit_step.
  change (ok_or (try_u16 OBJECT_HEADER_LEN) (limit "object header") : I N) with (Ok OBJECT_HEADER_LEN : I N). cbv beta iota. limit_step. cbn [limited].
  unfold OBJECT_HEADER_LEN. rewrite N2Nat.inj_add, len_to_nat, zeros_app. change (N.to_nat 48) with 48%nat. unfold put_u64, put_u16.
  repeat (rewrite im_put_app by (rewrite ?im_put_len; first [by apply N.leb_le | done])).
  match goal with |- _ = put (?hd ++ _) _ _ => change hd with (input_header i) end.
  assert (Hl : len (input_header i) = 48) by apply input_header_len. 
  pose proof (put_inside (input_header i) (zeros (length (in_payload i))) [] 0 (in_payload i)) as Hput.
  rewrite !app_nil_r, N.add_0_r, Hl in Hput. rewrite Hput by (rewrite len_zeros; unfold len; lia).
  f_equal. unfold put, zeros. rewrite take_0. cbn [app]. rewrite drop_ge by (rewrite length_replicate; done). by rewrite app_nil_r.
Qed.

Lemma append_object_limited b i limits : input_valid i -> FILE_HEADER_LEN <= len b ->
  limited (append_object b i limits)
    (fun r => exists e, r = (b ++ input_header i ++ in_payload i, e) /\ locator_ok e /\ object_present r.1 e /\ stores r.1 e i /\
       object_range e = (len b, len r.1)).
Proof.
  intros Hi Hb. unfold append_object. eapply limited_bind; [by apply encode_object_limited|]. intros ? <-. set (record := input_header i ++ in_payload i).
  assert (Hl : len record = OBJECT_HEADER_LEN + len (in_payload i)) by (unfold record; by rewrite len_app, input_header_len).
  repeat limit_step. cbn [limited]. set (e := mkLocator _ _ _ _ _ _). exists e. cbn [fst]. destruct Hi as ([Hiu Hku] & Hi & Hk).
  assert (Hrec : slice (b ++ record) (len b) (len b + len record) = record) by (by apply page_suffix).
  split_and!; [done| | | |].
  - unfold locator_ok, e. cbn. split_and!; try done. apply im_digest_len.
  - unfold object_present, e. cbn [lo_record_offset lo_record_len lo_logical_len lo_digest]. rewrite Hrec, len_app, Hl. split_and!; try done; try lia.
    rewrite <- (input_header_len i). unfold record. by apply (slice_app b (input_header i)).
  - unfold stores, e. cbn [lo_object_id lo_kind lo_record_offset lo_record_len]. split_and!; [done|done|]. unfold record. rewrite app_assoc.
    rewrite <- (input_header_len i), <- len_app. apply page_suffix. rewrite !len_app. lia.
  - unfold object_range, e. cbn. by rewrite len_app.
Qed.
End Records.
