(* ===== verification/ImmutableBatch.v ===== *)
(** Batches over immutable-page files: the locators under the operations of a
    batch, the contents they stand for, and what [append_batch] and
    [build_genesis] return, on every input. *)

From Stdlib Require Import Strings.Byte Strings.String NArith ZArith Lia.
From stdpp Require Import base list gmap strings sorting.
From S2P Require Import Prelude Order Digest Exp0002 Exp0002File Exp0002Pages Exp0002Strict Exp0002Levels Immutable ImmutableFacts ImmutableStrict.
From S2P Require Import Immutable ImmutableBuild.

Local Open Scope N_scope.

(** ** Keyed lists *)

Section Keys.
Context {A : Type} (key : A -> N).
Implicit Types es : list A.

Lemma search_loop_fmap fuel es k base size : search_loop id fuel (key <$> es) k base size = search_loop key fuel es k base size.
Proof.
  revert base size. induction fuel as [|fuel IH]; intros base size; cbn [search_loop]; [done|]. destruct (size <=? 1)%nat; [done|].
  rewrite list_lookup_fmap. destruct (es !! _); cbn; apply IH.
Qed.

Lemma binary_search_fmap es k : binary_search_by_key id (key <$> es) k = binary_search_by_key key es k.
Proof. unfold binary_search_by_key. rewrite length_fmap, search_loop_fmap, list_lookup_fmap. by destruct (es !! _). Qed.

Lemma search_found es k i : binary_search_by_key key es k = Ok i -> exists e, es !! i = Some e /\ key e = k.
Proof.
  unfold binary_search_by_key. destruct es as [|x es]; [done|]. remember (search_loop _ _ _ _ _ _) as j eqn:Ej. clear Ej.
  destruct ((x :: es) !! j) as [e|] eqn:He; [|done]. destruct (N.eqb_spec (key e) k); [|done]. intros [= <-]. by exists e.
Qed.

Lemma keys_ordered es : StronglySorted (key_lt key) es <-> StronglySorted (key_lt id) (key <$> es).
Proof.
  induction es as [|e es IH]; [split; constructor|]. rewrite fmap_cons. split; intros [H1 H2]%StronglySorted_inv; constructor; try tauto.
  - by apply Forall_fmap.
  - by apply (Forall_fmap key (key_lt id (key e))) in H2.
Qed.

(** Elements with another key. *)
Definition others (k : N) es : list A := filter (fun x => key x <> k) es.

Lemma others_all k es : (forall x, x ∈ es -> key x <> k) -> others k es = es.
Proof. intros Hx. by apply filter_all. Qed.

Lemma others_app k l1 l2 : others k (l1 ++ l2) = others k l1 ++ others k l2.
Proof. apply filter_app. Qed.

Context (es : list A) (Hord : StronglySorted (key_lt key) es).

(** What lies around the element a search finds. *)
Lemma found_around i e : es !! i = Some e -> take i es = others (key e) (take i es) /\ drop (S i) es = others (key e) (drop (S i) es) /\
  others (key e) es = take i es ++ drop (S i) es.
Proof.
  intros Hi. assert (H1 : others (key e) (take i es) = take i es).
  { apply others_all. intros x (j & Hj & Hlt)%elem_of_take. pose proof (ordered_lookup es j i x e Hord Hj Hi Hlt) as Hk. unfold key_lt in Hk. lia. }
  assert (H2 : others (key e) (drop (S i) es) = drop (S i) es).
  { apply others_all. intros x (j & Hj)%list_elem_of_lookup. rewrite lookup_drop in Hj. pose proof (ordered_lookup es i _ e x Hord Hi Hj ltac:(lia)) as Hk. unfold key_lt in Hk. lia. }
  split_and!; [done|done|]. rewrite <- (take_drop_middle es i e Hi) at 1. rewrite others_app, H1. f_equal.
  unfold others. rewrite filter_cons_False by tauto. exact H2.
Qed.

Lemma remove_found i e : es !! i = Some e -> remove_at i es = others (key e) es.
Proof. intros Hi. by destruct (found_around i e Hi) as (_ & _ & ->). Qed.

Lemma replace_found i e x : es !! i = Some e -> <[i:=x]> es ≡ₚ x :: others (key e) es.
Proof.
  intros Hi. destruct (found_around i e Hi) as (_ & _ & ->). rewrite insert_take_drop by (by eapply lookup_lt_Some). symmetry. apply Permutation_middle.
Qed.

Lemma insert_missing i x k : (forall e, e ∈ take i es -> key e < k) -> (forall e, e ∈ drop i es -> k < key e) ->
  insert_at i x es ≡ₚ x :: others k es /\ others k es = es.
Proof.
  intros H1 H2. assert (Ho : others k es = es).
  { apply others_all. intros y Hy. rewrite <- (take_drop i es) in Hy. apply elem_of_app in Hy as [Hy|Hy]; [specialize (H1 y Hy)|specialize (H2 y Hy)]; lia. }
  split; [|done]. rewrite Ho. unfold insert_at. rewrite <- (take_drop i es) at 3. symmetry. apply Permutation_middle.
Qed.

Lemma others_ordered k : StronglySorted (key_lt key) (others k es).
Proof.
  clear -Hord. revert Hord. induction 1 as [|x l Hs IH Hf]; [constructor|]. unfold others. destruct (decide (key x <> k)); [rewrite filter_cons_True by done|rewrite filter_cons_False by done; exact IH].
  constructor; [done|]. apply Forall_forall. intros y [_ Hy]%list_elem_of_filter. by apply (proj1 (Forall_forall _ _) Hf).
Qed.

Lemma replaced_ordered i e x : es !! i = Some e -> key x = key e -> StronglySorted (key_lt key) (<[i:=x]> es).
Proof.
  intros Hi Hk. rewrite insert_take_drop by (by eapply lookup_lt_Some). rewrite <- (take_drop_middle es i e Hi) in Hord.
  apply ordered_app in Hord as (H1 & H2 & H3). apply StronglySorted_inv in H2 as [H2 Hf]. apply ordered_app. split_and!; [done| |].
  - constructor; [done|]. eapply Forall_impl; [exact Hf|]. unfold key_lt. by rewrite Hk.
  - intros a c Ha [->|Hc]%elem_of_cons; [unfold key_lt; rewrite Hk; by apply H3; [|left]|]. apply H3; [done|by right].
Qed.

Lemma inserted_ordered i x : (forall e, e ∈ take i es -> key e < key x) -> (forall e, e ∈ drop i es -> key x < key e) ->
  StronglySorted (key_lt key) (insert_at i x es).
Proof.
  intros H1 H2. unfold insert_at. rewrite <- (take_drop i es) in Hord. apply ordered_app in Hord as (Ho1 & Ho2 & Ho3). apply ordered_app. split_and!; [done| |].
  - constructor; [done|]. by apply Forall_forall.
  - intros a c Ha [->|Hc]%elem_of_cons; [by apply H1|by apply Ho3].
Qed.
End Keys.

(** ** Contents *)

Section Contents.
Context `{HS : Sha256, !Sha256Ok HS} `{HL : Layout}.
Implicit Types b : bytes.

(** The payload of the record of a locator. *)
Definition payload_at b (e : Locator) : bytes := slice b (lo_record_offset e + OBJECT_HEADER_LEN) (lo_record_offset e + lo_record_len e).

(** The objects a file holds: kind and payload by identifier. *)
Definition contents b (es : list Locator) : gmap N (N * bytes) :=
  list_to_map ((fun e => (lo_object_id e, (lo_kind e, payload_at b e))) <$> es).

Definition apply_spec (m : gmap N (N * bytes)) (operation : ImmutableBatchOperation) : gmap N (N * bytes) :=
  match operation with
  | Put i => <[in_object_id i := (in_kind i, in_payload i)]> m
  | Delete object_id => delete object_id m
  end.

Definition operation_ok (operation : ImmutableBatchOperation) : Prop :=
  match operation with Put i => input_ok i | Delete object_id => object_id <= U64_MAX end.
Definition operation_valid (operation : ImmutableBatchOperation) : Prop :=
  match operation with Put i => in_object_id i <> 0 /\ in_kind i <> 0 | Delete object_id => object_id <> 0 end.

(** Locators with their records, in order. *)
Record batch_ok b (es : list Locator) : Prop := mkBatchOk {
  bk_ok : Forall locator_ok es;
  bk_ordered : locators_ordered es;
  bk_records : records_in b es;
}.

Lemma ids_NoDup es : locators_ordered es -> NoDup (lo_object_id <$> es).
Proof.
  induction 1 as [|e es Hs IH Hf]; [constructor|]. rewrite fmap_cons. constructor; [|done]. intros (x & E & Hx)%list_elem_of_fmap.
  pose proof (proj1 (Forall_forall _ _) Hf x Hx) as Hlt. cbv beta in Hlt. lia.
Qed.

Lemma contents_keys b es : ((fun e => (lo_object_id e, (lo_kind e, payload_at b e))) <$> es).*1 = lo_object_id <$> es.
Proof. rewrite <- list_fmap_compose. done. Qed.

Lemma contents_Permutation b es es' : NoDup (lo_object_id <$> es) -> es ≡ₚ es' -> contents b es = contents b es'.
Proof. intros Hn Hp. unfold contents. apply list_to_map_proper; [by rewrite contents_keys|]. by apply fmap_Permutation. Qed.

Lemma contents_cons b e es : contents b (e :: es) = <[lo_object_id e := (lo_kind e, payload_at b e)]> (contents b es).
Proof. done. Qed.

Lemma contents_others b k es : contents b (others lo_object_id k es) = delete k (contents b es).
Proof.
  induction es as [|e es IH].
  { change (contents b []) with (∅ : gmap N (N * bytes)). by rewrite delete_empty. }
  unfold others. destruct (decide (lo_object_id e <> k)) as [Hne|He].
  - rewrite filter_cons_True by done. rewrite !contents_cons. unfold others in IH. rewrite IH. by rewrite delete_insert_ne.
  - rewrite filter_cons_False by done. unfold others in IH. rewrite IH, contents_cons. assert (Ek : lo_object_id e = k) by (destruct (decide (lo_object_id e = k)); tauto).
    rewrite Ek. by rewrite delete_insert_eq.
Qed.

(** What was in the file stays as it was. *)
Lemma contents_app b more es : Forall (object_present b) es -> contents (b ++ more) es = contents b es.
Proof.
  intros Hp. unfold contents. f_equal. apply list_fmap_ext. intros i e Hi. pose proof (proj1 (Forall_lookup _ _) Hp i e Hi) as (_ & Hl & _).
  unfold payload_at. by rewrite slice_app_l.
Qed.

Lemma contents_dom b es : dom (contents b es) = list_to_set (lo_object_id <$> es).
Proof. unfold contents. by rewrite dom_list_to_map_L, contents_keys. Qed.

Lemma records_in_Permutation b es es' : es ≡ₚ es' -> records_in b es -> records_in b es'.
Proof.
  intros Hp [H1 H2]. split; [by rewrite <- Hp|]. assert (Hr : object_range <$> es ≡ₚ object_range <$> es') by (by apply fmap_Permutation). by rewrite <- Hr.
Qed.

Lemma records_in_others b k es : records_in b es -> records_in b (others lo_object_id k es).
Proof.
  intros [H1 H2]. split.
  - apply Forall_forall. intros e [_ He]%list_elem_of_filter. by apply (proj1 (Forall_forall _ _) H1).
  - clear H1. induction es as [|e es IH]; [constructor|]. rewrite fmap_cons in H2. apply StronglySorted_inv in H2 as [H2 Hf]. specialize (IH H2).
    unfold others. destruct (decide (lo_object_id e <> k)); [rewrite filter_cons_True by done|rewrite filter_cons_False by done; exact IH].
    rewrite fmap_cons. constructor; [exact IH|]. apply Forall_fmap, Forall_forall. intros x [_ Hx]%list_elem_of_filter.
    apply (proj1 (Forall_forall _ _) Hf). by apply list_elem_of_fmap_2.
Qed.

(** A new record after everything else. *)
Lemma records_in_push b more e es : records_in b es -> object_present (b ++ more) e -> object_range e = (len b, len (b ++ more)) -> records_in (b ++ more) (e :: es).
Proof.
  intros [H1 H2] He Hr. split.
  - constructor; [done|]. eapply Forall_impl; [exact H1|]. intros x. apply object_app.
  - rewrite fmap_cons. constructor; [done|]. apply Forall_fmap, Forall_forall. intros x Hx. destruct (proj1 (Forall_forall _ _) H1 x Hx) as (_ & Hl & _).
    apply apart_le. right. rewrite Hr. exact Hl.
Qed.

(** ** Operations on the locators *)

Lemma put_locator_ok b more e es : batch_ok b es -> locator_ok e -> object_present (b ++ more) e -> object_range e = (len b, len (b ++ more)) ->
  batch_ok (b ++ more) (put_locator es e) /\
  contents (b ++ more) (put_locator es e) = <[lo_object_id e := (lo_kind e, payload_at (b ++ more) e)]> (contents b es).
Proof.
  intros [Hok Ho Hrec] He Hp Hr. set (es' := put_locator es e).
  assert (Hes : locators_ordered es' /\ es' ≡ₚ e :: others lo_object_id (lo_object_id e) es).
  { unfold es', put_locator. pose proof (binary_search_cases es (lo_object_id e) Ho) as Hs. destruct (binary_search_by_key _ _ _) as [i|i].
    - destruct Hs as (x & Hi & Hk). rewrite <- Hk. split; [by eapply (replaced_ordered lo_object_id es Ho i x e)|]. by apply replace_found.
    - destruct Hs as (_ & H1 & H2). split; [by apply inserted_ordered|]. by apply insert_missing. }
  destruct Hes as [Ho' Hperm]. split.
  - constructor; [|done|].
    + rewrite Hperm. constructor; [done|]. apply Forall_forall. intros x [_ Hx]%list_elem_of_filter. by apply (proj1 (Forall_forall _ _) Hok).
    + eapply records_in_Permutation; [symmetry; exact Hperm|]. apply records_in_push; [by apply records_in_others|done|done].
  - rewrite (contents_Permutation _ _ _ (ids_NoDup _ Ho') Hperm), contents_cons, contents_others, insert_delete_eq. f_equal. apply contents_app, Hrec.
Qed.

Lemma remove_locator_ok b k es i : batch_ok b es -> binary_search_by_key lo_object_id es k = Ok i ->
  batch_ok b (remove_at i es) /\ contents b (remove_at i es) = delete k (contents b es) /\ lo_object_id <$> remove_at i es = remove_at i (lo_object_id <$> es).
Proof.
  intros [Hok Ho Hrec] Hb. pose proof (binary_search_cases es k Ho) as Hs. rewrite Hb in Hs. destruct Hs as (x & Hi & <-).
  split_and!.
  - rewrite (remove_found _ _ Ho i x Hi). constructor.
    + apply Forall_forall. intros y [_ Hy]%list_elem_of_filter. by apply (proj1 (Forall_forall _ _) Hok).
    + by apply others_ordered.
    + by apply records_in_others.
  - by rewrite (remove_found _ _ Ho i x Hi), contents_others.
  - unfold remove_at. by rewrite fmap_app, fmap_take, fmap_drop.
Qed.
End Contents.

(** ** Batches on the identifiers and on the objects *)

Section Operations.
Context `{HS : Sha256, !Sha256Ok HS} `{HL : Layout}.
Implicit Types b : bytes.

(** What a batch asks of the objects it is applied to. *)
Definition applicable (m : gmap N (N * bytes)) (operations : list ImmutableBatchOperation) : Prop :=
  Forall operation_valid operations /\ NoDup (operation_id <$> operations) /\ forall d, Delete d ∈ operations -> d ∈ dom m.

Definition ids_of (m : gmap N (N * bytes)) (ids : list N) : Prop := StronglySorted (key_lt id) ids /\ forall k, k ∈ ids <-> k ∈ dom m.

Lemma insert_at_elem {A} i (x : A) l y : y ∈ insert_at i x l <-> y = x \/ y ∈ l.
Proof. unfold insert_at. rewrite elem_of_app, elem_of_cons. rewrite <- (take_drop i l) at 3. rewrite elem_of_app. tauto. Qed.

Lemma project_operation_cases ids m operation : ids_of m ids ->
  match project_operation ids operation with
  | Ok ids' => operation_valid operation /\ ids_of (apply_spec m operation) ids' /\ (forall d, operation = Delete d -> d ∈ dom m)
  | Err (Refused (MissingObject k)) => operation = Delete k /\ m !! k = None
  | Err (Refused (Invalid _)) => ~ operation_valid operation
  | _ => False
  end.
Proof.
  intros [Hs Hm]. destruct operation as [i|d]; cbn [project_operation operation_valid apply_spec].
  - destruct (N.eqb_spec (in_object_id i) 0) as [E|Hi]; [cbn; tauto|]. destruct (N.eqb_spec (in_kind i) 0) as [E|Hk]; [cbn; tauto|]. cbn [orb negb].
    pose proof (binary_search_cases ids (in_object_id i) Hs) as Hb. destruct (binary_search_by_key id ids (in_object_id i)) as [p|p].
    + destruct Hb as (e & He & Ee). cbv in Ee. subst e. split_and!; [done..| |done]. split; [done|]. intros k. rewrite dom_insert_L, elem_of_union, elem_of_singleton, Hm.
      apply list_elem_of_lookup_2 in He. apply Hm in He. naive_solver.
    + destruct Hb as (_ & H1 & H2). split_and!; [done..| |done]. split; [by apply (inserted_ordered id)|]. intros k.
      rewrite insert_at_elem, dom_insert_L, elem_of_union, elem_of_singleton, Hm. done.
  - destruct (N.eqb_spec d 0) as [E|Hd]; [cbn; tauto|]. cbn [negb]. pose proof (binary_search_cases ids d Hs) as Hb. destruct (binary_search_by_key id ids d) as [p|p].
    + destruct Hb as (e & He & Ee). cbv in Ee. subst e. rewrite (remove_found id _ Hs p d He). split_and!; [done| |].
      * split; [by apply others_ordered|]. intros k. rewrite dom_delete_L. unfold others. rewrite list_elem_of_filter, Hm. cbv [id]. set_solver.
      * intros ? [= <-]. apply Hm. by eapply list_elem_of_lookup_2.
    + destruct Hb as (_ & H1 & H2). split; [done|]. apply not_elem_of_dom. rewrite <- Hm. intros Hin. rewrite <- (take_drop p ids) in Hin.
      apply elem_of_app in Hin as [Hin|Hin]; [specialize (H1 d Hin)|specialize (H2 d Hin)]; cbv [id] in *; lia.
Qed.

Lemma apply_spec_dom m operation k : operation_id operation <> k -> k ∈ dom (apply_spec m operation) <-> k ∈ dom m.
Proof. destruct operation as [i|d]; cbn; intros Hk; [rewrite dom_insert_L|rewrite dom_delete_L]; set_solver. Qed.

Lemma project_fold operations ids m : ids_of m ids -> NoDup (operation_id <$> operations) ->
  match fold_result project_operation operations ids with
  | Ok ids' => ids_of (foldl apply_spec m operations) ids' /\ applicable m operations
  | Err (Refused (MissingObject k)) => Delete k ∈ operations /\ m !! k = None
  | Err (Refused (Invalid _)) => Exists (fun o => ~ operation_valid o) operations
  | _ => False
  end.
Proof.
  revert ids m. induction operations as [|o operations IH]; intros ids m Hids; cbn [fold_result foldl fmap list_fmap].
  - intros _. split; [done|]. split_and!; [constructor|constructor|]. intros d Hd. by apply elem_of_nil in Hd.
  - intros [Hno Hn]%NoDup_cons. pose proof (project_operation_cases ids m o Hids) as Ho. destruct (project_operation ids o) as [ids'|[[l|l|k|k]|]]; try done.
    + destruct Ho as (Hv & Hids' & Hdel). specialize (IH ids' _ Hids' Hn).
      assert (Hsame : forall d, Delete d ∈ operations -> d ∈ dom (apply_spec m o) <-> d ∈ dom m).
      { intros d Hd. apply apply_spec_dom. intros E. apply Hno. rewrite E. apply list_elem_of_fmap. by exists (Delete d). }
      destruct (fold_result project_operation operations ids') as [ids2|[[l|l|k|k]|]]; try done.
      * destruct IH as (H1 & H2 & _ & H3). split; [done|]. split_and!; [by constructor|by constructor|]. intros d [E|Hd]%elem_of_cons; [by apply Hdel|].
        rewrite <- (Hsame d Hd). by apply H3.
      * by apply Exists_cons_tl.
      * destruct IH as [Hd Hk]. split; [by right|]. apply not_elem_of_dom. rewrite <- (Hsame k Hd). by apply not_elem_of_dom.
    + by apply Exists_cons_hd.
    + destruct Ho as [-> Hk]. split; [by left|done].
Qed.

(** The order of the operations does not matter to the objects. *)
Lemma apply_spec_comm m o1 o2 : operation_id o1 <> operation_id o2 -> apply_spec (apply_spec m o1) o2 = apply_spec (apply_spec m o2) o1.
Proof.
  destruct o1 as [i|d], o2 as [j|e]; cbn; intros Hne.
  - by rewrite insert_insert_ne.
  - by rewrite delete_insert_ne.
  - by rewrite delete_insert_ne.
  - by rewrite delete_delete.
Qed.

Lemma apply_spec_Permutation operations operations' : operations ≡ₚ operations' -> NoDup (operation_id <$> operations) ->
  forall m, foldl apply_spec m operations = foldl apply_spec m operations'.
Proof.
  induction 1 as [|o l1 l2 Hp IH|o1 o2 l|l1 l2 l3 H1 IH1 H2 IH2]; intros Hn m; cbn [foldl] in *; [done| | |].
  - apply NoDup_cons in Hn as [_ Hn]. by apply IH.
  - rewrite !fmap_cons in Hn. apply NoDup_cons in Hn as [Hn _]. rewrite apply_spec_comm; [done|]. intros E. apply Hn. rewrite <- E. by left.
  - rewrite IH1 by done. apply IH2. by rewrite <- H1.
Qed.

(** ** Operations on the file *)

Lemma put_locator_ids es e : lo_object_id <$> put_locator es e =
  match binary_search_by_key id (lo_object_id <$> es) (lo_object_id e) with
  | Err p => insert_at p (lo_object_id e) (lo_object_id <$> es)
  | Ok _ => lo_object_id <$> es
  end.
Proof.
  unfold put_locator. rewrite binary_search_fmap. destruct (binary_search_by_key lo_object_id es (lo_object_id e)) as [i|i] eqn:Hb.
  - rewrite list_fmap_insert. apply list_insert_id. rewrite list_lookup_fmap. apply search_found in Hb as (x & -> & <-). done.
  - unfold insert_at. by rewrite fmap_app, fmap_cons, fmap_take, fmap_drop.
Qed.

Lemma stores_contents b e i : stores b e i -> (lo_kind e, payload_at b e) = (in_kind i, in_payload i).
Proof. intros (_ & -> & H). unfold payload_at. by rewrite H. Qed.

Lemma operation_limited missing limits b es operation ids : batch_ok b es -> FILE_HEADER_LEN <= len b -> operation_ok operation ->
  project_operation (lo_object_id <$> es) operation = Ok ids ->
  limited (apply_operation missing limits (b, es) operation)
    (fun r => exists more, r.1 = b ++ more /\ batch_ok r.1 r.2 /\ lo_object_id <$> r.2 = ids /\ contents r.1 r.2 = apply_spec (contents b es) operation).
Proof.
  intros Hb Hlo Hok Hp. destruct operation as [i|d]; cbn [apply_operation project_operation operation_ok apply_spec] in *.
  - destruct (N.eqb_spec (in_object_id i) 0) as [|Hi]; [done|]. destruct (N.eqb_spec (in_kind i) 0) as [|Hk]; [done|]. cbn [orb negb] in Hp.
    eapply limited_bind; [apply (append_object_limited b i limits); [done|done]|]. cbv beta. intros [out e] (e' & E & He & Hpres & Hst & Hr).
    apply pair_equal_spec in E as [-> <-]. cbn [fst snd limited] in *. set (more := input_header i ++ in_payload i) in *. exists more.
    destruct (put_locator_ok b more e es Hb He Hpres Hr) as [H1 H2]. split_and!; [done|done| |].
    + rewrite put_locator_ids. pose proof Hst as (-> & _). destruct (binary_search_by_key id _ _); by injection Hp.
    + rewrite H2. pose proof (stores_contents _ _ _ Hst) as ->. by destruct Hst as (-> & _).
  - destruct (N.eqb_spec d 0) as [|Hd]; [done|]. cbn [negb] in Hp. rewrite binary_search_fmap in Hp.
    destruct (binary_search_by_key lo_object_id es d) as [p|p] eqn:Hs; [|done]. injection Hp as <-. cbn [limited fst snd]. exists [].
    destruct (remove_locator_ok b d es p Hb Hs) as (H1 & H2 & H3). rewrite app_nil_r. done.
Qed.

Lemma operations_limited missing limits operations b es ids : batch_ok b es -> FILE_HEADER_LEN <= len b -> Forall operation_ok operations ->
  fold_result project_operation operations (lo_object_id <$> es) = Ok ids ->
  limited (fold_result (apply_operation missing limits) operations (b, es))
    (fun r => exists more, r.1 = b ++ more /\ batch_ok r.1 r.2 /\ lo_object_id <$> r.2 = ids /\ contents r.1 r.2 = foldl apply_spec (contents b es) operations).
Proof.
  revert b es. induction operations as [|o operations IH]; intros b es Hb Hlo Hok; cbn [fold_result foldl].
  - intros [= <-]. cbn [limited fst snd]. exists []. by rewrite app_nil_r.
  - apply Forall_cons in Hok as [Ho Hok]. destruct (project_operation (lo_object_id <$> es) o) as [ids1|] eqn:Hp; [|done]. intros Hf.
    eapply limited_bind; [by apply (operation_limited missing limits b es o ids1)|]. cbv beta. intros [b1 es1] (more & Eb & Hb1 & Eids & Ec). cbn [fst snd] in *. subst b1 ids1.
    eapply limited_mono; [|apply (IH (b ++ more) es1); [done|rewrite len_app; lia|done|done]]. cbv beta.
    intros [b2 es2] (more2 & E2 & H2). cbn [fst snd] in *. rewrite Ec in H2. exists (more ++ more2). by rewrite app_assoc.
Qed.
End Operations.

(** ** Outcomes *)

(** A result, a limit, or an error that is accounted for. *)
Definition outcome {A} (r : I A) (P : A -> Prop) (E : Failure -> Prop) : Prop :=
  match r with Ok a => P a | Err (Refused (Limit _)) => True | Err e => E e end.

Lemma outcome_bind {A B} (m : I A) (f : A -> I B) (P : A -> Prop) (Q : B -> Prop) E :
  limited m P -> (forall a, P a -> outcome (f a) Q E) -> outcome (match m with Ok a => f a | Err e => Err e end) Q E.
Proof. destruct m as [a|[[]|]]; cbn [limited outcome]; auto; done. Qed.

Lemma outcome_cap {A} (c : bool) (m : I A) label P E : (c = true -> outcome m P E) -> outcome (if c then m else Err (limit label)) P E.
Proof. destruct c; cbn; auto. Qed.

Lemma outcome_limited {A} (r : I A) P E : limited r P -> outcome r P E.
Proof. destruct r as [a|[[]|]]; cbn; done. Qed.

Lemma outcome_mono {A} (r : I A) (P P' : A -> Prop) (E E' : Failure -> Prop) : outcome r P E -> (forall a, P a -> P' a) -> (forall e, E e -> E' e) -> outcome r P' E'.
Proof. intros Ho HP HE. destruct r as [a|[[]|]]; cbn in *; auto. Qed.

Ltac outcome_step :=
  lazymatch goal with
  | |- outcome (match allocation_check _ _ _ with Ok _ => _ | Err _ => _ end) _ _ => apply (outcome_bind _ _ (fun _ => True)); [apply limited_alloc|intros ? _]
  | |- outcome (if _ then _ else Err (limit _)) _ _ => apply outcome_cap; intros ?
  | |- outcome (match u64_from_usize ?v with Ok _ => _ | Err _ => _ end) _ _ =>
      apply (outcome_bind _ _ (fun w => w = v /\ v <= U64_MAX)); [apply limited_u64|intros ? [-> ?]]
  | |- outcome (match ok_or (checked_add ?a ?b) (limit _) with Ok _ => _ | Err _ => _ end) _ _ =>
      apply (outcome_bind _ _ (fun w => w = a + b /\ a + b <= U64_MAX)); [apply limited_some; intros ? ?%checked_add_Some; done|intros ? [-> ?]]
  end.

(** ** Duplicates *)

Lemma find_duplicate_cases {A} (key : A -> N) l : Sorted (cmp_le (cmp_on key N.compare)) l ->
  match find_duplicate key l with
  | None => StronglySorted (key_lt key) l
  | Some k => exists rest, key <$> l ≡ₚ k :: k :: rest
  end.
Proof.
  induction 1 as [|x l Hs IH Hh]; [constructor|]. destruct l as [|y l]; [by repeat constructor|]. cbn [find_duplicate].
  apply HdRel_inv in Hh. unfold cmp_le, cmp_on in Hh. assert (Hle : key x <= key y) by exact Hh. clear Hh. destruct (N.eqb_spec (key x) (key y)) as [E|Hne].
  - exists (key <$> l). rewrite !fmap_cons, E. done.
  - cbn [find_duplicate] in IH. destruct (match l with [] => None | _ => _ end) as [k|].
    + destruct IH as (rest & Hp). exists (key x :: rest). rewrite fmap_cons, Hp. exact (Permutation_middle [k; k] rest (key x)).
    + assert (Hxy : key x < key y) by lia. constructor; [done|]. constructor; [done|]. apply StronglySorted_inv in IH as [_ Hf]. eapply Forall_impl; [exact Hf|].
      unfold key_lt. intros z Hz. lia.
Qed.

Lemma sorted_duplicate_cases {A} (key : A -> N) l :
  match find_duplicate key (sort_by (cmp_on key N.compare) l) with
  | None => StronglySorted (key_lt key) (sort_by (cmp_on key N.compare) l) /\ NoDup (key <$> l)
  | Some k => exists rest, key <$> l ≡ₚ k :: k :: rest
  end.
Proof.
  assert (Hp : key <$> sort_by (cmp_on key N.compare) l ≡ₚ key <$> l) by (apply fmap_Permutation, sort_by_Permutation).
  pose proof (find_duplicate_cases key _ (sort_by_Sorted (cmp_on key N.compare) l)) as Hc. destruct (find_duplicate key _) as [k|].
  - destruct Hc as (rest & Hc). exists rest. by rewrite <- Hp.
  - split; [done|]. rewrite <- Hp. clear Hp. induction Hc as [|x l' Hs IH Hf]; [constructor|]. rewrite fmap_cons. constructor; [|done].
    intros (y & E & Hy)%list_elem_of_fmap. pose proof (proj1 (Forall_forall _ _) Hf y Hy) as Hlt. unfold key_lt in Hlt. lia.
Qed.

(** ** Genesis *)

Section Genesis.
Context `{HS : Sha256, !Sha256Ok HS} `{HL : Layout}.
Implicit Types b : bytes.

Definition input_entry (i : ImmutableObjectInput) : N * (N * bytes) := (in_object_id i, (in_kind i, in_payload i)).

(** The objects of a list of inputs. *)
Definition inputs_contents (inputs : list ImmutableObjectInput) : gmap N (N * bytes) := list_to_map (input_entry <$> inputs).

Lemma inputs_contents_Permutation inputs inputs' : NoDup (in_object_id <$> inputs) -> inputs ≡ₚ inputs' -> inputs_contents inputs = inputs_contents inputs'.
Proof. intros Hn Hp. unfold inputs_contents. apply list_to_map_proper; [by rewrite <- list_fmap_compose|]. by apply fmap_Permutation. Qed.

(** The records appended for inputs. *)
Definition appended b (inputs : list ImmutableObjectInput) (r : bytes * list Locator) : Prop :=
  exists more, r.1 = b ++ more /\ Forall locator_ok r.2 /\ records_in r.1 r.2 /\ Forall (fun e => len b <= lo_record_offset e) r.2 /\
    lo_object_id <$> r.2 = in_object_id <$> inputs /\ contents r.1 r.2 = inputs_contents inputs.

Definition input_error (inputs : list ImmutableObjectInput) (e : Failure) : Prop :=
  match e with Refused (Invalid _) => Exists (fun i => ~ input_valid i) inputs | _ => False end.

Lemma encode_object_invalid i : input_ok i -> ~ input_valid i -> encode_object i = Err (invalid "object input").
Proof.
  intros Hok Hv. unfold encode_object. destruct (N.eqb_spec (in_object_id i) 0); [done|]. destruct (N.eqb_spec (in_kind i) 0); [done|]. by destruct Hv.
Qed.

Lemma append_objects_outcome b inputs limits : Forall input_ok inputs -> FILE_HEADER_LEN <= len b ->
  outcome (append_objects b inputs limits) (fun r => appended b inputs r /\ Forall input_valid inputs) (input_error inputs).
Proof.
  intros Hok. revert b. induction Hok as [|i inputs Hi Hok IH]; intros b Hlo; cbn [append_objects].
  - split; [|constructor]. exists []. cbn [fst snd]. rewrite app_nil_r. split_and!; [done|constructor|split; constructor|constructor|done|done].
  - destruct (decide (in_object_id i <> 0 /\ in_kind i <> 0)) as [Hv|Hv].
    2: { assert (Hnv : ~ input_valid i) by (intros [_ ?]; tauto). unfold append_object. rewrite encode_object_invalid by done. cbn. by left. }
    eapply outcome_bind; [apply (append_object_limited b i limits); done|]. cbv beta. intros [b1 e] (e' & E & He & Hpres & Hst & Hr).
    apply pair_equal_spec in E as [-> <-]. cbn [fst snd] in *. set (more := input_header i ++ in_payload i) in *.
    specialize (IH (b ++ more) ltac:(rewrite len_app; lia)). destruct (append_objects (b ++ more) inputs limits) as [[b2 es]|[[l|l|k|k]|]]; try done.
    2: { cbn in *. by right. }
    destruct IH as [(more2 & E2 & H1 & [H2 H3] & H4 & H5 & H6) Hvs]. cbn [fst snd outcome] in *. split; [|by constructor].
    exists (more ++ more2). cbn [fst snd]. rewrite E2, <- app_assoc. rewrite E2, <- app_assoc in H2, H6. split_and!; [done|by constructor| | | |].
    + split; [constructor; [|done]; rewrite app_assoc; by apply object_app|]. rewrite fmap_cons. constructor; [done|]. apply Forall_fmap, Forall_forall. intros x Hx.
      pose proof (proj1 (Forall_forall _ _) H4 x Hx) as Hlow. cbv beta in Hlow. apply apart_le. left. rewrite Hr. exact Hlow.
    + constructor; [by injection Hr as ->|]. eapply Forall_impl; [exact H4|]. cbv beta. intros x Hx. rewrite len_app in Hx. lia.
    + rewrite !fmap_cons. f_equal; [by destruct Hst|done].
    + assert (Ep : payload_at (b ++ more ++ more2) e = payload_at (b ++ more) e).
      { unfold payload_at. rewrite app_assoc. destruct Hpres as (_ & Hl & _). by rewrite slice_app_l. }
      rewrite contents_cons, H6, Ep, (stores_contents _ _ _ Hst). by destruct Hst as (-> & _).
Qed.

Definition genesis_header : bytes := put (zeros (N.to_nat FILE_HEADER_LEN)) 0 FILE_MAGIC.

Lemma genesis_header_eq : genesis_header = FILE_MAGIC ++ zeros 56.
Proof. reflexivity. Qed.

Lemma canonical_limited data f es limits : canonical_file data f es ->
  limited (validate_canonical_internal data limits) (fun r => ir_locators r = es /\ rp_sequence (ir_public r) = ft_sequence f /\
    rp_snapshot_digest (ir_public r) = ft_snapshot_digest f /\ ir_footer_offset r = len data - FOOTER_LEN).
Proof.
  intros (parent & root & commit_start & offs & Hv & Hfill). eapply limited_mono; [|by apply (validate_canonical_limited _ _ _ _ _ _ _ _ Hv)].
  by intros r <-.
Qed.

(** The last check of a writer, of a file it has made right. *)
Lemma checked_output data limits P E : (exists f es, canonical_file data f es) -> P data ->
  outcome (match validate_canonical_occupancy data limits with Ok _ => Ok data | Err e => Err e end) P E.
Proof.
  intros (f & es & Hc) HP. unfold validate_canonical_occupancy. apply (outcome_bind _ _ (fun _ => True)); [|done].
  eapply limited_bind; [by apply canonical_limited|]. done.
Qed.

(** A directory over [es], then its commit. *)
Lemma build_publish b es sequence parent previous commit_start limits (P : bytes -> Prop) E : es <> [] -> batch_ok b es ->
  slice b 0 FILE_HEADER_LEN = FILE_MAGIC ++ zeros 56 -> FILE_HEADER_LEN <= len b -> len parent = 32 -> sequence <= U64_MAX -> previous <= U64_MAX ->
  follows b sequence parent previous commit_start ->
  (forall out more f, out = b ++ more -> canonical_file out f es -> contents out es = contents b es -> ft_sequence f = sequence -> ft_previous_footer_offset f = previous -> P out) ->
  outcome (match build_tree b es limits with
           | Ok x => let (y, pages) := x in let (output, root) := y in
               match publish output sequence root parent previous pages limits with
               | Ok output => match validate_canonical_occupancy output limits with Ok _ => Ok output | Err e => Err e end
               | Err e => Err e end
           | Err e => Err e end) P E.
Proof.
  intros Hne [Hok Ho Hrec] Hh Hlo Hp Hsq Hpv Hfo HP. eapply outcome_bind; [by apply build_tree_limited|]. intros [[output root] pages] Ht.
  eapply outcome_bind; [by apply (publish_limited b output root pages es sequence parent previous commit_start limits)|]. cbv beta.
  intros out (more & f & -> & Hc & Hsf & Hpf). apply checked_output; [by exists f, es|]. eapply HP; [done|exact Hc| |done|done].
  apply contents_app, Hrec.
Qed.

(** What a genesis stands for. *)
Definition genesis_of (inputs : list ImmutableObjectInput) (out : bytes) : Prop :=
  Forall input_valid inputs /\ NoDup (in_object_id <$> inputs) /\
  exists f es, canonical_file out f es /\ ft_sequence f = 0 /\ ft_previous_footer_offset f = ABSENT_OFFSET /\ contents out es = inputs_contents inputs.

Definition genesis_error (inputs : list ImmutableObjectInput) (e : Failure) : Prop :=
  match e with
  | Refused (Invalid _) => Exists (fun i => ~ input_valid i) inputs
  | Refused (DuplicateObject k) => exists rest, in_object_id <$> inputs ≡ₚ k :: k :: rest
  | _ => False
  end.

Lemma genesis_outcome inputs limits : Forall input_ok inputs -> outcome (build_genesis inputs limits) (genesis_of inputs) (genesis_error inputs).
Proof.
  intros Hok. unfold build_genesis. outcome_step. bool_facts. outcome_step. pose proof (sorted_duplicate_cases in_object_id inputs) as Hd.
  destruct (find_duplicate in_object_id _) as [k|]; [done|]. destruct Hd as [Hs Hn]. set (ordered := sort_by _ inputs) in *.
  assert (Hperm : ordered ≡ₚ inputs) by apply sort_by_Permutation. assert (Hok' : Forall input_ok ordered) by by rewrite Hperm.
  fold genesis_header. rewrite genesis_header_eq. set (header := FILE_MAGIC ++ zeros 56). assert (Hhl : len header = FILE_HEADER_LEN) by done.
  pose proof (append_objects_outcome header ordered limits Hok' ltac:(rewrite Hhl; done)) as Ha.
  destruct (append_objects header ordered limits) as [[b es]|[[l|l|k|k]|]]; try done.
  2: { cbn in *. by rewrite <- Hperm. }
  destruct Ha as [(more & Eb & H1 & H2 & _ & H4 & H5) Hv]. cbn [fst snd] in *. subst b.
  assert (Ho : locators_ordered es).
  { apply (keys_ordered lo_object_id). rewrite H4. by apply (keys_ordered in_object_id). }
  eapply (build_publish (header ++ more) es 0 (zeros 32) ABSENT_OFFSET 0).
  - intros ->. assert (Hnil : ordered = []) by (by destruct ordered). rewrite Hnil in Hperm. apply Permutation_nil_l in Hperm. done.
  - by constructor.
  - by rewrite slice_app_l by by rewrite Hhl.
  - rewrite len_app, Hhl. lia.
  - done.
  - done.
  - done.
  - left. done.
  - intros out more' f -> Hc Ec Hsf Hpf. split_and!; [by rewrite <- Hperm|done|]. exists f, es. split_and!; [done|done|done|].
    rewrite Ec, H5. apply inputs_contents_Permutation; [by rewrite Hperm|done].
Qed.
End Genesis.

(** ** Batches *)

Section Batch.
Context `{HS : Sha256, !Sha256Ok HS} `{HL : Layout}.
Implicit Types data : bytes.

(** What the next commit of a file starts from. *)
Lemma canonical_next data f es : canonical_file data f es ->
  batch_ok data es /\ slice data 0 FILE_HEADER_LEN = FILE_MAGIC ++ zeros 56 /\ FILE_HEADER_LEN <= len data /\ len data <= U64_MAX /\
  footer_ok f /\ follows data (ft_sequence f + 1) (ft_snapshot_digest f) (len data - FOOTER_LEN) (len data).
Proof.
  intros (parent & root & commit_start & offs & Hv & _). pose proof (valid_image_length _ _ _ _ _ _ _ Hv) as Hlen. destruct Hv as [[Hhd _ Hend Hft _ _ _ _ _ _ _] Ht _ _ _ Hobj _ _ Hdis].
  destruct (ptree_spans _ _ _ _ _ Ht) as [(Ho & _) Hok]. cbn [fst] in *. pose proof (proj1 (im_footer_Ok _ _ _) Hft) as (Hb & Hm & Hf & _).
  split_and!; [by constructor|done|lia| |done|].
  - lia.
  - right. split_and!.
    + assert (Ha : ABSENT_OFFSET = U64_MAX) by done. assert (Hf0 : 0 < FOOTER_LEN) by done. lia.
    + lia.
    + by exists f.
Qed.

(** What a batch over a file stands for: a commit more, whose objects are the
    former ones under the operations. *)
Definition batch_of data (f : Footer) (es : list Locator) (operations : list ImmutableBatchOperation) (out : bytes) : Prop :=
  applicable (contents data es) operations /\
  exists more f' es', out = data ++ more /\ canonical_file out f' es' /\ ft_sequence f' = ft_sequence f + 1 /\
    ft_previous_footer_offset f' = len data - FOOTER_LEN /\ contents out es' = foldl apply_spec (contents data es) operations.

Definition batch_error data (es : list Locator) (operations : list ImmutableBatchOperation) (e : Failure) : Prop :=
  match e with
  | Refused (Invalid _) => operations = [] \/ Exists (fun o => ~ operation_valid o) operations \/ foldl apply_spec (contents data es) operations = ∅
  | Refused (DuplicateObject k) => exists rest, operation_id <$> operations ≡ₚ k :: k :: rest
  | Refused (MissingObject k) => Delete k ∈ operations /\ contents data es !! k = None
  | _ => False
  end.

Lemma ids_of_contents data es : batch_ok data es -> ids_of (contents data es) (lo_object_id <$> es).
Proof. intros [_ Ho _]. split; [by apply (keys_ordered lo_object_id)|]. intros k. rewrite contents_dom. by rewrite elem_of_list_to_set. Qed.

Lemma ids_of_nil m : ids_of m [] -> m = ∅.
Proof. intros [_ Hm]. apply dom_empty_inv_L. apply set_eq. intros k. rewrite <- Hm. set_solver. Qed.

Lemma append_batch_outcome data f es operations limits : canonical_file data f es -> Forall operation_ok operations ->
  outcome (append_batch data operations limits) (batch_of data f es operations) (batch_error data es operations).
Proof.
  intros Hc Hok. unfold append_batch. destruct (canonical_next data f es Hc) as (Hb & Hh & Hlo & Hm & (_ & _ & _ & _ & _ & Hsd & _) & Hfo).
  destruct (decide (operations = [])) as [->|Hne]; [by left|]. rewrite bool_decide_eq_false_2 by done. cbn [negb]. outcome_step.
  eapply outcome_bind; [by apply (canonical_limited data f es limits)|]. cbv beta. intros previous (-> & -> & -> & ->). do 3 outcome_step.
  pose proof (sorted_duplicate_cases operation_id operations) as Hd. fold (operation_order operations) in Hd. set (order := operation_order operations) in *.
  destruct (find_duplicate operation_id order) as [k|]; [done|]. destruct Hd as [_ Hn].
  assert (Hperm : order ≡ₚ operations) by apply sort_by_Permutation. assert (Hn' : NoDup (operation_id <$> order)) by by rewrite Hperm.
  pose proof (apply_spec_Permutation order operations Hperm Hn' (contents data es)) as Efold. do 2 outcome_step.
  pose proof (project_fold order _ _ (ids_of_contents data es Hb) Hn') as Hp.
  destruct (fold_result project_operation order (lo_object_id <$> es)) as [ids|[[l|l|k|k]|]] eqn:Eids; try done.
  2: { cbn. right. left. by rewrite <- Hperm. }
  2: { cbn. by rewrite <- Hperm. }
  destruct Hp as [Hids (Hv & _ & Hdel)]. rewrite Efold in Hids. destruct (decide (ids = [])) as [->|Hnil]; [cbn; right; right; by apply ids_of_nil|].
  rewrite bool_decide_eq_false_2 by done. cbn [negb]. outcome_step. outcome_step.
  eapply outcome_bind; [apply (operations_limited _ limits order data es ids); [done|done|by rewrite Hperm|done]|]. cbv beta.
  intros [b1 es1] (more & E1 & Hb1 & <- & Econ). cbn [fst snd] in *. subst b1. rewrite Efold in Econ.
  apply (build_publish (data ++ more) es1 (ft_sequence f + 1) (ft_snapshot_digest f) (len data - FOOTER_LEN) (len data)); try done.
  - intros ->. done.
  - by rewrite slice_app_l.
  - rewrite len_app. lia.
  - destruct Hfo as [(? & ? & _)|(F1 & F2 & p & F3 & F4)]; [left; split_and!; try done; lia|right]. split_and!; [done|done|]. exists p. split; [by apply footer_app|done].
  - intros out more' f' -> Hc' Ec Hsf Hpf. split; [split_and!; [by rewrite <- Hperm|done|intros d Hd; apply Hdel; by rewrite Hperm]|].
    exists (more ++ more'), f', es1. rewrite app_assoc. split_and!; [done|done|done|done|]. by rewrite Ec.
Qed.

Lemma find_duplicate_fmap {A} (key : A -> N) l : find_duplicate key l = find_duplicate id (key <$> l).
Proof. induction l as [|x [|y l] IH]; [done|done|]. cbn [find_duplicate fmap list_fmap] in *. unfold id at 1 2 3. by rewrite IH. Qed.

Lemma order_invariant operations operations' : operations ≡ₚ operations' ->
  (exists k, find_duplicate operation_id (operation_order operations) = Some k /\ find_duplicate operation_id (operation_order operations') = Some k) \/
  operation_order operations = operation_order operations'.
Proof.
  intros Hp. pose proof (sorted_duplicate_cases operation_id operations) as Hd. fold (operation_order operations) in Hd.
  destruct (find_duplicate operation_id (operation_order operations)) as [k|] eqn:Ek.
  - left. exists k. split; [done|]. rewrite <- Ek. rewrite !(find_duplicate_fmap operation_id). f_equal. unfold operation_order.
    rewrite <- !(sort_by_fmap (cmp_on operation_id N.compare) N.compare operation_id) by done. apply sort_N_Permutation. by rewrite Hp.
  - right. destruct Hd as [Hs _]. apply sort_by_Permutation_strict; [typeclasses eauto|done|]. exact Hs.
Qed.

(** The order of the operations does not matter to the file. *)
Lemma append_batch_Permutation data operations operations' limits : operations ≡ₚ operations' ->
  append_batch data operations limits = append_batch data operations' limits.
Proof.
  intros Hp. assert (Hl : len operations = len operations') by (unfold len; by rewrite Hp). unfold append_batch. rewrite Hl.
  rewrite (bool_decide_ext (operations = []) (operations' = [])).
  2: { split; intros ->; [by apply Permutation_nil_l in Hp|by apply Permutation_nil_r in Hp]. }
  destruct (order_invariant operations operations' Hp) as [(k & E1 & E2)|E].
  - by rewrite E1, E2.
  - by rewrite E.
Qed.
End Batch.
