(* ===== verification/ImmutableHistory.v ===== *)
(** Readers over several commits of an immutable-page file, and the rewrite of
    selected objects: the history lists the commits back to the first, the
    recovery scan finds the prefixes that validate, and a rewrite is a genesis
    of the objects selected. *)

From Stdlib Require Import Strings.Byte Strings.String NArith ZArith Lia.
From stdpp Require Import base list gmap strings sorting.
From S2P Require Import Prelude Order Digest Exp0002 Exp0002File Exp0002Pages Exp0002Strict Exp0002Levels Immutable ImmutableFacts ImmutableStrict.
From S2P Require Import Immutable ImmutableBuild ImmutableBatch.

Local Open Scope N_scope.

(** ** History *)

Section History.
Context `{HS : Sha256} `{HL : Layout}.
Implicit Types data : bytes.

Definition entry_at (end_ : N) (data : bytes) f root es offs : ImmutableHistoryEntry :=
  mkHistoryEntry (end_ - FOOTER_LEN) (ir_public (image_report data f root es offs)).

(** The commits of the first [end_] bytes, newest first, down to one that
    follows nothing. *)
Inductive history data : N -> list ImmutableHistoryEntry -> Prop :=
  | history_first end_ f parent root commit_start es offs : valid_image (slice data 0 end_) f parent root commit_start es offs ->
      ft_previous_footer_offset f = ABSENT_OFFSET -> history data end_ [entry_at end_ data f root es offs]
  | history_next end_ f parent root commit_start es offs rest : valid_image (slice data 0 end_) f parent root commit_start es offs ->
      ft_previous_footer_offset f <> ABSENT_OFFSET -> history data (ft_previous_footer_offset f + FOOTER_LEN) rest ->
      history data end_ (entry_at end_ data f root es offs :: rest).

Lemma im_slice_prefix data n a e : n <= len data -> e <= n -> slice (slice data 0 n) a e = slice data a e.
Proof.
  intros Hn He. by rewrite subslice by lia.
Qed.

Lemma footer_prefix data n offset f : n <= len data -> offset + FOOTER_LEN <= n -> parse_footer (slice data 0 n) offset = Ok f <-> parse_footer data offset = Ok f.
Proof. intros Hn Ho. rewrite !im_footer_Ok, im_slice_prefix, slice_len by lia. split; intros (? & ? & ? & ?); split_and!; try done; lia. Qed.

(** Where the commit before a commit ends. *)
Lemma previous_end data f parent root commit_start es offs : valid_image data f parent root commit_start es offs -> ft_previous_footer_offset f <> ABSENT_OFFSET ->
  ft_previous_footer_offset f + FOOTER_LEN <= len data - FOOTER_LEN /\ ft_previous_footer_offset f + FOOTER_LEN <= U64_MAX /\ FOOTER_LEN <= len data /\
  exists previous, parse_footer data (ft_previous_footer_offset f) = Ok previous /\ ft_sequence f = ft_sequence previous + 1.
Proof.
  intros [[_ _ Hend Hf _ _ _ _ _ Hl _] _ _ _ _ _ _ _ _] Hp. destruct Hl as [[? _]|(_ & Ecs & Hcs & p & Hpf & Hs & _)]; [done|].
  pose proof (proj1 (im_footer_Ok _ _ _) Hpf) as (_ & Hm & _). split_and!; [lia|done|lia|]. by exists p.
Qed.

(** The newest commits down to a prefix of [n] bytes that the commits found so
    far lead to. *)
Inductive reaches data : N -> list ImmutableHistoryEntry -> N -> Prop :=
  | reaches_here end_ : reaches data end_ [] end_
  | reaches_next end_ f parent root commit_start es offs rest n : valid_image (slice data 0 end_) f parent root commit_start es offs ->
      ft_previous_footer_offset f <> ABSENT_OFFSET -> reaches data (ft_previous_footer_offset f + FOOTER_LEN) rest n ->
      reaches data end_ (entry_at end_ data f root es offs :: rest) n.

(** Why the prefix of [n] bytes is not listed after [k] entries. *)
Definition history_stops data limits (k n : N) (e : Failure) : Prop :=
  e = limit "history entries" /\ max_history_entries limits <= k \/
  k < max_history_entries limits /\
    (allocation_check size_of_history_entry (k + 1) limits = Err e \/ validate_internal (slice data 0 n) limits = Err e).

Lemma history_loop_exact fuel data limits end_ entries : len data <= U64_MAX -> end_ <= len data ->
  max_history_entries limits <= len entries + N.of_nat fuel ->
  match history_loop fuel data limits end_ entries with
  | Ok r => exists rest, history data end_ rest /\ r = entries ++ rest /\ len r <= max_history_entries limits
  | Err e => exists listed n, reaches data end_ listed n /\ history_stops data limits (len entries + len listed) n e
  end.
Proof.
  intros Hm. revert end_ entries. induction fuel as [|fuel IH]; intros end_ entries He Hfuel; cbn [history_loop].
  all: destruct (N.leb_spec (max_history_entries limits) (len entries)) as [Hfull|Hroom]; cbn [negb];
    [exists [], end_; split; [apply reaches_here|left; rewrite len_nil, N.add_0_r; by split]|].
  { lia. }
  assert (Hhere : forall e, allocation_check size_of_history_entry (len entries + 1) limits = Err e \/ validate_internal (slice data 0 end_) limits = Err e ->
    exists listed n, reaches data end_ listed n /\ history_stops data limits (len entries + len listed) n e).
  { intros e Hs. exists [], end_. split; [apply reaches_here|right]. rewrite len_nil, N.add_0_r. by split. }
  destruct (allocation_check _ _ _) as [[]|e] eqn:Hal; [|by apply Hhere; left].
  destruct (validate_internal (slice data 0 end_) limits) as [internal|e] eqn:Hvi; [|by apply Hhere; right]. clear Hhere.
  apply validate_internal_sound in Hvi as (f & parent & root & commit_start & es & offs & Hv & _ & ->). cbn [image_report ir_footer_offset].
  pose proof Hv as [[_ _ Hend Hf _ _ _ _ _ _ _] _ _ _ _ _ _ _ _]. rewrite Hf, (slice_len data 0 end_), N.sub_0_r by lia.
  rewrite (proj2 (u64_from_usize_Ok (end_ - FOOTER_LEN) (end_ - FOOTER_LEN))) by (split; [done|lia]).
  fold (image_report data f root es offs). change (mkHistoryEntry (end_ - FOOTER_LEN) _) with (entry_at end_ data f root es offs).
  destruct (N.eqb_spec (ft_previous_footer_offset f) ABSENT_OFFSET) as [Ea|Ea].
  { exists [entry_at end_ data f root es offs]. split_and!; [by eapply history_first|done|]. autorewrite with len. lia. }
  destruct (previous_end _ _ _ _ _ _ _ Hv Ea) as (H1 & H2 & H3 & _). rewrite slice_len, N.sub_0_r in H1, H3 by lia.
  rewrite (proj2 (usize_from_u64_Ok (ft_previous_footer_offset f) _ (ft_previous_footer_offset f))) by (split; [done|lia]).
  rewrite checked_add_fits by done. cbn [ok_or]. assert (Hfl : 0 < FOOTER_LEN) by done.
  rewrite (proj2 (N.leb_gt _ _)), (proj2 (N.ltb_ge _ _)) by lia. cbn [negb orb].
  specialize (IH (ft_previous_footer_offset f + FOOTER_LEN) (entries ++ [entry_at end_ data f root es offs]) ltac:(lia) ltac:(autorewrite with len; lia)).
  destruct (history_loop _ _ _ _ _) as [r|e].
  - destruct IH as (rest & Hh & -> & Hlen). exists (entry_at end_ data f root es offs :: rest). rewrite <- app_assoc in *.
    split_and!; [by eapply history_next|done|done].
  - destruct IH as (listed & n & Hr & Hs). exists (entry_at end_ data f root es offs :: listed), n. split; [by eapply reaches_next|].
    rewrite len_app in Hs. change (len [_]) with 1 in Hs. rewrite len_cons, N.add_assoc. exact Hs.
Qed.

Lemma history_loop_limited fuel data limits end_ entries rest : end_ <= len data -> history data end_ rest ->
  max_history_entries limits <= len entries + N.of_nat fuel -> limited (history_loop fuel data limits end_ entries) (eq (entries ++ rest)).
Proof.
  intros He Hh. revert fuel entries He. induction Hh as [end_ f parent root commit_start es offs Hv Hp|end_ f parent root commit_start es offs rest Hv Hp Hh IH];
    intros fuel entries He Hfuel; destruct fuel as [|fuel]; cbn [history_loop]; limit_step; bool_facts; try lia; limit_step;
    (eapply limited_bind; [by apply (validate_internal_limited _ limits _ _ _ _ _ _ Hv)|]); intros ? <-; cbn [image_report ir_footer_offset];
    pose proof Hv as [[_ _ Hend Hf _ _ _ _ _ _ _] _ _ _ _ _ _ _ _]; rewrite Hf; limit_step; rewrite (slice_len data 0 end_), N.sub_0_r in * by lia.
  - rewrite (proj2 (N.eqb_eq _ _) Hp). done.
  - rewrite (proj2 (N.eqb_neq _ _) Hp). destruct (previous_end _ _ _ _ _ _ _ Hv Hp) as (H1 & H2 & H3 & _). rewrite slice_len, N.sub_0_r in H1, H3 by lia.
    rewrite (proj2 (usize_from_u64_Ok (ft_previous_footer_offset f) _ (ft_previous_footer_offset f))) by (split; [done|lia]).
    rewrite checked_add_fits by done. cbn [ok_or]. assert (Hfl : 0 < FOOTER_LEN) by done.
    rewrite (proj2 (N.leb_gt _ _)), (proj2 (N.ltb_ge _ _)) by lia. cbn [negb orb].
    eapply limited_mono; [|apply IH; [lia|autorewrite with len; lia]]. intros r <-. by rewrite <- app_assoc.
Qed.

(** The sequence numbers of the commits count down to zero. *)
Lemma history_sequences data end_ entries : history data end_ entries -> end_ <= len data ->
  forall i e, entries !! i = Some e -> rp_sequence (he_report e) + N.of_nat i + 1 = len entries.
Proof.
  intros Hh. induction Hh as [end_ f parent root commit_start es offs Hv Hp|end_ f parent root commit_start es offs rest Hv Hp Hh IH]; intros He i e Hi.
  - destruct i as [|i]; [|done]. injection Hi as <-. autorewrite with len. cbn [entry_at he_report image_report ir_public rp_sequence].
    destruct Hv as [[_ _ _ _ _ _ _ _ _ [(_ & -> & _)|[? _]] _] _ _ _ _ _ _ _ _]; [done|done].
  - destruct (previous_end _ _ _ _ _ _ _ Hv Hp) as (H1 & H2 & H3 & p & Hpf & Hs). rewrite slice_len, N.sub_0_r in H1, H3 by lia. specialize (IH ltac:(lia)).
    rewrite len_cons. destruct i as [|i]; [|specialize (IH i e Hi); lia]. injection Hi as <-. cbn [entry_at he_report image_report ir_public rp_sequence].
    apply footer_prefix in Hpf; [|done|lia].
    assert (Hhead : exists e, rest !! 0%nat = Some e /\ rp_sequence (he_report e) = ft_sequence p).
    { clear IH. remember (ft_previous_footer_offset f + FOOTER_LEN) as end1 eqn:Eend. destruct Hh as [end2 f2 parent2 root2 cs2 es2 offs2 Hv2 _|end2 f2 parent2 root2 cs2 es2 offs2 rest2 Hv2 _ _].
      all: eexists; split; [done|]; cbn [entry_at he_report image_report ir_public rp_sequence].
      all: destruct Hv2 as [[_ _ _ Hf2 _ _ _ _ _ _ _] _ _ _ _ _ _ _ _]; rewrite slice_len, N.sub_0_r in Hf2 by lia.
      all: apply footer_prefix in Hf2; [|lia|lia]; rewrite Eend, N.add_sub in Hf2; rewrite Hpf in Hf2; by injection Hf2 as ->. }
    destruct Hhead as (e & He0 & Hse). specialize (IH 0%nat e He0). lia.
Qed.
End History.

(** ** Recovery *)

Section Recovery.
Context `{HS : Sha256} `{HL : Layout}.
Implicit Types data : bytes.

(** The prefix that ends with a footer at [offset], when it validates. *)
Definition candidate_at data limits (offset : N) : option ImmutableRecoveryCandidate :=
  if bool_decide (get_range data offset (offset + len FOOTER_MAGIC) = Some FOOTER_MAGIC) && (offset + FOOTER_LEN <=? len data) then
    match validate_internal (slice data 0 (offset + FOOTER_LEN)) limits with
    | Ok internal => Some (mkCandidate offset (offset + FOOTER_LEN) (ir_public internal))
    | Err _ => None
    end
  else None.

(** The offsets from [n] above [lo] down to it. *)
Fixpoint offsets_down (lo : N) (n : nat) : list N :=
  (lo + N.of_nat n) :: match n with O => [] | S n => offsets_down lo n end.

(** A scan that has not stopped. *)
Record scanning limits (s : RecoveryScan) : Prop := mkScanning {
  sw_attempted : sn_attempted s <= max_recovery_attempts limits;
  sw_candidates : len (sn_candidates s) <= max_recovery_candidates limits;
  sw_open : sn_attempts_truncated s = false /\ sn_candidates_truncated s = false;
}.

(** What a scan [s] of the footers [hits] still to come ends with. As many are
    tried as attempts are left. When the valid prefixes among them exceed the
    candidates allowed, the scan ends at the first one too many; otherwise all
    are tried and reported, and footers left over are said to be. *)
Definition tried limits (hits : list N) (s : RecoveryScan) : list N := take (N.to_nat (max_recovery_attempts limits - sn_attempted s)) hits.

Definition scan_from data limits (hits : list N) (s r : RecoveryScan) : Prop :=
  let found := omap (candidate_at data limits) (tried limits hits s) in
  let over := max_recovery_candidates limits <? len (sn_candidates s) + len found in
  sn_candidates r = take (N.to_nat (max_recovery_candidates limits)) (sn_candidates s ++ found) /\
  sn_candidates_truncated r = over /\
  sn_attempts_truncated r = negb over && (max_recovery_attempts limits <? sn_attempted s + len hits) /\
  (if over then exists before hit after, tried limits hits s = before ++ hit :: after /\ is_Some (candidate_at data limits hit) /\
       sn_candidates r = sn_candidates s ++ omap (candidate_at data limits) before /\ sn_attempted r = sn_attempted s + len before + 1
   else sn_attempted r = sn_attempted s + len (tried limits hits s)).

(** Why it is refused: no room for a candidate to be reported; or one of the
    prefixes it tries panics. *)
Definition scan_refused data limits (hits : list N) (s : RecoveryScan) (e : Failure) : Prop :=
  match e with
  | Panicked => exists offset, offset ∈ tried limits hits s /\ validate_internal (slice data 0 (offset + FOOTER_LEN)) limits = Err Panicked
  | Refused (Limit l) => exists k, len (sn_candidates s) < k <= max_recovery_candidates limits /\
      k <= len (sn_candidates s) + len (omap (candidate_at data limits) (tried limits hits s)) /\
      allocation_check size_of_recovery_candidate k limits = Err (limit l)
  | Refused _ => False
  end.

Definition decided {A} (r : I A) (P : A -> Prop) (E : Failure -> Prop) : Prop := match r with Ok a => P a | Err e => E e end.

(** The scan after one more attempt, with what it found. *)
Definition attempted_at data limits (offset : N) (s : RecoveryScan) : RecoveryScan :=
  mkScan (sn_attempted s + 1) (sn_attempts_truncated s) (sn_candidates_truncated s)
    (sn_candidates s ++ option_list (candidate_at data limits offset)).

Lemma omap_tried data limits hit hits s : sn_attempted s < max_recovery_attempts limits ->
  tried limits (hit :: hits) s = hit :: tried limits hits (attempted_at data limits hit s) /\
  omap (candidate_at data limits) (tried limits (hit :: hits) s) =
    option_list (candidate_at data limits hit) ++ omap (candidate_at data limits) (tried limits hits (attempted_at data limits hit s)).
Proof.
  intros Ha. assert (E : tried limits (hit :: hits) s = hit :: tried limits hits (attempted_at data limits hit s)).
  { unfold tried. cbn [attempted_at sn_attempted]. replace (N.to_nat (max_recovery_attempts limits - sn_attempted s))
      with (S (N.to_nat (max_recovery_attempts limits - (sn_attempted s + 1)))) by lia. done. }
  rewrite E. split; [done|]. cbn [omap list_omap]. by destruct (candidate_at data limits hit).
Qed.

Lemma tried_none limits hits s : max_recovery_attempts limits <= sn_attempted s -> tried limits hits s = [].
Proof. intros Ha. unfold tried. replace (max_recovery_attempts limits - sn_attempted s) with 0 by lia. done. Qed.

Lemma take_within {A} n (l : list A) : len l <= n -> take (N.to_nat n) l = l.
Proof. intros Hl. apply take_ge. unfold len in Hl. lia. Qed.

Lemma scan_from_end data limits s : scanning limits s -> scan_from data limits [] s s.
Proof.
  intros [Ha Hc [H1 H2]]. unfold scan_from, tried. rewrite take_nil. cbn [omap list_omap]. change (len []) with 0. change (len []) with 0.
  rewrite !N.add_0_r, app_nil_r, (proj2 (N.ltb_ge _ _) Hc), (proj2 (N.ltb_ge _ _) Ha), take_within by done. done.
Qed.

Lemma scan_from_out_of_attempts data limits hit hits s : scanning limits s -> max_recovery_attempts limits <= sn_attempted s ->
  scan_from data limits (hit :: hits) s (mkScan (sn_attempted s) true (sn_candidates_truncated s) (sn_candidates s)).
Proof.
  intros [Ha Hc [H1 H2]] Hn. unfold scan_from. rewrite tried_none by done. cbn [omap list_omap sn_candidates sn_candidates_truncated sn_attempts_truncated sn_attempted].
  rewrite len_cons. change (len []) with 0. change (len []) with 0. rewrite !N.add_0_r, app_nil_r, (proj2 (N.ltb_ge _ _) Hc), take_within by done.
  rewrite (proj2 (N.ltb_lt _ _)) by lia. done.
Qed.

Lemma scan_from_out_of_candidates data limits hit hits s : scanning limits s -> sn_attempted s < max_recovery_attempts limits ->
  max_recovery_candidates limits <= len (sn_candidates s) -> is_Some (candidate_at data limits hit) ->
  scan_from data limits (hit :: hits) s (mkScan (sn_attempted s + 1) (sn_attempts_truncated s) true (sn_candidates s)).
Proof.
  intros [Ha Hc [H1 H2]] Hn Hfull [c Hh]. unfold scan_from. destruct (omap_tried data limits hit hits s Hn) as [E1 E2]. rewrite E2, Hh. change (option_list (Some c)) with [c].
  set (rest := omap _ (tried limits hits _)). autorewrite with len.
  rewrite (proj2 (N.ltb_lt (max_recovery_candidates limits) _)) by lia.
  cbn [sn_candidates sn_candidates_truncated sn_attempts_truncated sn_attempted negb andb].
  split_and!; [|done|done|].
  - rewrite take_app_le by (unfold len in *; lia). symmetry. by apply take_within.
  - exists [], hit, (tried limits hits (attempted_at data limits hit s)). split_and!; [done|by eexists|by rewrite app_nil_r|]. change (len []) with 0. lia.
Qed.

Lemma scan_from_next data limits hit hits s r : sn_attempted s < max_recovery_attempts limits ->
  scan_from data limits hits (attempted_at data limits hit s) r -> scan_from data limits (hit :: hits) s r.
Proof.
  intros Hn. unfold scan_from. destruct (omap_tried data limits hit hits s Hn) as [E1 E2]. rewrite E2, E1.
  cbn [attempted_at sn_candidates sn_attempted]. rewrite !len_app, !len_cons, <- app_assoc, <- !N.add_assoc. set (over := _ <? _).
  intros (H1 & H2 & H3 & H4). split_and!; [done|done|done|]. destruct over.
  - destruct H4 as (before & h & after & H4 & H5 & H6 & H7). exists (hit :: before), h, after. rewrite H4, len_cons. split_and!; [done|done| |lia].
    rewrite H6, <- app_assoc. f_equal. cbn [omap list_omap]. by destruct (candidate_at data limits hit).
  - lia.
Qed.

Lemma scan_refused_next data limits hit hits s e : sn_attempted s < max_recovery_attempts limits ->
  scan_refused data limits hits (attempted_at data limits hit s) e -> scan_refused data limits (hit :: hits) s e.
Proof.
  intros Hn. unfold scan_refused. destruct (omap_tried data limits hit hits s Hn) as [E1 E2]. rewrite E2, E1. cbn [attempted_at sn_candidates].
  destruct e as [[]|]; try done.
  - intros (k & Hk). exists k. rewrite !len_app in *. intuition lia.
  - intros (o & Ho & Hv). exists o. split; [by right|done].
Qed.

Lemma footer_offset_of data limits internal : validate_internal data limits = Ok internal -> ir_footer_offset internal = len data - FOOTER_LEN.
Proof. intros (f & parent & root & cs & es & offs & _ & _ & ->)%validate_internal_sound. done. Qed.

Definition magic_at data (offset : N) : bool := bool_decide (get_range data offset (offset + len FOOTER_MAGIC) = Some FOOTER_MAGIC).

(** One footer: the scan is over, or goes on with the rest. *)
Lemma recovery_attempt_decided data limits hit hits s : len data <= U64_MAX -> scanning limits s -> magic_at data hit = true ->
  decided (recovery_attempt data limits hit s)
    (fun r => if r.2 : bool then sn_attempted s < max_recovery_attempts limits /\ r.1 = attempted_at data limits hit s /\ scanning limits r.1
              else scan_from data limits (hit :: hits) s r.1)
    (scan_refused data limits (hit :: hits) s).
Proof.
  intros Hm Hw Hg. pose proof Hw as [Ha Hc Hopen]. unfold recovery_attempt.
  destruct (N.leb_spec (max_recovery_attempts limits) (sn_attempted s)) as [Hn|Hn]; [by apply scan_from_out_of_attempts|].
  destruct (omap_tried data limits hit hits s Hn) as [E1 E2].
  assert (Hskip : candidate_at data limits hit = None ->
    attempted_at data limits hit s = mkScan (sn_attempted s + 1) (sn_attempts_truncated s) (sn_candidates_truncated s) (sn_candidates s) /\
    scanning limits (mkScan (sn_attempted s + 1) (sn_attempts_truncated s) (sn_candidates_truncated s) (sn_candidates s))).
  { intros E. unfold attempted_at. rewrite E, app_nil_r. split; [done|]. split; cbn; [lia|done|done]. }
  unfold candidate_at in Hskip at 1. fold (magic_at data hit) in Hskip. rewrite Hg in Hskip. cbn [andb] in Hskip.
  destruct (checked_add hit FOOTER_LEN) as [n|] eqn:Hadd.
  2: { unfold checked_add in Hadd. destruct (N.leb_spec (hit + FOOTER_LEN) U64_MAX) as [|Hu]; [done|].
       rewrite (proj2 (N.leb_gt _ _)) in Hskip by lia. destruct (Hskip eq_refl) as [Es Hs]. cbn. by rewrite Es. }
  apply checked_add_Some in Hadd as [-> Hu]. destruct (N.leb_spec (hit + FOOTER_LEN) (len data)) as [Hle|]; [|destruct (Hskip eq_refl) as [Es Hs]; cbn; by rewrite Es].
  destruct (validate_internal (slice data 0 (hit + FOOTER_LEN)) limits) as [internal|[e|]] eqn:Hv; [|destruct (Hskip eq_refl) as [Es Hs]; cbn; by rewrite Es|].
  2: { exists hit. rewrite E1. split; [by left|done]. }
  pose proof (footer_offset_of _ _ _ Hv) as Hf. rewrite slice_len, N.sub_0_r in Hf by lia. rewrite Hf, (proj2 (N.eqb_eq _ _)) by lia. cbn [sn_candidates].
  assert (Hsome : candidate_at data limits hit = Some (mkCandidate hit (hit + FOOTER_LEN) (ir_public internal))).
  { unfold candidate_at. fold (magic_at data hit). by rewrite Hg, (proj2 (N.leb_le _ _) Hle), Hv. }
  destruct (N.leb_spec (max_recovery_candidates limits) (len (sn_candidates s))) as [Hfull|Hroom].
  { cbn. apply scan_from_out_of_candidates; [done..|]. by rewrite Hsome. }
  destruct (allocation_check _ _ _) as [[]|e] eqn:Hal.
  2: { assert (He : exists l, e = limit l) 
         by (unfold allocation_check in Hal; destruct (checked_mul _ _); cbn [ok_or] in Hal; [destruct (negb _); [done|]|]; injection Hal as <-; by eexists).
       destruct He as [l ->]. cbn. exists (len (sn_candidates s) + 1). rewrite E2, Hsome. unfold option_list. cbn [option_rect app].
       autorewrite with len.
       split_and!; [lia|lia|lia|done]. }
  rewrite !(proj2 (u64_from_usize_Ok _ _)) by (split; [done|lia]). cbn. split_and!; [done| |].
  - unfold attempted_at. by rewrite Hsome.
  - split; cbn; [lia| |done]. rewrite len_app, len_cons. change (len []) with 0. lia.
Qed.

Lemma recovery_loop_decided data limits lo n s : len data <= U64_MAX -> scanning limits s ->
  let hits := filter (magic_at data) (offsets_down lo n) in
  decided (recovery_loop n data limits lo s) (scan_from data limits hits s) (scan_refused data limits hits s).
Proof.
  intros Hm. revert s. induction n as [|n IH]; intros s Hw; cbn [recovery_loop offsets_down]; rewrite filter_cons; fold (magic_at data (lo + N.of_nat 0)).
  all: set (offset := lo + N.of_nat _); fold (magic_at data offset); set (rest := filter _ _).
  all: destruct (decide (magic_at data offset)) as [Hg%Is_true_true|Hg%Is_true_false]; rewrite Hg.
  2: by apply scan_from_end.
  3: by apply IH.
  all: pose proof (recovery_attempt_decided data limits offset rest s Hm Hw Hg) as Hd;
    destruct (recovery_attempt data limits offset s) as [[r []]|e]; cbn [decided fst snd] in *; try done; destruct Hd as (Hn & -> & Hw').
  - apply scan_from_next; [done|]. by apply scan_from_end.
  - specialize (IH _ Hw'). fold rest in IH. destruct (recovery_loop _ _ _ _ _) as [r|e]; cbn [decided] in *; [by apply scan_from_next|by apply scan_refused_next].
Qed.

(** The offsets a scan covers, and those with a footer's magic, newest first. *)
Definition scan_offsets data limits : list N :=
  let scanned := N.min (len data) (max_recovery_scan_bytes limits) in
  if len FOOTER_MAGIC <=? scanned then offsets_down (len data - scanned) (N.to_nat (scanned - len FOOTER_MAGIC)) else [].

Definition scan_hits data limits : list N := filter (magic_at data) (scan_offsets data limits).

Definition scan_report data limits (r : ImmutableRecoveryReport) : Prop :=
  rr_scanned_bytes r = N.min (len data) (max_recovery_scan_bytes limits) /\ rr_scan_start r = len data - rr_scanned_bytes r /\
  scan_from data limits (scan_hits data limits) (mkScan 0 false false [])
    (mkScan (rr_attempted_footers r) (rr_attempts_truncated r) (rr_candidates_truncated r) (rr_candidates r)).

Lemma scan_decided data limits : len data <= U64_MAX ->
  decided (scan_recovery_candidates data limits) (fun r => len data <= max_file_bytes limits /\ scan_report data limits r)
    (fun e => e = limit "file size" /\ max_file_bytes limits < len data \/
              scan_refused data limits (scan_hits data limits) (mkScan 0 false false []) e).
Proof.
  intros Hm. unfold scan_recovery_candidates, scan_report, scan_hits, scan_offsets.
  destruct (N.ltb_spec (max_file_bytes limits) (len data)); cbn [negb]; [by left|]. set (scanned := N.min _ _). set (s0 := mkScan 0 false false []).
  assert (Hs0 : scanning limits s0) by (split; [apply N.le_0_l|apply N.le_0_l|done]).
  rewrite (proj2 (u64_from_usize_Ok _ (len data - scanned))) by (split; [done|lia]).
  destruct (N.leb_spec (len FOOTER_MAGIC) scanned) as [Hl|Hl].
  2: { cbn. split_and!; [done|done|done|]. by apply scan_from_end. }
  replace (len data - len FOOTER_MAGIC - (len data - scanned)) with (scanned - len FOOTER_MAGIC) by lia.
  pose proof (recovery_loop_decided data limits (len data - scanned) (N.to_nat (scanned - len FOOTER_MAGIC)) s0 Hm Hs0) as Hr. cbv zeta in Hr.
  destruct (recovery_loop _ _ _ _ _) as [s|e]; cbn [decided] in *; [|by right]. split_and!; [done|done|done|]. by destruct s.
Qed.
End Recovery.

(** ** Rewrites *)

Lemma map_result_outcome {A B} (f : A -> I B) (P : A -> B -> Prop) (E : A -> Failure -> Prop) l : (forall x, outcome (f x) (P x) (E x)) ->
  outcome (map_result f l) (Forall2 P l) (fun e => Exists (fun x => E x e) l).
Proof.
  intros Hf. induction l as [|x l IH]; cbn [map_result]; [constructor|]. specialize (Hf x). destruct (f x) as [y|[[]|]]; cbn [outcome] in *; try done; try by left.
  destruct (map_result f l) as [ys|[[]|]]; cbn [outcome] in *; try done; by right.
Qed.

Lemma fold_limited {A S} (f : S -> A -> I S) l s : (forall s x, x ∈ l -> limited (f s x) (fun _ => True)) -> limited (fold_result f l s) (fun _ => True).
Proof.
  revert s. induction l as [|x l IH]; intros s Hf; cbn [fold_result]; [done|]. eapply limited_bind; [apply Hf; by left|]. intros s' _. apply IH. intros. apply Hf. by right.
Qed.

Lemma any_window_duplicate l : any_window N.eqb l = bool_decide (is_Some (find_duplicate id l)).
Proof.
  unfold any_window. induction l as [|x [|y l] IH]; [done|done|]. cbn [check_windows find_duplicate] in *. change (id x) with x in *. change (id y) with y in *.
  destruct (x =? y); [done|exact IH].
Qed.

Section Rewrite.
Context `{HS : Sha256, !Sha256Ok HS} `{HL : Layout}.
Implicit Types data : bytes.

(** The input a locator stands for. *)
Definition input_of data (e : Locator) : ImmutableObjectInput := mkInput (lo_object_id e) (lo_kind e) (payload_at data e).

Lemma input_from_locator_Ok data e : object_present data e -> input_from_locator data e = Ok (input_of data e).
Proof.
  intros (_ & Hl & Hm & Hlen & _). unfold input_from_locator, input_of, payload_at.
  rewrite (proj2 (usize_from_u64_Ok (lo_record_offset e) _ (lo_record_offset e))) by (split; [done|lia]).
  rewrite (proj2 (usize_from_u64_Ok (lo_record_len e) _ (lo_record_len e))) by (split; [done|lia]).
  set (o := lo_record_offset e) in *. set (n := lo_record_len e) in *. rewrite (proj2 (im_range_Ok data o n _ (slice data o (o + n)))) by (split_and!; [lia|lia|done]).
  unfold checked_sub. rewrite (proj2 (N.leb_le _ _)) by lia. cbn [ok_or]. 
  rewrite (proj2 (im_range_Ok (slice data o (o + n)) OBJECT_HEADER_LEN (n - OBJECT_HEADER_LEN) _ (slice data (o + OBJECT_HEADER_LEN) (o + n)))); [done|].
  assert (Hsl : len (slice data o (o + n)) = n) by (rewrite slice_len; lia). split_and!; [lia|lia|]. rewrite subslice by lia. f_equal; lia.
Qed.

Lemma find_retained_outcome es k : locators_ordered es -> outcome (find_retained es k) (fun e => e ∈ es /\ lo_object_id e = k)
  (fun e => e = Refused (MissingObject k) /\ k ∉ (lo_object_id <$> es)).
Proof.
  intros Ho. unfold find_retained. pose proof (binary_search_cases es k Ho) as Hb. destruct (binary_search_by_key lo_object_id es k) as [i|i].
  - destruct Hb as (e & He & Hk). rewrite He. cbn. split; [by eapply list_elem_of_lookup_2|done].
  - destruct Hb as (_ & H1 & H2). cbn. split; [done|]. intros (e & -> & He)%list_elem_of_fmap. rewrite <- (take_drop i es) in He.
    apply elem_of_app in He as [He|He]; [specialize (H1 e He)|specialize (H2 e He)]; lia.
Qed.

Lemma check_rewrite_limited data es limits : Forall (object_present data) es -> limited (check_rewrite_allocation es limits) (fun _ => True).
Proof.
  intros Hp. unfold check_rewrite_allocation. eapply limited_bind.
  { apply fold_limited. intros total e He. destruct (proj1 (Forall_forall _ _) Hp e He) as (_ & _ & Hm & Hlen & _). cbv beta.
    rewrite (proj2 (usize_from_u64_Ok (lo_record_len e) _ (lo_record_len e))) by (split; [done|lia]). unfold checked_sub. rewrite (proj2 (N.leb_le _ _)) by lia.
    cbn [ok_or]. by apply limited_some. }
  intros total _. do 6 (eapply limited_bind; [by apply (limited_some _ _ (fun _ => True))|]; intros ? _). limit_step. done.
Qed.

(** The objects with the identifiers asked for. *)
Definition selected (m : gmap N (N * bytes)) (ids : list N) : gmap N (N * bytes) := filter (fun kv => kv.1 ∈ ids) m.

Lemma selected_contents data es sel ids : locators_ordered es -> Forall2 (fun k e => e ∈ es /\ lo_object_id e = k) ids sel -> NoDup ids ->
  inputs_contents (input_of data <$> sel) = selected (contents data es) ids.
Proof.
  intros Ho Hsel Hn. pose proof (ids_NoDup _ Ho) as Hne. unfold inputs_contents, selected, contents.
  assert (Hids : lo_object_id <$> sel = ids).
  { clear Hn. induction Hsel as [|k e ids sel [_ <-] Hf IH]; [done|]. by rewrite fmap_cons, IH. }
  apply map_eq. intros k. apply option_eq. intros v. rewrite map_lookup_filter_Some. rewrite <- !elem_of_list_to_map.
  2: { by rewrite contents_keys. }
  2: { rewrite <- !list_fmap_compose. change (NoDup (lo_object_id <$> sel)). by rewrite Hids. }
  rewrite !list_elem_of_fmap. split.
  - intros (i & E & (e & -> & He)%list_elem_of_fmap). injection E as -> ->. apply list_elem_of_lookup in He as (j & Hj).
    destruct (Forall2_lookup_r _ _ _ _ _ Hsel Hj) as (k & Hk & Hin & <-). split; [by exists e|]. by eapply list_elem_of_lookup_2.
  - intros [(e & E & He) Hk]. injection E as -> ->. cbn [fst] in Hk. apply list_elem_of_lookup in Hk as (j & Hj).
    destruct (Forall2_lookup_l _ _ _ _ _ Hsel Hj) as (e' & Hj' & Hin & Hk). assert (e' = e) as ->.
    { apply list_elem_of_lookup in Hin as (a & Ha), He as (b & Hb). assert (a = b) as ->; [|congruence].
      apply (NoDup_lookup _ _ _ (lo_object_id e) Hne); rewrite list_lookup_fmap; [rewrite Ha; cbn; congruence|by rewrite Hb]. }
    exists (input_of data e). split; [done|]. apply list_elem_of_fmap_2. by eapply list_elem_of_lookup_2.
Qed.

(** What a rewrite stands for: a genesis of the objects selected. *)
Definition rewrite_of data (es : list Locator) (requested : list N) (r : ImmutableRewriteResult) : Prop :=
  NoDup requested /\ rw_retained_object_ids r = sort_by N.compare requested /\ rw_byte_scoped_signatures_preserved r = false /\
  exists f es', canonical_file (rw_bytes r) f es' /\ ft_sequence f = 0 /\ ft_previous_footer_offset f = ABSENT_OFFSET /\
    contents (rw_bytes r) es' = selected (contents data es) requested /\
    rp_sequence (rw_output r) = 0 /\ rp_snapshot_digest (rw_output r) = ft_snapshot_digest f /\ (forall k, k ∈ requested -> k ∈ dom (contents data es)).

Definition rewrite_error data (es : list Locator) (requested : list N) (e : Failure) : Prop :=
  match e with
  | Refused (Invalid _) => requested = [] \/ ~ NoDup requested
  | Refused (MissingObject k) => k ∈ requested /\ contents data es !! k = None
  | _ => False
  end.

Lemma rewrite_internal_outcome data f parent root commit_start es offs requested limits : valid_image data f parent root commit_start es offs ->
  outcome (rewrite_from_internal data requested (image_report data f root es offs) limits)
    (fun r => rewrite_of data es requested r /\ rw_source r = ir_public (image_report data f root es offs)) (rewrite_error data es requested).
Proof.
  intros [_ Ht _ _ _ Hobj _ _ _]. destruct (ptree_spans _ _ _ _ _ Ht) as [(Ho & _) Hok]. cbn [fst] in *. unfold rewrite_from_internal.
  destruct (decide (requested = [])) as [->|Hne]; [by left|]. rewrite bool_decide_eq_false_2 by done. cbn [negb]. outcome_step.
  set (ids := sort_by N.compare requested). assert (Hperm : ids ≡ₚ requested) by apply sort_by_Permutation. rewrite any_window_duplicate.
  pose proof (sorted_duplicate_cases id requested) as Hd. change (sort_by (cmp_on id N.compare) requested) with ids in Hd. rewrite list_fmap_id in Hd.
  destruct (find_duplicate id ids) as [k|].
  { destruct Hd as (rest & Hd). cbn. right. rewrite Hd. intros [Hk _]%NoDup_cons. apply Hk. by left. }
  destruct Hd as [_ Hn]. rewrite bool_decide_eq_false_2 by (by intros [? ?]). cbn [negb image_report ir_locators ir_public]. do 2 outcome_step.
  pose proof (map_result_outcome (find_retained es) _ _ ids (fun k => find_retained_outcome es k Ho)) as Hsel.
  destruct (map_result (find_retained es) ids) as [sel|[[l|l|k|k]|]]; cbn [outcome] in *; try done.
  2-5: apply Exists_exists in Hsel as (k' & Hk' & [= ->] & Hnot).
  2: { rewrite Hperm in Hk'. split; [done|]. apply not_elem_of_dom. by rewrite contents_dom, elem_of_list_to_set. }
  assert (Hn' : NoDup ids) by by rewrite Hperm. pose proof (selected_contents data es sel ids Ho Hsel Hn') as Hcon.
  assert (Hin : Forall (fun e => object_present data e /\ locator_ok e) sel).
  { apply Forall_forall. intros e (j & Hj)%list_elem_of_lookup. destruct (Forall2_lookup_r _ _ _ _ _ Hsel Hj) as (k & _ & Hin & _).
    split; [by apply (proj1 (Forall_forall _ _) Hobj)|by apply (proj1 (Forall_forall _ _) Hok)]. }
  apply Forall_and in Hin as [Hin1 Hin2]. eapply outcome_bind; [by apply (check_rewrite_limited data)|]. intros _ _.
  rewrite (map_result_ok _ (input_of data)) by (intros e He; apply input_from_locator_Ok; by apply (proj1 (Forall_forall _ _) Hin1)).
  assert (Hids : in_object_id <$> (input_of data <$> sel) = ids).
  { rewrite <- list_fmap_compose. clear -Hsel. induction Hsel as [|k e ids sel [_ <-] Hf IH]; [done|]. by rewrite fmap_cons, IH. }
  assert (Hgen : limited (build_genesis (input_of data <$> sel) limits) (genesis_of (input_of data <$> sel))).
  { assert (Hval : Forall input_valid (input_of data <$> sel)).
    { apply Forall_fmap. eapply Forall_impl; [exact Hin2|]. intros e (H1 & H2 & H3 & H4 & _). by split_and!. }
    pose proof (genesis_outcome (input_of data <$> sel) limits (Forall_impl _ _ _ Hval (fun i Hi => proj1 Hi))) as Hg.
    destruct (build_genesis _ _) as [out|[[l|l|k|k]|]]; cbn [outcome limited genesis_error] in *; try done.
    - apply Exists_exists in Hg as (i & Hi & Hnv). apply Hnv. by apply (proj1 (Forall_forall _ _) Hval).
    - destruct Hg as (rest & Hg). rewrite Hids in Hg. rewrite Hg in Hn'. apply NoDup_cons in Hn' as [Hk _]. apply Hk. by left. }
  eapply outcome_bind; [exact Hgen|]. intros out (_ & _ & f' & es' & Hc & Hs0 & Hp0 & Hout).
  apply (outcome_bind _ _ (fun v => rp_sequence v = ft_sequence f' /\ rp_snapshot_digest v = ft_snapshot_digest f')).
  { destruct Hc as (parent' & root' & cs' & offs' & Hv' & _). unfold validate. eapply limited_bind; [by apply (validate_internal_limited _ limits _ _ _ _ _ _ Hv')|].
    by intros ? <-. }
  intros v [Hv1 Hv2]. cbn [outcome]. split; [|done]. split_and!; [done|done|done|]. exists f', es'. cbn [rw_bytes rw_output]. split_and!; try done.
  - rewrite Hout, Hcon. unfold selected. apply map_filter_ext. intros k x _. cbn [fst]. by rewrite Hperm.
  - by rewrite Hv1.
  - intros k Hk. rewrite <- Hperm in Hk. apply list_elem_of_lookup in Hk as (j & Hj). destruct (Forall2_lookup_l _ _ _ _ _ Hsel Hj) as (e & _ & He & <-).
    rewrite contents_dom, elem_of_list_to_set. by apply list_elem_of_fmap_2.
Qed.

Lemma rewrite_selected_outcome data f parent root commit_start es offs requested limits : valid_image data f parent root commit_start es offs ->
  outcome (rewrite_selected data requested limits)
    (fun r => rewrite_of data es requested r /\ rw_source r = ir_public (image_report data f root es offs)) (rewrite_error data es requested).
Proof.
  intros Hv. unfold rewrite_selected. eapply outcome_bind; [by apply (validate_internal_limited _ limits _ _ _ _ _ _ Hv)|]. intros ? <-.
  by apply (rewrite_internal_outcome _ _ parent root commit_start).
Qed.

(** All the objects of a file can be copied. *)
Lemma rewrite_all_limited data f parent root commit_start es offs limits : valid_image data f parent root commit_start es offs ->
  limited (rewrite_all data limits) (fun r => rewrite_of data es (lo_object_id <$> es) r /\
    exists f' es', canonical_file (rw_bytes r) f' es' /\ contents (rw_bytes r) es' = contents data es).
Proof.
  intros Hv. pose proof Hv as [_ Ht _ _ _ _ _ _ _]. destruct (ptree_spans _ _ _ _ _ Ht) as [(Ho & Hh & _) _]. cbn [fst] in *.
  unfold rewrite_all. eapply limited_bind; [by apply (validate_internal_limited _ limits _ _ _ _ _ _ Hv)|]. intros ? <-. cbn [image_report ir_locators].
  limit_step. pose proof (rewrite_internal_outcome data f parent root commit_start es offs (lo_object_id <$> es) limits Hv) as Hr.
  fold (image_report data f root es offs). destruct (rewrite_from_internal _ _ _ _) as [r|[[l|l|k|k]|]]; cbn [outcome limited rewrite_error] in *; try done.
  - destruct Hr as [Hr _]. split; [done|]. destruct Hr as (_ & _ & _ & f' & es' & Hc & _ & _ & Hcon & _). exists f', es'. split; [done|]. rewrite Hcon.
    unfold selected. apply map_eq. intros k. apply option_eq. intros v. rewrite map_lookup_filter_Some. split; [by intros [? _]|]. intros Hk. split; [done|]. cbn [fst].
    apply elem_of_dom_2 in Hk. by rewrite contents_dom, elem_of_list_to_set in Hk.
  - destruct Hr as [Hr|Hr]; [|by destruct Hr; apply ids_NoDup]. by destruct es.
  - destruct Hr as [Hk Hn]. apply not_elem_of_dom in Hn. by rewrite contents_dom, elem_of_list_to_set in Hn.
Qed.
End Rewrite.

(** ** Replacements *)

Section Replacement.
Context `{HS : Sha256, !Sha256Ok HS} `{HL : Layout}.
Implicit Types data : bytes.

Definition replacement_error data (f : Footer) (es : list Locator) (i : ImmutableObjectInput) (e : Failure) : Prop :=
  match e with
  | Refused (Invalid _) => ~ input_valid i
  | Refused (MissingObject k) => k = in_object_id i /\ contents data es !! k = None
  | Panicked => ft_sequence f = U64_MAX
  | _ => False
  end.

Definition replacement_of data (f : Footer) (es : list Locator) (i : ImmutableObjectInput) (out : bytes) : Prop :=
  in_object_id i ∈ dom (contents data es) /\
  exists more f' es', out = data ++ more /\ canonical_file out f' es' /\ ft_sequence f' = ft_sequence f + 1 /\
    ft_previous_footer_offset f' = len data - FOOTER_LEN /\ contents out es' = <[in_object_id i := (in_kind i, in_payload i)]> (contents data es).

Lemma put_locator_found es e i x : locators_ordered es -> es !! i = Some x -> lo_object_id x = lo_object_id e -> put_locator es e = <[i := e]> es.
Proof.
  intros Ho Hi Hk. unfold put_locator. pose proof (binary_search_cases es (lo_object_id e) Ho) as Hb. destruct (binary_search_by_key _ _ _) as [j|j].
  - destruct Hb as (y & Hj & Hy). assert (j = i) as ->; [|done]. apply (NoDup_lookup _ _ _ (lo_object_id e) (ids_NoDup _ Ho)); rewrite list_lookup_fmap; [rewrite Hj|rewrite Hi]; cbn; congruence.
  - destruct Hb as (_ & H1 & H2). apply list_elem_of_lookup_2 in Hi. rewrite <- (take_drop j es) in Hi. apply elem_of_app in Hi as [Hi|Hi]; [specialize (H1 x Hi)|specialize (H2 x Hi)]; lia.
Qed.

Lemma append_replacement_outcome data f es i limits : canonical_file data f es -> input_ok i ->
  outcome (append_replacement data i limits) (replacement_of data f es i) (replacement_error data f es i).
Proof.
  intros Hc Hi. unfold append_replacement. destruct (canonical_next data f es Hc) as (Hb & Hh & Hlo & Hm & (Hsq & _ & _ & _ & _ & Hsd & _) & Hfo).
  eapply outcome_bind; [by apply (canonical_limited data f es limits)|]. cbv beta. intros previous (-> & -> & -> & ->).
  destruct (list_find _ es) as [[p x]|] eqn:Hfind.
  2: { cbn. split; [done|]. apply not_elem_of_dom. rewrite contents_dom, elem_of_list_to_set. intros (e & Ee & He)%list_elem_of_fmap.
       apply list_find_None in Hfind. by apply (proj1 (Forall_forall _ _) Hfind e He). }
  apply list_find_Some in Hfind as (Hp & Hk & _).
  assert (Hdom : in_object_id i ∈ dom (contents data es)).
  { rewrite contents_dom, elem_of_list_to_set, <- Hk. apply list_elem_of_fmap_2. by eapply list_elem_of_lookup_2. }
  destruct (decide (in_object_id i <> 0 /\ in_kind i <> 0)) as [Hv|Hv].
  2: { assert (Hnv : ~ input_valid i) by (intros [_ ?]; tauto). unfold append_object. rewrite encode_object_invalid by done. done. }
  eapply outcome_bind; [apply (append_object_limited data i limits); done|]. cbv beta. intros [out e] (e' & E & He & Hpres & Hst & Hr).
  apply pair_equal_spec in E as [-> <-]. cbn [fst snd] in *. set (more := input_header i ++ in_payload i) in *.
  pose proof (put_locator_found es e p x (bk_ordered _ _ Hb) Hp ltac:(by destruct Hst as (-> & _))) as Hput. rewrite <- Hput.
  destruct (put_locator_ok data more e es Hb He Hpres Hr) as [Hb' Hcon].
  assert (Hne : put_locator es e <> []).
  { rewrite Hput. intros E. apply (f_equal length) in E. rewrite length_insert in E. by destruct es. }
  unfold checked_add. destruct (N.leb_spec (ft_sequence f + 1) U64_MAX) as [Hle|Hgt]; cbn [ok_or].
  2: { eapply outcome_bind; [apply build_tree_limited; [done|apply Hb'|apply Hb'|rewrite len_app; lia]|]. intros [[? ?] ?] _. cbn. lia. }
  assert (Ht : outcome (match build_tree (data ++ more) (put_locator es e) limits with
           | Ok x => let (y, pages) := x in let (output, root) := y in
               match publish output (ft_sequence f + 1) root (ft_snapshot_digest f) (len data - FOOTER_LEN) pages limits with
               | Ok output => match validate_canonical_occupancy output limits with Ok _ => Ok output | Err e => Err e end
               | Err e => Err e end
           | Err e => Err e end) (replacement_of data f es i) (replacement_error data f es i)).
  { apply (build_publish (data ++ more) (put_locator es e) (ft_sequence f + 1) (ft_snapshot_digest f) (len data - FOOTER_LEN) (len data)); try done.
    - by rewrite slice_app_l.
    - rewrite len_app. lia.
    - lia.
    - destruct Hfo as [(? & ? & _)|(F1 & F2 & q & F3 & F4)]; [left; split_and!; try done; lia|right]. split_and!; [done|done|]. exists q. split; [by apply footer_app|done].
    - intros out more' f' -> Hc' Ec Hsf Hpf. split; [done|]. exists (more ++ more'), f', (put_locator es e). rewrite app_assoc. split_and!; [done|done|done|done|].
      rewrite Ec, Hcon, (stores_contents _ _ _ Hst). by destruct Hst as (-> & _). }
  destruct (build_tree _ _ _) as [[[output root] pages]|]; [|done]. assert (Hu : u64_from_usize (len data - FOOTER_LEN) = Ok (len data - FOOTER_LEN)) by (apply u64_from_usize_Ok; split; [done|lia]).
  rewrite Hu. exact Ht.
Qed.
End Replacement.
