(* ===== verification/ImmutableTheorems.v ===== *)
(** The immutable-page successor format: what its strict validation, its
    writers, its rewrite and its readers over several commits guarantee, each
    with a concrete instance. *)

From Stdlib Require Import Strings.Byte Strings.String NArith ZArith Lia.
From stdpp Require Import base list gmap strings sorting.
From S2P Require Import Prelude Order Digest Exp0002 Exp0002File Exp0002Pages Exp0002Strict Exp0002Levels Immutable ImmutableFacts ImmutableStrict.
From S2P Require Import Immutable ImmutableBuild ImmutableBatch ImmutableHistory.

Local Open Scope N_scope.

(** ** A panic *)

Definition example_layout : Layout :=
  {| size_of_locator := 72; size_of_page_ref := 64; size_of_history_entry := 120; size_of_recovery_candidate := 128; size_of_object_input := 40 |}.

(** A file whose previous footer has the last sequence number. *)
Definition last_sequence_file `{Sha256} : bytes :=
  let root := mkPageRef 0 0 0 0 (zeros 32) in
  let sn := encode_snapshot 0 root (zeros 32) in
  let body := FILE_MAGIC ++ zeros 56 ++ encode_footer U64_MAX 0 96 ABSENT_OFFSET 0 (zeros 32) (zeros 32) ++ zeros (48 + N.to_nat PAGE_SIZE) in
  body ++ sn ++ encode_footer 0 (len body) 96 64 0 (digest [SNAPSHOT_DOMAIN; sn]) (zeros 32).

(** Such a file makes strict validation panic: the sum of the sequence number
    and one is not checked. *)
Lemma validation_panics : exists (hs : Sha256) (hl : Layout) data, validate (H := hs) (H0 := hl) data default_immutable_limits = Err Panicked.
Proof. exists cheap_sha, example_layout, (last_sequence_file (H := cheap_sha)). vm_compute. reflexivity. Qed.

(** ** Validation *)

Section Validation.
Context `{HS : Sha256, !Sha256Ok HS} `{HL : Layout}.

(** A refusal that is not a limit is of a file that is not valid, and a panic
    is at a previous footer with the last sequence number. *)
Definition not_valid (data : bytes) (e : Failure) : Prop :=
  (forall f parent root commit_start es offs, ~ valid_image data f parent root commit_start es offs) /\
  (e = Panicked -> exists f previous, parse_footer data (len data - FOOTER_LEN) = Ok f /\ ft_previous_footer_offset f <> ABSENT_OFFSET /\
     parse_footer data (ft_previous_footer_offset f) = Ok previous /\ ft_sequence previous = U64_MAX).

(** C6. Strict validation of immutable-page files, of any bytes: an accepted
    file is valid (header, footer, snapshot and commit digests in place, the
    commit linked to the one before, a tree of digested pages with keys in order,
    no two parts of the file sharing a byte, the record of every locator) and
    within the limits, and the report is its own; a limit is given as the
    cause only where the file exceeds one (the stack of references of the
    whole tree counted); any other refusal is of a file that is not valid,
    and a panic moreover of one whose previous footer has the last sequence
    number, which does happen. The canonical check accepts exactly the valid files whose pages are
    filled as the canonical form asks, up to limits. *)
Theorem immutable_validation_exact data limits :
  match validate data limits with
  | Ok r => exists f parent root commit_start es offs, valid_image data f parent root commit_start es offs /\
      image_admitted limits data root es offs /\ r = ir_public (image_report data f root es offs)
  | Err (Refused (Limit _)) => forall f parent root commit_start es offs, valid_image data f parent root commit_start es offs ->
      ~ (image_admitted limits data root es offs /\ fits size_of_page_ref (len offs) limits)
  | Err e => not_valid data e
  end /\
  match validate_canonical_occupancy data limits with
  | Ok r => exists f parent root commit_start es offs, valid_image data f parent root commit_start es offs /\
      filled data root_min root (es, offs) /\ r = ir_public (image_report data f root es offs)
  | Err (Refused (Limit _)) => True
  | Err _ => forall f es, ~ canonical_file data f es
  end /\
  exists (hs : Sha256) (hl : Layout) data, validate (H := hs) (H0 := hl) data default_immutable_limits = Err Panicked.
Proof.
  split; [|split; [|exact validation_panics]].
  - unfold validate. destruct (validate_internal data limits) as [r|e] eqn:Hr.
    + apply validate_internal_sound in Hr as (f & parent & root & cs & es & offs & Hv & Had & ->). by exists f, parent, root, cs, es, offs.
    + assert (Hnot : (forall l, e <> Refused (Limit l)) -> not_valid data e).
      { intros Hne. split.
        - intros f parent root cs es offs Hv. pose proof (validate_internal_limited data limits _ _ _ _ _ _ Hv) as Hl. rewrite Hr in Hl.
          destruct e as [[]|]; try done. by eapply Hne.
        - intros ->. by apply validate_internal_panics in Hr. }
      destruct e as [[l|l|k|k]|]; try (by apply Hnot). intros f parent root cs es offs Hv [Had Hfit].
      pose proof (validate_internal_complete data limits _ _ _ _ _ _ Hv Had Hfit) as Hok. by rewrite Hr in Hok.
  - unfold validate_canonical_occupancy. destruct (validate_canonical_internal data limits) as [r|e] eqn:Hr.
    + apply validate_canonical_sound in Hr as (f & parent & root & cs & es & offs & Hv & Hfill & _ & ->). by exists f, parent, root, cs, es, offs.
    + assert (Hnot : (forall l, e <> Refused (Limit l)) -> forall f es, ~ canonical_file data f es).
      { intros Hne f es Hc. pose proof (canonical_limited data f es limits Hc) as Hl. rewrite Hr in Hl. destruct e as [[]|]; try done. by eapply Hne. }
      destruct e as [[l|l|k|k]|]; by try apply Hnot.
Qed.
End Validation.

(** ** Writers *)

Section Writers.
Context `{HS : Sha256, !Sha256Ok HS} `{HL : Layout}.

(** C19. What [build_genesis] does: it returns the first commit of a canonical
    file that holds exactly the objects given, kinds and payloads included; or
    names a limit; or an identifier given twice; or refuses an object whose
    identifier or kind is zero. It never panics, and its own check never
    refuses what it wrote. *)
Theorem immutable_genesis_exact inputs limits : Forall input_ok inputs ->
  match build_genesis inputs limits with
  | Ok out => Forall input_valid inputs /\ NoDup (in_object_id <$> inputs) /\
      exists f es, canonical_file out f es /\ ft_sequence f = 0 /\ ft_previous_footer_offset f = ABSENT_OFFSET /\ contents out es = inputs_contents inputs
  | Err (Refused (Limit _)) => True
  | Err (Refused (DuplicateObject k)) => exists rest, in_object_id <$> inputs ≡ₚ k :: k :: rest
  | Err (Refused (Invalid _)) => Exists (fun i => ~ input_valid i) inputs
  | Err _ => False
  end.
Proof. intros Hok. pose proof (genesis_outcome inputs limits Hok) as Hg. by destruct (build_genesis inputs limits) as [out|[[l|l|k|k]|]]. Qed.

(** C8. What [append_batch] does on a canonical file: it returns the file with
    bytes appended, a canonical file whose last commit follows the former one
    and whose objects are the former ones under the operations; or names a limit;
    or an identifier of two operations; or a deleted object that is not there;
    or refuses a batch that is empty, has an operation with a zero identifier
    or kind, or leaves no object. It never panics, and the order of the
    operations changes nothing, not one byte. *)
Theorem immutable_batch_exact data f es operations limits : canonical_file data f es -> Forall operation_ok operations ->
  match append_batch data operations limits with
  | Ok out => applicable (contents data es) operations /\
      exists more f' es', out = data ++ more /\ canonical_file out f' es' /\ ft_sequence f' = ft_sequence f + 1 /\
        ft_previous_footer_offset f' = len data - FOOTER_LEN /\ contents out es' = foldl apply_spec (contents data es) operations
  | Err (Refused (Limit _)) => True
  | Err (Refused (DuplicateObject k)) => exists rest, operation_id <$> operations ≡ₚ k :: k :: rest
  | Err (Refused (MissingObject k)) => Delete k ∈ operations /\ contents data es !! k = None
  | Err (Refused (Invalid _)) => operations = [] \/ Exists (fun o => ~ operation_valid o) operations \/ foldl apply_spec (contents data es) operations = ∅
  | Err Panicked => False
  end /\
  forall operations', operations ≡ₚ operations' -> append_batch data operations' limits = append_batch data operations limits.
Proof.
  intros Hc Hok. split; [|intros ops' Hp; by apply append_batch_Permutation].
  pose proof (append_batch_outcome data f es operations limits Hc Hok) as Hb. by destruct (append_batch data operations limits) as [out|[[l|l|k|k]|]].
Qed.

(** What [append_replacement] does on a canonical file: as a batch of one
    put of an object that is there, except that after the last sequence
    number it panics. *)
Theorem immutable_replacement_exact data f es i limits : canonical_file data f es -> input_ok i ->
  match append_replacement data i limits with
  | Ok out => replacement_of data f es i out
  | Err (Refused (Limit _)) => True
  | Err e => replacement_error data f es i e
  end.
Proof. intros Hc Hi. pose proof (append_replacement_outcome data f es i limits Hc Hi) as Hb. by destruct (append_replacement data i limits) as [out|[[l|l|k|k]|]]. Qed.

(** C26. What [rewrite_selected] does on a valid file: it returns a genesis, a
    canonical file with exactly the objects selected, kinds and payloads
    included, and the reports of both files; or names a limit; or an
    identifier that is not there; or refuses a selection that is empty or has
    an identifier twice. [rewrite_all] copies every object, or names a limit. *)
Theorem immutable_rewrite_exact data f parent root commit_start es offs requested limits : valid_image data f parent root commit_start es offs ->
  match rewrite_selected data requested limits with
  | Ok r => NoDup requested /\ rw_retained_object_ids r = sort_by N.compare requested /\ rw_byte_scoped_signatures_preserved r = false /\
      rw_source r = ir_public (image_report data f root es offs) /\ (forall k, k ∈ requested -> k ∈ dom (contents data es)) /\
      exists f' es', canonical_file (rw_bytes r) f' es' /\ ft_sequence f' = 0 /\ ft_previous_footer_offset f' = ABSENT_OFFSET /\
        contents (rw_bytes r) es' = selected (contents data es) requested /\ rp_snapshot_digest (rw_output r) = ft_snapshot_digest f'
  | Err (Refused (Limit _)) => True
  | Err (Refused (MissingObject k)) => k ∈ requested /\ contents data es !! k = None
  | Err (Refused (Invalid _)) => requested = [] \/ ~ NoDup requested
  | Err _ => False
  end /\
  match rewrite_all data limits with
  | Ok r => exists f' es', canonical_file (rw_bytes r) f' es' /\ contents (rw_bytes r) es' = contents data es
  | Err (Refused (Limit _)) => True
  | Err _ => False
  end.
Proof.
  intros Hv. split.
  - pose proof (rewrite_selected_outcome data _ _ _ _ _ _ requested limits Hv) as Hr. destruct (rewrite_selected data requested limits) as [r|[[l|l|k|k]|]]; try done.
    destruct Hr as [(H1 & H2 & H3 & f' & es' & H4 & H5 & H6 & H7 & _ & H8 & H9) H10]. split_and!; try done. by exists f', es'.
  - pose proof (rewrite_all_limited data _ _ _ _ _ _ limits Hv) as Hr. destruct (rewrite_all data limits) as [r|[[l|l|k|k]|]]; try done. by destruct Hr.
Qed.

(** C40. The readers over several commits, of any bytes. The history, when it
    is returned, is the chain of commits from the last one, each a valid file
    of its own, back to one that follows nothing, with the sequence numbers
    down to zero and no more entries than allowed; it is refused only at a
    prefix that the chain reaches, for too many entries, for no room to hold
    one more, or with what that prefix's own validation is refused with; any
    refusal but a limit is of a file without such a chain. The recovery scan
    goes through the footer magics of its window, newest first. It tries as
    many of them as attempts are allowed, says exactly when some were left
    over, and counts the ones it tried; it reports the prefixes that end with
    one and validate, in that order, up to as many as candidates are allowed,
    and says exactly when there was one more. It is refused only for the size
    of the file, for no room to hold a candidate it found, or for a prefix it
    tried whose validation panics. *)
Theorem immutable_commits_exact data limits : len data <= U64_MAX ->
  match validate_history data limits with
  | Ok entries => history data (len data) entries /\ len entries <= max_history_entries limits /\
      forall i e, entries !! i = Some e -> rp_sequence (he_report e) + N.of_nat i + 1 = len entries
  | Err e => (exists listed n, reaches data (len data) listed n /\ history_stops data limits (len listed) n e) /\
      ((exists l, e = limit l) \/ forall entries, ~ history data (len data) entries)
  end /\
  match scan_recovery_candidates data limits with
  | Ok r => len data <= max_file_bytes limits /\ scan_report data limits r
  | Err e => e = limit "file size" /\ max_file_bytes limits < len data \/
      scan_refused data limits (scan_hits data limits) (mkScan 0 false false []) e
  end.
Proof.
  intros Hm. split; [|by apply scan_decided].
  pose proof (history_loop_exact (N.to_nat (max_history_entries limits)) data limits (len data) [] Hm ltac:(lia) ltac:(rewrite len_nil; lia)) as Hx.
  assert (Hl : forall entries, history data (len data) entries -> limited (validate_history data limits) (eq entries)).
  { intros entries Hh. unfold validate_history. limit_step. apply (history_loop_limited _ _ _ _ []); [done|done|]. rewrite len_nil. lia. }
  assert (Hr : validate_history data limits = history_loop (N.to_nat (max_history_entries limits)) data limits (len data) []).
  { unfold validate_history. destruct (N.eqb_spec (max_history_entries limits) 0) as [E|]; [|done].
    rewrite E. change (N.to_nat 0) with O. cbn [history_loop]. by rewrite E. }
  rewrite <- Hr in Hx. destruct (validate_history data limits) as [entries|e].
  - destruct Hx as (rest & Hh & -> & Hlen). split_and!; [done|done|]. by apply (history_sequences data (len data)).
  - split; [exact Hx|]. destruct e as [[l|l|k|k]|]; [by right; intros entries ?%Hl|left; by exists l|by right; intros entries ?%Hl..].
Qed.
End Writers.

(** ** Examples *)

#[local] Existing Instance cheap_sha.
#[local] Existing Instance cheap_sha_ok.
#[local] Existing Instance example_layout.

Definition example_inputs : list ImmutableObjectInput := [mkInput 7 2 (as_bytes "seven"); mkInput 3 1 (as_bytes "three")].
Definition example_operations : list ImmutableBatchOperation := [Delete 3; Put (mkInput 9 4 (as_bytes "nine"))].
Definition example_limits : ImmutableLimits :=
  mkImmutableLimits (512 * 1024 * 1024) 1000000 100000 8 (128 * 1024 * 1024) (512 * 1024 * 1024) 1024 256 4096 64.

Lemma example_inputs_ok : Forall input_ok example_inputs.
Proof. repeat constructor; by apply N.leb_le. Qed.

Lemma example_operations_ok : Forall operation_ok example_operations.
Proof. repeat constructor; by apply N.leb_le. Qed.

(** A file, and one more commit of it. *)
Lemma example_files : exists genesis f es out f' es', build_genesis example_inputs example_limits = Ok genesis /\ canonical_file genesis f es /\
  append_batch genesis example_operations example_limits = Ok out /\ canonical_file out f' es'.
Proof.
  assert (Hr : match build_genesis example_inputs example_limits with
    | Ok b => match append_batch b example_operations example_limits with Ok _ => true | Err _ => false end | Err _ => false end = true)
    by (vm_compute; reflexivity).
  pose proof (genesis_outcome example_inputs example_limits example_inputs_ok) as Hg.
  destruct (build_genesis example_inputs example_limits) as [b|]; [|discriminate Hr]. destruct Hg as (_ & _ & f & es & Hc & _).
  pose proof (append_batch_outcome b f es example_operations example_limits Hc example_operations_ok) as Hb.
  destruct (append_batch b example_operations example_limits) as [out|] eqn:Eb; [|discriminate Hr]. destruct Hb as (_ & _ & f' & es' & _ & Hc' & _).
  by exists b, f, es, out, f', es'.
Qed.

Lemma immutable_genesis_exact_witness : exists out f es, build_genesis example_inputs example_limits = Ok out /\ canonical_file out f es /\
  ft_sequence f = 0 /\ contents out es = inputs_contents example_inputs.
Proof.
  assert (Hr : is_ok (build_genesis example_inputs example_limits) = true) by (vm_compute; reflexivity).
  pose proof (immutable_genesis_exact example_inputs example_limits example_inputs_ok) as Hg.
  destruct (build_genesis example_inputs example_limits) as [out|e]; [|discriminate Hr]. destruct Hg as (_ & _ & f & es & Hc & Hs & _ & Hcon).
  exists out, f, es. exact (conj eq_refl (conj Hc (conj Hs Hcon))).
Defined.

Lemma immutable_batch_exact_witness : exists data f es out f' es', append_batch data example_operations example_limits = Ok out /\
  canonical_file data f es /\ canonical_file out f' es' /\ ft_sequence f' = ft_sequence f + 1 /\
  contents out es' = foldl apply_spec (contents data es) example_operations /\ append_batch data (reverse example_operations) example_limits = Ok out.
Proof.
  destruct example_files as (data & f & es & out & _ & _ & _ & Hc & Hb & _). exists data, f, es, out.
  destruct (immutable_batch_exact data f es example_operations example_limits Hc example_operations_ok) as [H1 H2]. rewrite Hb in H1.
  destruct H1 as (_ & _ & f' & es' & _ & Hc' & Hs & _ & Hcon). exists f', es'. split_and!; [exact Hb|exact Hc|exact Hc'|exact Hs|exact Hcon|].
  rewrite (H2 (reverse example_operations)); [exact Hb|]. symmetry. apply reverse_Permutation.
Defined.

Lemma immutable_rewrite_exact_witness : exists data f es r f' es', canonical_file data f es /\ rewrite_selected data [7] example_limits = Ok r /\
  canonical_file (rw_bytes r) f' es' /\ contents (rw_bytes r) es' = selected (contents data es) [7].
Proof.
  assert (Hr : match build_genesis example_inputs example_limits with
    | Ok b => is_ok (rewrite_selected b [7] example_limits) | Err _ => false end = true) by (vm_compute; reflexivity).
  destruct example_files as (data & f & es & out & f2 & es2 & Hg & Hc & _). rewrite Hg in Hr. destruct Hc as (parent & root & cs & offs & Hv & Hfill).
  destruct (immutable_rewrite_exact data f parent root cs es offs [7] example_limits Hv) as [H1 _].
  destruct (rewrite_selected data [7] example_limits) as [r|e] eqn:Er; [|discriminate Hr]. destruct H1 as (_ & _ & _ & _ & _ & f' & es' & Hc' & _ & _ & Hcon & _).
  exists data, f, es, r, f', es'. split; [exists parent, root, cs, offs; exact (conj Hv Hfill)|]. exact (conj Er (conj Hc' Hcon)).
Defined.

(** One attempt allowed, in a window that holds one footer. *)
Definition example_one_attempt : ImmutableLimits :=
  mkImmutableLimits (512 * 1024 * 1024) 1000000 100000 8 (128 * 1024 * 1024) (512 * 1024 * 1024) 1024 256 1 64.

Lemma immutable_commits_exact_witness : exists data entries report, validate_history data example_one_attempt = Ok entries /\
  history data (len data) entries /\ len entries = 2 /\
  scan_recovery_candidates data example_one_attempt = Ok report /\ scan_report data example_one_attempt report /\
  len (rr_candidates report) = 1 /\ rr_attempted_footers report = 1 /\ rr_attempts_truncated report = false.
Proof.
  assert (Hr : match build_genesis example_inputs example_limits with
    | Ok b => match append_batch b example_operations example_limits with
      | Ok out => match validate_history out example_one_attempt, scan_recovery_candidates out example_one_attempt with
        | Ok entries, Ok report => (len out <=? U64_MAX) && (len entries =? 2) && (len (rr_candidates report) =? 1) &&
            (rr_attempted_footers report =? 1) && negb (rr_attempts_truncated report)
        | _, _ => false end
      | Err _ => false end | Err _ => false end = true) by (vm_compute; reflexivity).
  destruct example_files as (data & f & es & out & f2 & es2 & Hg & _ & Hb & _). rewrite Hg, Hb in Hr.
  pose proof (immutable_commits_exact out example_one_attempt) as Ht.
  destruct (validate_history out example_one_attempt) as [entries|] eqn:Eh; [|discriminate Hr].
  destruct (scan_recovery_candidates out example_one_attempt) as [report|] eqn:Es; [|discriminate Hr]. bool_facts.
  destruct Ht as [(Hh & _ & _) [_ Hs]]; [done|]. exists out, entries, report. split_and!; [exact Eh|exact Hh|assumption|exact Es|exact Hs|assumption|assumption|assumption].
Defined.
